(* ===== verification/_CoqProject ===== *)
-Q . S2P
Prelude.v
BitTwiddles.v
WordArith.v
WordDivide.v
IntbvBase.v
IntbvLaws.v
IntbvArray.v
Intbv.v
IntbvSpec.v
IntbvCorrect.v
IntbvTheorems.v
WordIO.v
WordIOCorrect.v
Sintbv.v
SintbvCorrect.v
SintbvTheorems.v
SintbvText.v
LeIntbv.v
CircularQueue.v
UadlResources.v
RegResource.v
ForwardingPath.v
MemBytes.v
SparseMemory.v
MemoryAccess.v
MemoryAccessCorrect.v
MemoryLocal.v
MemoryInterface.v
DmiMemHandler.v
SharedNode.v
BlockHash.v
BranchPredictor.v
MemoryLocks.v
PacketPool.v
Encoding.v
InstrTable.v
InstrTableCorrect.v
InstrTableFinal.v
UndefBits.v
UndefBitsCorrect.v
UndefBitsTheorems.v
PipelineStage.v
StageLogger.v
CacheBuffers.v
CacheBuffersCorrect.v
CacheBuffersTheorems.v
EvictBuffer.v
MemoryLog.v
MemoryLogCorrect.v
IHexReader.v
IHexReaderCorrect.v
CommitQueue.v
CommitQueueCorrect.v
TimeTags.v
TimeTagsCorrect.v
ResCounterCorrect.v
AlignedAccess.v
DepTracking.v
InstrBuf.v
ModelParms.v
