(* ===== verification/Prelude.v ===== *)
(** * Verification of the ADL tool suite

    The ADL tool suite generates instruction-set simulators, assemblers and
    documentation from a description of a processor architecture.  Its parts
    are the front end ([src/fe]), the generators of the simulator, of the
    performance model and of the assembler ([src/iss], [src/uadl], [src/asm]),
    the run-time classes that generated simulators are linked with ([src/iss],
    [src/uadl]), and a library of helpers ([src/helpers]).

    This development models the run-time code that every generated simulator
    executes: the bit vectors in which registers, instructions and addresses
    are kept, with the word-array arithmetic below them and the text input and
    output above them; the memory of the simulator, from the byte orders and the
    page tree to the accesses of any width and alignment, the direct memory
    interface, the locks of atomic instructions; the table of translated basic
    blocks and the decode cache; and the resources of the performance model
    (queues, semaphores, flags, registers, forwarding paths, the branch
    predictor).  An access of a simulated program goes from MemoryInterface (any
    number of bytes) through MemoryAccess (words, half words and bytes,
    misaligned or not, with the events of the translation) to a memory, which is
    one of those of SparseMemory.v, or the handler of DmiMemHandler.v over it.  Of
    the front end it models the decode tree that the instructions of a core are
    sorted into, and the decoder that the generator writes from it.

    ** How the code is modelled

    A [w]-bit unsigned integer is a [Z] in [[0, 2^w)] and every operation wraps
    explicitly ([wrap], [shl], [shr], [unot]); [sint] is the signed reading of a
    pattern.  Shift counts are taken modulo the width of the operand, as the x86
    targets do.  An array is a list, most significant word first where the code
    keeps it so; an access outside of an array is [Undefined], an exception
    [Throw], a failed assertion [AssertFail] ([outcome]).  Loops are [for_up] and
    [for_down] over their bodies, in the order of the code, on the array that
    they update in place: aliasing of a result with an operand is visible
    ([operand] in WordArith.v).  A byte that the code reads without having
    written it is the parameter [junk]; the theorems hold for every value of it.

    ** Files

    - Prelude.v: [outcome], machine words, loops, values of digit lists
      ([beval k l], big-endian digits of [k] bits), the tactics [bitblast] (equality
      of numbers bit by bit) and [zlia] (linear arithmetic with division).
    - BitTwiddles.v: [src/helpers/BitTwiddles.h].  Every function, in its builtin
      and its portable version.
    - WordArith.v: [addWords], [subtractWords] of [src/helpers/intbv_base.h] and
      [multiplyWords] of [src/helpers/intbv.C].
    - WordDivide.v: [divideWords] of [src/helpers/intbv.C], the byte-wise long
      division, with its buffers.
    - IntbvBase.v: the three storage classes [intbv_base<1>], [intbv_base<2>] and
      [intbv_base<N>] of [src/helpers/intbv_base.h], as instances of the class
      [BaseOps] of the operations that they offer.
    - IntbvLaws.v: [BaseLaws], what a storage class promises about each operation
      in terms of the number it represents, and the instances for one and two
      words; IntbvArray.v: the instance for three to 16384 words.
    - Intbv.v: the class template [intbv<Nb>] of [src/helpers/intbv.h] and
      [src/helpers/intbv_impl.h], over [BaseOps]: [intbv nb] is the storage that
      [_INTBV_WORDS] selects.
    - IntbvSpec.v and IntbvCorrect.v: the relation [repr v x] (the vector [v] holds
      the number [x] and its unused bits are zero) and the specification of
      every operation, proved from [BaseLaws] alone.
    - IntbvTheorems.v: the contract of the bit vectors.
    - WordIO.v: the readers and printers of [src/helpers/intbv.C] over models of
      the string streams; WordIOCorrect.v: their contract.
    - Sintbv.v: the class template [sintbv<Nb>] of [src/helpers/sintbv.h], an [intbv] with
      constructors that extend the sign and signed operators, its text included.
      SintbvCorrect.v: the relation [holds v n] (the vector [v] has the signed value [n])
      and the specification of every operation.  SintbvTheorems.v: expressions over signed
      vectors, and the operators.  SintbvText.v: printing and reading.
    - LeIntbv.v: the positions of [src/helpers/le_intbv.h], whose bit 0 is the least
      significant one.
    - CircularQueue.v: the queues of [src/iss/CircularQueue.h]; the index
      computations of a queue are a class ([QueueSupport]) with laws
      ([SupportLaws]) and three instances.
    - UadlResources.v: the clock, the bandwidth control, the log queue, the
      semaphores and the flags of [src/uadl]; RegResource.v: the register
      resources of [src/uadl/RegResource.h]; ForwardingPath.v:
      [src/uadl/ForwardingPath.h], over the growing queue.
    - MemBytes.v: the byte accesses of [src/iss/Memory.h] in both byte orders, as
      instances of [ByteOrder] with the laws [ByteOrderLaws] (the buffer as a
      sequence of logical bytes).
    - SparseMemory.v: [SparseMemory] (the tree of nodes, its pages on a heap, the
      cache of pages), [BlockMemory] and [SimpleMemory]; [ByteMem] is what they
      offer and [ByteMemLaws] what they promise: a function from locations to
      bytes.
    - MemoryAccess.v: the struct [MemoryAccess] of [src/iss/Memory.h], over the
      classes [Translate], [CacheAccess] and [Logger] of its template arguments,
      in a monad that keeps the state when an exception passes.
      MemoryAccessCorrect.v: its accesses against a memory of bytes, from the laws
      of the arguments.  MemoryLocal.v: the laws for the memories of
      SparseMemory.v, with the direct translation of [MemoryTranslate] and with a
      page table, and the theorems.
    - MemoryInterface.v: [src/iss/MemoryInterface.h], accesses of any number of
      bytes to bit vectors.
    - DmiMemHandler.v: [src/iss/DmiMemHandler.h] over the sparse memory, with
      pointers into its pages.
    - SharedNode.v: [Node::get] of the thread-safe memory as a step relation of
      threads over one tree.
    - BlockHash.v: [src/iss/BlockHash.h] and [src/iss/DecodeCacheSupport.h], with the
      [translate_dc] that [src/iss/GenInstrs.C] writes; the class [Support] is what the
      table needs of the cache of translations.
    - BranchPredictor.v, MemoryLocks.v, PacketPool.v: the headers of these names.
    - Encoding.v: opcodes and masks of instructions ([Instr::getOpcode],
      [InstrField::setValue] of [src/fe/Data.C], the mask functions of
      [src/fe/InstrTable.C]).  The numbers of the external [rnumber] library are the
      class [RNumber] with the laws [RNumberLaws]; numbers of a fixed width are an
      instance.
    - InstrTable.v: [src/fe/InstrTable.C], the table of a core
      ([Core::build_instrtables]) and the decoder of [src/iss/GenInstrs.C] as a
      function.  InstrTableCorrect.v: the shape of the tree that is built, and what
      its decoder does.  InstrTableFinal.v: merging of nodes, and the theorems.

    - UndefBits.v: the class template [bits<Nb>] of [src/helpers/bits.h] and
      [bits_impl.h], a vector with a mask of undefined bits, over Intbv.v.
      UndefBitsCorrect.v: vectors that differ in undefined bits only are [alike],
      and the operations that respect this are [Proper].  UndefBitsTheorems.v:
      values and masks of the results, and the operations that do not respect it.
    - PipelineStage.v: the ring of a stage of [src/uadl/PipelineStage.h] and the flush
      loops that [src/uadl/GenCode.C] generates.  StageLogger.v: its loggers, a linked
      list of what a cycle logged.
    - CacheBuffers.v: the line-fill and eviction buffers of [src/uadl/Cache.C]; the next
      level of memory is the class [NextMemory].  CacheBuffersCorrect.v: its laws
      ([NextMemoryLaws]), the invariant of a line fill, and a memory that has the laws.
      CacheBuffersTheorems.v: the start of a fill, its steps, and the theorems.
      EvictBuffer.v: the same for an eviction.
    - MemoryLog.v: [src/iss/MemoryLog.h] and [MemoryLog.C], the words of each memory
      that were initialized, with the loop of [src/iss/DatWriter.C] over them;
      MemoryLogCorrect.v: the log as a set of words for each memory.
    - IHexReader.v: [src/iss/IHexReader.C] over the memory log; the model that is
      initialized is the class [ModelNode].  IHexReaderCorrect.v: an encoder of such
      files, their meaning, the laws of a model ([ModelNodeLaws]) and an instance.
    - CommitQueue.v: the restore stack and the commit queues of
      [src/iss/ModelSupport.h], linked lists in a store of objects; what an object does
      is the class [Objects].  CommitQueueCorrect.v: the lists, and the schedule.
    - TimeTags.v: the clocks, register tags, register files and resource counters of
      [src/iss/ModelSupport.h], and the time-tag functions that [src/iss/GenInstrs.C]
      writes for a core.  TimeTagsCorrect.v: the scoreboard and the pipeline.
      ResCounterCorrect.v: resource counters, register files, and what goes wrong.
    - AlignedAccess.v: [src/iss/AlignedAccess.h], against MemBytes.v.
    - DepTracking.v: the class [DepTracking] of [src/iss/ModelSupport.h]; InstrBuf.v: the
      routines of [src/iss/ModelSupport.C] and [ModelSupport.h] that fill instruction
      buffers; ModelParms.v: those that set the parameters of caches and TLBs.  Each
      file has its theorems.

    ** What the theorems show

    Bit vectors: for every width from 1 to 524288 bits and all three storage
    classes, arithmetic, signed arithmetic, shifts, rotations, fields, bits,
    masks, comparisons, conversions, carries and concatenations compute what
    their names say and keep the class invariant; division and remainder do so
    on the operands for which the divider stays inside its buffers, a condition
    that is stated exactly ([division_fits]) and outside of which the code is
    shown to write out of bounds; a zero divisor throws, except under a zero
    dividend of more than 64 bits, which gives zero.  Operators between widths and with integers
    widen their operands first.  The overloads that depart from this (a signed
    shift that is logical, truncating signed operators, an assignment that
    breaks the invariant, comparisons with negative integers) are theorems of
    their own.

    Signed vectors: an expression over signed vectors of any widths keeps the class
    invariant and has the signed value that it denotes, quotients and remainders where
    the divider stays inside its buffers and nothing overflows ([div_ok]); integers with a sign keep their
    value as operands, unsigned ones are read as signed; what is printed in decimal is
    read back, except for a zero of more than one word, whose empty text the sign test
    leaves behind.  In a vector with little-endian numbering position [i] is bit [i].

    Pipeline stages: the ring holds the list of its instructions in order, over any
    sequence of additions, removals and flushes, with one thread or several; the
    report of a cycle lists what was logged once, in order, and its loop ends.

    Cache buffers: over any sequence of the calls of a cycle and of steps of the memory
    below, the entries of a line are asked for once, the critical one first, and arrive in
    this order; bytes that the buffer says it has are the memory's; with a memory that
    answers, one round of calls fills the line; an evicted line is in the memory, and
    nothing else there has changed.  This is for fills during which nothing writes to
    the memory, and where a request that an earlier fill sent ahead is for the critical
    entry, with the width of this fill ([fillable]); examples show what goes wrong
    otherwise.

    Initial state: a file of valid Intel-hex records is read into memory, program counter
    and memory log, with each four bytes of a record as one word in the byte order of the
    core ([lay], [layout]); a start segment record is taken as a linear address.  A wrong checksum
    stops the reader with the effect of the records before it; the reader ends on every
    file, and reads past the end only of a file that is cut off in a record.  The memory
    log is a set of words for each memory, which the writers list in ascending order, if
    the numbers of the memories are within their lists ([numbered]).

    Undefined bits: no bit of a result that is marked as defined depends on an
    undefined bit of an operand, for the arithmetic operators of two vectors (division
    where no value of the divisor is zero), the bitwise ones, shifts by integers, fields
    and concatenations; an arithmetic result is undefined throughout or not at all.
    Negations, compound operators with an integer, rotations, swaps, sign extensions and
    shifts by undefined amounts do not have this property: what they do to the mask is
    stated for all vectors, with examples of what is lost.

    Text: reading back what was printed gives the array again in hexadecimal,
    binary and decimal; the readers compute the value of the digits they
    consume; the printers' and readers' departures from their documentation are
    stated.

    Bit twiddles: the portable versions agree with the builtins, except for two
    that are shown to be wrong or not to end.

    Queues: the base class refines the list of its elements over any lawful
    support; the growing queue does so through every sequence of operations.

    Performance model: semaphores, flags, register resources, forwarding paths
    and the branch predictor refine small abstract machines (counters, sets of
    owners, lists of recent writes, a table of counters) through every sequence
    of operations; two instructions never own the same bits of a register, when
    every allocation is asked for first and no mask is zero; a branch that keeps going
    one way is predicted after half as many updates as the counter has states, unless
    the counters have no bits.

    Memory: every sequence of reads, writes and resets of a sparse or block
    memory behaves like a function from locations to bytes; reads and writes of
    8 to 64 bits at any alignment, in both interleaving modes, are the big-endian
    values of the bytes of their translated locations, also across pages, and
    raise the exception of the translation with the earlier part done; a value
    written is read back; at the end of a local memory the misaligned read leaves
    the buffer.  The same holds for accesses of any number of bytes.  The direct
    memory interface is transparent: with cached pointers every sequence of
    operations gives what the memory alone gives, and the cached pointers always
    point to the page they name.

    Threads: in every interleaving, two lookups of one page find the same page
    and no page that is in use is freed; every schedule ends.  Two cores never
    hold a lock for the same offset of a page.

    Translated blocks: after any sequence of lookups, translations, invalidations,
    flushes and changes of the translation, a lookup gives the block of the real
    address that the address translates to; an invalidation leaves no valid block
    that contains the address, but for blocks whose translation threw; a translation that
    starts when the cache is not full stays inside of it.  Real addresses are below the
    last page of the address space, and the translator has the laws [TranslatorLaws],
    which the generated [translate_dc] ([src/iss/GenInstrs.C]) is shown to meet for any
    fetch that may throw.

    Decode tree: for instructions without conflict flags, the construction ends,
    with a table or an error; what the generated decoder returns is an instruction
    of the table whose opcode the encoding has, and no more special one; an
    instruction without specialisations is found for all of its encodings, while
    a general one is shown not to be, nor one that is mixed with fields that allow
    conflicts; instructions of one word with a primary opcode and nested masks always get
    a table.  Merging nodes does not change the decoder of any tree whose masks are
    apart ([formed]), with default tables or without.

    Packets: the pool hands out each packet at most once, until it is freed.

    Delayed writes and times: a write that is queued with a delay is carried out in
    exactly that cycle, the delay taken modulo the number of queues, in the order of the
    program, and a rollback restores the state
    at its mark, while clearing a queue is shown to carry out what is in it.  The tags of
    the registers make every instruction wait for the results of earlier ones and for
    nothing else; the stage times of a single-issue core are those of a pipeline in which
    no instruction overtakes another; a resource has never more users than units.

    Smaller parts of the run time: aligned accesses agree with the byte routines on
    address-invariant storage and miss their place on the other; a dependency has the
    sources that its patterns describe, unless two targets are hit at once; instruction
    buffers hold the words of the instruction, aligned as the byte order asks; the
    parameters of caches and TLBs stay consistent, but for the number of sets.

    ** Bounds

    The word-array multiplier keeps its column sums in 32 bits, which is enough
    for 16384 words; this bounds the widths of the bit vectors (524288 bits) and
    of the decimal readers.  A queue holds at most [2^31] slots, so that sums of
    indices stay below [2^32].  Fuel appears in these places: the loops of the
    readers get one unit more than the characters left, which is shown to be
    enough; the digits of a number get one unit per bit; [find] gets one unit
    per slot of the buffer; the loop over the pages of a block gets one unit per
    page, and is shown not to end for the last page of the address space; the
    count of free packets gets one unit per packet; [build_tree] gets more units
    than there are bits in an encoding and instructions, since every call tests a
    new bit or leaves out an instruction; [finalize] gets the height of the tree,
    since every merge takes away a level; the loops over linked objects get one unit for
    each object of the store.  Lines of a cache have [2^a] bytes in entries of
    [2^s], with [s] at most [a] and [a] at most 31.  Addresses have 64 bits, the
    sparse memory any width and number of levels up to that.  The portable [count_leading_zeros] is shown to run
    out of any fuel.

    ** Not modelled

    [intbv_base<0>], whose members are empty; conversions to the external
    [RNumber] library; the members of [sintbv] and [le_intbv] that only forward to
    [intbv], and [le_sintbv], which has the positions of [le_intbv] over [sintbv]; the
    just-in-time compiler (LLVM) behind the block table and the
    external memory handlers, which are virtual; printing of debugging messages;
    the rest of the front end and the generators, which walk the parse trees of the
    external Metac++ library and print text; the prefix and field extraction code of
    [src/fe/FieldSupport.C] and [DecodeSupport.C]; everything that talks to files, sockets,
    scripts or other simulators.  The translation of addresses and the translator
    of blocks are parameters with their laws as hypotheses, each with an instance.

    ** Plan

    Left for an extension are the cycle of a cache ([src/uadl/Cache.C]: tags, replacement,
    store buffer) with its requests and the fetch unit of the performance model, and the
    DAT reader ([src/iss/DatParser.C]). *)
From stdpp Require Import prelude strings.
From Stdlib Require Import ZArith Lia Btauto.

Local Open Scope Z_scope.

(** ** Outcomes of C++ code

    A call either returns a value, throws an exception, trips an [assert], or
    performs an access that C++ leaves undefined (reading or writing outside of
    an array). *)

Inductive outcome (A : Type) : Type :=
| Ret (a : A)
| Throw (msg : string)
| AssertFail
| Undefined.

Arguments Ret {A} a.
Arguments Throw {A} msg.
Arguments AssertFail {A}.
Arguments Undefined {A}.

Definition obind {A B} (m : outcome A) (k : A → outcome B) : outcome B :=
  match m with
  | Ret a => k a
  | Throw e => Throw e
  | AssertFail => AssertFail
  | Undefined => Undefined
  end.

Declare Scope adl_scope.
Delimit Scope adl_scope with adl.
Notation "'let!' x := m 'in' k" := (obind m (λ x, k))
  (at level 10, x name, m at level 100, k at level 200) : adl_scope.
Notation "'assert!' b 'in' k" := (if b then k else AssertFail)
  (at level 10, b at level 100, k at level 200) : adl_scope.
Open Scope adl_scope.

(** ** Machine words

    A [w]-bit unsigned integer is a [Z] in [[0, 2^w)]; [wrap w] is the
    conversion to that type.  A shift count is taken modulo the width, which is
    what the x86 targets of the tool suite do; C++ gives a meaning only to counts
    below the width, where the two agree. *)

Definition wrap (w z : Z) : Z := z mod 2 ^ w.
Definition uint (w z : Z) : Prop := 0 ≤ z < 2 ^ w.
Definition shl (w x n : Z) : Z := wrap w (Z.shiftl x (n mod w)).
Definition shr (w x n : Z) : Z := Z.shiftr x (n mod w).
Definition unot (w x : Z) : Z := wrap w (Z.lnot x).
(** The signed reading of a [w]-bit pattern. *)
Definition sint (w x : Z) : Z := if x <? 2 ^ (w - 1) then x else x - 2 ^ w.

(** ** Loops *)

(** [for (int i = n-1; i >= 0; i--) body] *)
Fixpoint for_down {T} (n : nat) (body : nat → T → T) (s : T) : T :=
  match n with
  | O => s
  | S k => for_down k body (body k s)
  end.

(** [for (i = from; i != from + n; ++i) body] *)
Fixpoint for_up {T} (n from : nat) (body : nat → T → T) (s : T) : T :=
  match n with
  | O => s
  | S k => for_up k (S from) body (body from s)
  end.

Lemma for_down_ind {T} (P : nat → T → Prop) n body s :
  P n s → (∀ i t, (i < n)%nat → P (i + 1)%nat t → P i (body i t)) → P 0%nat (for_down n body s).
Proof.
  revert s. induction n as [|n IH]; intros s H0 Hs; [done|].
  simpl. apply IH; [|intros; apply Hs; auto with lia].
  apply Hs; [lia|]. by replace (n + 1)%nat with (S n) by lia.
Qed.

Lemma for_up_ind {T} (P : nat → T → Prop) n from body s :
  P from s → (∀ i t, (from ≤ i < from + n)%nat → P i t → P (i + 1)%nat (body i t)) →
  P (from + n)%nat (for_up n from body s).
Proof.
  revert from s. induction n as [|n IH]; intros from s H0 Hs; simpl.
  - by rewrite Nat.add_0_r.
  - replace (from + S n)%nat with (S from + n)%nat by lia.
    apply IH.
    + replace (S from) with (from + 1)%nat by lia. apply Hs; [lia|done].
    + intros; apply Hs; auto with lia.
Qed.

Lemma for_down_ext {T} n (f g : nat → T → T) s :
  (∀ i t, (i < n)%nat → f i t = g i t) → for_down n f s = for_down n g s.
Proof.
  revert s. induction n as [|n IH]; intros s H; [done|].
  simpl. rewrite H by lia. apply IH. intros; apply H; lia.
Qed.

(** ** Arithmetic of [wrap] *)

Lemma pow2_pos w : 0 ≤ w → 0 < 2 ^ w.
Proof. intros. by apply Z.pow_pos_nonneg. Qed.

Lemma uint_wrap w z : 0 ≤ w → uint w (wrap w z).
Proof. intros. apply Z.mod_pos_bound, pow2_pos; lia. Qed.

Lemma wrap_small w z : uint w z → wrap w z = z.
Proof. apply Z.mod_small. Qed.

Lemma uint_mono w w' z : 0 ≤ w ≤ w' → uint w z → uint w' z.
Proof.
  unfold uint. intros. assert (2 ^ w ≤ 2 ^ w') by (apply Z.pow_le_mono_r; lia). lia.
Qed.

Lemma wrap_wrap w z : wrap w (wrap w z) = wrap w z.
Proof. apply Zmod_mod. Qed.

Lemma wrap_wrap_le w w' z : 0 ≤ w ≤ w' → wrap w (wrap w' z) = wrap w z.
Proof.
  intros. unfold wrap. replace w' with (w + (w' - w)) by lia.
  rewrite Z.pow_add_r, Z.rem_mul_r by (try apply pow2_pos; try apply Z.pow_nonzero; lia).
  rewrite (Z.mul_comm (2 ^ w)), Z_mod_plus_full. apply Zmod_mod.
Qed.

Lemma wrap_add w a b : wrap w (wrap w a + wrap w b) = wrap w (a + b).
Proof. symmetry. apply Zplus_mod. Qed.
Lemma wrap_add_l w a b : wrap w (wrap w a + b) = wrap w (a + b).
Proof. apply Zplus_mod_idemp_l. Qed.
Lemma wrap_add_r w a b : wrap w (a + wrap w b) = wrap w (a + b).
Proof. apply Zplus_mod_idemp_r. Qed.
Lemma wrap_sub_l w a b : wrap w (wrap w a - b) = wrap w (a - b).
Proof. apply Zminus_mod_idemp_l. Qed.
Lemma wrap_sub_r w a b : wrap w (a - wrap w b) = wrap w (a - b).
Proof. apply Zminus_mod_idemp_r. Qed.
Lemma wrap_mul_l w a b : wrap w (wrap w a * b) = wrap w (a * b).
Proof. apply Zmult_mod_idemp_l. Qed.
Lemma wrap_mul_r w a b : wrap w (a * wrap w b) = wrap w (a * b).
Proof. apply Zmult_mod_idemp_r. Qed.
Lemma wrap_opp w a : wrap w (- wrap w a) = wrap w (- a).
Proof. rewrite <- !Z.sub_0_l. apply wrap_sub_r. Qed.
Lemma wrap_0 w : wrap w 0 = 0.
Proof. apply Zmod_0_l. Qed.
Lemma wrap_plus_mult w a k : wrap w (a + k * 2 ^ w) = wrap w a.
Proof. apply Z_mod_plus_full. Qed.
Lemma wrap_eq_iff w a b : 0 ≤ w → wrap w a = wrap w b ↔ ∃ k, a = b + k * 2 ^ w.
Proof.
  intros Hw. split.
  - intros H. unfold wrap in H. exists (a / 2 ^ w - b / 2 ^ w).
    pose proof (Z.div_mod a (2 ^ w)). pose proof (Z.div_mod b (2 ^ w)).
    pose proof (pow2_pos w Hw). nia.
  - intros [k ->]. apply wrap_plus_mult.
Qed.
Lemma lnot_val a : Z.lnot a = - a - 1.
Proof. unfold Z.lnot. lia. Qed.
Lemma unot_val w x : 0 ≤ w → uint w x → unot w x = 2 ^ w - 1 - x.
Proof.
  intros Hw Hx. unfold unot. rewrite lnot_val.
  rewrite <- (wrap_plus_mult w _ 1). unfold uint in *.
  replace (2 ^ w - 1 - x) with (- x - 1 + 1 * 2 ^ w) by lia. apply wrap_small. unfold uint. lia.
Qed.

Create Rewrite HintDb wrapdb.
#[export] Hint Rewrite wrap_wrap wrap_add_l wrap_add_r wrap_sub_l wrap_sub_r
  wrap_mul_l wrap_mul_r wrap_opp wrap_0 : wrapdb.

Lemma shl_spec w x n : 0 ≤ n < w → shl w x n = wrap w (x * 2 ^ n).
Proof. intros. unfold shl. rewrite Z.mod_small, Z.shiftl_mul_pow2 by lia. done. Qed.
Lemma shr_spec w x n : 0 ≤ n < w → shr w x n = x / 2 ^ n.
Proof. intros. unfold shr. rewrite Z.mod_small, Z.shiftr_div_pow2 by lia. done. Qed.

(** ** Bitwise reasoning

    [bitblast] proves an equation between integers bit by bit: the bits of the
    two sides are computed with the [zbits] database and the comparisons that
    remain are split and decided by [lia]. *)

Lemma testbit_high w x i : 0 ≤ w → uint w x → w ≤ i → Z.testbit x i = false.
Proof.
  intros. rewrite <- (wrap_small w x) by done. apply Z.mod_pow2_bits_high. lia.
Qed.

Lemma testbit_shiftl a n m : Z.testbit (Z.shiftl a n) m = (0 <=? m) && Z.testbit a (m - n).
Proof.
  destruct (Z.leb_spec 0 m); simpl; [by apply Z.shiftl_spec|by apply Z.testbit_neg_r].
Qed.
Lemma testbit_shiftr a n m : Z.testbit (Z.shiftr a n) m = (0 <=? m) && Z.testbit a (m + n).
Proof.
  destruct (Z.leb_spec 0 m); simpl; [by apply Z.shiftr_spec|by apply Z.testbit_neg_r].
Qed.
Lemma testbit_lnot a m : Z.testbit (Z.lnot a) m = (0 <=? m) && negb (Z.testbit a m).
Proof.
  destruct (Z.leb_spec 0 m); simpl; [by apply Z.lnot_spec|by apply Z.testbit_neg_r].
Qed.
Lemma testbit_wrap w a m : 0 ≤ w → Z.testbit (wrap w a) m = (m <? w) && Z.testbit a m.
Proof. apply Z.testbit_mod_pow2. Qed.
Lemma testbit_div a n m : 0 ≤ n → Z.testbit (a / 2 ^ n) m = (0 <=? m) && Z.testbit a (m + n).
Proof. intros. rewrite <- Z.shiftr_div_pow2 by done. apply testbit_shiftr. Qed.
Lemma testbit_mul a n m : 0 ≤ n → Z.testbit (a * 2 ^ n) m = (0 <=? m) && Z.testbit a (m - n).
Proof. intros. rewrite <- Z.shiftl_mul_pow2 by done. apply testbit_shiftl. Qed.
Lemma testbit_pow2 n m : 0 ≤ n → Z.testbit (2 ^ n) m = (m =? n).
Proof. intros. rewrite Z.pow2_bits_eqb by done. apply Z.eqb_sym. Qed.
Lemma testbit_ones n m : 0 ≤ n → Z.testbit (Z.ones n) m = (0 <=? m) && (m <? n).
Proof. apply Z.testbit_ones. Qed.
Lemma testbit_m1 m : Z.testbit (-1) m = (0 <=? m).
Proof.
  destruct (Z.leb_spec 0 m); [by apply Z.bits_m1|by apply Z.testbit_neg_r].
Qed.
Lemma testbit_if (b : bool) x y m :
  Z.testbit (if b then x else y) m = if b then Z.testbit x m else Z.testbit y m.
Proof. by destruct b. Qed.

Create Rewrite HintDb zbits.
#[export] Hint Rewrite Z.lor_spec Z.land_spec Z.lxor_spec Z.ldiff_spec Z.testbit_0_l
  testbit_shiftl testbit_shiftr testbit_lnot testbit_m1 testbit_if : zbits.
#[export] Hint Rewrite testbit_wrap testbit_div testbit_mul testbit_pow2 testbit_ones
  using lia : zbits.

Lemma uint_of_bits w z : 0 ≤ w → (∀ i, w ≤ i → Z.testbit z i = false) → uint w z.
Proof.
  intros Hw Hz. assert (wrap w z = z) as <-; [|by apply uint_wrap]. apply Z.bits_inj'. intros i Hi.
  rewrite testbit_wrap by done. destruct (Z.ltb_spec i w); [done|by rewrite Hz].
Qed.

Ltac split_cmps :=
  repeat match goal with
  | |- context [?a <=? ?b] => destruct (Z.leb_spec a b); try lia
  | |- context [?a <? ?b] => destruct (Z.ltb_spec a b); try lia
  | |- context [?a =? ?b] => destruct (Z.eqb_spec a b); try lia
  end.

(** Bits that the range hypotheses of the context force to be zero. *)
Ltac high_bits :=
  repeat match goal with
  | H : uint ?w ?x |- context [Z.testbit ?x ?i] =>
      rewrite (testbit_high w x i) by (first [exact H|lia])
  | |- context [Z.testbit ?x ?i] => rewrite (Z.testbit_neg_r x i) by lia
  end.

(** Case analysis on an index whose position the context does not decide. *)
Ltac split_index i b :=
  assert_fails (assert (i < b) by lia); assert_fails (assert (b ≤ i) by lia);
  destruct (Z.lt_ge_cases i b); try lia.
Ltac split_bits :=
  repeat (high_bits; match goal with
  | H : uint ?w ?x |- context [Z.testbit ?x ?i] => split_index i w
  | |- context [Z.testbit ?x ?i] => split_index i 0
  end); high_bits.

Ltac bitblast_core :=
  autorewrite with zbits; split_cmps; cbn [andb orb negb xorb]; split_bits;
  repeat match goal with
  | |- context [Z.testbit ?x ?i] =>
      match goal with
      | |- context [Z.testbit x ?j] =>
          lazymatch j with context [i] => fail | _ => idtac end; replace i with j by lia
      end
  end; try reflexivity; try btauto.

Ltac bitblast :=
  apply Z.bits_inj'; let i := fresh "i" in let Hi := fresh "Hi" in intros i Hi; bitblast_core.

(** Evaluates the powers of two with a literal exponent, for [lia]. *)
Ltac pow_consts :=
  repeat match goal with
  | |- context [2 ^ Zpos ?p] =>
      let v := eval vm_compute in (2 ^ Zpos p) in change (2 ^ Zpos p) with v
  | H : context [2 ^ Zpos ?p] |- _ =>
      let v := eval vm_compute in (2 ^ Zpos p) in change (2 ^ Zpos p) with v in H
  end; change (2 ^ 0) with 1 in *.

(** [lia] for goals with [/] and [mod]. *)
Ltac zlia := pow_consts; Z.to_euclidean_division_equations; lia.

(** Disjoint bit patterns: [|] is [+]. *)
Lemma lor_add a b n : 0 ≤ n → uint n a → Z.lor a (b * 2 ^ n) = a + b * 2 ^ n.
Proof.
  intros Hn Ha. rewrite <- Z.lxor_lor, Z.add_nocarry_lxor; [done| |]; bitblast.
Qed.

Lemma lor_add_mod a b n : 0 ≤ n → a mod 2 ^ n = 0 → uint n b → Z.lor a b = a + b.
Proof.
  intros Hn Ha Hb. pose proof (Z.div_mod a (2 ^ n) ltac:(pose proof (pow2_pos n); lia)) as Hd.
  rewrite Ha, Z.add_0_r in Hd. rewrite Hd, Z.lor_comm, (Z.mul_comm (2 ^ n)).
  rewrite lor_add by done. lia.
Qed.

(** ** Digit arrays

    [beval k l] is the number whose base-[2^k] digits, most significant first,
    are the list [l]: [k = 32] for the word arrays of [intbv], [k = 8] for the
    byte buffers of the divider, [k = 4] for hex digits. *)

Fixpoint beval (k : Z) (l : list Z) : Z :=
  match l with
  | [] => 0
  | d :: r => d * 2 ^ (k * Z.of_nat (length r)) + beval k r
  end.

Definition digits (k : Z) (l : list Z) : Prop := Forall (uint k) l.

#[global] Instance uint_dec w z : Decision (uint w z) :=
  match decide (0 ≤ z), decide (z < 2 ^ w) with
  | left H1, left H2 => left (conj H1 H2)
  | right H1, _ => right (λ H, H1 (proj1 H))
  | _, right H2 => right (λ H, H2 (proj2 H))
  end.

(** The [k]-bit digits of [x], least significant first. *)
Definition rdigits (k : Z) (n : nat) (x : Z) : list Z :=
  (λ i, wrap k (x / 2 ^ (k * Z.of_nat i))) <$> seq 0 n.

Section Digits.
Context (k : Z) (Hk : 0 < k).
Local Abbreviation len l := (Z.of_nat (length l)).

Lemma beval_app l1 l2 : beval k (l1 ++ l2) = beval k l1 * 2 ^ (k * len l2) + beval k l2.
Proof using Hk.
  induction l1 as [|d l1 IH]; [done|]. simpl. rewrite IH, length_app.
  rewrite Nat2Z.inj_add, Z.mul_add_distr_l, Z.pow_add_r by lia. ring.
Qed.

Lemma beval_bound l : digits k l → uint (k * len l) (beval k l).
Proof using Hk.
  unfold digits, uint. induction 1 as [|d l Hd Hl IH]; simpl; [lia|].
  replace (k * Z.of_nat (S (length l))) with (k + k * len l) by lia.
  rewrite Z.pow_add_r by lia. pose proof (pow2_pos (k * len l)). unfold uint in Hd. nia.
Qed.

Lemma beval_replicate_0 n : beval k (replicate n 0) = 0.
Proof using Type. induction n; simpl; lia. Qed.

Lemma digits_lookup l i : digits k l → uint k (l !!! i).
Proof using Hk.
  intros H. destruct (decide (i < length l)%nat) as [Hi|Hi].
  - unfold digits in H. rewrite Forall_forall in H. apply H.
    apply list_elem_of_lookup. exists i. by apply list_lookup_lookup_total_lt.
  - rewrite list_lookup_total_alt, lookup_ge_None_2 by lia. simpl.
    pose proof (Z.pow_gt_1 2 k). split; cbn; lia.
Qed.

Lemma digits_insert l i v : digits k l → uint k v → digits k (<[i:=v]> l).
Proof using Type. intros. by apply Forall_insert. Qed.

Lemma beval_drop l i : (i < length l)%nat →
  beval k (drop i l) = (l !!! i) * 2 ^ (k * (len l - 1 - Z.of_nat i)) + beval k (drop (i + 1) l).
Proof using Type.
  intros Hi. rewrite (drop_S l (l !!! i)) by by apply list_lookup_lookup_total_lt.
  simpl. rewrite Nat.add_1_r, length_drop.
  replace (Z.of_nat (length l - S i)) with (len l - 1 - Z.of_nat i) by lia. done.
Qed.

Lemma beval_drop_insert l i v : (i < length l)%nat →
  beval k (drop i (<[i:=v]> l)) =
    v * 2 ^ (k * (len l - 1 - Z.of_nat i)) + beval k (drop (i + 1) l).
Proof using Type.
  intros Hi. rewrite beval_drop by by rewrite length_insert.
  rewrite length_insert, list_lookup_total_insert_eq, drop_insert_lt by lia. done.
Qed.

Lemma digits_drop l i : digits k l → digits k (drop i l).
Proof using Type. apply Forall_drop. Qed.

Lemma beval_testbit l i : digits k l → 0 ≤ i →
  Z.testbit (beval k l) i =
    (i <? k * len l) && Z.testbit (l !!! Z.to_nat (len l - 1 - i / k)) (i mod k).
Proof using Hk.
  unfold digits. intros Hl Hi. induction Hl as [|d l Hd Hl IH]; simpl.
  - rewrite Z.bits_0. destruct (Z.ltb_spec i (k * Z.of_nat 0)); [lia|done].
  - pose proof (beval_bound l Hl) as Hb.
    rewrite (Z.add_comm (d * _)), <- lor_add, Z.lor_spec, testbit_mul by (done || lia).
    pose proof (Z.div_mod i k). pose proof (Z.mod_pos_bound i k Hk).
    rewrite IH. clear IH.
    destruct (Z.ltb_spec i (k * len l)) as [Hlt|Hge]; simpl.
    + rewrite (Z.testbit_neg_r d) by lia. rewrite andb_false_r, orb_false_r.
      assert (i / k < len l) by nia. assert (0 ≤ i / k) by (apply Z.div_pos; lia).
      destruct (Z.ltb_spec i (k * Z.of_nat (S (length l)))); simpl; [|nia].
      replace (Z.to_nat (Z.of_nat (S (length l)) - 1 - i / k)) with
        (S (Z.to_nat (len l - 1 - i / k))) by lia. done.
    + destruct (Z.leb_spec 0 i); [|lia]. simpl.
      destruct (Z.ltb_spec i (k * Z.of_nat (S (length l)))) as [Hlt'|Hge']; simpl.
      * assert (i / k = len l) as Hq by nia. rewrite Hq.
        replace (Z.to_nat (Z.of_nat (S (length l)) - 1 - len l)) with 0%nat by lia.
        simpl. f_equal. nia.
      * apply (testbit_high k); [lia|done|nia].
Qed.

(** A number is determined by its digits. *)
Lemma beval_intro l V : uint (k * len l) V → digits k l →
  (∀ i j, (i < length l)%nat → 0 ≤ j < k →
     Z.testbit (l !!! i) j = Z.testbit V (k * (len l - 1 - Z.of_nat i) + j)) →
  beval k l = V.
Proof using Hk.
  intros HV Hd H. apply Z.bits_inj'. intros i Hi. rewrite beval_testbit by done.
  destruct (Z.ltb_spec i (k * len l)) as [Hlt|Hge]; simpl.
  - pose proof (Z.div_mod i k). pose proof (Z.mod_pos_bound i k Hk).
    assert (0 ≤ i / k < len l) by (split; [apply Z.div_pos; lia|nia]).
    rewrite H, Z2Nat.id by lia. f_equal. nia.
  - symmetry. apply (testbit_high (k * len l)); [lia|done|lia].
Qed.

Lemma beval_testbit_digit l i j : digits k l → (i < length l)%nat → 0 ≤ j < k →
  Z.testbit (beval k l) (k * (len l - 1 - Z.of_nat i) + j) = Z.testbit (l !!! i) j.
Proof using Hk.
  intros Hd Hi Hj. rewrite beval_testbit by (done || nia).
  replace (k * (len l - 1 - Z.of_nat i) + j) with (j + (len l - 1 - Z.of_nat i) * k) by ring.
  rewrite Z.div_add, Z.div_small, Z_mod_plus_full, Z.mod_small by lia.
  destruct (Z.ltb_spec (j + (len l - 1 - Z.of_nat i) * k) (k * len l)); simpl; [|nia].
  do 2 f_equal. lia.
Qed.

Lemma lookup_beval l i : digits k l → (i < length l)%nat →
  l !!! i = wrap k (beval k l / 2 ^ (k * (len l - 1 - Z.of_nat i))).
Proof using Hk.
  intros Hd Hi. pose proof (digits_lookup l i Hd) as Hu.
  apply Z.bits_inj'. intros j Hj. rewrite testbit_wrap, testbit_div by nia.
  destruct (Z.ltb_spec j k); simpl; [|by apply (testbit_high k); auto with lia].
  destruct (Z.leb_spec 0 j); [|lia]. simpl.
  rewrite Z.add_comm, beval_testbit_digit by (done || lia). done.
Qed.

Lemma beval_inj l1 l2 : digits k l1 → digits k l2 → length l1 = length l2 →
  beval k l1 = beval k l2 → l1 = l2.
Proof using Hk.
  intros H1 H2 Hlen Heq. apply list_eq. intros i.
  destruct (decide (i < length l1)%nat) as [Hi|Hi];
    [|rewrite !lookup_ge_None_2 by lia; done].
  rewrite !list_lookup_lookup_total_lt by lia.
  rewrite !lookup_beval by (done || lia). by rewrite Heq, Hlen.
Qed.

Lemma beval_insert l i v : (i < length l)%nat →
  beval k (<[i:=v]> l) = beval k l + (v - l !!! i) * 2 ^ (k * (len l - 1 - Z.of_nat i)).
Proof using Hk.
  intros Hi. rewrite insert_take_drop by done.
  assert (beval k l = beval k (take i l ++ (l !!! i) :: drop (S i) l)) as ->
    by (f_equal; symmetry; apply take_drop_middle, list_lookup_lookup_total_lt, Hi).
  rewrite !beval_app. cbn [beval length]. rewrite length_drop.
  replace (Z.of_nat (length l - S i)) with (len l - 1 - Z.of_nat i) by lia. ring.
Qed.

(** Only the last digit counts when the others are zero. *)
Lemma beval_last l : l ≠ [] → (∀ i, (i < length l - 1)%nat → l !!! i = 0) →
  beval k l = l !!! (length l - 1)%nat.
Proof using Hk.
  induction l as [|d l IH]; intros Hne Hz; [done|].
  destruct l as [|d' l]; [cbn; rewrite Z.mul_0_r; cbn; lia|].
  change (beval k (d :: d' :: l)) with (d * 2 ^ (k * len (d' :: l)) + beval k (d' :: l)).
  rewrite IH; [|done|intros i Hi; apply (Hz (S i)); cbn in *; lia].
  pose proof (Hz 0%nat ltac:(cbn; lia)) as Hd. change (d = 0) in Hd. subst d.
  cbn [length]. replace (S (S (length l)) - 1)%nat with (S (S (length l) - 1)) by lia. done.
Qed.

Lemma beval_take_drop l i :
  beval k l = beval k (take i l) * 2 ^ (k * len (drop i l)) + beval k (drop i l).
Proof using Hk. rewrite <- beval_app, take_drop. done. Qed.

Lemma reverse_digits l : digits k l → reverse l = rdigits k (length l) (beval k l).
Proof using Hk.
  intros Hd. apply list_eq. intros i. unfold rdigits. rewrite list_lookup_fmap.
  destruct (decide (i < length l)%nat) as [Hi|Hi].
  - rewrite lookup_seq_lt by done. simpl.
    rewrite reverse_lookup by done. rewrite list_lookup_lookup_total_lt by lia.
    rewrite lookup_beval by (done || lia). do 5 f_equal. lia.
  - rewrite (lookup_ge_None_2 (seq _ _)) by (rewrite length_seq; lia).
    apply lookup_ge_None_2. rewrite length_reverse. lia.
Qed.
End Digits.

Lemma digits_rdigits k n x : 0 ≤ k → digits k (rdigits k n x).
Proof. intros Hk. apply Forall_fmap, Forall_true. intros i. by apply uint_wrap. Qed.

Lemma length_rdigits k n x : length (rdigits k n x) = n.
Proof. unfold rdigits. by rewrite length_fmap, length_seq. Qed.

Lemma lookup_rdigits k n x i : (i < n)%nat →
  rdigits k n x !!! i = wrap k (x / 2 ^ (k * Z.of_nat i)).
Proof.
  intros Hi. apply list_lookup_total_correct. unfold rdigits.
  rewrite list_lookup_fmap, lookup_seq_lt by done. done.
Qed.

(** A number is the value of its digits. *)
Lemma beval_reverse_rdigits k n x : 0 < k → uint (k * Z.of_nat n) x → beval k (reverse (rdigits k n x)) = x.
Proof.
  intros Hk Hx. assert (length (reverse (rdigits k n x)) = n) as Hlen by by rewrite length_reverse, length_rdigits.
  assert (digits k (reverse (rdigits k n x))) as Hd by (apply Forall_reverse, digits_rdigits; lia).
  apply beval_intro; [done|by rewrite Hlen|done|].
  rewrite Hlen. intros i j Hi Hj. rewrite list_lookup_total_alt, reverse_lookup by (rewrite length_rdigits; lia).
  rewrite <- list_lookup_total_alt, length_rdigits, lookup_rdigits, testbit_wrap, testbit_div by nia.
  destruct (Z.ltb_spec j k), (Z.leb_spec 0 j); try lia. simpl. f_equal. nia.
Qed.

Create HintDb digits.
#[export] Hint Resolve digits_insert digits_drop digits_lookup : digits.

Lemma insert_replicate_last n v : (0 < n)%nat →
  <[(n - 1)%nat := v]> (replicate n 0) = replicate (n - 1) 0 ++ [v].
Proof.
  intros. destruct n as [|n]; [lia|]. simpl. rewrite Nat.sub_0_r.
  clear. induction n as [|n IH]; simpl; [done|]. f_equal. apply IH.
Qed.

(** ** Finite sums and the low part of a product *)

Fixpoint Zsum (f : nat → Z) (n : nat) : Z :=
  match n with
  | O => 0
  | S m => Zsum f m + f m
  end.

Lemma Zsum_ext f g n : (∀ i, (i < n)%nat → f i = g i) → Zsum f n = Zsum g n.
Proof. induction n as [|n IH]; intros H; simpl; [done|]. rewrite IH, H by auto with lia. done. Qed.
Lemma Zsum_add f g n : Zsum (λ i, f i + g i) n = Zsum f n + Zsum g n.
Proof. induction n as [|n IH]; simpl; [done|]. rewrite IH. ring. Qed.
Lemma Zsum_mul c f n : Zsum (λ i, c * f i) n = c * Zsum f n.
Proof. induction n as [|n IH]; simpl; [ring|]. rewrite IH. ring. Qed.
Lemma Zsum_bound f n M : (∀ i, (i < n)%nat → 0 ≤ f i ≤ M) → 0 ≤ Zsum f n ≤ Z.of_nat n * M.
Proof.
  induction n as [|n IH]; intros H; [simpl; lia|]. cbn [Zsum].
  pose proof (IH ltac:(intros; apply H; lia)). pose proof (H n ltac:(lia)). lia.
Qed.

(** Digit [k] of the product of the numbers with digits [A] and [B]. *)
Definition column (A B : nat → Z) (k : nat) : Z := Zsum (λ j, A j * B (k - j)%nat) (S k).

Lemma cauchy_low (A B : nat → Z) (X : Z) n : ∃ r,
  Zsum (λ p, A p * X ^ Z.of_nat p) n * Zsum (λ p, B p * X ^ Z.of_nat p) n =
  Zsum (λ p, column A B p * X ^ Z.of_nat p) n + X ^ Z.of_nat n * r.
Proof.
  set (SB m := Zsum (λ p, B p * X ^ Z.of_nat p) m).
  assert (Htri : ∀ m, Zsum (λ j, A j * X ^ Z.of_nat j * SB (m - j)%nat) m =
                      Zsum (λ p, column A B p * X ^ Z.of_nat p) m).
  { induction m as [|m IH]; [done|].
    change (Zsum (λ p, column A B p * X ^ Z.of_nat p) (S m)) with
      (Zsum (λ p, column A B p * X ^ Z.of_nat p) m + column A B m * X ^ Z.of_nat m).
    rewrite <- IH. unfold column. rewrite (Z.mul_comm (Zsum _ (S m))), <- Zsum_mul.
    transitivity (Zsum (λ j, A j * X ^ Z.of_nat j * SB (m - j)%nat +
                             X ^ Z.of_nat m * (A j * B (m - j)%nat)) (S m)).
    - apply Zsum_ext. intros j Hj. replace (S m - j)%nat with (S (m - j)) by lia.
      unfold SB at 1. cbn [Zsum]. fold (SB (m - j)%nat).
      replace (Z.of_nat m) with (Z.of_nat j + Z.of_nat (m - j)) by lia.
      rewrite Z.pow_add_r by lia. ring.
    - rewrite Zsum_add. f_equal. cbn [Zsum]. rewrite Nat.sub_diag. unfold SB at 2. cbn [Zsum]. ring. }
  assert (Htail : ∀ j m, (j ≤ m)%nat → ∃ t, SB m = SB j + X ^ Z.of_nat j * t).
  { intros j m Hj. induction Hj as [|m Hj [t IH]]; [exists 0; ring|].
    exists (t + B m * X ^ Z.of_nat (m - j)). unfold SB in *. cbn [Zsum]. rewrite IH.
    replace (Z.of_nat m) with (Z.of_nat j + Z.of_nat (m - j)) by lia.
    rewrite Z.pow_add_r by lia. ring. }
  rewrite <- Htri. fold (SB n).
  enough (∀ m, (m ≤ n)%nat → ∃ r, Zsum (λ p, A p * X ^ Z.of_nat p) m * SB n =
    Zsum (λ j, A j * X ^ Z.of_nat j * SB (n - j)%nat) m + X ^ Z.of_nat n * r) as H by by apply H.
  induction m as [|m IH]; intros Hm; [exists 0; simpl; ring|].
  destruct IH as [r IH]; [lia|]. destruct (Htail (n - m)%nat n ltac:(lia)) as [t Ht].
  exists (r + A m * t). cbn [Zsum]. rewrite Z.mul_add_distr_r, IH, Ht.
  replace (X ^ Z.of_nat n) with (X ^ Z.of_nat m * X ^ Z.of_nat (n - m))
    by (rewrite <- Z.pow_add_r by lia; f_equal; lia). ring.
Qed.

Lemma beval_Zsum k l : 0 < k →
  beval k l = Zsum (λ p, (l !!! (length l - 1 - p)%nat) * (2 ^ k) ^ Z.of_nat p) (length l).
Proof.
  intros Hk. induction l as [|d l IH]; [done|]. cbn [beval length Zsum].
  rewrite IH, Z.add_comm. f_equal.
  - apply Zsum_ext. intros p Hp.
    replace (S (length l) - 1 - p)%nat with (S (length l - 1 - p)) by lia. done.
  - replace (S (length l) - 1 - length l)%nat with 0%nat by lia.
    rewrite Z.pow_mul_r by lia. done.
Qed.
