(* ===== verification/BitTwiddles.v ===== *)
(** * Bit-level helper functions ([src/helpers/BitTwiddles.h])

    Each function of the header has two bodies, chosen by the preprocessor: one
    calls a GCC builtin, the other is plain C++.  The builtins are modelled by
    what GCC documents of them ([builtin_popcount], [builtin_ctz],
    [builtin_clz]); the plain bodies are translated and compared with them. *)
From stdpp Require Import prelude.
From Stdlib Require Import ZArith Lia Btauto.
From S2P Require Import Prelude.

Local Open Scope Z_scope.

(** [return !(v & (v - 1)) && v;] *)
Definition is_power_2 (v : Z) : bool :=
  (Z.land v (wrap 32 (v - 1)) =? 0) && negb (v =? 0).

(** [__builtin_popcount]: the number of 1-bits of a [w]-bit value. *)
Fixpoint builtin_popcount (w : nat) (x : Z) : Z :=
  match w with
  | O => 0
  | S n => x mod 2 + builtin_popcount n (x / 2)
  end.

(** [__builtin_ctz]: trailing 0-bits of a [w]-bit value; GCC leaves 0 undefined. *)
Fixpoint builtin_ctz (w : nat) (x : Z) : Z :=
  match w with
  | O => 0
  | S n => if Z.odd x then 0 else 1 + builtin_ctz n (x / 2)
  end.

(** [__builtin_clz]: leading 0-bits of a [w]-bit value; GCC leaves 0 undefined. *)
Definition builtin_clz (w : Z) (x : Z) : Z := w - 1 - Z.log2 x.

(** [for (c = 0; x; c++) x &= x - 1;] with at most [fuel] iterations. *)
Fixpoint count_ones_loop (w : Z) (fuel : nat) (x c : Z) : option Z :=
  if x =? 0 then Some c
  else match fuel with
       | O => None
       | S n => count_ones_loop w n (Z.land x (wrap w (x - 1))) (c + 1)
       end.

Definition count_ones_u64_portable (x : Z) : option Z := count_ones_loop 64 64 x 0.
Definition count_ones_u32_portable (x : Z) : option Z := count_ones_loop 32 32 x 0.
Definition count_ones_u64 (x : Z) : Z := builtin_popcount 64 x.
Definition count_ones_u32 (x : Z) : Z := builtin_popcount 32 x.
Definition count_ones_u16 (x : Z) : Z := count_ones_u32 x.

(** One halving step of the trailing-zero search:
    [if ((x & mask) == 0) { x >>= sh; c += sh; }] *)
Definition ctz_step (mask sh : Z) (s : Z * Z) : Z * Z :=
  let '(x, c) := s in
  if Z.land x mask =? 0 then (Z.shiftr x sh, c + sh) else (x, c).

(** [if ((x & 0x1) == 0) { c++; } return c;] *)
Definition ctz_last (s : Z * Z) : Z :=
  let '(x, c) := s in if Z.land x 1 =? 0 then c + 1 else c.

Definition count_trailing_zeros_u32_portable (x : Z) : Z :=
  if negb (Z.land x 1 =? 0) then 0
  else ctz_last (ctz_step 0x3 2 (ctz_step 0xf 4 (ctz_step 0xff 8 (ctz_step 0xffff 16 (x, 0))))).

(** The 64-bit body shifts by 16, not 32, after its first test. *)
Definition count_trailing_zeros_u64_portable (x : Z) : Z :=
  if negb (Z.land x 1 =? 0) then 0
  else ctz_last (ctz_step 0x3 2 (ctz_step 0xf 4 (ctz_step 0xff 8 (ctz_step 0xffff 16
         (ctz_step 0xffffffff 16 (x, 0)))))).

Definition count_trailing_zeros_u32 (x : Z) : Z := builtin_ctz 32 x.
Definition count_trailing_zeros_u16 (x : Z) : Z := count_trailing_zeros_u32 x.
Definition count_trailing_zeros_u64 (x : Z) : Z := builtin_ctz 64 x.

(** [while (1) { if (x < 0) break; n++; x <<= 1; }] on an unsigned [x], with
    at most [fuel] iterations. *)
Fixpoint count_leading_zeros_loop (w : Z) (fuel : nat) (x n : Z) : option Z :=
  if x <? 0 then Some n
  else match fuel with
       | O => None
       | S f => count_leading_zeros_loop w f (shl w x 1) (wrap 32 (n + 1))
       end.

Definition count_leading_zeros_portable (w : Z) (fuel : nat) (x : Z) : option Z :=
  if x =? 0 then Some w else count_leading_zeros_loop w fuel x 0.

Definition count_leading_zeros_u64 (x : Z) : Z :=
  if x =? 0 then 64 else builtin_clz 64 x.
Definition count_leading_zeros_u32 (x : Z) : Z :=
  if x =? 0 then 32 else builtin_clz 32 x.
Definition count_leading_zeros_u16 (x : Z) : Z := count_leading_zeros_u32 x.

Definition swap_uint8 (x : Z) : Z := x.
Definition swap_uint16 (x : Z) : Z :=
  wrap 16 (Z.lor (Z.shiftl (Z.land x 0xff) 8) (Z.shiftr x 8)).
Definition swap_uint32 (x : Z) : Z :=
  Z.lor (Z.lor (Z.lor (shl 32 x 24) (Z.shiftl (Z.land x 0x0000ff00) 8))
               (Z.shiftr (Z.land x 0x00ff0000) 8)) (Z.shiftr x 24).
Definition swap_uint64 (x : Z) : Z :=
  Z.lor (Z.lor (Z.lor (Z.lor (Z.lor (Z.lor (Z.lor
    (shl 64 x 56)
    (shl 64 (Z.land x 0x000000000000ff00) 40))
    (shl 64 (Z.land x 0x0000000000ff0000) 24))
    (shl 64 (Z.land x 0x00000000ff000000) 8))
    (shr 64 (Z.land x 0x000000ff00000000) 8))
    (shr 64 (Z.land x 0x0000ff0000000000) 24))
    (shr 64 (Z.land x 0x00ff000000000000) 40))
    (shr 64 x 56).

(** ** Clearing the lowest set bit *)

Lemma land_half x y : Z.land x y / 2 = Z.land (x / 2) (y / 2).
Proof. rewrite <- !Z.div2_div, !Z.div2_spec. apply Z.shiftr_land. Qed.

Lemma land_mod2 x y : Z.land x y mod 2 = (x mod 2) * (y mod 2).
Proof.
  rewrite <- !Z.bit0_mod, Z.land_spec. by destruct (Z.testbit x 0), (Z.testbit y 0).
Qed.

Lemma builtin_popcount_nonneg w x : 0 ≤ builtin_popcount w x.
Proof.
  revert x. induction w as [|w IH]; intros x; simpl; [lia|].
  pose proof (IH (x / 2)). pose proof (Z.mod_pos_bound x 2). lia.
Qed.

Lemma builtin_popcount_le w x : builtin_popcount w x ≤ Z.of_nat w.
Proof.
  revert x. induction w as [|w IH]; intros x; cbn [builtin_popcount]; [lia|].
  pose proof (IH (x / 2)). pose proof (Z.mod_pos_bound x 2). lia.
Qed.

(** [x & (x-1)] clears exactly one bit. *)
Lemma popcount_clear_lowest w x : 0 < x < 2 ^ Z.of_nat w →
  builtin_popcount w (Z.land x (x - 1)) = builtin_popcount w x - 1.
Proof.
  revert x. induction w as [|w IH]; intros x Hx; [cbn in Hx; lia|].
  cbn [builtin_popcount]. rewrite land_half, land_mod2.
  rewrite Nat2Z.inj_succ, Z.pow_succ_r in Hx by lia.
  destruct (Z.Even_or_Odd x) as [[m ->]|[m ->]].
  - replace ((2 * m) mod 2) with 0 by (rewrite Z.mul_comm, Z_mod_mult; done).
    replace (2 * m / 2) with m by (rewrite Z.mul_comm, Z.div_mul; lia).
    replace ((2 * m - 1) / 2) with (m - 1) by (apply Z.div_unique with 1; lia).
    rewrite IH by lia. lia.
  - replace ((2 * m + 1 - 1) / 2) with m by (apply Z.div_unique with 0; lia).
    replace ((2 * m + 1) / 2) with m by (apply Z.div_unique with 1; lia).
    replace ((2 * m + 1 - 1) mod 2) with 0 by (apply Z.mod_unique with m; lia).
    replace ((2 * m + 1) mod 2) with 1 by (apply Z.mod_unique with m; lia).
    rewrite Z.land_diag. lia.
Qed.

Lemma popcount_zero w : builtin_popcount w 0 = 0.
Proof. induction w as [|w IH]; [done|]. cbn [builtin_popcount]. change (0 / 2) with 0. by rewrite IH. Qed.

Lemma popcount_0 w x : 0 ≤ x < 2 ^ Z.of_nat w → builtin_popcount w x = 0 → x = 0.
Proof.
  revert x. induction w as [|w IH]; intros x Hx H; [cbn in Hx; lia|].
  cbn [builtin_popcount] in H. rewrite Nat2Z.inj_succ, Z.pow_succ_r in Hx by lia.
  pose proof (builtin_popcount_nonneg w (x / 2)). pose proof (Z.mod_pos_bound x 2).
  pose proof (Z.div_mod x 2). assert (x / 2 = 0); [|lia].
  apply IH; [|lia]. split; [apply Z.div_pos; lia|apply Z.div_lt_upper_bound; lia].
Qed.

Lemma land_pred_bounds w x : 0 ≤ w → 0 < x < 2 ^ w → 0 ≤ Z.land x (x - 1) < 2 ^ w.
Proof.
  intros Hw Hx. split; [apply Z.land_nonneg; lia|].
  assert (Z.land x (x - 1) = wrap w (Z.land x (x - 1))) as ->.
  { assert (uint w x) by (split; lia). bitblast. }
  apply uint_wrap. lia.
Qed.

Lemma count_ones_loop_spec (w : nat) fuel x c :
  0 ≤ x < 2 ^ Z.of_nat w → builtin_popcount w x ≤ Z.of_nat fuel →
  count_ones_loop (Z.of_nat w) fuel x c = Some (c + builtin_popcount w x).
Proof.
  revert x c. induction fuel as [|fuel IH]; intros x c Hx Hf; cbn [count_ones_loop].
  - pose proof (builtin_popcount_nonneg w x).
    rewrite (popcount_0 w x), popcount_zero, Z.add_0_r by lia. done.
  - destruct (Z.eqb_spec x 0) as [->|Hne].
    + by rewrite popcount_zero, Z.add_0_r.
    + rewrite wrap_small by (split; lia). pose proof (land_pred_bounds (Z.of_nat w) x).
      rewrite IH, popcount_clear_lowest by (try rewrite popcount_clear_lowest; lia). f_equal. lia.
Qed.

(** The portable loop terminates and computes the builtin at both widths. *)
Theorem count_ones_portable_correct x :
  (uint 32 x → count_ones_u32_portable x = Some (count_ones_u32 x)) ∧
  (uint 64 x → count_ones_u64_portable x = Some (count_ones_u64 x)).
Proof.
  split; intros Hx.
  - apply (count_ones_loop_spec 32 32 x 0 Hx (builtin_popcount_le 32 x)).
  - apply (count_ones_loop_spec 64 64 x 0 Hx (builtin_popcount_le 64 x)).
Qed.

Lemma count_ones_portable_correct_witness :
  count_ones_u64_portable 0xf0f = Some (count_ones_u64 0xf0f).
Proof. apply (count_ones_portable_correct 0xf0f). split; [discriminate|reflexivity]. Defined.

Lemma land_pred_pow2 w x : 0 ≤ w → 0 < x < 2 ^ w →
  Z.land x (x - 1) = 0 ↔ ∃ k, 0 ≤ k < w ∧ x = 2 ^ k.
Proof.
  intros Hw Hx. split.
  - intros H. exists (Z.log2 x). pose proof (Z.log2_spec x ltac:(lia)).
    assert (0 ≤ Z.log2 x) by apply Z.log2_nonneg.
    split; [split; [lia|apply (Z.pow_lt_mono_r_iff 2); lia]|].
    destruct (Z.eq_dec x (2 ^ Z.log2 x)) as [|Hne]; [done|exfalso].
    assert (Z.testbit (Z.land x (x - 1)) (Z.log2 x) = true) as Hb; [|by rewrite H, Z.bits_0 in Hb].
    rewrite Z.land_spec, Z.bit_log2 by lia. simpl.
    assert (Z.log2 (x - 1) = Z.log2 x) as <-; [apply Z.log2_unique; lia|apply Z.bit_log2; lia].
  - intros (k & Hk & ->). replace (2 ^ k - 1) with (Z.ones k) by (rewrite Z.ones_equiv; lia). bitblast.
Qed.

Lemma is_power_2_spec v : uint 32 v →
  is_power_2 v = true ↔ ∃ k, 0 ≤ k < 32 ∧ v = 2 ^ k.
Proof.
  intros Hv. unfold is_power_2. rewrite andb_true_iff, negb_true_iff, Z.eqb_eq, Z.eqb_neq.
  destruct (Z.eq_dec v 0) as [->|Hne].
  - split; [lia|]. intros (k & Hk & H). pose proof (pow2_pos k). lia.
  - unfold uint in Hv. rewrite wrap_small by (split; lia).
    rewrite (land_pred_pow2 32) by lia. tauto.
Qed.

(** ** Trailing zeros *)

Lemma builtin_ctz_spec w x : 0 < x < 2 ^ Z.of_nat w →
  0 ≤ builtin_ctz w x < Z.of_nat w ∧ Z.testbit x (builtin_ctz w x) = true ∧
  ∀ i, i < builtin_ctz w x → Z.testbit x i = false.
Proof.
  revert x. induction w as [|w IH]; intros x Hx; [cbn in Hx; lia|].
  cbn [builtin_ctz]. rewrite Nat2Z.inj_succ, Z.pow_succ_r in Hx by lia.
  destruct (Z.odd x) eqn:Ho.
  - rewrite Z.bit0_odd. split; [lia|split; [done|]]. intros; by apply Z.testbit_neg_r.
  - assert (x = 2 * (x / 2)) as Hx2.
    { pose proof (Z.div_mod x 2 ltac:(lia)) as Hd. rewrite Zmod_odd, Ho in Hd. lia. }
    set (h := x / 2) in *. clearbody h. subst x.
    destruct (IH h) as (Hb & Ht & Hlow); [lia|]. split; [lia|]. split.
    + rewrite Z.add_1_l, Z.double_bits_succ. done.
    + intros i Hi. destruct (Z.lt_ge_cases i 0); [by apply Z.testbit_neg_r|].
      destruct (Z.eq_dec i 0) as [->|]; [by rewrite Z.bit0_odd|].
      replace i with (Z.succ (i - 1)) by lia. rewrite Z.double_bits_succ. apply Hlow. lia.
Qed.

Lemma ctz_pow2 s : 0 ≤ s ≤ 31 → count_trailing_zeros_u32 (2 ^ s) = s.
Proof.
  intros Hs. unfold count_trailing_zeros_u32.
  destruct (builtin_ctz_spec 32 (2 ^ s)) as (Hb & Ht & _).
  { split; [apply pow2_pos; lia|apply Z.pow_lt_mono_r; lia]. }
  rewrite testbit_pow2 in Ht by lia. lia.
Qed.

(** [t] is the position of the lowest 1-bit of [x]. *)
Definition lowbit (x t : Z) : Prop :=
  0 ≤ t ∧ Z.testbit x t = true ∧ ∀ i, i < t → Z.testbit x i = false.

Lemma lowbit_unique x t t' : lowbit x t → lowbit x t' → t = t'.
Proof.
  intros (? & Ht & Hl) (? & Ht' & Hl'). destruct (Z.lt_trichotomy t t') as [H'|[|H']]; [|done|].
  - rewrite Hl' in Ht by done. done.
  - rewrite Hl in Ht' by done. done.
Qed.

Lemma lowbit_land_ones x t sh : 0 ≤ sh → lowbit x t → (Z.land x (Z.ones sh) =? 0) = (sh <=? t).
Proof.
  intros Hsh (? & Ht & Hl). destruct (Z.leb_spec sh t) as [Hle|Hgt].
  - apply Z.eqb_eq. apply Z.bits_inj'. intros i Hi. autorewrite with zbits.
    destruct (Z.ltb_spec i sh); [rewrite Hl by lia; done|btauto].
  - apply Z.eqb_neq. intros E. assert (Z.testbit (Z.land x (Z.ones sh)) t = false) as H'
      by by rewrite E, Z.bits_0.
    autorewrite with zbits in H'. rewrite Ht in H'. revert H'. by split_cmps.
Qed.

Lemma ctz_step_spec x t c sh : 0 ≤ sh → lowbit x t → t < 2 * sh →
  ∃ x' t' c', ctz_step (Z.ones sh) sh (x, c) = (x', c') ∧ lowbit x' t' ∧ t' < sh ∧ c' + t' = c + t.
Proof.
  intros Hsh Hx Hlt. unfold ctz_step. rewrite (lowbit_land_ones x t) by done.
  destruct (Z.leb_spec sh t); [|by exists x, t, c; split; [done|split; [done|lia]]].
  exists (Z.shiftr x sh), (t - sh), (c + sh). destruct Hx as (? & Ht & Hl).
  repeat split; [lia| | |lia|lia].
  - rewrite testbit_shiftr, Z.sub_add, Ht. destruct (Z.leb_spec 0 (t - sh)); [done|lia].
  - intros i Hi. rewrite testbit_shiftr, Hl by lia. btauto.
Qed.

Lemma ctz_last_spec x t c : lowbit x t → t < 2 → ctz_last (x, c) = c + t.
Proof.
  intros Hx Hlt. unfold ctz_last. change (Z.land x 1) with (Z.land x (Z.ones 1)).
  rewrite (lowbit_land_ones x t) by (done || lia). destruct Hx. destruct (Z.leb_spec 1 t); lia.
Qed.

Lemma ctz_odd x t : lowbit x t → negb (Z.land x 1 =? 0) = (t <? 1).
Proof.
  intros Hx. change (Z.land x 1) with (Z.land x (Z.ones 1)). rewrite (lowbit_land_ones x t) by (done || lia).
  destruct (Z.leb_spec 1 t), (Z.ltb_spec t 1); (done || lia).
Qed.

Ltac ctz_steps :=
  repeat match goal with
  | H : lowbit ?x ?t |- context [ctz_step ?m ?sh (?x, ?c)] =>
      let E := fresh "E" in let y := fresh "y" in let u := fresh "u" in
      let d := fresh "d" in let Hy := fresh "Hy" in
      destruct (ctz_step_spec x t c sh) as (y & u & d & E & Hy & ? & ?);
      [lia|exact H|lia|change (Z.ones sh) with m in E; rewrite E; clear E]
  end.

Lemma ctz_u32_portable_lowbit x t : lowbit x t → t < 32 →
  count_trailing_zeros_u32_portable x = t.
Proof.
  intros Hx Ht. unfold count_trailing_zeros_u32_portable. rewrite (ctz_odd x t) by done.
  destruct Hx as [H0 Hx]. destruct (Z.ltb_spec t 1); [lia|].
  assert (lowbit x t) as Hl by done. clear Hx. ctz_steps. erewrite ctz_last_spec; [|done|lia]. lia.
Qed.

(** The 64-bit body is right as long as fewer than 48 low bits are zero. *)
Lemma ctz_u64_portable_lowbit x t : lowbit x t → t < 48 →
  count_trailing_zeros_u64_portable x = t.
Proof.
  intros Hx Ht. unfold count_trailing_zeros_u64_portable. rewrite (ctz_odd x t) by done.
  assert (0 ≤ t) by apply Hx. destruct (Z.ltb_spec t 1); [lia|].
  unfold ctz_step at 5. change 0xffffffff with (Z.ones 32).
  rewrite (lowbit_land_ones x t) by (done || lia).
  destruct (Z.leb_spec 32 t).
  - assert (lowbit (Z.shiftr x 16) (t - 16)) as Hl.
    { destruct Hx as (_ & Hb & Hz). repeat split; [lia| |].
      - rewrite testbit_shiftr, Z.sub_add, Hb. destruct (Z.leb_spec 0 (t - 16)); [done|lia].
      - intros i Hi. rewrite testbit_shiftr, Hz by lia. btauto. }
    ctz_steps. erewrite ctz_last_spec; [|done|lia]. lia.
  - ctz_steps. erewrite ctz_last_spec; [|done|lia]. lia.
Qed.

Lemma ctz_step_le m sh x c M : 0 ≤ sh → c ≤ M → (ctz_step m sh (x, c)).2 ≤ M + sh.
Proof. intros. unfold ctz_step. destruct (_ =? _); simpl; lia. Qed.

Lemma ctz_u64_portable_le x : count_trailing_zeros_u64_portable x ≤ 47.
Proof.
  unfold count_trailing_zeros_u64_portable. destruct (negb _); [lia|].
  assert (∀ s M, s.2 ≤ M → ctz_last s ≤ M + 1) as Hl.
  { intros [y c] M H. unfold ctz_last. simpl in H. destruct (_ =? _); lia. }
  assert (∀ m sh s M, 0 ≤ sh → s.2 ≤ M → (ctz_step m sh s).2 ≤ M + sh) as Hs.
  { intros m sh [y c] M ? H. by apply ctz_step_le. }
  apply (Hl _ 46), (Hs 0x3 2 _ 44), (Hs 0xf 4 _ 40), (Hs 0xff 8 _ 32), (Hs 0xffff 16 _ 16),
    (Hs 0xffffffff 16 _ 0); simpl; lia.
Qed.

(** The plain 32-bit search agrees with the builtin on every non-zero word; the
    plain 64-bit search does so exactly when the builtin's answer is below 48. *)
Theorem count_trailing_zeros_portable_correct x :
  (0 < x < 2 ^ 32 → count_trailing_zeros_u32_portable x = count_trailing_zeros_u32 x) ∧
  (0 < x < 2 ^ 64 → count_trailing_zeros_u64_portable x = count_trailing_zeros_u64 x ↔
                    count_trailing_zeros_u64 x < 48).
Proof.
  split; intros Hx.
  - destruct (builtin_ctz_spec 32 x Hx) as (? & ? & ?).
    unfold count_trailing_zeros_u32. apply ctz_u32_portable_lowbit; [split; [lia|done]|lia].
  - destruct (builtin_ctz_spec 64 x Hx) as (? & ? & ?). split; intros H'.
    + rewrite <- H'. pose proof (ctz_u64_portable_le x). lia.
    + unfold count_trailing_zeros_u64 in *. apply ctz_u64_portable_lowbit; [split; [lia|done]|done].
Qed.

Lemma count_trailing_zeros_portable_correct_witness :
  count_trailing_zeros_u32_portable 0x80000 = count_trailing_zeros_u32 0x80000 ∧
  (count_trailing_zeros_u64_portable (2 ^ 50) = count_trailing_zeros_u64 (2 ^ 50) ↔
   count_trailing_zeros_u64 (2 ^ 50) < 48).
Proof.
  split.
  - refine (proj1 (count_trailing_zeros_portable_correct 0x80000) _). lia.
  - refine (proj2 (count_trailing_zeros_portable_correct (2 ^ 50)) _). lia.
Defined.

(** ** Leading zeros *)

(** The plain body of [count_leading_zeros] tests [x < 0] on an unsigned value: on a non-zero argument
    no number of iterations reaches the [break]. *)
Theorem count_leading_zeros_portable_diverges w fuel x :
  0 ≤ w → 0 < x → count_leading_zeros_portable w fuel x = None.
Proof.
  intros Hw Hx. unfold count_leading_zeros_portable.
  destruct (Z.eqb_spec x 0); [lia|]. clear n. assert (0 ≤ x) as H by lia. clear Hx.
  generalize 0 as n. revert x H. induction fuel as [|fuel IH]; intros x H n; simpl;
    destruct (Z.ltb_spec x 0); try lia; [done|].
  apply IH. apply uint_wrap. done.
Qed.

Lemma count_leading_zeros_portable_diverges_witness :
  count_leading_zeros_portable 32 1000 0x80000000 = None.
Proof. apply (count_leading_zeros_portable_diverges 32 1000 0x80000000); lia. Defined.

Lemma count_leading_zeros_u32_spec x n : uint 32 x → 0 ≤ n ≤ 32 →
  count_leading_zeros_u32 x = n ↔ (x < 2 ^ (32 - n) ∧ (n < 32 → 2 ^ (31 - n) ≤ x)).
Proof.
  intros Hx Hn. unfold count_leading_zeros_u32, builtin_clz, uint in *.
  destruct (Z.eqb_spec x 0) as [->|Hne].
  - split; [intros <-; simpl; lia|]. intros [_ H].
    destruct (Z.eq_dec n 32); [lia|]. pose proof (pow2_pos (31 - n)). lia.
  - pose proof (Z.log2_spec x ltac:(lia)). pose proof (Z.log2_nonneg x). split.
    + intros <-. replace (32 - (32 - 1 - Z.log2 x)) with (Z.succ (Z.log2 x)) by lia.
      replace (31 - (32 - 1 - Z.log2 x)) with (Z.log2 x) by lia. lia.
    + intros [H1 H2]. destruct (Z.eq_dec n 32) as [->|]; [change (2 ^ (32 - 32)) with 1 in H1; lia|].
      assert (Z.log2 x = 31 - n); [|lia]. apply Z.log2_unique; [lia|].
      replace (Z.succ (31 - n)) with (32 - n) by lia. lia.
Qed.

(** ** Byte swaps *)

(** The plain bodies mask a byte in place; as arithmetic this extracts it. *)
Lemma mask_byte x p : 0 ≤ p → Z.land x (Z.shiftl 0xff p) = wrap 8 (x / 2 ^ p) * 2 ^ p.
Proof. intros. change 0xff with (Z.ones 8). bitblast. Qed.

Lemma shl_byte w x n : 0 ≤ n → n + 8 = w → shl w x n = wrap 8 x * 2 ^ n.
Proof.
  intros Hn <-. rewrite shl_spec by lia. bitblast.
Qed.

(** Turns the [|] of bytes at distinct positions into their sum. *)
Ltac lor_bytes :=
  repeat match goal with
  | |- context [Z.lor ?a ?b] =>
      lazymatch a with context [Z.lor _ _] => fail | _ => idtac end;
      first [rewrite (lor_add_mod a b 56) by (unfold uint in *; zlia)
            |rewrite (lor_add_mod a b 48) by (unfold uint in *; zlia)
            |rewrite (lor_add_mod a b 40) by (unfold uint in *; zlia)
            |rewrite (lor_add_mod a b 32) by (unfold uint in *; zlia)
            |rewrite (lor_add_mod a b 24) by (unfold uint in *; zlia)
            |rewrite (lor_add_mod a b 16) by (unfold uint in *; zlia)
            |rewrite (lor_add_mod a b 8) by (unfold uint in *; zlia)]
  end.

Ltac name_bytes :=
  repeat match goal with
  | |- context [wrap 8 ?e] =>
      let b := fresh "b" in let H := fresh "Hb" in
      pose proof (uint_wrap 8 e ltac:(lia)) as H; set (b := wrap 8 e) in *; clearbody b
  end.

Lemma swap_uint32_rbytes x : uint 32 x → swap_uint32 x = beval 8 (rdigits 8 4 x).
Proof.
  intros Hx. unfold swap_uint32, rdigits. rewrite (shl_byte 32 x 24) by lia.
  change 0x0000ff00 with (Z.shiftl 0xff 8). change 0x00ff0000 with (Z.shiftl 0xff 16).
  rewrite !mask_byte by lia. rewrite Z.shiftl_mul_pow2, !Z.shiftr_div_pow2 by lia.
  replace (x / 2 ^ 24) with (wrap 8 (x / 2 ^ 24)) by
    (apply wrap_small; unfold uint in *; split; [apply Z.div_pos|apply Z.div_lt_upper_bound]; lia).
  cbn [seq fmap list_fmap beval length].
  change (8 * Z.of_nat 0) with 0. change (8 * Z.of_nat 1) with 8. change (8 * Z.of_nat 2) with 16.
  change (8 * Z.of_nat 3) with 24. rewrite Z.div_1_r.
  replace (wrap 8 (x / 2 ^ 16) * 2 ^ 16 / 2 ^ 8) with (wrap 8 (x / 2 ^ 16) * 2 ^ 8) by zlia.
  name_bytes. lor_bytes. lia.
Qed.

Lemma swap_uint64_rbytes x : uint 64 x → swap_uint64 x = beval 8 (rdigits 8 8 x).
Proof.
  intros Hx. unfold swap_uint64, rdigits. rewrite (shl_byte 64 x 56) by lia.
  change 0x000000000000ff00 with (Z.shiftl 0xff 8). change 0x0000000000ff0000 with (Z.shiftl 0xff 16).
  change 0x00000000ff000000 with (Z.shiftl 0xff 24). change 0x000000ff00000000 with (Z.shiftl 0xff 32).
  change 0x0000ff0000000000 with (Z.shiftl 0xff 40). change 0x00ff000000000000 with (Z.shiftl 0xff 48).
  rewrite !mask_byte, !shr_spec by lia. rewrite (shl_spec 64 _ 40), (shl_spec 64 _ 24), (shl_spec 64 _ 8) by lia.
  replace (x / 2 ^ 56) with (wrap 8 (x / 2 ^ 56)) by (apply wrap_small; unfold uint in *; zlia).
  cbn [seq fmap list_fmap beval length].
  repeat match goal with |- context [8 * Z.of_nat ?n] =>
    let v := eval vm_compute in (8 * Z.of_nat n) in change (8 * Z.of_nat n) with v end.
  rewrite Z.div_1_r. name_bytes.
  rewrite !wrap_small by (unfold uint in *; lia).
  replace (b3 * 2 ^ 32 / 2 ^ 8) with (b3 * 2 ^ 24) by zlia.
  replace (b4 * 2 ^ 40 / 2 ^ 24) with (b4 * 2 ^ 16) by zlia.
  replace (b5 * 2 ^ 48 / 2 ^ 40) with (b5 * 2 ^ 8) by zlia.
  lor_bytes. lia.
Qed.

Lemma swap_uint16_rbytes x : uint 16 x → swap_uint16 x = beval 8 (rdigits 8 2 x).
Proof.
  intros Hx. unfold swap_uint16, rdigits. change 0xff with (Z.ones 8).
  rewrite Z.land_ones, Z.shiftl_mul_pow2, Z.shiftr_div_pow2 by lia.
  cbn [seq fmap list_fmap beval length].
  change (8 * Z.of_nat 0) with 0. change (8 * Z.of_nat 1) with 8. rewrite Z.div_1_r.
  fold (wrap 8 x).
  replace (x / 2 ^ 8) with (wrap 8 (x / 2 ^ 8)) by (apply wrap_small; unfold uint in *; zlia).
  rewrite ?wrap_wrap. name_bytes. lor_bytes. rewrite wrap_small by (unfold uint in *; lia). lia.
Qed.

(** The byte swaps reverse the byte sequence of a 16-, 32- or 64-bit value. *)
Theorem swap_reverses_bytes l : digits 8 l →
  (length l = 2%nat → swap_uint16 (beval 8 l) = beval 8 (reverse l)) ∧
  (length l = 4%nat → swap_uint32 (beval 8 l) = beval 8 (reverse l)) ∧
  (length l = 8%nat → swap_uint64 (beval 8 l) = beval 8 (reverse l)).
Proof.
  intros Hd. pose proof (beval_bound 8 ltac:(lia) l Hd) as Hb.
  rewrite (reverse_digits 8) by done.
  split; [|split]; intros Hl; rewrite Hl in *;
    auto using swap_uint16_rbytes, swap_uint32_rbytes, swap_uint64_rbytes.
Qed.

Lemma swap_reverses_bytes_witness :
  swap_uint32 (beval 8 [0x12; 0x34; 0x56; 0x78]) = 0x78563412.
Proof.
  exact (proj1 (proj2 (swap_reverses_bytes [0x12; 0x34; 0x56; 0x78]
    ltac:(repeat constructor; done))) eq_refl).
Defined.
