(* ===== verification/WordArith.v ===== *)
(** * Arithmetic on word arrays

    The routines of [src/helpers/intbv_base.h] and [src/helpers/intbv.C] that
    work on arrays of 32-bit words, most significant word first: [addWords],
    [subtractWords] and [multiplyWords].  An argument array may be the result
    array itself ([_add] calls [addWords(_Nw,_w,_w,x._w)], [readDec] calls
    [multiplyWords(nw,x,x,ten)]), so operands are either a separate array or the
    result array, read as it is at that moment. *)
From stdpp Require Import prelude.
From Stdlib Require Import ZArith Lia.
From S2P Require Import Prelude.

Local Open Scope Z_scope.

(** A [const uint32_t *] argument: its own array, or the result array. *)
Inductive operand : Type :=
| Array (l : list Z)
| Result.

Definition contents (o : operand) (res : list Z) : list Z :=
  match o with Array l => l | Result => res end.

(** [cin = ((a & b) | ((a | b) & ~c)) >> (_INTBV_BITS_PER_WORD - 1)] *)
Definition carry_out (a b c : Z) : Z :=
  Z.shiftr (Z.lor (Z.land a b) (Z.land (Z.lor a b) (unot 32 c))) (32 - 1).

Definition addWords (nw : nat) (res : list Z) (x y : operand) : list Z :=
  fst (for_down nw (λ i '(res, cin),
    let a := contents x res !!! i in
    let b := contents y res !!! i in
    let sum := wrap 32 (a + b + cin) in
    (<[i := sum]> res, carry_out a b sum)) (res, 0)).

Definition subtractWords (nw : nat) (res : list Z) (x y : operand) : list Z :=
  fst (for_down nw (λ i '(res, cin),
    let inv := unot 32 (contents y res !!! i) in
    let a := contents x res !!! i in
    let diff := wrap 32 (a + inv + cin) in
    (<[i := diff]> res, carry_out a inv diff)) (res, 1)).

(** [src/helpers/intbv.C] *)
Definition HalfWordBits : Z := 16.
Definition HalfWordMask : Z := 0xffff.
Definition lowHalf (n : Z) : Z := Z.land n HalfWordMask.
Definition highHalf (n : Z) : Z := Z.shiftr n HalfWordBits.
Definition highLowConcat (nh nl : Z) : Z :=
  Z.lor (shl 32 nh HalfWordBits) (Z.land nl HalfWordMask).

Definition indexHalf (nw : nat) (x : list Z) (pos : nat) : Z :=
  if Nat.odd pos then highHalf (x !!! (nw - 1 - pos / 2)%nat)
  else lowHalf (x !!! (nw - 1 - pos / 2)%nat).

(** The three accumulators of [multiplyWords]. *)
Record mul_acc := MulAcc { lw : Z; hw : Z; carry : Z }.

(** The body of the inner loop, [for (j = 0; j <= i; j++)]. *)
Definition mul_inner (nw : nat) (a b : list Z) (i j : nat) (s : mul_acc) : mul_acc :=
  let mult1 := wrap 32 (indexHalf nw a j * indexHalf nw b (i - j)) in
  let mult2 := wrap 32 (indexHalf nw a j * indexHalf nw b (i - j + 1)) in
  {| lw := wrap 32 (lw s + lowHalf mult1);
     hw := wrap 32 (hw s + wrap 32 (lowHalf mult2 + highHalf mult1));
     carry := wrap 32 (carry s + highHalf mult2) |}.

(** The body of the outer loop at [i = 2 * w]. *)
Definition mul_outer (nw : nat) (oa ob : operand) (w : nat) (s : list Z * Z) : list Z * Z :=
  let '(res, c) := s in
  let i := (2 * w)%nat in
  let a := contents oa res in
  let b := contents ob res in
  let s1 := for_up (i + 1) 0 (mul_inner nw a b i)
              {| lw := lowHalf c; hw := highHalf c; carry := 0 |} in
  let mult2 := wrap 32 (indexHalf nw a (i + 1) * indexHalf nw b 0) in
  let hw1 := wrap 32 (hw s1 + lowHalf mult2) in
  let carry1 := wrap 32 (carry s1 + highHalf mult2) in
  let hw2 := wrap 32 (hw1 + highHalf (lw s1)) in
  let carry2 := wrap 32 (carry1 + highHalf hw2) in
  (<[(nw - 1 - w)%nat := highLowConcat (lowHalf hw2) (lowHalf (lw s1))]> res, carry2).

Definition multiplyWords (nw : nat) (res : list Z) (a b : operand) : list Z :=
  fst (for_up nw 0 (mul_outer nw a b) (res, 0)).

(** ** Carries *)

Lemma shr31 z : uint 32 z → Z.shiftr z (32 - 1) = if z <? 2 ^ 31 then 0 else 1.
Proof.
  intros H. rewrite Z.shiftr_div_pow2 by lia. unfold uint in H.
  destruct (Z.ltb_spec z (2 ^ 31)); change (2 ^ (32 - 1)) with (2 ^ 31); zlia.
Qed.

Lemma carry_out_bit a b c : uint 32 a → uint 32 b →
  carry_out a b c =
    Z.b2z (Z.testbit a 31 && Z.testbit b 31 ||
           (Z.testbit a 31 || Z.testbit b 31) && negb (Z.testbit c 31)).
Proof.
  intros Ha Hb. unfold carry_out, unot. apply Z.bits_inj'. intros i Hi.
  rewrite testbit_shiftr. destruct (Z.leb_spec 0 i); [|lia]. simpl.
  destruct (Z.eq_dec i 0) as [->|Hne].
  - rewrite Z.b2z_bit0, Z.add_0_l. autorewrite with zbits. done.
  - transitivity false; [bitblast_core|].
    destruct (_ || _); simpl; [|by rewrite Z.bits_0].
    symmetry. apply (testbit_high 1); unfold uint; lia.
Qed.

Lemma testbit31 a : uint 32 a → Z.testbit a 31 = (2 ^ 31 <=? a).
Proof.
  intros Ha. unfold uint in Ha. destruct (Z.leb_spec (2 ^ 31) a).
  - apply Z.testbit_true; [lia|]. replace (a / 2 ^ 31) with 1 by zlia. done.
  - apply (testbit_high 31); unfold uint; lia.
Qed.

(** The bit trick computes the carry of a full adder. *)
Lemma carry_out_spec a b cin : uint 32 a → uint 32 b → 0 ≤ cin ≤ 1 →
  carry_out a b (wrap 32 (a + b + cin)) = (a + b + cin) / 2 ^ 32.
Proof.
  intros Ha Hb Hc. rewrite carry_out_bit by done.
  rewrite !testbit31 by (done || (apply uint_wrap; lia)).
  unfold uint, wrap in *.
  destruct (Z.leb_spec (2 ^ 31) a), (Z.leb_spec (2 ^ 31) b),
    (Z.leb_spec (2 ^ 31) ((a + b + cin) mod 2 ^ 32)); simpl; zlia.
Qed.

(** ** Ripple-carry addition and subtraction *)

Section Ripple.
Context (nw : nat) (res : list Z) (Hres : length res = nw).

(** The loop shared by the two routines; [fa] and [fb] read the operands. *)
Definition ripple (fa fb : list Z → nat → Z) (cin : Z) : list Z * Z :=
  for_down nw (λ i '(r, c),
    let a := fa r i in
    let b := fb r i in
    let s := wrap 32 (a + b + c) in
    (<[i := s]> r, carry_out a b s)) (res, cin).

(** [r] still holds the initial words up to index [i]. *)
Definition untouched (r : list Z) (i : nat) : Prop := ∀ j, (j < i)%nat → r !!! j = res !!! j.

Lemma ripple_spec fa fb cin A B :
  length A = nw → length B = nw → digits 32 A → digits 32 B → 0 ≤ cin ≤ 1 →
  (∀ r i, length r = nw → (i < nw)%nat → untouched r (i + 1) → fa r i = A !!! i) →
  (∀ r i, length r = nw → (i < nw)%nat → untouched r (i + 1) → fb r i = B !!! i) →
  let '(r, c) := ripple fa fb cin in
  length r = nw ∧ digits 32 r ∧ 0 ≤ c ≤ 1 ∧
  beval 32 r + c * 2 ^ (32 * Z.of_nat nw) = beval 32 A + beval 32 B + cin.
Proof using Hres.
  intros HA HB HdA HdB Hcin Hfa Hfb.
  set (P := λ (i : nat) (s : list Z * Z), let '(r, c) := s in
    length r = nw ∧ digits 32 (drop i r) ∧ 0 ≤ c ≤ 1 ∧ untouched r i ∧
    beval 32 (drop i r) + c * 2 ^ (32 * Z.of_nat (nw - i)) =
      beval 32 (drop i A) + beval 32 (drop i B) + cin).
  enough (P 0%nat (ripple fa fb cin)) as H.
  { unfold P in H. destruct (ripple fa fb cin) as [r c].
    rewrite !drop_0, Nat.sub_0_r in H. tauto. }
  unfold ripple. apply (for_down_ind P); unfold P.
  - rewrite !drop_ge, Nat.sub_diag by lia. split_and!; [done|apply Forall_nil_2|lia|lia|done|cbn; lia].
  - intros i [r c] Hi (Hl & Hd & Hc & Hu & He).
    rewrite Hfa, Hfb by done.
    pose proof (digits_lookup 32 ltac:(lia) A i HdA) as Ha.
    pose proof (digits_lookup 32 ltac:(lia) B i HdB) as Hb.
    set (a := A !!! i) in *. set (b := B !!! i) in *.
    assert (0 ≤ (a + b + c) / 2 ^ 32 ≤ 1) as Hc' by (unfold uint in *; zlia).
    rewrite carry_out_spec by done. split_and!; try apply Hc'.
    + by rewrite length_insert.
    + rewrite (drop_S _ (wrap 32 (a + b + c))) by (apply list_lookup_insert_eq; lia).
      constructor; [apply uint_wrap; lia|]. rewrite drop_insert_lt by lia.
      by replace (S i) with (i + 1)%nat by lia.
    + intros j Hj. rewrite list_lookup_total_insert_ne by lia. apply Hu. lia.
    + rewrite (beval_drop_insert 32) by lia. rewrite !(beval_drop 32 _ i) by lia.
      rewrite HA, HB, Hl. fold a b.
      replace (32 * (Z.of_nat nw - 1 - Z.of_nat i)) with (32 * Z.of_nat (nw - (i + 1))) by lia.
      replace (32 * Z.of_nat (nw - i)) with (32 * Z.of_nat (nw - (i + 1)) + 32) by lia.
      rewrite Z.pow_add_r by lia. set (M := 2 ^ (32 * Z.of_nat (nw - (i + 1)))) in *.
      unfold wrap. pose proof (Z.div_mod (a + b + c) (2 ^ 32) ltac:(lia)). nia.
Qed.
End Ripple.

(** The complement of every word of an array. *)
Lemma beval_unot l : digits 32 l →
  beval 32 (unot 32 <$> l) = 2 ^ (32 * Z.of_nat (length l)) - 1 - beval 32 l.
Proof.
  induction 1 as [|d l Hd Hl IH]; [done|].
  rewrite fmap_cons. cbn [beval length]. rewrite IH, length_fmap, unot_val by (done || lia).
  replace (32 * Z.of_nat (S (length l))) with (32 + 32 * Z.of_nat (length l)) by lia.
  rewrite Z.pow_add_r by lia. ring.
Qed.

Lemma digits_unot l : digits 32 (unot 32 <$> l).
Proof. apply Forall_fmap, Forall_true. intros x. apply uint_wrap. lia. Qed.

(** A word array of [nw] words. *)
Definition words (nw : nat) (l : list Z) : Prop := length l = nw ∧ digits 32 l.

Lemma words_bound nw l : words nw l → uint (32 * Z.of_nat nw) (beval 32 l).
Proof. intros [<- H]. by apply beval_bound. Qed.

Lemma contents_untouched o res r i nw : length res = nw →
  untouched res r (i + 1) → contents o r !!! i = contents o res !!! i.
Proof. intros _ H. destruct o; [done|]. apply H. lia. Qed.

Lemma addWords_spec nw res x y :
  length res = nw → words nw (contents x res) → words nw (contents y res) →
  words nw (addWords nw res x y) ∧
  beval 32 (addWords nw res x y) =
    (beval 32 (contents x res) + beval 32 (contents y res)) mod 2 ^ (32 * Z.of_nat nw).
Proof.
  intros Hres [HA HdA] [HB HdB].
  change (addWords nw res x y) with
    (fst (ripple nw res (λ r i, contents x r !!! i) (λ r i, contents y r !!! i) 0)).
  pose proof (ripple_spec nw res Hres (λ r i, contents x r !!! i) (λ r i, contents y r !!! i)
    0 _ _ HA HB HdA HdB ltac:(lia)) as H.
  destruct (ripple _ _ _ _ _) as [r c].
  destruct H as (Hl & Hd & Hc & He); [intros; by apply (contents_untouched _ _ _ _ nw)..|].
  simpl. split; [done|]. apply (Z.mod_unique _ _ c); [left|lia].
  rewrite <- Hl. by apply beval_bound.
Qed.

(** [addWords] computes the sum modulo [2^(32 nw)], whichever of its
    operands is the result array. *)
Theorem addWords_correct nw res x y :
  length res = nw → words nw (contents x res) → words nw (contents y res) →
  words nw (addWords nw res x y) ∧
  beval 32 (addWords nw res x y) =
    (beval 32 (contents x res) + beval 32 (contents y res)) mod 2 ^ (32 * Z.of_nat nw).
Proof. apply addWords_spec. Qed.

Lemma addWords_correct_witness :
  beval 32 (addWords 2 [7; 7] (Array [1; 0xffffffff]) (Array [2; 3])) = 4 * 2 ^ 32 + 2.
Proof.
  exact (proj2 (addWords_correct 2 [7; 7] (Array [1; 0xffffffff]) (Array [2; 3]) eq_refl
    ltac:(split; [done|repeat constructor; done]) ltac:(split; [done|repeat constructor; done]))).
Defined.

Lemma subtractWords_spec nw res x y :
  length res = nw → words nw (contents x res) → words nw (contents y res) →
  words nw (subtractWords nw res x y) ∧
  beval 32 (subtractWords nw res x y) =
    (beval 32 (contents x res) - beval 32 (contents y res)) mod 2 ^ (32 * Z.of_nat nw).
Proof.
  intros Hres [HA HdA] [HB HdB]. set (Y := contents y res) in *.
  assert (subtractWords nw res x y =
    fst (ripple nw res (λ r i, contents x r !!! i) (λ r i, unot 32 (contents y r !!! i)) 1))
    as -> by done.
  pose proof (ripple_spec nw res Hres (λ r i, contents x r !!! i)
    (λ r i, unot 32 (contents y r !!! i)) 1 _ (unot 32 <$> Y) HA ltac:(by rewrite length_fmap)
    HdA (digits_unot Y) ltac:(lia)) as H.
  destruct (ripple _ _ _ _ _) as [r c]. destruct H as (Hl & Hd & Hc & He).
  - intros; by apply (contents_untouched _ _ _ _ nw).
  - intros r' i Hr' Hi Hu. rewrite (contents_untouched y res r' i nw) by done.
    symmetry. by apply list_lookup_total_fmap; fold Y; lia.
  - simpl. split; [done|]. rewrite beval_unot in He by done. rewrite HB in He.
    apply (Z.mod_unique _ _ (c - 1)); [left|lia]. rewrite <- Hl. by apply beval_bound.
Qed.

(** [subtractWords] computes the difference modulo [2^(32 nw)], whichever
    of its operands is the result array. *)
Theorem subtractWords_correct nw res x y :
  length res = nw → words nw (contents x res) → words nw (contents y res) →
  words nw (subtractWords nw res x y) ∧
  beval 32 (subtractWords nw res x y) =
    (beval 32 (contents x res) - beval 32 (contents y res)) mod 2 ^ (32 * Z.of_nat nw).
Proof. apply subtractWords_spec. Qed.

Lemma subtractWords_correct_witness :
  beval 32 (subtractWords 2 [0; 5] (Array [1; 2]) Result) = 2 ^ 32 - 3.
Proof.
  exact (proj2 (subtractWords_correct 2 [0; 5] (Array [1; 2]) Result eq_refl
    ltac:(split; [done|repeat constructor; done]) ltac:(split; [done|repeat constructor; done]))).
Defined.

(** ** Schoolbook multiplication by half words *)

Lemma lowHalf_mod n : lowHalf n = n mod 2 ^ 16.
Proof. unfold lowHalf. change HalfWordMask with (Z.ones 16). by rewrite Z.land_ones by lia. Qed.
Lemma highHalf_div n : highHalf n = n / 2 ^ 16.
Proof. unfold highHalf. by rewrite Z.shiftr_div_pow2. Qed.
Lemma half_split n : n = lowHalf n + 2 ^ 16 * highHalf n.
Proof. rewrite lowHalf_mod, highHalf_div. pose proof (Z.div_mod n (2 ^ 16) ltac:(lia)). lia. Qed.
Lemma lowHalf_bound n : 0 ≤ lowHalf n ≤ 0xffff.
Proof. rewrite lowHalf_mod. pose proof (Z.mod_pos_bound n (2 ^ 16)). lia. Qed.
Lemma highHalf_bound n : uint 32 n → 0 ≤ highHalf n ≤ 0xffff.
Proof. intros H. rewrite highHalf_div. unfold uint in H. zlia. Qed.
Lemma highLowConcat_val h l : 0 ≤ h ≤ 0xffff → 0 ≤ l ≤ 0xffff →
  highLowConcat h l = l + 2 ^ 16 * h.
Proof.
  intros. unfold highLowConcat, HalfWordBits. rewrite shl_spec by lia.
  rewrite wrap_small by (unfold uint; lia). fold (lowHalf l). rewrite lowHalf_mod, Z.mod_small by lia.
  rewrite (lor_add_mod _ _ 16); [lia|lia|by rewrite Z_mod_mult|unfold uint; lia].
Qed.

Lemma half_bound nw x p : digits 32 x → 0 ≤ indexHalf nw x p ≤ 0xffff.
Proof.
  intros Hx. unfold indexHalf. destruct (Nat.odd p); [|apply lowHalf_bound].
  apply highHalf_bound. by apply (digits_lookup 32).
Qed.

Lemma Zsum_pairs f n : Zsum f (2 * n) = Zsum (λ w, f (2 * w)%nat + f (2 * w + 1)%nat) n.
Proof.
  induction n as [|n IH]; [done|]. replace (2 * S n)%nat with (S (S (2 * n))) by lia.
  cbn [Zsum]. rewrite IH. replace (2 * n + 1)%nat with (S (2 * n)) by lia. lia.
Qed.

Lemma indexHalf_even nw x w : indexHalf nw x (2 * w) = lowHalf (x !!! (nw - 1 - w)%nat).
Proof. unfold indexHalf. by rewrite Nat.odd_even, (Nat.mul_comm 2), Nat.div_mul. Qed.
Lemma indexHalf_odd nw x w : indexHalf nw x (2 * w + 1) = highHalf (x !!! (nw - 1 - w)%nat).
Proof.
  unfold indexHalf. rewrite Nat.odd_odd. replace ((2 * w + 1) / 2)%nat with w; [done|].
  apply (Nat.div_unique _ _ _ 1); lia.
Qed.

(** The value of an array as a sum of half words. *)
Lemma beval_halves nw x : words nw x →
  beval 32 x = Zsum (λ p, indexHalf nw x p * (2 ^ 16) ^ Z.of_nat p) (2 * nw).
Proof.
  intros [<- Hd]. rewrite beval_Zsum, Zsum_pairs by lia. apply Zsum_ext. intros w Hw.
  rewrite indexHalf_even, indexHalf_odd.
  replace (Z.of_nat (2 * w + 1)) with (2 * Z.of_nat w + 1) by lia.
  replace (Z.of_nat (2 * w)) with (2 * Z.of_nat w) by lia.
  rewrite Z.pow_add_r, (Z.pow_mul_r (2 ^ 16)) by lia. change ((2 ^ 16) ^ 2) with (2 ^ 32).
  change ((2 ^ 16) ^ 1) with (2 ^ 16).
  rewrite (half_split (x !!! _)) at 1. ring.
Qed.

Section MulInner.
Context (nw : nat) (a b : list Z) (i : nat).
Context (Ha : digits 32 a) (Hb : digits 32 b) (Hnw : Z.of_nat nw ≤ 16384) (Hi : (i + 2 ≤ 2 * nw)%nat).
Local Abbreviation A := (indexHalf nw a).
Local Abbreviation B := (indexHalf nw b).

(** What an inner iteration adds, at weights 1 and [2^16]. *)
Definition inner_term (j : nat) : Z := A j * B (i - j)%nat + 2 ^ 16 * (A j * B (i - j + 1)%nat).

Definition acc_val (s : mul_acc) : Z := lw s + 2 ^ 16 * hw s + 2 ^ 32 * carry s.

Definition acc_ok (j : nat) (s : mul_acc) : Prop :=
  0 ≤ lw s ≤ (Z.of_nat j + 1) * 0xffff ∧ 0 ≤ hw s ≤ (2 * Z.of_nat j + 1) * 0xffff ∧
  0 ≤ carry s ≤ Z.of_nat j * 0xffff.

Lemma mul_inner_spec j s : (j ≤ i)%nat → acc_ok j s →
  acc_ok (j + 1) (mul_inner nw a b i j s) ∧
  acc_val (mul_inner nw a b i j s) = acc_val s + inner_term j.
Proof using All.
  intros Hj (Hlw & Hhw & Hc). unfold mul_inner, acc_val, acc_ok, inner_term. cbn [lw hw carry].
  pose proof (half_bound nw a j Ha). pose proof (half_bound nw b (i - j) Hb).
  pose proof (half_bound nw b (i - j + 1) Hb).
  set (m1 := A j * B (i - j)%nat). set (m2 := A j * B (i - j + 1)%nat).
  assert (uint 32 m1) as Hu1 by (unfold uint, m1; nia).
  assert (uint 32 m2) as Hu2 by (unfold uint, m2; nia).
  rewrite (wrap_small 32 m1), (wrap_small 32 m2) by done.
  pose proof (half_split m1) as E1. pose proof (half_split m2) as E2.
  pose proof (lowHalf_bound m1). pose proof (lowHalf_bound m2).
  pose proof (highHalf_bound m1 Hu1). pose proof (highHalf_bound m2 Hu2).
  rewrite (wrap_small 32 (lowHalf m2 + _)) by (unfold uint; lia).
  rewrite !wrap_small by (unfold uint; lia). split; [lia|]. rewrite E1 at 3. rewrite E2 at 3. lia.
Qed.

Lemma mul_inner_loop s n : (n ≤ i + 1)%nat → acc_ok 0 s →
  acc_ok n (for_up n 0 (mul_inner nw a b i) s) ∧
  acc_val (for_up n 0 (mul_inner nw a b i) s) = acc_val s + Zsum inner_term n.
Proof using All.
  intros Hn Hs.
  apply (for_up_ind (λ j t, acc_ok j t ∧ acc_val t = acc_val s + Zsum inner_term j) n 0).
  - split; [done|]. simpl. lia.
  - intros j t Hj [Ht He]. destruct (mul_inner_spec j t) as [Hok Hv]; [lia|done|].
    split; [done|]. rewrite Hv, He, Nat.add_1_r. cbn [Zsum]. lia.
Qed.
End MulInner.

(** One outer iteration produces a result word and a carry for two columns. *)
Lemma mul_outer_spec nw oa ob w res c :
  Z.of_nat nw ≤ 16384 → (w < nw)%nat → uint 32 c →
  digits 32 (contents oa res) → digits 32 (contents ob res) →
  let A := indexHalf nw (contents oa res) in
  let B := indexHalf nw (contents ob res) in
  ∃ v c', mul_outer nw oa ob w (res, c) = (<[(nw - 1 - w)%nat := v]> res, c') ∧
    uint 32 v ∧ uint 32 c' ∧
    v + 2 ^ 32 * c' = c + column A B (2 * w) + 2 ^ 16 * column A B (2 * w + 1).
Proof.
  intros Hnw Hw Hc Ha Hb A B. unfold mul_outer.
  set (s0 := {| lw := lowHalf c; hw := highHalf c; carry := 0 |}).
  assert (acc_ok 0 s0) as Hs0.
  { pose proof (lowHalf_bound c). pose proof (highHalf_bound c Hc). unfold acc_ok, s0. simpl. lia. }
  destruct (mul_inner_loop nw _ _ (2 * w) Ha Hb Hnw ltac:(lia) s0 (2 * w + 1) ltac:(lia) Hs0)
    as [Hok Hv].
  set (s1 := for_up _ _ _ _) in *. clearbody s1.
  eexists _, _. split; [reflexivity|].
  destruct Hok as (Hlw & Hhw & Hcar). unfold acc_val in Hv. fold A B.
  pose proof (half_bound nw _ (2 * w + 1) Ha) as HA1. pose proof (half_bound nw _ 0 Hb) as HB0.
  fold A in HA1. fold B in HB0. set (m := A (2 * w + 1)%nat * B 0%nat) in *.
  assert (uint 32 m) as Hm by (unfold uint, m; nia).
  rewrite (wrap_small 32 m) by done.
  pose proof (half_split m) as Em. pose proof (lowHalf_bound m). pose proof (highHalf_bound m Hm).
  pose proof (highHalf_bound (lw s1) ltac:(unfold uint; lia)).
  rewrite (wrap_small 32 (hw s1 + lowHalf m)) by (unfold uint; lia).
  set (hw2 := hw s1 + lowHalf m + highHalf (lw s1)) in *.
  assert (uint 32 hw2) as Hhw2 by (unfold uint, hw2; lia).
  rewrite (wrap_small 32 hw2) by done. pose proof (highHalf_bound hw2 Hhw2).
  rewrite (wrap_small 32 (carry s1 + highHalf m)) by (unfold uint; lia).
  rewrite wrap_small by (unfold uint; lia).
  pose proof (lowHalf_bound hw2). pose proof (lowHalf_bound (lw s1)).
  rewrite highLowConcat_val by (rewrite ?lowHalf_mod in *; lia).
  split_and!; [unfold uint; lia..|].
  assert (Zsum (inner_term nw (contents oa res) (contents ob res) (2 * w)) (2 * w + 1) + 2 ^ 16 * m =
    column A B (2 * w) + 2 ^ 16 * column A B (2 * w + 1)) as Hcol.
  { unfold column, inner_term. rewrite Zsum_add, Zsum_mul. rewrite Nat.add_1_r.
    cbn [Zsum]. fold A B. rewrite !Nat.sub_diag. unfold m.
    rewrite (Zsum_ext (λ j, A j * B (S (2 * w) - j)%nat) (λ j, A j * B (2 * w - j + 1)%nat));
      [|intros; do 2 f_equal; lia].
    replace (S (2 * w) - 2 * w)%nat with 1%nat by lia. replace (2 * w + 1)%nat with (S (2 * w)) by lia.
    rewrite Nat.add_0_l. ring. }
  pose proof (half_split hw2) as E2. pose proof (half_split (lw s1)) as E3.
  pose proof (half_split c) as E4. unfold s0 in Hv. cbn [lw hw carry] in Hv. unfold hw2 in E2 at 1. lia.
Qed.

(** The outer loop, when the columns the iterations see are those of [C]. *)
Lemma mul_loop_spec nw oa ob res (C : nat → Z) :
  Z.of_nat nw ≤ 16384 → length res = nw → words nw (contents oa res) → words nw (contents ob res) →
  (∀ w r, (w < nw)%nat → length r = nw →
     (∀ j, (j < nw - w)%nat → r !!! j = res !!! j) →
     column (indexHalf nw (contents oa r)) (indexHalf nw (contents ob r)) (2 * w) = C (2 * w)%nat ∧
     column (indexHalf nw (contents oa r)) (indexHalf nw (contents ob r)) (2 * w + 1) =
       C (2 * w + 1)%nat) →
  words nw (multiplyWords nw res oa ob) ∧ ∃ c,
  beval 32 (multiplyWords nw res oa ob) + c * 2 ^ (32 * Z.of_nat nw) =
    Zsum (λ k, C k * (2 ^ 16) ^ Z.of_nat k) (2 * nw).
Proof.
  intros Hnw Hl Hoa Hob HC.
  set (P := λ (w : nat) (s : list Z * Z), (w ≤ nw)%nat ∧ length s.1 = nw ∧
    (∀ o, digits 32 (contents o res) → digits 32 (contents o s.1)) ∧ digits 32 (drop (nw - w) s.1) ∧
    uint 32 s.2 ∧ (∀ j, (j < nw - w)%nat → s.1 !!! j = res !!! j) ∧
    beval 32 (drop (nw - w) s.1) + s.2 * 2 ^ (32 * Z.of_nat w) =
      Zsum (λ k, C k * (2 ^ 16) ^ Z.of_nat k) (2 * w)).
  enough (P nw (for_up nw 0 (mul_outer nw oa ob) (res, 0))) as H.
  { unfold multiplyWords. destruct (for_up _ _ _ _) as [r c]. unfold P in H. cbn [fst snd] in *.
    rewrite Nat.sub_diag, drop_0 in H. destruct H as (_ & ? & _ & ? & _ & _ & He).
    split; [done|]. by exists c. }
  apply (for_up_ind P nw 0); unfold P; cbn [fst snd].
  - rewrite Nat.sub_0_r, drop_ge by lia.
    split_and!; [lia|done|done|apply Forall_nil_2|unfold uint; lia..|done|simpl; lia].
  - intros w [r c] Hw (_ & Hlr & Hdig & Hd & Hc & Hu & He). cbn [fst snd] in *.
    destruct (mul_outer_spec nw oa ob w r c) as (v & c' & -> & Hv & Hc' & Hval);
      [done|lia|done|apply Hdig, Hoa|apply Hdig, Hob|]. cbn [fst snd].
    destruct (HC w r) as [C1 C2]; [lia|done|done|]. rewrite C1, C2 in Hval.
    replace (nw - (w + 1))%nat with (nw - 1 - w)%nat by lia.
    replace (nw - w)%nat with (nw - 1 - w + 1)%nat in Hd, He by lia.
    split_and!; [lia|by rewrite length_insert| | |unfold uint in *; lia..| |].
    + intros o Ho. specialize (Hdig o Ho). destruct o; [done|]. by apply digits_insert.
    + rewrite (drop_S _ v) by (apply list_lookup_insert_eq; lia).
      constructor; [done|]. rewrite drop_insert_lt by lia.
      by replace (S (nw - 1 - w)) with (nw - 1 - w + 1)%nat by lia.
    + intros j Hj. rewrite list_lookup_total_insert_ne by lia. apply Hu. lia.
    + rewrite (beval_drop_insert 32), Hlr by lia.
      replace (32 * (Z.of_nat nw - 1 - Z.of_nat (nw - 1 - w))) with (32 * Z.of_nat w) by lia.
      replace (32 * Z.of_nat (w + 1)) with (32 * Z.of_nat w + 32) by lia.
      replace (2 * (w + 1))%nat with (S (S (2 * w))) by lia. cbn [Zsum]. rewrite <- He.
      replace (Z.of_nat (S (2 * w))) with (2 * Z.of_nat w + 1) by lia.
      replace (Z.of_nat (2 * w)) with (2 * Z.of_nat w) by lia.
      rewrite !Z.pow_add_r, (Z.pow_mul_r (2 ^ 16) 2) by lia. rewrite (Z.pow_mul_r 2 32) by lia.
      change ((2 ^ 16) ^ 2) with (2 ^ 32). change ((2 ^ 16) ^ 1) with (2 ^ 16).
      replace (S (2 * w)) with (2 * w + 1)%nat by lia.
      set (M := (2 ^ 32) ^ Z.of_nat w).
      replace (v * M) with ((c + C (2 * w)%nat + 2 ^ 16 * C (2 * w + 1)%nat - 2 ^ 32 * c') * M)
        by (f_equal; lia). ring.
Qed.

Lemma columns_product nw a b : words nw a → words nw b → ∃ r,
  beval 32 a * beval 32 b =
  Zsum (λ k, column (indexHalf nw a) (indexHalf nw b) k * (2 ^ 16) ^ Z.of_nat k) (2 * nw) +
  r * 2 ^ (32 * Z.of_nat nw).
Proof.
  intros Ha Hb. rewrite (beval_halves nw a), (beval_halves nw b) by done.
  destruct (cauchy_low (indexHalf nw a) (indexHalf nw b) (2 ^ 16) (2 * nw)) as [r ->]. exists r.
  replace (Z.of_nat (2 * nw)) with (2 * Z.of_nat nw) by lia.
  rewrite (Z.pow_mul_r (2 ^ 16)), (Z.pow_mul_r 2 32) by lia. change ((2 ^ 16) ^ 2) with (2 ^ 32). ring.
Qed.

Lemma multiply_mod nw l c r P : words nw l →
  beval 32 l + c * 2 ^ (32 * Z.of_nat nw) = P - r * 2 ^ (32 * Z.of_nat nw) →
  beval 32 l = P mod 2 ^ (32 * Z.of_nat nw).
Proof.
  intros Hl He. apply (Z.mod_unique _ _ (c + r)); [left; by apply words_bound|]. lia.
Qed.

Lemma multiplyWords_spec nw res a b :
  Z.of_nat nw ≤ 16384 → length res = nw → words nw a → words nw b →
  words nw (multiplyWords nw res (Array a) (Array b)) ∧
  beval 32 (multiplyWords nw res (Array a) (Array b)) =
    (beval 32 a * beval 32 b) mod 2 ^ (32 * Z.of_nat nw).
Proof.
  intros Hnw Hl Ha Hb. destruct (columns_product nw a b Ha Hb) as [r Hr].
  destruct (mul_loop_spec nw (Array a) (Array b) res (column (indexHalf nw a) (indexHalf nw b))
    Hnw Hl Ha Hb ltac:(done)) as [Hw [c Hc]].
  split; [done|]. apply (multiply_mod _ _ c r); [done|]. lia.
Qed.

(** [multiplyWords] computes the product modulo [2^(32 nw)] on arrays of up
    to 16384 words: none of its 32-bit accumulators overflows. *)
Theorem multiplyWords_correct nw res a b :
  Z.of_nat nw ≤ 16384 → length res = nw → words nw a → words nw b →
  words nw (multiplyWords nw res (Array a) (Array b)) ∧
  beval 32 (multiplyWords nw res (Array a) (Array b)) =
    (beval 32 a * beval 32 b) mod 2 ^ (32 * Z.of_nat nw).
Proof. apply multiplyWords_spec. Qed.

Lemma multiplyWords_correct_witness :
  beval 32 (multiplyWords 2 [0; 0] (Array [0; 0xffffffff]) (Array [1; 0xffffffff])) =
    ((2 ^ 32 - 1) * (2 ^ 33 - 1)) mod 2 ^ 64.
Proof.
  exact (proj2 (multiplyWords_correct 2 [0; 0] [0; 0xffffffff] [1; 0xffffffff] ltac:(lia) eq_refl
    ltac:(split; [done|repeat constructor; done]) ltac:(split; [done|repeat constructor; done]))).
Defined.

Lemma column_single (A B : nat → Z) k : (∀ p, (1 ≤ p ≤ k)%nat → B p = 0) →
  column A B k = A k * B 0%nat.
Proof.
  intros HB. unfold column. cbn [Zsum]. rewrite Nat.sub_diag.
  rewrite (Zsum_ext _ (λ _, 0)); [|intros j Hj; rewrite HB by lia; lia].
  assert (∀ n, Zsum (λ _, 0) n = 0) as ->; [|lia]. induction n; simpl; lia.
Qed.

Lemma indexHalf_small nw b p : words nw b → beval 32 b < 2 ^ 16 → (1 ≤ p < 2 * nw)%nat →
  indexHalf nw b p = 0.
Proof.
  intros [Hl Hd] Hsmall Hp. pose proof (beval_bound 32 ltac:(lia) b Hd) as Hb. unfold uint in Hb.
  pose proof (Nat.div_mod_eq p 2). pose proof (Nat.mod_upper_bound p 2 ltac:(lia)).
  unfold indexHalf. rewrite (lookup_beval 32) by (done || lia). rewrite Hl.
  set (e := Z.of_nat nw - 1 - _). assert (e = Z.of_nat (p / 2)) as He by lia. rewrite He. clear e He.
  destruct (decide (p / 2 = 0)%nat) as [Hz|Hnz].
  - replace p with 1%nat in * by lia. simpl. rewrite Z.div_1_r, wrap_small by (unfold uint; lia).
    rewrite highHalf_div, Z.div_small by lia. done.
  - assert (2 ^ 32 ≤ 2 ^ (32 * Z.of_nat (p / 2))) by (apply Z.pow_le_mono_r; lia).
    rewrite Z.div_small, wrap_0 by lia. by destruct (Nat.odd p).
Qed.

Lemma multiplyWords_in_place_spec nw x b :
  Z.of_nat nw ≤ 16384 → words nw x → words nw b → beval 32 b < 2 ^ 16 →
  words nw (multiplyWords nw x Result (Array b)) ∧
  beval 32 (multiplyWords nw x Result (Array b)) =
    (beval 32 x * beval 32 b) mod 2 ^ (32 * Z.of_nat nw).
Proof.
  intros Hnw Hx Hb Hsmall. destruct (columns_product nw x b Hx Hb) as [r Hr].
  destruct (mul_loop_spec nw Result (Array b) x (column (indexHalf nw x) (indexHalf nw b))
    Hnw ltac:(apply Hx) Hx Hb) as [Hw [c Hc]].
  - intros w r' Hw Hl Hu. rewrite !column_single by (intros; apply indexHalf_small; done || lia).
    cbn [contents]. rewrite !indexHalf_even, !indexHalf_odd, Hu by lia. done.
  - split; [done|]. apply (multiply_mod _ _ c r); [done|]. lia.
Qed.

(** Multiplying an array in place ([multiplyWords(nw,x,x,ten)], as the
    decimal reader does) is right although the routine overwrites its own
    operand, because the other factor is a single half word. *)
Theorem multiplyWords_in_place nw x b :
  Z.of_nat nw ≤ 16384 → words nw x → words nw b → beval 32 b < 2 ^ 16 →
  words nw (multiplyWords nw x Result (Array b)) ∧
  beval 32 (multiplyWords nw x Result (Array b)) =
    (beval 32 x * beval 32 b) mod 2 ^ (32 * Z.of_nat nw).
Proof. apply multiplyWords_in_place_spec. Qed.

Lemma multiplyWords_in_place_witness :
  beval 32 (multiplyWords 2 [3; 0xffffffff] Result (Array [0; 10])) = 10 * (2 ^ 34 - 1).
Proof.
  exact (proj2 (multiplyWords_in_place 2 [3; 0xffffffff] [0; 10] ltac:(lia)
    ltac:(split; [done|repeat constructor; done]) ltac:(split; [done|repeat constructor; done])
    ltac:(vm_compute; done))).
Defined.
