(* ===== verification/WordDivide.v ===== *)
(** * Division of word arrays ([src/helpers/intbv.C])

    [divideWords] converts both operands to byte buffers, strips leading zero
    bytes and runs a schoolbook division in base 256 ([doDivide]) whose quotient
    digits are guessed from the top three bytes of the remainder and the top two
    bytes of the divisor.  The buffers have the sizes the source declares, so a
    write outside of them is [Undefined]. *)
From stdpp Require Import prelude.
From Stdlib Require Import ZArith Lia.
From S2P Require Import Prelude.
From S2P Require Import WordArith.

Local Open Scope Z_scope.

Definition WordBytes : nat := 4.
Definition ByteBits : Z := 8.
Definition ByteRadix : Z := 0x100.
Definition ByteMask : Z := 0xff.

(** Number of bytes left after the leading zeros are skipped, at least one:
    [while (--nLen > 0 && !*p) p++; return ++nLen;] *)
Fixpoint skipLeadingZeroBytes (p : list Z) (nLen : nat) : nat :=
  match nLen with
  | O => O
  | S m => if (0 <? m)%nat && (p !!! 0%nat =? 0) then skipLeadingZeroBytes (tail p) m else S m
  end.

Definition word_bytes (w : Z) : list Z :=
  [Z.land (Z.shiftr w (3 * ByteBits)) ByteMask; Z.land (Z.shiftr w (2 * ByteBits)) ByteMask;
   Z.land (Z.shiftr w ByteBits) ByteMask; Z.land w ByteMask].

Definition convertToBytes (wordBuffer : list Z) : list Z := wordBuffer ≫= word_bytes.

(** The state of the copying loop: the words, [wc] and [shift]. *)
Definition convertFromBytes_step (byteBuffer : list Z) (wordCount : nat) (i : nat)
    (s : outcome (list Z * Z * Z)) : outcome (list Z * Z * Z) :=
  obind s (λ '(wordBuffer, wc, shift),
    assert! wc <? Z.of_nat wordCount in
    let n := Z.to_nat wc in
    let wordBuffer' := <[n := Z.lor (wordBuffer !!! n)
                                (shl 32 (byteBuffer !!! i) (shift * ByteBits))]> wordBuffer in
    let shift' := wrap 32 (shift + 1) in
    Ret (wordBuffer', if shift' mod 4 =? 0 then wrap 32 (wc - 1) else wc, shift')).

Definition convertFromBytes (byteBuffer : list Z) (wordCount byteCount : nat) : outcome (list Z) :=
  let! s := for_down (byteCount + 1) (convertFromBytes_step byteBuffer wordCount)
              (Ret (replicate wordCount 0, Z.of_nat wordCount - 1, 0)) in
  Ret s.1.1.

(** [x = x - y * qk] on the bytes [xb[k .. k+ylen-1]]. *)
Definition sub_step (yb : list Z) (k : nat) (qk : Z) (i : nat) (s : list Z * Z) : list Z * Z :=
  let '(xb, carry) := s in
  let carry := carry + (yb !!! i) * qk in
  let diff := (xb !!! (k + i)%nat) + ByteRadix - Z.land carry ByteMask in
  (<[(k + i)%nat := Z.land diff ByteMask]> xb,
   Z.shiftr carry ByteBits + (1 - Z.shiftr diff ByteBits)).

(** [x = x + y] on the same bytes. *)
Definition add_step (yb : list Z) (k : nat) (i : nat) (s : list Z * Z) : list Z * Z :=
  let '(xb, carry2) := s in
  let carry2 := carry2 + (xb !!! (k + i)%nat) + (yb !!! i) in
  (<[(k + i)%nat := Z.land carry2 ByteMask]> xb, Z.shiftr carry2 ByteBits).

(** The guess for quotient byte [k], capped at 255. *)
Definition top_bytes (yb : list Z) : Z := Z.shiftl (yb !!! 0%nat) ByteBits + (yb !!! 1%nat).

Definition guess (xb yb : list Z) (k : nat) (first_byte : Z) : Z :=
  let y2 := top_bytes yb in
  let x3 := Z.shiftl first_byte (2 * ByteBits) + Z.shiftl (xb !!! k) ByteBits + (xb !!! (k + 1)%nat) in
  let qk := x3 / y2 in
  if ByteRadix <=? qk then ByteRadix - 1 else qk.

(** One iteration of the digit loop: the dividend bytes, the quotient byte and
    [first_byte] before it is reloaded from [xb[k]]. *)
Definition div_digit (yb : list Z) (ylen k : nat) (xb : list Z) (first_byte : Z) : list Z * Z * Z :=
  let qk := guess xb yb k first_byte in
  if qk =? 0 then (xb, qk, first_byte)
  else
    let '(xb, carry) := for_down ylen (sub_step yb k qk) (xb, 0) in
    if carry =? 0 then (xb, qk, first_byte)
    else
      let carry := first_byte + ByteRadix - carry in
      let first_byte := Z.land carry ByteMask in
      let carry := 1 - Z.shiftr carry ByteBits in
      if carry =? 0 then (xb, qk, first_byte)
      else
        let '(xb, carry2) := for_down ylen (add_step yb k) (xb, 0) in
        (xb, qk - 1, if carry2 =? 0 then first_byte else Z.land (first_byte + 1) ByteMask).

Definition div_iter (yb : list Z) (ylen k : nat) (s : outcome (list Z * Z * list Z)) :
    outcome (list Z * Z * list Z) :=
  obind s (λ '(xb, first_byte, q),
    let '(xb', qk, _) := div_digit yb ylen k xb first_byte in
    if (k <? length q)%nat then Ret (xb', xb' !!! k, <[k := qk]> q) else Undefined).

(** [xb] points to offset [xo] of the buffer [x]; the routine starts by writing
    [xb[-1]], and then divides by the top bytes of [y]. *)
Definition doDivide (x : list Z) (xo xlen : nat) (yb : list Z) (ylen : nat) (q : list Z) :
    outcome (list Z) :=
  assert! (ylen <=? xlen)%nat in
  if (xo =? 0)%nat || (top_bytes yb =? 0) then Undefined
  else
    let xb := drop xo (<[(xo - 1)%nat := 0]> x) in
    let! s := for_up (xlen - ylen + 1) 0 (div_iter yb ylen) (Ret (xb, 0, q)) in
    Ret s.2.

(** [junk] is the byte past the converted dividend, which is never written. *)
Definition divideWords (Nw : nat) (junk : Z) (res n1 n2 : list Z) : outcome (list Z) :=
  let x := convertToBytes n1 ++ [junk] in
  let y := convertToBytes n2 in
  let q := replicate (Nw * 2) 0 in
  let xlen := skipLeadingZeroBytes x (Nw * WordBytes) in
  let ylen := skipLeadingZeroBytes y (Nw * WordBytes) in
  let yb := drop (Nw * WordBytes - ylen) y ++ [0] in
  if (xlen <=? WordBytes)%nat && (ylen <=? WordBytes)%nat then
    if n2 !!! (Nw - 1)%nat =? 0 then Undefined
    else Ret (<[(Nw - 1)%nat := (n1 !!! (Nw - 1)%nat) / (n2 !!! (Nw - 1)%nat)]> res)
  else if (xlen <? ylen)%nat then Ret res
  else
    let! q' := doDivide x (Nw * WordBytes - xlen) xlen yb ylen q in
    convertFromBytes q' Nw (xlen - ylen).

(** ** Byte segments *)

(** The number in the [n] bytes that start at index [k]. *)
Definition seg (n k : nat) (l : list Z) : Z := beval 8 (take n (drop k l)).

Local Abbreviation R n := (256 ^ Z.of_nat n).

Lemma pow256 n : 2 ^ (8 * Z.of_nat n) = R n.
Proof. rewrite Z.pow_mul_r by lia. done. Qed.

Lemma R_pos n : 0 < R n.
Proof. apply Z.pow_pos_nonneg; lia. Qed.

Lemma R_S n : R (S n) = 256 * R n.
Proof. rewrite Nat2Z.inj_succ, Z.pow_succ_r by lia. done. Qed.

Lemma seg_0 k l : seg 0 k l = 0.
Proof. done. Qed.

Lemma seg_S n k l : (k + n < length l)%nat → seg (S n) k l = (l !!! k) * R n + seg n (S k) l.
Proof.
  intros Hk. unfold seg. rewrite (drop_S l (l !!! k)) by (apply list_lookup_lookup_total_lt; lia).
  cbn [take beval]. rewrite length_take, length_drop, Nat.min_l, pow256 by lia. done.
Qed.

Lemma seg_last n k l : (k + n < length l)%nat → seg (S n) k l = 256 * seg n k l + (l !!! (k + n)%nat).
Proof.
  revert k. induction n as [|n IH]; intros k Hk.
  - rewrite seg_S, !seg_0 by lia. rewrite Nat.add_0_r. cbn. lia.
  - rewrite seg_S, IH, (seg_S n) by lia.
    rewrite R_S. replace (S k + n)%nat with (k + S n)%nat by lia. ring.
Qed.

Lemma seg_bound n k l : digits 8 l → 0 ≤ seg n k l < R n.
Proof.
  intros Hd. assert (digits 8 (take n (drop k l))) as Hd' by by apply Forall_take, Forall_drop.
  apply (beval_bound 8) in Hd' as [H1 H2]; [|lia]. split; [done|].
  eapply Z.lt_le_trans; [exact H2|]. rewrite pow256. apply Z.pow_le_mono_r; [lia|].
  rewrite length_take. lia.
Qed.

Lemma seg_ext n k l l' : (∀ j, (k ≤ j < k + n)%nat → l !!! j = l' !!! j) →
  (k + n ≤ length l)%nat → (k + n ≤ length l')%nat → seg n k l = seg n k l'.
Proof.
  revert k. induction n as [|n IH]; intros k He H1 H2; [done|].
  rewrite !seg_S by lia. rewrite He by lia. f_equal. apply IH; [intros; apply He|..]; lia.
Qed.

Lemma byte_and z : Z.land z ByteMask = z mod 256.
Proof. change ByteMask with (Z.ones 8). by rewrite Z.land_ones by lia. Qed.
Lemma byte_shr z : Z.shiftr z ByteBits = z / 256.
Proof. unfold ByteBits. by rewrite Z.shiftr_div_pow2 by lia. Qed.
Lemma uint8_mod z : uint 8 (z mod 256).
Proof. unfold uint. pose proof (Z.mod_pos_bound z 256). lia. Qed.

(** [l'] is [l] with other bytes in [[k, k+n)]. *)
Definition same_outside (k n : nat) (l l' : list Z) : Prop :=
  length l' = length l ∧ digits 8 l' ∧ ∀ j, (j < k ∨ k + n ≤ j)%nat → l' !!! j = l !!! j.

Section DigitLoops.
Context (yb : list Z) (ylen k : nat).
Context (Hyb : digits 8 yb) (Hylen : (ylen < length yb)%nat).

(** The multiply-and-subtract loop: [x - qk * y] with the borrow in [carry]. *)
Lemma sub_loop_spec xb qk : digits 8 xb → (k + ylen ≤ length xb)%nat → 0 ≤ qk ≤ 255 →
  let '(xb', carry) := for_down ylen (sub_step yb k qk) (xb, 0) in
  same_outside k ylen xb xb' ∧ 0 ≤ carry ≤ 255 ∧
  seg ylen k xb' - carry * R ylen = seg ylen k xb - qk * seg ylen 0 yb.
Proof using All.
  intros Hx Hk Hq.
  set (P := λ (i : nat) (s : list Z * Z), (i ≤ ylen)%nat ∧
    same_outside (k + i) (ylen - i) xb s.1 ∧ 0 ≤ s.2 ≤ 255 ∧
    seg (ylen - i) (k + i) s.1 - s.2 * R (ylen - i) =
      seg (ylen - i) (k + i) xb - qk * seg (ylen - i) i yb).
  enough (P 0%nat (for_down ylen (sub_step yb k qk) (xb, 0))) as H.
  { unfold P in H. destruct (for_down _ _ _) as [xb' c]. cbn [fst snd] in H.
    rewrite !Nat.add_0_r, !Nat.sub_0_r in H. tauto. }
  apply for_down_ind; unfold P; cbn [fst snd].
  - rewrite Nat.sub_diag, !seg_0. split_and!; [lia|done|done|done|lia..].
  - intros i [xb' c] Hi (_ & (Hl & Hd & Hout) & Hc & He). cbn [fst snd] in *.
    unfold sub_step. rewrite !byte_and, !byte_shr. cbn [fst snd].
    replace (ylen - i)%nat with (S (ylen - (i + 1))) by lia.
    set (n := (ylen - (i + 1))%nat) in *.
    pose proof (digits_lookup 8 ltac:(lia) yb i Hyb) as Hy.
    pose proof (digits_lookup 8 ltac:(lia) xb (k + i) Hx) as Hx0.
    rewrite (Hout (k + i)%nat) by lia.
    set (y := yb !!! i) in *. set (x := xb !!! (k + i)%nat) in *.
    set (c1 := c + y * qk).
    assert (0 ≤ c1 ≤ 65280) as Hc1 by (unfold uint, c1 in *; nia).
    unfold ByteRadix. change 0x100 with 256. set (diff := x + 256 - c1 mod 256).
    assert (diff mod 256 - 256 * (c1 / 256 + (1 - diff / 256)) = x - c1) as Hkey.
    { pose proof (Z.div_mod diff 256 ltac:(lia)). pose proof (Z.div_mod c1 256 ltac:(lia)).
      unfold diff in *. lia. }
    pose proof (Z.mod_pos_bound diff 256 ltac:(lia)). unfold uint in Hx0.
    assert (1 ≤ diff ≤ 511) as Hdiff by (unfold diff; pose proof (Z.mod_pos_bound c1 256); lia).
    assert (0 ≤ c1 / 256 ∧ diff / 256 ≤ 1) as [? ?] by zlia.
    split; [lia|]. split; [|split; [lia|]].
    + split; [by rewrite length_insert|]. split; [by apply digits_insert; [|apply uint8_mod]|].
      intros j Hj. destruct (decide (k + i = j)%nat) as [<-|Hne].
      * exfalso. lia.
      * rewrite list_lookup_total_insert_ne by done. apply Hout. lia.
    + rewrite !seg_S by (rewrite ?length_insert; lia).
      rewrite list_lookup_total_insert_eq by lia.
      rewrite (seg_ext n (S (k + i)) (<[_:=_]> xb') xb')
        by (rewrite ?length_insert; try lia; intros; apply list_lookup_total_insert_ne; lia).
      replace (S (k + i)) with (k + (i + 1))%nat by lia.
      replace (S i) with (i + 1)%nat by lia. rewrite R_S. fold x y.
      pose proof (R_pos n).
      replace (seg n (k + (i + 1)) xb') with
        (seg n (k + (i + 1)) xb - qk * seg n (i + 1) yb + c * R n) by lia.
      transitivity ((diff mod 256 - 256 * (c1 / 256 + (1 - diff / 256)) + c) * R n +
        seg n (k + (i + 1)) xb - qk * seg n (i + 1) yb); [ring|]. rewrite Hkey. unfold c1. ring.
Qed.

(** The add-back loop. *)
Lemma add_loop_spec xb : digits 8 xb → (k + ylen ≤ length xb)%nat →
  let '(xb', carry2) := for_down ylen (add_step yb k) (xb, 0) in
  same_outside k ylen xb xb' ∧ 0 ≤ carry2 ≤ 1 ∧
  seg ylen k xb' + carry2 * R ylen = seg ylen k xb + seg ylen 0 yb.
Proof using All.
  intros Hx Hk.
  set (P := λ (i : nat) (s : list Z * Z), (i ≤ ylen)%nat ∧
    same_outside (k + i) (ylen - i) xb s.1 ∧ 0 ≤ s.2 ≤ 1 ∧
    seg (ylen - i) (k + i) s.1 + s.2 * R (ylen - i) =
      seg (ylen - i) (k + i) xb + seg (ylen - i) i yb).
  enough (P 0%nat (for_down ylen (add_step yb k) (xb, 0))) as H.
  { unfold P in H. destruct (for_down _ _ _) as [xb' c]. cbn [fst snd] in H.
    rewrite !Nat.add_0_r, !Nat.sub_0_r in H. tauto. }
  apply for_down_ind; unfold P; cbn [fst snd].
  - rewrite Nat.sub_diag, !seg_0. split_and!; [lia|done|done|done|lia..].
  - intros i [xb' c] Hi (_ & (Hl & Hd & Hout) & Hc & He). cbn [fst snd] in *.
    unfold add_step. rewrite !byte_and, !byte_shr. cbn [fst snd].
    replace (ylen - i)%nat with (S (ylen - (i + 1))) by lia.
    set (n := (ylen - (i + 1))%nat) in *.
    pose proof (digits_lookup 8 ltac:(lia) yb i Hyb) as Hy.
    pose proof (digits_lookup 8 ltac:(lia) xb (k + i) Hx) as Hx0.
    rewrite (Hout (k + i)%nat) by lia. unfold uint in *.
    set (t := c + (xb !!! (k + i)%nat) + (yb !!! i)).
    assert (0 ≤ t / 256 ≤ 1) by (unfold t; zlia).
    split; [lia|]. split; [|split; [lia|]].
    + split; [by rewrite length_insert|]. split; [by apply digits_insert; [|apply uint8_mod]|].
      intros j Hj. rewrite list_lookup_total_insert_ne by lia. apply Hout. lia.
    + rewrite !seg_S by (rewrite ?length_insert; lia).
      rewrite list_lookup_total_insert_eq by lia.
      rewrite (seg_ext n (S (k + i)) (<[_:=_]> xb') xb')
        by (rewrite ?length_insert; try lia; intros; apply list_lookup_total_insert_ne; lia).
      replace (S (k + i)) with (k + (i + 1))%nat by lia.
      replace (S i) with (i + 1)%nat by lia. rewrite R_S.
      pose proof (R_pos n). pose proof (Z.div_mod t 256 ltac:(lia)) as Ht.
      replace (seg n (k + (i + 1)) xb') with
        (seg n (k + (i + 1)) xb + seg n (i + 1) yb - c * R n) by lia.
      transitivity ((256 * (t / 256) + t mod 256 - c) * R n +
        seg n (k + (i + 1)) xb + seg n (i + 1) yb); [ring|]. rewrite <- Ht. unfold t. ring.
Qed.
End DigitLoops.

(** ** One quotient digit *)

(** A number below [r] has no digit at weight [r]. *)
Lemma no_top f s r : 0 ≤ s < r → 0 ≤ f * r + s < r → f = 0.
Proof. intros. nia. Qed.

Section Digit.
Context (yb : list Z) (ylen k : nat) (xb : list Z) (first_byte : Z).
Context (Hyb : digits 8 yb) (Hylen : (1 ≤ ylen < length yb)%nat).
Context (Htop : 1 ≤ yb !!! 0%nat) (Hpad : ylen = 1%nat → yb !!! 1%nat = 0).
Context (Hxb : digits 8 xb) (Hk : (k + ylen < length xb)%nat) (Hfb : uint 8 first_byte).

Local Abbreviation Y := (seg ylen 0 yb).
(** The remainder carried into this digit, with the next dividend byte. *)
Local Abbreviation F := (first_byte * R ylen + seg ylen k xb).

Context (HF : F < 256 * Y).

Lemma divisor_pos : R (ylen - 1) ≤ Y < R ylen.
Proof using All.
  split; [|apply seg_bound; done].
  replace ylen with (S (ylen - 1)) at 2 by lia. rewrite seg_S by lia.
  pose proof (seg_bound (ylen - 1) 1 yb Hyb). pose proof (R_pos (ylen - 1)). nia.
Qed.

Lemma digit_nonneg : 0 ≤ F.
Proof using All.
  pose proof (seg_bound ylen k xb Hxb). pose proof (R_pos ylen). unfold uint in Hfb. nia.
Qed.

Local Abbreviation y2 := (top_bytes yb).
Local Abbreviation x3 := (first_byte * 65536 + (xb !!! k) * 256 + (xb !!! (k + 1)%nat)).

(** The top bytes as approximations of the two numbers. *)
Lemma top_split : ylen ≠ 1%nat → ∃ M u v, 0 < M ∧ 0 ≤ u < M ∧ 0 ≤ v < M ∧
  Y = y2 * M + u ∧ F = x3 * M + v.
Proof using All.
  intros Hne. exists (R (ylen - 2)), (seg (ylen - 2) 2 yb), (seg (ylen - 2) (k + 2) xb).
  split; [apply R_pos|]. split; [by apply seg_bound|]. split; [by apply seg_bound|].
  unfold top_bytes, ByteBits. rewrite Z.shiftl_mul_pow2 by lia. change (2 ^ 8) with 256.
  remember (ylen - 2)%nat as n. replace ylen with (S (S n)) by lia.
  rewrite !seg_S by lia. rewrite !R_S.
  replace (S (S k)) with (k + 2)%nat by lia. replace (S k) with (k + 1)%nat by lia. split; ring.
Qed.

Lemma top_single : ylen = 1%nat → y2 = 256 * Y ∧ ∃ v, 0 ≤ v < 256 ∧ x3 = 256 * F + v.
Proof using All.
  intros H1. unfold top_bytes, ByteBits. rewrite Z.shiftl_mul_pow2, Hpad, H1 by (done || lia).
  rewrite !seg_S, !seg_0 by lia.
  change (256 ^ Z.of_nat 0) with 1. change (256 ^ Z.of_nat 1) with 256. split; [lia|].
  exists (xb !!! (k + 1)%nat). split; [|lia]. apply (digits_lookup 8 ltac:(lia) xb (k + 1) Hxb).
Qed.

Lemma y2_bound : 256 ≤ y2.
Proof using All.
  unfold top_bytes, ByteBits. rewrite Z.shiftl_mul_pow2 by lia.
  pose proof (digits_lookup 8 ltac:(lia) yb 1 Hyb) as [? _]. lia.
Qed.

Lemma guess_upper : F / Y ≤ x3 / y2.
Proof using All.
  pose proof divisor_pos. pose proof (R_pos (ylen - 1)). pose proof y2_bound.
  pose proof (Z.mul_div_le F Y ltac:(lia)).
  destruct (decide (ylen = 1%nat)) as [Hone|Hne].
  - destruct (top_single Hone) as (-> & v & Hv & ->). apply Z.div_le_lower_bound; nia.
  - destruct (top_split Hne) as (M & u & v & HM & Hu & Hv & EY & EF).
    pose proof digit_nonneg. assert (0 ≤ F / Y) by (apply Z.div_pos; lia).
    apply Z.div_le_lower_bound; [lia|].
    set (d := F / Y) in *. clearbody d. rewrite EF, EY in *.
    assert (y2 * d * M < (x3 + 1) * M) by nia. nia.
Qed.

Lemma guess_lower q : 1 ≤ q ≤ 255 → q * y2 ≤ x3 → (q - 1) * Y ≤ F.
Proof using All.
  intros Hq Hle. pose proof divisor_pos. pose proof (R_pos (ylen - 1)). pose proof y2_bound.
  destruct (decide (ylen = 1%nat)) as [Hone|Hne].
  - destruct (top_single Hone) as (EY & v & Hv & EF). nia.
  - destruct (top_split Hne) as (M & u & v & HM & Hu & Hv & EY & EF). rewrite EY, EF.
    assert ((q - 1) * (y2 + 1) ≤ x3) by nia. nia.
Qed.

(** With the leading divisor byte non-zero the guess is the digit or one more. *)
Lemma guess_bounds : F / Y ≤ guess xb yb k first_byte ≤ F / Y + 1 ∧ 0 ≤ guess xb yb k first_byte ≤ 255.
Proof using All.
  pose proof divisor_pos. pose proof digit_nonneg. pose proof (R_pos (ylen - 1)).
  pose proof y2_bound. pose proof guess_upper as Hup.
  assert (0 ≤ F / Y) by (apply Z.div_pos; lia).
  assert (F / Y < 256) by (apply Z.div_lt_upper_bound; lia).
  assert (guess xb yb k first_byte = Z.min 255 (x3 / y2)) as ->.
  { unfold guess, ByteRadix, ByteBits. rewrite !Z.shiftl_mul_pow2 by lia.
    change (2 ^ (2 * 8)) with 65536. change (2 ^ 8) with 256.
    destruct (Z.leb_spec 0x100 (x3 / y2)); lia. }
  set (q := Z.min 255 (x3 / y2)). split; [|lia]. split; [lia|].
  destruct (Z.le_gt_cases q 0); [lia|].
  enough (q - 1 ≤ F / Y) by lia. apply Z.div_le_lower_bound; [lia|]. rewrite Z.mul_comm.
  apply guess_lower; [lia|]. pose proof (Z.mul_div_le x3 y2 ltac:(lia)). nia.
Qed.

(** The digit loop body leaves the remainder and yields the exact digit. *)
Lemma div_digit_spec :
  let '(xb', qk, _) := div_digit yb ylen k xb first_byte in
  same_outside k ylen xb xb' ∧ qk = F / Y ∧ seg ylen k xb' = F mod Y.
Proof using All.
  pose proof divisor_pos as HY. pose proof digit_nonneg. pose proof (R_pos (ylen - 1)).
  destruct guess_bounds as [Hg Hg255]. unfold div_digit.
  set (g := guess xb yb k first_byte) in *.
  pose proof (Z.div_mod F Y ltac:(lia)) as HFY. pose proof (Z.mod_pos_bound F Y ltac:(lia)) as HFm.
  pose proof (seg_bound ylen k xb Hxb) as Hsx. pose proof (R_pos ylen) as HRp.
  destruct (Z.eqb_spec g 0) as [Hg0|Hg0].
  { pose proof (Z.div_pos F Y ltac:(lia) ltac:(lia)). assert (F / Y = 0) as Hz by lia.
    split; [done|]. split; [lia|]. rewrite Hz, Z.mul_0_r, Z.add_0_l in HFY. rewrite <- HFY in HFm.
    rewrite <- HFY, (no_top first_byte (seg ylen k xb) (R ylen)) by lia. lia. }
  pose proof (sub_loop_spec yb ylen k Hyb ltac:(lia) xb g Hxb ltac:(lia) Hg255) as Hsub.
  destruct (for_down ylen (sub_step yb k g) (xb, 0)) as [xb1 c]. destruct Hsub as (Hs1 & Hc & E1).
  pose proof (seg_bound ylen k xb1 (proj1 (proj2 Hs1))) as Hb1.
  set (d := F / Y) in *. set (m := F mod Y) in *.
  assert (first_byte * R ylen + seg ylen k xb1 - c * R ylen = F - g * Y) as E1' by lia.
  assert (g = d ∧ F - g * Y = m ∨ g = d + 1 ∧ F - g * Y = m - Y) as Hcase.
  { assert (g = d ∨ g = d + 1) as [-> | ->] by lia; [left|right]; split; try done; lia. }
  rewrite <- E1' in Hcase. unfold uint in Hfb.
  assert (0 ≤ first_byte * R ylen) by (apply Z.mul_nonneg_nonneg; lia).
  destruct (Z.eqb_spec c 0) as [Hc0|Hc0].
  { subst c. destruct Hcase as [[-> Hm]|[_ Hm]]; [|lia]. split; [done|]. split; [done|].
    pose proof (no_top first_byte (seg ylen k xb1) (R ylen) ltac:(lia) ltac:(lia)) as Hz.
    rewrite Hz in Hm. lia. }
  rewrite !byte_shr. unfold ByteRadix. change 0x100 with 256.
  destruct (Z.eqb_spec (1 - (first_byte + 256 - c) / 256) 0) as [Hb0|Hb0].
  { assert (c ≤ first_byte) by (clear - Hb0 Hc Hfb; zlia).
    assert (0 ≤ (first_byte - c) * R ylen) by (apply Z.mul_nonneg_nonneg; lia).
    destruct Hcase as [[-> Hm]|[_ Hm]]; [|lia]. split; [done|]. split; [done|].
    pose proof (no_top (first_byte - c) (seg ylen k xb1) (R ylen) ltac:(lia) ltac:(lia)) as Hz.
    assert (c = first_byte) by lia. subst c. lia. }
  assert (first_byte < c) as Hlt by (clear - Hb0 Hc Hfb; zlia).
  assert (R ylen ≤ (c - first_byte) * R ylen) by
    (rewrite <- (Z.mul_1_l (R ylen)) at 1; apply Z.mul_le_mono_nonneg_r; lia).
  destruct Hcase as [[_ Hm]|[-> Hm]]; [lia|].
  pose proof (add_loop_spec yb ylen k Hyb ltac:(lia) xb1 (proj1 (proj2 Hs1))) as Hadd.
  destruct (for_down ylen (add_step yb k) (xb1, 0)) as [xb2 c2].
  destruct Hadd as (Hs2 & Hc2 & E2); [destruct Hs1; lia|].
  pose proof (seg_bound ylen k xb2 (proj1 (proj2 Hs2))) as Hb2.
  split; [|split; [lia|]].
  - destruct Hs1 as (? & ? & Ho1), Hs2 as (? & ? & Ho2). split; [lia|]. split; [done|].
    intros j Hj. rewrite Ho2, Ho1 by done. done.
  - pose proof (no_top (c - first_byte - c2) m (R ylen) ltac:(lia) ltac:(lia)) as Hz.
    assert (c = first_byte + c2) by lia. subst c. lia.
Qed.
End Digit.

(** ** The digit loop *)

Section DoDivide.
Context (X0 yb q : list Z) (xlen ylen : nat).
Context (HX0 : digits 8 X0) (HlX : length X0 = (xlen + 1)%nat).
Context (Hyb : digits 8 yb) (Hlen : (1 ≤ ylen ≤ xlen)%nat) (Hly : length yb = (ylen + 1)%nat).
Context (Htop : 1 ≤ yb !!! 0%nat) (Hend : yb !!! ylen = 0).
Context (Hq : digits 8 q) (Hroom : (xlen - ylen < length q)%nat).

Local Abbreviation Y := (seg ylen 0 yb).

(** After [k] digits: the bytes read so far are [quotient * y + remainder]. *)
Definition div_inv (k : nat) (s : outcome (list Z * Z * list Z)) : Prop :=
  ∃ xb fb q', s = Ret (xb, fb, q') ∧ length xb = (xlen + 1)%nat ∧ digits 8 xb ∧ uint 8 fb ∧
    length q' = length q ∧ digits 8 q' ∧
    (∀ j, (k + ylen - 1 ≤ j)%nat → xb !!! j = X0 !!! j) ∧
    let rem := fb * R (ylen - 1) + seg (ylen - 1) k xb in
    rem < Y ∧ seg (k + ylen - 1) 0 X0 = seg k 0 q' * Y + rem.

Lemma div_inv_step k s : (k ≤ xlen - ylen)%nat → div_inv k s → div_inv (k + 1) (div_iter yb ylen k s).
Proof using All.
  intros Hk (xb & fb & q' & -> & Hlx & Hdx & Hfb & Hlq & Hdq & Hout & Hrem & Hsum).
  set (rem := fb * R (ylen - 1) + seg (ylen - 1) k xb) in *.
  assert (fb * R ylen + seg ylen k xb = 256 * rem + (X0 !!! (k + ylen - 1)%nat)) as EF.
  { rewrite <- Hout by lia. unfold rem. replace ylen with (S (ylen - 1)) at 1 2 by lia.
    rewrite R_S, seg_last by lia. replace (k + (ylen - 1))%nat with (k + ylen - 1)%nat by lia. ring. }
  pose proof (digits_lookup 8 ltac:(lia) X0 (k + ylen - 1) HX0) as Hnext. unfold uint in Hnext.
  assert (fb * R ylen + seg ylen k xb < 256 * Y) as HF by lia.
  assert (ylen = 1%nat → yb !!! 1%nat = 0) as Hpad by (intros E; by rewrite E in Hend).
  pose proof (div_digit_spec yb ylen k xb fb Hyb ltac:(lia) Htop Hpad Hdx ltac:(lia) Hfb HF) as Hd.
  pose proof (divisor_pos yb ylen k xb fb Hyb ltac:(lia) Htop Hpad Hdx ltac:(lia) Hfb HF) as HY.
  pose proof (digit_nonneg yb ylen k xb fb Hyb ltac:(lia) Htop Hpad Hdx ltac:(lia) Hfb HF) as HF0.
  pose proof (R_pos (ylen - 1)) as HR.
  unfold div_iter, obind. destruct (div_digit yb ylen k xb fb) as [[xb' qk] fb'].
  destruct Hd as ((Hl' & Hd' & Ho') & Hqk & Hseg).
  destruct (Nat.ltb_spec k (length q')); [|lia].
  rewrite EF in *. set (F := 256 * rem + _) in *.
  pose proof (Z.div_mod F Y ltac:(lia)). pose proof (Z.mod_pos_bound F Y ltac:(lia)).
  assert (seg ylen k xb' = (xb' !!! k) * R (ylen - 1) + seg (ylen - 1) (k + 1) xb') as Erem.
  { replace ylen with (S (ylen - 1)) at 1 by lia. rewrite seg_S by lia. by rewrite Nat.add_1_r. }
  assert (uint 8 qk) as Hqk8.
  { subst qk. split; [apply Z.div_pos; lia|]. apply Z.div_lt_upper_bound; lia. }
  eexists xb', _, _. split; [done|]. cbv zeta. split_and!; [lia|done|by apply (digits_lookup 8)| | | | |].
  - by rewrite length_insert.
  - by apply digits_insert.
  - intros j Hj. rewrite Ho' by lia. apply Hout. lia.
  - rewrite <- Erem. lia.
  - rewrite <- Erem. replace (k + 1 + ylen - 1)%nat with (S (k + ylen - 1)) by lia.
    rewrite seg_last, Nat.add_0_l by lia. rewrite Nat.add_1_r, seg_last by (rewrite length_insert; lia).
    rewrite Nat.add_0_l, list_lookup_total_insert_eq by lia.
    rewrite (seg_ext k 0 (<[k:=qk]> q') q')
      by (rewrite ?length_insert; try lia; intros; apply list_lookup_total_insert_ne; lia).
    rewrite Hsum, Hseg, Hqk. unfold F in *. lia.
Qed.

Lemma div_loop_spec : ∃ xb fb q',
  for_up (xlen - ylen + 1) 0 (div_iter yb ylen) (Ret (X0, 0, q)) = Ret (xb, fb, q') ∧
  length q' = length q ∧ digits 8 q' ∧ seg (xlen - ylen + 1) 0 q' = seg xlen 0 X0 / Y.
Proof using All.
  assert (div_inv 0 (Ret (X0, 0, q))) as H0.
  { exists X0, 0, q. cbv zeta. split_and!; [done..|unfold uint; lia|done|done|done| |].
    - rewrite Z.mul_0_l, Z.add_0_l. pose proof (seg_bound (ylen - 1) 0 X0 HX0).
      eapply Z.lt_le_trans; [apply H|]. replace ylen with (S (ylen - 1)) at 2 by lia.
      rewrite seg_S by lia. pose proof (seg_bound (ylen - 1) 1 yb Hyb). pose proof (R_pos (ylen - 1)). nia.
    - rewrite seg_0, !Z.mul_0_l, !Z.add_0_l. done. }
  pose proof (for_up_ind div_inv (xlen - ylen + 1) 0 (div_iter yb ylen) (Ret (X0, 0, q)) H0
    ltac:(intros; apply div_inv_step; [lia|done])) as
    (xb & fb & q' & -> & _ & Hdx & Hfb & Hl & Hd & _ & Hrem & Hsum).
  exists xb, fb, q'. split_and!; [done..|].
  replace (0 + (xlen - ylen + 1) + ylen - 1)%nat with xlen in Hsum by lia.
  rewrite Nat.add_0_l in *. pose proof (seg_bound (ylen - 1) (xlen - ylen + 1) xb Hdx).
  pose proof (R_pos (ylen - 1)). unfold uint in Hfb.
  assert (0 ≤ fb * R (ylen - 1)) by (apply Z.mul_nonneg_nonneg; lia).
  apply (Z.div_unique_pos _ _ _ (fb * R (ylen - 1) + seg (ylen - 1) (xlen - ylen + 1) xb));
    [split; [lia|exact Hrem]|]. rewrite (Z.mul_comm Y). exact Hsum.
Qed.
End DoDivide.

(** ** Buffers *)

Lemma convertToBytes_cons w l : convertToBytes (w :: l) = word_bytes w ++ convertToBytes l.
Proof. done. Qed.

Lemma length_convertToBytes l : length (convertToBytes l) = (length l * 4)%nat.
Proof.
  induction l as [|w l IH]; [done|]. rewrite convertToBytes_cons, length_app, IH. cbn [length word_bytes]. lia.
Qed.

Lemma digits_convertToBytes l : digits 8 (convertToBytes l).
Proof.
  induction l as [|w l IH]; [apply Forall_nil_2|]. rewrite convertToBytes_cons.
  apply Forall_app_2; [|exact IH]. unfold word_bytes.
  repeat (apply Forall_cons_2; [rewrite byte_and; apply uint8_mod|]). apply Forall_nil_2.
Qed.

Lemma word_bytes_val w : uint 32 w → beval 8 (word_bytes w) = w.
Proof.
  intros Hw. unfold word_bytes. rewrite !byte_and. unfold ByteBits.
  rewrite !Z.shiftr_div_pow2 by lia. cbn [beval length]. unfold uint in Hw.
  change (8 * Z.of_nat 3) with 24. change (8 * Z.of_nat 2) with 16. change (8 * Z.of_nat 1) with 8.
  change (8 * Z.of_nat 0) with 0. change (3 * 8) with 24. change (2 * 8) with 16. zlia.
Qed.

Lemma convertToBytes_val l : digits 32 l → beval 8 (convertToBytes l) = beval 32 l.
Proof.
  induction 1 as [|w l Hw Hl IH]; [done|].
  rewrite convertToBytes_cons, beval_app, word_bytes_val, IH, length_convertToBytes by (done || lia). cbn [beval].
  do 3 f_equal. lia.
Qed.

(** What [skipLeadingZeroBytes] leaves: at least one byte, the same number, and a
    non-zero leading byte unless a single byte is left. *)
Lemma skip_spec l n : (1 ≤ n ≤ length l)%nat → digits 8 l →
  let m := skipLeadingZeroBytes l n in
  (1 ≤ m ≤ n)%nat ∧ seg m (n - m) l = seg n 0 l ∧ (m = 1%nat ∨ 1 ≤ l !!! (n - m)%nat).
Proof.
  revert l. induction n as [|n IH]; intros l Hn Hd; [lia|]. cbn [skipLeadingZeroBytes].
  destruct l as [|d l]; [simpl in Hn; lia|]. pose proof Hd as Hd'.
  apply Forall_cons in Hd' as [Hd0 Hdl].
  destruct (Nat.ltb_spec 0 n) as [Hpos|Hz]; cbn [andb];
    [|rewrite Nat.sub_diag; replace n with 0%nat by lia; split_and!; [lia|lia|done|by left]].
  change ((d :: l) !!! 0%nat) with d. destruct (Z.eqb_spec d 0) as [->|Hne].
  - cbn [tail]. destruct (IH l) as (Hm & Hs & Hl); [simpl in Hn; lia|done|].
    set (m := skipLeadingZeroBytes l n) in *.
    assert (S n - m = S (n - m))%nat as -> by lia. split_and!; [lia|lia| |].
    + rewrite (seg_S n 0) by (simpl in *; lia). change ((0 :: l) !!! 0%nat) with 0.
      unfold seg in *. cbn [drop] in *. rewrite Hs. done.
    + change ((0 :: l) !!! S (n - m)) with (l !!! (n - m)%nat). tauto.
  - rewrite Nat.sub_diag. split_and!; [lia|lia|done|]. right. change ((d :: l) !!! 0%nat) with d.
    unfold uint in Hd0. lia.
Qed.

Lemma seg_all l : seg (length l) 0 l = beval 8 l.
Proof. unfold seg. by rewrite drop_0, firstn_all. Qed.

Lemma seg_app_l n k l l' : (k + n ≤ length l)%nat → seg n k (l ++ l') = seg n k l.
Proof.
  intros H. apply seg_ext; [|rewrite length_app; lia|done].
  intros j Hj. rewrite !list_lookup_total_alt, lookup_app_l by lia. done.
Qed.

Lemma seg_drop n k l : seg n 0 (drop k l) = seg n k l.
Proof. unfold seg. by rewrite drop_0. Qed.

Section FromBytes.
Context (buf : list Z) (nw : nat) (Hbuf : digits 8 buf) (Hnw : 4 * Z.of_nat nw < 2 ^ 32).

(** After the [t] bytes that start at index [i]: the words hold their number,
    and [wc] is the word that the next byte goes to. *)
Definition from_inv (t i : nat) (s : outcome (list Z * Z * Z)) : Prop :=
  ∃ wb wc, s = Ret (wb, wc, Z.of_nat t) ∧ words nw wb ∧ beval 32 wb = seg t i buf ∧
    wc = wrap 32 (Z.of_nat nw - 1 - Z.of_nat (t / 4)).

Lemma from_inv_step t i s : (t < 4 * nw)%nat → (i + 1 + t ≤ length buf)%nat →
  from_inv t (i + 1) s → from_inv (S t) i (convertFromBytes_step buf nw i s).
Proof using All.
  intros Ht Hi (wb & wc & -> & [Hl Hd] & Hv & ->).
  pose proof (Nat.div_mod_eq t 4) as Edm. pose proof (Nat.mod_upper_bound t 4 ltac:(lia)) as Hr.
  set (w := (t / 4)%nat) in *. set (r := (t mod 4)%nat) in *.
  unfold convertFromBytes_step, obind, ByteBits.
  rewrite (wrap_small 32) by (unfold uint; lia).
  destruct (Z.ltb_spec (Z.of_nat nw - 1 - Z.of_nat w) (Z.of_nat nw)); [|lia].
  replace (Z.to_nat (Z.of_nat nw - 1 - Z.of_nat w)) with (nw - 1 - w)%nat by lia.
  rewrite (wrap_small 32 (Z.of_nat t + 1)) by (unfold uint; lia).
  set (b := buf !!! i). pose proof (digits_lookup 8 ltac:(lia) buf i Hbuf) as Hb. fold b in Hb.
  assert (shl 32 b (Z.of_nat t * 8) = b * 2 ^ (8 * Z.of_nat r)) as ->.
  { unfold shl. replace ((Z.of_nat t * 8) mod 32) with (8 * Z.of_nat r).
    - rewrite Z.shiftl_mul_pow2 by lia. apply wrap_small. unfold uint in *.
      assert (2 ^ (8 * Z.of_nat r) ≤ 2 ^ 24) by (apply Z.pow_le_mono_r; lia).
      pose proof (pow2_pos (8 * Z.of_nat r)). nia.
    - apply (Z.mod_unique_pos _ _ (Z.of_nat w)); lia. }
  set (cur := wb !!! (nw - 1 - w)%nat).
  assert (uint (8 * Z.of_nat r) cur) as Hcur.
  { unfold cur. rewrite (lookup_beval 32) by (done || lia). rewrite Hv, Hl.
    replace (32 * (Z.of_nat nw - 1 - Z.of_nat (nw - 1 - w))) with (32 * Z.of_nat w) by lia.
    pose proof (seg_bound t (i + 1) buf Hbuf) as [Hs0 Hs1]. rewrite <- pow256 in Hs1.
    replace (8 * Z.of_nat t) with (32 * Z.of_nat w + 8 * Z.of_nat r) in Hs1 by lia.
    rewrite Z.pow_add_r in Hs1 by lia.
    assert (uint (8 * Z.of_nat r) (seg t (i + 1) buf / 2 ^ (32 * Z.of_nat w))) as Hu.
    { split; [apply Z.div_pos; [lia|apply pow2_pos; lia]|].
      apply Z.div_lt_upper_bound; [apply pow2_pos; lia|lia]. }
    rewrite wrap_small; [done|]. eapply uint_mono; [|exact Hu]. lia. }
  rewrite lor_add by (done || lia).
  replace (Z.of_nat t + 1) with (Z.of_nat (S t)) by lia.
  eexists _, _. split; [reflexivity|].
  split; [split; [by rewrite length_insert|apply digits_insert; [done|]]|split].
  - unfold uint in *. assert (2 ^ (8 * Z.of_nat r) * 2 ^ 8 ≤ 2 ^ 32); [|nia].
    rewrite <- Z.pow_add_r by lia. apply Z.pow_le_mono_r; lia.
  - rewrite beval_insert by lia. fold cur. rewrite Hv, Hl, seg_S by lia.
    replace (i + 1)%nat with (S i) by lia. fold b. rewrite <- pow256.
    replace (8 * Z.of_nat t) with
      (8 * Z.of_nat r + 32 * (Z.of_nat nw - 1 - Z.of_nat (nw - 1 - w))) by lia.
    rewrite Z.pow_add_r by lia. ring.
  - destruct (decide (r = 3%nat)) as [Hr3|Hr3].
    + replace (S t / 4)%nat with (S w) by (apply (Nat.div_unique _ _ _ 0); lia).
      replace (Z.of_nat (S t) mod 4) with 0
        by (apply (Z.mod_unique_pos _ _ (Z.of_nat w + 1)); lia).
      cbn [Z.eqb]. f_equal. lia.
    + replace (S t / 4)%nat with w by (apply (Nat.div_unique _ _ _ (S r)); lia).
      replace (Z.of_nat (S t) mod 4) with (Z.of_nat r + 1)
        by (apply (Z.mod_unique_pos _ _ (Z.of_nat w)); lia).
      destruct (Z.eqb_spec (Z.of_nat r + 1) 0); [lia|].
      symmetry. apply wrap_small. unfold uint. lia.
Qed.

Lemma convertFromBytes_spec n : (1 ≤ nw)%nat → (n < 4 * nw)%nat → (n < length buf)%nat →
  ∃ ws, convertFromBytes buf nw n = Ret ws ∧ words nw ws ∧ beval 32 ws = seg (n + 1) 0 buf.
Proof using All.
  intros H1 Hn Hl. unfold convertFromBytes.
  pose proof (for_down_ind (λ i s, (i ≤ n + 1)%nat ∧ from_inv (n + 1 - i) i s) (n + 1)
    (convertFromBytes_step buf nw) (Ret (replicate nw 0, Z.of_nat nw - 1, 0))) as H.
  destruct H as (_ & wb & wc & -> & Hw & Hv & _).
  - split; [lia|]. rewrite Nat.sub_diag. exists (replicate nw 0), (Z.of_nat nw - 1). split_and!.
    + done.
    + split; [apply length_replicate|]. apply Forall_replicate. unfold uint. lia.
    + apply beval_replicate_0.
    + rewrite wrap_small; [simpl; lia|]. unfold uint. simpl. lia.
  - intros i s Hi [_ Hs]. split; [lia|]. replace (n + 1 - i)%nat with (S (n + 1 - (i + 1))) by lia.
    apply from_inv_step; [lia|lia|done].
  - exists wb. rewrite Nat.sub_0_r in Hv. done.
Qed.
End FromBytes.

(** ** The whole routine *)

(** The number of bytes of [v], one for zero. *)
Definition byte_length (v : Z) : Z := Z.log2 v / 8 + 1.

Lemma byte_length_unique v m : 0 ≤ v < R m → (1 ≤ m)%nat → (m = 1%nat ∨ R (m - 1) ≤ v) →
  byte_length v = Z.of_nat m.
Proof.
  intros Hv Hm Hlow. unfold byte_length. rewrite <- pow256 in Hv.
  enough (Z.log2 v / 8 = Z.of_nat m - 1) by lia.
  destruct (Z.eq_dec v 0) as [->|Hnz].
  - destruct Hlow as [->|Hlow]; [done|]. pose proof (R_pos (m - 1)). lia.
  - assert (Z.log2 v < 8 * Z.of_nat m) by (apply Z.log2_lt_pow2; lia).
    assert (8 * (Z.of_nat m - 1) ≤ Z.log2 v).
    { destruct Hlow as [->|Hlow]; [pose proof (Z.log2_nonneg v); lia|].
      rewrite <- pow256 in Hlow. apply Z.log2_le_pow2; [lia|].
      replace (8 * (Z.of_nat m - 1)) with (8 * Z.of_nat (m - 1)) by lia. done. }
    zlia.
Qed.

Lemma skip_byte_length l n : (1 ≤ n ≤ length l)%nat → digits 8 l →
  Z.of_nat (skipLeadingZeroBytes l n) = byte_length (seg n 0 l).
Proof.
  intros Hn Hd. destruct (skip_spec l n Hn Hd) as (Hm & Hs & Htop).
  set (m := skipLeadingZeroBytes l n) in *. symmetry. apply byte_length_unique.
  - rewrite <- Hs. by apply seg_bound.
  - lia.
  - destruct Htop as [|Htop]; [by left|right]. rewrite <- Hs.
    replace m with (S (m - 1)) at 2 by lia. rewrite seg_S by lia.
    pose proof (seg_bound (m - 1) (S (n - m)) l Hd). pose proof (R_pos (m - 1)). nia.
Qed.

(** The buffers of [divideWords] are large enough for these operands. *)
Definition division_fits (Nw : nat) (X Y : Z) : Prop :=
  byte_length X ≤ 4 ∧ byte_length Y ≤ 4 ∨ byte_length X < byte_length Y ∨
  byte_length X < 4 * Z.of_nat Nw ∧ byte_length X - byte_length Y < 2 * Z.of_nat Nw.

#[global] Instance division_fits_dec Nw X Y : Decision (division_fits Nw X Y).
Proof. unfold division_fits. apply _. Defined.

Lemma length_bytes nw l : words nw l → length (convertToBytes l) = (nw * 4)%nat.
Proof. intros [<- _]. apply length_convertToBytes. Qed.

Section Divide.
Context (Nw : nat) (junk : Z) (n1 n2 : list Z).
Context (HNw : (1 ≤ Nw)%nat) (Hmax : 4 * Z.of_nat Nw < 2 ^ 32) (Hjunk : uint 8 junk).
Context (H1 : words Nw n1) (H2 : words Nw n2) (Hnz : beval 32 n2 ≠ 0).

Local Abbreviation X := (beval 32 n1).
Local Abbreviation Y := (beval 32 n2).
Local Abbreviation x := (convertToBytes n1 ++ [junk]).
Local Abbreviation y := (convertToBytes n2).
Local Abbreviation xlen := (skipLeadingZeroBytes x (Nw * 4)).
Local Abbreviation ylen := (skipLeadingZeroBytes y (Nw * 4)).

Lemma digits_x : digits 8 x.
Proof using All. apply Forall_app_2; [apply digits_convertToBytes|by apply Forall_singleton]. Qed.

Lemma seg_x : seg (Nw * 4) 0 x = X.
Proof using All.
  rewrite seg_app_l by (rewrite (length_bytes Nw) by done; lia).
  rewrite <- (length_bytes Nw n1) by done. rewrite seg_all. apply convertToBytes_val, H1.
Qed.

Lemma seg_y : seg (Nw * 4) 0 y = Y.
Proof using All.
  rewrite <- (length_bytes Nw n2) by done. rewrite seg_all. apply convertToBytes_val, H2.
Qed.

Lemma xlen_spec : (1 ≤ xlen ≤ Nw * 4)%nat ∧ Z.of_nat xlen = byte_length X ∧
  seg xlen (Nw * 4 - xlen) x = X.
Proof using All.
  assert (1 ≤ Nw * 4 ≤ length x)%nat as Hl by (rewrite length_app, (length_bytes Nw) by done; lia).
  destruct (skip_spec x (Nw * 4) Hl digits_x) as (Hm & Hs & _).
  split; [done|]. split; [|by rewrite Hs, seg_x].
  rewrite <- seg_x. apply skip_byte_length; [done|apply digits_x].
Qed.

Lemma ylen_spec : (1 ≤ ylen ≤ Nw * 4)%nat ∧ Z.of_nat ylen = byte_length Y ∧
  seg ylen (Nw * 4 - ylen) y = Y ∧ 1 ≤ y !!! (Nw * 4 - ylen)%nat.
Proof using All.
  assert (1 ≤ Nw * 4 ≤ length y)%nat as Hl by (rewrite (length_bytes Nw) by done; lia).
  pose proof (digits_convertToBytes n2) as Hd.
  destruct (skip_spec y (Nw * 4) Hl Hd) as (Hm & Hs & Htop).
  split; [done|]. split; [|split; [by rewrite Hs, seg_y|]].
  - rewrite <- seg_y. by apply skip_byte_length.
  - destruct Htop as [Hone|]; [|done]. rewrite Hone in *. rewrite seg_y in Hs.
    rewrite seg_S, seg_0, Z.mul_1_r, Z.add_0_r in Hs by lia.
    pose proof (digits_lookup 8 ltac:(lia) y (Nw * 4 - 1) Hd) as [? _]. lia.
Qed.

(** Values below [2^32] sit in the last word. *)
Lemma last_word l : words Nw l → byte_length (beval 32 l) ≤ 4 → l !!! (Nw - 1)%nat = beval 32 l.
Proof using All.
  intros [Hl Hd] Hb. rewrite (lookup_beval 32) by (done || lia). rewrite Hl.
  replace (32 * (Z.of_nat Nw - 1 - Z.of_nat (Nw - 1))) with 0 by lia. rewrite Z.div_1_r.
  pose proof (beval_bound 32 ltac:(lia) l Hd) as [H0 _]. apply wrap_small. split; [done|].
  destruct (Z.eq_dec (beval 32 l) 0) as [->|]; [done|]. apply Z.log2_lt_pow2; [lia|].
  unfold byte_length in Hb. zlia.
Qed.

Lemma divide_small : byte_length X < byte_length Y → X / Y = 0.
Proof using All.
  intros Hlt. pose proof (words_bound _ _ H1) as [HX _]. pose proof (words_bound _ _ H2) as [HY _].
  apply Z.div_small. split; [done|]. destruct (Z.eq_dec X 0) as [->|]; [lia|].
  apply Z.log2_lt_cancel. unfold byte_length in Hlt. zlia.
Qed.

Lemma doDivide_spec : (ylen ≤ xlen)%nat → (xlen < Nw * 4)%nat → (xlen - ylen < Nw * 2)%nat →
  ∃ q', doDivide x (Nw * 4 - xlen) xlen (drop (Nw * 4 - ylen) y ++ [0]) ylen (replicate (Nw * 2) 0) =
    Ret q' ∧ length q' = (Nw * 2)%nat ∧ digits 8 q' ∧ seg (xlen - ylen + 1) 0 q' = X / Y.
Proof using All.
  intros Hle Hxo Hq. destruct xlen_spec as (Hx1 & _ & Hsx). destruct ylen_spec as (Hy1 & _ & Hsy & Htop).
  set (xl := xlen) in *. set (yl := ylen) in *.
  set (yb := drop (Nw * 4 - yl) y ++ [0]).
  assert (length (drop (Nw * 4 - yl) y) = yl) as Hld by (rewrite length_drop, (length_bytes Nw) by done; lia).
  assert (yb !!! 0%nat = y !!! (Nw * 4 - yl)%nat) as Hy0.
  { unfold yb. rewrite !list_lookup_total_alt, lookup_app_l, lookup_drop by lia.
    by rewrite Nat.add_0_r. }
  assert (digits 8 yb) as Hdy.
  { apply Forall_app_2; [apply digits_drop, digits_convertToBytes|].
    apply Forall_singleton. unfold uint. lia. }
  set (xb := drop (Nw * 4 - xl) (<[(Nw * 4 - xl - 1)%nat := 0]> x)).
  assert (length xb = (xl + 1)%nat) as Hlx.
  { unfold xb. rewrite length_drop, length_insert, length_app, (length_bytes Nw) by done. simpl. lia. }
  assert (digits 8 xb) as Hdx.
  { apply digits_drop, digits_insert; [apply digits_x|unfold uint; lia]. }
  destruct (div_loop_spec xb yb (replicate (Nw * 2) 0) xl yl) as (xb' & fb & q' & E & Hlq & Hdq & Hv);
    try done; try lia.
  - unfold yb. rewrite length_app, Hld. done.
  - unfold yb. rewrite list_lookup_total_alt, lookup_app_r, Hld, Nat.sub_diag by lia. done.
  - apply Forall_replicate. unfold uint. lia.
  - rewrite length_replicate. lia.
  - exists q'. unfold doDivide. destruct (Nat.leb_spec yl xl); [|lia].
    destruct (Nat.eqb_spec (Nw * 4 - xl) 0); [lia|]. cbn [orb].
    destruct (Z.eqb_spec (top_bytes yb) 0) as [Hz|_].
    { exfalso. unfold top_bytes, ByteBits in Hz. rewrite Z.shiftl_mul_pow2 in Hz by lia.
      pose proof (digits_lookup 8 ltac:(lia) yb 1 Hdy) as [? _]. lia. }
    fold xb. rewrite E. cbn [obind snd]. rewrite length_replicate in Hlq.
    split_and!; [done..|]. rewrite Hv. f_equal.
    + unfold xb. rewrite seg_drop, <- Hsx. apply seg_ext; intros;
        rewrite ?length_insert, ?length_app, ?(length_bytes Nw) by done; simpl; try lia.
      apply list_lookup_total_insert_ne. lia.
    + unfold yb. rewrite seg_app_l, seg_drop by lia. done.
Qed.

Lemma native_result res v : words Nw res → (∀ i, (i < Nw - 1)%nat → res !!! i = 0) → uint 32 v →
  words Nw (<[(Nw - 1)%nat := v]> res) ∧ beval 32 (<[(Nw - 1)%nat := v]> res) = v.
Proof using All.
  intros [Hl Hd] Hz Hv. split; [split; [by rewrite length_insert|by apply digits_insert]|].
  rewrite (beval_last 32 ltac:(lia)), length_insert, Hl.
  - rewrite list_lookup_total_insert_eq by lia. done.
  - intros E. apply (f_equal length) in E. rewrite length_insert in E. simpl in E. lia.
  - intros i Hi. rewrite length_insert in Hi. rewrite list_lookup_total_insert_ne by lia.
    apply Hz. lia.
Qed.

Lemma divideWords_spec res : words Nw res →
  (byte_length X ≤ 4 ∨ byte_length X < byte_length Y → ∀ i, (i < Nw - 1)%nat → res !!! i = 0) →
  (byte_length X < byte_length Y → res !!! (Nw - 1)%nat = 0) → division_fits Nw X Y →
  ∃ r, divideWords Nw junk res n1 n2 = Ret r ∧ words Nw r ∧ beval 32 r = X / Y.
Proof using All.
  intros Hres Hz Hlow Hfit. unfold divideWords, WordBytes.
  destruct xlen_spec as (Hx1 & Ex & _). destruct ylen_spec as (Hy1 & Ey & _ & _).
  pose proof (words_bound _ _ H1) as [HX _]. pose proof (words_bound _ _ H2) as [HY _].
  destruct (Nat.leb_spec xlen 4) as [Hx4|Hx4], (Nat.leb_spec ylen 4) as [Hy4|Hy4];
    cbn [andb].
  { rewrite !last_word by (done || lia). destruct (Z.eqb_spec Y 0); [done|].
    eexists. split; [done|]. apply native_result; [done|by apply Hz; lia|].
    assert (X < 2 ^ 32) as HX32 by (rewrite <- (last_word n1) by (done || lia);
      apply (digits_lookup 32 ltac:(lia) n1 (Nw - 1)), H1).
    split; [apply Z.div_pos; lia|]. apply Z.div_lt_upper_bound; [lia|nia]. }
  all: destruct (Nat.ltb_spec xlen ylen) as [Hlt|Hge].
  all: try (exists res; split; [done|split; [done|]]; rewrite divide_small by lia;
    rewrite (beval_last 32 ltac:(lia)); [rewrite (proj1 Hres); apply Hlow; lia
                        |intros ->; destruct Hres as [E _]; simpl in E; lia
                        |rewrite (proj1 Hres); apply Hz; lia]).
  all: unfold division_fits in Hfit.
  all: destruct doDivide_spec as (q' & -> & Hlq & Hdq & Hv); [lia..|].
  all: cbn [obind]; destruct (convertFromBytes_spec q' Nw Hdq Hmax (xlen - ylen)) as (r & -> & Hr & Ev);
    [lia..|]; exists r; by rewrite Ev, Hv.
Qed.

(** The digit loop reaches the end of [q]. *)
Lemma div_loop_overflow yb yl n k xb fb q : (k ≤ length q < k + n)%nat →
  for_up n k (div_iter yb yl) (Ret (xb, fb, q)) = Undefined.
Proof using All.
  revert k xb fb q. induction n as [|n IH]; intros k xb fb q Hk; [lia|].
  cbn [for_up]. unfold div_iter at 2, obind.
  destruct (div_digit yb yl k xb fb) as [[xb' qk] fb'].
  destruct (Nat.ltb_spec k (length q)).
  - apply IH. rewrite length_insert. lia.
  - clear. generalize (S k). induction n as [|n IH]; intros m; [done|]. apply IH.
Qed.

Lemma divideWords_overflow res : ~ division_fits Nw X Y →
  divideWords Nw junk res n1 n2 = Undefined.
Proof using All.
  intros Hfit. unfold divideWords, WordBytes, division_fits in *.
  destruct xlen_spec as (Hx1 & Ex & _). destruct ylen_spec as (Hy1 & Ey & _ & _).
  destruct (Nat.leb_spec xlen 4) as [Hx4|Hx4], (Nat.leb_spec ylen 4) as [Hy4|Hy4]; [lia|..];
    cbn [andb]; (destruct (Nat.ltb_spec xlen ylen) as [Hlt|Hge]; [lia|]); unfold doDivide;
    (destruct (Nat.leb_spec ylen xlen); [|lia]);
    (destruct (Nat.eqb_spec (Nw * 4 - xlen) 0); [done|]);
    (destruct (top_bytes _ =? 0); [done|]); cbn [orb];
    rewrite div_loop_overflow; (done || rewrite length_replicate; lia).
Qed.
End Divide.

(** C11: on the operands its buffers are large enough for, [divideWords] returns
    the quotient (into a zeroed result array), whatever the uninitialised byte
    past the dividend holds; on all other operands it writes outside of its
    buffers. *)
Theorem divideWords_correct Nw junk n1 n2 :
  (1 ≤ Nw)%nat → 4 * Z.of_nat Nw < 2 ^ 32 → uint 8 junk → words Nw n1 → words Nw n2 →
  beval 32 n2 ≠ 0 →
  (division_fits Nw (beval 32 n1) (beval 32 n2) →
     ∃ r, divideWords Nw junk (replicate Nw 0) n1 n2 = Ret r ∧ words Nw r ∧
          beval 32 r = beval 32 n1 / beval 32 n2) ∧
  (~ division_fits Nw (beval 32 n1) (beval 32 n2) →
     divideWords Nw junk (replicate Nw 0) n1 n2 = Undefined).
Proof.
  intros HNw Hmax Hj H1 H2 Hnz. split; intros Hfit; [|by apply divideWords_overflow].
  apply divideWords_spec; try done.
  - split; [apply length_replicate|]. apply Forall_replicate. unfold uint. lia.
  - intros _ i Hi. apply lookup_total_replicate_2. lia.
  - intros _. apply lookup_total_replicate_2. lia.
Qed.

Lemma divideWords_correct_witness : ∃ r,
  divideWords 3 0xaa [0; 0; 0] [0x123456; 7; 8] [0; 0x500; 6] = Ret r ∧ words 3 r ∧
  beval 32 r = beval 32 [0x123456; 7; 8] / beval 32 [0; 0x500; 6].
Proof.
  exact (proj1 (divideWords_correct 3 0xaa [0x123456; 7; 8] [0; 0x500; 6] ltac:(lia) ltac:(lia)
    ltac:(split; lia) ltac:(split; [done|repeat constructor; done])
    ltac:(split; [done|repeat constructor; done]) ltac:(vm_compute; lia))
    ltac:(apply (bool_decide_unpack _); vm_compute; exact I)).
Defined.
