(* ===== verification/IntbvBase.v ===== *)
(** * Storage of bit vectors ([src/helpers/intbv_base.h])

    [intbv_base<_Nw>] has three implementations: one [uint32_t], one [uint64_t],
    and an array of [_Nw >= 3] words, most significant first.  The class
    [BaseOps] lists the members that [intbv] calls; [base1], [base2] and [baseN]
    are the template specialisations.  [BaseLaws] states what a specialisation
    promises: every member computes the stated function of the numbers that the
    storage represents, modulo [2^(32 _Nw)].  The theorems on [intbv] use only
    these laws.

    Signed products and the negation of the most negative number overflow a C++
    [int]; they are computed with wrap-around, as the compiled code does. *)
From stdpp Require Import prelude strings.
From Stdlib Require Import ZArith Lia.
From S2P Require Import Prelude.
From S2P Require Import BitTwiddles.
From S2P Require Import WordArith.
From S2P Require Import WordDivide.

Local Open Scope Z_scope.

Class BaseOps (B : Type) := {
  _reset : B;
  _set : B;
  of_u32 : Z → B;
  of_u64 : Z → B;
  of_i32 : Z → B;
  of_i64 : Z → B;
  _getword : B → nat → Z;
  _construct_from_smaller_sized : nat → (nat → Z) → B;
  _construct_from_larger_sized : nat → (nat → Z) → B;
  _getword_at : B → Z → Z → Z;
  _setword_at : B → Z → Z → Z → B;
  _maskwordbit : Z → Z → Z;
  _subtract : B → B → B;
  _add : B → B → B;
  _multiply : B → B → B;
  _multiplySigned : B → B → B;
  _multiplySigned_u32 : B → Z → B;
  _divide : B → B → outcome B;
  _divideSigned : B → B → outcome B;
  _and : B → B → B;
  _or : B → B → B;
  _xor : B → B → B;
  _left_shift : Z → B → B;
  _right_shift : Z → B → B;
  _left_rotate : Z → Z → B → B → B;
  _right_rotate : Z → Z → B → B → B;
  _swap_bytes : B → B;
  _swap_words : Z → B → B;
  _invert : B → B;
  _negate : B → B;
  _getField : Z → Z → Z → B → B → outcome B;
  _setField : Z → Z → Z → B → B → outcome B;
  _is_equal : B → B → bool;
  _less_than : B → B → bool;
  _less_than_equal : B → B → bool;
  _greater_than : B → B → bool;
  _greater_than_equal : B → B → bool;
  _signed_less_than : B → B → Z → bool;
  _signed_less_than_equal : B → B → Z → bool;
  _signed_greater_than : B → B → Z → bool;
  _signed_greater_than_equal : B → B → Z → bool;
  _msb : Z → B → bool;
  _is_any : B → bool;
  _count_ones : B → Z;
  _count_leading_zeros : Z → B → Z;
  _to_ulong : B → Z;
  _to_ulonglong : B → Z;
  _sanitize : Z → B → B
}.

(** [sanitize<_Extrabits>::_do_sanitize] on a word, and on the 64-bit storage;
    the specialisation for 0 does nothing. *)
Definition do_sanitize32 (extrabits val : Z) : Z :=
  if extrabits =? 0 then val
  else Z.land val (unot 32 (shl 32 (unot 32 0) extrabits)).
Definition do_sanitize64 (extrabits val : Z) : Z :=
  if extrabits =? 0 then val
  else Z.land val (unot 64 (shl 64 (unot 64 0) (32 + extrabits))).

(** ** One word: [intbv_base<1>] *)

Definition b1_from_smaller (_ : nat) (getword : nat → Z) : Z := getword 0%nat.
Definition b1_from_larger (nw1 : nat) (getword : nat → Z) : Z := getword (nw1 - 1)%nat.
Definition b1_whichbit (nb pos : Z) : Z := (nb - 1 - pos) mod 32.
Definition b1_maskbit (nb pos : Z) : Z := shl 32 1 (b1_whichbit nb pos).
Definition b1_multiply (w x : Z) : Z := wrap 32 (w * x).
Definition b1_multiplySigned_u32 (w x : Z) : Z := wrap 32 (sint 32 w * x).
Definition b1_multiplySigned (w x : Z) : Z := wrap 32 (sint 32 w * sint 32 x).
(** A zero divisor leaves the value unchanged; the most negative number divided
    by -1 traps. *)
Definition b1_divideSigned (w x : Z) : outcome Z :=
  if x =? 0 then Ret w
  else if (sint 32 w =? - 2 ^ 31) && (sint 32 x =? -1) then Undefined
  else Ret (wrap 32 (Z.quot (sint 32 w) (sint 32 x))).
Definition b1_divide (w x : Z) : outcome Z :=
  if x =? 0 then Throw "ERROR3: attempt to divide by zero." else Ret (w / x).
Definition b1_subtract (w x : Z) : Z := wrap 32 (w - x).
Definition b1_add (w x : Z) : Z := wrap 32 (w + x).
Definition b1_left_rotate (shift nb w res : Z) : Z :=
  let mask := shl 32 (2 ^ 32 - 1) (nb - shift) in
  let tmp := Z.land w mask in
  Z.lor (shl 32 res shift) (shr 32 tmp (nb - shift)).
Definition b1_right_rotate (shift nb w res : Z) : Z :=
  let mask := shr 32 (2 ^ 32 - 1) (nb - shift) in
  let tmp := Z.land w mask in
  Z.lor (shr 32 res shift) (shl 32 tmp (nb - shift)).
Definition b1_negate (w : Z) : Z := wrap 32 (unot 32 w + 1).
Definition b1_getField (nb start stop w res : Z) : outcome Z :=
  assert! start <=? stop in
  Ret (shr 32 (shl 32 w (32 - nb + start)) ((32 - nb + start) + (nb - 1 - stop))).
Definition b1_setField (nb start stop w x : Z) : outcome Z :=
  assert! start <=? stop in
  let m := shl 32 0xffffffff (32 - nb + start) in
  let m := shr 32 m ((32 - nb + start) + (nb - 1 - stop)) in
  let m := shl 32 m (nb - 1 - stop) in
  Ret (Z.lor (Z.land w (unot 32 m)) (Z.land (shl 32 x (nb - 1 - stop)) m)).
Definition b1_msb (nb w : Z) : bool := negb (Z.land w (b1_maskbit nb 0) =? 0).
Definition b1_signed_less_than (w x nb : Z) : bool :=
  if b1_msb nb w && negb (b1_msb nb x) then true
  else if negb (b1_msb nb w) && b1_msb nb x then false
  else w <? x.
Definition b1_signed_greater_than (w x nb : Z) : bool :=
  if b1_msb nb w && negb (b1_msb nb x) then false
  else if negb (b1_msb nb w) && b1_msb nb x then true
  else x <? w.
Definition b1_count_leading_zeros (nb w : Z) : Z :=
  (if w =? 0 then 32 else count_leading_zeros_u32 w) - (32 - nb).
Definition b1_sanitize (nb w : Z) : Z := do_sanitize32 (nb mod 32) w.

Definition base1 : BaseOps Z := {|
  _reset := 0;
  _set := unot 32 0;
  of_u32 := λ v, v;
  of_u64 := λ v, wrap 32 v;
  of_i32 := λ v, wrap 32 v;
  of_i64 := λ v, wrap 32 v;
  _getword := λ w _, w;
  _construct_from_smaller_sized := b1_from_smaller;
  _construct_from_larger_sized := b1_from_larger;
  _getword_at := λ w _ _, w;
  _setword_at := λ _ _ _ v, v;
  _maskwordbit := b1_maskbit;
  _subtract := b1_subtract;
  _add := b1_add;
  _multiply := b1_multiply;
  _multiplySigned := b1_multiplySigned;
  _multiplySigned_u32 := b1_multiplySigned_u32;
  _divide := b1_divide;
  _divideSigned := b1_divideSigned;
  _and := Z.land;
  _or := Z.lor;
  _xor := Z.lxor;
  _left_shift := λ n w, shl 32 w n;
  _right_shift := λ n w, shr 32 w n;
  _left_rotate := b1_left_rotate;
  _right_rotate := b1_right_rotate;
  _swap_bytes := swap_uint32;
  _swap_words := λ _ w, w;
  _invert := unot 32;
  _negate := b1_negate;
  _getField := b1_getField;
  _setField := b1_setField;
  _is_equal := Z.eqb;
  _less_than := Z.ltb;
  _less_than_equal := Z.leb;
  _greater_than := Z.gtb;
  _greater_than_equal := Z.geb;
  _signed_less_than := b1_signed_less_than;
  _signed_less_than_equal := λ w x nb, b1_signed_less_than w x nb || (w =? x);
  _signed_greater_than := b1_signed_greater_than;
  _signed_greater_than_equal := λ w x nb, b1_signed_greater_than w x nb || (w =? x);
  _msb := b1_msb;
  _is_any := λ w, negb (w =? 0);
  _count_ones := count_ones_u32;
  _count_leading_zeros := b1_count_leading_zeros;
  _to_ulong := λ w, w;
  _to_ulonglong := λ w, w;
  _sanitize := b1_sanitize
|}.

(** ** Two words: [intbv_base<2>], a single 64-bit integer *)

Definition b2_from_smaller (nw1 : nat) (getword : nat → Z) : Z :=
  if (nw1 =? 1)%nat then getword 0%nat
  else Z.lor (shl 64 (getword 0%nat) 32) (getword 1%nat).
Definition b2_from_larger (nw1 : nat) (getword : nat → Z) : Z :=
  Z.lor (shl 64 (getword (nw1 - 2)%nat) 32) (getword (nw1 - 1)%nat).
Definition b2_whichbit (nb pos : Z) : Z := (nb - 1 - pos) mod (32 * 2).
Definition b2_whichwordbit (nb pos : Z) : Z := (nb - 1 - pos) mod 32.
Definition b2_maskbit (nb pos : Z) : Z := shl 64 1 (b2_whichbit nb pos).
Definition b2_maskwordbit (nb pos : Z) : Z := shl 32 1 (b2_whichwordbit nb pos).
Definition b2_getword (w : Z) (i : nat) : Z := if (i =? 0)%nat then wrap 32 (shr 64 w 32) else wrap 32 w.
Definition b2_getword_at (w nb pos : Z) : Z :=
  if pos <? nb - 32 then wrap 32 (shr 64 w 32) else wrap 32 w.
Definition b2_setword_at (w nb pos v : Z) : Z :=
  let '(t, m) :=
    if pos <? nb - 32 then (shl 64 v 32, shr 64 (2 ^ 64 - 1) 32)
    else (v, shl 64 (2 ^ 64 - 1) 32) in
  Z.lor (Z.land w m) t.
Definition b2_multiply (w x : Z) : Z := wrap 64 (w * x).
Definition b2_multiplySigned_u32 (w x : Z) : Z := wrap 64 (sint 64 w * x).
Definition b2_multiplySigned (w x : Z) : Z := wrap 64 (sint 64 w * sint 64 x).
Definition b2_divideSigned (w x : Z) : outcome Z :=
  if x =? 0 then Throw "ERROR6: attempt to divide by zero."
  else if (sint 64 w =? - 2 ^ 63) && (sint 64 x =? -1) then Undefined
  else Ret (wrap 64 (Z.quot (sint 64 w) (sint 64 x))).
Definition b2_divide (w x : Z) : outcome Z :=
  if x =? 0 then Throw "ERROR7: attempt to divide by zero." else Ret (w / x).
Definition b2_subtract (w x : Z) : Z := wrap 64 (w - x).
Definition b2_add (w x : Z) : Z := wrap 64 (w + x).
Definition b2_left_rotate (shift nb w res : Z) : Z :=
  let mask := shl 64 (2 ^ 64 - 1) (nb - shift) in
  let tmp := Z.land w mask in
  Z.lor (shl 64 res shift) (shr 64 tmp (nb - shift)).
Definition b2_right_rotate (shift nb w res : Z) : Z :=
  let mask := shr 64 (2 ^ 64 - 1) (nb - shift) in
  let tmp := Z.land w mask in
  Z.lor (shr 64 res shift) (shl 64 tmp (nb - shift)).
Definition b2_swap_words (adjust w : Z) : Z := Z.lor (shr 64 (shl 64 w adjust) 32) (shl 64 w 32).
Definition b2_negate (w : Z) : Z := wrap 64 (unot 64 w + 1).
Definition b2_getField (nb start stop w res : Z) : outcome Z :=
  let start := start mod nb in
  let stop := stop mod nb in
  assert! start <=? stop in
  Ret (shr 64 (shl 64 w (32 * 2 - nb + start)) ((32 * 2 - nb + start) + (nb - 1 - stop))).
Definition b2_setField (nb start stop w x : Z) : outcome Z :=
  let start := start mod nb in
  let stop := stop mod nb in
  assert! start <=? stop in
  let m := shl 64 (2 ^ 64 - 1) (32 * 2 - nb + start) in
  let m := shr 64 m ((32 * 2 - nb + start) + (nb - 1 - stop)) in
  let m := shl 64 m (nb - 1 - stop) in
  Ret (Z.lor (Z.land w (unot 64 m)) (Z.land (shl 64 x (nb - 1 - stop)) m)).
Definition b2_msb (nb w : Z) : bool := negb (Z.land w (b2_maskbit nb 0) =? 0).
Definition b2_signed_less_than (w x nb : Z) : bool :=
  if b2_msb nb w && negb (b2_msb nb x) then true
  else if negb (b2_msb nb w) && b2_msb nb x then false
  else w <? x.
Definition b2_signed_greater_than (w x nb : Z) : bool :=
  if b2_msb nb w && negb (b2_msb nb x) then false
  else if negb (b2_msb nb w) && b2_msb nb x then true
  else x <? w.
Definition b2_count_leading_zeros (nb w : Z) : Z :=
  (if w =? 0 then 64 else count_leading_zeros_u64 w) - (64 - nb).
Definition b2_sanitize (nb w : Z) : Z := do_sanitize64 (nb mod 32) w.

Definition base2 : BaseOps Z := {|
  _reset := 0;
  _set := unot 64 0;
  of_u32 := λ v, v;
  of_u64 := λ v, v;
  of_i32 := λ v, wrap 64 v;
  of_i64 := λ v, wrap 64 v;
  _getword := b2_getword;
  _construct_from_smaller_sized := b2_from_smaller;
  _construct_from_larger_sized := b2_from_larger;
  _getword_at := b2_getword_at;
  _setword_at := b2_setword_at;
  _maskwordbit := b2_maskwordbit;
  _subtract := b2_subtract;
  _add := b2_add;
  _multiply := b2_multiply;
  _multiplySigned := b2_multiplySigned;
  _multiplySigned_u32 := b2_multiplySigned_u32;
  _divide := b2_divide;
  _divideSigned := b2_divideSigned;
  _and := Z.land;
  _or := Z.lor;
  _xor := Z.lxor;
  _left_shift := λ n w, shl 64 w n;
  _right_shift := λ n w, shr 64 w n;
  _left_rotate := b2_left_rotate;
  _right_rotate := b2_right_rotate;
  _swap_bytes := swap_uint64;
  _swap_words := b2_swap_words;
  _invert := unot 64;
  _negate := b2_negate;
  _getField := b2_getField;
  _setField := b2_setField;
  _is_equal := Z.eqb;
  _less_than := Z.ltb;
  _less_than_equal := Z.leb;
  _greater_than := Z.gtb;
  _greater_than_equal := Z.geb;
  _signed_less_than := b2_signed_less_than;
  _signed_less_than_equal := λ w x nb, b2_signed_less_than w x nb || (w =? x);
  _signed_greater_than := b2_signed_greater_than;
  _signed_greater_than_equal := λ w x nb, b2_signed_greater_than w x nb || (w =? x);
  _msb := b2_msb;
  _is_any := λ w, negb (w =? 0);
  _count_ones := count_ones_u64;
  _count_leading_zeros := b2_count_leading_zeros;
  _to_ulong := λ w, w;
  _to_ulonglong := λ w, w;
  _sanitize := b2_sanitize
|}.

(** ** Three or more words: the primary template [intbv_base<_Nw>]

    The storage is the array [_w], most significant word first.  The shift
    loops run over the array in place and, like the source, are meant for counts
    below [32 * _Nw]: the callers in [intbv] test the count first. *)
Section WordArray.
Context (nw : nat) (junk : Z).

Definition bN_reset : list Z := replicate nw 0.
Definition bN_set : list Z := for_down nw (λ i w, <[i := unot 32 0]> w) bN_reset.
Definition bN_of_u32 (val : Z) : list Z := <[(nw - 1)%nat := val]> bN_reset.
Definition bN_of_u64 (val : Z) : list Z :=
  <[(nw - 2)%nat := wrap 32 (shr 64 val 32)]> (<[(nw - 1)%nat := wrap 32 val]> bN_reset).
Definition bN_of_i32 (val : Z) : list Z := <[(nw - 1)%nat := wrap 32 val]> bN_reset.
Definition bN_of_i64 (val : Z) : list Z :=
  <[(nw - 2)%nat := wrap 32 (Z.shiftr val 32)]> (<[(nw - 1)%nat := wrap 32 val]> bN_reset).

Definition bN_from_smaller (nw1 : nat) (getword : nat → Z) : list Z :=
  let diff := (nw - nw1)%nat in
  let w := for_up diff 0 (λ i w, <[i := 0]> w) bN_reset in
  for_down nw1 (λ i w, <[(i + diff)%nat := getword i]> w) w.
Definition bN_from_larger (nw1 : nat) (getword : nat → Z) : list Z :=
  let diff := (nw1 - nw)%nat in
  for_down nw (λ i w, <[i := getword (i + diff)%nat]> w) bN_reset.

Definition bN_whichbit (nb pos : Z) : Z := (nb - 1 - pos) mod 32.
Definition bN_maskbit (nb pos : Z) : Z := shl 32 1 (bN_whichbit nb pos).
Definition bN_maskwordbit (nb pos : Z) : Z := bN_maskbit nb pos.
Definition bN_whichword (nb pos : Z) : nat :=
  let leading_bits := nb mod 32 in
  if negb (leading_bits =? 0) && (pos <=? leading_bits - 1) then 0%nat
  else if negb (leading_bits =? 0) then Z.to_nat ((pos - leading_bits) / 32 + 1)
  else Z.to_nat (pos / 32).
Definition bN_getword_at (w : list Z) (nb pos : Z) : Z := w !!! bN_whichword nb pos.
Definition bN_setword_at (w : list Z) (nb pos v : Z) : list Z := <[bN_whichword nb pos := v]> w.

Definition bN_subtract (w x : list Z) : list Z := subtractWords nw w Result (Array x).
Definition bN_add (w x : list Z) : list Z := addWords nw w Result (Array x).

Definition bN_and (w x : list Z) : list Z :=
  for_down nw (λ i w, <[i := Z.land (w !!! i) (x !!! i)]> w) w.
Definition bN_or (w x : list Z) : list Z :=
  for_down nw (λ i w, <[i := Z.lor (w !!! i) (x !!! i)]> w) w.
Definition bN_xor (w x : list Z) : list Z :=
  for_down nw (λ i w, <[i := Z.lxor (w !!! i) (x !!! i)]> w) w.
Definition bN_invert (w : list Z) : list Z :=
  for_down nw (λ i w, <[i := unot 32 (w !!! i)]> w) w.
Definition bN_negate (w : list Z) : list Z := bN_add (bN_invert w) (bN_of_i32 1).

(** [for (i = _Nw-1; i >= 0; i--) if (_w[i] != x._w[i]) return false;] *)
Fixpoint bN_equal_from (n : nat) (w x : list Z) : bool :=
  match n with
  | O => true
  | S i => if negb (w !!! i =? x !!! i) then false else bN_equal_from i w x
  end.
Definition bN_is_equal (w x : list Z) : bool := bN_equal_from nw w x.
Fixpoint bN_any_from (n : nat) (w : list Z) : bool :=
  match n with
  | O => false
  | S i => if negb (w !!! i =? 0) then true else bN_any_from i w
  end.
Definition bN_is_any (w : list Z) : bool := bN_any_from nw w.

(** The four comparisons scan from the most significant word and count the
    equal words; [n] words remain. *)
Fixpoint bN_less_loop (n i : nat) (w x : list Z) : bool :=
  match n with
  | O => false
  | S k => if w !!! i <? x !!! i then true
           else if x !!! i <? w !!! i then false
           else bN_less_loop k (S i) w x
  end.
Fixpoint bN_less_equal_loop (n i : nat) (eq : Z) (w x : list Z) : bool :=
  match n with
  | O => eq =? Z.of_nat nw
  | S k => if w !!! i <? x !!! i then true
           else if x !!! i <? w !!! i then false
           else bN_less_equal_loop k (S i) (if w !!! i =? x !!! i then eq + 1 else eq) w x
  end.
Fixpoint bN_greater_loop (n i : nat) (w x : list Z) : bool :=
  match n with
  | O => false
  | S k => if x !!! i <? w !!! i then true
           else if w !!! i <? x !!! i then false
           else bN_greater_loop k (S i) w x
  end.
Fixpoint bN_greater_equal_loop (n i : nat) (eq : Z) (w x : list Z) : bool :=
  match n with
  | O => eq =? Z.of_nat nw
  | S k => if x !!! i <? w !!! i then true
           else if w !!! i <? x !!! i then false
           else bN_greater_equal_loop k (S i) (if w !!! i =? x !!! i then eq + 1 else eq) w x
  end.
Definition bN_less_than (w x : list Z) : bool := bN_less_loop nw 0 w x.
Definition bN_less_than_equal (w x : list Z) : bool := bN_less_equal_loop nw 0 0 w x.
Definition bN_greater_than (w x : list Z) : bool := bN_greater_loop nw 0 w x.
Definition bN_greater_than_equal (w x : list Z) : bool := bN_greater_equal_loop nw 0 0 w x.

Definition bN_msb (nb : Z) (w : list Z) : bool :=
  negb (Z.land (w !!! 0%nat) (bN_maskwordbit nb 0) =? 0).
Definition bN_signed_less_than (w x : list Z) (nb : Z) : bool :=
  let sign1 := bN_msb nb w in
  let sign2 := bN_msb nb x in
  if sign1 && negb sign2 then true
  else if negb sign1 && sign2 then false
  else bN_less_than w x.
Definition bN_signed_greater_than (w x : list Z) (nb : Z) : bool :=
  let sign1 := bN_msb nb w in
  let sign2 := bN_msb nb x in
  if sign1 && negb sign2 then false
  else if negb sign1 && sign2 then true
  else bN_greater_than w x.
Definition bN_signed_less_than_equal (w x : list Z) (nb : Z) : bool :=
  bN_signed_less_than w x nb || bN_is_equal w x.
Definition bN_signed_greater_than_equal (w x : list Z) (nb : Z) : bool :=
  bN_signed_greater_than w x nb || bN_is_equal w x.

Definition bN_multiply (w x : list Z) : list Z :=
  let zero := bN_of_i32 0 in
  let one := bN_of_i32 1 in
  if bN_is_equal w zero || bN_is_equal x zero then zero
  else if bN_is_equal x one then w
  else if bN_is_equal w one then x
  else multiplyWords nw (bN_of_i32 0) (Array w) (Array x).
(** The sign tests of the signed products look at the whole top word; the two
    negations cancel, so the product is the same. *)
Definition bN_multiplySigned_u32 (w : list Z) (x : Z) : list Z :=
  let negative_y := negb (w !!! 0%nat =? 0) in
  let w := if negative_y then bN_negate w else w in
  let w := bN_multiply w (bN_of_u32 x) in
  if negative_y then bN_negate w else w.
Definition bN_multiplySigned (w x : list Z) : list Z :=
  let negative_y := negb (w !!! 0%nat =? 0) in
  let negative_x := negb (x !!! 0%nat =? 0) in
  let w := if negative_y then bN_negate w else w in
  let tmp_x := if negative_x then bN_negate x else x in
  let w := bN_multiply w tmp_x in
  if negb (eqb negative_x negative_y) then bN_negate w else w.
(** [divideInternal] calls [divideWords] on a zeroed result. *)
Definition bN_divide (w x : list Z) : outcome (list Z) :=
  let zero := bN_of_i32 0 in
  let one := bN_of_i32 1 in
  if bN_is_equal w zero then Ret zero
  else if bN_is_equal x zero then Throw "ERROR8: attempt to divide by zero."
  else if bN_is_equal x one then Ret w
  else divideWords nw junk bN_reset w x.
Definition bN_divideSigned (w x : list Z) : outcome (list Z) :=
  let msb := shl 32 1 (32 - 1) in
  let negative_y := negb (Z.land (w !!! 0%nat) msb =? 0) in
  let negative_x := negb (Z.land (x !!! 0%nat) msb =? 0) in
  let w := if negative_y then bN_negate w else w in
  let tmp_x := if negative_x then bN_negate x else x in
  let! w := bN_divide w tmp_x in
  Ret (if negb (eqb negative_x negative_y) then bN_negate w else w).

Definition bN_right_shift (shift : Z) (w : list Z) : list Z :=
  if shift =? 0 then w
  else
    let wshift := Z.to_nat (shift / 32) in
    let offset := shift mod 32 in
    let limit := (nw - wshift - 1)%nat in
    let w :=
      if offset =? 0 then
        for_down (limit + 1) (λ n w, <[(n + wshift)%nat := w !!! n]> w) w
      else
        let sub_offset := 32 - offset in
        let w := for_down limit (λ m w, let n := (m + 1)%nat in
          <[(n + wshift)%nat := Z.lor (shr 32 (w !!! n) offset)
                                      (shl 32 (w !!! (n - 1)%nat) sub_offset)]> w) w in
        <[(0 + wshift)%nat := shr 32 (w !!! 0%nat) offset]> w in
    for_up wshift 0 (λ i w, <[i := 0]> w) w.

Definition bN_left_shift (shift : Z) (w : list Z) : list Z :=
  if shift =? 0 then w
  else
    let wshift := Z.to_nat (shift / 32) in
    let offset := shift mod 32 in
    let limit := (nw - wshift - 1)%nat in
    let w :=
      if offset =? 0 then
        for_up (limit + 1) 0 (λ n w, <[n := w !!! (n + wshift)%nat]> w) w
      else
        let sub_offset := 32 - offset in
        let w := for_up limit 0 (λ n w,
          <[n := Z.lor (shl 32 (w !!! (n + wshift)%nat) offset)
                       (shr 32 (w !!! (n + wshift + 1)%nat) sub_offset)]> w) w in
        <[limit := shl 32 (w !!! (limit + wshift)%nat) offset]> w in
    for_up (nw - (limit + 1)) (limit + 1) (λ i w, <[i := 0]> w) w.

Definition bN_left_rotate (shift nb : Z) (w res : list Z) : list Z :=
  let mask := bN_left_shift (nb - shift) bN_set in
  let tmp := bN_and w mask in
  let res := bN_left_shift shift res in
  let tmp := bN_right_shift (nb - shift) tmp in
  bN_or res tmp.
Definition bN_right_rotate (shift nb : Z) (w res : list Z) : list Z :=
  let mask := bN_right_shift (nb - shift) bN_set in
  let tmp := bN_and w mask in
  let res := bN_right_shift shift res in
  let tmp := bN_left_shift (nb - shift) tmp in
  bN_or res tmp.

Definition bN_swap_bytes (w : list Z) : list Z :=
  for_up nw 0 (λ i res, <[i := swap_uint32 (w !!! (nw - i - 1)%nat)]> res) bN_reset.
Definition bN_swap_words (adjust : Z) (w : list Z) : list Z :=
  let res := for_up nw 0 (λ i res, <[i := w !!! (nw - i - 1)%nat]> res) bN_reset in
  <[(nw - 1)%nat := shl 32 (res !!! (nw - 1)%nat) adjust]> res.

Definition bN_getField (nb start stop : Z) (w res : list Z) : outcome (list Z) :=
  let start := start mod nb in
  let stop := stop mod nb in
  assert! start <=? stop in
  let res := bN_left_shift (Z.of_nat nw * 32 - nb + start) res in
  Ret (bN_right_shift ((Z.of_nat nw * 32 - nb + start) + (nb - 1 - stop)) res).
Definition bN_setField (nb start stop : Z) (w x : list Z) : outcome (list Z) :=
  let start := start mod nb in
  let stop := stop mod nb in
  assert! start <=? stop in
  let mask := bN_set in
  let mask := bN_left_shift (32 * Z.of_nat nw - nb + start) mask in
  let mask := bN_right_shift ((32 * Z.of_nat nw - nb + start) + (nb - 1 - stop)) mask in
  let mask := bN_left_shift (nb - 1 - stop) mask in
  let mask_inv := bN_invert mask in
  let w := bN_and w mask_inv in
  let x_copy := bN_left_shift (nb - 1 - stop) x in
  let x_copy := bN_and x_copy mask in
  Ret (bN_or w x_copy).

Definition bN_count_ones (w : list Z) : Z :=
  for_down nw (λ i result, result + count_ones_u32 (w !!! i)) 0.
Fixpoint bN_clz_loop (n i : nat) (result : Z) (w : list Z) : Z :=
  match n with
  | O => result
  | S k =>
      let result := result + count_leading_zeros_u32 (w !!! i) in
      if negb (w !!! i =? 0) then result else bN_clz_loop k (S i) result w
  end.
Definition bN_count_leading_zeros (nb : Z) (w : list Z) : Z :=
  bN_clz_loop nw 0 0 w - (Z.of_nat nw * 4 * 8 - nb).

Definition bN_to_ulong (w : list Z) : Z := w !!! (nw - 1)%nat.
Definition bN_to_ulonglong (w : list Z) : Z :=
  Z.lor (shl 64 (w !!! (nw - 2)%nat) 32) (w !!! (nw - 1)%nat).
Definition bN_sanitize (nb : Z) (w : list Z) : list Z :=
  <[0%nat := do_sanitize32 (nb mod 32) (w !!! 0%nat)]> w.
End WordArray.

Definition baseN (nw : nat) (junk : Z) : BaseOps (list Z) := {|
  _reset := bN_reset nw;
  _set := bN_set nw;
  of_u32 := bN_of_u32 nw;
  of_u64 := bN_of_u64 nw;
  of_i32 := bN_of_i32 nw;
  of_i64 := bN_of_i64 nw;
  _getword := λ w i, w !!! i;
  _construct_from_smaller_sized := bN_from_smaller nw;
  _construct_from_larger_sized := bN_from_larger nw;
  _getword_at := bN_getword_at;
  _setword_at := bN_setword_at;
  _maskwordbit := bN_maskwordbit;
  _subtract := bN_subtract nw;
  _add := bN_add nw;
  _multiply := bN_multiply nw;
  _multiplySigned := bN_multiplySigned nw;
  _multiplySigned_u32 := bN_multiplySigned_u32 nw;
  _divide := bN_divide nw junk;
  _divideSigned := bN_divideSigned nw junk;
  _and := bN_and nw;
  _or := bN_or nw;
  _xor := bN_xor nw;
  _left_shift := bN_left_shift nw;
  _right_shift := bN_right_shift nw;
  _left_rotate := bN_left_rotate nw;
  _right_rotate := bN_right_rotate nw;
  _swap_bytes := bN_swap_bytes nw;
  _swap_words := bN_swap_words nw;
  _invert := bN_invert nw;
  _negate := bN_negate nw;
  _getField := bN_getField nw;
  _setField := bN_setField nw;
  _is_equal := bN_is_equal nw;
  _less_than := bN_less_than nw;
  _less_than_equal := bN_less_than_equal nw;
  _greater_than := bN_greater_than nw;
  _greater_than_equal := bN_greater_than_equal nw;
  _signed_less_than := bN_signed_less_than nw;
  _signed_less_than_equal := bN_signed_less_than_equal nw;
  _signed_greater_than := bN_signed_greater_than nw;
  _signed_greater_than_equal := bN_signed_greater_than_equal nw;
  _msb := bN_msb;
  _is_any := bN_is_any nw;
  _count_ones := bN_count_ones nw;
  _count_leading_zeros := bN_count_leading_zeros nw;
  _to_ulong := bN_to_ulong nw;
  _to_ulonglong := bN_to_ulonglong nw;
  _sanitize := bN_sanitize
|}.
