(* ===== verification/IntbvLaws.v ===== *)
(** * What the storage classes promise to [intbv]

    [BaseLaws nw ops] says that the members [ops] work on representations of
    numbers below [2^(32 nw)] ([rep b x]: the storage [b] holds [x]) and gives,
    for every member that [intbv] calls, the number it computes.  The instances
    at the end show that the three specialisations of [intbv_base] keep the
    promise; the theorems on [intbv] are proved from the class alone. *)
From stdpp Require Import prelude strings.
From Stdlib Require Import ZArith Lia.
From S2P Require Import Prelude.
From S2P Require Import BitTwiddles.
From S2P Require Import WordArith.
From S2P Require Import WordDivide.
From S2P Require Import IntbvBase.

Local Open Scope Z_scope.

(** The storage width of [nw] words, and the vector widths stored in them. *)
Definition W (nw : nat) : Z := 32 * Z.of_nat nw.
Definition nb_words (nw : nat) (nb : Z) : Prop := (1 ≤ nw)%nat ∧ W nw - 32 < nb ≤ W nw.

(** Word [i], counted from the most significant of [nw]. *)
Definition word_of (nw : nat) (x : Z) (i : nat) : Z :=
  wrap 32 (x / 2 ^ (32 * (Z.of_nat nw - 1 - Z.of_nat i))).

(** Bits [start..stop] of an [nb]-bit number, bit 0 being the most significant. *)
Definition get_field (nb start stop x : Z) : Z :=
  wrap (stop - start + 1) (x / 2 ^ (nb - 1 - stop)).
Definition set_field (nb start stop x y : Z) : Z :=
  Z.lor (Z.ldiff x (Z.ones (stop - start + 1) * 2 ^ (nb - 1 - stop)))
        (wrap (stop - start + 1) y * 2 ^ (nb - 1 - stop)).

Definition leading_zeros (nb x : Z) : Z := if x =? 0 then nb else nb - 1 - Z.log2 x.

(** The operands on which the divider stays inside its buffers. *)
Definition div_dom (nw : nat) (x y : Z) : Prop :=
  (nw ≤ 2)%nat ∨ x = 0 ∨ y = 1 ∨ division_fits nw x y.

Class BaseLaws (nw : nat) {B : Type} (ops : BaseOps B) := {
  rep : B → Z → Prop;
  rep_uint b x : rep b x → uint (W nw) x;
  rep_fun b x x' : rep b x → rep b x' → x = x';
  rep_inj b b' x : rep b x → rep b' x → b = b';
  rep_nw : (1 ≤ nw)%nat;
  (* construction *)
  rep_reset : rep _reset 0;
  rep_set : rep _set (2 ^ W nw - 1);
  rep_u32 v : uint 32 v → rep (of_u32 v) v;
  rep_u64 v : uint 64 v → rep (of_u64 v) (wrap (W nw) v);
  rep_i32 v : - 2 ^ 31 ≤ v < 2 ^ 31 →
    rep (of_i32 v) (wrap 32 v) ∨ rep (of_i32 v) (wrap (W nw) v);
  rep_i64 v : - 2 ^ 63 ≤ v < 2 ^ 63 → rep (of_i64 v) (wrap (W nw) (wrap 64 v));
  rep_getword b x i : rep b x → (i < nw)%nat → _getword b i = word_of nw x i;
  rep_from_smaller nw1 f y : (1 ≤ nw1 ≤ nw)%nat → uint (W nw1) y →
    (∀ i, (i < nw1)%nat → f i = word_of nw1 y i) → rep (_construct_from_smaller_sized nw1 f) y;
  rep_from_larger nw1 f y : (nw ≤ nw1)%nat → uint (W nw1) y →
    (∀ i, (i < nw1)%nat → f i = word_of nw1 y i) →
    rep (_construct_from_larger_sized nw1 f) (wrap (W nw) y);
  (* single bits *)
  rep_maskwordbit nb pos : 0 ≤ pos < nb → _maskwordbit nb pos = 2 ^ ((nb - 1 - pos) mod 32);
  rep_getword_at b x nb pos : nb_words nw nb → rep b x → 0 ≤ pos < nb →
    _getword_at b nb pos = wrap 32 (x / 2 ^ (32 * ((nb - 1 - pos) / 32)));
  rep_setword_at b x nb pos v : nb_words nw nb → rep b x → 0 ≤ pos < nb → uint 32 v →
    rep (_setword_at b nb pos v)
        (x + (v - wrap 32 (x / 2 ^ (32 * ((nb - 1 - pos) / 32)))) * 2 ^ (32 * ((nb - 1 - pos) / 32)));
  (* arithmetic *)
  rep_add a b x y : rep a x → rep b y → rep (_add a b) (wrap (W nw) (x + y));
  rep_subtract a b x y : rep a x → rep b y → rep (_subtract a b) (wrap (W nw) (x - y));
  rep_negate a x : rep a x → rep (_negate a) (wrap (W nw) (- x));
  rep_multiply a b x y : rep a x → rep b y → rep (_multiply a b) (wrap (W nw) (x * y));
  rep_multiplySigned a b x y : rep a x → rep b y → rep (_multiplySigned a b) (wrap (W nw) (x * y));
  rep_multiplySigned_u32 a x y : rep a x → uint 32 y →
    rep (_multiplySigned_u32 a y) (wrap (W nw) (x * y));
  rep_divide a b x y : rep a x → rep b y → y ≠ 0 → div_dom nw x y →
    ∃ r, _divide a b = Ret r ∧ rep r (x / y);
  rep_divide_undefined a b x y : rep a x → rep b y → y ≠ 0 → ~ div_dom nw x y →
    _divide a b = Undefined;
  rep_divide_by_zero a b x : rep a x → rep b 0 → x ≠ 0 ∨ (nw ≤ 2)%nat → ∃ e, _divide a b = Throw e;
  rep_divide_zero a b : (3 ≤ nw)%nat → rep a 0 → rep b 0 → ∃ r, _divide a b = Ret r ∧ rep r 0;
  rep_divideSigned a b x y : rep a x → rep b y → y ≠ 0 →
    div_dom nw (Z.abs (sint (W nw) x)) (Z.abs (sint (W nw) y)) →
    sint (W nw) x ≠ - 2 ^ (W nw - 1) ∨ sint (W nw) y ≠ -1 →
    ∃ r, _divideSigned a b = Ret r ∧
         rep r (wrap (W nw) (Z.quot (sint (W nw) x) (sint (W nw) y)));
  (* bits *)
  rep_and a b x y : rep a x → rep b y → rep (_and a b) (Z.land x y);
  rep_or a b x y : rep a x → rep b y → rep (_or a b) (Z.lor x y);
  rep_xor a b x y : rep a x → rep b y → rep (_xor a b) (Z.lxor x y);
  rep_invert a x : rep a x → rep (_invert a) (2 ^ W nw - 1 - x);
  rep_left_shift a x n : rep a x → 0 ≤ n < W nw → rep (_left_shift n a) (wrap (W nw) (x * 2 ^ n));
  rep_right_shift a x n : rep a x → 0 ≤ n < W nw → rep (_right_shift n a) (x / 2 ^ n);
  rep_left_rotate a x n nb : rep a x → 0 < n < nb → nb ≤ W nw →
    rep (_left_rotate n nb a a) (Z.lor (wrap (W nw) (x * 2 ^ n)) (x / 2 ^ (nb - n)));
  rep_right_rotate a x n nb : rep a x → 0 < n < nb → nb ≤ W nw →
    rep (_right_rotate n nb a a) (Z.lor (x / 2 ^ n) (wrap (W nw) (x * 2 ^ (nb - n))));
  rep_swap_bytes a x : rep a x → rep (_swap_bytes a) (beval 8 (rdigits 8 (4 * nw) x));
  rep_swap_words a x adjust : rep a x → 0 ≤ adjust < 32 → uint (W nw - adjust) x →
    ∃ z, rep (_swap_words adjust a) z ∧
         (nw = 1%nat ∧ z = x ∨
          (2 ≤ nw)%nat ∧ z / 2 ^ adjust =
            beval 32 (rdigits 32 (nw - 1) x) * 2 ^ (32 - adjust) + x / 2 ^ (W nw - 32));
  rep_getField a x nb start stop : nb_words nw nb → rep a x → 0 ≤ start ≤ stop → stop < nb →
    ∃ r, _getField nb start stop a a = Ret r ∧ rep r (get_field nb start stop x);
  getField_assert a nb start stop : 0 ≤ stop < start → start < nb →
    _getField nb start stop a a = AssertFail;
  rep_setField a b x y nb start stop : nb_words nw nb → rep a x → rep b y →
    0 ≤ start ≤ stop → stop < nb →
    ∃ r, _setField nb start stop a b = Ret r ∧ rep r (set_field nb start stop x y);
  setField_assert a b nb start stop : 0 ≤ stop < start → start < nb →
    _setField nb start stop a b = AssertFail;
  (* queries *)
  rep_is_equal a b x y : rep a x → rep b y → _is_equal a b = (x =? y);
  rep_less_than a b x y : rep a x → rep b y → _less_than a b = (x <? y);
  rep_less_than_equal a b x y : rep a x → rep b y → _less_than_equal a b = (x <=? y);
  rep_greater_than a b x y : rep a x → rep b y → _greater_than a b = (y <? x);
  rep_greater_than_equal a b x y : rep a x → rep b y → _greater_than_equal a b = (y <=? x);
  rep_signed_less_than a b x y nb : nb_words nw nb → rep a x → rep b y → uint nb x → uint nb y →
    _signed_less_than a b nb = (sint nb x <? sint nb y);
  rep_signed_less_than_equal a b x y nb : nb_words nw nb → rep a x → rep b y → uint nb x → uint nb y →
    _signed_less_than_equal a b nb = (sint nb x <=? sint nb y);
  rep_signed_greater_than a b x y nb : nb_words nw nb → rep a x → rep b y → uint nb x → uint nb y →
    _signed_greater_than a b nb = (sint nb y <? sint nb x);
  rep_signed_greater_than_equal a b x y nb : nb_words nw nb → rep a x → rep b y → uint nb x → uint nb y →
    _signed_greater_than_equal a b nb = (sint nb y <=? sint nb x);
  rep_msb a x nb : nb_words nw nb → rep a x → _msb nb a = Z.testbit x (nb - 1);
  rep_is_any a x : rep a x → _is_any a = negb (x =? 0);
  rep_count_ones a x : rep a x → _count_ones a = builtin_popcount (32 * nw) x;
  rep_count_leading_zeros a x nb : nb_words nw nb → rep a x → uint nb x →
    _count_leading_zeros nb a = leading_zeros nb x;
  rep_to_ulong a x : rep a x → wrap 32 (_to_ulong a) = wrap 32 x;
  rep_to_ulonglong a x : rep a x → _to_ulonglong a = wrap 64 x;
  rep_sanitize a x nb : nb_words nw nb → rep a x → rep (_sanitize nb a) (wrap nb x)
}.

(** ** The mask-and-shift sequences, as arithmetic on [w]-bit numbers *)

Section FieldArith.
Context (w : Z) (Hw : 0 < w).

Lemma ones_pred : 2 ^ w - 1 = Z.ones w.
Proof using Hw. rewrite Z.ones_equiv. lia. Qed.

Lemma rotate_left_arith x k : uint w x → 0 ≤ k < w →
  Z.land x (wrap w ((2 ^ w - 1) * 2 ^ k)) / 2 ^ k = x / 2 ^ k.
Proof using Hw. intros Hx Hk. rewrite ones_pred. bitblast. Qed.

Lemma rotate_right_arith x k : uint w x → 0 ≤ k < w →
  wrap w (Z.land x ((2 ^ w - 1) / 2 ^ k) * 2 ^ k) = wrap w (x * 2 ^ k).
Proof using Hw. intros Hx Hk. rewrite ones_pred. bitblast. Qed.

Lemma get_field_arith x nb start stop : uint w x → 0 ≤ start ≤ stop → stop < nb → nb ≤ w →
  wrap w (x * 2 ^ (w - nb + start)) / 2 ^ ((w - nb + start) + (nb - 1 - stop)) =
    get_field nb start stop x.
Proof using Hw. intros Hx H1 H2 H3. unfold get_field. bitblast. Qed.

Lemma field_mask_arith nb start stop : 0 ≤ start ≤ stop → stop < nb → nb ≤ w →
  wrap w (wrap w ((2 ^ w - 1) * 2 ^ (w - nb + start)) / 2 ^ ((w - nb + start) + (nb - 1 - stop))
          * 2 ^ (nb - 1 - stop)) = Z.ones (stop - start + 1) * 2 ^ (nb - 1 - stop).
Proof using Hw. intros H1 H2 H3. rewrite ones_pred. bitblast. Qed.

Lemma set_field_arith x y nb start stop :
  uint w x → uint w y → 0 ≤ start ≤ stop → stop < nb → nb ≤ w →
  let m := Z.ones (stop - start + 1) * 2 ^ (nb - 1 - stop) in
  Z.lor (Z.land x (2 ^ w - 1 - m)) (Z.land (wrap w (y * 2 ^ (nb - 1 - stop))) m) =
    set_field nb start stop x y.
Proof using Hw.
  intros Hx Hy H1 H2 H3 m. unfold set_field.
  assert (uint w m) as Hm.
  { subst m. rewrite <- (field_mask_arith nb start stop) by lia. apply uint_wrap. lia. }
  rewrite <- unot_val by (done || lia). unfold unot. subst m. bitblast.
Qed.

Lemma set_field_uint x y nb start stop : uint w x → 0 ≤ start ≤ stop → stop < nb → nb ≤ w →
  uint w (set_field nb start stop x y).
Proof using Hw.
  intros Hx H1 H2 H3. unfold set_field.
  replace (Z.lor _ _) with (wrap w (Z.lor (Z.ldiff x (Z.ones (stop - start + 1) * 2 ^ (nb - 1 - stop)))
      (wrap (stop - start + 1) y * 2 ^ (nb - 1 - stop)))); [apply uint_wrap; lia|].
  bitblast.
Qed.
End FieldArith.

(** ** Signs *)

Lemma land_pow2_testbit x k : 0 ≤ k → negb (Z.land x (2 ^ k) =? 0) = Z.testbit x k.
Proof.
  intros Hk. assert (Z.testbit (Z.land x (2 ^ k)) k = Z.testbit x k) as E.
  { rewrite Z.land_spec, Z.pow2_bits_true, andb_true_r by done. done. }
  destruct (Z.testbit x k) eqn:Hx.
  - destruct (Z.eqb_spec (Z.land x (2 ^ k)) 0) as [H0|]; [|done].
    by rewrite H0, Z.bits_0 in E.
  - destruct (Z.eqb_spec (Z.land x (2 ^ k)) 0) as [|H0]; [done|]. exfalso. apply H0.
    apply Z.bits_inj'. intros i Hi. rewrite Z.bits_0, Z.land_spec, testbit_pow2 by done.
    destruct (Z.eqb_spec i k) as [->|]; [by rewrite Hx|by rewrite andb_false_r].
Qed.

Lemma testbit_msb nb x : 0 < nb → uint nb x → Z.testbit x (nb - 1) = (2 ^ (nb - 1) <=? x).
Proof.
  intros Hnb Hx. unfold uint in Hx.
  assert (2 ^ nb = 2 * 2 ^ (nb - 1)) as E.
  { rewrite <- Z.pow_succ_r by lia. f_equal. lia. }
  destruct (Z.leb_spec (2 ^ (nb - 1)) x).
  - apply Z.testbit_true; [lia|]. replace (x / 2 ^ (nb - 1)) with 1; [done|].
    apply Z.div_unique with (x - 2 ^ (nb - 1)); lia.
  - apply (testbit_high (nb - 1)); unfold uint; lia.
Qed.

Lemma sint_congr w x : ∃ k, sint w x = x + k * 2 ^ w.
Proof. unfold sint. destruct (_ <? _); [exists 0|exists (-1)]; lia. Qed.

Lemma sint_wrap w x : wrap w (sint w x) = wrap w x.
Proof. destruct (sint_congr w x) as [k ->]. apply wrap_plus_mult. Qed.

Lemma sint_mul w x y : wrap w (sint w x * sint w y) = wrap w (x * y).
Proof.
  rewrite <- wrap_mul_l, sint_wrap, wrap_mul_l, <- wrap_mul_r, sint_wrap, wrap_mul_r. done.
Qed.

(** The sign tests of the signed comparisons. *)
Definition signed_lt_by_msb (nb x y : Z) (lt : bool) : bool :=
  if Z.testbit x (nb - 1) && negb (Z.testbit y (nb - 1)) then true
  else if negb (Z.testbit x (nb - 1)) && Z.testbit y (nb - 1) then false
  else lt.

Lemma signed_lt_spec nb x y : 0 < nb → uint nb x → uint nb y →
  signed_lt_by_msb nb x y (x <? y) = (sint nb x <? sint nb y).
Proof.
  intros Hnb Hx Hy. unfold signed_lt_by_msb, sint. rewrite !testbit_msb by done.
  unfold uint in *.
  assert (2 ^ nb = 2 * 2 ^ (nb - 1)) as E.
  { rewrite <- Z.pow_succ_r by lia. f_equal. lia. }
  destruct (Z.leb_spec (2 ^ (nb - 1)) x), (Z.leb_spec (2 ^ (nb - 1)) y),
    (Z.ltb_spec x (2 ^ (nb - 1))), (Z.ltb_spec y (2 ^ (nb - 1))); cbn [andb negb]; lia.
Qed.

Lemma sint_inj nb x y : uint nb x → uint nb y → sint nb x = sint nb y → x = y.
Proof. unfold uint, sint. intros Hx Hy. split_cmps; lia. Qed.

Lemma signed_le_spec nb x y : uint nb x → uint nb y →
  (sint nb x <? sint nb y) || (x =? y) = (sint nb x <=? sint nb y).
Proof.
  intros Hx Hy. destruct (Z.eqb_spec x y) as [->|Hne].
  - rewrite orb_true_r. symmetry. apply Z.leb_refl.
  - rewrite orb_false_r. assert (sint nb x ≠ sint nb y) by (intros E; eauto using sint_inj).
    destruct (Z.ltb_spec (sint nb x) (sint nb y)), (Z.leb_spec (sint nb x) (sint nb y)); lia.
Qed.

Lemma sint_range w x : 0 < w → uint w x → - 2 ^ (w - 1) ≤ sint w x < 2 ^ (w - 1).
Proof.
  intros Hw Hx. unfold sint, uint in *.
  assert (2 ^ w = 2 * 2 ^ (w - 1)) by (rewrite <- Z.pow_succ_r by lia; f_equal; lia).
  split_cmps; lia.
Qed.

(** ** One and two words *)

(** The value of a scalar storage is its number. *)
Definition scalar_rep (w : Z) (b x : Z) : Prop := b = x ∧ uint w x.

Section Scalar.
Context (w : Z) (Hw : 0 < w).
Local Abbreviation rp := (scalar_rep w).

Lemma scalar_wrap z : rp (wrap w z) (wrap w z).
Proof using Hw. split; [done|]. apply uint_wrap. lia. Qed.
Lemma scalar_wrap_eq a z : a = wrap w z → rp a (wrap w z).
Proof using Hw. intros ->. apply scalar_wrap. Qed.
Lemma scalar_bits a z : a = z → wrap w z = z → rp a z.
Proof using Hw. intros -> <-. apply scalar_wrap. Qed.

Lemma scalar_and x y : uint w x → uint w y → rp (Z.land x y) (Z.land x y).
Proof using Hw. intros. apply scalar_bits; [done|]. bitblast. Qed.
Lemma scalar_or x y : uint w x → uint w y → rp (Z.lor x y) (Z.lor x y).
Proof using Hw. intros. apply scalar_bits; [done|]. bitblast. Qed.
Lemma scalar_xor x y : uint w x → uint w y → rp (Z.lxor x y) (Z.lxor x y).
Proof using Hw. intros. apply scalar_bits; [done|]. bitblast. Qed.
Lemma scalar_invert x : uint w x → rp (unot w x) (2 ^ w - 1 - x).
Proof using Hw.
  intros Hx. rewrite unot_val by (done || lia). split; [done|]. unfold uint in *. lia.
Qed.
Lemma scalar_negate x : uint w x → rp (wrap w (unot w x + 1)) (wrap w (- x)).
Proof using Hw.
  intros Hx. apply scalar_wrap_eq. rewrite unot_val by (done || lia).
  replace (2 ^ w - 1 - x + 1) with (- x + 1 * 2 ^ w) by lia. apply wrap_plus_mult.
Qed.
Lemma scalar_left_shift x n : 0 ≤ n < w → rp (shl w x n) (wrap w (x * 2 ^ n)).
Proof using Hw. intros. rewrite shl_spec by done. apply scalar_wrap. Qed.
Lemma scalar_div_pow2 x n : uint w x → 0 ≤ n → uint w (x / 2 ^ n).
Proof using Hw.
  unfold uint. intros Hx Hn. pose proof (pow2_pos n).
  assert (x / 2 ^ n ≤ x) by (apply Z.div_le_upper_bound; nia).
  split; [apply Z.div_pos; lia|lia].
Qed.
Lemma scalar_right_shift x n : uint w x → 0 ≤ n < w → rp (shr w x n) (x / 2 ^ n).
Proof using Hw.
  intros. rewrite shr_spec by done. split; [done|]. apply scalar_div_pow2; [done|lia].
Qed.
Lemma scalar_left_rotate x n nb : uint w x → 0 < n < nb → nb ≤ w →
  rp (Z.lor (shl w x n) (shr w (Z.land x (shl w (2 ^ w - 1) (nb - n))) (nb - n)))
     (Z.lor (wrap w (x * 2 ^ n)) (x / 2 ^ (nb - n))).
Proof using Hw.
  intros Hx Hn Hnb. rewrite !shl_spec, shr_spec, rotate_left_arith by (done || lia).
  apply scalar_or; [apply uint_wrap; lia|apply scalar_div_pow2; [done|lia]].
Qed.
Lemma scalar_right_rotate x n nb : uint w x → 0 < n < nb → nb ≤ w →
  rp (Z.lor (shr w x n) (shl w (Z.land x (shr w (2 ^ w - 1) (nb - n))) (nb - n)))
     (Z.lor (x / 2 ^ n) (wrap w (x * 2 ^ (nb - n)))).
Proof using Hw.
  intros Hx Hn Hnb. rewrite !shr_spec, shl_spec, rotate_right_arith by (done || lia).
  apply scalar_or; [apply scalar_div_pow2; [done|lia]|apply uint_wrap; lia].
Qed.
Lemma scalar_getField x nb start stop : uint w x → 0 ≤ start ≤ stop → stop < nb → nb ≤ w →
  rp (shr w (shl w x (w - nb + start)) ((w - nb + start) + (nb - 1 - stop)))
     (get_field nb start stop x).
Proof using Hw.
  intros Hx H1 H2 H3. rewrite shl_spec, shr_spec, get_field_arith by (done || lia).
  split; [done|]. apply (uint_mono (stop - start + 1)); [lia|]. apply uint_wrap. lia.
Qed.
Lemma scalar_setField x y nb start stop : uint w x → uint w y →
  0 ≤ start ≤ stop → stop < nb → nb ≤ w →
  let m := shl w (shr w (shl w (2 ^ w - 1) (w - nb + start)) ((w - nb + start) + (nb - 1 - stop)))
               (nb - 1 - stop) in
  rp (Z.lor (Z.land x (unot w m)) (Z.land (shl w y (nb - 1 - stop)) m))
     (set_field nb start stop x y).
Proof using Hw.
  intros Hx Hy H1 H2 H3 m. subst m.
  rewrite !shl_spec, !shr_spec, field_mask_arith by lia.
  rewrite unot_val; [|lia|rewrite <- (field_mask_arith w Hw nb start stop) by lia; apply uint_wrap; lia].
  rewrite set_field_arith by (done || lia). split; [done|]. apply set_field_uint; (done || lia).
Qed.
Lemma scalar_divideSigned x y : uint w x → uint w y → sint w y ≠ 0 →
  sint w x ≠ - 2 ^ (w - 1) ∨ sint w y ≠ -1 →
  (sint w x =? - 2 ^ (w - 1)) && (sint w y =? -1) = false.
Proof using Hw. intros. apply andb_false_iff. rewrite !Z.eqb_neq. tauto. Qed.
Lemma scalar_quotient x y : uint w x → uint w y → y ≠ 0 → rp (x / y) (x / y).
Proof using Hw.
  unfold uint. intros Hx Hy Hne. split; [done|].
  assert (x / y ≤ x) by (apply Z.div_le_upper_bound; nia).
  split; [apply Z.div_pos; lia|lia].
Qed.
Lemma sint_0 y : uint w y → sint w y = 0 → y = 0.
Proof using Hw.
  unfold uint, sint. intros Hy. pose proof (pow2_pos w). split_cmps; lia.
Qed.
Lemma scalar_count_leading_zeros x nb : nb ≤ w →
  (if x =? 0 then w else w - 1 - Z.log2 x) - (w - nb) = leading_zeros nb x.
Proof using Type. intros. unfold leading_zeros. destruct (x =? 0); lia. Qed.
End Scalar.

(** Opens a law of a scalar specialisation: the storage is the number. *)
Ltac scalar_law :=
  intros; unfold nb_words, W in *;
  repeat match goal with H : scalar_rep _ _ _ |- _ => destruct H as [-> ?] end.

Lemma getword_small x : uint 32 x → wrap 32 (x / 2 ^ (32 * 0)) = x.
Proof. intros. rewrite Z.div_1_r. by apply wrap_small. Qed.

Lemma word_index_0 nb pos : 0 ≤ pos < nb → nb ≤ 32 → (nb - 1 - pos) / 32 = 0.
Proof. intros. apply Z.div_small. lia. Qed.

Lemma maskwordbit_spec nb pos : shl 32 1 ((nb - 1 - pos) mod 32) = 2 ^ ((nb - 1 - pos) mod 32).
Proof.
  pose proof (Z.mod_pos_bound (nb - 1 - pos) 32 ltac:(lia)) as H.
  rewrite shl_spec, Z.mul_1_l by done. apply wrap_small. split; [apply Z.pow_nonneg; lia|].
  apply Z.pow_lt_mono_r; lia.
Qed.

Lemma do_sanitize_spec w e x : 0 ≤ e < w → uint w x →
  Z.land x (unot w (shl w (unot w 0) e)) = wrap e x.
Proof.
  intros He Hx. unfold unot. rewrite shl_spec by done. bitblast.
Qed.

Lemma mod_nb nw nb : nb_words nw nb → nb = W nw ∧ nb mod 32 = 0 ∨
  nb mod 32 = nb - (W nw - 32) ∧ 0 < nb mod 32 < 32.
Proof.
  unfold nb_words, W. intros [Hnw H]. destruct (Z.eq_dec nb (32 * Z.of_nat nw)) as [->|].
  - left. split; [done|]. rewrite Z.mul_comm. apply Z.mod_mul. lia.
  - right. replace (nb mod 32) with (nb - (32 * Z.of_nat nw - 32)); [lia|].
    apply Z.mod_unique with (Z.of_nat nw - 1); lia.
Qed.

Lemma signed_gt_spec nb x y : 0 < nb → uint nb x → uint nb y →
  (if Z.testbit x (nb - 1) && negb (Z.testbit y (nb - 1)) then false
   else if negb (Z.testbit x (nb - 1)) && Z.testbit y (nb - 1) then true else y <? x) =
  (sint nb y <? sint nb x).
Proof.
  intros. rewrite <- signed_lt_spec by done. unfold signed_lt_by_msb.
  by destruct (Z.testbit x (nb - 1)), (Z.testbit y (nb - 1)).
Qed.

Lemma signed_ge_spec nb x y : uint nb x → uint nb y →
  (sint nb y <? sint nb x) || (x =? y) = (sint nb y <=? sint nb x).
Proof. intros. rewrite Z.eqb_sym. by apply signed_le_spec. Qed.

Lemma setword_0 x v : uint 32 x → x + (v - wrap 32 (x / 2 ^ (32 * 0))) * 2 ^ (32 * 0) = v.
Proof. intros. rewrite getword_small by done. change (2 ^ (32 * 0)) with 1. lia. Qed.

Section Scalar1.
Context (nb x y : Z) (Hnb : 0 < nb ≤ 32) (Hx : uint 32 x) (Hy : uint 32 y).

Lemma b1_msb_spec z : b1_msb nb z = Z.testbit z (nb - 1).
Proof using Hnb.
  unfold b1_msb, b1_maskbit, b1_whichbit. rewrite maskwordbit_spec, Z.sub_0_r, Z.mod_small by lia.
  apply land_pow2_testbit. lia.
Qed.

Lemma b1_signed_less_than_spec : uint nb x → uint nb y →
  b1_signed_less_than x y nb = (sint nb x <? sint nb y).
Proof using Hnb.
  intros. unfold b1_signed_less_than. rewrite !b1_msb_spec. apply signed_lt_spec; (done || lia).
Qed.

Lemma b1_signed_greater_than_spec : uint nb x → uint nb y →
  b1_signed_greater_than x y nb = (sint nb y <? sint nb x).
Proof using Hnb.
  intros. unfold b1_signed_greater_than. rewrite !b1_msb_spec. apply signed_gt_spec; (done || lia).
Qed.

Lemma b1_divide_spec : y ≠ 0 → ∃ r, b1_divide x y = Ret r ∧ scalar_rep 32 r (x / y).
Proof using Hx Hy.
  intros Hne. exists (x / y). unfold b1_divide. destruct (Z.eqb_spec y 0); [done|].
  split; [done|]. by apply scalar_quotient.
Qed.

Lemma b1_divideSigned_spec : y ≠ 0 → sint 32 x ≠ - 2 ^ 31 ∨ sint 32 y ≠ -1 →
  ∃ r, b1_divideSigned x y = Ret r ∧ scalar_rep 32 r (wrap 32 (Z.quot (sint 32 x) (sint 32 y))).
Proof using Hx Hy.
  intros Hne Hov. eexists. unfold b1_divideSigned. destruct (Z.eqb_spec y 0); [done|].
  rewrite (scalar_divideSigned 32); [|lia|done|done|by intros E%sint_0|done].
  split; [done|]. by apply scalar_wrap.
Qed.

Lemma b1_field_spec start stop : 0 ≤ start ≤ stop → stop < nb →
  (∃ r, b1_getField nb start stop x x = Ret r ∧ scalar_rep 32 r (get_field nb start stop x)) ∧
  (∃ r, b1_setField nb start stop x y = Ret r ∧ scalar_rep 32 r (set_field nb start stop x y)).
Proof using All.
  intros H1 H2. unfold b1_getField, b1_setField. destruct (Z.leb_spec start stop); [|lia].
  split; (eexists; split; [done|]).
  - apply (scalar_getField 32); done || lia.
  - apply (scalar_setField 32); done || lia.
Qed.

Lemma b1_sanitize_spec : nb_words 1 nb → scalar_rep 32 (b1_sanitize nb x) (wrap nb x).
Proof using Hnb Hx.
  intros Hw. unfold b1_sanitize, do_sanitize32.
  destruct (mod_nb 1 nb Hw) as [[-> ->]|[-> Hm]]; [by rewrite wrap_small|].
  unfold W in *. destruct (Z.eqb_spec (nb - (32 * Z.of_nat 1 - 32)) 0); [lia|].
  replace (nb - (32 * Z.of_nat 1 - 32)) with nb in * by lia.
  rewrite do_sanitize_spec by (done || lia). split; [done|].
  apply (uint_mono nb); [lia|]. apply uint_wrap. lia.
Qed.
End Scalar1.

Ltac scalar_auto w :=
  first
    [ apply (scalar_wrap w); lia
    | apply (scalar_and w); done || lia
    | apply (scalar_or w); done || lia
    | apply (scalar_xor w); done || lia
    | apply (scalar_invert w); done || lia
    | apply (scalar_negate w); done || lia
    | apply (scalar_left_shift w); lia
    | apply (scalar_right_shift w); done || lia
    | apply (scalar_left_rotate w); done || lia
    | apply (scalar_right_rotate w); done || lia ].

#[export] Instance base1_laws : BaseLaws 1 base1.
Proof.
  refine {| rep := scalar_rep 32 |}; scalar_law; cbn [base1 IntbvBase._reset].
  all: change (32 * Z.of_nat 1) with 32 in *.
  all: try scalar_auto 32.
  all: try done.
  - left. by apply scalar_wrap.
  - rewrite wrap_wrap_le by lia. by apply scalar_wrap.
  - replace i with 0%nat by lia. symmetry. by apply getword_small.
  - cbn. unfold b1_from_smaller. replace nw1 with 1%nat in * by lia.
    rewrite H1 by lia. unfold word_of. by rewrite getword_small.
  - cbn. unfold b1_from_larger. rewrite H1 by lia. unfold word_of.
    replace (32 * (Z.of_nat nw1 - 1 - Z.of_nat (nw1 - 1))) with 0 by lia.
    rewrite Z.div_1_r. by apply scalar_wrap.
  - apply maskwordbit_spec.
  - rewrite word_index_0, getword_small by (done || lia). done.
  - rewrite word_index_0, setword_0 by (done || lia). done.
  - rewrite <- sint_mul. by apply scalar_wrap.
  - rewrite <- wrap_mul_l, <- (sint_wrap 32 x), wrap_mul_l. by apply scalar_wrap.
  - by apply b1_divide_spec.
  - unfold div_dom in *. lia.
  - by eexists.
  - lia.
  - by apply b1_divideSigned_spec.
  - cbn [_swap_bytes base1]. rewrite swap_uint32_rbytes by done. split; [done|].
    apply (beval_bound 8 ltac:(lia) (rdigits 8 4 x)). repeat constructor; by apply uint_wrap.
  - exists x. split; [done|by left].
  - apply (b1_field_spec nb x x); done || lia.
  - cbn. unfold b1_getField. destruct (Z.leb_spec start stop); [lia|done].
  - apply (b1_field_spec nb x y); done || lia.
  - cbn. unfold b1_setField. destruct (Z.leb_spec start stop); [lia|done].
  - apply Z.gtb_ltb.
  - apply Z.geb_leb.
  - apply b1_signed_less_than_spec; done || lia.
  - cbn. rewrite b1_signed_less_than_spec by (done || lia). by apply signed_le_spec.
  - apply b1_signed_greater_than_spec; done || lia.
  - cbn. rewrite b1_signed_greater_than_spec by (done || lia). by apply signed_ge_spec.
  - apply b1_msb_spec; done || lia.
  - cbn. unfold b1_count_leading_zeros, count_leading_zeros_u32.
    rewrite <- (scalar_count_leading_zeros 32) by lia. by destruct (x =? 0).
  - symmetry. apply wrap_small. by apply (uint_mono 32).
  - apply b1_sanitize_spec; done || (unfold nb_words, W; lia).
Defined.

(** The two words of a 64-bit storage. *)
Lemma word_of_2 x i : uint 64 x → (i < 2)%nat →
  word_of 2 x i = if (i =? 0)%nat then x / 2 ^ 32 else wrap 32 x.
Proof.
  intros Hx Hi. unfold word_of. destruct (Nat.eqb_spec i 0) as [->|Hne].
  - change (32 * _) with 32. apply wrap_small. unfold uint in *. zlia.
  - replace i with 1%nat by lia. change (32 * _) with 0. by rewrite Z.div_1_r.
Qed.

Lemma words_join h l : uint 32 h → uint 32 l → Z.lor (shl 64 h 32) l = h * 2 ^ 32 + l.
Proof.
  intros Hh Hl. rewrite shl_spec, wrap_small by (unfold uint in *; pow_consts; lia).
  rewrite Z.lor_comm, lor_add by (done || lia). lia.
Qed.

Lemma word_index_2 nb pos : 0 ≤ pos < nb → 32 < nb ≤ 64 →
  (pos <? nb - 32) = ((nb - 1 - pos) / 32 =? 1).
Proof. intros. split_cmps; zlia. Qed.

Section Scalar2.
Context (nb x y : Z) (Hnb : 32 < nb ≤ 64) (Hx : uint 64 x) (Hy : uint 64 y).

Lemma b2_msb_spec z : b2_msb nb z = Z.testbit z (nb - 1).
Proof using Hnb.
  unfold b2_msb, b2_maskbit, b2_whichbit. rewrite Z.sub_0_r, Z.mod_small, shl_spec by lia.
  rewrite Z.mul_1_l, wrap_small; [apply land_pow2_testbit; lia|].
  split; [apply Z.pow_nonneg; lia|]. apply Z.pow_lt_mono_r; lia.
Qed.

Lemma b2_signed_less_than_spec : uint nb x → uint nb y →
  b2_signed_less_than x y nb = (sint nb x <? sint nb y).
Proof using Hnb.
  intros. unfold b2_signed_less_than. rewrite !b2_msb_spec.
  apply signed_lt_spec; (done || lia).
Qed.

Lemma b2_signed_greater_than_spec : uint nb x → uint nb y →
  b2_signed_greater_than x y nb = (sint nb y <? sint nb x).
Proof using Hnb.
  intros. unfold b2_signed_greater_than. rewrite !b2_msb_spec.
  apply signed_gt_spec; (done || lia).
Qed.

Lemma b2_divide_spec : y ≠ 0 → ∃ r, b2_divide x y = Ret r ∧ scalar_rep 64 r (x / y).
Proof using Hx Hy.
  intros Hne. exists (x / y). unfold b2_divide. destruct (Z.eqb_spec y 0); [done|].
  split; [done|]. by apply scalar_quotient.
Qed.

Lemma b2_divideSigned_spec : y ≠ 0 → sint 64 x ≠ - 2 ^ 63 ∨ sint 64 y ≠ -1 →
  ∃ r, b2_divideSigned x y = Ret r ∧ scalar_rep 64 r (wrap 64 (Z.quot (sint 64 x) (sint 64 y))).
Proof using Hx Hy.
  intros Hne Hov. eexists. unfold b2_divideSigned. destruct (Z.eqb_spec y 0); [done|].
  rewrite (scalar_divideSigned 64); [|lia|done|done|by intros E%sint_0|done].
  split; [done|]. by apply scalar_wrap.
Qed.

Lemma b2_field_spec start stop : 0 ≤ start ≤ stop → stop < nb →
  (∃ r, b2_getField nb start stop x x = Ret r ∧ scalar_rep 64 r (get_field nb start stop x)) ∧
  (∃ r, b2_setField nb start stop x y = Ret r ∧ scalar_rep 64 r (set_field nb start stop x y)).
Proof using All.
  intros H1 H2. unfold b2_getField, b2_setField. rewrite !(Z.mod_small _ nb) by lia.
  destruct (Z.leb_spec start stop); [|lia].
  split; (eexists; split; [done|]).
  - apply (scalar_getField 64); done || lia.
  - apply (scalar_setField 64); done || lia.
Qed.

Lemma b2_field_assert start stop a b : 0 ≤ stop < start → start < nb →
  b2_getField nb start stop a a = AssertFail ∧ b2_setField nb start stop a b = AssertFail.
Proof using Type.
  intros H1 H2. unfold b2_getField, b2_setField. rewrite !(Z.mod_small _ nb) by lia.
  destruct (Z.leb_spec start stop); [lia|done].
Qed.

End Scalar2.

Section Storage2.
Context (nb x : Z) (Hnb : 32 < nb ≤ 64) (Hx : uint 64 x).

Lemma b2_getword_spec i : (i < 2)%nat → b2_getword x i = word_of 2 x i.
Proof using Hx.
  intros Hi. rewrite word_of_2 by done. unfold b2_getword.
  destruct (i =? 0)%nat; [|done]. rewrite shr_spec by lia. apply wrap_small.
  unfold uint in *. zlia.
Qed.

Lemma b2_getword_at_spec pos : 0 ≤ pos < nb →
  b2_getword_at x nb pos = wrap 32 (x / 2 ^ (32 * ((nb - 1 - pos) / 32))).
Proof using Hnb Hx.
  intros Hp. unfold b2_getword_at. rewrite word_index_2 by done.
  destruct (Z.eqb_spec ((nb - 1 - pos) / 32) 1) as [->|]; [by rewrite shr_spec by lia|].
  replace ((nb - 1 - pos) / 32) with 0 by zlia. by rewrite Z.div_1_r.
Qed.

Lemma b2_setword_at_spec pos v : 0 ≤ pos < nb → uint 32 v →
  scalar_rep 64 (b2_setword_at x nb pos v)
    (x + (v - wrap 32 (x / 2 ^ (32 * ((nb - 1 - pos) / 32)))) * 2 ^ (32 * ((nb - 1 - pos) / 32))).
Proof using Hnb Hx.
  intros Hp Hv. unfold b2_setword_at. rewrite word_index_2 by done. unfold uint, wrap in *.
  destruct (Z.eqb_spec ((nb - 1 - pos) / 32) 1) as [->|].
  - change (shr 64 (2 ^ 64 - 1) 32) with (Z.ones 32). rewrite Z.land_ones by lia.
    rewrite Z.lor_comm, words_join by (unfold uint; zlia).
    change (32 * 1) with 32. split; [zlia|]. split; zlia.
  - replace ((nb - 1 - pos) / 32) with 0 by zlia. change (2 ^ (32 * 0)) with 1.
    replace (Z.land x _) with (x / 2 ^ 32 * 2 ^ 32).
    + rewrite Z.lor_comm, lor_add by (done || lia). split; [|split]; zlia.
    + change (shl 64 (2 ^ 64 - 1) 32) with (Z.ones 32 * 2 ^ 32).
      assert (uint 64 x) by done. bitblast.
Qed.

Lemma b2_swap_words_spec adjust : 0 ≤ adjust < 32 → uint (64 - adjust) x →
  scalar_rep 64 (b2_swap_words adjust x) (b2_swap_words adjust x) ∧
  b2_swap_words adjust x / 2 ^ adjust = wrap 32 x * 2 ^ (32 - adjust) + x / 2 ^ 32.
Proof using Hx.
  intros Ha Hxa. unfold b2_swap_words. rewrite !shl_spec, shr_spec by lia. split.
  - apply scalar_or; [lia|apply scalar_div_pow2; [lia|apply uint_wrap; lia|lia]|apply uint_wrap; lia].
  - rewrite (Z.add_comm (wrap 32 x * _)), <- lor_add; [bitblast|lia|].
    unfold uint in *. split; [apply Z.div_pos; lia|]. apply Z.div_lt_upper_bound; [lia|].
    rewrite <- Z.pow_add_r by lia. replace (32 + (32 - adjust)) with (64 - adjust) by lia. lia.
Qed.

Lemma b2_sanitize_spec : nb_words 2 nb → scalar_rep 64 (b2_sanitize nb x) (wrap nb x).
Proof using Hnb Hx.
  intros Hw. unfold b2_sanitize, do_sanitize64.
  destruct (mod_nb 2 nb Hw) as [[-> ->]|[-> Hm]]; [by rewrite wrap_small|].
  unfold W in *. destruct (Z.eqb_spec (nb - (32 * Z.of_nat 2 - 32)) 0); [lia|].
  replace (32 + (nb - (32 * Z.of_nat 2 - 32))) with nb by lia.
  rewrite do_sanitize_spec by (done || lia). split; [done|].
  apply (uint_mono nb); [lia|]. apply uint_wrap. lia.
Qed.
End Storage2.

#[export] Instance base2_laws : BaseLaws 2 base2.
Proof.
  refine {| rep := scalar_rep 64 |}; scalar_law; cbn [base2 IntbvBase._reset].
  all: change (32 * Z.of_nat 2) with 64 in *.
  all: try scalar_auto 64.
  all: try done.
  - lia.
  - split; [done|]. by apply (uint_mono 32).
  - by rewrite wrap_small.
  - right. by apply scalar_wrap.
  - rewrite wrap_wrap. by apply scalar_wrap.
  - by apply b2_getword_spec.
  - cbn. unfold b2_from_smaller. destruct (Nat.eqb_spec nw1 1) as [->|Hne].
    + rewrite H1 by lia. unfold word_of. rewrite getword_small by done.
      split; [done|]. by apply (uint_mono 32).
    + replace nw1 with 2%nat in * by lia. rewrite !H1, !word_of_2 by (done || lia). cbn [Nat.eqb].
      rewrite words_join by (unfold uint, wrap in *; zlia). split; [unfold wrap; zlia|done].
  - cbn. unfold b2_from_larger. rewrite !H1 by lia. unfold word_of.
    rewrite words_join by (apply uint_wrap; lia). apply scalar_wrap_eq; [lia|].
    replace (Z.of_nat nw1 - 1 - Z.of_nat (nw1 - 2)) with 1 by lia.
    replace (Z.of_nat nw1 - 1 - Z.of_nat (nw1 - 1)) with 0 by lia.
    change (2 ^ (32 * 0)) with 1. change (32 * 1) with 32. clear H1. unfold wrap, uint in *. zlia.
  - apply maskwordbit_spec.
  - apply b2_getword_at_spec; done || lia.
  - apply b2_setword_at_spec; done || lia.
  - rewrite <- sint_mul. by apply scalar_wrap.
  - rewrite <- wrap_mul_l, <- (sint_wrap 64 x), wrap_mul_l. by apply scalar_wrap.
  - by apply b2_divide_spec.
  - unfold div_dom in *. lia.
  - by eexists.
  - lia.
  - by apply b2_divideSigned_spec.
  - cbn [_swap_bytes base2]. rewrite swap_uint64_rbytes by done. split; [done|].
    apply (beval_bound 8 ltac:(lia) (rdigits 8 8 x)). repeat constructor; by apply uint_wrap.
  - destruct (b2_swap_words_spec x H adjust) as [Hr Hv]; [done..|].
    eexists. split; [exact Hr|]. right. split; [lia|]. rewrite Hv. cbn [rdigits beval].
    cbn. rewrite Z.div_1_r. change (2 ^ (32 * Z.of_nat 0)) with 1. change (64 - 32) with 32. lia.
  - apply (b2_field_spec nb x x); done || lia.
  - apply (b2_field_assert nb start stop a a); lia.
  - apply (b2_field_spec nb x y); done || lia.
  - apply (b2_field_assert nb start stop a b); lia.
  - apply Z.gtb_ltb.
  - apply Z.geb_leb.
  - apply b2_signed_less_than_spec; done || lia.
  - cbn. rewrite b2_signed_less_than_spec by (done || lia). by apply signed_le_spec.
  - apply b2_signed_greater_than_spec; done || lia.
  - cbn. rewrite b2_signed_greater_than_spec by (done || lia). by apply signed_ge_spec.
  - apply b2_msb_spec; done || lia.
  - cbn. unfold b2_count_leading_zeros, count_leading_zeros_u64.
    rewrite <- (scalar_count_leading_zeros 64) by lia. by destruct (x =? 0).
  - symmetry. by apply wrap_small.
  - apply b2_sanitize_spec; done || (unfold nb_words, W; lia).
Defined.
