(* ===== verification/IntbvArray.v ===== *)
(** * Word-array storage keeps the promise

    The primary template [intbv_base<_Nw>] ([src/helpers/intbv_base.h]) works on
    the array [_w] in place.  Its loops are shown to compute, word by word, the
    numbers that [BaseLaws] asks for. *)
From stdpp Require Import prelude strings.
From Stdlib Require Import ZArith Lia.
From S2P Require Import Prelude.
From S2P Require Import BitTwiddles.
From S2P Require Import WordArith.
From S2P Require Import WordDivide.
From S2P Require Import IntbvBase.
From S2P Require Import IntbvLaws.

Local Open Scope Z_scope.

(** ** Loops that overwrite an array in place *)

(** A descending loop that writes [h i] at [i + d], provided that what it reads
    at step [i] has not been overwritten yet. *)
Lemma for_down_in_place n d (g : nat → list Z → Z) (h : nat → Z) l :
  (n + d ≤ length l)%nat →
  (∀ i w, (i < n)%nat → (∀ j, (j ≤ i + d)%nat → w !!! j = l !!! j) → g i w = h i) →
  let r := for_down n (λ i w, <[(i + d)%nat := g i w]> w) l in
  length r = length l ∧
  ∀ j, r !!! j = if decide (d ≤ j < d + n)%nat then h (j - d)%nat else l !!! j.
Proof.
  intros Hn Hg r.
  assert (length r = length l ∧ ∀ j, r !!! j =
    if decide (0 + d ≤ j < d + n)%nat then h (j - d)%nat else l !!! j); [|done].
  subst r. apply (for_down_ind (λ i w, length w = length l ∧ ∀ j, w !!! j =
    if decide (i + d ≤ j < d + n)%nat then h (j - d)%nat else l !!! j)).
  - split; [done|]. intros j. by rewrite decide_False by lia.
  - intros i w Hi [Hl Hw]. rewrite length_insert. split; [done|]. intros j.
    rewrite Hg; [|done|intros j' Hj'; rewrite Hw, decide_False by lia; done].
    destruct (decide (j = i + d)%nat) as [->|Hne].
    + rewrite list_lookup_total_insert_eq, decide_True by lia. f_equal. lia.
    + rewrite list_lookup_total_insert_ne, Hw by done. repeat case_decide; done || lia.
Qed.

(** An ascending loop that writes [h i] at [i]. *)
Lemma for_up_in_place n from (g : nat → list Z → Z) (h : nat → Z) l :
  (from + n ≤ length l)%nat →
  (∀ i w, (from ≤ i < from + n)%nat → (∀ j, (i ≤ j)%nat → w !!! j = l !!! j) → g i w = h i) →
  let r := for_up n from (λ i w, <[i := g i w]> w) l in
  length r = length l ∧
  ∀ j, r !!! j = if decide (from ≤ j < from + n)%nat then h j else l !!! j.
Proof.
  intros Hn Hg r. subst r.
  set (P := λ (i : nat) (w : list Z), length w = length l ∧ ∀ j, w !!! j =
    if decide (from ≤ j < i)%nat then h j else l !!! j). apply (for_up_ind P); subst P.
  - split; [done|]. intros j. by rewrite decide_False by lia.
  - intros i w Hi [Hl Hw]. rewrite length_insert. split; [done|]. intros j.
    rewrite Hg; [|done|intros j' Hj'; rewrite Hw, decide_False by lia; done].
    destruct (decide (j = i)%nat) as [->|Hne].
    + rewrite list_lookup_total_insert_eq, decide_True by lia. done.
    + rewrite list_lookup_total_insert_ne, Hw by done. repeat case_decide; done || lia.
Qed.

(** ** Arrays and the numbers they hold *)

Definition array_rep (nw : nat) (l : list Z) (x : Z) : Prop := words nw l ∧ beval 32 l = x.

Section Arrays.
Context (nw : nat).

Lemma array_uint l x : array_rep nw l x → uint (W nw) x.
Proof using Type. intros [H <-]. by apply words_bound. Qed.

Lemma array_length l x : array_rep nw l x → length l = nw.
Proof using Type. by intros [[H _] _]. Qed.

Lemma array_word l x i : array_rep nw l x → (i < nw)%nat → l !!! i = word_of nw x i.
Proof using Type.
  intros [[Hl Hd] <-] Hi. rewrite (lookup_beval 32) by (done || lia). unfold word_of.
  by rewrite Hl.
Qed.

Lemma array_word_uint l x i : array_rep nw l x → uint 32 (l !!! i).
Proof using Type. intros [[_ H] _]. by apply digits_lookup. Qed.

Lemma array_intro l x : uint (W nw) x → length l = nw →
  (∀ i, (i < nw)%nat → l !!! i = word_of nw x i) → array_rep nw l x.
Proof using Type.
  intros Hx Hl Hw.
  assert (digits 32 l) as Hd.
  { apply Forall_lookup. intros i d Hi. pose proof (lookup_lt_Some _ _ _ Hi).
    apply list_lookup_total_correct in Hi. rewrite <- Hi, Hw by lia. by apply uint_wrap. }
  split; [done|]. apply (beval_intro 32); [lia| |done|].
  - by rewrite Hl.
  - intros i j Hi Hj. rewrite Hw by lia. unfold word_of.
    rewrite testbit_wrap, testbit_div by lia.
    rewrite Hl. destruct (Z.ltb_spec j 32), (Z.leb_spec 0 j); try lia. simpl. f_equal. lia.
Qed.

Lemma array_inj l l' x : array_rep nw l x → array_rep nw l' x → l = l'.
Proof using Type.
  intros [[H1 H2] H3] [[H4 H5] H6]. apply (beval_inj 32); congruence || lia.
Qed.

(** A loop over the whole array that replaces word [i] by [h i]. *)
Lemma array_map_down (g : nat → list Z → Z) (h : nat → Z) l x :
  length l = nw → uint (W nw) x →
  (∀ i w, (i < nw)%nat → (∀ j, (j ≤ i)%nat → w !!! j = l !!! j) → g i w = h i) →
  (∀ i, (i < nw)%nat → h i = word_of nw x i) →
  array_rep nw (for_down nw (λ i w, <[i := g i w]> w) l) x.
Proof using Type.
  intros Hl Hx Hg Hh.
  destruct (for_down_in_place nw 0 g h l ltac:(lia)) as [Hlen Hw].
  { intros i w Hi Hu. apply Hg; [done|]. intros j Hj. apply Hu. lia. }
  rewrite (for_down_ext _ _ (λ i w, <[(i + 0)%nat := g i w]> w))
    by (intros; by rewrite Nat.add_0_r).
  apply array_intro; [done|lia|]. intros i Hi. rewrite Hw, decide_True by lia.
  rewrite Nat.sub_0_r. by apply Hh.
Qed.
End Arrays.

(** ** Words of a number *)

Section WordOf.
Context (nw : nat) (Hnw : (2 ≤ nw)%nat).

Lemma word_of_0 i : word_of nw 0 i = 0.
Proof using Type. unfold word_of. by rewrite Zdiv_0_l. Qed.

Lemma word_of_ones i : (i < nw)%nat → word_of nw (2 ^ W nw - 1) i = unot 32 0.
Proof using All.
  intros Hi. unfold word_of, W, unot. rewrite ones_pred by lia. bitblast.
Qed.

Lemma word_of_u64 v i : uint 64 v → (i < nw)%nat →
  word_of nw v i = if decide (i = nw - 1)%nat then wrap 32 v
                   else if decide (i = nw - 2)%nat then wrap 32 (v / 2 ^ 32) else 0.
Proof using All.
  intros Hv Hi. unfold word_of. repeat case_decide; subst.
  - replace (32 * _) with 0 by lia. by rewrite Z.div_1_r.
  - by replace (32 * _) with 32 by lia.
  - bitblast.
Qed.

Lemma word_of_wrap x i : (i < nw)%nat → word_of nw (wrap (W nw) x) i = word_of nw x i.
Proof using All. intros Hi. unfold word_of, W. bitblast. Qed.

Lemma word_of_small x nw1 i : uint (W nw1) x → (nw1 ≤ nw)%nat → (i < nw)%nat →
  word_of nw x i = if decide (nw - nw1 ≤ i)%nat then word_of nw1 x (i - (nw - nw1)) else 0.
Proof using All.
  intros Hx H1 Hi. unfold word_of, W in *. case_decide.
  - do 4 f_equal. lia.
  - bitblast.
Qed.

Lemma word_of_larger x nw1 i : (nw ≤ nw1)%nat → (i < nw)%nat →
  word_of nw x i = word_of nw1 x (i + (nw1 - nw)).
Proof using All. intros H1 Hi. unfold word_of. do 4 f_equal. lia. Qed.

Lemma uint_W v k : 0 ≤ k ≤ 64 → uint k v → uint (W nw) v.
Proof using All. intros Hk. apply uint_mono. unfold W. lia. Qed.
End WordOf.

Section ArrayOps.
Context (nw : nat) (Hnw : (2 ≤ nw)%nat).
Local Abbreviation rp := (array_rep nw).

Lemma bN_reset_spec : rp (bN_reset nw) 0.
Proof using All.
  apply array_intro; [split; [lia|by apply pow2_pos; unfold W; lia]|apply length_replicate|].
  intros i Hi. rewrite word_of_0. unfold bN_reset. by apply lookup_total_replicate_2.
Qed.

Lemma bN_set_spec : rp (bN_set nw) (2 ^ W nw - 1).
Proof using All.
  unfold bN_set. apply array_map_down with (h := λ _, unot 32 0).
  - apply length_replicate.
  - pose proof (pow2_pos (W nw) ltac:(unfold W; lia)). unfold uint. lia.
  - done.
  - intros i Hi. by rewrite word_of_ones.
Qed.

(** Two words written at the end of a cleared array. *)
Lemma last_words_spec h l v : uint 64 v → h = wrap 32 (v / 2 ^ 32) → l = wrap 32 v →
  rp (<[(nw - 2)%nat := h]> (<[(nw - 1)%nat := l]> (bN_reset nw))) v.
Proof using All.
  intros Hv -> ->. apply array_intro.
  - by apply (uint_W nw Hnw v 64).
  - rewrite !length_insert. apply length_replicate.
  - intros i Hi. rewrite word_of_u64 by done. unfold bN_reset. repeat case_decide; subst.
    + rewrite list_lookup_total_insert_ne by lia.
      by rewrite list_lookup_total_insert_eq by (rewrite length_replicate; lia).
    + by rewrite list_lookup_total_insert_eq by (rewrite length_insert, length_replicate; lia).
    + rewrite !list_lookup_total_insert_ne by lia. by apply lookup_total_replicate_2.
Qed.

Lemma last_word_spec v : uint 32 v → rp (<[(nw - 1)%nat := v]> (bN_reset nw)) v.
Proof using All.
  intros Hv. assert (uint 64 v) by by apply (uint_mono 32).
  replace (<[(nw - 1)%nat := v]> (bN_reset nw)) with
    (<[(nw - 2)%nat := 0]> (<[(nw - 1)%nat := v]> (bN_reset nw))).
  - apply last_words_spec; [done| |by rewrite wrap_small].
    unfold uint in *. by rewrite Z.div_small.
  - apply list_insert_id. rewrite list_lookup_insert_ne by lia. apply lookup_replicate_2. lia.
Qed.

Lemma bN_from_smaller_spec nw1 f y : (1 ≤ nw1 ≤ nw)%nat → uint (W nw1) y →
  (∀ i, (i < nw1)%nat → f i = word_of nw1 y i) → rp (bN_from_smaller nw nw1 f) y.
Proof using All.
  intros H1 Hy Hf. unfold bN_from_smaller.
  assert (length (bN_reset nw) = nw) as Hl by apply length_replicate.
  destruct (for_up_in_place (nw - nw1) 0 (λ _ _, 0) (λ _, 0) (bN_reset nw)) as [Hl0 Hz];
    [lia|done|].
  set (w0 := for_up _ _ _ _) in *.
  destruct (for_down_in_place nw1 (nw - nw1) (λ i _, f i) f w0) as [Hl1 Hw]; [lia|done|].
  apply array_intro; [|lia|].
  - apply (uint_mono (W nw1)); [unfold W; lia|done].
  - intros i Hi. rewrite Hw, (word_of_small nw Hnw y nw1) by (done || lia).
    repeat case_decide; try lia.
    + by apply Hf; lia.
    + rewrite Hz. by rewrite decide_True by lia.
Qed.

Lemma bN_from_larger_spec nw1 f y : (nw ≤ nw1)%nat →
  (∀ i, (i < nw1)%nat → f i = word_of nw1 y i) → rp (bN_from_larger nw nw1 f) (wrap (W nw) y).
Proof using All.
  intros H1 Hf. unfold bN_from_larger. apply array_map_down with (h := λ i, f (i + (nw1 - nw))%nat).
  - apply length_replicate.
  - apply uint_wrap. unfold W. lia.
  - done.
  - intros i Hi. rewrite word_of_wrap, (word_of_larger nw Hnw y nw1), Hf by lia. done.
Qed.

(** A loop that combines two arrays word by word. *)
Lemma bN_bitwise_spec (op : Z → Z → Z) (f : bool → bool → bool) a b x y :
  (∀ u v i, Z.testbit (op u v) i = f (Z.testbit u i) (Z.testbit v i)) → f false false = false →
  rp a x → rp b y →
  rp (for_down nw (λ i w, <[i := op (w !!! i) (b !!! i)]> w) a) (op x y).
Proof using All.
  intros Hop Hf Ha Hb. pose proof (array_uint _ _ _ Ha). pose proof (array_uint _ _ _ Hb).
  apply array_map_down with (h := λ i, op (a !!! i) (b !!! i)).
  - by eapply array_length.
  - replace (op x y) with (wrap (W nw) (op x y)); [apply uint_wrap; unfold W; lia|].
    apply Z.bits_inj'. intros i Hi. rewrite testbit_wrap by (unfold W; lia).
    rewrite Hop. destruct (Z.ltb_spec i (W nw)); [done|].
    by rewrite !(testbit_high (W nw)) by (done || (unfold W; lia)).
  - intros i w Hi Hw. by rewrite Hw.
  - intros i Hi. rewrite (array_word nw a x), (array_word nw b y) by done. unfold word_of.
    apply Z.bits_inj'. intros j Hj. rewrite Hop. rewrite !testbit_wrap, !testbit_div, Hop by lia.
    destruct (j <? 32), (0 <=? j); simpl; done.
Qed.

Lemma bN_and_spec a b x y : rp a x → rp b y → rp (bN_and nw a b) (Z.land x y).
Proof using All. apply (bN_bitwise_spec Z.land andb); [apply Z.land_spec|done]. Qed.
Lemma bN_or_spec a b x y : rp a x → rp b y → rp (bN_or nw a b) (Z.lor x y).
Proof using All. apply (bN_bitwise_spec Z.lor orb); [apply Z.lor_spec|done]. Qed.
Lemma bN_xor_spec a b x y : rp a x → rp b y → rp (bN_xor nw a b) (Z.lxor x y).
Proof using All. apply (bN_bitwise_spec Z.lxor xorb); [apply Z.lxor_spec|done]. Qed.

Lemma bN_invert_spec a x : rp a x → rp (bN_invert nw a) (2 ^ W nw - 1 - x).
Proof using All.
  intros Ha. pose proof (array_uint _ _ _ Ha) as Hx.
  apply array_map_down with (h := λ i, unot 32 (a !!! i)).
  - by eapply array_length.
  - unfold uint in *. lia.
  - intros i w Hi Hw. by rewrite Hw.
  - intros i Hi. rewrite (array_word nw a x) by done.
    rewrite <- unot_val by (done || (unfold W; lia)). unfold word_of, unot, W in *. bitblast.
Qed.

Lemma bN_add_spec a b x y : rp a x → rp b y → rp (bN_add nw a b) (wrap (W nw) (x + y)).
Proof using All.
  intros [Ha <-] [Hb <-]. unfold bN_add. apply (addWords_spec nw a Result (Array b)); try done.
  apply Ha.
Qed.
Lemma bN_subtract_spec a b x y : rp a x → rp b y → rp (bN_subtract nw a b) (wrap (W nw) (x - y)).
Proof using All.
  intros [Ha <-] [Hb <-]. unfold bN_subtract.
  apply (subtractWords_spec nw a Result (Array b)); try done. apply Ha.
Qed.

Lemma bN_of_i32_spec v : rp (bN_of_i32 nw v) (wrap 32 v).
Proof using All. apply last_word_spec. by apply uint_wrap. Qed.

Lemma bN_negate_spec a x : rp a x → rp (bN_negate nw a) (wrap (W nw) (- x)).
Proof using All.
  intros Ha. unfold bN_negate.
  replace (wrap (W nw) (- x)) with (wrap (W nw) ((2 ^ W nw - 1 - x) + wrap 32 1)).
  - apply bN_add_spec; [by apply bN_invert_spec|apply bN_of_i32_spec].
  - change (wrap 32 1) with 1.
    replace (2 ^ W nw - 1 - x + 1) with (- x + 1 * 2 ^ W nw) by lia. apply wrap_plus_mult.
Qed.

(** ** Bit positions *)

Lemma bN_whichword_spec nb pos : nb_words nw nb → 0 ≤ pos < nb →
  (bN_whichword nb pos < nw)%nat ∧
  Z.of_nat nw - 1 - Z.of_nat (bN_whichword nb pos) = (nb - 1 - pos) / 32.
Proof using All.
  intros Hnb Hp. unfold bN_whichword. destruct (mod_nb nw nb Hnb) as [[-> ->]|[E Hm]].
  - unfold W in *. cbn [Z.eqb negb andb]. zlia.
  - unfold nb_words, W in *. destruct (Z.eqb_spec (nb mod 32) 0); [lia|]. rewrite E in *.
    cbn [negb andb]. destruct (Z.leb_spec pos (nb - (32 * Z.of_nat nw - 32) - 1)); zlia.
Qed.

Lemma bN_getword_at_spec a x nb pos : nb_words nw nb → rp a x → 0 ≤ pos < nb →
  bN_getword_at a nb pos = wrap 32 (x / 2 ^ (32 * ((nb - 1 - pos) / 32))).
Proof using All.
  intros Hnb Ha Hp. destruct (bN_whichword_spec nb pos Hnb Hp) as [Hi Hq].
  unfold bN_getword_at. rewrite (array_word nw a x) by done. unfold word_of. by rewrite Hq.
Qed.

Lemma array_insert a x i v : rp a x → (i < nw)%nat → uint 32 v →
  rp (<[i := v]> a) (x + (v - a !!! i) * 2 ^ (32 * (Z.of_nat nw - 1 - Z.of_nat i))).
Proof using All.
  intros [[Hl Hd] <-] Hi Hv. split; [split|].
  - by rewrite length_insert.
  - by apply digits_insert.
  - rewrite (beval_insert 32) by lia. by rewrite Hl.
Qed.

Lemma bN_setword_at_spec a x nb pos v : nb_words nw nb → rp a x → 0 ≤ pos < nb → uint 32 v →
  rp (bN_setword_at a nb pos v)
    (x + (v - wrap 32 (x / 2 ^ (32 * ((nb - 1 - pos) / 32)))) * 2 ^ (32 * ((nb - 1 - pos) / 32))).
Proof using All.
  intros Hnb Ha Hp Hv. rewrite <- (bN_getword_at_spec a) by done.
  destruct (bN_whichword_spec nb pos Hnb Hp) as [Hi Hq]. rewrite <- Hq.
  by apply array_insert.
Qed.

Lemma bN_msb_spec a x nb : nb_words nw nb → rp a x → bN_msb nb a = Z.testbit x (nb - 1).
Proof using All.
  intros Hnb Ha. assert (0 ≤ 0 < nb) as H0 by (unfold nb_words, W in Hnb; lia).
  unfold bN_msb, bN_maskwordbit, bN_maskbit, bN_whichbit. rewrite maskwordbit_spec.
  pose proof (Z.mod_pos_bound (nb - 1 - 0) 32 ltac:(lia)).
  rewrite land_pow2_testbit by lia. rewrite (array_word nw a x) by (done || apply Hnb).
  unfold word_of. rewrite testbit_wrap, testbit_div by (unfold nb_words in Hnb; lia).
  destruct (Z.ltb_spec ((nb - 1 - 0) mod 32) 32), (Z.leb_spec 0 ((nb - 1 - 0) mod 32)); try lia.
  simpl. f_equal. unfold nb_words, W in *. zlia.
Qed.

Lemma bN_sanitize_spec a x nb : nb_words nw nb → rp a x → rp (bN_sanitize nb a) (wrap nb x).
Proof using All.
  intros Hnb Ha. pose proof (array_uint _ _ _ Ha) as Hx. unfold bN_sanitize, do_sanitize32.
  destruct (mod_nb nw nb Hnb) as [[-> ->]|[E Hm]]; cbn [Z.eqb].
  - rewrite wrap_small by done.
    rewrite list_insert_id; [done|]. apply list_lookup_lookup_total_lt.
    rewrite (array_length _ _ _ Ha). lia.
  - destruct (Z.eqb_spec (nb mod 32) 0); [lia|].
    rewrite do_sanitize_spec; [|lia|by apply (array_word_uint nw a x)].
    set (v := wrap (nb mod 32) (a !!! 0%nat)).
    apply array_intro.
    + apply (uint_mono nb); [unfold nb_words, W in *; lia|]. apply uint_wrap.
      unfold nb_words, W in Hnb. lia.
    + rewrite length_insert. by eapply array_length.
    + intros i Hi. unfold nb_words, W in *. destruct (decide (i = 0%nat)) as [->|Hne].
      * rewrite list_lookup_total_insert_eq by (rewrite (array_length _ _ _ Ha); lia).
        subst v. rewrite (array_word nw a x) by (done || lia). rewrite E. unfold word_of. bitblast.
      * rewrite list_lookup_total_insert_ne by done. rewrite (array_word nw a x) by done.
        unfold word_of. bitblast.
Qed.
End ArrayOps.

(** ** Shifts *)

Section Shifts.
Context (nw : nat) (Hnw : (2 ≤ nw)%nat) (a : list Z) (x : Z) (Ha : array_rep nw a x).
Context (n : Z) (Hn : 0 ≤ n < W nw).
Local Abbreviation ws := (Z.to_nat (n / 32)).
Local Abbreviation off := (n mod 32).

Lemma shift_split : (ws < nw)%nat ∧ n = 32 * Z.of_nat ws + off ∧ 0 ≤ off < 32.
Proof using All. unfold W in Hn. zlia. Qed.

Lemma clear_words m from l : (from + m ≤ length l)%nat →
  let r := for_up m from (λ i w, <[i := 0]> w) l in
  length r = length l ∧
  ∀ j, r !!! j = if decide (from ≤ j < from + m)%nat then 0 else l !!! j.
Proof using Type. intros H. by apply (for_up_in_place m from (λ _ _, 0) (λ _, 0)). Qed.

(** The words after the right shift. *)
Definition right_word (j : nat) : Z :=
  if decide (j < ws)%nat then 0
  else if off =? 0 then a !!! (j - ws)%nat
  else if decide (j = ws) then shr 32 (a !!! 0%nat) off
  else Z.lor (shr 32 (a !!! (j - ws)%nat) off) (shl 32 (a !!! (j - ws - 1)%nat) (32 - off)).

Lemma bN_right_shift_words : n ≠ 0 →
  length (bN_right_shift nw n a) = nw ∧
  ∀ j, (j < nw)%nat → bN_right_shift nw n a !!! j = right_word j.
Proof using All.
  intros Hne. destruct shift_split as (Hws & _ & Hoff). pose proof (array_length _ _ _ Ha) as Hl.
  unfold bN_right_shift, right_word. destruct (Z.eqb_spec n 0); [done|].
  destruct (Z.eqb_spec off 0).
  - destruct (for_down_in_place (nw - ws - 1 + 1) ws (λ n w, w !!! n) (λ n, a !!! n) a)
      as [Hl1 Hw1]; [lia|intros i w Hi Hu; apply Hu; lia|].
    set (w1 := for_down _ _ _) in *. destruct (clear_words ws 0 w1) as [Hl2 Hw2]; [lia|].
    split; [lia|]. intros j Hj. rewrite Hw2, Hw1. repeat case_decide; done || lia.
  - rewrite (for_down_ext _ _ (λ m w, <[(m + (1 + ws))%nat :=
      Z.lor (shr 32 (w !!! (m + 1)%nat) off) (shl 32 (w !!! (m + 1 - 1)%nat) (32 - off))]> w))
      by (intros; f_equal; lia).
    destruct (for_down_in_place (nw - ws - 1) (1 + ws)
      (λ m w, Z.lor (shr 32 (w !!! (m + 1)%nat) off) (shl 32 (w !!! (m + 1 - 1)%nat) (32 - off)))
      (λ m, Z.lor (shr 32 (a !!! (m + 1)%nat) off) (shl 32 (a !!! m) (32 - off))) a)
      as [Hl1 Hw1]; [lia|intros i w Hi Hu; rewrite !Hu by lia; do 3 f_equal; lia|].
    set (w1 := for_down _ _ _) in *.
    destruct (clear_words ws 0 (<[(0 + ws)%nat := shr 32 (w1 !!! 0%nat) off]> w1)) as [Hl2 Hw2];
      [rewrite length_insert; lia|].
    rewrite length_insert in Hl2. split; [lia|]. intros j Hj. rewrite Hw2.
    repeat case_decide; try (done || lia).
    + subst j. rewrite list_lookup_total_insert_eq by lia. rewrite Hw1.
      by rewrite decide_False by lia.
    + rewrite list_lookup_total_insert_ne by lia. rewrite Hw1, decide_True by lia.
      replace (j - (1 + ws) + 1)%nat with (j - ws)%nat by lia.
      by replace (j - (1 + ws))%nat with (j - ws - 1)%nat by lia.
Qed.

Lemma bN_right_shift_spec : array_rep nw (bN_right_shift nw n a) (x / 2 ^ n).
Proof using All.
  pose proof (array_uint _ _ _ Ha) as Hx.
  destruct (Z.eq_dec n 0) as [E|Hne]; [by rewrite E, Z.div_1_r|].
  destruct shift_split as (Hws & En & Hoff). destruct (bN_right_shift_words Hne) as [Hl Hw].
  apply array_intro; [apply scalar_div_pow2; done || lia|done|].
  intros j Hj. rewrite Hw by done. unfold right_word.
  rewrite !(array_word nw a x) by (done || lia).
  set (m := ws) in *. set (o := off) in *. clearbody m o. rewrite En. clear Hw. unfold word_of, W in *.
  destruct (Z.eqb_spec o 0) as [->|Ho]; repeat case_decide; subst;
    rewrite ?shl_spec, ?shr_spec by lia; bitblast.
Qed.

(** The words after the left shift. *)
Definition left_word (j : nat) : Z :=
  let limit := (nw - ws - 1)%nat in
  if decide (limit < j)%nat then 0
  else if off =? 0 then a !!! (j + ws)%nat
  else if decide (j = limit) then shl 32 (a !!! (nw - 1)%nat) off
  else Z.lor (shl 32 (a !!! (j + ws)%nat) off) (shr 32 (a !!! (j + ws + 1)%nat) (32 - off)).

Lemma bN_left_shift_words : n ≠ 0 →
  length (bN_left_shift nw n a) = nw ∧
  ∀ j, (j < nw)%nat → bN_left_shift nw n a !!! j = left_word j.
Proof using All.
  intros Hne. destruct shift_split as (Hws & _ & Hoff). pose proof (array_length _ _ _ Ha) as Hl.
  unfold bN_left_shift, left_word. destruct (Z.eqb_spec n 0); [done|].
  set (limit := (nw - ws - 1)%nat). destruct (Z.eqb_spec off 0).
  - destruct (for_up_in_place (limit + 1) 0 (λ n w, w !!! (n + ws)%nat) (λ n, a !!! (n + ws)%nat) a)
      as [Hl1 Hw1]; [lia|intros i w Hi Hu; apply Hu; lia|].
    set (w1 := for_up _ _ _ _) in *.
    destruct (clear_words (nw - (limit + 1)) (limit + 1) w1) as [Hl2 Hw2]; [lia|].
    split; [lia|]. intros j Hj. rewrite Hw2, Hw1. repeat case_decide; done || lia.
  - destruct (for_up_in_place limit 0
      (λ n w, Z.lor (shl 32 (w !!! (n + ws)%nat) off) (shr 32 (w !!! (n + ws + 1)%nat) (32 - off)))
      (λ n, Z.lor (shl 32 (a !!! (n + ws)%nat) off) (shr 32 (a !!! (n + ws + 1)%nat) (32 - off))) a)
      as [Hl1 Hw1]; [lia|intros i w Hi Hu; rewrite !Hu by lia; done|].
    set (w1 := for_up _ _ _ _) in *.
    destruct (clear_words (nw - (limit + 1)) (limit + 1)
      (<[limit := shl 32 (w1 !!! (limit + ws)%nat) off]> w1)) as [Hl2 Hw2];
      [rewrite length_insert; lia|].
    rewrite length_insert in Hl2. split; [lia|]. intros j Hj. rewrite Hw2.
    repeat case_decide; try (done || lia).
    + subst j. rewrite list_lookup_total_insert_eq by lia. rewrite Hw1, decide_False by lia.
      by replace (limit + ws)%nat with (nw - 1)%nat by lia.
    + rewrite list_lookup_total_insert_ne by lia. by rewrite Hw1, decide_True by lia.
Qed.

Lemma bN_left_shift_spec : array_rep nw (bN_left_shift nw n a) (wrap (W nw) (x * 2 ^ n)).
Proof using All.
  pose proof (array_uint _ _ _ Ha) as Hx.
  destruct (Z.eq_dec n 0) as [E|Hne]; [by rewrite E, Z.mul_1_r, wrap_small|].
  destruct shift_split as (Hws & En & Hoff). destruct (bN_left_shift_words Hne) as [Hl Hw].
  apply array_intro; [apply uint_wrap; unfold W; lia|done|].
  intros j Hj. rewrite Hw by done. unfold left_word.
  set (m := ws) in *. set (o := off) in *. clearbody m o. rewrite En. clear Hw.
  destruct (Z.eqb_spec o 0) as [->|Ho]; repeat case_decide; subst;
    rewrite ?(array_word nw a x) by (done || lia); unfold word_of, W in *;
    rewrite ?shl_spec, ?shr_spec by lia; bitblast.
Qed.
End Shifts.

(** ** Rotations, fields and swaps *)

Section Fields.
Context (nw : nat) (Hnw : (2 ≤ nw)%nat).
Local Abbreviation rp := (array_rep nw).

Lemma bN_left_rotate_spec a x n nb : rp a x → 0 < n < nb → nb ≤ W nw →
  rp (bN_left_rotate nw n nb a a) (Z.lor (wrap (W nw) (x * 2 ^ n)) (x / 2 ^ (nb - n))).
Proof using All.
  intros Ha Hn Hnb. rewrite <- (rotate_left_arith (W nw) ltac:(lia) x (nb - n))
    by (by eapply array_uint || lia).
  apply bN_or_spec; [done|by apply bN_left_shift_spec; (done || lia)|].
  apply bN_right_shift_spec; [done| |lia]. apply bN_and_spec; [done..|].
  apply bN_left_shift_spec; [done|by apply bN_set_spec|lia].
Qed.

Lemma bN_right_rotate_spec a x n nb : rp a x → 0 < n < nb → nb ≤ W nw →
  rp (bN_right_rotate nw n nb a a) (Z.lor (x / 2 ^ n) (wrap (W nw) (x * 2 ^ (nb - n)))).
Proof using All.
  intros Ha Hn Hnb. rewrite <- (rotate_right_arith (W nw) ltac:(lia) x (nb - n))
    by (by eapply array_uint || lia).
  apply bN_or_spec; [done|apply bN_right_shift_spec; (done || lia)|].
  apply bN_left_shift_spec; [done| |lia]. apply bN_and_spec; [done..|].
  apply bN_right_shift_spec; [done|by apply bN_set_spec|lia].
Qed.

Lemma bN_getField_spec a x nb start stop : nb_words nw nb → rp a x → 0 ≤ start ≤ stop → stop < nb →
  ∃ r, bN_getField nw nb start stop a a = Ret r ∧ rp r (get_field nb start stop x).
Proof using All.
  intros [_ Hnb] Ha H1 H2. unfold bN_getField. rewrite !(Z.mod_small _ nb) by lia.
  destruct (Z.leb_spec start stop); [|lia]. eexists. split; [done|].
  rewrite <- (get_field_arith (W nw)) by (by eapply array_uint || lia).
  rewrite (Z.mul_comm (Z.of_nat nw)). unfold W in *.
  apply bN_right_shift_spec; [done| |unfold W; lia].
  apply bN_left_shift_spec; [done|done|unfold W; lia].
Qed.

Lemma bN_setField_spec a b x y nb start stop : nb_words nw nb → rp a x → rp b y →
  0 ≤ start ≤ stop → stop < nb →
  ∃ r, bN_setField nw nb start stop a b = Ret r ∧ rp r (set_field nb start stop x y).
Proof using All.
  intros [_ Hnb] Ha Hb H1 H2. unfold bN_setField. rewrite !(Z.mod_small _ nb) by lia.
  destruct (Z.leb_spec start stop); [|lia]. eexists. split; [done|].
  rewrite <- (set_field_arith (W nw)) by (by eapply array_uint || lia).
  rewrite <- (field_mask_arith (W nw)) by lia.
  change (32 * Z.of_nat nw) with (W nw).
  set (mask := bN_left_shift nw (nb - 1 - stop) _). set (m := wrap (W nw) _).
  assert (rp mask m) as Hm.
  { apply bN_left_shift_spec; [done| |lia]. apply bN_right_shift_spec; [done| |lia].
    apply bN_left_shift_spec; [done|by apply bN_set_spec|lia]. }
  apply bN_or_spec; [done|apply bN_and_spec; [done..|by apply bN_invert_spec]|].
  apply bN_and_spec; [done| |done]. apply bN_left_shift_spec; (done || lia).
Qed.

Lemma bN_field_assert a b nb start stop : 0 ≤ stop < start → start < nb →
  bN_getField nw nb start stop a a = AssertFail ∧ bN_setField nw nb start stop a b = AssertFail.
Proof using All.
  intros H1 H2. unfold bN_getField, bN_setField. rewrite !(Z.mod_small _ nb) by lia.
  destruct (Z.leb_spec start stop); [lia|done].
Qed.
End Fields.

Lemma list_eq_total (l l' : list Z) : length l = length l' →
  (∀ i, (i < length l)%nat → l !!! i = l' !!! i) → l = l'.
Proof.
  intros Hl H. apply list_eq. intros i. destruct (decide (i < length l)%nat).
  - rewrite !list_lookup_lookup_total_lt by lia. f_equal. by apply H.
  - by rewrite !lookup_ge_None_2 by lia.
Qed.

(** Bit [p] of the digit-reversed number. *)
Lemma testbit_rdigits k n x p : 0 < k → 0 ≤ p < k * Z.of_nat n →
  Z.testbit (beval k (rdigits k n x)) p = Z.testbit x (k * (Z.of_nat n - 1 - p / k) + p mod k).
Proof.
  intros Hk Hp. rewrite beval_testbit by (done || lia || apply digits_rdigits; lia).
  rewrite length_rdigits. pose proof (Z.div_mod p k ltac:(lia)).
  pose proof (Z.mod_pos_bound p k Hk). assert (0 ≤ p / k) by (apply Z.div_pos; lia).
  assert (p / k < Z.of_nat n) by nia.
  destruct (Z.ltb_spec p (k * Z.of_nat n)); [simpl|lia].
  rewrite lookup_rdigits, testbit_wrap, testbit_div by nia.
  destruct (Z.ltb_spec (p mod k) k), (Z.leb_spec 0 (p mod k)); try lia. simpl. f_equal. nia.
Qed.

Section Swaps.
Context (nw : nat) (Hnw : (2 ≤ nw)%nat) (a : list Z) (x : Z) (Ha : array_rep nw a x).

Lemma bN_swap_bytes_spec : array_rep nw (bN_swap_bytes nw a) (beval 8 (rdigits 8 (4 * nw) x)).
Proof using All.
  pose proof (array_length _ _ _ Ha) as Hl. unfold bN_swap_bytes.
  assert (length (bN_reset nw) = nw) as Hr by apply length_replicate.
  destruct (for_up_in_place nw 0 (λ i _, swap_uint32 (a !!! (nw - i - 1)%nat))
    (λ i, swap_uint32 (a !!! (nw - i - 1)%nat)) (bN_reset nw)) as [Hl1 Hw]; [lia|done|].
  apply array_intro; [|lia|].
  - pose proof (beval_bound 8 ltac:(lia) _ (digits_rdigits 8 (4 * nw) x ltac:(lia))) as H.
    rewrite length_rdigits in H. unfold W. by replace (32 * Z.of_nat nw) with
      (8 * Z.of_nat (4 * nw)) by lia.
  - intros i Hi. rewrite Hw, decide_True by lia.
    rewrite swap_uint32_rbytes by by eapply array_word_uint.
    rewrite (array_word nw a x) by (done || lia). unfold word_of. apply Z.bits_inj'. intros j Hj.
    rewrite testbit_wrap, testbit_div by lia.
    destruct (Z.ltb_spec j 32); cbn [andb].
    + destruct (Z.leb_spec 0 j); [cbn [andb]|lia]. rewrite !testbit_rdigits by lia.
      rewrite testbit_wrap, testbit_div by lia.
      destruct (Z.ltb_spec (8 * (Z.of_nat 4 - 1 - j / 8) + j mod 8) 32); [|zlia].
      destruct (Z.leb_spec 0 (8 * (Z.of_nat 4 - 1 - j / 8) + j mod 8)); [cbn [andb]|zlia].
      f_equal. zlia.
    + apply (testbit_high 32); [lia| |lia].
      apply (beval_bound 8 ltac:(lia) (rdigits 8 4 _)). by apply digits_rdigits.
Qed.

Lemma bN_swap_words_list adjust :
  bN_swap_words nw adjust a =
    rdigits 32 (nw - 1) x ++ [shl 32 (a !!! 0%nat) adjust].
Proof using All.
  pose proof (array_length _ _ _ Ha) as Hl. unfold bN_swap_words.
  assert (length (bN_reset nw) = nw) as Hr by apply length_replicate.
  destruct (for_up_in_place nw 0 (λ i _, a !!! (nw - i - 1)%nat)
    (λ i, a !!! (nw - i - 1)%nat) (bN_reset nw)) as [Hl1 Hw]; [lia|done|].
  set (r := for_up _ _ _ _) in *. apply list_eq_total.
  - rewrite length_insert, length_app, length_rdigits. simpl. lia.
  - intros i. rewrite length_insert. intros Hi. destruct (decide (i = nw - 1)%nat) as [->|Hne].
    + rewrite list_lookup_total_insert_eq, Hw, decide_True by lia.
      rewrite lookup_total_app_r by (rewrite length_rdigits; lia).
      rewrite length_rdigits, Nat.sub_diag. simpl. do 2 f_equal. lia.
    + rewrite list_lookup_total_insert_ne, Hw, decide_True by lia.
      rewrite lookup_total_app_l by (rewrite length_rdigits; lia).
      rewrite lookup_rdigits, (array_word nw a x) by (done || lia).
      unfold word_of. do 4 f_equal. lia.
Qed.

Lemma bN_swap_words_spec adjust : 0 ≤ adjust < 32 → uint (W nw - adjust) x →
  ∃ z, array_rep nw (bN_swap_words nw adjust a) z ∧
    z / 2 ^ adjust = beval 32 (rdigits 32 (nw - 1) x) * 2 ^ (32 - adjust) + x / 2 ^ (W nw - 32).
Proof using All.
  intros Hadj Hxa. rewrite bN_swap_words_list. eexists. split.
  - split; [|reflexivity]. split; [rewrite length_app, length_rdigits; simpl; lia|].
    apply Forall_app. split; [by apply digits_rdigits|]. repeat constructor; by apply uint_wrap.
  - rewrite (beval_app 32) by lia. cbn [beval length]. change (2 ^ (32 * Z.of_nat 0)) with 1.
    change (32 * Z.of_nat 1) with 32. rewrite Z.mul_1_r, Z.add_0_r.
    rewrite (array_word nw a x) by (done || lia). unfold word_of.
    replace (32 * (Z.of_nat nw - 1 - Z.of_nat 0)) with (W nw - 32) by (unfold W; lia).
    unfold uint in Hxa. pose proof (pow2_pos adjust). pose proof (pow2_pos (W nw - 32)).
    assert (0 ≤ x / 2 ^ (W nw - 32) < 2 ^ (32 - adjust)) as Htop.
    { unfold W in *. split; [apply Z.div_pos; lia|]. apply Z.div_lt_upper_bound; [lia|].
      rewrite <- Z.pow_add_r by lia.
      replace (32 * Z.of_nat nw - 32 + (32 - adjust)) with (32 * Z.of_nat nw - adjust) by lia. lia. }
    assert (2 ^ (32 - adjust) ≤ 2 ^ 32) by (apply Z.pow_le_mono_r; lia).
    assert (2 ^ (32 - adjust) * 2 ^ adjust = 2 ^ 32) as E.
    { rewrite <- Z.pow_add_r by lia. f_equal. lia. }
    rewrite (wrap_small 32 (x / _)), shl_spec, wrap_small by (unfold uint; nia).
    rewrite <- E, Z.mul_assoc, <- Z.mul_add_distr_r. apply Z.div_mul. lia.
Qed.
End Swaps.

(** ** Comparisons *)

Lemma lex_ltb P a r b s : 0 ≤ r < P → 0 ≤ s < P →
  (a * P + r <? b * P + s) = if a <? b then true else if b <? a then false else r <? s.
Proof.
  intros Hr Hs. destruct (Z.ltb_spec a b); [apply Z.ltb_lt; nia|].
  destruct (Z.ltb_spec b a); [apply Z.ltb_ge; nia|]. assert (a = b) as -> by lia.
  destruct (Z.ltb_spec r s); [apply Z.ltb_lt|apply Z.ltb_ge]; lia.
Qed.

Section Comparisons.
Context (nw : nat) (a b : list Z) (x y : Z).
Context (Ha : array_rep nw a x) (Hb : array_rep nw b y).
Local Abbreviation tl i l := (beval 32 (drop i l)).

Lemma tail_split l z i : array_rep nw l z → (i < nw)%nat →
  tl i l = (l !!! i) * 2 ^ (32 * (Z.of_nat nw - 1 - Z.of_nat i)) + tl (S i) l ∧
  0 ≤ tl (S i) l < 2 ^ (32 * (Z.of_nat nw - 1 - Z.of_nat i)).
Proof using Type.
  intros [[Hl Hd] _] Hi. rewrite (beval_drop 32) by lia. rewrite Hl, Nat.add_1_r. split; [done|].
  pose proof (beval_bound 32 ltac:(lia) _ (digits_drop 32 l (S i) Hd)) as H.
  rewrite length_drop, Hl in H. unfold uint in H.
  by replace (Z.of_nat nw - 1 - Z.of_nat i) with (Z.of_nat (nw - S i)) by lia.
Qed.

Lemma tail_end l z i : array_rep nw l z → (i = nw)%nat → tl i l = 0.
Proof using Type. intros [[Hl _] _] ->. by rewrite drop_ge by lia. Qed.

Lemma less_loop_spec n i : (i + n = nw)%nat → bN_less_loop n i a b = (tl i a <? tl i b).
Proof using All.
  revert i. induction n as [|n IH]; intros i Hi; simpl.
  - by rewrite (tail_end a x), (tail_end b y) by (done || lia).
  - destruct (tail_split a x i Ha ltac:(lia)) as [-> Hra], (tail_split b y i Hb ltac:(lia)) as [-> Hrb].
    rewrite lex_ltb by done. rewrite IH by lia. done.
Qed.

Lemma greater_loop_spec n i : (i + n = nw)%nat → bN_greater_loop n i a b = (tl i b <? tl i a).
Proof using All.
  revert i. induction n as [|n IH]; intros i Hi; simpl.
  - by rewrite (tail_end a x), (tail_end b y) by (done || lia).
  - destruct (tail_split a x i Ha ltac:(lia)) as [-> Hra], (tail_split b y i Hb ltac:(lia)) as [-> Hrb].
    rewrite lex_ltb by done. rewrite IH by lia. done.
Qed.

(** The counter of equal words reaches [_Nw] exactly when no word differs. *)
Lemma less_equal_loop_spec n i : (i + n = nw)%nat →
  bN_less_equal_loop nw n i (Z.of_nat i) a b = negb (tl i b <? tl i a).
Proof using All.
  revert i. induction n as [|n IH]; intros i Hi; cbn [bN_less_equal_loop].
  - rewrite (tail_end a x), (tail_end b y) by (done || lia). apply Z.eqb_eq. lia.
  - destruct (tail_split a x i Ha ltac:(lia)) as [-> Hra], (tail_split b y i Hb ltac:(lia)) as [-> Hrb].
    rewrite lex_ltb by done. destruct (Z.ltb_spec (a !!! i) (b !!! i)).
    + by destruct (Z.ltb_spec (b !!! i) (a !!! i)); [lia|].
    + destruct (Z.ltb_spec (b !!! i) (a !!! i)); [done|].
      destruct (Z.eqb_spec (a !!! i) (b !!! i)); [|lia].
      rewrite <- IH by lia. f_equal. lia.
Qed.

Lemma greater_equal_loop_spec n i : (i + n = nw)%nat →
  bN_greater_equal_loop nw n i (Z.of_nat i) a b = negb (tl i a <? tl i b).
Proof using All.
  revert i. induction n as [|n IH]; intros i Hi; cbn [bN_greater_equal_loop].
  - rewrite (tail_end a x), (tail_end b y) by (done || lia). apply Z.eqb_eq. lia.
  - destruct (tail_split a x i Ha ltac:(lia)) as [-> Hra], (tail_split b y i Hb ltac:(lia)) as [-> Hrb].
    rewrite lex_ltb by done. destruct (Z.ltb_spec (b !!! i) (a !!! i)).
    + by destruct (Z.ltb_spec (a !!! i) (b !!! i)); [lia|].
    + destruct (Z.ltb_spec (a !!! i) (b !!! i)); [done|].
      destruct (Z.eqb_spec (a !!! i) (b !!! i)); [|lia].
      rewrite <- IH by lia. f_equal. lia.
Qed.

Lemma bN_compare_spec :
  bN_less_than nw a b = (x <? y) ∧ bN_less_than_equal nw a b = (x <=? y) ∧
  bN_greater_than nw a b = (y <? x) ∧ bN_greater_than_equal nw a b = (y <=? x).
Proof using All.
  unfold bN_less_than, bN_less_than_equal, bN_greater_than, bN_greater_than_equal.
  change 0 with (Z.of_nat 0). rewrite less_loop_spec, less_equal_loop_spec, greater_loop_spec,
    greater_equal_loop_spec by lia.
  rewrite !drop_0. destruct Ha as [_ ->], Hb as [_ ->]. rewrite !Z.leb_antisym. done.
Qed.

Lemma equal_from_spec n : bN_equal_from n a b = true ↔ ∀ i, (i < n)%nat → a !!! i = b !!! i.
Proof using Type.
  induction n as [|n IH]; simpl; [split; [lia|done]|].
  destruct (Z.eqb_spec (a !!! n) (b !!! n)) as [E|E]; simpl.
  - rewrite IH. split; intros H i Hi; [|apply H; lia].
    destruct (decide (i = n)) as [->|]; [done|]. apply H. lia.
  - split; [done|]. intros H. exfalso. apply E, H. lia.
Qed.

Lemma bN_is_equal_spec : bN_is_equal nw a b = (x =? y).
Proof using All.
  apply eq_true_iff_eq. unfold bN_is_equal. rewrite equal_from_spec, Z.eqb_eq. split.
  - intros H. assert (a = b) as E.
    { pose proof (array_length _ _ _ Ha). pose proof (array_length _ _ _ Hb).
      apply list_eq_total; [lia|]. intros i Hi. apply H. lia. }
    destruct Ha as [_ <-], Hb as [_ <-]. by rewrite E.
  - intros E i Hi. rewrite (array_word nw a x), (array_word nw b y) by done. by rewrite E.
Qed.

Lemma bN_signed_spec nb : (2 ≤ nw)%nat → nb_words nw nb → uint nb x → uint nb y →
  bN_signed_less_than nw a b nb = (sint nb x <? sint nb y) ∧
  bN_signed_greater_than nw a b nb = (sint nb y <? sint nb x).
Proof using All.
  intros H2 Hnb Hx Hy. unfold bN_signed_less_than, bN_signed_greater_than.
  rewrite (bN_msb_spec nw H2 a x), (bN_msb_spec nw H2 b y) by done.
  destruct bN_compare_spec as (-> & _ & -> & _). unfold nb_words, W in *. split.
  - apply signed_lt_spec; (done || lia).
  - apply signed_gt_spec; (done || lia).
Qed.
End Comparisons.

Lemma any_from_spec n w : bN_any_from n w = false ↔ ∀ i, (i < n)%nat → w !!! i = 0.
Proof.
  induction n as [|n IH]; simpl; [split; [lia|done]|].
  destruct (Z.eqb_spec (w !!! n) 0) as [E|E]; simpl.
  - rewrite IH. split; intros H i Hi; [|apply H; lia].
    destruct (decide (i = n)) as [->|]; [done|]. apply H. lia.
  - split; [done|]. intros H. exfalso. apply E, H. lia.
Qed.

Lemma bN_is_any_spec nw a x : (2 ≤ nw)%nat → array_rep nw a x → bN_is_any nw a = negb (x =? 0).
Proof.
  intros Hnw Ha. unfold bN_is_any.
  destruct (bN_any_from nw a) eqn:E, (Z.eqb_spec x 0) as [->|Hne]; try done.
  - apply not_false_iff_true in E. exfalso. apply E. apply any_from_spec. intros i Hi.
    by rewrite (array_word nw a 0), word_of_0 by done.
  - exfalso. apply Hne. rewrite any_from_spec in E. eapply (proj2 (A := words nw a)).
    destruct Ha as [Hw <-]. split; [done|]. transitivity (beval 32 (bN_reset nw)).
    + f_equal. destruct Hw as [Hl _]. apply list_eq_total; [unfold bN_reset; by rewrite length_replicate|].
      intros i Hi. rewrite E by lia. symmetry. apply lookup_total_replicate_2. lia.
    + apply beval_replicate_0.
Qed.

(** ** Counting bits *)

Lemma popcount_app m n z : builtin_popcount (m + n) z =
  builtin_popcount m z + builtin_popcount n (z / 2 ^ Z.of_nat m).
Proof.
  revert z. induction m as [|m IH]; intros z; cbn [Nat.add builtin_popcount].
  - by rewrite Z.div_1_r.
  - rewrite IH, Z.div_div by (pose proof (pow2_pos (Z.of_nat m)); lia).
    replace (2 * 2 ^ Z.of_nat m) with (2 ^ Z.of_nat (S m)) by (rewrite <- Z.pow_succ_r by lia; f_equal; lia).
    lia.
Qed.

Lemma popcount_low m u v : builtin_popcount m (u * 2 ^ Z.of_nat m + v) = builtin_popcount m v.
Proof.
  revert v. induction m as [|m IH]; intros v; [done|]. cbn [builtin_popcount].
  replace (2 ^ Z.of_nat (S m)) with (2 ^ Z.of_nat m * 2)
    by (rewrite Z.mul_comm, <- Z.pow_succ_r by lia; f_equal; lia).
  replace (u * (2 ^ Z.of_nat m * 2) + v) with (v + (u * 2 ^ Z.of_nat m) * 2) by ring.
  rewrite Z.div_add, Z_mod_plus_full by lia. by rewrite (Z.add_comm (v / 2)), IH.
Qed.

Section Counts.
Context (nw : nat) (a : list Z) (x : Z) (Ha : array_rep nw a x).

Lemma bN_count_ones_spec : bN_count_ones nw a = builtin_popcount (32 * nw) x.
Proof using All.
  unfold bN_count_ones. replace x with (beval 32 (drop 0 a))
    by (rewrite drop_0; apply Ha).
  replace (32 * nw)%nat with (32 * (nw - 0))%nat by lia.
  apply (for_down_ind (λ i r, r = builtin_popcount (32 * (nw - i)) (beval 32 (drop i a)))).
  - rewrite Nat.sub_diag. done.
  - intros i r Hi ->. rewrite Nat.add_1_r. destruct (tail_split nw a x i Ha Hi) as [-> Hr].
    replace (32 * (nw - i))%nat with (32 * (nw - S i) + 32)%nat by lia.
    rewrite popcount_app.
    replace (32 * (Z.of_nat nw - 1 - Z.of_nat i)) with (Z.of_nat (32 * (nw - S i))) in * by lia.
    rewrite popcount_low, Z.add_comm, Z.div_add_l, Z.div_small by lia.
    rewrite Z.add_0_r. unfold count_ones_u32. lia.
Qed.

Lemma clz_loop_spec n i r : (i + n = nw)%nat →
  bN_clz_loop n i r a = r + leading_zeros (32 * Z.of_nat n) (beval 32 (drop i a)).
Proof using All.
  revert i r. induction n as [|n IH]; intros i r Hi; cbn [bN_clz_loop].
  - rewrite (tail_end nw a x) by (done || lia). unfold leading_zeros. simpl. lia.
  - destruct (tail_split nw a x i Ha ltac:(lia)) as [-> Hr].
    pose proof (array_word_uint nw a x i Ha) as Hw. unfold count_leading_zeros_u32, builtin_clz.
    replace (32 * (Z.of_nat nw - 1 - Z.of_nat i)) with (32 * Z.of_nat n) in * by lia.
    destruct (Z.eqb_spec (a !!! i) 0) as [E|E]; cbn [negb].
    + rewrite IH, E by lia. unfold leading_zeros.
      replace (0 * 2 ^ (32 * Z.of_nat n) + beval 32 (drop (S i) a))
        with (beval 32 (drop (S i) a)) by lia.
      destruct (_ =? 0); lia.
    + unfold leading_zeros, uint in *.
      set (P := 2 ^ (32 * Z.of_nat n)) in *. set (t := beval 32 (drop (S i) a)) in *.
      set (d := a !!! i) in *. destruct (Z.eqb_spec (d * P + t) 0); [nia|].
      assert (Z.log2 (d * P + t) = Z.log2 d + 32 * Z.of_nat n); [|lia].
      pose proof (Z.log2_spec d ltac:(lia)) as Hlog. pose proof (Z.log2_nonneg d).
      apply Z.log2_unique; [lia|]. rewrite <- Z.add_succ_l, !Z.pow_add_r by lia. fold P. nia.
Qed.

Lemma bN_count_leading_zeros_spec nb : nb ≤ W nw →
  bN_count_leading_zeros nw nb a = leading_zeros nb x.
Proof using All.
  intros Hnb. unfold bN_count_leading_zeros. rewrite clz_loop_spec by lia. rewrite drop_0.
  destruct Ha as [_ ->]. unfold leading_zeros, W in *. destruct (x =? 0); lia.
Qed.
End Counts.

(** ** Products and quotients *)

Lemma negated_product_l w x y : wrap w (- wrap w (wrap w (- x) * y)) = wrap w (x * y).
Proof. rewrite wrap_opp, <- Z.mul_opp_r, wrap_mul_l. f_equal. ring. Qed.
Lemma negated_product_r w x y : wrap w (- wrap w (x * wrap w (- y))) = wrap w (x * y).
Proof. rewrite !(Z.mul_comm x). apply negated_product_l. Qed.

Section MulDiv.
Context (nw : nat) (junk : Z).
Context (Hnw : (3 ≤ nw)%nat) (Hmax : Z.of_nat nw ≤ 16384) (Hjunk : uint 8 junk).
Local Abbreviation rp := (array_rep nw).

Lemma equal_const a x v : rp a x → bN_is_equal nw a (bN_of_i32 nw v) = (x =? wrap 32 v).
Proof using All. intros Ha. apply bN_is_equal_spec; [done|apply bN_of_i32_spec; lia]. Qed.

Lemma bN_multiply_spec a b x y : rp a x → rp b y → rp (bN_multiply nw a b) (wrap (W nw) (x * y)).
Proof using All.
  intros Ha Hb. unfold bN_multiply. rewrite !(equal_const a x) by done.
  rewrite !(equal_const b y) by done. change (wrap 32 0) with 0. change (wrap 32 1) with 1.
  pose proof (bN_of_i32_spec nw ltac:(lia) 0) as Hz. change (wrap 32 0) with 0 in Hz.
  pose proof (array_uint _ _ _ Ha). pose proof (array_uint _ _ _ Hb).
  destruct (Z.eqb_spec x 0) as [->|], (Z.eqb_spec y 0) as [->|]; cbn [orb];
    rewrite ?Z.mul_0_l, ?Z.mul_0_r, ?wrap_0; try done.
  destruct (Z.eqb_spec y 1) as [->|]; [by rewrite Z.mul_1_r, wrap_small|].
  destruct (Z.eqb_spec x 1) as [->|]; [by rewrite Z.mul_1_l, wrap_small|].
  destruct Ha as [Ha <-], Hb as [Hb <-].
  apply multiplyWords_spec; try done. by eapply array_length.
Qed.

Lemma bN_multiplySigned_spec a b x y : rp a x → rp b y →
  rp (bN_multiplySigned nw a b) (wrap (W nw) (x * y)).
Proof using All.
  intros Ha Hb. unfold bN_multiplySigned.
  pose proof (bN_negate_spec nw ltac:(lia)) as Hn.
  destruct (negb (a !!! 0%nat =? 0)), (negb (b !!! 0%nat =? 0)); cbn [eqb negb].
  - replace (wrap (W nw) (x * y)) with (wrap (W nw) (wrap (W nw) (- x) * wrap (W nw) (- y)))
      by (autorewrite with wrapdb; f_equal; ring).
    apply bN_multiply_spec; by apply Hn.
  - rewrite <- negated_product_l.
    apply Hn, bN_multiply_spec; [by apply Hn|done].
  - rewrite <- negated_product_r.
    apply Hn, bN_multiply_spec; [done|by apply Hn].
  - by apply bN_multiply_spec.
Qed.

Lemma bN_multiplySigned_u32_spec a x y : rp a x → uint 32 y →
  rp (bN_multiplySigned_u32 nw a y) (wrap (W nw) (x * y)).
Proof using All.
  intros Ha Hy. unfold bN_multiplySigned_u32.
  pose proof (bN_negate_spec nw ltac:(lia)) as Hn.
  pose proof (last_word_spec nw ltac:(lia) y Hy) as Hb.
  destruct (negb (a !!! 0%nat =? 0)).
  - rewrite <- negated_product_l.
    apply Hn, bN_multiply_spec; [by apply Hn|done].
  - by apply bN_multiply_spec.
Qed.

Lemma bN_divide_spec a b x y : rp a x → rp b y → y ≠ 0 → div_dom nw x y →
  ∃ r, bN_divide nw junk a b = Ret r ∧ rp r (x / y).
Proof using All.
  intros Ha Hb Hy Hdom. unfold bN_divide. rewrite !(equal_const a x) by done.
  rewrite !(equal_const b y) by done. change (wrap 32 0) with 0. change (wrap 32 1) with 1.
  destruct (Z.eqb_spec x 0) as [->|Hx].
  { eexists. split; [done|]. rewrite Zdiv_0_l. apply bN_of_i32_spec. lia. }
  destruct (Z.eqb_spec y 0); [done|]. destruct (Z.eqb_spec y 1) as [->|Hy1].
  { eexists. split; [done|]. by rewrite Z.div_1_r. }
  destruct Ha as [Ha <-], Hb as [Hb <-].
  destruct Hdom as [|[|[|Hfit]]]; [lia|done|done|].
  edestruct (divideWords_spec nw junk a b) with (res := bN_reset nw) as (r & -> & Hw & Hv);
    try done; try lia; [apply bN_reset_spec; lia|..|by exists r].
  - intros _ i Hi. apply lookup_total_replicate_2. lia.
  - intros _. apply lookup_total_replicate_2. lia.
Qed.

Lemma bN_divide_undefined a b x y : rp a x → rp b y → y ≠ 0 → ~ div_dom nw x y →
  bN_divide nw junk a b = Undefined.
Proof using All.
  intros Ha Hb Hy Hdom. unfold bN_divide, div_dom in *. rewrite !(equal_const a x) by done.
  rewrite !(equal_const b y) by done. change (wrap 32 0) with 0. change (wrap 32 1) with 1.
  destruct (Z.eqb_spec x 0); [tauto|]. destruct (Z.eqb_spec y 0); [done|].
  destruct (Z.eqb_spec y 1); [tauto|]. destruct Ha as [Ha <-], Hb as [Hb <-].
  apply divideWords_overflow; done || lia || tauto.
Qed.

Lemma bN_divide_by_zero a b x : rp a x → rp b 0 → x ≠ 0 → ∃ e, bN_divide nw junk a b = Throw e.
Proof using All.
  intros Ha Hb Hx. unfold bN_divide. rewrite !(equal_const a x) by done.
  rewrite !(equal_const b 0) by done. change (wrap 32 0) with 0.
  destruct (Z.eqb_spec x 0); [done|]. by eexists.
Qed.

(** The dividend is tested first. *)
Lemma bN_divide_zero a b : rp a 0 → rp b 0 → ∃ r, bN_divide nw junk a b = Ret r ∧ rp r 0.
Proof using All.
  intros Ha Hb. unfold bN_divide. rewrite (equal_const a 0) by done. change (wrap 32 0) with 0.
  cbn. eexists. split; [done|]. apply bN_of_i32_spec. lia.
Qed.

(** The sign test of [_divideSigned] and the absolute value it leaves. *)
Lemma divideSigned_abs a x : rp a x →
  let negative := negb (Z.land (a !!! 0%nat) (shl 32 1 (32 - 1)) =? 0) in
  negative = (sint (W nw) x <? 0) ∧
  rp (if negative then bN_negate nw a else a) (Z.abs (sint (W nw) x)).
Proof using All.
  intros Ha negative. pose proof (array_uint _ _ _ Ha) as Hx.
  assert (negative = bN_msb (W nw) a) as Hm.
  { subst negative. unfold bN_msb, bN_maskwordbit, bN_maskbit, bN_whichbit. do 4 f_equal.
    unfold W. zlia. }
  rewrite (bN_msb_spec nw ltac:(lia) a x), testbit_msb in Hm
    by (done || unfold nb_words, W; lia).
  assert (2 ^ W nw = 2 * 2 ^ (W nw - 1)) as Ep.
  { unfold W. rewrite <- Z.pow_succ_r by lia. f_equal. lia. }
  unfold uint, sint in *. rewrite Hm.
  destruct (Z.leb_spec (2 ^ (W nw - 1)) x), (Z.ltb_spec x (2 ^ (W nw - 1))); try lia.
  - split; [symmetry; apply Z.ltb_lt; lia|].
    replace (Z.abs (x - 2 ^ W nw)) with (wrap (W nw) (- x)); [apply bN_negate_spec; done || lia|].
    rewrite Z.abs_neq by lia.
    replace (- (x - 2 ^ W nw)) with (- x + 1 * 2 ^ W nw) by lia.
    rewrite <- (wrap_small (W nw) (- x + _)) by (unfold uint; lia). symmetry. apply wrap_plus_mult.
  - split; [symmetry; apply Z.ltb_ge; lia|]. by rewrite Z.abs_eq by lia.
Qed.

Lemma bN_divideSigned_spec a b x y : rp a x → rp b y → y ≠ 0 →
  div_dom nw (Z.abs (sint (W nw) x)) (Z.abs (sint (W nw) y)) →
  ∃ r, bN_divideSigned nw junk a b = Ret r ∧
       rp r (wrap (W nw) (Z.quot (sint (W nw) x) (sint (W nw) y))).
Proof using All.
  intros Ha Hb Hy Hdom. pose proof (array_uint _ _ _ Ha) as Hx. pose proof (array_uint _ _ _ Hb) as Hyu.
  assert (sint (W nw) y ≠ 0) as Hsy.
  { intros E%sint_0; [done|unfold W; lia|done]. }
  unfold bN_divideSigned.
  destruct (divideSigned_abs a x Ha) as [Ex Hax]. destruct (divideSigned_abs b y Hb) as [Ey Hay].
  edestruct bN_divide_spec as (q & -> & Hq); [exact Hax|exact Hay|lia|done|].
  pose proof (array_uint _ _ _ Hq). cbn [obind]. eexists. split; [done|]. rewrite Ex, Ey.
  set (s := sint (W nw) x) in *. set (t := sint (W nw) y) in *. clearbody s t.
  destruct (Z.ltb_spec s 0), (Z.ltb_spec t 0); cbn [eqb negb].
  - replace (Z.quot s t) with (Z.abs s / Z.abs t); [by rewrite wrap_small|].
    rewrite <- Z.quot_div_nonneg, <- Z.quot_opp_opp by lia. f_equal; lia.
  - replace (Z.quot s t) with (- (Z.abs s / Z.abs t)); [apply bN_negate_spec; done || lia|].
    rewrite <- Z.quot_div_nonneg by lia. rewrite <- Z.quot_opp_l by lia. f_equal; lia.
  - replace (Z.quot s t) with (- (Z.abs s / Z.abs t)); [apply bN_negate_spec; done || lia|].
    rewrite <- Z.quot_div_nonneg by lia. rewrite <- Z.quot_opp_r by lia. f_equal; lia.
  - replace (Z.quot s t) with (Z.abs s / Z.abs t); [by rewrite wrap_small|].
    rewrite <- Z.quot_div_nonneg by lia. f_equal; lia.
Qed.
End MulDiv.

(** ** The instance *)

#[export] Instance baseN_laws nw junk (Hnw : (3 ≤ nw)%nat) (Hmax : Z.of_nat nw ≤ 16384)
  (Hjunk : uint 8 junk) : BaseLaws nw (baseN nw junk).
Proof.
  assert (2 ≤ nw)%nat as H2 by lia.
  refine {| rep := array_rep nw |}.
  - apply array_uint.
  - intros b x x' [_ <-] [_ <-]. done.
  - apply array_inj.
  - lia.
  - by apply bN_reset_spec.
  - by apply bN_set_spec.
  - by apply last_word_spec.
  - intros v Hv. rewrite wrap_small by by apply (uint_W nw H2 v 64).
    apply last_words_spec; try done. by rewrite shr_spec by lia.
  - intros v Hv. left. by apply bN_of_i32_spec.
  - intros v Hv. assert (uint 64 (wrap 64 v)) as Hu by by apply uint_wrap.
    rewrite (wrap_small (W nw)) by by apply (uint_W nw H2 _ 64).
    apply last_words_spec; [done|done| |].
    + rewrite Z.shiftr_div_pow2 by lia. unfold wrap. zlia.
    + by rewrite wrap_wrap_le by lia.
  - intros b x i Hb Hi. by apply array_word.
  - by apply bN_from_smaller_spec.
  - intros nw1 f y H _. by apply bN_from_larger_spec.
  - intros. apply maskwordbit_spec.
  - by apply bN_getword_at_spec.
  - by apply bN_setword_at_spec.
  - by apply bN_add_spec.
  - by apply bN_subtract_spec.
  - by apply bN_negate_spec.
  - by apply (bN_multiply_spec nw junk).
  - by apply (bN_multiplySigned_spec nw junk).
  - by apply (bN_multiplySigned_u32_spec nw junk).
  - by apply bN_divide_spec.
  - by apply bN_divide_undefined.
  - intros a b x Ha Hb [Hx|]; [by eapply bN_divide_by_zero|lia].
  - intros a b _. by apply bN_divide_zero.
  - intros a b x y Ha Hb Hy Hd _. by apply bN_divideSigned_spec.
  - by apply bN_and_spec.
  - by apply bN_or_spec.
  - by apply bN_xor_spec.
  - by apply bN_invert_spec.
  - intros. by apply bN_left_shift_spec.
  - intros. by apply bN_right_shift_spec.
  - by apply bN_left_rotate_spec.
  - by apply bN_right_rotate_spec.
  - by apply bN_swap_bytes_spec.
  - intros a x adjust Ha Hadj Hx.
    destruct (bN_swap_words_spec nw H2 a x Ha adjust Hadj Hx) as (z & Hz & E).
    exists z. split; [done|by right].
  - by apply bN_getField_spec.
  - intros. by eapply bN_field_assert.
  - by apply bN_setField_spec.
  - intros. by eapply bN_field_assert.
  - apply bN_is_equal_spec.
  - intros a b x y Ha Hb. by apply (bN_compare_spec nw a b x y Ha Hb).
  - intros a b x y Ha Hb. by apply (bN_compare_spec nw a b x y Ha Hb).
  - intros a b x y Ha Hb. by apply (bN_compare_spec nw a b x y Ha Hb).
  - intros a b x y Ha Hb. by apply (bN_compare_spec nw a b x y Ha Hb).
  - intros. by apply bN_signed_spec.
  - intros a b x y nb Hnb Ha Hb Hx Hy. cbn. unfold bN_signed_less_than_equal.
    destruct (bN_signed_spec nw a b x y Ha Hb nb) as [-> _]; [done..|].
    rewrite (bN_is_equal_spec nw a b x y) by done. by apply signed_le_spec.
  - intros. by apply bN_signed_spec.
  - intros a b x y nb Hnb Ha Hb Hx Hy. cbn. unfold bN_signed_greater_than_equal.
    destruct (bN_signed_spec nw a b x y Ha Hb nb) as [_ ->]; [done..|].
    rewrite (bN_is_equal_spec nw a b x y) by done. by apply signed_ge_spec.
  - by apply bN_msb_spec.
  - intros a x Ha. by apply bN_is_any_spec.
  - intros a x Ha. by apply bN_count_ones_spec.
  - intros a x nb [_ Hnb] Ha _. apply bN_count_leading_zeros_spec; done || lia.
  - intros a x Ha. cbn. unfold bN_to_ulong. rewrite (array_word nw a x) by (done || lia).
    unfold word_of. rewrite wrap_wrap. replace (32 * _) with 0 by lia. by rewrite Z.div_1_r.
  - intros a x Ha. cbn. unfold bN_to_ulonglong.
    rewrite !(array_word nw a x), words_join by (done || lia || apply uint_wrap; lia).
    unfold word_of. replace (32 * (Z.of_nat nw - 1 - Z.of_nat (nw - 2))) with 32 by lia.
    replace (32 * (Z.of_nat nw - 1 - Z.of_nat (nw - 1))) with 0 by lia.
    rewrite Z.div_1_r. unfold wrap. zlia.
  - by apply bN_sanitize_spec.
Defined.
