(* ===== verification/Intbv.v ===== *)
(** * Bit vectors: [intbv<_Nb>]

    The class template of [src/helpers/intbv.h] and [src/helpers/intbv_impl.h].
    [intbv nb] is the storage that the template instantiates for [nb] bits
    ([_INTBV_WORDS]); every member and every global operator is a definition
    over it, width conversions included.  Where the source asserts or throws,
    the result is an [outcome].

    A [size_t] position is a non-negative [Z]; bit 0 is the most significant. *)
From stdpp Require Import prelude strings.
From Stdlib Require Import ZArith Lia.
From S2P Require Import Prelude.
From S2P Require Import BitTwiddles.
From S2P Require Import WordArith.
From S2P Require Import WordDivide.
From S2P Require Import IntbvBase.

Local Open Scope Z_scope.

(** [_INTBV_WORDS] and [_WORD_ALIGNED]. *)
Definition INTBV_WORDS (n : Z) : nat := if n <? 1 then 0%nat else Z.to_nat ((n + 32 - 1) / 32).
Definition WORD_ALIGNED (n : Z) : Z := Z.of_nat (INTBV_WORDS n) * 32.

(** The specialisation of [intbv_base] chosen for a number of words. *)
Definition storage (nw : nat) : Type :=
  match nw with 1%nat | 2%nat => Z | _ => list Z end.
Definition storage_ops (junk : Z) (nw : nat) : BaseOps (storage nw) :=
  match nw with
  | 1%nat => base1
  | 2%nat => base2
  | S (S (S n)) as k => baseN k junk
  | O => baseN 0 junk
  end.
Definition intbv (nb : Z) : Type := storage (INTBV_WORDS nb).

(** The integer types that mix with bit vectors; [ULL] and [LL] are the
    [long long] overloads of the 64-bit build. *)
Inductive scalar : Type :=
| U64 (v : Z) | I64 (v : Z) | U32 (v : Z) | I32 (v : Z) | ULL (v : Z) | LL (v : Z).

Definition scalar_width (s : scalar) : Z :=
  match s with U32 _ | I32 _ => 32 | _ => 64 end.

Section Intbv.
Context (junk : Z).
#[local] Instance intbv_ops nb : BaseOps (intbv nb) := storage_ops junk (INTBV_WORDS nb).

(** ** Single bits *)

Definition _Unchecked_set {nb} (this : intbv nb) (pos val : Z) : intbv nb :=
  let mask := _maskwordbit (B := intbv nb) nb pos in
  let w := _getword_at this nb pos in
  let w := if val =? 0 then Z.land w (unot 32 mask) else Z.lor w mask in
  _setword_at this nb pos w.
Definition _Unchecked_test {nb} (this : intbv nb) (pos : Z) : bool :=
  let w := _getword_at this nb pos in
  let m := _maskwordbit (B := intbv nb) nb pos in
  negb (Z.land w m =? 0).
Definition set_bit {nb} (this : intbv nb) (position : Z) (val : bool) : outcome (intbv nb) :=
  assert! position <? nb in Ret (_Unchecked_set this position (Z.b2z val)).
Definition get_bit {nb} (this : intbv nb) (position : Z) : outcome bool :=
  assert! position <? nb in Ret (_Unchecked_test this position).

Definition set_all {nb} (this : intbv nb) : intbv nb := _sanitize nb _set.
Definition reset {nb} (this : intbv nb) : intbv nb := _reset.
Definition invert {nb} (this : intbv nb) : intbv nb := _sanitize nb (_invert this).
Definition negate {nb} (this : intbv nb) : intbv nb := _sanitize nb (_negate this).

(** ** Fields *)

Definition set_range {nb} (this : intbv nb) (start stop : Z) (x : intbv nb) : outcome (intbv nb) :=
  _setField nb (start mod nb) (stop mod nb) this x.
Definition get_range {nb} (this : intbv nb) (start stop : Z) : outcome (intbv nb) :=
  let! res := _getField nb (start mod nb) (stop mod nb) this this in
  Ret (_sanitize nb res).

Definition simple_mask {nb} (this : intbv nb) (start stop : Z) : outcome (intbv nb) :=
  assert! start <=? stop in
  let x := set_all _reset in
  set_range this start stop x.
Definition simple_mask_inv {nb} (this : intbv nb) (start stop : Z) : outcome (intbv nb) :=
  assert! start <=? stop in
  set_range this start stop _reset.
Definition mask {nb} (this : intbv nb) (start stop : Z) : outcome (intbv nb) :=
  let x := set_all _reset in
  if start <=? stop then set_range this start stop x
  else let! this := set_range this start (nb - 1) x in set_range this 0 stop x.
Definition mask_inv {nb} (this : intbv nb) (start stop : Z) : outcome (intbv nb) :=
  let x := _reset in
  if start <=? stop then set_range this start stop x
  else let! this := set_range this start (nb - 1) x in set_range this 0 stop x.

Definition signExtend {nb} (this : intbv nb) (bit : Z) : outcome (intbv nb) :=
  if nb =? 1 then Ret this
  else let! b := get_bit this bit in
       if b then simple_mask this 0 bit else simple_mask_inv this 0 bit.

(** ** Construction and conversion *)

Definition of_int32 nb (val : Z) : outcome (intbv nb) :=
  let this := _sanitize nb (of_i32 val) in
  if (val <? 0) && (32 <? nb) then signExtend this (nb - 32) else Ret this.
Definition of_int64 nb (val : Z) : outcome (intbv nb) :=
  let this := _sanitize nb (of_i64 val) in
  if (val <? 0) && (64 <? nb) then signExtend this (nb - 64) else Ret this.
Definition of_uint32 nb (val : Z) : intbv nb := _sanitize nb (of_u32 val).
Definition of_uint64 nb (val : Z) : intbv nb := _sanitize nb (of_u64 val).
Definition of_unsigned_long_long nb (val : Z) : intbv nb := _sanitize nb (of_u64 val).
Definition of_long_long nb (val : Z) : intbv nb := _sanitize nb (of_i64 val).
Definition of_scalar nb (s : scalar) : outcome (intbv nb) :=
  match s with
  | U64 v => Ret (of_uint64 nb v)
  | I64 v => of_int64 nb v
  | U32 v => Ret (of_uint32 nb v)
  | I32 v => of_int32 nb v
  | ULL v => Ret (of_unsigned_long_long nb v)
  | LL v => Ret (of_long_long nb v)
  end.

(** The copy constructor from another width; between equal widths it is the
    plain copy, which is what copying every word does. *)
Definition copy {nb nb2} (x : intbv nb2) : intbv nb :=
  if nb2 <? nb then
    _sanitize nb (_construct_from_smaller_sized (INTBV_WORDS nb2) (_getword x))
  else
    _sanitize nb (_construct_from_larger_sized (INTBV_WORDS nb2) (_getword x)).
Definition assign {nb nb2} (this : intbv nb) (x : intbv nb2) : intbv nb :=
  if nb2 <? nb then
    _sanitize nb (_construct_from_smaller_sized (INTBV_WORDS nb2) (_getword x))
  else _construct_from_larger_sized (INTBV_WORDS nb2) (_getword x).

Definition set_range_diff {nb nb2} (this : intbv nb) (start stop : Z) (x : intbv nb2) :
    outcome (intbv nb) :=
  _setField nb (start mod nb) (stop mod nb) this (copy x).
Definition get_range_as {nb} nb2 (this : intbv nb) (start stop : Z) : outcome (intbv nb2) :=
  let! tmp := _getField nb (start mod nb) (stop mod nb) this this in
  Ret (copy tmp).
Definition signExtend_to {nb} nb2 (this : intbv nb) : outcome (intbv nb2) :=
  let x := copy (nb := nb2) this in
  if nb <? nb2 then
    let! b := get_bit this 0 in
    if b then simple_mask x 0 (nb2 - nb) else Ret x
  else Ret x.

Definition uint32 {nb} (this : intbv nb) : Z := wrap 32 (_to_ulong this).
Definition uint64 {nb} (this : intbv nb) : Z := _to_ulonglong this.
Definition int32 {nb} (this : intbv nb) : outcome Z :=
  if 1 <? nb then let! tmp := signExtend_to 32 this in Ret (sint 32 (uint32 tmp))
  else Ret (sint 32 (uint32 this)).
Definition int64 {nb} (this : intbv nb) : outcome Z :=
  if 1 <? nb then let! tmp := signExtend_to 64 this in Ret (sint 64 (uint64 tmp))
  else Ret (sint 64 (uint64 this)).

(** ** Arithmetic, same width *)

Definition minus_assign {nb} (this rhs : intbv nb) : intbv nb := _sanitize nb (_subtract this rhs).
Definition plus_assign {nb} (this rhs : intbv nb) : intbv nb := _sanitize nb (_add this rhs).
Definition times_assign {nb} (this rhs : intbv nb) : intbv nb := _sanitize nb (_multiply this rhs).
(** The argument is a [uint64_t]; [_multiplySigned(unsigned)] is the overload
    that takes it. *)
Definition signedMultiplyEqual_u64 {nb} (this : intbv nb) (rhs : Z) : intbv nb :=
  _sanitize nb (_multiplySigned_u32 this (wrap 32 rhs)).
Definition signedMultiplyEqual {nb} (this rhs : intbv nb) : intbv nb :=
  _sanitize nb (_multiplySigned this rhs).
Definition divide_assign {nb} (this rhs : intbv nb) : outcome (intbv nb) :=
  let! q := _divide this rhs in Ret (_sanitize nb q).
Definition divideSignedAligned {nb} (this rhs : intbv nb) : outcome (intbv nb) :=
  let! q := _divideSigned this rhs in Ret (_sanitize nb q).
Definition mod_assign {nb} (this rhs : intbv nb) : outcome (intbv nb) :=
  let! q := divide_assign this rhs in
  Ret (_sanitize nb (minus_assign this (times_assign q rhs))).

Definition and_assign {nb} (this rhs : intbv nb) : intbv nb := _and this rhs.
Definition or_assign {nb} (this rhs : intbv nb) : intbv nb := _or this rhs.
Definition xor_assign {nb} (this rhs : intbv nb) : intbv nb := _xor this rhs.

(** ** Shifts, rotations, swaps *)

Definition shift_left_assign {nb} (this : intbv nb) (position : Z) : intbv nb :=
  if position <? nb then _sanitize nb (_left_shift position this) else _reset.
Definition shift_right_assign {nb} (this : intbv nb) (position : Z) : intbv nb :=
  if position <? nb then _sanitize nb (_right_shift position this) else _reset.
Definition signedRightShiftEqual {nb} (this : intbv nb) (position : Z) : outcome (intbv nb) :=
  let sbit := _Unchecked_test this 0 in
  let this := shift_right_assign this position in
  if position <? nb then signExtend this position
  else Ret (if sbit then invert this else this).
(** The overload whose position is a bit vector. *)
Definition signedRightShiftEqual_bv {nb nb2} (this : intbv nb) (position : intbv nb2) : intbv nb :=
  shift_right_assign this (uint32 position).
Definition signedRightShift_bv {nb nb2} (this : intbv nb) (position : intbv nb2) :
    outcome (intbv nb) :=
  signedRightShiftEqual this (uint32 position).

Definition left_rotate {nb} (this : intbv nb) (position : Z) : intbv nb :=
  let position := position mod nb in
  let res := if negb (position =? 0) && negb (position =? nb)
             then _left_rotate position nb this this else this in
  _sanitize nb res.
Definition right_rotate {nb} (this : intbv nb) (position : Z) : intbv nb :=
  let position := position mod nb in
  let res := if negb (position =? 0) && negb (position =? nb)
             then _right_rotate position nb this this else this in
  _sanitize nb res.

Definition swap_bytes {nb} (this : intbv nb) : intbv nb :=
  let res := _swap_bytes this in
  if negb (nb mod 32 =? 0) then _right_shift (32 * Z.of_nat (INTBV_WORDS nb) - nb) res else res.
Definition swap_words {nb} (this : intbv nb) : intbv nb :=
  let adjust := if negb (nb mod 32 =? 0) then 32 * Z.of_nat (INTBV_WORDS nb) - nb else 0 in
  let res := _swap_words adjust this in
  if negb (adjust =? 0) then _right_shift adjust res else res.

(** ** Queries *)

Definition count_ones {nb} (this : intbv nb) : Z := _count_ones this.
Definition count_leading_zeros {nb} (this : intbv nb) : Z := _count_leading_zeros nb this.
Definition any {nb} (this : intbv nb) : bool := _is_any this.
Definition none {nb} (this : intbv nb) : bool := negb (_is_any this).

Definition eq {nb} (this rhs : intbv nb) : bool := _is_equal this rhs.
Definition ne {nb} (this rhs : intbv nb) : bool := negb (_is_equal this rhs).
Definition le {nb} (this rhs : intbv nb) : bool := _less_than_equal this rhs.
Definition ge {nb} (this rhs : intbv nb) : bool := _greater_than_equal this rhs.
Definition lt {nb} (this rhs : intbv nb) : bool := _less_than this rhs.
Definition gt {nb} (this rhs : intbv nb) : bool := _greater_than this rhs.
Definition signedLE {nb} (this rhs : intbv nb) : bool := _signed_less_than_equal this rhs nb.
Definition signedLT {nb} (this rhs : intbv nb) : bool := _signed_less_than this rhs nb.
Definition signedGT {nb} (this rhs : intbv nb) : bool := _signed_greater_than this rhs nb.
Definition signedGE {nb} (this rhs : intbv nb) : bool := _signed_greater_than_equal this rhs nb.

(** Comparisons of different widths widen the narrower operand with zeros ... *)
Definition eq_diff {nb nb2} (this : intbv nb) (rhs : intbv nb2) : bool :=
  eq (nb := Z.max nb nb2) (copy this) (copy rhs).
Definition ne_diff {nb nb2} (this : intbv nb) (rhs : intbv nb2) : bool :=
  ne (nb := Z.max nb nb2) (copy this) (copy rhs).
Definition le_diff {nb nb2} (this : intbv nb) (rhs : intbv nb2) : bool :=
  le (nb := Z.max nb nb2) (copy this) (copy rhs).
Definition ge_diff {nb nb2} (this : intbv nb) (rhs : intbv nb2) : bool :=
  ge (nb := Z.max nb nb2) (copy this) (copy rhs).
Definition lt_diff {nb nb2} (this : intbv nb) (rhs : intbv nb2) : bool :=
  lt (nb := Z.max nb nb2) (copy this) (copy rhs).
Definition gt_diff {nb nb2} (this : intbv nb) (rhs : intbv nb2) : bool :=
  gt (nb := Z.max nb nb2) (copy this) (copy rhs).

(** ... and, for the signed ones, put it in the low bits of a cleared vector
    and extend its sign. *)
Definition signed_widen {nb} nb2 (x : intbv nb) : outcome (intbv nb2) :=
  let! tmp := set_range_diff (nb := nb2) _reset (nb2 - nb) (nb2 - 1) x in
  signExtend tmp (nb2 - nb).
Definition signed_compare_diff (cmp : ∀ nb, intbv nb → intbv nb → bool)
    {nb nb2} (this : intbv nb) (rhs : intbv nb2) : outcome bool :=
  let n := Z.max nb nb2 in
  if nb2 <? nb then
    let! tmp := signed_widen n rhs in Ret (cmp n (copy this) tmp)
  else
    let! tmp := signed_widen n this in Ret (cmp n tmp (copy rhs)).
Definition signedLE_diff {nb nb2} (this : intbv nb) (rhs : intbv nb2) : outcome bool :=
  signed_compare_diff (@signedLE) this rhs.
Definition signedLT_diff {nb nb2} (this : intbv nb) (rhs : intbv nb2) : outcome bool :=
  signed_compare_diff (@signedLT) this rhs.
Definition signedGT_diff {nb nb2} (this : intbv nb) (rhs : intbv nb2) : outcome bool :=
  signed_compare_diff (@signedGT) this rhs.
Definition signedGE_diff {nb nb2} (this : intbv nb) (rhs : intbv nb2) : outcome bool :=
  signed_compare_diff (@signedGE) this rhs.

(** A scalar is compared as a vector of its own width. *)
Definition compare_scalar (cmp : ∀ nb nb2, intbv nb → intbv nb2 → bool)
    {nb} (this : intbv nb) (s : scalar) : outcome bool :=
  let! rhs := of_scalar (scalar_width s) s in
  Ret (cmp nb (scalar_width s) this rhs).
Definition eq_scalar {nb} (this : intbv nb) (s : scalar) : outcome bool :=
  compare_scalar (@eq_diff) this s.
Definition ne_scalar {nb} (this : intbv nb) (s : scalar) : outcome bool :=
  compare_scalar (@ne_diff) this s.
Definition le_scalar {nb} (this : intbv nb) (s : scalar) : outcome bool :=
  compare_scalar (@le_diff) this s.
Definition ge_scalar {nb} (this : intbv nb) (s : scalar) : outcome bool :=
  compare_scalar (@ge_diff) this s.
Definition lt_scalar {nb} (this : intbv nb) (s : scalar) : outcome bool :=
  compare_scalar (@lt_diff) this s.
Definition gt_scalar {nb} (this : intbv nb) (s : scalar) : outcome bool :=
  compare_scalar (@gt_diff) this s.

(** ** Operators between widths: both operands are widened to the larger *)

Definition minus_diff {nb nb2} (x : intbv nb) (y : intbv nb2) : intbv (Z.max nb nb2) :=
  minus_assign (copy x) (copy y).
Definition plus_diff {nb nb2} (x : intbv nb) (y : intbv nb2) : intbv (Z.max nb nb2) :=
  plus_assign (copy x) (copy y).
Definition times_diff {nb nb2} (x : intbv nb) (y : intbv nb2) : intbv (Z.max nb nb2) :=
  times_assign (copy x) (copy y).
Definition and_diff {nb nb2} (x : intbv nb) (y : intbv nb2) : intbv (Z.max nb nb2) :=
  and_assign (copy x) (copy y).
Definition or_diff {nb nb2} (x : intbv nb) (y : intbv nb2) : intbv (Z.max nb nb2) :=
  or_assign (copy x) (copy y).
Definition xor_diff {nb nb2} (x : intbv nb) (y : intbv nb2) : intbv (Z.max nb nb2) :=
  xor_assign (copy x) (copy y).
Definition divide_diff {nb nb2} (x : intbv nb) (y : intbv nb2) : outcome (intbv (Z.max nb nb2)) :=
  divide_assign (copy x) (copy y).
Definition mod_diff {nb nb2} (x : intbv nb) (y : intbv nb2) : outcome (intbv (Z.max nb nb2)) :=
  mod_assign (copy x) (copy y).
(** [operator/=] and [operator%=] between widths grow, divide, and truncate
    on the assignment. *)
Definition divide_assign_diff {nb nb2} (this : intbv nb) (rhs : intbv nb2) : outcome (intbv nb) :=
  let! tmp_x := divide_diff this rhs in
  Ret (_sanitize nb (assign this tmp_x)).
Definition mod_assign_diff {nb nb2} (this : intbv nb) (rhs : intbv nb2) : outcome (intbv nb) :=
  let! tmp_x := mod_diff this rhs in
  Ret (_sanitize nb (assign this tmp_x)).

(** ** Signed operators

    Both operands are sign-extended to whole words; the result is cut back to
    the width that the function returns. *)
Definition signedMultiply {nb nb2} (x : intbv nb) (y : intbv nb2) : outcome (intbv (Z.max nb nb2)) :=
  let n := WORD_ALIGNED (Z.max nb nb2) in
  let! tmp_x := signExtend_to n x in
  let! tmp_y := signExtend_to n y in
  Ret (copy (signedMultiplyEqual tmp_x tmp_y)).
Definition signedDivide {nb nb2} (x : intbv nb) (y : intbv nb2) : outcome (intbv (Z.max nb nb2)) :=
  let n := WORD_ALIGNED (Z.max nb nb2) in
  let! tmp_x := signExtend_to n x in
  let! tmp_y := signExtend_to n y in
  let! q := divideSignedAligned tmp_x tmp_y in
  Ret (copy q).
Definition signedMod_same {nb} (x y : intbv nb) : outcome (intbv nb) :=
  let! neg := get_bit x 0 in
  let tmp_x := if neg then negate x else x in
  let! ny := get_bit y 0 in
  let tmp_y := if ny then negate y else y in
  let! r := mod_assign tmp_x tmp_y in
  Ret (if neg then negate r else r).
Definition signedMod {nb nb2} (x : intbv nb) (y : intbv nb2) : outcome (intbv (Z.max nb nb2)) :=
  let n := WORD_ALIGNED (Z.max nb nb2) in
  let! tmp_x := signExtend_to n x in
  let! tmp_y := signExtend_to n y in
  let! r := signedMod_same tmp_x tmp_y in
  Ret (copy r).
(** An unsigned integer becomes a vector of its own width, whose top bit is
    then its sign; for an [int32_t] the other operand is first sign-extended
    to whole words. *)
Definition signedMultiply_scalar {nb} (x : intbv nb) (s : scalar) :
    outcome (intbv (Z.max nb (scalar_width s))) :=
  let! y := of_scalar (scalar_width s) s in signedMultiply x y.
Definition signedDivide_scalar {nb} (x : intbv nb) (s : scalar) :
    outcome (intbv (Z.max nb (scalar_width s))) :=
  let! y := of_scalar (scalar_width s) s in signedDivide x y.
Definition signedMod_scalar {nb} (x : intbv nb) (s : scalar) :
    outcome (intbv (Z.max nb (scalar_width s))) :=
  let! y := of_scalar (scalar_width s) s in signedMod x y.
Definition signedDivide_int32 {nb} (x : intbv nb) (y : Z) : outcome (intbv (Z.max nb 32)) :=
  let! tmp_x := signExtend_to (WORD_ALIGNED (Z.max nb 32)) x in
  let! tmp_y := of_int32 32 y in
  let! r := signedDivide tmp_x tmp_y in
  Ret (copy r).
Definition signedMod_int32 {nb} (x : intbv nb) (y : Z) : outcome (intbv (Z.max nb 32)) :=
  let! tmp_x := signExtend_to (WORD_ALIGNED (Z.max nb 32)) x in
  let! tmp_y := of_int32 32 y in
  let! r := signedMod tmp_x tmp_y in
  Ret (copy r).
Definition signedDivideEqual {nb} (this rhs : intbv nb) : outcome (intbv nb) :=
  let n := WORD_ALIGNED nb in
  let tmp := copy (nb := n) this in
  let tmp_rhs := copy (nb := n) rhs in
  let! tmp := if nb <? n then signExtend tmp (n - nb) else Ret tmp in
  let! tmp_rhs := if nb <? n then signExtend tmp_rhs (n - nb) else Ret tmp_rhs in
  let! tmp := divideSignedAligned tmp tmp_rhs in
  Ret (_sanitize nb (assign this tmp)).
(** The divisor's width decides the width of the division. *)
Definition signedDivideEqual_diff {nb nb2} (this : intbv nb) (rhs : intbv nb2) : outcome (intbv nb) :=
  let n := WORD_ALIGNED nb2 in
  let tmp := copy (nb := n) this in
  let tmp_rhs := copy (nb := n) rhs in
  let! tmp := if nb <? n then signExtend tmp (n - nb) else Ret tmp in
  let! tmp_rhs := if nb2 <? n then signExtend tmp_rhs (n - nb2) else Ret tmp_rhs in
  let! tmp := divideSignedAligned tmp tmp_rhs in
  Ret (_sanitize nb (assign this tmp)).

(** ** Operators with integers

    The integer becomes a vector of the result width; compound assignments
    then convert it to the width of the left operand. *)
Definition minus_scalar {nb} (x : intbv nb) (s : scalar) : outcome (intbv (Z.max nb (scalar_width s))) :=
  let! y := of_scalar (Z.max nb (scalar_width s)) s in Ret (minus_assign (copy x) y).
Definition int_minus {nb} (s : scalar) (y : intbv nb) : outcome (intbv (Z.max nb (scalar_width s))) :=
  let! x := of_scalar (Z.max nb (scalar_width s)) s in Ret (minus_assign x (copy y)).
Definition plus_scalar {nb} (x : intbv nb) (s : scalar) : outcome (intbv (Z.max nb (scalar_width s))) :=
  let! y := of_scalar (Z.max nb (scalar_width s)) s in Ret (plus_assign (copy x) y).
Definition int_plus {nb} (s : scalar) (y : intbv nb) : outcome (intbv (Z.max nb (scalar_width s))) :=
  let! x := of_scalar (Z.max nb (scalar_width s)) s in Ret (plus_assign x (copy y)).
Definition times_scalar {nb} (x : intbv nb) (s : scalar) : outcome (intbv (Z.max nb (scalar_width s))) :=
  let! y := of_scalar (Z.max nb (scalar_width s)) s in Ret (times_assign (copy x) y).
Definition int_times {nb} (s : scalar) (y : intbv nb) : outcome (intbv (Z.max nb (scalar_width s))) :=
  let! x := of_scalar (Z.max nb (scalar_width s)) s in Ret (times_assign x (copy y)).
Definition and_scalar {nb} (x : intbv nb) (s : scalar) : outcome (intbv (Z.max nb (scalar_width s))) :=
  let! y := of_scalar (Z.max nb (scalar_width s)) s in Ret (and_assign (copy x) y).
Definition int_and {nb} (s : scalar) (y : intbv nb) : outcome (intbv (Z.max nb (scalar_width s))) :=
  let! x := of_scalar (Z.max nb (scalar_width s)) s in Ret (and_assign x (copy y)).
Definition or_scalar {nb} (x : intbv nb) (s : scalar) : outcome (intbv (Z.max nb (scalar_width s))) :=
  let! y := of_scalar (Z.max nb (scalar_width s)) s in Ret (or_assign (copy x) y).
Definition int_or {nb} (s : scalar) (y : intbv nb) : outcome (intbv (Z.max nb (scalar_width s))) :=
  let! x := of_scalar (Z.max nb (scalar_width s)) s in Ret (or_assign x (copy y)).
Definition xor_scalar {nb} (x : intbv nb) (s : scalar) : outcome (intbv (Z.max nb (scalar_width s))) :=
  let! y := of_scalar (Z.max nb (scalar_width s)) s in Ret (xor_assign (copy x) y).
Definition int_xor {nb} (s : scalar) (y : intbv nb) : outcome (intbv (Z.max nb (scalar_width s))) :=
  let! x := of_scalar (Z.max nb (scalar_width s)) s in Ret (xor_assign x (copy y)).
Definition divide_scalar {nb} (x : intbv nb) (s : scalar) : outcome (intbv (Z.max nb (scalar_width s))) :=
  let! y := of_scalar (Z.max nb (scalar_width s)) s in divide_assign (copy x) y.
Definition int_divide {nb} (s : scalar) (y : intbv nb) : outcome (intbv (Z.max nb (scalar_width s))) :=
  let! x := of_scalar (Z.max nb (scalar_width s)) s in divide_assign x (copy y).
Definition mod_scalar {nb} (x : intbv nb) (s : scalar) : outcome (intbv (Z.max nb (scalar_width s))) :=
  let! y := of_scalar (Z.max nb (scalar_width s)) s in mod_assign (copy x) y.
Definition int_mod {nb} (s : scalar) (y : intbv nb) : outcome (intbv (Z.max nb (scalar_width s))) :=
  let! x := of_scalar (Z.max nb (scalar_width s)) s in mod_assign x (copy y).

Definition minus_assign_scalar {nb} (this : intbv nb) (s : scalar) : outcome (intbv nb) :=
  let! y := of_scalar (Z.max nb (scalar_width s)) s in Ret (minus_assign this (copy y)).
Definition plus_assign_scalar {nb} (this : intbv nb) (s : scalar) : outcome (intbv nb) :=
  let! y := of_scalar (Z.max nb (scalar_width s)) s in Ret (plus_assign this (copy y)).
Definition times_assign_scalar {nb} (this : intbv nb) (s : scalar) : outcome (intbv nb) :=
  let! y := of_scalar (Z.max nb (scalar_width s)) s in Ret (times_assign this (copy y)).
(** [operator/=] and [operator%=] have a template overload, so the wide
    division is used unless the widths agree. *)
Definition divide_assign_scalar {nb} (this : intbv nb) (s : scalar) : outcome (intbv nb) :=
  let! y := of_scalar (Z.max nb (scalar_width s)) s in divide_assign_diff this y.
Definition mod_assign_scalar {nb} (this : intbv nb) (s : scalar) : outcome (intbv nb) :=
  let! y := of_scalar (Z.max nb (scalar_width s)) s in mod_assign_diff this y.

(** ** Carries and concatenation *)

Definition Carry {nb nb2} (a : intbv nb) (b : intbv nb2) (cin : intbv 1) : intbv (Z.max nb nb2) :=
  let sum := copy (nb := Z.max nb nb2) (plus_diff (plus_diff a b) cin) in
  or_assign (and_diff a b) (and_assign (xor_diff a b) (invert sum)).

Definition concat2 {nb1 nb2} (x : intbv nb1) (y : intbv nb2) : outcome (intbv (nb1 + nb2)) :=
  let res := copy y in
  set_range_diff res 0 (nb1 - 1) x.
Definition concat_int {nb1} (x : intbv nb1) (y : Z) : outcome (intbv (nb1 + 32)) :=
  let res := of_uint32 _ y in
  set_range_diff res 0 (nb1 - 1) x.
Definition concat3 {nb1 nb2 nb3} (x : intbv nb1) (y : intbv nb2) (z : intbv nb3) :
    outcome (intbv (nb1 + nb2 + nb3)) :=
  let res := copy z in
  let! res := set_range_diff res nb1 (nb1 + nb2 - 1) y in
  set_range_diff res 0 (nb1 - 1) x.
Definition concat4 {nb1 nb2 nb3 nb4} (w : intbv nb1) (x : intbv nb2) (y : intbv nb3) (z : intbv nb4) :
    outcome (intbv (nb1 + nb2 + nb3 + nb4)) :=
  let res := copy z in
  let! res := set_range_diff res (nb1 + nb2) (nb1 + nb2 + nb3 - 1) y in
  let! res := set_range_diff res nb1 (nb1 + nb2 - 1) x in
  set_range_diff res 0 (nb1 - 1) w.
Definition concat5 {nb1 nb2 nb3 nb4 nb5} (v : intbv nb1) (w : intbv nb2) (x : intbv nb3)
    (y : intbv nb4) (z : intbv nb5) : outcome (intbv (nb1 + nb2 + nb3 + nb4 + nb5)) :=
  let res := copy z in
  let! res := set_range_diff res (nb1 + nb2 + nb3) (nb1 + nb2 + nb3 + nb4 - 1) y in
  let! res := set_range_diff res (nb1 + nb2) (nb1 + nb2 + nb3 - 1) x in
  let! res := set_range_diff res nb1 (nb1 + nb2 - 1) w in
  set_range_diff res 0 (nb1 - 1) v.
Definition concat6 {nb1 nb2 nb3 nb4 nb5 nb6} (u : intbv nb1) (v : intbv nb2) (w : intbv nb3)
    (x : intbv nb4) (y : intbv nb5) (z : intbv nb6) :
    outcome (intbv (nb1 + nb2 + nb3 + nb4 + nb5 + nb6)) :=
  let res := copy z in
  let! res := set_range_diff res (nb1 + nb2 + nb3 + nb4) (nb1 + nb2 + nb3 + nb4 + nb5 - 1) y in
  let! res := set_range_diff res (nb1 + nb2 + nb3) (nb1 + nb2 + nb3 + nb4 - 1) x in
  let! res := set_range_diff res (nb1 + nb2) (nb1 + nb2 + nb3 - 1) w in
  let! res := set_range_diff res nb1 (nb1 + nb2 - 1) v in
  set_range_diff res 0 (nb1 - 1) u.
End Intbv.
