(* ===== verification/IntbvSpec.v ===== *)
(** * What bit vectors compute

    [repr b x]: the vector [b] of [nb] bits holds the number [x], and the unused
    high bits of its storage are zero (the class invariant stated in
    [src/helpers/intbv.h]).  Every operation of [Intbv] is related to arithmetic
    on the numbers, for every width up to 524288 bits (16384 words, the range on
    which the accumulators of the multiplier do not overflow) and for the three
    storage classes at once, through the laws of [BaseLaws]. *)
From stdpp Require Import prelude strings.
From Stdlib Require Import ZArith Lia.
From S2P Require Import Prelude.
From S2P Require Import BitTwiddles.
From S2P Require Import WordArith.
From S2P Require Import WordDivide.
From S2P Require Import IntbvBase.
From S2P Require Import IntbvLaws.
From S2P Require Import IntbvArray.
From S2P Require Import Intbv.

Local Open Scope Z_scope.

(** ** Widths *)

Class wf (nb : Z) : Prop := wf_range : 0 < nb ≤ 524288.

Lemma INTBV_WORDS_spec nb : 0 < nb → nb_words (INTBV_WORDS nb) nb.
Proof.
  intros H. unfold nb_words, W, INTBV_WORDS. destruct (Z.ltb_spec nb 1); [lia|]. zlia.
Qed.

Lemma INTBV_WORDS_max nb : wf nb → (1 ≤ INTBV_WORDS nb)%nat ∧ Z.of_nat (INTBV_WORDS nb) ≤ 16384.
Proof.
  unfold wf. intros H. destruct (INTBV_WORDS_spec nb) as [H1 H2]; [lia|]. unfold W in H2. lia.
Qed.

Lemma INTBV_WORDS_mono a b : a ≤ b → (INTBV_WORDS a ≤ INTBV_WORDS b)%nat.
Proof.
  intros H. unfold INTBV_WORDS. destruct (Z.ltb_spec a 1), (Z.ltb_spec b 1); try lia.
  apply Z2Nat.inj_le; [apply Z.div_pos; lia..|]. apply Z.div_le_mono; lia.
Qed.

#[export] Instance wf_max a b : wf a → wf b → wf (Z.max a b).
Proof. unfold wf. lia. Qed.
#[export] Instance wf_1 : wf 1. Proof. unfold wf. lia. Qed.
#[export] Instance wf_32 : wf 32. Proof. unfold wf. lia. Qed.
#[export] Instance wf_64 : wf 64. Proof. unfold wf. lia. Qed.
#[export] Instance wf_scalar s : wf (scalar_width s).
Proof. destruct s; simpl; apply _. Qed.

Lemma WORD_ALIGNED_spec nb : 0 < nb → WORD_ALIGNED nb = W (INTBV_WORDS nb).
Proof. unfold WORD_ALIGNED, W. lia. Qed.
Lemma INTBV_WORDS_aligned nb : 0 < nb → INTBV_WORDS (WORD_ALIGNED nb) = INTBV_WORDS nb.
Proof.
  intros H. destruct (INTBV_WORDS_spec nb H) as [H1 _]. unfold WORD_ALIGNED.
  set (n := INTBV_WORDS nb) in *. unfold INTBV_WORDS.
  destruct (Z.ltb_spec (Z.of_nat n * 32) 1); [lia|]. zlia.
Qed.
#[export] Instance wf_aligned nb : wf nb → wf (WORD_ALIGNED nb).
Proof. intros H. destruct (INTBV_WORDS_max nb H). unfold wf, WORD_ALIGNED. lia. Qed.

(** ** Representation *)

Definition storage_rep (nw : nat) : storage nw → Z → Prop :=
  match nw with
  | 1%nat => scalar_rep 32
  | 2%nat => scalar_rep 64
  | O => array_rep 0
  | S (S (S n)) as k => array_rep k
  end.

Definition repr {nb} (b : intbv nb) (x : Z) : Prop := storage_rep (INTBV_WORDS nb) b x ∧ uint nb x.

(** The operation returns normally, with a vector that holds [x]. *)
Definition returns {nb} (m : outcome (intbv nb)) (x : Z) : Prop := ∃ r, m = Ret r ∧ repr r x.

(** The uninitialised byte that the divider reads. *)
Class byte (junk : Z) : Prop := byte_range : uint 8 junk.

Definition storage_laws junk nw : byte junk → (1 ≤ nw)%nat → Z.of_nat nw ≤ 16384 →
  BaseLaws nw (storage_ops junk nw).
Proof.
  intros Hj H1 H2. destruct nw as [|[|[|n]]].
  - exfalso. lia.
  - exact base1_laws.
  - exact base2_laws.
  - apply baseN_laws; [lia|done|exact Hj].
Defined.

Lemma rep_storage junk nw (Hj : byte junk) H1 H2 b x :
  rep (BaseLaws := storage_laws junk nw Hj H1 H2) b x ↔ storage_rep nw b x.
Proof. destruct nw as [|[|[|n]]]; [lia|done..]. Qed.

#[export] Instance intbv_laws junk nb (Hj : byte junk) (H : wf nb) :
  BaseLaws (INTBV_WORDS nb) (intbv_ops junk nb) :=
  storage_laws junk (INTBV_WORDS nb) Hj (proj1 (INTBV_WORDS_max nb H)) (proj2 (INTBV_WORDS_max nb H)).

(** ** Bit-level facts used below *)

Lemma testbit_sint m z i : 0 < m → uint m z → 0 ≤ i →
  Z.testbit (sint m z) i = if i <? m then Z.testbit z i else Z.testbit z (m - 1).
Proof.
  intros Hm Hz Hi. destruct (Z.ltb_spec i m) as [Hlt|Hge].
  - rewrite <- (wrap_small m z) at 2 by done. rewrite <- sint_wrap, testbit_wrap by lia.
    destruct (Z.ltb_spec i m); [done|lia].
  - rewrite testbit_msb by done. unfold sint, uint in *.
    destruct (Z.ltb_spec z (2 ^ (m - 1))), (Z.leb_spec (2 ^ (m - 1)) z); try lia.
    + apply (testbit_high m); [lia|unfold uint; lia|lia].
    + replace (z - 2 ^ m) with (- (2 ^ m - z)) by lia. rewrite Z.bits_opp by done.
      rewrite (testbit_high m); [done|lia| |lia]. unfold uint. lia.
Qed.

(** Replacing a 32-bit word. *)
Lemma replace_word x v s : 0 ≤ s → uint 32 v →
  x + (v - wrap 32 (x / 2 ^ s)) * 2 ^ s = Z.lor (Z.ldiff x (Z.ones 32 * 2 ^ s)) (v * 2 ^ s).
Proof.
  intros Hs Hv.
  assert (x = Z.ldiff x (Z.ones 32 * 2 ^ s) + wrap 32 (x / 2 ^ s) * 2 ^ s) as E.
  { rewrite Z.add_nocarry_lxor; bitblast. }
  rewrite <- Z.lxor_lor, <- Z.add_nocarry_lxor; [|bitblast..]. rewrite E at 1. lia.
Qed.

Section Bits.
Context (nb start stop x : Z) (H1 : 0 ≤ start ≤ stop) (H2 : stop < nb) (Hx : uint nb x).

Lemma set_field_all_ones : set_field nb start stop x (2 ^ nb - 1) =
  Z.lor x (Z.ones (stop - start + 1) * 2 ^ (nb - 1 - stop)).
Proof using All. unfold set_field. rewrite ones_pred by lia. bitblast. Qed.

Lemma set_field_zeros : set_field nb start stop x 0 =
  Z.ldiff x (Z.ones (stop - start + 1) * 2 ^ (nb - 1 - stop)).
Proof using All. unfold set_field. rewrite wrap_0. bitblast. Qed.

(** Copying bit [stop] over the bits above it. *)
Lemma extend_ones : Z.testbit x (nb - 1 - stop) = true → start = 0 →
  Z.lor x (Z.ones (stop - start + 1) * 2 ^ (nb - 1 - stop)) = wrap nb (sint (nb - stop) (wrap (nb - stop) x)).
Proof using All.
  intros Hb ->. apply Z.bits_inj'. intros i Hi. rewrite testbit_wrap, testbit_sint by
    (apply uint_wrap || idtac; lia). rewrite !testbit_wrap by lia.
  replace (nb - stop - 1) with (nb - 1 - stop) by lia. rewrite Hb.
  destruct (Z.eq_dec i (nb - 1 - stop)) as [->|]; [rewrite Hb|]; bitblast_core.
Qed.

Lemma extend_zeros : Z.testbit x (nb - 1 - stop) = false → start = 0 →
  Z.ldiff x (Z.ones (stop - start + 1) * 2 ^ (nb - 1 - stop)) = wrap nb (sint (nb - stop) (wrap (nb - stop) x)).
Proof using All.
  intros Hb ->. apply Z.bits_inj'. intros i Hi. rewrite testbit_wrap, testbit_sint by
    (apply uint_wrap || idtac; lia). rewrite !testbit_wrap by lia.
  replace (nb - stop - 1) with (nb - 1 - stop) by lia. rewrite Hb.
  destruct (Z.eq_dec i (nb - 1 - stop)) as [->|]; [rewrite Hb|]; bitblast_core.
Qed.
End Bits.

(** ** One width *)

Section SameWidth.
Context (junk : Z) {Hj : byte junk} {nb : Z} {Hwf : wf nb}.
Local Abbreviation nw := (INTBV_WORDS nb).
Local Abbreviation sanitize := (_sanitize (BaseOps := intbv_ops junk nb) nb).
Implicit Types a b : intbv nb.

Lemma nb_words_wf : nb_words nw nb.
Proof using Hwf. apply INTBV_WORDS_spec. unfold wf in Hwf. lia. Qed.

Lemma nb_le_W : 0 < nb ≤ W nw.
Proof using Hwf. destruct nb_words_wf as [H1 H2]. unfold W in *. lia. Qed.

Lemma repr_iff a x : repr a x ↔ rep (ops := intbv_ops junk nb) a x ∧ uint nb x.
Proof using Type.
  unfold repr. split; intros [H1 H2]; (split; [|done]); [by apply rep_storage|].
  by apply rep_storage in H1.
Qed.

Lemma repr_rep a x : repr a x → rep (ops := intbv_ops junk nb) a x.
Proof using Type. by intros [H _]%repr_iff. Qed.

Lemma repr_uint a x : repr a x → uint nb x.
Proof using Type. by intros [_ H]. Qed.

Lemma repr_intro a x : rep (ops := intbv_ops junk nb) a x → uint nb x → repr a x.
Proof using Type. intros. by apply repr_iff. Qed.

Lemma repr_sanitize a x : rep (ops := intbv_ops junk nb) a x → repr (sanitize a) (wrap nb x).
Proof using Type.
  intros H. apply repr_intro; [apply rep_sanitize; [apply nb_words_wf|done]|].
  apply uint_wrap. pose proof nb_le_W. lia.
Qed.

Lemma repr_sanitize_W a x : rep (ops := intbv_ops junk nb) a (wrap (W nw) x) →
  repr (sanitize a) (wrap nb x).
Proof using Type.
  intros H%repr_sanitize. rewrite wrap_wrap_le in H; [done|]. pose proof nb_le_W. lia.
Qed.

Lemma repr_inj a b x : repr a x → repr b x → a = b.
Proof using Hj Hwf. intros Ha%repr_rep Hb%repr_rep. by eapply rep_inj. Qed.

Lemma repr_fun a x x' : repr a x → repr a x' → x = x'.
Proof using Hj Hwf. intros Ha%repr_rep Hb%repr_rep. by eapply rep_fun. Qed.

(** Fresh vectors. *)
Lemma repr_0 : repr (nb := nb) (_reset (BaseOps := intbv_ops junk nb)) 0.
Proof using Hj Hwf.
  apply repr_intro; [apply rep_reset|]. pose proof nb_le_W. unfold uint. pose proof (pow2_pos nb). lia.
Qed.
Lemma set_all_spec a : repr (set_all junk a) (2 ^ nb - 1).
Proof using Hj Hwf.
  replace (2 ^ nb - 1) with (wrap nb (2 ^ W nw - 1)).
  - apply repr_sanitize, rep_set.
  - pose proof nb_le_W. rewrite !ones_pred by lia. bitblast.
Qed.

(** *** Single bits *)

Lemma Unchecked_test_spec a x pos : repr a x → 0 ≤ pos < nb →
  _Unchecked_test junk a pos = Z.testbit x (nb - 1 - pos).
Proof using Hj Hwf.
  intros Ha%repr_rep Hp. unfold _Unchecked_test.
  erewrite rep_getword_at by (apply nb_words_wf || done). rewrite rep_maskwordbit by done.
  set (k := nb - 1 - pos). rewrite land_pow2_testbit by zlia.
  rewrite testbit_wrap, testbit_div by zlia.
  destruct (Z.ltb_spec (k mod 32) 32), (Z.leb_spec 0 (k mod 32)); try zlia. simpl. f_equal. zlia.
Qed.

Lemma get_bit_spec a x pos : repr a x → 0 ≤ pos → get_bit junk a pos =
  if pos <? nb then Ret (Z.testbit x (nb - 1 - pos)) else AssertFail.
Proof using Hj Hwf.
  intros Ha Hp. unfold get_bit. destruct (Z.ltb_spec pos nb); [|done].
  by erewrite Unchecked_test_spec.
Qed.

Lemma Unchecked_set_spec a x pos v : repr a x → 0 ≤ pos < nb →
  repr (_Unchecked_set junk a pos v)
    (if v =? 0 then Z.clearbit x (nb - 1 - pos) else Z.setbit x (nb - 1 - pos)).
Proof using Hj Hwf.
  intros Ha Hp. pose proof (repr_uint _ _ Ha) as Hx. apply repr_rep in Ha.
  unfold _Unchecked_set. erewrite rep_getword_at by (apply nb_words_wf || done).
  rewrite rep_maskwordbit by done. set (k := nb - 1 - pos).
  set (wd := wrap 32 (x / 2 ^ (32 * (k / 32)))).
  assert (uint 32 wd) as Hwd by by apply uint_wrap.
  pose proof (Z.div_mod k 32 ltac:(lia)) as Hk. pose proof (Z.mod_pos_bound k 32 ltac:(lia)).
  assert (0 ≤ k / 32) by (apply Z.div_pos; lia). assert (0 ≤ k < nb) by lia.
  set (w' := if v =? 0 then _ else _).
  assert (uint 32 w') as Hw'.
  { subst w'. destruct (v =? 0).
    - apply (scalar_and 32); [lia|done|]. by apply uint_wrap.
    - apply (scalar_or 32); [lia|done|]. split; [lia|]. apply Z.pow_lt_mono_r; lia. }
  apply repr_intro.
  - replace (if v =? 0 then Z.clearbit x k else Z.setbit x k) with
      (x + (w' - wd) * 2 ^ (32 * (k / 32))).
    + by apply rep_setword_at; [apply nb_words_wf|..].
    + subst wd. rewrite replace_word by (done || lia).
      subst w'. set (q := k / 32) in *. set (r := k mod 32) in *. clearbody q r. rewrite Hk.
      clearbody k. unfold Z.clearbit, Z.setbit, unot. rewrite !Z.shiftl_1_l.
      destruct (v =? 0); bitblast.
  - unfold Z.clearbit, Z.setbit. rewrite !Z.shiftl_1_l. destruct (v =? 0).
    + replace (Z.ldiff _ _) with (wrap nb (Z.ldiff x (2 ^ k))); [apply uint_wrap; lia|bitblast].
    + replace (Z.lor _ _) with (wrap nb (Z.lor x (2 ^ k))); [apply uint_wrap; lia|bitblast].
Qed.

(** *** Fields *)

Lemma field_index p : 0 ≤ p mod nb < nb.
Proof using Hwf. apply Z.mod_pos_bound. unfold wf in Hwf. lia. Qed.

Lemma set_range_spec a b x y start stop : repr a x → repr b y →
  if start mod nb <=? stop mod nb
  then returns (set_range junk a start stop b) (set_field nb (start mod nb) (stop mod nb) x y)
  else set_range junk a start stop b = AssertFail.
Proof using Hj Hwf.
  intros Ha Hb. pose proof (field_index start). pose proof (field_index stop).
  pose proof (repr_uint _ _ Ha) as Hx. unfold set_range.
  destruct (Z.leb_spec (start mod nb) (stop mod nb)).
  - edestruct (rep_setField (ops := intbv_ops junk nb) a b x y nb (start mod nb) (stop mod nb)) as (r & Hr & Hv);
      [apply nb_words_wf|by apply repr_rep..|lia|lia|].
    exists r. split; [exact Hr|]. apply repr_intro; [exact Hv|].
    apply set_field_uint; (done || lia).
  - apply setField_assert; lia.
Qed.

Lemma set_range_in a b x y start stop : repr a x → repr b y → 0 ≤ start ≤ stop → stop < nb →
  returns (set_range junk a start stop b) (set_field nb start stop x y).
Proof using Hj Hwf.
  intros Ha Hb H1 H2. pose proof (set_range_spec a b x y start stop Ha Hb) as H.
  rewrite !Z.mod_small in H by lia. destruct (Z.leb_spec start stop); [done|lia].
Qed.

Lemma get_field_uint start stop x : 0 ≤ start ≤ stop → stop < nb → uint nb (get_field nb start stop x).
Proof using Type.
  intros. apply (uint_mono (stop - start + 1)); [lia|]. apply uint_wrap. lia.
Qed.

Lemma get_range_spec a x start stop : repr a x →
  if start mod nb <=? stop mod nb
  then returns (get_range junk a start stop) (get_field nb (start mod nb) (stop mod nb) x)
  else get_range junk a start stop = AssertFail.
Proof using Hj Hwf.
  intros Ha. pose proof (field_index start). pose proof (field_index stop).
  unfold get_range. destruct (Z.leb_spec (start mod nb) (stop mod nb)).
  - edestruct (rep_getField (ops := intbv_ops junk nb) a x nb (start mod nb) (stop mod nb))
      as (r & -> & Hv); [apply nb_words_wf|by apply repr_rep|lia|lia|].
    eexists. split; [done|].
    rewrite <- (wrap_small nb (get_field _ _ _ _)) by (apply get_field_uint; lia).
    by apply repr_sanitize.
  - by rewrite getField_assert by lia.
Qed.

Lemma simple_mask_spec a x start stop : repr a x → 0 ≤ start ≤ stop → stop < nb →
  returns (simple_mask junk a start stop)
    (Z.lor x (Z.ones (stop - start + 1) * 2 ^ (nb - 1 - stop))).
Proof using Hj Hwf.
  intros Ha H1 H2. unfold simple_mask. destruct (Z.leb_spec start stop); [|lia].
  rewrite <- set_field_all_ones by (done || by eapply repr_uint).
  apply set_range_in; [done|apply set_all_spec|done..].
Qed.

Lemma simple_mask_inv_spec a x start stop : repr a x → 0 ≤ start ≤ stop → stop < nb →
  returns (simple_mask_inv junk a start stop)
    (Z.ldiff x (Z.ones (stop - start + 1) * 2 ^ (nb - 1 - stop))).
Proof using Hj Hwf.
  intros Ha H1 H2. unfold simple_mask_inv. destruct (Z.leb_spec start stop); [|lia].
  rewrite <- set_field_zeros by (done || by eapply repr_uint).
  apply set_range_in; [done|apply repr_0|done..].
Qed.

(** The low [nb - bit] bits, sign-extended. *)
Lemma signExtend_spec a x bit : repr a x → 0 ≤ bit < nb →
  returns (signExtend junk a bit) (wrap nb (sint (nb - bit) (wrap (nb - bit) x))).
Proof using Hj Hwf.
  intros Ha Hb. pose proof (repr_uint _ _ Ha) as Hx. unfold signExtend.
  destruct (Z.eqb_spec nb 1) as [E|E].
  - exists a. split; [done|]. replace bit with 0 by lia.
    rewrite Z.sub_0_r, sint_wrap, wrap_wrap, wrap_small by done. done.
  - erewrite get_bit_spec by (done || lia). destruct (Z.ltb_spec bit nb); [|lia]. cbn [obind].
    destruct (Z.testbit x (nb - 1 - bit)) eqn:Hbit.
    + rewrite <- (extend_ones nb 0 bit x) by (done || lia). apply simple_mask_spec; done || lia.
    + rewrite <- (extend_zeros nb 0 bit x) by (done || lia). apply simple_mask_inv_spec; done || lia.
Qed.

(** *** Integers *)

Lemma sint_of_wrap w v : 0 < w → - 2 ^ (w - 1) ≤ v < 2 ^ (w - 1) → sint w (wrap w v) = v.
Proof using Type.
  intros Hw Hv. assert (2 ^ w = 2 * 2 ^ (w - 1)) as E
    by (rewrite <- Z.pow_succ_r by lia; f_equal; lia).
  unfold sint, wrap. destruct (Z.ltb_spec v 0).
  - replace (v mod 2 ^ w) with (v + 2 ^ w); [|apply Z.mod_unique with (-1); lia].
    destruct (Z.ltb_spec (v + 2 ^ w) (2 ^ (w - 1))); lia.
  - rewrite Z.mod_small by lia. destruct (Z.ltb_spec v (2 ^ (w - 1))); lia.
Qed.

(** A vector built from the low [w] bits of [v] and then sign-extended. *)
Lemma extend_small a w v : 0 < w < nb → - 2 ^ (w - 1) ≤ v < 2 ^ (w - 1) →
  (∃ z, repr a z ∧ wrap w z = wrap w v) → returns (signExtend junk a (nb - w)) (wrap nb v).
Proof using Hj Hwf.
  intros Hw Hv (z & Ha & Hz). pose proof (signExtend_spec a z (nb - w) Ha ltac:(lia)) as H.
  replace (nb - (nb - w)) with w in H by lia. by rewrite Hz, sint_of_wrap in H by lia.
Qed.

Lemma of_uint32_spec v : uint 32 v → repr (of_uint32 junk nb v) (wrap nb v).
Proof using Hj Hwf. intros Hv. by apply repr_sanitize, rep_u32. Qed.
Lemma of_uint64_spec v : uint 64 v → repr (of_uint64 junk nb v) (wrap nb v).
Proof using Hj Hwf. intros Hv. by apply repr_sanitize_W, rep_u64. Qed.

Lemma of_int32_spec v : - 2 ^ 31 ≤ v < 2 ^ 31 → returns (of_int32 junk nb v) (wrap nb v).
Proof using Hj Hwf.
  intros Hv. unfold of_int32. pose proof nb_le_W as HW.
  assert (∃ z, repr (sanitize (of_i32 (BaseOps := intbv_ops junk nb) v)) (wrap nb z) ∧ wrap 32 z = wrap 32 v ∧
    (0 ≤ v → wrap nb z = wrap nb v)) as (z & Hz & Hlow & Hpos).
  { destruct (rep_i32 (ops := intbv_ops junk nb) v Hv) as [H|H].
    - exists (wrap 32 v). split; [by apply repr_sanitize|]. rewrite wrap_wrap. split; [done|].
      intros. by rewrite (wrap_small 32) by (unfold uint; lia).
    - exists v. by split; [apply repr_sanitize_W|]. }
  destruct (Z.ltb_spec v 0), (Z.ltb_spec 32 nb); cbn [andb].
  - apply extend_small; [lia|done|]. exists (wrap nb z). by rewrite wrap_wrap_le by lia.
  - eexists. split; [done|]. by rewrite <- (wrap_wrap_le nb 32), <- Hlow, wrap_wrap_le by lia.
  - eexists. split; [done|]. by rewrite <- Hpos.
  - eexists. split; [done|]. by rewrite <- Hpos.
Qed.

Lemma of_long_long_spec v : - 2 ^ 63 ≤ v < 2 ^ 63 →
  repr (of_long_long junk nb v) (wrap nb (wrap 64 v)).
Proof using Hj Hwf. intros Hv. by apply repr_sanitize_W, rep_i64. Qed.

Lemma of_int64_spec v : - 2 ^ 63 ≤ v < 2 ^ 63 → returns (of_int64 junk nb v) (wrap nb v).
Proof using Hj Hwf.
  intros Hv. unfold of_int64. pose proof (of_long_long_spec v Hv) as H. unfold of_long_long in H.
  destruct (Z.ltb_spec v 0), (Z.ltb_spec 64 nb); cbn [andb].
  - apply extend_small; [lia|done|]. eexists. split; [exact H|].
    by rewrite wrap_wrap_le, wrap_wrap by lia.
  - eexists. split; [done|]. pose proof nb_le_W. rewrite wrap_wrap_le in H by lia. done.
  - eexists. split; [done|]. by rewrite (wrap_small 64 v) in H by (unfold uint; lia).
  - eexists. split; [done|]. by rewrite (wrap_small 64 v) in H by (unfold uint; lia).
Qed.
End SameWidth.
