(* ===== verification/IntbvCorrect.v ===== *)
(** * Bit vector arithmetic, shifts and conversions are right

    The operations of [Intbv] on vectors of one width and of mixed widths,
    related to the integers by [repr].  The theorems at the end collect them. *)
From stdpp Require Import prelude strings.
From Stdlib Require Import ZArith Lia.
From S2P Require Import Prelude.
From S2P Require Import BitTwiddles.
From S2P Require Import WordArith.
From S2P Require Import WordDivide.
From S2P Require Import IntbvBase.
From S2P Require Import IntbvLaws.
From S2P Require Import IntbvArray.
From S2P Require Import Intbv.
From S2P Require Import IntbvSpec.

Local Open Scope Z_scope.

(** ** One width *)

Section SameWidth.
Context (junk : Z) {Hj : byte junk} {nb : Z} {Hwf : wf nb}.
Local Abbreviation nw := (INTBV_WORDS nb).
Implicit Types a b : intbv nb.

Lemma minus_assign_spec a b x y : repr a x → repr b y → repr (minus_assign junk a b) (wrap nb (x - y)).
Proof using Hj Hwf.
  intros Ha Hb. apply (repr_sanitize_W junk), rep_subtract; by apply (repr_rep junk).
Qed.
Lemma plus_assign_spec a b x y : repr a x → repr b y → repr (plus_assign junk a b) (wrap nb (x + y)).
Proof using Hj Hwf.
  intros Ha Hb. apply (repr_sanitize_W junk), rep_add; by apply (repr_rep junk).
Qed.
Lemma times_assign_spec a b x y : repr a x → repr b y → repr (times_assign junk a b) (wrap nb (x * y)).
Proof using Hj Hwf.
  intros Ha Hb. apply (repr_sanitize_W junk), rep_multiply; by apply (repr_rep junk).
Qed.
Lemma signedMultiplyEqual_spec a b x y : repr a x → repr b y →
  repr (signedMultiplyEqual junk a b) (wrap nb (x * y)).
Proof using Hj Hwf.
  intros Ha Hb. apply (repr_sanitize_W junk), rep_multiplySigned; by apply (repr_rep junk).
Qed.
(** Only the low 32 bits of the multiplier are used. *)
Lemma signedMultiplyEqual_u64_spec a x v : repr a x →
  repr (signedMultiplyEqual_u64 junk a v) (wrap nb (x * wrap 32 v)).
Proof using Hj Hwf.
  intros Ha. apply (repr_sanitize_W junk), rep_multiplySigned_u32; [by apply (repr_rep junk)|].
  by apply uint_wrap.
Qed.
Lemma negate_spec a x : repr a x → repr (negate junk a) (wrap nb (- x)).
Proof using Hj Hwf. intros Ha. by apply (repr_sanitize_W junk), rep_negate, (repr_rep junk). Qed.
Lemma invert_spec a x : repr a x → repr (invert junk a) (2 ^ nb - 1 - x).
Proof using Hj Hwf.
  intros Ha. pose proof (repr_uint _ _ Ha) as Hx. pose proof (nb_le_W (nb := nb)) as HW.
  replace (2 ^ nb - 1 - x) with (wrap nb (2 ^ W nw - 1 - x)); [by apply (repr_sanitize junk), rep_invert, (repr_rep junk)|].
  rewrite <- !unot_val by (lia || done || apply (uint_mono nb); done || lia). unfold unot. bitblast.
Qed.

Lemma divide_assign_spec a b x y : repr a x → repr b y → y ≠ 0 → div_dom nw x y →
  returns (divide_assign junk a b) (x / y).
Proof using Hj Hwf.
  intros Ha Hb Hy Hdom. pose proof (repr_uint _ _ Ha) as Hx. pose proof (repr_uint _ _ Hb) as Hyu.
  pose proof (nb_le_W (nb := nb)) as HW. unfold divide_assign.
  edestruct (rep_divide (ops := intbv_ops junk nb) a b x y) as (q & -> & Hq);
    [by apply (repr_rep junk)..|done|done|]. eexists. split; [done|].
  rewrite <- (wrap_small nb (x / y)); [by apply (repr_sanitize junk)|].
  apply scalar_quotient; done || lia.
Qed.

(** A zero divisor: a zero dividend of three or more words is returned before
    the divisor is looked at. *)
Lemma divide_assign_zero a b x : repr a x → repr b 0 → x ≠ 0 ∨ (nw ≤ 2)%nat →
  ∃ e, divide_assign junk a b = Throw e ∧ mod_assign junk a b = Throw e.
Proof using Hj Hwf.
  intros Ha Hb Hx. unfold mod_assign, divide_assign.
  destruct (rep_divide_by_zero (ops := intbv_ops junk nb) a b x) as [e ->];
    [by apply (repr_rep junk)..|done|]. by exists e.
Qed.
Lemma divide_assign_zero_zero a b : (3 ≤ nw)%nat → repr a 0 → repr b 0 →
  returns (divide_assign junk a b) 0 ∧ returns (mod_assign junk a b) 0.
Proof using Hj Hwf.
  intros Hn Ha Hb. unfold mod_assign, divide_assign.
  destruct (rep_divide_zero (ops := intbv_ops junk nb) a b) as (q & -> & Hq);
    [done|by apply (repr_rep junk)..|]. cbn [obind].
  assert (repr (_sanitize (BaseOps := intbv_ops junk nb) nb q) 0) as Hs
    by apply (repr_sanitize_W junk q 0 Hq).
  split; (eexists; split; [done|]); [done|].
  assert (repr (minus_assign junk a (times_assign junk (_sanitize (BaseOps := intbv_ops junk nb) nb q) b))
            (wrap nb (0 - wrap nb (0 * 0)))) as Hm
    by (apply minus_assign_spec; [done|by apply times_assign_spec]).
  apply (repr_rep junk) in Hm. apply (repr_sanitize junk _ _ Hm).
Qed.
(** Past the divider's buffers. *)
Lemma divide_assign_undefined a b x y : repr a x → repr b y → y ≠ 0 → ~ div_dom nw x y →
  divide_assign junk a b = Undefined ∧ mod_assign junk a b = Undefined.
Proof using Hj Hwf.
  intros Ha Hb Hy Hdom. unfold mod_assign, divide_assign.
  rewrite (rep_divide_undefined (ops := intbv_ops junk nb) a b x y) by (done || by apply (repr_rep junk)).
  done.
Qed.

Lemma mod_assign_spec a b x y : repr a x → repr b y → y ≠ 0 → div_dom nw x y →
  returns (mod_assign junk a b) (x mod y).
Proof using Hj Hwf.
  intros Ha Hb Hy Hdom. pose proof (repr_uint _ _ Ha) as Hx. pose proof (repr_uint _ _ Hb) as Hyu.
  destruct (divide_assign_spec a b x y) as (q & Eq & Hq); [done..|].
  unfold mod_assign. rewrite Eq. cbn [obind]. eexists. split; [done|].
  assert (uint nb (x mod y)) as Hm.
  { unfold uint in *. pose proof (Z.mod_pos_bound x y ltac:(lia)). lia. }
  rewrite <- (wrap_small nb (x mod y)) by done.
  replace (x mod y) with (wrap nb (x - wrap nb (x / y * y))).
  - apply (repr_sanitize junk), (repr_rep junk). apply minus_assign_spec; [done|by apply times_assign_spec].
  - rewrite wrap_sub_r. rewrite <- (wrap_small nb (x mod y)) by done. f_equal.
    rewrite Z.mod_eq by done. lia.
Qed.

Lemma and_assign_spec a b x y : repr a x → repr b y → repr (and_assign junk a b) (Z.land x y).
Proof using Hj Hwf.
  intros Ha Hb. pose proof (nb_le_W (nb := nb)). apply (repr_intro junk); [by apply rep_and; apply (repr_rep junk)|].
  apply scalar_and; [lia|by eapply repr_uint..].
Qed.
Lemma or_assign_spec a b x y : repr a x → repr b y → repr (or_assign junk a b) (Z.lor x y).
Proof using Hj Hwf.
  intros Ha Hb. pose proof (nb_le_W (nb := nb)). apply (repr_intro junk); [by apply rep_or; apply (repr_rep junk)|].
  apply scalar_or; [lia|by eapply repr_uint..].
Qed.
Lemma xor_assign_spec a b x y : repr a x → repr b y → repr (xor_assign junk a b) (Z.lxor x y).
Proof using Hj Hwf.
  intros Ha Hb. pose proof (nb_le_W (nb := nb)). apply (repr_intro junk); [by apply rep_xor; apply (repr_rep junk)|].
  apply scalar_xor; [lia|by eapply repr_uint..].
Qed.

(** *** Shifts *)

Lemma shift_left_assign_spec a x p : repr a x → 0 ≤ p →
  repr (shift_left_assign junk a p) (wrap nb (x * 2 ^ p)).
Proof using Hj Hwf.
  intros Ha Hp. pose proof (nb_le_W (nb := nb)). unfold shift_left_assign.
  destruct (Z.ltb_spec p nb).
  - apply (repr_sanitize_W junk), rep_left_shift; [by apply (repr_rep junk)|lia].
  - replace (wrap nb (x * 2 ^ p)) with 0; [apply (repr_0 junk)|]. bitblast.
Qed.

Lemma shift_right_assign_spec a x p : repr a x → 0 ≤ p →
  repr (shift_right_assign junk a p) (x / 2 ^ p).
Proof using Hj Hwf.
  intros Ha Hp. pose proof (nb_le_W (nb := nb)). pose proof (repr_uint _ _ Ha) as Hx.
  unfold shift_right_assign. destruct (Z.ltb_spec p nb).
  - rewrite <- (wrap_small nb (x / 2 ^ p)) by (apply scalar_div_pow2; done || lia).
    apply (repr_sanitize junk), rep_right_shift; [by apply (repr_rep junk)|lia].
  - replace (x / 2 ^ p) with 0; [apply (repr_0 junk)|]. bitblast.
Qed.

(** An arithmetic shift: floor division of the signed value. *)
Lemma signedRightShiftEqual_spec a x p : repr a x → 0 ≤ p →
  returns (signedRightShiftEqual junk a p) (wrap nb (sint nb x / 2 ^ p)).
Proof using Hj Hwf.
  intros Ha Hp. pose proof (nb_le_W (nb := nb)) as HW. pose proof (repr_uint _ _ Ha) as Hx.
  pose proof (shift_right_assign_spec a x p Ha Hp) as Hs. unfold signedRightShiftEqual.
  destruct (Z.ltb_spec p nb).
  - pose proof (signExtend_spec junk _ _ p Hs ltac:(lia)) as He.
    replace (wrap nb (sint nb x / 2 ^ p)) with
      (wrap nb (sint (nb - p) (wrap (nb - p) (x / 2 ^ p)))); [done|].
    apply Z.bits_inj'. intros i Hi. rewrite !testbit_wrap, testbit_div by lia.
    rewrite !testbit_sint by (done || lia || apply uint_wrap; lia).
    rewrite !testbit_wrap, !testbit_div by lia. bitblast_core.
  - eexists. split; [done|]. rewrite (Unchecked_test_spec junk a x 0) by (done || lia).
    replace (nb - 1 - 0) with (nb - 1) by lia.
    replace (x / 2 ^ p) with 0 in Hs by bitblast.
    destruct (Z.testbit x (nb - 1)) eqn:Hm.
    + replace (wrap nb (sint nb x / 2 ^ p)) with (2 ^ nb - 1 - 0); [by apply (invert_spec)|].
      rewrite Z.sub_0_r, ones_pred by lia. apply Z.bits_inj'. intros i Hi.
      rewrite testbit_wrap, testbit_div, testbit_sint, Hm by (done || lia). bitblast_core.
    + replace (wrap nb (sint nb x / 2 ^ p)) with 0; [done|]. apply Z.bits_inj'. intros i Hi.
      rewrite testbit_wrap, testbit_div, testbit_sint, Hm by (done || lia). bitblast_core.
Qed.

(** *** Rotations *)

Definition rotl (n x p : Z) : Z := Z.lor (wrap n (x * 2 ^ p)) (x / 2 ^ (n - p)).

Lemma rotl_0 x : uint nb x → rotl nb x 0 = x.
Proof using Hwf.
  intros Hx. unfold rotl. rewrite Z.mul_1_r, Z.sub_0_r, wrap_small by done.
  unfold uint in Hx. by rewrite Z.div_small, Z.lor_0_r.
Qed.

Lemma left_rotate_spec a x p : repr a x → repr (left_rotate junk a p) (rotl nb x (p mod nb)).
Proof using Hj Hwf.
  intros Ha. pose proof (nb_le_W (nb := nb)) as HW. pose proof (repr_uint _ _ Ha) as Hx.
  pose proof (field_index (nb := nb) p) as Hp. unfold left_rotate. set (q := p mod nb) in *.
  destruct (Z.eqb_spec q 0) as [->|Hq]; cbn [negb andb].
  - rewrite rotl_0 by done. rewrite <- (wrap_small nb x) by done.
    by apply (repr_sanitize junk), (repr_rep junk).
  - destruct (Z.eqb_spec q nb); [lia|]. cbn [negb].
    replace (rotl nb x q) with (wrap nb (Z.lor (wrap (W nw) (x * 2 ^ q)) (x / 2 ^ (nb - q)))).
    + apply (repr_sanitize junk), rep_left_rotate; [by apply (repr_rep junk)|lia|lia].
    + unfold rotl. clearbody q. bitblast.
Qed.

Lemma right_rotate_spec a x p : repr a x →
  repr (right_rotate junk a p) (rotl nb x ((nb - p mod nb) mod nb)).
Proof using Hj Hwf.
  intros Ha. pose proof (nb_le_W (nb := nb)) as HW. pose proof (repr_uint _ _ Ha) as Hx.
  pose proof (field_index (nb := nb) p) as Hp. unfold right_rotate. set (q := p mod nb) in *.
  destruct (Z.eqb_spec q 0) as [->|Hq]; cbn [negb andb].
  - rewrite Z.sub_0_r, Z.mod_same, rotl_0 by (done || lia). rewrite <- (wrap_small nb x) by done.
    by apply (repr_sanitize junk), (repr_rep junk).
  - destruct (Z.eqb_spec q nb); [lia|]. cbn [negb]. rewrite Z.mod_small by lia.
    replace (rotl nb x (nb - q)) with
      (wrap nb (Z.lor (x / 2 ^ q) (wrap (W nw) (x * 2 ^ (nb - q))))).
    + apply (repr_sanitize junk), rep_right_rotate; [by apply (repr_rep junk)|lia|lia].
    + unfold rotl. clearbody q. bitblast.
Qed.

(** *** Swaps *)

Lemma reversed_uint x : uint (W nw) (beval 8 (rdigits 8 (4 * nw) x)).
Proof using Type.
  pose proof (beval_bound 8 ltac:(lia) _ (digits_rdigits 8 (4 * nw) x ltac:(lia))) as H.
  rewrite length_rdigits in H. unfold W. by replace (32 * Z.of_nat nw) with (8 * Z.of_nat (4 * nw)) by lia.
Qed.

(** On whole bytes, the right shift leaves the reversed bytes of the vector. *)
Lemma reverse_bytes_fit x : nb mod 8 = 0 →
  beval 8 (rdigits 8 (4 * nw) x) / 2 ^ (W nw - nb) = beval 8 (rdigits 8 (Z.to_nat (nb / 8)) x).
Proof using Hwf.
  intros H8. pose proof (nb_le_W (nb := nb)) as HW. pose proof (reversed_uint x) as HV.
  pose proof (beval_bound 8 ltac:(lia) _ (digits_rdigits 8 (Z.to_nat (nb / 8)) x ltac:(lia))) as HU.
  rewrite length_rdigits in HU. replace (8 * Z.of_nat (Z.to_nat (nb / 8))) with nb in HU by zlia.
  apply Z.bits_inj'. intros i Hi. rewrite testbit_div by lia.
  destruct (Z.leb_spec 0 i); [cbn [andb]|lia]. destruct (Z.lt_ge_cases i nb).
  - unfold W in *. rewrite !testbit_rdigits by zlia. f_equal. zlia.
  - rewrite (testbit_high (W nw)) by (done || lia). symmetry. apply (testbit_high nb); done || lia.
Qed.

Lemma swap_bytes_spec a x : repr a x →
  repr (swap_bytes junk a) (beval 8 (rdigits 8 (4 * nw) x) / 2 ^ (W nw - nb)).
Proof using Hj Hwf.
  intros Ha. pose proof (nb_le_W (nb := nb)) as HW. destruct (nb_words_wf (nb := nb)) as [_ Hnb].
  pose proof (reversed_uint x) as HV. apply (repr_intro junk).
  - unfold swap_bytes. destruct (mod_nb nw nb (nb_words_wf)) as [[E ->]|[_ Hm]]; cbn [Z.eqb negb].
    + replace (W nw - nb) with 0 by lia. rewrite Z.div_1_r.
      by apply (rep_swap_bytes (ops := intbv_ops junk nb)), (repr_rep junk).
    + destruct (Z.eqb_spec (nb mod 32) 0); [lia|]. cbn [negb].
      apply rep_right_shift; [by apply rep_swap_bytes, (repr_rep junk)|unfold W in *; lia].
  - unfold uint in *. split; [apply Z.div_pos; lia|]. apply Z.div_lt_upper_bound; [lia|].
    rewrite <- Z.pow_add_r by lia. replace (W nw - nb + nb) with (W nw) by lia. lia.
Qed.

(** The words of a vector of more than one word, in reverse order and
    right-justified.  Within a single word there is nothing to swap, but the
    vector is still shifted. *)
Lemma swap_words_spec a x : repr a x →
  rep (ops := intbv_ops junk nb) (swap_words junk a)
    (if (nw =? 1)%nat then x / 2 ^ (W nw - nb)
     else beval 32 (rdigits 32 (nw - 1) x) * 2 ^ (nb - (W nw - 32)) + x / 2 ^ (W nw - 32)).
Proof using Hj Hwf.
  intros Ha. pose proof (nb_le_W (nb := nb)) as HW. pose proof (repr_uint _ _ Ha) as Hx.
  destruct (nb_words_wf (nb := nb)) as [H1 Hnb]. unfold swap_words.
  assert ((if negb (nb mod 32 =? 0) then 32 * Z.of_nat nw - nb else 0) = W nw - nb) as ->.
  { destruct (mod_nb nw nb (nb_words_wf)) as [[E ->]|[_ Hm]]; cbn [Z.eqb negb]; [lia|].
    destruct (Z.eqb_spec (nb mod 32) 0); [lia|]. done. }
  destruct (rep_swap_words (ops := intbv_ops junk nb) a x (W nw - nb)) as (z & Hz & Hv);
    [by apply (repr_rep junk)|lia|by replace (W nw - (W nw - nb)) with nb by lia|].
  replace (if (nw =? 1)%nat then _ else _) with (z / 2 ^ (W nw - nb)).
  - destruct (Z.eqb_spec (W nw - nb) 0) as [E|]; cbn [negb].
    + rewrite E in *. by rewrite Z.div_1_r.
    + apply rep_right_shift; [done|lia].
  - destruct Hv as [[E ->]|[H2 Hv]]; [by rewrite E|].
    destruct (Nat.eqb_spec nw 1); [lia|]. rewrite Hv.
    by replace (nb - (W nw - 32)) with (32 - (W nw - nb)) by lia.
Qed.

(** *** Queries *)

Lemma compare_spec a b x y : repr a x → repr b y →
  eq junk a b = (x =? y) ∧ ne junk a b = negb (x =? y) ∧
  lt junk a b = (x <? y) ∧ le junk a b = (x <=? y) ∧
  gt junk a b = (y <? x) ∧ ge junk a b = (y <=? x).
Proof using Hj Hwf.
  intros Ha Hb. apply (repr_iff junk) in Ha as [Ha _]. apply (repr_iff junk) in Hb as [Hb _].
  unfold eq, ne, lt, le, gt, ge. split_and!.
  - by apply rep_is_equal.
  - f_equal. by apply rep_is_equal.
  - by apply rep_less_than.
  - by apply rep_less_than_equal.
  - by apply rep_greater_than.
  - by apply rep_greater_than_equal.
Qed.

Lemma signed_compare_spec a b x y : repr a x → repr b y →
  signedLT junk a b = (sint nb x <? sint nb y) ∧ signedLE junk a b = (sint nb x <=? sint nb y) ∧
  signedGT junk a b = (sint nb y <? sint nb x) ∧ signedGE junk a b = (sint nb y <=? sint nb x).
Proof using Hj Hwf.
  intros Ha Hb. pose proof (repr_uint _ _ Ha) as Hx. pose proof (repr_uint _ _ Hb) as Hy.
  apply (repr_iff junk) in Ha as [Ha _]. apply (repr_iff junk) in Hb as [Hb _].
  pose proof (nb_words_wf (nb := nb)).
  unfold signedLT, signedLE, signedGT, signedGE. split_and!.
  - by apply rep_signed_less_than.
  - by apply rep_signed_less_than_equal.
  - by apply rep_signed_greater_than.
  - by apply rep_signed_greater_than_equal.
Qed.

Lemma count_spec a x : repr a x →
  count_ones junk a = builtin_popcount (32 * nw) x ∧
  count_leading_zeros junk a = leading_zeros nb x ∧
  any junk a = negb (x =? 0) ∧ none junk a = (x =? 0).
Proof using Hj Hwf.
  intros Ha. pose proof (repr_uint _ _ Ha) as Hx. apply (repr_iff junk) in Ha as [Ha _].
  unfold count_ones, count_leading_zeros, any, none. split_and!.
  - by apply rep_count_ones.
  - apply rep_count_leading_zeros; [apply nb_words_wf|done..].
  - by apply rep_is_any.
  - erewrite rep_is_any by done. apply negb_involutive.
Qed.

Lemma uint32_spec a x : repr a x → uint32 junk a = wrap 32 x.
Proof using Hj Hwf. intros [Ha _]%(repr_iff junk). by apply rep_to_ulong. Qed.
Lemma uint64_spec a x : repr a x → uint64 junk a = wrap 64 x.
Proof using Hj Hwf. intros [Ha _]%(repr_iff junk). by apply rep_to_ulonglong. Qed.
End SameWidth.

(** ** Several widths *)

Section Widths.
Context (junk : Z) {Hj : byte junk}.

Lemma getword_repr {nb} `{wf nb} (a : intbv nb) x i : repr a x → (i < INTBV_WORDS nb)%nat →
  _getword (BaseOps := intbv_ops junk nb) a i = word_of (INTBV_WORDS nb) x i.
Proof using Hj. intros [Ha _]%(repr_iff junk) Hi. by apply rep_getword. Qed.

Lemma repr_uint_W {nb} `{wf nb} (a : intbv nb) x : repr a x → uint (W (INTBV_WORDS nb)) x.
Proof using Hj. intros [Ha _]%(repr_iff junk). by eapply rep_uint. Qed.

Lemma copy_spec {nb nb2} `{wf nb} `{wf nb2} (a : intbv nb2) x :
  repr a x → repr (copy junk (nb := nb) a) (wrap nb x).
Proof using Hj.
  intros Ha. unfold copy. destruct (Z.ltb_spec nb2 nb).
  - apply (repr_sanitize junk). apply rep_from_smaller.
    + destruct (INTBV_WORDS_max nb2); [done|]. split; [done|]. apply INTBV_WORDS_mono. lia.
    + by eapply repr_uint_W.
    + intros i Hi. by apply getword_repr.
  - apply (repr_sanitize_W junk). apply rep_from_larger.
    + apply INTBV_WORDS_mono. lia.
    + by eapply repr_uint_W.
    + intros i Hi. by apply getword_repr.
Qed.

(** [operator=] from a wider vector copies whole words. *)
Lemma assign_spec {nb nb2} `{wf nb} `{wf nb2} (this : intbv nb) (a : intbv nb2) x : repr a x →
  rep (ops := intbv_ops junk nb) (assign junk this a)
    (if nb2 <? nb then x else wrap (W (INTBV_WORDS nb)) x).
Proof using Hj.
  intros Ha. unfold assign. destruct (Z.ltb_spec nb2 nb).
  - pose proof (copy_spec (nb := nb) a x Ha) as Hc. unfold copy in Hc.
    destruct (Z.ltb_spec nb2 nb); [|lia]. pose proof (repr_uint _ _ Ha) as Hx.
    rewrite wrap_small in Hc; [by apply (repr_rep junk)|]. apply (uint_mono nb2); [|done].
    unfold wf in *. lia.
  - apply rep_from_larger; [apply INTBV_WORDS_mono; lia|by eapply repr_uint_W|].
    intros i Hi. by apply getword_repr.
Qed.

Lemma assign_sanitize {nb nb2} `{wf nb} `{wf nb2} (this : intbv nb) (a : intbv nb2) x : repr a x →
  repr (_sanitize (BaseOps := intbv_ops junk nb) nb (assign junk this a)) (wrap nb x).
Proof using Hj.
  intros Ha. pose proof (assign_spec this a x Ha) as H1. destruct (nb2 <? nb).
  - by apply (repr_sanitize junk).
  - by apply (repr_sanitize_W junk).
Qed.

Lemma copy_same {nb nb2} `{wf nb} `{wf nb2} (a : intbv nb2) x : nb2 ≤ nb →
  repr a x → repr (copy junk (nb := nb) a) x.
Proof using Hj.
  intros Hle Ha. pose proof (copy_spec (nb := nb) a x Ha) as Hc. pose proof (repr_uint _ _ Ha) as Hx.
  rewrite wrap_small in Hc; [done|]. apply (uint_mono nb2); [unfold wf in *; lia|done].
Qed.

Lemma set_range_diff_in {nb nb2} `{wf nb} `{wf nb2} (a : intbv nb) (b : intbv nb2) x y start stop :
  repr a x → repr b y → 0 ≤ start ≤ stop → stop < nb →
  returns (set_range_diff junk a start stop b) (set_field nb start stop x (wrap nb y)).
Proof using Hj.
  intros Ha Hb H1 H2. apply (set_range_in junk); [done|by apply copy_spec|done..].
Qed.

Lemma get_range_as_spec {nb} nb2 `{wf nb} `{wf nb2} (a : intbv nb) x start stop :
  repr a x → 0 ≤ start ≤ stop → stop < nb →
  returns (get_range_as junk nb2 a start stop) (wrap nb2 (get_field nb start stop x)).
Proof using Hj.
  intros Ha H1 H2. unfold get_range_as. rewrite !Z.mod_small by lia.
  destruct (rep_getField (ops := intbv_ops junk nb) a x nb start stop) as (r & -> & Hr);
    [apply nb_words_wf|by apply (repr_rep junk)|done|done|].
  eexists. split; [done|]. apply copy_spec. apply (repr_intro junk); [done|].
  by apply get_field_uint.
Qed.

Lemma signExtend_to_spec {nb} nb2 `{wf nb} `{wf nb2} (a : intbv nb) x : repr a x →
  returns (signExtend_to junk nb2 a) (wrap nb2 (sint nb x)).
Proof using Hj.
  intros Ha. pose proof (repr_uint _ _ Ha) as Hx. pose proof (copy_spec (nb := nb2) a x Ha) as Hc.
  assert (0 < nb ∧ 0 < nb2) as [Hn Hn2] by (unfold wf in *; lia).
  unfold signExtend_to. destruct (Z.ltb_spec nb nb2).
  - rewrite wrap_small in Hc by (apply (uint_mono nb); [lia|done]).
    rewrite (get_bit_spec junk a x 0) by (done || lia).
    destruct (Z.ltb_spec 0 nb); [|lia]. cbn [obind].
    pose proof (testbit_msb nb x Hn Hx) as Hm. replace (nb - 1 - 0) with (nb - 1) by lia.
    assert (wrap nb2 (sint nb x) = wrap nb2 (sint (nb2 - (nb2 - nb)) (wrap (nb2 - (nb2 - nb)) x))) as E.
    { replace (nb2 - (nb2 - nb)) with nb by lia. by rewrite (wrap_small nb x). }
    destruct (Z.testbit x (nb - 1)) eqn:Hbit.
    + rewrite E, <- (extend_ones nb2 0 (nb2 - nb) x);
        [apply (simple_mask_spec junk); done || lia|lia|lia|apply (uint_mono nb); done || lia| |done].
      by replace (nb2 - 1 - (nb2 - nb)) with (nb - 1) by lia.
    + eexists. split; [done|]. unfold sint. destruct (Z.leb_spec (2 ^ (nb - 1)) x); [done|].
      destruct (Z.ltb_spec x (2 ^ (nb - 1))); [|lia]. rewrite wrap_small; [done|].
      apply (uint_mono nb); [lia|done].
  - eexists. split; [done|]. rewrite <- (wrap_wrap_le nb2 nb), sint_wrap, wrap_wrap_le by lia. done.
Qed.

Lemma int32_spec {nb} `{wf nb} (a : intbv nb) x : repr a x →
  int32 junk a = Ret (if 1 <? nb then sint 32 (wrap 32 (sint nb x)) else x).
Proof using Hj.
  intros Ha. unfold int32. destruct (Z.ltb_spec 1 nb).
  - destruct (signExtend_to_spec 32 a x Ha) as (r & -> & Hr). cbn [obind].
    by rewrite (uint32_spec junk r _ Hr), wrap_wrap.
  - rewrite (uint32_spec junk a _ Ha). pose proof (repr_uint _ _ Ha) as Hx. unfold wf in *.
    replace nb with 1 in * by lia. rewrite wrap_small by (apply (uint_mono 1); done || lia).
    unfold sint, uint in *. destruct (Z.ltb_spec x (2 ^ (32 - 1))); [done|lia].
Qed.
Lemma int64_spec {nb} `{wf nb} (a : intbv nb) x : repr a x →
  int64 junk a = Ret (if 1 <? nb then sint 64 (wrap 64 (sint nb x)) else x).
Proof using Hj.
  intros Ha. unfold int64. destruct (Z.ltb_spec 1 nb).
  - destruct (signExtend_to_spec 64 a x Ha) as (r & -> & Hr). cbn [obind].
    by rewrite (uint64_spec junk r _ Hr), wrap_wrap.
  - rewrite (uint64_spec junk a _ Ha). pose proof (repr_uint _ _ Ha) as Hx. unfold wf in *.
    replace nb with 1 in * by lia. rewrite wrap_small by (apply (uint_mono 1); done || lia).
    unfold sint, uint in *. destruct (Z.ltb_spec x (2 ^ (64 - 1))); [done|lia].
Qed.

(** *** Operators between widths *)

Section Diff.
Context {nb nb2 : Z} {Hwf : wf nb} {Hwf2 : wf nb2}.
Context (a : intbv nb) (b : intbv nb2) (x y : Z) (Ha : repr a x) (Hb : repr b y).
Local Abbreviation n := (Z.max nb nb2).

Lemma copy_l : repr (copy junk (nb := n) a) x.
Proof using All. apply copy_same; [lia|done]. Qed.
Lemma copy_r : repr (copy junk (nb := n) b) y.
Proof using All. apply copy_same; [lia|done]. Qed.

Lemma arith_diff_spec :
  repr (plus_diff junk a b) (wrap n (x + y)) ∧ repr (minus_diff junk a b) (wrap n (x - y)) ∧
  repr (times_diff junk a b) (wrap n (x * y)).
Proof using All.
  split_and!; [apply (plus_assign_spec junk)|apply (minus_assign_spec junk)|apply (times_assign_spec junk)];
    apply copy_l || apply copy_r.
Qed.
Lemma bitwise_diff_spec :
  repr (and_diff junk a b) (Z.land x y) ∧ repr (or_diff junk a b) (Z.lor x y) ∧
  repr (xor_diff junk a b) (Z.lxor x y).
Proof using All.
  split_and!; [apply (and_assign_spec junk)|apply (or_assign_spec junk)|apply (xor_assign_spec junk)];
    apply copy_l || apply copy_r.
Qed.
Lemma divide_diff_spec : y ≠ 0 → div_dom (INTBV_WORDS n) x y →
  returns (divide_diff junk a b) (x / y) ∧ returns (mod_diff junk a b) (x mod y).
Proof using All.
  intros. split; [apply (divide_assign_spec junk)|apply (mod_assign_spec junk)]; done || apply copy_l || apply copy_r.
Qed.
Lemma divide_assign_diff_spec : y ≠ 0 → div_dom (INTBV_WORDS n) x y →
  returns (divide_assign_diff junk a b) (x / y) ∧
  returns (mod_assign_diff junk a b) (x mod y).
Proof using All.
  intros Hy Hd. destruct (divide_diff_spec Hy Hd) as [(q & Eq & Hq) (r & Er & Hr)].
  pose proof (repr_uint _ _ Ha) as Hx. pose proof (repr_uint _ _ Hb) as Hyu.
  unfold divide_assign_diff, mod_assign_diff. rewrite Eq, Er. cbn [obind].
  split; (eexists; split; [done|]).
  - rewrite <- (wrap_small nb (x / y)); [by apply assign_sanitize|].
    unfold uint in *. assert (x / y ≤ x) by (apply Z.div_le_upper_bound; nia).
    split; [apply Z.div_pos; lia|lia].
  - rewrite <- (wrap_small nb (x mod y)); [by apply assign_sanitize|].
    unfold uint in *. pose proof (Z.mod_pos_bound x y ltac:(lia)).
    assert (x mod y ≤ x) by (apply Z.mod_le; lia). lia.
Qed.
Lemma compare_diff_spec :
  eq_diff junk a b = (x =? y) ∧ ne_diff junk a b = negb (x =? y) ∧
  lt_diff junk a b = (x <? y) ∧ le_diff junk a b = (x <=? y) ∧
  gt_diff junk a b = (y <? x) ∧ ge_diff junk a b = (y <=? x).
Proof using All. apply (compare_spec junk); [apply copy_l|apply copy_r]. Qed.
End Diff.

Lemma signed_widen_spec {nb nb2} `{wf nb} `{wf nb2} (a : intbv nb) x : repr a x → nb ≤ nb2 →
  returns (signed_widen junk nb2 a) (wrap nb2 (sint nb x)).
Proof using Hj.
  intros Ha Hle. pose proof (repr_uint _ _ Ha) as Hx. unfold signed_widen.
  assert (0 < nb ∧ 0 < nb2) as [Hn Hn2] by (unfold wf in *; lia).
  destruct (set_range_diff_in (_reset (BaseOps := intbv_ops junk nb2)) a 0 x (nb2 - nb) (nb2 - 1))
    as (r & -> & Hr); [apply (repr_0 junk)|done|lia|lia|]. cbn [obind].
  replace (set_field _ _ _ _ _) with x in Hr.
  - pose proof (signExtend_spec junk r x (nb2 - nb) Hr ltac:(lia)) as He.
    replace (nb2 - (nb2 - nb)) with nb in He by lia. by rewrite (wrap_small nb x) in He.
  - unfold set_field. replace (nb2 - 1 - (nb2 - nb) + 1) with nb by lia. bitblast.
Qed.

Lemma signed_compare_diff_spec {nb nb2} `{wf nb} `{wf nb2} (a : intbv nb) (b : intbv nb2) x y :
  repr a x → repr b y →
  signedLT_diff junk a b = Ret (sint nb x <? sint nb2 y) ∧
  signedLE_diff junk a b = Ret (sint nb x <=? sint nb2 y) ∧
  signedGT_diff junk a b = Ret (sint nb2 y <? sint nb x) ∧
  signedGE_diff junk a b = Ret (sint nb2 y <=? sint nb x).
Proof using Hj.
  intros Ha Hb. unfold signedLT_diff, signedLE_diff, signedGT_diff, signedGE_diff, signed_compare_diff.
  pose proof (repr_uint _ _ Ha) as Hx. pose proof (repr_uint _ _ Hb) as Hy.
  assert (0 < nb ∧ 0 < nb2) as [Hn Hn2] by (unfold wf in *; lia).
  assert (∀ k z, 0 < k ≤ Z.max nb nb2 → uint k z →
    sint (Z.max nb nb2) (wrap (Z.max nb nb2) (sint k z)) = sint k z) as Hext.
  { intros k z Hk Hz. apply sint_of_wrap; [lia|]. pose proof (sint_range k z ltac:(lia) Hz).
    assert (2 ^ (k - 1) ≤ 2 ^ (Z.max nb nb2 - 1)) by (apply Z.pow_le_mono_r; lia). lia. }
  destruct (Z.ltb_spec nb2 nb).
  - destruct (signed_widen_spec (nb2 := Z.max nb nb2) b y Hb) as (r & -> & Hr); [lia|]. cbn [obind].
    edestruct (signed_compare_spec junk (copy junk a) r) as (-> & -> & -> & ->);
      [exact (copy_l a b x y Ha Hb)|exact Hr|].
    rewrite !Hext by (done || lia). by replace (Z.max nb nb2) with nb by lia.
  - destruct (signed_widen_spec (nb2 := Z.max nb nb2) a x Ha) as (r & -> & Hr); [lia|]. cbn [obind].
    edestruct (signed_compare_spec junk r (copy junk b)) as (-> & -> & -> & ->);
      [exact Hr|exact (copy_r a b x y Ha Hb)|].
    rewrite !Hext by (done || lia). by replace (Z.max nb nb2) with nb2 by lia.
Qed.
End Widths.

(** ** Signed operators *)

(** The quotient and the remainder of signed numbers from those of their
    absolute values. *)
Lemma rem_abs s t : t ≠ 0 → Z.rem s t = (if s <? 0 then -1 else 1) * (Z.abs s mod Z.abs t).
Proof.
  intros Ht. rewrite <- Z.rem_mod_nonneg by lia.
  replace (Z.rem (Z.abs s) (Z.abs t)) with (Z.rem (Z.abs s) t).
  - destruct (Z.ltb_spec s 0).
    + rewrite Z.abs_neq, Z.rem_opp_l by lia. lia.
    + rewrite Z.abs_eq by lia. lia.
  - destruct (Z.le_gt_cases 0 t); [by rewrite (Z.abs_eq t)|].
    rewrite (Z.abs_neq t), Z.rem_opp_r by lia. done.
Qed.

Section Signed.
Context (junk : Z) {Hj : byte junk}.

(** Sign test and absolute value, as [signedMod] computes them. *)
Lemma abs_spec {nb} `{wf nb} (a : intbv nb) x : repr a x →
  get_bit junk a 0 = Ret (sint nb x <? 0) ∧
  repr (if sint nb x <? 0 then negate junk a else a) (Z.abs (sint nb x)).
Proof using Hj.
  intros Ha. pose proof (repr_uint _ _ Ha) as Hx. assert (0 < nb) as Hn by (unfold wf in *; lia).
  assert (2 ^ nb = 2 * 2 ^ (nb - 1)) as E by (rewrite <- Z.pow_succ_r by lia; f_equal; lia).
  rewrite (get_bit_spec junk a x 0) by (done || lia). destruct (Z.ltb_spec 0 nb); [|lia].
  replace (nb - 1 - 0) with (nb - 1) by lia. rewrite testbit_msb by done.
  pose proof (negate_spec junk a x Ha) as Hneg. unfold sint, uint in *.
  destruct (Z.ltb_spec x (2 ^ (nb - 1))), (Z.leb_spec (2 ^ (nb - 1)) x); try lia.
  - destruct (Z.ltb_spec x 0); [lia|]. by rewrite Z.abs_eq by lia.
  - destruct (Z.ltb_spec (x - 2 ^ nb) 0); [|lia]. split; [done|].
    rewrite Z.abs_neq by lia. replace (- (x - 2 ^ nb)) with (wrap nb (- x)); [done|].
    replace (- (x - 2 ^ nb)) with (- x + 1 * 2 ^ nb) by lia.
    rewrite <- (wrap_small nb (- x + _)) by (unfold uint; lia). symmetry. apply wrap_plus_mult.
Qed.

Lemma signedMod_same_spec {nb} `{wf nb} (a b : intbv nb) x y : repr a x → repr b y → y ≠ 0 →
  div_dom (INTBV_WORDS nb) (Z.abs (sint nb x)) (Z.abs (sint nb y)) →
  returns (signedMod_same junk a b) (wrap nb (Z.rem (sint nb x) (sint nb y))).
Proof using Hj.
  intros Ha Hb Hy Hd. assert (0 < nb) as Hn by (unfold wf in *; lia).
  pose proof (repr_uint _ _ Hb) as Hyu. pose proof (repr_uint _ _ Ha) as Hxu.
  assert (sint nb y ≠ 0) as Hs by (intros E%sint_0; done || lia).
  destruct (abs_spec a x Ha) as [Ea Haa]. destruct (abs_spec b y Hb) as [Eb Hbb].
  destruct (mod_assign_spec junk _ _ _ _ Haa Hbb) as (r & Er & Hr); [lia|done|].
  unfold signedMod_same. rewrite Ea, Eb. cbn [obind]. rewrite Er. cbn [obind].
  eexists. split; [done|]. rewrite rem_abs by done. pose proof (repr_uint _ _ Hr).
  destruct (sint nb x <? 0).
  - replace (-1 * _) with (- (Z.abs (sint nb x) mod Z.abs (sint nb y))) by lia.
    by apply (negate_spec junk).
  - rewrite Z.mul_1_l, wrap_small by done. done.
Qed.

Lemma divideSignedAligned_spec {nb} `{wf nb} (a b : intbv nb) x y : nb = W (INTBV_WORDS nb) →
  repr a x → repr b y → y ≠ 0 →
  div_dom (INTBV_WORDS nb) (Z.abs (sint nb x)) (Z.abs (sint nb y)) →
  sint nb x ≠ - 2 ^ (nb - 1) ∨ sint nb y ≠ -1 →
  returns (divideSignedAligned junk a b) (wrap nb (Z.quot (sint nb x) (sint nb y))).
Proof using Hj.
  intros Hal Ha Hb Hy Hd Hov. unfold divideSignedAligned.
  destruct (rep_divideSigned (ops := intbv_ops junk nb) a b x y) as (q & -> & Hq);
    [by apply (repr_rep junk)..|done|by rewrite <- !Hal|by rewrite <- !Hal|].
  cbn [obind]. eexists. split; [done|].
  rewrite <- !Hal in Hq. pose proof (repr_sanitize junk q _ Hq) as Hs. by rewrite wrap_wrap in Hs.
Qed.

Section Diff.
Context {nb nb2 : Z} {Hwf : wf nb} {Hwf2 : wf nb2}.
Context (a : intbv nb) (b : intbv nb2) (x y : Z) (Ha : repr a x) (Hb : repr b y).
Local Abbreviation n := (Z.max nb nb2).
Local Abbreviation al := (WORD_ALIGNED (Z.max nb nb2)).

Lemma aligned_range : 0 < nb ∧ 0 < nb2 ∧ n ≤ al ∧ al = W (INTBV_WORDS al) ∧
  INTBV_WORDS al = INTBV_WORDS n.
Proof using Hwf Hwf2.
  assert (0 < nb ∧ 0 < nb2) as [H1 H2] by (unfold wf in *; lia).
  rewrite INTBV_WORDS_aligned by lia. rewrite WORD_ALIGNED_spec by lia.
  destruct (INTBV_WORDS_spec n) as [_ H]; [lia|]. lia.
Qed.

(** Sign extension to the aligned width keeps the signed value. *)
Lemma sint_aligned k z : 0 < k ≤ n → uint k z → sint al (wrap al (sint k z)) = sint k z.
Proof using Hwf Hwf2.
  intros Hk Hz. destruct aligned_range as (H1 & H2 & H3 & _). apply sint_of_wrap; [lia|].
  pose proof (sint_range k z ltac:(lia) Hz).
  assert (2 ^ (k - 1) ≤ 2 ^ (al - 1)) by (apply Z.pow_le_mono_r; lia). lia.
Qed.

Lemma signedMultiply_spec :
  returns (signedMultiply junk a b) (wrap n (sint nb x * sint nb2 y)).
Proof using All.
  destruct aligned_range as (H1 & H2 & H3 & _). unfold signedMultiply.
  destruct (signExtend_to_spec junk al a x Ha) as (r & -> & Hr).
  destruct (signExtend_to_spec junk al b y Hb) as (t & -> & Ht). cbn [obind].
  eexists. split; [done|]. pose proof (signedMultiplyEqual_spec junk _ _ _ _ Hr Ht) as Hm.
  apply (copy_spec junk (nb := n)) in Hm. autorewrite with wrapdb in Hm.
  by rewrite wrap_wrap_le in Hm by lia.
Qed.

Lemma sint_nonzero k z : 0 < k → uint k z → z ≠ 0 → sint k z ≠ 0.
Proof using Type. intros Hk Hz Hne E%sint_0; done. Qed.

Lemma wrap_sint_nonzero k z : 0 < k ≤ n → uint k z → z ≠ 0 → wrap al (sint k z) ≠ 0.
Proof using Hwf Hwf2.
  intros Hk Hz Hne E. apply (sint_nonzero k z); [lia|done|done|].
  rewrite <- (sint_aligned k z), E by done. unfold sint.
  destruct aligned_range as (H1 & H2 & H3 & _). pose proof (pow2_pos (al - 1)).
  destruct (Z.ltb_spec 0 (2 ^ (al - 1))); lia.
Qed.

Lemma signedDivide_spec : y ≠ 0 →
  div_dom (INTBV_WORDS n) (Z.abs (sint nb x)) (Z.abs (sint nb2 y)) →
  sint nb x ≠ - 2 ^ (al - 1) ∨ sint nb2 y ≠ -1 →
  returns (signedDivide junk a b) (wrap n (Z.quot (sint nb x) (sint nb2 y))).
Proof using All.
  intros Hy Hd Hov. destruct aligned_range as (H1 & H2 & H3 & H4 & H5). unfold signedDivide.
  pose proof (repr_uint _ _ Ha). pose proof (repr_uint _ _ Hb).
  destruct (signExtend_to_spec junk al a x Ha) as (r & -> & Hr).
  destruct (signExtend_to_spec junk al b y Hb) as (t & -> & Ht). cbn [obind].
  edestruct (divideSignedAligned_spec r t) as (q & -> & Hq); [done|exact Hr|exact Ht|..].
  - apply wrap_sint_nonzero; done || lia.
  - by rewrite H5, !sint_aligned by (done || lia).
  - by rewrite !sint_aligned by (done || lia).
  - cbn [obind]. eexists. split; [done|]. rewrite !sint_aligned in Hq by (done || lia).
    apply (copy_spec junk (nb := n)) in Hq. by rewrite wrap_wrap_le in Hq by lia.
Qed.

Lemma signedMod_spec : y ≠ 0 →
  div_dom (INTBV_WORDS n) (Z.abs (sint nb x)) (Z.abs (sint nb2 y)) →
  returns (signedMod junk a b) (wrap n (Z.rem (sint nb x) (sint nb2 y))).
Proof using All.
  intros Hy Hd. destruct aligned_range as (H1 & H2 & H3 & H4 & H5). unfold signedMod.
  pose proof (repr_uint _ _ Ha). pose proof (repr_uint _ _ Hb).
  destruct (signExtend_to_spec junk al a x Ha) as (r & -> & Hr).
  destruct (signExtend_to_spec junk al b y Hb) as (t & -> & Ht). cbn [obind].
  edestruct (signedMod_same_spec r t) as (q & -> & Hq); [exact Hr|exact Ht|..].
  - apply wrap_sint_nonzero; done || lia.
  - by rewrite H5, !sint_aligned by (done || lia).
  - cbn [obind]. eexists. split; [done|]. rewrite !sint_aligned in Hq by (done || lia).
    apply (copy_spec junk (nb := n)) in Hq. by rewrite wrap_wrap_le in Hq by lia.
Qed.
End Diff.
End Signed.

Section MoreSigned.
Context (junk : Z) {Hj : byte junk} {nb : Z} {Hwf : wf nb}.
Local Abbreviation al := (WORD_ALIGNED nb).

Lemma extend_aligned (a : intbv nb) x : repr a x →
  returns (if nb <? al then signExtend junk (copy junk (nb := al) a) (al - nb)
           else Ret (copy junk (nb := al) a)) (wrap al (sint nb x)).
Proof using Hj Hwf.
  intros Ha. pose proof (repr_uint _ _ Ha) as Hx. assert (0 < nb) as Hn by (unfold wf in *; lia).
  destruct (INTBV_WORDS_spec nb Hn) as [_ Hal]. rewrite <- WORD_ALIGNED_spec in Hal by done.
  pose proof (copy_same junk (nb := al) a x ltac:(lia) Ha) as Hc.
  destruct (Z.ltb_spec nb al).
  - pose proof (signExtend_spec junk _ x (al - nb) Hc ltac:(lia)) as H1.
    replace (al - (al - nb)) with nb in H1 by lia. by rewrite (wrap_small nb x) in H1.
  - eexists. split; [done|]. replace (wrap al (sint nb x)) with x; [done|].
    replace al with nb by lia. by rewrite sint_wrap, wrap_small.
Qed.

Lemma signedDivideEqual_spec (a b : intbv nb) x y : repr a x → repr b y → y ≠ 0 →
  div_dom (INTBV_WORDS nb) (Z.abs (sint nb x)) (Z.abs (sint nb y)) →
  sint nb x ≠ - 2 ^ (al - 1) ∨ sint nb y ≠ -1 →
  returns (signedDivideEqual junk a b) (wrap nb (Z.quot (sint nb x) (sint nb y))).
Proof using Hj Hwf.
  intros Ha Hb Hy Hd Hov. pose proof (repr_uint _ _ Ha) as Hxu. pose proof (repr_uint _ _ Hb) as Hyu.
  assert (0 < nb) as Hn by (unfold wf in *; lia).
  pose proof (@sint_aligned nb nb Hwf Hwf nb) as Hsa. rewrite Z.max_id in Hsa.
  pose proof (@wrap_sint_nonzero nb nb Hwf Hwf nb) as Hnz. rewrite Z.max_id in Hnz.
  destruct (@aligned_range nb nb Hwf Hwf) as (_ & _ & H3 & H4 & H5). rewrite Z.max_id in *.
  destruct (extend_aligned a x Ha) as (r & Er & Hr). destruct (extend_aligned b y Hb) as (t & Et & Ht).
  unfold signedDivideEqual. rewrite Er. cbn [obind]. rewrite Et. cbn [obind].
  edestruct (divideSignedAligned_spec junk r t) as (q & -> & Hq); [done|exact Hr|exact Ht|..].
  - apply Hnz; done || lia.
  - by rewrite H5, !Hsa by (done || lia).
  - by rewrite !Hsa by (done || lia).
  - cbn [obind]. eexists. split; [done|]. rewrite !Hsa in Hq by (done || lia).
    apply (assign_sanitize junk a) in Hq. by rewrite wrap_wrap_le in Hq by lia.
Qed.
End MoreSigned.

(** ** Integers *)

Definition scalar_ok (s : scalar) : Prop :=
  match s with
  | U64 v | ULL v => uint 64 v
  | U32 v => uint 32 v
  | I32 v => - 2 ^ 31 ≤ v < 2 ^ 31
  | I64 v | LL v => - 2 ^ 63 ≤ v < 2 ^ 63
  end.
(** The number that the constructor takes from an integer; the [long long]
    constructor does not extend the sign beyond 64 bits. *)
Definition scalar_num (s : scalar) : Z :=
  match s with U64 v | I64 v | U32 v | I32 v | ULL v => v | LL v => wrap 64 v end.

Section Scalars.
Context (junk : Z) {Hj : byte junk}.

Lemma of_scalar_spec nb `{wf nb} s : scalar_ok s →
  returns (of_scalar junk nb s) (wrap nb (scalar_num s)).
Proof using Hj.
  destruct s; intros Hs; cbn [of_scalar scalar_num].
  - eexists. split; [done|]. by apply of_uint64_spec.
  - by apply of_int64_spec.
  - eexists. split; [done|]. by apply of_uint32_spec.
  - by apply of_int32_spec.
  - eexists. split; [done|]. by apply of_uint64_spec.
  - eexists. split; [done|]. by apply of_long_long_spec.
Qed.

Section Ops.
Context {nb : Z} {Hwf : wf nb} (a : intbv nb) (x : Z) (s : scalar).
Context (Ha : repr a x) (Hs : scalar_ok s).
Local Abbreviation n := (Z.max nb (scalar_width s)).
Local Abbreviation v := (scalar_num s).

Lemma scalar_arith_spec :
  returns (plus_scalar junk a s) (wrap n (x + v)) ∧
  returns (minus_scalar junk a s) (wrap n (x - v)) ∧
  returns (int_minus junk s a) (wrap n (v - x)) ∧
  returns (times_scalar junk a s) (wrap n (x * v)) ∧
  returns (int_plus junk s a) (wrap n (v + x)) ∧
  returns (int_times junk s a) (wrap n (v * x)).
Proof using All.
  pose proof (copy_same junk (nb := n) a x ltac:(lia) Ha) as Hc.
  destruct (of_scalar_spec n s Hs) as (r & Er & Hr).
  unfold plus_scalar, minus_scalar, int_minus, times_scalar, int_plus, int_times.
  rewrite Er. cbn [obind].
  split_and!; (eexists; split; [done|]).
  - rewrite <- wrap_add_r. by apply (plus_assign_spec junk).
  - rewrite <- wrap_sub_r. by apply (minus_assign_spec junk).
  - rewrite <- wrap_sub_l. by apply (minus_assign_spec junk).
  - rewrite <- wrap_mul_r. by apply (times_assign_spec junk).
  - rewrite <- wrap_add_l. by apply (plus_assign_spec junk).
  - rewrite <- wrap_mul_l. by apply (times_assign_spec junk).
Qed.

Lemma scalar_bitwise_spec :
  returns (and_scalar junk a s) (Z.land x (wrap n v)) ∧
  returns (or_scalar junk a s) (Z.lor x (wrap n v)) ∧
  returns (xor_scalar junk a s) (Z.lxor x (wrap n v)) ∧
  returns (int_and junk s a) (Z.land (wrap n v) x) ∧
  returns (int_or junk s a) (Z.lor (wrap n v) x) ∧
  returns (int_xor junk s a) (Z.lxor (wrap n v) x).
Proof using All.
  pose proof (copy_same junk (nb := n) a x ltac:(lia) Ha) as Hc.
  destruct (of_scalar_spec n s Hs) as (r & Er & Hr).
  unfold and_scalar, or_scalar, xor_scalar, int_and, int_or, int_xor. rewrite Er. cbn [obind].
  split_and!; (eexists; split; [done|]).
  - by apply (and_assign_spec junk).
  - by apply (or_assign_spec junk).
  - by apply (xor_assign_spec junk).
  - by apply (and_assign_spec junk).
  - by apply (or_assign_spec junk).
  - by apply (xor_assign_spec junk).
Qed.

(** Compound assignment keeps the width of the left operand. *)
Lemma assign_scalar_spec :
  returns (plus_assign_scalar junk a s) (wrap nb (x + v)) ∧
  returns (minus_assign_scalar junk a s) (wrap nb (x - v)) ∧
  returns (times_assign_scalar junk a s) (wrap nb (x * v)).
Proof using All.
  assert (0 < nb) as Hn by (unfold wf in *; lia).
  destruct (of_scalar_spec n s Hs) as (r & Er & Hr).
  pose proof (copy_spec junk (nb := nb) r _ Hr) as Hc. rewrite wrap_wrap_le in Hc by lia.
  unfold plus_assign_scalar, minus_assign_scalar, times_assign_scalar. rewrite Er. cbn [obind].
  split_and!; (eexists; split; [done|]).
  - rewrite <- wrap_add_r. by apply (plus_assign_spec junk).
  - rewrite <- wrap_sub_r. by apply (minus_assign_spec junk).
  - rewrite <- wrap_mul_r. by apply (times_assign_spec junk).
Qed.

Lemma scalar_divide_spec : wrap n v ≠ 0 → div_dom (INTBV_WORDS n) x (wrap n v) →
  returns (divide_scalar junk a s) (x / wrap n v) ∧
  returns (mod_scalar junk a s) (x mod wrap n v).
Proof using All.
  intros Hv Hd. pose proof (copy_same junk (nb := n) a x ltac:(lia) Ha) as Hc.
  destruct (of_scalar_spec n s Hs) as (r & Er & Hr).
  unfold divide_scalar, mod_scalar. rewrite Er. cbn [obind]. split.
  - by apply (divide_assign_spec junk).
  - by apply (mod_assign_spec junk).
Qed.

Lemma int_divide_spec : x ≠ 0 → div_dom (INTBV_WORDS n) (wrap n v) x →
  returns (int_divide junk s a) (wrap n v / x) ∧
  returns (int_mod junk s a) (wrap n v mod x).
Proof using All.
  intros Hv Hd. pose proof (copy_same junk (nb := n) a x ltac:(lia) Ha) as Hc.
  destruct (of_scalar_spec n s Hs) as (r & Er & Hr).
  unfold int_divide, int_mod. rewrite Er. cbn [obind]. split.
  - by apply (divide_assign_spec junk).
  - by apply (mod_assign_spec junk).
Qed.

(** The scalar is compared as an unsigned number of its own width. *)
Lemma compare_scalar_spec : let w := wrap (scalar_width s) v in
  eq_scalar junk a s = Ret (x =? w) ∧ ne_scalar junk a s = Ret (negb (x =? w)) ∧
  lt_scalar junk a s = Ret (x <? w) ∧ le_scalar junk a s = Ret (x <=? w) ∧
  gt_scalar junk a s = Ret (w <? x) ∧ ge_scalar junk a s = Ret (w <=? x).
Proof using All.
  intros w. destruct (of_scalar_spec (scalar_width s) s Hs) as (r & Er & Hr).
  unfold eq_scalar, ne_scalar, lt_scalar, le_scalar, gt_scalar, ge_scalar, compare_scalar.
  rewrite Er. cbn [obind].
  destruct (compare_diff_spec junk a r x w Ha Hr) as (-> & -> & -> & -> & -> & ->). done.
Qed.
End Ops.
End Scalars.

(** ** Carries *)

(** The carry out of the low [i] bits of a sum. *)
Definition carry_at (x y c i : Z) : bool := 2 ^ i <=? x mod 2 ^ i + y mod 2 ^ i + c.

Lemma mod_pow2_split x i : 0 ≤ i →
  x mod 2 ^ (i + 1) = Z.b2z (Z.testbit x i) * 2 ^ i + x mod 2 ^ i.
Proof.
  intros Hi. rewrite Z.pow_add_r, Z.rem_mul_r by (pose proof (pow2_pos i); lia).
  rewrite Z.testbit_spec' by done. change (2 ^ 1) with 2. lia.
Qed.

Lemma carry_step x y c i : 0 ≤ i → 0 ≤ c ≤ 1 → carry_at x y c (i + 1) =
  (Z.testbit x i && Z.testbit y i) ||
  ((Z.testbit x i || Z.testbit y i) && carry_at x y c i).
Proof.
  intros Hi Hc. unfold carry_at. rewrite !mod_pow2_split by done.
  replace (2 ^ (i + 1)) with (2 * 2 ^ i) by (rewrite Z.pow_add_r by lia; lia).
  pose proof (pow2_pos i Hi). pose proof (Z.mod_pos_bound x (2 ^ i) ltac:(lia)).
  pose proof (Z.mod_pos_bound y (2 ^ i) ltac:(lia)).
  destruct (Z.testbit x i), (Z.testbit y i); cbn [Z.b2z andb orb]; split_cmps; done.
Qed.

Lemma testbit_sum x y c i : 0 ≤ i → 0 ≤ c ≤ 1 →
  Z.testbit (x + y + c) i = xorb (xorb (Z.testbit x i) (Z.testbit y i)) (carry_at x y c i).
Proof.
  intros Hi Hc. pose proof (pow2_pos i Hi). set (m := 2 ^ i) in *.
  pose proof (Z.mod_pos_bound x m ltac:(lia)). pose proof (Z.mod_pos_bound y m ltac:(lia)).
  assert ((x + y + c) / m = x / m + y / m + Z.b2z (carry_at x y c i)) as E.
  { unfold carry_at. fold m. pose proof (Z.div_mod x m ltac:(lia)). pose proof (Z.div_mod y m ltac:(lia)).
    symmetry. destruct (Z.leb_spec m (x mod m + y mod m + c)); cbn [Z.b2z].
    - apply Z.div_unique with (x mod m + y mod m + c - m); lia.
    - apply Z.div_unique with (x mod m + y mod m + c); lia. }
  rewrite !Z.testbit_odd, !Z.shiftr_div_pow2 by done. fold m. rewrite E, !Z.odd_add.
  by destruct (carry_at x y c i).
Qed.

(** The formula of [Carry] is the carry out of every bit position. *)
Lemma carry_formula n x y c i : 0 ≤ i < n → 0 ≤ c ≤ 1 →
  Z.testbit (Z.lor (Z.land x y) (Z.land (Z.lxor x y) (2 ^ n - 1 - wrap n (x + y + c)))) i =
  carry_at x y c (i + 1).
Proof.
  intros Hi Hc. rewrite carry_step by lia.
  rewrite <- unot_val by (lia || apply uint_wrap; lia). unfold unot.
  rewrite Z.lor_spec, !Z.land_spec, Z.lxor_spec, !testbit_wrap, testbit_lnot, testbit_wrap by lia.
  rewrite testbit_sum by lia.
  destruct (Z.ltb_spec i n), (Z.leb_spec 0 i); try lia.
  by destruct (Z.testbit x i), (Z.testbit y i), (carry_at x y c i).
Qed.

Section CarryConcat.
Context (junk : Z) {Hj : byte junk}.

Lemma Carry_spec {nb nb2} `{wf nb} `{wf nb2} (a : intbv nb) (b : intbv nb2) (cin : intbv 1) x y c :
  repr a x → repr b y → repr cin c →
  ∃ r, repr (Carry junk a b cin) r ∧
    ∀ i, 0 ≤ i < Z.max nb nb2 → Z.testbit r i = carry_at x y c (i + 1).
Proof using Hj.
  intros Ha Hb Hc. assert (0 < nb ∧ 0 < nb2) as [Hn Hn2] by (unfold wf in *; lia).
  assert (0 ≤ c ≤ 1) as Hc1 by (pose proof (repr_uint _ _ Hc) as Hu; unfold uint in Hu; lia).
  destruct (arith_diff_spec junk a b x y Ha Hb) as (Hsum & _).
  destruct (arith_diff_spec junk _ cin _ c Hsum Hc) as (Hsum2 & _).
  apply (copy_spec junk (nb := Z.max nb nb2)) in Hsum2.
  rewrite wrap_wrap_le, wrap_add_l in Hsum2 by lia.
  destruct (bitwise_diff_spec junk a b x y Ha Hb) as (Hand & _ & Hxor).
  eexists. split.
  - unfold Carry. apply (or_assign_spec junk); [exact Hand|].
    apply (and_assign_spec junk); [exact Hxor|]. by apply (invert_spec junk).
  - intros i Hi. by apply carry_formula.
Qed.

(** *** Concatenation *)

(** Writing a field above what is there. *)
Lemma set_field_above n start len x y : 0 ≤ start → 0 < len → start + len ≤ n →
  uint (n - start - len) x → uint len y →
  set_field n start (start + len - 1) x (wrap n y) = y * 2 ^ (n - start - len) + x.
Proof using Type.
  intros H1 H2 H3 Hx Hy. unfold set_field. rewrite (Z.add_comm (y * _)), <- lor_add by (done || lia).
  replace (start + len - 1 - start + 1) with len by lia.
  replace (n - 1 - (start + len - 1)) with (n - start - len) by lia. bitblast.
Qed.

Lemma set_above {n len} `{wf n} `{wf len} (a : intbv n) (b : intbv len) x y start m stop :
  repr a x → repr b y → 0 ≤ start → start + len + m = n → 0 ≤ m → uint m x → stop = start + len - 1 →
  returns (set_range_diff junk a start stop b) (y * 2 ^ m + x) ∧ uint (m + len) (y * 2 ^ m + x).
Proof using Hj.
  intros Ha Hb H1 H2 H3 Hx ->. pose proof (repr_uint _ _ Hb) as Hy.
  assert (0 < len) as Hl by (unfold wf in *; lia). split.
  - replace (y * 2 ^ m + x) with (set_field n start (start + len - 1) x (wrap n y)).
    + apply set_range_diff_in; done || lia.
    + replace m with (n - start - len) in * by lia. apply set_field_above; done || lia.
  - unfold uint in *. rewrite Z.pow_add_r by lia. nia.
Qed.

Lemma concat2_spec {nb1 nb2} `{wf nb1} `{wf nb2} `{wf (nb1 + nb2)} (a : intbv nb1) (b : intbv nb2) x y :
  repr a x → repr b y → returns (concat2 junk a b) (x * 2 ^ nb2 + y).
Proof using Hj.
  intros Ha Hb. assert (0 < nb1 ∧ 0 < nb2) as [G1 G2] by (unfold wf in *; lia).
  apply set_above; [apply (copy_same junk); done || lia|done|lia|lia|lia|by eapply repr_uint|lia].
Qed.
Lemma concat_int_spec {nb1} `{wf nb1} `{wf (nb1 + 32)} (a : intbv nb1) x v :
  repr a x → uint 32 v → returns (concat_int junk a v) (x * 2 ^ 32 + v).
Proof using Hj.
  intros Ha Hv. assert (0 < nb1) as G1 by (unfold wf in *; lia).
  apply set_above; [|done|lia|lia|lia|done|lia].
  pose proof (of_uint32_spec junk (nb := nb1 + 32) v Hv) as Hr.
  rewrite wrap_small in Hr by (apply (uint_mono 32); done || lia). exact Hr.
Qed.

(** Adds the next vector above the [m] bits that are already in place. *)
Lemma set_above_bind {n len n'} `{wf n} `{wf len} (a : intbv n) (b : intbv len) x y start m stop
    (k : intbv n → outcome (intbv n')) v :
  repr a x → repr b y → uint m x → 0 ≤ start → start + len + m = n → 0 ≤ m → stop = start + len - 1 →
  (∀ r, repr r (y * 2 ^ m + x) → uint (m + len) (y * 2 ^ m + x) → returns (k r) v) →
  returns (obind (set_range_diff junk a start stop b) k) v.
Proof using Hj.
  intros Ha Hb Hx H1 H2 H3 H4 Hk.
  destruct (set_above a b x y start m stop Ha Hb H1 H2 H3 Hx H4) as [(r & -> & Hr) Hu].
  by apply Hk.
Qed.
Ltac concat_step start m :=
  eapply (set_above_bind _ _ _ _ start m);
    [eassumption|eassumption|first [assumption|by eapply repr_uint]|lia|lia|lia|lia|
     let r := fresh "r" in intros r ? ?].

Section Many.
Context {nb1 nb2 nb3 nb4 nb5 nb6 : Z}.
Context {H1 : wf nb1} {H2 : wf nb2} {H3 : wf nb3} {H4 : wf nb4} {H5 : wf nb5} {H6 : wf nb6}.
Context (a : intbv nb1) (b : intbv nb2) (c : intbv nb3) (d : intbv nb4) (e : intbv nb5)
  (f : intbv nb6) (x y z u v t : Z).
Context (Ha : repr a x) (Hb : repr b y) (Hc : repr c z) (Hd : repr d u) (He : repr e v)
  (Hf : repr f t).

Lemma concat3_spec `{wf (nb1 + nb2 + nb3)} :
  returns (concat3 junk a b c) (x * 2 ^ (nb3 + nb2) + (y * 2 ^ nb3 + z)).
Proof using Hj H1 H2 H3 Ha Hb Hc.
  assert (0 < nb1 ∧ 0 < nb2 ∧ 0 < nb3) as (G1 & G2 & G3) by (unfold wf in *; lia).
  unfold concat3; cbv zeta. pose proof (copy_same junk (nb := nb1 + nb2 + nb3) c z ltac:(lia) Hc) as Hr.
  concat_step nb1 nb3. apply set_above; done || lia.
Qed.
Lemma concat4_spec `{wf (nb1 + nb2 + nb3 + nb4)} :
  returns (concat4 junk a b c d)
    (x * 2 ^ (nb4 + nb3 + nb2) + (y * 2 ^ (nb4 + nb3) + (z * 2 ^ nb4 + u))).
Proof using Hj H1 H2 H3 H4 Ha Hb Hc Hd.
  assert (0 < nb1 ∧ 0 < nb2 ∧ 0 < nb3 ∧ 0 < nb4) as (G1 & G2 & G3 & G4) by (unfold wf in *; lia).
  unfold concat4; cbv zeta.
  pose proof (copy_same junk (nb := nb1 + nb2 + nb3 + nb4) d u ltac:(lia) Hd) as Hr.
  concat_step (nb1 + nb2) nb4. concat_step nb1 (nb4 + nb3). apply set_above; done || lia.
Qed.
Lemma concat5_spec `{wf (nb1 + nb2 + nb3 + nb4 + nb5)} :
  returns (concat5 junk a b c d e)
    (x * 2 ^ (nb5 + nb4 + nb3 + nb2) + (y * 2 ^ (nb5 + nb4 + nb3) +
     (z * 2 ^ (nb5 + nb4) + (u * 2 ^ nb5 + v)))).
Proof using Hj H1 H2 H3 H4 H5 Ha Hb Hc Hd He.
  assert (0 < nb1 ∧ 0 < nb2 ∧ 0 < nb3 ∧ 0 < nb4 ∧ 0 < nb5) as (G1 & G2 & G3 & G4 & G5)
    by (unfold wf in *; lia).
  unfold concat5; cbv zeta.
  pose proof (copy_same junk (nb := nb1 + nb2 + nb3 + nb4 + nb5) e v ltac:(lia) He) as Hr.
  concat_step (nb1 + nb2 + nb3) nb5. concat_step (nb1 + nb2) (nb5 + nb4).
  concat_step nb1 (nb5 + nb4 + nb3). apply set_above; done || lia.
Qed.
Lemma concat6_spec `{wf (nb1 + nb2 + nb3 + nb4 + nb5 + nb6)} :
  returns (concat6 junk a b c d e f)
    (x * 2 ^ (nb6 + nb5 + nb4 + nb3 + nb2) + (y * 2 ^ (nb6 + nb5 + nb4 + nb3) +
     (z * 2 ^ (nb6 + nb5 + nb4) + (u * 2 ^ (nb6 + nb5) + (v * 2 ^ nb6 + t))))).
Proof using All.
  assert (0 < nb1 ∧ 0 < nb2 ∧ 0 < nb3 ∧ 0 < nb4 ∧ 0 < nb5 ∧ 0 < nb6)
    as (G1 & G2 & G3 & G4 & G5 & G6) by (unfold wf in *; lia).
  unfold concat6; cbv zeta.
  pose proof (copy_same junk (nb := nb1 + nb2 + nb3 + nb4 + nb5 + nb6) f t ltac:(lia) Hf) as Hr.
  concat_step (nb1 + nb2 + nb3 + nb4) nb6. concat_step (nb1 + nb2 + nb3) (nb6 + nb5).
  concat_step (nb1 + nb2) (nb6 + nb5 + nb4). concat_step nb1 (nb6 + nb5 + nb4 + nb3).
  apply set_above; done || lia.
Qed.
End Many.
End CarryConcat.

(** ** Signed operators with integers *)

Section SignedScalars.
Context (junk : Z) {Hj : byte junk} {nb : Z} {Hwf : wf nb} (a : intbv nb) (x : Z) (Ha : repr a x).

(** The signed reading of an integer argument. *)
Definition scalar_signed (s : scalar) : Z :=
  sint (scalar_width s) (wrap (scalar_width s) (scalar_num s)).

Lemma signed_scalar_spec s : scalar_ok s →
  let n := Z.max nb (scalar_width s) in
  let t := scalar_signed s in
  returns (signedMultiply_scalar junk a s) (wrap n (sint nb x * t)) ∧
  (t ≠ 0 → div_dom (INTBV_WORDS n) (Z.abs (sint nb x)) (Z.abs t) →
     returns (signedMod_scalar junk a s) (wrap n (Z.rem (sint nb x) t)) ∧
     (sint nb x ≠ - 2 ^ (WORD_ALIGNED n - 1) ∨ t ≠ -1 →
        returns (signedDivide_scalar junk a s) (wrap n (Z.quot (sint nb x) t)))).
Proof using All.
  intros Hs n t. destruct (of_scalar_spec junk (scalar_width s) s Hs) as (r & Er & Hr).
  unfold signedMultiply_scalar, signedMod_scalar, signedDivide_scalar. rewrite Er. cbn [obind].
  split; [exact (signedMultiply_spec junk a r x _ Ha Hr)|]. intros Ht Hd.
  assert (wrap (scalar_width s) (scalar_num s) ≠ 0) as Hnz.
  { intros E. apply Ht. unfold t, scalar_signed. rewrite E. by destruct s. }
  split; [exact (signedMod_spec junk a r x _ Ha Hr Hnz Hd)|]. intros Hov.
  exact (signedDivide_spec junk a r x _ Ha Hr Hnz Hd Hov).
Qed.

(** Sign extension to whole words first does not change the operands. *)
Lemma signed_int32_spec v : - 2 ^ 31 ≤ v < 2 ^ 31 → v ≠ 0 →
  let n := Z.max nb 32 in
  div_dom (INTBV_WORDS n) (Z.abs (sint nb x)) (Z.abs v) →
  returns (signedMod_int32 junk a v) (wrap n (Z.rem (sint nb x) v)) ∧
  (sint nb x ≠ - 2 ^ (WORD_ALIGNED n - 1) ∨ v ≠ -1 →
     returns (signedDivide_int32 junk a v) (wrap n (Z.quot (sint nb x) v))).
Proof using All.
  intros Hv Hne n Hd. pose proof (repr_uint _ _ Ha) as Hx.
  destruct (@aligned_range nb 32 Hwf wf_32) as (Hn1 & _ & Hn3 & Hn4 & Hn5). fold n in Hn3, Hn4, Hn5.
  pose proof (@sint_aligned nb 32 Hwf wf_32 nb x ltac:(lia) Hx) as Hsx. fold n in Hsx.
  destruct (signExtend_to_spec junk (WORD_ALIGNED n) a x Ha) as (r & Er & Hr).
  destruct (of_int32_spec junk (nb := 32) v Hv) as (t & Et & Ht).
  pose proof (sint_of_wrap 32 v ltac:(lia) Hv) as Hsv.
  assert (wrap 32 v ≠ 0) as Hnz by (intros E; rewrite E in Hsv; change (sint 32 0) with 0 in Hsv; lia).
  assert (Z.max (WORD_ALIGNED n) 32 = WORD_ALIGNED n) as Emax by lia.
  unfold signedMod_int32, signedDivide_int32. fold n. rewrite Er, Et. cbn [obind]. split.
  - destruct (signedMod_spec junk r t _ _ Hr Ht) as (q & -> & Hq); [done| |].
    { by rewrite Emax, Hn5, Hsx, Hsv. }
    cbn [obind]. eexists. split; [done|]. apply (copy_spec junk (nb := n)) in Hq.
    by rewrite Hsx, Hsv, wrap_wrap_le in Hq by lia.
  - intros Hov. destruct (signedDivide_spec junk r t _ _ Hr Ht) as (q & -> & Hq); [done| | |].
    { by rewrite Emax, Hn5, Hsx, Hsv. }
    { rewrite Emax, Hsx, Hsv. replace (WORD_ALIGNED (WORD_ALIGNED n)) with (WORD_ALIGNED n); [done|].
      rewrite Hn4 at 1. by rewrite <- WORD_ALIGNED_spec by lia. }
    cbn [obind]. eexists. split; [done|]. apply (copy_spec junk (nb := n)) in Hq.
    by rewrite Hsx, Hsv, wrap_wrap_le in Hq by lia.
Qed.
End SignedScalars.
