(* ===== verification/IntbvTheorems.v ===== *)
(** * The contract of [intbv]

    The theorems that a user of the bit vector class relies on, for every width
    from 1 to 524288 bits, over all three storage classes. *)
From stdpp Require Import prelude strings.
From Stdlib Require Import ZArith Lia.
From S2P Require Import Prelude.
From S2P Require Import BitTwiddles.
From S2P Require Import WordArith.
From S2P Require Import WordDivide.
From S2P Require Import IntbvBase.
From S2P Require Import IntbvLaws.
From S2P Require Import IntbvArray.
From S2P Require Import Intbv.
From S2P Require Import IntbvSpec.
From S2P Require Import IntbvCorrect.

Local Open Scope Z_scope.

(** Concrete widths and vectors for the examples. *)
#[local] Instance wf_20 : wf 20. Proof. unfold wf; lia. Qed.
#[local] Instance wf_40 : wf 40. Proof. unfold wf; lia. Qed.
#[local] Instance wf_96 : wf 96. Proof. unfold wf; lia. Qed.
#[local] Instance byte_aa : byte 0xaa. Proof. split; lia. Qed.
Ltac uint_now := split; [vm_compute; discriminate|vm_compute; reflexivity].
Ltac repr_now :=
  split; [|uint_now];
  first [ split; [reflexivity|uint_now]
        | split; [split; [reflexivity|repeat (constructor; [uint_now|]); constructor]|reflexivity] ].

(** C1: addition, subtraction, multiplication (unsigned and signed), negation
    and complement of two vectors of the same width are arithmetic modulo
    [2^nb], and keep the unused bits of the storage zero. *)
Theorem intbv_arithmetic junk `{byte junk} nb `{wf nb} (a b : intbv nb) x y :
  repr a x → repr b y →
  repr (plus_assign junk a b) (wrap nb (x + y)) ∧
  repr (minus_assign junk a b) (wrap nb (x - y)) ∧
  repr (times_assign junk a b) (wrap nb (x * y)) ∧
  repr (signedMultiplyEqual junk a b) (wrap nb (x * y)) ∧
  repr (negate junk a) (wrap nb (- x)) ∧
  repr (invert junk a) (2 ^ nb - 1 - x).
Proof.
  intros Ha Hb. split_and!.
  - by apply plus_assign_spec.
  - by apply minus_assign_spec.
  - by apply times_assign_spec.
  - by apply signedMultiplyEqual_spec.
  - by apply negate_spec.
  - by apply invert_spec.
Qed.

Lemma intbv_arithmetic_witness :
  repr (nb := 96) (times_assign 0xaa (nb := 96) [1; 2; 3] [4; 5; 6])
    (wrap 96 (beval 32 [1; 2; 3] * beval 32 [4; 5; 6])).
Proof.
  apply (intbv_arithmetic 0xaa 96 [1; 2; 3] [4; 5; 6] (beval 32 [1; 2; 3]) (beval 32 [4; 5; 6])).
  - repr_now.
  - repr_now.
Defined.

(** C2: division and remainder of vectors of one width.  With a nonzero divisor
    they return the quotient and the remainder when the division stays inside
    the divider's buffers ([div_dom]: at most 64 bits, or a zero dividend, or
    the divisor 1, or lengths in bytes that fit) and write outside of them
    otherwise.  With a zero divisor both throw, except that a zero dividend of
    three or more words (more than 64 bits) gives quotient 0 and remainder 0. *)
Theorem intbv_division junk `{byte junk} nb `{wf nb} (a b : intbv nb) x y :
  repr a x → repr b y →
  (y ≠ 0 → div_dom (INTBV_WORDS nb) x y →
     returns (divide_assign junk a b) (x / y) ∧ returns (mod_assign junk a b) (x mod y)) ∧
  (y ≠ 0 → ~ div_dom (INTBV_WORDS nb) x y →
     divide_assign junk a b = Undefined ∧ mod_assign junk a b = Undefined) ∧
  (y = 0 → x ≠ 0 ∨ nb ≤ 64 →
     ∃ e, divide_assign junk a b = Throw e ∧ mod_assign junk a b = Throw e) ∧
  (y = 0 → x = 0 → 64 < nb →
     returns (divide_assign junk a b) 0 ∧ returns (mod_assign junk a b) 0).
Proof.
  intros Ha Hb. pose proof (nb_words_wf (nb := nb)) as Hw. split_and!.
  - intros Hy Hd. split; [by apply divide_assign_spec|by apply mod_assign_spec].
  - by apply divide_assign_undefined.
  - intros -> Hx. apply (divide_assign_zero junk a b x); [done..|].
    destruct Hx as [|Hx]; [by left|right]. unfold nb_words, W in Hw. lia.
  - intros -> -> Hn. apply divide_assign_zero_zero; try done. unfold nb_words, W in Hw. lia.
Qed.

Lemma intbv_division_witness :
  returns (nb := 96) (mod_assign 0xaa (nb := 96) [0; 7; 100] [0; 0; 9]) (beval 32 [0; 7; 100] mod 9).
Proof.
  apply (intbv_division 0xaa 96 [0; 7; 100] [0; 0; 9] (beval 32 [0; 7; 100]) 9).
  - repr_now.
  - repr_now.
  - lia.
  - right; right; right. apply (bool_decide_unpack _). vm_compute. exact I.
Defined.

(** The signed product, quotient (truncated) and remainder (sign of the
    dividend) of vectors of any two widths are those of the signed values,
    modulo [2^(max nb nb2)]; the one quotient that does not fit, the most
    negative number over -1, is excluded. *)
Theorem intbv_signed_arithmetic junk `{byte junk} nb nb2 `{wf nb} `{wf nb2}
    (a : intbv nb) (b : intbv nb2) x y :
  repr a x → repr b y →
  let n := Z.max nb nb2 in
  let sx := sint nb x in
  let sy := sint nb2 y in
  returns (signedMultiply junk a b) (wrap n (sx * sy)) ∧
  (y ≠ 0 → div_dom (INTBV_WORDS n) (Z.abs sx) (Z.abs sy) →
     returns (signedMod junk a b) (wrap n (Z.rem sx sy)) ∧
     (sx ≠ - 2 ^ (WORD_ALIGNED n - 1) ∨ sy ≠ -1 →
        returns (signedDivide junk a b) (wrap n (Z.quot sx sy)))).
Proof.
  intros Ha Hb n sx sy. split; [by apply signedMultiply_spec|]. intros Hy Hd. split.
  - by apply signedMod_spec.
  - intros Hov. by apply signedDivide_spec.
Qed.

Lemma intbv_signed_arithmetic_witness :
  returns (signedDivide 0xaa (nb := 40) (nb2 := 20) (2 ^ 40 - 1000) 7) (wrap 40 (Z.quot (-1000) 7)).
Proof.
  refine (proj2 (proj2 (intbv_signed_arithmetic 0xaa 40 20 (2 ^ 40 - 1000) 7 (2 ^ 40 - 1000) 7
    _ _) _ _) _).
  - repr_now.
  - repr_now.
  - lia.
  - left. vm_compute. lia.
  - left. vm_compute. discriminate.
Defined.

(** ** Shifts and rotations *)

(** [<<=] and [>>=] are multiplication modulo [2^nb] and division by a power
    of two, the signed shift is floor division of the signed value; all three
    for every shift count, including those that shift everything out. *)
Theorem intbv_shifts junk `{byte junk} nb `{wf nb} (a : intbv nb) x p :
  repr a x → 0 ≤ p →
  repr (shift_left_assign junk a p) (wrap nb (x * 2 ^ p)) ∧
  repr (shift_right_assign junk a p) (x / 2 ^ p) ∧
  returns (signedRightShiftEqual junk a p) (wrap nb (sint nb x / 2 ^ p)).
Proof.
  intros Ha Hp. split_and!.
  - by apply shift_left_assign_spec.
  - by apply shift_right_assign_spec.
  - by apply signedRightShiftEqual_spec.
Qed.

Lemma intbv_shifts_witness :
  returns (signedRightShiftEqual 0xaa (nb := 96) [0x80000000; 0; 0] 70)
    (wrap 96 (sint 96 (2 ^ 95) / 2 ^ 70)).
Proof.
  apply (intbv_shifts 0xaa 96 [0x80000000; 0; 0] (2 ^ 95) 70).
  - repr_now.
  - lia.
Defined.

(** The overload of [signedRightShiftEqual] whose count is a bit vector
    shifts in zeros: it is the logical shift. *)
Theorem signedRightShiftEqual_bv_logical junk `{byte junk} nb nb2 `{wf nb} `{wf nb2}
    (a : intbv nb) (b : intbv nb2) x p :
  repr a x → repr b p → p < 2 ^ 32 →
  repr (signedRightShiftEqual_bv junk a b) (x / 2 ^ p) ∧
  returns (signedRightShift_bv junk a b) (wrap nb (sint nb x / 2 ^ p)).
Proof.
  intros Ha Hb Hp. pose proof (repr_uint _ _ Hb) as [Hp0 _].
  unfold signedRightShiftEqual_bv, signedRightShift_bv. rewrite (uint32_spec junk b p Hb).
  rewrite wrap_small by done. split; [by apply shift_right_assign_spec|by apply signedRightShiftEqual_spec].
Qed.

Lemma signedRightShiftEqual_bv_logical_witness :
  repr (nb := 20) (signedRightShiftEqual_bv 0xaa (nb := 20) (nb2 := 40) 0xf0000 4) (0xf0000 / 2 ^ 4).
Proof.
  refine (proj1 (signedRightShiftEqual_bv_logical 0xaa 20 40 0xf0000 4 0xf0000 4 _ _ _)).
  - repr_now.
  - repr_now.
  - vm_compute. reflexivity.
Defined.

Lemma rotl_bits n x p i : 0 ≤ p < n → uint n x → 0 ≤ i < n →
  Z.testbit (rotl n x p) i = Z.testbit x ((i - p) mod n).
Proof.
  intros Hp Hx Hi. unfold rotl. destruct (Z.lt_ge_cases i p).
  - replace ((i - p) mod n) with (i - p + n) by (apply Z.mod_unique with (-1); lia). bitblast_core.
  - rewrite (Z.mod_small (i - p)) by lia. bitblast_core.
Qed.

Lemma rotl_uint n x p : 0 ≤ p < n → uint n x → uint n (rotl n x p).
Proof.
  intros Hp Hx. unfold rotl. apply scalar_or; [lia|apply uint_wrap; lia|].
  apply scalar_div_pow2; done || lia.
Qed.

Lemma rotl_rotl n x p q : 0 ≤ p < n → 0 ≤ q < n → (p + q) mod n = 0 → uint n x →
  rotl n (rotl n x p) q = x.
Proof.
  intros Hp Hq Hpq Hx. apply Z.bits_inj'. intros i Hi. destruct (Z.lt_ge_cases i n).
  - rewrite !rotl_bits by (done || lia || (by apply rotl_uint) || apply Z.mod_pos_bound; lia).
    rewrite Zminus_mod_idemp_l. f_equal. replace (i - q - p) with (i - (p + q)) by lia.
    rewrite Zminus_mod, Hpq, Z.sub_0_r, Z.mod_mod by lia. apply Z.mod_small. lia.
  - rewrite !(testbit_high n) by (done || lia || by apply rotl_uint, rotl_uint). done.
Qed.

(** [left_rotate] moves bit [i] to bit [i + p] modulo the width, and
    [right_rotate] by the same count undoes it. *)
Theorem intbv_rotations junk `{byte junk} nb `{wf nb} (a : intbv nb) x p :
  repr a x →
  (∃ z, repr (left_rotate junk a p) z ∧
     ∀ i, 0 ≤ i < nb → Z.testbit z i = Z.testbit x ((i - p) mod nb)) ∧
  right_rotate junk (left_rotate junk a p) p = a.
Proof.
  intros Ha. pose proof (repr_uint _ _ Ha) as Hx. pose proof (field_index (nb := nb) p) as Hp.
  pose proof (left_rotate_spec junk a x p Ha) as Hl. split.
  - eexists. split; [exact Hl|]. intros i Hi. rewrite rotl_bits by done.
    by rewrite Zminus_mod_idemp_r.
  - pose proof (right_rotate_spec junk _ _ p Hl) as Hr.
    rewrite rotl_rotl in Hr; [by eapply (repr_inj junk)|done| | |done].
    + apply Z.mod_pos_bound. lia.
    + rewrite Zplus_mod_idemp_r. replace (p mod nb + (nb - p mod nb)) with nb by lia.
      apply Z.mod_same. lia.
Qed.

Lemma intbv_rotations_witness :
  right_rotate 0xaa (nb := 96) (left_rotate 0xaa (nb := 96) [1; 2; 3] 37) 37 = [1; 2; 3].
Proof.
  apply (intbv_rotations 0xaa 96 [1; 2; 3] (beval 32 [1; 2; 3]) 37). repr_now.
Defined.

(** ** Fields and single bits *)

Lemma get_set_field nb start stop x y : 0 ≤ start ≤ stop → stop < nb →
  get_field nb start stop (set_field nb start stop x y) = wrap (stop - start + 1) y.
Proof. intros H1 H2. unfold get_field, set_field. bitblast. Qed.

Lemma set_field_other nb start stop x y i : 0 ≤ start ≤ stop → stop < nb → 0 ≤ i →
  i < nb - 1 - stop ∨ nb - 1 - start < i → Z.testbit (set_field nb start stop x y) i = Z.testbit x i.
Proof. intros H1 H2 H3 [H4|H4]; unfold set_field; bitblast_core. Qed.

(** Writing bits [start..stop] and reading them back gives the low bits of
    what was written; the other bits are unchanged.  Positions are taken modulo
    the width, and a field whose reduced bounds are reversed is rejected. *)
Theorem intbv_fields junk `{byte junk} nb `{wf nb} (a b : intbv nb) x y start stop :
  repr a x → repr b y →
  let s := start mod nb in
  let t := stop mod nb in
  (s ≤ t → ∃ r z,
     set_range junk a start stop b = Ret r ∧ repr r z ∧
     returns (get_range junk r start stop) (wrap (t - s + 1) y) ∧
     (∀ i, 0 ≤ i → i < nb - 1 - t ∨ nb - 1 - s < i → Z.testbit z i = Z.testbit x i)) ∧
  (t < s → set_range junk a start stop b = AssertFail ∧ get_range junk a start stop = AssertFail).
Proof.
  intros Ha Hb s t. pose proof (field_index (nb := nb) start) as Hs.
  pose proof (field_index (nb := nb) stop) as Ht. fold s in Hs. fold t in Ht.
  pose proof (set_range_spec junk a b x y start stop Ha Hb) as Hset.
  pose proof (get_range_spec junk a x start stop Ha) as Hget.
  fold s in Hset, Hget. fold t in Hset, Hget.
  destruct (Z.leb_spec s t); [|split; [lia|done]]. split; [intros _|lia].
  destruct Hset as (r & Er & Hr). exists r, (set_field nb s t x y). split_and!; [done|done| |].
  - pose proof (get_range_spec junk r _ start stop Hr) as Hg. fold s in Hg. fold t in Hg.
    destruct (Z.leb_spec s t); [|lia]. by rewrite get_set_field in Hg by lia.
  - intros i Hi Hout. apply set_field_other; lia.
Qed.

Lemma intbv_fields_witness : ∃ r z,
  set_range 0xaa (nb := 40) 0 8 15 0x1ff = Ret r ∧ repr (nb := 40) r z ∧
  returns (nb := 40) (get_range 0xaa (nb := 40) r 8 15) (wrap 8 0x1ff) ∧
  (∀ i, 0 ≤ i → i < 40 - 1 - 15 ∨ 40 - 1 - 8 < i → Z.testbit z i = Z.testbit 0 i).
Proof.
  refine (proj1 (intbv_fields 0xaa 40 0 0x1ff 0 0x1ff 8 15 _ _) _).
  - repr_now.
  - repr_now.
  - vm_compute. discriminate.
Defined.

(** [set] and [get] of one bit: after [set(pos,val)], [get(pos)] is [val]
    and every other bit is as before; a position outside the vector is rejected
    by both. *)
Theorem intbv_bits junk `{byte junk} nb `{wf nb} (a : intbv nb) x pos val :
  repr a x → 0 ≤ pos →
  (pos < nb → ∃ r,
     set_bit junk a pos val = Ret r ∧ get_bit junk r pos = Ret val ∧
     ∀ q, 0 ≤ q < nb → q ≠ pos → get_bit junk r q = get_bit junk a q) ∧
  (nb ≤ pos → set_bit junk a pos val = AssertFail ∧ get_bit junk a pos = AssertFail).
Proof.
  intros Ha Hp. split; intros Hpos.
  - pose proof (Unchecked_set_spec junk a x pos (Z.b2z val) Ha ltac:(lia)) as Hr.
    unfold set_bit. destruct (Z.ltb_spec pos nb); [|lia]. eexists. split; [done|].
    rewrite (get_bit_spec junk _ _ pos Hr Hp). destruct (Z.ltb_spec pos nb); [|lia]. split.
    + f_equal. destruct val; cbn [Z.b2z Z.eqb]; [apply Z.setbit_eq|apply Z.clearbit_eq]; lia.
    + intros q Hq Hne. rewrite (get_bit_spec junk _ _ q Hr), (get_bit_spec junk _ _ q Ha) by lia.
      destruct (Z.ltb_spec q nb); [|lia]. f_equal.
      destruct val; cbn [Z.b2z Z.eqb]; [apply Z.setbit_neq|apply Z.clearbit_neq]; lia.
  - unfold set_bit, get_bit. by destruct (Z.ltb_spec pos nb); [lia|].
Qed.

Lemma intbv_bits_witness : ∃ r,
  set_bit 0xaa (nb := 96) [0; 0; 5] 90 true = Ret r ∧ get_bit 0xaa (nb := 96) r 90 = Ret true ∧
  ∀ q, 0 ≤ q < 96 → q ≠ 90 → get_bit 0xaa (nb := 96) r q = get_bit 0xaa (nb := 96) [0; 0; 5] q.
Proof.
  refine (proj1 (intbv_bits 0xaa 96 [0; 0; 5] 5 90 true _ _) _).
  - repr_now.
  - lia.
  - lia.
Defined.

(** Positions covered by [mask(start,stop)], wrapping around when [stop < start]. *)
Definition in_mask (start stop pos : Z) : bool :=
  if start <=? stop then (start <=? pos) && (pos <=? stop) else (start <=? pos) || (pos <=? stop).

Lemma set_field_bit nb start stop x y i : 0 ≤ start ≤ stop → stop < nb → 0 ≤ i < nb →
  Z.testbit (set_field nb start stop x y) (nb - 1 - i) =
  if (start <=? i) && (i <=? stop) then Z.testbit y (stop - i) else Z.testbit x (nb - 1 - i).
Proof.
  intros H1 H2 H3. unfold set_field. destruct (Z.leb_spec start i), (Z.leb_spec i stop);
    cbn [andb]; bitblast_core.
Qed.

Lemma mask_with junk `{byte junk} nb `{wf nb} (a b : intbv nb) x y start stop (v : bool) :
  repr a x → repr b y → (∀ i, 0 ≤ i < nb → Z.testbit y i = v) → 0 ≤ start < nb → 0 ≤ stop < nb →
  ∃ r z, (if start <=? stop then set_range junk a start stop b
          else let! r := set_range junk a start (nb - 1) b in set_range junk r 0 stop b) = Ret r ∧
    repr r z ∧ ∀ pos, 0 ≤ pos < nb → Z.testbit z (nb - 1 - pos) =
      if in_mask start stop pos then v else Z.testbit x (nb - 1 - pos).
Proof.
  intros Ha Hb Hv H1 H2. unfold in_mask. destruct (Z.leb_spec start stop).
  - destruct (set_range_in junk a b x y start stop Ha Hb) as (r & Er & Hr); [lia..|].
    eexists _, _. split_and!; [exact Er|exact Hr|]. intros pos Hp. rewrite set_field_bit by lia.
    destruct (Z.leb_spec start pos), (Z.leb_spec pos stop); cbn [andb]; try done. apply Hv. lia.
  - destruct (set_range_in junk a b x y start (nb - 1) Ha Hb) as (r & -> & Hr); [lia..|]. cbn [obind].
    destruct (set_range_in junk r b _ y 0 stop Hr Hb) as (r2 & Er2 & Hr2); [lia..|].
    eexists _, _. split_and!; [exact Er2|exact Hr2|]. intros pos Hp. rewrite set_field_bit by lia.
    rewrite set_field_bit by lia.
    destruct (Z.leb_spec 0 pos), (Z.leb_spec pos stop), (Z.leb_spec start pos),
      (Z.leb_spec pos (nb - 1)); cbn [andb orb]; try lia; try done; apply Hv; lia.
Qed.

(** [mask] sets exactly the bits from [start] to [stop], wrapping around the
    end of the vector when [stop < start]; [mask_inv] clears exactly those. *)
Theorem intbv_masks junk `{byte junk} nb `{wf nb} (a : intbv nb) x start stop :
  repr a x → 0 ≤ start < nb → 0 ≤ stop < nb →
  (∃ r z, mask junk a start stop = Ret r ∧ repr r z ∧ ∀ pos, 0 ≤ pos < nb →
     Z.testbit z (nb - 1 - pos) = in_mask start stop pos || Z.testbit x (nb - 1 - pos)) ∧
  (∃ r z, mask_inv junk a start stop = Ret r ∧ repr r z ∧ ∀ pos, 0 ≤ pos < nb →
     Z.testbit z (nb - 1 - pos) = negb (in_mask start stop pos) && Z.testbit x (nb - 1 - pos)).
Proof.
  intros Ha H1 H2. assert (0 < nb) as Hn by lia. split.
  - destruct (mask_with junk nb a _ x (2 ^ nb - 1) start stop true Ha
        (set_all_spec junk (_reset (BaseOps := intbv_ops junk nb))))
      as (r & z & Er & Hr & Hz); [|done..|].
    { intros i Hi. rewrite ones_pred, testbit_ones by lia. by split_cmps. }
    exists r, z. split_and!; [exact Er|done|]. intros pos Hp. rewrite Hz by done.
    by destruct (in_mask start stop pos).
  - destruct (mask_with junk nb a _ x 0 start stop false Ha (repr_0 junk)) as (r & z & Er & Hr & Hz);
      [intros; apply Z.bits_0|done..|].
    exists r, z. split_and!; [exact Er|done|]. intros pos Hp. rewrite Hz by done.
    by destruct (in_mask start stop pos).
Qed.

Lemma intbv_masks_witness :
  ∃ r z, mask 0xaa (nb := 40) 0 38 1 = Ret r ∧ repr (nb := 40) r z ∧ ∀ pos, 0 ≤ pos < 40 →
     Z.testbit z (40 - 1 - pos) = in_mask 38 1 pos || Z.testbit 0 (40 - 1 - pos).
Proof.
  refine (proj1 (intbv_masks 0xaa 40 0 0 38 1 _ _ _)).
  - repr_now.
  - lia.
  - lia.
Defined.

(** ** Conversions *)

(** A vector built from an integer holds it modulo [2^nb] (signed integers
    are sign-extended), and reading it back with [int32]/[int64]/[uint32]/[uint64]
    gives the integer again whenever the vector is at least as wide. *)
Theorem intbv_integers junk `{byte junk} nb `{wf nb} v w :
  - 2 ^ 63 ≤ v < 2 ^ 63 → uint 64 w →
  (∃ a, of_int64 junk nb v = Ret a ∧ repr a (wrap nb v) ∧ (64 ≤ nb → int64 junk a = Ret v)) ∧
  (- 2 ^ 31 ≤ v < 2 ^ 31 →
     ∃ a, of_int32 junk nb v = Ret a ∧ repr a (wrap nb v) ∧ (32 ≤ nb → int32 junk a = Ret v)) ∧
  repr (of_uint64 junk nb w) (wrap nb w) ∧
  (64 ≤ nb → uint64 junk (of_uint64 junk nb w) = w) ∧
  (w < 2 ^ 32 → repr (of_uint32 junk nb w) (wrap nb w) ∧
     (32 ≤ nb → uint32 junk (of_uint32 junk nb w) = w)).
Proof.
  intros Hv Hw. assert (∀ k, 0 < k ≤ nb → - 2 ^ (k - 1) ≤ v < 2 ^ (k - 1) →
    sint k (wrap k (sint nb (wrap nb v))) = v) as Hback.
  { intros k Hk Hr. assert (2 ^ (k - 1) ≤ 2 ^ (nb - 1)) by (apply Z.pow_le_mono_r; lia).
    rewrite (sint_of_wrap nb) by lia. apply sint_of_wrap; lia. }
  split_and!.
  - destruct (of_int64_spec junk v Hv) as (a & Ea & Ha). exists a. split_and!; [done..|].
    intros Hn. rewrite (int64_spec junk a _ Ha). destruct (Z.ltb_spec 1 nb); [|lia].
    f_equal. apply Hback; done || lia.
  - intros Hv32. destruct (of_int32_spec junk v Hv32) as (a & Ea & Ha). exists a. split_and!; [done..|].
    intros Hn. rewrite (int32_spec junk a _ Ha). destruct (Z.ltb_spec 1 nb); [|lia].
    f_equal. apply Hback; done || lia.
  - by apply of_uint64_spec.
  - intros Hn. rewrite (uint64_spec junk _ _ (of_uint64_spec junk w Hw)).
    rewrite wrap_wrap_le by lia. by apply wrap_small.
  - intros Hw32. assert (uint 32 w) as Hu by (unfold uint in *; lia).
    split; [by apply of_uint32_spec|]. intros Hn.
    rewrite (uint32_spec junk _ _ (of_uint32_spec junk w Hu)).
    rewrite wrap_wrap_le by lia. by apply wrap_small.
Qed.

Lemma intbv_integers_witness : ∃ a,
  of_int64 0xaa 96 (-5) = Ret a ∧ repr a (wrap 96 (-5)) ∧ (64 ≤ 96 → int64 0xaa a = Ret (-5)).
Proof.
  apply (intbv_integers 0xaa 96 (-5) 7).
  - lia.
  - uint_now.
Defined.

(** Copying a vector to another width truncates or zero-extends it;
    [signExtend<Nb2>()] sign-extends it; extracting a field into a narrower
    vector keeps its low bits. *)
Theorem intbv_conversions junk `{byte junk} nb nb2 `{wf nb} `{wf nb2} (a : intbv nb) x start stop :
  repr a x → 0 ≤ start ≤ stop → stop < nb →
  repr (copy junk (nb := nb2) a) (wrap nb2 x) ∧
  returns (signExtend_to junk nb2 a) (wrap nb2 (sint nb x)) ∧
  returns (get_range_as junk nb2 a start stop) (wrap nb2 (get_field nb start stop x)).
Proof.
  intros Ha Hs Ht. split_and!.
  - by apply copy_spec.
  - by apply signExtend_to_spec.
  - by apply get_range_as_spec.
Qed.

Lemma intbv_conversions_witness :
  returns (signExtend_to 0xaa 96 (nb := 20) 0xfffff) (wrap 96 (sint 20 0xfffff)).
Proof.
  apply (intbv_conversions 0xaa 20 96 0xfffff 0xfffff 0 0).
  - repr_now.
  - lia.
  - lia.
Defined.

(** Assigning from a vector of the same number of words but more bits leaves
    bits beyond the width set, against the class invariant: [operator=] does not
    clear them. *)
Theorem assign_breaks_invariant :
  assign 0 (nb := 20) (nb2 := 30) 0 0x3fffffff = 0x3fffffff ∧
  ~ (∃ x, repr (nb := 20) (assign 0 (nb := 20) (nb2 := 30) 0 0x3fffffff) x).
Proof.
  split; [reflexivity|]. intros [x [[E _] [_ Hx]]]. vm_compute in E. subst x.
  vm_compute in Hx. discriminate.
Qed.

(** On vectors wider than 64 bits, the [long long] constructor of the 64-bit
    build does not extend the sign of a negative number, unlike the [int64_t]
    constructor. *)
Theorem long_long_not_extended junk `{byte junk} nb `{wf nb} v :
  64 < nb → - 2 ^ 63 ≤ v < 0 →
  repr (of_long_long junk nb v) (v + 2 ^ 64) ∧ returns (of_int64 junk nb v) (v + 2 ^ nb).
Proof.
  intros Hn Hv. pose proof (of_long_long_spec junk (nb := nb) v ltac:(lia)) as Hl.
  pose proof (of_int64_spec junk (nb := nb) v ltac:(lia)) as Hi.
  assert (2 ^ 64 < 2 ^ nb) by (apply Z.pow_lt_mono_r; lia).
  replace (wrap nb (wrap 64 v)) with (v + 2 ^ 64) in Hl.
  - replace (wrap nb v) with (v + 2 ^ nb) in Hi; [done|].
    unfold wrap. apply Z.mod_unique with (-1); lia.
  - replace (wrap 64 v) with (v + 2 ^ 64).
    + symmetry. apply wrap_small. unfold uint. lia.
    + unfold wrap. apply Z.mod_unique with (-1); lia.
Qed.

Lemma long_long_not_extended_witness :
  repr (of_long_long 0xaa 96 (-1)) (-1 + 2 ^ 64) ∧ returns (of_int64 0xaa 96 (-1)) (-1 + 2 ^ 96).
Proof. apply (long_long_not_extended 0xaa 96 (-1)); lia. Defined.

(** ** Comparisons *)

(** The comparison operators, unsigned and signed, decide the order of the
    numbers, for vectors of any two widths; counting ones and leading zeros and
    the zero tests are right. *)
Theorem intbv_comparisons junk `{byte junk} nb nb2 `{wf nb} `{wf nb2}
    (a : intbv nb) (b : intbv nb2) x y :
  repr a x → repr b y →
  (eq_diff junk a b = (x =? y) ∧ ne_diff junk a b = negb (x =? y) ∧
   lt_diff junk a b = (x <? y) ∧ le_diff junk a b = (x <=? y) ∧
   gt_diff junk a b = (y <? x) ∧ ge_diff junk a b = (y <=? x)) ∧
  (signedLT_diff junk a b = Ret (sint nb x <? sint nb2 y) ∧
   signedLE_diff junk a b = Ret (sint nb x <=? sint nb2 y) ∧
   signedGT_diff junk a b = Ret (sint nb2 y <? sint nb x) ∧
   signedGE_diff junk a b = Ret (sint nb2 y <=? sint nb x)) ∧
  (count_ones junk a = builtin_popcount (32 * INTBV_WORDS nb) x ∧
   count_leading_zeros junk a = leading_zeros nb x ∧
   any junk a = negb (x =? 0) ∧ none junk a = (x =? 0)).
Proof.
  intros Ha Hb. split; [by apply compare_diff_spec|]. split; [by apply signed_compare_diff_spec|].
  by apply count_spec.
Qed.

Lemma intbv_comparisons_witness :
  signedLT_diff 0xaa (nb := 20) (nb2 := 96) 0xfffff [0; 0; 3] = Ret true.
Proof.
  transitivity (Ret (sint 20 0xfffff <? sint 96 3)); [|reflexivity].
  apply (intbv_comparisons 0xaa 20 96 0xfffff [0; 0; 3] 0xfffff 3).
  - repr_now.
  - repr_now.
Defined.

(** An integer compared with a vector counts as an unsigned number of its own
    width: no vector of more than 32 bits equals a negative [int32_t], although
    arithmetic sign-extends the same integer. *)
Theorem compare_int32_unsigned junk `{byte junk} nb `{wf nb} v :
  32 < nb → - 2 ^ 31 ≤ v < 0 →
  ∃ a, of_int32 junk nb v = Ret a ∧ eq_scalar junk a (I32 v) = Ret false ∧
       returns (minus_scalar junk a (I32 v)) 0.
Proof.
  intros Hn Hv. destruct (of_int32_spec junk (nb := nb) v ltac:(lia)) as (a & Ea & Ha).
  assert (scalar_ok (I32 v)) as Hs by (simpl; lia).
  assert (2 ^ 32 * 2 ≤ 2 ^ nb).
  { rewrite Z.mul_comm, <- Z.pow_succ_r by lia. apply Z.pow_le_mono_r; lia. }
  assert (wrap nb v = v + 2 ^ nb) as E by (unfold wrap; symmetry; apply Z.mod_unique with (-1); lia).
  assert (wrap 32 v = v + 2 ^ 32) as E32 by (unfold wrap; symmetry; apply Z.mod_unique with (-1); lia).
  exists a. split_and!; [done| |].
  - destruct (compare_scalar_spec junk a _ (I32 v) Ha Hs) as (-> & _). cbn [scalar_width scalar_num].
    rewrite E, E32. f_equal. apply Z.eqb_neq. lia.
  - destruct (scalar_arith_spec junk a _ (I32 v) Ha Hs) as (_ & Hm & _).
    cbn [scalar_width scalar_num] in *.
    replace (wrap (Z.max nb 32) (wrap nb v - v)) with 0 in Hm; [done|].
    rewrite E, Z.max_l by lia. replace (v + 2 ^ nb - v) with (0 + 1 * 2 ^ nb) by lia.
    by rewrite wrap_plus_mult, wrap_0.
Qed.

Lemma compare_int32_unsigned_witness :
  ∃ a, of_int32 0xaa 40 (-1) = Ret a ∧ eq_scalar 0xaa a (I32 (-1)) = Ret false ∧
       returns (minus_scalar 0xaa a (I32 (-1))) 0.
Proof. apply (compare_int32_unsigned 0xaa 40 (-1)); lia. Defined.

(** ** Mixed widths and integers *)

(** The binary operators on vectors of different widths, and on a vector and
    an integer, widen both operands to the larger width and compute there; a
    compound assignment keeps the width of its left operand. *)
Theorem intbv_mixed_widths junk `{byte junk} nb nb2 `{wf nb} `{wf nb2}
    (a : intbv nb) (b : intbv nb2) x y s :
  repr a x → repr b y → scalar_ok s →
  let n := Z.max nb nb2 in
  let m := Z.max nb (scalar_width s) in
  let v := scalar_num s in
  (repr (plus_diff junk a b) (wrap n (x + y)) ∧ repr (minus_diff junk a b) (wrap n (x - y)) ∧
   repr (times_diff junk a b) (wrap n (x * y)) ∧ repr (and_diff junk a b) (Z.land x y) ∧
   repr (or_diff junk a b) (Z.lor x y) ∧ repr (xor_diff junk a b) (Z.lxor x y)) ∧
  (y ≠ 0 → div_dom (INTBV_WORDS n) x y →
     returns (divide_diff junk a b) (x / y) ∧ returns (mod_diff junk a b) (x mod y) ∧
     returns (divide_assign_diff junk a b) (x / y) ∧ returns (mod_assign_diff junk a b) (x mod y)) ∧
  (returns (plus_scalar junk a s) (wrap m (x + v)) ∧ returns (minus_scalar junk a s) (wrap m (x - v)) ∧
   returns (int_minus junk s a) (wrap m (v - x)) ∧ returns (times_scalar junk a s) (wrap m (x * v)) ∧
   returns (int_plus junk s a) (wrap m (v + x)) ∧ returns (int_times junk s a) (wrap m (v * x))) ∧
  (returns (and_scalar junk a s) (Z.land x (wrap m v)) ∧
   returns (or_scalar junk a s) (Z.lor x (wrap m v)) ∧
   returns (xor_scalar junk a s) (Z.lxor x (wrap m v)) ∧
   returns (int_and junk s a) (Z.land (wrap m v) x) ∧
   returns (int_or junk s a) (Z.lor (wrap m v) x) ∧
   returns (int_xor junk s a) (Z.lxor (wrap m v) x)) ∧
  (wrap m v ≠ 0 → div_dom (INTBV_WORDS m) x (wrap m v) →
     returns (divide_scalar junk a s) (x / wrap m v) ∧ returns (mod_scalar junk a s) (x mod wrap m v)) ∧
  (x ≠ 0 → div_dom (INTBV_WORDS m) (wrap m v) x →
     returns (int_divide junk s a) (wrap m v / x) ∧ returns (int_mod junk s a) (wrap m v mod x)) ∧
  (returns (plus_assign_scalar junk a s) (wrap nb (x + v)) ∧
   returns (minus_assign_scalar junk a s) (wrap nb (x - v)) ∧
   returns (times_assign_scalar junk a s) (wrap nb (x * v))).
Proof.
  intros Ha Hb Hs n m v. split; [|split; [|split; [|split; [|split; [|split]]]]].
  - destruct (arith_diff_spec junk a b x y Ha Hb) as (? & ? & ?).
    destruct (bitwise_diff_spec junk a b x y Ha Hb) as (? & ? & ?). done.
  - intros Hy Hd. destruct (divide_diff_spec junk a b x y Ha Hb Hy Hd) as [? ?].
    destruct (divide_assign_diff_spec junk a b x y Ha Hb Hy Hd) as [? ?]. done.
  - by apply scalar_arith_spec.
  - by apply scalar_bitwise_spec.
  - by apply scalar_divide_spec.
  - by apply int_divide_spec.
  - by apply assign_scalar_spec.
Qed.

Lemma intbv_mixed_widths_witness :
  repr (plus_diff 0xaa (nb := 20) (nb2 := 40) 0xfffff 1) (wrap 40 (0xfffff + 1)) ∧
  returns (minus_scalar 0xaa (nb := 20) 5 (I32 (-7))) (wrap 32 (5 - -7)).
Proof.
  refine ((λ t, conj (proj1 (proj1 t)) (proj1 (proj2 (proj1 (proj2 (proj2
    (intbv_mixed_widths 0xaa 20 40 5 1 5 1 (I32 (-7)) _ _ _)))))))
    (intbv_mixed_widths 0xaa 20 40 0xfffff 1 0xfffff 1 (U32 0) _ _ _)).
  all: first [repr_now|cbn; lia|uint_now].
Defined.

(** Bit [i] of [Carry(a,b,cin)] is the carry out of bit [i] when [a], [b] and
    the carry-in are added. *)
Theorem intbv_carry junk `{byte junk} nb nb2 `{wf nb} `{wf nb2}
    (a : intbv nb) (b : intbv nb2) (cin : intbv 1) x y c :
  repr a x → repr b y → repr cin c →
  ∃ r, repr (Carry junk a b cin) r ∧
    ∀ i, 0 ≤ i < Z.max nb nb2 →
      Z.testbit r i = (2 ^ (i + 1) <=? x mod 2 ^ (i + 1) + y mod 2 ^ (i + 1) + c).
Proof. intros Ha Hb Hc. by apply Carry_spec. Qed.

Lemma intbv_carry_witness : ∃ r,
  repr (Carry 0xaa (nb := 40) (nb2 := 20) 0xffffffffff 1 0) r ∧
  ∀ i, 0 ≤ i < Z.max 40 20 →
    Z.testbit r i = (2 ^ (i + 1) <=? 0xffffffffff mod 2 ^ (i + 1) + 1 mod 2 ^ (i + 1) + 0).
Proof.
  apply (intbv_carry 0xaa 40 20 0xffffffffff 1 0 0xffffffffff 1 0).
  - repr_now.
  - repr_now.
  - repr_now.
Defined.

Lemma get_field_high n m x y : 0 < n → 0 < m → uint n x → uint m y →
  get_field (n + m) 0 (n - 1) (x * 2 ^ m + y) = x ∧ get_field (n + m) n (n + m - 1) (x * 2 ^ m + y) = y.
Proof.
  intros Hn Hm Hx Hy. unfold get_field. rewrite (Z.add_comm (x * _)), <- lor_add by (done || lia).
  replace (n + m - 1 - (n - 1)) with m by lia. replace (n - 1 - 0 + 1) with n by lia.
  replace (n + m - 1 - (n + m - 1)) with 0 by lia. replace (n + m - 1 - n + 1) with m by lia.
  split; bitblast.
Qed.

(** [concat] puts its first argument in the high bits; extracting the two
    fields gives the arguments back. *)
Theorem intbv_concat junk `{byte junk} nb1 nb2 `{wf nb1} `{wf nb2} `{wf (nb1 + nb2)}
    (a : intbv nb1) (b : intbv nb2) x y :
  repr a x → repr b y → ∃ r, concat2 junk a b = Ret r ∧ repr r (x * 2 ^ nb2 + y) ∧
    get_range_as junk nb1 r 0 (nb1 - 1) = Ret a ∧
    get_range_as junk nb2 r nb1 (nb1 + nb2 - 1) = Ret b.
Proof.
  intros Ha Hb. destruct (concat2_spec junk a b x y Ha Hb) as (r & Er & Hr).
  assert (0 < nb1 ∧ 0 < nb2) as [G1 G2] by (unfold wf in *; lia).
  pose proof (repr_uint _ _ Ha) as Hx. pose proof (repr_uint _ _ Hb) as Hy.
  destruct (get_field_high nb1 nb2 x y G1 G2 Hx Hy) as [E1 E2].
  exists r. split_and!; [done|done| |].
  - destruct (get_range_as_spec junk nb1 r _ 0 (nb1 - 1) Hr) as (t & -> & Ht); [lia..|].
    rewrite E1, wrap_small in Ht by done. f_equal. by eapply (repr_inj junk).
  - destruct (get_range_as_spec junk nb2 r _ nb1 (nb1 + nb2 - 1) Hr) as (t & -> & Ht); [lia..|].
    rewrite E2, wrap_small in Ht by done. f_equal. by eapply (repr_inj junk).
Qed.

Lemma intbv_concat_witness : ∃ r,
  concat2 0xaa (nb1 := 20) (nb2 := 96) 0xabcde [1; 2; 3] = Ret r ∧
  repr r (0xabcde * 2 ^ 96 + beval 32 [1; 2; 3]) ∧
  get_range_as 0xaa 20 r 0 (20 - 1) = Ret 0xabcde ∧
  get_range_as 0xaa 96 r 20 (20 + 96 - 1) = Ret [1; 2; 3].
Proof.
  assert (wf (20 + 96)) by (unfold wf; lia).
  apply (intbv_concat 0xaa 20 96 0xabcde [1; 2; 3] 0xabcde (beval 32 [1; 2; 3])).
  - repr_now.
  - repr_now.
Defined.

(** The concatenations of three to six vectors put them one after the other,
    the first argument in the most significant bits. *)
Theorem intbv_concat_many junk `{byte junk} nb1 nb2 nb3 nb4 nb5 nb6
    `{wf nb1} `{wf nb2} `{wf nb3} `{wf nb4} `{wf nb5} `{wf nb6}
    `{wf (nb1 + nb2 + nb3)} `{wf (nb1 + nb2 + nb3 + nb4)} `{wf (nb1 + nb2 + nb3 + nb4 + nb5)}
    `{wf (nb1 + nb2 + nb3 + nb4 + nb5 + nb6)}
    (a : intbv nb1) (b : intbv nb2) (c : intbv nb3) (d : intbv nb4) (e : intbv nb5) (f : intbv nb6)
    x y z u v t :
  repr a x → repr b y → repr c z → repr d u → repr e v → repr f t →
  returns (concat3 junk a b c) (x * 2 ^ (nb3 + nb2) + (y * 2 ^ nb3 + z)) ∧
  returns (concat4 junk a b c d)
    (x * 2 ^ (nb4 + nb3 + nb2) + (y * 2 ^ (nb4 + nb3) + (z * 2 ^ nb4 + u))) ∧
  returns (concat5 junk a b c d e)
    (x * 2 ^ (nb5 + nb4 + nb3 + nb2) + (y * 2 ^ (nb5 + nb4 + nb3) +
     (z * 2 ^ (nb5 + nb4) + (u * 2 ^ nb5 + v)))) ∧
  returns (concat6 junk a b c d e f)
    (x * 2 ^ (nb6 + nb5 + nb4 + nb3 + nb2) + (y * 2 ^ (nb6 + nb5 + nb4 + nb3) +
     (z * 2 ^ (nb6 + nb5 + nb4) + (u * 2 ^ (nb6 + nb5) + (v * 2 ^ nb6 + t))))).
Proof.
  intros. split_and!; [by apply concat3_spec|by apply concat4_spec|by apply concat5_spec|
    by apply concat6_spec].
Qed.

Lemma intbv_concat_many_witness :
  returns (concat3 0xaa (nb1 := 20) (nb2 := 40) (nb3 := 32) 1 2 3)
    (1 * 2 ^ (32 + 40) + (2 * 2 ^ 32 + 3)).
Proof.
  assert (wf (20 + 40 + 32)) by (unfold wf; lia). assert (wf (20 + 40 + 32 + 1)) by (unfold wf; lia).
  assert (wf (20 + 40 + 32 + 1 + 1)) by (unfold wf; lia).
  assert (wf (20 + 40 + 32 + 1 + 1 + 1)) by (unfold wf; lia).
  apply (intbv_concat_many 0xaa 20 40 32 1 1 1 1 2 3 0 1 1 1 2 3 0 1 1); repr_now.
Defined.

(** ** Swaps *)

(** On a vector of whole bytes [swap_bytes] reverses the order of the bytes.
    [swap_words] reverses the order of the words of a vector of more than one
    word; a vector narrower than one word is shifted right by the unused bits
    instead, which loses its low bits. *)
Theorem intbv_swaps junk `{byte junk} nb `{wf nb} (a : intbv nb) x :
  repr a x →
  (nb mod 8 = 0 → repr (swap_bytes junk a) (beval 8 (rdigits 8 (Z.to_nat (nb / 8)) x))) ∧
  (32 < nb → storage_rep (INTBV_WORDS nb) (swap_words junk a)
     (beval 32 (rdigits 32 (INTBV_WORDS nb - 1) x) * 2 ^ (nb - (W (INTBV_WORDS nb) - 32)) +
      x / 2 ^ (W (INTBV_WORDS nb) - 32))) ∧
  (nb ≤ 32 → repr (swap_words junk a) (x / 2 ^ (32 - nb))).
Proof.
  intros Ha. pose proof (repr_uint _ _ Ha) as Hx. assert (0 < nb) as Hn by (unfold wf in *; lia).
  destruct (INTBV_WORDS_spec nb Hn) as [Hw1 Hw]. unfold W in *.
  pose proof (swap_words_spec junk a x Ha) as Hs. unfold W in *. split_and!.
  - intros H8. pose proof (swap_bytes_spec junk a x Ha) as Hb. by rewrite reverse_bytes_fit in Hb.
  - intros Hlt. destruct (Nat.eqb_spec (INTBV_WORDS nb) 1); [lia|]. by apply rep_storage in Hs.
  - intros Hle. destruct (Nat.eqb_spec (INTBV_WORDS nb) 1) as [E|]; [|lia].
    apply (repr_intro junk).
    + by replace (32 - nb) with (32 * Z.of_nat (INTBV_WORDS nb) - nb) by lia.
    + apply scalar_div_pow2; done || lia.
Qed.

Lemma intbv_swaps_witness :
  repr (nb := 40) (swap_bytes 0xaa (nb := 40) 0x0102030405) 0x0504030201 ∧
  repr (nb := 20) (swap_words 0xaa (nb := 20) 0xabcde) (0xabcde / 2 ^ (32 - 20)).
Proof.
  split.
  - refine (proj1 (intbv_swaps 0xaa 40 0x0102030405 0x0102030405 _) eq_refl). repr_now.
  - refine (proj2 (proj2 (intbv_swaps 0xaa 20 0xabcde 0xabcde _)) _); [repr_now|lia].
Defined.

(** ** Overloads that drop bits *)

(** [signedMultiplyEqual(uint64_t)] multiplies by the low 32 bits of its
    argument only, and [signedDivideEqual] by a narrower vector first cuts the
    dividend to the width of the divisor: 2^40 divided by 2 gives 0. *)
Theorem signed_overloads_truncate junk `{byte junk} nb `{wf nb} (a : intbv nb) x v :
  repr a x →
  repr (signedMultiplyEqual_u64 junk a v) (wrap nb (x * wrap 32 v)) ∧
  signedDivideEqual_diff 0 (nb := 64) (nb2 := 32) (2 ^ 40) 2 = Ret 0.
Proof. intros Ha. split; [by apply signedMultiplyEqual_u64_spec|reflexivity]. Qed.

Lemma signed_overloads_truncate_witness :
  repr (signedMultiplyEqual_u64 0xaa (nb := 64) 3 (2 ^ 32 + 2)) (wrap 64 (3 * wrap 32 (2 ^ 32 + 2))) ∧
  signedDivideEqual_diff 0 (nb := 64) (nb2 := 32) (2 ^ 40) 2 = Ret 0.
Proof. apply (signed_overloads_truncate 0xaa 64 3 3 (2 ^ 32 + 2)). repr_now. Defined.

(** The signed operators with an integer operand: an unsigned integer is
    read as a two's-complement number of its own width, an [int32_t] keeps its
    value. *)
Theorem intbv_signed_integers junk `{byte junk} nb `{wf nb} (a : intbv nb) x s v :
  repr a x → scalar_ok s → - 2 ^ 31 ≤ v < 2 ^ 31 → v ≠ 0 →
  let n := Z.max nb (scalar_width s) in
  let t := scalar_signed s in
  let m := Z.max nb 32 in
  returns (signedMultiply_scalar junk a s) (wrap n (sint nb x * t)) ∧
  (t ≠ 0 → div_dom (INTBV_WORDS n) (Z.abs (sint nb x)) (Z.abs t) →
     returns (signedMod_scalar junk a s) (wrap n (Z.rem (sint nb x) t)) ∧
     (sint nb x ≠ - 2 ^ (WORD_ALIGNED n - 1) ∨ t ≠ -1 →
        returns (signedDivide_scalar junk a s) (wrap n (Z.quot (sint nb x) t)))) ∧
  (div_dom (INTBV_WORDS m) (Z.abs (sint nb x)) (Z.abs v) →
     returns (signedMod_int32 junk a v) (wrap m (Z.rem (sint nb x) v)) ∧
     (sint nb x ≠ - 2 ^ (WORD_ALIGNED m - 1) ∨ v ≠ -1 →
        returns (signedDivide_int32 junk a v) (wrap m (Z.quot (sint nb x) v)))).
Proof.
  intros Ha Hs Hv Hne n t m. destruct (signed_scalar_spec junk a x Ha s Hs) as [H1' H2'].
  split; [exact H1'|]. split; [exact H2'|]. by apply signed_int32_spec.
Qed.

Lemma intbv_signed_integers_witness :
  returns (signedMod_int32 0xaa (nb := 20) 0xffff6 3) (wrap 32 (Z.rem (-10) 3)).
Proof.
  refine (proj1 (proj2 (proj2 (intbv_signed_integers 0xaa 20 0xffff6 0xffff6 (U32 1) 3 _ _ _ _)) _)).
  - repr_now.
  - uint_now.
  - lia.
  - lia.
  - left. vm_compute. lia.
Defined.
