(* ===== verification/WordIO.v ===== *)
(** * Reading and printing word arrays

    The input and output routines of [src/helpers/intbv.C]: [readHex],
    [readBin], [readDec], the two [readNumber]s, [printDec], [printBin],
    [printHex], [printToOS], [str] and [writeNumber], over models of the
    string streams that they use.

    An input stream is an [istringstream]: the characters already read, the
    characters left and whether the stream is good.  [putback] succeeds only on
    the character that was read last, which is what a read-only string buffer
    does.  An output stream adjusts to the right, as a fresh stream does. *)
From stdpp Require Import prelude strings.
From Stdlib Require Import ZArith Lia Ascii.
From S2P Require Import Prelude.
From S2P Require Import WordArith.
From S2P Require Import WordDivide.
From S2P Require Import IntbvBase.
From S2P Require Import Intbv.

Local Open Scope Z_scope.

(** ** Characters *)

Definition code (c : ascii) : Z := Z.of_N (N_of_ascii c).
Definition chr (z : Z) : ascii := ascii_of_N (Z.to_N z).

(** The [char] that [get()] yields at the end of the input, (char)-1. *)
Definition EOF : ascii := chr 255.

Definition isdigit (c : ascii) : bool := (48 <=? code c) && (code c <=? 57).
Definition isspace (c : ascii) : bool := (code c =? 32) || (9 <=? code c) && (code c <=? 13).
Definition toupper (c : ascii) : ascii :=
  if (97 <=? code c) && (code c <=? 122) then chr (code c - 32) else c.
Definition between (lo c hi : ascii) : bool := (code lo <=? code c) && (code c <=? code hi).

(** ** Streams *)

(** The base flags of a stream; several can be set. *)
Record basefield : Type := { dec : bool; hex : bool; oct : bool }.

Record istream : Type := {
  flags : basefield;
  before : list ascii;
  rest : list ascii;
  good : bool
}.

Definition fail (si : istream) : istream :=
  {| flags := flags si; before := before si; rest := rest si; good := false |}.
Definition advance (n : nat) (si : istream) : istream :=
  {| flags := flags si; before := reverse (take n (rest si)) ++ before si;
     rest := drop n (rest si); good := good si |}.
Definition get (si : istream) : ascii * istream :=
  match good si, rest si with
  | true, c :: _ => (c, advance 1 si)
  | _, _ => (EOF, fail si)
  end.
Definition putback (c : ascii) (si : istream) : istream :=
  match good si, before si with
  | true, c' :: b =>
      if Ascii.eqb c c'
      then {| flags := flags si; before := b; rest := c' :: rest si; good := true |}
      else fail si
  | _, _ => fail si
  end.

(** [is >> *x] for a [uint32_t]: white space, a sign, the base prefix and the
    digits.  With no base flag the prefix decides the base. *)
Definition digit_of (b : Z) (c : ascii) : option Z :=
  let d := if isdigit c then code c - 48
           else if between "A" (toupper c) "F" then code (toupper c) - 55 else b in
  if d <? b then Some d else None.
Fixpoint int_digits (b : Z) (l : list ascii) : list Z :=
  match l with
  | c :: l => match digit_of b c with Some d => d :: int_digits b l | None => [] end
  | [] => []
  end.
Definition digits_val (b : Z) (ds : list Z) : Z := foldl (λ v d, v * b + d) 0 ds.
Definition int_base (f : basefield) : option Z :=
  match dec f, hex f, oct f with
  | false, false, false => None
  | false, false, true => Some 8
  | false, true, false => Some 16
  | _, _, _ => Some 10
  end.
Definition int_prefix (base : option Z) (l : list ascii) : Z * bool * nat :=
  match l with
  | c :: l =>
      if Ascii.eqb c "0" then
        match l with
        | c' :: _ =>
            if Ascii.eqb (toupper c') "X" && (default 16 base =? 16) then (16, false, 2%nat)
            else (default 8 base, true, 1%nat)
        | [] => (default 8 base, true, 1%nat)
        end
      else (default 10 base, false, 0%nat)
  | [] => (default 10 base, false, 0%nat)
  end.
Fixpoint count_spaces (l : list ascii) : nat :=
  match l with c :: l => if isspace c then S (count_spaces l) else O | [] => O end.
Definition int_sign (l : list ascii) : bool * nat :=
  match l with
  | c :: _ => if Ascii.eqb c "-" then (true, 1%nat)
              else if Ascii.eqb c "+" then (false, 1%nat) else (false, 0%nat)
  | [] => (false, 0%nat)
  end.
Definition extract_uint32 (si : istream) (x : Z) : Z * istream :=
  let si := advance (count_spaces (rest si)) si in
  match good si, rest si with
  | true, _ :: _ =>
      let '(negative, n) := int_sign (rest si) in
      let si := advance n si in
      let '(base, found_zero, n) := int_prefix (int_base (flags si)) (rest si) in
      let si := advance n si in
      let ds := int_digits base (rest si) in
      let si := advance (length ds) si in
      let v := digits_val base ds in
      if negb found_zero && (length ds =? 0)%nat then (0, fail si)
      else if 2 ^ 32 <=? v then (2 ^ 32 - 1, fail si)
      else (wrap 32 (if negative then - v else v),
            match rest si with [] => fail si | _ => si end)
  | _, _ => (x, fail si)
  end.

(** ** Word arrays *)

Definition isZero (x : list Z) (nw : nat) : bool := forallb (Z.eqb 0) (take nw x).
Definition initZero (nw : nat) : list Z := replicate nw 0.
Definition setLowWord (nw : nat) (x : list Z) (value : Z) : list Z := <[(nw - 1)%nat := value]> x.
Definition initLowWord (nw : nat) (value : Z) : list Z := setLowWord nw (initZero nw) value.

(** ** Readers *)

(** The readers get a character, and either go on with a new state or stop,
    with or without putting the character back. *)
Inductive next (A : Type) : Type :=
| More (a : A)
| Stop (c : ascii) (pb : bool) (a : A).
Arguments More {A} a.
Arguments Stop {A} c pb a.

Fixpoint read_loop {A} (fuel : nat) (step : ascii → A → next A) (si : istream) (a : A) :
    option (ascii * istream * A) :=
  match fuel with
  | O => None
  | S fuel =>
      let '(c, si) := get si in
      match step c a with
      | More a => read_loop fuel step si a
      | Stop c pb a => Some (c, if pb then putback c si else si, a)
      end
  end.
(** Every iteration but the last consumes a character. *)
Definition read_all {A} (step : ascii → A → next A) (si : istream) (a : A) : outcome (ascii * istream * A) :=
  match read_loop (S (length (rest si))) step si a with
  | Some r => Ret r
  | None => Undefined
  end.

Definition hex_step (c : ascii) (s : list Z) : next (list Z) :=
  if isdigit c then More (s ++ [code c - code "0"])
  else let c := toupper c in
       if between "A" c "F" then More (s ++ [code c - code "A" + 0xa])
       else if Ascii.eqb c "_" then More s
       else Stop c true s.

(** The state of the loop that copies nibbles into [x]; [going] is false once
    the loop has been left by [break]. *)
Record hex_acc : Type := { hx : list Z; w : nat; nibble : Z; going : bool }.
Definition hex_fill (s : list Z) (i : nat) (a : hex_acc) : hex_acc :=
  if going a then
    let num := shl 32 (s !!! i) (nibble a * 4) in
    let x := <[w a := Z.lor (hx a !!! w a) num]> (hx a) in
    let nibble := nibble a + 1 in
    if nibble mod 8 =? 0 then
      if (w a =? 0)%nat then {| hx := x; w := w a; nibble := nibble; going := false |}
      else {| hx := x; w := w a - 1; nibble := 0; going := true |}
    else {| hx := x; w := w a; nibble := nibble; going := true |}
  else a.
Definition readHex (si : istream) (size : Z) (x : list Z) : outcome (ascii * istream * list Z) :=
  let num_words := INTBV_WORDS size in
  let! r := read_all hex_step si [] in
  let '(c, si, s) := r in
  let a := for_down (length s) (hex_fill s)
             {| hx := x; w := (num_words - 1)%nat; nibble := 0; going := true |} in
  Ret (c, si, hx a).

(** State: the array, the word [i] and the number of bits in it. *)
Definition bin_step (num_words : nat) (c : ascii) (a : list Z * nat * Z) : next (list Z * nat * Z) :=
  let '(x, i, bit) := a in
  let '(i, bit) := if bit =? 32 then (S i, 0) else (i, bit) in
  if Ascii.eqb c "0" then
    if (num_words - 1 <? i)%nat then Stop c false (x, i, bit)
    else More (<[i := shl 32 (x !!! i) 1]> x, i, bit + 1)
  else if Ascii.eqb c "1" then
    if (num_words - 1 <? i)%nat then Stop c false (x, i, bit)
    else More (<[i := Z.lor (shl 32 (x !!! i) 1) 1]> x, i, bit + 1)
  else if Ascii.eqb c "_" then More (x, i, bit)
  else Stop c true (x, i, bit).
Definition readBin (si : istream) (size : Z) (x : list Z) : outcome (ascii * istream * list Z) :=
  let! r := read_all (bin_step (INTBV_WORDS size)) si (x, 0%nat, 0) in
  let '(c, si, (x, _, _)) := r in Ret (c, si, x).

Definition dec_step (nw : nat) (c : ascii) (a : list Z * list Z) : next (list Z * list Z) :=
  let '(x, tmp) := a in
  if isdigit c then
    let x := multiplyWords nw x Result (Array (initLowWord nw 10)) in
    let tmp := setLowWord nw tmp (code c - code "0") in
    More (addWords nw x Result (Array tmp), tmp)
  else if Ascii.eqb c "_" then More (x, tmp)
  else Stop c true (x, tmp).
Definition readDec (si : istream) (size : Z) (x : list Z) : outcome (ascii * istream * list Z) :=
  let nw := INTBV_WORDS size in
  if (nw =? 1)%nat then
    let '(v, si) := extract_uint32 si (x !!! 0%nat) in
    let '(c, si) := get si in
    Ret (c, putback c si, <[0%nat := v]> x)
  else
    assert! negb (nw =? 0)%nat in
    let! r := read_all (dec_step nw) si (initZero nw, initZero nw) in
    let '(c, si, (x, _)) := r in Ret (c, si, x).

Definition readNumberUnspecifiedFormat (si : istream) (size : Z) (x : list Z) :
    outcome (istream * list Z) :=
  let finish r := let! r := r in let '(_, si, x) := r in Ret (si, x) in
  let '(c, si) := get si in
  if Ascii.eqb c "-" || Ascii.eqb c "+" then finish (readDec si size x)
  else if Ascii.eqb c "0" then
    let '(c, si) := get si in
    if Ascii.eqb c "x" then finish (readHex si size x)
    else if Ascii.eqb c "b" then finish (readBin si size x)
    else finish (readDec (putback "0" (putback c si)) size x)
  else finish (readDec (putback c si) size x).

Definition readNumber (si : istream) (size : Z) (x : list Z) : outcome (istream * list Z) :=
  let finish r := let! r := r in let '(_, si, x) := r in Ret (si, x) in
  if hex (flags si) then finish (readHex si size x)
  else if dec (flags si) then finish (readDec si size x)
  else if oct (flags si) then finish (readBin si size x)
  else readNumberUnspecifiedFormat si size x.

(** The format bits of [intbv_io]. *)
Definition idec : Z := 0x02.
Definition ihex : Z := 0x04.
Definition ibin : Z := 0x08.
Definition iprefix : Z := 0x10.
Definition iupper : Z := 0x20.
Definition has (format bit : Z) : bool := negb (Z.land format bit =? 0).

(** A fresh stream has [dec] set, and [setf] adds to it. *)
Definition readNumber_string (s : list ascii) (format size : Z) (x : list Z) : outcome (list Z) :=
  let f :=
    if has format ihex then {| dec := true; hex := true; oct := false |}
    else if has format idec then {| dec := true; hex := false; oct := false |}
    else if has format ibin then {| dec := true; hex := false; oct := true |}
    else {| dec := false; hex := false; oct := false |} in
  let! r := readNumber {| flags := f; before := []; rest := s; good := true |} size x in
  Ret (snd r).

(** ** Printers *)

Record ostream : Type := {
  obase : basefield;
  showbase : bool;
  uppercase : bool;
  width : Z;
  ofill : ascii;
  out : list ascii
}.
Definition set_obase (b : basefield) (os : ostream) : ostream :=
  {| obase := b; showbase := showbase os; uppercase := uppercase os; width := width os;
     ofill := ofill os; out := out os |}.
Definition set_showbase (b : bool) (os : ostream) : ostream :=
  {| obase := obase os; showbase := b; uppercase := uppercase os; width := width os;
     ofill := ofill os; out := out os |}.
Definition setw (n : Z) (os : ostream) : ostream :=
  {| obase := obase os; showbase := showbase os; uppercase := uppercase os; width := n;
     ofill := ofill os; out := out os |}.
Definition set_ofill (c : ascii) (os : ostream) : ostream :=
  {| obase := obase os; showbase := showbase os; uppercase := uppercase os; width := width os;
     ofill := c; out := out os |}.
(** Formatted output of a text: padded on the left to the width, which is then
    reset. *)
Definition put (l : list ascii) (os : ostream) : ostream :=
  {| obase := obase os; showbase := showbase os; uppercase := uppercase os; width := 0;
     ofill := ofill os;
     out := out os ++ replicate (Z.to_nat (width os) - length l) (ofill os) ++ l |}.

Definition digit_char (upper : bool) (d : Z) : ascii :=
  if d <? 10 then chr (48 + d) else chr ((if upper then 55 else 87) + d).
Fixpoint num_digits (fuel : nat) (b v : Z) (acc : list Z) : list Z :=
  match fuel with
  | O => acc
  | S fuel => let acc := v mod b :: acc in
              if v / b =? 0 then acc else num_digits fuel b (v / b) acc
  end.
Definition num_text (upper : bool) (b v : Z) : list ascii :=
  digit_char upper <$> num_digits (S (Z.to_nat (Z.log2 v))) b v [].
(** [os << n] for a [uint32_t] on a stream without [showbase]. *)
Definition put_uint32 (v : Z) (os : ostream) : ostream :=
  put (num_text (uppercase os) (default 10 (int_base (obase os))) v) os.

Definition text (s : string) : list ascii := String.list_ascii_of_string s.

(** The loop of [printDec]; [p] is the position in the buffer. *)
Fixpoint dec_loop (junk : Z) (nw : nat) (ten : list Z) (p : nat) (quotient tmp dividend : list Z)
    (acc : list ascii) : outcome (list ascii) :=
  if isZero dividend nw then Ret acc
  else
    let! quotient := divideWords nw junk quotient dividend ten in
    let tmp := multiplyWords nw tmp (Array quotient) (Array ten) in
    let tmp := subtractWords nw tmp (Array dividend) Result in
    match p with
    | O => Undefined
    | S p => dec_loop junk nw ten p quotient tmp quotient (chr (48 + tmp !!! (nw - 1)%nat) :: acc)
    end.
Definition printDec (junk : Z) (os : ostream) (size : Z) (x : list Z) : outcome ostream :=
  let old_options := obase os in
  let os := set_obase {| dec := true; hex := false; oct := false |} os in
  let nw := INTBV_WORDS size in
  let! os :=
    if (nw =? 1)%nat then Ret (put_uint32 (x !!! 0%nat) os)
    else
      assert! negb (nw =? 0)%nat in
      let len := Z.to_nat ((size + 1) / 2) in
      let! buf := dec_loop junk nw (initLowWord nw 10) (len - 1) (initZero nw) (initZero nw) x [] in
      Ret (put buf os) in
  Ret (set_obase old_options os).

Definition bin_word (w : Z) (os : ostream) : ostream :=
  snd (for_up 32 0 (λ _ '(bitmask, os),
    (Z.shiftr bitmask 1, put [if Z.land w bitmask =? 0 then "0"%char else "1"%char] os))
    (0x80000000, os)).
(** [flags && showbase] holds whenever some flag is set, as a base always is. *)
Definition printBin (os : ostream) (size : Z) (x : list Z) : ostream :=
  let os := if dec (obase os) || hex (obase os) || oct (obase os) || showbase os || uppercase os
            then put (text "0b") os else os in
  for_up (INTBV_WORDS size) 0 (λ i os, bin_word (x !!! i) os) os.

Definition printHex (os : ostream) (size : Z) (x : list Z) : ostream :=
  let old_base := obase os in
  let old_showbase := showbase os in
  let os := set_obase {| dec := false; hex := true; oct := false |} os in
  let width := width os in
  let os := if old_showbase then put (text "0x") os else os in
  let os := set_showbase false os in
  let os :=
    if (8 <? width) || (width =? 0) && (1 <? size) then
      let n := (size mod 32 + 3) / 4 in
      let oldFill := ofill os in
      let os := set_ofill "0" os in
      let n := if n =? 0 then 8 else n in
      set_ofill oldFill (put_uint32 (x !!! 0%nat) (setw n os))
    else put_uint32 (x !!! 0%nat) os in
  let oldFill := ofill os in
  let os := set_ofill "0" os in
  let os := for_up (INTBV_WORDS size - 1) 1 (λ i os, put_uint32 (x !!! i) (setw 8 os)) os in
  set_obase old_base (set_showbase old_showbase (set_ofill oldFill os)).

Definition printToOS (junk : Z) (os : ostream) (size : Z) (x : list Z) : outcome ostream :=
  if hex (obase os) then Ret (printHex os size x)
  else if oct (obase os) then Ret (printBin os size x)
  else printDec junk os size x.

Definition str (junk : Z) (format size : Z) (x : list Z) : outcome (list ascii) :=
  let ss := {| obase := {| dec := true; hex := false; oct := false |};
               showbase := has format iprefix; uppercase := has format iupper;
               width := 0; ofill := " "; out := [] |} in
  let ss :=
    if has format ibin then set_obase {| dec := true; hex := false; oct := true |} ss
    else if has format idec then ss
    else set_obase {| dec := true; hex := true; oct := false |} ss in
  let! ss := printToOS junk ss size x in
  Ret (out ss).

Definition writeNumber (junk : Z) (os : ostream) (size : Z) (x : list Z) : outcome ostream :=
  match dec (obase os), hex (obase os), oct (obase os) with
  | false, true, false => Ret (printHex os size x)
  | true, false, false => printDec junk os size x
  | _, _, _ => Ret (printBin os size x)
  end.
