(* ===== verification/WordIOCorrect.v ===== *)
(** * Reading and printing: values and round trips

    The readers compute the value of the digits that they consume, modulo the
    size of the array; the printers write the digits of the value; reading back
    what was printed gives the array again. *)
From stdpp Require Import prelude strings.
From Stdlib Require Import ZArith Lia Ascii.
From S2P Require Import Prelude.
From S2P Require Import WordArith.
From S2P Require Import WordDivide.
From S2P Require Import IntbvBase.
From S2P Require Import IntbvLaws.
From S2P Require Import IntbvArray.
From S2P Require Import Intbv.
From S2P Require Import IntbvSpec.
From S2P Require Import IntbvCorrect.
From S2P Require Import WordIO.

Local Open Scope Z_scope.

(** ** Streams *)

(** The state that a reader ends in, as a function of the characters left. *)
Fixpoint drive {A} (step : ascii → A → next A) (l : list ascii) (a : A) : A :=
  match l with
  | [] => match step EOF a with More a => a | Stop _ _ a => a end
  | c :: l => match step c a with More a => drive step l a | Stop _ _ a => a end
  end.

(** A reader stops at the end of the input, so its loop always ends. *)
Lemma read_loop_drive {A} (step : ascii → A → next A) l fl b n a :
  (∀ a, ∃ c pb a', step EOF a = Stop c pb a') → (length l < n)%nat →
  ∃ c si, read_loop n step {| flags := fl; before := b; rest := l; good := true |} a =
          Some (c, si, drive step l a).
Proof.
  intros He. revert b n a. induction l as [|c l IH]; intros b n a Hn;
    (destruct n as [|n]; [simpl in Hn; lia|]); cbn [read_loop get good rest drive].
  - destruct (He a) as (c & pb & a' & ->). by eexists _, _.
  - destruct (step c a) as [a'|c' pb a']; [|by eexists _, _].
    apply (IH (reverse (take 1 (c :: l)) ++ b)). simpl in Hn. lia.
Qed.

Lemma read_all_drive {A} (step : ascii → A → next A) si a :
  (∀ a, ∃ c pb a', step EOF a = Stop c pb a') → good si = true →
  ∃ c si', read_all step si a = Ret (c, si', drive step (rest si) a).
Proof.
  intros He Hg. destruct si as [fl b l g]. cbn in Hg. subst g. unfold read_all.
  destruct (read_loop_drive step l fl b (S (length l)) a He ltac:(lia)) as (c & si' & E).
  cbn [rest]. rewrite E. by eexists _, _.
Qed.

(** ** Hexadecimal input *)

(** The digits before the first character that is neither a digit nor [_]. *)
Fixpoint run (b : Z) (l : list ascii) : list Z :=
  match l with
  | [] => []
  | c :: l => match digit_of b c with
              | Some d => d :: run b l
              | None => if Ascii.eqb c "_" then run b l else []
              end
  end.

Lemma hex_step_spec c s : hex_step c s =
  match digit_of 16 c with
  | Some d => More (s ++ [d])
  | None => if Ascii.eqb c "_" then More s else Stop (toupper c) true s
  end.
Proof. destruct c as [[] [] [] [] [] [] [] []]; reflexivity. Qed.

Lemma hex_drive l s : drive hex_step l s = s ++ run 16 l.
Proof.
  revert s. induction l as [|c l IH]; intros s; cbn [drive run].
  - rewrite hex_step_spec. cbn. by rewrite app_nil_r.
  - rewrite hex_step_spec. destruct (digit_of 16 c) as [d|].
    + rewrite IH. by rewrite <- app_assoc.
    + destruct (Ascii.eqb c "_"); [apply IH|by rewrite app_nil_r].
Qed.

Lemma digit_of_16 c d : digit_of 16 c = Some d → uint 4 d.
Proof. destruct c as [[] [] [] [] [] [] [] []]; intros E; vm_compute in E; simplify_eq; split; vm_compute; congruence. Qed.

Lemma run_digits l : digits 4 (run 16 l).
Proof.
  unfold digits. induction l as [|c l IH]; cbn [run]; [done|]. destruct (digit_of 16 c) as [d|] eqn:E.
  - constructor; [by eapply digit_of_16|done].
  - by destruct (Ascii.eqb c "_").
Qed.

(** The state of the copying loop when the digits from [i] on are in place. *)
Definition fill_inv (nw : nat) (s : list Z) (i : nat) (a : hex_acc) : Prop :=
  words nw (hx a) ∧
  beval 32 (hx a) = beval 4 (drop i s) mod 2 ^ (32 * Z.of_nat nw) ∧
  if going a then
    (w a < nw)%nat ∧ 0 ≤ nibble a < 8 ∧
    Z.of_nat (length s - i) = 8 * (Z.of_nat nw - 1 - Z.of_nat (w a)) + nibble a
  else (8 * nw ≤ length s - i)%nat.

Lemma low_word nw x i : words nw x → (i < nw)%nat → ∀ j, 0 ≤ j →
  beval 32 x < 2 ^ (32 * (Z.of_nat nw - 1 - Z.of_nat i) + j) → x !!! i < 2 ^ j.
Proof.
  intros [Hl Hd] Hi j Hj Hlt. rewrite (lookup_beval 32 ltac:(lia)) by (done || lia).
  rewrite Hl. pose proof (beval_bound 32 ltac:(lia) x Hd) as [H0 _].
  set (e := 32 * (Z.of_nat nw - 1 - Z.of_nat i)) in *.
  assert (beval 32 x / 2 ^ e < 2 ^ j).
  { apply Z.div_lt_upper_bound; [apply pow2_pos; lia|]. rewrite <- Z.pow_add_r by lia. done. }
  pose proof (Z.div_pos (beval 32 x) (2 ^ e) H0 (pow2_pos e ltac:(lia))).
  unfold wrap. eapply Z.le_lt_trans; [apply Z.mod_le; [done|by apply pow2_pos]|done].
Qed.

(** A digit above the array does not change the value modulo its size. *)
Lemma drop_digit_mod nw s i : (i < length s)%nat → (8 * nw ≤ length s - (i + 1))%nat →
  beval 4 (drop i s) mod 2 ^ (32 * Z.of_nat nw) = beval 4 (drop (i + 1) s) mod 2 ^ (32 * Z.of_nat nw).
Proof.
  intros Hi Hn. rewrite beval_drop by done.
  set (e := 4 * (Z.of_nat (length s) - 1 - Z.of_nat i)).
  replace e with (32 * Z.of_nat nw + (e - 32 * Z.of_nat nw)) by lia.
  rewrite Z.pow_add_r by lia.
  replace (_ * (2 ^ (32 * Z.of_nat nw) * _)) with
    (s !!! i * 2 ^ (e - 32 * Z.of_nat nw) * 2 ^ (32 * Z.of_nat nw)) by ring.
  rewrite Z.add_comm, Z_mod_plus_full. done.
Qed.

(** One nibble is added above the [nib] nibbles already in a word. *)
Lemma add_nibble v d nib : uint 32 v → v < 2 ^ (4 * nib) → uint 4 d → 0 ≤ nib < 8 →
  Z.lor v (shl 32 d (nib * 4)) = v + d * 2 ^ (4 * nib) ∧ uint 32 (v + d * 2 ^ (4 * nib)).
Proof.
  intros Hv Hlt Hd Hn. assert (2 ^ 4 * 2 ^ (4 * nib) ≤ 2 ^ 32) as Hp.
  { rewrite <- Z.pow_add_r by lia. apply Z.pow_le_mono_r; lia. }
  pose proof (pow2_pos (4 * nib) ltac:(lia)). unfold uint in *.
  assert (0 ≤ d * 2 ^ (4 * nib) ∧ d * 2 ^ (4 * nib) + 2 ^ (4 * nib) ≤ 2 ^ 32) by nia.
  rewrite shl_spec, (Z.mul_comm nib), wrap_small by (unfold uint; lia).
  rewrite lor_add by (unfold uint; lia). lia.
Qed.

Lemma hex_fill_spec nw s i a : digits 4 s → (i < length s)%nat →
  fill_inv nw s (i + 1) a → fill_inv nw s i (hex_fill s i a).
Proof.
  intros Hs Hi (Hx & Hv & Hg). unfold hex_fill. destruct a as [x wi nib g]. cbn [hx w nibble going] in *.
  destruct g; [|split_and!; [done|cbn [hx]; rewrite Hv; symmetry; by apply drop_digit_mod|cbn; lia]].
  destruct Hg as (Hw & Hnib & Hlen). pose proof Hx as [Hl Hdx].
  set (e := 32 * (Z.of_nat nw - 1 - Z.of_nat wi)).
  pose proof (beval_bound 4 ltac:(lia) (drop (i + 1) s) ltac:(by apply digits_drop)) as Hb.
  pose proof (beval_bound 4 ltac:(lia) (drop i s) ltac:(by apply digits_drop)) as Hb'.
  rewrite length_drop in Hb, Hb'.
  replace (4 * Z.of_nat (length s - (i + 1))) with (e + 4 * nib) in Hb by lia.
  replace (4 * Z.of_nat (length s - i)) with (e + 4 * nib + 4) in Hb' by lia.
  assert (2 ^ (e + 4 * nib) ≤ 2 ^ (32 * Z.of_nat nw)) by (apply Z.pow_le_mono_r; lia).
  assert (2 ^ (e + 4 * nib + 4) ≤ 2 ^ (32 * Z.of_nat nw)) by (apply Z.pow_le_mono_r; lia).
  unfold uint in Hb, Hb'. rewrite Z.mod_small in Hv by lia.
  destruct (add_nibble (x !!! wi) (s !!! i) nib) as [-> Hu]; [by apply digits_lookup| |by apply digits_lookup|done|].
  { apply (low_word nw x wi Hx Hw); [lia|]. rewrite Hv. apply Hb. }
  assert (beval 32 (<[wi := x !!! wi + s !!! i * 2 ^ (4 * nib)]> x) = beval 4 (drop i s)) as Hv'.
  { rewrite (beval_insert 32 ltac:(lia)) by lia. rewrite Hv, (beval_drop 4 s i) by done. rewrite Hl.
    fold e. replace (4 * (Z.of_nat (length s) - 1 - Z.of_nat i)) with (4 * nib + e) by lia.
    rewrite Z.pow_add_r by lia. ring. }
  assert (words nw (<[wi := x !!! wi + s !!! i * 2 ^ (4 * nib)]> x)) as Hw'
    by (split; [by rewrite length_insert|by apply digits_insert]).
  destruct (Z.eqb_spec ((nib + 1) mod 8) 0) as [Hm|Hm]; [destruct (Nat.eqb_spec wi 0)|];
    (split_and!; cbn [hx w nibble going]; [done|by rewrite Hv', Z.mod_small by lia|]).
  - zlia.
  - split_and!; [lia..|zlia].
  - split_and!; [lia|lia|zlia|lia].
Qed.

Lemma fill_spec nw s x : (0 < nw)%nat → digits 4 s → words nw x → beval 32 x = 0 →
  let a := for_down (length s) (hex_fill s) {| hx := x; w := (nw - 1)%nat; nibble := 0; going := true |} in
  words nw (hx a) ∧ beval 32 (hx a) = beval 4 s mod 2 ^ (32 * Z.of_nat nw).
Proof.
  intros Hnw Hs Hx Hz a. assert (fill_inv nw s 0 a) as (? & ? & _); [|done].
  apply (for_down_ind (fill_inv nw s)).
  - split_and!; [done|cbn; by rewrite Hz, drop_all|cbn; lia..].
  - intros i t Hi Ht. by apply hex_fill_spec.
Qed.

Lemma readHex_spec si size x : 1 ≤ size → good si = true → words (INTBV_WORDS size) x → beval 32 x = 0 →
  ∃ c si' r, readHex si size x = Ret (c, si', r) ∧ words (INTBV_WORDS size) r ∧
    beval 32 r = beval 4 (run 16 (rest si)) mod 2 ^ (32 * Z.of_nat (INTBV_WORDS size)).
Proof.
  intros Hs Hg Hx Hz. unfold readHex.
  destruct (read_all_drive hex_step si [] ltac:(intros a; by eexists _, _, _) Hg) as (c & si' & ->).
  cbn [obind]. rewrite hex_drive. cbn [app].
  destruct (INTBV_WORDS_spec size ltac:(lia)) as [Hn _].
  destruct (fill_spec (INTBV_WORDS size) (run 16 (rest si)) x ltac:(lia) (run_digits _) Hx Hz) as [Hw Hv].
  by eexists _, _, _.
Qed.

(** ** Binary input *)

(** Word [q] of a sequence of bits cut into words from the left. *)
Definition chunk (q : nat) (p : list Z) : list Z := take 32 (drop (32 * q) p).

Lemma chunk_app_full q p r : (32 * (q + 1) ≤ length p)%nat → chunk q (p ++ r) = chunk q p.
Proof.
  intros H. unfold chunk. rewrite drop_app_le by lia. rewrite take_app_le; [done|]. rewrite length_drop. lia.
Qed.
Lemma chunk_nil q p : (length p ≤ 32 * q)%nat → chunk q p = [].
Proof. intros H. unfold chunk. by rewrite drop_ge by done. Qed.
Lemma chunk_snoc q p d : (32 * q ≤ length p < 32 * q + 32)%nat → chunk q (p ++ [d]) = chunk q p ++ [d].
Proof.
  intros H. unfold chunk. rewrite drop_app_le by lia.
  rewrite !take_ge by (rewrite ?length_app, length_drop; simpl; lia). done.
Qed.
Lemma chunk_digits q p : digits 1 p → digits 1 (chunk q p).
Proof. intros H. by apply Forall_take, digits_drop. Qed.

Record bin_inv (nw : nat) (p : list Z) (a : list Z * nat * Z) : Prop := {
  bin_words : words nw a.1.1;
  bin_bits : digits 1 p;
  bin_pos : Z.of_nat (length p) = 32 * Z.of_nat a.1.2 + a.2;
  bin_bit : 0 ≤ a.2 ≤ 32;
  bin_fits : (length p ≤ 32 * nw)%nat;
  bin_value : ∀ q, (q < nw)%nat → a.1.1 !!! q = beval 1 (chunk q p)
}.

Lemma bin_push nw p x i bit d v : bin_inv nw p (x, i, bit) → bit < 32 → (i < nw)%nat → uint 1 d →
  v = x !!! i * 2 + d → bin_inv nw (p ++ [d]) (<[i := v]> x, i, bit + 1).
Proof.
  intros [Hw Hb Hp Hbit Hf Hv] Hlt Hi Hd ->. cbn [fst snd] in *. destruct Hw as [Hl Hdx].
  assert (x !!! i * 2 + d = beval 1 (chunk i (p ++ [d]))) as E.
  { rewrite chunk_snoc by lia. rewrite (beval_app 1 ltac:(lia)), Hv by done. cbn. lia. }
  split; cbn [fst snd].
  - split; [by rewrite length_insert|]. apply digits_insert; [done|]. rewrite E.
    apply (uint_mono (1 * Z.of_nat (length (chunk i (p ++ [d]))))).
    + unfold chunk. rewrite length_take. lia.
    + apply beval_bound; [lia|]. apply chunk_digits, Forall_app. split; [done|by constructor].
  - apply Forall_app. split; [done|by constructor].
  - rewrite length_app. simpl. lia.
  - lia.
  - rewrite length_app. simpl. lia.
  - intros q Hq. destruct (decide (q = i)) as [->|Hne].
    + by rewrite list_lookup_total_insert_eq by lia.
    + rewrite list_lookup_total_insert_ne by done. rewrite Hv by done. f_equal.
      destruct (decide (q < i)%nat); [by rewrite chunk_app_full by lia|].
      by rewrite !chunk_nil by (rewrite ?length_app; simpl; lia).
Qed.

Lemma bin_norm nw p x i bit : bin_inv nw p (x, i, bit) →
  ∃ i' bit', (if bit =? 32 then (S i, 0) else (i, bit)) = (i', bit') ∧
    bin_inv nw p (x, i', bit') ∧ bit' < 32.
Proof.
  intros [Hw Hb Hp Hbit Hf Hv]. cbn [fst snd] in *. destruct (Z.eqb_spec bit 32); eexists _, _;
    (split; [done|]); (split; [|lia]); split; cbn [fst snd]; done || lia.
Qed.

Lemma digit_of_2 c : digit_of 2 c =
  if Ascii.eqb c "0" then Some 0 else if Ascii.eqb c "1" then Some 1 else None.
Proof. destruct c as [[] [] [] [] [] [] [] []]; reflexivity. Qed.

Lemma shl_lt_half v n : 0 ≤ n < 32 → uint n v → shl 32 v 1 = v * 2 ∧ Z.lor (shl 32 v 1) 1 = v * 2 + 1.
Proof.
  intros Hn Hv. rewrite shl_spec by lia. unfold uint in *.
  assert (2 ^ n ≤ 2 ^ 31) by (apply Z.pow_le_mono_r; lia).
  rewrite wrap_small by (unfold uint; lia). split; [lia|].
  apply (lor_add_mod (v * 2) 1 1); [lia|change (2 ^ 1) with 2; apply Z_mod_mult|unfold uint; lia].
Qed.

Lemma bin_step_spec nw c p a : bin_inv nw p a → (0 < nw)%nat →
  match digit_of 2 c with
  | Some d => (∃ a', bin_step nw c a = More a' ∧ bin_inv nw (p ++ [d]) a') ∨
              (length p = 32 * nw)%nat ∧ ∃ pb a', bin_step nw c a = Stop c pb a' ∧ bin_inv nw p a'
  | None => ∃ a', bin_inv nw p a' ∧
      bin_step nw c a = if Ascii.eqb c "_" then More a' else Stop c true a'
  end.
Proof.
  intros Hinv Hnw. destruct a as [[x i] bit].
  destruct (bin_norm nw p x i bit Hinv) as (i' & bit' & E & Hinv' & Hlt).
  unfold bin_step. rewrite E, digit_of_2. clear E Hinv. destruct Hinv' as [Hw Hb Hp Hbit Hf Hv] eqn:HI.
  cbn [fst snd] in *.
  assert ((i' < nw)%nat → shl 32 (x !!! i') 1 = x !!! i' * 2 ∧ Z.lor (shl 32 (x !!! i') 1) 1 = x !!! i' * 2 + 1)
    as Hshl.
  { intros Hi. apply (shl_lt_half _ bit'); [lia|]. rewrite Hv by done.
    replace bit' with (1 * Z.of_nat (length (chunk i' p))).
    - apply beval_bound; [lia|by apply chunk_digits].
    - unfold chunk. rewrite length_take, length_drop. lia. }
  destruct (Ascii.eqb c "0"); [|destruct (Ascii.eqb c "1")].
  1,2: destruct (Nat.ltb_spec (nw - 1) i'); [right; split; [lia|by eexists _, _]|left; eexists; split; [done|]].
  - apply bin_push; [done|done|lia|unfold uint; lia|]. rewrite (proj1 (Hshl ltac:(lia))). lia.
  - apply bin_push; [done|done|lia|unfold uint; lia|]. by rewrite (proj2 (Hshl ltac:(lia))).
  - eexists. split; [exact Hinv'|]. by destruct (Ascii.eqb c "_").
Qed.

Lemma bin_drive nw l p a : bin_inv nw p a → (0 < nw)%nat →
  words nw (drive (bin_step nw) l a).1.1 ∧
  ∀ q, (q < nw)%nat → (drive (bin_step nw) l a).1.1 !!! q = beval 1 (chunk q (p ++ run 2 l)).
Proof.
  intros Hinv Hnw. revert p a Hinv. induction l as [|c l IH]; intros p a Hinv; cbn [drive run].
  - destruct (bin_step_spec nw EOF p a Hinv Hnw) as (a' & [Hw _ _ _ _ Hv] & ->). rewrite app_nil_r. done.
  - pose proof (bin_step_spec nw c p a Hinv Hnw) as H. destruct (digit_of 2 c) as [d|].
    + destruct H as [(a' & -> & Ha')|(Hfull & pb & a' & -> & [Hw _ _ _ _ Hv])].
      * replace (p ++ d :: run 2 l) with ((p ++ [d]) ++ run 2 l) by by rewrite <- app_assoc.
        by apply IH.
      * split; [done|]. intros q Hq. rewrite Hv by done. by rewrite chunk_app_full by lia.
    + destruct H as (a' & Ha' & ->). destruct (Ascii.eqb c "_"); [by apply IH|].
      rewrite app_nil_r. destruct Ha'. done.
Qed.

Lemma readBin_spec si size x : 1 ≤ size → good si = true → words (INTBV_WORDS size) x → beval 32 x = 0 →
  ∃ c si' r, readBin si size x = Ret (c, si', r) ∧ words (INTBV_WORDS size) r ∧
    ∀ q, (q < INTBV_WORDS size)%nat → r !!! q = beval 1 (chunk q (run 2 (rest si))).
Proof.
  intros Hs Hg Hx Hz. unfold readBin. set (nw := INTBV_WORDS size) in *.
  assert (0 < nw)%nat as Hnw by (destruct (INTBV_WORDS_spec size ltac:(lia)); lia).
  assert (bin_inv nw [] (x, 0%nat, 0)) as Hinv.
  { split; cbn [fst snd]; [done|constructor|cbn; lia|lia|cbn; lia|]. intros q Hq.
    rewrite chunk_nil by (cbn; lia). destruct Hx as [Hl Hd].
    rewrite (lookup_beval 32 ltac:(lia)) by (done || lia). rewrite Hz. by rewrite Z.div_0_l by (apply Z.pow_nonzero; lia). }
  destruct (read_all_drive (bin_step nw) si (x, 0%nat, 0)) as (c & si' & ->); [|done|].
  { intros [[x' i] bit]. unfold bin_step. destruct (if bit =? 32 then _ else _). by eexists _, _, _. }
  destruct (bin_drive nw (rest si) [] _ Hinv Hnw) as [Hw Hv]. cbn [obind].
  destruct (drive (bin_step nw) (rest si) (x, 0%nat, 0)) as [[r i] bit]. by eexists _, _, _.
Qed.

(** ** Decimal input *)

Definition low_only (nw : nat) (v : Z) : list Z := replicate (nw - 1) 0 ++ [v].

Lemma setLowWord_low nw t v : (0 < nw)%nat → setLowWord nw (low_only nw t) v = low_only nw v.
Proof.
  intros H. unfold setLowWord, low_only. rewrite insert_app_r_alt by (rewrite length_replicate; lia).
  rewrite length_replicate, Nat.sub_diag. done.
Qed.
Lemma initLowWord_low nw v : (0 < nw)%nat → initLowWord nw v = low_only nw v.
Proof. intros. by apply insert_replicate_last. Qed.
Lemma initZero_low nw : (0 < nw)%nat → initZero nw = low_only nw 0.
Proof.
  intros H. unfold initZero, low_only. destruct nw as [|n]; [lia|].
  rewrite Nat.sub_succ, Nat.sub_0_r. change [0] with (replicate 1 0).
  rewrite <- replicate_add. f_equal. lia.
Qed.
Lemma words_low nw v : (0 < nw)%nat → uint 32 v → words nw (low_only nw v).
Proof.
  intros H Hv. unfold low_only. split; [rewrite length_app, length_replicate; simpl; lia|].
  apply Forall_app. split; [|by constructor]. apply Forall_replicate. unfold uint. lia.
Qed.
Lemma beval_low nw v : beval 32 (low_only nw v) = v.
Proof. unfold low_only. rewrite (beval_app 32 ltac:(lia)), beval_replicate_0. cbn. lia. Qed.

Lemma digit_of_10 c : digit_of 10 c = if isdigit c then Some (code c - code "0") else None.
Proof. destruct c as [[] [] [] [] [] [] [] []]; reflexivity. Qed.
Lemma digit_of_10_bound c d : digit_of 10 c = Some d → 0 ≤ d < 10.
Proof. destruct c as [[] [] [] [] [] [] [] []]; intros E; vm_compute in E; simplify_eq; lia. Qed.

(** One digit: multiply by ten in place and add. *)
Lemma dec_digit nw x d : (0 < nw)%nat → Z.of_nat nw ≤ 16384 → words nw x → 0 ≤ d < 10 →
  let y := multiplyWords nw x Result (Array (low_only nw 10)) in
  let r := addWords nw y Result (Array (low_only nw d)) in
  words nw r ∧ beval 32 r = (beval 32 x * 10 + d) mod 2 ^ (32 * Z.of_nat nw).
Proof.
  intros Hnw Hmax Hx Hd y r.
  destruct (multiplyWords_in_place_spec nw x (low_only nw 10) Hmax Hx) as [Hy Ey];
    [apply words_low; [done|unfold uint; lia]|rewrite beval_low; lia|]. fold y in Hy, Ey.
  destruct (addWords_spec nw y Result (Array (low_only nw d)) (proj1 Hy) Hy) as [Hr Er];
    [apply words_low; [done|unfold uint; lia]|]. fold r in Hr, Er.
  split; [done|]. rewrite Er. cbn [contents]. rewrite Ey, !beval_low. by rewrite Zplus_mod_idemp_l.
Qed.

Lemma dec_step_spec nw c x t : (0 < nw)%nat → dec_step nw c (x, low_only nw t) =
  match digit_of 10 c with
  | Some d => More (addWords nw (multiplyWords nw x Result (Array (low_only nw 10))) Result
                      (Array (low_only nw d)), low_only nw d)
  | None => if Ascii.eqb c "_" then More (x, low_only nw t) else Stop c true (x, low_only nw t)
  end.
Proof.
  intros H. unfold dec_step. rewrite digit_of_10. destruct (isdigit c); [|done].
  by rewrite initLowWord_low, setLowWord_low.
Qed.

Lemma dec_drive nw l x t : (0 < nw)%nat → Z.of_nat nw ≤ 16384 → words nw x →
  words nw (drive (dec_step nw) l (x, low_only nw t)).1 ∧
  beval 32 (drive (dec_step nw) l (x, low_only nw t)).1 =
    foldl (λ v d, v * 10 + d) (beval 32 x) (run 10 l) mod 2 ^ (32 * Z.of_nat nw).
Proof.
  intros Hnw Hmax. revert x t. induction l as [|c l IH]; intros x t Hx; cbn [drive run].
  - cbn. split; [done|]. symmetry. apply Z.mod_small, words_bound, Hx.
  - rewrite dec_step_spec by done. destruct (digit_of 10 c) as [d|] eqn:Ed.
    + destruct (dec_digit nw x d Hnw Hmax Hx (digit_of_10_bound _ _ Ed)) as [Hr Er].
      destruct (IH _ d Hr) as [Hr' Er']. split; [done|]. rewrite Er', Er. cbn [foldl].
      clear. generalize (beval 32 x * 10 + d) as v, (2 ^ (32 * Z.of_nat nw)) as M.
      induction (run 10 l) as [|e ds IH] using rev_ind; intros v M; [cbn; apply Zmod_mod|].
      rewrite !foldl_app. cbn [foldl]. rewrite <- (Zplus_mod_idemp_l (_ * 10)), <- Zmult_mod_idemp_l, IH.
      by rewrite Zmult_mod_idemp_l, Zplus_mod_idemp_l.
    + destruct (Ascii.eqb c "_"); [by apply IH|]. cbn. split; [done|].
      symmetry. apply Z.mod_small, words_bound, Hx.
Qed.

(** Vectors of more than one word. *)
Lemma wide_words size : 32 < size ≤ 524288 →
  (2 ≤ INTBV_WORDS size)%nat ∧ Z.of_nat (INTBV_WORDS size) ≤ 16384.
Proof. intros Hs. destruct (INTBV_WORDS_spec size ltac:(lia)). unfold W in *. lia. Qed.

Lemma readDec_wide si size x : 32 < size ≤ 524288 → good si = true →
  ∃ c si' r, readDec si size x = Ret (c, si', r) ∧ words (INTBV_WORDS size) r ∧
    beval 32 r = digits_val 10 (run 10 (rest si)) mod 2 ^ (32 * Z.of_nat (INTBV_WORDS size)).
Proof.
  intros Hs Hg. unfold readDec. set (nw := INTBV_WORDS size) in *.
  assert ((2 ≤ nw)%nat ∧ Z.of_nat nw ≤ 16384) as [Hnw Hmax] by by apply wide_words.
  destruct (Nat.eqb_spec nw 1); [lia|]. destruct (Nat.eqb_spec nw 0); [lia|]. cbn [negb].
  destruct (read_all_drive (dec_step nw) si (initZero nw, initZero nw)) as (c & si' & ->); [|done|].
  { intros [x' t]. by eexists _, _, _. }
  rewrite initZero_low by lia.
  destruct (dec_drive nw (rest si) (low_only nw 0) 0) as [Hw Hv];
    [lia|done|apply words_low; [lia|unfold uint; lia]|].
  cbn [obind]. destruct (drive (dec_step nw) (rest si) _) as [r t]. eexists _, _, _. split; [done|].
  split; [done|]. cbn [fst] in Hv. by rewrite Hv, beval_low.
Qed.

(** ** Texts of numbers *)

Lemma num_digits_S n b v acc : num_digits (S n) b v acc =
  if v / b =? 0 then v mod b :: acc else num_digits n b (v / b) (v mod b :: acc).
Proof. done. Qed.

Lemma num_digits_app n b v acc : num_digits n b v acc = num_digits n b v [] ++ acc.
Proof.
  revert v acc. induction n as [|n IH]; intros v acc; [done|]. cbn [num_digits].
  destruct (v / b =? 0); [done|]. rewrite (IH _ (_ :: acc)), (IH _ [v mod b]). by rewrite <- app_assoc.
Qed.

Lemma div_half b v n : 2 ≤ b → 0 ≤ v < 2 ^ Z.of_nat (S n) → 0 ≤ v / b < 2 ^ Z.of_nat n.
Proof.
  intros Hb Hv. rewrite Nat2Z.inj_succ, Z.pow_succ_r in Hv by lia.
  split; [apply Z.div_pos; lia|]. apply Z.div_lt_upper_bound; [lia|].
  pose proof (pow2_pos (Z.of_nat n)). nia.
Qed.

(** Enough iterations give all digits, and more change nothing. *)
Lemma num_digits_fuel b n m v : 2 ≤ b → 0 ≤ v < 2 ^ Z.of_nat (S n) → 0 ≤ v < 2 ^ Z.of_nat (S m) →
  num_digits (S n) b v [] = num_digits (S m) b v [].
Proof.
  intros Hb. revert m v. induction n as [|n IH]; intros m v Hn Hm.
  - rewrite !num_digits_S. pose proof (div_half b v 0 Hb Hn).
    destruct (Z.eqb_spec (v / b) 0); [done|]. cbn in H. lia.
  - rewrite (num_digits_S (S n)), (num_digits_S m). destruct (Z.eqb_spec (v / b) 0) as [|Hne]; [done|].
    destruct m as [|m]; [pose proof (div_half b v 0 Hb Hm) as H; cbn in H; lia|].
    rewrite (num_digits_app (S n)), (num_digits_app (S m)). f_equal.
    apply IH; by apply div_half.
Qed.

Definition all_digits (b v : Z) : list Z := num_digits (S (Z.to_nat (Z.log2 v))) b v [].

Lemma log2_fuel v : 0 ≤ v → v < 2 ^ Z.of_nat (S (Z.to_nat (Z.log2 v))).
Proof.
  intros Hv. rewrite Nat2Z.inj_succ, Z2Nat.id by apply Z.log2_nonneg.
  destruct (Z.eq_dec v 0) as [->|]; [done|]. apply Z.log2_spec. lia.
Qed.

Lemma all_digits_step b v : 2 ≤ b → 0 ≤ v → all_digits b v =
  if v / b =? 0 then [v mod b] else all_digits b (v / b) ++ [v mod b].
Proof.
  intros Hb Hv. unfold all_digits at 1. pose proof (log2_fuel v Hv) as Hf.
  set (n := Z.to_nat (Z.log2 v)) in *. rewrite num_digits_S.
  destruct (Z.eqb_spec (v / b) 0) as [|Hne]; [done|].
  destruct n as [|n]; [pose proof (div_half b v 0 Hb ltac:(done)) as H; cbn in H; lia|].
  rewrite num_digits_app. f_equal. apply num_digits_fuel; [done|by apply div_half|].
  assert (0 ≤ v / b) by (apply Z.div_pos; lia). split; [done|by apply log2_fuel].
Qed.

(** Induction on the digits of a number. *)
Lemma digits_ind b (P : Z → Prop) : 2 ≤ b →
  (∀ v, 0 ≤ v → (v / b ≠ 0 → P (v / b)) → P v) → ∀ v, 0 ≤ v → P v.
Proof.
  intros Hb H v Hv. induction v as [v IH] using (well_founded_induction (Z.lt_wf 0)).
  apply H; [done|]. intros Hne. pose proof (Z.div_pos v b Hv ltac:(lia)).
  apply IH; [|done]. split; [done|]. apply Z.div_lt; [|lia].
  destruct (Z.eq_dec v 0) as [->|]; [by rewrite Z.div_0_l in Hne by lia|lia].
Qed.

Lemma all_digits_spec b v : 2 ≤ b → 0 ≤ v →
  digits_val b (all_digits b v) = v ∧ Forall (λ d, 0 ≤ d < b) (all_digits b v).
Proof.
  intros Hb Hv. pattern v. revert v Hv. apply (digits_ind b); [done|]. intros v Hv IH.
  rewrite all_digits_step by done. pose proof (Z.div_mod v b ltac:(lia)).
  pose proof (Z.mod_pos_bound v b ltac:(lia)). destruct (Z.eqb_spec (v / b) 0) as [E|Hne].
  - split; [cbn; lia|by constructor].
  - destruct (IH Hne) as [IHv IHd]. split; [|by apply Forall_app; split; [|constructor]].
    unfold digits_val in *. rewrite foldl_app, IHv. cbn. lia.
Qed.

Lemma digit_char_of (u : bool) b d : b = 10 ∨ b = 16 → 0 ≤ d < b → digit_of b (digit_char u d) = Some d.
Proof.
  intros Hb Hd. assert (d ∈ (Z.of_nat <$> seq 0 16)) as Hin.
  { apply list_elem_of_fmap. exists (Z.to_nat d). split; [lia|]. apply elem_of_seq. lia. }
  repeat (apply elem_of_cons in Hin as [->|Hin]); [..|by apply elem_of_nil in Hin];
    destruct Hb as [->| ->], u; try reflexivity; lia.
Qed.

Lemma run_text u b ds l : b = 10 ∨ b = 16 → Forall (λ d, 0 ≤ d < b) ds →
  run b ((digit_char u <$> ds) ++ l) = ds ++ run b l.
Proof.
  intros Hb. induction 1 as [|d ds Hd Hds IH]; [done|]. cbn. rewrite (digit_char_of u b d Hb Hd).
  f_equal. exact IH.
Qed.

(** ** Hexadecimal output *)

Lemma digits_val_beval k ds : 0 < k → digits_val (2 ^ k) ds = beval k ds.
Proof.
  intros Hk. induction ds as [|d ds IH] using rev_ind; [done|].
  unfold digits_val in *. rewrite foldl_app, IH, (beval_app k Hk). cbn. rewrite Z.mul_1_r, Z.mul_0_r. cbn. lia.
Qed.

Lemma all_digits_length v n : 0 ≤ v < 2 ^ (4 * Z.of_nat n) → (0 < n)%nat → (length (all_digits 16 v) ≤ n)%nat.
Proof.
  intros [Hv Hlt] Hn. revert n Hn Hlt. pattern v. revert v Hv. apply (digits_ind 16); [lia|].
  intros v Hv IH n Hn Hlt. rewrite all_digits_step by lia.
  destruct (Z.eqb_spec (v / 16) 0); [simpl; lia|]. rewrite length_app. simpl.
  destruct n as [|n]; [lia|].
  assert (v / 16 < 2 ^ (4 * Z.of_nat n)).
  { apply Z.div_lt_upper_bound; [lia|]. change 16 with (2 ^ 4). rewrite <- Z.pow_add_r by lia.
    by replace (4 + 4 * Z.of_nat n) with (4 * Z.of_nat (S n)) by lia. }
  destruct n as [|n]; [pose proof (Z.div_pos v 16); cbn in H; lia|].
  specialize (IH ltac:(done) (S n) ltac:(lia) H). lia.
Qed.

Definition word_digits (n : nat) (v : Z) : list Z :=
  replicate (n - length (all_digits 16 v)) 0 ++ all_digits 16 v.

Lemma word_digits_spec n v : 0 ≤ v < 2 ^ (4 * Z.of_nat n) → (0 < n)%nat →
  length (word_digits n v) = n ∧ digits 4 (word_digits n v) ∧ beval 4 (word_digits n v) = v.
Proof.
  intros Hv Hn. pose proof (all_digits_length v n Hv Hn). unfold word_digits.
  destruct (all_digits_spec 16 v ltac:(lia) ltac:(lia)) as [Hval Hd]. split_and!.
  - rewrite length_app, length_replicate. lia.
  - apply Forall_app. split; [apply Forall_replicate; unfold uint; lia|]. exact Hd.
  - rewrite (beval_app 4 ltac:(lia)), beval_replicate_0, <- (digits_val_beval 4) by lia. cbn. done.
Qed.

Lemma words_digits xs : digits 32 xs →
  digits 4 (xs ≫= word_digits 8) ∧ beval 4 (xs ≫= word_digits 8) = beval 32 xs ∧
  length (xs ≫= word_digits 8) = (8 * length xs)%nat.
Proof.
  induction 1 as [|v xs Hv Hxs (IHd & IHv & IHl)]; [by split_and!; [constructor|..]|].
  cbn [mbind list_bind length beval]. destruct (word_digits_spec 8 v Hv ltac:(lia)) as (Hl & Hd & Hb).
  split_and!.
  - by apply Forall_app.
  - rewrite (beval_app 4 ltac:(lia)), Hb. change (list_bind _ _ (word_digits 8) xs) with (xs ≫= word_digits 8).
    rewrite IHv, IHl. do 3 f_equal. lia.
  - rewrite length_app, Hl. change (list_bind _ _ (word_digits 8) xs) with (xs ≫= word_digits 8).
    rewrite IHl. lia.
Qed.

Definition hex_os (os : ostream) : Prop := int_base (obase os) = Some 16.

Lemma put_hex os n v : hex_os os → ofill os = "0"%char → 0 ≤ n →
  put_uint32 v (setw n os) =
  {| obase := obase os; showbase := showbase os; uppercase := uppercase os; width := 0; ofill := "0";
     out := out os ++ (digit_char (uppercase os) <$> word_digits (Z.to_nat n) v) |}.
Proof.
  intros Hos Hf Hn. unfold put_uint32, put, hex_os in *. cbn [setw obase showbase uppercase width ofill out].
  rewrite Hos, Hf. cbn [default]. unfold num_text. fold (all_digits 16 v). unfold word_digits.
  rewrite fmap_app, fmap_replicate, length_fmap. done.
Qed.

(** The digits that [printHex] writes. *)
Definition top_digits (size : Z) : nat :=
  if size =? 1 then 1%nat
  else Z.to_nat (if (size mod 32 + 3) / 4 =? 0 then 8 else (size mod 32 + 3) / 4).
Definition hex_digits (size : Z) (x : list Z) : list Z :=
  word_digits (top_digits size) (x !!! 0%nat) ++ (drop 1 x ≫= word_digits 8).

Lemma rest_words_loop n i x os : hex_os os → ofill os = "0"%char → width os = 0 → (i + n = length x)%nat →
  for_up n i (λ i os, put_uint32 (x !!! i) (setw 8 os)) os =
  {| obase := obase os; showbase := showbase os; uppercase := uppercase os; width := 0; ofill := "0";
     out := out os ++ (digit_char (uppercase os) <$> (drop i x ≫= word_digits 8)) |}.
Proof.
  revert i os. induction n as [|n IH]; intros i os Hos Hf Hw Hi; cbn [for_up].
  - rewrite drop_ge by lia. cbn. rewrite app_nil_r, <- Hf, <- Hw. by destruct os.
  - rewrite put_hex by done. rewrite IH by (done || lia). cbn [obase showbase uppercase out].
    f_equal. rewrite <- app_assoc, <- fmap_app. do 3 f_equal.
    rewrite (drop_S x (x !!! i) i) by (apply list_lookup_lookup_total_lt; lia). done.
Qed.

Lemma printHex_out os size x : 1 ≤ size → length x = INTBV_WORDS size → width os = 0 →
  (size = 1 → 0 ≤ x !!! 0%nat < 2) →
  out (printHex os size x) =
    out os ++ (if showbase os then text "0x" else []) ++
    (digit_char (uppercase os) <$> hex_digits size x).
Proof.
  intros Hs Hl Hw H1. destruct (INTBV_WORDS_spec size ltac:(lia)) as [Hn _].
  unfold printHex. cbn zeta.
  change (width (set_obase {| dec := false; hex := true; oct := false |} os)) with (width os).
  rewrite Hw. cbn [orb andb Z.ltb Z.eqb Z.compare].
  set (os1 := set_showbase false (if showbase os then _ else _)).
  assert (hex_os os1 ∧ uppercase os1 = uppercase os ∧ width os1 = 0 ∧
    out os1 = out os ++ (if showbase os then text "0x" else [])) as (Ho & Hu & Hw1 & E1).
  { unfold os1. destruct (showbase os); cbn; rewrite ?Hw, ?app_nil_r; done. }
  clearbody os1.
  set (os2 := if 1 <? size then _ else _).
  assert (hex_os os2 ∧ uppercase os2 = uppercase os ∧ width os2 = 0 ∧
    out os2 = out os1 ++ (digit_char (uppercase os) <$> word_digits (top_digits size) (x !!! 0%nat)))
    as (Ho2 & Hu2 & Hw2 & E2).
  { unfold os2, top_digits. destruct (Z.ltb_spec 1 size) as [Hlt|], (Z.eqb_spec size 1) as [->|]; try lia.
    - rewrite put_hex by (done || (destruct (Z.eqb_spec ((size mod 32 + 3) / 4) 0); [lia|zlia])).
      cbn. by rewrite Hu.
    - unfold put_uint32, put, hex_os in *. rewrite Ho, Hw1, Hu. cbn. split_and!; [done..|]. f_equal.
      specialize (H1 eq_refl). assert (x !!! 0%nat = 0 ∨ x !!! 0%nat = 1) as [-> | ->] by lia; done. }
  clearbody os2. cbn [set_obase set_showbase set_ofill out].
  rewrite rest_words_loop by (done || lia). cbn [out set_ofill uppercase].
  rewrite E2, E1, Hu2. unfold hex_digits. by rewrite fmap_app, !app_assoc.
Qed.

(** The digits that [printHex] writes have the value of the array. *)
Lemma top_digits_spec size : 1 ≤ size →
  (0 < top_digits size)%nat ∧
  0 ≤ size - 32 * (Z.of_nat (INTBV_WORDS size) - 1) ≤ 4 * Z.of_nat (top_digits size).
Proof.
  intros Hs. destruct (INTBV_WORDS_spec size ltac:(lia)) as [Hn [Hlo Hhi]]. unfold W in *.
  unfold top_digits. destruct (Z.eqb_spec size 1); [subst; split; [lia|vm_compute; split; congruence]|].
  destruct (Z.eqb_spec ((size mod 32 + 3) / 4) 0); zlia.
Qed.

Lemma hex_digits_spec size x : 1 ≤ size → words (INTBV_WORDS size) x → beval 32 x < 2 ^ size →
  digits 4 (hex_digits size x) ∧ beval 4 (hex_digits size x) = beval 32 x.
Proof.
  intros Hs Hx Hlt. pose proof Hx as [Hl Hd].
  destruct (INTBV_WORDS_spec size ltac:(lia)) as [Hn _].
  destruct (top_digits_spec size Hs) as [Ht [Hlo Hhi]]. set (nw := INTBV_WORDS size) in *.
  destruct (word_digits_spec (top_digits size) (x !!! 0%nat)) as (Hwl & Hwd & Hwv); [|done|].
  { split; [apply (digits_lookup 32 ltac:(lia) x 0 Hd)|].
    eapply Z.lt_le_trans; [|apply Z.pow_le_mono_r; [lia|exact Hhi]].
    apply (low_word nw x 0 Hx ltac:(lia)); [lia|].
    by replace (_ + (size - _)) with size by lia. }
  destruct (words_digits (drop 1 x) ltac:(by apply digits_drop)) as (Hrd & Hrv & Hrl).
  unfold hex_digits. split; [by apply Forall_app|].
  rewrite (beval_app 4 ltac:(lia)), Hwv, Hrv, Hrl.
  destruct x as [|x0 xs]; [cbn in Hl; lia|]. cbn [beval drop]. change ((x0 :: xs) !!! 0%nat) with x0.
  rewrite drop_0, Nat2Z.inj_mul. by replace (4 * (Z.of_nat 8 * Z.of_nat (length xs))) with
    (32 * Z.of_nat (length xs)) by lia.
Qed.

(** ** Binary output *)

Fixpoint bits (n : nat) (v : Z) : list Z :=
  match n with O => [] | S n => Z.b2z (Z.testbit v (Z.of_nat n)) :: bits n v end.

Lemma bits_spec n v : length (bits n v) = n ∧ digits 1 (bits n v) ∧ beval 1 (bits n v) = v mod 2 ^ Z.of_nat n.
Proof.
  induction n as [|n (IHl & IHd & IHv)]; cbn [bits length beval].
  - split_and!; [done|constructor|]. by rewrite Z.mod_1_r.
  - split_and!; [lia|constructor; [by destruct (Z.testbit v (Z.of_nat n))|done]|].
    rewrite IHv, IHl, Nat2Z.inj_succ. rewrite <- Z.add_1_r, mod_pow2_split by lia. by rewrite Z.mul_1_l.
Qed.

Definition plain (os os' : ostream) (l : list ascii) : Prop :=
  obase os' = obase os ∧ showbase os' = showbase os ∧ uppercase os' = uppercase os ∧
  width os' = 0 ∧ ofill os' = ofill os ∧ out os' = out os ++ l.

Lemma bin_word_loop n i v os : width os = 0 →
  plain os (for_up n i (λ _ '(bitmask, os),
    (Z.shiftr bitmask 1, put [if Z.land v bitmask =? 0 then "0"%char else "1"%char] os))
    (2 ^ (Z.of_nat n - 1), os)).2 (digit_char false <$> bits n v).
Proof.
  revert i os. induction n as [|n IH]; intros i os Hw; cbn [for_up bits].
  - cbn. unfold plain. by rewrite app_nil_r.
  - assert (Z.shiftr (2 ^ (Z.of_nat (S n) - 1)) 1 = 2 ^ (Z.of_nat n - 1)) as ->.
    { rewrite Z.shiftr_div_pow2 by lia. replace (Z.of_nat (S n) - 1) with (Z.of_nat n) by lia.
      destruct n as [|n]; [done|]. rewrite <- Z.pow_sub_r by lia. f_equal. }
    replace (Z.of_nat (S n) - 1) with (Z.of_nat n) by lia.
    set (c := if _ =? 0 then _ else _).
    assert (c = digit_char false (Z.b2z (Z.testbit v (Z.of_nat n)))) as Hc.
    { unfold c. rewrite <- (land_pow2_testbit v (Z.of_nat n)) by lia. by destruct (_ =? 0). }
    destruct (IH (S i) (put [c] os) eq_refl) as (E1 & E2 & E3 & E4 & E5 & E6).
    split_and!; [done..|]. rewrite E6. cbn [put out]. rewrite Hw, <- app_assoc. cbn. by rewrite Hc.
Qed.

Lemma bin_words_loop n i x os : width os = 0 → (i + n = length x)%nat →
  plain os (for_up n i (λ i os, bin_word (x !!! i) os) os) (digit_char false <$> (drop i x ≫= bits 32)).
Proof.
  revert i os. induction n as [|n IH]; intros i os Hw Hi; cbn [for_up].
  - rewrite drop_ge by lia. cbn. unfold plain. by rewrite app_nil_r.
  - destruct (bin_word_loop 32 0 (x !!! i) os Hw) as (E1 & E2 & E3 & E4 & E5 & E6).
    change (for_up 32 0 _ _).2 with (bin_word (x !!! i) os) in *.
    destruct (IH (S i) (bin_word (x !!! i) os) E4 ltac:(lia)) as (F1 & F2 & F3 & F4 & F5 & F6).
    split_and!; [by etrans..|]. rewrite F6, E6, <- app_assoc, <- fmap_app. do 2 f_equal.
    rewrite (drop_S x (x !!! i) i) by (apply list_lookup_lookup_total_lt; lia). done.
Qed.

Lemma chunk_bits xs q : (q < length xs)%nat → digits 32 xs →
  beval 1 (chunk q (xs ≫= bits 32)) = xs !!! q.
Proof.
  intros Hq Hd. unfold chunk. revert q Hq. induction Hd as [|v xs Hv Hd IH]; intros q Hq; [simpl in Hq; lia|].
  cbn [mbind list_bind]. change (list_bind _ _ (bits 32) xs) with (xs ≫= bits 32).
  destruct (bits_spec 32 v) as (Hl & _ & Hb). destruct q as [|q].
  - rewrite Nat.mul_0_r, drop_0, take_app_le, take_ge by lia. rewrite Hb. by apply Z.mod_small.
  - replace (32 * S q)%nat with (length (bits 32 v) + 32 * q)%nat by lia.
    rewrite drop_app_add. simpl in Hq. apply IH. lia.
Qed.

Lemma digit_char_bin u d : 0 ≤ d < 2 → digit_of 2 (digit_char u d) = Some d.
Proof. intros Hd. assert (d = 0 ∨ d = 1) as [-> | ->] by lia; by destruct u. Qed.

Lemma run_bits ds : digits 1 ds → run 2 (digit_char false <$> ds) = ds.
Proof.
  induction 1 as [|d ds Hd Hds IH]; [done|]. cbn. rewrite digit_char_bin by exact Hd. f_equal. exact IH.
Qed.

Lemma bits_digits xs : digits 1 (xs ≫= bits 32).
Proof. induction xs as [|v xs IH]; [constructor|]. apply Forall_app. split; [apply bits_spec|exact IH]. Qed.

(** ** Decimal output *)

Lemma isZero_spec nw x : words nw x → isZero x nw = (beval 32 x =? 0).
Proof.
  intros [Hl Hd]. unfold isZero. rewrite take_ge by lia.
  destruct (Z.eqb_spec (beval 32 x) 0) as [E|Hne].
  - apply forallb_forall. intros v Hv. apply Z.eqb_eq. symmetry.
    apply list_elem_of_In, list_elem_of_lookup in Hv as [i Hi].
    assert (i < length x)%nat by (by eapply lookup_lt_Some).
    rewrite <- (list_lookup_total_correct _ _ _ Hi), (lookup_beval 32 ltac:(lia)) by done.
    by rewrite E, Z.div_0_l by (apply Z.pow_nonzero; lia).
  - apply not_true_iff_false. intros Hall. apply Hne.
    assert (x = replicate nw 0) as ->; [|by rewrite beval_replicate_0].
    symmetry. apply replicate_as_elem_of. split; [done|]. intros v Hv. symmetry. apply Z.eqb_eq.
    rewrite forallb_forall in Hall. apply Hall. by apply list_elem_of_In.
Qed.

Lemma byte_length_le v n : 0 ≤ v → 0 < n → byte_length v ≤ n ↔ v < 2 ^ (8 * n).
Proof.
  intros Hv Hn. unfold byte_length. destruct (Z.eq_dec v 0) as [->|Hne].
  - split; intros; [by apply pow2_pos; lia|change (Z.log2 0 / 8 + 1) with 1; lia].
  - rewrite (Z.log2_lt_pow2 v (8 * n)) by lia. zlia.
Qed.

Definition dec_text (v : Z) : list ascii := if v =? 0 then [] else digit_char false <$> all_digits 10 v.

Lemma dec_text_step v : 0 ≤ v → v ≠ 0 → dec_text v = dec_text (v / 10) ++ [chr (48 + v mod 10)].
Proof.
  intros Hv Hne. unfold dec_text. destruct (Z.eqb_spec v 0); [done|].
  rewrite all_digits_step by lia. assert (digit_char false (v mod 10) = chr (48 + v mod 10)) as E.
  { unfold digit_char. destruct (Z.ltb_spec (v mod 10) 10); [done|]. zlia. }
  destruct (v / 10 =? 0); cbn; [by rewrite E|]. rewrite fmap_app. cbn. by rewrite E.
Qed.

Lemma div_10_lt v p : 0 ≤ v < 10 ^ Z.of_nat (S p) → 0 ≤ v / 10 < 10 ^ Z.of_nat p.
Proof.
  intros Hv. rewrite Nat2Z.inj_succ, Z.pow_succ_r in Hv by lia.
  split; [apply Z.div_pos; lia|apply Z.div_lt_upper_bound; lia].
Qed.

Section PrintDec.
Context (junk : Z) (Hjunk : uint 8 junk) (nw : nat) (Hnw : (2 ≤ nw)%nat) (Hmax : Z.of_nat nw ≤ 16384).

Lemma fits_ten v : 0 ≤ v → division_fits nw v 10 ↔ v < 2 ^ (16 * Z.of_nat nw).
Proof using All.
  intros Hv. unfold division_fits. change (byte_length 10) with 1.
  replace (16 * Z.of_nat nw) with (8 * (2 * Z.of_nat nw)) by lia.
  rewrite <- (byte_length_le v (2 * Z.of_nat nw)) by lia.
  assert (1 ≤ byte_length v) by (unfold byte_length; pose proof (Z.log2_nonneg v); zlia). lia.
Qed.

(** One turn of the loop: the quotient becomes the dividend, and the last word
    of [dividend - 10 * quotient] is the digit. *)
Lemma dec_turn q t x : words nw q → words nw t → words nw x →
  beval 32 x ≠ 0 → beval 32 x < 2 ^ (16 * Z.of_nat nw) →
  (byte_length (beval 32 x) ≤ 4 → ∀ i, (i < nw - 1)%nat → q !!! i = 0) →
  ∃ q', divideWords nw junk q x (low_only nw 10) = Ret q' ∧ words nw q' ∧ beval 32 q' = beval 32 x / 10 ∧
    let t1 := multiplyWords nw t (Array q') (Array (low_only nw 10)) in
    let t2 := subtractWords nw t1 (Array x) Result in
    words nw t2 ∧ t2 !!! (nw - 1)%nat = beval 32 x mod 10.
Proof using All.
  intros Hq Ht Hx Hne Hfit Hz. pose proof (words_bound _ _ Hx) as Hb.
  assert (words nw (low_only nw 10)) as Hten by (apply words_low; [lia|unfold uint; lia]).
  edestruct (divideWords_spec nw junk x (low_only nw 10)) with (res := q) as (q' & E & Hw & Hv);
    try done; try lia.
  1,2,3,4: rewrite beval_low.
  - lia.
  - intros [H|H]; apply Hz; [done|]. exfalso. unfold byte_length in H. cbn in H.
    pose proof (Z.log2_nonneg (beval 32 x)). zlia.
  - intros H. exfalso. unfold byte_length in H. cbn in H. pose proof (Z.log2_nonneg (beval 32 x)). zlia.
  - apply fits_ten; [apply Hb|done].
  - rewrite beval_low in Hv. exists q'. split_and!; [done..|]. intros t1 t2.
    destruct (multiplyWords_spec nw t q' (low_only nw 10) Hmax (proj1 Ht) Hw Hten) as [Ht1 E1].
    fold t1 in Ht1, E1. rewrite beval_low, Hv in E1.
    pose proof (Z.div_mod (beval 32 x) 10 ltac:(lia)) as Hdm.
    pose proof (Z.mod_pos_bound (beval 32 x) 10 ltac:(lia)) as Hmod.
    pose proof (Z.div_pos (beval 32 x) 10 ltac:(apply Hb) ltac:(lia)).
    unfold uint in Hb. rewrite Z.mod_small in E1 by lia.
    destruct (subtractWords_spec nw t1 (Array x) Result (proj1 Ht1) Hx Ht1) as [Ht2 E2].
    fold t2 in Ht2, E2. cbn [contents] in E2. rewrite E1 in E2.
    split; [done|]. rewrite (lookup_beval 32 ltac:(lia)) by (apply Ht2 || (rewrite (proj1 Ht2); lia)).
    rewrite (proj1 Ht2), E2. replace (32 * (Z.of_nat nw - 1 - Z.of_nat (nw - 1))) with 0 by lia.
    rewrite Z.div_1_r. replace (beval 32 x - beval 32 x / 10 * 10) with (beval 32 x mod 10) by lia.
    rewrite Z.mod_small by lia. apply wrap_small. unfold uint. lia.
Qed.

Lemma high_words_zero x : words nw x → byte_length (beval 32 x) ≤ 4 → ∀ i, (i < nw - 1)%nat → x !!! i = 0.
Proof using All.
  intros Hx Hb i Hi. pose proof (words_bound _ _ Hx) as [H0 _].
  apply byte_length_le in Hb; [|done|lia].
  assert (x !!! i < 2 ^ 0) as H; [|pose proof (digits_lookup 32 ltac:(lia) x i (proj2 Hx)) as [? _]; lia].
  apply (low_word nw x i Hx ltac:(lia)); [lia|]. eapply Z.lt_le_trans; [exact Hb|].
  apply Z.pow_le_mono_r; lia.
Qed.

Lemma dec_loop_spec p q t x acc : words nw q → words nw t → words nw x →
  beval 32 x < 2 ^ (16 * Z.of_nat nw) → beval 32 x < 10 ^ Z.of_nat p →
  (byte_length (beval 32 x) ≤ 4 → ∀ i, (i < nw - 1)%nat → q !!! i = 0) →
  dec_loop junk nw (low_only nw 10) p q t x acc = Ret (dec_text (beval 32 x) ++ acc).
Proof using All.
  revert q t x acc. induction p as [|p IH]; intros q t x acc Hq Ht Hx Hfit Hlt Hz;
    pose proof (words_bound _ _ Hx) as Hb; cbn [dec_loop]; rewrite isZero_spec by done;
    (destruct (Z.eqb_spec (beval 32 x) 0) as [->|Hne]; [done|]).
  - unfold uint in Hb. cbn in Hlt. lia.
  - destruct (dec_turn q t x Hq Ht Hx Hne Hfit Hz) as (q' & E & Hq' & Ev & Ht' & Ed).
    rewrite E. cbn [obind]. cbv zeta. rewrite Ed.
    destruct (div_10_lt (beval 32 x) p) as [Hd0 Hd]; [unfold uint in Hb; lia|].
    assert (beval 32 x / 10 ≤ beval 32 x) by (apply Z.div_le_upper_bound; unfold uint in Hb; lia).
    rewrite IH; rewrite ?Ev; try done; [|lia|intros Hbl; apply high_words_zero; [done|by rewrite Ev]].
    rewrite (dec_text_step (beval 32 x)) by (done || apply Hb). by rewrite <- app_assoc.
Qed.

Lemma dec_loop_overflow p t x acc : words nw x → 2 ^ (16 * Z.of_nat nw) ≤ beval 32 x →
  dec_loop junk nw (low_only nw 10) p (initZero nw) t x acc = Undefined.
Proof using All.
  intros Hx Hbig. pose proof (words_bound _ _ Hx) as [H0 _].
  pose proof (pow2_pos (16 * Z.of_nat nw) ltac:(lia)).
  assert (divideWords nw junk (initZero nw) x (low_only nw 10) = Undefined) as E.
  { apply divideWords_overflow; try done; try lia; [by apply words_low; [lia|unfold uint; lia]|..];
      rewrite beval_low; [lia|]. rewrite fits_ten by done. lia. }
  destruct p; cbn [dec_loop]; rewrite isZero_spec by done;
    (destruct (Z.eqb_spec (beval 32 x) 0); [lia|]); by rewrite E.
Qed.
End PrintDec.

(** ** The contract of the readers and printers *)

(** On every input, [readHex] stores the value of the hexadecimal digits up to
    the first foreign character ([_] is skipped) modulo [2^(32 nw)], [readDec]
    does so for decimal digits on vectors of more than one word, and [readBin]
    cuts its digits into words from the left, the first 32 into the first word.
    All of them return. *)
Theorem readers_value si size x :
  good si = true → 1 ≤ size ≤ 524288 → words (INTBV_WORDS size) x → beval 32 x = 0 →
  let M := 2 ^ (32 * Z.of_nat (INTBV_WORDS size)) in
  (∃ c si' r, readHex si size x = Ret (c, si', r) ∧ words (INTBV_WORDS size) r ∧
     beval 32 r = beval 4 (run 16 (rest si)) mod M) ∧
  (32 < size → ∃ c si' r, readDec si size x = Ret (c, si', r) ∧ words (INTBV_WORDS size) r ∧
     beval 32 r = digits_val 10 (run 10 (rest si)) mod M) ∧
  (∃ c si' r, readBin si size x = Ret (c, si', r) ∧ words (INTBV_WORDS size) r ∧
     ∀ q, (q < INTBV_WORDS size)%nat → r !!! q = beval 1 (chunk q (run 2 (rest si)))).
Proof.
  intros Hg Hs Hx Hz M. split_and!.
  - apply readHex_spec; done || lia.
  - intros. apply readDec_wide; done || lia.
  - apply readBin_spec; done || lia.
Qed.

Definition stream_of (f : basefield) (s : string) : istream :=
  {| flags := f; before := []; rest := text s; good := true |}.

Lemma readers_value_witness : ∃ c si' r,
  readBin (stream_of {| dec := false; hex := false; oct := true |} "101") 40 [0; 0] = Ret (c, si', r) ∧
  words 2 r ∧ ∀ q, (q < 2)%nat → r !!! q = beval 1 (chunk q [1; 0; 1]).
Proof.
  exact (proj2 (proj2 (readers_value (stream_of {| dec := false; hex := false; oct := true |} "101") 40 [0; 0]
    eq_refl ltac:(lia) ltac:(split; [done|repeat constructor; done]) eq_refl))).
Defined.

(** Both numbers are below the size of the array. *)
Lemma words_eq nw x y : words nw x → words nw y → beval 32 x = beval 32 y → x = y.
Proof. intros [H1 H2] [H3 H4]. apply beval_inj; done || lia. Qed.

Lemma words_zero nw : (0 < nw)%nat → words nw (initZero nw) ∧ beval 32 (initZero nw) = 0.
Proof. intros H. rewrite initZero_low, beval_low by done. split; [|done]. apply words_low; [done|unfold uint; lia]. Qed.

Lemma readHex_text si size x u : 1 ≤ size → good si = true →
  words (INTBV_WORDS size) x → beval 32 x < 2 ^ size →
  rest si = digit_char u <$> hex_digits size x →
  ∃ c si', readHex si size (initZero (INTBV_WORDS size)) = Ret (c, si', x).
Proof.
  intros Hs Hg Hx Hlt Hr. destruct (INTBV_WORDS_spec size ltac:(lia)) as [Hn _].
  destruct (words_zero (INTBV_WORDS size) ltac:(lia)) as [Hw0 Hz0].
  destruct (readHex_spec si size _ Hs Hg Hw0 Hz0) as (c & si' & r & E & Hr' & Hv).
  destruct (hex_digits_spec size x Hs Hx Hlt) as [Hd Hdv].
  assert (r = x) as ->; [|by eexists _, _]. apply (words_eq (INTBV_WORDS size)); [done..|].
  rewrite Hv, Hr, <- (app_nil_r (_ <$> _)), run_text by (by right || exact Hd).
  cbn [run]. rewrite app_nil_r, Hdv. apply Z.mod_small, words_bound, Hx.
Qed.

(** The streams that the string reader builds, past the prefix. *)
Definition no_base : basefield := {| dec := false; hex := false; oct := false |}.
Definition finish (r : outcome (ascii * istream * list Z)) : outcome (list Z) :=
  let! r := r in Ret (snd r).

Lemma finish_eq r :
  (let! p := (let! t := r in let '(_, si, x) := t in Ret (si, x)) in Ret (snd p)) = finish r.
Proof. by destruct r as [[[c si] x]| | |]. Qed.

Lemma read_prefix_hex s size x : readNumber_string (text "0x" ++ s) 0 size x =
  finish (readHex {| flags := no_base; before := text "x0"; rest := s; good := true |} size x).
Proof. exact (finish_eq _). Qed.
Lemma read_prefix_bin s size x : readNumber_string (text "0b" ++ s) 0 size x =
  finish (readBin {| flags := no_base; before := text "b0"; rest := s; good := true |} size x).
Proof. exact (finish_eq _). Qed.
Lemma read_hex s size x : readNumber_string s ihex size x =
  finish (readHex {| flags := {| dec := true; hex := true; oct := false |}; before := []; rest := s;
                     good := true |} size x).
Proof. exact (finish_eq _). Qed.
Lemma read_dec s size x : readNumber_string s idec size x =
  finish (readDec {| flags := {| dec := true; hex := false; oct := false |}; before := []; rest := s;
                     good := true |} size x).
Proof. exact (finish_eq _). Qed.
Lemma read_bin s size x : readNumber_string s ibin size x =
  finish (readDec {| flags := {| dec := true; hex := false; oct := true |}; before := []; rest := s;
                     good := true |} size x).
Proof. exact (finish_eq _). Qed.

Lemma one_bit x : words (INTBV_WORDS 1) x → beval 32 x < 2 ^ 1 → 0 ≤ x !!! 0%nat < 2.
Proof.
  intros Hx Hlt. split; [apply (digits_lookup 32 ltac:(lia) x 0), Hx|].
  by apply (low_word 1 x 0 Hx ltac:(lia) 1).
Qed.

(** Reading back what [str] printed in hexadecimal gives the array again: in
    the format [ihex] when the prefix is not printed, in the default format when
    it is; in both cases of letters. *)
Theorem hex_roundtrip junk format size x :
  1 ≤ size → words (INTBV_WORDS size) x → beval 32 x < 2 ^ size →
  has format ibin = false → has format idec = false →
  ∃ s, str junk format size x = Ret s ∧
    readNumber_string s (if has format iprefix then 0 else ihex) size (initZero (INTBV_WORDS size)) = Ret x.
Proof.
  intros Hs Hx Hlt Hb Hd.
  exists ((if has format iprefix then text "0x" else []) ++
          (digit_char (has format iupper) <$> hex_digits size x)). split.
  - unfold str. rewrite Hb, Hd. cbn [printToOS set_obase obase hex obind]. f_equal.
    apply printHex_out; [done|apply Hx|done|]. intros ->. by apply one_bit.
  - destruct (has format iprefix).
    + rewrite read_prefix_hex. unfold finish.
      edestruct readHex_text as (c & si' & ->); [..|reflexivity]; done.
    + rewrite read_hex. unfold finish.
      edestruct readHex_text as (c & si' & ->); [..|reflexivity]; done.
Qed.

Lemma hex_roundtrip_witness : ∃ s,
  str 0xaa (Z.lor iprefix iupper) 70 [0x12; 0xabcdef01; 3] = Ret s ∧
  readNumber_string s 0 70 [0; 0; 0] = Ret [0x12; 0xabcdef01; 3].
Proof.
  apply (hex_roundtrip 0xaa (Z.lor iprefix iupper) 70 [0x12; 0xabcdef01; 3]).
  - lia.
  - split; [done|repeat constructor; done].
  - vm_compute. reflexivity.
  - reflexivity.
  - reflexivity.
Defined.

Lemma printBin_out os size x : length x = INTBV_WORDS size → width os = 0 → dec (obase os) = true →
  out (printBin os size x) = out os ++ text "0b" ++ (digit_char false <$> (x ≫= bits 32)).
Proof.
  intros Hl Hw Hd. unfold printBin. rewrite Hd. cbn [orb].
  destruct (bin_words_loop (INTBV_WORDS size) 0 x (put (text "0b") os) eq_refl ltac:(lia))
    as (_ & _ & _ & _ & _ & ->).
  cbn [put out]. rewrite Hw, drop_0. cbn. by rewrite <- app_assoc.
Qed.

(** Reading back, in the default format, what [str] printed in binary gives
    the array again; the prefix is printed whether or not it was asked for. *)
Theorem bin_roundtrip junk format size x :
  1 ≤ size → words (INTBV_WORDS size) x → has format ibin = true →
  ∃ s, str junk format size x = Ret (text "0b" ++ s) ∧ length s = (32 * INTBV_WORDS size)%nat ∧
    readNumber_string (text "0b" ++ s) 0 size (initZero (INTBV_WORDS size)) = Ret x.
Proof.
  intros Hs Hx Hb. pose proof Hx as [Hl Hd]. destruct (INTBV_WORDS_spec size ltac:(lia)) as [Hn _].
  exists (digit_char false <$> (x ≫= bits 32)). split_and!.
  - unfold str. rewrite Hb. cbn [printToOS set_obase obase hex oct obind]. f_equal.
    by apply printBin_out.
  - rewrite length_fmap, <- Hl. clear. induction x as [|v x IH]; [done|].
    cbn [mbind list_bind length]. change (list_bind _ _ (bits 32) x) with (x ≫= bits 32).
    rewrite length_app, IH, (proj1 (bits_spec 32 v)). lia.
  - destruct (words_zero (INTBV_WORDS size) ltac:(lia)) as [Hw0 Hz0]. rewrite read_prefix_bin.
    destruct (readBin_spec {| flags := no_base; before := text "b0";
        rest := digit_char false <$> (x ≫= bits 32); good := true |} size _ Hs eq_refl Hw0 Hz0)
      as (c & si' & r & -> & [Hrl Hrd] & Hv). cbn [finish obind snd]. f_equal.
    apply list_eq_total; [lia|]. intros q Hq. cbn [rest] in Hv.
    rewrite Hv by lia. rewrite run_bits by apply bits_digits. apply chunk_bits; [lia|done].
Qed.

Lemma bin_roundtrip_witness : ∃ s,
  str 0xaa ibin 40 [0x12; 0xabcdef01] = Ret (text "0b" ++ s) ∧ length s = (32 * 2)%nat ∧
  readNumber_string (text "0b" ++ s) 0 40 [0; 0] = Ret [0x12; 0xabcdef01].
Proof.
  apply (bin_roundtrip 0xaa ibin 40 [0x12; 0xabcdef01]).
  - lia.
  - split; [done|repeat constructor; done].
  - reflexivity.
Defined.

(** The text of a number in decimal. *)
Definition decimal (v : Z) : list ascii := digit_char false <$> all_digits 10 v.

Lemma num_text_decimal u v : 0 ≤ v → num_text u 10 v = decimal v.
Proof.
  intros Hv. unfold num_text, decimal. fold (all_digits 10 v). apply list_fmap_ext. intros i d Hi.
  destruct (all_digits_spec 10 v ltac:(lia) Hv) as [_ Hd].
  apply (Forall_lookup_1 _ _ _ _ Hd) in Hi. unfold digit_char. by destruct (Z.ltb_spec d 10); [|lia].
Qed.

Lemma int_digits_text u ds : Forall (λ d, 0 ≤ d < 10) ds → int_digits 10 (digit_char u <$> ds) = ds.
Proof.
  induction 1 as [|d ds Hd Hds IH]; [done|]. cbn. rewrite (digit_char_of u 10 d) by (done || by left).
  f_equal. exact IH.
Qed.

Lemma digit_char_props d : 0 ≤ d < 10 →
  isspace (digit_char false d) = false ∧ Ascii.eqb (digit_char false d) "-" = false ∧
  Ascii.eqb (digit_char false d) "+" = false ∧ Ascii.eqb (toupper (digit_char false d)) "X" = false ∧
  Ascii.eqb (digit_char false d) "0" = (d =? 0).
Proof.
  intros Hd. assert (d ∈ (Z.of_nat <$> seq 0 10)) as Hin.
  { apply list_elem_of_fmap. exists (Z.to_nat d). split; [lia|]. apply elem_of_seq. lia. }
  repeat (apply elem_of_cons in Hin as [->|Hin]); [..|by apply elem_of_nil in Hin];
    split_and!; reflexivity.
Qed.

Lemma advance_0 si : advance 0 si = si.
Proof. by destruct si. Qed.

Lemma advance_all si n : good si = true → (length (rest si) ≤ n)%nat →
  rest (advance n si) = [].
Proof. intros _ H. cbn. by apply drop_ge. Qed.

(** The decimal text of a number other than zero does not start with a zero. *)
Lemma all_digits_head b v : 2 ≤ b → 0 ≤ v → v ≠ 0 → ∃ d ds, all_digits b v = d :: ds ∧ d ≠ 0.
Proof.
  intros Hb Hv. pattern v. revert v Hv. apply (digits_ind b); [done|].
  intros v Hv IH Hne. rewrite all_digits_step by done. pose proof (Z.div_mod v b ltac:(lia)).
  destruct (Z.eqb_spec (v / b) 0) as [E|E].
  - eexists _, []. split; [done|]. rewrite E in *. lia.
  - destruct (IH E E) as (d & ds & -> & Hd). by eexists d, _.
Qed.

(** A one-word vector is read by the library; the decimal text of a word is read
    to the end of the stream. *)
Lemma extract_decimal f b v x : int_base f = Some 10 ∨ int_base f = None ∧ v ≠ 0 → 0 ≤ v < 2 ^ 32 →
  ∃ si, extract_uint32 {| flags := f; before := b; rest := decimal v; good := true |} x = (v, si) ∧
    good si = false.
Proof.
  intros Hf Hv. destruct (all_digits_spec 10 v ltac:(lia) ltac:(lia)) as [Hval Hd].
  unfold decimal. destruct (all_digits 10 v) as [|d ds] eqn:E.
  { rewrite all_digits_step in E by lia. destruct (v / 10 =? 0); [done|]. by apply app_eq_nil in E as [_ ?]. }
  apply Forall_cons_1 in Hd as [Hd1 Hds]. destruct (digit_char_props d Hd1) as (P1 & P2 & P3 & P4 & P5).
  set (l := digit_char false <$> d :: ds).
  assert (count_spaces l = 0%nat) as E1 by (cbn; by rewrite P1).
  assert (int_sign l = (false, 0%nat)) as E2 by (cbn; by rewrite P2, P3).
  assert (int_prefix (int_base f) l = (10, d =? 0, if d =? 0 then 1%nat else 0%nat)) as E3.
  { unfold l. cbn [fmap list_fmap int_prefix]. rewrite P5. destruct Hf as [->|[-> Hne]].
    2: { destruct (all_digits_head 10 v) as (d' & ds' & E' & Hd'); [lia..|].
         rewrite E in E'. injection E' as <- _. by apply Z.eqb_neq in Hd' as ->. }
    destruct (d =? 0); [|done].
    destruct ds as [|e ds]; [done|]. change (digit_char false <$> e :: ds) with (digit_char false e :: (digit_char false <$> ds)). cbv iota. change (default 16 (Some 10) =? 16) with false. by rewrite andb_false_r. }
  set (si := {| flags := f; before := b; rest := l; good := true |}).
  assert (∀ n ds' (z : bool), digits_val 10 ds' = v → z || negb (length ds' =? 0)%nat = true →
    int_digits 10 (drop n l) = ds' → (length l ≤ n + length ds')%nat →
    ∃ si', (let si := advance n si in
            let ds := int_digits 10 (rest si) in
            let si := advance (length ds) si in
            if negb z && (length ds =? 0)%nat then (0, fail si)
            else if 2 ^ 32 <=? digits_val 10 ds then (2 ^ 32 - 1, fail si)
            else (wrap 32 (digits_val 10 ds), match rest si with [] => fail si | _ => si end))
           = (v, si') ∧ good si' = false) as Hend.
  { intros n ds' z Ev Hz Ed Hlen. cbv zeta. change (rest (advance n si)) with (drop n l). rewrite Ed, Ev.
    replace (negb z && (length ds' =? 0)%nat) with false by (by destruct z, (length ds' =? 0)%nat).
    destruct (Z.leb_spec (2 ^ 32) v); [lia|].
    replace (rest (advance (length ds') (advance n si))) with (@nil ascii).
    - eexists. split; [by rewrite wrap_small|done].
    - cbn. rewrite drop_drop. symmetry. by apply drop_ge. }
  unfold extract_uint32. change (rest si) with l. rewrite E1, advance_0. cbv zeta.
  change (good si) with true. change (rest si) with l. rewrite E2, advance_0.
  change (flags si) with f. change (rest si) with l. rewrite E3.
  change l with (digit_char false d :: (digit_char false <$> ds)) at 1. cbv iota.
  destruct (Z.eqb_spec d 0) as [->|Hne].
  - apply (Hend 1%nat ds true); [by rewrite <- Hval|done| |unfold l; rewrite length_fmap; simpl; lia].
    by apply int_digits_text.
  - apply (Hend 0%nat (d :: ds) false); [done|done| |unfold l; rewrite length_fmap; simpl; lia].
    rewrite drop_0. apply int_digits_text. by constructor.
Qed.

(** Two characters of buffer per four bits of the number are enough for its
    decimal digits. *)
Lemma dec_buffer size v : 32 < size → v < 2 ^ (16 * Z.of_nat (INTBV_WORDS size)) →
  v < 10 ^ Z.of_nat (Z.to_nat ((size + 1) / 2) - 1).
Proof.
  intros Hs Hv. destruct (INTBV_WORDS_spec size ltac:(lia)) as [_ [Hlo _]]. unfold W in *.
  set (p := Z.of_nat (Z.to_nat ((size + 1) / 2) - 1)).
  assert (16 * Z.of_nat (INTBV_WORDS size) ≤ 3 * p) as Hp by (unfold p; zlia).
  assert (2 ^ (3 * p) ≤ 10 ^ p).
  { rewrite Z.pow_mul_r by lia. apply Z.pow_le_mono_l. lia. }
  eapply Z.lt_le_trans; [exact Hv|]. etrans; [|done]. apply Z.pow_le_mono_r; lia.
Qed.

Lemma one_word x : words 1 x → x = [beval 32 x].
Proof. intros [Hl _]. destruct x as [|v [|]]; try done. cbn. f_equal. lia. Qed.

(** What [printDec] writes: nothing for a zero of more than one word. *)
Definition dec_output (nw : nat) (v : Z) : list ascii := if (nw =? 1)%nat then decimal v else dec_text v.

Lemma printDec_spec junk os size x : uint 8 junk → 1 ≤ size ≤ 524288 → words (INTBV_WORDS size) x →
  width os = 0 → INTBV_WORDS size = 1%nat ∨ beval 32 x < 2 ^ (16 * Z.of_nat (INTBV_WORDS size)) →
  ∃ os', printDec junk os size x = Ret os' ∧ out os' = out os ++ dec_output (INTBV_WORDS size) (beval 32 x).
Proof.
  intros Hj Hs Hx Hwd Hfit. unfold printDec, dec_output.
  destruct (INTBV_WORDS_spec size ltac:(lia)) as [Hn Hw]. unfold W in Hw.
  destruct (Nat.eqb_spec (INTBV_WORDS size) 1) as [E|Hne].
  - eexists. split; [done|]. cbn [obind out set_obase put_uint32 put uppercase width ofill]. rewrite E in Hx.
    assert (x !!! 0%nat = beval 32 x) as -> by (by rewrite (one_word x Hx) at 1).
    cbn [obase]. change (default 10 _) with 10. rewrite num_text_decimal by (by apply words_bound in Hx as [? _]).
    by rewrite Hwd.
  - destruct (Nat.eqb_spec (INTBV_WORDS size) 0); [lia|]. cbn [negb].
    destruct Hfit as [|Hfit]; [done|]. rewrite initLowWord_low by lia.
    destruct (words_zero (INTBV_WORDS size) ltac:(lia)) as [Hw0 _].
    rewrite dec_loop_spec; try done; try lia; [|by apply dec_buffer; [lia|]|].
    + eexists. split; [done|]. cbn. rewrite Hwd. by rewrite app_nil_r.
    + intros _ i Hi. unfold initZero. apply lookup_total_replicate_2. lia.
Qed.

Lemma str_dec junk format size x : uint 8 junk → 1 ≤ size ≤ 524288 → words (INTBV_WORDS size) x →
  has format ibin = false → has format idec = true →
  INTBV_WORDS size = 1%nat ∨ beval 32 x < 2 ^ (16 * Z.of_nat (INTBV_WORDS size)) →
  str junk format size x = Ret (dec_output (INTBV_WORDS size) (beval 32 x)).
Proof.
  intros Hj Hs Hx Hb Hd Hfit. unfold str. rewrite Hb, Hd. unfold printToOS. cbn [obase hex oct].
  edestruct printDec_spec as (os & -> & Ho); try done. cbn [obind]. by rewrite Ho.
Qed.

(** [str] prints a number in decimal, without leading zeros, and reading it back
    in the decimal format gives the array again, provided that the vector has
    one word or the number is below [2^(16 nw)]; a larger number makes the
    divider write outside of its buffer. *)
Theorem dec_roundtrip junk format size x :
  uint 8 junk → 1 ≤ size ≤ 524288 → words (INTBV_WORDS size) x →
  has format ibin = false → has format idec = true →
  let nw := INTBV_WORDS size in
  (nw = 1%nat ∨ beval 32 x < 2 ^ (16 * Z.of_nat nw) →
     str junk format size x = Ret (dec_output nw (beval 32 x)) ∧
     readNumber_string (dec_output nw (beval 32 x)) idec size (initZero nw) = Ret x) ∧
  (nw ≠ 1%nat → 2 ^ (16 * Z.of_nat nw) ≤ beval 32 x → str junk format size x = Undefined).
Proof.
  intros Hj Hs Hx Hb Hd nw. pose proof (words_bound _ _ Hx) as Hbound.
  destruct (INTBV_WORDS_spec size ltac:(lia)) as [Hn Hw]. unfold W in Hw. split.
  - intros Hfit. split; [by apply str_dec|]. rewrite read_dec. unfold dec_output, finish.
    destruct (Nat.eqb_spec nw 1) as [E|Hne].
    + unfold readDec. fold nw. rewrite E. cbn [Nat.eqb]. unfold nw in E. rewrite E in Hx, Hbound.
      destruct (extract_decimal {| dec := true; hex := false; oct := false |} [] (beval 32 x)
        (initZero 1 !!! 0%nat) (or_introl eq_refl) Hbound) as (si & -> & Hsi).
      unfold get. rewrite Hsi. cbn [obind snd]. f_equal. by rewrite (one_word x Hx) at 2.
    + destruct Hfit as [|Hfit]; [done|].
      destruct (readDec_wide {| flags := {| dec := true; hex := false; oct := false |}; before := [];
        rest := dec_text (beval 32 x); good := true |} size (initZero nw) ltac:(lia) eq_refl)
        as (c & si & r & -> & Hr & Hv). cbn [obind snd]. f_equal.
      apply (words_eq nw); [done..|]. rewrite Hv. cbn [rest]. unfold dec_text.
      destruct (Z.eqb_spec (beval 32 x) 0) as [->|]; [done|].
      destruct (all_digits_spec 10 (beval 32 x) ltac:(lia) ltac:(apply Hbound)) as [Hval Hds].
      rewrite <- (app_nil_r (_ <$> _)), run_text by (done || by left). cbn [run].
      rewrite app_nil_r, Hval. by apply Z.mod_small.
  - intros Hne Hbig. unfold str. rewrite Hb, Hd. unfold printToOS. cbn [obase hex oct].
    unfold printDec. fold nw. destruct (Nat.eqb_spec nw 1); [done|].
    destruct (Nat.eqb_spec nw 0); [unfold nw in *; lia|]. cbn [negb].
    rewrite initLowWord_low by (unfold nw; lia).
    rewrite dec_loop_overflow; try done; unfold nw in *; lia.
Qed.

Lemma dec_roundtrip_witness :
  str 0xaa idec 70 [0; 1000; 7] = Ret (text "4294967296007") ∧
  readNumber_string (text "4294967296007") idec 70 [0; 0; 0] = Ret [0; 1000; 7].
Proof.
  refine (proj1 (dec_roundtrip 0xaa idec 70 [0; 1000; 7] _ _ _ _ _) _).
  - split; lia.
  - lia.
  - split; [done|repeat constructor; done].
  - reflexivity.
  - reflexivity.
  - right. vm_compute. reflexivity.
Defined.

(** The decimal reader looks at the base flags only through [int_base]. *)
Lemma extract_flags f g b l ok x : int_base f = int_base g →
  fst (extract_uint32 {| flags := f; before := b; rest := l; good := ok |} x) =
  fst (extract_uint32 {| flags := g; before := b; rest := l; good := ok |} x).
Proof.
  intros E. unfold extract_uint32. cbn [advance flags rest before good]. rewrite E.
  destruct ok; [|done]. destruct (drop (count_spaces l) l) as [|c l']; [done|].
  destruct (int_sign (c :: l')) as [neg n]. destruct (int_prefix _ _) as [[b' z] n'].
  by repeat case_match.
Qed.

Lemma readDec_flags f g l size x : int_base f = int_base g →
  finish (readDec {| flags := f; before := []; rest := l; good := true |} size x) =
  finish (readDec {| flags := g; before := []; rest := l; good := true |} size x).
Proof.
  intros E. unfold readDec. destruct (INTBV_WORDS size =? 1)%nat.
  - pose proof (extract_flags f g [] l true (x !!! 0%nat) E) as Hv.
    destruct (extract_uint32 {| flags := f; before := []; rest := l; good := true |} _) as [v si].
    destruct (extract_uint32 {| flags := g; before := []; rest := l; good := true |} _) as [v' si'].
    cbn in Hv. subst v'. by destruct (get si), (get si').
  - destruct (negb (INTBV_WORDS size =? 0)%nat); [|done]. set (nw := INTBV_WORDS size).
    assert (∀ a, ∃ c pb a', dec_step nw EOF a = Stop c pb a') as Hstop by (intros [y t]; by eexists _, _, _).
    destruct (read_all_drive (dec_step nw) {| flags := f; before := []; rest := l; good := true |}
      (initZero nw, initZero nw) Hstop eq_refl) as (c & si & ->).
    destruct (read_all_drive (dec_step nw) {| flags := g; before := []; rest := l; good := true |}
      (initZero nw, initZero nw) Hstop eq_refl) as (c' & si' & ->).
    cbn [rest obind]. by destruct (drive (dec_step nw) l (initZero nw, initZero nw)).
Qed.

(** Two formats do not do what they are documented to: with [ibin] a string is
    read as if the format were [idec], and with [ihex] a string that carries the
    [0x] prefix is read as zero. *)
Theorem format_divergences s size x :
  1 ≤ size → words (INTBV_WORDS size) x → beval 32 x = 0 →
  readNumber_string s ibin size x = readNumber_string s idec size x ∧
  readNumber_string (text "0x" ++ s) ihex size x = Ret x.
Proof.
  intros Hs Hx Hz. split.
  - rewrite read_bin, read_dec. by apply readDec_flags.
  - rewrite read_hex. destruct (readHex_spec {| flags := {| dec := true; hex := true; oct := false |};
      before := []; rest := text "0x" ++ s; good := true |} size x Hs eq_refl Hx Hz)
      as (c & si & r & -> & Hr & Hv). cbn [finish obind snd]. f_equal.
    apply (words_eq (INTBV_WORDS size)); [done..|]. by rewrite Hv, Hz.
Qed.

Lemma format_divergences_witness :
  readNumber_string (text "1010") ibin 40 [0; 0] = readNumber_string (text "1010") idec 40 [0; 0] ∧
  readNumber_string (text "0x" ++ text "1010") ihex 40 [0; 0] = Ret [0; 0].
Proof.
  apply (format_divergences (text "1010") 40 [0; 0]).
  - lia.
  - split; [done|repeat constructor; done].
  - reflexivity.
Defined.
