(* ===== verification/Sintbv.v ===== *)
(** * Signed bit vectors: [sintbv<_Nb>]

    The class template of [src/helpers/sintbv.h], which derives from
    [intbv<_Nb>] and adds no data of its own: what makes a vector signed is the
    constructors that extend the sign and the operators that are redefined.
    Operators between widths first convert both operands to the larger width;
    those with an [intbv] and with an integer convert the other operand to a
    signed vector too.

    Results that the source returns as [intbv] and as [sintbv] have the same
    storage.  Members that only repeat an inherited one (single bits, masks,
    the rotations, the conversions to integers) are those of [Intbv]. *)
From stdpp Require Import prelude strings.
From Stdlib Require Import ZArith Lia Ascii.
From S2P Require Import Prelude.
From S2P Require Import BitTwiddles.
From S2P Require Import WordArith.
From S2P Require Import WordDivide.
From S2P Require Import IntbvBase.
From S2P Require Import Intbv.
From S2P Require Import WordIO.


Local Open Scope Z_scope.

Definition sintbv (nb : Z) : Type := intbv nb.

Section Sintbv.
Context (junk : Z).

(** ** Construction *)

(** The [long long] constructors of the 64-bit build go through the 64-bit
    ones. *)
Definition sintbv_of_scalar nb (s : scalar) : outcome (sintbv nb) :=
  match s with
  | U32 v => Ret (of_uint32 junk nb v)
  | U64 v | ULL v => Ret (of_uint64 junk nb v)
  | I32 v => of_int32 junk nb v
  | I64 v | LL v => of_int64 junk nb v
  end.
Definition sintbv_of_intbv {nb nb2} (x : intbv nb2) : outcome (sintbv nb) :=
  let this := copy junk (nb := nb) x in
  if nb2 <? nb then signExtend junk this (nb - nb2) else Ret this.
Definition sintbv_copy {nb nb2} (x : sintbv nb2) : outcome (sintbv nb) :=
  let this := copy junk (nb := nb) x in
  if nb2 <? nb then signExtend junk this (nb - nb2) else Ret this.
(** [static_cast<sintbv<32> >(y)] or [static_cast<sintbv<64> >(y)]. *)
Definition cast (s : scalar) : outcome (sintbv (scalar_width s)) :=
  sintbv_of_scalar (scalar_width s) s.

(** The two vectors of the larger width that an operator between widths works
    on. *)
Definition widened {A : Z → Type} (op : ∀ n, sintbv n → sintbv n → outcome (A n))
    {nb nb2} (x : sintbv nb) (y : sintbv nb2) : outcome (A (Z.max nb nb2)) :=
  let! tmp_x := sintbv_copy (nb := Z.max nb nb2) x in
  let! tmp_y := sintbv_copy (nb := Z.max nb nb2) y in
  op _ tmp_x tmp_y.
Definition widened_u {A : Z → Type} (op : ∀ n, sintbv n → sintbv n → outcome (A n))
    {nb nb2} (x : sintbv nb) (y : intbv nb2) : outcome (A (Z.max nb nb2)) :=
  let! tmp_x := sintbv_copy (nb := Z.max nb nb2) x in
  let! tmp_y := sintbv_of_intbv (nb := Z.max nb nb2) y in
  op _ tmp_x tmp_y.
Definition u_widened {A : Z → Type} (op : ∀ n, sintbv n → sintbv n → outcome (A n))
    {nb nb2} (x : intbv nb2) (y : sintbv nb) : outcome (A (Z.max nb nb2)) :=
  let! tmp_x := sintbv_of_intbv (nb := Z.max nb nb2) x in
  let! tmp_y := sintbv_copy (nb := Z.max nb nb2) y in
  op _ tmp_x tmp_y.

(** ** Subtraction and addition *)

Definition s_minus_same n (x y : sintbv n) : outcome (sintbv n) :=
  let result := x in Ret (minus_assign junk result y).
Definition s_minus {nb nb2} (x : sintbv nb) (y : sintbv nb2) := widened s_minus_same x y.
Definition s_minus_u {nb nb2} (x : sintbv nb) (y : intbv nb2) := widened_u s_minus_same x y.
Definition u_minus_s {nb nb2} (x : intbv nb2) (y : sintbv nb) := u_widened s_minus_same x y.
Definition s_minus_int {nb} (x : sintbv nb) (s : scalar) : outcome (sintbv (Z.max nb (scalar_width s))) :=
  let! y := cast s in s_minus x y.
Definition int_minus_s {nb} (s : scalar) (y : sintbv nb) : outcome (sintbv (Z.max (scalar_width s) nb)) :=
  let! x := cast s in s_minus x y.
Definition s_negate {nb} (x : sintbv nb) : sintbv nb :=
  let res := x in negate junk res.
Definition s_invert {nb} (x : sintbv nb) : sintbv nb :=
  let res := x in invert junk res.

Definition s_plus_same n (x y : sintbv n) : outcome (sintbv n) :=
  let result := x in Ret (plus_assign junk result y).
Definition s_plus {nb nb2} (x : sintbv nb) (y : sintbv nb2) := widened s_plus_same x y.
Definition s_plus_u {nb nb2} (x : sintbv nb) (y : intbv nb2) := widened_u s_plus_same x y.
Definition u_plus_s {nb nb2} (x : intbv nb2) (y : sintbv nb) := u_widened s_plus_same x y.
Definition s_plus_int {nb} (x : sintbv nb) (s : scalar) : outcome (sintbv (Z.max nb (scalar_width s))) :=
  let! y := cast s in s_plus x y.
Definition int_plus_s {nb} (s : scalar) (y : sintbv nb) : outcome (sintbv (Z.max (scalar_width s) nb)) :=
  let! x := cast s in s_plus x y.

(** ** Comparisons *)

Definition s_eq_same n (x y : sintbv n) : outcome bool := Ret (eq junk x y).
Definition s_ne_same n (x y : sintbv n) : outcome bool := Ret (ne junk x y).
Definition s_le_same n (x y : sintbv n) : outcome bool := Ret (signedLE junk x y).
Definition s_ge_same n (x y : sintbv n) : outcome bool := Ret (signedGE junk x y).
Definition s_lt_same n (x y : sintbv n) : outcome bool := Ret (signedLT junk x y).
Definition s_gt_same n (x y : sintbv n) : outcome bool := Ret (signedGT junk x y).
Definition s_eq {nb nb2} (this : sintbv nb) (rhs : sintbv nb2) : outcome bool :=
  widened (A := λ _, bool) s_eq_same this rhs.
Definition s_ne {nb nb2} (this : sintbv nb) (rhs : sintbv nb2) : outcome bool :=
  widened (A := λ _, bool) s_ne_same this rhs.
Definition s_le {nb nb2} (this : sintbv nb) (rhs : sintbv nb2) : outcome bool :=
  widened (A := λ _, bool) s_le_same this rhs.
Definition s_ge {nb nb2} (this : sintbv nb) (rhs : sintbv nb2) : outcome bool :=
  widened (A := λ _, bool) s_ge_same this rhs.
Definition s_lt {nb nb2} (this : sintbv nb) (rhs : sintbv nb2) : outcome bool :=
  widened (A := λ _, bool) s_lt_same this rhs.
Definition s_gt {nb nb2} (this : sintbv nb) (rhs : sintbv nb2) : outcome bool :=
  widened (A := λ _, bool) s_gt_same this rhs.
Definition s_eq_int {nb} (this : sintbv nb) (s : scalar) : outcome bool :=
  let! rhs := cast s in s_eq this rhs.
Definition s_ne_int {nb} (this : sintbv nb) (s : scalar) : outcome bool :=
  let! rhs := cast s in s_ne this rhs.
Definition s_le_int {nb} (this : sintbv nb) (s : scalar) : outcome bool :=
  let! rhs := cast s in s_le this rhs.
Definition s_ge_int {nb} (this : sintbv nb) (s : scalar) : outcome bool :=
  let! rhs := cast s in s_ge this rhs.
Definition s_lt_int {nb} (this : sintbv nb) (s : scalar) : outcome bool :=
  let! rhs := cast s in s_lt this rhs.
Definition s_gt_int {nb} (this : sintbv nb) (s : scalar) : outcome bool :=
  let! rhs := cast s in s_gt this rhs.

(** ** Multiplication *)

Definition s_times_same n (x y : sintbv n) : outcome (sintbv n) :=
  let! r := signedMultiply junk x y in sintbv_of_intbv r.
Definition s_times {nb nb2} (x : sintbv nb) (y : sintbv nb2) := widened s_times_same x y.
(** With an [intbv] the inherited, unsigned [operator*=] multiplies. *)
Definition s_times_assign n (x y : sintbv n) : outcome (intbv n) := Ret (times_assign junk x y).
Definition s_times_u {nb nb2} (x : sintbv nb) (y : intbv nb2) := widened_u s_times_assign x y.
Definition u_times_s {nb nb2} (x : intbv nb2) (y : sintbv nb) := u_widened s_times_assign x y.
Definition s_times_int {nb} (x : sintbv nb) (s : scalar) : outcome (sintbv (Z.max nb (scalar_width s))) :=
  let! y := cast s in s_times x y.
Definition int_times_s {nb} (s : scalar) (y : sintbv nb) : outcome (sintbv (Z.max (scalar_width s) nb)) :=
  let! x := cast s in s_times x y.

(** ** Division and modulus *)

Definition s_divide_same n (x y : sintbv n) : outcome (sintbv n) :=
  let! r := signedDivide junk x y in sintbv_of_intbv r.
Definition s_divide {nb nb2} (x : sintbv nb) (y : sintbv nb2) := widened s_divide_same x y.
Definition s_divide_u {nb nb2} (x : sintbv nb) (y : intbv nb2) := widened_u s_divide_same x y.
Definition u_divide_s {nb nb2} (x : intbv nb2) (y : sintbv nb) := u_widened s_divide_same x y.
Definition s_divide_int {nb} (x : sintbv nb) (s : scalar) : outcome (sintbv (Z.max nb (scalar_width s))) :=
  let! y := cast s in s_divide x y.
Definition int_divide_s {nb} (s : scalar) (y : sintbv nb) : outcome (sintbv (Z.max (scalar_width s) nb)) :=
  let! x := cast s in s_divide x y.
(** [operator/=] with a signed integer divides at the larger width and converts
    back; with a vector it is the inherited [signedDivideEqual]. *)
Definition s_divide_assign_int {nb} (this : sintbv nb) (s : scalar) : outcome (sintbv nb) :=
  let! r := s_divide_int this s in sintbv_copy r.
Definition s_divide_assign {nb} (this rhs : sintbv nb) : outcome (sintbv nb) :=
  signedDivideEqual junk this rhs.
Definition s_divide_assign_u {nb nb2} (this : sintbv nb) (rhs : intbv nb2) : outcome (sintbv nb) :=
  signedDivideEqual_diff junk this rhs.

Definition s_mod_same {nb} (x y : sintbv nb) : outcome (sintbv nb) :=
  let! tmp_x := sintbv_copy (nb := Z.max nb 32) x in
  let! tmp_y := sintbv_copy (nb := Z.max nb 32) y in
  let! r := signedMod junk tmp_x tmp_y in
  sintbv_of_intbv r.
Definition s_mod_at n (x y : sintbv n) : outcome (sintbv n) :=
  let! r := signedMod junk x y in sintbv_of_intbv r.
Definition s_mod {nb nb2} (x : sintbv nb) (y : sintbv nb2) := widened s_mod_at x y.
Definition s_mod_u {nb nb2} (x : sintbv nb) (y : intbv nb2) := widened_u s_mod_at x y.
Definition u_mod_s {nb nb2} (x : intbv nb2) (y : sintbv nb) := u_widened s_mod_at x y.
Definition s_mod_int {nb} (x : sintbv nb) (s : scalar) : outcome (sintbv (Z.max nb (scalar_width s))) :=
  let! y := cast s in s_mod x y.
Definition int_mod_s {nb} (s : scalar) (y : sintbv nb) : outcome (sintbv (Z.max (scalar_width s) nb)) :=
  let! x := cast s in s_mod x y.
Definition s_mod_assign_same {nb} (this rhs : sintbv nb) : outcome (sintbv nb) := s_mod_same this rhs.
Definition s_mod_assign {nb nb2} (this : sintbv nb) (rhs : sintbv nb2) : outcome (sintbv nb) :=
  let! r := s_mod this rhs in sintbv_copy r.

(** ** Bitwise operators *)

Definition s_and_same n (x y : sintbv n) : outcome (sintbv n) :=
  let result := x in Ret (and_assign junk result y).
Definition s_and {nb nb2} (x : sintbv nb) (y : sintbv nb2) := widened s_and_same x y.
Definition s_and_u {nb nb2} (x : sintbv nb) (y : intbv nb2) := widened_u s_and_same x y.
Definition u_and_s {nb nb2} (x : intbv nb2) (y : sintbv nb) := u_widened s_and_same x y.
Definition s_and_int {nb} (x : sintbv nb) (s : scalar) : outcome (sintbv (Z.max nb (scalar_width s))) :=
  let! y := cast s in s_and x y.
Definition int_and_s {nb} (s : scalar) (y : sintbv nb) : outcome (sintbv (Z.max (scalar_width s) nb)) :=
  let! x := cast s in s_and x y.

Definition s_xor_same n (x y : sintbv n) : outcome (sintbv n) :=
  let result := x in Ret (xor_assign junk result y).
Definition s_xor {nb nb2} (x : sintbv nb) (y : sintbv nb2) := widened s_xor_same x y.
Definition s_xor_u {nb nb2} (x : sintbv nb) (y : intbv nb2) := widened_u s_xor_same x y.
Definition u_xor_s {nb nb2} (x : intbv nb2) (y : sintbv nb) := u_widened s_xor_same x y.
Definition s_xor_int {nb} (x : sintbv nb) (s : scalar) : outcome (sintbv (Z.max nb (scalar_width s))) :=
  let! y := cast s in s_xor x y.
Definition int_xor_s {nb} (s : scalar) (y : sintbv nb) : outcome (sintbv (Z.max (scalar_width s) nb)) :=
  let! x := cast s in s_xor x y.

Definition s_or_same n (x y : sintbv n) : outcome (sintbv n) :=
  let result := x in Ret (or_assign junk result y).
Definition s_or {nb nb2} (x : sintbv nb) (y : sintbv nb2) := widened s_or_same x y.
Definition s_or_u {nb nb2} (x : sintbv nb) (y : intbv nb2) := widened_u s_or_same x y.
Definition u_or_s {nb nb2} (x : intbv nb2) (y : sintbv nb) := u_widened s_or_same x y.
Definition s_or_int {nb} (x : sintbv nb) (s : scalar) : outcome (sintbv (Z.max nb (scalar_width s))) :=
  let! y := cast s in s_or x y.
Definition int_or_s {nb} (s : scalar) (y : sintbv nb) : outcome (sintbv (Z.max (scalar_width s) nb)) :=
  let! x := cast s in s_or x y.

(** ** Shifts and fields

    Right shifts extend the sign, except [>>=] by a vector, whose inherited
    overload shifts zeros in. *)
Definition s_shift_left {nb} (this : sintbv nb) (position : Z) : sintbv nb :=
  shift_left_assign junk this position.
Definition s_shift_left_bv {nb nb2} (this : sintbv nb) (position : sintbv nb2) : sintbv nb :=
  shift_left_assign junk this (uint32 junk position).
Definition s_shift_right {nb} (this : sintbv nb) (position : Z) : outcome (sintbv nb) :=
  signedRightShiftEqual junk this position.
Definition s_shift_right_bv {nb nb2} (this : sintbv nb) (position : sintbv nb2) : outcome (sintbv nb) :=
  signedRightShift_bv junk this position.
Definition s_shift_right_assign_bv {nb nb2} (this : sintbv nb) (position : sintbv nb2) : sintbv nb :=
  signedRightShiftEqual_bv junk this position.

Definition s_get {nb} (this : sintbv nb) (start stop : Z) : outcome (sintbv nb) :=
  let! r := get_range junk this start stop in sintbv_of_intbv r.
Definition s_get_as {nb} nb2 (this : sintbv nb) (start stop : Z) : outcome (sintbv nb2) :=
  let! r := get_range_as junk nb2 this start stop in sintbv_of_intbv r.
Definition s_set {nb} (this : sintbv nb) (start stop : Z) (x : sintbv nb) : outcome (sintbv nb) :=
  set_range junk this start stop x.
Definition s_set_diff {nb nb2} (this : sintbv nb) (start stop : Z) (x : sintbv nb2) : outcome (sintbv nb) :=
  set_range_diff junk this start stop x.

(** ** Signed operators on unsigned vectors *)

Definition sbitsSignedMultiply {nb nb2} (x : intbv nb) (y : intbv nb2) : outcome (sintbv (Z.max nb nb2)) :=
  let! r := signedMultiply junk x y in sintbv_of_intbv r.
Definition sbitsSignedMultiply_int {nb} (x : intbv nb) (s : scalar) :
    outcome (sintbv (Z.max nb (scalar_width s))) :=
  let! r := signedMultiply_scalar junk x s in sintbv_of_intbv r.
Definition sbitsSignedDivide {nb nb2} (x : intbv nb) (y : intbv nb2) : outcome (sintbv (Z.max nb nb2)) :=
  let! r := signedDivide junk x y in sintbv_of_intbv r.
Definition sbitsSignedDivide_int {nb} (x : intbv nb) (s : scalar) :
    outcome (sintbv (Z.max nb (scalar_width s))) :=
  let! r := signedDivide_scalar junk x s in sintbv_of_intbv r.
Definition sbitsSignedDivide_int32 {nb} (x : intbv nb) (y : Z) : outcome (sintbv (Z.max nb 32)) :=
  let! r := signedDivide_int32 junk x y in sintbv_of_intbv r.
Definition sbitsSignedMod {nb nb2} (x : intbv nb) (y : intbv nb2) : outcome (sintbv (Z.max nb nb2)) :=
  let! r := signedMod junk x y in sintbv_of_intbv r.
Definition sbitsSignedMod_int {nb} (x : intbv nb) (s : scalar) :
    outcome (sintbv (Z.max nb (scalar_width s))) :=
  let! r := signedMod_scalar junk x s in sintbv_of_intbv r.
Definition sbitsSignedMod_int32 {nb} (x : intbv nb) (y : Z) : outcome (sintbv (Z.max nb 32)) :=
  let! r := signedMod_int32 junk x y in sintbv_of_intbv r.

(** ** Text

    The word array that the readers and printers work on, for the three
    storage classes. *)
Definition words_of (nw : nat) : storage nw → list Z :=
  match nw with
  | 1%nat => λ w, [w]
  | 2%nat => λ w, [wrap 32 (shr 64 w 32); wrap 32 w]
  | O | S _ => λ w, w
  end.
Definition of_words (nw : nat) : list Z → storage nw :=
  match nw with
  | 1%nat => λ l, l !!! 0%nat
  | 2%nat => λ l, Z.lor (shl 64 (l !!! 0%nat) 32) (l !!! 1%nat)
  | O | S _ => λ l, l
  end.
Definition intbv_of_string nb (s : list ascii) (format : Z) : outcome (intbv nb) :=
  let nw := INTBV_WORDS nb in
  let! w := readNumber_string s format nb (words_of nw (_reset (BaseOps := intbv_ops junk nb))) in
  Ret (_sanitize (BaseOps := intbv_ops junk nb) nb (of_words nw w)).

Definition isalnum (c : ascii) : bool :=
  isdigit c || between "A" c "Z" || between "a" c "z".
(** The loop advances while its pointer is not null, which it never is: the
    terminating zero byte does not stop it.  [mem] is the text from the pointer
    to the end of its object. *)
Fixpoint is_negative_loop (mem : list ascii) : outcome bool :=
  match mem with
  | [] => Undefined
  | c :: mem => if Ascii.eqb c "-" then Ret true
                else if isalnum c then Ret false else is_negative_loop mem
  end.
Definition is_negative (s : list ascii) : outcome bool := is_negative_loop (s ++ [chr 0]).
Definition sintbv_of_string nb (s : list ascii) (format : Z) : outcome (sintbv nb) :=
  let! this := intbv_of_string nb s format in
  let! neg := is_negative s in
  Ret (if neg then negate junk this else this).

Definition write_intbv {nb} (os : ostream) (x : intbv nb) : outcome ostream :=
  writeNumber junk os nb (words_of (INTBV_WORDS nb) x).
(** [operator<<]; the flag [showpos] of the stream is an argument. *)
Definition write_sintbv {nb} (showpos : bool) (os : ostream) (x : sintbv nb) : outcome ostream :=
  if dec (obase os) then
    let! sign := get_bit junk x 0 in
    if sign then write_intbv (put ["-"%char] os) (negate junk x)
    else write_intbv (if showpos then put ["+"%char] os else os) x
  else write_intbv os x.
End Sintbv.
