(* ===== verification/SintbvCorrect.v ===== *)
(** * What signed bit vectors compute

    [holds b v]: the vector [b] keeps the class invariant and its signed value
    is [v].  Every operation of [Sintbv] is related to the operation on signed
    numbers, reduced to the width of the result by [swrap]. *)
From stdpp Require Import prelude strings.
From Stdlib Require Import ZArith Lia.
From S2P Require Import Prelude.
From S2P Require Import WordArith.
From S2P Require Import WordDivide.
From S2P Require Import IntbvBase.
From S2P Require Import IntbvLaws.
From S2P Require Import Intbv.
From S2P Require Import IntbvSpec.
From S2P Require Import IntbvCorrect.
From S2P Require Import Sintbv.

Local Open Scope Z_scope.

(** ** Signed numbers of a width *)

Definition srange (nb v : Z) : Prop := - 2 ^ (nb - 1) ≤ v < 2 ^ (nb - 1).
(** The signed number of [nb] bits that is congruent to [v]. *)
Definition swrap (nb v : Z) : Z := sint nb (wrap nb v).
Definition holds {nb} (b : sintbv nb) (v : Z) : Prop := repr b (wrap nb v) ∧ srange nb v.
(** The operation returns normally, with a vector of signed value [v]. *)
Definition sreturns {nb} (m : outcome (sintbv nb)) (v : Z) : Prop := ∃ r, m = Ret r ∧ holds r v.

Lemma swrap_range nb v : 0 < nb → srange nb (swrap nb v).
Proof. intros H. apply sint_range; [done|]. apply uint_wrap. lia. Qed.
Lemma wrap_swrap nb v : wrap nb (swrap nb v) = wrap nb v.
Proof. unfold swrap. by rewrite sint_wrap, wrap_wrap. Qed.
Lemma swrap_small nb v : 0 < nb → srange nb v → swrap nb v = v.
Proof. intros. by apply sint_of_wrap. Qed.
Lemma swrap_congr nb u v : wrap nb u = wrap nb v → swrap nb u = swrap nb v.
Proof. unfold swrap. by intros ->. Qed.
Lemma srange_mono n m v : 0 < n ≤ m → srange n v → srange m v.
Proof.
  unfold srange. intros H Hv. assert (2 ^ (n - 1) ≤ 2 ^ (m - 1)) by (apply Z.pow_le_mono_r; lia). lia.
Qed.
Lemma srange_abs n v : 0 < n → srange n v → Z.abs v ≤ 2 ^ (n - 1).
Proof. unfold srange. lia. Qed.

(** A number is in range when its bits from the sign bit on are equal. *)
Lemma srange_bits n v : 0 < n →
  srange n v ↔ ∀ i, n - 1 ≤ i → Z.testbit v i = Z.testbit v (n - 1).
Proof.
  intros Hn. split.
  - intros Hv i Hi. rewrite <- (swrap_small n v Hn Hv). unfold swrap.
    rewrite !testbit_sint by (done || lia || apply uint_wrap; lia).
    destruct (Z.ltb_spec i n), (Z.ltb_spec (n - 1) n); try lia; [|done].
    by replace i with (n - 1) by lia.
  - intros Hb. replace v with (swrap n v); [by apply swrap_range|].
    apply Z.bits_inj'. intros i Hi. unfold swrap.
    rewrite testbit_sint by (done || lia || apply uint_wrap; lia).
    rewrite !testbit_wrap by lia. split_cmps; [done|].
    symmetry. apply Hb. lia.
Qed.

Lemma srange_bitwise n u v : 0 < n → srange n u → srange n v →
  srange n (Z.land u v) ∧ srange n (Z.lor u v) ∧ srange n (Z.lxor u v).
Proof.
  intros Hn Hu Hv. pose proof (proj1 (srange_bits n u Hn) Hu) as Bu.
  pose proof (proj1 (srange_bits n v Hn) Hv) as Bv.
  split_and!; (apply srange_bits; [done|]; intros i Hi);
    rewrite ?Z.land_spec, ?Z.lor_spec, ?Z.lxor_spec, (Bu i), (Bv i) by done; done.
Qed.

Lemma wrap_bitwise n u v : 0 ≤ n →
  Z.land (wrap n u) (wrap n v) = wrap n (Z.land u v) ∧
  Z.lor (wrap n u) (wrap n v) = wrap n (Z.lor u v) ∧
  Z.lxor (wrap n u) (wrap n v) = wrap n (Z.lxor u v).
Proof. intros Hn. split_and!; bitblast. Qed.

Section Correct.
Context (junk : Z) {Hj : byte junk}.

Lemma wf_pos nb : wf nb → 0 < nb.
Proof. unfold wf. lia. Qed.
#[local] Hint Resolve wf_pos : core.

(** ** From numbers to signed numbers *)

Lemma holds_repr {nb} (b : sintbv nb) v : holds b v → repr b (wrap nb v).
Proof. by intros [Hb _]. Qed.
Lemma holds_sint {nb} `{wf nb} (b : sintbv nb) v : holds b v → sint nb (wrap nb v) = v.
Proof. intros [_ Hv]. apply sint_of_wrap; [by apply wf_pos|done]. Qed.
Lemma repr_holds {nb} `{wf nb} (b : intbv nb) x : repr b x → holds b (sint nb x).
Proof.
  intros Hb. pose proof (repr_uint _ _ Hb). split; [|apply sint_range; auto].
  by rewrite sint_wrap, wrap_small.
Qed.
Lemma repr_swrap {nb} `{wf nb} (b : intbv nb) v : repr b (wrap nb v) → holds b (swrap nb v).
Proof. intros. by apply repr_holds. Qed.
Lemma returns_swrap {nb} `{wf nb} (m : outcome (sintbv nb)) v :
  returns m (wrap nb v) → sreturns m (swrap nb v).
Proof. intros (r & E & Hr). exists r. split; [done|]. by apply repr_swrap. Qed.
Lemma sreturns_ret {nb} `{wf nb} (b : sintbv nb) v : repr b (wrap nb v) → sreturns (Ret b) (swrap nb v).
Proof. intros. exists b. split; [done|]. by apply repr_swrap. Qed.

(** ** Construction *)

Lemma sintbv_copy_returns {nb nb2} `{wf nb} `{wf nb2} (a : sintbv nb2) v :
  holds a v → returns (sintbv_copy junk (nb := nb) a) (wrap nb v).
Proof.
  intros [Ha Hv]. pose proof (wf_pos nb _). pose proof (wf_pos nb2 _).
  pose proof (copy_spec junk (nb := nb) a _ Ha) as Hc. unfold sintbv_copy.
  destruct (Z.ltb_spec nb2 nb).
  - pose proof (signExtend_spec junk _ _ (nb - nb2) Hc ltac:(lia)) as He.
    replace (nb - (nb - nb2)) with nb2 in He by lia.
    by rewrite wrap_wrap_le, wrap_wrap, sint_of_wrap in He by (done || lia).
  - eexists. split; [done|]. by rewrite wrap_wrap_le in Hc by lia.
Qed.
Lemma sintbv_copy_spec {nb nb2} `{wf nb} `{wf nb2} (a : sintbv nb2) v :
  holds a v → sreturns (sintbv_copy junk (nb := nb) a) (swrap nb v).
Proof. intros. by apply returns_swrap, sintbv_copy_returns. Qed.
Lemma sintbv_of_intbv_copy {nb nb2} (a : intbv nb2) :
  sintbv_of_intbv junk (nb := nb) a = sintbv_copy junk (nb := nb) a.
Proof. done. Qed.
(** Widening keeps the value. *)
Lemma sintbv_copy_widen {nb nb2} `{wf nb} `{wf nb2} (a : sintbv nb2) v : nb2 ≤ nb →
  holds a v → sreturns (sintbv_copy junk (nb := nb) a) v.
Proof.
  intros Hle Ha. pose proof (wf_pos nb2 _). rewrite <- (swrap_small nb v); [by apply sintbv_copy_spec|auto|].
  apply (srange_mono nb2); [lia|]. by destruct Ha.
Qed.
(** The result of a base operation, converted to a signed vector. *)
Lemma returns_of_intbv {nb nb2} `{wf nb} `{wf nb2} (m : outcome (intbv nb2)) v : nb ≤ nb2 →
  returns m (wrap nb2 v) → sreturns (let! r := m in sintbv_of_intbv junk (nb := nb) r) (swrap nb v).
Proof.
  intros Hle (r & -> & Hr). cbn [obind]. pose proof (wf_pos nb _).
  assert (swrap nb v = swrap nb (swrap nb2 v)) as ->.
  { apply swrap_congr. rewrite <- (wrap_wrap_le nb nb2 v), <- (wrap_swrap nb2 v) by lia.
    rewrite wrap_wrap_le by lia. done. }
  rewrite sintbv_of_intbv_copy. by apply sintbv_copy_spec, repr_swrap.
Qed.

(** The number that a signed vector takes from an integer: unlike [intbv], the
    [long long] constructor extends the sign. *)
Definition scalar_value (s : scalar) : Z :=
  match s with U64 v | I64 v | U32 v | I32 v | ULL v | LL v => v end.
Lemma sintbv_of_scalar_spec nb `{wf nb} s : scalar_ok s →
  sreturns (sintbv_of_scalar junk nb s) (swrap nb (scalar_value s)).
Proof.
  intros Hs. apply returns_swrap. destruct s; cbn [sintbv_of_scalar scalar_value scalar_ok] in *;
    solve [eexists; split; [done|]; (by apply of_uint64_spec) || by apply of_uint32_spec
          |by apply of_int64_spec|by apply of_int32_spec].
Qed.
(** An integer operand becomes a signed vector of its own width. *)
Lemma cast_spec s : scalar_ok s → sreturns (cast junk s) (swrap (scalar_width s) (scalar_value s)).
Proof. apply sintbv_of_scalar_spec, _. Qed.

(** ** Operators between widths *)

Section Widened.
Context {nb nb2 : Z} {Hwf : wf nb} {Hwf2 : wf nb2}.
Context (a : sintbv nb) (b : sintbv nb2) (u v : Z) (Ha : holds a u) (Hb : holds b v).
Local Abbreviation n := (Z.max nb nb2).

Lemma widened_spec {A : Z → Type} (op : ∀ n, sintbv n → sintbv n → outcome (A n))
    (Q : outcome (A n) → Prop) :
  (∀ x y : sintbv n, holds x u → holds y v → Q (op n x y)) → Q (widened junk op a b).
Proof using All.
  intros H. destruct (sintbv_copy_widen (nb := n) a u) as (x & Ex & Hx); [lia|done|].
  destruct (sintbv_copy_widen (nb := n) b v) as (y & Ey & Hy); [lia|done|].
  unfold widened. rewrite Ex. cbn [obind]. rewrite Ey. cbn [obind]. by apply H.
Qed.
Lemma u_widened_spec {A : Z → Type} (op : ∀ n, sintbv n → sintbv n → outcome (A n))
    (Q : outcome (A n) → Prop) :
  (∀ x y : sintbv n, holds y u → holds x v → Q (op n x y)) → Q (u_widened junk op b a).
Proof using All.
  intros H. destruct (sintbv_copy_widen (nb := n) a u) as (x & Ex & Hx); [lia|done|].
  destruct (sintbv_copy_widen (nb := n) b v) as (y & Ey & Hy); [lia|done|].
  unfold u_widened. rewrite sintbv_of_intbv_copy, Ey. cbn [obind]. rewrite Ex. cbn [obind]. by apply H.
Qed.
End Widened.
Lemma widened_u_eq {A : Z → Type} (op : ∀ n, sintbv n → sintbv n → outcome (A n)) {nb nb2}
    (a : sintbv nb) (b : intbv nb2) : widened_u junk op a b = widened junk op a b.
Proof. done. Qed.

(** ** One width *)

Section Same.
Context {nb : Z} {Hwf : wf nb} (a b : sintbv nb) (u v : Z) (Ha : holds a u) (Hb : holds b v).

Lemma wrap_sub_both : wrap nb (wrap nb u - wrap nb v) = wrap nb (u - v).
Proof using Type. by rewrite wrap_sub_l, wrap_sub_r. Qed.
Lemma wrap_mul_both : wrap nb (wrap nb u * wrap nb v) = wrap nb (u * v).
Proof using Type. by rewrite wrap_mul_l, wrap_mul_r. Qed.

Lemma s_arith_same_spec :
  sreturns (s_plus_same junk nb a b) (swrap nb (u + v)) ∧
  sreturns (s_minus_same junk nb a b) (swrap nb (u - v)) ∧
  sreturns (s_times_same junk nb a b) (swrap nb (u * v)) ∧
  sreturns (s_times_assign junk nb a b) (swrap nb (u * v)).
Proof using All.
  pose proof (holds_repr _ _ Ha) as Ra. pose proof (holds_repr _ _ Hb) as Rb. split_and!.
  - apply sreturns_ret. rewrite <- wrap_add. by apply plus_assign_spec.
  - apply sreturns_ret. rewrite <- wrap_sub_both. by apply minus_assign_spec.
  - apply returns_of_intbv; [lia|]. rewrite <- (holds_sint a u Ha), <- (holds_sint b v Hb) at 1.
    by apply signedMultiply_spec.
  - apply sreturns_ret. rewrite <- wrap_mul_both. by apply times_assign_spec.
Qed.

Lemma s_bitwise_same_spec :
  sreturns (s_and_same junk nb a b) (Z.land u v) ∧
  sreturns (s_or_same junk nb a b) (Z.lor u v) ∧
  sreturns (s_xor_same junk nb a b) (Z.lxor u v).
Proof using All.
  pose proof (holds_repr _ _ Ha) as Ra. pose proof (holds_repr _ _ Hb) as Rb.
  pose proof (wf_pos nb _) as Hn. destruct (wrap_bitwise nb u v) as (E1 & E2 & E3); [lia|].
  destruct (srange_bitwise nb u v Hn (proj2 Ha) (proj2 Hb)) as (R1 & R2 & R3).
  split_and!; (eexists; split; [done|]; split; [|done]);
    [rewrite <- E1; by apply and_assign_spec|rewrite <- E2; by apply or_assign_spec
    |rewrite <- E3; by apply xor_assign_spec].
Qed.

Lemma wrap_eqb : (wrap nb u =? wrap nb v) = (u =? v).
Proof using All.
  rewrite <- (holds_sint a u Ha) at 2. rewrite <- (holds_sint b v Hb) at 2.
  destruct (Z.eqb_spec (wrap nb u) (wrap nb v)) as [->|Hne]; [by rewrite Z.eqb_refl|].
  symmetry. apply Z.eqb_neq. intros E. apply Hne. eapply sint_inj; [| |exact E];
    by apply uint_wrap, Z.lt_le_incl, wf_pos.
Qed.

Lemma s_compare_same_spec :
  s_eq_same junk nb a b = Ret (u =? v) ∧ s_ne_same junk nb a b = Ret (negb (u =? v)) ∧
  s_lt_same junk nb a b = Ret (u <? v) ∧ s_le_same junk nb a b = Ret (u <=? v) ∧
  s_gt_same junk nb a b = Ret (v <? u) ∧ s_ge_same junk nb a b = Ret (v <=? u).
Proof using All.
  pose proof (holds_repr _ _ Ha) as Ra. pose proof (holds_repr _ _ Hb) as Rb.
  destruct (compare_spec junk a b _ _ Ra Rb) as (E1 & E2 & _).
  destruct (signed_compare_spec junk a b _ _ Ra Rb) as (E3 & E4 & E5 & E6).
  rewrite wrap_eqb in E1, E2. rewrite (holds_sint a u Ha), (holds_sint b v Hb) in *.
  unfold s_eq_same, s_ne_same, s_lt_same, s_le_same, s_gt_same, s_ge_same.
  split_and!; f_equal; done.
Qed.

(** The divisions that the divider gets right: not by zero, within the sizes for
    which it stays in its buffers, and not the overflowing quotient of the
    least number of a width of whole words. *)
Definition div_ok (n x y : Z) : Prop :=
  y ≠ 0 ∧ div_dom (INTBV_WORDS n) (Z.abs x) (Z.abs y) ∧ (x ≠ - 2 ^ (WORD_ALIGNED n - 1) ∨ y ≠ -1).

Lemma wrap_nonzero : v ≠ 0 → wrap nb v ≠ 0.
Proof using Hb Hwf.
  intros Hv E. apply Hv. rewrite <- (holds_sint b v Hb), E. unfold sint.
  by destruct (Z.ltb_spec 0 (2 ^ (nb - 1))); [|pose proof (pow2_pos (nb - 1)); unfold wf in Hwf; lia].
Qed.

Lemma s_div_same_spec : div_ok nb u v →
  sreturns (s_divide_same junk nb a b) (swrap nb (Z.quot u v)) ∧
  sreturns (s_divide_assign junk a b) (swrap nb (Z.quot u v)) ∧
  sreturns (s_mod_at junk nb a b) (swrap nb (Z.rem u v)).
Proof using All.
  intros (Hv & Hd & Ho). pose proof (holds_repr _ _ Ha) as Ra. pose proof (holds_repr _ _ Hb) as Rb.
  pose proof (wrap_nonzero Hv) as Hw. pose proof (holds_sint a u Ha) as Eu. pose proof (holds_sint b v Hb) as Ev.
  split_and!.
  - apply returns_of_intbv; [lia|]. rewrite <- Eu, <- Ev at 1.
    apply signedDivide_spec; rewrite ?Z.max_id, ?Eu, ?Ev; done.
  - apply returns_swrap. rewrite <- Eu, <- Ev at 1. apply signedDivideEqual_spec; rewrite ?Eu, ?Ev; done.
  - apply returns_of_intbv; [lia|]. rewrite <- Eu, <- Ev at 1.
    apply signedMod_spec; rewrite ?Z.max_id, ?Eu, ?Ev; done.
Qed.

Lemma s_unary_spec p : 0 ≤ p →
  holds (s_negate junk a) (swrap nb (- u)) ∧ holds (s_invert junk a) (Z.lnot u) ∧
  holds (s_shift_left junk a p) (swrap nb (u * 2 ^ p)) ∧
  sreturns (s_shift_right junk a p) (u / 2 ^ p).
Proof using Ha Hj Hwf.
  intros Hp. pose proof (holds_repr _ _ Ha) as Ra. pose proof (wf_pos nb _) as Hn. split_and!.
  - apply repr_swrap. rewrite <- wrap_opp. by apply negate_spec.
  - split; [|destruct Ha as [_ H]; unfold srange, Z.lnot in *; lia].
    replace (wrap nb (Z.lnot u)) with (2 ^ nb - 1 - wrap nb u); [by apply invert_spec|].
    rewrite <- unot_val by (lia || apply uint_wrap; lia). unfold unot. bitblast.
  - apply repr_swrap. rewrite <- wrap_mul_l. by apply shift_left_assign_spec.
  - rewrite <- (swrap_small nb (u / 2 ^ p)); [|done|].
    + apply returns_swrap. rewrite <- (holds_sint a u Ha) at 1. by apply signedRightShiftEqual_spec.
    + destruct Ha as [_ H]. unfold srange in *. pose proof (pow2_pos p Hp).
      pose proof (pow2_pos (nb - 1)). split.
      * apply Z.div_le_lower_bound; nia.
      * apply Z.div_lt_upper_bound; nia.
Qed.
End Same.

(** ** Two widths *)

Section Two.
Context {nb nb2 : Z} {Hwf : wf nb} {Hwf2 : wf nb2}.
Context (a : sintbv nb) (b : sintbv nb2) (u v : Z) (Ha : holds a u) (Hb : holds b v).
Local Abbreviation n := (Z.max nb nb2).

(** Reduce a goal about an operator between widths to its body on the two
    widened operands. *)
Local Ltac widen Ha Hb :=
  unfold s_plus, s_minus, s_times, s_and, s_or, s_xor, s_eq, s_ne, s_lt, s_le, s_gt, s_ge, s_divide, s_mod,
    s_plus_u, s_minus_u, s_times_u, s_and_u, s_or_u, s_xor_u, s_divide_u, s_mod_u,
    u_plus_s, u_minus_s, u_times_s, u_and_s, u_or_s, u_xor_s, u_divide_s, u_mod_s; rewrite ?widened_u_eq;
  match goal with
  | |- context [@widened ?j ?A ?op ?n ?m ?x ?y] =>
      pattern (@widened j A op n m x y); apply (widened_spec _ _ _ _ Ha Hb)
  | |- context [@u_widened ?j ?A ?op ?n ?m ?x ?y] =>
      pattern (@u_widened j A op n m x y); apply (u_widened_spec _ _ _ _ Ha Hb)
  end; intros x y Hx Hy.

Lemma s_arith_spec :
  sreturns (s_plus junk a b) (swrap n (u + v)) ∧ sreturns (s_minus junk a b) (swrap n (u - v)) ∧
  sreturns (s_times junk a b) (swrap n (u * v)) ∧
  sreturns (s_and junk a b) (Z.land u v) ∧ sreturns (s_or junk a b) (Z.lor u v) ∧
  sreturns (s_xor junk a b) (Z.lxor u v).
Proof using All.
  split_and!; widen Ha Hb;
    pose proof (s_arith_same_spec x y u v Hx Hy); pose proof (s_bitwise_same_spec x y u v Hx Hy); tauto.
Qed.
Lemma s_compare_spec :
  s_eq junk a b = Ret (u =? v) ∧ s_ne junk a b = Ret (negb (u =? v)) ∧
  s_lt junk a b = Ret (u <? v) ∧ s_le junk a b = Ret (u <=? v) ∧
  s_gt junk a b = Ret (v <? u) ∧ s_ge junk a b = Ret (v <=? u).
Proof using All.
  split_and!; widen Ha Hb; by apply (s_compare_same_spec x y u v Hx Hy).
Qed.
Lemma s_div_spec : div_ok n u v →
  sreturns (s_divide junk a b) (swrap n (Z.quot u v)) ∧ sreturns (s_mod junk a b) (swrap n (Z.rem u v)).
Proof using All.
  intros Hd. split; widen Ha Hb; by apply (s_div_same_spec x y u v Hx Hy).
Qed.

(** An [intbv] operand [b] of either side counts as the signed number that its
    bits are. *)
Lemma u_arith_spec :
  sreturns (u_minus_s junk b a) (swrap n (v - u)) ∧ sreturns (u_plus_s junk b a) (swrap n (v + u)) ∧
  sreturns (u_times_s junk b a) (swrap n (v * u)) ∧ sreturns (u_and_s junk b a) (Z.land v u) ∧
  sreturns (u_or_s junk b a) (Z.lor v u) ∧ sreturns (u_xor_s junk b a) (Z.lxor v u) ∧
  sreturns (s_times_u junk a b) (swrap n (u * v)).
Proof using All.
  split_and!; widen Ha Hb; pose proof (s_arith_same_spec x y v u); pose proof (s_bitwise_same_spec x y v u);
    pose proof (s_arith_same_spec x y u v); tauto.
Qed.
Lemma u_div_spec : div_ok n v u →
  sreturns (u_divide_s junk b a) (swrap n (Z.quot v u)) ∧ sreturns (u_mod_s junk b a) (swrap n (Z.rem v u)).
Proof using All.
  intros Hd. split; widen Ha Hb; by apply (s_div_same_spec x y v u Hy Hx).
Qed.

(** The signed operators on unsigned vectors. *)
Lemma sbits_spec :
  sreturns (sbitsSignedMultiply junk a b) (swrap n (u * v)) ∧
  (div_ok n u v → sreturns (sbitsSignedDivide junk a b) (swrap n (Z.quot u v)) ∧
                  sreturns (sbitsSignedMod junk a b) (swrap n (Z.rem u v))).
Proof using All.
  pose proof (holds_repr _ _ Ha) as Ra. pose proof (holds_repr _ _ Hb) as Rb.
  pose proof (holds_sint a u Ha) as Eu. pose proof (holds_sint b v Hb) as Ev. split.
  - apply returns_of_intbv; [lia|]. rewrite <- Eu, <- Ev at 1. by apply signedMultiply_spec.
  - intros (Hv & Hd & Ho). pose proof (wrap_nonzero b v Hb Hv) as Hw.
    split; (apply returns_of_intbv; [lia|]); rewrite <- Eu, <- Ev at 1;
      [apply signedDivide_spec|apply signedMod_spec]; rewrite ?Eu, ?Ev; done.
Qed.

(** [s_get]: the field as a number, which is negative only for a field of the
    full width. *)
Lemma s_get_spec start stop : 0 ≤ start ≤ stop → stop < nb →
  sreturns (s_get_as junk nb2 a start stop) (swrap nb2 (get_field nb start stop (wrap nb u))).
Proof using Ha Hj Hwf Hwf2.
  intros H1 H2. apply returns_of_intbv; [lia|]. apply get_range_as_spec; try done. by apply holds_repr.
Qed.
End Two.

(** ** Integers *)

Lemma cast_bind {A} s (f : sintbv (scalar_width s) → outcome A) (Q : outcome A → Prop) : scalar_ok s →
  (∀ y, holds y (swrap (scalar_width s) (scalar_value s)) → Q (f y)) → Q (let! y := cast junk s in f y).
Proof. intros Hs H. destruct (cast_spec s Hs) as (y & -> & Hy). by apply H. Qed.
End Correct.
