(* ===== verification/SintbvTheorems.v ===== *)
(** * Signed bit vectors are right

    The theorems about [Sintbv]: expressions over signed vectors of mixed widths
    never leave the class invariant and compute the signed value that they
    denote; integers and unsigned vectors as operands; signed decimal text. *)
From stdpp Require Import prelude strings.
From Stdlib Require Import ZArith Lia Ascii.
From S2P Require Import Prelude.
From S2P Require Import BitTwiddles.
From S2P Require Import WordArith.
From S2P Require Import WordDivide.
From S2P Require Import IntbvBase.
From S2P Require Import IntbvLaws.
From S2P Require Import IntbvArray.
From S2P Require Import Intbv.
From S2P Require Import IntbvSpec.
From S2P Require Import IntbvCorrect.
From S2P Require Import IntbvTheorems.
From S2P Require Import WordIO.
From S2P Require Import WordIOCorrect.
From S2P Require Import Sintbv.
From S2P Require Import SintbvCorrect.

Local Open Scope Z_scope.

(** Widths for the examples. *)
#[local] Instance wf_8 : wf 8. Proof. unfold wf; lia. Qed.
#[local] Instance wf_40 : wf 40. Proof. unfold wf; lia. Qed.
#[local] Instance byte_aa : byte 0xaa. Proof. split; lia. Qed.
Ltac holds_now := split; [repr_now|split; vm_compute; first [discriminate|reflexivity]].

(** ** Expressions

    The C++ expressions over signed vectors, typed by the width of the vector
    that the operators return. *)
Inductive arith : Type := Plus | Minus | Times | And | Or | Xor.
Inductive division : Type := Quotient | Remainder.

Inductive sexp : Z → Type :=
| Vector {nb} (b : sintbv nb) : sexp nb
| Integer nb (s : scalar) : sexp nb
| Convert nb {nb2} (e : sexp nb2) : sexp nb
| Negate {nb} (e : sexp nb) : sexp nb
| Invert {nb} (e : sexp nb) : sexp nb
| Left {nb} (e : sexp nb) (p : Z) : sexp nb
| Right {nb} (e : sexp nb) (p : Z) : sexp nb
| Arith (o : arith) {nb nb2} (e1 : sexp nb) (e2 : sexp nb2) : sexp (Z.max nb nb2)
| Divide (o : division) {nb nb2} (e1 : sexp nb) (e2 : sexp nb2) : sexp (Z.max nb nb2).

Definition arith_op junk (o : arith) {nb nb2} (x : sintbv nb) (y : sintbv nb2) :
    outcome (sintbv (Z.max nb nb2)) :=
  match o with
  | Plus => s_plus junk x y | Minus => s_minus junk x y | Times => s_times junk x y
  | And => s_and junk x y | Or => s_or junk x y | Xor => s_xor junk x y
  end.
Definition division_op junk (o : division) {nb nb2} (x : sintbv nb) (y : sintbv nb2) :
    outcome (sintbv (Z.max nb nb2)) :=
  match o with Quotient => s_divide junk x y | Remainder => s_mod junk x y end.

Fixpoint eval junk {nb} (e : sexp nb) : outcome (sintbv nb) :=
  match e with
  | Vector b => Ret b
  | Integer nb s => sintbv_of_scalar junk nb s
  | Convert nb e => let! x := eval junk e in sintbv_copy junk x
  | Negate e => let! x := eval junk e in Ret (s_negate junk x)
  | Invert e => let! x := eval junk e in Ret (s_invert junk x)
  | Left e p => let! x := eval junk e in Ret (s_shift_left junk x p)
  | Right e p => let! x := eval junk e in s_shift_right junk x p
  | Arith o e1 e2 => let! x := eval junk e1 in let! y := eval junk e2 in arith_op junk o x y
  | Divide o e1 e2 => let! x := eval junk e1 in let! y := eval junk e2 in division_op junk o x y
  end.

(** The signed number that an expression stands for. *)
Definition arith_fun (o : arith) : Z → Z → Z :=
  match o with
  | Plus => Z.add | Minus => Z.sub | Times => Z.mul
  | And => Z.land | Or => Z.lor | Xor => Z.lxor
  end.
Definition division_fun (o : division) : Z → Z → Z :=
  match o with Quotient => Z.quot | Remainder => Z.rem end.

Inductive denotes : ∀ {nb}, sexp nb → Z → Prop :=
| D_vector nb `{wf nb} (b : sintbv nb) v : holds b v → denotes (Vector b) v
| D_integer nb `{wf nb} s : scalar_ok s → denotes (Integer nb s) (swrap nb (scalar_value s))
| D_convert nb `{wf nb} nb2 (e : sexp nb2) v : denotes e v → denotes (Convert nb e) (swrap nb v)
| D_negate nb (e : sexp nb) v : denotes e v → denotes (Negate e) (swrap nb (- v))
| D_invert nb (e : sexp nb) v : denotes e v → denotes (Invert e) (Z.lnot v)
| D_left nb (e : sexp nb) v p : 0 ≤ p → denotes e v → denotes (Left e p) (swrap nb (v * 2 ^ p))
| D_right nb (e : sexp nb) v p : 0 ≤ p → denotes e v → denotes (Right e p) (v / 2 ^ p)
| D_arith o nb nb2 (e1 : sexp nb) (e2 : sexp nb2) u v :
    denotes e1 u → denotes e2 v → denotes (Arith o e1 e2) (swrap (Z.max nb nb2) (arith_fun o u v))
| D_divide o nb nb2 (e1 : sexp nb) (e2 : sexp nb2) u v :
    denotes e1 u → denotes e2 v → div_ok (Z.max nb nb2) u v →
    denotes (Divide o e1 e2) (swrap (Z.max nb nb2) (division_fun o u v)).

(** The expressions that the compiler and the class invariant accept, without
    divisions. *)
Fixpoint well_formed {nb} (e : sexp nb) : Prop :=
  match e with
  | @Vector nb b => wf nb ∧ ∃ x, repr b x
  | Integer nb s => wf nb ∧ scalar_ok s
  | Convert nb e => wf nb ∧ well_formed e
  | Negate e | Invert e => well_formed e
  | Left e p | Right e p => 0 ≤ p ∧ well_formed e
  | Arith _ e1 e2 => well_formed e1 ∧ well_formed e2
  | Divide _ _ _ => False
  end.

Section Expressions.
Context (junk : Z) {Hj : byte junk}.

Lemma denotes_wf {nb} (e : sexp nb) v : denotes e v → wf nb.
Proof. induction 1; try done; by apply wf_max. Qed.

Lemma arith_op_spec o {nb nb2} `{wf nb} `{wf nb2} (x : sintbv nb) (y : sintbv nb2) u v :
  holds x u → holds y v →
  sreturns (arith_op junk o x y) (swrap (Z.max nb nb2) (arith_fun o u v)).
Proof using Hj.
  intros Hx Hy. destruct (s_arith_spec junk x y u v Hx Hy) as (A1 & A2 & A3 & A4 & A5 & A6).
  assert (∀ m w, sreturns (nb := Z.max nb nb2) m w → sreturns m (swrap (Z.max nb nb2) w)) as Hsmall.
  { intros m w (r & E & Hr). rewrite swrap_small; [by exists r|unfold wf in *; lia|apply Hr]. }
  by destruct o; cbn [arith_op arith_fun]; auto.
Qed.

Lemma division_op_spec o {nb nb2} `{wf nb} `{wf nb2} (x : sintbv nb) (y : sintbv nb2) u v :
  holds x u → holds y v → div_ok (Z.max nb nb2) u v →
  sreturns (division_op junk o x y) (swrap (Z.max nb nb2) (division_fun o u v)).
Proof using Hj.
  intros Hx Hy Hd. destruct (s_div_spec junk x y u v Hx Hy Hd). by destruct o.
Qed.

Lemma eval_denotes {nb} (e : sexp nb) v : denotes e v → sreturns (eval junk e) v.
Proof using Hj.
  induction 1 as [nb Hw b v Hb|nb Hw s Hs|nb Hw nb2 e v He (x & E & Hx)|nb e v He (x & E & Hx)
    |nb e v He (x & E & Hx)|nb e v p Hp He (x & E & Hx)|nb e v p Hp He (x & E & Hx)
    |o nb nb2 e1 e2 u v He1 (x & E & Hx) He2 (y & E2 & Hy)
    |o nb nb2 e1 e2 u v He1 (x & E & Hx) He2 (y & E2 & Hy) Hd]; cbn [eval];
    rewrite ?E; cbn [obind]; rewrite ?E2; cbn [obind].
  - by exists b.
  - by apply sintbv_of_scalar_spec.
  - pose proof (denotes_wf _ _ He). by apply sintbv_copy_spec.
  - pose proof (denotes_wf _ _ He). eexists. split; [done|]. by apply (s_unary_spec junk x v Hx 0).
  - pose proof (denotes_wf _ _ He). eexists. split; [done|]. by apply (s_unary_spec junk x v Hx 0).
  - pose proof (denotes_wf _ _ He). eexists. split; [done|]. by apply (s_unary_spec junk x v Hx p).
  - pose proof (denotes_wf _ _ He). by apply (s_unary_spec junk x v Hx p).
  - pose proof (denotes_wf _ _ He1). pose proof (denotes_wf _ _ He2). by apply arith_op_spec.
  - pose proof (denotes_wf _ _ He1). pose proof (denotes_wf _ _ He2). by apply division_op_spec.
Qed.

Lemma well_formed_denotes {nb} (e : sexp nb) : well_formed e → ∃ v, denotes e v.
Proof using Type.
  induction e as [nb b|nb s|nb nb2 e IH|nb e IH|nb e IH|nb e IH p|nb e IH p|o nb nb2 e1 IH1 e2 IH2|];
    cbn [well_formed].
  - intros (Hw & x & Hb). exists (sint nb x). constructor; [done|]. by apply repr_holds.
  - intros (Hw & Hs). eexists. by constructor.
  - intros (Hw & [v Hv]%IH). eexists. by constructor.
  - intros [v Hv]%IH. eexists. by constructor.
  - intros [v Hv]%IH. eexists. by constructor.
  - intros (Hp & [v Hv]%IH). eexists. by constructor.
  - intros (Hp & [v Hv]%IH). eexists. by constructor.
  - intros ([u Hu]%IH1 & [v Hv]%IH2). eexists. by constructor.
  - done.
Qed.
End Expressions.

(** C3: every expression over signed vectors of mixed widths, built from vectors
    that keep the class invariant by constructors, conversions, arithmetic,
    bitwise operators and shifts, evaluates without an error to a vector that
    keeps the invariant; and whatever value an expression denotes over the
    signed numbers, divisions included, is the value of the vector that it
    evaluates to. *)
Theorem sintbv_type_soundness junk `{byte junk} nb (e : sexp nb) :
  (well_formed e → ∃ v, denotes e v ∧ sreturns (eval junk e) v) ∧
  (∀ v, denotes e v → sreturns (eval junk e) v ∧ srange nb v).
Proof.
  split.
  - intros [v Hv]%well_formed_denotes. exists v. split; [done|]. by apply eval_denotes.
  - intros v Hv. pose proof (eval_denotes junk e v Hv) as Hs. split; [done|]. by destruct Hs as (r & _ & Hr & ?).
Qed.

(** [((-6 : sintbv<8>) + (3 : sintbv<40>)) >> 1] *)
Definition sample : sexp (Z.max 8 40) :=
  Right (Arith Plus (Integer 8 (I32 (-6))) (Integer 40 (I64 3))) 1.
Lemma sintbv_type_soundness_witness : ∃ v, denotes sample v ∧ sreturns (eval 0xaa sample) v.
Proof.
  refine (proj1 (sintbv_type_soundness 0xaa (Z.max 8 40) sample) _).
  unfold sample, well_formed, wf, scalar_ok. lia.
Defined.

(** ** Operators *)

(** C4: for signed vectors of any two widths, sums, differences and products are
    those of the signed values, reduced to the larger width; the bitwise
    operators give those of the values exactly; the comparisons decide their
    order.  Quotient (rounding towards zero) and remainder (sign of the
    dividend) are right under [div_ok]: the divisor is not zero, the division
    of the magnitudes stays inside the divider's buffers ([div_dom]: larger
    width at most 64 bits, or dividend 0, or divisor 1 or -1, or lengths in
    bytes that fit), and it is not the overflowing quotient of the least number
    of a width of whole words by -1.  The [sbits] functions give the same for
    vectors that are taken as unsigned, theirs of division under [div_ok] too. *)
Theorem sintbv_operators junk `{byte junk} nb nb2 `{wf nb} `{wf nb2}
    (a : sintbv nb) (b : sintbv nb2) u v :
  holds a u → holds b v →
  let n := Z.max nb nb2 in
  (sreturns (s_plus junk a b) (swrap n (u + v)) ∧ sreturns (s_minus junk a b) (swrap n (u - v)) ∧
   sreturns (s_times junk a b) (swrap n (u * v)) ∧ sreturns (s_and junk a b) (Z.land u v) ∧
   sreturns (s_or junk a b) (Z.lor u v) ∧ sreturns (s_xor junk a b) (Z.lxor u v)) ∧
  (s_eq junk a b = Ret (u =? v) ∧ s_ne junk a b = Ret (negb (u =? v)) ∧
   s_lt junk a b = Ret (u <? v) ∧ s_le junk a b = Ret (u <=? v) ∧
   s_gt junk a b = Ret (v <? u) ∧ s_ge junk a b = Ret (v <=? u)) ∧
  (div_ok n u v →
   sreturns (s_divide junk a b) (swrap n (Z.quot u v)) ∧ sreturns (s_mod junk a b) (swrap n (Z.rem u v)) ∧
   sreturns (sbitsSignedDivide junk a b) (swrap n (Z.quot u v)) ∧
   sreturns (sbitsSignedMod junk a b) (swrap n (Z.rem u v))) ∧
  sreturns (sbitsSignedMultiply junk a b) (swrap n (u * v)).
Proof.
  intros Ha Hb n. destruct (sbits_spec junk a b u v Ha Hb) as [Hm Hd]. split_and!.
  1-6: by apply s_arith_spec.
  1-6: by apply s_compare_spec.
  - intros Ho. destruct (s_div_spec junk a b u v Ha Hb Ho), (Hd Ho). done.
  - done.
Qed.

Lemma sintbv_operators_witness :
  sreturns (s_divide 0xaa (nb := 8) (nb2 := 40) 0xf6 3) (swrap 40 (Z.quot (-10) 3)) ∧
  s_lt 0xaa (nb := 8) (nb2 := 40) 0xf6 3 = Ret (-10 <? 3).
Proof.
  refine ((λ t, conj (proj1 (proj1 (proj2 (proj2 t)) _)) (proj1 (proj2 (proj2 (proj1 (proj2 t))))))
    (sintbv_operators 0xaa 8 40 (0xf6 : intbv 8) (3 : intbv 40) (-10) 3 _ _)).
  - unfold div_ok. split_and!; [done|left; vm_compute; lia|by right].
  - holds_now.
  - holds_now.
Defined.

(** ** Integer operands *)

(** The value that an operator takes from an integer. *)
Definition operand (s : scalar) : Z := swrap (scalar_width s) (scalar_value s).
Lemma operand_signed s : scalar_ok s →
  match s with I32 v | I64 v | LL v => operand s = v | _ => True end.
Proof. destruct s; intros Hs; try done; apply swrap_small; done || (unfold srange; cbn in *; lia). Qed.

(** An integer operand of a signed vector, on either side, is cast to a signed
    vector of its own width: a signed integer keeps its value, an unsigned one
    with the top bit set counts as a negative number, in the arithmetic and in
    the comparisons. *)
Theorem sintbv_integers junk `{byte junk} nb `{wf nb} (a : sintbv nb) u s :
  holds a u → scalar_ok s →
  let w := scalar_width s in let t := operand s in let n := Z.max nb w in let m := Z.max w nb in
  match s with I32 v | I64 v | LL v => t = v | _ => True end ∧
  (sreturns (s_plus_int junk a s) (swrap n (u + t)) ∧ sreturns (s_minus_int junk a s) (swrap n (u - t)) ∧
   sreturns (s_times_int junk a s) (swrap n (u * t)) ∧ sreturns (s_and_int junk a s) (Z.land u t) ∧
   sreturns (s_or_int junk a s) (Z.lor u t) ∧ sreturns (s_xor_int junk a s) (Z.lxor u t)) ∧
  (sreturns (int_plus_s junk s a) (swrap m (t + u)) ∧ sreturns (int_minus_s junk s a) (swrap m (t - u)) ∧
   sreturns (int_times_s junk s a) (swrap m (t * u)) ∧ sreturns (int_and_s junk s a) (Z.land t u) ∧
   sreturns (int_or_s junk s a) (Z.lor t u) ∧ sreturns (int_xor_s junk s a) (Z.lxor t u)) ∧
  (s_eq_int junk a s = Ret (u =? t) ∧ s_ne_int junk a s = Ret (negb (u =? t)) ∧
   s_lt_int junk a s = Ret (u <? t) ∧ s_le_int junk a s = Ret (u <=? t) ∧
   s_gt_int junk a s = Ret (t <? u) ∧ s_ge_int junk a s = Ret (t <=? u)) ∧
  (div_ok n u t → sreturns (s_divide_int junk a s) (swrap n (Z.quot u t)) ∧
                  sreturns (s_mod_int junk a s) (swrap n (Z.rem u t))) ∧
  (div_ok m t u → sreturns (int_divide_s junk s a) (swrap m (Z.quot t u)) ∧
                  sreturns (int_mod_s junk s a) (swrap m (Z.rem t u))).
Proof.
  intros Ha Hs w t n m. destruct (cast_spec junk s Hs) as (y & Ey & Hy). fold w t in Hy.
  unfold s_plus_int, s_minus_int, s_times_int, s_and_int, s_or_int, s_xor_int, int_plus_s, int_minus_s,
    int_times_s, int_and_s, int_or_s, int_xor_s, s_eq_int, s_ne_int, s_lt_int, s_le_int, s_gt_int, s_ge_int,
    s_divide_int, s_mod_int, int_divide_s, int_mod_s.
  rewrite Ey. cbn [obind]. pose proof (s_arith_spec junk a y u t Ha Hy). pose proof (s_arith_spec junk y a t u Hy Ha).
  pose proof (s_compare_spec junk a y u t Ha Hy). pose proof (s_div_spec junk a y u t Ha Hy).
  pose proof (s_div_spec junk y a t u Hy Ha). pose proof (operand_signed s Hs). tauto.
Qed.

Lemma sintbv_integers_witness :
  sreturns (s_minus_int 0xaa (nb := 8) 0xf6 (I32 5)) (swrap 32 (-10 - 5)) ∧
  s_lt_int 0xaa (nb := 8) 0xf6 (U32 0xfffffff7) = Ret (-10 <? -9).
Proof.
  refine (conj
    (proj1 (proj2 (proj1 (proj2 (sintbv_integers 0xaa 8 (0xf6 : intbv 8) (-10) (I32 5) _ _)))))
    (proj1 (proj2 (proj2 (proj1 (proj2 (proj2 (proj2
      (sintbv_integers 0xaa 8 (0xf6 : intbv 8) (-10) (U32 0xfffffff7) _ _))))))))).
  - holds_now.
  - cbn. lia.
  - holds_now.
  - uint_now.
Defined.

(** The compound divisions divide at the larger width and convert the result
    back to the width of the left operand; the remainder of two vectors of one
    width is taken at 32 bits at least. *)
Theorem sintbv_compound junk `{byte junk} nb nb2 `{wf nb} `{wf nb2}
    (a c : sintbv nb) (b : sintbv nb2) u v w s :
  holds a u → holds b v → holds c w → scalar_ok s →
  let t := operand s in
  (div_ok (Z.max nb nb2) u v → sreturns (s_mod_assign junk a b) (swrap nb (Z.rem u v))) ∧
  (div_ok (Z.max nb (scalar_width s)) u t → sreturns (s_divide_assign_int junk a s) (swrap nb (Z.quot u t))) ∧
  (div_ok (Z.max nb 32) u w →
     sreturns (s_mod_same junk a c) (swrap nb (Z.rem u w)) ∧
     sreturns (s_mod_assign_same junk a c) (swrap nb (Z.rem u w))) ∧
  (div_ok nb u w → sreturns (s_divide_assign junk a c) (swrap nb (Z.quot u w))).
Proof.
  intros Ha Hb Hc Hs t.
  assert (∀ n `{wf n} m z, nb ≤ n → sreturns (nb := n) m (swrap n z) →
    sreturns (let! r := m in sintbv_copy junk (nb := nb) r) (swrap nb z)) as Hback.
  { intros n Hn m z Hle (r & -> & Hr). cbn [obind]. pose proof (wf_pos nb _).
    destruct (sintbv_copy_spec junk (nb := nb) r _ Hr) as (q & Eq & Hq). exists q. split; [done|].
    replace (swrap nb z) with (swrap nb (swrap n z)); [done|]. apply swrap_congr.
    rewrite <- (wrap_wrap_le nb n (swrap n z)), wrap_swrap, wrap_wrap_le by lia. done. }
  assert (div_ok (Z.max nb 32) u w → sreturns (s_mod_same junk a c) (swrap nb (Z.rem u w))) as Hmod.
  { intros Hd. destruct (sintbv_copy_widen junk (nb := Z.max nb 32) a u) as (x & Ex & Hx); [lia|done|].
    destruct (sintbv_copy_widen junk (nb := Z.max nb 32) c w) as (y & Ey & Hy); [lia|done|].
    unfold s_mod_same. rewrite Ex. cbn [obind]. rewrite Ey. cbn [obind].
    destruct Hd as (Hw & Hd & Ho). apply (returns_of_intbv junk (nb2 := Z.max (Z.max nb 32) (Z.max nb 32))); [lia|].
    rewrite <- (holds_sint x u Hx), <- (holds_sint y w Hy) at 1.
    apply (signedMod_spec junk x y _ _ (holds_repr _ _ Hx) (holds_repr _ _ Hy)).
    - by apply (wrap_nonzero y w Hy).
    - by rewrite (holds_sint x u Hx), (holds_sint y w Hy), Z.max_id. }
  split_and!; [..|by apply s_div_same_spec].
  - intros Hd. apply (Hback _ _ _ _ (Z.le_max_l nb nb2)). by apply s_div_spec.
  - intros Hd. apply (Hback _ _ _ _ (Z.le_max_l nb (scalar_width s))). unfold s_divide_int.
    apply cast_bind; [done..|]. intros y Hy. by apply (s_div_spec junk a y u t).
  - intros Hd. split; by apply Hmod.
Qed.

Lemma sintbv_compound_witness :
  sreturns (s_mod_same 0xaa (nb := 8) 0xf6 3) (swrap 8 (Z.rem (-10) 3)).
Proof.
  refine (proj1 (proj1 (proj2 (proj2 (sintbv_compound 0xaa 8 8 (0xf6 : intbv 8) (3 : intbv 8)
    (3 : intbv 8) (-10) 3 3 (I32 1) _ _ _ _))) _)).
  - holds_now.
  - holds_now.
  - holds_now.
  - cbn. lia.
  - unfold div_ok. split_and!; [done|left; vm_compute; lia|by right].
Defined.

(** An unsigned vector that is mixed with a signed one counts as the signed
    number of its own width, whatever side it is on. *)
Theorem sintbv_mixed junk `{byte junk} nb nb2 `{wf nb} `{wf nb2} (a : sintbv nb) (b : intbv nb2) u y :
  holds a u → repr b y →
  let v := sint nb2 y in let n := Z.max nb nb2 in
  (sreturns (s_plus_u junk a b) (swrap n (u + v)) ∧ sreturns (s_minus_u junk a b) (swrap n (u - v)) ∧
   sreturns (s_times_u junk a b) (swrap n (u * v)) ∧ sreturns (s_and_u junk a b) (Z.land u v) ∧
   sreturns (s_or_u junk a b) (Z.lor u v) ∧ sreturns (s_xor_u junk a b) (Z.lxor u v)) ∧
  (sreturns (u_plus_s junk b a) (swrap n (v + u)) ∧ sreturns (u_minus_s junk b a) (swrap n (v - u)) ∧
   sreturns (u_times_s junk b a) (swrap n (v * u)) ∧ sreturns (u_and_s junk b a) (Z.land v u) ∧
   sreturns (u_or_s junk b a) (Z.lor v u) ∧ sreturns (u_xor_s junk b a) (Z.lxor v u)) ∧
  (div_ok n u v → sreturns (s_divide_u junk a b) (swrap n (Z.quot u v)) ∧
                  sreturns (s_mod_u junk a b) (swrap n (Z.rem u v))) ∧
  (div_ok n v u → sreturns (u_divide_s junk b a) (swrap n (Z.quot v u)) ∧
                  sreturns (u_mod_s junk b a) (swrap n (Z.rem v u))).
Proof.
  intros Ha Hy v n. pose proof (repr_holds b y Hy) as Hb. fold v in Hb.
  pose proof (s_arith_spec junk a b u v Ha Hb) as Hs. pose proof (u_arith_spec junk a b u v Ha Hb) as Hu.
  pose proof (s_div_spec junk a b u v Ha Hb) as Hd. pose proof (u_div_spec junk a b u v Ha Hb) as Hd'.
  unfold s_plus_u, s_minus_u, s_and_u, s_or_u, s_xor_u, s_divide_u, s_mod_u. rewrite !widened_u_eq.
  tauto.
Qed.

Lemma sintbv_mixed_witness :
  sreturns (s_plus_u 0xaa (nb := 40) (nb2 := 8) 1 0xff) (swrap 40 (1 + sint 8 0xff)).
Proof.
  refine (proj1 (proj1 (sintbv_mixed 0xaa 40 8 (1 : intbv 40) (0xff : intbv 8) 1 0xff _ _))).
  - holds_now.
  - repr_now.
Defined.

(** The constructor takes an unsigned integer for the number it is, the
    operators do not: a vector of more than 32 bits made from a [uint32_t] with
    the top bit set differs from that integer by [2^32]. *)
Theorem unsigned_operand_sign_extended junk `{byte junk} nb `{wf nb} v :
  32 < nb → 2 ^ 31 ≤ v < 2 ^ 32 →
  ∃ a, sintbv_of_scalar junk nb (U32 v) = Ret a ∧ holds a v ∧
    s_eq_int junk a (U32 v) = Ret false ∧ s_lt_int junk a (U32 v) = Ret false ∧
    s_gt_int junk a (U32 v) = Ret true.
Proof.
  intros Hn Hv. assert (scalar_ok (U32 v)) as Hs by (unfold scalar_ok, uint; lia).
  assert (srange nb v) as Hr.
  { assert (2 ^ 32 ≤ 2 ^ (nb - 1)) by (apply Z.pow_le_mono_r; lia). unfold srange. lia. }
  destruct (sintbv_of_scalar_spec junk nb (U32 v) Hs) as (a & Ea & Ha).
  cbn [scalar_value] in Ha. rewrite swrap_small in Ha by (lia || done). exists a. split; [done|]. split; [done|].
  assert (operand (U32 v) = v - 2 ^ 32) as Et.
  { unfold operand, swrap. cbn [scalar_width scalar_value]. rewrite wrap_small by (unfold uint; lia).
    unfold sint. destruct (Z.ltb_spec v (2 ^ (32 - 1))); lia. }
  destruct (cast_spec junk (U32 v) Hs) as (y & Ey & Hy). fold (operand (U32 v)) in Hy. rewrite Et in Hy.
  unfold s_eq_int, s_lt_int, s_gt_int. rewrite Ey. cbn [obind].
  destruct (s_compare_spec junk a y v _ Ha Hy) as (-> & _ & -> & _ & -> & _). split_and!; f_equal; lia.
Qed.

Lemma unsigned_operand_sign_extended_witness : ∃ a,
  sintbv_of_scalar 0xaa 40 (U32 0x80000000) = Ret a ∧ holds a 0x80000000 ∧
  s_eq_int 0xaa a (U32 0x80000000) = Ret false ∧ s_lt_int 0xaa a (U32 0x80000000) = Ret false ∧
  s_gt_int 0xaa a (U32 0x80000000) = Ret true.
Proof. apply (unsigned_operand_sign_extended 0xaa 40 0x80000000); lia. Defined.

(** [>>] by a vector keeps the sign, [>>=] by the same vector does not. *)
Theorem shift_assign_loses_sign junk `{byte junk} nb nb2 `{wf nb} `{wf nb2}
    (a : sintbv nb) (b : sintbv nb2) u p :
  holds a u → holds b p → 0 ≤ p < 2 ^ 32 →
  sreturns (s_shift_right_bv junk a b) (u / 2 ^ p) ∧
  repr (s_shift_right_assign_bv junk a b) (wrap nb u / 2 ^ p).
Proof.
  intros Ha Hb Hp. pose proof (holds_repr _ _ Ha) as Ra. pose proof (holds_repr _ _ Hb) as Rb.
  assert (uint32 junk b = p) as E.
  { rewrite (uint32_spec junk b _ Rb). destruct (Z.le_gt_cases 32 nb2).
    - rewrite wrap_wrap_le by lia. by apply wrap_small.
    - rewrite (wrap_small nb2); [by apply wrap_small|]. destruct Hb as [_ Hb]. unfold srange, uint in *.
      assert (2 ^ (nb2 - 1) ≤ 2 ^ nb2) by (apply Z.pow_le_mono_r; unfold wf in *; lia). lia. }
  unfold s_shift_right_bv, s_shift_right_assign_bv, signedRightShift_bv, signedRightShiftEqual_bv. rewrite E. split.
  - apply (s_unary_spec junk a u Ha p); lia.
  - apply shift_right_assign_spec; (done || lia).
Qed.

Lemma shift_assign_loses_sign_witness :
  sreturns (s_shift_right_bv 0xaa (nb := 8) (nb2 := 8) 0xf0 2) (-16 / 2 ^ 2) ∧
  repr (nb := 8) (s_shift_right_assign_bv 0xaa (nb := 8) (nb2 := 8) 0xf0 2) (wrap 8 (-16) / 2 ^ 2).
Proof.
  apply (shift_assign_loses_sign 0xaa 8 8 (0xf0 : intbv 8) (2 : intbv 8) (-16) 2).
  - holds_now.
  - holds_now.
  - lia.
Defined.
