(* ===== verification/SintbvText.v ===== *)
(** * Signed vectors as text

    [operator<<] and the string constructors of [sintbv]: what is printed in
    decimal is read back as the same vector, what the sign test does on texts
    without digits, and what the sign costs in the decimal format. *)
From stdpp Require Import prelude strings.
From Stdlib Require Import ZArith Lia Ascii.
From S2P Require Import Prelude.
From S2P Require Import BitTwiddles.
From S2P Require Import WordArith.
From S2P Require Import WordDivide.
From S2P Require Import IntbvBase.
From S2P Require Import IntbvLaws.
From S2P Require Import IntbvArray.
From S2P Require Import Intbv.
From S2P Require Import IntbvSpec.
From S2P Require Import IntbvCorrect.
From S2P Require Import WordIO.
From S2P Require Import WordIOCorrect.
From S2P Require Import Sintbv.
From S2P Require Import SintbvCorrect.

Local Open Scope Z_scope.

(** ** Storage and word arrays *)

Lemma of_words_spec nw l : (1 ≤ nw)%nat → words nw l → storage_rep nw (of_words nw l) (beval 32 l).
Proof.
  intros Hn [Hlen Hd]. destruct nw as [|[|[|nw]]]; [lia|..]; cbn [of_words storage_rep].
  - destruct l as [|w [|]]; try done. apply Forall_cons_1 in Hd as [Hw _].
    replace (beval 32 [w]) with w by (cbn; lia). by split.
  - destruct l as [|h [|w [|]]]; try done. apply Forall_cons_1 in Hd as [Hh [Hw _]%Forall_cons_1].
    replace (beval 32 [h; w]) with (w + h * 2 ^ 32) by (cbn; lia).
    cbn [lookup_total list_lookup_total]. unfold shl. change (32 mod 64) with 32. unfold uint in Hh, Hw.
    rewrite Z.shiftl_mul_pow2, wrap_small, Z.lor_comm, lor_add by (unfold uint; lia).
    split; [done|unfold uint; lia].
  - by split.
Qed.

Lemma words_of_spec nw b x : (1 ≤ nw)%nat → storage_rep nw b x →
  words nw (words_of nw b) ∧ beval 32 (words_of nw b) = x.
Proof.
  intros Hn Hb. destruct nw as [|[|[|nw]]]; [lia|..]; cbn [words_of storage_rep] in *.
  - destruct Hb as [-> Hx]. split; [|cbn; lia]. split; [done|]. by apply Forall_singleton.
  - destruct Hb as [-> Hx]. unfold shr. change (32 mod 64) with 32.
    rewrite Z.shiftr_div_pow2 by lia. unfold uint, wrap in *. split.
    + split; [done|]. apply Forall_cons. split; [|apply Forall_singleton]; unfold uint; zlia.
    + cbn. zlia.
  - done.
Qed.

Section Text.
Context (junk : Z) {Hj : byte junk} {nb : Z} {Hwf : wf nb}.
Local Abbreviation nw := (INTBV_WORDS nb).

Lemma nw_pos : (1 ≤ nw)%nat.
Proof using Hwf. by apply INTBV_WORDS_max. Qed.

Lemma reset_words : words_of nw (_reset (BaseOps := intbv_ops junk nb)) = initZero nw.
Proof using Hj Hwf.
  pose proof (repr_0 junk (nb := nb)) as [H0 _]. apply words_of_spec in H0 as [Hw Hv]; [|apply nw_pos].
  destruct (words_zero nw) as [Hz Hz0]; [apply nw_pos|].
  apply (words_eq nw); [done..|]. by rewrite Hv, Hz0.
Qed.

Lemma of_words_repr l : words nw l →
  repr (_sanitize (BaseOps := intbv_ops junk nb) nb (of_words nw l) : intbv nb) (wrap nb (beval 32 l)).
Proof using Hj Hwf.
  intros Hl. apply (repr_sanitize junk). apply rep_storage. by apply of_words_spec; [apply nw_pos|].
Qed.

(** ** Reading decimal text *)

Lemma readDec_decimal f b v : int_base f = Some 10 ∨ int_base f = None → 0 < v < 2 ^ (32 * Z.of_nat nw) →
  ∃ r, finish (readDec {| flags := f; before := b; rest := decimal v; good := true |} nb (initZero nw)) = Ret r ∧
    words nw r ∧ beval 32 r = v.
Proof using Hwf.
  intros Hf Hv. destruct (Nat.eq_dec nw 1) as [E|Hne].
  - unfold readDec. rewrite E in *. cbn [Nat.eqb].
    destruct (extract_decimal f b v (initZero 1 !!! 0%nat)) as (si & -> & Hsi);
      [destruct Hf; [by left|right; split; [done|lia]]|by cbn in *; lia|].
    unfold get. rewrite Hsi. unfold finish. cbn [obind snd]. eexists. split; [done|].
    cbn. split; [|lia]. split; [done|]. constructor; [|done]. unfold uint. cbn in *. lia.
  - destruct (readDec_wide {| flags := f; before := b; rest := decimal v; good := true |} nb (initZero nw))
      as (c & si & r & -> & Hr & Hval); [|done|].
    { pose proof nw_pos. unfold wf in Hwf. unfold INTBV_WORDS in *. destruct (Z.ltb_spec nb 1); [lia|]. zlia. }
    exists r. split; [done|]. split; [done|]. rewrite Hval. cbn [rest]. unfold decimal.
    destruct (all_digits_spec 10 v ltac:(lia) ltac:(lia)) as [Hd Hds].
    rewrite <- (app_nil_r (_ <$> _)), run_text by (done || by left). cbn [run].
    rewrite app_nil_r, Hd. by apply Z.mod_small; lia.
Qed.

(** ** Signed text *)

Definition signed_text (v : Z) : list ascii :=
  if v <? 0 then "-"%char :: decimal (- v) else decimal v.

Lemma read_minus l x : readNumber_string ("-"%char :: l) 0 nb x =
  finish (readDec {| flags := no_base; before := ["-"%char]; rest := l; good := true |} nb x).
Proof using Type. exact (finish_eq _). Qed.
Lemma read_digit d l x : 0 < d < 10 →
  readNumber_string (digit_char false d :: l) 0 nb x =
    finish (readDec {| flags := no_base; before := []; rest := digit_char false d :: l; good := true |} nb x) ∧
  is_negative (digit_char false d :: l) = Ret false.
Proof using Type.
  intros Hd. assert (d ∈ (Z.of_nat <$> seq 1 9)) as Hin.
  { apply list_elem_of_fmap. exists (Z.to_nat d). split; [lia|]. apply elem_of_seq. lia. }
  repeat (apply elem_of_cons in Hin as [->|Hin]); [..|by apply elem_of_nil in Hin];
    (split; [exact (finish_eq _)|done]).
Qed.

Lemma read_signed v : v ≠ 0 → Z.abs v < 2 ^ (32 * Z.of_nat nw) →
  (∃ r, readNumber_string (signed_text v) 0 nb (initZero nw) = Ret r ∧ words nw r ∧ beval 32 r = Z.abs v) ∧
  is_negative (signed_text v) = Ret (v <? 0).
Proof using Hwf.
  intros Hne Hv. unfold signed_text. destruct (Z.ltb_spec v 0).
  - split; [|done]. rewrite read_minus. replace (Z.abs v) with (- v) in * by lia.
    apply readDec_decimal; [by right|lia].
  - replace (Z.abs v) with v in * by lia. unfold decimal.
    destruct (all_digits_head 10 v) as (d & ds & E & Hd); [lia..|].
    destruct (all_digits_spec 10 v) as [_ Hds]; [lia..|]. rewrite E in Hds.
    apply Forall_cons_1 in Hds as [Hd' _]. rewrite E, fmap_cons.
    destruct (read_digit d (digit_char false <$> ds) (initZero nw) ltac:(lia)) as [-> ->].
    split; [|done]. rewrite <- fmap_cons, <- E. apply readDec_decimal; [by right|lia].
Qed.

(** Zero, and the empty text: the stream fails before the decimal reader gets
    it. *)
Definition failed (b : list ascii) : istream := {| flags := no_base; before := b; rest := []; good := false |}.
Lemma read_zero : nw = 1%nat → readNumber_string (decimal 0) 0 nb (initZero nw) = Ret (initZero nw).
Proof using Type.
  intros E. transitivity (finish (readDec (failed ["0"%char]) nb (initZero nw))); [exact (finish_eq _)|].
  unfold readDec. by rewrite E.
Qed.
Lemma read_nothing x : (1 < nw)%nat → ∃ r, readNumber_string [] 0 nb x = Ret r.
Proof using Type.
  intros Hn. exists (initZero nw). transitivity (finish (readDec (failed []) nb x)); [exact (finish_eq _)|].
  unfold readDec. destruct (Nat.eqb_spec nw 1); [lia|]. destruct (Nat.eqb_spec nw 0); [lia|]. done.
Qed.

(** The numbers that fit the width fit the words. *)
Lemma srange_fits v : srange nb v → 0 ≤ Z.abs v < 2 ^ nb ∧ 2 ^ nb ≤ 2 ^ (32 * Z.of_nat nw).
Proof using Hwf.
  intros Hv. unfold srange, wf in *. pose proof (nb_le_W (nb := nb)) as HW. unfold W in HW.
  assert (2 ^ nb = 2 * 2 ^ (nb - 1)) by (rewrite <- Z.pow_succ_r by lia; f_equal; lia).
  split; [pose proof (pow2_pos (nb - 1)); lia|]. apply Z.pow_le_mono_r; lia.
Qed.

Lemma sintbv_of_string_spec v : v ≠ 0 → srange nb v →
  sreturns (sintbv_of_string junk nb (signed_text v) 0) v.
Proof using Hj Hwf.
  intros Hne Hv. destruct (srange_fits v Hv) as [Habs Hfit].
  destruct (read_signed v Hne ltac:(lia)) as [(r & Er & Hr & Ev) Eneg].
  unfold sintbv_of_string, intbv_of_string. rewrite reset_words, Er. cbn [obind]. rewrite Eneg. cbn [obind].
  pose proof (of_words_repr r Hr) as Hrep. rewrite Ev in Hrep.
  eexists. split; [done|]. split; [|done]. destruct (Z.ltb_spec v 0).
  - apply negate_spec with (junk := junk) in Hrep; try done. rewrite wrap_opp in Hrep.
    by replace (- Z.abs v) with v in Hrep by lia.
  - by replace (Z.abs v) with v in Hrep by lia.
Qed.

Lemma sintbv_of_string_zero (a : sintbv nb) : nw = 1%nat → holds a 0 →
  sintbv_of_string junk nb (decimal 0) 0 = Ret a.
Proof using Hj Hwf.
  intros E1 Ha. unfold sintbv_of_string, intbv_of_string. rewrite reset_words, read_zero by done. cbn [obind].
  change (is_negative (decimal 0)) with (Ret false). cbn [obind]. f_equal.
  destruct (words_zero nw) as [Hz Hz0]; [apply nw_pos|]. pose proof (of_words_repr _ Hz) as Hrep.
  rewrite Hz0 in Hrep. by apply (repr_inj junk _ a (wrap nb 0)); [|apply holds_repr].
Qed.
Lemma sintbv_of_string_empty : (1 < nw)%nat → sintbv_of_string junk nb [] 0 = Undefined.
Proof using Type.
  intros Hn. unfold sintbv_of_string, intbv_of_string.
  edestruct (read_nothing (words_of nw (_reset (BaseOps := intbv_ops junk nb))) Hn) as [r ->]. done.
Qed.

(** ** Printing *)

Definition dec_only : basefield := {| dec := true; hex := false; oct := false |}.

Lemma write_intbv_spec os (b : intbv nb) x : obase os = dec_only → width os = 0 → repr b x →
  nw = 1%nat ∨ x < 2 ^ (16 * Z.of_nat nw) →
  ∃ os', write_intbv junk os b = Ret os' ∧ out os' = out os ++ dec_output nw x.
Proof using Hj Hwf.
  intros Hb Hw [Hr _] Hfit. apply words_of_spec in Hr as [Hr Hv]; [|apply nw_pos]. unfold write_intbv, writeNumber.
  rewrite Hb. cbn [dec hex oct dec_only]. rewrite <- Hv in Hfit |- *. apply printDec_spec; try done.
  unfold wf in Hwf. lia.
Qed.

Lemma write_sintbv_spec os (a : sintbv nb) v : obase os = dec_only → width os = 0 → holds a v →
  nw = 1%nat ∨ Z.abs v < 2 ^ (16 * Z.of_nat nw) →
  ∃ os', write_sintbv junk false os a = Ret os' ∧
    out os' = out os ++ (if v <? 0 then ["-"%char] else []) ++ dec_output nw (Z.abs v).
Proof using Hj Hwf.
  intros Hb Hw Ha Hfit. pose proof (holds_repr _ _ Ha) as Ra. unfold write_sintbv. rewrite Hb. cbn [dec dec_only].
  destruct (abs_spec junk a _ Ra) as [-> Habs]. rewrite (holds_sint a v Ha) in Habs |- *. cbn [obind].
  destruct (Z.ltb_spec v 0).
  - destruct (write_intbv_spec (put ["-"%char] os) (negate junk a) (Z.abs v)) as (os' & E & Ho); try done.
    exists os'. split; [done|]. rewrite Ho. cbn. rewrite Hw. cbn. by rewrite <- app_assoc.
  - destruct (write_intbv_spec os a (Z.abs v)) as (os' & E & Ho); try done. by exists os'.
Qed.
End Text.

(** C36: what [operator<<] prints of a signed vector in decimal, the string
    constructor reads back as the same vector, for every width and every value
    that the decimal printer can print (any value of one word, below
    [2^(16 nw)] otherwise).  The zero of more than one word prints as the empty
    text, on which the constructor reads beyond the end of the string. *)
Theorem sintbv_decimal_roundtrip junk `{byte junk} nb `{wf nb} os (a : sintbv nb) v :
  obase os = dec_only → width os = 0 → holds a v →
  let nw := INTBV_WORDS nb in
  nw = 1%nat ∨ Z.abs v < 2 ^ (16 * Z.of_nat nw) →
  ∃ os' s, write_sintbv junk false os a = Ret os' ∧ out os' = out os ++ s ∧
    sintbv_of_string junk nb s 0 = if (v =? 0) && negb (nw =? 1)%nat then Undefined else Ret a.
Proof.
  intros Hb Hw Ha nw Hfit. destruct (write_sintbv_spec junk os a v Hb Hw Ha Hfit) as (os' & E & Ho).
  eexists os', _. split; [done|]. split; [exact Ho|]. fold nw. destruct (Z.eqb_spec v 0) as [->|Hne].
  - cbn [andb Z.ltb Z.compare]. unfold dec_output. destruct (Nat.eqb_spec nw 1) as [E1|Hne]; cbn [negb].
    + by apply sintbv_of_string_zero.
    + apply sintbv_of_string_empty. pose proof (nw_pos (nb := nb)). unfold nw in *. lia.
  - cbn [andb]. replace (_ ++ _) with (signed_text v).
    + destruct (sintbv_of_string_spec junk v Hne (proj2 Ha)) as (r & -> & Hr). f_equal.
      by apply (repr_inj junk r a (wrap nb v)); apply holds_repr.
    + unfold signed_text, dec_output, dec_text. destruct (Z.eqb_spec (Z.abs v) 0); [lia|].
      destruct (Z.ltb_spec v 0); [rewrite Z.abs_neq by lia|rewrite Z.abs_eq by lia];
        fold nw; by destruct (nw =? 1)%nat.
Qed.

Lemma sintbv_decimal_roundtrip_witness : ∃ os' s,
  write_sintbv 0xaa false (nb := 40)
    {| obase := dec_only; showbase := false; uppercase := false; width := 0; ofill := " "; out := [] |}
    (wrap 40 (-5)) = Ret os' ∧ out os' = [] ++ s ∧ sintbv_of_string 0xaa 40 s 0 = Ret (wrap 40 (-5)).
Proof.
  assert (byte 0xaa) by (split; lia). assert (wf 40) by (unfold wf; lia).
  apply (sintbv_decimal_roundtrip 0xaa 40
    {| obase := dec_only; showbase := false; uppercase := false; width := 0; ofill := " "; out := [] |}
    (wrap 40 (-5)) (-5)).
  - done.
  - done.
  - split; [split; [split; [reflexivity|]|]|]; vm_compute; split; first [discriminate|reflexivity].
  - right. reflexivity.
Defined.

(** ** The sign test *)

(** A character that ends the loop of [is_negative]. *)
Definition significant (c : ascii) : bool := Ascii.eqb c "-" || isalnum c.

Lemma is_negative_loop_skip pre l : Forall (λ c, significant c = false) pre →
  is_negative_loop (pre ++ l) = is_negative_loop l.
Proof.
  induction 1 as [|c pre Hc _ IH]; [done|]. cbn [app is_negative_loop]. unfold significant in Hc.
  apply orb_false_iff in Hc as [-> ->]. exact IH.
Qed.

(** The sign test of the string constructors looks for the first minus sign
    or alphanumeric character and tells which it is; a text without one, such
    as the empty text, does not end the search: the terminating zero is passed
    and the memory behind the string is read.  The constructor of [intbv] is
    defined on such texts (for vectors of more than one word, on the empty
    one), that of [sintbv] is not. *)
Theorem sign_test_overrun junk `{byte junk} nb `{wf nb} s :
  (∀ pre c post, s = pre ++ c :: post → Forall (λ c, significant c = false) pre → significant c = true →
     is_negative s = Ret (Ascii.eqb c "-")) ∧
  (Forall (λ c, significant c = false) s →
     is_negative s = Undefined ∧ ∀ format x, sintbv_of_string junk nb s format ≠ Ret x) ∧
  (32 < nb → ∃ x, intbv_of_string junk nb [] 0 = Ret x).
Proof.
  split_and!.
  - intros pre c post -> Hpre Hc. unfold is_negative. rewrite <- app_assoc, is_negative_loop_skip by done.
    cbn [app is_negative_loop]. unfold significant in Hc. destruct (Ascii.eqb c "-"); [done|]. cbn in Hc. by rewrite Hc.
  - intros Hs. assert (is_negative s = Undefined) as E by (unfold is_negative; by rewrite is_negative_loop_skip).
    split; [done|]. intros format x. unfold sintbv_of_string. rewrite E.
    by destruct (intbv_of_string junk nb s format).
  - intros Hn. unfold intbv_of_string.
    edestruct (read_nothing (nb := nb) (words_of (INTBV_WORDS nb) (_reset (BaseOps := intbv_ops junk nb)))) as [r ->].
    + destruct (INTBV_WORDS_spec nb ltac:(lia)) as [_ Hw]. unfold W in Hw. lia.
    + by eexists.
Qed.

Lemma sign_test_overrun_witness :
  is_negative (text " -5") = Ret true ∧ is_negative (text " ") = Undefined.
Proof.
  assert (byte 0xaa) by (split; lia). assert (wf 40) by (unfold wf; lia). split.
  - refine (proj1 (sign_test_overrun 0xaa 40 (text " -5")) (text " ") "-"%char (text "5") _ _ _);
      [done|by repeat constructor|done].
  - refine (proj1 (proj1 (proj2 (sign_test_overrun 0xaa 40 (text " "))) _)). by repeat constructor.
Defined.

(** In the decimal format the sign is lost: the readers of vectors of more than
    one word stop at it, and the one-word reader already applies it, so that
    the constructor applies it twice. *)
Theorem decimal_format_sign junk `{byte junk} nb `{wf nb} v :
  32 < nb → v < 0 →
  sreturns (sintbv_of_string junk nb (signed_text v) idec) 0 ∧
  sintbv_of_string junk 32 (text "-5") idec = Ret 5.
Proof.
  intros Hn Hv. split; [|done]. unfold signed_text. destruct (Z.ltb_spec v 0); [|lia].
  set (l := "-"%char :: decimal (- v)). unfold sintbv_of_string, intbv_of_string.
  rewrite reset_words, read_dec by done.
  destruct (readDec_wide {| flags := dec_only; before := []; rest := l; good := true |} nb (initZero (INTBV_WORDS nb)))
    as (c & si & r & E & Hr & Ev); [unfold wf in *; lia|done|].
  fold dec_only. rewrite E. unfold finish. cbn [obind snd]. change (is_negative l) with (Ret true). cbn [obind].
  cbn [rest] in Ev. change (run 10 l) with (@nil Z) in Ev. cbn [digits_val foldl] in Ev. rewrite Z.mod_0_l in Ev by lia.
  pose proof (of_words_repr junk r Hr) as Hrep. rewrite Ev, wrap_0 in Hrep.
  eexists. split; [done|]. apply negate_spec with (junk := junk) in Hrep; try done. split; [done|].
  unfold srange. pose proof (pow2_pos (nb - 1)). lia.
Qed.

Lemma decimal_format_sign_witness :
  sreturns (sintbv_of_string 0xaa 40 (signed_text (-7)) idec) 0 ∧
  sintbv_of_string 0xaa 32 (text "-5") idec = Ret 5.
Proof.
  assert (byte 0xaa) by (split; lia). assert (wf 40) by (unfold wf; lia).
  apply (decimal_format_sign 0xaa 40 (-7)); lia.
Defined.
