(* ===== verification/LeIntbv.v ===== *)
(** * Little-endian bit numbering: [le_intbv<_Nb>]

    The class template of [src/helpers/le_intbv.h]: an [intbv<_Nb>] whose bit 0
    is the least significant one.  Every member that takes a position converts
    it with [be2le] and calls the inherited member; ranges are given from the
    high position to the low one.  [le_sintbv] of [le_sintbv.h] does the same
    over [sintbv].  Members without positions forward to [Intbv]. *)
From stdpp Require Import prelude strings.
From Stdlib Require Import ZArith Lia.
From S2P Require Import Prelude.
From S2P Require Import WordArith.
From S2P Require Import WordDivide.
From S2P Require Import IntbvBase.
From S2P Require Import IntbvLaws.
From S2P Require Import Intbv.
From S2P Require Import IntbvSpec.
From S2P Require Import IntbvCorrect.
From S2P Require Import IntbvTheorems.

Local Open Scope Z_scope.

Definition le_intbv (nb : Z) : Type := intbv nb.

Section LeIntbv.
Context (junk : Z).

(** The parameter is an [unsigned], the result a [size_t]. *)
Definition be2le (nb pos : Z) : Z := wrap 64 (nb - wrap 32 pos - 1).
(** The overload for a position in a bit vector. *)
Definition be2le_bv {nb1} (nb : Z) (pos : intbv nb1) : Z := wrap 64 (nb - uint32 junk pos - 1).

(** ** Fields *)

Definition le_set {nb} (this : le_intbv nb) (start stop : Z) (x : le_intbv nb) : outcome (le_intbv nb) :=
  assert! stop <=? start in set_range junk this (be2le nb start) (be2le nb stop) x.
Definition le_set_diff {nb nb2} (this : le_intbv nb) (start stop : Z) (x : le_intbv nb2) :
    outcome (le_intbv nb) :=
  assert! stop <=? start in set_range_diff junk this (be2le nb start) (be2le nb stop) x.
Definition le_mask {nb} (this : le_intbv nb) (start stop : Z) : outcome (le_intbv nb) :=
  assert! stop <=? start in mask junk this (be2le nb start) (be2le nb stop).
Definition le_mask_inv {nb} (this : le_intbv nb) (start stop : Z) : outcome (le_intbv nb) :=
  assert! stop <=? start in mask_inv junk this (be2le nb start) (be2le nb stop).
Definition le_get {nb} (this : le_intbv nb) (start stop : Z) : outcome (le_intbv nb) :=
  assert! stop <=? start in get_range junk this (be2le nb start) (be2le nb stop).
Definition le_get_bv {nb nb1 nb2} (this : le_intbv nb) (start : intbv nb1) (stop : intbv nb2) :
    outcome (le_intbv nb) :=
  get_range junk this (be2le_bv nb start) (be2le_bv nb stop).
Definition le_get_as {nb} nb2 (this : le_intbv nb) (start stop : Z) : outcome (le_intbv nb2) :=
  get_range_as junk nb2 this (be2le nb start) (be2le nb stop).

(** ** Single bits *)

Definition le_set_bit {nb} (this : le_intbv nb) (position : Z) (val : bool) : outcome (le_intbv nb) :=
  assert! position <? nb in set_bit junk this (be2le nb position) val.
Definition le_get_bit {nb} (this : le_intbv nb) (position : Z) : outcome bool :=
  assert! position <? nb in get_bit junk this (be2le nb position).

(** ** Sign extension *)

Definition le_signExtend {nb} (this : le_intbv nb) (bit : Z) : outcome (le_intbv nb) :=
  signExtend junk this (be2le nb bit).
Definition le_signExtend_to {nb} nb2 (this : le_intbv nb) : outcome (le_intbv nb2) :=
  let x := copy junk (nb := nb2) this in
  if nb <? nb2 then
    let! b := le_get_bit this (nb - 1) in
    if b then le_mask x (nb2 - 1) nb else Ret x
  else Ret x.
End LeIntbv.

(** ** Positions are bit numbers *)

Section Correct.
Context (junk : Z) {Hj : byte junk} {nb : Z} {Hwf : wf nb}.
Context (a : le_intbv nb) (x : Z) (Ha : repr a x).

Lemma be2le_in pos : 0 ≤ pos < nb → be2le nb pos = nb - 1 - pos.
Proof using Hwf.
  intros Hp. unfold wf in Hwf. unfold be2le. rewrite (wrap_small 32) by (unfold uint; lia).
  rewrite wrap_small by (unfold uint; lia). lia.
Qed.

(** The field from bit [hi] down to bit [lo] of a number. *)
Definition field (hi lo z : Z) : Z := wrap (hi - lo + 1) (z / 2 ^ lo).

Section Range.
Context (hi lo : Z) (Hr : 0 ≤ lo ≤ hi) (Hhi : hi < nb).

Lemma le_field : get_field nb (nb - 1 - hi) (nb - 1 - lo) x = field hi lo x.
Proof using Type. unfold get_field, field. do 2 f_equal; [lia|]. f_equal. lia. Qed.

Lemma le_get_spec : returns (le_get junk a hi lo) (field hi lo x).
Proof using All.
  unfold le_get. destruct (Z.leb_spec lo hi); [|lia]. rewrite !be2le_in by lia.
  pose proof (get_range_spec junk a x (nb - 1 - hi) (nb - 1 - lo) Ha) as Hg.
  rewrite !(Z.mod_small _ nb) in Hg by lia. destruct (Z.leb_spec (nb - 1 - hi) (nb - 1 - lo)); [|lia].
  by rewrite le_field in Hg.
Qed.
Lemma le_get_as_spec nb2 `{wf nb2} : returns (le_get_as junk nb2 a hi lo) (wrap nb2 (field hi lo x)).
Proof using All.
  unfold le_get_as. rewrite !be2le_in by lia. rewrite <- le_field. apply get_range_as_spec; done || lia.
Qed.

Lemma le_set_spec (b : le_intbv nb) y : repr b y → ∃ r z, le_set junk a hi lo b = Ret r ∧ repr r z ∧
  ∀ i, 0 ≤ i < nb →
    Z.testbit z i = if (lo <=? i) && (i <=? hi) then Z.testbit y (i - lo) else Z.testbit x i.
Proof using All.
  intros Hb. unfold le_set. destruct (Z.leb_spec lo hi); [|lia]. rewrite !be2le_in by lia.
  destruct (set_range_in junk a b x y (nb - 1 - hi) (nb - 1 - lo) Ha Hb) as (r & -> & Hz); [lia..|].
  eexists _, _. split; [done|]. split; [exact Hz|]. intros i Hi.
  pose proof (set_field_bit nb (nb - 1 - hi) (nb - 1 - lo) x y (nb - 1 - i)) as Hs.
  replace (nb - 1 - (nb - 1 - i)) with i in Hs by lia. rewrite Hs by lia.
  replace (nb - 1 - lo - (nb - 1 - i)) with (i - lo) by lia. f_equal.
  destruct (Z.leb_spec (nb - 1 - hi) (nb - 1 - i)), (Z.leb_spec (nb - 1 - i) (nb - 1 - lo)),
    (Z.leb_spec lo i), (Z.leb_spec i hi); done || lia.
Qed.

Lemma le_mask_spec :
  (∃ r z, le_mask junk a hi lo = Ret r ∧ repr r z ∧
     ∀ i, 0 ≤ i < nb → Z.testbit z i = (lo <=? i) && (i <=? hi) || Z.testbit x i) ∧
  (∃ r z, le_mask_inv junk a hi lo = Ret r ∧ repr r z ∧
     ∀ i, 0 ≤ i < nb → Z.testbit z i = negb ((lo <=? i) && (i <=? hi)) && Z.testbit x i).
Proof using All.
  unfold le_mask, le_mask_inv. destruct (Z.leb_spec lo hi); [|lia]. rewrite !be2le_in by lia.
  assert (∀ i, in_mask (nb - 1 - hi) (nb - 1 - lo) (nb - 1 - i) = (lo <=? i) && (i <=? hi)) as Hin.
  { intros i. unfold in_mask. split_cmps; done. }
  destruct (intbv_masks junk nb a x (nb - 1 - hi) (nb - 1 - lo) Ha) as [(r & z & E & Hz & Hb) (r' & z' & E' & Hz' & Hb')];
    [lia..|]. split.
  - exists r, z. split; [done|]. split; [done|]. intros i Hi. rewrite <- Hin.
    specialize (Hb (nb - 1 - i) ltac:(lia)). by replace (nb - 1 - (nb - 1 - i)) with i in Hb by lia.
  - exists r', z'. split; [done|]. split; [done|]. intros i Hi. rewrite <- Hin.
    specialize (Hb' (nb - 1 - i) ltac:(lia)). by replace (nb - 1 - (nb - 1 - i)) with i in Hb' by lia.
Qed.
End Range.

Lemma le_bit_spec pos v : 0 ≤ pos < nb →
  le_get_bit junk a pos = Ret (Z.testbit x pos) ∧
  returns (le_set_bit junk a pos v) (if v then Z.setbit x pos else Z.clearbit x pos).
Proof using All.
  intros Hp. unfold le_get_bit, le_set_bit. rewrite be2le_in by done. destruct (Z.ltb_spec pos nb); [|lia].
  assert (nb - 1 - (nb - 1 - pos) = pos) as E by lia. split.
  - rewrite (get_bit_spec junk a x _ Ha) by lia. destruct (Z.ltb_spec (nb - 1 - pos) nb); [by rewrite E|lia].
  - unfold set_bit. destruct (Z.ltb_spec (nb - 1 - pos) nb); [|lia]. eexists. split; [done|].
    pose proof (Unchecked_set_spec junk a x (nb - 1 - pos) (Z.b2z v) Ha ltac:(lia)) as Hs. rewrite E in Hs. by destruct v.
Qed.

Lemma le_signExtend_spec bit : 0 ≤ bit < nb →
  returns (le_signExtend junk a bit) (wrap nb (sint (bit + 1) (wrap (bit + 1) x))).
Proof using All.
  intros Hb. unfold le_signExtend. rewrite be2le_in by done.
  pose proof (signExtend_spec junk a x (nb - 1 - bit) Ha ltac:(lia)) as He.
  by replace (nb - (nb - 1 - bit)) with (bit + 1) in He by lia.
Qed.
End Correct.

Lemma le_signExtend_to_spec junk `{byte junk} {nb} nb2 `{wf nb} `{wf nb2} (a : le_intbv nb) x : repr a x →
  returns (le_signExtend_to junk nb2 a) (wrap nb2 (sint nb x)).
Proof.
  intros Ha. assert (0 < nb ∧ 0 < nb2) as [Hn Hn2] by (unfold wf in *; lia). pose proof (repr_uint _ _ Ha) as Hx.
  pose proof (copy_spec junk (nb := nb2) a x Ha) as Hc. unfold le_signExtend_to. destruct (Z.ltb_spec nb nb2).
  - destruct (le_bit_spec junk a x Ha (nb - 1) true) as [-> _]; [lia|]. cbn [obind]. rewrite testbit_msb by done.
    rewrite wrap_small in Hc by (apply (uint_mono nb); [lia|done]). unfold sint.
    destruct (Z.leb_spec (2 ^ (nb - 1)) x), (Z.ltb_spec x (2 ^ (nb - 1))); try lia.
    + destruct (le_mask_spec junk (copy junk (nb := nb2) a) x Hc (nb2 - 1) nb) as [(r & z & -> & Hz & Hb) _]; [lia..|].
      eexists. split; [done|]. replace (wrap nb2 (x - 2 ^ nb)) with z; [done|]. pose proof (repr_uint _ _ Hz) as Hzu.
      apply Z.bits_inj'. intros i Hi. rewrite testbit_wrap by lia. destruct (Z.ltb_spec i nb2).
      * rewrite Hb by lia. pose proof (testbit_sint nb x i Hn Hx Hi) as Hs.
        unfold sint in Hs. destruct (Z.ltb_spec x (2 ^ (nb - 1))); [lia|]. rewrite Hs, testbit_msb by done.
        destruct (Z.leb_spec (2 ^ (nb - 1)) x); [|lia].
        destruct (Z.leb_spec nb i), (Z.ltb_spec i nb), (Z.leb_spec i (nb2 - 1)); try lia; done.
      * by rewrite (testbit_high nb2) by (done || lia).
    + eexists. split; [done|]. by rewrite wrap_small by (apply (uint_mono nb); [lia|done]).
  - eexists. split; [done|]. assert (wrap nb2 (sint nb x) = wrap nb2 x) as ->; [|done].
    destruct (sint_congr nb x) as [k ->]. replace (k * 2 ^ nb) with (k * 2 ^ (nb - nb2) * 2 ^ nb2).
    + apply wrap_plus_mult.
    + rewrite <- Z.mul_assoc, <- Z.pow_add_r by lia. do 2 f_equal. lia.
Qed.

(** In a vector with little-endian bit numbering, position [i] is bit [i] of
    the number, for every member that takes positions: the field from [hi] down
    to [lo] is read, written, set and cleared in those bits and no others; a
    single bit is the bit of that number; [signExtend(bit)] extends the sign of
    the low [bit + 1] bits.  Ranges given from the low position to the high one
    and single positions outside the vector are rejected. *)
Theorem le_bit_numbers junk `{byte junk} nb nb2 `{wf nb} `{wf nb2} (a b : le_intbv nb) x y hi lo v :
  repr a x → repr b y → 0 ≤ lo → 0 ≤ hi →
  let inside i := (lo <=? i) && (i <=? hi) in
  (lo ≤ hi < nb →
   returns (le_get junk a hi lo) (field hi lo x) ∧
   returns (le_get_as junk nb2 a hi lo) (wrap nb2 (field hi lo x)) ∧
   (∃ r z, le_set junk a hi lo b = Ret r ∧ repr r z ∧
      ∀ i, 0 ≤ i < nb → Z.testbit z i = if inside i then Z.testbit y (i - lo) else Z.testbit x i) ∧
   (∃ r z, le_mask junk a hi lo = Ret r ∧ repr r z ∧
      ∀ i, 0 ≤ i < nb → Z.testbit z i = inside i || Z.testbit x i) ∧
   (∃ r z, le_mask_inv junk a hi lo = Ret r ∧ repr r z ∧
      ∀ i, 0 ≤ i < nb → Z.testbit z i = negb (inside i) && Z.testbit x i)) ∧
  (hi < nb → le_get_bit junk a hi = Ret (Z.testbit x hi) ∧
     returns (le_set_bit junk a hi v) (if v then Z.setbit x hi else Z.clearbit x hi) ∧
     returns (le_signExtend junk a hi) (wrap nb (sint (hi + 1) (wrap (hi + 1) x)))) ∧
  returns (le_signExtend_to junk nb2 a) (wrap nb2 (sint nb x)) ∧
  (hi < lo → le_get junk a hi lo = AssertFail ∧ le_set junk a hi lo b = AssertFail ∧
     le_mask junk a hi lo = AssertFail ∧ le_mask_inv junk a hi lo = AssertFail) ∧
  (nb ≤ hi → le_get_bit junk a hi = AssertFail ∧ le_set_bit junk a hi v = AssertFail).
Proof.
  intros Ha Hb Hlo Hhi inside. split_and!.
  - intros Hr. destruct (le_mask_spec junk a x Ha hi lo) as [Hm Hm2]; [lia..|]. split_and!; [..|done|done].
    + by apply le_get_spec; [..|lia|lia].
    + by apply le_get_as_spec; [..|lia|lia|].
    + by apply (le_set_spec junk a x Ha hi lo); [lia|lia|].
  - intros Hr. destruct (le_bit_spec junk a x Ha hi v) as [Hm Hm2]; [lia|]. split_and!; [done|done|].
    by apply le_signExtend_spec; [..|lia].
  - by apply le_signExtend_to_spec.
  - intros Hr. unfold le_get, le_set, le_mask, le_mask_inv. by destruct (Z.leb_spec lo hi); [lia|].
  - intros Hr. unfold le_get_bit, le_set_bit. by destruct (Z.ltb_spec hi nb); [lia|].
Qed.

Lemma le_bit_numbers_witness :
  returns (le_get 0xaa (nb := 40) 0x123456789a 15 8) (field 15 8 0x123456789a) ∧
  le_get_bit 0xaa (nb := 40) 0x123456789a 15 = Ret (Z.testbit 0x123456789a 15).
Proof.
  assert (byte 0xaa) by (split; lia). assert (wf 40) by (unfold wf; lia).
  refine ((λ t, conj (proj1 (proj1 t _)) (proj1 (proj1 (proj2 t) _)))
    (le_bit_numbers 0xaa 40 40 (0x123456789a : intbv 40) (0 : intbv 40) 0x123456789a 0 15 8 true _ _ _ _)).
  - lia.
  - lia.
  - repr_now.
  - repr_now.
  - lia.
  - lia.
Defined.
