(* ===== verification/CircularQueue.v ===== *)
(** * Circular queues

    The queue templates of [src/iss/CircularQueue.h]: the base class over a
    support class that computes indices, its three supports (a power of two
    fixed at compile time, any size fixed at construction, a power of two that
    grows) and the growing queue.  Each support is an instance of
    [QueueSupport]; [SupportLaws] is what the base class relies on, and the
    theorems about the base class are proved from it alone.

    An [unsigned] is a [Z] below [2^32]; an access outside of the buffer is
    [Undefined]; [CheckSize] is the template parameter that turns the size
    checks on. *)
From stdpp Require Import prelude strings.
From Stdlib Require Import ZArith Lia.
From S2P Require Import Prelude.

Local Open Scope Z_scope.

Class QueueSupport (S : Type) : Type := {
  max : S → Z;
  next_tail : S → Z → Z;
  next_head : S → Z → Z → Z;
  prev_tail : S → Z → Z → Z;
  conv_abs_index : S → Z → Z → Z
}.

Record queue (S T : Type) : Type := Queue {
  _s : S;
  _buf : list T;
  _head : Z;
  _tail : Z
}.
Arguments Queue {S T} _ _ _ _.
Arguments _s {S T} q : rename.
Arguments _buf {S T} q : rename.
Arguments _head {S T} q : rename.
Arguments _tail {S T} q : rename.

(** [operator==] of the elements; by default it is equality. *)
Class OperatorEq (T : Type) : Type := op_eq : T → T → bool.
#[export] Instance eq_operator {T} `{EqDecision T} : OperatorEq T := λ y x, bool_decide (y = x).

(** ** The base class *)

Section Base.
Context {S T : Type} `{QueueSupport S} `{OperatorEq T} (CheckSize : bool).

Definition set_head (q : queue S T) (h : Z) : queue S T := Queue (_s q) (_buf q) h (_tail q).
Definition set_tail (q : queue S T) (t : Z) : queue S T := Queue (_s q) (_buf q) (_head q) t.

(** [_buf[i]], read and written. *)
Definition load (q : queue S T) (i : Z) : outcome T :=
  match _buf q !! Z.to_nat i with Some x => Ret x | None => Undefined end.
Definition store (q : queue S T) (i : Z) (p : T) : outcome (queue S T) :=
  if (Z.to_nat i <? length (_buf q))%nat
  then Ret (Queue (_s q) (<[Z.to_nat i := p]> (_buf q)) (_head q) (_tail q))
  else Undefined.

Definition check {A} (b : bool) (k : outcome A) : outcome A :=
  if CheckSize then (assert! b in k) else k.

Definition size (q : queue S T) : Z :=
  wrap 32 ((if _tail q <? _head q then max (_s q) else 0) + _tail q - _head q).
Definition empty (q : queue S T) : bool := _head q =? _tail q.
Definition full (q : queue S T) : bool := next_tail (_s q) (_tail q) =? _head q.
Definition capacity (q : queue S T) : Z := wrap 32 (max (_s q) - 1).

Definition push_back (q : queue S T) (p : T) : outcome (queue S T) :=
  check (negb (full q))
    (let! q := store q (_tail q) p in Ret (set_tail q (next_tail (_s q) (_tail q)))).
(** The overload that returns the address of the new element: its index in the
    buffer. *)
Definition push_back_slot (q : queue S T) : outcome (Z * queue S T) :=
  check (negb (full q)) (Ret (_tail q, set_tail q (next_tail (_s q) (_tail q)))).
Definition pop_front (q : queue S T) (n : Z) : outcome (queue S T) :=
  check (n <=? size q) (Ret (set_head q (next_head (_s q) (_head q) n))).
Definition pop_back (q : queue S T) (n : Z) : outcome (queue S T) :=
  check (n <=? size q) (Ret (set_tail q (prev_tail (_s q) (_tail q) n))).

Definition get (q : queue S T) (i : Z) : outcome T :=
  check (i <? size q) (load q (next_head (_s q) (_head q) i)).
Definition set (q : queue S T) (i : Z) (p : T) : outcome (queue S T) :=
  check (i <? size q) (store q (next_head (_s q) (_head q) i) p).

(** The loop runs until [t] equals the size, by wrap-around if it starts above
    it. *)
Definition erase_middle (q : queue S T) (start stop : Z) : outcome (queue S T) :=
  check ((start <? size q) && (stop <=? size q))
    (let! q := for_up (Z.to_nat (wrap 32 (size q - stop))) 0 (λ k r,
        let! q := r in
        let! x := get q (wrap 32 (stop + Z.of_nat k)) in
        set q (wrap 32 (start + Z.of_nat k)) x) (Ret q) in
     pop_back q (wrap 32 (stop - start))).
Definition erase (q : queue S T) (index : Z) : outcome (queue S T) :=
  erase_middle q index (wrap 32 (index + 1)).

Definition front (q : queue S T) : outcome T := check (negb (empty q)) (load q (_head q)).
Definition back (q : queue S T) : outcome T :=
  check (negb (empty q)) (load q (prev_tail (_s q) (_tail q) 1)).

Fixpoint find_from (fuel : nat) (q : queue S T) (x : T) (i : Z) : outcome Z :=
  match fuel with
  | O => Undefined
  | Datatypes.S fuel =>
      if i =? _tail q then Ret (-1)
      else
        let! y := load q i in
        if op_eq y x then Ret (sint 32 (conv_abs_index (_s q) (_head q) i))
        else find_from fuel q x (next_tail (_s q) i)
  end.
(** An index visits every slot of the buffer before it comes back. *)
Definition find (q : queue S T) (x : T) : outcome Z :=
  find_from (Datatypes.S (length (_buf q))) q x (_head q).

Definition clear (q : queue S T) : queue S T := Queue (_s q) (_buf q) 0 0.
End Base.

(** ** The supports and their queues *)

(** Sizes that are a power of two known at compile time. *)
Inductive CircularQueueSupport (N : Z) : Type := FixedSupport.
Arguments FixedSupport {N}.
#[export] Instance fixed_support N : QueueSupport (CircularQueueSupport N) := {
  max _ := N;
  next_tail _ tail := Z.land (wrap 32 (tail + 1)) (N - 1);
  next_head _ head n := Z.land (wrap 32 (head + n)) (N - 1);
  prev_tail _ tail n := Z.land (wrap 32 (tail - n)) (N - 1);
  conv_abs_index _ head n := Z.land (wrap 64 (wrap 32 (n - head) + N)) (N - 1)
}.
(** The constructor; [junk] is what [new] leaves in the buffer. *)
Definition CircularQueue {T} (junk : T) (N : Z) : outcome (queue (CircularQueueSupport N) T) :=
  assert! Z.land N (N - 1) =? 0 in
  Ret (Queue FixedSupport (replicate (Z.to_nat N) junk) 0 0).

(** Any size, given at construction; one more slot is allocated. *)
Record DCircularQueueSupport : Type := { _maxsize : Z }.
#[export] Instance d_support : QueueSupport DCircularQueueSupport := {
  max s := _maxsize s;
  next_tail s tail := wrap 32 (tail + 1) mod _maxsize s;
  next_head s head n := wrap 32 (head + n) mod _maxsize s;
  prev_tail s tail n := wrap 32 (tail - n + _maxsize s) mod _maxsize s;
  conv_abs_index s head n := wrap 32 (n - head + _maxsize s) mod _maxsize s
}.
(** The constructor and [resize] do the same: the contents are dropped. *)
Definition DCircularQueue {T} (junk : T) (maxsize : Z) : outcome (queue DCircularQueueSupport T) :=
  assert! 0 <? maxsize in
  let m := wrap 32 (maxsize + 1) in
  Ret (Queue {| _maxsize := m |} (replicate (Z.to_nat m) junk) 0 0).

(** A power of two that grows; zero before the first allocation. *)
Record DSCircularQueueSupport : Type := { ds_maxsize : Z }.
#[export] Instance ds_support : QueueSupport DSCircularQueueSupport := {
  max s := ds_maxsize s;
  next_tail s tail := Z.land (wrap 32 (tail + 1)) (wrap 32 (ds_maxsize s - 1));
  next_head s head n := Z.land (wrap 32 (head + n)) (wrap 32 (ds_maxsize s - 1));
  prev_tail s tail n := Z.land (wrap 32 (tail - n)) (wrap 32 (ds_maxsize s - 1));
  conv_abs_index s head n := Z.land (wrap 32 (n - head + ds_maxsize s)) (wrap 32 (ds_maxsize s - 1))
}.

Section Growing.
Context {T : Type} (junk : T) (CheckSize : bool).
Local Abbreviation dsqueue := (queue DSCircularQueueSupport T).

Definition DSCircularQueue : dsqueue := Queue {| ds_maxsize := 0 |} [] 0 0.

(** [_buf] is null exactly before the first allocation. *)
Definition needs_resize (q : dsqueue) : bool :=
  match _buf q with [] => true | _ => full q end.
Definition resize (q : dsqueue) : outcome dsqueue :=
  if ds_maxsize (_s q) =? 0 then
    Ret (Queue {| ds_maxsize := 4 |} (replicate 4 junk) 0 0)
  else
    let n := size q in
    let nn := wrap 32 (Z.shiftl (ds_maxsize (_s q)) 1) in
    let! newmem := for_up (Z.to_nat n) 0 (λ i r,
      let! newmem := r in
      let! x := get CheckSize q (Z.of_nat i) in
      if (i <? length newmem)%nat then Ret (<[i := x]> newmem) else Undefined)
      (Ret (replicate (Z.to_nat nn) junk)) in
    Ret (Queue {| ds_maxsize := nn |} newmem 0 n).
Definition ds_push_back (q : dsqueue) (p : T) : outcome dsqueue :=
  let! q := if needs_resize q then resize q else Ret q in
  push_back CheckSize q p.
Definition ds_push_back_slot (q : dsqueue) : outcome (Z * dsqueue) :=
  let! q := if needs_resize q then resize q else Ret q in
  push_back_slot CheckSize q.
Definition ds_full (q : dsqueue) : bool := false.
End Growing.

(** ** What the base class relies on *)

(** On a valid support the index computations are arithmetic modulo the size. *)
Class SupportLaws (S : Type) `{QueueSupport S} : Type := {
  valid : S → Prop;
  valid_max s : valid s → 1 ≤ max s ≤ 2 ^ 31;
  next_tail_mod s t : valid s → 0 ≤ t < max s → next_tail s t = (t + 1) mod max s;
  next_head_mod s h n : valid s → 0 ≤ h < max s → 0 ≤ n ≤ max s →
    next_head s h n = (h + n) mod max s;
  prev_tail_mod s t n : valid s → 0 ≤ t < max s → 0 ≤ n ≤ max s →
    prev_tail s t n = (t - n) mod max s;
  conv_abs_index_mod s h i : valid s → 0 ≤ h < max s → 0 ≤ i < max s →
    conv_abs_index s h i = (i - h) mod max s
}.

Definition pow2 (n : Z) : Prop := ∃ k, 0 ≤ k ≤ 31 ∧ n = 2 ^ k.

Lemma land_pow2 n x : pow2 n → Z.land x (n - 1) = x mod n.
Proof.
  intros (k & Hk & ->). replace (2 ^ k - 1) with (Z.ones k) by (rewrite Z.ones_equiv; lia).
  apply Z.land_ones. lia.
Qed.

Lemma pow2_bounds n : pow2 n → 1 ≤ n ≤ 2 ^ 31.
Proof.
  intros (k & Hk & ->). split; [pose proof (pow2_pos k); lia|]. apply Z.pow_le_mono_r; lia.
Qed.

(** Reducing modulo a word first does not matter for a power of two. *)
Lemma wrap_pow2 n w x : pow2 n → 32 ≤ w → wrap w x mod n = x mod n.
Proof.
  intros (k & Hk & ->) Hw. apply Z.mod_mod_divide. exists (2 ^ (w - k)).
  rewrite <- Z.pow_add_r by lia. f_equal. lia.
Qed.

#[export] Program Instance fixed_laws N : SupportLaws (CircularQueueSupport N) := { valid _ := pow2 N }.
Next Obligation. intros N s. apply pow2_bounds. Qed.
Next Obligation. intros N s t Hv Ht. cbn. by rewrite land_pow2, wrap_pow2. Qed.
Next Obligation. intros N s h n Hv Hh Hn. cbn. by rewrite land_pow2, wrap_pow2. Qed.
Next Obligation. intros N s t n Hv Ht Hn. cbn. by rewrite land_pow2, wrap_pow2. Qed.
Next Obligation.
  intros N s h i Hv Hh Hi. cbn. rewrite land_pow2, wrap_pow2 by done.
  rewrite <- Zplus_mod_idemp_l, wrap_pow2, Zplus_mod_idemp_l by done.
  rewrite <- (Z.mul_1_l N) at 1. by rewrite Z_mod_plus_full.
Qed.

#[export] Program Instance d_laws : SupportLaws DCircularQueueSupport :=
  { valid s := 1 ≤ _maxsize s ≤ 2 ^ 31 }.
Next Obligation. done. Qed.
Next Obligation. intros s t Hv Ht. cbn in *. rewrite wrap_small; [done|]. unfold uint. lia. Qed.
Next Obligation. intros s h n Hv Hh Hn. cbn in *. rewrite wrap_small; [done|]. unfold uint. lia. Qed.
Next Obligation.
  intros s t n Hv Ht Hn. cbn in *. rewrite wrap_small by (unfold uint; lia).
  rewrite <- (Z.mul_1_l (_maxsize s)) at 1. by rewrite Z_mod_plus_full.
Qed.
Next Obligation.
  intros s h i Hv Hh Hi. cbn in *. rewrite wrap_small by (unfold uint; lia).
  rewrite <- (Z.mul_1_l (_maxsize s)) at 1. by rewrite Z_mod_plus_full.
Qed.

#[export] Program Instance ds_laws : SupportLaws DSCircularQueueSupport :=
  { valid s := pow2 (ds_maxsize s) }.
Next Obligation. intros s. apply pow2_bounds. Qed.
Next Obligation. intros s t Hv Ht. cbn in *. pose proof (pow2_bounds _ Hv).
  rewrite (wrap_small 32 (_ - 1)) by (unfold uint; lia). by rewrite land_pow2, wrap_pow2. Qed.
Next Obligation. intros s h n Hv Hh Hn. cbn in *. pose proof (pow2_bounds _ Hv).
  rewrite (wrap_small 32 (_ - 1)) by (unfold uint; lia). by rewrite land_pow2, wrap_pow2. Qed.
Next Obligation. intros s t n Hv Ht Hn. cbn in *. pose proof (pow2_bounds _ Hv).
  rewrite (wrap_small 32 (_ - 1)) by (unfold uint; lia). by rewrite land_pow2, wrap_pow2. Qed.
Next Obligation.
  intros s h i Hv Hh Hi. cbn in *. pose proof (pow2_bounds _ Hv).
  rewrite (wrap_small 32 (_ - 1)) by (unfold uint; lia). rewrite land_pow2, wrap_pow2 by done.
  rewrite <- (Z.mul_1_l (ds_maxsize s)) at 1. by rewrite Z_mod_plus_full.
Qed.

(** ** The queue as a list *)

Section Correct.
Context {S T : Type} `{SupportLaws S} `{OE : OperatorEq T}.
Implicit Types (q : queue S T) (l : list T).

Local Abbreviation len l := (Z.of_nat (length l)).

(** The contents, from the front to the back. *)
Record rep q l : Prop := {
  rep_valid : valid (_s q);
  rep_buf : len (_buf q) = max (_s q);
  rep_head : 0 ≤ _head q < max (_s q);
  rep_tail : _tail q = (_head q + len l) mod max (_s q);
  rep_fits : len l < max (_s q);
  rep_elem i x : l !! i = Some x → _buf q !! Z.to_nat ((_head q + Z.of_nat i) mod max (_s q)) = Some x
}.

Lemma slot_inj m h i j : 0 ≤ i < m → 0 ≤ j < m → (h + i) mod m = (h + j) mod m → i = j.
Proof using.
  intros Hi Hj E. assert ((h + i - h) mod m = (h + j - h) mod m) as E'.
  { rewrite <- Zminus_mod_idemp_l, E, Zminus_mod_idemp_l. done. }
  replace (h + i - h) with i in E' by lia. replace (h + j - h) with j in E' by lia.
  by rewrite !Z.mod_small in E'.
Qed.

Lemma slot_lt q l i : rep q l → (Z.to_nat ((_head q + i) mod max (_s q)) < length (_buf q))%nat.
Proof using.
  intros Hr. pose proof (valid_max _ (rep_valid _ _ Hr)). pose proof (rep_buf _ _ Hr).
  assert (0 < max (_s q)) as Hm by lia. pose proof (Z.mod_pos_bound (_head q + i) (max (_s q)) Hm). lia.
Qed.

Lemma size_spec q l : rep q l → size q = len l.
Proof using.
  intros [Hv _ Hh Ht Hf _]. pose proof (valid_max _ Hv) as Hm. unfold size. rewrite Ht.
  set (m := max (_s q)) in *. set (h := _head q) in *.
  rewrite wrap_small; destruct (Z.ltb_spec ((h + len l) mod m) h) as [Hlt|Hge]; unfold uint;
    (destruct (Z.lt_ge_cases (h + len l) m) as [Hc|Hc];
     [rewrite Z.mod_small in * by lia; lia
     |replace ((h + len l) mod m) with (h + len l - m) in * by (apply Z.mod_unique with 1; lia); lia]).
Qed.

Lemma tail_bounds q l : rep q l → 0 ≤ _tail q < max (_s q).
Proof using.
  intros [Hv _ Hh Ht _ _]. pose proof (valid_max _ Hv). rewrite Ht. apply Z.mod_pos_bound. lia.
Qed.

Lemma empty_spec q l : rep q l → empty q = bool_decide (l = []).
Proof using.
  intros Hr. destruct Hr as [Hv _ Hh Ht Hf _]. unfold empty. rewrite Ht.
  set (m := max (_s q)) in *. pose proof (slot_inj m (_head q) 0 (len l) ltac:(lia) ltac:(lia)) as Hinj.
  rewrite Z.add_0_r, (Z.mod_small (_head q)) in Hinj by lia.
  destruct l as [|x l]; [by rewrite Z.add_0_r, Z.mod_small, Z.eqb_refl by lia|].
  apply Z.eqb_neq. intros E. apply Hinj in E. simpl in E. lia.
Qed.

Lemma full_spec q l : rep q l → full q = (len l =? max (_s q) - 1).
Proof using.
  intros Hr. pose proof (tail_bounds _ _ Hr) as Htb. destruct Hr as [Hv _ Hh Ht Hf _]. unfold full.
  rewrite next_tail_mod by done. pose proof (valid_max _ Hv).
  rewrite Ht, Zplus_mod_idemp_l. set (m := max (_s q)) in *.
  destruct (Z.eqb_spec (len l) (m - 1)) as [E|Hne].
  - apply Z.eqb_eq. replace (_head q + len l + 1) with (_head q + 1 * m) by lia.
    rewrite Z_mod_plus_full. by apply Z.mod_small.
  - apply Z.eqb_neq. intros E.
    pose proof (slot_inj m (_head q) (len l + 1) 0 ltac:(lia) ltac:(lia)) as Hi.
    rewrite Z.add_assoc, Z.add_0_r, (Z.mod_small (_head q)) in Hi by lia. apply Hi in E. lia.
Qed.

Lemma load_spec q l i x : rep q l → l !! i = Some x →
  load q ((_head q + Z.of_nat i) mod max (_s q)) = Ret x.
Proof using. intros Hr Hi. unfold load. by rewrite (rep_elem _ _ Hr i x Hi). Qed.

(** Writing at offset [i] from the head changes element [i] only. *)
Lemma store_spec q l i p : rep q l → 0 ≤ i < max (_s q) →
  ∃ q', store q ((_head q + i) mod max (_s q)) p = Ret q' ∧ _s q' = _s q ∧
    _head q' = _head q ∧ _tail q' = _tail q ∧ len (_buf q') = max (_s q) ∧
    (∀ j x, j ≠ i → 0 ≤ j < max (_s q) → _buf q !! Z.to_nat ((_head q + j) mod max (_s q)) = Some x →
       _buf q' !! Z.to_nat ((_head q + j) mod max (_s q)) = Some x) ∧
    _buf q' !! Z.to_nat ((_head q + i) mod max (_s q)) = Some p.
Proof using.
  intros Hr Hi. pose proof (slot_lt q l i Hr) as Hlt. unfold store.
  destruct (Nat.ltb_spec (Z.to_nat ((_head q + i) mod max (_s q))) (length (_buf q))); [|lia].
  eexists. split; [done|]. cbn. split_and!; [done..|rewrite length_insert; apply Hr| |].
  - intros j x Hne Hj Hx. pose proof (valid_max _ (rep_valid _ _ Hr)).
    rewrite list_lookup_insert_ne; [done|]. intros E. apply Hne.
    apply (slot_inj (max (_s q)) (_head q)); [lia..|].
    apply Z2Nat.inj in E; [done|apply Z.mod_pos_bound; lia..].
  - apply list_lookup_insert_eq. done.
Qed.

Section Operations.
Context (c : bool).

Lemma check_true {A} (b : bool) (k : outcome A) : b = true → check c b k = k.
Proof using. intros ->. unfold check. by destruct c. Qed.
Lemma check_false {A} (b : bool) (k : outcome A) : c = true → b = false → check c b k = AssertFail.
Proof using. intros -> ->. done. Qed.

Lemma push_back_spec q l p : rep q l → len l < max (_s q) - 1 →
  ∃ q', push_back c q p = Ret q' ∧ rep q' (l ++ [p]) ∧ _s q' = _s q.
Proof using.
  intros Hr Hlt. pose proof (tail_bounds _ _ Hr) as Htb. unfold push_back.
  rewrite check_true by (rewrite (full_spec _ _ Hr); by destruct (Z.eqb_spec (len l) (max (_s q) - 1)); [lia|]).
  destruct (store_spec q l (len l) p Hr) as (q' & E & Es & Eh & Et & Hb & Hold & Hnew);
    [split; [lia|apply Hr]|].
  rewrite (rep_tail _ _ Hr), E. cbn [obind]. eexists. split; [done|]. split; [|done].
  pose proof (rep_valid _ _ Hr) as Hv. split; cbn; rewrite ?Es, ?Eh.
  - done.
  - done.
  - apply Hr.
  - rewrite Et, next_tail_mod by done. rewrite (rep_tail _ _ Hr), Zplus_mod_idemp_l, length_app. cbn.
    f_equal. lia.
  - rewrite length_app. simpl. lia.
  - intros i x Hi. destruct (decide (i < length l)%nat) as [Hlt'|].
    + rewrite lookup_app_l in Hi by done. apply Hold; [lia|lia|]. by apply (rep_elem _ _ Hr).
    + rewrite lookup_app_r in Hi by lia. apply list_lookup_singleton_Some in Hi as [Hi <-].
      by replace i with (length l) by lia.
Qed.

Lemma push_back_full q l p : rep q l → len l = max (_s q) - 1 →
  (c = true → push_back c q p = AssertFail) ∧
  (c = false → ∃ q', push_back c q p = Ret q' ∧ rep q' []).
Proof using.
  intros Hr Hfull. pose proof (tail_bounds _ _ Hr) as Htb. pose proof (rep_valid _ _ Hr) as Hv.
  pose proof (full_spec _ _ Hr) as Hf. rewrite (proj2 (Z.eqb_eq _ _) Hfull) in Hf. unfold push_back. split.
  - intros Hc. apply check_false; [done|by rewrite Hf].
  - intros ->. cbn [check].
    destruct (store_spec q l (len l) p Hr) as (q' & E & Es & Eh & Et & Hb & _ & _); [split; [lia|apply Hr]|].
    rewrite (rep_tail _ _ Hr), E. cbn [obind]. eexists. split; [done|].
    unfold full in Hf. apply Z.eqb_eq in Hf. split; cbn; rewrite ?Es, ?Eh, ?Et; try done.
    + apply Hr.
    + rewrite Hf, Z.add_0_r, Z.mod_small; [done|apply Hr].
    + pose proof (valid_max _ Hv). lia.
Qed.

(** The slot that the other overload returns is where the new element goes. *)
Lemma push_back_slot_spec q l p : rep q l → len l < max (_s q) - 1 →
  ∃ i q' q'', push_back_slot c q = Ret (i, q') ∧ store q' i p = Ret q'' ∧ rep q'' (l ++ [p]).
Proof using.
  intros Hr Hlt. destruct (push_back_spec q l p Hr Hlt) as (r & E & Hrep & _).
  unfold push_back, push_back_slot in *.
  assert (negb (full q) = true) as Hnf
    by (rewrite (full_spec _ _ Hr); by destruct (Z.eqb_spec (len l) (max (_s q) - 1)); [lia|]).
  rewrite check_true in E by done. rewrite check_true by done. eexists _, _, r. split; [done|].
  destruct (store q (_tail q) p) as [q0| | |] eqn:Es; try done. cbn [obind] in E. injection E as <-.
  unfold store in *. cbn [set_tail _buf _s _head]. destruct (Z.to_nat (_tail q) <? length (_buf q))%nat; [|done].
  injection Es as <-. split; [done|exact Hrep].
Qed.

Lemma pop_front_spec q l n : rep q l → 0 ≤ n →
  (n ≤ len l → ∃ q', pop_front c q n = Ret q' ∧ rep q' (drop (Z.to_nat n) l) ∧ _s q' = _s q) ∧
  (len l < n → c = true → pop_front c q n = AssertFail).
Proof using.
  intros Hr Hn. unfold pop_front. rewrite (size_spec _ _ Hr). split.
  - intros Hle. rewrite check_true by (by apply Z.leb_le). eexists. split; [done|]. split; [|done].
    destruct Hr as [Hv Hb Hh Ht Hf He]. pose proof (valid_max _ Hv) as Hm.
    assert (0 < max (_s q)) as Hm0 by lia. split; cbn; rewrite ?next_head_mod by (done || lia); try done.
    + by apply Z.mod_pos_bound.
    + rewrite Ht, Zplus_mod_idemp_l, length_drop. f_equal. lia.
    + rewrite length_drop. lia.
    + intros i x Hi. rewrite lookup_drop in Hi. apply He in Hi. rewrite Zplus_mod_idemp_l.
      by replace (_head q + n + Z.of_nat i) with (_head q + Z.of_nat (Z.to_nat n + i)) by lia.
  - intros Hlt Hc. apply check_false; [done|]. apply Z.leb_gt. lia.
Qed.

Lemma pop_back_spec q l n : rep q l → 0 ≤ n →
  (n ≤ len l → ∃ q', pop_back c q n = Ret q' ∧ rep q' (take (length l - Z.to_nat n) l) ∧ _s q' = _s q) ∧
  (len l < n → c = true → pop_back c q n = AssertFail).
Proof using.
  intros Hr Hn. pose proof (tail_bounds _ _ Hr) as Htb. unfold pop_back. rewrite (size_spec _ _ Hr). split.
  - intros Hle. rewrite check_true by (by apply Z.leb_le). eexists. split; [done|]. split; [|done].
    destruct Hr as [Hv Hb Hh Ht Hf He]. pose proof (valid_max _ Hv) as Hm.
    split; cbn; rewrite ?prev_tail_mod by (done || lia); try done.
    + rewrite Ht, Zminus_mod_idemp_l, length_take. f_equal. lia.
    + rewrite length_take. lia.
    + intros i x Hi. apply lookup_take_Some in Hi as [Hi _]. by apply He.
  - intros Hlt Hc. apply check_false; [done|]. apply Z.leb_gt. lia.
Qed.

Lemma get_spec q l i : rep q l → 0 ≤ i →
  (∀ x, l !! Z.to_nat i = Some x → get c q i = Ret x) ∧
  (len l ≤ i → c = true → get c q i = AssertFail).
Proof using.
  intros Hr Hi. unfold get. rewrite (size_spec _ _ Hr). split.
  - intros x Hx. pose proof (lookup_lt_Some _ _ _ Hx). rewrite check_true by (apply Z.ltb_lt; lia).
    pose proof (rep_valid _ _ Hr) as Hv. pose proof (rep_head _ _ Hr).
    pose proof (rep_fits _ _ Hr). rewrite next_head_mod by (done || lia).
    pose proof (load_spec q l (Z.to_nat i) x Hr Hx) as E. by rewrite Z2Nat.id in E by lia.
  - intros Hlt Hc. apply check_false; [done|]. apply Z.ltb_ge. lia.
Qed.

Lemma set_spec q l i p : rep q l → 0 ≤ i →
  (i < len l → ∃ q', set c q i p = Ret q' ∧ rep q' (<[Z.to_nat i := p]> l) ∧ _s q' = _s q) ∧
  (len l ≤ i → c = true → set c q i p = AssertFail).
Proof using.
  intros Hr Hi. unfold set. rewrite (size_spec _ _ Hr). split.
  - intros Hlt. rewrite check_true by (apply Z.ltb_lt; lia). pose proof (rep_valid _ _ Hr) as Hv.
    pose proof (rep_head _ _ Hr). pose proof (rep_fits _ _ Hr). rewrite next_head_mod by (done || lia).
    destruct (store_spec q l i p Hr) as (q' & E & Es & Eh & Et & Hb & Hold & Hnew); [lia|].
    exists q'. split; [done|]. split; [|done].
    split; rewrite ?Es, ?Eh, ?Et, ?length_insert; try apply Hr; try done.
    intros j x Hx. destruct (decide (j = Z.to_nat i)) as [->|Hne].
    + rewrite list_lookup_insert_eq in Hx by lia. injection Hx as <-. by rewrite Z2Nat.id by lia.
    + rewrite list_lookup_insert_ne in Hx by done. pose proof (lookup_lt_Some _ _ _ Hx).
      apply Hold; [lia|lia|by apply Hr].
  - intros Hlt Hc. apply check_false; [done|]. apply Z.ltb_ge. lia.
Qed.

Lemma front_spec q l : rep q l →
  (∀ x l', l = x :: l' → front c q = Ret x) ∧ (l = [] → c = true → front c q = AssertFail).
Proof using.
  intros Hr. unfold front. rewrite (empty_spec _ _ Hr). split.
  - intros x l' ->. rewrite check_true by done. pose proof (load_spec q _ 0 x Hr eq_refl) as E.
    rewrite Z.add_0_r, Z.mod_small in E by apply Hr. done.
  - intros -> Hc. by apply check_false.
Qed.

Lemma back_spec q l : rep q l →
  (∀ x l', l = l' ++ [x] → back c q = Ret x) ∧ (l = [] → c = true → back c q = AssertFail).
Proof using.
  intros Hr. pose proof (tail_bounds _ _ Hr) as Htb. unfold back. rewrite (empty_spec _ _ Hr). split.
  - intros x l' ->. rewrite check_true by (by destruct l'). pose proof (rep_valid _ _ Hr) as Hv.
    pose proof (valid_max _ Hv). rewrite prev_tail_mod by (done || lia).
    rewrite (rep_tail _ _ Hr), Zminus_mod_idemp_l.
    pose proof (load_spec q _ (length l') x Hr) as E. rewrite length_app. simpl.
    replace (_head q + Z.of_nat (length l' + 1) - 1) with (_head q + len l') by lia.
    apply E. by rewrite lookup_app_r, Nat.sub_diag by lia.
  - intros -> Hc. by apply check_false.
Qed.

Lemma clear_spec q l : rep q l → rep (clear q) [].
Proof using.
  intros [Hv Hb Hh Ht Hf _]. pose proof (valid_max _ Hv). split; cbn; done || lia.
Qed.

(** The list while the elements from [stop] on move down to [start]. *)
Definition moved (l l' : list T) (start stop k : nat) : Prop :=
  length l' = length l ∧
  (∀ j, (j < start)%nat → l' !! j = l !! j) ∧
  (∀ j, (j < k)%nat → l' !! (start + j)%nat = l !! (stop + j)%nat) ∧
  (∀ j, (start + k ≤ j)%nat → l' !! j = l !! j).

Lemma move_step l l' start stop k x : (start ≤ stop)%nat → (start + k < length l)%nat →
  moved l l' start stop k → l !! (stop + k)%nat = Some x →
  moved l (<[(start + k)%nat := x]> l') start stop (k + 1).
Proof using.
  intros Hs Hlt (Hl & H1 & H2 & H3) Hx. split_and!.
  - by rewrite length_insert.
  - intros j Hj. rewrite list_lookup_insert_ne by lia. by apply H1.
  - intros j Hj. destruct (decide (j = k)) as [->|].
    + rewrite list_lookup_insert_eq by lia. done.
    + rewrite list_lookup_insert_ne by lia. apply H2. lia.
  - intros j Hj. rewrite list_lookup_insert_ne by lia. apply H3. lia.
Qed.

Lemma moved_all l l' start stop : (start ≤ stop ≤ length l)%nat → moved l l' start stop (length l - stop) →
  take (length l - (stop - start)) l' = take start l ++ drop stop l.
Proof using.
  intros Hs (Hl & H1 & H2 & H3). apply list_eq. intros j.
  destruct (decide (j < length l - (stop - start))%nat) as [Hj|Hj].
  - rewrite lookup_take_lt by done. destruct (decide (j < start)%nat) as [Hj'|].
    + rewrite lookup_app_l by (rewrite length_take; lia). rewrite lookup_take_lt by done. by apply H1.
    + rewrite lookup_app_r by (rewrite length_take; lia). rewrite lookup_drop, length_take.
      specialize (H2 (j - start)%nat ltac:(lia)). replace (start + (j - start))%nat with j in H2 by lia.
      rewrite H2. f_equal. lia.
  - rewrite !lookup_ge_None_2; [done|rewrite length_app, length_take, length_drop; lia|rewrite length_take; lia].
Qed.

Lemma move_loop q l start stop k : rep q l → (start ≤ stop)%nat → (stop + k ≤ length l)%nat →
  ∃ q' l', for_up k 0 (λ k r,
      let! q := r in
      let! x := get c q (wrap 32 (Z.of_nat stop + Z.of_nat k)) in
      set c q (wrap 32 (Z.of_nat start + Z.of_nat k)) x) (Ret q) = Ret q' ∧
    rep q' l' ∧ _s q' = _s q ∧ moved l l' start stop k.
Proof using.
  intros Hr Hs Hk. pose proof (rep_fits _ _ Hr). pose proof (valid_max _ (rep_valid _ _ Hr)).
  apply (for_up_ind (λ k r, ∃ q' l', r = Ret q' ∧ rep q' l' ∧ _s q' = _s q ∧ moved l l' start stop k)).
  - exists q, l. split_and!; [done..|]. split_and!; [done|done|lia|done].
  - intros i r Hi (q' & l' & -> & Hr' & Es & Hm). cbn [obind].
    rewrite !wrap_small by (unfold uint; lia).
    destruct (lookup_lt_is_Some_2 l (stop + i)%nat ltac:(lia)) as [x Hx].
    assert (l' !! (stop + i)%nat = Some x) as Hx' by (destruct Hm as (_ & _ & _ & ->); [done|lia]).
    rewrite (proj1 (get_spec q' l' (Z.of_nat stop + Z.of_nat i) Hr' ltac:(lia)) x)
      by (by replace (Z.to_nat (Z.of_nat stop + Z.of_nat i)) with (stop + i)%nat by lia).
    cbn [obind].
    destruct (proj1 (set_spec q' l' (Z.of_nat start + Z.of_nat i) x Hr' ltac:(lia))) as (q2 & -> & Hr2 & Es2);
      [rewrite (proj1 Hm); lia|].
    replace (Z.to_nat (Z.of_nat start + Z.of_nat i)) with (start + i)%nat in Hr2 by lia.
    exists q2, (<[(start + i)%nat := x]> l'). split_and!; [done|done|congruence|].
    apply move_step; done || lia.
Qed.

Lemma erase_middle_spec q l start stop : rep q l → (start ≤ stop ≤ length l)%nat → (start < length l)%nat →
  ∃ q', erase_middle c q (Z.of_nat start) (Z.of_nat stop) = Ret q' ∧
    rep q' (take start l ++ drop stop l).
Proof using.
  intros Hr Hs Hlt. pose proof (rep_fits _ _ Hr). pose proof (valid_max _ (rep_valid _ _ Hr)).
  unfold erase_middle. rewrite (size_spec _ _ Hr).
  rewrite check_true by (apply andb_true_intro; rewrite Z.ltb_lt, Z.leb_le; lia).
  rewrite (wrap_small 32 (len l - Z.of_nat stop)) by (unfold uint; lia).
  replace (Z.to_nat (len l - Z.of_nat stop)) with (length l - stop)%nat by lia.
  destruct (move_loop q l start stop (length l - stop) Hr) as (q' & l' & -> & Hr' & Es & Hm); [lia..|].
  cbn [obind]. rewrite wrap_small by (unfold uint; lia).
  destruct (proj1 (pop_back_spec q' l' (Z.of_nat stop - Z.of_nat start) Hr' ltac:(lia))) as (q2 & E2 & Hr2 & _);
    [rewrite (proj1 Hm); lia|].
  exists q2. split; [done|]. rewrite <- (moved_all l l') by done.
  replace (Z.to_nat (Z.of_nat stop - Z.of_nat start)) with (stop - start)%nat in Hr2 by lia.
  by rewrite (proj1 Hm) in Hr2.
Qed.

Lemma erase_spec q l i : rep q l → (i < length l)%nat →
  ∃ q', erase c q (Z.of_nat i) = Ret q' ∧ rep q' (delete i l).
Proof using.
  intros Hr Hi. pose proof (rep_fits _ _ Hr). pose proof (valid_max _ (rep_valid _ _ Hr)).
  unfold erase. rewrite wrap_small by (unfold uint; lia).
  replace (Z.of_nat i + 1) with (Z.of_nat (Datatypes.S i)) by lia. rewrite delete_take_drop.
  apply erase_middle_spec; done || lia.
Qed.
End Operations.

(** [find] returns the position of the first element that [operator==] equates with
    [x]. *)
Definition position (x : T) (l : list T) : Z :=
  match list_find (λ y, op_eq y x) l with Some (i, _) => Z.of_nat i | None => -1 end.

Lemma find_from_spec q l x fuel i : rep q l → (i ≤ length l)%nat → (length l - i < fuel)%nat →
  find_from fuel q x ((_head q + Z.of_nat i) mod max (_s q)) =
    Ret (match list_find (λ y, op_eq y x) (drop i l) with Some (j, _) => Z.of_nat (i + j) | None => -1 end).
Proof using.
  intros Hr. pose proof (rep_fits _ _ Hr) as Hf. pose proof (rep_valid _ _ Hr) as Hv.
  pose proof (valid_max _ Hv) as Hm. pose proof (rep_head _ _ Hr) as Hh. pose proof (rep_tail _ _ Hr) as Ht.
  set (m := max (_s q)) in *. revert i. induction fuel as [|fuel IH]; intros i Hi Hfuel; [lia|].
  cbn [find_from]. fold m. rewrite Ht.
  destruct (Z.eqb_spec ((_head q + Z.of_nat i) mod m) ((_head q + len l) mod m)) as [E|Hne].
  - apply slot_inj in E; [|lia..]. by rewrite drop_ge by lia.
  - destruct (decide (i = length l)) as [->|]; [done|].
    destruct (lookup_lt_is_Some_2 l i ltac:(lia)) as [y Hy].
    pose proof (load_spec q l i y Hr Hy) as El. fold m in El. rewrite El. cbn [obind]. rewrite (drop_S _ _ _ Hy). cbn [list_find].
    pose proof (Z.mod_pos_bound (_head q + Z.of_nat i) m ltac:(lia)) as Hb.
    destruct (op_eq y x) eqn:Hyx; [rewrite decide_True by done|rewrite decide_False by (by intros [])].
    + rewrite conv_abs_index_mod by done. fold m. rewrite Zminus_mod_idemp_l.
      replace (_head q + Z.of_nat i - _head q) with (Z.of_nat i) by lia. rewrite Z.mod_small by lia.
      unfold sint. destruct (Z.ltb_spec (Z.of_nat i) (2 ^ (32 - 1))); [|lia]. f_equal. lia.
    + rewrite next_tail_mod by done. fold m. rewrite Zplus_mod_idemp_l.
      replace (_head q + Z.of_nat i + 1) with (_head q + Z.of_nat (Datatypes.S i)) by lia.
      rewrite IH by lia. f_equal. destruct (list_find _ (drop (Datatypes.S i) l)) as [[j z]|]; cbn; [lia|done].
Qed.

Lemma find_spec q l x : rep q l → find q x = Ret (position x l).
Proof using.
  intros Hr. pose proof (rep_head _ _ Hr). pose proof (rep_fits _ _ Hr). pose proof (rep_buf _ _ Hr).
  unfold find. replace (_head q) with ((_head q + Z.of_nat 0) mod max (_s q)) at 1
    by (rewrite Z.add_0_r; by apply Z.mod_small).
  rewrite (find_from_spec q l x) by (done || lia). by rewrite drop_0.
Qed.

Lemma new_rep (s : S) (junk : T) : valid s → rep (Queue s (replicate (Z.to_nat (max s)) junk) 0 0) [].
Proof using.
  intros Hv. pose proof (valid_max _ Hv). split; cbn; try done; try lia.
  rewrite length_replicate. lia.
Qed.
End Correct.

(** C15: over any support that satisfies its laws, a queue behaves as the list of
    its elements: pushing, popping from either end, erasing, reading, writing,
    finding and clearing are the list operations, and [size], [empty] and
    [full] are those of the list.  This holds with and without size checks. *)
Theorem queue_refines_list {S T : Type} `{SupportLaws S} `{OperatorEq T} (c : bool) (q : queue S T) l :
  rep q l →
  let n := Z.of_nat (length l) in
  (size q = n ∧ empty q = bool_decide (l = []) ∧ full q = (n =? max (_s q) - 1)) ∧
  (∀ p, n < max (_s q) - 1 → ∃ q', push_back c q p = Ret q' ∧ rep q' (l ++ [p])) ∧
  (∀ k, 0 ≤ k ≤ n → ∃ q', pop_front c q k = Ret q' ∧ rep q' (drop (Z.to_nat k) l)) ∧
  (∀ k, 0 ≤ k ≤ n → ∃ q', pop_back c q k = Ret q' ∧ rep q' (take (length l - Z.to_nat k) l)) ∧
  (∀ a b, (a ≤ b ≤ length l)%nat → (a < length l)%nat →
     ∃ q', erase_middle c q (Z.of_nat a) (Z.of_nat b) = Ret q' ∧ rep q' (take a l ++ drop b l)) ∧
  (∀ i x, l !! i = Some x → get c q (Z.of_nat i) = Ret x) ∧
  (∀ i p, (i < length l)%nat → ∃ q', set c q (Z.of_nat i) p = Ret q' ∧ rep q' (<[i := p]> l)) ∧
  (∀ x, find q x = Ret (position x l)) ∧
  rep (clear q) [].
Proof.
  intros Hr n. split_and!.
  - by apply size_spec.
  - by apply empty_spec.
  - by apply full_spec.
  - intros p Hp. destruct (push_back_spec c q l p Hr Hp) as (q' & ? & ? & _). eauto.
  - intros k Hk. destruct (proj1 (pop_front_spec c q l k Hr ltac:(lia)) ltac:(lia)) as (q' & ? & ? & _). eauto.
  - intros k Hk. destruct (proj1 (pop_back_spec c q l k Hr ltac:(lia)) ltac:(lia)) as (q' & ? & ? & _). eauto.
  - intros a b Hab Ha. by apply erase_middle_spec.
  - intros i x Hi. apply (get_spec c q l); [done|lia|by rewrite Nat2Z.id].
  - intros i p Hi. destruct (proj1 (set_spec c q l (Z.of_nat i) p Hr ltac:(lia)) ltac:(lia))
      as (q' & E & Hr' & _). rewrite Nat2Z.id in Hr'. eauto.
  - intros x. by apply find_spec.
  - by eapply clear_spec.
Qed.

(** With size checks on, every operation that does not fit the contents stops
    at the assertion; without them, a push on a full queue makes the queue
    empty. *)
Theorem queue_checks {S T : Type} `{SupportLaws S} `{OperatorEq T} (q : queue S T) l p :
  rep q l →
  let n := Z.of_nat (length l) in
  (n = max (_s q) - 1 →
     push_back true q p = AssertFail ∧ ∃ q', push_back false q p = Ret q' ∧ rep q' []) ∧
  (∀ k, n < k → pop_front true q k = AssertFail ∧ pop_back true q k = AssertFail) ∧
  (∀ i, n ≤ i → get true q i = AssertFail ∧ set true q i p = AssertFail) ∧
  (l = [] → front true q = AssertFail ∧ back true q = AssertFail) ∧
  (∀ a b, n ≤ a ∨ n < b → erase_middle true q a b = AssertFail).
Proof.
  intros Hr n. split_and!.
  - intros Hf. split; [by apply (push_back_full true q l p Hr Hf)|by apply (push_back_full false q l p Hr Hf)].
  - intros k Hk. split; [apply (pop_front_spec true q l k Hr)|apply (pop_back_spec true q l k Hr)]; done || lia.
  - intros i Hi. split; [apply (get_spec true q l i Hr)|apply (set_spec true q l i p Hr)]; done || lia.
  - intros Hl. split; [by apply (front_spec true q l Hr)|by apply (back_spec true q l Hr)].
  - intros a b Hab. unfold erase_middle. rewrite (size_spec _ _ Hr). apply check_false; [done|].
    apply andb_false_iff. rewrite Z.ltb_ge, Z.leb_gt. lia.
Qed.

(** A queue of size 4 whose two elements wrap around the end of the buffer. *)
Definition wrapped : queue (CircularQueueSupport 4) Z := Queue FixedSupport [11; 12; 13; 10] 3 1.

Lemma wrapped_rep : rep wrapped [10; 11].
Proof.
  split; cbn.
  - exists 2. split; [lia|done].
  - done.
  - lia.
  - done.
  - lia.
  - intros [|[|i]] x E; cbn in E; try (injection E as <-; reflexivity); done.
Qed.

Lemma queue_refines_list_witness : ∃ q',
  erase_middle false wrapped (Z.of_nat 0) (Z.of_nat 1) = Ret q' ∧ rep q' [11].
Proof.
  destruct (queue_refines_list false wrapped [10; 11] wrapped_rep) as (_ & _ & _ & _ & H & _).
  apply (H 0%nat 1%nat); simpl; lia.
Defined.

Lemma queue_checks_witness : pop_front true wrapped 3 = AssertFail.
Proof.
  destruct (queue_checks wrapped [10; 11] 0 wrapped_rep) as (_ & H & _). apply (H 3). simpl. lia.
Defined.

(** The constructors build empty queues of the requested capacity. *)
Lemma constructors_spec {T : Type} (junk : T) N m :
  (pow2 N → ∃ q, CircularQueue junk N = Ret q ∧ rep q [] ∧ capacity q = N - 1) ∧
  (0 < m < 2 ^ 31 → ∃ q, DCircularQueue junk m = Ret q ∧ rep q [] ∧ capacity q = m).
Proof.
  split.
  - intros HN. pose proof (pow2_bounds _ HN). unfold CircularQueue. rewrite land_pow2 by done.
    rewrite Z.mod_same by lia. cbn [Z.eqb]. eexists. split; [done|].
    split; [by refine (new_rep (FixedSupport (N := N)) junk _)|]. apply wrap_small. cbn. unfold uint. lia.
  - intros Hm. unfold DCircularQueue. destruct (Z.ltb_spec 0 m); [|lia].
    rewrite wrap_small by (unfold uint; lia). eexists. split; [done|]. split.
    + refine (new_rep {| _maxsize := m + 1 |} junk _). cbn. lia.
    + unfold capacity. cbn. rewrite wrap_small by (unfold uint; lia). lia.
Qed.

(** ** The growing queue *)

Section GrowingCorrect.
Context {T : Type} `{OperatorEq T} (junk : T) (c : bool).
Local Abbreviation dsqueue := (queue DSCircularQueueSupport T).
Implicit Types (q : dsqueue) (l : list T).

(** Either nothing is allocated yet, or the queue holds [l]. *)
Definition ds_rep q l : Prop := q = DSCircularQueue ∧ l = [] ∨ rep q l.

Lemma rep_buf_nonempty q l : rep q l → _buf q ≠ [].
Proof using.
  intros Hr E. pose proof (rep_buf _ _ Hr) as Hb. pose proof (valid_max _ (rep_valid _ _ Hr)).
  rewrite E in Hb. cbn in *. lia.
Qed.

(** Growing keeps the contents and doubles the size. *)
Lemma resize_spec q l : rep q l → max (_s q) ≤ 2 ^ 30 →
  ∃ q', resize junk c q = Ret q' ∧ rep q' l ∧ max (_s q') = 2 * max (_s q).
Proof using.
  intros Hr Hmax. pose proof (rep_valid _ _ Hr) as Hv. pose proof (valid_max _ Hv) as Hm.
  pose proof (rep_fits _ _ Hr) as Hf. cbn in Hmax, Hm, Hv, Hf. unfold resize.
  set (m := ds_maxsize (_s q)) in *. destruct (Z.eqb_spec m 0); [lia|].
  rewrite (size_spec _ _ Hr), Nat2Z.id, Z.shiftl_mul_pow2, wrap_small by (unfold uint; lia).
  replace (m * 2 ^ 1) with (2 * m) by lia.
  edestruct (for_up_ind (λ i r, ∃ mem, r = Ret mem ∧ Z.of_nat (length mem) = 2 * m ∧
    ∀ j, (j < i)%nat → mem !! j = l !! j) (length l) 0) as (mem & -> & Hlen & Hmem).
  - exists (replicate (Z.to_nat (2 * m)) junk). split_and!; [done|rewrite length_replicate; lia|lia].
  - intros i r Hi (mem & -> & Hlen & Hmem). cbn [obind].
    destruct (lookup_lt_is_Some_2 l i ltac:(lia)) as [x Hx].
    rewrite (proj1 (get_spec c q l (Z.of_nat i) Hr ltac:(lia)) x) by by rewrite Nat2Z.id.
    cbn [obind]. destruct (Nat.ltb_spec i (length mem)); [|lia].
    eexists. split_and!; [done|by rewrite length_insert|]. intros j Hj.
    destruct (decide (j = i)) as [->|]; [by rewrite list_lookup_insert_eq by lia|].
    rewrite list_lookup_insert_ne by done. apply Hmem. lia.
  - cbn [obind]. eexists. split; [done|]. split; [|done]. split; cbn.
    + destruct Hv as (k & Hk & E). exists (k + 1). fold m in E. rewrite E in Hmax.
      apply Z.pow_le_mono_r_iff in Hmax; [|lia..]. split; [lia|].
      rewrite Z.pow_add_r by lia. lia.
    + done.
    + lia.
    + by rewrite Z.mod_small by lia.
    + lia.
    + intros i x Hi. pose proof (lookup_lt_Some _ _ _ Hi). rewrite Z.mod_small, Z.add_0_l, Nat2Z.id by lia.
      by rewrite Hmem by lia.
Qed.

Lemma ds_push_back_spec q l p : ds_rep q l → Z.of_nat (length l) < 2 ^ 30 →
  ∃ q', ds_push_back junk c q p = Ret q' ∧ ds_rep q' (l ++ [p]).
Proof using.
  intros Hq Hlen. unfold ds_push_back.
  assert (∃ q1, (if needs_resize q then resize junk c q else Ret q) = Ret q1 ∧ rep q1 l ∧
    Z.of_nat (length l) < max (_s q1) - 1) as (q1 & -> & Hr1 & Hlt).
  { destruct Hq as [[-> ->]|Hr].
    - eexists. split; [done|]. split; [|cbn; lia].
      refine (new_rep {| ds_maxsize := 4 |} junk _). exists 2. split; [lia|done].
    - unfold needs_resize. pose proof (rep_buf_nonempty _ _ Hr). pose proof (rep_fits _ _ Hr).
      destruct (_buf q) as [|b buf] eqn:Eb; [done|]. rewrite (full_spec _ _ Hr).
      destruct (Z.eqb_spec (Z.of_nat (length l)) (max (_s q) - 1)).
      + destruct (resize_spec q l Hr) as (q' & E & Hr' & Hm); [lia|]. exists q'. split_and!; [done..|].
        rewrite Hm. lia.
      + exists q. split_and!; [done..|lia]. }
  cbn [obind]. destruct (push_back_spec c q1 l p Hr1 Hlt) as (q' & -> & Hr' & _).
  exists q'. split; [done|by right].
Qed.

(** ** Sequences of operations *)

Inductive op : Type :=
| Push (p : T)
| PopFront (n : nat)
| PopBack (n : nat)
| EraseMiddle (start stop : nat)
| Set_ (i : nat) (p : T)
| Clear.

Definition exec (o : op) q : outcome dsqueue :=
  match o with
  | Push p => ds_push_back junk c q p
  | PopFront n => pop_front c q (Z.of_nat n)
  | PopBack n => pop_back c q (Z.of_nat n)
  | EraseMiddle start stop => erase_middle c q (Z.of_nat start) (Z.of_nat stop)
  | Set_ i p => set c q (Z.of_nat i) p
  | Clear => Ret (clear q)
  end.
Fixpoint run (ops : list op) q : outcome dsqueue :=
  match ops with
  | [] => Ret q
  | o :: ops => let! q := exec o q in run ops q
  end.

(** The same on lists; [None] where the contents do not allow the operation. *)
Definition exec_list (o : op) l : option (list T) :=
  match o with
  | Push p => Some (l ++ [p])
  | PopFront n => guard (n ≤ length l)%nat;; Some (drop n l)
  | PopBack n => guard (n ≤ length l)%nat;; Some (take (length l - n) l)
  | EraseMiddle start stop =>
      guard (start < length l ∧ start ≤ stop ∧ stop ≤ length l)%nat;; Some (take start l ++ drop stop l)
  | Set_ i p => guard (i < length l)%nat;; Some (<[i := p]> l)
  | Clear => Some []
  end.
Fixpoint run_list (ops : list op) l : option (list T) :=
  match ops with
  | [] => Some l
  | o :: ops => l ← exec_list o l; run_list ops l
  end.

Lemma exec_spec o q l l' : ds_rep q l → Z.of_nat (length l) < 2 ^ 30 → exec_list o l = Some l' →
  (∃ q', exec o q = Ret q' ∧ ds_rep q' l') ∧ (length l' ≤ length l + 1)%nat.
Proof using.
  intros Hq Hlen E. destruct o as [p|n|n|a b|i p|]; cbn in *; simplify_option_eq.
  - split; [by apply ds_push_back_spec|]. rewrite length_app. simpl. lia.
  - split; [|rewrite length_drop; lia]. destruct Hq as [[-> ->]|Hr].
    + replace n with 0%nat by (simpl in *; lia). exists DSCircularQueue. split; [by destruct c|by left].
    + destruct (proj1 (pop_front_spec c q l (Z.of_nat n) Hr ltac:(lia)) ltac:(lia)) as (q' & ? & Hr' & _).
      rewrite Nat2Z.id in Hr'. exists q'. split; [done|by right].
  - split; [|rewrite length_take; lia]. destruct Hq as [[-> ->]|Hr].
    + replace n with 0%nat by (simpl in *; lia). exists DSCircularQueue. split; [by destruct c|by left].
    + destruct (proj1 (pop_back_spec c q l (Z.of_nat n) Hr ltac:(lia)) ltac:(lia)) as (q' & ? & Hr' & _).
      rewrite Nat2Z.id in Hr'. exists q'. split; [done|by right].
  - split; [|rewrite length_app, length_take, length_drop; lia].
    destruct Hq as [[-> ->]|Hr]; [simpl in *; lia|].
    destruct (erase_middle_spec c q l a b Hr) as (q' & ? & Hr'); [lia..|]. exists q'. split; [done|by right].
  - split; [|rewrite length_insert; lia]. destruct Hq as [[-> ->]|Hr]; [simpl in *; lia|].
    destruct (proj1 (set_spec c q l (Z.of_nat i) p Hr ltac:(lia)) ltac:(lia)) as (q' & ? & Hr' & _).
    rewrite Nat2Z.id in Hr'. exists q'. split; [done|by right].
  - split; [|simpl; lia]. exists (clear q). split; [done|]. destruct Hq as [[-> ->]|Hr]; [by left|].
    right. by eapply clear_spec.
Qed.

Lemma run_spec ops q l l' : ds_rep q l → Z.of_nat (length l + length ops) ≤ 2 ^ 30 →
  run_list ops l = Some l' → ∃ q', run ops q = Ret q' ∧ ds_rep q' l'.
Proof using.
  revert q l. induction ops as [|o ops IH]; intros q l Hq Hlen E; cbn in *.
  - injection E as <-. by exists q.
  - destruct (exec_list o l) as [l1|] eqn:E1; [|done]. cbn in E.
    destruct (exec_spec o q l l1 Hq ltac:(lia) E1) as [(q1 & -> & Hq1) Hl1]. cbn [obind].
    apply (IH q1 l1); [done|lia|done].
Qed.
End GrowingCorrect.

(** C16: any sequence of fewer than [2^30] operations on a fresh growing queue that the
    list of its elements allows succeeds, through all growth steps, and leaves
    the queue with the elements that the same sequence leaves in a list. *)
Theorem growing_queue_refines_list {T : Type} `{OperatorEq T} (junk : T) (c : bool) (ops : list op) l :
  run_list ops [] = Some l → Z.of_nat (length ops) ≤ 2 ^ 30 →
  ∃ q, run junk c ops DSCircularQueue = Ret q ∧ ds_rep q l.
Proof. intros E Hlen. apply (run_spec junk c ops _ []); [by left|done|done]. Qed.

Lemma growing_queue_refines_list_witness : ∃ q,
  run 0 true [Push 1; Push 2; PopFront 1; Push 3; Push 4; Push 5; EraseMiddle 1 3; Push 6]
    DSCircularQueue = Ret q ∧ ds_rep q [2; 5; 6].
Proof.
  apply (growing_queue_refines_list 0 true
    [Push 1; Push 2; PopFront 1; Push 3; Push 4; Push 5; EraseMiddle 1 3; Push 6] [2; 5; 6]).
  - reflexivity.
  - vm_compute. discriminate.
Defined.
