(* ===== verification/UadlResources.v ===== *)
(** * Resources of the performance model

    The clock ([src/uadl/Timer.h]), the bandwidth counter
    ([src/uadl/BandwidthControl.C]), the loggers ([src/uadl/Logger.C]), the
    queue in which a core remembers who took what ([src/uadl/LogQueue.h]) and
    the semaphores and flags that instructions acquire and release
    ([src/uadl/Semaphore.C], [src/uadl/Flag.C]).

    Times are [uint64_t], counts are [unsigned].  A pointer to a resource is its
    address, a [Z]; a null [Logger *] is [None].  Of the core ([UadlArch]) the
    model keeps what the resources use: the clock, the log queue and the counter
    of register stalls. *)
From stdpp Require Import prelude strings list sorting.
From Stdlib Require Import ZArith Lia.
From S2P Require Import Prelude.
From S2P Require Import WordIO.

Local Open Scope Z_scope.

(** ** Time *)

Module Counter.
Definition isGreater (newCount oldCount : Z) : bool := oldCount <? newCount.
Definition isLesser (newCount oldCount : Z) : bool := isGreater oldCount newCount.
Definition isGreaterOrEqual (newCount oldCount : Z) : bool := oldCount <=? newCount.
Definition isLesserOrEqual (newCount oldCount : Z) : bool := isGreaterOrEqual oldCount newCount.
End Counter.

Module Timer.
Record Timer : Type := { _time : Z; _invalidTime : Z }.
Definition init (startTime : Z) : Timer :=
  {| _time := startTime; _invalidTime := wrap 64 (startTime - 1) |}.
Definition currTime (t : Timer) : Z := _time t.
Definition invalidTime (t : Timer) : Z := _invalidTime t.
Definition isNewTime (newTime oldTime : Z) : bool := Counter.isGreater newTime oldTime.
Definition isOldTime (oldTime newTime : Z) : bool := Counter.isLesser oldTime newTime.
Definition isNewOrSameTime (newTime oldTime : Z) : bool := Counter.isGreaterOrEqual newTime oldTime.
Definition isOldOrSameTime (oldTime newTime : Z) : bool := Counter.isLesserOrEqual oldTime newTime.
Definition timePassed (t : Timer) (time : Z) : bool := isNewTime (currTime t) time.
Definition timeAtOrPassed (t : Timer) (time : Z) : bool := isNewOrSameTime (currTime t) time.
Definition incrTime (t : Timer) (step : Z) : Timer :=
  {| _time := wrap 64 (_time t + step); _invalidTime := _invalidTime t |}.
Definition setTime (t : Timer) (new_time : Z) : Timer :=
  {| _time := new_time; _invalidTime := _invalidTime t |}.
End Timer.

Module BandwidthControl.
Record BandwidthControl : Type := { _bandwidth : Z; _consumed : Z; _lastConsumeTime : Z }.
Definition init (bandwidth : Z) : BandwidthControl :=
  {| _bandwidth := bandwidth; _consumed := 0; _lastConsumeTime := 0 |}.
Definition setBandwidth (b : BandwidthControl) (bw : Z) : BandwidthControl :=
  {| _bandwidth := bw; _consumed := _consumed b; _lastConsumeTime := _lastConsumeTime b |}.
Definition hasBandwidth (b : BandwidthControl) (currTime : Z) : bool :=
  (_bandwidth b =? 0) || negb (currTime =? _lastConsumeTime b) || (_consumed b <? _bandwidth b).
Definition consumeBandwidth (b : BandwidthControl) (currTime : Z) : bool * BandwidthControl :=
  if _bandwidth b =? 0 then (true, b)
  else if negb (currTime =? _lastConsumeTime b) then
    (true, {| _bandwidth := _bandwidth b; _consumed := 1; _lastConsumeTime := currTime |})
  else if _consumed b <? _bandwidth b then
    (true, {| _bandwidth := _bandwidth b; _consumed := wrap 32 (_consumed b + 1);
              _lastConsumeTime := _lastConsumeTime b |})
  else (false, b).
(** The answers to a sequence of requests, with the time of each. *)
Fixpoint consume_all (b : BandwidthControl) (ts : list Z) : list (Z * bool) :=
  match ts with
  | [] => []
  | t :: ts => let '(ok, b) := consumeBandwidth b t in (t, ok) :: consume_all b ts
  end.
End BandwidthControl.

(** ** Logging *)

(** [o << n] on a stream in decimal and in hexadecimal. *)
Definition to_dec (n : Z) : string := String.string_of_list_ascii (num_text false 10 n).
Definition to_hex (n : Z) : string := String.string_of_list_ascii (num_text false 16 n).

Module Logger.
(** A client is an interface of the application; the calls it gets. *)
Inductive event : Type := Stall (msg : string) | Flush (msg : string).
Record Logger : Type := {
  _name : string;
  _log : list string;
  _logclient : option (list event);
  _tflags : Z
}.
Definition init (name : string) (lc : option (list event)) (tflags : Z) : Logger :=
  {| _name := name; _log := []; _logclient := lc; _tflags := tflags |}.
Definition LogAll : Z := 1.
Definition logAll (l : Logger) : bool := negb (Z.lor (_tflags l) LogAll =? 0).
Definition hasLog (l : Logger) : bool := match _log l with [] => false | _ => true end.
Definition clear (l : Logger) : Logger :=
  {| _name := _name l; _log := []; _logclient := _logclient l; _tflags := _tflags l |}.
Definition push (l : Logger) (msg : string) : Logger :=
  {| _name := _name l; _log := _log l ++ [msg]; _logclient := _logclient l; _tflags := _tflags l |}.
Definition call_client (l : Logger) (e : event) : Logger :=
  {| _name := _name l; _log := _log l; _logclient := (λ es, es ++ [e]) <$> _logclient l;
     _tflags := _tflags l |}.
Definition logMessage (l : Logger) (msg : string) : Logger :=
  if logAll l then push l msg else l.
Definition logStall (l : Logger) (msg : string) : Logger :=
  let l := call_client l (Stall msg) in
  if logAll l then push l ("stall: " +:+ msg) else l.
Definition logFlush (l : Logger) (msg : string) : Logger :=
  let l := call_client l (Flush msg) in
  if logAll l then push l ("flush: " +:+ msg) else l.
End Logger.
Export Logger(Logger).

(** The items that the resources put into the log queue: the address of the
    resource, the change (as an [unsigned]) or the register's mask, and the
    instruction. *)
Inductive LogQueueItem : Type :=
| SemaLogItem (s : Z) (count : Z) (id : Z)
| FlagLogItem (f : Z) (count : Z) (id : Z)
| RegLogItem (reg : Z) (index : Z) (mask : Z) (id : Z).
#[export] Instance LogQueueItem_eq_dec : EqDecision LogQueueItem.
Proof. solve_decision. Defined.

Module LogQueue.
(** The base class, a [std::list] with the newest item first, and the members. *)
Record LogQueue : Type := { items : list LogQueueItem; _size : Z; _maxsize : Z }.
Definition init (maxsize : Z) : LogQueue := {| items := []; _size := 0; _maxsize := maxsize |}.
Definition add (q : LogQueue) (item : LogQueueItem) : LogQueue :=
  let l := item :: items q in
  let size := wrap 32 (_size q + 1) in
  if _maxsize q <? size
  then {| items := removelast l; _size := wrap 32 (size - 1); _maxsize := _maxsize q |}
  else {| items := l; _size := size; _maxsize := _maxsize q |}.
Definition reset (q : LogQueue) : LogQueue :=
  {| items := []; _size := _size q; _maxsize := _maxsize q |}.
End LogQueue.
Export LogQueue(LogQueue).

Module UadlArch.
Record UadlArch : Type := { _timer : Timer.Timer; _log_queue : LogQueue; _regStalls : Z }.
Definition currTime (u : UadlArch) : Z := Timer.currTime (_timer u).
Definition log_queue (u : UadlArch) : LogQueue := _log_queue u.
Definition set_log_queue (u : UadlArch) (q : LogQueue) : UadlArch :=
  {| _timer := _timer u; _log_queue := q; _regStalls := _regStalls u |}.
Definition incrRegStalls (u : UadlArch) : UadlArch :=
  {| _timer := _timer u; _log_queue := _log_queue u; _regStalls := wrap 32 (_regStalls u + 1) |}.
Definition reset (u : UadlArch) : UadlArch :=
  {| _timer := _timer u; _log_queue := LogQueue.reset (_log_queue u); _regStalls := 0 |}.
(** [uarch.log_queue().add(item)] *)
Definition add_log (u : UadlArch) (item : LogQueueItem) : UadlArch :=
  set_log_queue u (LogQueue.add (_log_queue u) item).
Definition incrTime (u : UadlArch) (step : Z) : UadlArch :=
  {| _timer := Timer.incrTime (_timer u) step; _log_queue := _log_queue u; _regStalls := _regStalls u |}.
End UadlArch.
Export UadlArch(UadlArch).

(** The first item, from the newest, that satisfies a test. *)
Definition find_item {A} (test : LogQueueItem → option A) (q : LogQueue) : option A :=
  head (omap test (LogQueue.items q)).

(** ** Semaphores *)

Module Semaphore.
Record Semaphore : Type := { addr : Z; _name : string; _max : Z; _count : Z }.
Definition init (this : Z) (n : string) (max : Z) : Semaphore :=
  {| addr := this; _name := n; _max := max; _count := 0 |}.
Definition set_count (s : Semaphore) (c : Z) : Semaphore :=
  {| addr := addr s; _name := _name s; _max := _max s; _count := c |}.
Definition reset (s : Semaphore) : Semaphore := set_count s 0.
Definition count (s : Semaphore) : Z := _count s.
Definition check_allocate (s : Semaphore) : bool := _count s <? _max s.

(** [SemaLogItem::matching_alloc] on an item of that type: the instruction. *)
Definition matching_alloc (s : Semaphore) (item : LogQueueItem) : option Z :=
  match item with
  | SemaLogItem a c id => if (addr s =? a) && (0 <? c) then Some id else None
  | _ => None
  end.
Definition holder (s : Semaphore) (u : UadlArch) : option Z :=
  find_item (matching_alloc s) (UadlArch.log_queue u).
Definition log_acquire_fail (s : Semaphore) (u : UadlArch) (logger : Logger) : Logger :=
  let ss := "cannot acquire semaphore " +:+ _name s in
  Logger.logStall logger
    match holder s u with
    | Some id => ss +:+ " (count: " +:+ to_dec (_count s) +:+ ", holder: iid=" +:+ to_dec id +:+ ")"
    | None => ss
    end.
(** [count] is an [int] that the item's constructor takes as an [unsigned]. *)
Definition log_action (s : Semaphore) (u : UadlArch) (logger : Logger) (msg : string)
    (cur_count count id : Z) : UadlArch * Logger :=
  (UadlArch.add_log u (SemaLogItem (addr s) (wrap 32 count) id),
   Logger.logMessage logger (msg +:+ _name s +:+ " (count: " +:+ to_dec cur_count +:+ ")")).
(** [if (logger) log_action(...)] *)
Definition log_if (s : Semaphore) (u : UadlArch) (logger : option Logger) (msg : string)
    (cur_count count id : Z) : UadlArch * option Logger :=
  match logger with
  | Some l => let '(u, l) := log_action s u l msg cur_count count id in (u, Some l)
  | None => (u, None)
  end.

Definition can_allocate (s : Semaphore) (u : UadlArch) (logger : option Logger) : bool * option Logger :=
  let ok := check_allocate s in
  (ok, if ok then logger else log_acquire_fail s u <$> logger).
Definition allocate (s : Semaphore) (u : UadlArch) (iid : Z) (logger : option Logger) :
    Semaphore * (UadlArch * option Logger) :=
  let s := set_count s (wrap 32 (_count s + 1)) in
  (s, log_if s u logger "acquire " (_count s) 1 iid).
Definition deallocate (s : Semaphore) (u : UadlArch) (iid : Z) (logger : option Logger) :
    Semaphore * (UadlArch * option Logger) :=
  let s := if _count s =? 0 then s else set_count s (wrap 32 (_count s - 1)) in
  (s, log_if s u logger "release " (_count s) (-1) iid).
Definition clear (s : Semaphore) (u : UadlArch) (iid : Z) (logger : option Logger) :
    Semaphore * (UadlArch * option Logger) :=
  (set_count s 0, log_if s u logger "clear " 0 (- _count s) iid).
End Semaphore.
Export Semaphore(Semaphore).

(** ** Flags *)

Module Flag.
Record Flag : Type := { addr : Z; _name : string; _time : Z }.
Definition init (this : Z) (n : string) : Flag := {| addr := this; _name := n; _time := 0 |}.
Definition set_time (f : Flag) (t : Z) : Flag := {| addr := addr f; _name := _name f; _time := t |}.
Definition reset (f : Flag) : Flag := set_time f 0.
(** [std::numeric_limits<ttime_t>::max()] *)
Definition max_time : Z := 2 ^ 64 - 1.
Definition check_allocate (f : Flag) (u : UadlArch) : bool := _time f <=? UadlArch.currTime u.
Definition matching_alloc (f : Flag) (item : LogQueueItem) : option Z :=
  match item with
  | FlagLogItem a c id => if (addr f =? a) && (0 <? c) then Some id else None
  | _ => None
  end.
Definition holder (f : Flag) (u : UadlArch) : option Z :=
  find_item (matching_alloc f) (UadlArch.log_queue u).
Definition log_acquire_fail (f : Flag) (u : UadlArch) (logger : Logger) : Logger :=
  let ss := "cannot acquire flag " +:+ _name f in
  Logger.logStall logger
    match holder f u with
    | Some id =>
        ss +:+ " (holder:  iid=" +:+ to_dec id +:+
        (if _time f =? max_time then "" else ", available at time " +:+ to_dec (_time f)) +:+ ")"
    | None => ss
    end.
Definition log_action (f : Flag) (u : UadlArch) (logger : Logger) (msg : string) (count id : Z) :
    UadlArch * Logger :=
  (UadlArch.add_log u (FlagLogItem (addr f) (wrap 32 count) id), Logger.logMessage logger (msg +:+ _name f)).
Definition log_if (f : Flag) (u : UadlArch) (logger : option Logger) (msg : string) (count id : Z) :
    UadlArch * option Logger :=
  match logger with
  | Some l => let '(u, l) := log_action f u l msg count id in (u, Some l)
  | None => (u, None)
  end.
Definition can_allocate (f : Flag) (u : UadlArch) (logger : option Logger) : bool * option Logger :=
  let ok := check_allocate f u in
  (ok, if ok then logger else log_acquire_fail f u <$> logger).
Definition allocate (f : Flag) (u : UadlArch) (iid : Z) (logger : option Logger) :
    Flag * (UadlArch * option Logger) :=
  let f := set_time f max_time in
  (f, log_if f u logger "acquire " 1 iid).
(** [delay] is an [int], zero by default. *)
Definition deallocate (f : Flag) (u : UadlArch) (iid : Z) (logger : option Logger) (delay : Z) :
    Flag * (UadlArch * option Logger) :=
  let f := set_time f (wrap 64 (UadlArch.currTime u + delay)) in
  (f, log_if f u logger "release " (-1) iid).
End Flag.
Export Flag(Flag).

(** ** The clock *)

(** Time that has wrapped around does not count as passed, whatever the note at
    the top of [Timer.h] says: a step of one from the largest time leads to a
    time that is not new. *)
Lemma timer_ignores_overflow (t : Timer.Timer) : Timer._time t = 2 ^ 64 - 1 →
  Timer.isNewTime (Timer.currTime (Timer.incrTime t 1)) (Timer.currTime t) = false.
Proof. intros E. unfold Timer.isNewTime, Timer.currTime. cbn. by rewrite E. Qed.

(** ** The log queue holds the newest items *)

(** [lost] counts the items that a reset dropped without giving their room
    back; [h] lists the items added since, newest first. *)
Record lq_rep (q : LogQueue) (lost : nat) (h : list LogQueueItem) : Prop := {
  lq_items : LogQueue.items q = take (Z.to_nat (LogQueue._maxsize q) - lost) h;
  lq_size : LogQueue._size q = Z.of_nat (lost + length (LogQueue.items q));
  lq_lost : Z.of_nat lost ≤ LogQueue._maxsize q;
  lq_max : LogQueue._maxsize q < 2 ^ 32 - 1
}.

Lemma lq_rep_init max : 0 ≤ max < 2 ^ 32 - 1 → lq_rep (LogQueue.init max) 0 [].
Proof. intros. split; cbn; [by rewrite take_nil|lia..]. Qed.

Lemma removelast_take {A} (l : list A) : removelast l = take (length l - 1) l.
Proof.
  induction l as [|x [|y l] IH]; [done..|]. cbn in *. rewrite IH. f_equal.
  by rewrite Nat.sub_0_r.
Qed.

Lemma lq_rep_add q lost h i : lq_rep q lost h → lq_rep (LogQueue.add q i) lost (i :: h).
Proof.
  intros [Hi Hs Hl Hm]. remember (Z.to_nat (LogQueue._maxsize q) - lost)%nat as room eqn:Hroom.
  assert (length (LogQueue.items q) = room `min` length h)%nat as Hlen by (rewrite Hi, length_take; lia).
  unfold LogQueue.add. rewrite (wrap_small 32 (_ + 1)) by (unfold uint; lia).
  rewrite Hs, Hlen. destruct (Z.ltb_spec (LogQueue._maxsize q) (Z.of_nat (lost + room `min` length h) + 1)).
  - rewrite removelast_take. assert (room ≤ length h)%nat by lia.
    split; cbn [LogQueue.items LogQueue._size LogQueue._maxsize]; [| |done..].
    + rewrite <- Hroom. cbn [length]. rewrite Hlen, Hi. replace (S (room `min` length h) - 1)%nat with room by lia.
      destruct room as [|r]; [done|]. cbn. f_equal. rewrite take_take. f_equal. lia.
    + rewrite wrap_small by (unfold uint; lia). rewrite length_take. cbn [length]. lia.
  - split; cbn [LogQueue.items LogQueue._size LogQueue._maxsize]; [| |done..].
    + rewrite <- Hroom, Hi. destruct room as [|r]; [lia|]. cbn. f_equal. rewrite !take_ge by lia. done.
    + cbn [length]. rewrite Hlen. lia.
Qed.

Lemma lq_rep_adds q lost h l : lq_rep q lost h → lq_rep (foldl LogQueue.add q l) lost (reverse l ++ h).
Proof.
  revert q h. induction l as [|i l IH]; intros q h Hq; [done|]. cbn [foldl].
  rewrite reverse_cons, <- (assoc_L (++)). apply IH, lq_rep_add, Hq.
Qed.

Lemma lq_rep_reset q lost h : lq_rep q lost h →
  lq_rep (LogQueue.reset q) (lost + length (LogQueue.items q)) [].
Proof.
  intros [Hi Hs Hl Hm]. split; cbn; [by rewrite take_nil|lia| |done].
  assert (length (LogQueue.items q) ≤ Z.to_nat (LogQueue._maxsize q) - lost)%nat
    by (rewrite Hi, length_take; lia). lia.
Qed.

Lemma lq_maxsize_adds q l : LogQueue._maxsize (foldl LogQueue.add q l) = LogQueue._maxsize q.
Proof.
  revert q. induction l as [|i l IH]; intros q; cbn; [done|]. rewrite IH. unfold LogQueue.add.
  by case_match.
Qed.

(** A log queue of maximum size [max] holds the newest [max] items that were
    added to it, newest first.  A reset empties it but keeps the count of its
    items, so that afterwards it only holds as many as the room that was left
    before: none at all when it was full. *)
Theorem log_queue_contents (max : Z) (l1 l2 : list LogQueueItem) :
  0 ≤ max < 2 ^ 32 - 1 →
  let q1 := foldl LogQueue.add (LogQueue.init max) l1 in
  let q2 := foldl LogQueue.add (LogQueue.reset q1) l2 in
  LogQueue.items q1 = take (Z.to_nat max) (reverse l1) ∧
  LogQueue.items (LogQueue.reset q1) = [] ∧
  LogQueue.items q2 = take (Z.to_nat max - length l1) (reverse l2).
Proof.
  intros Hm q1 q2. pose proof (lq_rep_adds _ _ _ l1 (lq_rep_init max Hm)) as H1. fold q1 in H1.
  assert (LogQueue._maxsize q1 = max) as Hq1 by apply lq_maxsize_adds.
  pose proof (lq_items _ _ _ H1) as Hi. rewrite Hq1, Nat.sub_0_r, app_nil_r in Hi.
  pose proof (lq_rep_adds _ _ _ l2 (lq_rep_reset _ _ _ H1)) as H2. fold q2 in H2.
  apply lq_items in H2. rewrite app_nil_r in H2.
  assert (LogQueue._maxsize q2 = max) as Hq2 by (unfold q2; by rewrite lq_maxsize_adds).
  rewrite Hq2, Hi, length_take, length_reverse in H2.
  split_and!; [done..|]. rewrite H2. 
  destruct (decide (length l1 ≤ Z.to_nat max)%nat); f_equal; lia.
Qed.

Lemma log_queue_contents_witness :
  let q1 := foldl LogQueue.add (LogQueue.init 2) [SemaLogItem 1 1 7; SemaLogItem 1 1 8; SemaLogItem 1 1 9] in
  LogQueue.items q1 = [SemaLogItem 1 1 9; SemaLogItem 1 1 8] ∧
  LogQueue.items (LogQueue.add (LogQueue.reset q1) (SemaLogItem 1 1 10)) = [].
Proof.
  destruct (log_queue_contents 2 [SemaLogItem 1 1 7; SemaLogItem 1 1 8; SemaLogItem 1 1 9]
    [SemaLogItem 1 1 10]) as (H1 & _ & H3); [lia|]. split; [exact H1|exact H3].
Defined.

(** ** Bandwidth *)

Lemma filter_none {A} (P : A → Prop) `{∀ x, Decision (P x)} l :
  Forall (λ x, ¬ P x) l → filter P l = [].
Proof. induction 1; [done|]. by rewrite filter_cons_False. Qed.

Section Bandwidth.
Import BandwidthControl.
Context (bw : Z) (Hbw : 0 < bw < 2 ^ 32).

(** The requests for time [t], and those that were granted. *)
Definition requests (t : Z) (ts : list Z) : nat := length (filter (λ t', t' = t) ts).
Definition granted (t : Z) (rs : list (Z * bool)) : nat := length (filter (λ r, r = (t, true)) rs).

Lemma hasBandwidth_spec b t : hasBandwidth b t = fst (consumeBandwidth b t).
Proof. unfold hasBandwidth, consumeBandwidth. by repeat case_match. Qed.

Lemma consume_all_spec b ts t :
  _bandwidth b = bw → 0 ≤ _consumed b ≤ bw →
  StronglySorted Z.le ts → Forall (Z.le (_lastConsumeTime b)) ts →
  Z.of_nat (granted t (consume_all b ts)) =
  Z.min (if t =? _lastConsumeTime b then bw - _consumed b else bw) (Z.of_nat (requests t ts)).
Proof.
  unfold granted, requests. intros Hb Hc Hs. revert b Hb Hc.
  induction Hs as [|u ts Hs IH Hu]; intros b Hb Hc Hlast; [cbn; case_match; lia|].
  apply Forall_cons in Hlast as [Hlu Hlast]. cbn [consume_all]. unfold consumeBandwidth.
  rewrite Hb, (proj2 (Z.eqb_neq bw 0)) by lia.
  destruct (Z.eqb_spec u (_lastConsumeTime b)) as [->|Hne]; cbn [negb].
  - destruct (Z.ltb_spec (_consumed b) bw).
    + rewrite (wrap_small 32 (_ + 1)) by (unfold uint; lia). rewrite !filter_cons.
      pose proof (IH {| _bandwidth := bw; _consumed := _consumed b + 1;
        _lastConsumeTime := _lastConsumeTime b |} eq_refl ltac:(cbn; lia) Hlast) as IH'.
      cbn in IH'. destruct (Z.eqb_spec t (_lastConsumeTime b)) as [->|];
        repeat case_decide; simplify_eq; cbn [length]; lia.
    + rewrite !filter_cons. pose proof (IH b Hb Hc Hlast) as IH'.
      destruct (Z.eqb_spec t (_lastConsumeTime b)) as [->|];
        repeat case_decide; simplify_eq; cbn [length]; lia.
  - rewrite !filter_cons. 
    pose proof (IH {| _bandwidth := bw; _consumed := 1; _lastConsumeTime := u |} eq_refl
      ltac:(cbn; lia) Hu) as IH'. cbn in IH'.
    assert (t = _lastConsumeTime b → filter (λ t', t' = t) ts = []) as Hnone.
    { intros ->. apply filter_none. eapply Forall_impl; [exact Hu|]. cbn. lia. }
    destruct (Z.eqb_spec t u) as [->|].
    + rewrite (proj2 (Z.eqb_neq u (_lastConsumeTime b))) by done.
      repeat case_decide; simplify_eq; cbn [length]; lia.
    + rewrite !decide_False by congruence.
      destruct (Z.eqb_spec t (_lastConsumeTime b)) as [->|]; [|lia].
      rewrite Hnone in * by done. cbn [length] in *. lia.
Qed.
End Bandwidth.

(** Of requests in the order of time, a control with a bandwidth of [bw > 0]
    grants, for every point in time, all of them up to [bw] and no more; with a
    bandwidth of zero it grants all.  [hasBandwidth] tells beforehand what
    [consumeBandwidth] will answer. *)
Theorem bandwidth_limit (bw t : Z) (ts : list Z) (b : BandwidthControl.BandwidthControl) :
  0 ≤ bw < 2 ^ 32 → StronglySorted Z.le ts → Forall (Z.le 0) ts →
  Z.of_nat (granted t (BandwidthControl.consume_all (BandwidthControl.init bw) ts)) =
    (if bw =? 0 then Z.of_nat (requests t ts) else Z.min bw (Z.of_nat (requests t ts))) ∧
  BandwidthControl.hasBandwidth b t = fst (BandwidthControl.consumeBandwidth b t).
Proof.
  intros Hbw Hs H0. split; [|apply hasBandwidth_spec]. destruct (Z.eqb_spec bw 0) as [->|Hne].
  - clear. induction ts as [|u ts IH]; [done|]. unfold granted, requests in *.
    change (BandwidthControl.consume_all (BandwidthControl.init 0) (u :: ts)) with
      ((u, true) :: BandwidthControl.consume_all (BandwidthControl.init 0) ts). rewrite !filter_cons.
    repeat case_decide; simplify_eq; cbn [length]; lia.
  - rewrite (consume_all_spec bw) by (done || cbn; lia). cbn. case_match; lia.
Qed.

Lemma bandwidth_limit_witness :
  Z.of_nat (granted 5 (BandwidthControl.consume_all (BandwidthControl.init 2) [0; 5; 5; 5; 6])) = 2.
Proof.
  rewrite (proj1 (bandwidth_limit 2 5 [0; 5; 5; 5; 6] (BandwidthControl.init 2) ltac:(lia)
    ltac:(repeat constructor; lia) ltac:(repeat constructor; lia))).
  reflexivity.
Defined.


(** ** Semaphores, used as the stages use them *)

(** What happens around a semaphore: an instruction asks for it, and takes it if
    it may; releases; clears; the semaphore or the core is reset; another
    resource logs an item; time passes. *)
Inductive sema_op : Type :=
| Acquire (iid : Z) | Release (iid : Z) | Clear (iid : Z) | SemaReset
| OtherItem (i : LogQueueItem) | ArchReset | Tick (step : Z).

Record sema_state : Type := { sema : Semaphore; arch : UadlArch; logger : option Logger }.
Definition sema_result (r : Semaphore * (UadlArch * option Logger)) : sema_state :=
  {| sema := fst r; arch := fst (snd r); logger := snd (snd r) |}.
Definition sema_exec (x : sema_state) (o : sema_op) : sema_state :=
  match o with
  | Acquire iid =>
      let '(ok, l) := Semaphore.can_allocate (sema x) (arch x) (logger x) in
      if ok then sema_result (Semaphore.allocate (sema x) (arch x) iid l)
      else {| sema := sema x; arch := arch x; logger := l |}
  | Release iid => sema_result (Semaphore.deallocate (sema x) (arch x) iid (logger x))
  | Clear iid => sema_result (Semaphore.clear (sema x) (arch x) iid (logger x))
  | SemaReset => {| sema := Semaphore.reset (sema x); arch := arch x; logger := logger x |}
  | OtherItem i => {| sema := sema x; arch := UadlArch.add_log (arch x) i; logger := logger x |}
  | ArchReset => {| sema := sema x; arch := UadlArch.reset (arch x); logger := logger x |}
  | Tick step => {| sema := sema x; arch := UadlArch.incrTime (arch x) step; logger := logger x |}
  end.

(** The abstract semaphore: how many units are out; when the last change was an
    acquisition, who made it; how many items were logged after it; and whether
    the core has never been reset. *)
Record sema_spec : Type := { out : nat; last : option Z; later : nat; fresh : bool }.
Definition spec_exec (max : Z) (a : sema_spec) (o : sema_op) : sema_spec :=
  match o with
  | Acquire iid =>
      if Z.of_nat (out a) <? max
      then {| out := S (out a); last := Some iid; later := 0; fresh := fresh a |} else a
  | Release _ => {| out := pred (out a); last := None; later := 0; fresh := fresh a |}
  | Clear _ | SemaReset => {| out := 0; last := None; later := 0; fresh := fresh a |}
  | OtherItem _ => {| out := out a; last := last a; later := S (later a); fresh := fresh a |}
  | ArchReset => {| out := out a; last := last a; later := later a; fresh := false |}
  | Tick _ => a
  end.

(** The items of other resources are not for this address. *)
Definition foreign (a : Z) (o : sema_op) : Prop :=
  match o with OtherItem (SemaLogItem a' _ _) => a' ≠ a | _ => True end.

Definition item_addr (i : LogQueueItem) : option Z :=
  match i with SemaLogItem a _ _ => Some a | _ => None end.

Section SemaphoreRun.
Context (a max : Z).

(** The newest item of the semaphore in the log is the last acquisition, and it
    is where the later items put it. *)
Definition newest (lost : nat) (h : list LogQueueItem) (sp : sema_spec) : Prop :=
  ∀ id, last sp = Some id →
  (∀ i, head (filter (λ i, item_addr i = Some a) h) = Some i → i = SemaLogItem a 1 id) ∧
  (fresh sp = true → h !! later sp = Some (SemaLogItem a 1 id)).

Record sema_rel (x : sema_state) (sp : sema_spec) : Prop := {
  sr_addr : Semaphore.addr (sema x) = a;
  sr_max : Semaphore._max (sema x) = max;
  sr_count : Semaphore._count (sema x) = Z.of_nat (out sp);
  sr_bound : Z.of_nat (out sp) ≤ max;
  sr_last : last sp = None → Z.of_nat (out sp) < max;
  sr_logger : is_Some (logger x);
  sr_log : ∃ lost h, lq_rep (UadlArch.log_queue (arch x)) lost h ∧ newest lost h sp ∧
           (fresh sp = true → lost = 0%nat)
}.

Lemma newest_none lost h sp : last sp = None → newest lost h sp.
Proof. intros H id ?. congruence. Qed.
Lemma newest_own lost h id sp : last sp = Some id → later sp = 0%nat →
  newest lost (SemaLogItem a 1 id :: h) sp.
Proof.
  intros Hl H0 id' Hl'. simplify_eq. rewrite H0, filter_cons_True by done. split; [|done].
  cbn. congruence.
Qed.
Lemma newest_foreign lost h i sp sp' : item_addr i ≠ Some a → newest lost h sp →
  last sp' = last sp → later sp' = S (later sp) → fresh sp' = fresh sp → newest lost (i :: h) sp'.
Proof.
  intros Hi Hn Hl Ht Hfr id Hid. rewrite Hl in Hid. destruct (Hn id Hid) as [H1 H2].
  rewrite filter_cons_False, Ht, Hfr by done. done.
Qed.

Lemma sema_exec_rel x sp o : 0 < max < 2 ^ 32 → sema_rel x sp → foreign a o →
  sema_rel (sema_exec x o) (spec_exec max sp o).
Proof.
  intros Hmax [Ha Hm Hc Hb Hl [l Hlg] (lost & h & Hq & Hn & H0)] Hf. destruct x as [s u lg]. cbn in *. subst lg.
  destruct o as [iid|iid|iid| |i| |step]; cbn.
  - unfold Semaphore.check_allocate. rewrite Hm, Hc.
    destruct (Z.ltb_spec (Z.of_nat (out sp)) max).
    + split; cbn; try done.
      * rewrite Hc, wrap_small by (unfold uint; lia). lia.
      * lia.
      * exists lost, (SemaLogItem a 1 iid :: h).
        split; [rewrite Ha; by apply lq_rep_add|split; [by apply newest_own|done]].
    + split; cbn; try done. by exists lost, h.
  - unfold Semaphore.deallocate. rewrite Hc. destruct (Z.eqb_spec (Z.of_nat (out sp)) 0).
    + split; cbn; try done; [lia..|]. eexists lost, _. split; [by apply lq_rep_add|split; [by apply newest_none|done]].
    + split; cbn; try done; [rewrite wrap_small by (unfold uint; lia); lia|lia..|].
      eexists lost, _. split; [by apply lq_rep_add|split; [by apply newest_none|done]].
  - split; cbn; try done; [lia..|]. eexists lost, _. split; [by apply lq_rep_add|split; [by apply newest_none|done]].
  - split; cbn; try done; [lia..|]. exists lost, h. split; [done|split; [by apply newest_none|done]].
  - split; cbn; try done. eexists lost, _. split; [by apply lq_rep_add|split; [|done]].
    eapply newest_foreign; try done. destruct i; cbn in *; congruence.
  - split; cbn; try done. eexists _, []. split; [by eapply lq_rep_reset|]. by split.
  - split; cbn; try done. by exists lost, h.
Qed.

Lemma sema_run_rel x sp ops : 0 < max < 2 ^ 32 → sema_rel x sp → Forall (foreign a) ops →
  sema_rel (foldl sema_exec x ops) (foldl (spec_exec max) sp ops).
Proof.
  intros Hmax Hx Hf. revert x sp Hx. induction Hf as [|o ops Ho Hf IH]; intros x sp Hx; [done|].
  apply IH. by apply sema_exec_rel.
Qed.

(** The first item that matches is the first of the semaphore, if that one
    records an acquisition. *)
Lemma head_matching s h n id : Semaphore.addr s = a →
  (∀ i, head (filter (λ i, item_addr i = Some a) h) = Some i → i = SemaLogItem a 1 id) →
  let r := head (omap (Semaphore.matching_alloc s) (take n h)) in
  (r = None ∨ r = Some id) ∧ (∀ k, (k < n)%nat → h !! k = Some (SemaLogItem a 1 id) → r = Some id).
Proof.
  intros Ha. revert n. induction h as [|i h IH]; intros [|n] Hn; cbn.
  1-3: by (split; [left|intros k ? Hk; destruct k; (lia || done)]).
  destruct (decide (item_addr i = Some a)) as [Hi|Hi].
  - rewrite filter_cons_True in Hn by done. rewrite (Hn i eq_refl). cbn.
    rewrite Ha, Z.eqb_refl. cbn. split; [by right|done].
  - rewrite filter_cons_False in Hn by done. assert (Semaphore.matching_alloc s i = None) as ->.
    { destruct i as [b c j| |]; cbn in *; try done. rewrite Ha.
      destruct (Z.eqb_spec a b); [congruence|done]. }
    destruct (IH n Hn) as [IH1 IH2]. split; [done|]. intros [|k] Hk Hi'; [|apply (IH2 k); [lia|done]].
    cbn in Hi'. by simplify_eq.
Qed.

Lemma sema_exec_maxsize x o : LogQueue._maxsize (UadlArch.log_queue (arch (sema_exec x o))) =
  LogQueue._maxsize (UadlArch.log_queue (arch x)).
Proof.
  destruct x as [s u [l|]], o; cbn; try destruct (Semaphore.check_allocate s); cbn;
    unfold LogQueue.add; by repeat (case_match; cbn).
Qed.
Lemma sema_run_maxsize x ops : LogQueue._maxsize (UadlArch.log_queue (arch (foldl sema_exec x ops))) =
  LogQueue._maxsize (UadlArch.log_queue (arch x)).
Proof. revert x. induction ops as [|o ops IH]; intros x; [done|]. cbn. by rewrite IH, sema_exec_maxsize. Qed.
End SemaphoreRun.

Definition sema_start (this : Z) (n : string) (max maxsize : Z) (t : Timer.Timer) (lg : Logger) : sema_state :=
  {| sema := Semaphore.init this n max;
     arch := {| UadlArch._timer := t; UadlArch._log_queue := LogQueue.init maxsize; UadlArch._regStalls := 0 |};
     logger := Some lg |}.
Definition sema_spec_start : sema_spec := {| out := 0; last := None; later := 0; fresh := true |}.

(** C23: whatever instructions acquire (after asking, as the stages do), release
    and clear, and whatever else the core logs in between, a semaphore of
    maximum [max] counts the units that are out, never more than [max], and
    refuses exactly when all are out.  The holder that the stall message then
    names, if it names one, is the instruction that made the last acquisition,
    and it names it unless the core was reset or the log has since been filled
    by other items. *)
Theorem semaphore_run (this max maxsize : Z) (n : string) (t : Timer.Timer) (lg : Logger) (ops : list sema_op) :
  0 < max < 2 ^ 32 → 0 ≤ maxsize < 2 ^ 32 - 1 → Forall (foreign this) ops →
  let x := foldl sema_exec (sema_start this n max maxsize t lg) ops in
  let sp := foldl (spec_exec max) sema_spec_start ops in
  Semaphore.count (sema x) = Z.of_nat (out sp) ∧ Z.of_nat (out sp) ≤ max ∧
  (Semaphore.check_allocate (sema x) = false ↔ Z.of_nat (out sp) = max) ∧
  (Semaphore.check_allocate (sema x) = false → ∃ id, last sp = Some id ∧
     (Semaphore.holder (sema x) (arch x) = None ∨ Semaphore.holder (sema x) (arch x) = Some id) ∧
     (fresh sp = true → Z.of_nat (later sp) < maxsize → Semaphore.holder (sema x) (arch x) = Some id)).
Proof.
  intros Hmax Hms Hf x sp.
  assert (sema_rel this max x sp) as [Ha Hm Hc Hb Hl Hlg (lost & h & Hq & Hn & H0)].
  { apply sema_run_rel; [done| |done]. split; try done; [cbn; lia..|].
    exists 0%nat, []. split; [by apply lq_rep_init|]. by split. }
  assert (Semaphore.check_allocate (sema x) = false ↔ Z.of_nat (out sp) = max) as Hchk.
  { unfold Semaphore.check_allocate. rewrite Hm, Hc, Z.ltb_ge. lia. }
  split_and!; [done..|]. rewrite Hchk. intros Hfull.
  destruct (last sp) as [id|] eqn:Hid; [|specialize (Hl eq_refl); lia]. exists id. split; [done|].
  destruct (Hn id Hid) as [Hn1 Hn2]. unfold Semaphore.holder, find_item. rewrite (lq_items _ _ _ Hq).
  destruct (head_matching this (sema x) h
    (Z.to_nat (LogQueue._maxsize (UadlArch.log_queue (arch x))) - lost) id Ha Hn1) as [H1 H2].
  split; [done|]. intros Hfr Hk. apply (H2 (later sp)); [|by apply Hn2].
  unfold x. rewrite sema_run_maxsize, (H0 Hfr). cbn. lia.
Qed.

Lemma semaphore_run_witness :
  let ops := [Acquire 7; Acquire 8; Acquire 9; Release 7; OtherItem (FlagLogItem 3 1 5); Acquire 10;
              OtherItem (SemaLogItem 4 1 6)] in
  let x := foldl sema_exec (sema_start 1 "sem" 2 1000 (Timer.init 0) (Logger.init "l" None 1)) ops in
  Semaphore.count (sema x) = 2 ∧ Semaphore.holder (sema x) (arch x) = Some 10.
Proof.
  intros ops x. destruct (semaphore_run 1 2 1000 "sem" (Timer.init 0) (Logger.init "l" None 1) ops)
    as (H1 & _ & H3 & H4); [lia..| |].
  - repeat constructor; cbn; lia.
  - split; [exact H1|]. destruct H4 as (id & Hid & _ & H); [by apply H3|].
    cbn in Hid. injection Hid as <-. apply H; [reflexivity|vm_compute; reflexivity].
Defined.

(** ** Flags, used as the stages use them *)

Inductive flag_op : Type :=
| FAcquire (iid : Z) | FRelease (iid delay : Z) | FReset | FTick (step : Z).
Record flag_state : Type := { flag : Flag; core : UadlArch; flogger : option Logger }.
Definition flag_result (r : Flag * (UadlArch * option Logger)) : flag_state :=
  {| flag := fst r; core := fst (snd r); flogger := snd (snd r) |}.
Definition flag_exec (x : flag_state) (o : flag_op) : flag_state :=
  match o with
  | FAcquire iid =>
      let '(ok, l) := Flag.can_allocate (flag x) (core x) (flogger x) in
      if ok then flag_result (Flag.allocate (flag x) (core x) iid l)
      else {| flag := flag x; core := core x; flogger := l |}
  | FRelease iid delay => flag_result (Flag.deallocate (flag x) (core x) iid (flogger x) delay)
  | FReset => {| flag := Flag.reset (flag x); core := core x; flogger := flogger x |}
  | FTick step => {| flag := flag x; core := UadlArch.incrTime (core x) step; flogger := flogger x |}
  end.

(** The abstract flag: held, or free from some time on; and the clock. *)
Inductive flag_owner : Type := Held | FreeAt (t : Z).
Definition available (now : Z) (w : flag_owner) : bool :=
  match w with Held => false | FreeAt t => t <=? now end.
Definition flag_spec_exec (sp : Z * flag_owner) (o : flag_op) : Z * flag_owner :=
  let '(now, w) := sp in
  match o with
  | FAcquire _ => (now, if available now w then Held else w)
  | FRelease _ delay => (now, FreeAt (now + delay))
  | FReset => (now, FreeAt 0)
  | FTick step => (now + step, w)
  end.

(** How far an operation reaches into the future. *)
Definition reach (o : flag_op) : Z :=
  match o with FRelease _ delay => delay | FTick step => step | _ => 0 end.
Definition reaches (ops : list flag_op) : Z := foldr (λ o n, reach o + n) 0 ops.

Lemma reaches_nonneg ops : Forall (λ o, 0 ≤ reach o) ops → 0 ≤ reaches ops.
Proof. unfold reaches. induction 1; cbn; lia. Qed.

Record flag_rel (x : flag_state) (sp : Z * flag_owner) : Prop := {
  fr_now : UadlArch.currTime (core x) = fst sp;
  fr_pos : 0 ≤ fst sp < Flag.max_time;
  fr_time : Flag._time (flag x) = match snd sp with Held => Flag.max_time | FreeAt t => t end
}.

Lemma check_available x sp : flag_rel x sp →
  Flag.check_allocate (flag x) (core x) = available (fst sp) (snd sp).
Proof.
  intros [Hn Hp Ht]. unfold Flag.check_allocate. rewrite Hn, Ht. destruct (snd sp); cbn; [lia|done].
Qed.

Lemma flag_log_core f u l msg c id : UadlArch.currTime (fst (Flag.log_if f u l msg c id)) = UadlArch.currTime u.
Proof. by destruct l. Qed.

Lemma flag_exec_rel x sp o : flag_rel x sp → 0 ≤ reach o → fst sp + reach o < Flag.max_time →
  flag_rel (flag_exec x o) (flag_spec_exec sp o).
Proof.
  intros Hx H0 Hr. pose proof (check_available _ _ Hx) as Hc. destruct Hx as [Hn Hp Ht].
  destruct sp as [now w]. unfold Flag.max_time in *. cbn [fst snd] in *.
  destruct o as [iid|iid d| |step]; cbn [flag_exec flag_spec_exec reach] in *.
  - unfold Flag.can_allocate. rewrite Hc. destruct (available now w); split; cbn; try done.
    by rewrite flag_log_core.
  - split; cbn; [by rewrite flag_log_core|done|]. rewrite Hn. apply wrap_small. unfold uint. lia.
  - by split.
  - split; cbn; [|unfold Flag.max_time; lia|done]. rewrite <- Hn. apply wrap_small.
    unfold uint, UadlArch.currTime, Timer.currTime in *. lia.
Qed.

Lemma flag_run_rel x sp ops : flag_rel x sp → Forall (λ o, 0 ≤ reach o) ops →
  fst sp + reaches ops < Flag.max_time → flag_rel (foldl flag_exec x ops) (foldl flag_spec_exec sp ops).
Proof.
  intros Hx Hf. revert x sp Hx. induction Hf as [|o ops Ho Hf IH]; intros x sp Hx Hr; [done|].
  change (reaches (o :: ops)) with (reach o + reaches ops) in Hr. pose proof (reaches_nonneg ops Hf).
  apply IH; [apply flag_exec_rel; [done..|lia]|].
  destruct sp as [now w], o; cbn in *; lia.
Qed.

(** Until the clock or a delayed release comes near the largest time, a flag
    is a lock with delayed release: it is refused from an acquisition to the
    next release, and after a release with delay [d] at time [t] exactly before
    [t + d]. *)
Theorem flag_run (this : Z) (n : string) (u : UadlArch) (lg : option Logger) (ops : list flag_op) :
  0 ≤ UadlArch.currTime u → Forall (λ o, 0 ≤ reach o) ops →
  UadlArch.currTime u + reaches ops < Flag.max_time →
  let x := foldl flag_exec {| flag := Flag.init this n; core := u; flogger := lg |} ops in
  let sp := foldl flag_spec_exec (UadlArch.currTime u, FreeAt 0) ops in
  UadlArch.currTime (core x) = fst sp ∧
  Flag.check_allocate (flag x) (core x) = available (fst sp) (snd sp) ∧
  fst (Flag.can_allocate (flag x) (core x) lg) = available (fst sp) (snd sp).
Proof.
  intros Hu Hf Hr x sp.
  pose proof (reaches_nonneg ops Hf).
  assert (flag_rel x sp) as Hx by (apply flag_run_rel; [|done..]; split; cbn; [done|lia|done]).
  split_and!; [apply Hx|by apply check_available|]. cbn. by apply check_available.
Qed.

Definition idle_core (t : Z) : UadlArch :=
  {| UadlArch._timer := Timer.init t; UadlArch._log_queue := LogQueue.init 1000; UadlArch._regStalls := 0 |}.
Lemma flag_run_witness :
  let x := foldl flag_exec {| flag := Flag.init 1 "f"; core := idle_core 5; flogger := None |}
    [FAcquire 1; FTick 1; FRelease 1 3; FTick 2] in
  Flag.check_allocate (flag x) (core x) = false.
Proof.
  intros x. refine (proj1 (proj2 (flag_run 1 "f" (idle_core 5) None
    [FAcquire 1; FTick 1; FRelease 1 3; FTick 2] _ _ _))); [cbn; lia| |reflexivity].
  repeat constructor; cbn; lia.
Defined.
