(* ===== verification/RegResource.v ===== *)
(** * Register resources

    The bookkeeping by which the performance model finds hazards between
    instructions ([src/uadl/RegResource.h], [src/uadl/RegResource.C]): per
    register a count of whole-register allocations and a queue of partial ones,
    each with the instruction's tag and a mask; a register, a register file and
    the aliases forward to it and log.

    A mask is a [w]-bit unsigned integer, a tag ([tag_t]) a 16-bit signed
    integer, an instruction id an [unsigned].  The queue is the growing queue of
    [CircularQueue]. *)
From stdpp Require Import prelude strings list.
From Stdlib Require Import ZArith Lia.
From S2P Require Import Prelude.
From S2P Require Import CircularQueue.
From S2P Require Import UadlResources.

Local Open Scope Z_scope.

(** A pair of the queue: the tag and the mask. *)
Abbreviation partial := (Z * Z)%type (only parsing).
(** [tag_t id = iid] *)
Definition to_tag (iid : Z) : Z := sint 16 (wrap 16 iid).

(** ** The allocations of a register *)

Module RegAlloc.
Record RegAlloc : Type := {
  _full_alloc_count : Z;
  _partial_mask : Z;
  _last_allocator : Z;
  _partial_allocs : queue DSCircularQueueSupport partial
}.

Section Ops.
(** [junk] is what [new] leaves in a buffer of the queue; [w] is the width of
    [mask_t]. *)
Context (junk : partial) (w : Z).

(** The constructor sets the count only. *)
Definition init (mask tag : Z) : RegAlloc :=
  {| _full_alloc_count := 0; _partial_mask := mask; _last_allocator := tag;
     _partial_allocs := DSCircularQueue |}.
Definition reset (r : RegAlloc) : RegAlloc :=
  {| _full_alloc_count := 0; _partial_mask := 0; _last_allocator := _last_allocator r;
     _partial_allocs := clear (_partial_allocs r) |}.
Definition can_alloc (r : RegAlloc) (id : Z) : bool :=
  (_partial_mask r =? 0) && ((_full_alloc_count r =? 0) || (_last_allocator r =? id)).
Definition can_alloc_partial (r : RegAlloc) (mask : Z) : bool :=
  (mask =? 0) || (_full_alloc_count r =? 0) && (Z.land mask (_partial_mask r) =? 0).
Definition allocate (r : RegAlloc) (id : Z) : RegAlloc :=
  {| _full_alloc_count := wrap 32 (_full_alloc_count r + 1); _partial_mask := _partial_mask r;
     _last_allocator := id; _partial_allocs := _partial_allocs r |}.
Definition allocate_partial (r : RegAlloc) (id mask : Z) : outcome RegAlloc :=
  let! q := ds_push_back junk false (_partial_allocs r) (id, mask) in
  Ret {| _full_alloc_count := _full_alloc_count r; _partial_mask := Z.lor (_partial_mask r) mask;
         _last_allocator := id; _partial_allocs := q |}.
Definition last_allocator (r : RegAlloc) : Z := _last_allocator r.

(** The loop over [i], from [k - 1] down to zero. *)
Fixpoint rm_later_loop (r : RegAlloc) (tag : Z) (k : nat) (mask : Z) : outcome Z :=
  match k with
  | O => Ret mask
  | S i =>
      let! p := get false (_partial_allocs r) (Z.of_nat i) in
      if tag =? fst p then Ret mask
      else rm_later_loop r tag i (Z.land mask (unot w (snd p)))
  end.
Definition rm_later_partial_alloc (r : RegAlloc) (mask tag : Z) : outcome Z :=
  if negb (_full_alloc_count r =? 0)
  then Ret (if tag =? _last_allocator r then mask else 0)
  else rm_later_loop r tag (Z.to_nat (size (_partial_allocs r))) mask.

Definition deallocate (r : RegAlloc) : RegAlloc :=
  {| _full_alloc_count := if _full_alloc_count r =? 0 then 0 else wrap 32 (_full_alloc_count r - 1);
     _partial_mask := _partial_mask r; _last_allocator := _last_allocator r;
     _partial_allocs := _partial_allocs r |}.

(** The body of the loop: the index found so far, or [-1], and the new mask. *)
Definition dealloc_step (q : queue DSCircularQueueSupport partial) (mask : Z) (i : nat)
    (s : outcome (Z * Z)) : outcome (Z * Z) :=
  let! s := s in
  let! p := get false q (Z.of_nat i) in
  if (fst s =? -1) && (snd p =? mask) then Ret (Z.of_nat i, snd s)
  else Ret (fst s, Z.lor (snd s) (snd p)).
Definition deallocate_partial (r : RegAlloc) (mask : Z) : outcome RegAlloc :=
  let q := _partial_allocs r in
  let! s := for_up (Z.to_nat (size q)) 0 (dealloc_step q mask) (Ret (-1, 0)) in
  let! q := if fst s =? -1 then Ret q else erase false q (fst s) in
  Ret {| _full_alloc_count := _full_alloc_count r; _partial_mask := snd s;
         _last_allocator := _last_allocator r; _partial_allocs := q |}.
End Ops.
End RegAlloc.
Export RegAlloc(RegAlloc).

(** ** The logged resources *)

Module RegResourceBase.
Record RegResourceBase : Type := { addr : Z; _name : string }.
Definition fullName (b : RegResourceBase) (index : Z) : string :=
  if 0 <=? index then _name b +:+ "[" +:+ to_dec index +:+ "]" else _name b.
(** [RegLogItem::matching_alloc] on an item of that type: the instruction. *)
Definition matching_alloc (b : RegResourceBase) (index mask : Z) (item : LogQueueItem) : option Z :=
  match item with
  | RegLogItem reg i m id =>
      if (addr b =? reg) && (index =? i) && negb (Z.land mask m =? 0) then Some id else None
  | _ => None
  end.
Definition owner (b : RegResourceBase) (u : UadlArch) (index mask : Z) : option Z :=
  find_item (matching_alloc b index mask) (UadlArch.log_queue u).
Definition findOwner (b : RegResourceBase) (u : UadlArch) (index mask : Z) : string :=
  match owner b u index mask with
  | Some id => " (RAW hazard, holder:  id=" +:+ to_dec id +:+ ")"
  | None => ""
  end.
(** [-1ull] *)
Definition all_ones : Z := 2 ^ 64 - 1.
Definition logStall (b : RegResourceBase) (u : UadlArch) (l : Logger) (index : Z) (msg : string) : Logger :=
  Logger.logStall l ("cannot " +:+ msg +:+ " " +:+ fullName b index +:+ findOwner b u index all_ones).
Definition logStall_mask (b : RegResourceBase) (u : UadlArch) (l : Logger) (index : Z) (msg : string)
    (mask : Z) : Logger :=
  Logger.logStall l ("cannot " +:+ msg +:+ " " +:+ fullName b index +:+ "(0x" +:+ to_hex mask +:+ ")"
    +:+ findOwner b u index mask).
Definition logAlloc (b : RegResourceBase) (u : UadlArch) (l : Logger) (id index : Z) (alloc : bool) :
    UadlArch * Logger :=
  let l := Logger.logMessage l ((if alloc then "allocate" else "deallocate") +:+ " " +:+ fullName b index) in
  (if alloc then UadlArch.add_log u (RegLogItem (addr b) index all_ones id) else u, l).
Definition logAlloc_mask (b : RegResourceBase) (u : UadlArch) (l : Logger) (id index : Z) (alloc : bool)
    (mask : Z) : UadlArch * Logger :=
  let l := Logger.logMessage l ((if alloc then "allocate" else "deallocate") +:+ " " +:+ fullName b index
    +:+ "(0x" +:+ to_hex mask +:+ ")") in
  (if alloc then UadlArch.add_log u (RegLogItem (addr b) index mask id) else u, l).
(** A call that is made only when there is a logger, of the two kinds. *)
Definition stall_if (l : option Logger) (f : Logger → Logger) : option Logger := f <$> l.
Definition alloc_if (u : UadlArch) (l : option Logger) (f : Logger → UadlArch * Logger) :
    UadlArch * option Logger :=
  match l with Some l => let '(u, l) := f l in (u, Some l) | None => (u, None) end.
End RegResourceBase.
Export RegResourceBase(RegResourceBase).

Module RegResource.
Import RegResourceBase.
Record RegResource : Type := { base : RegResourceBase; alloc : RegAlloc }.
Section Ops.
Context (junk : partial) (w : Z).
Definition init (b : RegResourceBase) (mask tag : Z) : RegResource :=
  {| base := b; alloc := RegAlloc.reset (RegAlloc.init mask tag) |}.
Definition set_alloc (r : RegResource) (a : RegAlloc) : RegResource := {| base := base r; alloc := a |}.
Definition can_alloc_mask (r : RegResource) (u : UadlArch) (l : option Logger) (msg : string) (mask : Z) :
    bool * UadlArch * option Logger :=
  if negb (RegAlloc.can_alloc_partial (alloc r) mask) then
    let u := UadlArch.incrRegStalls u in
    (false, u, stall_if l (λ l, logStall_mask (base r) u l (-1) msg mask))
  else (true, u, l).
Definition can_alloc (r : RegResource) (u : UadlArch) (iid : Z) (l : option Logger) (msg : string) :
    bool * UadlArch * option Logger :=
  if negb (RegAlloc.can_alloc (alloc r) (to_tag iid)) then
    let u := UadlArch.incrRegStalls u in
    (false, u, stall_if l (λ l, logStall (base r) u l (-1) msg))
  else (true, u, l).
Definition can_read (r : RegResource) (u : UadlArch) (iid : Z) (l : option Logger) :
    bool * UadlArch * option Logger := can_alloc r u iid l "read".
Definition can_read_mask (r : RegResource) (u : UadlArch) (l : option Logger) (mask : Z) :
    bool * UadlArch * option Logger := can_alloc_mask r u l "read" mask.
Definition allocate (r : RegResource) (u : UadlArch) (iid : Z) (l : option Logger) :
    RegResource * (UadlArch * option Logger) :=
  (set_alloc r (RegAlloc.allocate (alloc r) (to_tag iid)),
   alloc_if u l (λ l, logAlloc (base r) u l iid (-1) true)).
Definition allocate_mask (r : RegResource) (u : UadlArch) (iid : Z) (l : option Logger) (mask : Z) :
    outcome (RegResource * (UadlArch * option Logger)) :=
  let! a := RegAlloc.allocate_partial junk (alloc r) (to_tag iid) mask in
  Ret (set_alloc r a, alloc_if u l (λ l, logAlloc_mask (base r) u l iid (-1) true mask)).
Definition deallocate (r : RegResource) (u : UadlArch) (iid : Z) (l : option Logger) :
    RegResource * (UadlArch * option Logger) :=
  (set_alloc r (RegAlloc.deallocate (alloc r)),
   alloc_if u l (λ l, logAlloc (base r) u l iid (-1) false)).
Definition deallocate_mask (r : RegResource) (u : UadlArch) (iid : Z) (l : option Logger) (mask : Z) :
    outcome (RegResource * (UadlArch * option Logger)) :=
  let! a := RegAlloc.deallocate_partial (alloc r) mask in
  Ret (set_alloc r a, alloc_if u l (λ l, logAlloc_mask (base r) u l iid (-1) false mask)).
End Ops.
End RegResource.

(** ** Register files *)

Definition getRegName (name : string) (index : Z) : string := name +:+ "[" +:+ to_dec index +:+ "]".

Module RegFileResource.
Import RegResourceBase.
Record RegFileResource : Type := { base : RegResourceBase; _allocs : list RegAlloc }.
(** [_allocs[index]]: outside of the array the behaviour is undefined. *)
Definition elem (r : RegFileResource) (index : Z) : outcome RegAlloc :=
  match _allocs r !! Z.to_nat index with Some a => Ret a | None => Undefined end.
Definition set_elem (r : RegFileResource) (index : Z) (a : RegAlloc) : RegFileResource :=
  {| base := base r; _allocs := <[Z.to_nat index := a]> (_allocs r) |}.
Section Ops.
Context (junk : partial) (w : Z).
Definition reset (r : RegFileResource) : RegFileResource :=
  {| base := base r; _allocs := RegAlloc.reset <$> _allocs r |}.
(** [raw] are the [N] elements as their constructor leaves them. *)
Definition init (b : RegResourceBase) (raw : list RegAlloc) : RegFileResource :=
  reset {| base := b; _allocs := raw |}.
Definition name (r : RegFileResource) (index : Z) : string := getRegName (_name (base r)) index.
Definition can_alloc_mask (r : RegFileResource) (u : UadlArch) (l : option Logger) (index : Z) (msg : string)
    (mask : Z) : outcome (bool * UadlArch * option Logger) :=
  let! a := elem r index in
  Ret (if negb (RegAlloc.can_alloc_partial a mask) then
         let u := UadlArch.incrRegStalls u in
         (false, u, stall_if l (λ l, logStall_mask (base r) u l index msg mask))
       else (true, u, l)).
Definition can_alloc (r : RegFileResource) (u : UadlArch) (iid : Z) (l : option Logger) (index : Z)
    (msg : string) : outcome (bool * UadlArch * option Logger) :=
  let! a := elem r index in
  Ret (if negb (RegAlloc.can_alloc a (to_tag iid)) then
         let u := UadlArch.incrRegStalls u in
         (false, u, stall_if l (λ l, logStall (base r) u l index msg))
       else (true, u, l)).
Definition can_read (r : RegFileResource) (u : UadlArch) (iid : Z) (l : option Logger) (index : Z) :
    outcome (bool * UadlArch * option Logger) := can_alloc r u iid l index "read".
Definition allocate (r : RegFileResource) (u : UadlArch) (iid : Z) (l : option Logger) (index : Z) :
    outcome (RegFileResource * (UadlArch * option Logger)) :=
  let! a := elem r index in
  Ret (set_elem r index (RegAlloc.allocate a (to_tag iid)),
       alloc_if u l (λ l, logAlloc (base r) u l iid index true)).
Definition allocate_mask (r : RegFileResource) (u : UadlArch) (iid : Z) (l : option Logger) (index mask : Z) :
    outcome (RegFileResource * (UadlArch * option Logger)) :=
  let! a := elem r index in
  let! a := RegAlloc.allocate_partial junk a (to_tag iid) mask in
  Ret (set_elem r index a, alloc_if u l (λ l, logAlloc_mask (base r) u l iid index true mask)).
Definition last_allocator (r : RegFileResource) (index : Z) : outcome Z :=
  let! a := elem r index in Ret (RegAlloc.last_allocator a).
Definition rm_later_partial_alloc (r : RegFileResource) (index mask tag : Z) : outcome Z :=
  let! a := elem r index in RegAlloc.rm_later_partial_alloc w a mask tag.
Definition deallocate (r : RegFileResource) (u : UadlArch) (iid : Z) (l : option Logger) (index : Z) :
    outcome (RegFileResource * (UadlArch * option Logger)) :=
  let! a := elem r index in
  Ret (set_elem r index (RegAlloc.deallocate a),
       alloc_if u l (λ l, logAlloc (base r) u l iid index false)).
Definition deallocate_mask (r : RegFileResource) (u : UadlArch) (iid : Z) (l : option Logger) (index mask : Z) :
    outcome (RegFileResource * (UadlArch * option Logger)) :=
  let! a := elem r index in
  let! a := RegAlloc.deallocate_partial a mask in
  Ret (set_elem r index a, alloc_if u l (λ l, logAlloc_mask (base r) u l iid index false mask)).
End Ops.
End RegFileResource.

(** ** Aliases *)

(** An alias holds a reference to its target, so an operation through it is the
    target's operation; [conv] is the conversion of its mask to the target's
    mask type, of width [w]. *)
Definition conv (w mask : Z) : Z := wrap w mask.

Module RegAlias.
Section Ops.
Context (junk : partial) (w : Z).
Definition allocate := RegResource.allocate.
Definition allocate_mask (trg : RegResource.RegResource) (u : UadlArch) (iid : Z) (l : option Logger) (mask : Z) :=
  RegResource.allocate_mask junk trg u iid l (conv w mask).
Definition deallocate := RegResource.deallocate.
Definition deallocate_mask (trg : RegResource.RegResource) (u : UadlArch) (iid : Z) (l : option Logger) (mask : Z) :=
  RegResource.deallocate_mask trg u iid l (conv w mask).
Definition last_allocator (trg : RegResource.RegResource) : Z :=
  RegAlloc.last_allocator (RegResource.alloc trg).
Definition rm_later_partial_alloc (trg : RegResource.RegResource) (mask tag : Z) : outcome Z :=
  RegAlloc.rm_later_partial_alloc w (RegResource.alloc trg) (conv w mask) tag.
End Ops.
End RegAlias.

Module RegFileElmAlias.
Section Ops.
(** [_index] is fixed by the constructor. *)
Context (junk : partial) (w _index : Z).
Definition allocate (trg : RegFileResource.RegFileResource) (u : UadlArch) (iid : Z) (l : option Logger) :=
  RegFileResource.allocate trg u iid l _index.
Definition allocate_mask (trg : RegFileResource.RegFileResource) (u : UadlArch) (iid : Z) (l : option Logger)
    (mask : Z) := RegFileResource.allocate_mask junk trg u iid l _index (conv w mask).
Definition deallocate (trg : RegFileResource.RegFileResource) (u : UadlArch) (iid : Z) (l : option Logger) :=
  RegFileResource.deallocate trg u iid l _index.
Definition deallocate_mask (trg : RegFileResource.RegFileResource) (u : UadlArch) (iid : Z) (l : option Logger)
    (mask : Z) := RegFileResource.deallocate_mask trg u iid l _index (conv w mask).
Definition last_allocator (trg : RegFileResource.RegFileResource) : outcome Z :=
  RegFileResource.last_allocator trg _index.
Definition rm_later_partial_alloc (trg : RegFileResource.RegFileResource) (mask tag : Z) : outcome Z :=
  RegFileResource.rm_later_partial_alloc w trg _index (conv w mask) tag.
End Ops.
End RegFileElmAlias.

(** ** What an allocation record means *)

(** The bits that a list of partial allocations covers. *)
Definition masks (l : list partial) : Z := foldr (λ p m, Z.lor (snd p) m) 0 l.
(** The list without the first allocation of exactly this mask. *)
Fixpoint remove_mask (mask : Z) (l : list partial) : list partial :=
  match l with [] => [] | p :: l => if snd p =? mask then l else p :: remove_mask mask l end.

(** The abstract register: the tags of the whole-register allocations, the
    partial allocations in order, the latest allocator. *)
Record reg_spec : Type := { fulls : list Z; parts : list partial; latest : Z }.

Inductive reg_op : Type :=
| Alloc (id : Z) | AllocPartial (id mask : Z) | Dealloc | DeallocPartial (mask : Z) | ResetReg.
Definition reg_exec (junk : partial) (r : RegAlloc) (o : reg_op) : outcome RegAlloc :=
  match o with
  | Alloc id => Ret (RegAlloc.allocate r id)
  | AllocPartial id mask => RegAlloc.allocate_partial junk r id mask
  | Dealloc => Ret (RegAlloc.deallocate r)
  | DeallocPartial mask => RegAlloc.deallocate_partial r mask
  | ResetReg => Ret (RegAlloc.reset r)
  end.
Definition reg_spec_exec (sp : reg_spec) (o : reg_op) : reg_spec :=
  match o with
  | Alloc id => {| fulls := id :: fulls sp; parts := parts sp; latest := id |}
  | AllocPartial id mask => {| fulls := fulls sp; parts := parts sp ++ [(id, mask)]; latest := id |}
  | Dealloc => {| fulls := tail (fulls sp); parts := parts sp; latest := latest sp |}
  | DeallocPartial mask => {| fulls := fulls sp; parts := remove_mask mask (parts sp); latest := latest sp |}
  | ResetReg => {| fulls := []; parts := []; latest := latest sp |}
  end.
Definition reg_run (junk : partial) (r : RegAlloc) (ops : list reg_op) : outcome RegAlloc :=
  foldl (λ r o, let! r := r in reg_exec junk r o) (Ret r) ops.

(** Every allocation is asked for first, as an instruction does, and is made
    only when the answer is yes; partial ones are for some bits. *)
Definition reg_ask (r : RegAlloc) (o : reg_op) : bool :=
  match o with
  | Alloc id => RegAlloc.can_alloc r id
  | AllocPartial id mask => negb (mask =? 0) && RegAlloc.can_alloc_partial r mask
  | _ => true
  end.
Fixpoint asked (junk : partial) (r : RegAlloc) (ops : list reg_op) : bool :=
  match ops with
  | [] => true
  | o :: ops =>
      reg_ask r o && match reg_exec junk r o with Ret r => asked junk r ops | _ => false end
  end.

Record reg_rep (r : RegAlloc) (sp : reg_spec) : Prop := {
  rr_full : RegAlloc._full_alloc_count r = Z.of_nat (length (fulls sp));
  rr_mask : RegAlloc._partial_mask r = masks (parts sp);
  rr_last : RegAlloc._last_allocator r = latest sp;
  rr_queue : ds_rep (RegAlloc._partial_allocs r) (parts sp)
}.
(** A bound on both lists, far below what a count or a queue can hold. *)
Definition reg_bound (sp : reg_spec) (n : Z) : Prop :=
  Z.of_nat (length (fulls sp) + length (parts sp)) ≤ n.

Section RegAllocCorrect.
Context (junk : partial) (w : Z).

Lemma masks_cons p l : masks (p :: l) = Z.lor (snd p) (masks l).
Proof. done. Qed.
Lemma masks_app l1 l2 : masks (l1 ++ l2) = Z.lor (masks l1) (masks l2).
Proof. induction l1 as [|p l1 IH]; [done|]. by rewrite <- app_comm_cons, !masks_cons, IH, Z.lor_assoc. Qed.
Lemma masks_snoc l p : masks (l ++ [p]) = Z.lor (masks l) (snd p).
Proof. rewrite masks_app, masks_cons. cbn. by rewrite Z.lor_0_r. Qed.

Lemma masks_disjoint m l : Z.land m (masks l) = 0 ↔ Forall (λ p, Z.land m (snd p) = 0) l.
Proof.
  induction l as [|p l IH]; [split; [constructor|intros; by rewrite Z.land_0_r]|].
  rewrite masks_cons, Forall_cons, <- IH, Z.land_lor_distr_r. apply Z.lor_eq_0_iff.
Qed.
Lemma masks_zero l : masks l = 0 ↔ Forall (λ p, snd p = 0) l.
Proof.
  induction l as [|p l IH]; [by split|]. by rewrite masks_cons, Forall_cons, <- IH, Z.lor_eq_0_iff.
Qed.

Lemma remove_mask_none mask l : Forall (λ p, snd p ≠ mask) l → remove_mask mask l = l.
Proof. induction 1 as [|p l Hp Hl IH]; cbn; [done|]. destruct (Z.eqb_spec (snd p) mask); [done|]. by rewrite IH. Qed.
Lemma remove_mask_found mask l k p : Forall (λ p, snd p ≠ mask) (take k l) → l !! k = Some p → snd p = mask →
  remove_mask mask l = take k l ++ drop (S k) l.
Proof.
  revert k. induction l as [|x l IH]; intros [|k] Hf Hk Hp; cbn in *; simplify_eq.
  - by rewrite Z.eqb_refl, drop_0.
  - apply Forall_cons in Hf as [Hx Hf]. destruct (Z.eqb_spec (snd x) (snd p)); [done|].
    f_equal. by apply IH.
Qed.
Lemma length_remove_mask mask l : (length (remove_mask mask l) ≤ length l)%nat.
Proof. induction l; cbn; [done|]. case_match; cbn; lia. Qed.

(** The queue, allocated or not. *)
Lemma ds_size q (l : list partial) : ds_rep q l → size q = Z.of_nat (length l).
Proof. intros [[-> ->]|Hr]; [done|by apply size_spec]. Qed.
Lemma ds_get q (l : list partial) i p : ds_rep q l → l !! i = Some p → get false q (Z.of_nat i) = Ret p.
Proof.
  intros [[-> ->]|Hr] Hi; [done|]. apply (get_spec false q l (Z.of_nat i) Hr); [lia|]. by rewrite Nat2Z.id.
Qed.
Lemma ds_erase q (l : list partial) i : ds_rep q l → (i < length l)%nat →
  ∃ q', erase false q (Z.of_nat i) = Ret q' ∧ ds_rep q' (take i l ++ drop (S i) l).
Proof.
  intros [[-> ->]|Hr] Hi; [cbn in Hi; lia|].
  destruct (erase_spec false q l i Hr Hi) as (q' & E & Hr'). rewrite delete_take_drop in Hr'.
  exists q'. split; [done|by right].
Qed.
Lemma ds_clear q (l : list partial) : ds_rep q l → ds_rep (clear q) [].
Proof. intros [[-> ->]|Hr]; [by left|right; by eapply clear_spec]. Qed.

(** The loop of [deallocate]. *)
Definition scanned (mask : Z) (l : list partial) (i : nat) (s : outcome (Z * Z)) : Prop :=
  (s = Ret (-1, masks (take i l)) ∧ Forall (λ p, snd p ≠ mask) (take i l)) ∨
  (∃ k p, (k < i)%nat ∧ s = Ret (Z.of_nat k, masks (take k l ++ drop (S k) (take i l))) ∧
     l !! k = Some p ∧ snd p = mask ∧ Forall (λ p, snd p ≠ mask) (take k l)).

Lemma scan_step q l mask i s : ds_rep q l → (i < length l)%nat → scanned mask l i s →
  scanned mask l (S i) (RegAlloc.dealloc_step q mask i s).
Proof.
  intros Hq Hi Hs. destruct (lookup_lt_is_Some_2 l i Hi) as [p Hp]. unfold RegAlloc.dealloc_step.
  destruct Hs as [[-> Hf]|(k & p' & Hk & -> & Hk' & Hm & Hf)]; cbn [obind]; rewrite (ds_get _ _ _ _ Hq Hp);
    cbn [obind fst snd].
  - destruct (Z.eqb_spec (snd p) mask); cbn.
    + right. exists i, p. split_and!; try done; [lia|]. do 2 f_equal.
      rewrite drop_ge by (rewrite length_take; lia). by rewrite app_nil_r.
    + left. rewrite (take_S_r _ _ _ Hp), masks_snoc. split; [done|].
      apply Forall_app_2; [done|by constructor].
  - destruct (Z.eqb_spec (Z.of_nat k) (-1)); [lia|]. cbn. right. exists k, p'. split_and!; try done; [lia|].
    do 2 f_equal. rewrite (take_S_r _ _ _ Hp), drop_app_le by (rewrite length_take; lia).
    by rewrite (assoc_L (++)), masks_snoc.
Qed.

Lemma deallocate_partial_spec r sp mask : reg_rep r sp → Z.of_nat (length (parts sp)) < 2 ^ 31 →
  ∃ r', RegAlloc.deallocate_partial r mask = Ret r' ∧ reg_rep r' (reg_spec_exec sp (DeallocPartial mask)).
Proof.
  intros [Hfu Hma Hla Hq] Hlen. unfold RegAlloc.deallocate_partial. rewrite (ds_size _ _ Hq), Nat2Z.id.
  destruct (for_up_ind (scanned mask (parts sp)) (length (parts sp)) 0
    (RegAlloc.dealloc_step (RegAlloc._partial_allocs r) mask) (Ret (-1, 0)))
    as [[-> Hf]|(k & p & Hk & -> & Hk' & Hm & Hf)].
  - left. rewrite take_0. split; [done|constructor].
  - intros i s Hi. rewrite Nat.add_1_r. apply scan_step; [done|lia].
  - rewrite take_ge in * by lia. cbn. eexists. split; [done|].
    split; cbn; rewrite ?remove_mask_none by done; done.
  - rewrite (take_ge _ (0 + _)) in * by lia. cbn [obind fst snd]. destruct (Z.eqb_spec (Z.of_nat k) (-1)); [lia|].
    destruct (ds_erase _ _ _ Hq Hk) as (q' & -> & Hq'). cbn [obind]. eexists. split; [done|].
    split; cbn; rewrite ?(remove_mask_found mask _ k p) by done; done.
Qed.

Lemma reg_exec_rep r sp o n : reg_rep r sp → reg_bound sp n → n < 2 ^ 30 →
  ∃ r', reg_exec junk r o = Ret r' ∧ reg_rep r' (reg_spec_exec sp o) ∧ reg_bound (reg_spec_exec sp o) (n + 1).
Proof.
  intros Hr Hb Hn. unfold reg_bound in *. pose proof Hr as [Hfu Hma Hla Hq]. destruct o as [id|id m| |m| ]; cbn [reg_exec].
  - eexists. split_and!; [done| |cbn [reg_spec_exec fulls parts length]; lia]. split; cbn; try done.
    rewrite Hfu, wrap_small by (unfold uint; lia). lia.
  - unfold RegAlloc.allocate_partial.
    destruct (ds_push_back_spec junk false _ _ (id, m) Hq) as (q' & -> & Hq'); [lia|]. cbn [obind].
    eexists. split_and!; [done| |cbn [reg_spec_exec fulls parts]; rewrite length_app; cbn [length]; lia]. split; cbn; try done.
    by rewrite masks_snoc, Hma.
  - eexists. split_and!; [done| |cbn [reg_spec_exec fulls parts]; destruct (fulls sp); cbn [tail length] in *; lia]. split; cbn; try done.
    rewrite Hfu. destruct (fulls sp) as [|f fs]; cbn [length tail]; [done|].
    rewrite (proj2 (Z.eqb_neq _ 0)) by lia. cbn [length] in *. rewrite wrap_small; unfold uint; lia.
  - destruct (deallocate_partial_spec r sp m Hr) as (r' & -> & Hr'); [lia|]. exists r'. split_and!; [done..|].
    cbn [reg_spec_exec fulls parts]. pose proof (length_remove_mask m (parts sp)). lia.
  - eexists. split_and!; [done| |cbn [reg_spec_exec fulls parts length]; lia]. split; cbn; try done. by eapply ds_clear.
Qed.

Lemma reg_run_rep r sp ops n : reg_rep r sp → reg_bound sp n → n + Z.of_nat (length ops) ≤ 2 ^ 30 →
  ∃ r', reg_run junk r ops = Ret r' ∧ reg_rep r' (foldl reg_spec_exec sp ops).
Proof.
  revert r sp n. induction ops as [|o ops IH]; intros r sp n Hr Hb Hn; [by exists r|]. cbn [length] in Hn.
  destruct (reg_exec_rep r sp o n Hr Hb) as (r1 & E & Hr1 & Hb1); [lia|].
  destruct (IH r1 _ (n + 1) Hr1 Hb1) as (r' & E' & Hr'); [lia|]. exists r'. split; [|done].
  rewrite <- E'. unfold reg_run. cbn. by rewrite E.
Qed.

(** *** The queries *)

Lemma can_alloc_spec r sp id : reg_rep r sp →
  RegAlloc.can_alloc r id = true ↔ Forall (λ p, snd p = 0) (parts sp) ∧ (fulls sp = [] ∨ latest sp = id).
Proof.
  intros [Hfu Hma Hla Hq]. unfold RegAlloc.can_alloc. rewrite andb_true_iff, orb_true_iff, !Z.eqb_eq.
  rewrite Hfu, Hma, Hla, masks_zero. destruct (fulls sp); cbn [length]; [tauto|].
  split; intros [? [?|?]]; (split; [done|]); first [by right|lia|done].
Qed.
Lemma can_alloc_partial_spec r sp m : reg_rep r sp →
  RegAlloc.can_alloc_partial r m = true ↔
  m = 0 ∨ fulls sp = [] ∧ Forall (λ p, Z.land m (snd p) = 0) (parts sp).
Proof.
  intros [Hfu Hma Hla Hq]. unfold RegAlloc.can_alloc_partial.
  rewrite orb_true_iff, andb_true_iff, !Z.eqb_eq, Hfu, Hma, masks_disjoint.
  destruct (fulls sp); cbn [length]; [tauto|].
  split; intros [?|[? ?]]; first [by left|lia|done].
Qed.

Lemma uint_land_l a b : 0 ≤ w → uint w a → uint w (Z.land a b).
Proof.
  intros Hw Ha. replace (Z.land a b) with (wrap w (Z.land a b)); [by apply uint_wrap|].
  apply Z.bits_inj'. intros j Hj. rewrite testbit_wrap, Z.land_spec by done.
  destruct (Z.ltb_spec j w); [done|]. by rewrite (testbit_high w a) by done.
Qed.

Lemma rm_later_loop_spec r sp tag l1 l2 mask k : reg_rep r sp → 0 ≤ w → uint w mask →
  take k (parts sp) = l1 ++ l2 → (k ≤ length (parts sp))%nat →
  (l1 = [] ∨ ∃ l m, l1 = l ++ [(tag, m)]) → Forall (λ p, fst p ≠ tag) l2 →
  RegAlloc.rm_later_loop w r tag k mask = Ret (Z.ldiff mask (masks l2)).
Proof.
  intros [Hfu Hma Hla Hq] Hw. revert l2 mask. induction k as [|i IH]; intros l2 mask Hmask Ht Hk H1 H2.
  - cbn in *. destruct l1, l2; try done. by rewrite Z.ldiff_0_r.
  - destruct (lookup_lt_is_Some_2 (parts sp) i ltac:(lia)) as [p Hp].
    rewrite (take_S_r _ _ _ Hp) in Ht. cbn [RegAlloc.rm_later_loop]. rewrite (ds_get _ _ _ _ Hq Hp). cbn [obind].
    destruct l2 as [|p' l2 _] using rev_ind.
    + rewrite app_nil_r in Ht. destruct H1 as [->|(l & m & ->)]; [by destruct (take i (parts sp))|].
      apply app_inj_tail in Ht as [_ ->]. cbn. rewrite Z.eqb_refl. by rewrite Z.ldiff_0_r.
    + rewrite (assoc_L (++)) in Ht. apply app_inj_tail in Ht as [Ht ->].
      apply Forall_app in H2 as [H2 Hp2]. apply list.Forall_cons in Hp2 as [Hp2 _].
      rewrite (proj2 (Z.eqb_neq tag (fst p'))) by congruence. rewrite (IH l2); [| |done|lia|done|done].
      * rewrite masks_snoc. f_equal. apply Z.bits_inj'. intros j Hj.
        rewrite !Z.ldiff_spec, Z.land_spec, Z.lor_spec. unfold unot. rewrite testbit_wrap, testbit_lnot by done.
        destruct (Z.ltb_spec j w) as [Hjw|Hjw].
        -- rewrite (proj2 (Z.leb_le 0 j)) by done. cbn.
           by destruct (Z.testbit mask j), (Z.testbit (masks l2) j), (Z.testbit (snd p') j).
        -- by rewrite (testbit_high w mask) by done.
      * by apply uint_land_l.
Qed.

(** *** Exclusive ownership *)

(** No two partial allocations share a bit; whole-register allocations exclude
    partial ones and belong to one instruction. *)
Record exclusive (sp : reg_spec) : Prop := {
  ex_parts : ForallOrdPairs (λ p q, Z.land (snd p) (snd q) = 0) (parts sp);
  ex_nonzero : Forall (λ p, snd p ≠ 0) (parts sp);
  ex_full : fulls sp ≠ [] → parts sp = [] ∧ Forall (eq (latest sp)) (fulls sp)
}.

Lemma ordpairs_snoc {A} (R : A → A → Prop) l x :
  ForallOrdPairs R l → Forall (λ y, R y x) l → ForallOrdPairs R (l ++ [x]).
Proof.
  induction 1 as [|y l Hy Hl IH]; intros Hx; cbn; [repeat constructor|].
  apply Forall_cons in Hx as [Hyx Hx]. constructor; [|by apply IH].
  apply Forall_app_2; [done|by constructor].
Qed.
Lemma Forall_remove_mask P mask l : Forall P l → Forall P (remove_mask mask l).
Proof. induction 1; cbn; [done|]. case_match; [done|by constructor]. Qed.
Lemma ordpairs_remove_mask R mask l : ForallOrdPairs R l → ForallOrdPairs R (remove_mask mask l).
Proof.
  induction 1 as [|y l Hy Hl IH]; cbn; [constructor|]. case_match; [done|].
  constructor; [by apply Forall_remove_mask|done].
Qed.

Lemma exclusive_exec r sp o : reg_rep r sp → exclusive sp → reg_ask r o = true →
  exclusive (reg_spec_exec sp o).
Proof.
  intros Hr [Hp Hz Hf] Ha. destruct o as [id|id m| |m| ]; cbn in Ha.
  - apply (can_alloc_spec _ _ _ Hr) in Ha as [H0 Hl].
    assert (parts sp = []) as Hnil.
    { destruct (parts sp) as [|p l]; [done|]. apply Forall_cons in H0 as [H0 _], Hz as [Hz _]. done. }
    split; cbn; rewrite ?Hnil; [constructor..|]. intros _. split; [done|]. constructor; [done|].
    destruct Hl as [->|<-]; [constructor|]. destruct (fulls sp) as [|f fs] eqn:E; [constructor|].
    by apply Hf.
  - apply andb_true_iff in Ha as [Hm Ha]. apply negb_true_iff, Z.eqb_neq in Hm.
    apply (can_alloc_partial_spec _ _ _ Hr) in Ha as [?|[Hnil Hd]]; [done|]. split; cbn.
    + apply ordpairs_snoc; [done|]. eapply Forall_impl; [exact Hd|]. cbn. intros p. by rewrite Z.land_comm.
    + apply Forall_app_2; [done|by constructor].
    + by rewrite Hnil.
  - split; cbn; [done..|]. destruct (fulls sp) as [|f fs]; [done|]. intros _.
    destruct Hf as [Hf1 Hf2]; [done|]. apply Forall_cons in Hf2 as [_ Hf2]. done.
  - split; cbn; [by apply ordpairs_remove_mask|by apply Forall_remove_mask|].
    intros Hn. destruct (Hf Hn) as [-> ?]. done.
  - split; cbn; [constructor..|done].
Qed.

Lemma exclusive_run r sp ops n : reg_rep r sp → reg_bound sp n → n + Z.of_nat (length ops) ≤ 2 ^ 30 →
  exclusive sp → asked junk r ops = true → exclusive (foldl reg_spec_exec sp ops).
Proof.
  revert r sp n. induction ops as [|o ops IH]; intros r sp n Hr Hb Hn He Ha; [done|]. cbn [length] in Hn.
  destruct (reg_exec_rep r sp o n Hr Hb) as (r1 & E & Hr1 & Hb1); [lia|].
  cbn [asked] in Ha. rewrite E in Ha. apply andb_true_iff in Ha as [Ha1 Ha2]. cbn [foldl].
  apply (IH r1 _ (n + 1)); [done..|lia|by eapply exclusive_exec|done].
Qed.

Definition reg_start (tag : Z) : reg_spec := {| fulls := []; parts := []; latest := tag |}.
Lemma reg_start_rep mask tag : reg_rep (RegAlloc.reset (RegAlloc.init mask tag)) (reg_start tag).
Proof. split; cbn; try done. by left. Qed.
Lemma reg_start_exclusive tag : exclusive (reg_start tag).
Proof. split; cbn; [constructor..|done]. Qed.
End RegAllocCorrect.

(** C20: for any sequence of allocations, deallocations and resets after the
    reset of the constructor, the allocation record answers as the list of the
    outstanding allocations would: the whole register can be had when no bit is
    partially allocated and it is free or last taken by the same instruction, a
    part of it when it is empty or the register is free and the part overlaps no
    outstanding one; a deallocation returns the first part with its mask, also
    when others overlap it; and [rm_later_partial_alloc] removes from a mask what
    was allocated after the last allocation of the given tag. *)
Theorem reg_alloc_refines (junk : partial) (w mask0 tag0 : Z) (ops : list reg_op) :
  0 ≤ w → Z.of_nat (length ops) ≤ 2 ^ 30 →
  ∃ r, reg_run junk (RegAlloc.reset (RegAlloc.init mask0 tag0)) ops = Ret r ∧
  let sp := foldl reg_spec_exec (reg_start tag0) ops in
  (∀ id, RegAlloc.can_alloc r id = true ↔
     Forall (λ p, snd p = 0) (parts sp) ∧ (fulls sp = [] ∨ latest sp = id)) ∧
  (∀ m, RegAlloc.can_alloc_partial r m = true ↔
     m = 0 ∨ fulls sp = [] ∧ Forall (λ p, Z.land m (snd p) = 0) (parts sp)) ∧
  RegAlloc.last_allocator r = latest sp ∧
  (∀ m tag, fulls sp ≠ [] →
     RegAlloc.rm_later_partial_alloc w r m tag = Ret (if tag =? latest sp then m else 0)) ∧
  (∀ m tag l1 l2, fulls sp = [] → uint w m → parts sp = l1 ++ l2 →
     (l1 = [] ∨ ∃ l m', l1 = l ++ [(tag, m')]) → Forall (λ p, fst p ≠ tag) l2 →
     RegAlloc.rm_later_partial_alloc w r m tag = Ret (Z.ldiff m (masks l2))).
Proof.
  intros Hw Hn. destruct (reg_run_rep junk _ _ ops 0 (reg_start_rep mask0 tag0)) as (r & E & Hr);
    [done|lia|]. exists r. split; [done|]. intros sp. fold sp in Hr. pose proof Hr as [Hfu Hma Hla Hq].
  split_and!; [intros id; by apply can_alloc_spec|intros m; by apply can_alloc_partial_spec|done|..];
    unfold RegAlloc.rm_later_partial_alloc; rewrite Hfu.
  - intros m tag Hne. rewrite Hla. destruct (fulls sp); [done|]. cbn [length].
    by rewrite (proj2 (Z.eqb_neq _ 0)) by lia.
  - intros m tag l1 l2 -> Hm Hl H1 H2. cbn [length negb Z.of_nat Z.eqb].
    rewrite (ds_size _ _ Hq), Nat2Z.id. eapply rm_later_loop_spec; [done..| |done|done|done].
    by rewrite firstn_all.
Qed.

Lemma reg_alloc_refines_witness : ∃ r,
  reg_run (0, 0) (RegAlloc.reset (RegAlloc.init 77 5))
    [AllocPartial 1 0xf0; AllocPartial 2 0x0f; AllocPartial 3 0x30; DeallocPartial 0xf0] = Ret r ∧
  RegAlloc.can_alloc_partial r 0xc0 = true ∧
  RegAlloc.rm_later_partial_alloc 8 r 0xff 2 = Ret 0xcf.
Proof.
  destruct (reg_alloc_refines (0, 0) 8 77 5
    [AllocPartial 1 0xf0; AllocPartial 2 0x0f; AllocPartial 3 0x30; DeallocPartial 0xf0])
    as (r & E & _ & H2 & _ & _ & H5); [lia|cbn; lia|]. exists r. split_and!; [exact E| |].
  - apply H2. right. split; [reflexivity|]. repeat constructor.
  - refine (H5 0xff 2 [(2, 0x0f)] [(3, 0x30)] _ _ _ _ _); [reflexivity| |reflexivity| |].
    + unfold uint. lia.
    + right. by exists [], 0x0f.
    + by repeat constructor.
Defined.

(** C21: when every allocation is asked for first, and partial ones are for masks
    that are not zero, no bit of the register has two owners: the outstanding
    partial masks are disjoint, and whole-register allocations exist only without
    partial ones and for a single instruction.  (A zero mask may always be
    allocated; it makes its instruction the last allocator, which may then have
    the whole register beside its owner, see [zero_mask_two_owners].)  Runs are of
    at most 2^30 operations, so that the counts do not wrap. *)
Theorem reg_alloc_exclusive (junk : partial) (mask0 tag0 : Z) (ops : list reg_op) :
  Z.of_nat (length ops) ≤ 2 ^ 30 →
  asked junk (RegAlloc.reset (RegAlloc.init mask0 tag0)) ops = true →
  ∃ r, reg_run junk (RegAlloc.reset (RegAlloc.init mask0 tag0)) ops = Ret r ∧
  let sp := foldl reg_spec_exec (reg_start tag0) ops in
  reg_rep r sp ∧ exclusive sp.
Proof.
  intros Hn Ha. destruct (reg_run_rep junk _ _ ops 0 (reg_start_rep mask0 tag0)) as (r & E & Hr);
    [done|lia|]. exists r. split; [done|]. intros sp. split; [done|].
  eapply (exclusive_run junk _ _ ops 0); [apply reg_start_rep|done|lia|apply reg_start_exclusive|done].
Qed.

Lemma reg_alloc_exclusive_witness : ∃ r,
  reg_run (0, 0) (RegAlloc.reset (RegAlloc.init 0 0))
    [AllocPartial 1 0xf0; AllocPartial 2 0x0f; DeallocPartial 0xf0; AllocPartial 3 0x30] = Ret r ∧
  exclusive {| fulls := []; parts := [(2, 0x0f); (3, 0x30)]; latest := 3 |}.
Proof.
  destruct (reg_alloc_exclusive (0, 0) 0 0
    [AllocPartial 1 0xf0; AllocPartial 2 0x0f; DeallocPartial 0xf0; AllocPartial 3 0x30])
    as (r & E & _ & He); [cbn; lia|vm_compute; reflexivity|]. exists r. split; [exact E|exact He].
Defined.
(** Each of these allocations is asked for first, and the answer is yes. *)
Example zero_mask_two_owners : let r0 := RegAlloc.reset (RegAlloc.init 0 0) in
  let r1 := RegAlloc.allocate r0 1 in
  RegAlloc.can_alloc r0 1 = true ∧ RegAlloc.can_alloc r1 2 = false ∧ RegAlloc.can_alloc_partial r1 0 = true ∧
  ∃ r2, RegAlloc.allocate_partial (0, 0) r1 2 0 = Ret r2 ∧ RegAlloc.can_alloc r2 2 = true ∧
  fulls (foldl reg_spec_exec (reg_start 0) [Alloc 1; AllocPartial 2 0; Alloc 2]) = [2; 1].
Proof. split_and!; [reflexivity..|]. eexists. split_and!; reflexivity. Qed.

(** ** Register files, element by element *)

Section File.
Import RegFileResource.

(** Changing one register leaves the others alone, and outside of the file
    nothing is defined. *)
Lemma elem_set_elem r i j a : 0 ≤ i → 0 ≤ j → is_Some (_allocs r !! Z.to_nat i) →
  elem (set_elem r i a) j = if j =? i then Ret a else elem r j.
Proof.
  intros Hi Hj Hs. apply lookup_lt_is_Some_1 in Hs. unfold elem, set_elem. cbn.
  destruct (Z.eqb_spec j i) as [->|Hne]; [by rewrite list_lookup_insert_eq|].
  by rewrite list_lookup_insert_ne by lia.
Qed.

(** A partial allocation in a file is the register's own, logged with its
    index. *)
Lemma file_allocate_mask junk r u iid l i m a : 0 ≤ i → elem r i = Ret a →
  match RegAlloc.allocate_partial junk a (to_tag iid) m with
  | Ret a' => ∃ r' ul, allocate_mask junk r u iid l i m = Ret (r', ul) ∧
      ∀ j, 0 ≤ j → elem r' j = if j =? i then Ret a' else elem r j
  | _ => True
  end.
Proof.
  intros Hi Ha. unfold allocate_mask. rewrite Ha. cbn [obind].
  destruct (RegAlloc.allocate_partial junk a (to_tag iid) m) as [a'| | |]; try done. cbn [obind].
  do 2 eexists. split; [done|]. intros j Hj. apply elem_set_elem; try done.
  unfold elem in Ha. by destruct (_allocs r !! Z.to_nat i).
Qed.
End File.
