(* ===== verification/ForwardingPath.v ===== *)
(** * Forwarding paths

    The general class of [src/uadl/ForwardingPath.h]: within a cycle
    instructions write register values into the entries of a path, with the
    register's id, their tag and the mask of valid bits; later instructions ask
    whether a value is there and read it into a slot of their own packet.  After
    the cycle the entries are invalid.

    Operands and instruction packets come from generated code: an [Operand] is a
    record of the functions that the path calls, the slots of a packet a
    function from slot numbers.  Data and masks are the values of
    [intbv<Width>]. *)
From stdpp Require Import prelude strings list.
From Stdlib Require Import ZArith Lia.
From S2P Require Import Prelude.
From S2P Require Import UadlResources.
From S2P Require Import RegResource.

Local Open Scope Z_scope.

(** An instruction: its id and the slots of its packet. *)
Record InstrType : Type := { iid : Z; slots : Z → Z }.
Definition set_slot (instr : InstrType) (i v : Z) : InstrType :=
  {| iid := iid instr; slots := λ j, if j =? i then v else slots instr j |}.

(** What the path uses of an operand. *)
Record Operand : Type := {
  num_sub_ops : Z;
  op_id : UadlArch → InstrType → Z → Z → Z;
  op_mask : InstrType → Z → Z;
  op_slot : Z → Z → Z;
  op_name : UadlArch → InstrType → Z → string
}.

Definition RegInvalidId : Z := 0.

Record Entry : Type := { _id : Z; _tag : Z; _data : Z; _mask : Z }.
Record ForwardingPath : Type := { _name : string; _cur : Z; _entries : list Entry }.

Section Path.
Context (SafeMode Broadcast : bool) (Size Width : Z).

(** [_full.set()] *)
Definition _full : Z := Z.ones Width.

Definition set_cur (fp : ForwardingPath) (c : Z) : ForwardingPath :=
  {| _name := _name fp; _cur := c; _entries := _entries fp |}.
Definition set_id (e : Entry) (id : Z) : Entry :=
  {| _id := id; _tag := _tag e; _data := _data e; _mask := _mask e |}.
Definition reset (fp : ForwardingPath) : ForwardingPath :=
  {| _name := _name fp; _cur := 0; _entries := (λ e, set_id e RegInvalidId) <$> _entries fp |}.
(** The constructor, on [Size] entries that hold anything. *)
Definition init (name : string) (raw : list Entry) : ForwardingPath :=
  reset {| _name := name; _cur := 0; _entries := raw |}.
Definition postCycle (fp : ForwardingPath) : ForwardingPath := set_cur fp 0.

(** [_entries[index]] *)
Definition entry (fp : ForwardingPath) (index : Z) : outcome Entry :=
  if index <? 0 then Undefined
  else match _entries fp !! Z.to_nat index with Some e => Ret e | None => Undefined end.

(** ** Writing *)

(** The entry that a sub-operand writes over the old one; a path in safe mode
    keeps no data. *)
Definition new_entry (u : UadlArch) (instr : InstrType) (op : Operand) (sub_op : Z) (old : Entry) : Entry :=
  let m := wrap Width (op_mask op instr sub_op) in
  {| _id := op_id op u instr sub_op 0;
     _tag := to_tag (iid instr);
     _data := if SafeMode then _data old else wrap Width (slots instr (op_slot op sub_op 0));
     _mask := if m =? 0 then _full else m |}.
Definition write_msg (fp : ForwardingPath) (u : UadlArch) (instr : InstrType) (op : Operand) (sub_op : Z)
    (e : Entry) : string :=
  "write " +:+ op_name op u instr sub_op +:+ " to " +:+ _name fp +:+ " (pos " +:+ to_dec (_cur fp) +:+ ")"
  +:+ (if SafeMode then "" else " 0x" +:+ to_hex (_data e)).
Definition write_step (u : UadlArch) (instr : InstrType) (op : Operand) (sub_op : nat)
    (s : outcome (ForwardingPath * option Logger)) : outcome (ForwardingPath * option Logger) :=
  let! s := s in
  let '(fp, l) := s in
  let! old := entry fp (_cur fp) in
  let e := new_entry u instr op (Z.of_nat sub_op) old in
  Ret ({| _name := _name fp; _cur := _cur fp + 1; _entries := <[Z.to_nat (_cur fp) := e]> (_entries fp) |},
       (λ l, Logger.logMessage l (write_msg fp u instr op (Z.of_nat sub_op) e)) <$> l).
Definition write (fp : ForwardingPath) (u : UadlArch) (instr : InstrType) (l : option Logger) (op : Operand) :
    outcome (ForwardingPath * option Logger) :=
  assert! wrap 32 (_cur fp + num_sub_ops op) <=? Size in
  for_up (Z.to_nat (num_sub_ops op)) 0 (write_step u instr op) (Ret (fp, l)).

(** ** Asking *)

Definition match_entry (e : Entry) (id : Z) : bool := id =? _id e.
(** The loop over [i], from [k - 1] down to zero. *)
Fixpoint find_loop (fp : ForwardingPath) (id : Z) (k : nat) : outcome Z :=
  match k with
  | O => Ret (-1)
  | S i =>
      let! e := entry fp (Z.of_nat i) in
      if match_entry e id then Ret (Z.of_nat i) else find_loop fp id i
  end.
Definition find (fp : ForwardingPath) (id : Z) : outcome Z := find_loop fp id (Z.to_nat (_cur fp)).

Definition can_read (fp : ForwardingPath) (id last : Z) : outcome bool :=
  let! res := find fp id in
  if res =? -1 then Ret false
  else let! e := entry fp res in Ret ((_mask e =? _full) && (Broadcast || (last =? _tag e))).
Definition can_read_tag (fp : ForwardingPath) (id tag : Z) : outcome bool :=
  let! res := find fp id in
  if res =? -1 then Ret false
  else let! e := entry fp res in Ret ((_mask e =? _full) && (tag =? _tag e)).
Definition can_read_tag_partial (fp : ForwardingPath) (id tag : Z) : outcome Z :=
  let! res := find fp id in
  if res =? -1 then Ret 0
  else let! e := entry fp res in Ret (if tag =? _tag e then _mask e else 0).
Fixpoint partial_loop (fp : ForwardingPath) (id : Z) (k : nat) (s : Z * Z) : outcome (Z * Z) :=
  match k with
  | O => Ret s
  | S i =>
      let! e := entry fp (Z.of_nat i) in
      if match_entry e id then
        if Broadcast then Ret (_mask e, _tag e)
        else partial_loop fp id i (Z.lor (fst s) (_mask e), if snd s =? -1 then _tag e else snd s)
      else partial_loop fp id i s
  end.
Definition can_read_partial (fp : ForwardingPath) (id : Z) : outcome (Z * Z) :=
  partial_loop fp id (Z.to_nat (_cur fp)) (0, -1).

(** ** Reading, in the mode with data *)

Definition read (fp : ForwardingPath) (u : UadlArch) (instr : InstrType) (op : Operand) (sub_op op_off : Z) :
    outcome InstrType :=
  let! index := find fp (op_id op u instr sub_op op_off) in
  let! e := entry fp index in
  Ret (set_slot instr (op_slot op sub_op op_off) (_data e)).
(** [DataHandler2::read_partial] *)
Definition merge_entry (instr : InstrType) (slot : Z) (e : Entry) : InstrType :=
  set_slot instr slot
    (Z.lor (Z.land (slots instr slot) (unot Width (_mask e))) (Z.land (_data e) (_mask e))).
Fixpoint read_partial_loop (fp : ForwardingPath) (u : UadlArch) (op : Operand) (sub_op op_off : Z) (k : nat)
    (instr : InstrType) : outcome InstrType :=
  match k with
  | O => Ret instr
  | S i =>
      let! e := entry fp (Z.of_nat i) in
      read_partial_loop fp u op sub_op op_off i
        (if match_entry e (op_id op u instr sub_op op_off)
         then merge_entry instr (op_slot op sub_op op_off) e else instr)
  end.
Definition read_partial (fp : ForwardingPath) (u : UadlArch) (instr : InstrType) (op : Operand)
    (sub_op op_off : Z) : outcome InstrType :=
  read_partial_loop fp u op sub_op op_off (Z.to_nat (_cur fp)) instr.
End Path.

(** ** The contents of a path *)

(** The entries written in this cycle, oldest first. *)
Record fp_rep (Size : Z) (fp : ForwardingPath) (l : list Entry) : Prop := {
  fp_size : Z.of_nat (length (_entries fp)) = Size;
  fp_max : Size < 2 ^ 31;
  fp_cur : _cur fp = Z.of_nat (length l);
  fp_entries : take (length l) (_entries fp) = l
}.

(** The most recent entry for a register. *)
Definition newest (id : Z) (l : list Entry) : option Entry := list.last (filter (λ e, _id e = id) l).

Section PathCorrect.
Context (SafeMode Broadcast : bool) (Size Width : Z).
Implicit Types (fp : ForwardingPath) (l : list Entry) (e : Entry).

Lemma fp_rep_postCycle fp l : fp_rep Size fp l → fp_rep Size (postCycle fp) [].
Proof. intros [Hs Hm Hc He]. by split. Qed.
Lemma fp_rep_reset fp l : fp_rep Size fp l → fp_rep Size (reset fp) [].
Proof. intros [Hs Hm Hc He]. split; cbn; try done. by rewrite length_fmap. Qed.
Lemma fp_rep_init name raw : Z.of_nat (length raw) = Size → Size < 2 ^ 31 → fp_rep Size (init name raw) [].
Proof. intros Hs Hm. split; cbn; try done. by rewrite length_fmap. Qed.

Lemma fp_length fp l : fp_rep Size fp l → (length l ≤ length (_entries fp))%nat.
Proof. intros [Hs Hm Hc He]. rewrite <- He, length_take. lia. Qed.

Lemma entry_spec fp l i e : fp_rep Size fp l → l !! i = Some e → entry fp (Z.of_nat i) = Ret e.
Proof.
  intros [Hs Hm Hc He] Hi. unfold entry. destruct (Z.ltb_spec (Z.of_nat i) 0); [lia|].
  rewrite Nat2Z.id. rewrite <- He in Hi. apply lookup_take_Some in Hi as [-> _]. done.
Qed.

(** *** Writing *)

Lemma write_step_spec u instr op k fp l lg : fp_rep Size fp l → Z.of_nat (length l) < Size →
  ∃ old fp' lg', write_step SafeMode Width u instr op k (Ret (fp, lg)) = Ret (fp', lg') ∧
  fp_rep Size fp' (l ++ [new_entry SafeMode Width u instr op (Z.of_nat k) old]).
Proof.
  intros [Hs Hm Hc He] Hlt. unfold write_step. cbn [obind]. unfold entry. rewrite Hc.
  destruct (Z.ltb_spec (Z.of_nat (length l)) 0); [lia|]. rewrite Nat2Z.id.
  destruct (lookup_lt_is_Some_2 (_entries fp) (length l)) as [old Hold]; [lia|]. rewrite Hold. cbn [obind].
  exists old. do 2 eexists. split; [done|]. split; cbn [_entries _cur].
  - by rewrite length_insert.
  - done.
  - rewrite length_app. cbn [length]. lia.
  - rewrite length_app. cbn [length]. rewrite Nat.add_1_r.
    erewrite take_S_r by (rewrite list_lookup_insert_eq; [done|lia]).
    f_equal. rewrite take_insert_ge by lia. done.
Qed.

Lemma write_spec fp l u instr lg op : fp_rep Size fp l → 0 ≤ num_sub_ops op < 2 ^ 31 →
  (Z.of_nat (length l) + num_sub_ops op ≤ Size → ∃ fp' lg' es,
     write SafeMode Size Width fp u instr lg op = Ret (fp', lg') ∧ fp_rep Size fp' (l ++ es) ∧
     Z.of_nat (length es) = num_sub_ops op ∧
     ∀ k e, es !! k = Some e → ∃ old, e = new_entry SafeMode Width u instr op (Z.of_nat k) old) ∧
  (Size < Z.of_nat (length l) + num_sub_ops op → write SafeMode Size Width fp u instr lg op = AssertFail).
Proof.
  intros Hr Hn. pose proof (fp_length _ _ Hr) as Hlen. pose proof Hr as [Hs Hm Hc He]. unfold write.
  rewrite Hc, wrap_small by (unfold uint; lia). split; intros Hle.
  - rewrite (proj2 (Z.leb_le _ _)) by done.
    destruct (for_up_ind (λ k s, ∃ fp' lg' es, s = Ret (fp', lg') ∧ fp_rep Size fp' (l ++ es) ∧ length es = k ∧
      ∀ j e, es !! j = Some e → ∃ old, e = new_entry SafeMode Width u instr op (Z.of_nat j) old)
      (Z.to_nat (num_sub_ops op)) 0 (write_step SafeMode Width u instr op) (Ret (fp, lg)))
      as (fp' & lg' & es & E & Hr' & Hes & Hnew).
    + exists fp, lg, []. rewrite app_nil_r. split_and!; try done.
    + intros k s Hk (fp1 & lg1 & es & -> & Hr1 & Hes & Hnew).
      destruct (write_step_spec u instr op k fp1 _ lg1 Hr1) as (old & fp2 & lg2 & E & Hr2);
        [rewrite length_app; lia|].
      exists fp2, lg2, (es ++ [new_entry SafeMode Width u instr op (Z.of_nat k) old]).
      rewrite (assoc_L (++)), length_app. cbn [length]. split_and!; [done..|lia|].
      intros j e Hj. apply lookup_app_Some in Hj as [Hj|[Hj1 Hj2]]; [by apply Hnew|].
      apply list_lookup_singleton_Some in Hj2 as [Hj2 <-]. exists old. do 2 f_equal. lia.
    + exists fp', lg', es. split_and!; [done..|lia|done].
  - by rewrite (proj2 (Z.leb_gt _ _)) by done.
Qed.

(** *** Asking *)

Lemma newest_snoc id l e : newest id (l ++ [e]) = if decide (_id e = id) then Some e else newest id l.
Proof.
  unfold newest. rewrite filter_app, filter_cons, filter_nil. case_decide; [by rewrite last_snoc|].
  by rewrite app_nil_r.
Qed.

Lemma find_loop_spec fp l id k : fp_rep Size fp l → (k ≤ length l)%nat →
  match newest id (take k l) with
  | Some e => ∃ i, find_loop fp id k = Ret (Z.of_nat i) ∧ l !! i = Some e
  | None => find_loop fp id k = Ret (-1)
  end.
Proof.
  intros Hr. induction k as [|i IH]; intros Hk; [done|].
  destruct (lookup_lt_is_Some_2 l i ltac:(lia)) as [e Hi].
  rewrite (take_S_r _ _ _ Hi), newest_snoc. cbn [find_loop]. rewrite (entry_spec _ _ _ _ Hr Hi). cbn [obind].
  unfold match_entry. destruct (decide (_id e = id)) as [<-|Hne].
  - rewrite Z.eqb_refl. by exists i.
  - rewrite (proj2 (Z.eqb_neq id (_id e))) by congruence. apply IH. lia.
Qed.

Lemma path_find_spec fp l id : fp_rep Size fp l →
  match newest id l with
  | Some e => ∃ i, find fp id = Ret (Z.of_nat i) ∧ entry fp (Z.of_nat i) = Ret e
  | None => find fp id = Ret (-1)
  end.
Proof.
  intros Hr. pose proof (find_loop_spec fp l id (length l) Hr ltac:(lia)) as H.
  rewrite firstn_all in H. unfold find. rewrite (fp_cur _ _ _ Hr), Nat2Z.id.
  destruct (newest id l) as [e|]; [|done]. destruct H as (i & E & Hi). exists i.
  split; [done|by eapply entry_spec].
Qed.

(** What the loop of a partial query collects, and what it comes to. *)
Definition collect (e : Entry) (s : Z * Z) : Z * Z :=
  (Z.lor (fst s) (_mask e), if snd s =? -1 then _tag e else snd s).
Definition or_masks (l : list Entry) : Z := foldr (λ e m, Z.lor (_mask e) m) 0 l.

Lemma partial_loop_spec fp l id k s : fp_rep Size fp l → (k ≤ length l)%nat →
  partial_loop false fp id k s = Ret (foldr collect s (filter (λ e, _id e = id) (take k l))).
Proof.
  intros Hr Hk. revert s Hk. induction k as [|i IH]; intros s Hk; [done|].
  destruct (lookup_lt_is_Some_2 l i ltac:(lia)) as [e Hi]. cbn [partial_loop].
  rewrite (entry_spec _ _ _ _ Hr Hi). cbn [obind].
  rewrite (take_S_r _ _ _ Hi), filter_app, filter_cons, filter_nil, foldr_app.
  unfold match_entry. destruct (decide (_id e = id)) as [<-|Hne].
  - rewrite Z.eqb_refl. apply IH. lia.
  - rewrite (proj2 (Z.eqb_neq id (_id e))) by congruence. apply IH. lia.
Qed.

Lemma partial_loop_broadcast fp l id k s : fp_rep Size fp l → (k ≤ length l)%nat →
  partial_loop true fp id k s =
  Ret match newest id (take k l) with Some e => (_mask e, _tag e) | None => s end.
Proof.
  intros Hr Hk. revert s Hk. induction k as [|i IH]; intros s Hk; [done|].
  destruct (lookup_lt_is_Some_2 l i ltac:(lia)) as [e Hi]. cbn [partial_loop].
  rewrite (entry_spec _ _ _ _ Hr Hi). cbn [obind]. rewrite (take_S_r _ _ _ Hi), newest_snoc.
  unfold match_entry. destruct (decide (_id e = id)) as [<-|Hne]; [by rewrite Z.eqb_refl|].
  rewrite (proj2 (Z.eqb_neq id (_id e))) by congruence. apply IH. lia.
Qed.

Lemma collect_mask s l : fst (foldr collect s l) = Z.lor (fst s) (or_masks l).
Proof.
  induction l as [|e l IH]; cbn; [by rewrite Z.lor_0_r|]. unfold or_masks in *. rewrite IH.
  by rewrite <- !Z.lor_assoc, (Z.lor_comm (_mask e)).
Qed.
(** A tag that has been found stays. *)
Lemma collect_tag s l : snd s ≠ -1 → snd (foldr collect s l) = snd s.
Proof.
  intros Hs. induction l as [|e l IH]; [done|]. cbn [foldr collect snd]. rewrite IH.
  by rewrite (proj2 (Z.eqb_neq _ _)).
Qed.

Lemma can_read_partial_spec fp l id : fp_rep Size fp l →
  ∃ tag, can_read_partial false fp id = Ret (or_masks (filter (λ e, _id e = id) l), tag) ∧
  (newest id l = None → tag = -1) ∧ (∀ e, newest id l = Some e → _tag e ≠ -1 → tag = _tag e).
Proof.
  intros Hr. unfold can_read_partial. rewrite (fp_cur _ _ _ Hr), Nat2Z.id.
  rewrite (partial_loop_spec fp l id _ _ Hr), firstn_all by lia. unfold newest.
  set (m := filter _ l). exists (snd (foldr collect (0, -1) m)).
  split; [by rewrite (surjective_pairing (foldr _ _ _)), collect_mask|]. split.
  - intros Hm. apply last_None in Hm as ->. done.
  - intros e Hm He. apply last_Some in Hm as [l' ->]. rewrite foldr_app. cbn [foldr].
    by rewrite collect_tag.
Qed.

(** *** Reading *)

(** The id of an operand does not depend on the slots. *)
Definition id_stable (op : Operand) : Prop := ∀ u instr i v s o,
  op_id op u (set_slot instr i v) s o = op_id op u instr s o.

(** The entries for a register that hold bit [j]. *)
Definition holders (id j : Z) (l : list Entry) : list Entry :=
  filter (λ e, _id e = id ∧ Z.testbit (_mask e) j = true) l.
(** Bit [j] of the slot after a partial read: from the oldest entry that holds
    it. *)
Definition merged_bit (id j : Z) (l : list Entry) (old : bool) : bool :=
  match head (holders id j l) with Some e => Z.testbit (_data e) j | None => old end.

Lemma merged_snoc id j l e old : merged_bit id j (l ++ [e]) old =
  merged_bit id j l (if decide (_id e = id ∧ Z.testbit (_mask e) j = true) then Z.testbit (_data e) j else old).
Proof.
  unfold merged_bit, holders. rewrite filter_app, filter_cons, filter_nil.
  destruct (filter _ l); cbn; [by case_decide|done].
Qed.

Lemma merge_entry_bit instr slot e j : 0 ≤ j < Width →
  Z.testbit (slots (merge_entry Width instr slot e) slot) j =
  if Z.testbit (_mask e) j then Z.testbit (_data e) j else Z.testbit (slots instr slot) j.
Proof.
  intros Hj. cbn. rewrite Z.eqb_refl, Z.lor_spec, !Z.land_spec. unfold unot.
  rewrite testbit_wrap, testbit_lnot by lia. rewrite (proj2 (Z.ltb_lt _ _)), (proj2 (Z.leb_le _ _)) by lia. cbn.
  by destruct (Z.testbit (_mask e) j), (Z.testbit (_data e) j), (Z.testbit (slots instr slot) j).
Qed.

Lemma read_partial_loop_spec fp l u op sub off k instr : fp_rep Size fp l → id_stable op → (k ≤ length l)%nat →
  ∃ instr', read_partial_loop Width fp u op sub off k instr = Ret instr' ∧ iid instr' = iid instr ∧
  (∀ i, i ≠ op_slot op sub off → slots instr' i = slots instr i) ∧
  (∀ j, 0 ≤ j < Width → Z.testbit (slots instr' (op_slot op sub off)) j =
     merged_bit (op_id op u instr sub off) j (take k l) (Z.testbit (slots instr (op_slot op sub off)) j)).
Proof.
  intros Hr Hst. revert instr. induction k as [|i IH]; intros instr Hk; [by exists instr|].
  destruct (lookup_lt_is_Some_2 l i ltac:(lia)) as [e Hi]. cbn [read_partial_loop].
  rewrite (entry_spec _ _ _ _ Hr Hi), (take_S_r _ _ _ Hi). cbn [obind]. unfold match_entry.
  set (id := op_id op u instr sub off). set (slot := op_slot op sub off) in *.
  destruct (Z.eqb_spec id (_id e)) as [Hid|Hid].
  - destruct (IH (merge_entry Width instr slot e) ltac:(lia)) as (instr' & -> & H1 & H2 & H3).
    exists instr'. split_and!; [done..| |].
    + intros i' Hi'. rewrite H2 by done. cbn. by rewrite (proj2 (Z.eqb_neq _ _)).
    + intros j Hj. rewrite H3 by done. unfold merge_entry at 1. rewrite Hst. fold id.
      rewrite merged_snoc, merge_entry_bit by done. f_equal.
      destruct (Z.testbit (_mask e) j) eqn:Em; [by rewrite decide_True|].
      rewrite decide_False; [done|]. intros [_ ?]. congruence.
  - destruct (IH instr ltac:(lia)) as (instr' & -> & H1 & H2 & H3). exists instr'. split_and!; [done..|].
    intros j Hj. rewrite H3 by done. fold id. rewrite merged_snoc, decide_False; [done|].
    intros [? _]. congruence.
Qed.
End PathCorrect.

(** C22: a forwarding path holds the entries written since the last cycle.  A
    write appends one entry per sub-operand (with the instruction's tag, the
    operand's mask or a full one, and its data), and trips the assertion when
    there is no room.  Queries and reads go by the most recent entry of the
    register: a full read is possible when that entry is complete and, unless the
    path broadcasts, is from the instruction that last allocated the register,
    and it moves that entry's data into the slot.  The end of the cycle and a
    reset leave nothing to read. *)
Theorem forwarding_path_refines (SafeMode Broadcast : bool) (Size Width : Z) (fp : ForwardingPath)
    (l : list Entry) (u : UadlArch) (instr : InstrType) (lg : option Logger) (op : Operand) :
  fp_rep Size fp l → 0 ≤ num_sub_ops op < 2 ^ 31 →
  (Z.of_nat (length l) + num_sub_ops op ≤ Size → ∃ fp' lg' es,
     write SafeMode Size Width fp u instr lg op = Ret (fp', lg') ∧ fp_rep Size fp' (l ++ es) ∧
     Z.of_nat (length es) = num_sub_ops op ∧
     ∀ k e, es !! k = Some e → ∃ old, e = new_entry SafeMode Width u instr op (Z.of_nat k) old) ∧
  (Size < Z.of_nat (length l) + num_sub_ops op → write SafeMode Size Width fp u instr lg op = AssertFail) ∧
  (∀ id tag, match newest id l with
     | Some e =>
         can_read Broadcast Width fp id tag = Ret ((_mask e =? _full Width) && (Broadcast || (tag =? _tag e))) ∧
         can_read_tag Width fp id tag = Ret ((_mask e =? _full Width) && (tag =? _tag e)) ∧
         can_read_tag_partial fp id tag = Ret (if tag =? _tag e then _mask e else 0)
     | None => can_read Broadcast Width fp id tag = Ret false ∧ can_read_tag Width fp id tag = Ret false ∧
         can_read_tag_partial fp id tag = Ret 0
     end) ∧
  (∀ sub off, read fp u instr op sub off =
     match newest (op_id op u instr sub off) l with
     | Some e => Ret (set_slot instr (op_slot op sub off) (_data e))
     | None => Undefined
     end) ∧
  fp_rep Size (postCycle fp) [] ∧ fp_rep Size (reset fp) [].
Proof.
  intros Hr Hn. destruct (write_spec SafeMode Size Width fp l u instr lg op Hr Hn) as [Hw1 Hw2].
  split_and!; [exact Hw1|exact Hw2| | |by eapply fp_rep_postCycle|by eapply fp_rep_reset].
  - intros id tag. pose proof (path_find_spec Size fp l id Hr) as Hf.
    unfold can_read, can_read_tag, can_read_tag_partial.
    destruct (newest id l) as [e|]; [|by rewrite Hf].
    destruct Hf as (i & -> & He). cbn [obind].
    rewrite (proj2 (Z.eqb_neq (Z.of_nat i) (-1))) by lia. by rewrite He.
  - intros sub off. unfold read. pose proof (path_find_spec Size fp l (op_id op u instr sub off) Hr) as Hf.
    destruct (newest _ l) as [e|]; [|by rewrite Hf].
    destruct Hf as (i & -> & He). cbn [obind]. by rewrite He.
Qed.

(** A path of four entries with two values for register 9 and one for 5. *)
Definition sample_entries : list Entry :=
  [{| _id := 9; _tag := 1; _data := 0xaa; _mask := 0xff |};
   {| _id := 5; _tag := 2; _data := 0x11; _mask := 0xff |};
   {| _id := 9; _tag := 3; _data := 0xbb; _mask := 0xff |}].
Definition sample : ForwardingPath :=
  {| _name := "fwd"; _cur := 3;
     _entries := sample_entries ++ [{| _id := 9; _tag := 0; _data := 0; _mask := 0 |}] |}.
Definition sample_op (n : Z) : Operand :=
  {| num_sub_ops := n; op_id := λ _ _ _ _, 9; op_mask := λ _ _, 0; op_slot := λ _ _, 2;
     op_name := λ _ _ _, "r9" |}.
Definition sample_instr : InstrType := {| iid := 4; slots := λ i, i |}.
Lemma sample_rep : fp_rep 4 sample sample_entries.
Proof. by split. Qed.

Lemma forwarding_path_refines_witness :
  can_read false 8 sample 9 3 = Ret true ∧
  read sample (idle_core 0) sample_instr (sample_op 1) 0 0 = Ret (set_slot sample_instr 2 0xbb) ∧
  write false 4 8 sample (idle_core 0) sample_instr None (sample_op 2) = AssertFail.
Proof.
  destruct (forwarding_path_refines false false 4 8 sample sample_entries (idle_core 0) sample_instr None
    (sample_op 2) sample_rep ltac:(cbn; lia)) as (_ & Hw & Hq & Hrd & _).
  split_and!; [exact (proj1 (Hq 9 3))|exact (Hrd 0 0)|apply Hw; cbn; lia].
Defined.

(** A query for parts of a register gives the union of the masks of its
    entries and the tag of the most recent one (which has to differ from the
    value [-1] that stands for none); a broadcasting path gives the most recent
    entry only.  A partial read puts into each bit of the slot the bit of the
    oldest entry whose mask has it, and keeps the bits that no entry has. *)
Theorem forwarding_partial_read (Size Width : Z) (fp : ForwardingPath) (l : list Entry) (u : UadlArch)
    (instr : InstrType) (op : Operand) (sub off : Z) :
  fp_rep Size fp l → id_stable op →
  (∀ id, ∃ tag, can_read_partial false fp id = Ret (or_masks (filter (λ e, _id e = id) l), tag) ∧
     (newest id l = None → tag = -1) ∧ (∀ e, newest id l = Some e → _tag e ≠ -1 → tag = _tag e)) ∧
  (∀ id, can_read_partial true fp id =
     Ret match newest id l with Some e => (_mask e, _tag e) | None => (0, -1) end) ∧
  (∃ instr', read_partial Width fp u instr op sub off = Ret instr' ∧ iid instr' = iid instr ∧
     (∀ i, i ≠ op_slot op sub off → slots instr' i = slots instr i) ∧
     (∀ j, 0 ≤ j < Width → Z.testbit (slots instr' (op_slot op sub off)) j =
        merged_bit (op_id op u instr sub off) j l (Z.testbit (slots instr (op_slot op sub off)) j))).
Proof.
  intros Hr Hst. split_and!.
  - intros id. by eapply can_read_partial_spec.
  - intros id. unfold can_read_partial. rewrite (fp_cur _ _ _ Hr), Nat2Z.id.
    by rewrite (partial_loop_broadcast Size fp l), firstn_all by (done || lia).
  - unfold read_partial. rewrite (fp_cur _ _ _ Hr), Nat2Z.id.
    destruct (read_partial_loop_spec Size Width fp l u op sub off (length l) instr Hr Hst ltac:(lia))
      as (instr' & H). rewrite firstn_all in H. by exists instr'.
Qed.

(** Where a full read gives the most recent value, [0xbb], a partial one gives
    the oldest, [0xaa]. *)
Lemma forwarding_partial_read_witness :
  (∃ tag, can_read_partial false sample 9 = Ret (0xff, tag) ∧ tag = 3) ∧
  ∃ instr', read_partial 8 sample (idle_core 0) sample_instr (sample_op 1) 0 0 = Ret instr' ∧
    Z.testbit (slots instr' 2) 0 = Z.testbit 0xaa 0.
Proof.
  destruct (forwarding_partial_read 4 8 sample sample_entries (idle_core 0) sample_instr (sample_op 1) 0 0
    sample_rep ltac:(done)) as (H1 & _ & (instr' & E & _ & _ & H3)). split.
  - destruct (H1 9) as (tag & E' & _ & Ht). exists tag. split; [exact E'|].
    by apply (Ht {| _id := 9; _tag := 3; _data := 0xbb; _mask := 0xff |}).
  - exists instr'. split; [exact E|]. exact (H3 0 ltac:(lia)).
Defined.
