(* ===== verification/MemBytes.v ===== *)
(** * Bytes in memory and their order

    The byte-pointer routines of [src/iss/Memory.h]: values of 8, 4, 2 and 1
    bytes in a buffer, in the two storage formats between which
    [DATA_INVARIANT_MEMORY] chooses.  The first swaps bytes and keeps addresses;
    the second keeps the host's byte order and inverts the low three bits of
    addresses.  The host is little-endian.

    Each format is an instance of [ByteOrder]; [ByteOrderLaws] says what a memory
    relies on, in terms of the byte at each logical offset, and holds of both. *)
From stdpp Require Import prelude list.
From Stdlib Require Import ZArith Lia.
From S2P Require Import Prelude.

Local Open Scope Z_scope.

Definition DWMask : Z := 7.
Definition WordMask : Z := 3.
Definition HWMask : Z := 1.
Definition BytesPerDW : Z := 8.
Definition BytesPerWord : Z := 4.
Definition BytesPerHW : Z := 2.

(** ** Buffers *)

(** The bytes of an [n]-byte integer in the memory of the host, and back. *)
Definition host_bytes (n : nat) (x : Z) : list Z := rdigits 8 n x.
Definition host_value (l : list Z) : Z := beval 8 (reverse l).

(** [n] bytes read from a buffer, and bytes copied into it. *)
Definition load (p : list Z) (off : Z) (n : nat) : outcome (list Z) :=
  if (0 <=? off) && (off + Z.of_nat n <=? Z.of_nat (length p))
  then Ret (take n (drop (Z.to_nat off) p)) else Undefined.
Definition memcpy (p : list Z) (off : Z) (s : list Z) : outcome (list Z) :=
  if (0 <=? off) && (off + Z.of_nat (length s) <=? Z.of_nat (length p))
  then Ret (take (Z.to_nat off) p ++ s ++ drop (Z.to_nat off + length s) p) else Undefined.

(** The unions of the swap routines: the bytes in reverse order. *)
Definition swab16 (x : Z) : Z := host_value (reverse (host_bytes 2 x)).
Definition swab32 (x : Z) : Z := host_value (reverse (host_bytes 4 x)).
Definition swab64 (x : Z) : Z := host_value (reverse (host_bytes 8 x)).
Definition be16 (a : Z) : Z := swab16 a.
Definition be32 (a : Z) : Z := swab32 a.
Definition be64 (a : Z) : Z := swab64 a.

Definition byte_pagecopy (trg : list Z) (toffset : Z) (src : list Z) (soffset : Z) (n : Z) : outcome (list Z) :=
  let! s := load src soffset (Z.to_nat n) in memcpy trg toffset s.
Definition byte_pagefill (trg : list Z) (toffset : Z) (fill : Z) (n : Z) : outcome (list Z) :=
  memcpy trg toffset (replicate (Z.to_nat n) fill).

(** The sizes of an access. *)
Inductive width : Type := W64 | W32 | W16.
Definition nbytes (w : width) : nat := match w with W64 => 8 | W32 => 4 | W16 => 2 end.

(** [*((T* )&p[offset])], read and written; [memcpy(&p[offset],&value,nb)]. *)
Definition host_load (n : nat) (p : list Z) (offset : Z) : outcome Z :=
  let! l := load p offset n in Ret (host_value l).
Definition host_store (n : nat) (p : list Z) (offset value : Z) : outcome (list Z) :=
  memcpy p offset (host_bytes n value).
Definition host_copy (n : nat) (p : list Z) (offset value nb : Z) : outcome (list Z) :=
  if nb <=? Z.of_nat n then memcpy p offset (take (Z.to_nat nb) (host_bytes n value)) else Undefined.

(** ** Address-invariant storage: bytes are swapped *)

Module AddrInvariant.
Definition byte_read64 (p : list Z) (offset : Z) : outcome Z :=
  let! tmp := host_load 8 p offset in Ret (be64 tmp).
Definition byte_read32 (p : list Z) (offset : Z) : outcome Z :=
  let! tmp := host_load 4 p offset in Ret (be32 tmp).
Definition byte_read16 (p : list Z) (offset : Z) : outcome Z :=
  let! tmp := host_load 2 p offset in Ret (be16 tmp).
Definition byte_read8 (p : list Z) (offset : Z) : outcome Z :=
  let! l := load p offset 1 in Ret (l !!! 0%nat).
Definition byte_write64 (p : list Z) (offset orig_value nb : Z) : outcome (list Z) :=
  let value := be64 orig_value in
  if nb =? BytesPerDW then host_store 8 p offset value else host_copy 8 p offset value nb.
Definition byte_write32 (p : list Z) (offset orig_value nb : Z) : outcome (list Z) :=
  let value := be32 orig_value in
  if nb =? BytesPerWord then host_store 4 p offset value else host_copy 4 p offset value nb.
(** The test is against [BytesPerWord] here too. *)
Definition byte_write16 (p : list Z) (offset orig_value nb : Z) : outcome (list Z) :=
  let value := be16 orig_value in
  if nb =? BytesPerWord then host_store 2 p offset value else host_copy 2 p offset value nb.
Definition byte_write8 (p : list Z) (offset orig_value : Z) : outcome (list Z) :=
  memcpy p offset [orig_value].
Definition swizzle_addr (NB : nat) (addr : Z) : Z := addr.
End AddrInvariant.

(** ** Data-invariant storage: addresses are swizzled *)

Module DataInvariant.
(** [buf + (offset ^ DWMask) - mask] *)
Definition swizzle (offset mask : Z) : Z := Z.lxor offset DWMask - mask.
Definition byte_read64 (buf : list Z) (offset : Z) : outcome Z := host_load 8 buf (swizzle offset DWMask).
Definition byte_read32 (buf : list Z) (offset : Z) : outcome Z := host_load 4 buf (swizzle offset WordMask).
Definition byte_read16 (buf : list Z) (offset : Z) : outcome Z := host_load 2 buf (swizzle offset HWMask).
Definition byte_read8 (p : list Z) (offset : Z) : outcome Z :=
  let! l := load p (Z.lxor offset DWMask) 1 in Ret (l !!! 0%nat).
(** The last [nb] bytes of the value to the end of its place. *)
Definition write_tail (n : nat) (buf : list Z) (base x nb : Z) : outcome (list Z) :=
  if nb <=? Z.of_nat n
  then memcpy buf (base + Z.of_nat n - nb) (drop (n - Z.to_nat nb) (host_bytes n x)) else Undefined.
Definition byte_write64 (buf : list Z) (offset x nb : Z) : outcome (list Z) :=
  write_tail 8 buf (swizzle offset DWMask) x nb.
Definition byte_write32 (buf : list Z) (offset x nb : Z) : outcome (list Z) :=
  write_tail 4 buf (swizzle offset WordMask) x nb.
Definition byte_write16 (buf : list Z) (offset x nb : Z) : outcome (list Z) :=
  write_tail 2 buf (swizzle offset HWMask) x nb.
Definition byte_write8 (p : list Z) (offset orig_value : Z) : outcome (list Z) :=
  memcpy p (Z.lxor offset DWMask) [orig_value].
(** 64-bit arithmetic on an address; other sizes trip the assertion. *)
Definition swizzle_addr (NB : nat) (addr : Z) : outcome Z :=
  match NB with
  | 8%nat => Ret (wrap 64 (Z.lxor addr DWMask - DWMask))
  | 4%nat => Ret (wrap 64 (Z.lxor addr DWMask - WordMask))
  | 2%nat => Ret (wrap 64 (Z.lxor addr DWMask - HWMask))
  | 1%nat => Ret (Z.lxor addr DWMask)
  | _ => AssertFail
  end.
End DataInvariant.

(** ** The interface that both formats implement *)

Class ByteOrder : Type := {
  byte_read : width → list Z → Z → outcome Z;
  byte_read8 : list Z → Z → outcome Z;
  byte_write : width → list Z → Z → Z → Z → outcome (list Z);
  byte_write8 : list Z → Z → Z → outcome (list Z);
  (** where the byte of a logical offset is, and which reads stay inside *)
  place : Z → Z;
  readable : width → list Z → Z → bool
}.

Definition addr_invariant : ByteOrder := {|
  byte_read w := match w with W64 => AddrInvariant.byte_read64 | W32 => AddrInvariant.byte_read32
                            | W16 => AddrInvariant.byte_read16 end;
  byte_read8 := AddrInvariant.byte_read8;
  byte_write w := match w with W64 => AddrInvariant.byte_write64 | W32 => AddrInvariant.byte_write32
                             | W16 => AddrInvariant.byte_write16 end;
  byte_write8 := AddrInvariant.byte_write8;
  place off := off;
  readable w p off := off + Z.of_nat (nbytes w) <=? Z.of_nat (length p)
|}.
Definition data_invariant : ByteOrder := {|
  byte_read w := match w with W64 => DataInvariant.byte_read64 | W32 => DataInvariant.byte_read32
                            | W16 => DataInvariant.byte_read16 end;
  byte_read8 := DataInvariant.byte_read8;
  byte_write w := match w with W64 => DataInvariant.byte_write64 | W32 => DataInvariant.byte_write32
                             | W16 => DataInvariant.byte_write16 end;
  byte_write8 := DataInvariant.byte_write8;
  place off := Z.lxor off DWMask;
  readable w p off := Z.of_nat (nbytes w) - 1 <=? Z.lxor off DWMask
|}.

(** The byte at a logical offset; byte [k] of an [n]-byte value, the most
    significant one first. *)
Definition byte_at `{ByteOrder} (p : list Z) (off : Z) : Z := p !!! Z.to_nat (place off).
Definition top_byte (n : nat) (v k : Z) : Z := wrap 8 (v / 2 ^ (8 * (Z.of_nat n - 1 - k))).

(** A buffer of bytes made of whole double-words. *)
Definition page (p : list Z) : Prop := digits 8 p ∧ Z.of_nat (length p) mod 8 = 0.

(** Accesses are big-endian in logical offsets as long as they do not leave a
    double-word; a read that does leave it still has the bytes before its end, if
    it stays inside of the buffer. *)
Class ByteOrderLaws (B : ByteOrder) : Prop := {
  place_range L off : L mod 8 = 0 → 0 ≤ off < L → 0 ≤ place off < L;
  place_inj a b : 0 ≤ a → 0 ≤ b → place a = place b → a = b;
  place_shift q o : 0 ≤ q → 0 ≤ o → place (8 * q + o) = 8 * q + place o;
  read_law w p off : page p → 0 ≤ off < Z.of_nat (length p) → readable w p off = true →
    ∃ v, byte_read w p off = Ret v ∧ uint (8 * Z.of_nat (nbytes w)) v ∧
    ∀ k, 0 ≤ k < Z.of_nat (nbytes w) → off mod 8 + k < 8 → top_byte (nbytes w) v k = byte_at p (off + k);
  unreadable_law w p off : page p → 0 ≤ off < Z.of_nat (length p) → readable w p off = false →
    byte_read w p off = Undefined;
  readable_length w p p' off : length p = length p' → readable w p off = readable w p' off;
  readable_law w p off : page p → 0 ≤ off < Z.of_nat (length p) →
    off mod 8 + Z.of_nat (nbytes w) ≤ 8 → readable w p off = true;
  read8_law p off : page p → 0 ≤ off < Z.of_nat (length p) → byte_read8 p off = Ret (byte_at p off);
  write_law w p off v nb : page p → 0 ≤ off < Z.of_nat (length p) →
    0 ≤ nb ≤ Z.of_nat (nbytes w) → off mod 8 + nb ≤ 8 →
    ∃ p', byte_write w p off v nb = Ret p' ∧ page p' ∧ length p' = length p ∧
    ∀ a, 0 ≤ a < Z.of_nat (length p) → byte_at p' a =
      if (off <=? a) && (a <? off + nb) then top_byte (nbytes w) v (a - off) else byte_at p a;
  write8_law p off v : page p → 0 ≤ off < Z.of_nat (length p) → uint 8 v →
    ∃ p', byte_write8 p off v = Ret p' ∧ page p' ∧ length p' = length p ∧
    ∀ a, 0 ≤ a < Z.of_nat (length p) → byte_at p' a = if a =? off then v else byte_at p a
}.

(** ** The laws *)

Section Buffers.
Implicit Types (p l s : list Z).

Lemma buf_load_spec p off n : digits 8 p → 0 ≤ off → off + Z.of_nat n ≤ Z.of_nat (length p) →
  ∃ l, load p off n = Ret l ∧ length l = n ∧ digits 8 l ∧
  ∀ i, (i < n)%nat → l !!! i = p !!! Z.to_nat (off + Z.of_nat i).
Proof.
  intros Hd Ho Hn. unfold load. rewrite (proj2 (Z.leb_le 0 off)), (proj2 (Z.leb_le (off + _) _)) by done.
  eexists. split_and!; [done|rewrite length_take, length_drop; lia|by apply Forall_take, Forall_drop|].
  intros i Hi. rewrite !list_lookup_total_alt, lookup_take_lt, lookup_drop by done. do 2 f_equal. lia.
Qed.
Lemma load_outside p off n : off < 0 ∨ Z.of_nat (length p) < off + Z.of_nat n → load p off n = Undefined.
Proof.
  intros H. unfold load. destruct (Z.leb_spec 0 off), (Z.leb_spec (off + Z.of_nat n) (Z.of_nat (length p)));
    done || lia.
Qed.

Lemma memcpy_spec p off s : digits 8 p → digits 8 s → 0 ≤ off → off + Z.of_nat (length s) ≤ Z.of_nat (length p) →
  ∃ p', memcpy p off s = Ret p' ∧ length p' = length p ∧ digits 8 p' ∧
  ∀ i, (i < length p)%nat → p' !!! i =
    if (off <=? Z.of_nat i) && (Z.of_nat i <? off + Z.of_nat (length s))
    then s !!! Z.to_nat (Z.of_nat i - off) else p !!! i.
Proof.
  intros Hp Hs Ho Hn. unfold memcpy.
  rewrite (proj2 (Z.leb_le 0 off)), (proj2 (Z.leb_le (off + _) _)) by done. eexists. split; [done|]. split_and!.
  - rewrite !length_app, length_take, length_drop. lia.
  - apply Forall_app; split; [by apply Forall_take|apply Forall_app; split; [done|by apply Forall_drop]].
  - intros i Hi. rewrite !list_lookup_total_alt.
    destruct (Z.leb_spec off (Z.of_nat i)), (Z.ltb_spec (Z.of_nat i) (off + Z.of_nat (length s))); cbn [andb]; f_equal.
    + rewrite lookup_app_r by (rewrite length_take; lia).
      rewrite lookup_app_l by (rewrite length_take; lia). rewrite length_take. f_equal. lia.
    + rewrite lookup_app_r by (rewrite length_take; lia).
      rewrite lookup_app_r by (rewrite length_take; lia). rewrite lookup_drop, length_take. f_equal. lia.
    + rewrite lookup_app_l by (rewrite length_take; lia). rewrite lookup_take_lt by lia. done.
    + lia.
Qed.

Lemma host_bytes_value l : digits 8 l → host_bytes (length l) (host_value l) = l.
Proof.
  intros Hl. unfold host_bytes, host_value. rewrite <- (length_reverse l).
  rewrite <- reverse_digits by (lia || by apply Forall_reverse). apply reverse_involutive.
Qed.
Lemma host_value_bytes n x : uint (8 * Z.of_nat n) x → host_value (host_bytes n x) = x.
Proof. intros. by apply beval_reverse_rdigits. Qed.
Lemma length_host_bytes n x : length (host_bytes n x) = n.
Proof. apply length_rdigits. Qed.
Lemma digits_host_bytes n x : digits 8 (host_bytes n x).
Proof. apply digits_rdigits. lia. Qed.

(** Swapping, seen from the bytes. *)
Lemma swab_value l : digits 8 l → host_value (reverse (host_bytes (length l) (host_value l))) = beval 8 l.
Proof. intros Hl. rewrite host_bytes_value by done. unfold host_value. by rewrite reverse_involutive. Qed.
Lemma bytes_swab n x : host_bytes n (host_value (reverse (host_bytes n x))) = reverse (host_bytes n x).
Proof.
  rewrite <- (length_host_bytes n x) at 1. rewrite <- length_reverse.
  apply host_bytes_value, Forall_reverse, digits_host_bytes.
Qed.

Lemma top_byte_host n x k : 0 ≤ k < Z.of_nat n →
  host_bytes n x !!! (n - 1 - Z.to_nat k)%nat = top_byte n x k.
Proof.
  intros Hk. unfold host_bytes, top_byte. rewrite lookup_rdigits by lia. do 3 f_equal. lia.
Qed.
Lemma reverse_lookup_total l i : (i < length l)%nat → reverse l !!! i = l !!! (length l - S i)%nat.
Proof. intros Hi. by rewrite !list_lookup_total_alt, reverse_lookup by done. Qed.
Lemma top_byte_swab n x k : 0 ≤ k < Z.of_nat n → reverse (host_bytes n x) !!! Z.to_nat k = top_byte n x k.
Proof.
  intros Hk. rewrite reverse_lookup_total, length_host_bytes by (rewrite length_host_bytes; lia).
  rewrite <- top_byte_host by done. f_equal. lia.
Qed.
Lemma top_byte_beval l k : digits 8 l → 0 ≤ k < Z.of_nat (length l) →
  top_byte (length l) (beval 8 l) k = l !!! Z.to_nat k.
Proof.
  intros Hl Hk. unfold top_byte. rewrite (lookup_beval 8 ltac:(lia) l) by (done || lia). do 4 f_equal. lia.
Qed.
Lemma top_byte_1 v : uint 8 v → top_byte 1 v 0 = v.
Proof.
  intros Hv. unfold top_byte. change (2 ^ (8 * (Z.of_nat 1 - 1 - 0))) with 1.
  rewrite Z.div_1_r. by apply wrap_small.
Qed.
Lemma uint_top_byte n v k : uint 8 (top_byte n v k).
Proof. by apply uint_wrap. Qed.

(** Inverting the low three bits. *)
Lemma lxor_7 a : 0 ≤ a → Z.lxor a DWMask = 8 * (a / 8) + (7 - a mod 8).
Proof.
  intros Ha. pose proof (Z.mod_pos_bound a 8 ltac:(lia)) as Hb.
  assert (Z.lxor (a mod 8) 7 = 7 - a mod 8 ∧ uint 3 (7 - a mod 8)) as [Hx Hu].
  { unfold uint. split; [|lia]. assert (a mod 8 = 0 ∨ a mod 8 = 1 ∨ a mod 8 = 2 ∨ a mod 8 = 3 ∨
      a mod 8 = 4 ∨ a mod 8 = 5 ∨ a mod 8 = 6 ∨ a mod 8 = 7) as H by lia.
    by destruct H as [->|[->|[->|[->|[->|[->|[->| ->]]]]]]]. }
  transitivity (Z.lor (Z.lxor (a mod 8) 7) (Z.ldiff a (Z.ones 3))).
  - assert (a mod 8 = Z.land a (Z.ones 3)) as -> by by rewrite Z.land_ones by lia. change DWMask with (Z.ones 3). change 7 with (Z.ones 3).
    apply Z.bits_inj'. intros j Hj. rewrite Z.lor_spec, !Z.lxor_spec, Z.land_spec, Z.ldiff_spec.
    by destruct (Z.testbit a j), (Z.testbit (Z.ones 3) j).
  - rewrite Hx, Z.ldiff_ones_r, Z.shiftl_mul_pow2, Z.shiftr_div_pow2 by lia.
    rewrite lor_add by (done || lia). change (2 ^ 3) with 8. lia.
Qed.
Lemma lxor_7_range L a : L mod 8 = 0 → 0 ≤ a < L → 0 ≤ Z.lxor a DWMask < L.
Proof. intros HL Ha. rewrite lxor_7 by lia. pose proof (Z.mod_pos_bound a 8 ltac:(lia)). zlia. Qed.
(** The next bytes of a double-word are stored before. *)
Lemma lxor_7_add a k : 0 ≤ a → 0 ≤ k → a mod 8 + k < 8 → Z.lxor (a + k) DWMask = Z.lxor a DWMask - k.
Proof. intros Ha Hk H. rewrite !lxor_7 by lia. zlia. Qed.
End Buffers.

(** *** The address-invariant format *)

Section AddrLaws.
Import AddrInvariant.

Lemma ai_read_law n p off be : digits 8 p → 0 ≤ off → off + Z.of_nat n ≤ Z.of_nat (length p) →
  (∀ l, be (host_value l) = host_value (reverse (host_bytes n (host_value l)))) →
  ∃ v, (let! tmp := host_load n p off in Ret (be tmp)) = Ret v ∧ uint (8 * Z.of_nat n) v ∧
  ∀ k, 0 ≤ k < Z.of_nat n → top_byte n v k = p !!! Z.to_nat (off + k).
Proof.
  intros Hp Ho Hn Hbe. destruct (buf_load_spec p off n Hp Ho Hn) as (l & E & Hl & Hd & H).
  unfold host_load. rewrite E. cbn [obind]. rewrite Hbe. subst n. rewrite swab_value by done.
  eexists. split_and!; [done|apply beval_bound; [lia|done]|].
  intros k Hk. rewrite top_byte_beval, H, Z2Nat.id by (done || lia). done.
Qed.

Lemma ai_write_law n p off x nb : page p → 0 ≤ off → off + nb ≤ Z.of_nat (length p) →
  0 ≤ nb ≤ Z.of_nat n →
  ∃ p', memcpy p off (take (Z.to_nat nb) (reverse (host_bytes n x))) = Ret p' ∧ page p' ∧ length p' = length p ∧
  ∀ a, 0 ≤ a < Z.of_nat (length p) → p' !!! Z.to_nat a =
    if (off <=? a) && (a <? off + nb) then top_byte n x (a - off) else p !!! Z.to_nat a.
Proof.
  intros [Hp Hm] Ho Hn Hnb. set (s := take _ _).
  assert (Z.of_nat (length s) = nb) as Hs by (unfold s; rewrite length_take, length_reverse, length_host_bytes; lia).
  destruct (memcpy_spec p off s) as (p' & E & Hl & Hd & H); [done| |done|lia|].
  { by apply Forall_take, Forall_reverse, digits_host_bytes. }
  exists p'. split_and!; [done|split; [done|by rewrite Hl]|done|]. intros a Ha.
  rewrite H, Hs, Z2Nat.id by lia.
  destruct (Z.leb_spec off a), (Z.ltb_spec a (off + nb)); cbn [andb]; try done.
  unfold s. rewrite list_lookup_total_alt, lookup_take_lt, <- list_lookup_total_alt by lia.
  by rewrite top_byte_swab by lia.
Qed.

(** A full write is the partial one of all bytes. *)
Lemma store_or_copy n full p off v nb : 0 ≤ nb ≤ Z.of_nat n → Z.of_nat n ≤ full →
  (if nb =? full then host_store n p off v else host_copy n p off v nb) =
  memcpy p off (take (Z.to_nat nb) (host_bytes n v)).
Proof.
  intros Hnb Hf. unfold host_store, host_copy. destruct (Z.eqb_spec nb full) as [->|].
  - rewrite take_ge; [done|]. rewrite length_host_bytes. lia.
  - by rewrite (proj2 (Z.leb_le _ _)) by lia.
Qed.
Lemma ai_write_eq w p off v nb : 0 ≤ nb ≤ Z.of_nat (nbytes w) →
  byte_write (ByteOrder := addr_invariant) w p off v nb =
  memcpy p off (take (Z.to_nat nb) (reverse (host_bytes (nbytes w) v))).
Proof.
  intros Hnb. rewrite <- bytes_swab.
  destruct w; [exact (store_or_copy 8 8 p off (be64 v) nb Hnb ltac:(lia))|
               exact (store_or_copy 4 4 p off (be32 v) nb Hnb ltac:(lia))|
               exact (store_or_copy 2 4 p off (be16 v) nb Hnb ltac:(lia))].
Qed.

#[export] Instance addr_laws : ByteOrderLaws addr_invariant.
Proof.
  split; try done.
  - intros w p off [Hp Hm] Ho Hr. apply Z.leb_le in Hr.
    pose (be := match w with W64 => be64 | W32 => be32 | W16 => be16 end).
    destruct (ai_read_law (nbytes w) p off be Hp ltac:(lia) Hr ltac:(by destruct w)) as (v & E & Hu & H).
    exists v. split_and!; [by destruct w|done|intros; by apply H].
  - intros w p off [Hp Hm] Ho Hr. apply Z.leb_gt in Hr. cbn.
    destruct w; unfold byte_read64, byte_read32, byte_read16, host_load; by rewrite load_outside by (right; exact Hr).
  - intros w p p' off Hl. cbn. by rewrite Hl.
  - intros w p off [Hp Hm] Ho Hn. apply Z.leb_le. zlia.
  - intros p off [Hp Hm] Ho. cbn. unfold byte_read8.
    destruct (buf_load_spec p off 1 Hp) as (l & -> & Hl & Hd & H); [lia..|]. cbn [obind].
    rewrite H by lia. unfold byte_at. cbn. do 3 f_equal. lia.
  - intros w p off v nb Hp Ho Hnb Hm.
    destruct (ai_write_law (nbytes w) p off v nb Hp ltac:(lia) ltac:(destruct Hp; zlia) Hnb) as (p' & E & H).
    exists p'. split; [|exact H]. rewrite <- E. by apply ai_write_eq.
  - intros p off v [Hp Hm] Ho Hv. cbn. unfold byte_write8.
    destruct (memcpy_spec p off [v]) as (p' & E & Hl & Hd & H); [done|by constructor|lia|cbn; lia|].
    exists p'. split_and!; [done|split; [done|by rewrite Hl]|done|]. intros a Ha. unfold byte_at. cbn.
    rewrite H, Z2Nat.id by lia. cbn [length].
    destruct (Z.eqb_spec a off) as [->|Hne].
    + rewrite (proj2 (Z.leb_le _ _)), (proj2 (Z.ltb_lt _ _)) by lia. by rewrite Z.sub_diag.
    + destruct (Z.leb_spec off a), (Z.ltb_spec a (off + Z.of_nat 1)); cbn [andb]; try done. lia.
Qed.
End AddrLaws.

(** *** The data-invariant format *)

Section DataLaws.
Import DataInvariant.

Lemma di_read_eq w p off : byte_read (ByteOrder := data_invariant) w p off =
  host_load (nbytes w) p (Z.lxor off DWMask - (Z.of_nat (nbytes w) - 1)).
Proof. by destruct w. Qed.
Lemma di_write_eq w p off v nb : byte_write (ByteOrder := data_invariant) w p off v nb =
  write_tail (nbytes w) p (Z.lxor off DWMask - (Z.of_nat (nbytes w) - 1)) v nb.
Proof. by destruct w. Qed.

Lemma di_write_law n p off v nb : page p → 0 ≤ off < Z.of_nat (length p) →
  0 ≤ nb ≤ Z.of_nat n → off mod 8 + nb ≤ 8 →
  ∃ p', write_tail n p (Z.lxor off DWMask - (Z.of_nat n - 1)) v nb = Ret p' ∧ page p' ∧ length p' = length p ∧
  ∀ a, 0 ≤ a < Z.of_nat (length p) → p' !!! Z.to_nat (Z.lxor a DWMask) =
    if (off <=? a) && (a <? off + nb) then top_byte n v (a - off) else p !!! Z.to_nat (Z.lxor a DWMask).
Proof.
  intros [Hp Hm] Ho Hnb Hn8. unfold write_tail. rewrite (proj2 (Z.leb_le nb _)) by lia.
  set (s := drop _ _). assert (Z.of_nat (length s) = nb) as Hs
    by (unfold s; rewrite length_drop, length_host_bytes; lia).
  pose proof (lxor_7_range _ _ Hm Ho) as Hr. pose proof (lxor_7 off ltac:(lia)) as Hx.
  destruct (memcpy_spec p (Z.lxor off DWMask - (Z.of_nat n - 1) + Z.of_nat n - nb) s) as (p' & E & Hl & Hd & H');
    [done|by apply Forall_drop, digits_host_bytes|zlia|lia|].
  exists p'. split_and!; [done|split; [done|by rewrite Hl]|done|]. intros a Ha.
  pose proof (lxor_7_range _ _ Hm Ha) as Hra. rewrite H', Hs, Z2Nat.id by lia.
  pose proof (lxor_7 a ltac:(lia)) as Hxa.
  destruct (_ && _) eqn:Hb; rewrite ?andb_true_iff, ?andb_false_iff, ?Z.leb_le, ?Z.ltb_lt, ?Z.leb_gt, ?Z.ltb_ge in Hb.
  - assert (off ≤ a < off + nb) as Hin by (clear - Hb Hx Hxa Hn8 Hnb Ho Ha; zlia).
    rewrite (proj2 (Z.leb_le _ _)), (proj2 (Z.ltb_lt _ _)) by lia. cbn [andb].
    assert (Z.lxor a DWMask = Z.lxor off DWMask - (a - off)) as ->
      by (rewrite <- lxor_7_add by lia; f_equal; lia).
    unfold s. rewrite list_lookup_total_alt, lookup_drop, <- list_lookup_total_alt.
    rewrite <- top_byte_host by lia. f_equal. lia.
  - destruct (Z.leb_spec off a), (Z.ltb_spec a (off + nb)); cbn [andb]; try done.
    clear - Hb Hx Hxa Hn8 Hnb Ho Ha H H0. zlia.
Qed.

#[export] Instance data_laws : ByteOrderLaws data_invariant.
Proof.
  split; cbn [place readable data_invariant].
  - intros L off. apply lxor_7_range.
  - intros a b Ha Hb H. rewrite !lxor_7 in H by done. zlia.
  - intros q o Hq Ho. rewrite !lxor_7 by lia. zlia.
  - intros w p off [Hp Hm] Ho Hr. apply Z.leb_le in Hr. pose proof (lxor_7_range _ _ Hm Ho).
    rewrite di_read_eq. unfold host_load.
    destruct (buf_load_spec p (Z.lxor off DWMask - (Z.of_nat (nbytes w) - 1)) (nbytes w) Hp)
      as (l & -> & Hl & Hd & H'); [lia..|]. cbn [obind]. eexists. split; [done|]. unfold host_value.
    assert (digits 8 (reverse l)) as Hd' by by apply Forall_reverse.
    rewrite <- Hl, <- (length_reverse l). split; [apply beval_bound; [lia|done]|].
    intros k Hk Hk8. rewrite length_reverse in Hk. rewrite top_byte_beval by (done || rewrite length_reverse; lia).
    rewrite reverse_lookup_total, H', Hl by lia. unfold byte_at. cbn [place data_invariant].
    rewrite lxor_7_add by lia. f_equal. lia.
  - intros w p off [Hp Hm] Ho Hr. apply Z.leb_gt in Hr. rewrite di_read_eq. unfold host_load.
    by rewrite load_outside by lia.
  - done.
  - intros w p off [Hp Hm] Ho Hn. apply Z.leb_le. rewrite lxor_7 by lia. zlia.
  - intros p off [Hp Hm] Ho. cbn. unfold byte_read8. pose proof (lxor_7_range _ _ Hm Ho).
    destruct (buf_load_spec p (Z.lxor off DWMask) 1 Hp) as (l & -> & Hl & Hd & H'); [lia..|]. cbn [obind].
    rewrite H' by lia. unfold byte_at. cbn. do 3 f_equal. lia.
  - intros w p off v nb Hp Ho Hnb Hn8. rewrite di_write_eq.
    exact (di_write_law (nbytes w) p off v nb Hp Ho Hnb Hn8).
  - intros p off v [Hp Hm] Ho Hv. cbn. unfold byte_write8. pose proof (lxor_7_range _ _ Hm Ho).
    destruct (memcpy_spec p (Z.lxor off DWMask) [v]) as (p' & E & Hl & Hd & H'); [done|by constructor|lia|cbn; lia|].
    exists p'. split_and!; [done|split; [done|by rewrite Hl]|done|]. intros a Ha. unfold byte_at. cbn.
    pose proof (lxor_7_range _ _ Hm Ha). rewrite H', Z2Nat.id by lia. cbn [length].
    destruct (Z.eqb_spec a off) as [->|Hne].
    + rewrite (proj2 (Z.leb_le _ _)), (proj2 (Z.ltb_lt _ _)) by lia. by rewrite Z.sub_diag.
    + assert (Z.lxor a DWMask ≠ Z.lxor off DWMask) by (rewrite !lxor_7 by lia; zlia).
      destruct (Z.leb_spec (Z.lxor off DWMask) (Z.lxor a DWMask)),
        (Z.ltb_spec (Z.lxor a DWMask) (Z.lxor off DWMask + Z.of_nat 1)); cbn [andb]; try done. lia.
Qed.
End DataLaws.

(** ** Buffers as functions on offsets *)

(** The bytes after a write of the first [nb] bytes of an [n]-byte value. *)
Definition write_bytes (F : Z → Z) (a : Z) (n : nat) (v nb : Z) : Z → Z :=
  λ b, if (a <=? b) && (b <? a + nb) then top_byte n v (b - a) else F b.
(** The bytes [g 0], [g 1], ... from [a] on. *)
Definition put_bytes (F : Z → Z) (a : Z) (g : Z → Z) (n : Z) : Z → Z :=
  λ b, if (a <=? b) && (b <? a + n) then g (b - a) else F b.

Section Contents.
Context {B : ByteOrder} {BL : ByteOrderLaws B} (L : Z).

Record buf_rep (p : list Z) (F : Z → Z) : Prop := {
  buf_page : page p;
  buf_len : Z.of_nat (length p) = L;
  buf_bytes : ∀ o, 0 ≤ o < L → byte_at p o = F o
}.

Lemma zero_bytes : 0 ≤ L → L mod 8 = 0 → buf_rep (replicate (Z.to_nat L) 0) (λ _, 0).
Proof.
  intros H0 H8. assert (Z.of_nat (length (replicate (Z.to_nat L) 0)) = L) as Hl by (rewrite length_replicate; lia).
  split; [split|done|].
  - apply Forall_replicate. by split.
  - by rewrite Hl.
  - intros o Ho. unfold byte_at. apply lookup_total_replicate_2. pose proof (place_range _ _ H8 Ho). lia.
Qed.
Lemma buf_mod8 p F : buf_rep p F → L mod 8 = 0.
Proof. intros [[_ H] Hl _]. by rewrite Hl in H. Qed.

Lemma buf_read w p F off : buf_rep p F → 0 ≤ off < L →
  if readable w p off then ∃ v, byte_read w p off = Ret v ∧ uint (8 * Z.of_nat (nbytes w)) v ∧
    ∀ k, 0 ≤ k < Z.of_nat (nbytes w) → off mod 8 + k < 8 → top_byte (nbytes w) v k = F (off + k)
  else byte_read w p off = Undefined.
Proof.
  intros Hp Ho. pose proof (buf_mod8 _ _ Hp) as HL. destruct Hp as [Hp Hl Hb].
  destruct (readable w p off) eqn:Er; [|by apply unreadable_law; rewrite ?Hl].
  destruct (read_law w p off Hp) as (v & E & Hv & Hk); [by rewrite Hl|done|].
  exists v. split_and!; [done..|]. intros k Hk0 Hk8. rewrite Hk by done. apply Hb. zlia.
Qed.
Lemma buf_read8 p F off : buf_rep p F → 0 ≤ off < L → byte_read8 p off = Ret (F off).
Proof. intros [Hp Hl Hb] Ho. rewrite read8_law by (done || by rewrite Hl). by rewrite Hb. Qed.
Lemma buf_write w p F off v nb : buf_rep p F → 0 ≤ off < L → 0 ≤ nb ≤ Z.of_nat (nbytes w) → off mod 8 + nb ≤ 8 →
  ∃ p', byte_write w p off v nb = Ret p' ∧ buf_rep p' (write_bytes F off (nbytes w) v nb).
Proof.
  intros [Hp Hl Hb] Ho Hnb H8. destruct (write_law w p off v nb Hp) as (p' & E & Hp' & Hl' & Hb');
    [by rewrite Hl|done..|].
  exists p'. split; [done|]. split; [done|by rewrite Hl'|]. intros o Ho'. rewrite Hb' by by rewrite Hl.
  unfold write_bytes. case_match; [done|by apply Hb].
Qed.
Lemma buf_write8 p F off v : buf_rep p F → 0 ≤ off < L → uint 8 v →
  ∃ p', byte_write8 p off v = Ret p' ∧ buf_rep p' (write_bytes F off 1 v 1).
Proof.
  intros [Hp Hl Hb] Ho Hv. destruct (write8_law p off v Hp) as (p' & E & Hp' & Hl' & Hb'); [by rewrite Hl|done|].
  exists p'. split; [done|]. split; [done|by rewrite Hl'|]. intros o Ho'. rewrite Hb' by by rewrite Hl.
  unfold write_bytes. destruct (Z.eqb_spec o off) as [->|Hne].
  - rewrite Z.leb_refl, (proj2 (Z.ltb_lt _ _)) by lia. cbn [andb]. by rewrite Z.sub_diag, top_byte_1.
  - rewrite Hb by done. destruct (Z.leb_spec off o), (Z.ltb_spec o (off + 1)); cbn [andb]; try done. lia.
Qed.

(** Copies of whole double-words. *)
Lemma place_block o : 0 ≤ o → place o / 8 = o / 8.
Proof.
  intros Ho. pose proof (Z.mod_pos_bound o 8 ltac:(lia)).
  rewrite (Z.div_mod o 8) at 1 by lia. rewrite place_shift by zlia.
  pose proof (place_range 8 (o mod 8) ltac:(done) ltac:(lia)). zlia.
Qed.
Lemma buf_load p F off n : buf_rep p F → 0 ≤ off → off mod 8 = 0 → Z.of_nat n mod 8 = 0 → off + Z.of_nat n ≤ L →
  ∃ l, load p off n = Ret l ∧ length l = n ∧ page l ∧ ∀ k, 0 ≤ k < Z.of_nat n → byte_at l k = F (off + k).
Proof.
  intros [[Hp Hm] Hl Hb] Ho Ho8 Hn8 HL. destruct (buf_load_spec p off n Hp Ho) as (l & E & Hll & Hd & H); [lia|].
  exists l. split_and!; [done|done|split; [done|by rewrite Hll]|]. intros k Hk.
  pose proof (place_range (Z.of_nat n) k Hn8 Hk). unfold byte_at. rewrite H by lia.
  rewrite <- Hb by lia. unfold byte_at. rewrite (Z.div_mod off 8) at 2 by lia.
  rewrite Ho8, Z.add_0_r, place_shift by zlia. f_equal. zlia.
Qed.
Lemma buf_memcpy p F off s : buf_rep p F → page s → 0 ≤ off → off mod 8 = 0 → off + Z.of_nat (length s) ≤ L →
  ∃ p', memcpy p off s = Ret p' ∧ buf_rep p' (put_bytes F off (byte_at s) (Z.of_nat (length s))).
Proof.
  intros [[Hp Hm] Hl Hb] [Hs Hs8] Ho Ho8 HL. rewrite Hl in Hm.
  destruct (memcpy_spec p off s Hp Hs Ho) as (p' & E & Hl' & Hd & H); [lia|].
  exists p'. split; [done|]. split; [split; [done|by rewrite Hl', Hl]|by rewrite Hl'|]. intros o Hor.
  pose proof (place_range L o Hm Hor) as Hpr. pose proof (place_block o ltac:(lia)) as Hbl.
  unfold byte_at at 1. rewrite H, Z2Nat.id by lia. unfold put_bytes.
  destruct (Z.leb_spec off o), (Z.ltb_spec o (off + Z.of_nat (length s))); cbn [andb].
  - rewrite (proj2 (Z.leb_le _ _)), (proj2 (Z.ltb_lt _ _)) by (clear - Hs8 Ho8 Hbl H0 H1; zlia). cbn [andb].
    assert (place o = off + place (o - off)) as ->; [|unfold byte_at; do 2 f_equal; lia].
    replace o with (8 * (off / 8) + (o - off)) at 1 by zlia. rewrite place_shift by zlia. zlia.
  - rewrite (proj2 (Z.ltb_ge _ _)) by (clear - Hs8 Ho8 Hbl H0 H1; zlia). rewrite andb_false_r. by apply Hb.
  - rewrite (proj2 (Z.leb_gt _ _)) by (clear - Hs8 Ho8 Hbl H0; zlia). by apply Hb.
  - lia.
Qed.
End Contents.
