(* ===== verification/SparseMemory.v ===== *)
(** * The memories of the simulator

    [src/iss/Memory.h]: the sparse memory, a tree of nodes over pages of bytes
    with a cache of pages in front of it; the block memory; the memory of fixed
    size.  All three are instances of [ByteMem], the accesses that the classes
    above them use, over either byte order of [MemBytes]; [ByteMemLaws] says that
    a memory is a function from addresses to bytes.

    Pages live in a heap and are known by their addresses, so that the tree and
    the cache share them, and a page that was deleted cannot be used. *)
From stdpp Require Import prelude strings gmap list.
From Stdlib Require Import ZArith Lia.
From S2P Require Import Prelude.
From S2P Require Import BitTwiddles.
From S2P Require Import MemBytes.

Local Open Scope Z_scope.

(** ** The sparse memory *)

(** Pages by address; the next address that [new] returns. *)
Record heap : Type := { pages : gmap nat (list Z); next : nat }.
Definition alloc (h : heap) (p : list Z) : nat * heap :=
  (next h, {| pages := <[next h := p]> (pages h); next := S (next h) |}).
Definition deref (h : heap) (p : nat) : outcome (list Z) :=
  match pages h !! p with Some pg => Ret pg | None => Undefined end.
Definition update_page (h : heap) (p : nat) (pg : list Z) : heap :=
  {| pages := <[p := pg]> (pages h); next := next h |}.
Definition free_page (h : heap) (p : nat) : heap :=
  {| pages := delete p (pages h); next := next h |}.

Record CacheItem : Type := { _addr : Z; _page : option nat }.

Section Sparse.
(** The template parameters: the bits of an address that count, and the levels
    of lookup, [2] at least. *)
Context (BitWidth : Z) (Levels : nat).

(** *** [NodeEnums], for [Total = Levels - 1] *)
Definition Bits : Z := BitWidth / Z.of_nat Levels.
Definition Size : Z := Z.shiftl 1 Bits.
Definition Mask : Z := Size - 1.
Definition PageBits : Z := Bits + BitWidth mod Z.of_nat Levels.
Definition PageSize : Z := Z.shiftl 1 PageBits.
Definition PageMask : Z := PageSize - 1.
Definition Shift (Level : nat) : Z := Bits * (Z.of_nat Level - 1) + PageBits.

(** *** The tree *)

(** [Node<BitWidth,Total,Level>]: a page at level 0, above it an array of
    pointers to children, in which null is absent. *)
Fixpoint Node (Level : nat) : Type :=
  match Level with O => nat | S l => gmap Z (Node l) end.
(** [new Child] *)
Definition new_node (Level : nat) (h : heap) : Node Level * heap :=
  match Level with
  | O => alloc h (replicate (Z.to_nat PageSize) 0)
  | S l => (∅ : gmap Z (Node l), h)
  end.
Definition node_index (Level : nat) (addr : Z) : Z := Z.land (Z.shiftr addr (Shift Level)) Mask.
(** [getPage] and [get]: the path to the page of an address, made on the way. *)
Fixpoint node_getPage (Level : nat) : Node Level → Z → heap → nat * Node Level * heap :=
  match Level with
  | O => λ p addr h, (p, p, h)
  | S l => λ (n : gmap Z (Node l)) addr h,
      let index := node_index (S l) addr in
      let '(c, h) := match n !! index with Some c => (c, h) | None => new_node l h end in
      let '(p, c, h) := node_getPage l c addr h in
      (p, <[index := c]> n, h)
  end.
(** [delete] of a node: its children first. *)
Fixpoint delete_node (Level : nat) : Node Level → heap → heap :=
  match Level with
  | O => λ p h, free_page h p
  | S l => λ n h, map_fold (λ _ c h, delete_node l c h) h n
  end.

(** *** The memory with its page cache *)

Record SparseMemory : Type := {
  _mem : Node (Levels - 1);
  _cache : list CacheItem;
  _heap : heap
}.
Definition CacheSize : nat := 4096.
Definition CacheMask : Z := Z.of_nat CacheSize - 1.
Definition CacheShift : Z := Shift (Levels - 1).

Definition item_reset : CacheItem := {| _addr := 1; _page := None |}.
Definition item_match (i : CacheItem) (addr : Z) : option nat :=
  if Z.ldiff addr PageMask =? _addr i then _page i else None.
Definition item_update (addr : Z) (p : nat) : CacheItem :=
  {| _addr := Z.ldiff addr PageMask; _page := Some p |}.

Definition pageOffset (addr : Z) : Z := Z.land addr PageMask.
Definition cache_index (addr : Z) : Z := Z.land (Z.shiftr addr CacheShift) CacheMask.
Definition update_page_cache (m : SparseMemory) (addr cix : Z) : nat * SparseMemory :=
  let '(p, t, h) := node_getPage (Levels - 1) (_mem m) addr (_heap m) in
  (p, {| _mem := t; _cache := <[Z.to_nat cix := item_update addr p]> (_cache m); _heap := h |}).
Definition getPage (m : SparseMemory) (addr : Z) : outcome (nat * SparseMemory) :=
  let cix := cache_index addr in
  match _cache m !! Z.to_nat cix with
  | None => Undefined
  | Some i =>
      match item_match i addr with
      | Some p => Ret (p, m)
      | None => Ret (update_page_cache m addr cix)
      end
  end.
Definition resetCache (m : SparseMemory) : outcome SparseMemory :=
  let m := {| _mem := _mem m; _cache := replicate CacheSize item_reset; _heap := _heap m |} in
  let! r := getPage m 0 in Ret (snd r).
(** The tree of a memory is a node whose children the reset deletes. *)
Definition empty_tree : Node (Levels - 1) :=
  match Levels - 1 as l return Node l with O => 0%nat | S l => (∅ : gmap Z (Node l)) end%nat.
Definition init : outcome SparseMemory :=
  resetCache {| _mem := empty_tree; _cache := []; _heap := {| pages := ∅; next := 1 |} |}.
Definition reset (m : SparseMemory) : outcome SparseMemory :=
  resetCache {| _mem := empty_tree; _cache := _cache m;
                _heap := delete_node (Levels - 1) (_mem m) (_heap m) |}.

(** *** Accesses *)

Context `{B : ByteOrder}.

(** A computation on the page of an address, and one that changes it. *)
Definition on_page {A} (m : SparseMemory) (addr : Z) (f : list Z → Z → outcome A) : outcome (A * SparseMemory) :=
  let! r := getPage m addr in
  let! pg := deref (_heap (snd r)) (fst r) in
  let! v := f pg (pageOffset addr) in
  Ret (v, snd r).
Definition change_page (m : SparseMemory) (addr : Z) (f : list Z → Z → outcome (list Z)) : outcome SparseMemory :=
  let! r := getPage m addr in
  let! pg := deref (_heap (snd r)) (fst r) in
  let! pg := f pg (pageOffset addr) in
  Ret {| _mem := _mem (snd r); _cache := _cache (snd r); _heap := update_page (_heap (snd r)) (fst r) pg |}.

Definition read (w : width) (m : SparseMemory) (addr : Z) : outcome (Z * SparseMemory) :=
  on_page m addr (byte_read w).
Definition read8 (m : SparseMemory) (addr : Z) : outcome (Z * SparseMemory) := on_page m addr byte_read8.
Definition readpage (m : SparseMemory) (t : list Z) (n addr : Z) : outcome (list Z * SparseMemory) :=
  on_page m addr (λ pg off, byte_pagecopy t 0 pg off n).
Definition write (w : width) (m : SparseMemory) (addr orig_value nb : Z) : outcome SparseMemory :=
  change_page m addr (λ pg off, byte_write w pg off orig_value nb).
Definition write8 (m : SparseMemory) (addr orig_value : Z) : outcome SparseMemory :=
  change_page m addr (λ pg off, byte_write8 pg off orig_value).
Definition fillpage (m : SparseMemory) (c n addr : Z) : outcome SparseMemory :=
  change_page m addr (λ pg off, byte_pagefill pg off c n).
Definition writepage (m : SparseMemory) (s : list Z) (n addr : Z) : outcome SparseMemory :=
  change_page m addr (λ pg off, byte_pagecopy pg off s 0 n).
End Sparse.

(** ** The block memory *)

Module BlockMemory.
Record BlockMemory : Type := { _mem_mask : Z; _mem_size : Z; _mem : list Z }.
Definition DefaultMemorySize : Z := 65536.
Definition set_mem_size (size : Z) : outcome BlockMemory :=
  if negb (count_ones_u32 size =? 1) then Throw "Memory size must be a non-zero power of 2."
  else Ret {| _mem_mask := size - 1; _mem_size := size; _mem := replicate (Z.to_nat size) 0 |}.
Definition init : outcome BlockMemory := set_mem_size DefaultMemorySize.
Definition mask_addr (m : BlockMemory) (addr : Z) : Z := Z.land addr (_mem_mask m).
Definition reset (m : BlockMemory) : outcome BlockMemory :=
  if _mem_size m =? 0 then Throw "Memory size not set."
  else Ret {| _mem_mask := _mem_mask m; _mem_size := _mem_size m;
              _mem := replicate (Z.to_nat (_mem_size m)) 0 |}.
Definition set_mem (m : BlockMemory) (p : list Z) : BlockMemory :=
  {| _mem_mask := _mem_mask m; _mem_size := _mem_size m; _mem := p |}.
Section Ops.
Context `{B : ByteOrder}.
Definition read (w : width) (m : BlockMemory) (addr : Z) : outcome (Z * BlockMemory) :=
  let! v := byte_read w (_mem m) (mask_addr m addr) in Ret (v, m).
Definition read8 (m : BlockMemory) (addr : Z) : outcome (Z * BlockMemory) :=
  let! v := byte_read8 (_mem m) (mask_addr m addr) in Ret (v, m).
Definition readpage (m : BlockMemory) (t : list Z) (n addr : Z) : outcome (list Z) :=
  byte_pagecopy t 0 (_mem m) (mask_addr m addr) n.
Definition write (w : width) (m : BlockMemory) (addr orig_value nb : Z) : outcome BlockMemory :=
  let! p := byte_write w (_mem m) (mask_addr m addr) orig_value nb in Ret (set_mem m p).
Definition write8 (m : BlockMemory) (addr orig_value : Z) : outcome BlockMemory :=
  let! p := byte_write8 (_mem m) (mask_addr m addr) orig_value in Ret (set_mem m p).
Definition fillpage (m : BlockMemory) (c n addr : Z) : outcome BlockMemory :=
  let! p := byte_pagefill (_mem m) (mask_addr m addr) c n in Ret (set_mem m p).
Definition writepage (m : BlockMemory) (s : list Z) (n addr : Z) : outcome BlockMemory :=
  let! p := byte_pagecopy (_mem m) (mask_addr m addr) s 0 n in Ret (set_mem m p).
End Ops.
End BlockMemory.

(** ** The memory of fixed size *)

Module SimpleMemory.
(** [_mem], of [MemorySize] bytes; an access outside of it is undefined. *)
Record SimpleMemory : Type := { _mem : list Z }.
Definition init (MemorySize : Z) : SimpleMemory := {| _mem := replicate (Z.to_nat MemorySize) 0 |}.
Section Ops.
Context `{B : ByteOrder}.
(** The offset parameter of the byte routines is an [unsigned]. *)
Definition read (w : width) (m : SimpleMemory) (ra : Z) : outcome (Z * SimpleMemory) :=
  let! v := byte_read w (_mem m) (wrap 32 ra) in Ret (v, m).
Definition read8 (m : SimpleMemory) (ra : Z) : outcome (Z * SimpleMemory) :=
  let! v := byte_read8 (_mem m) (wrap 32 ra) in Ret (v, m).
Definition write (w : width) (m : SimpleMemory) (ra v nb : Z) : outcome SimpleMemory :=
  let! p := byte_write w (_mem m) (wrap 32 ra) v nb in Ret {| _mem := p |}.
Definition write8 (m : SimpleMemory) (ra v : Z) : outcome SimpleMemory :=
  let! p := byte_write8 (_mem m) (wrap 32 ra) v in Ret {| _mem := p |}.
End Ops.
End SimpleMemory.

(** ** What the classes above a memory rely on *)

Class ByteMem (M : Type) : Type := {
  mem_read : width → M → Z → outcome (Z * M);
  mem_read8 : M → Z → outcome (Z * M);
  mem_write : width → M → Z → Z → Z → outcome M;
  mem_write8 : M → Z → Z → outcome M
}.
#[export] Instance sparse_mem BitWidth Levels `{ByteOrder} : ByteMem (SparseMemory Levels) := {
  mem_read w m a := read BitWidth Levels w m a;
  mem_read8 := read8 BitWidth Levels;
  mem_write w m a v nb := write BitWidth Levels w m a v nb;
  mem_write8 := write8 BitWidth Levels
}.
#[export] Instance block_mem `{ByteOrder} : ByteMem BlockMemory.BlockMemory := {
  mem_read w m a := BlockMemory.read w m a;
  mem_read8 := BlockMemory.read8;
  mem_write w m a v nb := BlockMemory.write w m a v nb;
  mem_write8 := BlockMemory.write8
}.
#[export] Instance simple_mem `{ByteOrder} : ByteMem SimpleMemory.SimpleMemory := {
  mem_read w m a := SimpleMemory.read w m a;
  mem_read8 := SimpleMemory.read8;
  mem_write w m a v nb := SimpleMemory.write w m a v nb;
  mem_write8 := SimpleMemory.write8
}.

(** The bytes from [a] on, as a number: the first is the most significant. *)
Definition value_at (F : Z → Z) (a : Z) (n : nat) : Z := beval 8 ((λ k, F (a + Z.of_nat k)) <$> seq 0 n).
(** [F] gives the byte of every location; [canon a] is the location of address
    [a]; [whole w a] says that a read that leaves its double-word stays inside of
    the page or block. *)
Class ByteMemLaws (M : Type) `{ByteMem M} : Type := {
  mem_rep : M → (Z → Z) → Prop;
  canon : Z → Z;
  addr_ok : Z → Prop;
  whole : width → Z → bool;
  canon_add a k : addr_ok a → 0 ≤ k → a mod 8 + k < 8 → canon (a + k) = canon a + k;
  rep_ext m F F' : (∀ a, F a = F' a) → mem_rep m F → mem_rep m F';
  rep_byte m F a : mem_rep m F → addr_ok a → uint 8 (F (canon a));
  whole_dw w a : addr_ok a → a mod 8 + Z.of_nat (nbytes w) ≤ 8 → whole w a = true;
  mem_read_law w m F a : mem_rep m F → addr_ok a →
    if whole w a then ∃ v m', mem_read w m a = Ret (v, m') ∧ mem_rep m' F ∧ uint (8 * Z.of_nat (nbytes w)) v ∧
      ∀ k, 0 ≤ k < Z.of_nat (nbytes w) → a mod 8 + k < 8 → top_byte (nbytes w) v k = F (canon a + k)
    else mem_read w m a = Undefined;
  mem_read8_law m F a : mem_rep m F → addr_ok a →
    ∃ m', mem_read8 m a = Ret (F (canon a), m') ∧ mem_rep m' F;
  mem_write_law w m F a v nb : mem_rep m F → addr_ok a → 0 ≤ nb ≤ Z.of_nat (nbytes w) → a mod 8 + nb ≤ 8 →
    ∃ m', mem_write w m a v nb = Ret m' ∧ mem_rep m' (write_bytes F (canon a) (nbytes w) v nb);
  mem_write8_law m F a v : mem_rep m F → addr_ok a → uint 8 v →
    ∃ m', mem_write8 m a v = Ret m' ∧ mem_rep m' (write_bytes F (canon a) 1 v 1)
}.

Lemma value_of_bytes n v (g : Z → Z) : uint (8 * Z.of_nat n) v →
  (∀ k, 0 ≤ k < Z.of_nat n → top_byte n v k = g k) → v = beval 8 ((λ k, g (Z.of_nat k)) <$> seq 0 n).
Proof.
  intros Hv Hg. rewrite <- (beval_reverse_rdigits 8 n v) at 1 by (done || lia). f_equal.
  apply list_eq. intros i. destruct (decide (i < n)%nat) as [Hi|Hi].
  - rewrite list_lookup_fmap, lookup_seq_lt by done. cbn. rewrite <- Hg by lia.
    rewrite <- (top_byte_swab n v (Z.of_nat i)), Nat2Z.id by lia.
    apply list_lookup_lookup_total_lt. by rewrite length_reverse, length_host_bytes.
  - rewrite !lookup_ge_None_2; [done|..];
      rewrite ?length_reverse, ?length_rdigits, ?length_fmap, ?length_seq; lia.
Qed.

(** An access inside of a double-word, read as a number. *)
Lemma mem_read_value {M} `{ByteMemLaws M} w m F a : mem_rep m F → addr_ok a →
  a mod 8 + Z.of_nat (nbytes w) ≤ 8 →
  ∃ m', mem_read w m a = Ret (value_at F (canon a) (nbytes w), m') ∧ mem_rep m' F.
Proof.
  intros Hm Ha H8. pose proof (mem_read_law w m F a Hm Ha) as Hr. rewrite whole_dw in Hr by done.
  destruct Hr as (v & m' & -> & Hm' & Hv & Hb). exists m'. split; [|done]. do 2 f_equal.
  apply (value_of_bytes _ _ (λ k, F (canon a + k))); [done|]. intros k Hk. apply Hb; lia.
Qed.

(** ** The tree of the sparse memory *)

Section SparseCorrect.
Context (BitWidth : Z) (Levels : nat).
Context (HL : (2 ≤ Levels)%nat) (HB : Z.of_nat Levels ≤ BitWidth ≤ 64).
Context (HP : 3 ≤ PageBits BitWidth Levels ≤ 30).
Local Abbreviation Bits := (Bits BitWidth Levels).
Local Abbreviation PageBits := (PageBits BitWidth Levels).
Local Abbreviation PageSize := (PageSize BitWidth Levels).
Local Abbreviation node_getPage := (node_getPage BitWidth Levels).
Local Abbreviation node_index := (node_index BitWidth Levels).

Lemma Bits_pos : 1 ≤ Bits.
Proof. unfold SparseMemory.Bits. apply Z.div_le_lower_bound; lia. Qed.
Lemma BitWidth_split : BitWidth = Bits * (Z.of_nat Levels - 1) + PageBits.
Proof.
  unfold SparseMemory.PageBits, SparseMemory.Bits. pose proof (Z.div_mod BitWidth (Z.of_nat Levels)). lia.
Qed.
Lemma PageSize_eq : PageSize = 2 ^ PageBits.
Proof. unfold SparseMemory.PageSize. rewrite Z.shiftl_mul_pow2 by lia. lia. Qed.
Lemma PageSize_mod8 : PageSize mod 8 = 0.
Proof.
  rewrite PageSize_eq. replace PageBits with (3 + (PageBits - 3)) by lia.
  rewrite Z.pow_add_r by lia. change (2 ^ 3) with 8. rewrite Z.mul_comm. apply Z_mod_mult.
Qed.
Lemma PageSize_pos : 8 ≤ PageSize.
Proof. rewrite PageSize_eq. change 8 with (2 ^ 3). apply Z.pow_le_mono_r; lia. Qed.

(** The page number, as far as [l] levels look at it. *)
Definition key (l : nat) (a : Z) : Z := (a / PageSize) mod 2 ^ (Bits * Z.of_nat l).

Lemma node_index_eq l a : 0 ≤ a → node_index (S l) a = (a / PageSize / 2 ^ (Bits * Z.of_nat l)) mod 2 ^ Bits.
Proof.
  intros Ha. pose proof Bits_pos. unfold SparseMemory.node_index, Mask, Size, Shift.
  rewrite Z.shiftl_mul_pow2, Z.mul_1_l by lia.
  replace (2 ^ Bits - 1) with (Z.ones Bits) by (rewrite Z.ones_equiv; lia).
  rewrite Z.land_ones, Z.shiftr_div_pow2 by lia. f_equal.
  rewrite PageSize_eq, Z.div_div by (apply Z.pow_nonzero || apply Z.pow_pos_nonneg; lia).
  rewrite <- Z.pow_add_r by lia. do 2 f_equal. lia.
Qed.
Lemma key_S l a b : 0 ≤ a → 0 ≤ b →
  key (S l) a = key (S l) b ↔ node_index (S l) a = node_index (S l) b ∧ key l a = key l b.
Proof.
  intros Ha Hb. pose proof Bits_pos. rewrite !node_index_eq by done. unfold key.
  replace (Bits * Z.of_nat (S l)) with (Bits * Z.of_nat l + Bits) by lia. rewrite Z.pow_add_r by lia.
  pose proof (pow2_pos (Bits * Z.of_nat l) ltac:(lia)). pose proof (pow2_pos Bits ltac:(lia)).
  rewrite !Z.rem_mul_r by lia.
  set (P := 2 ^ (Bits * Z.of_nat l)) in *. set (Q := 2 ^ Bits) in *.
  pose proof (Z.mod_pos_bound (a / PageSize) P ltac:(lia)). pose proof (Z.mod_pos_bound (b / PageSize) P ltac:(lia)).
  split; [|intros [-> ->]; done]. intros E. rewrite !(Z.add_comm (_ mod P)) in E.
  apply Z.div_mod_unique in E; [done|lia..].
Qed.

(** The page of an address, if there is one. *)
Fixpoint find_page (l : nat) : Node l → Z → option nat :=
  match l with
  | O => λ p a, Some p
  | S l => λ (n : gmap Z (Node l)) a, c ← n !! node_index (S l) a; find_page l c a
  end.

Lemma find_page_key l (n : Node l) a b : 0 ≤ a → 0 ≤ b → key l a = key l b → find_page l n a = find_page l n b.
Proof.
  revert n. induction l as [|l IH]; intros n Ha Hb Hk; [done|]. cbn.
  apply key_S in Hk as [-> Hk]; [|done..]. cbn in n.
  destruct (n !! node_index (S l) b) as [c|]; cbn; [by apply IH|done].
Qed.

(** Walking to a page finds it or makes one page of zeros for it, and changes no
    other path. *)
Lemma node_getPage_spec l (n : Node l) a h p n' h' : 0 ≤ a → node_getPage l n a h = (p, n', h') →
  (find_page l n a = Some p ∧ h' = h ∨
   find_page l n a = None ∧ (p, h') = alloc h (replicate (Z.to_nat PageSize) 0)) ∧
  (∀ b, 0 ≤ b → find_page l n' b = if decide (key l b = key l a) then Some p else find_page l n b).
Proof.
  revert n h p n' h'. induction l as [|l IH]; intros n h p n' h' Ha E; cbn in E.
  - simplify_eq. split; [by left|]. intros b Hb. rewrite decide_True; [done|].
    unfold key. by rewrite Z.mul_0_r, !Z.mod_1_r.
  - cbn in n, n'. set (i := node_index (S l) a) in *.
    destruct (match n !! i with Some c => (c, h) | None => new_node BitWidth Levels l h end) as [c h1] eqn:Ec.
    destruct (node_getPage l c a h1) as [[p1 c'] h2] eqn:E2. simplify_eq.
    destruct (IH c h1 p c' h' Ha E2) as [H1 H2]. cbn [find_page]. fold i. split.
    + destruct (n !! i) as [c0|] eqn:En; [simplify_eq; exact H1|]. right. split; [done|].
      destruct l as [|l]; cbn in Ec; simplify_eq; [destruct H1 as [[[= ->] ->]|[? _]]; done|].
      destruct H1 as [[Hf _]|[_ Hf]]; [|done]. cbn in Hf. by rewrite lookup_empty in Hf.
    + intros b Hb. destruct (decide (node_index (S l) b = i)) as [Hi|Hi].
      * rewrite Hi, lookup_insert_eq. cbn. rewrite H2 by done.
        assert (key (S l) b = key (S l) a ↔ key l b = key l a) as Hk by (rewrite key_S by done; tauto).
        destruct (decide (key l b = key l a)) as [Hl|Hl]; [by rewrite decide_True by tauto|].
        rewrite decide_False by tauto. destruct (n !! i) as [c0|] eqn:En; [by simplify_eq|]. cbn.
        destruct l as [|l]; cbn in Ec; simplify_eq; [by destruct Hl; unfold key; rewrite Z.mul_0_r, !Z.mod_1_r|].
        cbn. by rewrite lookup_empty.
      * rewrite lookup_insert_ne by done. rewrite decide_False; [done|].
        intros Hk. apply key_S in Hk as [Hk _]; done.
Qed.

(** *** The memory as a function on locations *)

Local Abbreviation top := (Levels - 1)%nat.
Local Abbreviation find_page' := (find_page top).
Context {B : ByteOrder} {BL : ByteOrderLaws B}.

(** [F] is what the pages hold; pages that are not there hold zeros; no two page
    numbers share a page; the cache holds pages of the tree only. *)
Record sm_rep (m : SparseMemory Levels) (F : Z → Z) : Prop := {
  sm_cache_len : length (_cache Levels m) = CacheSize;
  sm_cache : ∀ i it p, _cache Levels m !! i = Some it → _page it = Some p →
    0 ≤ _addr it ∧ find_page' (_mem Levels m) (_addr it) = Some p;
  sm_inj : ∀ a b p, 0 ≤ a → 0 ≤ b → find_page' (_mem Levels m) a = Some p →
    find_page' (_mem Levels m) b = Some p → key top a = key top b;
  sm_fresh : ∀ a p, 0 ≤ a → find_page' (_mem Levels m) a = Some p → (p < next (_heap Levels m))%nat;
  sm_page : ∀ a p, 0 ≤ a → find_page' (_mem Levels m) a = Some p →
    ∃ pg, pages (_heap Levels m) !! p = Some pg ∧ page pg ∧ Z.of_nat (length pg) = PageSize ∧
    ∀ o, 0 ≤ o < PageSize → byte_at pg o = F (key top a * PageSize + o);
  sm_none : ∀ a, 0 ≤ a → find_page' (_mem Levels m) a = None →
    ∀ o, 0 ≤ o < PageSize → F (key top a * PageSize + o) = 0
}.

(** Offsets and page numbers of addresses. *)
Lemma pageOffset_eq a : pageOffset BitWidth Levels a = a mod PageSize.
Proof.
  unfold pageOffset, PageMask. rewrite PageSize_eq.
  replace (2 ^ PageBits - 1) with (Z.ones PageBits) by (rewrite Z.ones_equiv; lia).
  apply Z.land_ones. lia.
Qed.
Lemma ldiff_page a : Z.ldiff a (PageMask BitWidth Levels) = PageSize * (a / PageSize).
Proof.
  unfold PageMask. rewrite PageSize_eq.
  replace (2 ^ PageBits - 1) with (Z.ones PageBits) by (rewrite Z.ones_equiv; lia).
  rewrite Z.ldiff_ones_r, Z.shiftl_mul_pow2, Z.shiftr_div_pow2 by lia. lia.
Qed.
Lemma key_ldiff l a : 0 ≤ a → key l (Z.ldiff a (PageMask BitWidth Levels)) = key l a.
Proof.
  intros Ha. unfold key. rewrite ldiff_page, Z.mul_comm, Z.div_mul; [done|]. pose proof PageSize_pos. lia.
Qed.
Lemma ldiff_nonneg a : 0 ≤ a → 0 ≤ Z.ldiff a (PageMask BitWidth Levels).
Proof. intros Ha. apply Z.ldiff_nonneg. by left. Qed.

Lemma zero_page : buf_rep PageSize (replicate (Z.to_nat PageSize) 0) (λ _, 0).
Proof. apply zero_bytes; [pose proof PageSize_pos; lia|apply PageSize_mod8]. Qed.

(** Going to the tree for a page. *)
Lemma update_page_cache_spec m F a cix p m' : sm_rep m F → 0 ≤ a →
  update_page_cache BitWidth Levels m a cix = (p, m') →
  sm_rep m' F ∧ find_page' (_mem Levels m') a = Some p.
Proof.
  intros [Hlen Hc Hi Hf Hp Hn] Ha E. unfold update_page_cache in E.
  destruct (node_getPage top (_mem Levels m) a (_heap Levels m)) as [[q t] h] eqn:Eg. simplify_eq.
  destruct (node_getPage_spec _ _ _ _ _ _ _ Ha Eg) as [H1 H2].
  assert (find_page' t a = Some p) as Hfa by by rewrite H2, decide_True.
  assert (∀ b, 0 ≤ b → find_page' t b = Some p → key top b = key top a) as Hpa.
  { intros b Hb. rewrite H2 by done. case_decide; [done|]. intros Hfb.
    destruct H1 as [[H1 _]|[H1 [= -> _]]]; [by apply (Hi b a p)|]. apply Hf in Hfb; [lia|done]. }
  split; [|done]. split; cbn.
  - by rewrite length_insert.
  - intros i it q Hit Hq. apply list_lookup_insert_Some in Hit as [(_ & <- & _)|[_ Hit]].
    + cbn in *. simplify_eq. split; [by apply ldiff_nonneg|].
      rewrite <- Hfa. apply find_page_key; [by apply ldiff_nonneg|done|by apply key_ldiff].
    + destruct (Hc i it q Hit Hq) as [Hq0 Hq']. split; [done|]. rewrite H2 by done.
      case_decide as Hk; [|done]. rewrite (find_page_key _ _ _ a) in Hq' by done.
      destruct H1 as [[H1 _]|[H1 _]]; congruence.
  - intros x y q Hx Hy. rewrite !H2 by done. do 2 case_decide; [congruence|..|by eauto].
    + intros [= <-] Hq. symmetry. transitivity (key top a); [|done]. apply Hpa; [done|]. rewrite H2 by done. by rewrite decide_False.
    + intros Hq [= <-]. transitivity (key top a); [|done]. apply Hpa; [done|]. rewrite H2 by done. by rewrite decide_False.
  - intros x q Hx. rewrite H2 by done. case_decide.
    + intros [= <-]. destruct H1 as [[H1 ->]|[_ [= -> ->]]]; [by eauto|cbn; lia].
    + intros Hq. apply Hf in Hq; [|done]. destruct H1 as [[_ ->]|[_ [= _ ->]]]; cbn; lia.
  - intros x q Hx. rewrite H2 by done. case_decide as Hk.
    + intros [= <-]. rewrite Hk. destruct H1 as [[H1 ->]|[H1 [= -> ->]]]; [by eauto|]. cbn.
      eexists. split; [by rewrite lookup_insert_eq|]. destruct zero_page as [Hz Hzl Hzb]. split_and!; [done..|].
      intros o Ho. rewrite Hzb by done. by rewrite Hn.
    + intros Hq. destruct (Hp x q Hx Hq) as (pg & E & Hpg). exists pg. split; [|done].
      destruct H1 as [[_ ->]|[_ [= _ ->]]]; [done|]. cbn. rewrite lookup_insert_ne; [done|].
      apply Hf in Hq; [lia|done].
  - intros x Hx. rewrite H2 by done. case_decide; [done|]. by apply Hn.
Qed.

Lemma cache_index_range a : 0 ≤ a → (Z.to_nat (cache_index BitWidth Levels a) < CacheSize)%nat.
Proof.
  intros Ha. unfold cache_index, CacheMask. change (Z.of_nat CacheSize - 1) with (Z.ones 12).
  rewrite Z.land_ones by lia. pose proof (Z.mod_pos_bound (Z.shiftr a (CacheShift BitWidth Levels)) (2 ^ 12) ltac:(lia)).
  change CacheSize with (Z.to_nat (2 ^ 12)). lia.
Qed.

Lemma getPage_spec m F a : sm_rep m F → 0 ≤ a →
  ∃ p m', getPage BitWidth Levels m a = Ret (p, m') ∧ sm_rep m' F ∧ find_page' (_mem Levels m') a = Some p.
Proof.
  intros Hm Ha. unfold getPage.
  destruct (lookup_lt_is_Some_2 (_cache Levels m) (Z.to_nat (cache_index BitWidth Levels a))) as [it Hit];
    [rewrite (sm_cache_len _ _ Hm); by apply cache_index_range|].
  rewrite Hit. destruct (item_match BitWidth Levels it a) as [p|] eqn:Em.
  - exists p, m. split_and!; [done..|]. unfold item_match in Em. case_match eqn:E; [|done].
    apply Z.eqb_eq in E. destruct (sm_cache _ _ Hm _ _ _ Hit Em) as [_ Hf].
    rewrite <- Hf, <- E. apply find_page_key; [done|by apply ldiff_nonneg|]. symmetry. by apply key_ldiff.
  - destruct (update_page_cache BitWidth Levels m a _) as [p m'] eqn:Eu. exists p, m'.
    split; [done|]. by eapply update_page_cache_spec.
Qed.

(** The location of an address. *)
Definition location (a : Z) : Z := a mod 2 ^ BitWidth.

Lemma location_eq a : location a = key top a * PageSize + a mod PageSize.
Proof.
  unfold location, key. pose proof Bits_pos. pose proof PageSize_pos.
  assert (0 ≤ Bits * Z.of_nat top) by (apply Z.mul_nonneg_nonneg; lia).
  replace (2 ^ BitWidth) with (PageSize * 2 ^ (Bits * Z.of_nat top)).
  - rewrite Z.rem_mul_r by (lia || apply Z.pow_pos_nonneg; lia). lia.
  - rewrite PageSize_eq, <- Z.pow_add_r by lia. f_equal. pose proof BitWidth_split.
    replace (Z.of_nat top) with (Z.of_nat Levels - 1) by lia. lia.
Qed.
Lemma location_add a k : 0 ≤ a → 0 ≤ k → a mod 8 + k < 8 → location (a + k) = location a + k.
Proof.
  intros Ha Hk H8. unfold location. pose proof Bits_pos. pose proof BitWidth_split as HW.
  assert (3 ≤ BitWidth) by nia.
  replace (2 ^ BitWidth) with (8 * 2 ^ (BitWidth - 3))
    by (change 8 with (2 ^ 3); rewrite <- Z.pow_add_r by lia; f_equal; lia).
  rewrite !Z.rem_mul_r by (lia || apply Z.pow_pos_nonneg; lia).
  assert ((a + k) / 8 = a / 8 ∧ (a + k) mod 8 = a mod 8 + k) as [-> ->] by zlia. lia.
Qed.
(** A double-word does not leave its page. *)
Lemma offset_room a : 0 ≤ a → 0 ≤ a mod PageSize < PageSize ∧ (a mod PageSize) mod 8 = a mod 8.
Proof.
  intros Ha. pose proof PageSize_pos. split; [apply Z.mod_pos_bound; lia|].
  apply Z.mod_mod_divide. apply Z.mod_divide; [lia|apply PageSize_mod8].
Qed.
Lemma key_range a : 0 ≤ key top a.
Proof. pose proof Bits_pos. apply Z.mod_pos_bound, Z.pow_pos_nonneg; [lia|]. apply Z.mul_nonneg_nonneg; lia. Qed.

Lemma rep_bytes m F a : sm_rep m F → 0 ≤ a → uint 8 (F (location a)).
Proof.
  intros Hm Ha. rewrite location_eq. destruct (offset_room a Ha) as [Ho _].
  destruct (find_page' (_mem Levels m) a) as [p|] eqn:E.
  - destruct (sm_page _ _ Hm _ _ Ha E) as (pg & _ & [Hd _] & _ & <-); [|done].
    by apply digits_lookup.
  - by rewrite (sm_none _ _ Hm _ Ha E).
Qed.

Lemma on_page_spec {A} m F a (f : list Z → Z → outcome A) : sm_rep m F → 0 ≤ a →
  ∃ pg m', sm_rep m' F ∧ page pg ∧ Z.of_nat (length pg) = PageSize ∧
  (∀ o, 0 ≤ o < PageSize → byte_at pg o = F (key top a * PageSize + o)) ∧
  on_page BitWidth Levels m a f = let! v := f pg (a mod PageSize) in Ret (v, m').
Proof.
  intros Hm Ha. destruct (getPage_spec m F a Hm Ha) as (p & m' & E & Hm' & Hf).
  destruct (sm_page _ _ Hm' _ _ Ha Hf) as (pg & Hp & Hpg & Hl & Hb).
  exists pg, m'. split_and!; [done..|]. unfold on_page. rewrite E. cbn [obind fst snd].
  unfold deref. rewrite Hp. cbn [obind]. by rewrite pageOffset_eq.
Qed.

(** What is known of the page of an address. *)
Definition page_view (F : Z → Z) (a : Z) (pg : list Z) : Prop :=
  page pg ∧ Z.of_nat (length pg) = PageSize ∧
  ∀ o, 0 ≤ o < PageSize → byte_at pg o = F (key top a * PageSize + o).
Definition set_page (m : SparseMemory Levels) (p : nat) (pg : list Z) : SparseMemory Levels :=
  {| _mem := _mem Levels m; _cache := _cache Levels m; _heap := update_page (_heap Levels m) p pg |}.

(** Changing a page changes its locations and no others. *)
Lemma set_page_spec m F F' a p pg' : sm_rep m F → 0 ≤ a → find_page' (_mem Levels m) a = Some p →
  page_view F' a pg' →
  (∀ k o, k ≠ key top a → 0 ≤ o < PageSize → F' (k * PageSize + o) = F (k * PageSize + o)) →
  sm_rep (set_page m p pg') F'.
Proof.
  intros [Hlen Hc Hi Hfr Hpa Hn] Ha Hfp (Hpg' & Hl' & Hb') Hother. split; cbn; try done.
  - intros x q Hx Hq. destruct (decide (q = p)) as [->|Hne].
    + exists pg'. rewrite (Hi x a p Hx Ha Hq Hfp). split_and!; [by rewrite lookup_insert_eq|done..].
    + destruct (Hpa x q Hx Hq) as (pg1 & E1 & Hpg1 & Hl1 & Hb1). exists pg1.
      rewrite lookup_insert_ne by done. split_and!; [done..|]. intros o Ho. rewrite Hb1 by done.
      symmetry. apply Hother; [|done]. intros Hk. apply Hne.
      rewrite (find_page_key _ _ _ a) in Hq by done. congruence.
  - intros x Hx Hq o Ho. rewrite Hother; [by apply Hn| |done].
    intros Hk. rewrite (find_page_key _ _ _ a) in Hq by done. congruence.
Qed.
Lemma change_page_spec m F F' a (f : list Z → Z → outcome (list Z)) : sm_rep m F → 0 ≤ a →
  (∀ pg, page_view F a pg → ∃ pg', f pg (a mod PageSize) = Ret pg' ∧ page_view F' a pg') →
  (∀ k o, k ≠ key top a → 0 ≤ o < PageSize → F' (k * PageSize + o) = F (k * PageSize + o)) →
  ∃ m', change_page BitWidth Levels m a f = Ret m' ∧ sm_rep m' F'.
Proof.
  intros Hm Ha Hf Hother. destruct (getPage_spec m F a Hm Ha) as (p & m1 & E & Hm1 & Hfp).
  destruct (sm_page _ _ Hm1 _ _ Ha Hfp) as (pg & Hp & Hv). destruct (Hf pg Hv) as (pg' & Ef & Hv').
  unfold change_page. rewrite E. cbn [obind fst snd]. unfold deref. rewrite Hp. cbn [obind].
  rewrite pageOffset_eq, Ef. cbn [obind]. eexists. split; [done|]. by apply (set_page_spec m1 F F' a p pg').
Qed.

Lemma sm_put_bytes F a g n : 0 ≤ a → 0 ≤ n → a mod PageSize + n ≤ PageSize →
  (∀ k o, k ≠ key top a → 0 ≤ o < PageSize →
     put_bytes F (location a) g n (k * PageSize + o) = F (k * PageSize + o)) ∧
  (∀ o, 0 ≤ o < PageSize → put_bytes F (location a) g n (key top a * PageSize + o) =
     put_bytes (λ o, F (key top a * PageSize + o)) (a mod PageSize) g n o).
Proof.
  intros Ha Hn Hr. destruct (offset_room a Ha) as [Ho _]. pose proof PageSize_pos.
  unfold put_bytes. rewrite location_eq. split.
  - intros k o Hk Ho'. set (K := key top a) in *. set (r := a mod PageSize) in *.
    destruct (Z.leb_spec (K * PageSize + r) (k * PageSize + o)),
      (Z.ltb_spec (k * PageSize + o) (K * PageSize + r + n)); cbn [andb]; try done.
    exfalso. apply Hk. nia.
  - intros o Ho'. set (K := key top a) in *. set (r := a mod PageSize) in *.
    destruct (Z.leb_spec r o), (Z.ltb_spec o (r + n)); cbn [andb].
    + rewrite (proj2 (Z.leb_le _ _)), (proj2 (Z.ltb_lt _ _)) by lia. cbn [andb]. f_equal. lia.
    + rewrite (proj2 (Z.ltb_ge _ _)) by lia. by rewrite andb_false_r.
    + by rewrite (proj2 (Z.leb_gt _ _)) by lia.
    + by rewrite (proj2 (Z.leb_gt _ _)) by lia.
Qed.
Lemma dw_room a n : 0 ≤ a → a mod 8 + n ≤ 8 → a mod PageSize + n ≤ PageSize.
Proof.
  intros Ha H8. destruct (offset_room a Ha) as [Ho Hm]. pose proof PageSize_pos. pose proof PageSize_mod8.
  rewrite <- Hm in H8. generalize dependent (a mod PageSize). intros. zlia.
Qed.
Lemma sm_write_bytes F a n v nb : 0 ≤ a → 0 ≤ nb → a mod 8 + nb ≤ 8 →
  (∀ k o, k ≠ key top a → 0 ≤ o < PageSize →
     write_bytes F (location a) n v nb (k * PageSize + o) = F (k * PageSize + o)) ∧
  (∀ o, 0 ≤ o < PageSize → write_bytes F (location a) n v nb (key top a * PageSize + o) =
     write_bytes (λ o, F (key top a * PageSize + o)) (a mod PageSize) n v nb o).
Proof. intros Ha Hnb H8. apply (sm_put_bytes F a (top_byte n v) nb); [done..|by apply dw_room]. Qed.

Lemma page_view_buf F a pg : page_view F a pg ↔ buf_rep PageSize pg (λ o, F (key top a * PageSize + o)).
Proof. split; [intros (Hp & Hl & Hb); by split|intros [Hp Hl Hb]; split; [done|by split]]. Qed.
Lemma buf_view F' G a pg : buf_rep PageSize pg G →
  (∀ o, 0 ≤ o < PageSize → F' (key top a * PageSize + o) = G o) → page_view F' a pg.
Proof. intros [Hp Hl Hb] HG. apply page_view_buf. split; [done..|]. intros o Ho. by rewrite HG, Hb. Qed.

Lemma page_view_ext F F' a pg : (∀ b, F b = F' b) → page_view F a pg → page_view F' a pg.
Proof. intros HF (Hp & Hl & Hb). split; [done|]. split; [done|]. intros o Ho. by rewrite <- HF, Hb. Qed.

(** Accesses to the page of an address. *)
Lemma page_read w F a pg : 0 ≤ a → a mod 8 + Z.of_nat (nbytes w) ≤ 8 → page_view F a pg →
  byte_read w pg (a mod PageSize) = Ret (value_at F (location a) (nbytes w)).
Proof.
  intros Ha H8 Hv%page_view_buf. destruct (offset_room a Ha) as [Ho Hm].
  pose proof (buf_read _ w _ _ _ Hv Ho) as Hr. destruct Hv as [Hp Hl _].
  rewrite (readable_law w) in Hr by (done || by rewrite ?Hl, ?Hm). destruct Hr as (v & -> & Hv & Hk).
  f_equal. apply (value_of_bytes _ _ (λ k, F (location a + k))); [done|]. intros k Hk0.
  rewrite Hk by (done || lia). rewrite location_eq. f_equal. lia.
Qed.
Lemma page_read8 F a pg : 0 ≤ a → page_view F a pg → byte_read8 pg (a mod PageSize) = Ret (F (location a)).
Proof.
  intros Ha Hv%page_view_buf. destruct (offset_room a Ha) as [Ho _].
  rewrite (buf_read8 _ _ _ _ Hv Ho). by rewrite location_eq.
Qed.
Lemma page_write w F a v nb pg : 0 ≤ a → 0 ≤ nb ≤ Z.of_nat (nbytes w) → a mod 8 + nb ≤ 8 → page_view F a pg →
  ∃ pg', byte_write w pg (a mod PageSize) v nb = Ret pg' ∧
  page_view (write_bytes F (location a) (nbytes w) v nb) a pg'.
Proof.
  intros Ha Hnb H8 Hv%page_view_buf. destruct (offset_room a Ha) as [Ho Hm].
  destruct (buf_write _ w _ _ _ v nb Hv Ho Hnb) as (pg' & E & Hp'); [by rewrite Hm|].
  exists pg'. split; [done|]. eapply buf_view; [exact Hp'|]. apply sm_write_bytes; lia.
Qed.
Lemma page_write8 F a v pg : 0 ≤ a → uint 8 v → page_view F a pg →
  ∃ pg', byte_write8 pg (a mod PageSize) v = Ret pg' ∧ page_view (write_bytes F (location a) 1 v 1) a pg'.
Proof.
  intros Ha Hu Hv%page_view_buf. destruct (offset_room a Ha) as [Ho Hm].
  pose proof (Z.mod_pos_bound a 8 ltac:(lia)).
  destruct (buf_write8 _ _ _ _ v Hv Ho Hu) as (pg' & E & Hp').
  exists pg'. split; [done|]. eapply buf_view; [exact Hp'|]. apply sm_write_bytes; lia.
Qed.
Lemma page_load F a n pg : 0 ≤ a → a mod 8 = 0 → Z.of_nat n mod 8 = 0 → a mod PageSize + Z.of_nat n ≤ PageSize →
  page_view F a pg →
  ∃ l, load pg (a mod PageSize) n = Ret l ∧ length l = n ∧ page l ∧
  ∀ k, 0 ≤ k < Z.of_nat n → byte_at l k = F (location a + k).
Proof.
  intros Ha H8 Hn Hr Hv%page_view_buf. destruct (offset_room a Ha) as [Ho Hm].
  destruct (buf_load _ _ _ (a mod PageSize) n Hv) as (l & E & Hl & Hp & Hb); [lia..|].
  exists l. split; [done|]. split; [done|]. split; [done|]. intros k Hk. rewrite Hb, location_eq by done. f_equal. lia.
Qed.
Lemma page_memcpy F a s pg : 0 ≤ a → a mod 8 = 0 → page s → a mod PageSize + Z.of_nat (length s) ≤ PageSize →
  page_view F a pg →
  ∃ pg', memcpy pg (a mod PageSize) s = Ret pg' ∧
  page_view (put_bytes F (location a) (byte_at s) (Z.of_nat (length s))) a pg'.
Proof.
  intros Ha H8 Hs Hr Hv%page_view_buf. destruct (offset_room a Ha) as [Ho Hm].
  destruct (buf_memcpy _ _ _ (a mod PageSize) s Hv Hs) as (pg' & E & Hp'); [lia..|].
  exists pg'. split; [done|]. eapply buf_view; [exact Hp'|]. apply sm_put_bytes; lia.
Qed.

(** The sparse memory as a memory of bytes. *)
#[export] Program Instance sparse_laws : ByteMemLaws (SparseMemory Levels) (H := sparse_mem BitWidth Levels) := {
  mem_rep m F := sm_rep m F;
  canon := location;
  addr_ok a := 0 ≤ a;
  whole w a := readable w (replicate (Z.to_nat PageSize) 0) (a mod PageSize)
}.
Next Obligation. cbn. intros a k. apply location_add. Qed.
Next Obligation.
  cbn. intros m F F' HF [Hl Hc Hi Hf Hp Hn]. split; [done..| |].
  - intros a p Ha Hf'. destruct (Hp a p Ha Hf') as (pg & E & Hpg & Hlen & Hb). exists pg.
    split_and!; [done..|]. intros o Ho. by rewrite <- HF, Hb.
  - intros a Ha Hno o Ho. by rewrite <- HF, Hn.
Qed.
Next Obligation. cbn. intros m F a. apply rep_bytes. Qed.
Next Obligation.
  cbn. intros w a Ha H8. destruct zero_page as [Hz Hl _]. destruct (offset_room a Ha) as [Ho Hm].
  apply readable_law; [done|by rewrite Hl|by rewrite Hm].
Qed.
Next Obligation.
  cbn. intros w m F a Hm Ha. destruct (offset_room a Ha) as [Ho Hm8]. destruct zero_page as [Hz Hlz _].
  unfold read. destruct (on_page_spec m F a (byte_read w) Hm Ha) as (pg & m' & Hm' & Hp & Hl & Hb & ->).
  rewrite (readable_length w _ pg) by lia. destruct (readable w pg (a mod PageSize)) eqn:Er.
  - destruct (read_law w pg (a mod PageSize) Hp) as (v & -> & Hv & Hk); [by rewrite Hl|done|]. cbn [obind].
    exists v, m'. split_and!; [done..|]. intros k Hk0 Hk8. rewrite Hk by (done || by rewrite Hm8).
    rewrite Hb, location_eq; [f_equal; lia|]. pose proof PageSize_mod8.
    rewrite <- Hm8 in Hk8. generalize dependent (a mod PageSize). intros r **. zlia.
  - by rewrite unreadable_law by (done || by rewrite Hl).
Qed.
Next Obligation.
  cbn. intros m F a Hm Ha. destruct (offset_room a Ha) as [Ho Hm8]. unfold read8.
  destruct (on_page_spec m F a byte_read8 Hm Ha) as (pg & m' & Hm' & Hp & Hl & Hb & ->).
  rewrite read8_law by (done || by rewrite Hl). cbn [obind]. exists m'. split; [|done].
  by rewrite Hb, location_eq by done.
Qed.
Next Obligation.
  cbn. intros w m F a v nb Hm Ha Hnb H8.
  destruct (sm_write_bytes F a (nbytes w) v nb Ha ltac:(lia) H8) as [H1 _].
  apply (change_page_spec m F); [done..| |exact H1]. intros pg. by apply page_write.
Qed.
Next Obligation.
  cbn. intros m F a v Hm Ha Hv. pose proof (Z.mod_pos_bound a 8 ltac:(lia)).
  destruct (sm_write_bytes F a 1 v 1 Ha ltac:(lia) ltac:(lia)) as [H1 _].
  apply (change_page_spec m F); [done..| |exact H1]. intros pg. by apply page_write8.
Qed.

Lemma find_empty_tree a : find_page' (empty_tree Levels) a = None.
Proof.
  unfold empty_tree. destruct (Levels - 1)%nat as [|l] eqn:E; [lia|]. cbn. by rewrite lookup_empty.
Qed.

(** A cleared cache over an empty tree. *)
Lemma resetCache_spec c h : ∃ m',
  resetCache BitWidth Levels {| _mem := empty_tree Levels; _cache := c; _heap := h |} = Ret m' ∧
  sm_rep m' (λ _, 0).
Proof.
  unfold resetCache. cbn [SparseMemory._mem SparseMemory._heap]. set (m := {| _mem := _ |}).
  assert (sm_rep m (λ _, 0)) as Hm.
  { assert (∀ a, find_page' (_mem Levels m) a = None) as Hf by apply find_empty_tree.
    split; [apply length_replicate| |intros *; rewrite Hf; done..|done].
    intros i it p Hit Hp. apply lookup_replicate in Hit as [-> _]. done. }
  destruct (getPage_spec m _ 0 Hm ltac:(lia)) as (p & m' & -> & Hm' & _). by exists m'.
Qed.
Lemma init_spec : ∃ m, init BitWidth Levels = Ret m ∧ sm_rep m (λ _, 0).
Proof. apply resetCache_spec. Qed.
Lemma reset_spec m : ∃ m', reset BitWidth Levels m = Ret m' ∧ sm_rep m' (λ _, 0).
Proof. apply resetCache_spec. Qed.
End SparseCorrect.

(** ** Sequences of accesses *)

Inductive mem_op : Type :=
| MRead (w : width) (a : Z)
| MRead8 (a : Z)
| MWrite (w : width) (a v nb : Z)
| MWrite8 (a v : Z).

(** The values that the reads give, and the memory afterwards. *)
Definition mem_exec {M} `{ByteMem M} (m : M) (o : mem_op) : outcome (list Z * M) :=
  match o with
  | MRead w a => let! r := mem_read w m a in Ret ([fst r], snd r)
  | MRead8 a => let! r := mem_read8 m a in Ret ([fst r], snd r)
  | MWrite w a v nb => let! m := mem_write w m a v nb in Ret ([], m)
  | MWrite8 a v => let! m := mem_write8 m a v in Ret ([], m)
  end.
Definition flat_exec (canon : Z → Z) (F : Z → Z) (o : mem_op) : list Z * (Z → Z) :=
  match o with
  | MRead w a => ([value_at F (canon a) (nbytes w)], F)
  | MRead8 a => ([F (canon a)], F)
  | MWrite w a v nb => ([], write_bytes F (canon a) (nbytes w) v nb)
  | MWrite8 a v => ([], write_bytes F (canon a) 1 v 1)
  end.
(** Accesses that stay in a double-word. *)
Definition op_ok (addr_ok : Z → Prop) (o : mem_op) : Prop :=
  match o with
  | MRead w a => addr_ok a ∧ a mod 8 + Z.of_nat (nbytes w) ≤ 8
  | MRead8 a => addr_ok a
  | MWrite w a v nb => addr_ok a ∧ 0 ≤ nb ≤ Z.of_nat (nbytes w) ∧ a mod 8 + nb ≤ 8
  | MWrite8 a v => addr_ok a ∧ uint 8 v
  end.

Lemma mem_exec_spec {M} `{ByteMemLaws M} (m : M) F o : mem_rep m F → op_ok addr_ok o →
  ∃ m', mem_exec m o = Ret (fst (flat_exec canon F o), m') ∧ mem_rep m' (snd (flat_exec canon F o)).
Proof.
  intros Hm Ho. destruct o as [w a|a|w a v nb|a v]; cbn in *.
  - destruct Ho as [Ha H8]. destruct (mem_read_value w m F a Hm Ha H8) as (m' & -> & Hm'). by exists m'.
  - destruct (mem_read8_law m F a Hm Ho) as (m' & -> & Hm'). by exists m'.
  - destruct Ho as (Ha & Hnb & H8). destruct (mem_write_law w m F a v nb Hm Ha Hnb H8) as (m' & -> & Hm'). by exists m'.
  - destruct Ho as [Ha Hv]. destruct (mem_write8_law m F a v Hm Ha Hv) as (m' & -> & Hm'). by exists m'.
Qed.

Section Runs.
Context {M : Type} (step : M → mem_op → outcome (list Z * M)) (clear : M → outcome M).

(** Accesses and resets; the values of all reads. *)
Fixpoint mem_run (m : M) (ops : list (option mem_op)) : outcome (list Z * M) :=
  match ops with
  | [] => Ret ([], m)
  | None :: ops => let! m := clear m in mem_run m ops
  | Some o :: ops =>
      let! r := step m o in
      let! r' := mem_run (snd r) ops in
      Ret (fst r ++ fst r', snd r')
  end.
End Runs.
Fixpoint flat_run (canon : Z → Z) (F : Z → Z) (ops : list (option mem_op)) : list Z :=
  match ops with
  | [] => []
  | None :: ops => flat_run canon (λ _, 0) ops
  | Some o :: ops => fst (flat_exec canon F o) ++ flat_run canon (snd (flat_exec canon F o)) ops
  end.
Definition run_ok (addr_ok : Z → Prop) (ops : list (option mem_op)) : Prop :=
  Forall (λ o, from_option (op_ok addr_ok) True o) ops.

Lemma mem_run_spec {M} `{ByteMemLaws M} (clear : M → outcome M) (m : M) F ops :
  (∀ m F, mem_rep m F → ∃ m', clear m = Ret m' ∧ mem_rep m' (λ _, 0)) →
  mem_rep m F → run_ok addr_ok ops →
  ∃ m', mem_run mem_exec clear m ops = Ret (flat_run canon F ops, m').
Proof.
  intros Hc Hm Ho. revert m F Hm. induction Ho as [|o ops Ho Hos IH]; intros m F Hm; [by exists m|].
  destruct o as [o|]; cbn.
  - destruct (mem_exec_spec m F o Hm Ho) as (m1 & -> & Hm1). cbn [obind fst snd].
    destruct (IH m1 _ Hm1) as (m2 & ->). by exists m2.
  - destruct (Hc m F Hm) as (m1 & -> & Hm1). cbn [obind]. by apply IH.
Qed.

(** C12: a sparse memory, from its constructor through any sequence of reads,
    writes and resets, answers like a flat array of [2^BitWidth] bytes that
    starts with zeros, in either byte order: values are big-endian, a write of
    [nb] bytes stores the first [nb] of its value, addresses count modulo
    [2^BitWidth].  In particular the page cache is never stale, no two page
    numbers share a page and no deleted page is used.  Accesses stay inside of a
    double-word, as the access classes arrange. *)
Theorem sparse_memory_refines (BitWidth : Z) (Levels : nat) (B : ByteOrder) (ops : list (option mem_op)) :
  (2 ≤ Levels)%nat → Z.of_nat Levels ≤ BitWidth ≤ 64 → 3 ≤ PageBits BitWidth Levels ≤ 30 →
  B = addr_invariant ∨ B = data_invariant → run_ok (Z.le 0) ops →
  ∃ m0 m, init BitWidth Levels = Ret m0 ∧
  mem_run (mem_exec (H := sparse_mem BitWidth Levels)) (reset BitWidth Levels) m0 ops =
    Ret (flat_run (λ a, a mod 2 ^ BitWidth) (λ _, 0) ops, m).
Proof.
  intros HL HB HP HO Hops.
  assert (ByteOrderLaws B) as BL by (destruct HO as [->| ->]; apply _).
  destruct (init_spec BitWidth Levels HL HB HP) as (m0 & E0 & Hm0).
  destruct (mem_run_spec (H0 := sparse_laws BitWidth Levels HL HB HP) (reset BitWidth Levels) m0 (λ _, 0) ops)
    as (m & E); [|done|done|by exists m0, m].
  intros m F _. by apply reset_spec.
Qed.

Lemma sparse_memory_refines_witness : ∃ m0 m, init 16 4 = Ret m0 ∧
  mem_run (mem_exec (H := sparse_mem 16 4 (H := data_invariant))) (reset 16 4) m0
    [Some (MWrite W32 0x1004 0xdeadbeef 4); Some (MRead W16 0x1006); Some (MWrite8 0x11005 0x77);
     Some (MRead W64 0x1000); None; Some (MRead8 0x1005)] = Ret ([0xbeef; 0xde77beef; 0], m).
Proof.
  destruct (sparse_memory_refines 16 4 data_invariant
    [Some (MWrite W32 0x1004 0xdeadbeef 4); Some (MRead W16 0x1006); Some (MWrite8 0x11005 0x77);
     Some (MRead W64 0x1000); None; Some (MRead8 0x1005)]) as (m0 & m & E0 & E).
  - lia.
  - lia.
  - vm_compute. split; discriminate.
  - by right.
  - unfold run_ok. repeat apply Forall_cons_2; try apply Forall_nil_2; vm_compute; repeat split; discriminate.
  - exists m0, m. split; [exact E0|]. rewrite E. vm_compute. reflexivity.
Defined.

(** ** Block memories *)

Lemma popcount_1 w x : 0 ≤ x < 2 ^ Z.of_nat w →
  builtin_popcount w x = 1 ↔ ∃ k, 0 ≤ k < Z.of_nat w ∧ x = 2 ^ k.
Proof.
  revert x. induction w as [|w IH]; intros x Hx; cbn [builtin_popcount].
  - split; [done|]. intros (k & Hk & _). lia.
  - rewrite Nat2Z.inj_succ, Z.pow_succ_r in Hx by lia.
    pose proof (builtin_popcount_nonneg w (x / 2)). pose proof (Z.mod_pos_bound x 2 ltac:(lia)).
    assert (0 ≤ x / 2 < 2 ^ Z.of_nat w) as Hx2 by zlia. split.
    + intros E. destruct (Z.eq_dec (x mod 2) 1) as [H1|H1].
      * assert (x / 2 = 0) by (apply (popcount_0 w); [done|lia]). exists 0. split; [lia|]. zlia.
      * destruct (proj1 (IH (x / 2) Hx2)) as (k & Hk & Ek); [lia|]. exists (k + 1). split; [lia|].
        rewrite Z.pow_add_r by lia. zlia.
    + intros (k & Hk & ->). destruct (Z.eq_dec k 0) as [->|Hk0].
      * change (2 ^ 0 / 2) with 0. by rewrite popcount_zero.
      * replace (2 ^ k) with (2 ^ (k - 1) * 2)
          by (rewrite Z.mul_comm, <- Z.pow_succ_r by lia; f_equal; lia).
        rewrite Z_mod_mult, Z.div_mul by lia. cbn. apply IH; [|exists (k - 1); split; [lia|done]].
        split; [apply Z.pow_nonneg; lia|]. apply Z.pow_lt_mono_r; lia.
Qed.

Section Block.
Import BlockMemory.
Context {B : ByteOrder} {BL : ByteOrderLaws B} (k : Z) (Hk : 3 ≤ k ≤ 31).

Record block_rep (m : BlockMemory) (F : Z → Z) : Prop := {
  bk_size : _mem_size m = 2 ^ k;
  bk_mask : _mem_mask m = 2 ^ k - 1;
  bk_mem : buf_rep (2 ^ k) (_mem m) F
}.

Lemma block_size_8 : 8 ≤ 2 ^ k ∧ 2 ^ k mod 8 = 0.
Proof.
  split; [change 8 with (2 ^ 3); apply Z.pow_le_mono_r; lia|].
  replace k with (3 + (k - 3)) by lia. rewrite Z.pow_add_r by lia. change (2 ^ 3) with 8.
  rewrite Z.mul_comm. apply Z_mod_mult.
Qed.
Lemma mask_addr_eq m F a : block_rep m F → mask_addr m a = a mod 2 ^ k.
Proof.
  intros Hm. unfold mask_addr. rewrite (bk_mask _ _ Hm).
  replace (2 ^ k - 1) with (Z.ones k) by (rewrite Z.ones_equiv; lia). apply Z.land_ones. lia.
Qed.
Lemma block_offset a : 0 ≤ a mod 2 ^ k < 2 ^ k ∧ (a mod 2 ^ k) mod 8 = a mod 8.
Proof.
  destruct block_size_8. split; [apply Z.mod_pos_bound; lia|].
  apply Z.mod_mod_divide, Z.mod_divide; [lia|done].
Qed.
(** In a block whose size is a multiple of eight, a double-word does not wrap. *)
Lemma block_add a j : 0 ≤ j → a mod 8 + j < 8 → (a + j) mod 2 ^ k = a mod 2 ^ k + j.
Proof.
  intros Hj H8. destruct (block_offset a) as [Ho Hm]. destruct block_size_8 as [Hs H0].
  assert (a mod 2 ^ k + j < 2 ^ k) by (rewrite <- Hm in H8; generalize dependent (a mod 2 ^ k); intros; zlia).
  rewrite <- Zplus_mod_idemp_l. apply Z.mod_small. lia.
Qed.
Lemma block_zero :
  block_rep {| _mem_mask := 2 ^ k - 1; _mem_size := 2 ^ k; _mem := replicate (Z.to_nat (2 ^ k)) 0 |} (λ _, 0).
Proof. destruct block_size_8. split; [done..|]. apply zero_bytes; [lia|done]. Qed.

#[export] Program Instance block_laws : ByteMemLaws BlockMemory (H := block_mem) := {
  mem_rep m F := block_rep m F;
  canon a := a mod 2 ^ k;
  addr_ok a := True;
  whole w a := readable w (replicate (Z.to_nat (2 ^ k)) 0) (a mod 2 ^ k)
}.
Next Obligation. cbn. intros a j _. apply block_add. Qed.
Next Obligation.
  cbn. intros m F F' HF [Hs Hm [Hp Hl Hb]]. split; [done..|]. split; [done..|]. intros a Ha. by rewrite <- HF, Hb.
Qed.
Next Obligation.
  cbn. intros m F a [_ _ [[Hd _] Hl Hb]] _. destruct (block_offset a) as [Ho _]. rewrite <- Hb by done.
  by apply digits_lookup.
Qed.
Next Obligation.
  cbn. intros w a _ H8. destruct block_zero as [_ _ [Hp Hl _]]. cbn [_mem] in Hp, Hl.
  destruct (block_offset a) as [Ho Hm].
  apply readable_law; [exact Hp|by rewrite Hl|by rewrite Hm].
Qed.
Next Obligation.
  cbn. intros w m F a Hm _. unfold read. rewrite (mask_addr_eq _ _ _ Hm). destruct (block_offset a) as [Ho H8].
  pose proof (buf_read _ w _ _ _ (bk_mem _ _ Hm) Ho) as Hr. pose proof (buf_len _ _ _ (bk_mem _ _ Hm)).
  rewrite (readable_length w _ (_mem m)) by (rewrite length_replicate; lia). rewrite H8 in Hr.
  destruct (readable w (_mem m) (a mod 2 ^ k)); [|by rewrite Hr].
  destruct Hr as (v & -> & Hv). by exists v, m.
Qed.
Next Obligation.
  cbn. intros m F a Hm _. unfold read8. rewrite (mask_addr_eq _ _ _ Hm). destruct (block_offset a) as [Ho H8].
  rewrite (buf_read8 _ _ _ _ (bk_mem _ _ Hm) Ho). by exists m.
Qed.
Next Obligation.
  cbn. intros w m F a v nb Hm _ Hnb H8. unfold write. rewrite (mask_addr_eq _ _ _ Hm).
  destruct (block_offset a) as [Ho Hm8]. destruct (buf_write _ w _ _ _ v nb (bk_mem _ _ Hm) Ho Hnb) as (p' & -> & Hp');
    [by rewrite Hm8|]. eexists. split; [done|]. split; [apply Hm..|done].
Qed.
Next Obligation.
  cbn. intros m F a v Hm _ Hv. unfold write8. rewrite (mask_addr_eq _ _ _ Hm).
  destruct (block_offset a) as [Ho Hm8]. destruct (buf_write8 _ _ _ _ v (bk_mem _ _ Hm) Ho Hv) as (p' & -> & Hp').
  eexists. split; [done|]. split; [apply Hm..|done].
Qed.

Lemma block_reset_spec m F : block_rep m F → ∃ m', reset m = Ret m' ∧ block_rep m' (λ _, 0).
Proof.
  intros [Hs Hm _]. unfold reset. destruct block_size_8. rewrite Hs, (proj2 (Z.eqb_neq _ _)) by lia.
  eexists. split; [done|]. rewrite Hm. apply block_zero.
Qed.
End Block.

(** A block memory accepts exactly the sizes that are powers of two; of eight
    bytes or more it answers like a flat array of its size that starts with
    zeros, at addresses modulo the size, through any sequence of reads, writes
    and resets and in either byte order. *)
Theorem block_memory_refines (size : Z) (B : ByteOrder) (ops : list (option mem_op)) :
  0 ≤ size < 2 ^ 32 → B = addr_invariant ∨ B = data_invariant → run_ok (λ _, True) ops →
  ((∀ k, 0 ≤ k < 32 → size ≠ 2 ^ k) → ∃ e, BlockMemory.set_mem_size size = Throw e) ∧
  (∀ k, 3 ≤ k < 32 → size = 2 ^ k → ∃ m0 m, BlockMemory.set_mem_size size = Ret m0 ∧
     mem_run mem_exec BlockMemory.reset m0 ops = Ret (flat_run (λ a, a mod size) (λ _, 0) ops, m)).
Proof.
  intros Hs HO Hops. assert (ByteOrderLaws B) as BL by (destruct HO as [->| ->]; apply _).
  unfold BlockMemory.set_mem_size, count_ones_u32. pose proof (popcount_1 32 size Hs) as Hp. split.
  - intros Hno. destruct (Z.eqb_spec (builtin_popcount 32 size) 1) as [E|E]; [|by eexists].
    apply Hp in E as (k & Hk & ->). by destruct (Hno k Hk).
  - intros k Hk ->. rewrite (proj2 (Z.eqb_eq (builtin_popcount 32 (2 ^ k)) 1))
      by (apply Hp; exists k; split; [lia|done]). cbn [negb].
    assert (3 ≤ k ≤ 31) as Hk' by lia.
    destruct (mem_run_spec (H0 := block_laws k Hk') BlockMemory.reset
      {| BlockMemory._mem_mask := 2 ^ k - 1; BlockMemory._mem_size := 2 ^ k;
         BlockMemory._mem := replicate (Z.to_nat (2 ^ k)) 0 |} (λ _, 0) ops) as (m & E).
    + intros m F. by apply block_reset_spec.
    + by apply block_zero.
    + done.
    + eexists _, m. split; [done|exact E].
Qed.

Lemma block_memory_refines_witness : ∃ m0 m, BlockMemory.set_mem_size 64 = Ret m0 ∧
  mem_run (mem_exec (H := block_mem (H := addr_invariant))) BlockMemory.reset m0
    [Some (MWrite W64 0x48 0x1122334455667788 8); Some (MWrite W32 0x8 0xaabbccdd 2);
     Some (MRead W64 0x8); None; Some (MRead8 0x9)] = Ret ([0xaabb334455667788; 0], m).
Proof.
  destruct (proj2 (block_memory_refines 64 addr_invariant
    [Some (MWrite W64 0x48 0x1122334455667788 8); Some (MWrite W32 0x8 0xaabbccdd 2);
     Some (MRead W64 0x8); None; Some (MRead8 0x9)] ltac:(lia) ltac:(by left)
    ltac:(repeat apply Forall_cons_2; try apply Forall_nil_2; vm_compute; repeat split; discriminate)) 6)
    as (m0 & m & E0 & E); [lia|done|].
  exists m0, m. split; [exact E0|]. rewrite E. vm_compute. reflexivity.
Defined.

(** ** Memories of fixed size *)

Section Simple.
Import SimpleMemory.
Context {B : ByteOrder} {BL : ByteOrderLaws B} (N : Z) (HN : 8 ≤ N ≤ 2 ^ 32) (HN8 : N mod 8 = 0).

Lemma simple_zero : buf_rep N (_mem (init N)) (λ _, 0).
Proof. apply zero_bytes; [lia|done]. Qed.

#[export] Program Instance simple_laws : ByteMemLaws SimpleMemory (H := simple_mem) := {
  mem_rep m F := buf_rep N (_mem m) F;
  canon a := a;
  addr_ok a := 0 ≤ a < N;
  whole w a := readable w (replicate (Z.to_nat N) 0) a
}.
Next Obligation. done. Qed.
Next Obligation.
  cbn. intros m F F' HF [Hp Hl Hb]. split; [done..|]. intros a Ha. by rewrite <- HF, Hb.
Qed.
Next Obligation.
  cbn. intros m F a [[Hd _] Hl Hb] Ho. rewrite <- Hb by done. by apply digits_lookup.
Qed.
Next Obligation.
  cbn. intros w a Ha H8. destruct simple_zero as [Hp Hl _]. cbn [_mem init] in Hp, Hl.
  apply readable_law; [exact Hp|by rewrite Hl|done].
Qed.
Next Obligation.
  cbn. intros w m F a Hm Ho. unfold read. rewrite (wrap_small 32 a) by (unfold uint; lia).
  pose proof (buf_read _ w _ _ _ Hm Ho) as Hr. pose proof (buf_len _ _ _ Hm).
  rewrite (readable_length w _ (_mem m)) by (rewrite length_replicate; lia).
  destruct (readable w (_mem m) a); [|by rewrite Hr]. destruct Hr as (v & -> & Hv). by exists v, m.
Qed.
Next Obligation.
  cbn. intros m F a Hm Ho. unfold read8. rewrite (wrap_small 32 a) by (unfold uint; lia).
  rewrite (buf_read8 _ _ _ _ Hm Ho). by exists m.
Qed.
Next Obligation.
  cbn. intros w m F a v nb Hm Ho Hnb H8. unfold write. rewrite (wrap_small 32 a) by (unfold uint; lia).
  destruct (buf_write _ w _ _ _ v nb Hm Ho Hnb H8) as (p' & -> & Hp'). by eexists.
Qed.
Next Obligation.
  cbn. intros m F a v Hm Ho Hv. unfold write8. rewrite (wrap_small 32 a) by (unfold uint; lia).
  destruct (buf_write8 _ _ _ _ v Hm Ho Hv) as (p' & -> & Hp'). by eexists.
Qed.
End Simple.
