(* ===== verification/MemoryAccess.v ===== *)
(** * Memory accesses through a translation, a cache and a logger

    [struct MemoryAccess] of [src/iss/Memory.h]: reads and writes of 64, 32, 16, 8
    and 0 bits at any effective address, which are split where they cross a word
    or a double-word; [MemoryTranslate] and [SimpleCache] of
    [src/iss/ModelSupport.h], the classes of local memories.

    The template parameters [Translate], [CacheAccess] and [Logger] are type
    classes over the state [W] of the simulated core, which these objects refer
    to.  An access is a function on that state that returns or throws, and keeps
    the effects it had before it threw. *)
From stdpp Require Import prelude strings list.
From Stdlib Require Import ZArith Lia.
From S2P Require Import Prelude.
From S2P Require Import MemBytes.
From S2P Require Import SparseMemory.

Local Open Scope Z_scope.

(** ** Stateful calls that may throw *)

Definition acc (W A : Type) : Type := W → W * outcome A.
Definition aret {W A} (a : A) : acc W A := λ s, (s, Ret a).
Definition athrow {W A} (e : string) : acc W A := λ s, (s, Throw e).
Definition abind {W A B} (m : acc W A) (k : A → acc W B) : acc W B := λ s,
  match m s with
  | (s', Ret a) => k a s'
  | (s', Throw e) => (s', Throw e)
  | (s', AssertFail) => (s', AssertFail)
  | (s', Undefined) => (s', Undefined)
  end.
Notation "'do*' x := m 'in' k" := (abind m (λ x, k))
  (at level 10, x name, m at level 100, k at level 200) : adl_scope.
Notation "m ';*' k" := (abind m (λ _ : unit, k))
  (at level 90, k at level 200, right associativity) : adl_scope.

(** ** The template parameters *)

Class Translate (W : Type) : Type := {
  mask_ea : Z → Z;
  (** [operator()(ea,seq)], which throws when the address has no translation *)
  translate : Z → Z → acc W Z;
  pre_read : Z → Z → acc W unit;
  post_read : Z → Z → acc W unit;
  pre_write : Z → Z → acc W unit;
  post_write : Z → Z → acc W unit;
  misaligned_read : Z → Z → acc W unit;
  misaligned_write : Z → Z → acc W unit
}.
Class CacheAccess (W : Type) : Type := {
  cache_read : width → Z → Z → Z → acc W Z;
  cache_read8 : Z → Z → acc W Z;
  cache_read0 : Z → Z → acc W Z;
  cache_write : width → Z → Z → Z → Z → acc W unit;
  cache_write8 : Z → Z → Z → acc W unit;
  cache_write0 : Z → Z → Z → acc W unit;
  misaligned_read_offset : width → Z → Z
}.
Class Logger (W : Type) : Type := {
  (** [operator()(pre,seq,ea,ra,num_bytes,value)] *)
  logger : bool → Z → Z → Z → Z → Z → acc W unit
}.

(** Sums of addresses, which are 64 bits wide. *)
Definition addr_add (a b : Z) : Z := wrap 64 (a + b).

(** ** [struct MemoryAccess] *)

Section MemoryAccess.
Context {W : Type} `{Translate W} `{CacheAccess W} `{Logger W}.
Context (Interleaved : bool) (SplitSize : Z).

(** *** 64 bits *)

Definition join64 (val1 val2 woffset : Z) : Z :=
  Z.lor (Z.land val1 (shl 64 0xffffffffffffffff (woffset * 8))) (shr 64 val2 ((BytesPerDW - woffset) * 8)).

Definition read64_helper_noninterleaved (ea ra ea2 ra2 : Z) : acc W Z :=
  do* val1 := cache_read W64 0 ea ra in
  logger false 0 ea ra 8 0 ;*
  let woffset := misaligned_read_offset W64 ea in
  misaligned_read ea2 ra2 ;*
  do* val2 := cache_read W64 1 ea2 ra2 in
  aret (join64 val1 val2 woffset).

Definition read64_noninterleaved (ea : Z) : acc W Z :=
  let ea := mask_ea ea in
  do* ra := translate ea 0 in
  logger true 0 ea ra 8 0 ;*
  match Z.land ea DWMask with
  | 0 =>
      pre_read ea ra ;*
      logger true 0 (addr_add ea 4) (addr_add ra 4) 8 0 ;*
      do* val := cache_read W64 0 ea ra in
      logger false 0 ea ra 8 0 ;*
      logger false 0 (addr_add ea 4) (addr_add ra 4) 8 0 ;*
      post_read ea ra ;*
      aret val
  | 1 | 2 | 3 =>
      logger true 0 (addr_add ea 4) (addr_add ra 4) 8 0 ;*
      let ea2 := mask_ea (addr_add (Z.lor ea DWMask) 1) in
      do* ra2 := translate ea2 1 in
      pre_read ea ra ;*
      logger true 1 ea2 ra2 8 0 ;*
      do* val := read64_helper_noninterleaved ea ra ea2 ra2 in
      logger false 0 (addr_add ea 4) (addr_add ra 4) 8 0 ;*
      logger false 1 ea2 ra2 8 0 ;*
      post_read ea ra ;*
      aret val
  | 4 =>
      let ea2 := mask_ea (addr_add (Z.lor ea DWMask) 1) in
      do* ra2 := translate ea2 1 in
      pre_read ea ra ;*
      logger true 1 ea2 ra2 8 0 ;*
      do* val := read64_helper_noninterleaved ea ra ea2 ra2 in
      logger false 1 ea2 ra2 8 0 ;*
      post_read ea ra ;*
      aret val
  | _ =>
      let ea2 := mask_ea (addr_add (Z.lor ea DWMask) 1) in
      do* ra2 := translate ea2 1 in
      pre_read ea ra ;*
      logger true 1 ea2 ra2 8 0 ;*
      logger true 1 (addr_add ea2 4) (addr_add ra2 4) 8 0 ;*
      do* val := read64_helper_noninterleaved ea ra ea2 ra2 in
      logger false 1 ea2 ra2 8 0 ;*
      logger false 1 (addr_add ea2 4) (addr_add ra2 4) 8 0 ;*
      post_read ea ra ;*
      aret val
  end.

Definition read64_helper_pre_interleaved (ea ra : Z) : acc W Z :=
  do* val1 := cache_read W64 0 ea ra in
  logger false 0 ea ra 8 0 ;*
  aret val1.

Definition read64_helper_interleaved (val1 ea ea2 ra2 : Z) : acc W Z :=
  let woffset := misaligned_read_offset W64 ea in
  misaligned_read ea2 ra2 ;*
  do* val2 := cache_read W64 1 ea2 ra2 in
  aret (join64 val1 val2 woffset).

Definition read64_interleaved (ea : Z) : acc W Z :=
  let ea := mask_ea ea in
  do* ra := translate ea 0 in
  logger true 0 ea ra 8 0 ;*
  match Z.land ea DWMask with
  | 0 =>
      logger true 0 (addr_add ea 4) (addr_add ra 4) 8 0 ;*
      do* val := cache_read W64 0 ea ra in
      logger false 0 ea ra 8 0 ;*
      logger false 0 (addr_add ea 4) (addr_add ra 4) 8 0 ;*
      post_read ea ra ;*
      aret val
  | 1 | 2 | 3 =>
      logger true 0 (addr_add ea 4) (addr_add ra 4) 8 0 ;*
      do* val1 := read64_helper_pre_interleaved ea ra in
      let ea2 := mask_ea (addr_add (Z.lor ea DWMask) 1) in
      do* ra2 := translate ea2 1 in
      logger true 1 ea2 ra2 8 0 ;*
      do* val := read64_helper_interleaved val1 ea ea2 ra2 in
      logger false 0 (addr_add ea 4) (addr_add ra 4) 8 0 ;*
      logger false 1 ea2 ra2 8 0 ;*
      post_read ea ra ;*
      aret val
  | 4 =>
      do* val1 := read64_helper_pre_interleaved ea ra in
      let ea2 := mask_ea (addr_add (Z.lor ea DWMask) 1) in
      do* ra2 := translate ea2 1 in
      logger true 1 ea2 ra2 8 0 ;*
      do* val := read64_helper_interleaved val1 ea ea2 ra2 in
      logger false 1 ea2 ra2 8 0 ;*
      post_read ea ra ;*
      aret val
  | _ =>
      do* val1 := read64_helper_pre_interleaved ea ra in
      let ea2 := mask_ea (addr_add (Z.lor ea DWMask) 1) in
      do* ra2 := translate ea2 1 in
      logger true 1 ea2 ra2 8 0 ;*
      logger true 1 (addr_add ea2 4) (addr_add ra2 4) 8 0 ;*
      do* val := read64_helper_interleaved val1 ea ea2 ra2 in
      logger false 1 ea2 ra2 8 0 ;*
      logger false 1 (addr_add ea2 4) (addr_add ra2 4) 8 0 ;*
      post_read ea ra ;*
      aret val
  end.

Definition read64 (ea : Z) : acc W Z :=
  if Interleaved then read64_interleaved ea else read64_noninterleaved ea.

(** *** 32 bits *)

Definition join32 (val1 val2 woffset : Z) : Z :=
  Z.lor (Z.land val1 (shl 32 0xffffffff (woffset * 8))) (shr 32 val2 ((BytesPerWord - woffset) * 8)).

Definition misaligned_read32_interleaved (ea ra val1 : Z) : acc W Z :=
  let ea2 := mask_ea (addr_add (Z.lor ea WordMask) 1) in
  do* ra2 := translate ea2 1 in
  let woffset := misaligned_read_offset W32 ea in
  misaligned_read ea2 ra2 ;*
  logger true 1 ea2 ra2 4 0 ;*
  do* val2 := cache_read W32 1 ea2 ra2 in
  logger false 1 ea2 ra2 4 0 ;*
  post_read ea ra ;*
  aret (join32 val1 val2 woffset).

Definition misaligned_in_dw_read32 (ea ra : Z) : acc W unit :=
  let ea2 := addr_add (Z.lor ea WordMask) 1 in
  let ra2 := addr_add (Z.lor ra WordMask) 1 in
  logger false 1 ea2 ra2 4 0 ;*
  post_read ea ra.

Definition read32_interleaved (ea : Z) : acc W Z :=
  let ea := mask_ea ea in
  do* ra := translate ea 0 in
  logger true 0 ea ra 4 0 ;*
  do* val1 := cache_read W32 0 ea ra in
  logger false 0 ea ra 4 0 ;*
  if SplitSize =? 8 then
    match Z.land ea DWMask with
    | 0 => post_read ea ra ;* aret val1
    | 1 | 2 | 3 => misaligned_in_dw_read32 ea ra ;* aret val1
    | 4 => post_read ea ra ;* aret val1
    | _ => misaligned_read32_interleaved ea ra val1
    end
  else
    if negb (Z.land ea WordMask =? 0) then misaligned_read32_interleaved ea ra val1
    else post_read ea ra ;* aret val1.

Definition misaligned_read32_noninterleaved (ea ra : Z) : acc W Z :=
  let ea2 := mask_ea (addr_add (Z.lor ea WordMask) 1) in
  do* ra2 := translate ea2 1 in
  pre_read ea ra ;*
  logger true 0 ea ra 4 0 ;*
  do* val1 := cache_read W32 0 ea ra in
  logger false 0 ea ra 4 0 ;*
  let woffset := misaligned_read_offset W32 ea in
  misaligned_read ea2 ra2 ;*
  logger true 1 ea2 ra2 4 0 ;*
  do* val2 := cache_read W32 1 ea2 ra2 in
  logger false 1 ea2 ra2 4 0 ;*
  post_read ea ra ;*
  aret (join32 val1 val2 woffset).

Definition read32_noninterleaved (ea : Z) : acc W Z :=
  let ea := mask_ea ea in
  do* ra := translate ea 0 in
  if SplitSize =? 8 then
    match Z.land ea DWMask with
    | 0 =>
        pre_read ea ra ;*
        logger true 0 ea ra 4 0 ;*
        do* val1 := cache_read W32 0 ea ra in
        logger false 0 ea ra 4 0 ;*
        post_read ea ra ;*
        aret val1
    | 1 | 2 | 3 =>
        pre_read ea ra ;*
        logger true 0 ea ra 4 0 ;*
        do* val1 := cache_read W32 0 ea ra in
        logger false 0 ea ra 4 0 ;*
        misaligned_in_dw_read32 ea ra ;*
        aret val1
    | 4 =>
        pre_read ea ra ;*
        logger true 0 ea ra 4 0 ;*
        do* val1 := cache_read W32 0 ea ra in
        logger false 0 ea ra 4 0 ;*
        post_read ea ra ;*
        aret val1
    | _ => misaligned_read32_noninterleaved ea ra
    end
  else
    if negb (Z.land ea WordMask =? 0) then misaligned_read32_noninterleaved ea ra
    else
      pre_read ea ra ;*
      logger true 0 ea ra 4 0 ;*
      do* val1 := cache_read W32 0 ea ra in
      logger false 0 ea ra 4 0 ;*
      post_read ea ra ;*
      aret val1.

Definition read32 (ea : Z) : acc W Z :=
  if Interleaved then read32_interleaved ea else read32_noninterleaved ea.

(** *** 16 bits: the operands are promoted to [int], the result is 16 bits. *)

Definition join16 (val1 val2 woffset : Z) : Z :=
  wrap 16 (Z.lor (Z.land val1 (shl 32 0xffff (woffset * 8))) (shr 32 val2 ((BytesPerHW - woffset) * 8))).

Definition misaligned_read16_interleaved (ea ra : Z) : acc W Z :=
  logger true 0 ea ra 2 0 ;*
  do* val1 := cache_read W16 0 ea ra in
  logger false 0 ea ra 2 0 ;*
  let ea2 := mask_ea (addr_add (Z.lor ea HWMask) 1) in
  do* ra2 := translate ea2 1 in
  let woffset := misaligned_read_offset W16 ea in
  misaligned_read ea2 ra2 ;*
  logger true 1 ea2 ra2 2 0 ;*
  do* val2 := cache_read W16 1 ea2 ra2 in
  logger false 1 ea2 ra2 2 0 ;*
  post_read ea ra ;*
  aret (join16 val1 val2 woffset).

Definition misaligned_in_dw_read16 (ea ra : Z) : acc W Z :=
  pre_read ea ra ;*
  logger true 0 ea ra 2 0 ;*
  do* val := cache_read W16 0 ea ra in
  logger false 0 ea ra 2 0 ;*
  let ea2 := addr_add (Z.lor ea HWMask) 1 in
  let ra2 := addr_add (Z.lor ra HWMask) 1 in
  logger false 1 ea2 ra2 2 0 ;*
  post_read ea ra ;*
  aret val.

Definition aligned_read16 (ea ra : Z) : acc W Z :=
  pre_read ea ra ;*
  logger true 0 ea ra 2 0 ;*
  do* val := cache_read W16 0 ea ra in
  logger false 0 ea ra 2 0 ;*
  post_read ea ra ;*
  aret val.

Definition read16_interleaved (ea : Z) : acc W Z :=
  let ea := mask_ea ea in
  do* ra := translate ea 0 in
  if SplitSize =? 8 then
    if Z.land ea DWMask =? 7 then misaligned_read16_interleaved ea ra
    else if Z.land ea WordMask =? 3 then misaligned_in_dw_read16 ea ra
    else aligned_read16 ea ra
  else
    if Z.land ea WordMask =? 3 then misaligned_read16_interleaved ea ra
    else aligned_read16 ea ra.

Definition misaligned_read16_noninterleaved (ea ra : Z) : acc W Z :=
  let ea2 := mask_ea (addr_add (Z.lor ea HWMask) 1) in
  do* ra2 := translate ea2 1 in
  let woffset := misaligned_read_offset W16 ea in
  pre_read ea ra ;*
  logger true 0 ea ra 2 0 ;*
  do* val1 := cache_read W16 0 ea ra in
  logger false 0 ea ra 2 0 ;*
  misaligned_read ea2 ra2 ;*
  logger true 1 ea2 ra2 2 0 ;*
  do* val2 := cache_read W16 1 ea2 ra2 in
  logger false 1 ea2 ra2 2 0 ;*
  post_read ea ra ;*
  aret (join16 val1 val2 woffset).

Definition read16_noninterleaved (ea : Z) : acc W Z :=
  let ea := mask_ea ea in
  do* ra := translate ea 0 in
  if SplitSize =? 8 then
    if Z.land ea DWMask =? 7 then misaligned_read16_noninterleaved ea ra
    else if Z.land ea WordMask =? 3 then misaligned_in_dw_read16 ea ra
    else aligned_read16 ea ra
  else
    if Z.land ea WordMask =? 3 then misaligned_read16_noninterleaved ea ra
    else aligned_read16 ea ra.

Definition read16 (ea : Z) : acc W Z :=
  if Interleaved then read16_interleaved ea else read16_noninterleaved ea.

(** *** 8 and 0 bits *)

Definition read8 (ea : Z) : acc W Z :=
  let ea := mask_ea ea in
  do* ra := translate ea 0 in
  pre_read ea ra ;*
  logger true 0 ea ra 1 0 ;*
  do* val := cache_read8 ea ra in
  logger false 0 ea ra 1 0 ;*
  post_read ea ra ;*
  aret val.

Definition read0 (ea : Z) : acc W Z :=
  let ea := mask_ea ea in
  do* ra := translate ea 0 in
  pre_read ea ra ;*
  logger true 0 ea ra 0 0 ;*
  do* _v := cache_read0 ea ra in
  logger false 0 ea ra 0 0 ;*
  post_read ea ra ;*
  aret 0.

(** *** Writes: the caller has done the first translation. *)

Definition write64_helper_noninterleaved (woffset ea ra ea2 ra2 orig_value : Z) : acc W unit :=
  cache_write W64 ea ra orig_value (BytesPerDW - woffset) ;*
  logger false 0 ea ra 8 orig_value ;*
  misaligned_write ea2 ra2 ;*
  let s2 := (BytesPerDW - woffset) * 8 in
  cache_write W64 ea2 ra2 (shl 64 orig_value s2) woffset.

Definition write64_noninterleaved (ea ra orig_value : Z) : acc W unit :=
  let woffset := Z.land ea DWMask in
  logger true 0 ea ra 8 orig_value ;*
  match woffset with
  | 0 =>
      pre_write ea ra ;*
      logger true 0 (addr_add ea 4) (addr_add ra 4) 8 orig_value ;*
      cache_write W64 ea ra orig_value BytesPerDW ;*
      logger false 0 ea ra 8 orig_value ;*
      logger false 0 (addr_add ea 4) (addr_add ra 4) 8 orig_value ;*
      post_write ea ra
  | 1 | 2 | 3 =>
      logger true 0 (addr_add ea 4) (addr_add ra 4) 8 orig_value ;*
      let ea2 := mask_ea (addr_add (Z.lor ea DWMask) 1) in
      do* ra2 := translate ea2 1 in
      pre_write ea ra ;*
      logger true 1 ea2 ra2 8 orig_value ;*
      write64_helper_noninterleaved woffset ea ra ea2 ra2 orig_value ;*
      logger false 0 (addr_add ea 4) (addr_add ra 4) 8 orig_value ;*
      logger false 1 ea2 ra2 8 orig_value ;*
      post_write ea ra
  | 4 =>
      let ea2 := mask_ea (addr_add (Z.lor ea DWMask) 1) in
      do* ra2 := translate ea2 1 in
      pre_write ea ra ;*
      logger true 1 ea2 ra2 8 orig_value ;*
      write64_helper_noninterleaved woffset ea ra ea2 ra2 orig_value ;*
      logger false 1 ea2 ra2 8 orig_value ;*
      post_write ea ra
  | 5 | 6 | 7 =>
      let ea2 := mask_ea (addr_add (Z.lor ea DWMask) 1) in
      do* ra2 := translate ea2 1 in
      pre_write ea ra ;*
      logger true 1 ea2 ra2 8 orig_value ;*
      logger true 1 (addr_add ea2 4) (addr_add ra2 4) 8 orig_value ;*
      write64_helper_noninterleaved woffset ea ra ea2 ra2 orig_value ;*
      logger false 1 ea2 ra2 8 orig_value ;*
      logger false 1 (addr_add ea2 4) (addr_add ra2 4) 8 orig_value ;*
      post_write ea ra
  | _ => aret tt
  end.

Definition write64_helper_interleaved1 (woffset ea ra orig_value : Z) : acc W unit :=
  cache_write W64 ea ra orig_value (BytesPerDW - woffset) ;*
  logger false 0 ea ra 8 orig_value.

Definition write64_helper_interleaved2 (woffset ea2 ra2 orig_value : Z) : acc W unit :=
  misaligned_write ea2 ra2 ;*
  let s2 := (BytesPerDW - woffset) * 8 in
  cache_write W64 ea2 ra2 (shl 64 orig_value s2) woffset.

Definition write64_interleaved (ea ra orig_value : Z) : acc W unit :=
  let woffset := Z.land ea DWMask in
  logger true 0 ea ra 8 orig_value ;*
  match woffset with
  | 0 =>
      logger true 0 (addr_add ea 4) (addr_add ra 4) 8 orig_value ;*
      cache_write W64 ea ra orig_value BytesPerDW ;*
      logger false 0 ea ra 8 orig_value ;*
      logger false 0 (addr_add ea 4) (addr_add ra 4) 8 orig_value ;*
      post_write ea ra
  | 1 | 2 | 3 =>
      logger true 0 (addr_add ea 4) (addr_add ra 4) 8 orig_value ;*
      write64_helper_interleaved1 woffset ea ra orig_value ;*
      let ea2 := mask_ea (addr_add (Z.lor ea DWMask) 1) in
      do* ra2 := translate ea2 1 in
      logger true 1 ea2 ra2 8 orig_value ;*
      write64_helper_interleaved2 woffset ea2 ra2 orig_value ;*
      logger false 0 (addr_add ea 4) (addr_add ra 4) 8 orig_value ;*
      logger false 1 ea2 ra2 8 orig_value ;*
      post_write ea ra
  | 4 =>
      write64_helper_interleaved1 woffset ea ra orig_value ;*
      let ea2 := mask_ea (addr_add (Z.lor ea DWMask) 1) in
      do* ra2 := translate ea2 1 in
      pre_write ea ra ;*
      logger true 1 ea2 ra2 8 orig_value ;*
      write64_helper_interleaved2 woffset ea2 ra2 orig_value ;*
      logger false 1 ea2 ra2 8 orig_value ;*
      post_write ea ra
  | 5 | 6 | 7 =>
      write64_helper_interleaved1 woffset ea ra orig_value ;*
      let ea2 := mask_ea (addr_add (Z.lor ea DWMask) 1) in
      do* ra2 := translate ea2 1 in
      pre_write ea ra ;*
      logger true 1 ea2 ra2 8 orig_value ;*
      logger true 1 (addr_add ea2 4) (addr_add ra2 4) 8 orig_value ;*
      write64_helper_interleaved2 woffset ea2 ra2 orig_value ;*
      logger false 1 ea2 ra2 8 orig_value ;*
      logger false 1 (addr_add ea2 4) (addr_add ra2 4) 8 orig_value ;*
      post_write ea ra
  | _ => aret tt
  end.

Definition write64 (ea ra orig_value : Z) : acc W unit :=
  if Interleaved then write64_interleaved ea ra orig_value else write64_noninterleaved ea ra orig_value.

Definition misaligned_write32 (ea ra orig_value : Z) : acc W unit :=
  let woffset := Z.land ea WordMask in
  (if Interleaved then
     logger true 0 ea ra 4 orig_value ;*
     cache_write W32 ea ra orig_value (BytesPerWord - woffset) ;*
     logger false 0 ea ra 4 orig_value
   else aret tt) ;*
  let ea2 := mask_ea (addr_add (Z.lor ea WordMask) 1) in
  do* ra2 := translate ea2 1 in
  (if negb Interleaved then
     pre_write ea ra ;*
     logger true 0 ea ra 4 orig_value ;*
     cache_write W32 ea ra orig_value (BytesPerWord - woffset) ;*
     logger false 0 ea ra 4 orig_value
   else aret tt) ;*
  misaligned_write ea2 ra2 ;*
  logger true 1 ea2 ra2 4 orig_value ;*
  let s2 := (BytesPerWord - woffset) * 8 in
  cache_write W32 ea2 ra2 (shl 32 orig_value s2) woffset ;*
  logger false 1 ea2 ra2 4 orig_value.

Definition aligned_write32 (ea ra orig_value : Z) : acc W unit :=
  pre_write ea ra ;*
  logger true 0 ea ra 4 orig_value ;*
  cache_write W32 ea ra orig_value BytesPerWord ;*
  logger false 0 ea ra 4 orig_value.

Definition misaligned_in_dw_write32 (ea ra orig_value : Z) : acc W unit :=
  aligned_write32 ea ra orig_value ;*
  let ea2 := addr_add (Z.lor ea WordMask) 1 in
  let ra2 := addr_add (Z.lor ra WordMask) 1 in
  logger false 1 ea2 ra2 4 orig_value.

Definition write32 (ea ra orig_value : Z) : acc W unit :=
  (if SplitSize =? 8 then
     match Z.land ea DWMask with
     | 0 => aligned_write32 ea ra orig_value
     | 1 | 2 | 3 => misaligned_in_dw_write32 ea ra orig_value
     | 4 => aligned_write32 ea ra orig_value
     | _ => misaligned_write32 ea ra orig_value
     end
   else
     if negb (Z.land ea WordMask =? 0) then misaligned_write32 ea ra orig_value
     else aligned_write32 ea ra orig_value) ;*
  post_write ea ra.

Definition misaligned_write16 (ea ra orig_value : Z) : acc W unit :=
  (if Interleaved then
     logger true 0 ea ra 2 orig_value ;*
     cache_write W16 ea ra orig_value 1 ;*
     logger false 0 ea ra 2 orig_value
   else aret tt) ;*
  let ea2 := mask_ea (addr_add (Z.lor ea HWMask) 1) in
  do* ra2 := translate ea2 1 in
  (if negb Interleaved then
     pre_write ea ra ;*
     logger true 0 ea ra 2 orig_value ;*
     cache_write W16 ea ra orig_value 1 ;*
     logger false 0 ea ra 2 orig_value
   else aret tt) ;*
  misaligned_write ea2 ra2 ;*
  logger true 1 ea2 ra2 2 orig_value ;*
  cache_write W16 ea2 ra2 (wrap 16 (Z.shiftl orig_value 8)) 1 ;*
  logger false 1 ea2 ra2 2 orig_value.

Definition aligned_write16 (ea ra orig_value : Z) : acc W unit :=
  pre_write ea ra ;*
  logger true 0 ea ra 2 orig_value ;*
  cache_write W16 ea ra orig_value 2 ;*
  logger false 0 ea ra 2 orig_value.

Definition misaligned_in_dw_write16 (ea ra orig_value : Z) : acc W unit :=
  aligned_write16 ea ra (wrap 16 orig_value) ;*
  let ea2 := addr_add (Z.lor ea WordMask) 1 in
  let ra2 := addr_add (Z.lor ra WordMask) 1 in
  logger false 1 ea2 ra2 2 orig_value.

Definition write16 (ea ra orig_value : Z) : acc W unit :=
  (if SplitSize =? 8 then
     if Z.land ea DWMask =? 7 then misaligned_write16 ea ra orig_value
     else if Z.land ea WordMask =? 3 then misaligned_in_dw_write16 ea ra orig_value
     else aligned_write16 ea ra orig_value
   else
     if Z.land ea WordMask =? 3 then misaligned_write16 ea ra orig_value
     else aligned_write16 ea ra orig_value) ;*
  post_write ea ra.

Definition write8 (ea ra orig_value : Z) : acc W unit :=
  pre_write ea ra ;*
  logger true 0 ea ra 1 orig_value ;*
  cache_write8 ea ra orig_value ;*
  logger false 0 ea ra 1 orig_value ;*
  post_write ea ra.

Definition write0 (ea ra orig_value : Z) : acc W unit :=
  pre_write ea ra ;*
  logger true 0 ea ra 0 0 ;*
  cache_write0 ea ra orig_value ;*
  logger false 0 ea ra 0 0 ;*
  post_write ea ra.

End MemoryAccess.

(** ** The classes of local memories *)

(** [MemoryTranslate<AddrUnit,Offset,MemorySize>] *)
Definition scale_ea (AddrUnit Offset ea : Z) : Z :=
  Z.land (wrap 64 (shl 64 ea AddrUnit + Offset)) (shr 64 0xffffffff AddrUnit).
Definition memory_translate (MemorySize : Z) (W : Type) : Translate W := {|
  mask_ea ea := ea mod MemorySize;
  translate a seq := aret a;
  pre_read _ _ := aret tt;
  post_read _ _ := aret tt;
  pre_write _ _ := aret tt;
  post_write _ _ := aret tt;
  misaligned_read _ _ := aret tt;
  misaligned_write _ _ := aret tt
|}.

(** A core of which only a memory and the events that its logger was told count. *)
Record event : Type := Event
  { ev_pre : bool; ev_seq : Z; ev_ea : Z; ev_ra : Z; ev_num_bytes : Z; ev_value : Z }.
Definition on_mem {M A} (f : M → outcome (A * M)) : acc (M * list event) A := λ s,
  match f (fst s) with
  | Ret (a, m) => ((m, snd s), Ret a)
  | Throw e => (s, Throw e)
  | AssertFail => (s, AssertFail)
  | Undefined => (s, Undefined)
  end.
Definition change_mem {M} (f : M → outcome M) : acc (M * list event) unit :=
  on_mem (λ m, let! m := f m in Ret (tt, m)).

(** [SimpleCache<MemType>] *)
Definition simple_cache {M} `{ByteMem M} : CacheAccess (M * list event) := {|
  cache_read w seq ea ra := on_mem (λ m, mem_read w m ra);
  cache_read8 ea ra := on_mem (λ m, mem_read8 m ra);
  cache_read0 ea ra := aret 0;
  cache_write w ea ra v nb := change_mem (λ m, mem_write w m ra v nb);
  cache_write8 ea ra v := change_mem (λ m, mem_write8 m ra v);
  cache_write0 ea ra v := aret tt;
  misaligned_read_offset w ea :=
    Z.land ea (match w with W64 => DWMask | W32 => WordMask | W16 => HWMask end)
|}.
Definition event_log {M} : Logger (M * list event) := {|
  logger pre seq ea ra num_bytes value := λ s,
    ((fst s, snd s ++ [Event pre seq ea ra num_bytes value]), Ret tt)
|}.
