(* ===== verification/MemoryAccessCorrect.v ===== *)
(** * What memory accesses do

    An access of [MemoryAccess], in either order of translations and accesses and
    with any split size, is a sequence of accesses to single bytes: byte [k] is
    at effective address [ea + k], which is masked and translated for itself.
    The reference is [locs], the locations of these bytes; [AccessLaws] says what
    the translation, the cache and the logger promise. *)
From stdpp Require Import prelude strings list.
From Stdlib Require Import ZArith Lia.
From S2P Require Import Prelude.
From S2P Require Import MemBytes.
From S2P Require Import SparseMemory.
From S2P Require Import MemoryAccess.

Local Open Scope Z_scope.

(** ** Promises of the template parameters *)

(** [wrep s F]: in the state [s] the byte at every location is [F] of it;
    [tr ea] is the real address of a masked effective address, if it has one;
    [loc ra] is the location of a real address, [entire w ra] says that a read of
    the cache at [ra] stays inside of its buffer. *)
Class AccessLaws (W : Type) `{Translate W} `{CacheAccess W} `{Logger W} : Type := {
  wrep : W → (Z → Z) → Prop;
  tr : Z → option Z;
  loc : Z → Z;
  entire : width → Z → bool;
  wrep_ext s F F' : (∀ a, F a = F' a) → wrep s F → wrep s F';
  wrep_byte s F a r : wrep s F → tr a = Some r → uint 8 (F (loc r));
  mask_uint a : 0 ≤ a → uint 64 (mask_ea a);
  mask_idem a : 0 ≤ a → mask_ea (mask_ea a) = mask_ea a;
  mask_add a k : 0 ≤ a → 0 ≤ k → a mod 8 + k < 8 → mask_ea (a + k) = mask_ea a + k;
  mask_mod8 a : 0 ≤ a → mask_ea a mod 8 = a mod 8;
  tr_mod8 a r : tr a = Some r → r mod 8 = a mod 8;
  tr_add a r k : tr a = Some r → 0 ≤ k → a mod 8 + k < 8 → tr (a + k) = Some (r + k);
  loc_add a r k : tr a = Some r → 0 ≤ k → a mod 8 + k < 8 → loc (r + k) = loc r + k;
  translate_some s F a seq r : wrep s F → tr a = Some r →
    ∃ s', translate a seq s = (s', Ret r) ∧ wrep s' F;
  translate_none s F a seq : wrep s F → 0 ≤ a → tr (mask_ea a) = None →
    ∃ s' e, translate (mask_ea a) seq s = (s', Throw e) ∧ wrep s' F;
  hook_law (h : Z → Z → acc W unit) s F a r : wrep s F →
    h ∈ [pre_read; post_read; pre_write; post_write; misaligned_read; misaligned_write] →
    ∃ s', h a r s = (s', Ret tt) ∧ wrep s' F;
  logger_law s F pre seq a r nb v : wrep s F →
    ∃ s', logger pre seq a r nb v s = (s', Ret tt) ∧ wrep s' F;
  offset_law w a : 0 ≤ a → misaligned_read_offset w a = a mod Z.of_nat (nbytes w);
  entire_dw w a r : tr a = Some r → a mod 8 + Z.of_nat (nbytes w) ≤ 8 → entire w r = true;
  cache_read_law w seq s F a r : wrep s F → tr a = Some r → entire w r = true →
    ∃ s' v, cache_read w seq a r s = (s', Ret v) ∧ wrep s' F ∧ uint (8 * Z.of_nat (nbytes w)) v ∧
    ∀ k, 0 ≤ k < Z.of_nat (nbytes w) → a mod 8 + k < 8 → top_byte (nbytes w) v k = F (loc r + k);
  cache_read8_law s F a r : wrep s F → tr a = Some r →
    ∃ s', cache_read8 a r s = (s', Ret (F (loc r))) ∧ wrep s' F;
  cache_read0_law s F a r : wrep s F → tr a = Some r → ∃ s' v, cache_read0 a r s = (s', Ret v) ∧ wrep s' F;
  cache_write_law w s F a r v nb : wrep s F → tr a = Some r → 0 ≤ nb ≤ Z.of_nat (nbytes w) → a mod 8 + nb ≤ 8 →
    ∃ s', cache_write w a r v nb s = (s', Ret tt) ∧ wrep s' (write_bytes F (loc r) (nbytes w) v nb);
  cache_write8_law s F a r v : wrep s F → tr a = Some r → uint 8 v →
    ∃ s', cache_write8 a r v s = (s', Ret tt) ∧ wrep s' (write_bytes F (loc r) 1 v 1);
  cache_write0_law s F a r v : wrep s F → tr a = Some r → ∃ s', cache_write0 a r v s = (s', Ret tt) ∧ wrep s' F
}.

Definition nb (w : width) : Z := Z.of_nat (nbytes w).
Definition split_mask (w : width) : Z := match w with W64 => DWMask | W32 => WordMask | W16 => HWMask end.
Definition join (w : width) : Z → Z → Z → Z := match w with W64 => join64 | W32 => join32 | W16 => join16 end.

Ltac nb_consts :=
  change (nb W64) with 8 in *; change (nb W32) with 4 in *; change (nb W16) with 2 in *;
  unfold BytesPerDW, BytesPerWord, BytesPerHW in *;
  change (8 * 8) with 64 in *; change (8 * 4) with 32 in *; change (8 * 2) with 16 in *.

Lemma nb_cases w : nb w = 8 ∨ nb w = 4 ∨ nb w = 2.
Proof. destruct w; vm_compute; auto. Qed.
Lemma split_mask_land w a : Z.land a (split_mask w) = a mod nb w.
Proof. destruct w; [apply (Z.land_ones a 3)|apply (Z.land_ones a 2)|apply (Z.land_ones a 1)]; lia. Qed.
Lemma lor_ones a j : 0 ≤ j → Z.lor a (Z.ones j) = a - a mod 2 ^ j + (2 ^ j - 1).
Proof.
  intros Hj. assert (Z.lor a (Z.ones j) = Z.lor (a / 2 ^ j * 2 ^ j) (Z.ones j)) as ->.
  { apply Z.bits_inj'. intros i Hi. rewrite !Z.lor_spec, testbit_ones, testbit_mul, testbit_div by done.
    destruct (Z.ltb_spec i j); [by rewrite (proj2 (Z.leb_le 0 i)), !orb_true_r by done|].
    rewrite (proj2 (Z.leb_le 0 i)), (proj2 (Z.leb_le 0 (i - j))), Z.sub_add by lia. cbn [andb]. by rewrite orb_false_r. }
  rewrite (lor_add_mod _ _ j) by (try apply Z_mod_mult; rewrite ?Z.ones_equiv; unfold uint; lia).
  rewrite Z.ones_equiv, Z.mod_eq by (apply Z.pow_nonzero; lia). lia.
Qed.
Lemma split_mask_lor w a : Z.lor a (split_mask w) = a - a mod nb w + (nb w - 1).
Proof. destruct w; [apply (lor_ones a 3)|apply (lor_ones a 2)|apply (lor_ones a 1)]; lia. Qed.

(** Bytes of the values that a split access computes. *)
Lemma join_bits B N v1 v2 sh x : 0 < sh < N → N ≤ B → uint N v1 → uint N v2 → 0 ≤ x →
  Z.testbit (Z.lor (Z.land v1 (shl B (Z.ones N) sh)) (shr B v2 (N - sh))) x =
  if x <? sh then Z.testbit v2 (x + (N - sh)) else Z.testbit v1 x.
Proof.
  intros Hs HN H1 H2 Hx. unfold shl, shr. rewrite !Z.mod_small by lia.
  rewrite Z.lor_spec, Z.land_spec, testbit_wrap, testbit_shiftl, testbit_shiftr, testbit_ones by lia.
  rewrite (proj2 (Z.leb_le 0 x)) by done. cbn [andb]. destruct (Z.ltb_spec x sh).
  - rewrite (proj2 (Z.leb_gt 0 (x - sh))) by lia. cbn [andb]. by rewrite !andb_false_r.
  - rewrite (testbit_high N v2), orb_false_r by (done || lia).
    destruct (Z.ltb_spec x N); [|rewrite (testbit_high N v1) by (done || lia); done].
    rewrite (proj2 (Z.leb_le 0 (x - sh))), !(proj2 (Z.ltb_lt _ _)) by lia. cbn [andb]. by rewrite andb_true_r.
Qed.
Lemma join_testbit w v1 v2 wo x : uint (8 * nb w) v1 → uint (8 * nb w) v2 → 0 < wo < nb w → 0 ≤ x < 8 * nb w →
  Z.testbit (join w v1 v2 wo) x =
  if x <? wo * 8 then Z.testbit v2 (x + (nb w - wo) * 8) else Z.testbit v1 x.
Proof.
  intros H1 H2 Hwo Hx. replace ((nb w - wo) * 8) with (8 * nb w - wo * 8) by lia.
  rewrite <- (join_bits (match w with W64 => 64 | _ => 32 end) (8 * nb w) v1 v2 (wo * 8) x)
    by (done || (destruct w; nb_consts; lia)). destruct w; nb_consts.
  - unfold join, join64, BytesPerDW. do 3 f_equal. lia.
  - unfold join, join32, BytesPerWord. do 3 f_equal. lia.
  - unfold join, join16, BytesPerHW. rewrite testbit_wrap, (proj2 (Z.ltb_lt x 16)) by lia.
    cbn [andb]. do 3 f_equal. lia.
Qed.
Lemma join_uint w v1 v2 wo : uint (8 * nb w) v1 → uint (8 * nb w) v2 → 0 < wo < nb w →
  uint (8 * nb w) (join w v1 v2 wo).
Proof.
  assert (∀ N, 0 < wo * 8 < N → uint N v1 → uint N v2 →
    uint N (Z.lor (Z.land v1 (shl N (Z.ones N) (wo * 8))) (shr N v2 (N - wo * 8)))) as Hj.
  { intros N HN H1 H2. apply uint_of_bits; [lia|]. intros i Hi.
    rewrite join_bits, (proj2 (Z.ltb_ge _ _)) by (done || lia). by apply (testbit_high N); [lia|..]. }
  intros H1 H2 Hwo. destruct w; nb_consts; unfold join, join64, join32, join16, BytesPerDW, BytesPerWord;
    [rewrite (Z.mul_sub_distr_r 8 wo 8); by apply (Hj 64); [lia|..]
    |rewrite (Z.mul_sub_distr_r 4 wo 8); by apply (Hj 32); [lia|..]|by apply uint_wrap].
Qed.
Lemma join_byte w v1 v2 wo k : uint (8 * nb w) v1 → uint (8 * nb w) v2 → 0 < wo < nb w → 0 ≤ k < nb w →
  top_byte (nbytes w) (join w v1 v2 wo) k =
  if k <? nb w - wo then top_byte (nbytes w) v1 k else top_byte (nbytes w) v2 (k - (nb w - wo)).
Proof.
  intros H1 H2 Hwo Hk. unfold top_byte. change (Z.of_nat (nbytes w)) with (nb w).
  apply Z.bits_inj'. intros i Hi. destruct (Z.ltb_spec i 8).
  - rewrite testbit_wrap, testbit_div, join_testbit by (done || lia).
    destruct (Z.ltb_spec k (nb w - wo)); rewrite testbit_wrap, testbit_div by lia.
    + by rewrite (proj2 (Z.ltb_ge _ (wo * 8))) by lia.
    + rewrite (proj2 (Z.ltb_lt _ (wo * 8))) by lia. do 2 f_equal. f_equal. lia.
  - rewrite testbit_wrap by lia. destruct (k <? nb w - wo); rewrite testbit_wrap by lia;
      by rewrite (proj2 (Z.ltb_ge i 8)).
Qed.

Lemma shl_top_byte n v wo k : 0 < wo < n → 0 ≤ k < wo →
  top_byte (Z.to_nat n) (shl (8 * n) v ((n - wo) * 8)) k = top_byte (Z.to_nat n) v (k + (n - wo)).
Proof.
  intros Hwo Hk. unfold top_byte, shl. rewrite Z2Nat.id, Z.mod_small by lia.
  apply Z.bits_inj'. intros i Hi. rewrite !testbit_wrap, !testbit_div, testbit_wrap, testbit_shiftl by lia.
  rewrite (proj2 (Z.leb_le 0 i)), (proj2 (Z.leb_le 0 (i + _))) by lia. cbn [andb].
  destruct (Z.ltb_spec i 8); cbn [andb]; [|done]. rewrite (proj2 (Z.ltb_lt _ _)) by lia. cbn [andb].
  f_equal. lia.
Qed.

(** ** The reference *)

Section Reference.
Context {W : Type} {HT : Translate W} {HC : CacheAccess W} {HG : Logger W} {HA : AccessLaws W}.

(** The effective address of byte [k] of an access at [ea], and where the bytes
    of an access are; without a translation of all of them there is no answer. *)
Definition byte_ea (ea k : Z) : Z := mask_ea (addr_add (mask_ea ea) k).
Definition locs (n : nat) (ea : Z) : option (list Z) :=
  mapM (λ k, loc <$> tr (byte_ea ea (Z.of_nat k))) (seq 0 n).
(** The number in the bytes at the given locations; the bytes of a number stored
    there, one after another. *)
Definition fetch (F : Z → Z) (ls : list Z) : Z := beval 8 (F <$> ls).
Definition put (F : Z → Z) (l b : Z) : Z → Z := λ a, if a =? l then b else F a.
Fixpoint store_from (n : nat) (v k : Z) (F : Z → Z) (ls : list Z) : Z → Z :=
  match ls with
  | [] => F
  | l :: ls => store_from n v (k + 1) (put F l (top_byte n v k)) ls
  end.
Definition store (F : Z → Z) (ls : list Z) (v : Z) : Z → Z := store_from (length ls) v 0 F ls.

(** *** Where the bytes are *)

Definition run_of (l : Z) (n : nat) : list Z := (λ k, l + Z.of_nat k) <$> seq 0 n.

Lemma byte_ea_dw ea k : 0 ≤ ea → 0 ≤ k → mask_ea ea mod 8 + k < 8 → byte_ea ea k = mask_ea ea + k.
Proof.
  intros He Hk H8. destruct (mask_uint ea He) as [H0 H1]. unfold byte_ea, addr_add.
  assert (mask_ea ea + k < 2 ^ 64) by zlia.
  unfold wrap. rewrite Z.mod_small, mask_add, mask_idem by lia. done.
Qed.
Lemma locs_dw n ea r : 0 ≤ ea → mask_ea ea mod 8 + Z.of_nat n ≤ 8 → tr (mask_ea ea) = Some r →
  locs n ea = Some (run_of (loc r) n).
Proof.
  intros He H8 Hr. unfold locs, run_of. apply mapM_Some_2. apply Forall2_fmap_r, Forall_Forall2_diag, Forall_seq.
  intros k Hk. rewrite byte_ea_dw, (tr_add _ r) by (done || lia). cbn. by rewrite (loc_add _ _ _ Hr) by lia.
Qed.
Lemma locs_none n ea : 0 ≤ ea → (0 < n)%nat → tr (mask_ea ea) = None → locs n ea = None.
Proof.
  intros He Hn Hr. destruct n as [|n]; [lia|]. unfold locs. cbn [seq mapM].
  pose proof (Z.mod_pos_bound (mask_ea ea) 8 ltac:(lia)).
  cbn. rewrite byte_ea_dw, Z.add_0_r, Hr by lia. done.
Qed.

Lemma seq_offset i n : seq i n = Nat.add i <$> seq 0 n.
Proof. by rewrite fmap_add_seq, Nat.add_0_r. Qed.
Lemma mapM_app {A B} (f : A → option B) l1 l2 :
  mapM f (l1 ++ l2) = k1 ← mapM f l1; k2 ← mapM f l2; Some (k1 ++ k2).
Proof.
  induction l1 as [|x l1 IH]; cbn; [by destruct (mapM f l2)|].
  destruct (f x); cbn; [|done]. rewrite IH. destruct (mapM f l1), (mapM f l2); done.
Qed.

(** An access that is split, at the next multiple of its size. *)
Definition second (w : width) (ea : Z) : Z := mask_ea (addr_add (Z.lor ea (split_mask w)) 1).

Lemma mod_nbytes w a : 0 ≤ a mod nb w < nb w ∧ (a mod 8) mod nb w = a mod nb w.
Proof. destruct (nb_cases w) as [->|[->| ->]]; zlia. Qed.

Lemma byte_ea_second w ea k : 0 ≤ ea → let ea0 := mask_ea ea in let m := nb w - ea0 mod nb w in
  m ≤ k < m + nb w → second w ea0 mod 8 + (k - m) < 8 ∧ byte_ea ea k = second w ea0 + (k - m).
Proof.
  intros He ea0 m Hk. destruct (mask_uint ea He) as [H0 H1]. fold ea0 in H0, H1.
  destruct (mod_nbytes w ea0) as [Hm _]. unfold second, byte_ea, addr_add.
  rewrite split_mask_lor. replace (ea0 - ea0 mod nb w + (nb w - 1) + 1) with (ea0 + m) by (subst m; lia).
  assert ((ea0 + m) mod nb w = 0) as Hm0 by (subst m; destruct (nb_cases w) as [E|[E|E]]; rewrite E in *; zlia).
  set (a := wrap 64 (ea0 + m)).
  assert (0 ≤ a < 2 ^ 64) as Ha by (apply uint_wrap; lia).
  assert (a mod nb w = 0) as Ham.
  { subst a. unfold wrap. destruct (nb_cases w) as [E|[E|E]]; rewrite E in *; zlia. }
  assert (a mod 8 + (k - m) < 8) as Hd by (destruct (nb_cases w) as [E|[E|E]]; rewrite E in *; zlia).
  assert (wrap 64 (ea0 + k) = a + (k - m)) as E.
  { replace (ea0 + k) with (ea0 + m + (k - m)) by lia. unfold wrap. rewrite <- Zplus_mod_idemp_l.
    apply Z.mod_small. fold (wrap 64 (ea0 + m)). fold a. zlia. }
  rewrite mask_mod8 by lia. split; [done|]. fold ea0. rewrite E, mask_add by lia. done.
Qed.

Lemma locs_split w ea r : 0 ≤ ea → let ea0 := mask_ea ea in 0 < ea0 mod nb w → tr ea0 = Some r →
  locs (nbytes w) ea = r2 ← tr (second w ea0);
    Some (run_of (loc r) (Z.to_nat (nb w - ea0 mod nb w)) ++ run_of (loc r2) (Z.to_nat (ea0 mod nb w))).
Proof.
  intros He ea0 Hwo Hr. destruct (mod_nbytes w ea0) as [Hm Hm8]. set (m := nb w - ea0 mod nb w).
  assert (nbytes w = Z.to_nat m + Z.to_nat (ea0 mod nb w))%nat as En by (unfold m, nb in *; lia).
  assert (0 < m ≤ nb w) as Hmn by lia.
  pose proof (λ k, byte_ea_second w ea k He) as Hs. cbn zeta in Hs. fold ea0 in Hs. fold m in Hs.
  unfold locs. rewrite En, seq_app, mapM_app.
  assert (mapM (λ k, loc <$> tr (byte_ea ea (Z.of_nat k))) (seq 0 (Z.to_nat m)) = Some (run_of (loc r) (Z.to_nat m))) as ->.
  { apply locs_dw; [done| |done]. fold ea0. subst m.
    destruct (nb_cases w) as [E|[E|E]]; rewrite E in *; zlia. }
  cbn [mbind option_bind]. rewrite Nat.add_0_l.
  destruct (tr (second w ea0)) as [r2|] eqn:E2; cbn [mbind option_bind].
  - assert (mapM (λ k, loc <$> tr (byte_ea ea (Z.of_nat k))) (seq (Z.to_nat m) (Z.to_nat (ea0 mod nb w))) =
      Some (run_of (loc r2) (Z.to_nat (ea0 mod nb w)))) as ->; [|done].
    apply mapM_Some_2. unfold run_of.
    rewrite (seq_offset (Z.to_nat m)).
    apply Forall2_fmap, Forall_Forall2_diag, Forall_seq. intros k Hk.
    destruct (Hs (Z.of_nat (Z.to_nat m + k))) as [H8 ->]; [lia|].
    replace (Z.of_nat (Z.to_nat m + k) - m) with (Z.of_nat k) in * by lia.
    rewrite (tr_add _ r2) by (done || lia). cbn. by rewrite (loc_add _ _ _ E2) by lia.
  - destruct (Z.to_nat (ea0 mod nb w)) as [|j] eqn:Ej; [lia|]. cbn [seq]. cbn [mapM].
    destruct (Hs m) as [H8 Ee]; [lia|]. cbn. by rewrite Z2Nat.id, Ee, Z.sub_diag, Z.add_0_r, E2 by lia.
Qed.

(** *** Values of split accesses *)

(** What the cache returns for a read at [a]: the bytes up to the end of the
    double-word are those of the memory. *)
Definition partial (w : width) (F : Z → Z) (a r v : Z) : Prop :=
  uint (8 * nb w) v ∧ ∀ k, 0 ≤ k < nb w → a mod 8 + k < 8 → top_byte (nbytes w) v k = F (loc r + k).

Lemma fetch_run F l n : fetch F (run_of l n) = beval 8 ((λ k, F (l + Z.of_nat k)) <$> seq 0 n).
Proof. unfold fetch, run_of. by rewrite <- list_fmap_compose. Qed.
Lemma partial_whole w F a r v : partial w F a r v → a mod 8 + nb w ≤ 8 → v = fetch F (run_of (loc r) (nbytes w)).
Proof.
  intros [Hv Hb] H8. rewrite fetch_run. apply (value_of_bytes _ _ (λ k, F (loc r + k))); [done|].
  intros k Hk. apply Hb; [done|unfold nb in *; lia].
Qed.
Lemma lookup_run l n k : (k < n)%nat → run_of l n !! k = Some (l + Z.of_nat k).
Proof. intros Hk. unfold run_of. by rewrite list_lookup_fmap, lookup_seq_lt. Qed.
Lemma join_value w F a r r2 a2 v1 v2 : let wo := a mod nb w in 0 < wo → a2 mod nb w = 0 →
  partial w F a r v1 → partial w F a2 r2 v2 →
  join w v1 v2 wo = fetch F (run_of (loc r) (Z.to_nat (nb w - wo)) ++ run_of (loc r2) (Z.to_nat wo)).
Proof.
  intros wo Hwo H2 [Hv1 Hb1] [Hv2 Hb2]. destruct (mod_nbytes w a) as [Hm Hm8]. fold wo in Hm, Hm8.
  set (m := nb w - wo). set (g := λ k, if k <? m then F (loc r + k) else F (loc r2 + (k - m))).
  assert (fetch F (run_of (loc r) (Z.to_nat m) ++ run_of (loc r2) (Z.to_nat wo)) =
    beval 8 ((λ k, g (Z.of_nat k)) <$> seq 0 (nbytes w))) as ->.
  { unfold fetch, run_of. replace (nbytes w) with (Z.to_nat m + Z.to_nat wo)%nat by (unfold m, nb in *; lia).
    rewrite seq_app, !fmap_app, <- !list_fmap_compose. f_equal. f_equal.
    - apply list_fmap_ext. intros i x Hx. apply lookup_seq in Hx as [-> Hi]. unfold g, compose.
      by rewrite (proj2 (Z.ltb_lt _ _)) by lia.
    - rewrite Nat.add_0_l, (seq_offset (Z.to_nat m)), <- list_fmap_compose.
      apply list_fmap_ext. intros i x Hx. apply lookup_seq in Hx as [-> Hi]. unfold g, compose.
      rewrite (proj2 (Z.ltb_ge _ _)) by lia. f_equal. unfold m. lia. }
  apply (value_of_bytes _ _ g); [by apply join_uint; [..|lia]|].
  intros k Hk. fold (nb w) in Hk. rewrite join_byte by (done || lia). fold m. unfold g.
  destruct (Z.ltb_spec k m).
  - apply Hb1; [lia|]. unfold m in *. destruct (nb_cases w) as [E|[E|E]]; rewrite E in *; zlia.
  - apply Hb2; [lia|]. unfold m in *. destruct (nb_cases w) as [E|[E|E]]; rewrite E in *; zlia.
Qed.

(** *** Runs of accesses *)

(** From a memory [F], [m] returns a value with [Q] and leaves [F']; or it throws
    and leaves [F']. *)
Definition runs {A} (F : Z → Z) (m : acc W A) (Q : A → Prop) (F' : Z → Z) : Prop :=
  ∀ s, wrep s F → ∃ s' v, m s = (s', Ret v) ∧ Q v ∧ wrep s' F'.
Definition stops {A} (F : Z → Z) (m : acc W A) (F' : Z → Z) : Prop :=
  ∀ s, wrep s F → ∃ s' e, m s = (s', Throw e) ∧ wrep s' F'.

Lemma runs_ret {A} F (v : A) (Q : A → Prop) : Q v → runs F (aret v) Q F.
Proof. intros HQ s Hs. by exists s, v. Qed.
Lemma runs_bind {A B} F F1 F2 (m : acc W A) (k : A → acc W B) Q1 Q2 :
  runs F m Q1 F1 → (∀ v, Q1 v → runs F1 (k v) Q2 F2) → runs F (abind m k) Q2 F2.
Proof.
  intros Hm Hk s Hs. destruct (Hm s Hs) as (s1 & v & E & HQ & Hs1). destruct (Hk v HQ s1 Hs1) as (s2 & u & E2 & Hr).
  exists s2, u. unfold abind. by rewrite E.
Qed.
Lemma stops_bind {A B} F F1 F2 (m : acc W A) (k : A → acc W B) Q1 :
  runs F m Q1 F1 → (∀ v, Q1 v → stops F1 (k v) F2) → stops F (abind m k) F2.
Proof.
  intros Hm Hk s Hs. destruct (Hm s Hs) as (s1 & v & E & HQ & Hs1). destruct (Hk v HQ s1 Hs1) as (s2 & u & E2 & Hr).
  exists s2, u. unfold abind. by rewrite E.
Qed.
Lemma stops_first {A B} F F' (m : acc W A) (k : A → acc W B) : stops F m F' → stops F (abind m k) F'.
Proof. intros Hm s Hs. destruct (Hm s Hs) as (s1 & e & E & Hs1). exists s1, e. unfold abind. by rewrite E. Qed.
Lemma abind_assoc {A B C} (m : acc W A) (f : A → acc W B) (k : B → acc W C) s :
  abind (abind m f) k s = abind m (λ x, abind (f x) k) s.
Proof. unfold abind. by destruct (m s) as [s' [a|e| |]]. Qed.
Lemma runs_assoc {A B C} F F' (m : acc W A) (f : A → acc W B) (k : B → acc W C) Q :
  runs F (abind m (λ x, abind (f x) k)) Q F' → runs F (abind (abind m f) k) Q F'.
Proof. intros Hr s Hs. rewrite abind_assoc. by apply Hr. Qed.
Lemma stops_assoc {A B C} F F' (m : acc W A) (f : A → acc W B) (k : B → acc W C) :
  stops F (abind m (λ x, abind (f x) k)) F' → stops F (abind (abind m f) k) F'.
Proof. intros Hr s Hs. rewrite abind_assoc. by apply Hr. Qed.
Lemma runs_aret {A B} F F' (v : A) (k : A → acc W B) Q : runs F (k v) Q F' → runs F (abind (aret v) k) Q F'.
Proof. done. Qed.
Lemma stops_aret {A B} F F' (v : A) (k : A → acc W B) : stops F (k v) F' → stops F (abind (aret v) k) F'.
Proof. done. Qed.
Lemma runs_weaken {A} F F1 F2 (m : acc W A) (Q Q' : A → Prop) :
  runs F m Q F1 → (∀ v, Q v → Q' v) → (∀ a, F1 a = F2 a) → runs F m Q' F2.
Proof.
  intros Hr HQ HF s Hs. destruct (Hr s Hs) as (s' & v & E & Hv & Hs'). exists s', v.
  split_and!; [done|by apply HQ|by apply (wrep_ext _ F1)].
Qed.
Lemma stops_weaken {A} F F1 F2 (m : acc W A) : stops F m F1 → (∀ a, F1 a = F2 a) → stops F m F2.
Proof.
  intros Hr HF s Hs. destruct (Hr s Hs) as (s' & e & E & Hs'). exists s', e. split; [done|by apply (wrep_ext _ F1)].
Qed.

Lemma runs_logger F pre seq a r n v : runs F (logger pre seq a r n v) (λ _, True) F.
Proof. intros s Hs. destruct (logger_law s F pre seq a r n v Hs) as (s' & E & Hs'). by exists s', tt. Qed.
Lemma runs_hook F h a r :
  h ∈ [pre_read; post_read; pre_write; post_write; misaligned_read; misaligned_write] → runs F (h a r) (λ _, True) F.
Proof. intros Hh s Hs. destruct (hook_law h s F a r Hs Hh) as (s' & E & Hs'). by exists s', tt. Qed.
Lemma runs_translate F a seq r : tr a = Some r → runs F (translate a seq) (λ v, v = r) F.
Proof. intros Hr s Hs. destruct (translate_some s F a seq r Hs Hr) as (s' & E & Hs'). by exists s', r. Qed.
Lemma stops_translate F a seq : 0 ≤ a → tr (mask_ea a) = None → stops F (translate (mask_ea a) seq) F.
Proof. intros Ha Hr s Hs. by apply translate_none. Qed.
Lemma addr_add_nonneg a b : 0 ≤ addr_add a b.
Proof. apply Z.mod_pos_bound. lia. Qed.
Lemma runs_read F w seq a r : tr a = Some r → entire w r = true → runs F (cache_read w seq a r) (partial w F a r) F.
Proof.
  intros Hr He s Hs. destruct (cache_read_law w seq s F a r Hs Hr He) as (s' & v & E & Hs' & Hv & Hb). by exists s', v.
Qed.
Lemma runs_write F w a r v n : tr a = Some r → 0 ≤ n ≤ nb w → a mod 8 + n ≤ 8 →
  runs F (cache_write w a r v n) (λ _, True) (write_bytes F (loc r) (nbytes w) v n).
Proof.
  intros Hr Hn H8 s Hs. destruct (cache_write_law w s F a r v n Hs Hr Hn H8) as (s' & E & Hs'). by exists s', tt.
Qed.
End Reference.

(** Facts on the offset of an address. *)
Ltac off_lia := nb_consts; (lia || zlia).

Create HintDb acc.
#[export] Hint Resolve runs_logger runs_translate stops_translate runs_read addr_add_nonneg : acc.
#[export] Hint Extern 1 (runs _ (?h _ _) _ _) => apply runs_hook; by repeat constructor : acc.
#[export] Hint Extern 1 (runs _ (cache_write _ _ _ _ _) _ _) =>
  eapply runs_write; [eassumption|off_lia|off_lia] : acc.

(** Runs an access up to the next branch of its code. *)
Ltac astep :=
  lazymatch goal with
  | |- runs _ (abind (abind _ _) _) _ _ => apply runs_assoc
  | |- stops _ (abind (abind _ _) _) _ => apply stops_assoc
  | |- runs _ (abind (aret _) _) _ _ => apply runs_aret
  | |- stops _ (abind (aret _) _) _ => apply stops_aret
  | |- runs _ (abind _ _) _ _ => eapply runs_bind; [solve [eauto with acc]|cbv beta; intros ? ?; subst]
  | |- stops _ (abind _ _) _ =>
      first [apply stops_first; solve [eauto with acc]
            |eapply stops_bind; [solve [eauto with acc]|cbv beta; intros ? ?; subst]]
  end.
Ltac arun := cbv zeta; repeat (astep; cbv zeta).

Section Reads.
Context {W : Type} {HT : Translate W} {HC : CacheAccess W} {HG : Logger W} {HA : AccessLaws W}.
Context (Interleaved : bool) (SplitSize : Z).

Lemma land_7_cases a : a mod 8 = 0 ∧ Z.land a DWMask = 0 ∨ a mod 8 = 1 ∧ Z.land a DWMask = 1 ∨
  a mod 8 = 2 ∧ Z.land a DWMask = 2 ∨ a mod 8 = 3 ∧ Z.land a DWMask = 3 ∨ a mod 8 = 4 ∧ Z.land a DWMask = 4 ∨
  a mod 8 = 5 ∧ Z.land a DWMask = 5 ∨ a mod 8 = 6 ∧ Z.land a DWMask = 6 ∨ a mod 8 = 7 ∧ Z.land a DWMask = 7.
Proof.
  pose proof (split_mask_land W64 a : Z.land a DWMask = a mod 8) as ->. pose proof (Z.mod_pos_bound a 8 ltac:(lia)). lia.
Qed.

Lemma second_mod w a : 0 ≤ a → second w a mod nb w = 0 ∧ second w a mod 8 + nb w ≤ 8.
Proof.
  intros Ha. destruct (mod_nbytes w a) as [Hm _]. unfold second, addr_add.
  rewrite split_mask_lor. replace (a - a mod nb w + (nb w - 1) + 1) with (a - a mod nb w + nb w) by lia.
  set (b := wrap 64 (a - a mod nb w + nb w)). assert (0 ≤ b < 2 ^ 64) as Hb by (apply uint_wrap; lia).
  assert (b mod nb w = 0) as Hb0 by (subst b; unfold wrap; destruct (nb_cases w) as [E|[E|E]]; rewrite E in *; zlia).
  pose proof (mask_mod8 b ltac:(lia)) as H8. destruct (mask_uint b ltac:(lia)).
  destruct (nb_cases w) as [E|[E|E]]; rewrite E in *; zlia.
Qed.

(** The end of a read that was not split, and of one that was. *)
Lemma runs_ret_whole w F a r v : partial w F a r v → a mod 8 + nb w ≤ 8 →
  runs F (aret v) (λ u, u = fetch F (run_of (loc r) (nbytes w))) F.
Proof. intros Hv H8. by apply runs_ret, (partial_whole w F a). Qed.
Lemma runs_ret_join w F a r r2 v1 v2 : 0 ≤ a → 0 < a mod nb w →
  partial w F a r v1 → partial w F (second w a) r2 v2 →
  runs F (aret (join w v1 v2 (misaligned_read_offset w a)))
    (λ u, u = fetch F (run_of (loc r) (Z.to_nat (nb w - a mod nb w)) ++ run_of (loc r2) (Z.to_nat (a mod nb w)))) F.
Proof.
  intros Ha Hwo H1 H2. apply runs_ret. rewrite offset_law by done.
  apply (join_value w F a r r2 (second w a)); [done|by apply second_mod|done..].
Qed.

Definition answers {A} (F : Z → Z) (m : acc W A) (Q : list Z → A → Prop) (F' : list Z → Z → Z) (F0 : Z → Z)
    (ls : option (list Z)) : Prop :=
  match ls with Some ls => runs F m (Q ls) (F' ls) | None => stops F m F0 end.
Definition read_answers (F : Z → Z) (m : acc W Z) (ls : option (list Z)) : Prop :=
  answers F m (λ ls v, v = fetch F ls) (λ _, F) F ls.

Context (F : Z → Z) (ea : Z) (Hea : 0 ≤ ea).
Let ea0 := mask_ea ea.

(** What holds at the addresses of an access of width [w] at [ea0]. *)
Record access_facts (w : width) (r : Z) : Prop := {
  af_pos : 0 ≤ ea0;
  af_tr : tr ea0 = Some r;
  af_dw : ea0 mod 8 + nb w ≤ 8 → entire w r = true ∧ locs (nbytes w) ea = Some (run_of (loc r) (nbytes w));
  af_second : second w ea0 mod 8 + nb w ≤ 8;
  af_some : ∀ r2, 0 < ea0 mod nb w → tr (second w ea0) = Some r2 → entire w r2 = true ∧
    locs (nbytes w) ea =
      Some (run_of (loc r) (Z.to_nat (nb w - ea0 mod nb w)) ++ run_of (loc r2) (Z.to_nat (ea0 mod nb w)));
  af_none : 0 < ea0 mod nb w → tr (second w ea0) = None → locs (nbytes w) ea = None
}.
Lemma facts w r : tr ea0 = Some r → access_facts w r.
Proof.
  intros Hr. pose proof (mask_uint ea Hea) as [H0 _].
  pose proof (locs_split w ea r Hea) as HS. cbv zeta in HS. fold ea0 in HS, H0. split.
  - done.
  - done.
  - intros H8. split; [by apply (entire_dw w ea0)|by apply locs_dw].
  - by apply second_mod.
  - intros r2 Hwo H2. split; [by apply (entire_dw w _ _ H2), second_mod|]. rewrite HS, H2 by done. done.
  - intros Hwo H2. by rewrite HS, H2 by done.
Qed.
End Reads.

(** Closes a read that is not split; one that is, on both outcomes of the second
    translation. *)
Ltac read_whole w Hf :=
  let He := fresh in let El := fresh in
  destruct (af_dw _ _ _ Hf) as [He El]; [off_lia|]; rewrite El; unfold answers; cbv beta iota;
  arun; eapply (runs_ret_whole w); [eassumption|off_lia].
Ltac read_split w Hf :=
  let r2 := fresh "r2" in let Hr2 := fresh "Hr2" in let He := fresh in let El := fresh in
  let a := lazymatch type of Hf with access_facts ?a _ _ => a end in
  destruct (tr (second w (mask_ea a))) as [r2|] eqn:Hr2;
  [destruct (af_some _ _ _ Hf r2) as [He El]; [off_lia|exact Hr2|]; rewrite El
  |rewrite (af_none _ _ _ Hf) by (off_lia || exact Hr2)];
  unfold second in Hr2; cbn [split_mask] in Hr2; unfold answers; cbv beta iota; arun;
  try (eapply (runs_ret_join w); [apply Hf|off_lia|eassumption|eassumption]).

Section ReadCorrect.
Context {W : Type} {HT : Translate W} {HC : CacheAccess W} {HG : Logger W} {HA : AccessLaws W}.
Context (Interleaved : bool) (SplitSize : Z) (F : Z → Z) (ea : Z) (Hea : 0 ≤ ea).

Lemma read64_answers r : tr (mask_ea ea) = Some r → entire W64 r = true →
  read_answers F (read64 Interleaved ea) (locs (nbytes W64) ea).
Proof.
  intros Hr He. pose proof (facts ea Hea W64 r Hr) as Hf. unfold read_answers.
  unfold read64, read64_interleaved, read64_noninterleaved, read64_helper_pre_interleaved,
    read64_helper_interleaved, read64_helper_noninterleaved.
  destruct (land_7_cases (mask_ea ea)) as [[H8 E]|[[H8 E]|[[H8 E]|[[H8 E]|[[H8 E]|[[H8 E]|[[H8 E]|[H8 E]]]]]]]]; rewrite E;
    destruct Interleaved; first [read_whole W64 Hf|read_split W64 Hf].
Qed.
Lemma land_3_cases a : Z.land a WordMask = a mod 4.
Proof. apply (split_mask_land W32). Qed.
Lemma read32_answers r : tr (mask_ea ea) = Some r → (8 < mask_ea ea mod 8 + 4 → entire W32 r = true) →
  read_answers F (read32 Interleaved SplitSize ea) (locs (nbytes W32) ea).
Proof.
  intros Hr He. pose proof (facts ea Hea W32 r Hr) as Hf. unfold read_answers.
  assert (entire W32 r = true).
  { destruct (Z.lt_ge_cases 8 (mask_ea ea mod 8 + 4)) as [H8|H8]; [by apply He|by apply (af_dw _ _ _ Hf)]. }
  unfold read32, read32_interleaved, read32_noninterleaved, misaligned_read32_interleaved,
    misaligned_read32_noninterleaved, misaligned_in_dw_read32. rewrite land_3_cases.
  destruct (land_7_cases (mask_ea ea)) as [[H8 E]|[[H8 E]|[[H8 E]|[[H8 E]|[[H8 E]|[[H8 E]|[[H8 E]|[H8 E]]]]]]]]; rewrite E;
    destruct Interleaved, (SplitSize =? 8), (Z.eqb_spec (mask_ea ea mod 4) 0); cbn [negb];
    first [exfalso; clear -H8 e; zlia|exfalso; clear -H8 n; zlia|read_whole W32 Hf|read_split W32 Hf].
Qed.
Lemma read16_answers r : tr (mask_ea ea) = Some r → (8 < mask_ea ea mod 8 + 2 → entire W16 r = true) →
  read_answers F (read16 Interleaved SplitSize ea) (locs (nbytes W16) ea).
Proof.
  intros Hr He. pose proof (facts ea Hea W16 r Hr) as Hf. unfold read_answers.
  assert (entire W16 r = true).
  { destruct (Z.lt_ge_cases 8 (mask_ea ea mod 8 + 2)) as [H8|H8]; [by apply He|by apply (af_dw _ _ _ Hf)]. }
  unfold read16, read16_interleaved, read16_noninterleaved, misaligned_read16_interleaved,
    misaligned_read16_noninterleaved, misaligned_in_dw_read16, aligned_read16. rewrite land_3_cases.
  destruct (land_7_cases (mask_ea ea)) as [[H8 E]|[[H8 E]|[[H8 E]|[[H8 E]|[[H8 E]|[[H8 E]|[[H8 E]|[H8 E]]]]]]]]; rewrite E;
    destruct Interleaved, (SplitSize =? 8), (Z.eqb_spec (mask_ea ea mod 4) 3); cbn [Z.eqb Pos.eqb];
    first [exfalso; clear -H8 e; zlia|exfalso; clear -H8 n; zlia|read_whole W16 Hf|read_split W16 Hf].
Qed.
End ReadCorrect.

(** ** Writes *)

Lemma run_of_S l m : run_of l (S m) = l :: run_of (l + 1) m.
Proof.
  unfold run_of. cbn [seq fmap list_fmap]. f_equal; [lia|]. rewrite <- (fmap_S_seq 0), <- list_fmap_compose.
  apply list_fmap_ext. intros i x _. unfold compose. lia.
Qed.
Lemma store_run n v k F l m a : store_from n v k F (run_of l m) a =
  if (l <=? a) && (a <? l + Z.of_nat m) then top_byte n v (k + (a - l)) else F a.
Proof.
  revert k F l. induction m as [|m IH]; intros k F l.
  - cbn. rewrite Z.add_0_r. destruct (Z.leb_spec l a), (Z.ltb_spec a l); done || lia.
  - rewrite run_of_S. cbn [store_from]. rewrite IH. unfold put.
    destruct (Z.eqb_spec a l) as [->|Hne].
    + rewrite Z.leb_refl, (proj2 (Z.leb_gt _ _)), (proj2 (Z.ltb_lt l (l + Z.of_nat (S m)))), Z.sub_diag, Z.add_0_r by lia.
      done.
    + replace (k + 1 + (a - (l + 1))) with (k + (a - l)) by lia.
      destruct (Z.leb_spec (l + 1) a), (Z.leb_spec l a), (Z.ltb_spec a (l + 1 + Z.of_nat m)),
        (Z.ltb_spec a (l + Z.of_nat (S m))); done || lia.
Qed.
Lemma store_from_app n v k F l1 l2 :
  store_from n v k F (l1 ++ l2) = store_from n v (k + Z.of_nat (length l1)) (store_from n v k F l1) l2.
Proof.
  revert k F. induction l1 as [|x l1 IH]; intros k F; cbn [app store_from length]; [by rewrite Z.add_0_r|].
  rewrite IH. by replace (k + 1 + Z.of_nat (length l1)) with (k + Z.of_nat (S (length l1))) by lia.
Qed.
Lemma length_run l n : length (run_of l n) = n.
Proof. unfold run_of. by rewrite length_fmap, length_seq. Qed.

(** One write of the cache stores the bytes of the value; so do two of which the
    second has the value shifted past the bytes of the first. *)
Lemma store_whole w F l v n a : n = nb w → write_bytes F l (nbytes w) v n a = store F (run_of l (nbytes w)) v a.
Proof. intros ->. unfold store. rewrite store_run, length_run. done. Qed.
Lemma store_split w F l l2 v wo n1 n2 v2 a : 0 < wo < nb w → n1 = nb w - wo → n2 = wo →
  v2 = shl (8 * nb w) v ((nb w - wo) * 8) →
  write_bytes (write_bytes F l (nbytes w) v n1) l2 (nbytes w) v2 n2 a =
  store F (run_of l (Z.to_nat (nb w - wo)) ++ run_of l2 (Z.to_nat wo)) v a.
Proof.
  intros Hwo -> -> ->. unfold store. rewrite store_from_app, !length_app, !length_run, !store_run.
  replace (Z.to_nat (nb w - wo) + Z.to_nat wo)%nat with (nbytes w) by (unfold nb in *; lia).
  unfold write_bytes. rewrite !Z2Nat.id by lia.
  destruct (Z.leb_spec l2 a), (Z.ltb_spec a (l2 + wo)); cbn [andb]; try done.
  replace (nbytes w) with (Z.to_nat (nb w)) by (unfold nb; lia).
  rewrite shl_top_byte by lia. f_equal. lia.
Qed.

(** Closes a write that is not split; one that is. *)
Ltac write_whole w Hf :=
  let He := fresh in let El := fresh in
  destruct (af_dw _ _ _ Hf) as [He El]; [off_lia|]; rewrite El; unfold answers; cbv beta iota;
  eapply runs_weaken; [arun; solve [eauto with acc]|done|intros ?; by apply store_whole].
Ltac write_split w Hf Hm :=
  let r2 := fresh "r2" in let Hr2 := fresh "Hr2" in let He := fresh in let El := fresh in let H2 := fresh in
  pose proof (af_second _ _ _ Hf) as H2;
  let a := lazymatch type of Hf with access_facts ?a _ _ => a end in
  destruct (tr (second w (mask_ea a))) as [r2|] eqn:Hr2;
  [destruct (af_some _ _ _ Hf r2) as [He El]; [rewrite ?Hm; off_lia|exact Hr2|]; rewrite El
  |rewrite (af_none _ _ _ Hf) by (exact Hr2 || (rewrite ?Hm; off_lia))];
  rewrite ?Hm in Hr2; rewrite ?Hm in H2; rewrite ?Hm; unfold second in Hr2, H2; cbn [split_mask] in Hr2, H2;
  unfold answers; cbv beta iota;
  [eapply runs_weaken; [arun; solve [eauto with acc]|done|];
   intros ?; apply (store_split w); nb_consts; [..|f_equal]; off_lia
  |eapply stops_weaken; [arun|intros ?; first [done|f_equal; off_lia]]].

Section WriteCorrect.
Context {W : Type} {HT : Translate W} {HC : CacheAccess W} {HG : Logger W} {HA : AccessLaws W}.
Context (Interleaved : bool) (SplitSize : Z) (F : Z → Z) (ea : Z) (Hea : 0 ≤ ea) (Hm : mask_ea ea = ea).

Definition write_answers (w : width) (r v : Z) (m : acc W unit) (ls : option (list Z)) : Prop :=
  answers F m (λ _ _, True) (λ ls, store F ls v)
    (if Interleaved then write_bytes F (loc r) (nbytes w) v (nb w - ea mod nb w) else F) ls.

Lemma write64_answers r v : tr ea = Some r → write_answers W64 r v (write64 Interleaved ea r v) (locs (nbytes W64) ea).
Proof.
  intros Hr. assert (tr (mask_ea ea) = Some r) as Hr' by by rewrite Hm.
  pose proof (facts ea Hea W64 r Hr') as Hf. rewrite Hm in *. unfold write_answers.
  unfold write64, write64_interleaved, write64_noninterleaved, write64_helper_noninterleaved,
    write64_helper_interleaved1, write64_helper_interleaved2.
  destruct (land_7_cases ea) as [[H8 E]|[[H8 E]|[[H8 E]|[[H8 E]|[[H8 E]|[[H8 E]|[[H8 E]|[H8 E]]]]]]]]; rewrite E;
    destruct Interleaved; first [write_whole W64 Hf|write_split W64 Hf Hm].
Qed.
Lemma write32_answers r v : tr ea = Some r →
  write_answers W32 r v (write32 Interleaved SplitSize ea r v) (locs (nbytes W32) ea).
Proof.
  intros Hr. assert (tr (mask_ea ea) = Some r) as Hr' by by rewrite Hm.
  pose proof (facts ea Hea W32 r Hr') as Hf. rewrite Hm in *. unfold write_answers.
  unfold write32, misaligned_write32, misaligned_in_dw_write32, aligned_write32. rewrite land_3_cases.
  destruct (land_7_cases ea) as [[H8 E]|[[H8 E]|[[H8 E]|[[H8 E]|[[H8 E]|[[H8 E]|[[H8 E]|[H8 E]]]]]]]]; rewrite E;
    destruct Interleaved, (SplitSize =? 8), (Z.eqb_spec (ea mod 4) 0); cbn [negb];
    first [exfalso; clear -H8 e; zlia|exfalso; clear -H8 n; zlia|write_whole W32 Hf|write_split W32 Hf Hm].
Qed.
Lemma write16_answers r v : tr ea = Some r → uint 16 v →
  write_answers W16 r v (write16 Interleaved SplitSize ea r v) (locs (nbytes W16) ea).
Proof.
  intros Hr Hv. assert (tr (mask_ea ea) = Some r) as Hr' by by rewrite Hm.
  pose proof (facts ea Hea W16 r Hr') as Hf. rewrite Hm in *. unfold write_answers.
  unfold write16, misaligned_write16, misaligned_in_dw_write16, aligned_write16. rewrite land_3_cases.
  change (wrap 16 (Z.shiftl v 8)) with (shl 16 v 8). rewrite (wrap_small 16 v) by done.
  destruct (land_7_cases ea) as [[H8 E]|[[H8 E]|[[H8 E]|[[H8 E]|[[H8 E]|[[H8 E]|[[H8 E]|[H8 E]]]]]]]]; rewrite E;
    destruct Interleaved, (SplitSize =? 8), (Z.eqb_spec (ea mod 4) 3); cbn [Z.eqb Pos.eqb negb];
    first [exfalso; clear -H8 e; zlia|exfalso; clear -H8 n; zlia|write_whole W16 Hf|write_split W16 Hf Hm].
Qed.
End WriteCorrect.

(** ** Accesses of all widths *)

Section Accesses.
Context {W : Type} {HT : Translate W} {HC : CacheAccess W} {HG : Logger W}.

Definition access_read (Interleaved : bool) (SplitSize : Z) (w : width) : Z → acc W Z :=
  match w with
  | W64 => read64 Interleaved
  | W32 => read32 Interleaved SplitSize
  | W16 => read16 Interleaved SplitSize
  end.
Definition access_write (Interleaved : bool) (SplitSize : Z) (w : width) : Z → Z → Z → acc W unit :=
  match w with
  | W64 => write64 Interleaved
  | W32 => write32 Interleaved SplitSize
  | W16 => write16 Interleaved SplitSize
  end.

Context {HA : AccessLaws W}.

Lemma read_stops Interleaved SplitSize w F ea : 0 ≤ ea → tr (mask_ea ea) = None →
  stops F (access_read Interleaved SplitSize w ea) F.
Proof.
  intros Hea Hr. destruct w; unfold access_read, read64, read32, read16, read64_interleaved, read64_noninterleaved,
    read32_interleaved, read32_noninterleaved, read16_interleaved, read16_noninterleaved;
    destruct Interleaved; arun.
Qed.
Lemma read_answer Interleaved SplitSize w F ea : 0 ≤ ea →
  (∀ r, tr (mask_ea ea) = Some r → 8 < mask_ea ea mod 8 + nb w → entire w r = true) →
  read_answers F (access_read Interleaved SplitSize w ea) (locs (nbytes w) ea).
Proof.
  intros Hea He. destruct (tr (mask_ea ea)) as [r|] eqn:Hr.
  - specialize (He r eq_refl). destruct w; cbn [access_read].
    + apply (read64_answers _ _ _ Hea r Hr). destruct (Z.lt_ge_cases 8 (mask_ea ea mod 8 + nb W64)) as [H8|H8];
        [by apply He|by apply (af_dw _ _ _ (facts ea Hea W64 r Hr))].
    + by apply (read32_answers _ _ _ _ Hea r Hr).
    + by apply (read16_answers _ _ _ _ Hea r Hr).
  - rewrite (locs_none _ _ Hea) by (done || destruct w; cbn; lia). by apply read_stops.
Qed.
Lemma write_answer Interleaved SplitSize w F ea r v : 0 ≤ ea → mask_ea ea = ea → tr ea = Some r → uint (8 * nb w) v →
  write_answers Interleaved F ea w r v (access_write Interleaved SplitSize w ea r v) (locs (nbytes w) ea).
Proof.
  intros Hea Hm Hr Hv. destruct w; [by apply write64_answers|by apply write32_answers|by apply write16_answers].
Qed.

(** Distinct locations keep the bytes that were stored. *)
Lemma store_from_other n v k F ls a : a ∉ ls → store_from n v k F ls a = F a.
Proof.
  revert k F. induction ls as [|l ls IH]; intros k F Ha; [done|]. apply not_elem_of_cons in Ha as [Hne Ha].
  cbn [store_from]. rewrite IH by done. unfold put. by rewrite (proj2 (Z.eqb_neq _ _)).
Qed.
Lemma store_from_bytes n v k F ls : NoDup ls →
  store_from n v k F ls <$> ls = (λ i, top_byte n v (k + Z.of_nat i)) <$> seq 0 (length ls).
Proof.
  revert k F. induction ls as [|l ls IH]; intros k F Hd; [done|]. apply NoDup_cons in Hd as [Hl Hd].
  cbn [store_from length seq fmap list_fmap]. f_equal.
  - rewrite store_from_other by done. unfold put. by rewrite Z.eqb_refl, Z.add_0_r.
  - rewrite IH by done. rewrite <- (fmap_S_seq 0), <- list_fmap_compose. apply list_fmap_ext.
    intros i x _. unfold compose. f_equal. lia.
Qed.
Lemma fetch_store F ls v : NoDup ls → uint (8 * Z.of_nat (length ls)) v → fetch (store F ls v) ls = v.
Proof.
  intros Hd Hv. unfold fetch, store. rewrite store_from_bytes by done. symmetry.
  apply (value_of_bytes _ _ (λ i, top_byte (length ls) v (0 + i))); [done|]. intros k Hk. by rewrite Z.add_0_l.
Qed.
Lemma length_locs n ea ls : locs n ea = Some ls → length ls = n.
Proof. intros E%length_mapM. by rewrite length_seq in E. Qed.

(** *** Bytes *)

Lemma read8_answer F ea : 0 ≤ ea → read_answers F (read8 ea) (locs 1 ea).
Proof.
  intros Hea. pose proof (Z.mod_pos_bound (mask_ea ea) 8 ltac:(lia)) as H8.
  unfold read_answers, read8. destruct (tr (mask_ea ea)) as [r|] eqn:Hr.
  - rewrite (locs_dw 1 ea r) by (done || lia). unfold answers. arun.
    eapply runs_bind; [intros s Hs; destruct (cache_read8_law s F _ r Hs Hr) as (s' & E & Hs'); exists s'; eexists;
      split; [exact E|]; split; [exact (eq_refl (F (loc r)))|done]|]. intros ? <-. arun.
    apply runs_ret. rewrite fetch_run. cbn [seq fmap list_fmap beval length].
    change (8 * Z.of_nat 0) with 0. change (Z.of_nat 0) with 0. rewrite Z.pow_0_r, !Z.add_0_r. lia.
  - rewrite (locs_none _ _ Hea) by (done || lia). unfold answers. arun.
Qed.
Lemma write8_answer F ea r v : tr ea = Some r → uint 8 v →
  runs F (write8 ea r v) (λ _, True) (put F (loc r) v).
Proof.
  intros Hr Hv. eapply runs_weaken with (F1 := write_bytes F (loc r) 1 v 1); [|done|].
  - unfold write8. arun. eapply runs_bind with (Q1 := λ _, True); [|intros; arun; eauto with acc].
    intros s Hs. destruct (cache_write8_law s F ea r v Hs Hr Hv) as (s' & E & Hs'). by exists s', tt.
  - intros a. unfold write_bytes, put. destruct (Z.eqb_spec a (loc r)) as [->|Hne].
    + rewrite Z.leb_refl, (proj2 (Z.ltb_lt _ _)), Z.sub_diag by lia. by apply top_byte_1.
    + destruct (Z.leb_spec (loc r) a), (Z.ltb_spec a (loc r + 1)); done || lia.
Qed.
End Accesses.
