(* ===== verification/MemoryLocal.v ===== *)
(** * Accesses to the memories of the simulator

    [MemoryAccess] over the concrete classes: [SimpleCache] over any memory of
    [SparseMemory], translations that do not change the memory, and a logger that
    keeps the events.  [MemoryTranslate] is such a translation; a table of pages,
    of which some have no translation, is another. *)
From stdpp Require Import prelude strings list.
From Stdlib Require Import ZArith Lia.
From S2P Require Import Prelude.
From S2P Require Import MemBytes.
From S2P Require Import SparseMemory.
From S2P Require Import MemoryAccess.
From S2P Require Import MemoryAccessCorrect.

Local Open Scope Z_scope.

(** ** Translations over a memory *)

(** A translation that leaves the core as it is and gives addresses that the
    memory has. *)
Class TranslateLaws {M} `{ByteMemLaws M} (T : Translate (M * list event)) : Type := {
  tl_tr : Z → option Z;
  tl_uint a : 0 ≤ a → uint 64 (mask_ea a);
  tl_idem a : 0 ≤ a → mask_ea (mask_ea a) = mask_ea a;
  tl_mask_add a k : 0 ≤ a → 0 ≤ k → a mod 8 + k < 8 → mask_ea (a + k) = mask_ea a + k;
  tl_mod8 a : 0 ≤ a → mask_ea a mod 8 = a mod 8;
  tl_tr_mod8 a r : tl_tr a = Some r → r mod 8 = a mod 8;
  tl_tr_add a r k : tl_tr a = Some r → 0 ≤ k → a mod 8 + k < 8 → tl_tr (a + k) = Some (r + k);
  tl_some s a seq r : tl_tr a = Some r → translate a seq s = (s, Ret r);
  tl_none s a seq : 0 ≤ a → tl_tr (mask_ea a) = None → ∃ e, translate (mask_ea a) seq s = (s, Throw e);
  tl_hook (h : Z → Z → acc (M * list event) unit) s a r :
    h ∈ [pre_read; post_read; pre_write; post_write; misaligned_read; misaligned_write] → h a r s = (s, Ret tt);
  tl_ok a r : tl_tr a = Some r → addr_ok r
}.

Section Local.
Context {M : Type} {HM : ByteMem M} {HML : ByteMemLaws M} (T : Translate (M * list event)) {TL : TranslateLaws T}.

#[export] Program Instance local_laws :
  AccessLaws (M * list event) (H := T) (H0 := simple_cache) (H1 := event_log) := {
  wrep s F := mem_rep (fst s) F;
  tr := tl_tr;
  loc := canon;
  entire := whole
}.
Next Obligation. intros [m l] F F'. cbn. apply rep_ext. Qed.
Next Obligation. intros [m l] F a r Hs Hr. cbn in *. apply (rep_byte m); [done|by apply (tl_ok a)]. Qed.
Next Obligation. apply tl_uint. Qed.
Next Obligation. apply tl_idem. Qed.
Next Obligation. apply tl_mask_add. Qed.
Next Obligation. apply tl_mod8. Qed.
Next Obligation. apply tl_tr_mod8. Qed.
Next Obligation. apply tl_tr_add. Qed.
Next Obligation.
  intros a r k Hr Hk H8. apply canon_add; [by apply (tl_ok a)|done|]. by rewrite (tl_tr_mod8 a).
Qed.
Next Obligation. intros s F a seq r Hs Hr. exists s. by rewrite (tl_some s a seq r). Qed.
Next Obligation. intros s F a seq Hs Ha Hr. destruct (tl_none s a seq Ha Hr) as [e E]. by exists s, e. Qed.
Next Obligation. intros h s F a r Hs Hh. exists s. by rewrite (tl_hook h). Qed.
Next Obligation. intros [m l] F pre seq a r n v Hs. by eexists. Qed.
Next Obligation. intros w a Ha. apply (split_mask_land w). Qed.
Next Obligation.
  intros w a r Hr H8. apply whole_dw; [by apply (tl_ok a)|]. by rewrite (tl_tr_mod8 a r).
Qed.
Next Obligation.
  intros w seq [m l] F a r Hs Hr He. cbn in *. pose proof (mem_read_law w m F r Hs (tl_ok a r Hr)) as Hl.
  rewrite He in Hl. destruct Hl as (v & m' & E & Hm' & Hv & Hb). exists (m', l), v.
  unfold on_mem. cbn [fst snd]. rewrite E. split_and!; [done..|]. intros k Hk H8. apply Hb; [done|].
  by rewrite (tl_tr_mod8 a r).
Qed.
Next Obligation.
  intros [m l] F a r Hs Hr. cbn in *. destruct (mem_read8_law m F r Hs (tl_ok a r Hr)) as (m' & E & Hm').
  exists (m', l). unfold on_mem. cbn [fst snd]. by rewrite E.
Qed.
Next Obligation. intros s F a r Hs Hr. by exists s, 0. Qed.
Next Obligation.
  intros w [m l] F a r v n Hs Hr Hn H8. cbn in *.
  destruct (mem_write_law w m F r v n Hs (tl_ok a r Hr) Hn) as (m' & E & Hm'); [by rewrite (tl_tr_mod8 a r)|].
  exists (m', l). unfold change_mem, on_mem. cbn [fst snd]. by rewrite E.
Qed.
Next Obligation.
  intros [m l] F a r v Hs Hr Hv. cbn in *. destruct (mem_write8_law m F r v Hs (tl_ok a r Hr) Hv) as (m' & E & Hm').
  exists (m', l). unfold change_mem, on_mem. cbn [fst snd]. by rewrite E.
Qed.
Next Obligation. intros s F a r v Hs Hr. by exists s. Qed.
End Local.

(** ** [MemoryTranslate] *)

Section Direct.
Context {M : Type} {HM : ByteMem M} {HML : ByteMemLaws M} (N : Z).
Context (HN : 8 ≤ N ≤ 2 ^ 64) (HN8 : N mod 8 = 0) (Hok : ∀ a, 0 ≤ a < N → addr_ok a).

Lemma mod_dw a k : 0 ≤ a → 0 ≤ k → a mod 8 + k < 8 → (a + k) mod N = a mod N + k.
Proof.
  intros Ha Hk H8. rewrite <- Zplus_mod_idemp_l. apply Z.mod_small.
  pose proof (Z.mod_pos_bound a N ltac:(lia)). assert ((a mod N) mod 8 = a mod 8).
  { apply Z.mod_mod_divide, Z.mod_divide; [lia|done]. }
  generalize dependent (a mod N). intros x **. zlia.
Qed.
#[export] Program Instance direct_laws : TranslateLaws (memory_translate N (M * list event)) := {
  tl_tr a := if (0 <=? a) && (a <? N) then Some a else None
}.
Next Obligation. intros a Ha. cbn. pose proof (Z.mod_pos_bound a N ltac:(lia)). unfold uint. lia. Qed.
Next Obligation. intros a Ha. cbn. apply Z.mod_mod. lia. Qed.
Next Obligation. cbn. apply mod_dw. Qed.
Next Obligation. intros a Ha. cbn. apply Z.mod_mod_divide, Z.mod_divide; [lia|done]. Qed.
Next Obligation. intros a r Hr. cbv beta in Hr. destruct (_ && _); by simplify_eq. Qed.
Next Obligation.
  intros a r k Hr Hk H8. cbv beta in *. destruct (Z.leb_spec 0 a), (Z.ltb_spec a N); simplify_eq/=.
  rewrite (proj2 (Z.leb_le _ _)), (proj2 (Z.ltb_lt _ _)) by zlia. done.
Qed.
Next Obligation. intros s a seq r Hr. cbv beta in Hr. destruct (_ && _); by simplify_eq. Qed.
Next Obligation.
  intros s a seq Ha Hr. exfalso. cbn in Hr. pose proof (Z.mod_pos_bound a N ltac:(lia)).
  rewrite (proj2 (Z.leb_le _ _)), (proj2 (Z.ltb_lt _ _)) in Hr by lia. done.
Qed.
Next Obligation. intros h s a r Hh. cbn in Hh. set_unfold in Hh. by destruct_or! Hh; simplify_eq. Qed.
Next Obligation.
  intros a r Hr. cbv beta in Hr. destruct (Z.leb_spec 0 a), (Z.ltb_spec a N); simplify_eq/=. by apply Hok.
Qed.
End Direct.

(** ** A table of pages *)

(** Pages of [2 ^ bits] bytes; 32-bit effective addresses. *)
Definition page_table (bits : Z) (pt : Z → option Z) (W : Type) : Translate W := {|
  mask_ea := wrap 32;
  translate a seq := match pt (a / 2 ^ bits) with
                     | Some p => aret (p * 2 ^ bits + a mod 2 ^ bits)
                     | None => athrow "page fault"%string
                     end;
  pre_read _ _ := aret tt;
  post_read _ _ := aret tt;
  pre_write _ _ := aret tt;
  post_write _ _ := aret tt;
  misaligned_read _ _ := aret tt;
  misaligned_write _ _ := aret tt
|}.

Section Paged.
Context {M : Type} {HM : ByteMem M} {HML : ByteMemLaws M} (bits : Z) (pt : Z → option Z).
Context (Hbits : 3 ≤ bits) (Hok : ∀ p q o, pt p = Some q → 0 ≤ o < 2 ^ bits → addr_ok (q * 2 ^ bits + o)).

Lemma page_dw a k : 0 ≤ k → a mod 8 + k < 8 →
  (a + k) / 2 ^ bits = a / 2 ^ bits ∧ (a + k) mod 2 ^ bits = a mod 2 ^ bits + k.
Proof.
  intros Hk H8. replace (2 ^ bits) with (2 ^ (bits - 3) * 8)
    by (replace bits with (bits - 3 + 3) at 2 by lia; by rewrite Z.pow_add_r by lia).
  pose proof (Z.pow_pos_nonneg 2 (bits - 3) ltac:(lia) ltac:(lia)).
  generalize dependent (2 ^ (bits - 3)). intros c Hc.
  pose proof (Z.div_mod a (c * 8) ltac:(lia)) as Ha. pose proof (Z.mod_pos_bound a (c * 8) ltac:(lia)).
  assert ((a mod (c * 8)) mod 8 = a mod 8) by (apply Z.mod_mod_divide; by exists c).
  assert (a mod (c * 8) + k < c * 8) by (generalize dependent (a mod (c * 8)); intros; zlia).
  assert (a + k = c * 8 * (a / (c * 8)) + (a mod (c * 8) + k)) as E by lia.
  split; [symmetry; apply (Z.div_unique _ _ _ (a mod (c * 8) + k)); lia|symmetry; eapply Z.mod_unique; [left|exact E]; lia].
Qed.
#[export] Program Instance paged_laws : TranslateLaws (page_table bits pt (M * list event)) := {
  tl_tr a := (λ p, p * 2 ^ bits + a mod 2 ^ bits) <$> pt (a / 2 ^ bits)
}.
Next Obligation. intros a Ha. apply (uint_mono 32); [lia|]. by apply uint_wrap. Qed.
Next Obligation. intros a Ha. apply wrap_wrap. Qed.
Next Obligation. intros a k Ha Hk H8. apply (mod_dw (2 ^ 32)); done || lia. Qed.
Next Obligation. intros a Ha. unfold mask_ea, page_table, wrap. zlia. Qed.
Next Obligation.
  intros a r Hr. cbv beta in Hr. destruct (pt (a / 2 ^ bits)) as [p|]; simplify_eq/=.
  replace (2 ^ bits) with (2 ^ (bits - 3) * 8)
    by (replace bits with (bits - 3 + 3) at 2 by lia; by rewrite Z.pow_add_r by lia).
  rewrite Z.mul_assoc, Z.add_comm, Z_mod_plus_full. apply Z.mod_mod_divide. by exists (2 ^ (bits - 3)).
Qed.
Next Obligation.
  intros a r k Hr Hk H8. cbv beta in *. destruct (page_dw a k Hk H8) as [-> ->].
  destruct (pt (a / 2 ^ bits)) as [p|]; simplify_eq/=. f_equal. lia.
Qed.
Next Obligation.
  intros s a seq r Hr. cbv beta in *. cbn. by destruct (pt (a / 2 ^ bits)) as [p|]; simplify_eq/=.
Qed.
Next Obligation.
  intros s a seq Ha Hr. cbv beta in *. cbn in *. destruct (pt (wrap 32 a / 2 ^ bits)) as [p|]; [done|]. by eexists.
Qed.
Next Obligation. intros h s a r Hh. cbn in Hh. set_unfold in Hh. by destruct_or! Hh; simplify_eq. Qed.
Next Obligation.
  intros a r Hr. cbv beta in *. destruct (pt (a / 2 ^ bits)) as [p|] eqn:E; simplify_eq/=.
  apply (Hok _ _ _ E), Z.mod_pos_bound. lia.
Qed.
End Paged.

(** ** What an access does *)

Section Claims.
Context {W : Type} {HT : Translate W} {HC : CacheAccess W} {HG : Logger W} {HA : AccessLaws W}.

(** C13: a read of 64, 32 or 16 bits at any effective address, with either order of
    translations and accesses and any split size, returns the big-endian number
    in the bytes at [ea], [ea + 1], ..., each masked and translated for itself; it
    throws exactly when one of these bytes has no translation, and it never
    changes the memory.  The first access must not run past its buffer. *)
Theorem memory_read_refines (Interleaved : bool) (SplitSize : Z) (w : width) (s : W) (F : Z → Z) (ea : Z) :
  wrep s F → 0 ≤ ea →
  (∀ r, tr (mask_ea ea) = Some r → 8 < mask_ea ea mod 8 + nb w → entire w r = true) →
  match locs (nbytes w) ea with
  | Some ls => ∃ s', access_read Interleaved SplitSize w ea s = (s', Ret (fetch F ls)) ∧ wrep s' F
  | None => ∃ s' e, access_read Interleaved SplitSize w ea s = (s', Throw e) ∧ wrep s' F
  end.
Proof.
  intros Hs Hea He. pose proof (read_answer Interleaved SplitSize w F ea Hea He) as Ha.
  unfold read_answers, answers in Ha. destruct (locs (nbytes w) ea) as [ls|]; [|by apply Ha].
  destruct (Ha s Hs) as (s' & v & E & -> & Hs'). by exists s'.
Qed.

(** C14: a write of 64, 32 or 16 bits at a translated effective address stores the
    bytes of the value one after another, at the translations of [ea], [ea + 1],
    ...; when the second part has no translation it throws, and then the memory
    is as before if translations come first, and has the first part of the value
    if translations and accesses are interleaved. *)
Theorem memory_write_refines (Interleaved : bool) (SplitSize : Z) (w : width) (s : W) (F : Z → Z) (ea r v : Z) :
  wrep s F → 0 ≤ ea → mask_ea ea = ea → tr ea = Some r → uint (8 * nb w) v →
  match locs (nbytes w) ea with
  | Some ls => ∃ s', access_write Interleaved SplitSize w ea r v s = (s', Ret tt) ∧ wrep s' (store F ls v)
  | None => ∃ s' e, access_write Interleaved SplitSize w ea r v s = (s', Throw e) ∧
      wrep s' (if Interleaved then write_bytes F (loc r) (nbytes w) v (nb w - ea mod nb w) else F)
  end.
Proof.
  intros Hs Hea Hm Hr Hv. pose proof (write_answer Interleaved SplitSize w F ea r v Hea Hm Hr Hv) as Ha.
  unfold write_answers, answers in Ha. destruct (locs (nbytes w) ea) as [ls|]; [|by apply Ha].
  destruct (Ha s Hs) as (s' & [] & E & _ & Hs'). by exists s'.
Qed.

(** What a write stored, a read of the same width at the same address
    returns, whatever the order and the split sizes of the two are, if no two of
    its bytes are at the same location. *)
Theorem memory_write_read (I1 I2 : bool) (S1 S2 : Z) (w : width) (s : W) (F : Z → Z) (ea r v : Z) (ls : list Z) :
  wrep s F → 0 ≤ ea → mask_ea ea = ea → tr ea = Some r → uint (8 * nb w) v →
  locs (nbytes w) ea = Some ls → NoDup ls → (8 < ea mod 8 + nb w → entire w r = true) →
  ∃ s1 s2, access_write I1 S1 w ea r v s = (s1, Ret tt) ∧ access_read I2 S2 w ea s1 = (s2, Ret v).
Proof.
  intros Hs Hea Hm Hr Hv Hl Hd He.
  pose proof (write_answer I1 S1 w F ea r v Hea Hm Hr Hv) as Hw. unfold write_answers, answers in Hw. rewrite Hl in Hw.
  destruct (Hw s Hs) as (s1 & [] & E1 & _ & Hs1).
  pose proof (read_answer I2 S2 w (store F ls v) ea Hea) as Hrd. unfold read_answers, answers in Hrd. rewrite Hl, Hm in Hrd.
  destruct (Hrd ltac:(intros r' Hr' H8; simplify_eq; by apply He) s1 Hs1) as (s2 & v' & E2 & -> & _).
  exists s1, s2. split; [done|]. rewrite E2, fetch_store; [done..|]. by rewrite (length_locs _ _ _ Hl).
Qed.
End Claims.

(** *** Witnesses: 64 bytes, of which byte [o] is [o], in pages of 16; page 1 is
    real page 3, page 2 is real page 0, page 3 has none. *)

Definition demo_pt (p : Z) : option Z := match p with 0 => Some 2 | 1 => Some 3 | 2 => Some 0 | _ => None end.
Definition demo_mem : SimpleMemory.SimpleMemory := {| SimpleMemory._mem := seqZ 0 64 |}.
Local Abbreviation demo_state := (SimpleMemory.SimpleMemory * list event)%type.
#[local] Existing Instance addr_invariant.
#[local] Existing Instance simple_mem.
Lemma demo_ok p q o : demo_pt p = Some q → 0 ≤ o < 2 ^ 4 → 0 ≤ q * 2 ^ 4 + o < 64.
Proof. intros Hp Ho. assert (0 ≤ q ≤ 3); [|lia]. unfold demo_pt in Hp. repeat case_match; simplify_eq; lia. Qed.
Definition demo_bytes : ByteMemLaws SimpleMemory.SimpleMemory := simple_laws 64 ltac:(lia) eq_refl.
Definition demo_translate : TranslateLaws (H0 := demo_bytes) (page_table 4 demo_pt demo_state) :=
  paged_laws (HML := demo_bytes) 4 demo_pt ltac:(lia) demo_ok.
Definition demo_laws := local_laws (HML := demo_bytes) (page_table 4 demo_pt demo_state) (TL := demo_translate).
Lemma demo_rep : wrep (AccessLaws := demo_laws) (demo_mem, []) (λ o, o).
Proof.
  cbn. split.
  - split; [|by vm_compute]. apply Forall_seqZ. intros x Hx. unfold uint. lia.
  - by vm_compute.
  - intros o Ho. unfold byte_at. cbn [place addr_invariant SimpleMemory._mem demo_mem].
    apply list_lookup_total_correct. rewrite lookup_seqZ_lt by lia. f_equal. lia.
Qed.

(** A read across two pages; one whose second page has no translation. *)
Lemma memory_read_refines_witness :
  (∃ s', access_read (HT := page_table 4 demo_pt demo_state) (HC := simple_cache) (HG := event_log)
     true 4 W64 12 (demo_mem, []) = (s', Ret 0x2c2d2e2f30313233)) ∧
  (∃ s' e, access_read (HT := page_table 4 demo_pt demo_state) (HC := simple_cache) (HG := event_log)
     false 8 W32 45 (demo_mem, []) = (s', Throw e)).
Proof.
  split.
  - destruct (memory_read_refines (HA := demo_laws) true 4 W64 (demo_mem, []) (λ o, o) 12 demo_rep) as (s' & E & _);
      [lia|intros r Hr _; revert Hr; vm_compute; intros [= <-]; reflexivity|].
    exists s'. rewrite E. vm_compute. reflexivity.
  - destruct (memory_read_refines (HA := demo_laws) false 8 W32 (demo_mem, []) (λ o, o) 45 demo_rep) as (s' & e & E & _);
      [lia|intros r Hr _; revert Hr; vm_compute; intros [= <-]; reflexivity|].
    by exists s', e.
Defined.
Lemma memory_write_refines_witness : ∃ s' e,
  access_write (HT := page_table 4 demo_pt demo_state) (HC := simple_cache) (HG := event_log)
     false 4 W64 44 12 0x1122334455667788 (demo_mem, []) = (s', Throw e) ∧
  wrep (AccessLaws := demo_laws) s' (λ o, o).
Proof.
  apply (memory_write_refines (HA := demo_laws) false 4 W64 (demo_mem, []) (λ o, o) 44 12 0x1122334455667788 demo_rep);
    [lia|reflexivity|reflexivity|vm_compute; split; [discriminate|reflexivity]].
Defined.
Lemma memory_write_read_witness : ∃ s1 s2,
  access_write (HT := page_table 4 demo_pt demo_state) (HC := simple_cache) (HG := event_log)
     false 4 W64 13 45 0x1122334455667788 (demo_mem, []) = (s1, Ret tt) ∧
  access_read (HT := page_table 4 demo_pt demo_state) (HC := simple_cache) (HG := event_log)
     true 8 W64 13 s1 = (s2, Ret 0x1122334455667788).
Proof.
  apply (memory_write_read (HA := demo_laws) false true 4 8 W64 (demo_mem, []) (λ o, o) 13 45 0x1122334455667788
    [45; 46; 47; 48; 49; 50; 51; 52] demo_rep);
    [lia|reflexivity|reflexivity|vm_compute; split; [discriminate|reflexivity]|reflexivity| |reflexivity].
  apply (bool_decide_unpack _). reflexivity.
Defined.

(** ** Reads at the end of a buffer *)

Section Breaks.
Context {W : Type} {HT : Translate W} {HC : CacheAccess W} {HG : Logger W} {HA : AccessLaws W}.

Definition breaks {A} (F : Z → Z) (m : acc W A) : Prop := ∀ s, wrep s F → snd (m s) = Undefined.
Lemma breaks_first {A B} F (m : acc W A) (k : A → acc W B) : breaks F m → breaks F (abind m k).
Proof. intros Hm s Hs. specialize (Hm s Hs). unfold abind. by destruct (m s) as [s' [| | |]]. Qed.
Lemma breaks_bind {A B} F F1 (m : acc W A) (k : A → acc W B) Q :
  runs F m Q F1 → (∀ v, Q v → breaks F1 (k v)) → breaks F (abind m k).
Proof.
  intros Hm Hk s Hs. destruct (Hm s Hs) as (s1 & v & E & HQ & Hs1). unfold abind. rewrite E. by apply Hk.
Qed.
Lemma breaks_assoc {A B C} F (m : acc W A) (f : A → acc W B) (k : B → acc W C) :
  breaks F (abind m (λ x, abind (f x) k)) → breaks F (abind (abind m f) k).
Proof. intros Hr s Hs. rewrite abind_assoc. by apply Hr. Qed.
End Breaks.

Ltac abreak :=
  repeat lazymatch goal with
  | |- breaks _ (abind (abind _ _) _) => apply breaks_assoc
  | |- breaks _ (abind _ _) =>
      first [apply breaks_first; solve [eauto with acc]
            |eapply breaks_bind; [solve [eauto with acc]|cbv beta; intros ? ?; subst]]
  end.

Section PastEnd.
Context {M : Type} {HM : ByteMem M} {HML : ByteMemLaws M} (T : Translate (M * list event)) {TL : TranslateLaws T}.

Lemma breaks_read F w seq a r : tl_tr a = Some r → whole w r = false →
  breaks (HA := local_laws T) F (cache_read (CacheAccess := simple_cache) w seq a r).
Proof.
  intros Hr Hw [m l] Hs. cbn in *. pose proof (mem_read_law w m F r Hs (tl_ok a r Hr)) as Hl. rewrite Hw in Hl.
  unfold on_mem. cbn [fst]. by rewrite Hl.
Qed.
#[local] Hint Resolve breaks_read : acc.

(** A read that crosses a double-word reads its first part with the full
    width; where the buffer ends before that (the end of a page of a sparse
    memory, of a block, of a local memory), the read is undefined, also when all
    of its bytes have a translation and are in the memory. *)
Theorem misaligned_read_past_end (Interleaved : bool) (SplitSize : Z) (w : width) (m : M) (log : list event)
    (F : Z → Z) (ea r r2 : Z) :
  mem_rep m F → 0 ≤ ea → tl_tr (mask_ea ea) = Some r → 8 < mask_ea ea mod 8 + nb w → whole w r = false →
  tl_tr (second (HT := T) w (mask_ea ea)) = Some r2 →
  snd (access_read (HC := simple_cache) (HG := event_log) Interleaved SplitSize w ea (m, log)) = Undefined.
Proof.
  intros Hm Hea Hr H8 Hw Hr2. unfold second in Hr2.
  assert (breaks (HA := local_laws T) F
    (access_read (HC := simple_cache) (HG := event_log) Interleaved SplitSize w ea)) as Hb; [|by apply Hb].
  change (tr (AccessLaws := local_laws T) (mask_ea ea) = Some r) in Hr.
  pose proof (Z.mod_pos_bound (mask_ea ea) 8 ltac:(lia)).
  destruct w; cbn [access_read split_mask] in *;
    unfold read64, read64_interleaved, read64_noninterleaved, read64_helper_pre_interleaved,
      read64_helper_noninterleaved, read32, read32_interleaved, read32_noninterleaved,
      misaligned_read32_noninterleaved, read16, read16_interleaved, read16_noninterleaved,
      misaligned_read16_interleaved, misaligned_read16_noninterleaved;
    rewrite ?land_3_cases; nb_consts;
    destruct (land_7_cases (mask_ea ea)) as [[H' E]|[[H' E]|[[H' E]|[[H' E]|[[H' E]|[[H' E]|[[H' E]|[H' E]]]]]]]];
    rewrite ?E; destruct Interleaved, (SplitSize =? 8), (Z.eqb_spec (mask_ea ea mod 4) 0), (Z.eqb_spec (mask_ea ea mod 4) 3);
    cbn [negb Z.eqb Pos.eqb]; try lia; try (exfalso; zlia); cbv zeta; abreak.
Qed.
End PastEnd.

(** The last bytes of a local memory of 64 bytes: byte 60 to 63, then 0 to 3. *)
Lemma misaligned_read_past_end_witness :
  snd (access_read (HT := memory_translate 64 demo_state) (HC := simple_cache) (HG := event_log)
    false 4 W64 60 (demo_mem, [])) = Undefined.
Proof.
  apply (misaligned_read_past_end (HML := demo_bytes) (memory_translate 64 demo_state)
    (TL := direct_laws (HML := demo_bytes) 64 ltac:(lia) eq_refl ltac:(done)) false 4 W64 demo_mem [] (λ o, o) 60 60 0);
    [exact demo_rep|lia|reflexivity|vm_compute; reflexivity|reflexivity|reflexivity].
Defined.
