(* ===== verification/MemoryInterface.v ===== *)
(** * Memory accesses of any size

    [src/iss/MemoryInterface.h]: [read_internal] and [write_internal], which move a
    bit vector of any number of bytes between the core and the memory, word by
    word, and [mem_read_sized] and [mem_write_sized], which choose the width at run
    time and may swap bytes.  [mem_bits] is [intbv] ([USE_INTBV]).  An object of the
    template with [NB] bytes and its specialisations for 8, 4, 3, 2, 1 and 0 bytes
    is one function of [NB]. *)
From stdpp Require Import prelude strings list.
From Stdlib Require Import ZArith Lia.
From S2P Require Import Prelude.
From S2P Require Import BitTwiddles.
From S2P Require Import WordArith.
From S2P Require Import WordDivide.
From S2P Require Import IntbvBase.
From S2P Require Import IntbvLaws.
From S2P Require Import IntbvArray.
From S2P Require Import Intbv.
From S2P Require Import IntbvSpec.
From S2P Require Import IntbvCorrect.
From S2P Require Import MemBytes.
From S2P Require Import SparseMemory.
From S2P Require Import MemoryAccess.
From S2P Require Import MemoryAccessCorrect.
From S2P Require Import MemoryLocal.

Local Open Scope Z_scope.

(** A call without effects on the core. *)
Definition alift {W A} (o : outcome A) : acc W A := λ s, (s, o).
(** [for (int i = from; i != from + n; ++i)] *)
Fixpoint afor {W A} (n : nat) (i : Z) (body : Z → A → acc W A) (a : A) : acc W A :=
  match n with
  | O => aret a
  | S n => do* a := body i a in afor n (i + 1) body a
  end.

Section Definitions.
Context {W : Type} {HT : Translate W} {HC : CacheAccess W} {HG : Logger W}.
Context (Interleaved : bool) (SplitSize : Z) (junk : Z).

(** ** Reads *)

Definition read_internal_any (NB addr : Z) : acc W (intbv (NB * 8)) :=
  let nw := NB / 4 in
  let r : intbv (NB * 8) := _reset (BaseOps := intbv_ops junk (NB * 8)) in
  do* r := afor (Z.to_nat nw) 0 (λ i r,
    do* v := read32 Interleaved SplitSize (addr_add addr (4 * i)) in
    alift (set_range junk r (i * 32) (i * 32 + 31) (of_uint64 junk (NB * 8) v))) r in
  let case2 r :=
    do* v := read16 Interleaved SplitSize (addr_add addr (4 * nw)) in
    alift (set_range junk r (nw * 32) (nw * 32 + 15) (of_uint64 junk (NB * 8) v)) in
  match NB mod 4 with
  | 3 =>
      do* v := read8 (addr_add addr (4 * nw + 2)) in
      do* x := alift (of_int32 junk (NB * 8) v) in
      do* r := alift (set_range junk r (nw * 32 + 16) (nw * 32 + 23) x) in
      case2 r
  | 2 => case2 r
  | 1 =>
      do* v := read8 (addr_add addr (4 * nw)) in
      do* x := alift (of_int32 junk (NB * 8) v) in
      alift (set_range junk r (nw * 32) (nw * 32 + 7) x)
  | _ => aret r
  end.
Definition read_internal (NB addr : Z) : acc W (intbv (NB * 8)) :=
  match NB with
  | 8 => do* v := read64 Interleaved addr in aret (of_uint64 junk (NB * 8) v)
  | 4 => do* v := read32 Interleaved SplitSize addr in aret (of_uint64 junk (NB * 8) v)
  | 3 =>
      let r : intbv (NB * 8) := _reset (BaseOps := intbv_ops junk (NB * 8)) in
      do* v := read16 Interleaved SplitSize addr in
      do* r := alift (set_range junk r 0 15 (of_uint64 junk (NB * 8) v)) in
      do* v := read8 (addr_add addr 2) in
      do* x := alift (of_int32 junk (NB * 8) v) in
      alift (set_range junk r 16 23 x)
  | 2 => do* v := read16 Interleaved SplitSize addr in aret (of_uint64 junk (NB * 8) v)
  | 1 => do* v := read8 addr in alift (of_int32 junk (NB * 8) v)
  | 0 => do* v := read0 addr in alift (of_int32 junk (NB * 8) v)
  | _ => read_internal_any NB addr
  end.

(** ** Writes *)

(** [value.get(start,stop).uint32()] *)
Definition get32 {Nb} (value : intbv Nb) (start stop : Z) : outcome Z :=
  let! x := get_range junk value start stop in Ret (uint32 junk x).

Definition write_internal_any (NB Nb ea ra : Z) (value : intbv Nb) : acc W unit :=
  let nw := NB / 4 in
  do* p := afor (Z.to_nat nw) 0 (λ i p,
    let '(ea, ra) := p in
    do* ra := (if i =? 0 then aret ra else translate ea 0) in
    do* v := alift (get32 value (i * 32) (i * 32 + 31)) in
    write32 Interleaved SplitSize ea ra v ;*
    aret (mask_ea (addr_add ea 4), ra)) (ea, ra) in
  let ea := fst p in
  let case2 :=
    let ea := mask_ea ea in
    do* ra := translate ea 0 in
    do* v := alift (get32 value (nw * 32) (nw * 32 + 15)) in
    write16 Interleaved SplitSize ea ra (wrap 16 v) in
  match NB mod 4 with
  | 3 =>
      let ea2 := mask_ea (addr_add ea 2) in
      do* ra2 := translate ea2 0 in
      do* v := alift (get32 value (nw * 32 + 16) (nw * 32 + 23)) in
      write8 ea2 ra2 (wrap 8 v) ;*
      case2
  | 2 => case2
  | 1 =>
      let ea := mask_ea ea in
      do* ra := translate ea 0 in
      do* v := alift (get32 value (nw * 32) (nw * 32 + 7)) in
      write8 ea ra (wrap 8 v)
  | _ => aret tt
  end.
Definition write_internal (NB Nb ea ra : Z) (value : intbv Nb) : acc W unit :=
  match NB with
  | 8 => write64 Interleaved ea ra (uint64 junk value)
  | 4 => write32 Interleaved SplitSize ea ra (uint32 junk value)
  | 3 =>
      do* v := alift (get32 value 0 15) in
      write16 Interleaved SplitSize ea ra (wrap 16 v) ;*
      let ea2 := mask_ea (addr_add ea 2) in
      do* ra2 := translate ea2 0 in
      do* v := alift (get32 value 16 23) in
      write8 ea2 ra2 (wrap 8 v)
  | 2 => write16 Interleaved SplitSize ea ra (wrap 16 (uint32 junk value))
  | 1 => write8 ea ra (wrap 8 (uint32 junk value))
  | 0 => write0 ea ra (wrap 8 (uint32 junk value))
  | _ => write_internal_any NB Nb ea ra value
  end.
End Definitions.

(** ** Sizes chosen at run time *)

Section Sized.
Context {W : Type} {HT : Translate W} {HC : CacheAccess W} {HG : Logger W}.

(** [MemoryAccess<Translate,CacheAccess,Logger,true>] *)
Local Abbreviation ma_read64 := (read64 true).
Local Abbreviation ma_read32 := (read32 true 4).
Local Abbreviation ma_read16 := (read16 true 4).
Local Abbreviation ma_write64 := (write64 true).
Local Abbreviation ma_write32 := (write32 true 4).
Local Abbreviation ma_write16 := (write16 true 4).

Definition mem_write_sized (ByteSwap : bool) (ea value size : Z) : acc W unit :=
  let ea := mask_ea ea in
  do* ra := translate ea 0 in
  match size with
  | 64 => ma_write64 ea ra (if ByteSwap then swab64 value else value)
  | 32 => ma_write32 ea ra (if ByteSwap then swab32 (wrap 32 value) else wrap 32 value)
  | 24 =>
      let value := if ByteSwap then swab32 (wrap 32 (shl 64 value 8)) else value in
      ma_write16 ea ra (wrap 16 (shr 64 value 8)) ;*
      write8 (addr_add ea 2) (addr_add ra 2) (Z.land value 0xff)
  | 16 => ma_write16 ea ra (if ByteSwap then swab16 (wrap 16 value) else wrap 16 value)
  | 8 => write8 ea ra (wrap 8 value)
  | _ => athrow "Unsupported memory-write size"%string
  end.

Definition mem_read_sized (ByteSwap : bool) (ea size : Z) : acc W Z :=
  match size with
  | 64 => do* d := ma_read64 ea in aret (if ByteSwap then swab64 d else d)
  | 32 => do* d := ma_read32 ea in aret (if ByteSwap then swab32 (wrap 32 d) else d)
  | 24 =>
      do* tmp := ma_read16 ea in
      do* b := read8 (addr_add ea 2) in
      let tmp := Z.lor (shl 32 tmp 8) b in
      aret (if ByteSwap then swab32 (shl 32 tmp 8) else tmp)
  | 16 => do* d := ma_read16 ea in aret (if ByteSwap then swab16 (wrap 16 d) else d)
  | 8 => read8 ea
  | _ => athrow "Unsupported memory-write size"%string
  end.
End Sized.

(** ** Reads *)

Ltac closed_pows :=
  repeat match goal with
  | |- context [2 ^ ?e] => lazymatch e with Zpos _ => fail | Z0 => fail | _ =>
      let v := eval vm_compute in e in lazymatch v with Zpos _ => change e with v | Z0 => change e with v end end
  end; change (2 ^ 0) with 1.
(** The same number, written differently. *)
Ltac repr_ring H :=
  lazymatch type of H with
  | repr _ ?a => lazymatch goal with |- repr _ ?b => replace b with a by (first [ring|closed_pows; lia]); exact H end
  end.

Section ReadAny.
Context {W : Type} {HT : Translate W} {HC : CacheAccess W} {HG : Logger W} {HA : AccessLaws W}.
Context (Hhom : ∀ a k, 0 ≤ a → 0 ≤ k → mask_ea (addr_add (mask_ea a) k) = mask_ea (addr_add a k)).

(** Bytes further on. *)
Lemma addr_add_assoc a b c : addr_add (addr_add a b) c = addr_add a (b + c).
Proof. unfold addr_add, wrap. rewrite Zplus_mod_idemp_l. f_equal. lia. Qed.
Lemma locs_add n m ea : 0 ≤ ea →
  locs (n + m) ea = l1 ← locs n ea; l2 ← locs m (addr_add ea (Z.of_nat n)); Some (l1 ++ l2).
Proof using Hhom.
  intros Hea. unfold locs. rewrite seq_app, mapM_app, Nat.add_0_l, (seq_offset n m). f_equal.
  assert (mapM (λ k, loc <$> tr (byte_ea ea (Z.of_nat k))) (Nat.add n <$> seq 0 m) =
    mapM (λ k, loc <$> tr (byte_ea (addr_add ea (Z.of_nat n)) (Z.of_nat k))) (seq 0 m)) as ->; [|done].
  induction (seq 0 m) as [|j js IH]; [done|]. cbn [fmap list_fmap mapM]. cbn. rewrite IH.
  unfold byte_ea. rewrite !Hhom, addr_add_assoc, Nat2Z.inj_add by (apply addr_add_nonneg || lia). done.
Qed.

(** A read of the bytes at [ls], or a fault; the memory stays. *)
Definition reads {A} (F : Z → Z) (m : acc W A) (Q : list Z → A → Prop) (ls : option (list Z)) : Prop :=
  answers F m Q (λ _, F) F ls.

Lemma reads_ret {A} F (v : A) (Q : list Z → A → Prop) ls : Q ls v → reads F (aret v) Q (Some ls).
Proof. apply runs_ret. Qed.
Lemma reads_weaken {A} F (m : acc W A) (Q Q' : list Z → A → Prop) ls :
  reads F m Q ls → (∀ l v, ls = Some l → Q l v → Q' l v) → reads F m Q' ls.
Proof.
  unfold reads, answers. destruct ls as [l|]; [|done]. intros Hm HQ. eapply runs_weaken; [exact Hm|auto|done].
Qed.
Lemma reads_bind {A B} F (m : acc W A) (k : A → acc W B) Q1 Q ls1 ls2 :
  reads F m Q1 ls1 →
  (∀ l1 v, ls1 = Some l1 → Q1 l1 v → reads F (k v) (λ l2, Q (l1 ++ l2)) ls2) →
  reads F (abind m k) Q (l1 ← ls1; l2 ← ls2; Some (l1 ++ l2)).
Proof.
  unfold reads, answers. destruct ls1 as [l1|]; cbn [mbind option_bind]; [|intros Hm _; by apply stops_first].
  intros Hm Hk. specialize (Hk l1). destruct ls2 as [l2|]; cbn [mbind option_bind].
  - eapply runs_bind; [exact Hm|]. auto.
  - eapply stops_bind; [exact Hm|]. auto.
Qed.
Lemma reads_bind_rev {A B} F (m : acc W A) (k : A → acc W B) Q1 Q ls1 ls2 :
  reads F m Q1 ls1 →
  (∀ l1 v, ls1 = Some l1 → Q1 l1 v → reads F (k v) (λ l2, Q (l2 ++ l1)) ls2) →
  reads F (abind m k) Q (l2 ← ls2; l1 ← ls1; Some (l2 ++ l1)).
Proof.
  unfold reads, answers. destruct ls1 as [l1|]; cbn [mbind option_bind].
  - intros Hm Hk. specialize (Hk l1). destruct ls2 as [l2|]; cbn [mbind option_bind].
    + eapply runs_bind; [exact Hm|]. auto.
    + eapply stops_bind; [exact Hm|]. auto.
  - intros Hm _. destruct ls2; cbn [mbind option_bind]; by apply stops_first.
Qed.
Lemma reads_lift {A B} F (o : outcome A) (k : A → acc W B) Q v ls :
  o = Ret v → reads F (k v) Q ls → reads F (abind (alift o) k) Q ls.
Proof. by intros ->. Qed.
Lemma reads_map {A B} F (m : acc W A) (k : A → acc W B) Q1 Q ls :
  reads F m Q1 ls → (∀ l v, ls = Some l → Q1 l v → ∃ u, (∀ s, k v s = (s, Ret u)) ∧ Q l u) →
  reads F (abind m k) Q ls.
Proof.
  unfold reads, answers. destruct ls as [l|]; [|intros Hm _; by apply stops_first].
  intros Hm Hk. eapply runs_bind; [exact Hm|]. intros v Hv. destruct (Hk l v eq_refl Hv) as (u & E & HQ).
  intros s Hs. exists s, u. by rewrite E.
Qed.

Context (Interleaved : bool) (SplitSize : Z) (junk : Z) {Hj : byte junk}.
Context (F : Z → Z) (HF : ∀ a r, tr a = Some r → uint 8 (F (loc r))).

Lemma locs_digits n ea ls : locs n ea = Some ls → digits 8 (F <$> ls).
Proof using HF.
  intros E%mapM_Some_1. apply Forall_fmap. induction E as [|k l ks ls E Es IH]; [done|]. apply Forall_cons. split; [|done].
  destruct (tr (byte_ea ea (Z.of_nat k))) as [r|] eqn:Hr; [|done]. cbn in E. simplify_eq. cbn. by apply (HF _ r Hr).
Qed.
Lemma fetch_uint n ea ls : locs n ea = Some ls → uint (8 * Z.of_nat n) (fetch F ls).
Proof using HF.
  intros E. pose proof (beval_bound 8 ltac:(lia) _ (locs_digits n ea ls E)) as Hb. rewrite length_fmap in Hb.
  by rewrite (length_locs _ _ _ E) in Hb.
Qed.
Lemma fetch_app l1 l2 : fetch F (l1 ++ l2) = fetch F l1 * 2 ^ (8 * Z.of_nat (length l2)) + fetch F l2.
Proof. unfold fetch. by rewrite fmap_app, beval_app, length_fmap. Qed.

(** Writing a field between the bits above it and the bits below it. *)
Lemma set_field_between nb start stop v low y : 0 ≤ start ≤ stop → stop < nb → 0 ≤ v →
  uint (nb - 1 - stop) low → uint (stop - start + 1) y →
  set_field nb start stop (v * 2 ^ (nb - start) + low) y = v * 2 ^ (nb - start) + y * 2 ^ (nb - 1 - stop) + low.
Proof.
  intros H1 H2 Hv Hl Hy. set (k := nb - 1 - stop) in *. set (n := stop - start + 1) in *.
  replace (nb - start) with (n + k) by lia. unfold set_field. fold n k. rewrite (wrap_small n y) by done.
  assert (v * 2 ^ (n + k) + low = Z.lor low (v * 2 ^ n * 2 ^ k)) as E1.
  { rewrite lor_add by (done || lia). rewrite <- Z.mul_assoc, <- Z.pow_add_r by lia. lia. }
  assert (v * 2 ^ (n + k) + y * 2 ^ k + low = Z.lor low (Z.lor y (v * 2 ^ n) * 2 ^ k)) as E2.
  { rewrite lor_add, lor_add by (done || lia). rewrite Z.pow_add_r by lia. lia. }
  rewrite E1, E2. bitblast.
Qed.

Context (NB ea : Z) {Hwf : wf (NB * 8)} (Hea : 0 ≤ ea).
Context (Hent : ∀ w k r, 0 ≤ k < NB → tr (mask_ea (addr_add ea k)) = Some r → entire w r = true).

Lemma reads_at w k : 0 ≤ k < NB →
  reads F (access_read Interleaved SplitSize w (addr_add ea k)) (λ l v, v = fetch F l) (locs (nbytes w) (addr_add ea k)).
Proof using Hent.
  intros Hk. apply read_answer; [apply addr_add_nonneg|]. intros r Hr _. by apply (Hent w k r).
Qed.

(** Storing a number that was read in a field of the result. *)
Lemma put_field (r b : intbv (NB * 8)) v low y start stop : 0 ≤ start ≤ stop → stop < NB * 8 → 0 ≤ v →
  uint (NB * 8 - 1 - stop) low → uint (stop - start + 1) y → repr b (wrap (NB * 8) y) →
  repr r (v * 2 ^ (NB * 8 - start) + low) →
  returns (set_range junk r start stop b) (v * 2 ^ (NB * 8 - start) + y * 2 ^ (NB * 8 - 1 - stop) + low).
Proof using Hj Hwf.
  intros H1 H2 Hv Hl Hy Hb Hr. rewrite <- set_field_between by done.
  rewrite wrap_small in Hb by (apply (uint_mono (stop - start + 1)); [lia|done]). by apply (set_range_in junk).
Qed.

Lemma read_words n i (r : intbv (NB * 8)) x : 0 ≤ i → 4 * (i + Z.of_nat n) ≤ NB → 0 ≤ x →
  repr r (x * 2 ^ (NB * 8 - i * 32)) →
  reads F (afor n i (λ i r,
      do* v := read32 Interleaved SplitSize (addr_add ea (4 * i)) in
      alift (set_range junk r (i * 32) (i * 32 + 31) (of_uint64 junk (NB * 8) v))) r)
    (λ ls r', repr r' ((x * 2 ^ (32 * Z.of_nat n) + fetch F ls) * 2 ^ (NB * 8 - (i + Z.of_nat n) * 32)))
    (locs (4 * n) (addr_add ea (4 * i))).
Proof using All.
  revert i r x. induction n as [|n IH]; intros i r x Hi Hn Hx Hr.
  - cbn [afor Nat.mul]. apply reads_ret. unfold fetch. cbn [fmap list_fmap beval].
    by replace ((x * 2 ^ (32 * Z.of_nat 0) + 0) * 2 ^ (NB * 8 - (i + Z.of_nat 0) * 32)) with (x * 2 ^ (NB * 8 - i * 32))
      by (change (32 * Z.of_nat 0) with 0; rewrite Z.pow_0_r, Z.add_0_r, Z.add_0_r; lia).
  - cbn [afor]. replace (4 * S n)%nat with (4 + 4 * n)%nat by lia.
    rewrite locs_add, addr_add_assoc by apply addr_add_nonneg.
    eapply reads_bind with (Q1 := λ l r', repr r' ((x * 2 ^ 32 + fetch F l) * 2 ^ (NB * 8 - (i + 1) * 32))).
    + eapply reads_map; [apply (reads_at W32 (4 * i)); lia|]. intros l v El ->. cbn [nbytes] in El.
      pose proof (fetch_uint 4 _ l El) as Hu.
      destruct (put_field r (of_uint64 junk (NB * 8) (fetch F l)) x 0 (fetch F l) (i * 32) (i * 32 + 31)) as (r' & E & Hr');
        try lia.
      * split; [lia|apply Z.pow_pos_nonneg; lia].
      * by replace (i * 32 + 31 - i * 32 + 1) with 32 by lia.
      * apply of_uint64_spec; [done..|]. apply (uint_mono 32); [lia|done].
      * by rewrite Z.add_0_r.
      * exists r'. split; [intros s; unfold alift; by rewrite E|]. rewrite Z.add_0_r in Hr'.
        replace (NB * 8 - i * 32) with (32 + (NB * 8 - (i + 1) * 32)) in Hr' by lia.
        rewrite Z.pow_add_r in Hr' by lia. replace (NB * 8 - 1 - (i * 32 + 31)) with (NB * 8 - (i + 1) * 32) in Hr' by lia.
        repr_ring Hr'.
    + intros l1 r' El Hr'. pose proof (fetch_uint 4 _ l1 El) as [Hu _].
      replace (4 * i + Z.of_nat 4) with (4 * (i + 1)) by lia.
      eapply reads_weaken; [apply (IH (i + 1) r' (x * 2 ^ 32 + fetch F l1)); [lia..|done]|].
      cbv beta. intros l2 r2 El2. rewrite fetch_app, (length_locs _ _ _ El2).
      replace (i + 1 + Z.of_nat n) with (i + Z.of_nat (S n)) by lia.
      replace (8 * Z.of_nat (4 * n)) with (32 * Z.of_nat n) by lia.
      replace (32 * Z.of_nat (S n)) with (32 + 32 * Z.of_nat n) by lia. rewrite Z.pow_add_r by lia.
      intros H. repr_ring H.
Qed.

Lemma reads8_at k : reads F (read8 (addr_add ea k)) (λ l v, v = fetch F l) (locs 1 (addr_add ea k)).
Proof using Type. apply read8_answer, addr_add_nonneg. Qed.

(** The same, for [n] bits above the last [k] ones. *)
Lemma put_bits n k (r b : intbv (NB * 8)) v low y start stop :
  start = NB * 8 - (n + k) → stop = start + (n - 1) → 0 ≤ start → 0 < n → 0 ≤ k → 0 ≤ v →
  uint k low → uint n y → repr b (wrap (NB * 8) y) → repr r (v * 2 ^ (n + k) + low) →
  returns (set_range junk r start stop b) (v * 2 ^ (n + k) + y * 2 ^ k + low).
Proof using Hj Hwf.
  intros E1 E2 H1 H2 H3 H4 H5 H6 H7 H8.
  assert (n + k = NB * 8 - start) as En by lia. assert (k = NB * 8 - 1 - stop) as Ek by lia.
  rewrite En in H8 |- *. rewrite Ek in H5 |- *. apply put_field; [lia..|done| |done|done].
  by replace (stop - start + 1) with n by lia.
Qed.
Lemma of_uint64_repr n y : (n ≤ 8)%nat → uint (8 * Z.of_nat n) y → repr (of_uint64 junk (NB * 8) y) (wrap (NB * 8) y).
Proof using Hj Hwf. intros Hn Hy. apply of_uint64_spec; [done..|]. apply (uint_mono (8 * Z.of_nat n)); [lia|done]. Qed.
Lemma of_byte_repr y : uint 8 y → returns (of_int32 junk (NB * 8) y) (wrap (NB * 8) y).
Proof using Hj Hwf. intros [H0 H1]. apply of_int32_spec; [done..|]. lia. Qed.

Lemma read_internal_any_reads : uint 64 ea →
  reads F (read_internal_any Interleaved SplitSize junk NB ea) (λ ls r, repr r (fetch F ls)) (locs (Z.to_nat NB) ea).
Proof using All.
  intros Hu. unfold read_internal_any. set (nw := NB / 4). set (m := NB mod 4).
  assert (NB = 4 * nw + m ∧ 0 ≤ m < 4) as [HN Hm] by (subst nw m; zlia).
  assert (0 < NB ≤ 65536) as HNB by (unfold wf in Hwf; lia).
  assert (addr_add ea 0 = ea) as Ea by (unfold addr_add; rewrite Z.add_0_r; by apply wrap_small).
  replace (Z.to_nat NB) with (4 * Z.to_nat nw + Z.to_nat m)%nat by lia.
  rewrite locs_add by done. replace (Z.of_nat (4 * Z.to_nat nw)) with (4 * nw) by lia.
  eapply reads_bind with (Q1 := λ l r, length l = (4 * Z.to_nat nw)%nat ∧ 0 ≤ fetch F l ∧
    repr r (fetch F l * 2 ^ (NB * 8 - nw * 32))).
  { pose proof (read_words (Z.to_nat nw) 0 (_reset (BaseOps := intbv_ops junk (NB * 8))) 0) as Hw.
    rewrite Z.mul_0_r, Ea in Hw. eapply reads_weaken; [apply Hw; [lia..|apply repr_0; done]|].
    cbv beta. intros l r El Hr. rewrite (length_locs _ _ _ El). split; [done|].
    split; [apply (fetch_uint _ _ _ El)|]. rewrite !Z.add_0_l, Z2Nat.id in Hr by lia. exact Hr. }
  intros l1 r E1 (_ & Hf1 & Hr).
  assert (NB * 8 - nw * 32 = 8 * m) as Em by lia. rewrite Em in Hr.
  assert (m = 0 ∨ m = 1 ∨ m = 2 ∨ m = 3) as [Em'|[Em'|[Em'|Em']]] by lia; rewrite Em' in *.
  - apply reads_ret. rewrite app_nil_r. by rewrite Z.mul_1_r in Hr.
  - eapply reads_map; [apply reads8_at|]. intros l2 y E2 ->. pose proof (fetch_uint 1 _ _ E2) as Hu2.
    destruct (of_byte_repr (fetch F l2) Hu2) as (b & Eb & Hb).
    destruct (put_bits 8 0 r b (fetch F l1) 0 (fetch F l2) (nw * 32) (nw * 32 + 7)) as (r' & Er & Hr'); try (lia || done).
    { by rewrite Z.add_0_r. }
    exists r'. split; [intros s; unfold abind, alift; by rewrite Eb, Er|].
    rewrite fetch_app, (length_locs _ _ _ E2). repr_ring Hr'.
  - eapply reads_map; [apply (reads_at W16); lia|]. intros l2 y E2 ->. pose proof (fetch_uint 2 _ _ E2) as Hu2.
    destruct (put_bits 16 0 r (of_uint64 junk (NB * 8) (fetch F l2)) (fetch F l1) 0 (fetch F l2) (nw * 32) (nw * 32 + 15))
      as (r' & Er & Hr'); try (lia || done).
    { by apply (of_uint64_repr 2); [lia|]. }
    { by rewrite Z.add_0_r. }
    exists r'. split; [intros s; unfold alift; by rewrite Er|].
    rewrite fetch_app, (length_locs _ _ _ E2). repr_ring Hr'.
  - change (Z.to_nat 3) with (2 + 1)%nat. rewrite (locs_add 2 1), addr_add_assoc by apply addr_add_nonneg.
    eapply reads_bind_rev with (Q1 := λ l v, v = fetch F l); [apply reads8_at|]. intros l3 y E3 ->.
    pose proof (fetch_uint 1 _ _ E3) as Hu3. destruct (of_byte_repr (fetch F l3) Hu3) as (b & Eb & Hb).
    destruct (put_bits 8 0 r b (fetch F l1 * 2 ^ 16) 0 (fetch F l3) (nw * 32 + 16) (nw * 32 + 23)) as (r' & Er & Hr');
      try (lia || done).
    { repr_ring Hr. }
    eapply reads_lift; [exact Eb|]. eapply reads_lift; [exact Er|].
    eapply reads_map; [apply (reads_at W16); lia|]. intros l2 y E2 ->. pose proof (fetch_uint 2 _ _ E2) as Hu2.
    destruct (put_bits 16 8 r' (of_uint64 junk (NB * 8) (fetch F l2)) (fetch F l1) (fetch F l3) (fetch F l2)
      (nw * 32) (nw * 32 + 15)) as (r2 & Er2 & Hr2); try (lia || done).
    { by apply (of_uint64_repr 2); [lia|]. }
    { repr_ring Hr'. }
    exists r2. split; [intros s; unfold alift; by rewrite Er2|].
    rewrite !fetch_app, length_app, (length_locs _ _ _ E2), (length_locs _ _ _ E3). repr_ring Hr2.
Qed.
End ReadAny.

Lemma read_internal_other {W} {HT : Translate W} {HC : CacheAccess W} {HG : Logger W} I S junk NB ea :
  NB ∉ [0; 1; 2; 3; 4; 8] → read_internal I S junk NB ea = read_internal_any I S junk NB ea.
Proof.
  intros Hn. set_unfold in Hn. destruct NB as [|[[[p|p|]|[p|p|]|]|[[p|p|]|[[p|p|]|[p|p|]|]|]|]|p];
    first [reflexivity|exfalso; apply Hn; tauto].
Qed.

Section ReadInternal.
Context {W : Type} {HT : Translate W} {HC : CacheAccess W} {HG : Logger W} {HA : AccessLaws W}.
Context (Hhom : ∀ a k, 0 ≤ a → 0 ≤ k → mask_ea (addr_add (mask_ea a) k) = mask_ea (addr_add a k)).
Context (Interleaved : bool) (SplitSize : Z) (junk : Z) {Hj : byte junk}.
Context (F : Z → Z) (HF : ∀ a r, tr a = Some r → uint 8 (F (loc r))).

Lemma read_internal_reads NB ea : NB ≠ 0 → wf (NB * 8) → uint 64 ea →
  (∀ w k r, 0 ≤ k < NB → tr (mask_ea (addr_add ea k)) = Some r → entire w r = true) →
  reads F (read_internal Interleaved SplitSize junk NB ea) (λ ls r, repr r (fetch F ls)) (locs (Z.to_nat NB) ea).
Proof using All.
  intros Hn Hwf Hu Hent. assert (addr_add ea 0 = ea) as Ea by (unfold addr_add; rewrite Z.add_0_r; by apply wrap_small).
  assert (∀ w, nb w = NB → reads F (do* v := access_read Interleaved SplitSize w ea in aret (of_uint64 junk (NB * 8) v))
    (λ ls r, repr r (fetch F ls)) (locs (Z.to_nat NB) ea)) as Hw.
  { intros w <-. eapply reads_map.
    - pose proof (reads_at Interleaved SplitSize F (nb w) ea Hent w 0) as Hr. rewrite Ea in Hr.
      unfold nb at 1. rewrite Nat2Z.id. apply Hr. destruct (nb_cases w); lia.
    - intros l v El ->. pose proof (fetch_uint F HF _ _ _ El) as Hf. rewrite Z2Nat.id in Hf by (destruct (nb_cases w); lia).
      eexists. split; [by intros s|]. rewrite <- (wrap_small (nb w * 8) (fetch F l)) at 2 by (by rewrite Z.mul_comm).
      apply of_uint64_spec; [done..|]. apply (uint_mono (8 * nb w)); [destruct (nb_cases w); lia|done]. }
  destruct (decide (NB = 8)) as [->|H8]; [exact (Hw W64 eq_refl)|].
  destruct (decide (NB = 4)) as [->|H4]; [exact (Hw W32 eq_refl)|].
  destruct (decide (NB = 2)) as [->|H2]; [exact (Hw W16 eq_refl)|].
  destruct (decide (NB = 1)) as [->|H1].
  { eapply reads_map; [rewrite <- Ea; apply reads8_at|]. intros l v El ->. pose proof (fetch_uint F HF _ _ _ El) as Hf.
    destruct (of_byte_repr junk 1 (fetch F l) Hf) as (b & Eb & Hb). exists b. split; [intros s; unfold alift; by rewrite Eb|].
    by rewrite wrap_small in Hb by done. }
  destruct (decide (NB = 3)) as [->|H3].
  { change (Z.to_nat 3) with (2 + 1)%nat. rewrite (locs_add Hhom 2 1) by apply Hu.
    pose proof (reads_at Interleaved SplitSize F 3 ea Hent W16 0 ltac:(lia)) as Hr. rewrite Ea in Hr.
    eapply reads_bind; [exact Hr|]. intros l1 v E1 ->. pose proof (fetch_uint F HF _ _ _ E1) as Hf1.
    destruct (put_bits junk 3 16 8 (_reset (BaseOps := intbv_ops junk (3 * 8))) (of_uint64 junk (3 * 8) (fetch F l1))
      0 0 (fetch F l1) 0 15) as (r & Er & Hr1); try (lia || done).
    { by apply (of_uint64_repr junk 3 2); [lia|]. }
    eapply reads_lift; [exact Er|]. eapply reads_map; [apply reads8_at|]. intros l2 v E2 ->.
    pose proof (fetch_uint F HF _ _ _ E2) as Hf2. destruct (of_byte_repr junk 3 (fetch F l2) Hf2) as (b & Eb & Hb).
    destruct (put_bits junk 3 8 0 r b (fetch F l1) 0 (fetch F l2) 16 23) as (r' & Er' & Hr'); try (lia || done).
    { destruct Hf1. lia. }
    exists r'. split; [intros s; unfold abind, alift; by rewrite Eb, Er'|].
    rewrite fetch_app, (length_locs _ _ _ E2). repr_ring Hr'. }
  rewrite read_internal_other by (rewrite !not_elem_of_cons; repeat split; done || apply not_elem_of_nil).
  apply (read_internal_any_reads Hhom); try done. apply Hu.
Qed.
End ReadInternal.

(** ** Writes *)

Section Stores.
Implicit Types (F : Z → Z) (ls : list Z).

Lemma store_from_ext n v k n' v' k' F ls :
  (∀ j, 0 ≤ j < Z.of_nat (length ls) → top_byte n v (k + j) = top_byte n' v' (k' + j)) →
  store_from n v k F ls = store_from n' v' k' F ls.
Proof.
  revert k k' F. induction ls as [|l ls IH]; intros k k' F Ht; [done|]. cbn [store_from].
  pose proof (Ht 0) as H0. rewrite !Z.add_0_r in H0. rewrite H0 by (cbn [length]; lia).
  apply IH. intros j Hj. rewrite <- !Z.add_assoc. apply Ht. cbn [length]. lia.
Qed.
(** The upper bytes of a value first, then the others. *)
Lemma top_byte_high a b v j : 0 ≤ j < Z.of_nat a → top_byte (a + b) v j = top_byte a (v / 2 ^ (8 * Z.of_nat b)) j.
Proof.
  intros Hj. unfold top_byte. rewrite Zdiv_Zdiv, <- Z.pow_add_r by (lia || apply Z.pow_nonneg; lia).
  do 3 f_equal. lia.
Qed.
Lemma top_byte_low a b v j : 0 ≤ j < Z.of_nat b →
  top_byte (a + b) v (Z.of_nat a + j) = top_byte b (wrap (8 * Z.of_nat b) v) j.
Proof.
  intros Hj. unfold top_byte. replace (Z.of_nat (a + b) - 1 - (Z.of_nat a + j)) with (Z.of_nat b - 1 - j) by lia.
  apply Z.bits_inj'. intros i Hi. rewrite !testbit_wrap, !testbit_div, testbit_wrap by lia.
  destruct (Z.ltb_spec i 8); cbn [andb]; [|done]. by rewrite (proj2 (Z.ltb_lt _ _)) by lia.
Qed.
Lemma store_app F l1 l2 v : store F (l1 ++ l2) v =
  store (store F l1 (v / 2 ^ (8 * Z.of_nat (length l2)))) l2 (wrap (8 * Z.of_nat (length l2)) v).
Proof.
  unfold store. rewrite store_from_app, length_app.
  rewrite (store_from_ext (length l1 + length l2) v 0 (length l1) (v / 2 ^ (8 * Z.of_nat (length l2))) 0 F l1)
    by (intros j Hj; by apply top_byte_high).
  apply store_from_ext. intros j Hj. rewrite !Z.add_0_l. by apply top_byte_low.
Qed.
Lemma store_from_pointwise n v k F F' ls a : (∀ a, F a = F' a) → store_from n v k F ls a = store_from n v k F' ls a.
Proof.
  revert k F F'. induction ls as [|l ls IH]; intros k F F' HF; [done|]. apply IH. intros x. unfold put. by rewrite HF.
Qed.
Lemma store_put F ls v l b a : l ∉ ls → store (put F l b) ls v a = put (store F ls v) l b a.
Proof.
  unfold store. generalize (length ls) as n, 0 as k. intros n. revert F. induction ls as [|x ls IH]; intros F k Hl; [done|].
  apply not_elem_of_cons in Hl as [Hx Hl]. cbn [store_from]. rewrite <- (IH _ _ Hl). apply store_from_pointwise.
  intros y. unfold put. destruct (Z.eqb_spec y x), (Z.eqb_spec y l); try done. congruence.
Qed.
Lemma store_1 F l v a : uint 8 v → store F [l] v a = put F l v a.
Proof. intros Hv. unfold store. cbn. by rewrite top_byte_1. Qed.
End Stores.

Section Writes.
Context {W : Type} {HT : Translate W} {HC : CacheAccess W} {HG : Logger W} {HA : AccessLaws W}.

(** A write of the bytes at [ls], after which the memory is [G ls]; or a fault. *)
Definition fails {A} (F : Z → Z) (m : acc W A) : Prop :=
  ∀ s, wrep s F → ∃ s' e F', m s = (s', Throw e) ∧ wrep s' F'.
Definition writes {A} (F : Z → Z) (m : acc W A) (Q : A → Prop) (G : list Z → Z → Z) (ls : option (list Z)) : Prop :=
  match ls with Some l => runs F m Q (G l) | None => fails F m end.

Lemma fails_stops {A} F F' (m : acc W A) : stops F m F' → fails F m.
Proof. intros Hm s Hs. destruct (Hm s Hs) as (s' & e & E & Hs'). by exists s', e, F'. Qed.
Lemma fails_first {A B} F (m : acc W A) (k : A → acc W B) : fails F m → fails F (abind m k).
Proof. intros Hm s Hs. destruct (Hm s Hs) as (s' & e & F' & E & Hs'). exists s', e, F'. unfold abind. by rewrite E. Qed.
Lemma fails_bind {A B} F F1 (m : acc W A) (k : A → acc W B) Q :
  runs F m Q F1 → (∀ v, Q v → fails F1 (k v)) → fails F (abind m k).
Proof.
  intros Hm Hk s Hs. destruct (Hm s Hs) as (s1 & v & E & HQ & Hs1). unfold abind. rewrite E. by apply Hk.
Qed.
Lemma writes_bind {A B} F (m : acc W A) (k : A → acc W B) Q1 Q G1 G ls1 ls2 :
  writes F m Q1 G1 ls1 →
  (∀ l1 v, ls1 = Some l1 → Q1 v → writes (G1 l1) (k v) Q (λ l2, G (l1 ++ l2)) ls2) →
  writes F (abind m k) Q G (l1 ← ls1; l2 ← ls2; Some (l1 ++ l2)).
Proof.
  unfold writes. destruct ls1 as [l1|]; cbn [mbind option_bind]; [|intros Hm _; by apply fails_first].
  intros Hm Hk. specialize (Hk l1). destruct ls2 as [l2|]; cbn [mbind option_bind].
  - eapply runs_bind; [exact Hm|]. auto.
  - eapply fails_bind; [exact Hm|]. auto.
Qed.
Lemma writes_bind_rev {A B} F (m : acc W A) (k : A → acc W B) Q1 Q G1 G ls1 ls2 :
  writes F m Q1 G1 ls1 →
  (∀ l1 v, ls1 = Some l1 → Q1 v → writes (G1 l1) (k v) Q (λ l2, G (l2 ++ l1)) ls2) →
  writes F (abind m k) Q G (l2 ← ls2; l1 ← ls1; Some (l2 ++ l1)).
Proof.
  unfold writes. destruct ls1 as [l1|]; cbn [mbind option_bind].
  - intros Hm Hk. specialize (Hk l1). destruct ls2 as [l2|]; cbn [mbind option_bind].
    + eapply runs_bind; [exact Hm|]. auto.
    + eapply fails_bind; [exact Hm|]. auto.
  - intros Hm _. destruct ls2; cbn [mbind option_bind]; by apply fails_first.
Qed.
Lemma writes_assoc {A B C D} F (m : acc W A) (f : A → acc W B) (g : A → B → acc W C) (k : C → acc W D) Q G ls :
  writes F (abind (abind m (λ x, abind (f x) (g x))) k) Q G ls →
  writes F (abind m (λ x, abind (f x) (λ y, abind (g x y) k))) Q G ls.
Proof.
  assert (∀ s, abind m (λ x, abind (f x) (λ y, abind (g x y) k)) s = abind (abind m (λ x, abind (f x) (g x))) k s) as E.
  { intros s. unfold abind. destruct (m s) as [s1 [x| | |]]; try done. by destruct (f x s1) as [s2 [y| | |]]. }
  unfold writes. destruct ls; intros Hw s Hs; rewrite E; by apply Hw.
Qed.
(** Calls that neither read nor write first. *)
Lemma writes_after {A B} F (m : acc W A) (k : A → acc W B) Q G ls v :
  runs F m (λ u, u = v) F → writes F (k v) Q G ls → writes F (abind m k) Q G ls.
Proof.
  unfold writes. intros Hm Hk. destruct ls.
  - eapply runs_bind; [exact Hm|]. by intros ? ->.
  - eapply fails_bind; [exact Hm|]. by intros ? ->.
Qed.
Lemma runs_lift {A} F (o : outcome A) v : o = Ret v → runs F (alift o) (λ u, u = v) F.
Proof. intros ->. intros s Hs. by exists s, v. Qed.
Lemma writes_weaken {A} F (m : acc W A) (Q Q' : A → Prop) (G G' : list Z → Z → Z) ls :
  writes F m Q G ls → (∀ v, Q v → Q' v) → (∀ l a, ls = Some l → G l a = G' l a) → writes F m Q' G' ls.
Proof.
  unfold writes. destruct ls as [l|]; [|done]. intros Hm HQ HG'. eapply runs_weaken; [exact Hm|done|]. intros a. by apply HG'.
Qed.
Lemma locs_mask n a : 0 ≤ a → locs n (mask_ea a) = locs n a.
Proof. intros Ha. unfold locs, byte_ea. by rewrite mask_idem. Qed.

Context (Interleaved : bool) (SplitSize : Z).

(** A translation, then a write at its address. *)
Lemma writes_at w F a r v : 0 ≤ a → tr (mask_ea a) = Some r → uint (8 * nb w) v →
  writes F (access_write Interleaved SplitSize w (mask_ea a) r v) (λ _, True) (λ l, store F l v) (locs (nbytes w) a).
Proof.
  intros Ha Hr Hv. pose proof (mask_uint a Ha) as [H0 _].
  pose proof (write_answer Interleaved SplitSize w F (mask_ea a) r v H0 (mask_idem a Ha) Hr Hv) as Hw.
  rewrite locs_mask in Hw by done. unfold write_answers, answers, writes in *.
  destruct (locs (nbytes w) a); [done|]. by eapply fails_stops.
Qed.
Lemma writes8_at F a r v : 0 ≤ a → tr (mask_ea a) = Some r → uint 8 v →
  writes F (write8 (mask_ea a) r v) (λ _, True) (λ l, store F l v) (locs 1 a).
Proof.
  intros Ha Hr Hv. pose proof (Z.mod_pos_bound (mask_ea a) 8 ltac:(lia)).
  rewrite (locs_dw 1 a r) by (done || lia). unfold writes, run_of. cbn [seq fmap list_fmap].
  eapply runs_weaken; [by apply (write8_answer F (mask_ea a) r v)|done|].
  intros x. change (Z.of_nat 0) with 0. rewrite Z.add_0_r. symmetry. by apply store_1.
Qed.
Lemma writes_translate {A} n F a q (k : Z → acc W A) Q G : (0 < n)%nat → 0 ≤ a →
  (∀ r, tr (mask_ea a) = Some r → writes F (k r) Q G (locs n a)) →
  writes F (abind (translate (mask_ea a) q) k) Q G (locs n a).
Proof.
  intros Hn Ha Hk. destruct (tr (mask_ea a)) as [r|] eqn:Hr.
  - apply (writes_after _ _ _ _ _ _ r); [by apply runs_translate|by apply Hk].
  - rewrite (locs_none _ _ Ha) by done. apply fails_first. eapply fails_stops, stops_translate; done.
Qed.
End Writes.

Section WriteAny.
Context {W : Type} {HT : Translate W} {HC : CacheAccess W} {HG : Logger W} {HA : AccessLaws W}.
Context (Hhom : ∀ a k, 0 ≤ a → 0 ≤ k → mask_ea (addr_add (mask_ea a) k) = mask_ea (addr_add a k)).
Context (Interleaved : bool) (SplitSize : Z) (junk : Z) {Hj : byte junk}.
Context (NB ea : Z) {Hwf : wf (NB * 8)} (value : intbv (NB * 8)) (x : Z) (Hx : repr value x) (Hu : uint 64 ea).

(** The [n] bits above the last [k] ones. *)
Definition bits_at (n k : Z) : Z := wrap n (x / 2 ^ k).
Lemma get32_spec n k start stop : start = NB * 8 - (n + k) → stop = start + (n - 1) → 0 ≤ start → 0 < n ≤ 32 → 0 ≤ k →
  get32 junk value start stop = Ret (bits_at n k).
Proof using Hj Hwf Hx.
  intros E1 E2 H1 H2 H3. unfold get32. pose proof (get_range_spec junk value x start stop Hx) as Hg.
  rewrite !Z.mod_small in Hg by lia. rewrite (proj2 (Z.leb_le start stop)) in Hg by lia.
  destruct Hg as (g & -> & Hg). cbn [obind]. rewrite (uint32_spec junk g _ Hg). unfold get_field, bits_at.
  replace (stop - start + 1) with n by lia. replace (NB * 8 - 1 - stop) with k by lia.
  f_equal. apply wrap_small. apply (uint_mono n); [lia|]. apply uint_wrap. lia.
Qed.
Lemma uint_bits n k : 0 ≤ n → uint n (bits_at n k).
Proof using Type. intros. by apply uint_wrap. Qed.
(** The upper and the lower part of some bits. *)
Lemma bits_split n m k : 0 ≤ n → 0 ≤ m → 0 ≤ k →
  bits_at (n + m) k / 2 ^ m = bits_at n (m + k) ∧ wrap m (bits_at (n + m) k) = bits_at m k.
Proof using Type.
  intros Hn Hm Hk. unfold bits_at. split.
  - apply Z.bits_inj'. intros i Hi. rewrite testbit_div, !testbit_wrap, !testbit_div by lia.
    rewrite (proj2 (Z.leb_le 0 i)), (proj2 (Z.leb_le 0 (i + m))) by lia. cbn [andb]. rewrite Z.add_assoc.
    by destruct (Z.ltb_spec (i + m) (n + m)), (Z.ltb_spec i n); try lia.
  - apply wrap_wrap_le. lia.
Qed.
Lemma store_split_bits F l1 l2 n m k : Z.of_nat (length l2) * 8 = m → 0 ≤ n → 0 ≤ k →
  store F (l1 ++ l2) (bits_at (n + m) k) = store (store F l1 (bits_at n (m + k))) l2 (bits_at m k).
Proof using Type.
  intros <- Hn Hk. rewrite store_app. rewrite (Z.mul_comm 8). destruct (bits_split n (Z.of_nat (length l2) * 8) k) as [-> ->];
    [lia..|]. done.
Qed.

Lemma write_words n i F r : 0 ≤ i → 4 * (i + Z.of_nat n) ≤ NB → (i = 0 → (0 < n)%nat → tr (mask_ea (addr_add ea 0)) = Some r) →
  writes F (afor n i (λ i p,
      let '(ea, ra) := p in
      do* ra := (if i =? 0 then aret ra else translate ea 0) in
      do* v := alift (get32 junk value (i * 32) (i * 32 + 31)) in
      write32 Interleaved SplitSize ea ra v ;*
      aret (mask_ea (addr_add ea 4), ra)) (mask_ea (addr_add ea (4 * i)), r))
    (λ p, fst p = mask_ea (addr_add ea (4 * (i + Z.of_nat n))))
    (λ ls, store F ls (bits_at (32 * Z.of_nat n) (NB * 8 - (i + Z.of_nat n) * 32)))
    (locs (4 * n) (addr_add ea (4 * i))).
Proof using All.
  revert i F r. induction n as [|n IH]; intros i F r Hi Hn Hr.
  - cbn [afor Nat.mul]. apply runs_ret. cbn [fst]. by rewrite Z.add_0_r.
  - cbn [afor]. replace (4 * S n)%nat with (4 + 4 * n)%nat by lia.
    rewrite (locs_add Hhom), addr_add_assoc by apply addr_add_nonneg.
    eapply (writes_bind _ _ _ (λ p, fst p = mask_ea (addr_add ea (4 * (i + 1)))) _
      (λ l, store F l (bits_at 32 (NB * 8 - (i + 1) * 32)))).
    + assert (∀ r, tr (mask_ea (addr_add ea (4 * i))) = Some r → writes F
        (do* v := alift (get32 junk value (i * 32) (i * 32 + 31)) in
         write32 Interleaved SplitSize (mask_ea (addr_add ea (4 * i))) r v ;*
         aret (mask_ea (addr_add (mask_ea (addr_add ea (4 * i))) 4), r))
        (λ p, fst p = mask_ea (addr_add ea (4 * (i + 1)))) (λ l, store F l (bits_at 32 (NB * 8 - (i + 1) * 32)))
        (locs 4 (addr_add ea (4 * i)))) as Hw.
      { intros r' Hr'. eapply writes_after; [apply runs_lift, (get32_spec 32 (NB * 8 - (i + 1) * 32)); lia|].
        assert (locs 4 (addr_add ea (4 * i)) =
          l1 ← locs 4 (addr_add ea (4 * i)); l2 ← Some []; Some (l1 ++ l2)) as ->.
        { destruct (locs 4 _); cbn; [by rewrite app_nil_r|done]. }
        eapply writes_bind; [apply (writes_at Interleaved SplitSize W32 F _ r' _ (addr_add_nonneg _ _) Hr'), uint_bits; lia|].
        intros l1 [] _ _. unfold writes. rewrite app_nil_r. apply runs_ret. cbn [fst].
        rewrite Hhom, addr_add_assoc by (apply addr_add_nonneg || lia). do 2 f_equal. lia. }
      destruct (Z.eqb_spec i 0) as [->|Hi0].
      * apply (writes_after _ _ _ _ _ _ r); [by apply runs_ret|]. apply Hw. rewrite Z.mul_0_r. apply Hr; lia.
      * apply writes_translate; [lia|apply addr_add_nonneg|done].
    + intros l1 [e r'] E1 He. cbn [fst] in He. subst e. replace (4 * i + Z.of_nat 4) with (4 * (i + 1)) by lia.
      eapply writes_weaken; [apply IH; lia| |].
      * cbn beta. intros p ->. do 2 f_equal. lia.
      * cbn beta. intros l2 a E2. symmetry.
        replace (32 * Z.of_nat (S n)) with (32 + 32 * Z.of_nat n) by lia.
        replace (i + Z.of_nat (S n)) with (i + 1 + Z.of_nat n) by lia.
        rewrite store_split_bits by (rewrite ?(length_locs _ _ _ E2); lia).
        by replace (32 * Z.of_nat n + (NB * 8 - (i + 1 + Z.of_nat n) * 32)) with (NB * 8 - (i + 1) * 32) by lia.
Qed.

Lemma bits_all : bits_at (NB * 8) 0 = x.
Proof using Hj Hwf Hx. unfold bits_at. rewrite Z.div_1_r. apply wrap_small. by apply (repr_uint value). Qed.

(** Writes of the last bytes, after the words. *)
Lemma writes_tail16 F a k start : 0 ≤ a → 0 ≤ k → start = NB * 8 - (16 + k) → 0 ≤ start →
  writes F (let ea := mask_ea (mask_ea a) in
    do* ra := translate ea 0 in
    do* v := alift (get32 junk value start (start + 15)) in
    write16 Interleaved SplitSize ea ra (wrap 16 v)) (λ _, True) (λ l, store F l (bits_at 16 k)) (locs 2 a).
Proof using Hj Hwf Hx.
  intros Ha Hk Es Hs. cbv zeta. rewrite mask_idem by done. apply writes_translate; [lia|done|]. intros r Hr.
  eapply writes_after; [apply runs_lift, (get32_spec 16 k); lia|].
  rewrite wrap_small by (apply uint_bits; lia). apply (writes_at Interleaved SplitSize W16); [done..|]. apply uint_bits. lia.
Qed.
Lemma writes_tail8 F a k start : 0 ≤ a → 0 ≤ k → start = NB * 8 - (8 + k) → 0 ≤ start →
  writes F (do* ra := translate (mask_ea a) 0 in
    do* v := alift (get32 junk value start (start + 7)) in
    write8 (mask_ea a) ra (wrap 8 v)) (λ _, True) (λ l, store F l (bits_at 8 k)) (locs 1 a).
Proof using Hj Hwf Hx.
  intros Ha Hk Es Hs. apply writes_translate; [lia|done|]. intros r Hr.
  eapply writes_after; [apply runs_lift, (get32_spec 8 k); lia|].
  rewrite wrap_small by (apply uint_bits; lia). apply writes8_at; [done..|]. apply uint_bits. lia.
Qed.

Lemma write_internal_any_writes F ra : mask_ea ea = ea → tr ea = Some ra →
  (NB mod 4 = 3 → ∀ ls, locs (Z.to_nat NB) ea = Some ls → NoDup ls) →
  writes F (write_internal_any Interleaved SplitSize junk NB (NB * 8) ea ra value) (λ _, True)
    (λ ls, store F ls x) (locs (Z.to_nat NB) ea).
Proof using All.
  intros Hm Hr Hd. unfold write_internal_any. set (nw := NB / 4) in *. set (m := NB mod 4) in *.
  assert (NB = 4 * nw + m ∧ 0 ≤ m < 4) as [HN Hm4] by (subst nw m; zlia).
  assert (0 < NB ≤ 65536) as HNB by (unfold wf in Hwf; lia).
  assert (addr_add ea 0 = ea) as Ea by (unfold addr_add; rewrite Z.add_0_r; by apply wrap_small).
  revert Hd. replace (Z.to_nat NB) with (4 * Z.to_nat nw + Z.to_nat m)%nat by lia.
  rewrite (locs_add Hhom) by apply Hu. replace (Z.of_nat (4 * Z.to_nat nw)) with (4 * nw) by lia. intros Hd.
  pose proof (write_words (Z.to_nat nw) 0 F ra) as Hw. rewrite Z.mul_0_r, Ea, Hm in Hw.
  rewrite Z.add_0_l, Z2Nat.id in Hw by lia.
  set (a := addr_add ea (4 * nw)) in *. assert (0 ≤ a) as Ha by apply addr_add_nonneg.
  assert (NB * 8 - nw * 32 = 8 * m) as Em by lia. rewrite Em in Hw.
  assert (∀ l1 l2, length l2 = Z.to_nat m → store F (l1 ++ l2) x =
    store (store F l1 (bits_at (32 * nw) (8 * m))) l2 (bits_at (8 * m) 0)) as Hst.
  { intros l1 l2 Hl. rewrite <- bits_all at 1. replace (NB * 8) with (32 * nw + 8 * m) by lia.
    rewrite store_split_bits by (rewrite ?Hl; lia). by rewrite Z.add_0_r. }
  eapply writes_bind; [apply Hw; [lia..|done]|]. cbv beta. intros l1 p E1 Hp. rewrite Hp. clear Hw.
  specialize (Hst l1). set (F1 := store F l1 (bits_at (32 * nw) (8 * m))) in *. clearbody F1.
  assert (m = 0 ∨ m = 1 ∨ m = 2 ∨ m = 3) as [Em'|[Em'|[Em'|Em']]] by lia; rewrite Em' in *.
  - change (locs (Z.to_nat 0) a) with (Some (A := list Z) []). unfold writes. rewrite Hst by done. by apply runs_ret.
  - eapply writes_weaken; [rewrite mask_idem by done; apply (writes_tail8 F1 a 0); lia|done|].
    cbv beta. intros l2 y E2. by rewrite Hst by apply (length_locs _ _ _ E2).
  - eapply writes_weaken; [apply (writes_tail16 F1 a 0); lia|done|].
    cbv beta. intros l2 y E2. by rewrite Hst by apply (length_locs _ _ _ E2).
  - change (Z.to_nat 3) with (2 + 1)%nat in *. rewrite (locs_add Hhom 2 1) in * by done.
    rewrite Hhom by lia. cbv zeta.
    apply (writes_assoc F1 (translate _ 0) (λ _, alift (get32 junk value (nw * 32 + 16) (nw * 32 + 23)))
      (λ ra2 v, write8 (mask_ea (addr_add a 2)) ra2 (wrap 8 v))).
    eapply writes_bind_rev;
      [replace (nw * 32 + 23) with (nw * 32 + 16 + 7) by lia; apply (writes_tail8 F1 (addr_add a 2) 0); lia || apply addr_add_nonneg|].
    cbv beta. intros l3 [] E3 _. eapply writes_weaken; [apply (writes_tail16 _ a 8); lia|done|]. cbv beta. intros l2 y E2.
    destruct l3 as [|c [|? ?]]; [apply length_locs in E3; done| |apply length_locs in E3; done].
    rewrite Hst by (rewrite length_app, (length_locs _ _ _ E2); done).
    change (8 * 3) with (16 + 8). rewrite store_split_bits by done. change (8 + 0) with 8.
    rewrite store_1 by (apply uint_bits; lia). rewrite <- store_put.
    + apply store_from_pointwise. intros z. apply store_1, uint_bits. lia.
    + specialize (Hd eq_refl (l1 ++ l2 ++ [c])). rewrite E1 in Hd. cbn [mbind option_bind] in Hd. rewrite E2 in Hd.
      cbn [mbind option_bind] in Hd. rewrite E3 in Hd. specialize (Hd eq_refl).
      apply NoDup_app in Hd as (_ & _ & Hd). apply NoDup_app in Hd as (_ & Hd & _). intros Hc. apply (Hd c Hc).
      apply list_elem_of_here.
Qed.
End WriteAny.

Lemma write_internal_other {W} {HT : Translate W} {HC : CacheAccess W} {HG : Logger W} I S junk NB Nb ea ra value :
  NB ∉ [0; 1; 2; 3; 4; 8] → write_internal I S junk NB Nb ea ra value = write_internal_any I S junk NB Nb ea ra value.
Proof.
  intros Hn. set_unfold in Hn. destruct NB as [|[[[p|p|]|[p|p|]|]|[[p|p|]|[[p|p|]|[p|p|]|]|]|]|p];
    first [reflexivity|exfalso; apply Hn; tauto].
Qed.

Section WriteInternal.
Context {W : Type} {HT : Translate W} {HC : CacheAccess W} {HG : Logger W} {HA : AccessLaws W}.
Context (Hhom : ∀ a k, 0 ≤ a → 0 ≤ k → mask_ea (addr_add (mask_ea a) k) = mask_ea (addr_add a k)).
Context (Interleaved : bool) (SplitSize : Z) (junk : Z) {Hj : byte junk}.

Lemma write_internal_writes NB ea ra (value : intbv (NB * 8)) x F : NB ≠ 0 → wf (NB * 8) → repr value x → uint 64 ea →
  mask_ea ea = ea → tr ea = Some ra →
  (NB mod 4 = 3 → ∀ ls, locs (Z.to_nat NB) ea = Some ls → NoDup ls) →
  writes F (write_internal Interleaved SplitSize junk NB (NB * 8) ea ra value) (λ _, True)
    (λ ls, store F ls x) (locs (Z.to_nat NB) ea).
Proof using All.
  intros Hn Hwf Hx Hu Hm Hr Hd. pose proof (repr_uint _ _ Hx) as Hxu.
  assert (0 ≤ ea) as Hea by apply Hu. assert (tr (mask_ea ea) = Some ra) as Hr' by by rewrite Hm.
  pose proof (λ w v, writes_at Interleaved SplitSize w F ea ra v Hea Hr') as Hw. rewrite Hm in Hw.
  destruct (decide (NB = 8)) as [->|H8].
  { cbn [write_internal]. rewrite (uint64_spec junk value x Hx), wrap_small by done. by apply (Hw W64). }
  destruct (decide (NB = 4)) as [->|H4].
  { cbn [write_internal]. rewrite (uint32_spec junk value x Hx), wrap_small by done. by apply (Hw W32). }
  assert (NB * 8 ≤ 32 → uint32 junk value = x) as H32.
  { intros Hle. rewrite (uint32_spec junk value x Hx). apply wrap_small. apply (uint_mono (NB * 8)); [unfold wf in Hwf; lia|done]. }
  destruct (decide (NB = 2)) as [->|H2].
  { cbn [write_internal]. rewrite H32, wrap_small by done. by apply (Hw W16). }
  destruct (decide (NB = 1)) as [->|H1].
  { cbn [write_internal]. rewrite H32, wrap_small by done. rewrite <- Hm at 1. by apply writes8_at. }
  destruct (decide (NB = 3)) as [->|H3].
  { cbn [write_internal]. change (Z.to_nat 3) with (2 + 1)%nat. rewrite (locs_add Hhom 2 1) by done.
    eapply writes_after; [apply runs_lift, (get32_spec junk 3 value x Hx 16 8); lia|].
    rewrite wrap_small by (apply uint_bits; lia).
    eapply writes_bind; [apply (Hw W16), uint_bits; lia|]. cbv beta zeta. intros l1 [] E1 _.
    eapply writes_weaken; [apply (writes_tail8 junk 3 value x Hx _ (addr_add ea 2) 0 16); lia || apply addr_add_nonneg|done|].
    cbv beta. intros l2 y E2. pose proof (bits_all junk 3 value x Hx : bits_at x (16 + 8) 0 = x) as E.
    rewrite <- E at 3. by rewrite store_split_bits by (rewrite ?(length_locs _ _ _ E2); done). }
  rewrite write_internal_other by (rewrite !not_elem_of_cons; repeat split; done || apply not_elem_of_nil).
  by apply (write_internal_any_writes Hhom).
Qed.
End WriteInternal.

(** ** What the interface promises *)

Section Claims.
Context {W : Type} {HT : Translate W} {HC : CacheAccess W} {HG : Logger W} {HA : AccessLaws W}.
Context (Interleaved : bool) (SplitSize : Z) (junk : Z) {Hj : byte junk}.

(** Masking twice is masking once, also with an offset between. *)
Definition mask_offsets : Prop :=
  ∀ a k, 0 ≤ a → 0 ≤ k → mask_ea (addr_add (mask_ea a) k) = mask_ea (addr_add a k).
(** No access to one of the [NB] bytes runs past its buffer. *)
Definition all_entire (NB ea : Z) : Prop :=
  ∀ w k r, 0 ≤ k < NB → tr (mask_ea (addr_add ea k)) = Some r → entire w r = true.

(** [read_internal] of any number of bytes, the specialised sizes and the
    general one, gives a bit vector that holds the big-endian number of the bytes
    at [ea], [ea + 1], ...; it throws exactly when one of them has no translation,
    and leaves the memory as it was. *)
Theorem read_internal_refines NB ea (s : W) F :
  wrep s F → mask_offsets → 0 < NB * 8 ≤ 524288 → uint 64 ea → all_entire NB ea →
  match locs (Z.to_nat NB) ea with
  | Some ls => ∃ s' r, read_internal Interleaved SplitSize junk NB ea s = (s', Ret r) ∧ repr r (fetch F ls) ∧ wrep s' F
  | None => ∃ s' e, read_internal Interleaved SplitSize junk NB ea s = (s', Throw e) ∧ wrep s' F
  end.
Proof using Hj.
  intros Hs Hhom Hwf Hu He.
  assert (reads F (read_internal Interleaved SplitSize junk NB ea) (λ ls r, repr r (fetch F ls)) (locs (Z.to_nat NB) ea)) as Hr.
  { apply read_internal_reads; try done; [|lia]. intros a r. by apply (wrep_byte s). }
  unfold reads, answers in Hr. destruct (locs (Z.to_nat NB) ea) as [ls|]; [|by apply Hr]. by apply Hr.
Qed.

(** [write_internal] of a bit vector of any number of bytes stores its bytes,
    the most significant first, at the translations of [ea], [ea + 1], ..., or
    throws when one of them has none. *)
Theorem write_internal_refines NB ea ra (value : intbv (NB * 8)) x (s : W) F :
  wrep s F → mask_offsets → 0 < NB * 8 ≤ 524288 → repr value x → uint 64 ea → mask_ea ea = ea → tr ea = Some ra →
  (NB mod 4 = 3 → ∀ ls, locs (Z.to_nat NB) ea = Some ls → NoDup ls) →
  match locs (Z.to_nat NB) ea with
  | Some ls => ∃ s', write_internal Interleaved SplitSize junk NB (NB * 8) ea ra value s = (s', Ret tt) ∧
                     wrep s' (store F ls x)
  | None => ∃ s' e, write_internal Interleaved SplitSize junk NB (NB * 8) ea ra value s = (s', Throw e)
  end.
Proof using Hj.
  intros Hs Hhom Hwf Hx Hu Hm Hr Hd.
  pose proof (write_internal_writes Hhom Interleaved SplitSize junk NB ea ra value x F ltac:(lia) Hwf Hx Hu Hm Hr Hd) as Hw.
  unfold writes in Hw. destruct (locs (Z.to_nat NB) ea) as [ls|].
  - destruct (Hw s Hs) as (s' & [] & E & _ & Hs'). by exists s'.
  - destruct (Hw s Hs) as (s' & e & F' & E & _). by exists s', e.
Qed.
End Claims.

(** *** Witnesses, over the memory of [MemoryLocal] *)

#[local] Existing Instance addr_invariant.
#[local] Existing Instance simple_mem.
Lemma byte_aa : byte 0xaa.
Proof. unfold byte, uint. lia. Qed.

Lemma page_table_offsets bits pt (W : Type) : mask_offsets (HT := page_table bits pt W).
Proof.
  intros a k Ha Hk. cbn. unfold addr_add. rewrite !(wrap_wrap_le 32 64) by lia.
  unfold wrap. apply Zplus_mod_idemp_l.
Qed.
Lemma demo_entire NB ea : 0 ≤ ea → ea + NB ≤ 24 → all_entire (HA := demo_laws) NB ea.
Proof.
  intros Hea HN w k r Hk Hr. revert Hr. cbn.
  unfold addr_add. rewrite (wrap_small 64), (wrap_small 32) by (unfold uint; lia).
  assert ((ea + k) / 16 = 0 ∨ (ea + k) / 16 = 1) as [E|E] by zlia.
  - change (2 ^ 4) with 16. rewrite E. cbn. intros [= <-]. apply Z.leb_le. rewrite length_replicate.
    destruct w; cbn; zlia.
  - change (2 ^ 4) with 16. rewrite E. cbn. intros [= <-]. apply Z.leb_le. rewrite length_replicate.
    destruct w; cbn; zlia.
Qed.

Lemma read_internal_refines_witness : ∃ s' r,
  read_internal (HT := page_table 4 demo_pt _) (HC := simple_cache) (HG := event_log) true 4 0xaa 7 12 (demo_mem, []) =
    (s', Ret r) ∧ repr (nb := 56) r 0x2c2d2e2f303132.
Proof.
  destruct (read_internal_refines (HA := demo_laws) true 4 0xaa (Hj := byte_aa) 7 12 (demo_mem, []) (λ o, o) demo_rep
    (page_table_offsets _ _ _)) as (s' & r & E & Hr & _); [lia|unfold uint; lia|apply demo_entire; lia|].
  exists s', r. split; [exact E|]. exact Hr.
Defined.

Lemma write_internal_refines_witness : ∃ s' ls,
  locs (HA := demo_laws) 7 12 = Some ls ∧
  write_internal (HT := page_table 4 demo_pt _) (HC := simple_cache) (HG := event_log) false 8 0xaa 7 56 12 44
    (0x11223344556677 : intbv 56) (demo_mem, []) = (s', Ret tt) ∧
  wrep (AccessLaws := demo_laws) s' (store (λ o, o) ls 0x11223344556677).
Proof.
  destruct (write_internal_refines (HA := demo_laws) false 8 0xaa (Hj := byte_aa) 7 12 44 (0x11223344556677 : intbv 56)
    0x11223344556677 (demo_mem, []) (λ o, o) demo_rep (page_table_offsets _ _ _)) as (s' & E & Hs').
  - lia.
  - split; vm_compute; repeat split; congruence.
  - unfold uint. lia.
  - reflexivity.
  - reflexivity.
  - intros _ ls Els. vm_compute in Els. injection Els as <-. apply (bool_decide_unpack _). reflexivity.
  - exists s'. eexists. split; [reflexivity|]. split; [exact E|exact Hs'].
Defined.

(** ** Sizes chosen at run time *)

(** The bytes of an [n]-byte number in reverse order. *)
Definition swab (n : nat) (v : Z) : Z := host_value (reverse (host_bytes n v)).
Definition swap_if (ByteSwap : bool) (n : nat) (v : Z) : Z := if ByteSwap then swab n v else v.

Lemma host_bytes_shift n v : host_bytes (S n) (v * 2 ^ 8) = 0 :: host_bytes n v.
Proof.
  unfold host_bytes, rdigits. cbn [seq fmap list_fmap]. f_equal.
  - rewrite Z.mul_0_r, Z.div_1_r. unfold wrap. apply Z_mod_mult.
  - rewrite <- (fmap_S_seq 0), <- list_fmap_compose. apply list_fmap_ext. intros i x _. unfold compose.
    replace (8 * Z.of_nat (S x)) with (8 * Z.of_nat x + 8) by lia. rewrite Z.pow_add_r by lia.
    rewrite Z.div_mul_cancel_r by lia. done.
Qed.
Lemma swab_beval n v : swab n v = beval 8 (host_bytes n v).
Proof. unfold swab, host_value. by rewrite reverse_involutive. Qed.
Lemma swab32_shift v : swab32 (v * 2 ^ 8) = swab 3 v.
Proof. change (swab32 (v * 2 ^ 8)) with (swab 4 (v * 2 ^ 8)). rewrite !swab_beval, host_bytes_shift. done. Qed.
Lemma swab_1 v : uint 8 v → swab 1 v = v.
Proof.
  intros Hv. rewrite swab_beval. unfold host_bytes, rdigits. cbn [seq fmap list_fmap beval length].
  change (8 * Z.of_nat 0) with 0. rewrite Z.pow_0_r, Z.div_1_r, wrap_small by done. lia.
Qed.
Lemma swab_uint n v : uint (8 * Z.of_nat n) (swab n v).
Proof.
  rewrite swab_beval. pose proof (beval_bound 8 ltac:(lia) _ (digits_host_bytes n v)) as H.
  by rewrite length_host_bytes in H.
Qed.
Lemma swab_swab n v : uint (8 * Z.of_nat n) v → swab n (swab n v) = v.
Proof.
  intros Hv. rewrite swab_beval. unfold swab. rewrite bytes_swab. by apply (beval_reverse_rdigits 8 n v); [lia|].
Qed.
Lemma swap_uint b n v : uint (8 * Z.of_nat n) v → uint (8 * Z.of_nat n) (swap_if b n v).
Proof. destruct b; [intros _; apply swab_uint|done]. Qed.
Lemma swap_swap b n v : uint (8 * Z.of_nat n) v → swap_if b n (swap_if b n v) = v.
Proof. destruct b; [apply swab_swab|done]. Qed.

Section SizedCorrect.
Context {W : Type} {HT : Translate W} {HC : CacheAccess W} {HG : Logger W} {HA : AccessLaws W}.
Context (Hhom : mask_offsets) (F : Z → Z) (HF : ∀ a r, tr a = Some r → uint 8 (F (loc r))) (b : bool) (ea : Z) (Hu : uint 64 ea).

Lemma mem_read_sized_reads n : n ∈ [8; 4; 3; 2; 1]%nat → all_entire (Z.of_nat n) ea →
  reads F (mem_read_sized b ea (8 * Z.of_nat n)) (λ l v, v = swap_if b n (fetch F l)) (locs n ea).
Proof using Hhom HF Hu.
  intros Hn He. assert (addr_add ea 0 = ea) as Ea by (unfold addr_add; rewrite Z.add_0_r; by apply wrap_small).
  pose proof (reads_at true 4 F (Z.of_nat n) ea He) as Hr.
  apply elem_of_cons in Hn as [->|Hn].
  { eapply reads_map; [rewrite <- Ea; apply (Hr W64 0); lia|]. intros l v _ ->. eexists. by split. }
  apply elem_of_cons in Hn as [->|Hn].
  { eapply reads_map; [rewrite <- Ea; apply (Hr W32 0); lia|]. intros l v El ->. eexists. split; [by intros s|].
    pose proof (fetch_uint F HF _ _ _ El) as Hf. by rewrite wrap_small. }
  apply elem_of_cons in Hn as [->|Hn].
  { change (locs 3 ea) with (locs (2 + 1) ea). rewrite (locs_add Hhom 2 1) by apply Hu.
    pose proof (Hr W16 0 ltac:(lia)) as H16. rewrite Ea in H16.
    eapply reads_bind; [exact H16|]. intros l1 v E1 ->. pose proof (fetch_uint F HF _ _ _ E1) as Hf1.
    eapply reads_map; [apply reads8_at|]. intros l2 v E2 ->. pose proof (fetch_uint F HF _ _ _ E2) as Hf2.
    cbv zeta. eexists. split; [intros s; reflexivity|]. rewrite fetch_app, (length_locs _ _ _ E2). change (8 * Z.of_nat 1) with 8.
    set (x := fetch F l1) in *. set (y := fetch F l2) in *. change (8 * Z.of_nat 2) with 16 in Hf1.
    change (8 * Z.of_nat 1) with 8 in Hf2.
    assert (Z.lor (shl 32 x 8) y = x * 2 ^ 8 + y) as Ev.
    { unfold shl. change (8 mod 32) with 8. rewrite Z.shiftl_mul_pow2, wrap_small by (unfold uint in *; lia).
      rewrite Z.lor_comm, lor_add by (done || lia). lia. }
    rewrite Ev. unfold swap_if. destruct b; [|done].
    unfold shl. change (8 mod 32) with 8. rewrite Z.shiftl_mul_pow2, wrap_small by (unfold uint in *; lia). apply swab32_shift. }
  apply elem_of_cons in Hn as [->|Hn].
  { eapply reads_map; [rewrite <- Ea; apply (Hr W16 0); lia|]. intros l v El ->. eexists. split; [by intros s|].
    pose proof (fetch_uint F HF _ _ _ El) as Hf. by rewrite wrap_small. }
  apply list_elem_of_singleton in Hn as ->.
  eapply reads_weaken; [rewrite <- Ea; apply reads8_at|]. intros l v El ->. pose proof (fetch_uint F HF _ _ _ El) as Hf.
  unfold swap_if. destruct b; [|done]. by rewrite swab_1.
Qed.

(** The third byte of 24 bits is in the page of the first, so that it may be
    reached from there. *)
Definition third_byte : Prop := ∀ r, tr (mask_ea ea) = Some r →
  addr_add (mask_ea ea) 2 = mask_ea (addr_add ea 2) ∧ tr (mask_ea (addr_add ea 2)) = Some (addr_add r 2).

Lemma mem_write_sized_writes n v : n ∈ [8; 4; 3; 2; 1]%nat → uint (8 * Z.of_nat n) v → (n = 3%nat → third_byte) →
  writes F (mem_write_sized b ea v (8 * Z.of_nat n)) (λ _, True) (λ l, store F l (swap_if b n v)) (locs n ea).
Proof using Hhom Hu.
  intros Hn Hv H3. assert (0 ≤ ea) as Hea by apply Hu. pose proof (swap_uint b n v Hv) as Hsw.
  unfold mem_write_sized. cbv zeta. apply writes_translate; [|done|].
  { set_unfold in Hn. destruct_or! Hn; subst; lia. }
  intros r Hr. pose proof (λ w v, writes_at true 4 w F ea r v Hea Hr) as Hw.
  apply elem_of_cons in Hn as [->|Hn].
  { by apply (Hw W64). }
  apply elem_of_cons in Hn as [->|Hn].
  { cbn beta iota. change (8 * Z.of_nat 4) with 32 in *. rewrite (wrap_small 32 v) by done. by apply (Hw W32). }
  apply elem_of_cons in Hn as [->|Hn].
  { cbn beta iota. change (8 * Z.of_nat 3) with 24 in *.
    assert ((if b then swab32 (wrap 32 (shl 64 v 8)) else v) = swap_if b 3 v) as ->.
    { unfold swap_if, shl. destruct b; [|done]. change (8 mod 64) with 8.
      rewrite Z.shiftl_mul_pow2, !wrap_small by (rewrite ?wrap_small; unfold uint in *; lia). apply swab32_shift. }
    set (y := swap_if b 3 v) in *. destruct (H3 eq_refl r Hr) as [-> Hr2].
    change (locs 3 ea) with (locs (2 + 1) ea). rewrite (locs_add Hhom 2 1) by done.
    assert (wrap 16 (shr 64 y 8) = y / 2 ^ 8) as ->.
    { unfold shr. change (8 mod 64) with 8. rewrite Z.shiftr_div_pow2 by lia. apply wrap_small. unfold uint in *. zlia. }
    assert (Z.land y 0xff = wrap 8 y) as -> by (apply (Z.land_ones y 8); lia).
    eapply writes_bind; [apply (Hw W16); unfold uint in *; nb_consts; zlia|]. intros l1 [] E1 _.
    eapply writes_weaken; [apply writes8_at; [apply addr_add_nonneg|done|by apply uint_wrap]|done|].
    cbv beta. intros l2 a E2. by rewrite store_app, (length_locs _ _ _ E2). }
  apply elem_of_cons in Hn as [->|Hn].
  { cbn beta iota. change (8 * Z.of_nat 2) with 16 in *. rewrite (wrap_small 16 v) by done. by apply (Hw W16). }
  apply list_elem_of_singleton in Hn as ->. change (8 * Z.of_nat 1) with 8 in *. rewrite (wrap_small 8 v) by done.
  assert (swap_if b 1 v = v) as -> by (unfold swap_if; destruct b; [by apply swab_1|done]). by apply writes8_at.
Qed.
End SizedCorrect.

Section SizedClaims.
Context {W : Type} {HT : Translate W} {HC : CacheAccess W} {HG : Logger W} {HA : AccessLaws W}.

(** [mem_write_sized] of 8, 16, 24, 32 or 64 bits and [mem_read_sized] of the
    same size and byte order at the same address: the write stores the bytes of
    the value, in reverse order if bytes are swapped, and the read returns the
    value.  All other sizes are rejected.  For 24 bits the third byte must be
    in the page of the first. *)
Theorem mem_sized_roundtrip (b : bool) (ea v : Z) (n : nat) (s : W) F ls :
  wrep s F → mask_offsets → uint 64 ea → n ∈ [8; 4; 3; 2; 1]%nat → uint (8 * Z.of_nat n) v →
  locs n ea = Some ls → NoDup ls → all_entire (Z.of_nat n) ea → (n = 3%nat → third_byte ea) →
  (∃ s1 s2, mem_write_sized b ea v (8 * Z.of_nat n) s = (s1, Ret tt) ∧ wrep s1 (store F ls (swap_if b n v)) ∧
     mem_read_sized b ea (8 * Z.of_nat n) s1 = (s2, Ret v)) ∧
  (∀ size, size ∉ [64; 32; 24; 16; 8] → ∃ e, mem_read_sized b ea size s = (s, Throw e)).
Proof.
  intros Hs Hhom Hu Hn Hv Hl Hd He H3. split.
  - pose proof (mem_write_sized_writes Hhom F b ea Hu n v Hn Hv H3) as Hw. rewrite Hl in Hw.
    destruct (Hw s Hs) as (s1 & [] & E1 & _ & Hs1). exists s1.
    pose proof (mem_read_sized_reads Hhom (store F ls (swap_if b n v)) (λ a r, wrep_byte s1 _ a r Hs1) b ea Hu n Hn He) as Hr.
    rewrite Hl in Hr. destruct (Hr s1 Hs1) as (s2 & d & E2 & -> & _). exists s2. split_and!; [done..|].
    rewrite E2, fetch_store, swap_swap; [done..|]. rewrite (length_locs _ _ _ Hl). by apply swap_uint.
  - intros size Hsz. set_unfold in Hsz.
    destruct size as [|p|p]; try by eexists.
    do 7 (try (destruct p as [p|p|]; try by eexists)); exfalso; apply Hsz; tauto.
Qed.
End SizedClaims.

Lemma mem_sized_roundtrip_witness : ∃ s1 s2,
  mem_write_sized (HT := page_table 4 demo_pt _) (HC := simple_cache) (HG := event_log) true 13 0x112233 24 (demo_mem, []) =
    (s1, Ret tt) ∧
  mem_read_sized (HT := page_table 4 demo_pt _) (HC := simple_cache) (HG := event_log) true 13 24 s1 = (s2, Ret 0x112233).
Proof.
  destruct (proj1 (mem_sized_roundtrip (HA := demo_laws) true 13 0x112233 3 (demo_mem, []) (λ o, o) [45; 46; 47] demo_rep
    (page_table_offsets _ _ _) ltac:(unfold uint; lia) ltac:(apply (bool_decide_unpack _); reflexivity)
    ltac:(unfold uint; lia) eq_refl ltac:(apply (bool_decide_unpack _); reflexivity)
    ltac:(apply demo_entire; lia) ltac:(intros _ r Hr; vm_compute in Hr; injection Hr as <-; split; reflexivity)))
    as (s1 & s2 & E1 & _ & E2).
  exists s1, s2. split; [exact E1|exact E2].
Defined.

(** Where the third byte is on another page, [mem_write_sized] of 24 bits writes
    next to the first two instead: bytes 46 and 47 are on page 2, byte 48 has no
    translation; [mem_read_sized] faults, the write changes real byte 16. *)
Example sized_24_crosses_page :
  locs (HA := demo_laws) 3 46 = None ∧
  (∃ s e, mem_read_sized (HT := page_table 4 demo_pt _) (HC := simple_cache) (HG := event_log) false 46 24 (demo_mem, []) =
    (s, Throw e)) ∧
  (∃ s, mem_write_sized (HT := page_table 4 demo_pt _) (HC := simple_cache) (HG := event_log) false 46 0xa0b0c0 24
     (demo_mem, []) = (s, Ret tt) ∧ SimpleMemory._mem (fst s) = <[16%nat := 0xc0]> (<[15%nat := 0xb0]> (<[14%nat := 0xa0]> (seqZ 0 64)))).
Proof. split; [reflexivity|]. split; [eexists _, _; vm_compute; reflexivity|]. eexists. split; vm_compute; reflexivity. Qed.

(** The general [write_internal] takes its words from the value as it is, not from
    the copy [t] of [NB] bytes that it makes: a value of fewer bits is read from
    its start again. *)
Example write_internal_narrow_value :
  ∃ s, write_internal (HT := memory_translate 64 _) (HC := simple_cache) (HG := event_log) false 4 0xaa 12 32 0 0
    (0x11223344 : intbv 32) (demo_mem, []) = (s, Ret tt) ∧
  take 12 (SimpleMemory._mem (fst s)) = [0x11; 0x22; 0x33; 0x44; 0x11; 0x22; 0x33; 0x44; 0x11; 0x22; 0x33; 0x44].
Proof. eexists. split; vm_compute; reflexivity. Qed.
