(* ===== verification/DmiMemHandler.v ===== *)
(** * Direct access to memory pages

    [src/iss/DmiMemHandler.h] and the members of [SparseMemory] in
    [src/iss/Memory.h] that hand out pointers to pages: a cache of host pointers in
    front of the sparse memory.  A hit reads or writes the page through the
    pointer, a miss goes to the memory and stores the pointer of its page
    ([DmiInternalMem], with the node's [update_dmi_cache_entry] forwarding to
    [update_cache_entry], as the generated code does).

    A host pointer is a page of the heap and an offset into it; the number
    [_mem] of an entry, a pointer less an address, is a page and an offset less
    that address. *)
From stdpp Require Import prelude strings gmap list.
From Stdlib Require Import ZArith Lia.
From S2P Require Import Prelude.
From S2P Require Import MemBytes.
From S2P Require Import SparseMemory.

Local Open Scope Z_scope.

(** The kinds of an access. *)
Inductive CacheAccess : Type :=
| CacheNoAccess | CacheIFetch | CacheIFetchTrans | CacheILogRead | CacheLogRead | CacheRead | CacheWrite
| CacheFlush | CacheStore | CacheTouch | CacheAlloc | CacheInvalidate
| CacheLock | CacheLockAddr | CacheUnlock | MaxCacheAccess.

(** ** Pointers to pages of a sparse memory *)

Record pointer : Type := { ptr_page : nat; ptr_off : Z }.
Definition ptr_add (p : pointer) (n : Z) : pointer := {| ptr_page := ptr_page p; ptr_off := ptr_off p + n |}.

Section Pointers.
Context (BitWidth : Z) (Levels : nat).
Local Abbreviation SM := (SparseMemory Levels).

(** [last_page]: the byte of an address. *)
Definition last_page (m : SM) (addr : Z) : outcome (pointer * SM) :=
  let! r := getPage BitWidth Levels m addr in
  Ret ({| ptr_page := fst r; ptr_off := pageOffset BitWidth Levels addr |}, snd r).

(** The page behind a pointer, from its byte on. *)
Definition ptr_view {A} (m : SM) (p : pointer) (f : list Z → Z → outcome A) : outcome A :=
  let! pg := deref (_heap Levels m) (ptr_page p) in
  f pg (ptr_off p).
Definition ptr_change (m : SM) (p : pointer) (f : list Z → Z → outcome (list Z)) : outcome SM :=
  let! pg := deref (_heap Levels m) (ptr_page p) in
  let! pg := f pg (ptr_off p) in
  Ret {| _mem := _mem Levels m; _cache := _cache Levels m; _heap := update_page (_heap Levels m) (ptr_page p) pg |}.
(** A routine of [MemBytes] at [p] and an offset below eight.  Pages are made of
    double-words; when [p] points to one, inverting the low bits of the offset
    is inverting those of the place in the page.  Other pointers are left
    undefined. *)
Definition ptr_load {A} (m : SM) (p : pointer) (f : list Z → Z → outcome A) (offset : Z) : outcome A :=
  if ptr_off p mod 8 =? 0 then ptr_view m (ptr_add p offset) f else Undefined.
Definition ptr_store (m : SM) (p : pointer) (f : list Z → Z → outcome (list Z)) (offset : Z) : outcome SM :=
  if ptr_off p mod 8 =? 0 then ptr_change m (ptr_add p offset) f else Undefined.

Context `{B : ByteOrder}.

(** The accesses that also return the pointer. *)
Definition on_page_ptr {A} (m : SM) (addr : Z) (f : list Z → Z → outcome A) : outcome (A * pointer * SM) :=
  let! r := last_page m addr in
  let! v := ptr_view (snd r) (fst r) f in
  Ret (v, fst r, snd r).
Definition change_page_ptr (m : SM) (addr : Z) (f : list Z → Z → outcome (list Z)) : outcome (pointer * SM) :=
  let! r := last_page m addr in
  let! m := ptr_change (snd r) (fst r) f in
  Ret (fst r, m).
Definition read_last (w : width) (m : SM) (addr : Z) := on_page_ptr m addr (byte_read w).
Definition read8_last (m : SM) (addr : Z) := on_page_ptr m addr byte_read8.
Definition readpage_last (m : SM) (t : list Z) (n addr : Z) := on_page_ptr m addr (λ pg off, byte_pagecopy t 0 pg off n).
Definition write_last (w : width) (m : SM) (addr orig_value nb : Z) :=
  change_page_ptr m addr (λ pg off, byte_write w pg off orig_value nb).
Definition write8_last (m : SM) (addr orig_value : Z) := change_page_ptr m addr (λ pg off, byte_write8 pg off orig_value).
Definition fillpage_last (m : SM) (c n addr : Z) := change_page_ptr m addr (λ pg off, byte_pagefill pg off c n).
Definition writepage_last (m : SM) (s : list Z) (n addr : Z) := change_page_ptr m addr (λ pg off, byte_pagecopy pg off s 0 n).
End Pointers.

(** ** [class DmiMemHandler] *)

(** [_addr], [_mem]; a null [_mem] is no pointer. *)
Record DmiItem : Type := { item_addr : Z; item_mem : option pointer }.

Section Handler.
(** The template parameters. *)
Context (BitWidth : Z) (Levels : nat) (EntrySizeBits Size : Z) (TimeTagged : bool) `{B : ByteOrder}.
Local Abbreviation SM := (SparseMemory Levels).

Definition DmiPageSize : Z := Z.shiftl 1 EntrySizeBits.
Definition IndexMask : Z := Size - 1.
Definition CompMask : Z := shl 64 0xffffffffffffffff EntrySizeBits.

Record DmiHandler : Type := {
  _node_latency : Z;
  _internal : SM;
  _read_latency : Z;
  _write_latency : Z;
  _instr_read : list DmiItem;
  _data_read : list DmiItem;
  _data_write : list DmiItem
}.

(** [DmiCache::reset] *)
Fixpoint bad_items (n : nat) (bad : Z) : list DmiItem :=
  match n with
  | O => []
  | S n => {| item_addr := bad; item_mem := None |} :: bad_items n (wrap 64 (bad - DmiPageSize))
  end.
Definition cache_reset : list DmiItem := bad_items (Z.to_nat Size) 0xffffffffffffffff.

Definition handler_init (m : SM) : DmiHandler :=
  {| _node_latency := 0; _internal := m; _read_latency := 0; _write_latency := 0;
     _instr_read := cache_reset; _data_read := cache_reset; _data_write := cache_reset |}.
Definition setDmiLatencies (d : DmiHandler) (r w : Z) : DmiHandler :=
  {| _node_latency := _node_latency d; _internal := _internal d; _read_latency := r; _write_latency := w;
     _instr_read := _instr_read d; _data_read := _data_read d; _data_write := _data_write d |}.
Definition set_internal (d : DmiHandler) (m : SM) : DmiHandler :=
  {| _node_latency := _node_latency d; _internal := m; _read_latency := _read_latency d;
     _write_latency := _write_latency d; _instr_read := _instr_read d; _data_read := _data_read d;
     _data_write := _data_write d |}.
Definition addLatency (d : DmiHandler) (l : Z) : DmiHandler :=
  {| _node_latency := _node_latency d + l; _internal := _internal d; _read_latency := _read_latency d;
     _write_latency := _write_latency d; _instr_read := _instr_read d; _data_read := _data_read d;
     _data_write := _data_write d |}.

(** Which of the three caches. *)
Inductive which : Type := Instr_read | Data_read | Data_write.
Definition get_cache (ca : CacheAccess) : which :=
  match ca with
  | CacheIFetch | CacheILogRead => Instr_read
  | CacheRead | CacheLogRead => Data_read
  | CacheWrite | CacheFlush | CacheStore | CacheTouch => Data_write
  | _ => Data_read
  end.
Definition the_cache (d : DmiHandler) (c : which) : list DmiItem :=
  match c with Instr_read => _instr_read d | Data_read => _data_read d | Data_write => _data_write d end.
Definition set_cache (d : DmiHandler) (c : which) (l : list DmiItem) : DmiHandler :=
  {| _node_latency := _node_latency d; _internal := _internal d; _read_latency := _read_latency d;
     _write_latency := _write_latency d;
     _instr_read := match c with Instr_read => l | _ => _instr_read d end;
     _data_read := match c with Data_read => l | _ => _data_read d end;
     _data_write := match c with Data_write => l | _ => _data_write d end |}.
Definition read_cache (ca : CacheAccess) : which :=
  match ca with CacheIFetch | CacheILogRead => Instr_read | _ => Data_read end.

Definition table_index (addr : Z) : Z := Z.land (Z.shiftr addr EntrySizeBits) IndexMask.
Definition lookup_item (d : DmiHandler) (c : which) (i : Z) : outcome DmiItem :=
  match the_cache d c !! Z.to_nat i with Some it => Ret it | None => Undefined end.

Definition update_cache_entry (d : DmiHandler) (ca : CacheAccess) (addr : Z) (mem : pointer) : DmiHandler :=
  let mem := ptr_add mem (- Z.land addr (unot 64 CompMask)) in
  let c := get_cache ca in
  let page := Z.land addr CompMask in
  set_cache d c (<[Z.to_nat (table_index addr) := {| item_addr := page; item_mem := Some (ptr_add mem (- page)) |}]>
    (the_cache d c)).
Definition invalidate_cache_entry (d : DmiHandler) (ca : CacheAccess) (addr : Z) : outcome DmiHandler :=
  let c := get_cache ca in
  let i := table_index addr in
  let! it := lookup_item d c i in
  Ret (set_cache d c (<[Z.to_nat i := {| item_addr := wrap 64 (0xffffffffffffffff - i * DmiPageSize);
                                         item_mem := item_mem it |}]> (the_cache d c))).

(** [DmiInternalMem]: the access, then the entry of the page. *)
Definition update_dmi (d : DmiHandler) (ca : CacheAccess) (addr : Z) : outcome DmiHandler :=
  let! r := last_page BitWidth Levels (_internal d) addr in
  Ret (update_cache_entry (set_internal d (snd r)) ca addr (fst r)).
Definition miss_read {A} (d : DmiHandler) (ca : CacheAccess) (ra : Z) (f : SM → Z → outcome (A * SM)) :
    outcome (A * DmiHandler) :=
  let! r := f (_internal d) ra in
  let! d := update_dmi (set_internal d (snd r)) ca ra in
  Ret (fst r, d).
Definition miss_write (d : DmiHandler) (ra : Z) (f : SM → Z → outcome SM) : outcome DmiHandler :=
  let! m := f (_internal d) ra in
  update_dmi (set_internal d m) CacheWrite ra.

(** The pointer of an item at an address. *)
Definition item_ptr (it : DmiItem) (addr : Z) : outcome pointer :=
  match item_mem it with Some p => Ret (ptr_add p addr) | None => Undefined end.

(** [read<NB>] *)
Definition dmi_read {A} (NB : Z) (hit : list Z → Z → outcome A) (miss : SM → Z → outcome (A * SM))
    (d : DmiHandler) (c : which) (ca : CacheAccess) (ra : Z) : outcome (A * DmiHandler) :=
  let dw_ra := Z.ldiff ra DWMask in
  let off := Z.land ra DWMask in
  let! it := lookup_item d c (table_index (wrap 64 (dw_ra + NB - 1))) in
  if Z.land (Z.lxor ra (item_addr it)) (Z.lor CompMask (NB - 1)) =? 0 then
    let d := if TimeTagged && (match ca with CacheRead => true | _ => false end) then addLatency d (_read_latency d) else d in
    let! p := item_ptr it dw_ra in
    let! v := ptr_load Levels (_internal d) p hit off in
    Ret (v, d)
  else miss_read d ca ra miss.

(** [write<NB>] *)
Definition dmi_write (NB : Z) (hit : list Z → Z → outcome (list Z)) (miss : SM → Z → outcome SM)
    (d : DmiHandler) (addr : Z) : outcome DmiHandler :=
  let dw_addr := Z.ldiff addr DWMask in
  let off := Z.land addr DWMask in
  let! it := lookup_item d Data_write (table_index (wrap 64 (dw_addr + NB - 1))) in
  if Z.land (Z.lxor dw_addr (item_addr it)) (Z.lor CompMask (NB - 1)) =? 0 then
    let d := if TimeTagged then addLatency d (_write_latency d) else d in
    let! p := item_ptr it dw_addr in
    let! m := ptr_store Levels (_internal d) p hit off in
    Ret (set_internal d m)
  else miss_write d addr miss.

Definition handler_read (w : width) (d : DmiHandler) (ca : CacheAccess) (ra : Z) : outcome (Z * DmiHandler) :=
  dmi_read (Z.of_nat (nbytes w)) (byte_read w) (read BitWidth Levels w) d
    (match w with W32 => read_cache ca | _ => Data_read end) ca ra.
Definition handler_read8 (d : DmiHandler) (ca : CacheAccess) (ra : Z) : outcome (Z * DmiHandler) :=
  dmi_read 1 byte_read8 (read8 BitWidth Levels) d Data_read ca ra.
Definition handler_write (w : width) (d : DmiHandler) (ra v nb : Z) : outcome DmiHandler :=
  dmi_write (Z.of_nat (nbytes w)) (λ pg off, byte_write w pg off v nb) (λ m ra, write BitWidth Levels w m ra v nb) d ra.
Definition handler_write8 (d : DmiHandler) (ra v : Z) : outcome DmiHandler :=
  dmi_write 1 (λ pg off, byte_write8 pg off v) (λ m ra, write8 BitWidth Levels m ra v) d ra.

(** Accesses of [n] bytes; sizes are 64 bits wide. *)
Definition page_hit (n addr : Z) (it : DmiItem) : bool :=
  Z.land (Z.lxor addr (item_addr it)) (Z.lor CompMask (wrap 64 (n - 1))) =? 0.
Definition handler_readpage (d : DmiHandler) (ca : CacheAccess) (t : list Z) (n addr : Z) : outcome (list Z * DmiHandler) :=
  let miss := miss_read d ca addr (λ m a, readpage BitWidth Levels m t n a) in
  if n <? DmiPageSize then
    let! it := lookup_item d (read_cache ca) (table_index (wrap 64 (addr + n - 1))) in
    if page_hit n addr it then
      let! p := item_ptr it addr in
      let! t := ptr_view Levels (_internal d) p (λ pg off, byte_pagecopy t 0 pg off n) in
      Ret (t, d)
    else miss
  else miss.
Definition handler_writepage (d : DmiHandler) (s : list Z) (n addr : Z) : outcome DmiHandler :=
  let miss := miss_write d addr (λ m a, writepage BitWidth Levels m s n a) in
  if n <? DmiPageSize then
    let! it := lookup_item d Data_write (table_index (wrap 64 (addr + n - 1))) in
    if page_hit n addr it then
      let! p := item_ptr it addr in
      let! m := ptr_change Levels (_internal d) p (λ pg off, byte_pagecopy pg off s 0 n) in
      Ret (set_internal d m)
    else miss
  else miss.
Definition handler_fillpage (d : DmiHandler) (c n addr : Z) : outcome DmiHandler :=
  let miss := miss_write d addr (λ m a, fillpage BitWidth Levels m c n a) in
  if n <? DmiPageSize then
    let! it := lookup_item d Data_write (table_index (wrap 64 (addr + n - 1))) in
    if page_hit n addr it then
      let! p := item_ptr it addr in
      let! m := ptr_change Levels (_internal d) p (λ pg off, byte_pagefill pg off c n) in
      Ret (set_internal d m)
    else miss
  else miss.

Definition handler_reset (d : DmiHandler) : outcome DmiHandler :=
  let! m := reset BitWidth Levels (_internal d) in
  Ret {| _node_latency := _node_latency d; _internal := m; _read_latency := _read_latency d;
         _write_latency := _write_latency d; _instr_read := cache_reset; _data_read := cache_reset;
         _data_write := cache_reset |}.
End Handler.

(** ** Coherence of the caches with the memory *)

Section DmiCorrect.
Context (BitWidth : Z) (Levels : nat).
Context (HL : (2 ≤ Levels)%nat) (HB : Z.of_nat Levels ≤ BitWidth ≤ 64) (HP : 3 ≤ PageBits BitWidth Levels ≤ 30).
Context {B : ByteOrder} {BL : ByteOrderLaws B}.
(** An entry is a whole number of double-words and not larger than a page of the
    memory; there are [2^s] of them, two at least. *)
Context (e s : Z) (TimeTagged : bool) (He : 3 ≤ e ≤ PageBits BitWidth Levels) (Hs : 1 ≤ s) (Hes : e + s ≤ 64).
Local Abbreviation SM := (SparseMemory Levels).
Local Abbreviation top := (Levels - 1)%nat.
Local Abbreviation PS := (PageSize BitWidth Levels).
Local Abbreviation E := (2 ^ e).
Local Abbreviation find m := (find_page BitWidth Levels top (_mem Levels m)).
Local Abbreviation sm_rep := (sm_rep BitWidth Levels).
Local Abbreviation page_view := (page_view BitWidth Levels).
Local Abbreviation PageSize_eq := (PageSize_eq BitWidth Levels HL HP).
Local Abbreviation PageSize_pos := (PageSize_pos BitWidth Levels HL HP).
Local Abbreviation table_index := (table_index e (2 ^ s)).

(** *** Masks and indices *)

Lemma E_pos : 8 ≤ E ∧ E mod 8 = 0.
Proof.
  split; [change 8 with (2 ^ 3); apply Z.pow_le_mono_r; lia|].
  replace e with (3 + (e - 3)) by lia. rewrite Z.pow_add_r by lia. change (2 ^ 3) with 8.
  rewrite Z.mul_comm. apply Z_mod_mult.
Qed.
Lemma PS_E : PS = E * 2 ^ (PageBits BitWidth Levels - e).
Proof. rewrite PageSize_eq, <- Z.pow_add_r by lia. f_equal. lia. Qed.
Lemma shiftr_E a : Z.shiftr a e = a / E.
Proof. apply Z.shiftr_div_pow2. lia. Qed.
Lemma CompMask_bit i : 0 ≤ i → Z.testbit (CompMask e) i = (e <=? i) && (i <? 64).
Proof.
  intros Hi. unfold CompMask, shl. rewrite Z.mod_small by lia. rewrite testbit_wrap, testbit_shiftl by lia.
  change 0xffffffffffffffff with (Z.ones 64). rewrite testbit_ones by lia.
  destruct (Z.ltb_spec i 64), (Z.leb_spec 0 i), (Z.leb_spec e i), (Z.leb_spec 0 (i - e)), (Z.ltb_spec (i - e) 64);
    done || lia.
Qed.
Lemma land_CompMask a : uint 64 a → Z.land a (CompMask e) = E * (a / E).
Proof.
  intros Ha. rewrite Z.mul_comm, <- shiftr_E, <- Z.shiftl_mul_pow2, <- Z.ldiff_ones_r by lia.
  apply Z.bits_inj'. intros i Hi. rewrite Z.land_spec, Z.ldiff_spec, CompMask_bit, testbit_ones by lia.
  destruct (Z.ltb_spec i 64).
  - destruct (Z.leb_spec e i), (Z.leb_spec 0 i), (Z.ltb_spec i e); cbn; rewrite ?andb_true_r, ?andb_false_r; done || lia.
  - rewrite (testbit_high 64 a) by (done || lia). done.
Qed.
Lemma land_not_CompMask a : uint 64 a → Z.land a (unot 64 (CompMask e)) = a mod E.
Proof.
  intros Ha. rewrite <- Z.land_ones by lia. apply Z.bits_inj'. intros i Hi. unfold unot.
  rewrite !Z.land_spec, testbit_wrap, testbit_lnot, CompMask_bit, testbit_ones by lia.
  destruct (Z.ltb_spec i 64).
  - destruct (Z.leb_spec e i), (Z.leb_spec 0 i), (Z.ltb_spec i e); cbn; rewrite ?andb_true_r, ?andb_false_r; done || lia.
  - rewrite (testbit_high 64 a) by (done || lia). done.
Qed.
(** What the comparison of an entry with an address tests. *)
Lemma dmi_compare_spec a b m : uint 64 a → uint 64 b → Z.land (Z.lxor a b) (Z.lor (CompMask e) m) = 0 →
  a / E = b / E ∧ Z.land (Z.lxor a b) m = 0.
Proof.
  intros Ha Hb H0. assert (∀ i, 0 ≤ i → xorb (Z.testbit a i) (Z.testbit b i) &&
    (((e <=? i) && (i <? 64)) || Z.testbit m i) = false) as Hbit.
  { intros i Hi. rewrite <- Z.lxor_spec, <- CompMask_bit, <- Z.lor_spec, <- Z.land_spec, H0 by done. apply Z.testbit_0_l. }
  split.
  - rewrite <- !shiftr_E. apply Z.bits_inj'. intros i Hi. rewrite !Z.shiftr_spec by done.
    destruct (Z.ltb_spec (i + e) 64); [|by rewrite !(testbit_high 64) by (done || lia)].
    specialize (Hbit (i + e) ltac:(lia)). rewrite (proj2 (Z.leb_le _ _)), (proj2 (Z.ltb_lt _ _)) in Hbit by lia.
    cbn in Hbit. by destruct (Z.testbit a (i + e)), (Z.testbit b (i + e)).
  - apply Z.bits_inj'. intros i Hi. rewrite Z.land_spec, Z.lxor_spec, Z.testbit_0_l. specialize (Hbit i Hi).
    destruct (xorb _ _); [|done]. cbn in *. by destruct (Z.testbit m i); [rewrite orb_true_r in Hbit|].
Qed.

Lemma table_index_eq a : table_index a = (a / E) mod 2 ^ s.
Proof.
  unfold DmiMemHandler.table_index, IndexMask. replace (2 ^ s - 1) with (Z.ones s) by (rewrite Z.ones_equiv; lia).
  by rewrite Z.land_ones, shiftr_E by lia.
Qed.
Lemma table_index_range a : 0 ≤ table_index a < 2 ^ s.
Proof. rewrite table_index_eq. apply Z.mod_pos_bound, pow2_pos. lia. Qed.
(** The last byte of an access in a double-word is in the same entry. *)
Lemma dw_entry a k : uint 64 a → 0 ≤ k < 8 → wrap 64 (Z.ldiff a DWMask + k) / E = a / E.
Proof.
  intros Ha Hk. destruct E_pos as [HE HE8]. change DWMask with (Z.ones 3).
  rewrite Z.ldiff_ones_r, Z.shiftl_mul_pow2, Z.shiftr_div_pow2 by lia. change (2 ^ 3) with 8.
  rewrite wrap_small by (unfold uint in *; zlia). replace E with (8 * (E / 8)) by zlia.
  rewrite <- !Z.div_div by zlia. f_equal. zlia.
Qed.
Lemma dw_split a : 0 ≤ a → Z.ldiff a DWMask = 8 * (a / 8) ∧ Z.land a DWMask = a mod 8.
Proof.
  intros Ha. change DWMask with (Z.ones 3).
  rewrite Z.ldiff_ones_r, Z.shiftl_mul_pow2, Z.shiftr_div_pow2, Z.land_ones by lia. change (2 ^ 3) with 8. split; lia.
Qed.

(** *** The invariant *)

(** An entry that was stored: it starts at a multiple of its size and its pointer
    is the page of that address in the memory, less the address. *)
Definition item_good (m : SM) (it : DmiItem) : Prop :=
  uint 64 (item_addr it) ∧ item_addr it mod E = 0 ∧
  ∃ id, item_mem it = Some {| ptr_page := id; ptr_off := item_addr it mod PS - item_addr it |} ∧
  find m (item_addr it) = Some id.
(** An entry that was cleared: an address of which no access looks at entry [i]. *)
Definition item_bad (i : nat) (it : DmiItem) : Prop := item_addr it = 2 ^ 64 - 1 - Z.of_nat i * E.
Definition cache_ok (m : SM) (l : list DmiItem) : Prop :=
  Z.of_nat (length l) = 2 ^ s ∧ ∀ i it, l !! i = Some it → item_good m it ∨ item_bad i it.
Record handler_ok (d : DmiHandler Levels) (F : Z → Z) : Prop := {
  h_mem : sm_rep (_internal Levels d) F;
  h_cache : ∀ c, cache_ok (_internal Levels d) (the_cache Levels d c)
}.

Lemma bad_items_lookup n bad i : (∀ j, 0 ≤ j < Z.of_nat n → 0 ≤ bad - j * E < 2 ^ 64) → (i < n)%nat →
  bad_items e n bad !! i = Some {| item_addr := bad - Z.of_nat i * E; item_mem := None |}.
Proof.
  revert bad i. induction n as [|n IH]; intros bad i Hb Hi; [lia|]. destruct i as [|i]; cbn [bad_items lookup list_lookup].
  - by rewrite Z.mul_0_l, Z.sub_0_r.
  - unfold DmiPageSize. rewrite Z.shiftl_mul_pow2, Z.mul_1_l by lia. destruct n as [|n]; [lia|].
    rewrite wrap_small by (specialize (Hb 1 ltac:(lia)); unfold uint; lia).
    rewrite IH; [|intros j Hj; specialize (Hb (j + 1) ltac:(lia)); lia|lia]. do 2 f_equal. lia.
Qed.
Lemma length_bad_items n bad : length (bad_items e n bad) = n.
Proof. revert bad. induction n; intros; cbn; [done|by f_equal]. Qed.
Lemma entries_fit : 2 ^ s * E ≤ 2 ^ 64.
Proof. rewrite <- Z.pow_add_r by lia. apply Z.pow_le_mono_r; lia. Qed.
Lemma cache_reset_ok m : cache_ok m (cache_reset e (2 ^ s)).
Proof.
  pose proof (pow2_pos s ltac:(lia)). destruct E_pos as [HE _]. pose proof entries_fit.
  split; [unfold cache_reset; rewrite length_bad_items; lia|].
  intros i it Hit. right. pose proof (lookup_lt_Some _ _ _ Hit) as Hi. unfold cache_reset in *.
  rewrite length_bad_items in Hi. rewrite bad_items_lookup in Hit by (done || nia). by simplify_eq.
Qed.

(** Clearing entry [i] is safe: the addresses of page [2^64 - 1 - i * 2^e] look at
    entry [2^s - 1 - i], which is another one. *)
Lemma bad_index i it a : (Z.of_nat i < 2 ^ s) → item_bad i it → a / E = item_addr it / E →
  table_index a ≠ Z.of_nat i.
Proof.
  intros Hi Hb Ha Ht. rewrite table_index_eq, Ha, Hb in Ht. destruct E_pos as [HE _].
  assert (2 ^ 64 = E * (2 ^ s * 2 ^ (64 - e - s))) as H64 by (rewrite <- !Z.pow_add_r by lia; f_equal; lia).
  assert ((2 ^ 64 - 1 - Z.of_nat i * E) / E = 2 ^ s * 2 ^ (64 - e - s) - 1 - Z.of_nat i) as Hd.
  { symmetry. apply Z.div_unique with (E - 1); [lia|]. rewrite H64. ring. }
  rewrite Hd in Ht. pose proof (pow2_pos (64 - e - s) ltac:(lia)).
  assert ((2 ^ s * 2 ^ (64 - e - s) - 1 - Z.of_nat i) mod 2 ^ s = 2 ^ s - 1 - Z.of_nat i) as Hm.
  { symmetry. apply Z.mod_unique with (2 ^ (64 - e - s) - 1); [lia|]. ring. }
  rewrite Hm in Ht. replace s with (1 + (s - 1)) in Ht by lia. rewrite Z.pow_add_r in Ht by lia. lia.
Qed.
Lemma item_uint m l i it : cache_ok m l → l !! i = Some it → uint 64 (item_addr it).
Proof.
  intros [Hl Hc] Hit. destruct (Hc i it Hit) as [[Hu _]| ->]; [done|]. apply lookup_lt_Some in Hit.
  destruct E_pos as [HE _]. pose proof entries_fit. unfold uint. nia.
Qed.
(** So an entry that matches an address points to the page of the address. *)
Lemma hit_good m l a x it : cache_ok m l → x / E = a / E →
  l !! Z.to_nat (table_index x) = Some it → a / E = item_addr it / E → item_good m it.
Proof.
  intros [Hl Hc] Hx Hit Ha. destruct (Hc _ _ Hit) as [|Hb]; [done|]. exfalso.
  pose proof (table_index_range x). apply (bad_index (Z.to_nat (table_index x)) it x); [lia|done|congruence|lia].
Qed.
Lemma same_page a b : 0 ≤ a → 0 ≤ b → a / E = b / E → a / PS = b / PS.
Proof.
  intros Ha Hb Hab. destruct E_pos. pose proof (pow2_pos (PageBits BitWidth Levels - e) ltac:(lia)).
  rewrite PS_E, <- !Z.div_div by lia. by rewrite Hab.
Qed.
Lemma good_ptr m it a : item_good m it → 0 ≤ a → a / E = item_addr it / E →
  ∃ id, item_ptr it a = Ret {| ptr_page := id; ptr_off := a mod PS |} ∧ find m a = Some id.
Proof.
  intros (Hu & H0 & id & Hm & Hf) Ha Hae. exists id. pose proof PageSize_pos.
  assert (0 ≤ item_addr it) by apply Hu. pose proof (same_page _ _ Ha H1 Hae) as Hp. split.
  - unfold item_ptr. rewrite Hm. unfold ptr_add. cbn. do 2 f_equal.
    rewrite (Z.mod_eq a), (Z.mod_eq (item_addr it)), Hp by lia. lia.
  - rewrite <- Hf. apply find_page_key; [done..|]. unfold key. by rewrite Hp.
Qed.

(** Pages stay where they are. *)
Lemma getPage_stays m F a p m' b id : sm_rep m F → 0 ≤ a → getPage BitWidth Levels m a = Ret (p, m') →
  0 ≤ b → find m b = Some id → find m' b = Some id.
Proof.
  intros Hm Ha Hg Hb Hf. unfold getPage in Hg. case_match; [|done]. case_match; [by simplify_eq|].
  unfold update_page_cache in Hg. destruct (node_getPage BitWidth Levels top (_mem Levels m) a (_heap Levels m)) as [[q t] h] eqn:Eg.
  simplify_eq. cbn. destruct (node_getPage_spec _ _ HL HB HP _ _ _ _ _ _ _ Ha Eg) as [H1 H2].
  rewrite H2 by done. case_decide as Hk; [|done]. rewrite (find_page_key _ _ HL HB HP _ _ _ a) in Hf by done.
  destruct H1 as [[H1 _]|[H1 _]]; congruence.
Qed.
Lemma cache_ok_stays m m' l : (∀ b id, 0 ≤ b → find m b = Some id → find m' b = Some id) → cache_ok m l → cache_ok m' l.
Proof.
  intros Hst [Hl Hc]. split; [done|]. intros i it Hit. destruct (Hc i it Hit) as [(Hu & H0 & id & Hm & Hf)|]; [left|by right].
  split_and!; [apply Hu..|done|]. exists id. split; [done|]. apply Hst; [apply Hu|done].
Qed.

(** *** The operations keep it *)

Local Abbreviation DH := (DmiHandler Levels).
Lemma h_len d F c i : handler_ok d F → 0 ≤ i < 2 ^ s → ∃ it, the_cache Levels d c !! Z.to_nat i = Some it.
Proof. intros Hd Hi. apply lookup_lt_is_Some_2. destruct (h_cache _ _ Hd c) as [Hl _]. lia. Qed.
Lemma handler_internal (d : DH) m F F' : handler_ok d F → sm_rep m F' →
  (∀ b id, 0 ≤ b → find (_internal Levels d) b = Some id → find m b = Some id) →
  handler_ok (set_internal Levels d m) F'.
Proof.
  intros [Hm Hc] Hm' Hst. split; [done|]. intros c.
  apply (cache_ok_stays (_internal Levels d)); [exact Hst|]. specialize (Hc c). by destruct c.
Qed.
Lemma handler_latency d l F : handler_ok d F → handler_ok (addLatency Levels d l) F.
Proof. intros [Hm Hc]. split; [done|]. intros c. specialize (Hc c). by destruct c. Qed.
Lemma handler_set_item (d : DH) F c i it : handler_ok d F → 0 ≤ i < 2 ^ s →
  item_good (_internal Levels d) it ∨ item_bad (Z.to_nat i) it →
  handler_ok (set_cache Levels d c (<[Z.to_nat i := it]> (the_cache Levels d c))) F.
Proof.
  intros Hd Hi Hg. split; [apply (h_mem _ _ Hd)|]. intros c'.
  assert (cache_ok (_internal Levels d) (<[Z.to_nat i := it]> (the_cache Levels d c))) as Hc.
  { destruct (h_cache _ _ Hd c) as [Hl Hc]. split; [by rewrite length_insert|]. intros j jt Hj.
    apply list_lookup_insert_Some in Hj as [(<- & <- & _)|[_ Hj]]; [done|by apply Hc]. }
  pose proof (h_cache _ _ Hd c') as Hall.
  by destruct c, c'.
Qed.

Lemma update_cache_entry_ok (d : DH) F ca a id : handler_ok d F → uint 64 a → find (_internal Levels d) a = Some id →
  handler_ok (update_cache_entry Levels e (2 ^ s) d ca a {| ptr_page := id; ptr_off := a mod PS |}) F.
Proof.
  intros Hd Ha Hf. unfold update_cache_entry. apply handler_set_item; [done|apply table_index_range|]. left.
  pose proof PageSize_pos. destruct E_pos as [HE _]. rewrite land_CompMask, land_not_CompMask by done.
  assert (0 ≤ a) as Ha0 by apply Ha. pose proof (Z.mod_pos_bound a E ltac:(lia)).
  assert (E * (a / E) = a - a mod E) as Hp by (rewrite (Z.mod_eq a) by lia; lia).
  assert (uint 64 (E * (a / E))) as Hu by (rewrite Hp; pose proof (Z.mod_le a E ltac:(lia) ltac:(lia)); unfold uint in *; lia).
  assert (E * (a / E) / PS = a / PS) as Hq.
  { apply same_page; [apply Hu|done|]. rewrite (Z.mul_comm E), Z.div_mul by lia. done. }
  unfold item_good, ptr_add. cbn. split_and!; [apply Hu..|by rewrite Z.mul_comm, Z_mod_mult|].
  exists id. split.
  - do 2 f_equal. rewrite (Z.mod_eq (E * (a / E)) PS), Hq, (Z.mod_eq a PS) by lia. lia.
  - rewrite <- Hf. apply find_page_key; [done..|apply Hu|done|]. unfold key. by rewrite Hq.
Qed.
Lemma invalidate_ok (d : DH) F ca a : handler_ok d F →
  ∃ d', invalidate_cache_entry Levels e (2 ^ s) d ca a = Ret d' ∧ handler_ok d' F.
Proof.
  intros Hd. unfold invalidate_cache_entry, lookup_item. pose proof (table_index_range a) as Hi.
  destruct (h_len d F (get_cache ca) _ Hd Hi) as [it ->]. cbn [obind]. eexists. split; [done|].
  apply handler_set_item; [done..|]. right. unfold item_bad, DmiPageSize. cbn [item_addr].
  rewrite Z.shiftl_mul_pow2, Z.mul_1_l by lia. rewrite Z2Nat.id by lia. destruct E_pos as [HE _].
  pose proof entries_fit. rewrite wrap_small; [done|]. unfold uint. nia.
Qed.

Lemma last_page_spec m F a : sm_rep m F → 0 ≤ a →
  ∃ id m', last_page BitWidth Levels m a = Ret ({| ptr_page := id; ptr_off := a mod PS |}, m') ∧ sm_rep m' F ∧
  find m' a = Some id ∧ ∀ b j, 0 ≤ b → find m b = Some j → find m' b = Some j.
Proof.
  intros Hm Ha. destruct (getPage_spec _ _ HL HB HP m F a Hm Ha) as (id & m' & Eg & Hm' & Hf).
  exists id, m'. unfold last_page. rewrite Eg. cbn [obind fst snd]. rewrite pageOffset_eq by done.
  split_and!; [done..|]. intros b j. by apply (getPage_stays m F a id m').
Qed.
Lemma update_dmi_spec (d : DH) F ca a : handler_ok d F → uint 64 a →
  ∃ d', update_dmi BitWidth Levels e (2 ^ s) d ca a = Ret d' ∧ handler_ok d' F.
Proof.
  intros Hd Ha. unfold update_dmi.
  destruct (last_page_spec (_internal Levels d) F a (h_mem _ _ Hd) ltac:(apply Ha)) as (id & m' & -> & Hm' & Hf & Hst).
  cbn [obind fst snd]. eexists. split; [done|]. apply update_cache_entry_ok; [|done|done].
  by apply (handler_internal d m' F).
Qed.

(** A miss goes to the memory and stores the page. *)
Lemma miss_read_spec {A} (d : DH) F ca a (f : list Z → Z → outcome A) (P : A → Prop) : handler_ok d F → uint 64 a →
  (∀ pg, page_view F a pg → ∃ v, f pg (a mod PS) = Ret v ∧ P v) →
  ∃ v d', miss_read BitWidth Levels e (2 ^ s) d ca a (λ m a, on_page BitWidth Levels m a f) = Ret (v, d') ∧
  P v ∧ handler_ok d' F.
Proof.
  intros Hd Ha Hf. assert (0 ≤ a) as Ha0 by apply Ha. pose proof (h_mem _ _ Hd) as Hm.
  destruct (getPage_spec _ _ HL HB HP _ F a Hm Ha0) as (id & m' & Eg & Hm' & Hfi).
  destruct (sm_page _ _ _ _ Hm' _ _ Ha0 Hfi) as (pg & Hp & Hv).
  unfold miss_read, on_page. rewrite Eg. cbn [obind fst snd]. unfold deref. rewrite Hp. cbn [obind].
  destruct (Hf pg Hv) as (v & Ef & HP'). rewrite pageOffset_eq, Ef by done. cbn [obind fst snd].
  destruct (update_dmi_spec (set_internal Levels d m') F ca a) as (d' & -> & Hd'); [|done|by exists v, d'].
  apply (handler_internal d m' F); [done..|]. intros b j. by apply (getPage_stays _ F a id m').
Qed.
Definition elsewhere (F F' : Z → Z) (a : Z) : Prop :=
  ∀ k o, k ≠ key BitWidth Levels top a → 0 ≤ o < PS → F' (k * PS + o) = F (k * PS + o).
Lemma miss_write_spec (d : DH) F F' a (f : list Z → Z → outcome (list Z)) : handler_ok d F → uint 64 a →
  (∀ pg, page_view F a pg → ∃ pg', f pg (a mod PS) = Ret pg' ∧ page_view F' a pg') → elsewhere F F' a →
  ∃ d', miss_write BitWidth Levels e (2 ^ s) d a (λ m a, change_page BitWidth Levels m a f) = Ret d' ∧ handler_ok d' F'.
Proof.
  intros Hd Ha Hf Hel. assert (0 ≤ a) as Ha0 by apply Ha. pose proof (h_mem _ _ Hd) as Hm.
  destruct (getPage_spec _ _ HL HB HP _ F a Hm Ha0) as (id & m' & Eg & Hm' & Hfi).
  destruct (sm_page _ _ _ _ Hm' _ _ Ha0 Hfi) as (pg & Hp & Hv). destruct (Hf pg Hv) as (pg' & Ef & Hv').
  unfold miss_write, change_page. rewrite Eg. cbn [obind fst snd]. unfold deref. rewrite Hp. cbn [obind].
  rewrite pageOffset_eq, Ef by done. cbn [obind].
  apply update_dmi_spec; [|done]. apply (handler_internal d _ F); [done|by apply (set_page_spec _ _ HL HB HP m' F F' a id pg')|].
  intros b j. by apply (getPage_stays _ F a id m').
Qed.
(** A hit uses the pointer. *)
Lemma hit_view {A} (d : DH) F a id (f : list Z → Z → outcome A) (P : A → Prop) : handler_ok d F → 0 ≤ a →
  find (_internal Levels d) a = Some id → (∀ pg, page_view F a pg → ∃ v, f pg (a mod PS) = Ret v ∧ P v) →
  ∃ v, ptr_view Levels (_internal Levels d) {| ptr_page := id; ptr_off := a mod PS |} f = Ret v ∧ P v.
Proof.
  intros Hd Ha Hfi Hf. destruct (sm_page _ _ _ _ (h_mem _ _ Hd) _ _ Ha Hfi) as (pg & Hp & Hv).
  unfold ptr_view, deref. cbn. rewrite Hp. cbn [obind]. by apply Hf.
Qed.
Lemma hit_change (d : DH) F F' a id (f : list Z → Z → outcome (list Z)) : handler_ok d F → 0 ≤ a →
  find (_internal Levels d) a = Some id →
  (∀ pg, page_view F a pg → ∃ pg', f pg (a mod PS) = Ret pg' ∧ page_view F' a pg') → elsewhere F F' a →
  ∃ m', ptr_change Levels (_internal Levels d) {| ptr_page := id; ptr_off := a mod PS |} f = Ret m' ∧
  handler_ok (set_internal Levels d m') F'.
Proof.
  intros Hd Ha Hfi Hf Hel. destruct (sm_page _ _ _ _ (h_mem _ _ Hd) _ _ Ha Hfi) as (pg & Hp & Hv).
  destruct (Hf pg Hv) as (pg' & Ef & Hv'). unfold ptr_change, deref. cbn. rewrite Hp. cbn [obind]. rewrite Ef. cbn [obind].
  eexists. split; [done|]. apply (handler_internal d _ F); [done|by apply (set_page_spec _ _ HL HB HP _ F F' a id pg' (h_mem _ _ Hd))|done].
Qed.

(** The pointer to the double-word of an address. *)
Lemma good_dw_ptr m it a : item_good m it → uint 64 a → a / E = item_addr it / E →
  ∃ id p, item_ptr it (Z.ldiff a DWMask) = Ret p ∧ ptr_off p mod 8 = 0 ∧
  ptr_add p (Z.land a DWMask) = {| ptr_page := id; ptr_off := a mod PS |} ∧ find m a = Some id.
Proof.
  intros Hg Ha Hae. assert (0 ≤ a) as Ha0 by apply Ha. destruct (dw_split a Ha0) as [Hd Hl].
  assert (Z.ldiff a DWMask / E = a / E) as Hde.
  { rewrite <- (dw_entry a 0 Ha) by lia. rewrite Z.add_0_r, wrap_small; [done|]. rewrite Hd. unfold uint in *. zlia. }
  assert (0 ≤ Z.ldiff a DWMask) as Hd0 by (rewrite Hd; zlia).
  destruct (good_ptr m it (Z.ldiff a DWMask) Hg Hd0 ltac:(congruence)) as (id & Ep & Hf).
  eexists id, _. split; [exact Ep|]. cbn [ptr_off]. pose proof (same_page _ _ Hd0 Ha0 Hde) as Hp. pose proof PageSize_pos.
  assert (Z.ldiff a DWMask mod PS + a mod 8 = a mod PS) as Hsum
    by (rewrite !(Z.mod_eq _ PS), Hp, Hd by lia; rewrite (Z.mod_eq a 8) by lia; lia).
  destruct (offset_room BitWidth Levels HL HP (Z.ldiff a DWMask) Hd0) as [_ H8]. split_and!.
  - rewrite H8, Hd, Z.mul_comm. apply Z_mod_mult.
  - unfold ptr_add. cbn. by rewrite Hl, Hsum.
  - rewrite <- Hf. apply find_page_key; [done..|]. unfold key. by rewrite Hp.
Qed.

Lemma dmi_read_spec {A} NB (f : list Z → Z → outcome A) (d : DH) c ca a F (P : A → Prop) : handler_ok d F → uint 64 a → 1 ≤ NB ≤ 8 →
  (∀ pg, page_view F a pg → ∃ v, f pg (a mod PS) = Ret v ∧ P v) →
  ∃ v d', dmi_read BitWidth Levels e (2 ^ s) TimeTagged NB f (λ m a, on_page BitWidth Levels m a f) d c ca a = Ret (v, d') ∧
  P v ∧ handler_ok d' F.
Proof.
  intros Hd Ha HN Hf. unfold dmi_read, lookup_item. rewrite <- Z.add_sub_assoc.
  set (x := wrap 64 _). destruct (h_len d F c _ Hd (table_index_range x)) as [it Hit]. rewrite Hit. cbn [obind].
  destruct (Z.eqb_spec (Z.land (Z.lxor a (item_addr it)) (Z.lor (CompMask e) (NB - 1))) 0) as [Hc|Hc];
    [|by apply miss_read_spec].
  assert (x / E = a / E) as Hx by (apply dw_entry; [done|lia]).
  pose proof (h_cache _ _ Hd c) as Hcok. assert (uint 64 (item_addr it)) as Hu by by eapply item_uint.
  destruct (dmi_compare_spec _ _ _ Ha Hu Hc) as [Hae _].
  destruct (good_dw_ptr (_internal Levels d) it a) as (id & p & -> & Hp8 & Hpa & Hfi); [exact (hit_good _ _ a x it Hcok Hx Hit Hae)|done..|].
  cbn [obind]. set (d' := if _ : bool then _ else _).
  assert (handler_ok d' F ∧ _internal Levels d' = _internal Levels d) as [Hd' Ei]
    by (unfold d'; destruct (_ && _); [split; [by apply handler_latency|done]|done]).
  unfold ptr_load. rewrite Hp8, Z.eqb_refl, Hpa, Ei.
  destruct (hit_view d F a id f P Hd ltac:(apply Ha) Hfi Hf) as (v & -> & Hv). by exists v, d'.
Qed.
Lemma dmi_write_spec NB (f : list Z → Z → outcome (list Z)) (d : DH) a F F' : handler_ok d F → uint 64 a → 1 ≤ NB ≤ 8 →
  (∀ pg, page_view F a pg → ∃ pg', f pg (a mod PS) = Ret pg' ∧ page_view F' a pg') → elsewhere F F' a →
  ∃ d', dmi_write BitWidth Levels e (2 ^ s) TimeTagged NB f (λ m a, change_page BitWidth Levels m a f) d a = Ret d' ∧
  handler_ok d' F'.
Proof.
  intros Hd Ha HN Hf Hel. unfold dmi_write, lookup_item. rewrite <- Z.add_sub_assoc.
  set (x := wrap 64 _). destruct (h_len d F Data_write _ Hd (table_index_range x)) as [it Hit]. rewrite Hit. cbn [obind].
  destruct (Z.eqb_spec (Z.land (Z.lxor (Z.ldiff a DWMask) (item_addr it)) (Z.lor (CompMask e) (NB - 1))) 0) as [Hc|Hc];
    [|by apply (miss_write_spec d F F')].
  assert (x / E = a / E) as Hx by (apply dw_entry; [done|lia]).
  assert (0 ≤ a) as Ha0 by apply Ha. destruct (dw_split a Ha0) as [Hdw Hl].
  assert (uint 64 (Z.ldiff a DWMask)) as Hud by (rewrite Hdw; unfold uint in *; zlia).
  pose proof (h_cache _ _ Hd Data_write) as Hcok. assert (uint 64 (item_addr it)) as Hu by by eapply item_uint.
  destruct (dmi_compare_spec _ _ _ Hud Hu Hc) as [Hae _].
  rewrite <- (wrap_small 64 _ Hud), <- (Z.add_0_r (Z.ldiff a DWMask)), dw_entry in Hae by (done || lia).
  destruct (good_dw_ptr (_internal Levels d) it a) as (id & p & -> & Hp8 & Hpa & Hfi); [exact (hit_good _ _ a x it Hcok Hx Hit Hae)|done..|].
  cbn [obind]. set (d' := if _ : bool then _ else _).
  assert (handler_ok d' F ∧ _internal Levels d' = _internal Levels d) as [Hd' Ei]
    by (unfold d'; destruct TimeTagged; [split; [by apply handler_latency|done]|done]).
  unfold ptr_store. rewrite Hp8, Z.eqb_refl, Hpa. rewrite <- Ei in Hfi.
  destruct (hit_change d' F F' a id f Hd' Ha0 Hfi Hf Hel) as (m' & -> & Hok). by eexists.
Qed.

(** Copies of double-words.  A cleared entry has an odd address. *)
Lemma page_hit_good m l a x n it : cache_ok m l → l !! Z.to_nat (table_index x) = Some it →
  uint 64 a → a mod 8 = 0 → n mod 8 = 0 → page_hit e n a it = true → item_good m it ∧ a / E = item_addr it / E.
Proof.
  intros Hc Hit Ha Ha8 Hn8 Hh. apply Z.eqb_eq in Hh.
  destruct (dmi_compare_spec _ _ _ Ha (item_uint _ _ _ _ Hc Hit) Hh) as [Hae H0]. split; [|done].
  destruct (proj2 Hc _ _ Hit) as [|Hb]; [done|]. exfalso. destruct E_pos as [_ HE8].
  apply (f_equal (λ z, Z.testbit z 0)) in H0. rewrite Z.land_spec, Z.lxor_spec, testbit_wrap, Z.testbit_0_l in H0 by lia.
  rewrite Hb in H0. rewrite !Z.bit0_odd, !Z.odd_sub, Z.odd_mul in H0.
  assert (Z.odd a = false ∧ Z.odd n = false ∧ Z.odd E = false) as (Ho1 & Ho2 & Ho3)
    by (rewrite <- !Z.bit0_odd, !Z.bit0_eqb, !Z.eqb_neq; clear - Ha8 Hn8 HE8; zlia).
  rewrite Ho1, Ho2, Ho3, andb_false_r in H0. by cbn in H0.
Qed.
Definition copy_ok (a n : Z) : Prop := uint 64 a ∧ a mod 8 = 0 ∧ 0 ≤ n ∧ n mod 8 = 0 ∧ a mod PS + n ≤ PS.
Lemma readpage_ok (d : DH) ca n a F : handler_ok d F → copy_ok a n →
  ∃ t d', handler_readpage BitWidth Levels e (2 ^ s) d ca (replicate (Z.to_nat n) 0) n a = Ret (t, d') ∧
  (Z.of_nat (length t) = n ∧ ∀ k, 0 ≤ k < n → byte_at t k = F (location BitWidth a + k)) ∧ handler_ok d' F.
Proof.
  intros Hd (Ha & Ha8 & Hn & Hn8 & Hr). assert (0 ≤ a) as Ha0 by apply Ha. unfold handler_readpage, lookup_item.
  set (f := λ pg off, byte_pagecopy (replicate (Z.to_nat n) 0) 0 pg off n).
  set (P := λ t : list Z, Z.of_nat (length t) = n ∧ ∀ k, 0 ≤ k < n → byte_at t k = F (location BitWidth a + k)).
  assert (∀ pg, page_view F a pg → ∃ v, f pg (a mod PS) = Ret v ∧ P v) as Hf.
  { intros pg Hv. unfold f, byte_pagecopy.
    destruct (page_load _ _ HL HB HP F a (Z.to_nat n) pg Ha0 Ha8) as (l & -> & Hl & Hp & Hb); rewrite ?Z2Nat.id by lia; [done..|].
    cbn [obind]. unfold memcpy. rewrite length_replicate, Hl, !(proj2 (Z.leb_le _ _)) by lia. cbn [andb].
    eexists. split; [done|]. rewrite drop_ge by (rewrite length_replicate; lia). rewrite app_nil_r. change (P l).
    rewrite Z2Nat.id in Hb by lia. split; [lia|done]. }
  destruct (n <? _); [|by apply (miss_read_spec d F ca a f P)]. set (x := wrap 64 _).
  destruct (h_len d F (read_cache ca) _ Hd (table_index_range x)) as [it Hit]. rewrite Hit. cbn [obind].
  destruct (page_hit e n a it) eqn:Hh; [|by apply (miss_read_spec d F ca a f P)].
  destruct (page_hit_good _ _ a x n it (h_cache _ _ Hd (read_cache ca)) Hit Ha Ha8 Hn8 Hh) as [Hg Hae].
  destruct (good_ptr _ it a Hg Ha0 Hae) as (id & -> & Hfi). cbn [obind].
  destruct (hit_view d F a id f P Hd Ha0 Hfi Hf) as (v & -> & Hv). by exists v, d.
Qed.
(** [writepage] and [fillpage] are the same but for what they copy. *)
Lemma copy_in_ok (d : DH) n a F F' (f : list Z → Z → outcome (list Z)) : handler_ok d F → copy_ok a n →
  (∀ pg, page_view F a pg → ∃ pg', f pg (a mod PS) = Ret pg' ∧ page_view F' a pg') → elsewhere F F' a →
  ∃ d', (if n <? DmiPageSize e then
    let! it := lookup_item Levels d Data_write (table_index (wrap 64 (a + n - 1))) in
    if page_hit e n a it then
      let! p := item_ptr it a in
      let! m := ptr_change Levels (_internal Levels d) p f in
      Ret (set_internal Levels d m)
    else miss_write BitWidth Levels e (2 ^ s) d a (λ m a, change_page BitWidth Levels m a f)
  else miss_write BitWidth Levels e (2 ^ s) d a (λ m a, change_page BitWidth Levels m a f)) = Ret d' ∧ handler_ok d' F'.
Proof.
  intros Hd (Ha & Ha8 & Hn & Hn8 & Hr) Hf Hel. assert (0 ≤ a) as Ha0 by apply Ha. unfold lookup_item.
  destruct (n <? _); [|by apply (miss_write_spec d F F' a f)]. set (x := wrap 64 _).
  destruct (h_len d F Data_write _ Hd (table_index_range x)) as [it Hit]. rewrite Hit. cbn [obind].
  destruct (page_hit e n a it) eqn:Hh; [|by apply (miss_write_spec d F F' a f)].
  destruct (page_hit_good _ _ a x n it (h_cache _ _ Hd Data_write) Hit Ha Ha8 Hn8 Hh) as [Hg Hae].
  destruct (good_ptr _ it a Hg Ha0 Hae) as (id & -> & Hfi). cbn [obind].
  destruct (hit_change d F F' a id f Hd Ha0 Hfi Hf Hel) as (m' & -> & Hok). by eexists.
Qed.
Lemma writepage_ok (d : DH) t n a F : handler_ok d F → copy_ok a n → digits 8 t → n = Z.of_nat (length t) →
  ∃ d', handler_writepage BitWidth Levels e (2 ^ s) d t n a = Ret d' ∧
  handler_ok d' (put_bytes F (location BitWidth a) (byte_at t) n).
Proof.
  intros Hd Hcp Ht ->. apply (copy_in_ok d _ a F); [done..| |]; destruct Hcp as (Ha & Ha8 & Hn & Hn8 & Hr).
  - intros pg Hv. unfold byte_pagecopy, load. rewrite Nat2Z.id, Z.add_0_l, !Z.leb_refl. cbn [andb].
    rewrite Z2Nat.inj_0, drop_0, take_ge by done. cbn [obind].
    apply page_memcpy; try done. apply Ha.
  - unfold elsewhere. apply sm_put_bytes; [done..|apply Ha|lia|done].
Qed.
Lemma fillpage_ok (d : DH) c n a F : handler_ok d F → copy_ok a n → uint 8 c →
  ∃ d', handler_fillpage BitWidth Levels e (2 ^ s) d c n a = Ret d' ∧
  handler_ok d' (put_bytes F (location BitWidth a) (λ _, c) n).
Proof.
  intros Hd Hcp Hc. apply (copy_in_ok d _ a F); [done..| |]; destruct Hcp as (Ha & Ha8 & Hn & Hn8 & Hr).
  - intros pg Hv. unfold byte_pagefill. set (t := replicate _ _).
    assert (Z.of_nat (length t) = n) as Hl by (unfold t; rewrite length_replicate; lia).
    destruct (page_memcpy _ _ HL HB HP F a t pg) as (pg' & E' & Hv');
      [apply Ha|done|split; [by apply Forall_replicate|by rewrite Hl]|by rewrite Hl|done|].
    exists pg'. split; [done|]. eapply page_view_ext; [|exact Hv']. intros b. unfold put_bytes. rewrite Hl.
    destruct (Z.leb_spec (location BitWidth a) b), (Z.ltb_spec b (location BitWidth a + n)); cbn [andb]; try done.
    unfold byte_at, t. apply lookup_total_replicate_2.
    pose proof (place_range n (b - location BitWidth a) Hn8 ltac:(lia)). lia.
  - unfold elsewhere. apply sm_put_bytes; [done..|apply Ha|lia|done].
Qed.
Lemma handler_reset_ok (d : DH) : ∃ d', handler_reset BitWidth Levels e (2 ^ s) d = Ret d' ∧ handler_ok d' (λ _, 0).
Proof.
  unfold handler_reset. destruct (reset_spec BitWidth Levels HL HB HP (_internal Levels d)) as (m' & -> & Hm').
  cbn [obind]. eexists. split; [done|]. split; [done|]. intros c. destruct c; apply cache_reset_ok.
Qed.
Lemma init_ok m F : sm_rep m F → handler_ok (handler_init Levels e (2 ^ s) m) F.
Proof. intros Hm. split; [done|]. intros c. destruct c; apply cache_reset_ok. Qed.
(** Matching entries point to the byte. *)
Lemma match_ptr (d : DH) F c a it : handler_ok d F → uint 64 a →
  the_cache Levels d c !! Z.to_nat (table_index a) = Some it →
  Z.land (Z.lxor a (item_addr it)) (CompMask e) = 0 →
  ∃ p, find (_internal Levels d) a = Some p ∧
  item_ptr it a = Ret {| ptr_page := p; ptr_off := pageOffset BitWidth Levels a |}.
Proof.
  intros Hd Ha Hit Hm. pose proof (h_cache _ _ Hd c) as Hc. rewrite <- (Z.lor_0_r (CompMask e)) in Hm.
  destruct (dmi_compare_spec _ _ _ Ha (item_uint _ _ _ _ Hc Hit) Hm) as [Hae _].
  destruct (good_ptr _ it a (hit_good _ _ a a it Hc eq_refl Hit Hae) ltac:(apply Ha) Hae) as (p & Hp & Hf).
  exists p. by rewrite pageOffset_eq.
Qed.
End DmiCorrect.

(** ** Sequences of operations *)

Inductive dmi_op : Type :=
| DmiRead (w : width) (ca : CacheAccess) (a : Z)
| DmiRead8 (ca : CacheAccess) (a : Z)
| DmiWrite (w : width) (a v nb : Z)
| DmiWrite8 (a v : Z)
| DmiReadPage (ca : CacheAccess) (n a : Z)
| DmiWritePage (t : list Z) (a : Z)
| DmiFillPage (c n a : Z)
| DmiInvalidate (ca : CacheAccess) (a : Z)
| DmiReset.

Section DmiRuns.
Context (BitWidth : Z) (Levels : nat) (EntrySizeBits Size : Z) (TimeTagged : bool) `{B : ByteOrder}.
(** Bytes of a buffer, in logical order. *)
Definition logical (t : list Z) (n : Z) : list Z := (λ k, byte_at t (Z.of_nat k)) <$> seq 0 (Z.to_nat n).
Definition dmi_exec (d : DmiHandler Levels) (o : dmi_op) : outcome (list Z * DmiHandler Levels) :=
  match o with
  | DmiRead w ca a => let! r := handler_read BitWidth Levels EntrySizeBits Size TimeTagged w d ca a in Ret ([fst r], snd r)
  | DmiRead8 ca a => let! r := handler_read8 BitWidth Levels EntrySizeBits Size TimeTagged d ca a in Ret ([fst r], snd r)
  | DmiWrite w a v nb => let! d := handler_write BitWidth Levels EntrySizeBits Size TimeTagged w d a v nb in Ret ([], d)
  | DmiWrite8 a v => let! d := handler_write8 BitWidth Levels EntrySizeBits Size TimeTagged d a v in Ret ([], d)
  | DmiReadPage ca n a =>
      let! r := handler_readpage BitWidth Levels EntrySizeBits Size d ca (replicate (Z.to_nat n) 0) n a in
      Ret (logical (fst r) n, snd r)
  | DmiWritePage t a => let! d := handler_writepage BitWidth Levels EntrySizeBits Size d t (Z.of_nat (length t)) a in Ret ([], d)
  | DmiFillPage c n a => let! d := handler_fillpage BitWidth Levels EntrySizeBits Size d c n a in Ret ([], d)
  | DmiInvalidate ca a => let! d := invalidate_cache_entry Levels EntrySizeBits Size d ca a in Ret ([], d)
  | DmiReset => let! d := handler_reset BitWidth Levels EntrySizeBits Size d in Ret ([], d)
  end.
Fixpoint dmi_run (d : DmiHandler Levels) (ops : list dmi_op) : outcome (list Z * DmiHandler Levels) :=
  match ops with
  | [] => Ret ([], d)
  | o :: ops =>
      let! r := dmi_exec d o in
      let! r' := dmi_run (snd r) ops in
      Ret (fst r ++ fst r', snd r')
  end.

(** The flat memory: no caches, so nothing to invalidate. *)
Definition dmi_flat (F : Z → Z) (o : dmi_op) : list Z * (Z → Z) :=
  match o with
  | DmiRead w _ a => ([value_at F (location BitWidth a) (nbytes w)], F)
  | DmiRead8 _ a => ([F (location BitWidth a)], F)
  | DmiWrite w a v nb => ([], write_bytes F (location BitWidth a) (nbytes w) v nb)
  | DmiWrite8 a v => ([], write_bytes F (location BitWidth a) 1 v 1)
  | DmiReadPage _ n a => ((λ k, F (location BitWidth a + Z.of_nat k)) <$> seq 0 (Z.to_nat n), F)
  | DmiWritePage t a => ([], put_bytes F (location BitWidth a) (byte_at t) (Z.of_nat (length t)))
  | DmiFillPage c n a => ([], put_bytes F (location BitWidth a) (λ _, c) n)
  | DmiInvalidate _ _ => ([], F)
  | DmiReset => ([], λ _, 0)
  end.
Fixpoint dmi_flat_run (F : Z → Z) (ops : list dmi_op) : list Z :=
  match ops with
  | [] => []
  | o :: ops => fst (dmi_flat F o) ++ dmi_flat_run (snd (dmi_flat F o)) ops
  end.
(** Accesses that stay in a double-word, copies of double-words in a page. *)
Definition dmi_op_ok (o : dmi_op) : Prop :=
  match o with
  | DmiRead w _ a => uint 64 a ∧ a mod 8 + Z.of_nat (nbytes w) ≤ 8
  | DmiRead8 _ a => uint 64 a
  | DmiWrite w a v nb => uint 64 a ∧ 0 ≤ nb ≤ Z.of_nat (nbytes w) ∧ a mod 8 + nb ≤ 8
  | DmiWrite8 a v => uint 64 a ∧ uint 8 v
  | DmiReadPage _ n a => copy_ok BitWidth Levels a n
  | DmiWritePage t a => copy_ok BitWidth Levels a (Z.of_nat (length t)) ∧ digits 8 t
  | DmiFillPage c n a => copy_ok BitWidth Levels a n ∧ uint 8 c
  | DmiInvalidate _ _ | DmiReset => True
  end.
End DmiRuns.

Section DmiTheorems.
Context (BitWidth : Z) (Levels : nat).
Context (HL : (2 ≤ Levels)%nat) (HB : Z.of_nat Levels ≤ BitWidth ≤ 64) (HP : 3 ≤ PageBits BitWidth Levels ≤ 30).
Context {B : ByteOrder} {BL : ByteOrderLaws B}.
Context (e s : Z) (TimeTagged : bool) (He : 3 ≤ e ≤ PageBits BitWidth Levels) (Hs : 1 ≤ s) (Hes : e + s ≤ 64).
Local Abbreviation ok := (handler_ok BitWidth Levels e s).

Lemma dmi_exec_spec d F o : ok d F → dmi_op_ok BitWidth Levels o →
  ∃ d', dmi_exec BitWidth Levels e (2 ^ s) TimeTagged d o = Ret (fst (dmi_flat BitWidth F o), d') ∧
  ok d' (snd (dmi_flat BitWidth F o)).
Proof.
  intros Hd Ho. destruct o as [w ca a|ca a|w a v nb|a v|ca n a|t a|c n a|ca a|]; cbn [dmi_exec dmi_flat dmi_op_ok fst snd] in *.
  - destruct Ho as [Ha H8].
    destruct (dmi_read_spec BitWidth Levels HL HB HP e s TimeTagged He Hs Hes (Z.of_nat (nbytes w)) (byte_read w) d
      (match w with W32 => read_cache ca | _ => Data_read end) ca a F
      (λ v, v = value_at F (location BitWidth a) (nbytes w)) Hd Ha ltac:(destruct w; cbn; lia)) as (v & d' & E & -> & Hd').
    { intros pg Hv. eexists. split; [|done]. apply page_read; try done. apply Ha. }
    unfold handler_read, read. rewrite E. by exists d'.
  - destruct (dmi_read_spec BitWidth Levels HL HB HP e s TimeTagged He Hs Hes 1 byte_read8 d Data_read ca a F
      (λ v, v = F (location BitWidth a)) Hd Ho ltac:(lia)) as (v & d' & E & -> & Hd').
    { intros pg Hv. eexists. split; [|done]. apply page_read8; try done. apply Ho. }
    unfold handler_read8, read8. rewrite E. by exists d'.
  - destruct Ho as (Ha & Hnb & H8). assert (0 ≤ a) as Ha0 by apply Ha.
    destruct (dmi_write_spec BitWidth Levels HL HB HP e s TimeTagged He Hs Hes (Z.of_nat (nbytes w))
      (λ pg off, byte_write w pg off v nb) d a F (write_bytes F (location BitWidth a) (nbytes w) v nb) Hd Ha
      ltac:(destruct w; cbn; lia)) as (d' & E & Hd').
    + intros pg. by apply page_write.
    + unfold elsewhere. apply sm_write_bytes; done || lia.
    + unfold handler_write, write. rewrite E. by exists d'.
  - destruct Ho as (Ha & Hv). assert (0 ≤ a) as Ha0 by apply Ha. pose proof (Z.mod_pos_bound a 8 ltac:(lia)).
    destruct (dmi_write_spec BitWidth Levels HL HB HP e s TimeTagged He Hs Hes 1
      (λ pg off, byte_write8 pg off v) d a F (write_bytes F (location BitWidth a) 1 v 1) Hd Ha ltac:(lia)) as (d' & E & Hd').
    + intros pg. by apply page_write8.
    + unfold elsewhere. apply sm_write_bytes; done || lia.
    + unfold handler_write8, write8. rewrite E. by exists d'.
  - destruct (readpage_ok BitWidth Levels HL HB HP e s He Hs Hes d ca n a F Hd Ho) as (t & d' & -> & [Hl Hb] & Hd').
    cbn [obind fst snd]. exists d'. split; [|done]. do 2 f_equal. unfold logical. apply list_fmap_ext.
    intros i k Hk. apply lookup_seq in Hk as [-> Hk]. apply Hb. lia.
  - destruct Ho as [Ho Ht].
    destruct (writepage_ok BitWidth Levels HL HB HP e s He Hs Hes d t _ a F Hd Ho Ht eq_refl) as (d' & -> & Hd').
    by exists d'.
  - destruct Ho as [Ho Hc].
    destruct (fillpage_ok BitWidth Levels HL HB HP e s He Hs Hes d c n a F Hd Ho Hc) as (d' & -> & Hd'). by exists d'.
  - destruct (invalidate_ok BitWidth Levels HL e s He Hs Hes d F ca a Hd) as (d' & -> & Hd'). by exists d'.
  - destruct (handler_reset_ok BitWidth Levels HL HB HP e s He Hs Hes d) as (d' & -> & Hd'). by exists d'.
Qed.
Lemma dmi_run_spec d F ops : ok d F → Forall (dmi_op_ok BitWidth Levels) ops →
  ∃ d' F', dmi_run BitWidth Levels e (2 ^ s) TimeTagged d ops = Ret (dmi_flat_run BitWidth F ops, d') ∧ ok d' F'.
Proof.
  intros Hd Ho. revert d F Hd. induction Ho as [|o ops Ho Hos IH]; intros d F Hd; [by exists d, F|]. cbn.
  destruct (dmi_exec_spec d F o Hd Ho) as (d1 & -> & Hd1). cbn [obind fst snd].
  destruct (IH d1 _ Hd1) as (d2 & F2 & -> & Hd2). by exists d2, F2.
Qed.
End DmiTheorems.

(** C19: a cache of direct pointers in front of a sparse memory cannot be observed.
    From the constructors, through any sequence of reads, writes, copies of pages,
    fills, invalidations of entries and resets, the handler answers like a flat
    memory of [2^BitWidth] bytes, in either byte order, whichever of the three
    caches the accesses use and whether latency is counted or not.  Entries hold
    [2^e] bytes, not less than a double-word and not more than a page, and a
    cache has [2^s] of them, two at least. *)
Theorem dmi_refines (BitWidth : Z) (Levels : nat) (B : ByteOrder) (e s : Z) (TimeTagged : bool) (ops : list dmi_op) :
  (2 ≤ Levels)%nat → Z.of_nat Levels ≤ BitWidth ≤ 64 → 3 ≤ PageBits BitWidth Levels ≤ 30 →
  3 ≤ e ≤ PageBits BitWidth Levels → 1 ≤ s → e + s ≤ 64 →
  B = addr_invariant ∨ B = data_invariant → Forall (dmi_op_ok BitWidth Levels) ops →
  ∃ m0 d, init BitWidth Levels = Ret m0 ∧
  dmi_run BitWidth Levels e (2 ^ s) TimeTagged (handler_init Levels e (2 ^ s) m0) ops =
    Ret (dmi_flat_run BitWidth (λ _, 0) ops, d).
Proof.
  intros HL HB HP He Hs Hes HO Hops.
  assert (ByteOrderLaws B) as BL by (destruct HO as [->| ->]; apply _).
  destruct (init_spec BitWidth Levels HL HB HP) as (m0 & E0 & Hm0).
  destruct (dmi_run_spec BitWidth Levels HL HB HP e s TimeTagged He Hs Hes _ (λ _, 0) ops
    (init_ok BitWidth Levels HL e s He Hs Hes m0 _ Hm0) Hops) as (d & F & Er & _). by exists m0, d.
Qed.

(** The invariant of the caches: in every handler that a sequence of operations
    reaches, an entry that matches an address holds the pointer to the byte of
    that address, in the page that the tree of the memory has for it now.  So a
    reset, an invalidation or a page that is made later leave no stale pointer and
    no null pointer is followed. *)
Theorem dmi_coherent (BitWidth : Z) (Levels : nat) (B : ByteOrder) (e s : Z) (TimeTagged : bool) (ops : list dmi_op)
    m0 out d c a it :
  (2 ≤ Levels)%nat → Z.of_nat Levels ≤ BitWidth ≤ 64 → 3 ≤ PageBits BitWidth Levels ≤ 30 →
  3 ≤ e ≤ PageBits BitWidth Levels → 1 ≤ s → e + s ≤ 64 →
  B = addr_invariant ∨ B = data_invariant → Forall (dmi_op_ok BitWidth Levels) ops →
  init BitWidth Levels = Ret m0 →
  dmi_run BitWidth Levels e (2 ^ s) TimeTagged (handler_init Levels e (2 ^ s) m0) ops = Ret (out, d) →
  uint 64 a → lookup_item Levels d c (table_index e (2 ^ s) a) = Ret it →
  Z.land (Z.lxor a (item_addr it)) (CompMask e) = 0 →
  ∃ p, find_page BitWidth Levels (Levels - 1) (_mem Levels (_internal Levels d)) a = Some p ∧
  item_ptr it a = Ret {| ptr_page := p; ptr_off := pageOffset BitWidth Levels a |}.
Proof.
  intros HL HB HP He Hs Hes HO Hops E0 Er Ha Hit Hm.
  assert (ByteOrderLaws B) as BL by (destruct HO as [->| ->]; apply _).
  destruct (init_spec BitWidth Levels HL HB HP) as (m1 & E1 & Hm0). rewrite E0 in E1. injection E1 as <-.
  destruct (dmi_run_spec BitWidth Levels HL HB HP e s TimeTagged He Hs Hes _ (λ _, 0) ops
    (init_ok BitWidth Levels HL e s He Hs Hes m0 _ Hm0) Hops) as (d' & F & Er' & Hd).
  rewrite Er in Er'. injection Er' as _ <-. unfold lookup_item in Hit. case_match eqn:El; [|done]. injection Hit as <-.
  by apply (match_ptr BitWidth Levels HL HB HP e s He Hs Hes d F c a).
Qed.

Definition demo_ops : list dmi_op :=
  [DmiWrite W32 0x1004 0xdeadbeef 4; DmiRead W16 CacheRead 0x1006; DmiRead W32 CacheIFetch 0x1004;
   DmiWrite8 0x1005 0x77; DmiRead W32 CacheIFetch 0x1004; DmiReadPage CacheRead 8 0x1000;
   DmiInvalidate CacheRead 0x1000; DmiWritePage [1; 2; 3; 4; 5; 6; 7; 8] 0x1008; DmiFillPage 0xaa 8 0x1000;
   DmiRead W64 CacheRead 0x1000; DmiRead W16 CacheRead 0xfffe; DmiReset; DmiRead8 CacheRead 0x1005; DmiRead8 CacheRead 0xffff].
Lemma demo_ops_ok : Forall (dmi_op_ok 16 4) demo_ops.
Proof. unfold demo_ops. repeat apply Forall_cons_2; try apply Forall_nil_2; vm_compute; repeat split; try discriminate; repeat constructor; discriminate. Qed.

Lemma dmi_refines_witness : ∃ m0 d, init 16 4 = Ret m0 ∧
  dmi_run 16 4 4 (2 ^ 3) true (handler_init 4 4 (2 ^ 3) m0) (B := addr_invariant) demo_ops =
  Ret ([0xbeef; 0xdeadbeef; 0xde77beef; 0; 0; 0; 0; 0xde; 0x77; 0xbe; 0xef; 0xaaaaaaaaaaaaaaaa; 0; 0; 0], d).
Proof.
  destruct (dmi_refines 16 4 addr_invariant 4 3 true demo_ops) as (m0 & d & E0 & E).
  - lia.
  - lia.
  - vm_compute. split; discriminate.
  - vm_compute. split; discriminate.
  - lia.
  - lia.
  - by left.
  - apply demo_ops_ok.
  - exists m0, d. split; [exact E0|]. rewrite E. vm_compute. reflexivity.
Defined.

Definition or_else {A} (r : outcome A) (x : A) : A := match r with Ret v => v | _ => x end.
Definition demo_start : SparseMemory 4 :=
  or_else (init 16 4) {| _mem := empty_tree 4; _cache := []; _heap := {| pages := ∅; next := 1 |} |}.
Definition demo_handler : DmiHandler 4 :=
  snd (or_else (dmi_run 16 4 4 (2 ^ 3) true (handler_init 4 4 (2 ^ 3) demo_start) (B := addr_invariant) (take 4 demo_ops))
    ([], handler_init 4 4 (2 ^ 3) demo_start)).
Definition demo_item : DmiItem :=
  or_else (lookup_item 4 demo_handler Instr_read (table_index 4 (2 ^ 3) 0x1009)) {| item_addr := 0; item_mem := None |}.
Lemma dmi_coherent_witness : ∃ p,
  find_page 16 4 3 (_mem 4 (_internal 4 demo_handler)) 0x1009 = Some p ∧
  item_ptr demo_item 0x1009 = Ret {| ptr_page := p; ptr_off := pageOffset 16 4 0x1009 |}.
Proof.
  apply (dmi_coherent 16 4 addr_invariant 4 3 true (take 4 demo_ops) demo_start [0xbeef; 0xdeadbeef] demo_handler
    Instr_read 0x1009 demo_item).
  - lia.
  - lia.
  - vm_compute. split; discriminate.
  - vm_compute. split; discriminate.
  - lia.
  - lia.
  - by left.
  - apply Forall_take, demo_ops_ok.
  - vm_compute. reflexivity.
  - vm_compute. reflexivity.
  - vm_compute. split; [discriminate|reflexivity].
  - vm_compute. reflexivity.
  - vm_compute. reflexivity.
Defined.

(** With a single entry, page [2^64 - 2^e] is the page of that entry: after a
    reset, a byte read of the last address matches the null pointer. *)
Example single_entry_hits_null :
  handler_read8 64 4 4 1 false (handler_init 4 4 1 demo_start) CacheRead 0xffffffffffffffff (B := addr_invariant)
  = Undefined.
Proof. vm_compute. reflexivity. Qed.
