(* ===== verification/SharedNode.v ===== *)
(** * The tree of a sparse memory under several threads

    [Node::get] and [Node::getPage] of [src/iss/Memory.h] with
    [THREAD_SAFE_MEMORY]: children are atomic pointers, a thread that finds a null
    one makes a child and tries to exchange it in.  Threads interleave at every
    load, allocation, exchange and deletion; the atomic operations are taken to
    be sequentially consistent.  [new] returns any address that is not in use, one
    that was freed included.

    The exchange is [compare_exchange_weak], which may fail although the pointer
    is still null; the relation [step] is parametrised by whether that happens. *)
From stdpp Require Import prelude gmap list relations.
From Stdlib Require Import ZArith Lia.
From S2P Require Import Prelude.
From S2P Require Import SparseMemory.

Section SharedTree.
Context (BitWidth : Z) (Levels : nat).
Local Abbreviation top := (Levels - 1)%nat.
Local Abbreviation node_index := (node_index BitWidth Levels).

(** The children of all nodes, and the nodes in use. *)
Record tree : Type := { slots : gmap (nat * Z) nat; live : gset nat }.

(** Where a thread is on its way to the page of an address: at a node of a level,
    to read its child; about to make a child; with a child to exchange in; with a
    child to delete and what the exchange found; at the page; at a null
    pointer. *)
Inductive thread : Type :=
| At (n : nat) (Level : nat)
| New (n : nat) (l : nat)
| Cas (n : nat) (l : nat) (new_item : nat)
| Drop (new_item : nat) (l : nat) (n : option nat)
| Done (page : nat)
| Null.

(** One step of a thread: [c] is the address that [new] returns, [spurious] a
    failure of the exchange without a reason. *)
Definition thread_step (addr : Z) (c : nat) (spurious : bool) (s : tree) (t : thread) : tree * thread :=
  match t with
  | At n O => (s, Done n)
  | At n (S l) =>
      match slots s !! (n, node_index (S l) addr) with
      | Some n' => (s, At n' l)
      | None => (s, New n l)
      end
  | New n l => ({| slots := slots s; live := {[c]} ∪ live s |}, Cas n l c)
  | Cas n l new_item =>
      match slots s !! (n, node_index (S l) addr) with
      | Some n' => (s, Drop new_item l (Some n'))
      | None =>
          if spurious then (s, Drop new_item l None)
          else ({| slots := <[(n, node_index (S l) addr) := new_item]> (slots s); live := live s |}, At new_item l)
      end
  | Drop new_item l n =>
      ({| slots := slots s; live := live s ∖ {[new_item]} |},
       match n with Some n' => At n' l | None => Null end)
  | Done _ | Null => (s, t)
  end.
Definition finished (t : thread) : bool := match t with Done _ | Null => true | _ => false end.

(** Threads with the addresses that they look up. *)
Definition config : Type := tree * list (Z * thread).
Inductive step (weak : bool) : config → config → Prop :=
| thread_steps s ts i addr t c spurious s' t' :
    ts !! i = Some (addr, t) → finished t = false → c ∉ live s → (spurious = true → weak = true) →
    thread_step addr c spurious s t = (s', t') →
    step weak (s, ts) (s', <[i := (addr, t')]> ts).
(** A tree that holds its root only, and threads that start at it. *)
Definition start (root : nat) (addrs : list Z) : config :=
  ({| slots := ∅; live := {[root]} |}, (λ a, (a, At root top)) <$> addrs).

(** ** Paths *)

(** The node of an address at a level. *)
Fixpoint reach (s : tree) (root : nat) (addr : Z) (k : nat) : option nat :=
  match k with
  | O => Some root
  | S k => n ← reach s root addr k; slots s !! (n, node_index (top - k) addr)
  end.
(** [k] levels of two addresses agree. *)
Definition same_path (k : nat) (a b : Z) : Prop :=
  ∀ j, (j < k)%nat → node_index (top - j) a = node_index (top - j) b.

Lemma reach_same s root a b k : same_path k a b → reach s root a k = reach s root b k.
Proof.
  induction k as [|k IH]; intros Hp; [done|]. cbn. rewrite IH by (intros j Hj; apply Hp; lia).
  by rewrite (Hp k) by lia.
Qed.

(** What holds of the tree: children of nodes in use are in use, have one parent
    each, and are not the root. *)
Record tree_ok (root : nat) (s : tree) : Prop := {
  t_root : root ∈ live s;
  t_parent : ∀ n i c, slots s !! (n, i) = Some c → n ∈ live s;
  t_child : ∀ n i c, slots s !! (n, i) = Some c → c ∈ live s ∧ c ≠ root;
  t_inj : ∀ k k' c, slots s !! k = Some c → slots s !! k' = Some c → k = k'
}.
(** A child that is not in the tree yet belongs to one thread. *)
Definition owns (t : thread) : option nat :=
  match t with Cas _ _ c | Drop c _ _ => Some c | _ => None end.
(** A thread is on the path of its address. *)
Definition thread_ok (root : nat) (s : tree) (addr : Z) (t : thread) : Prop :=
  match t with
  | At n l => (l ≤ top)%nat ∧ reach s root addr (top - l) = Some n
  | New n l | Cas n l _ => (S l ≤ top)%nat ∧ reach s root addr (top - S l) = Some n
  | Drop _ l (Some n) => (S l ≤ top)%nat ∧ reach s root addr (top - l) = Some n
  | Drop _ l None => True
  | Done n => reach s root addr top = Some n
  | Null => True
  end.
Definition private (root : nat) (s : tree) (c : nat) : Prop :=
  c ∈ live s ∧ c ≠ root ∧ (∀ k, slots s !! k ≠ Some c) ∧ ∀ i, slots s !! (c, i) = None.
Record config_ok (root : nat) (x : config) : Prop := {
  c_tree : tree_ok root x.1;
  c_thread : ∀ i addr t, x.2 !! i = Some (addr, t) → thread_ok root x.1 addr t;
  c_private : ∀ i addr t c, x.2 !! i = Some (addr, t) → owns t = Some c → private root x.1 c;
  c_owner : ∀ i j a b t u c, x.2 !! i = Some (a, t) → x.2 !! j = Some (b, u) →
    owns t = Some c → owns u = Some c → i = j
}.

(** ** The invariant is kept *)

Context (root : nat).
Local Abbreviation reach' s := (reach s root).

(** Children are never replaced. *)
Definition grows (s s' : tree) : Prop := ∀ k c, slots s !! k = Some c → slots s' !! k = Some c.
Lemma grows_refl s : grows s s.
Proof. by intros k c. Qed.
Lemma grows_live s X : grows s {| slots := slots s; live := X |}.
Proof. by intros k c. Qed.
#[local] Hint Resolve grows_refl grows_live : core.
Lemma reach_grows s s' a k n : grows s s' → reach' s a k = Some n → reach' s' a k = Some n.
Proof.
  intros Hg. revert n. induction k as [|k IH]; intros n Hr; [done|]. cbn in *.
  apply bind_Some in Hr as (m & Hm & Hs). rewrite (IH m Hm). cbn. by apply Hg.
Qed.
Lemma thread_grows s s' a t : grows s s' → thread_ok root s a t → thread_ok root s' a t.
Proof.
  intros Hg. destruct t as [n l|n l|n l c|c l [n|]|n|]; cbn; try done; try (intros [? ?]; split; [done|]);
    try intros ?; by eapply reach_grows.
Qed.
Lemma reach_public s a k n : reach' s a k = Some n → n = root ∨ ∃ k, slots s !! k = Some n.
Proof.
  destruct k; cbn; [intros [= <-]; by left|]. intros (m & _ & Hs)%bind_Some. right. by eexists.
Qed.
Lemma reach_live s a k n : tree_ok root s → reach' s a k = Some n → n ∈ live s.
Proof.
  intros Hs [->|[[m i] Hk]]%reach_public; [apply Hs|]. by apply (t_child _ _ Hs m i n).
Qed.
Lemma reach_next s a l n c : (S l ≤ top)%nat → reach' s a (top - S l) = Some n →
  slots s !! (n, node_index (S l) a) = Some c → reach' s a (top - l) = Some c.
Proof.
  intros Hl Hr Hs. replace (top - l)%nat with (S (top - S l)) by lia. cbn. rewrite Hr. cbn.
  by replace (top - (top - S l))%nat with (S l) by lia.
Qed.
Lemma not_private s a k n c : reach' s a k = Some n → private root s c → n ≠ c.
Proof. intros [->|[q Hq]]%reach_public (_ & Hr & Hn & _); [done|]. intros ->. by apply (Hn q). Qed.

(** One thread moves from [t] to [t']; others keep what they own. *)
Lemma config_update s s' ts i a t t' : config_ok root (s, ts) → ts !! i = Some (a, t) →
  tree_ok root s' → grows s s' → thread_ok root s' a t' →
  (∀ c, owns t' = Some c → private root s' c ∧ (owns t = Some c ∨ c ∉ live s)) →
  (∀ c, private root s c → owns t ≠ Some c → private root s' c) →
  config_ok root (s', <[i := (a, t')]> ts).
Proof.
  intros [Ht Hth Hp Ho] Hi Hs' Hg Hok Hnew Hold. cbn in *.
  assert (∀ j b u c, j ≠ i → ts !! j = Some (b, u) → owns u = Some c → owns t' ≠ Some c) as Hdiff.
  { intros j b u c Hj Hu Hc Hc'. destruct (Hnew c Hc') as [_ [Hc2|Hc2]]; [by apply Hj; eapply Ho|].
    apply Hc2. by apply (Hp j b u c). }
  split; cbn; [done|..].
  - intros j b u Hj. apply list_lookup_insert_Some in Hj as [(<- & [= <- <-] & _)|[_ Hj]]; [done|].
    eapply thread_grows; [done|by eapply Hth].
  - intros j b u c Hj Hc. apply list_lookup_insert_Some in Hj as [(<- & [= <- <-] & _)|[Hne Hj]]; [by apply Hnew|].
    apply Hold; [by eapply Hp|]. intros Hc'. apply Hne. by eapply Ho.
  - intros j k b1 b2 u1 u2 c Hj Hk Hu1 Hu2.
    apply list_lookup_insert_Some in Hj as [(<- & [= <- <-] & _)|[Hnj Hj]];
      apply list_lookup_insert_Some in Hk as [(<- & [= <- <-] & _)|[Hnk Hk]]; try done.
    + exfalso. by eapply (Hdiff k).
    + exfalso. by eapply (Hdiff j).
    + by eapply Ho.
Qed.

(** Allocation, exchange and deletion, seen from the tree. *)
Lemma elem_drop (X : gset nat) c d : c ∈ X → c ≠ d → c ∈ X ∖ {[d]}.
Proof. set_solver. Qed.
Lemma tree_new s c : tree_ok root s → c ∉ live s →
  let s' := {| slots := slots s; live := {[c]} ∪ live s |} in
  tree_ok root s' ∧ private root s' c ∧ ∀ d, private root s d → private root s' d.
Proof.
  intros [H1 H2 H3 H4] Hc s'. assert (∀ d, d ∈ live s → d ∈ live s') as Hl by (intros d; apply elem_of_union_r).
  split_and!.
  - split; [by apply Hl| | |done]; intros n i d Hd; [by eapply Hl, H2|]. apply H3 in Hd as [? ?]. split; [by apply Hl|done].
  - split_and!; [apply elem_of_union_l, elem_of_singleton_2; done|by intros ->| |]; cbn.
    + intros [n i] Hn. by apply H3 in Hn as [? _].
    + intros i. destruct (slots s !! (c, i)) eqn:E; [by apply H2 in E|done].
  - intros d (? & ? & ? & ?). split_and!; [by apply Hl|done..].
Qed.
Lemma tree_link s a l n d : tree_ok root s → (S l ≤ top)%nat → reach' s a (top - S l) = Some n →
  slots s !! (n, node_index (S l) a) = None → private root s d →
  let s' := {| slots := <[(n, node_index (S l) a) := d]> (slots s); live := live s |} in
  tree_ok root s' ∧ grows s s' ∧ reach' s' a (top - l) = Some d ∧ ∀ c, private root s c → c ≠ d → private root s' c.
Proof.
  intros Hs Hl Hr Hn (Hd1 & Hd2 & Hd3 & Hd4) s'. pose proof (reach_live s a _ n Hs Hr) as Hln.
  destruct Hs as [H1 H2 H3 H4].
  assert (grows s s') as Hg by (intros k c Hk; cbn; rewrite lookup_insert_ne; [done|intros <-; congruence]).
  split; [split; cbn; [done|..]|split; [done|split]].
  - intros n' j c [([= <- <-] & _)|[_ Hj]]%lookup_insert_Some; [done|by eapply H2].
  - intros n' j c [(_ & <-)|[_ Hj]]%lookup_insert_Some; [done|by eapply H3].
  - intros k k' c [(<- & <-)|[_ Hk]]%lookup_insert_Some [(<- & Hc)|[_ Hk']]%lookup_insert_Some; subst; try done.
    + by apply Hd3 in Hk'.
    + by apply Hd3 in Hk.
    + by eapply H4.
  - apply (reach_next _ a l n d); [done|by eapply reach_grows|]. cbn. by rewrite lookup_insert_eq.
  - intros c Hc Hne. pose proof (not_private s a _ n c Hr Hc). destruct Hc as (? & ? & Hc3 & Hc4).
    split_and!; cbn; [done..| |].
    + intros k [(_ & ->)|[_ Hk]]%lookup_insert_Some; [done|by apply (Hc3 k)].
    + intros j. rewrite lookup_insert_ne by congruence. apply Hc4.
Qed.
Lemma tree_drop s d : tree_ok root s → private root s d →
  let s' := {| slots := slots s; live := live s ∖ {[d]} |} in
  tree_ok root s' ∧ grows s s' ∧ ∀ c, private root s c → c ≠ d → private root s' c.
Proof.
  intros [H1 H2 H3 H4] (Hd1 & Hd2 & Hd3 & Hd4) s'.
  split; [split; cbn; [by apply elem_drop| | |done]|split; [by intros k c|]].
  - intros n j c Hj. apply elem_drop; [by eapply H2|]. intros ->. congruence.
  - intros n j c Hj. destruct (H3 _ _ _ Hj). split; [|done]. apply elem_drop; [done|]. intros ->. by apply Hd3 in Hj.
  - intros c (? & ? & ? & ?) Hne. split_and!; [by apply elem_drop|done..].
Qed.

Lemma step_ok weak x y : step weak x y → config_ok root x → config_ok root y.
Proof.
  intros [s ts i a t c sp s' t' Hi Hfin Hc Hsp E] Hx. pose proof (c_thread _ _ Hx i a t Hi) as Hok.
  pose proof (c_tree _ _ Hx) as Hs. pose proof (λ d, c_private _ _ Hx i a t d Hi) as Hpriv. cbn in Hok, Hs, Hpriv.
  pose proof (λ s1 t1, config_update s s1 ts i a t t1 Hx Hi) as Hup.
  destruct t as [n [|l]|n l|n l d|d l r|n|]; cbn in E, Hok, Hpriv; try done.
  - simplify_eq. apply Hup; try done. cbn. destruct Hok as [_ Hr]. by rewrite Nat.sub_0_r in Hr.
  - destruct Hok as [Hl Hr]. destruct (slots s !! _) as [n'|] eqn:El; simplify_eq; apply Hup; try done; cbn.
    split; [lia|]. by eapply reach_next.
  - simplify_eq. destruct (tree_new s c Hs Hc) as (Hs' & Hp & Hd).
    apply Hup; try done; cbn.
    + by eapply (thread_grows s _ a (New n l)).
    + intros c0 [= <-]. split; [done|by right].
    + intros c0 Hc0 _. by apply Hd.
  - destruct Hok as [Hl Hr]. specialize (Hpriv d eq_refl).
    destruct (slots s !! (n, _)) as [n'|] eqn:El; [|destruct sp]; simplify_eq.
    + apply Hup; try done; cbn; [split; [lia|by eapply reach_next]|]. intros c0 [= <-]. split; [done|by left].
    + apply Hup; try done. cbn. intros c0 [= <-]. split; [done|by left].
    + destruct (tree_link s a l n d Hs Hl Hr El Hpriv) as (Hs' & Hg & Hr' & Hd).
      apply Hup; try done; cbn; [split; [lia|done]|]. intros c0 Hc0 Hne. apply Hd; [done|congruence].
  - simplify_eq. destruct (tree_drop s d Hs (Hpriv d eq_refl)) as (Hs' & Hg & Hd). apply Hup; try done; cbn.
    + destruct r as [n'|]; [|done]. destruct Hok as [Hl Hr]. split; [lia|]. by eapply reach_grows.
    + by destruct r.
    + intros c0 Hc0 Hne. apply Hd; [done|congruence].
Qed.

Lemma start_ok addrs : config_ok root (start root addrs).
Proof.
  split; cbn.
  - split; cbn; [by apply elem_of_singleton_2|done..].
  - intros i a t Hi. apply list_lookup_fmap_Some in Hi as (b & [= -> ->] & _). cbn. by rewrite Nat.sub_diag.
  - intros i a t c Hi. apply list_lookup_fmap_Some in Hi as (b & [= -> ->] & _). done.
  - intros i j a b t u c Hi. apply list_lookup_fmap_Some in Hi as (? & [= -> ->] & _). done.
Qed.
Lemma steps_ok weak x y : rtc (step weak) x y → config_ok root x → config_ok root y.
Proof. induction 1; eauto using step_ok. Qed.
(** Threads keep their addresses. *)
Lemma steps_addrs weak x y : rtc (step weak) x y → y.2.*1 = x.2.*1.
Proof.
  induction 1 as [|x y z Hxy _ IH]; [done|]. rewrite IH. destruct Hxy as [s ts i a t c sp s' t' Hi Hfin Hc Hsp E]. cbn.
  rewrite list_fmap_insert. apply list_insert_id. by rewrite list_lookup_fmap, Hi.
Qed.
Lemma steps_addr weak addrs x i a t (P : Z → Prop) : rtc (step weak) (start root addrs) x → Forall P addrs →
  x.2 !! i = Some (a, t) → P a.
Proof.
  intros Hr HP Hi. apply steps_addrs in Hr. cbn in Hr. rewrite <- list_fmap_compose in Hr.
  change (fst ∘ (λ a : Z, (a, At root top))) with (@id Z) in Hr. rewrite list_fmap_id in Hr. rewrite <- Hr in HP.
  apply (Forall_lookup_1 _ _ i _ HP). by rewrite list_lookup_fmap, Hi.
Qed.
(** A page has one path. *)
Lemma reach_inj s a b k p : tree_ok root s → reach' s a k = Some p → reach' s b k = Some p → same_path k a b.
Proof.
  intros Hs. revert p. induction k as [|k IH]; intros p Ha Hb j Hj; [lia|]. cbn in Ha, Hb.
  apply bind_Some in Ha as (n & Hna & Ha), Hb as (m & Hmb & Hb).
  pose proof (t_inj _ _ Hs _ _ _ Ha Hb) as [= -> Hi]. destruct (decide (j = k)) as [->|Hne]; [done|].
  by apply (IH m Hna Hmb j); lia.
Qed.

(** ** Termination *)

(** The steps that a thread still makes, at most. *)
Definition fuel (t : thread) : nat :=
  match t with
  | At _ l => 4 * l + 1
  | New _ l => 4 * l + 4
  | Cas _ l _ => 4 * l + 3
  | Drop _ l _ => 4 * l + 2
  | Done _ | Null => 0
  end.
Definition total_fuel (ts : list (Z * thread)) : nat := sum_list_with (λ x, fuel x.2) ts.
Lemma thread_step_fuel a c sp s t s' t' : finished t = false → thread_step a c sp s t = (s', t') → (fuel t' < fuel t)%nat.
Proof.
  intros Hf E. destruct t as [n [|l]|n l|n l d|d l r|n|]; cbn in E; try done;
    repeat case_match; simplify_eq; cbn; lia.
Qed.
Lemma total_fuel_insert ts i a t t' : ts !! i = Some (a, t) → (fuel t' < fuel t)%nat →
  (total_fuel (<[i := (a, t')]> ts) < total_fuel ts)%nat.
Proof.
  intros Hi Hf. rewrite <- (take_drop_middle ts i (a, t) Hi) at 2.
  rewrite insert_take_drop by by eapply lookup_lt_Some.
  unfold total_fuel. rewrite !sum_list_with_app. cbn. lia.
Qed.
Lemma step_fuel weak x y : step weak x y → (total_fuel y.2 < total_fuel x.2)%nat.
Proof. intros []. cbn. eapply total_fuel_insert; [done|by eapply thread_step_fuel]. Qed.
Lemma steps_fuel weak n x y : nsteps (step weak) n x y → (n + total_fuel y.2 ≤ total_fuel x.2)%nat.
Proof. induction 1 as [|n x y z Hxy _ IH]; [lia|]. apply step_fuel in Hxy. lia. Qed.
Lemma start_fuel addrs : total_fuel (start root addrs).2 = ((4 * top + 1) * length addrs)%nat.
Proof. unfold total_fuel. cbn. induction addrs as [|a addrs IH]; cbn in *; [lia|]. rewrite IH. lia. Qed.
(** A thread that is not finished can move. *)
Lemma thread_progress weak s ts i a t : ts !! i = Some (a, t) → finished t = false → ∃ y, step weak (s, ts) y.
Proof.
  intros Hi Hf. destruct (thread_step a (fresh (live s)) false s t) as [s' t'] eqn:E. eexists.
  by eapply (thread_steps weak s ts i a t (fresh (live s)) false s' t'); [..|apply is_fresh| |].
Qed.

(** Without spurious failures there is no null pointer. *)
Definition no_null (t : thread) : Prop := match t with Null | Drop _ _ None => False | _ => True end.
Lemma step_no_null x y : step false x y →
  (∀ i a t, x.2 !! i = Some (a, t) → no_null t) → ∀ i a t, y.2 !! i = Some (a, t) → no_null t.
Proof.
  intros [s ts i a t c sp s' t' Hi Hfin Hc Hsp E] Hx j b u Hj. cbn in *.
  apply list_lookup_insert_Some in Hj as [(<- & [= <- <-] & _)|[_ Hj]]; [|by eapply Hx].
  destruct sp; [by specialize (Hsp eq_refl)|]. specialize (Hx i a t Hi).
  destruct t as [n [|l]|n l|n l d|d l r|n|]; cbn in E; repeat case_match; by simplify_eq.
Qed.
Lemma steps_no_null addrs x : rtc (step false) (start root addrs) x → ∀ i a t, x.2 !! i = Some (a, t) → no_null t.
Proof.
  intros Hr. eapply (rtc_ind_r (λ x, ∀ i a t, x.2 !! i = Some (a, t) → no_null t)); [..|exact Hr].
  - cbn. intros i a t Hi. by apply list_lookup_fmap_Some in Hi as (b & [= -> ->] & _).
  - intros y z _ Hyz IH. by apply (step_no_null y z).
Qed.
End SharedTree.

(** Page numbers are paths. *)
Lemma same_path_key BitWidth Levels a b : (2 ≤ Levels)%nat → (Z.of_nat Levels ≤ BitWidth ≤ 64)%Z →
  (3 ≤ PageBits BitWidth Levels ≤ 30)%Z → (0 ≤ a)%Z → (0 ≤ b)%Z →
  same_path BitWidth Levels (Levels - 1) a b ↔ key BitWidth Levels (Levels - 1) a = key BitWidth Levels (Levels - 1) b.
Proof.
  intros HL HB HP Ha Hb.
  assert (∀ l, (l ≤ Levels - 1)%nat → key BitWidth Levels l a = key BitWidth Levels l b ↔
    ∀ j, (1 ≤ j ≤ l)%nat → node_index BitWidth Levels j a = node_index BitWidth Levels j b) as Hk.
  { induction l as [|l IH]; intros Hl.
    - unfold key. rewrite Z.mul_0_r, !Z.mod_1_r. split; [intros _ j Hj; lia|done].
    - rewrite key_S by done. rewrite IH by lia. split.
      + intros [H1 H2] j Hj. destruct (decide (j = S l)) as [->|]; [done|apply H2; lia].
      + intros H. split; [apply H; lia|intros; apply H; lia]. }
  rewrite Hk by done. unfold same_path. split; intros H j Hj.
  - replace j with (Levels - 1 - (Levels - 1 - j))%nat by lia. apply H. lia.
  - apply H. lia.
Qed.

(** C32: any number of threads may look up pages of a shared tree at once.  In every
    state that any interleaving reaches, whether exchanges fail spuriously or
    not, two threads that have a page have the same one exactly when their
    addresses lie in the same page of the address space, and the pages they have
    are in use: none that lost the race was deleted under them. *)
Theorem shared_pages_agree BitWidth Levels weak root addrs x i j a b p q :
  (2 ≤ Levels)%nat → (Z.of_nat Levels ≤ BitWidth ≤ 64)%Z → (3 ≤ PageBits BitWidth Levels ≤ 30)%Z →
  Forall (λ a, 0 ≤ a)%Z addrs → rtc (step BitWidth Levels weak) (start Levels root addrs) x →
  x.2 !! i = Some (a, Done p) → x.2 !! j = Some (b, Done q) →
  p ∈ live x.1 ∧ (p = q ↔ key BitWidth Levels (Levels - 1) a = key BitWidth Levels (Levels - 1) b).
Proof.
  intros HL HB HP Haddr Hr Hi Hj.
  pose proof (steps_ok BitWidth Levels root weak _ _ Hr (start_ok BitWidth Levels root addrs)) as Hx.
  pose proof (c_thread _ _ _ _ Hx _ _ _ Hi) as Hp. pose proof (c_thread _ _ _ _ Hx _ _ _ Hj) as Hq. cbn in Hp, Hq.
  assert (0 ≤ a ∧ 0 ≤ b)%Z as [Ha Hb] by (split; [eapply (steps_addr _ _ _ _ _ _ i)|eapply (steps_addr _ _ _ _ _ _ j)]; eauto).
  split; [by eapply reach_live, Hp; apply Hx|]. rewrite <- same_path_key by done. split.
  - intros <-. eapply reach_inj; [apply Hx|done..].
  - intros Hpath. rewrite (reach_same BitWidth Levels _ _ a b _ Hpath) in Hp. congruence.
Qed.

(** Looking a page up terminates: threads on a tree of [Levels] levels make at
    most [4 * (Levels - 1) + 1] steps each, in any interleaving; a state in which
    no thread can move has no thread underway; and if exchanges do not fail
    spuriously, all of them have their page then. *)
Theorem shared_lookup_terminates BitWidth Levels weak root addrs n x :
  nsteps (step BitWidth Levels weak) n (start Levels root addrs) x →
  (n ≤ (4 * (Levels - 1) + 1) * length addrs)%nat ∧
  ((∀ y, ¬ step BitWidth Levels weak x y) →
   ∀ i, (i < length addrs)%nat → ∃ a t, x.2 !! i = Some (a, t) ∧ finished t = true ∧
   (weak = false → ∃ p, t = Done p)).
Proof.
  intros Hn. split.
  - apply steps_fuel in Hn as Hf. rewrite (start_fuel Levels root) in Hf. lia.
  - intros Hstuck i Hi. pose proof (proj2 (rtc_nsteps _ _) (ex_intro _ n Hn)) as Hr. pose proof (steps_addrs _ _ _ _ _ Hr) as Hl.
    apply (f_equal length) in Hl. cbn in Hl. rewrite !length_fmap in Hl.
    destruct (lookup_lt_is_Some_2 x.2 i) as [[a t] Hx]; [lia|]. exists a, t. split; [done|].
    destruct (finished t) eqn:Hf.
    + split; [done|]. intros ->. pose proof (steps_no_null _ _ _ _ _ Hr _ _ _ Hx) as Hnn.
      destruct t; try done. by eexists.
    + destruct x as [s ts]. destruct (thread_progress BitWidth Levels weak s ts i a t Hx Hf) as [y Hy]. by destruct (Hstuck y).
Qed.

(** ** Schedules *)

Section Schedules.
Context (BitWidth : Z) (Levels : nat).

(** Threads in the order of a list; the flag is a spurious failure. *)
Fixpoint schedule (order : list (nat * bool)) (x : config) : config :=
  match order with
  | [] => x
  | (i, sp) :: order =>
      schedule order
        match x.2 !! i with
        | Some (a, t) =>
            if finished t then x
            else let '(s', t') := thread_step BitWidth Levels a (fresh (live x.1)) sp x.1 t in
                 (s', <[i := (a, t')]> x.2)
        | None => x
        end
  end.
Lemma schedule_steps weak order x : Forall (λ o, o.2 = true → weak = true) order →
  rtc (step BitWidth Levels weak) x (schedule order x).
Proof.
  intros Ho. revert x. induction Ho as [|[i sp] order Hsp _ IH]; intros x; [done|]. cbn.
  destruct x as [s ts]. cbn. destruct (ts !! i) as [[a t]|] eqn:Hi; [|apply IH].
  destruct (finished t) eqn:Hf; [apply IH|].
  destruct (thread_step _ _ _ _ _ _ t) as [s' t'] eqn:E. eapply rtc_l; [|apply IH].
  by eapply (thread_steps BitWidth Levels weak s ts i a t (fresh (live s)) sp s' t'); [..|apply is_fresh| |].
Qed.
End Schedules.

(** Two threads race for a page; the second loses and deletes its own. *)
Definition race : list (nat * bool) :=
  [(0, false); (1, false); (0, false); (1, false); (0, false); (1, false); (1, false); (0, false); (1, false)].
Definition race_end : config := schedule 16 2 race (start 2 7 [0x1234; 0x12ff]%Z).

Lemma shared_pages_agree_witness : race_end.2 = [(0x1234%Z, Done 8); (0x12ff%Z, Done 8)] ∧ 8%nat ∈ live race_end.1.
Proof.
  split; [vm_compute; reflexivity|].
  apply (shared_pages_agree 16 2 false 7 [0x1234; 0x12ff]%Z race_end 0 1 0x1234 0x12ff 8 8).
  - lia.
  - lia.
  - vm_compute. split; discriminate.
  - repeat constructor; lia.
  - apply schedule_steps. repeat constructor; discriminate.
  - vm_compute. reflexivity.
  - vm_compute. reflexivity.
Defined.
Lemma shared_lookup_terminates_witness : ∃ n, nsteps (step 16 2 false) n (start 2 7 [0x1234; 0x12ff]%Z) race_end ∧ (n ≤ 10)%nat.
Proof.
  destruct (rtc_nsteps_1 (R := step 16 2 false) (start 2 7 [0x1234; 0x12ff]%Z) race_end) as [n Hn].
  - apply schedule_steps. repeat constructor; discriminate.
  - exists n. split; [exact Hn|]. apply (shared_lookup_terminates 16 2 false 7 [0x1234; 0x12ff]%Z n race_end Hn).
Defined.

(** One thread alone, with one spurious failure: the lookup gives a null pointer,
    which [getPage] follows. *)
Example spurious_failure_gives_null :
  (schedule 16 2 [(0, false); (0, false); (0, true); (0, false)] (start 2 7 [0x1234%Z])).2 = [(0x1234%Z, Null)].
Proof. vm_compute. reflexivity. Qed.
