(* ===== verification/BlockHash.v ===== *)
(** * Basic blocks of the decode cache

    [src/iss/BlockHash.h], the table of basic blocks that the decode cache and the
    JIT use: blocks by real address, the same blocks by the pages they cover, and
    a small table from effective addresses to blocks in front of both; and
    [src/iss/DecodeCacheSupport.h], the blocks and the item buffer of the decode
    cache, which are the instance of the table's template parameters [BlockType]
    and [Support].

    A pointer to a block is a key of a heap, so that a block that a reset deleted
    cannot be used.  The address translation of the core and the translator of
    code are parameters of the table: the first gives a real address or an
    exception, the second may use the table itself.  [translate_dc], the
    translator that [src/iss/GenInstrs.C] emits, is modelled at the end. *)
From stdpp Require Import prelude strings gmap list.
From Stdlib Require Import ZArith Lia.
From S2P Require Import Prelude.

Local Open Scope Z_scope.

(** ** Blocks *)

Record AdlBasicBlock : Type := { _start_ra : Z; _end_ra : Z; _hot_count : Z }.
Definition new_basic_block (ra : Z) : AdlBasicBlock := {| _start_ra := ra; _end_ra := ra; _hot_count := 0 |}.
Definition incr_hot_count (b : AdlBasicBlock) : AdlBasicBlock :=
  {| _start_ra := _start_ra b; _end_ra := _end_ra b; _hot_count := wrap 32 (_hot_count b + 1) |}.
Definition set_end_ra (b : AdlBasicBlock) (ra : Z) : AdlBasicBlock :=
  {| _start_ra := _start_ra b; _end_ra := ra; _hot_count := _hot_count b |}.
Definition matching_addr (b : AdlBasicBlock) (ra : Z) : bool := (_start_ra b <=? ra) && (ra <=? _end_ra b).

(** What the table asks of its blocks and of its support object. *)
Class BlockType (BT : Type) : Type := {
  new_block : Z → BT;
  base : BT → AdlBasicBlock;
  with_base : BT → AdlBasicBlock → BT;
  valid : BT → bool;
  block_reset : BT → BT
}.
Class Support (S BT : Type) : Type := {
  support_reset : S → S;
  reset_bb : S → BT → S * BT;
  invalidate_bb : S → BT → BT;
  create_br_stub : S → BT → BT
}.

(** ** The table *)

(** A null [_bb] is absent. *)
Record EaHashEntry : Type := { _ea : Z; _mask : Z; _bb : option nat }.
Definition entry_match (e : EaHashEntry) (a mask : Z) : option nat :=
  if (a =? _ea e) && (mask =? _mask e) then _bb e else None.

Record BlockHash (S BT : Type) : Type := {
  blocks_heap : gmap nat BT;
  next_block : nat;
  _blocks : gmap (Z * Z) nat;
  _blocks_by_page : list (Z * nat);
  _ea_hash : list EaHashEntry;
  support : S
}.
Arguments blocks_heap {S BT}.
Arguments next_block {S BT}.
Arguments _blocks {S BT}.
Arguments _blocks_by_page {S BT}.
Arguments _ea_hash {S BT}.
Arguments support {S BT}.
Arguments Build_BlockHash {S BT}.

(** What a call leaves: a value, or an exception of the core; the table is changed
    in both cases. *)
Inductive thrown (A : Type) : Type := Value (a : A) | Exception.
Arguments Value {A}.
Arguments Exception {A}.

Section Hash.
Context {S BT : Type} `{BO : BlockType BT} `{SO : Support S BT} (InstrShift EaHashBits : Z).
Local Abbreviation Tab := (BlockHash S BT).

Definition BlockPageMask : Z := 0xfff.
Definition EaHashSize : Z := Z.shiftl 1 EaHashBits.
Definition EaHashMask : Z := EaHashSize - 1.

Definition set_heap (h : Tab) (x : gmap nat BT) : Tab :=
  Build_BlockHash x (next_block h) (_blocks h) (_blocks_by_page h) (_ea_hash h) (support h).
Definition block_at (h : Tab) (p : nat) : outcome BT :=
  match blocks_heap h !! p with Some b => Ret b | None => Undefined end.
Definition change_block (h : Tab) (p : nat) (f : BT → BT) : outcome Tab :=
  let! b := block_at h p in Ret (set_heap h (<[p := f b]> (blocks_heap h))).

Definition get_page (a : Z) : Z := Z.land a (wrap 64 (Z.lnot BlockPageMask)).
Definition ea_hash_func (a mask : Z) : Z :=
  let a := Z.shiftr a InstrShift in
  let tmp := wrap 64 (Z.lxor (Z.lxor (Z.shiftr a (2 * EaHashBits)) (Z.shiftr a EaHashBits)) a + mask) in
  Z.land tmp EaHashMask.
Definition flush_ea_hash (h : Tab) : Tab :=
  Build_BlockHash (blocks_heap h) (next_block h) (_blocks h) (_blocks_by_page h)
    (replicate (Z.to_nat EaHashSize) {| _ea := 0; _mask := 0; _bb := None |}) (support h).
Definition lookup_ea_hash (h : Tab) (ea mask : Z) : outcome (option nat) :=
  match _ea_hash h !! Z.to_nat (ea_hash_func ea mask) with
  | Some e => Ret (entry_match e ea mask)
  | None => Undefined
  end.
Definition insert_ea_hash (h : Tab) (ea mask : Z) (bb : nat) : Tab :=
  Build_BlockHash (blocks_heap h) (next_block h) (_blocks h) (_blocks_by_page h)
    (<[Z.to_nat (ea_hash_func ea mask) := {| _ea := ea; _mask := mask; _bb := Some bb |}]> (_ea_hash h)) (support h).

(** [reset_bb] on all blocks. *)
Definition reset_blocks (h : Tab) : S * gmap nat BT :=
  map_fold (λ p b x, let '(s, b') := reset_bb (fst x) b in (s, <[p := b']> (snd x)))
    (support h, blocks_heap h) (blocks_heap h).
Definition reset (h : Tab) (quick_reset : bool) : Tab :=
  let s := if quick_reset then support h else fst (reset_blocks h) in
  flush_ea_hash (Build_BlockHash ∅ (next_block h) ∅ [] (_ea_hash h) (support_reset s)).
Definition reset_bbs (h : Tab) (support_reset_bbs : S → S) : Tab :=
  let '(s, heap) := reset_blocks h in
  Build_BlockHash heap (next_block h) (_blocks h) (_blocks_by_page h) (_ea_hash h) (support_reset_bbs s).
Definition hash_size (h : Tab) : nat := size (_blocks h).

(** [insert] keeps a block that is there. *)
Definition get_bb_ra_no_translate (h : Tab) (ra mask : Z) : nat * Tab :=
  match _blocks h !! (ra, mask) with
  | Some p => (p, h)
  | None =>
      (next_block h, Build_BlockHash (<[next_block h := new_block ra]> (blocks_heap h)) (Datatypes.S (next_block h))
        (<[(ra, mask) := next_block h]> (_blocks h)) (_blocks_by_page h) (_ea_hash h) (support h))
  end.

(** [instrReadTranslate] of the core. *)
Variable instrReadTranslate : Z → option Z.

Definition activate (h : Tab) (p : nat) (active : bool) : outcome Tab :=
  if active then change_block h p (λ b, with_base b (incr_hot_count (base b))) else Ret h.
Definition get_bb_ea_no_translate (h : Tab) (ea mask : Z) (active : bool) : outcome (thrown nat * Tab) :=
  let! r := lookup_ea_hash h ea mask in
  match r with
  | Some bb => let! h := activate h bb active in Ret (Value bb, h)
  | None =>
      match instrReadTranslate ea with
      | None => Ret (Exception, h)
      | Some ra =>
          let '(bb, h) := get_bb_ra_no_translate h ra mask in
          let h := insert_ea_hash h ea mask bb in
          let! h := activate h bb active in
          Ret (Value bb, h)
      end
  end.

(** The loop over the pages of a block; the addition wraps at 64 bits. *)
Fixpoint page_loop (fuel : nat) (s e : Z) (p : nat) (l : list (Z * nat)) : outcome (list (Z * nat)) :=
  match fuel with
  | O => Undefined
  | Datatypes.S fuel =>
      if s <=? e then page_loop fuel (wrap 64 (s + (BlockPageMask + 1))) e p (l ++ [(s, p)]) else Ret l
  end.
Definition add_to_page_hash (h : Tab) (jb : nat) : outcome Tab :=
  let! b := block_at h jb in
  let s := get_page (_start_ra (base b)) in
  let e := get_page (_end_ra (base b)) in
  let! l := page_loop (Datatypes.S (Z.to_nat ((e - s) / (BlockPageMask + 1) + 1))) s e jb (_blocks_by_page h) in
  Ret (Build_BlockHash (blocks_heap h) (next_block h) (_blocks h) l (_ea_hash h) (support h)).

(** The translator: [full] may reset the table, the call itself changes the block
    and may look up others. *)
Variable translate_full : Tab → bool * Tab.
Variable translate : Z → nat → Tab → outcome (thrown unit * Tab).

Definition get_bb (h : Tab) (ea mask hot_threshold : Z) : outcome (thrown (option nat) * Tab) :=
  let! r := get_bb_ea_no_translate h ea mask true in
  match fst r with
  | Exception => Ret (Exception, snd r)
  | Value bb =>
      let! b := block_at (snd r) bb in
      if valid b then Ret (Value (Some bb), snd r)
      else
        let '(full, h) := translate_full (snd r) in
        let! r := if full then get_bb_ea_no_translate h ea mask true else Ret (Value bb, h) in
        match fst r with
        | Exception => Ret (Exception, snd r)
        | Value bb =>
            let! b := block_at (snd r) bb in
            if _hot_count (base b) <? hot_threshold then Ret (Value None, snd r)
            else
              let! t := translate ea bb (snd r) in
              match fst t with
              | Exception => Ret (Exception, snd t)
              | Value _ => let! h := add_to_page_hash (snd t) bb in Ret (Value (Some bb), h)
              end
        end
  end.

(** A block, or [JitNopCode] where the address cannot be executed. *)
Definition get_bb_or_stub (h : Tab) (ea mask : Z) : outcome (option nat * Tab) :=
  let! r := get_bb_ea_no_translate h ea mask false in
  match fst r with
  | Exception => Ret (None, snd r)
  | Value bb =>
      let! b := block_at (snd r) bb in
      let! h := if valid b then Ret (snd r) else change_block (snd r) bb (create_br_stub (support (snd r))) in
      Ret (Some bb, h)
  end.

(** The items of a page; those that contain the address are reset and erased. *)
Fixpoint invalidate_loop (h : Tab) (page ra : Z) (l : list (Z * nat)) : outcome (Z * list (Z * nat) * Tab) :=
  match l with
  | [] => Ret (0, [], h)
  | (k, p) :: l =>
      if k =? page then
        let! b := block_at h p in
        if matching_addr (base b) ra then
          let! h := change_block h p (λ b, invalidate_bb (support h) (block_reset b)) in
          let! r := invalidate_loop h page ra l in
          Ret (wrap 32 (fst (fst r) + 1), snd (fst r), snd r)
        else
          let! r := invalidate_loop h page ra l in
          Ret (fst (fst r), (k, p) :: snd (fst r), snd r)
      else
        let! r := invalidate_loop h page ra l in
        Ret (fst (fst r), (k, p) :: snd (fst r), snd r)
  end.
Definition invalidate_ra (h : Tab) (ra : Z) : outcome (Z * Tab) :=
  let! r := invalidate_loop h (get_page ra) ra (_blocks_by_page h) in
  let h := snd r in
  Ret (fst (fst r), Build_BlockHash (blocks_heap h) (next_block h) (_blocks h) (snd (fst r)) (_ea_hash h) (support h)).
(** [extInstrReadTranslate] is the translation that reports failure. *)
Definition invalidate_ea (h : Tab) (ea : Z) : outcome (Z * Tab) :=
  match instrReadTranslate ea with Some ra => invalidate_ra h ra | None => Ret (0, h) end.
End Hash.

(** ** The decode cache *)

(** Pointers to decode items: into the buffer, or to one of the two stubs. *)
Inductive elm_ptr : Type := Item (i : Z) | BrStub | BrkptStub.
#[export] Instance elm_ptr_eq_dec : EqDecision elm_ptr.
Proof. solve_decision. Defined.
(** [JitReturnCodes], and what a branch target may be: a code or a block. *)
Inductive JitReturnCodes : Type := JitNullCode | JitRetCode | JitBreakPtCode | JitNopCode | JitContCode | JitLastCode.
Inductive target : Type := Code (c : JitReturnCodes) | Block (p : nat) | BrBlk.

Record DecodeItem : Type := {
  _func : option Z;
  _args : list Z;
  _bt_t : option target;
  _bt_f : option target
}.
Definition item_reset (d : DecodeItem) : DecodeItem :=
  {| _func := None; _args := replicate (length (_args d)) 0; _bt_t := _bt_t d; _bt_f := _bt_f d |}.
Definition set_func (d : DecodeItem) (f : Z) : DecodeItem :=
  {| _func := Some f; _args := _args d; _bt_t := _bt_t d; _bt_f := _bt_f d |}.
Definition set_arg (d : DecodeItem) (i x : Z) : outcome DecodeItem :=
  if (Z.to_nat i <? length (_args d))%nat then
    Ret {| _func := _func d; _args := <[Z.to_nat i := wrap 32 x]> (_args d); _bt_t := _bt_t d; _bt_f := _bt_f d |}
  else Undefined.
Definition func_matches (d : DecodeItem) (f : Z) : bool := bool_decide (_func d = Some f).

(** [TDcBasicBlock] *)
Record DcBasicBlock : Type := { bb_base : AdlBasicBlock; _start : option elm_ptr; _bt : option elm_ptr }.
Definition dc_reset (b : DcBasicBlock) : DcBasicBlock := {| bb_base := bb_base b; _start := None; _bt := None |}.
Definition set_start (b : DcBasicBlock) (s : elm_ptr) : DcBasicBlock :=
  {| bb_base := bb_base b; _start := Some s; _bt := Some s |}.
Definition set_bt (b : DcBasicBlock) (s : elm_ptr) : DcBasicBlock :=
  {| bb_base := bb_base b; _start := _start b; _bt := Some s |}.
Definition elm_index (b : DcBasicBlock) (x : Z) : outcome Z :=
  match _start b with Some (Item s) => Ret (wrap 32 (x - s)) | _ => Undefined end.
#[export] Instance dc_block : BlockType DcBasicBlock := {
  new_block ra := {| bb_base := new_basic_block ra; _start := None; _bt := None |};
  base := bb_base;
  with_base b x := {| bb_base := x; _start := _start b; _bt := _bt b |};
  valid b := match _start b with Some _ => true | None => false end;
  block_reset := dc_reset
}.

(** [TDecodeCache] and [TDcDecodeCache] *)
Record DcDecodeCache : Type := {
  _size : Z;
  _items : list DecodeItem;
  _end : Z;
  _br_func : Z;
  _brkpt_func : Z
}.
Definition set_items (d : DcDecodeCache) (l : list DecodeItem) (e : Z) : DcDecodeCache :=
  {| _size := _size d; _items := l; _end := e; _br_func := _br_func d; _brkpt_func := _brkpt_func d |}.
Definition cache_reset (d : DcDecodeCache) : DcDecodeCache := set_items d (_items d) 1.
Definition new_decode_cache (br_func brkpt_func size : Z) (junk : list DecodeItem) : DcDecodeCache :=
  {| _size := size; _items := match junk with d :: l => item_reset d :: l | [] => [] end; _end := 1;
     _br_func := br_func; _brkpt_func := brkpt_func |}.
Definition add_item (d : DcDecodeCache) : Z * DcDecodeCache := (_end d, set_items d (_items d) (wrap 32 (_end d + 1))).
Definition cur (d : DcDecodeCache) : elm_ptr := Item (_end d).
(** The sizes are 64 bits wide. *)
Definition full (d : DcDecodeCache) (max_bb_size : Z) : bool := wrap 64 (_size d - max_bb_size) <=? _end d.
Definition update_item (d : DcDecodeCache) (i : Z) (f : DecodeItem → DecodeItem) : outcome DcDecodeCache :=
  match _items d !! Z.to_nat i with
  | Some x => Ret (set_items d (<[Z.to_nat i := f x]> (_items d)) (_end d))
  | None => Undefined
  end.
Definition add_br_stub (d : DcDecodeCache) : outcome (Z * DcDecodeCache) :=
  let '(i, d) := add_item d in
  let! d := update_item d i (λ x, set_func x (_br_func d)) in Ret (i, d).
Definition add_brkpt_stub (d : DcDecodeCache) : outcome (Z * DcDecodeCache) :=
  let '(i, d) := add_item d in
  let! d := update_item d i (λ x, set_func x (_brkpt_func d)) in Ret (i, d).
Definition is_br_stub (d : DcDecodeCache) (x : DecodeItem) : bool := func_matches x (_br_func d).
Definition start_bb (d : DcDecodeCache) (b : DcBasicBlock) (target_br_stub : bool) : DcBasicBlock :=
  let b := set_start b (cur d) in
  if target_br_stub then set_bt b BrStub else b.
(** Codes other than the two outer ones go to the block of the branch stub. *)
Definition set_br_trg (x : DecodeItem) (bt : target) (taken : bool) : DecodeItem :=
  let b := match bt with
           | Code (JitRetCode | JitBreakPtCode | JitNopCode | JitContCode) => BrBlk
           | _ => bt
           end in
  {| _func := _func x; _args := _args x; _bt_t := if taken then Some b else _bt_t x;
     _bt_f := if taken then _bt_f x else Some b |}.
#[export] Instance dc_support : Support DcDecodeCache DcBasicBlock := {
  support_reset := cache_reset;
  reset_bb s b := (s, b);
  invalidate_bb s b := set_bt b BrStub;
  create_br_stub s b := set_bt b BrStub
}.
(** [decode_cache_full] of a generated core. *)
Definition decode_cache_full (EaHashBits max_bb_instr_count : Z) (h : BlockHash DcDecodeCache DcBasicBlock) :
    bool * BlockHash DcDecodeCache DcBasicBlock :=
  if full (support h) max_bb_instr_count then (true, reset EaHashBits h true) else (false, h).

(** When the buffer is not full, a block of the largest size fits, and so does
    the stub that ends it: [max_bb_size] items and one more are allocated inside
    of the buffer.  (Buffers are larger than a block and smaller than [2^32].) *)
Theorem decode_cache_room (d : DcDecodeCache) (max_bb_size : Z) (n : nat) :
  Z.of_nat (length (_items d)) = _size d → 1 ≤ _end d → 0 ≤ max_bb_size ≤ _size d → _size d < 2 ^ 32 →
  full d max_bb_size = false → (n ≤ Z.to_nat max_bb_size)%nat →
  let d' := Nat.iter n (λ d, snd (add_item d)) d in
  _end d' = _end d + Z.of_nat n ∧ fst (add_item d') < _size d ∧
  ∃ d1 d2, add_br_stub d' = Ret (_end d', d1) ∧ add_brkpt_stub d' = Ret (_end d', d2).
Proof.
  intros Hl He Hm Hs Hf Hn d'. unfold full in Hf. apply Z.leb_gt in Hf. rewrite wrap_small in Hf by (unfold uint; lia).
  assert (∀ k, (k ≤ n)%nat → let d' := Nat.iter k (λ d, snd (add_item d)) d in
    _end d' = _end d + Z.of_nat k ∧ _items d' = _items d) as Hk.
  { induction k as [|k IH]; intros Hkn; [by rewrite Z.add_0_r|]. destruct IH as [IH1 IH2]; [lia|].
    intros d1. unfold d1. rewrite Nat.iter_succ. set (it := Nat.iter k _ d) in *. cbn [add_item snd set_items _end _items]. rewrite IH1, IH2.
    split; [|done]. rewrite wrap_small by (unfold uint; lia). lia. }
  destruct (Hk n ltac:(lia)) as [H1 H2]. fold d' in H1, H2. split; [done|]. split; [cbn; lia|].
  destruct (lookup_lt_is_Some_2 (_items d') (Z.to_nat (_end d'))) as [x Hx]; [rewrite H2; lia|].
  unfold add_br_stub, add_brkpt_stub, update_item. cbn. rewrite Hx. by do 2 eexists.
Qed.

Lemma decode_cache_room_witness :
  let x := {| _func := None; _args := [0]; _bt_t := None; _bt_f := None |} in
  let d := new_decode_cache 100 101 8 (replicate 8 x) in
  let d' := Nat.iter 6 (λ d, snd (add_item d)) d in
  full d 6 = false ∧ ∃ d1 d2, add_br_stub d' = Ret (7, d1) ∧ add_brkpt_stub d' = Ret (7, d2).
Proof.
  intros x d d'. split; [reflexivity|].
  apply (decode_cache_room d 6 6); reflexivity || (vm_compute; discriminate) || (vm_compute; split; discriminate) || (vm_compute; lia).
Defined.

(** ** What the table relies on *)

(** Resetting, stubs and counting do not change which code a block is for. *)
Class BlockLaws (S BT : Type) {BO : BlockType BT} {SO : Support S BT} : Prop := {
  base_new ra : base (new_block ra) = new_basic_block ra;
  valid_new ra : valid (new_block ra) = false;
  base_with b x : base (with_base b x) = x;
  valid_with b x : valid (with_base b x) = valid b;
  base_reset b : base (block_reset b) = base b;
  valid_reset b : valid (block_reset b) = false;
  base_invalidate s b : base (invalidate_bb s b) = base b;
  valid_invalidate s b : valid (invalidate_bb s b) = valid b;
  base_stub s b : base (create_br_stub s b) = base b;
  valid_stub s b : valid (create_br_stub s b) = valid b
}.
#[export] Instance dc_laws : BlockLaws DcDecodeCache DcBasicBlock.
Proof. by split. Qed.

Section HashCorrect.
Context {S BT : Type} {BO : BlockType BT} {SO : Support S BT} {BL : BlockLaws S BT}.
Context (InstrShift EaHashBits : Z) (Hbits : 0 ≤ EaHashBits).
Local Abbreviation Tab := (BlockHash S BT).
Implicit Types (h : Tab) (tr : Z → option Z).

(** The page of an address. *)
Definition page_of (ra : Z) : Z := 4096 * (ra / 4096).
Lemma get_page_eq a : uint 64 a → get_page a = page_of a.
Proof.
  intros Ha. unfold get_page, page_of, BlockPageMask. change 0xfff with (Z.ones 12).
  transitivity (Z.ldiff a (Z.ones 12)).
  - apply Z.bits_inj'. intros i Hi. rewrite Z.land_spec, Z.ldiff_spec, testbit_wrap, testbit_lnot by lia.
    destruct (Z.ltb_spec i 64), (Z.leb_spec 0 i); cbn; rewrite ?andb_true_r; try lia; try done.
    by rewrite (testbit_high 64 a) by (done || lia).
  - rewrite Z.ldiff_ones_r, Z.shiftl_mul_pow2, Z.shiftr_div_pow2 by lia. change (2 ^ 12) with 4096. lia.
Qed.
Lemma page_of_small a : uint 64 a → uint 64 (page_of a).
Proof. unfold uint, page_of. intros. zlia. Qed.

(** The invariant: every entry of the small table leads to the block of the real
    address; blocks are known by one address each; a block with code is listed
    under all pages that it covers, unless it is in [X]. *)
Record hash_ok (tr : Z → option Z) (X : gset nat) h : Prop := {
  h_len : Z.of_nat (length (_ea_hash h)) = 2 ^ EaHashBits;
  h_key : ∀ ra mask p, _blocks h !! (ra, mask) = Some p →
    (p < next_block h)%nat ∧ ∃ b, blocks_heap h !! p = Some b ∧ _start_ra (base b) = ra;
  h_inj : ∀ k k' p, _blocks h !! k = Some p → _blocks h !! k' = Some p → k = k';
  h_owner : ∀ p b, blocks_heap h !! p = Some b → ∃ k, _blocks h !! k = Some p;
  h_ea : ∀ i e p, _ea_hash h !! i = Some e → _bb e = Some p →
    ∃ ra, tr (_ea e) = Some ra ∧ _blocks h !! (ra, _mask e) = Some p;
  h_page : ∀ k p, (k, p) ∈ _blocks_by_page h → ∃ b, blocks_heap h !! p = Some b;
  h_listed : ∀ p b ra, blocks_heap h !! p = Some b → p ∉ X → valid b = true → uint 64 ra →
    matching_addr (base b) ra = true → (page_of ra, p) ∈ _blocks_by_page h
}.

Lemma ea_index_range a mask : 0 ≤ ea_hash_func InstrShift EaHashBits a mask < 2 ^ EaHashBits.
Proof.
  unfold ea_hash_func, EaHashMask, EaHashSize. rewrite Z.shiftl_mul_pow2, Z.mul_1_l by lia.
  replace (2 ^ EaHashBits - 1) with (Z.ones EaHashBits) by (rewrite Z.ones_equiv; lia).
  rewrite Z.land_ones by lia. apply Z.mod_pos_bound, pow2_pos. lia.
Qed.
Lemma EaHashSize_eq : EaHashSize EaHashBits = 2 ^ EaHashBits.
Proof. unfold EaHashSize. rewrite Z.shiftl_mul_pow2; lia. Qed.

Lemma flush_ok tr tr' X h : hash_ok tr X h → hash_ok tr' X (flush_ea_hash EaHashBits h).
Proof.
  intros [H1 H2 H3 H4 H5 H6 H7]. split; cbn; try done.
  - rewrite length_replicate, EaHashSize_eq. pose proof (pow2_pos EaHashBits Hbits). lia.
  - intros i e p Hi. by apply lookup_replicate in Hi as [-> _].
Qed.
Lemma hash_reset_ok tr X h quick : hash_ok tr X (reset EaHashBits h quick).
Proof.
  split; cbn; try done.
  - rewrite length_replicate, EaHashSize_eq. pose proof (pow2_pos EaHashBits Hbits). lia.
  - intros i e p Hi. by apply lookup_replicate in Hi as [-> _].
  - intros k p Hp. by apply not_elem_of_nil in Hp.
Qed.

(** Changing a block in place. *)
Lemma change_block_ok tr X h p b f : hash_ok tr X h → blocks_heap h !! p = Some b →
  _start_ra (base (f b)) = _start_ra (base b) →
  (valid (f b) = true → p ∉ X → valid b = true ∧ _end_ra (base (f b)) = _end_ra (base b)) →
  ∃ h', change_block h p f = Ret h' ∧ hash_ok tr X h' ∧ blocks_heap h' !! p = Some (f b) ∧
  _blocks h' = _blocks h ∧ _ea_hash h' = _ea_hash h ∧ _blocks_by_page h' = _blocks_by_page h ∧ support h' = support h ∧
  (∀ q, q ≠ p → blocks_heap h' !! q = blocks_heap h !! q).
Proof.
  intros [H1 H2 H3 H4 H5 H6 H7] Hp Hst Hv. unfold change_block, block_at. rewrite Hp. cbn [obind]. eexists. split; [done|].
  split; [split|]; cbn; try done.
  - intros ra mask q Hq. destruct (H2 ra mask q Hq) as (Hn & c & Hc & Hs). split; [done|].
    destruct (decide (q = p)) as [->|Hne]; [|exists c; by rewrite lookup_insert_ne].
    exists (f b). rewrite lookup_insert_eq. split; [done|]. congruence.
  - intros q c [(<- & _)|[_ Hq]]%lookup_insert_Some; by eapply H4.
  - intros k q Hk. destruct (H6 k q Hk) as [c Hc].
    destruct (decide (q = p)) as [->|Hne]; [|exists c; by rewrite lookup_insert_ne]. exists (f b). by rewrite lookup_insert_eq.
  - intros q c ra [(<- & <-)|[_ Hq]]%lookup_insert_Some Hskip Hval Hra Hm; [|by eapply H7].
    destruct (Hv Hval Hskip) as [Hvb He]. eapply H7; try done. unfold matching_addr in *. by rewrite <- Hst, <- He.
  - split_and!; try done; [by rewrite lookup_insert_eq|]. intros q Hq. by rewrite lookup_insert_ne.
Qed.

(** Lookups give no block code. *)
Definition no_new_code h h' : Prop := ∀ q b', blocks_heap h' !! q = Some b' → valid b' = true →
  ∃ b, blocks_heap h !! q = Some b ∧ valid b = true.
Lemma no_new_code_refl h : no_new_code h h.
Proof. intros q b. by exists b. Qed.
Lemma no_new_code_trans h1 h2 h3 : no_new_code h1 h2 → no_new_code h2 h3 → no_new_code h1 h3.
Proof. intros H1 H2 q b Hb Hv. destruct (H2 q b Hb Hv) as (c & Hc & Hvc). by apply (H1 q c). Qed.

Lemma get_bb_ra_ok tr X h ra mask p h' : hash_ok tr X h → get_bb_ra_no_translate h ra mask = (p, h') →
  hash_ok tr X h' ∧ _blocks h' !! (ra, mask) = Some p ∧ _blocks h ⊆ _blocks h' ∧
  no_new_code h h' ∧ support h' = support h.
Proof.
  intros Hh E. unfold get_bb_ra_no_translate in E.
  destruct (_blocks h !! (ra, mask)) as [q|] eqn:Eb; simplify_eq; [split_and!; [done..|apply no_new_code_refl|done]|].
  destruct Hh as [H1 H2 H3 H4 H5 H6 H7].
  assert (∀ k q, _blocks h !! k = Some q → (q < next_block h)%nat) as Hlt by (intros [] q Hq; by eapply H2).
  assert (blocks_heap h !! next_block h = None) as Hfresh.
  { destruct (blocks_heap h !! next_block h) as [b|] eqn:En; [|done]. apply H4 in En as [k Hk]. apply Hlt in Hk. lia. }
  assert (∀ q b, blocks_heap h !! q = Some b → q ≠ next_block h) as Hne by congruence.
  split; [split|]; cbn; try done.
  - intros ra' mask' q [([= <- <-] & <-)|[_ Hq]]%lookup_insert_Some.
    + split; [lia|]. exists (new_block ra). by rewrite lookup_insert_eq, base_new.
    + destruct (H2 ra' mask' q Hq) as (Hn & c & Hc & Hs). split; [lia|]. exists c. rewrite lookup_insert_ne; [done|].
      intros Hnq. by apply (Hne q c).
  - intros k k' q [(<- & <-)|[_ Hk]]%lookup_insert_Some [(<- & Hq)|[_ Hk']]%lookup_insert_Some; subst; try done.
    + apply Hlt in Hk'. lia.
    + apply Hlt in Hk. lia.
    + by eapply H3.
  - intros q c [(<- & _)|[_ Hq]]%lookup_insert_Some; [exists (ra, mask); by rewrite lookup_insert_eq|].
    destruct (H4 q c Hq) as [k Hk]. exists k. rewrite lookup_insert_ne; [done|]. congruence.
  - intros i e q Hi Hq. destruct (H5 i e q Hi Hq) as (ra' & Htr & Hb). exists ra'. split; [done|].
    rewrite lookup_insert_ne; [done|]. congruence.
  - intros k q Hk. destruct (H6 k q Hk) as [c Hc]. exists c. rewrite lookup_insert_ne; [done|]. intros Hnq. by apply (Hne q c).
  - intros q c ra' [(<- & <-)|[_ Hq]]%lookup_insert_Some Hx Hval; [by rewrite valid_new in Hval|]. by eapply H7.
  - split_and!; try done; [by rewrite lookup_insert_eq|by apply insert_subseteq|].
    intros q c Hq Hval. cbn in Hq.
    apply lookup_insert_Some in Hq as [(<- & <-)|[_ Hq]]; [by rewrite valid_new in Hval|by exists c].
Qed.

Lemma insert_ea_ok tr X h ea mask ra p : hash_ok tr X h → tr ea = Some ra → _blocks h !! (ra, mask) = Some p →
  hash_ok tr X (insert_ea_hash InstrShift EaHashBits h ea mask p).
Proof.
  intros [H1 H2 H3 H4 H5 H6 H7] Htr Hb. split; cbn; try done; [by rewrite length_insert|].
  intros i e q Hi Hq. apply list_lookup_insert_Some in Hi as [(_ & <- & _)|[_ Hi]]; [|by eapply H5].
  cbn in *. simplify_eq. by exists ra.
Qed.
Lemma activate_ok tr X h p b active : hash_ok tr X h → blocks_heap h !! p = Some b →
  ∃ h', activate h p active = Ret h' ∧ hash_ok tr X h' ∧ _blocks h' = _blocks h ∧
  no_new_code h h' ∧ support h' = support h.
Proof.
  intros Hh Hb. destruct active; cbn; [|exists h; split_and!; [done..|apply no_new_code_refl|done]].
  destruct (change_block_ok tr X h p b (λ b, with_base b (incr_hot_count (base b))) Hh Hb)
    as (h' & E & Hh' & Hp & Hbl & _ & _ & Hsup & Hq); [cbn beta; by rewrite base_with|cbn beta; rewrite base_with, valid_with; done|].
  exists h'. split_and!; try done. intros q b' Hb' Hv. destruct (decide (q = p)) as [->|Hne].
  - rewrite Hp in Hb'. injection Hb' as <-. rewrite valid_with in Hv. by exists b.
  - rewrite Hq in Hb' by done. by exists b'.
Qed.
(** The small table is not seen: looking up an effective address gives the block
    of its real address, made if it was not there. *)
Lemma get_bb_ea_spec tr X h ea mask active : hash_ok tr X h →
  ∃ r h', get_bb_ea_no_translate InstrShift EaHashBits tr h ea mask active = Ret (r, h') ∧
  hash_ok tr X h' ∧ _blocks h ⊆ _blocks h' ∧ no_new_code h h' ∧ support h' = support h ∧
  match tr ea with
  | None => r = Exception
  | Some ra => ∃ p, r = Value p ∧ _blocks h' !! (ra, mask) = Some p
  end.
Proof.
  intros Hh. unfold get_bb_ea_no_translate, lookup_ea_hash. pose proof (ea_index_range ea mask) as Hi.
  destruct (lookup_lt_is_Some_2 (_ea_hash h) (Z.to_nat (ea_hash_func InstrShift EaHashBits ea mask))) as [e He];
    [pose proof (h_len _ _ _ Hh); lia|]. rewrite He. cbn [obind].
  destruct (entry_match e ea mask) as [p|] eqn:Em.
  - unfold entry_match in Em. destruct (Z.eqb_spec ea (_ea e)) as [->|], (Z.eqb_spec mask (_mask e)) as [->|]; try done. cbn in Em.
    destruct (h_ea _ _ _ Hh _ _ _ He Em) as (ra & Htr & Hb). destruct (h_key _ _ _ Hh _ _ _ Hb) as (_ & b & Hp & _).
    destruct (activate_ok tr X h p b active Hh Hp) as (h' & -> & Hh' & Hbl & Hnew & Hsup). cbn [obind].
    exists (Value p), h'. rewrite Htr, Hbl. split_and!; try done. by exists p.
  - destruct (tr ea) as [ra|] eqn:Htr; [|exists Exception, h; split_and!; [done..|apply no_new_code_refl|done|done]].
    destruct (get_bb_ra_no_translate h ra mask) as [p h1] eqn:Eg.
    destruct (get_bb_ra_ok tr X h ra mask p h1 Hh Eg) as (Hh1 & Hb & Hsub & Hnew1 & Hsup1).
    pose proof (insert_ea_ok tr X h1 ea mask ra p Hh1 Htr Hb) as Hh2. destruct (h_key _ _ _ Hh2 _ _ _ Hb) as (_ & b & Hp & _).
    destruct (activate_ok tr X _ p b active Hh2 Hp) as (h' & -> & Hh' & Hbl & Hnew2 & Hsup2). cbn [obind].
    exists (Value p), h'. rewrite Hbl, Hsup2. split_and!; try done; [|by exists p]. by eapply no_new_code_trans.
Qed.

(** One that does not count as a use changes no block. *)
Lemma get_bb_ea_keep tr X h ea mask r h' : hash_ok tr X h →
  get_bb_ea_no_translate InstrShift EaHashBits tr h ea mask false = Ret (r, h') → blocks_heap h ⊆ blocks_heap h'.
Proof.
  intros Hh. unfold get_bb_ea_no_translate. destruct (lookup_ea_hash _ _ h ea mask) as [[p|]| | |]; cbn; try done; [by intros [= _ <-]|].
  destruct (tr ea) as [ra|]; [|by intros [= _ <-]]. unfold get_bb_ra_no_translate.
  destruct (_blocks h !! (ra, mask)) as [q|]; cbn; intros [= _ <-]; [done|]. cbn. apply insert_subseteq.
  destruct (blocks_heap h !! next_block h) as [b|] eqn:En; [|done]. apply (h_owner _ _ _ Hh) in En as [[ra' mask'] Hk].
  apply (h_key _ _ _ Hh) in Hk as [Hlt _]. lia.
Qed.

(** *** Listing a block under its pages *)

Lemma page_loop_spec n s e p l : 0 ≤ s → s mod 4096 = 0 → e mod 4096 = 0 → e + 4096 < 2 ^ 64 →
  (e - s) / 4096 + 1 < Z.of_nat n → (0 < n)%nat →
  ∃ l', page_loop n s e p l = Ret l' ∧ (∀ x, x ∈ l' → x ∈ l ∨ x.2 = p) ∧ (∀ x, x ∈ l → x ∈ l') ∧
  ∀ k, s ≤ k ≤ e → k mod 4096 = 0 → (k, p) ∈ l'.
Proof.
  revert s l. induction n as [|n IH]; intros s l Hs Hs8 He8 He Hn Hn0; [lia|].
  - cbn [page_loop]. unfold BlockPageMask. change (0xfff + 1) with 4096. destruct (Z.leb_spec s e) as [Hle|Hgt].
    + rewrite wrap_small by (unfold uint; lia).
      destruct (IH (s + 4096) (l ++ [(s, p)])) as (l' & E & H1 & H2 & H3); [lia|zlia|done|done|zlia|zlia|].
      exists l'. split_and!; [done|..].
      * intros x Hx. apply H1 in Hx as [[Hx| ->%list_elem_of_singleton]%elem_of_app|]; auto.
      * intros x Hx. apply H2, elem_of_app. by left.
      * intros k Hk Hk8. destruct (decide (k = s)) as [->|Hne]; [apply H2, elem_of_app; right; by apply list_elem_of_singleton|].
        apply H3; [clear - Hk Hk8 Hs8 Hne; zlia|done].
    + exists l. split_and!; try done; [by left|]. intros; lia.
Qed.
(** With the last page of the address space the loop does not end. *)
Lemma page_loop_last n s p l : uint 64 s → s mod 4096 = 0 → page_loop n s (2 ^ 64 - 4096) p l = Undefined.
Proof.
  revert s l. induction n as [|n IH]; intros s l Hs Hs8; [done|]. cbn [page_loop]. unfold BlockPageMask.
  change (0xfff + 1) with 4096. rewrite (proj2 (Z.leb_le _ _)) by (unfold uint in Hs; clear - Hs Hs8; zlia).
  apply IH; [by apply uint_wrap|]. unfold wrap. change (2 ^ 64) with (4096 * 2 ^ 52).
  rewrite Z.rem_mul_r by lia. clear - Hs8. zlia.
Qed.
(** Blocks end before the last page. *)
Definition block_range (b : AdlBasicBlock) : Prop := uint 64 (_start_ra b) ∧ uint 64 (_end_ra b) ∧ page_of (_end_ra b) + 4096 < 2 ^ 64.
Lemma add_to_page_ok tr X h p b : hash_ok tr ({[p]} ∪ X) h → blocks_heap h !! p = Some b → block_range (base b) →
  ∃ h', add_to_page_hash h p = Ret h' ∧ hash_ok tr X h' ∧ _blocks h' = _blocks h ∧ blocks_heap h' = blocks_heap h ∧ support h' = support h.
Proof.
  intros [H1 H2 H3 H4 H5 H6 H7] Hb (Hs & He & Htop). unfold add_to_page_hash, block_at. rewrite Hb. cbn [obind].
  rewrite !get_page_eq by done. set (s := page_of (_start_ra _)). set (e := page_of (_end_ra _)) in *.
  assert (0 ≤ s ∧ s mod 4096 = 0 ∧ e mod 4096 = 0) as (Hs0 & Hs8 & He8) by (unfold s, e, page_of, uint in *; zlia).
  change (BlockPageMask + 1) with 4096.
  destruct (page_loop_spec (Datatypes.S (Z.to_nat ((e - s) / 4096 + 1))) s e p (_blocks_by_page h) Hs0 Hs8 He8 Htop
    ltac:(lia) ltac:(lia))
    as (l & -> & Hl1 & Hl2 & Hl3). cbn [obind].
  eexists. split; [done|]. split; [split|]; cbn; try done.
  - intros k q Hk. apply Hl1 in Hk as [Hk|Hk]; [by eapply H6|]. cbn in Hk. subst q. by exists b.
  - intros q c ra Hq Hx Hv Hra Hm. destruct (decide (q = p)) as [->|Hne]; [|apply Hl2; eapply H7; [done| |done..]; rewrite elem_of_union, elem_of_singleton; tauto].
    rewrite Hb in Hq. injection Hq as <-. apply Hl3; [|unfold page_of; clear; zlia].
    unfold matching_addr in Hm. apply andb_prop in Hm as [Hm1%Z.leb_le Hm2%Z.leb_le].
    unfold s, e, page_of. clear - Hm1 Hm2. zlia.
Qed.

(** *** Invalidation *)

Lemma invalidate_loop_spec tr X h page ra l : hash_ok tr X h → (∀ k p, (k, p) ∈ l → ∃ b, blocks_heap h !! p = Some b) →
  ∃ n l' h', invalidate_loop h page ra l = Ret (n, l', h') ∧ hash_ok tr X h' ∧
  _blocks h' = _blocks h ∧ _blocks_by_page h' = _blocks_by_page h ∧ support h' = support h ∧
  (∀ q b', blocks_heap h' !! q = Some b' → ∃ b, blocks_heap h !! q = Some b ∧ base b' = base b ∧
     (valid b' = true → b' = b ∧ ((page, q) ∈ l → matching_addr (base b) ra = false))) ∧
  (∀ q b, blocks_heap h !! q = Some b → matching_addr (base b) ra = false → blocks_heap h' !! q = Some b) ∧
  (∀ x, x ∈ l' → x ∈ l) ∧
  (∀ k q b, (k, q) ∈ l → blocks_heap h !! q = Some b → k ≠ page ∨ matching_addr (base b) ra = false → (k, q) ∈ l').
Proof.
  revert h. induction l as [|[k p] l IH]; intros h Hh Hl.
  { exists 0, [], h. split_and!; try done. intros q b Hq. exists b. split_and!; try done. intros _. split; [done|].
    intros Hin. by apply not_elem_of_nil in Hin. }
  destruct (Hl k p) as [b Hb]; [by left|]. cbn [invalidate_loop].
  assert (∀ k' q, (k', q) ∈ l → ∃ b, blocks_heap h !! q = Some b) as Hl' by (intros k' q Hin; apply (Hl k'); by right).
  unfold block_at. rewrite Hb. cbn [obind].
  destruct (decide (k = page ∧ matching_addr (base b) ra = true)) as [[-> Hm]|Hno].
  - rewrite Z.eqb_refl, Hm.
    destruct (change_block_ok tr X h p b (λ b, invalidate_bb (support h) (block_reset b)) Hh Hb)
      as (h1 & -> & Hh1 & Hp & Hbl & _ & Hby & Hsup & Hq1).
    { cbn beta. by rewrite base_invalidate, base_reset. }
    { cbn beta. by rewrite valid_invalidate, valid_reset. }
    cbn [obind]. destruct (IH h1 Hh1) as (n & l' & h' & -> & Hh' & Hbl' & Hby' & Hsup' & H1 & H2 & H3 & H4).
    { intros k' q Hin. destruct (Hl' k' q Hin) as [c Hc].
      destruct (decide (q = p)) as [->|Hne]; [by eexists|exists c; by rewrite Hq1]. }
    cbn [obind fst snd]. eexists _, l', h'. split; [done|]. split_and!; try done; try congruence.
    + intros q b' Hb'. destruct (H1 q b' Hb') as (c & Hc & Hbc & Hv). destruct (decide (q = p)) as [->|Hne].
      * rewrite Hp in Hc. injection Hc as <-. exists b. rewrite base_invalidate, base_reset in Hbc. split_and!; try done.
        intros Hvb. destruct (Hv Hvb) as [-> _]. by rewrite valid_invalidate, valid_reset in Hvb.
      * rewrite Hq1 in Hc by done. exists c. split_and!; try done. intros Hvb. destruct (Hv Hvb) as [-> Hin].
        split; [done|]. intros [[= Hqp]|Hin']%elem_of_cons; [done|auto].
    + intros q c Hc Hmc. apply H2; [|done]. rewrite Hq1; [done|]. intros ->. congruence.
    + intros x Hx. right. auto.
    + intros k' q c [[= -> ->]|Hin]%elem_of_cons Hc Hor; [destruct Hor; congruence|].
      destruct (decide (q = p)) as [->|Hne]; [|eapply H4; [done| |done]; by rewrite Hq1].
      apply (H4 k' p (invalidate_bb (support h) (block_reset b))); [done..|].
      rewrite base_invalidate, base_reset. rewrite Hb in Hc. by injection Hc as <-.
  - destruct (IH h Hh Hl') as (n & l' & h' & E & Hh' & Hbl' & Hby' & Hsup' & H1 & H2 & H3 & H4).
    assert (k = page → matching_addr (base b) ra = false) as Hmf
      by (intros ->; destruct (matching_addr (base b) ra); [by destruct Hno|done]).
    assert ((if k =? page then
        if matching_addr (base b) ra then
          let! h0 := change_block h p (λ b, invalidate_bb (support h) (block_reset b)) in
          let! r := invalidate_loop h0 page ra l in Ret (wrap 32 (fst (fst r) + 1), snd (fst r), snd r)
        else let! r := invalidate_loop h page ra l in Ret (fst (fst r), (k, p) :: snd (fst r), snd r)
      else let! r := invalidate_loop h page ra l in Ret (fst (fst r), (k, p) :: snd (fst r), snd r)) =
      Ret (n, (k, p) :: l', h')) as ->.
    { rewrite E. cbn [obind fst snd]. destruct (Z.eqb_spec k page); [|done]. by rewrite Hmf. }
    exists n, ((k, p) :: l'), h'. split; [done|]. split_and!; try done.
    + intros q b' Hb'. destruct (H1 q b' Hb') as (c & Hc & Hbc & Hv). exists c. split_and!; try done.
      intros Hvb. destruct (Hv Hvb) as [-> Hin]. split; [done|]. intros [[= Hk Hqp]|Hin']%elem_of_cons; [|auto].
      subst q. rewrite Hb in Hc. injection Hc as <-. by apply Hmf.
    + intros x [->|Hx]%elem_of_cons; [by left|right; auto].
    + intros k' q c [[= -> ->]|Hin]%elem_of_cons Hc Hor; [by left|right; by eapply H4].
Qed.

(** Afterwards no block that has code contains the address, and other blocks are
    as before.  Nothing is known of the blocks in [X]. *)
Lemma invalidate_ra_spec tr X h ra : hash_ok tr X h → uint 64 ra →
  ∃ n h', invalidate_ra h ra = Ret (n, h') ∧ hash_ok tr X h' ∧ _blocks h' = _blocks h ∧
  (∀ q b, blocks_heap h' !! q = Some b → q ∉ X → valid b = true → matching_addr (base b) ra = false) ∧
  (∀ q b, blocks_heap h !! q = Some b → matching_addr (base b) ra = false → blocks_heap h' !! q = Some b) ∧ support h' = support h.
Proof.
  intros Hh Hra. unfold invalidate_ra. rewrite get_page_eq by done.
  destruct (invalidate_loop_spec tr X h (page_of ra) ra (_blocks_by_page h) Hh (h_page _ _ _ Hh))
    as (n & l' & h' & -> & Hh' & Hbl & Hby & Hsup & H1 & H2 & H3 & H4). cbn [obind fst snd].
  eexists n, _. split; [done|].
  assert (∀ q b, blocks_heap h' !! q = Some b → q ∉ X → valid b = true → matching_addr (base b) ra = false) as Hnone.
  { intros q b Hb Hx Hv. destruct (H1 q b Hb) as (c & Hc & _ & Hvc). destruct (Hvc Hv) as [-> Hin].
    destruct (matching_addr (base c) ra) eqn:Hm; [|done].
    apply Hin. by apply (h_listed _ _ _ Hh q c ra). }
  split; [|done]. destruct Hh' as [K1 K2 K3 K4 K5 K6 K7]. split; cbn; try done.
  - intros k p Hp. apply (K6 k p). rewrite Hby. auto.
  - intros q b ra' Hb Hx Hv Hra' Hm. pose proof (K7 q b ra' Hb Hx Hv Hra' Hm) as Hin. rewrite Hby in Hin.
    destruct (H1 q b Hb) as (c & Hc & _ & Hvc). destruct (Hvc Hv) as [-> _].
    eapply H4; [done..|]. right. by apply (Hnone q).
Qed.
End HashCorrect.

(** ** Sequences of operations *)

(** Real addresses lie below the last page of the address space: for a block that
    ends in that page, [page_loop_last], the loop over its pages does not end. *)
Definition low (ra : Z) : Prop := 0 ≤ ra < 2 ^ 64 - 4096.
Definition real (tr : Z → option Z) : Prop := ∀ ea ra, tr ea = Some ra → low ra.
Lemma low_range b : low (_start_ra b) → low (_end_ra b) → block_range b.
Proof. unfold low, block_range, page_of, uint. intros. split_and!; zlia. Qed.

Section Runs.
Context {S BT : Type} {BO : BlockType BT} {SO : Support S BT} {BL : BlockLaws S BT}.
Context (InstrShift EaHashBits : Z) (Hbits : 0 ≤ EaHashBits).
Local Abbreviation Tab := (BlockHash S BT).
Local Abbreviation ok := (hash_ok (S := S) (BT := BT) EaHashBits).
(** Both may look at the translation of addresses. *)
Context (translate_full : Tab → bool * Tab) (translate : (Z → option Z) → Z → nat → Tab → outcome (thrown unit * Tab)).

(** What [get_bb] needs of the translator, with what it needs of its store
    ([good], and [room] for another block): a store without room is reported after
    all code has been dropped; a translation gives code to the block that it is
    called for, and to no other.  It may also throw, whatever it has done to that
    block: it is in the set of blocks that may not be listed. *)
Record TranslatorLaws (good room : S → Prop) : Prop := {
  good_reset s : good s → good (support_reset s);
  good_reset_bb s b : good s → good (fst (reset_bb s b));
  full_law tr X h : ok tr X h → good (support h) →
    match translate_full h with
    | (true, h') => ok tr X h' ∧ good (support h') ∧ room (support h') ∧ ∀ p b, blocks_heap h' !! p = Some b → valid b = false
    | (false, h') => h' = h ∧ room (support h)
    end;
  translate_law tr X ea p b h : real tr → ok tr X h → good (support h) → room (support h) →
    blocks_heap h !! p = Some b → valid b = false → tr ea = Some (_start_ra (base b)) →
    ∃ r h', translate tr ea p h = Ret (r, h') ∧ _blocks h ⊆ _blocks h' ∧ ok tr ({[p]} ∪ X) h' ∧ good (support h') ∧
    (r = Value () → ∃ b', blocks_heap h' !! p = Some b' ∧ valid b' = true ∧ block_range (base b'))
}.
Context {good room : S → Prop} (TL : TranslatorLaws good room).

(** The block that a lookup is to give. *)
Definition filed (tr : Z → option Z) (h : Tab) (ea mask : Z) (p : nat) : Prop :=
  ∃ ra b, tr ea = Some ra ∧ _blocks h !! (ra, mask) = Some p ∧ blocks_heap h !! p = Some b ∧ _start_ra (base b) = ra.
Lemma filed_ok tr X h ea mask ra p : ok tr X h → tr ea = Some ra → _blocks h !! (ra, mask) = Some p → filed tr h ea mask p.
Proof. intros Hh Htr Hb. destruct (h_key _ _ _ _ Hh _ _ _ Hb) as (_ & b & Hp & Hs). by exists ra, b. Qed.

(** The second lookup, after the store was found full. *)
Lemma relookup tr X h ea mask ra p b : ok tr X h → good (support h) → tr ea = Some ra → _blocks h !! (ra, mask) = Some p →
  blocks_heap h !! p = Some b → valid b = false →
  ∃ q h' c, (let '(fl, h) := translate_full h in
    if fl then get_bb_ea_no_translate InstrShift EaHashBits tr h ea mask true else Ret (Value p, h)) = Ret (Value q, h') ∧
  ok tr X h' ∧ good (support h') ∧ room (support h') ∧ _blocks h' !! (ra, mask) = Some q ∧ blocks_heap h' !! q = Some c ∧ valid c = false.
Proof.
  intros Hh Hg Htr Hp Hb Hv. pose proof (full_law _ _ TL tr X h Hh Hg) as Hf. destruct (translate_full h) as [[] h2].
  - destruct Hf as (Hh2 & Hg2 & Hr2 & Hnov).
    destruct (get_bb_ea_spec InstrShift EaHashBits Hbits tr X h2 ea mask true Hh2) as (r & h3 & -> & Hh3 & _ & Hnew & Hs & Hr).
    rewrite Htr in Hr. destruct Hr as (q & -> & Hq). destruct (h_key _ _ _ _ Hh3 _ _ _ Hq) as (_ & c & Hc & _).
    exists q, h3, c. rewrite Hs. split_and!; try done. destruct (valid c) eqn:Hvc; [|done].
    destruct (Hnew q c Hc Hvc) as (d & Hd & Hvd). by rewrite (Hnov q d Hd) in Hvd.
  - destruct Hf as [-> Hr]. by exists p, h, b.
Qed.
(** The block that a lookup failed for. *)
Definition unlisted (r : thrown (option nat)) (tr : Z → option Z) (h : Tab) (ea mask : Z) : gset nat :=
  match r, tr ea with
  | Exception, Some ra => match _blocks h !! (ra, mask) with Some p => {[p]} | None => ∅ end
  | _, _ => ∅
  end.
Lemma hash_ok_more tr X Y h : X ⊆ Y → ok tr X h → ok tr Y h.
Proof. intros HXY [H1 H2 H3 H4 H5 H6 H7]. split; try done. intros p b ra Hp HY. apply (H7 p b ra Hp). by intros ?%HXY. Qed.
Lemma get_bb_spec tr X h ea mask thr : real tr → ok tr X h → good (support h) →
  ∃ r h', get_bb InstrShift EaHashBits tr translate_full (translate tr) h ea mask thr = Ret (r, h') ∧
  ok tr (unlisted r tr h' ea mask ∪ X) h' ∧ good (support h') ∧
  match r with
  | Exception | Value None => True
  | Value (Some p) => filed tr h' ea mask p ∧ ∃ b, blocks_heap h' !! p = Some b ∧ valid b = true
  end.
Proof.
  intros Hreal Hh Hg. unfold get_bb.
  assert (∀ (r : thrown (option nat)) h', ok tr X h' → ok tr (unlisted r tr h' ea mask ∪ X) h') as Hmore
    by (intros r h'; apply hash_ok_more, union_subseteq_r).
  destruct (get_bb_ea_spec InstrShift EaHashBits Hbits tr X h ea mask true Hh) as (r & h1 & -> & Hh1 & _ & _ & Hs1 & Hr). cbn [obind fst snd].
  rewrite <- Hs1 in Hg.
  destruct (tr ea) as [ra|] eqn:Htr; [destruct Hr as (p & -> & Hp)|subst r; exists Exception, h1; by auto].
  destruct (h_key _ _ _ _ Hh1 _ _ _ Hp) as (_ & b & Hb & _). unfold block_at at 1. rewrite Hb. cbn [obind].
  destruct (valid b) eqn:Hv; [exists (Value (Some p)), h1; split_and!; [done|by apply Hmore|done|by eapply filed_ok|by exists b]|].
  destruct (relookup tr X h1 ea mask ra p b Hh1 Hg Htr Hp Hb Hv) as (q & h3 & c & E & Hh3 & Hg3 & Hr3 & Hq & Hc & Hvc).
  destruct (translate_full h1) as [fl h2]. rewrite E. cbn [obind fst snd]. unfold block_at. rewrite Hc. cbn [obind].
  destruct (_ <? thr); [exists (Value None), h3; by auto|].
  assert (_start_ra (base c) = ra) as Hsc.
  { destruct (h_key _ _ _ _ Hh3 _ _ _ Hq) as (_ & c' & Hc' & Hs). congruence. }
  destruct (translate_law _ _ TL tr X ea q c h3 Hreal Hh3 Hg3 Hr3 Hc Hvc) as (r & h4 & -> & Hsub & Hh4 & Hg4 & Hr); [by rewrite Hsc|]. cbn [obind fst snd].
  assert (_blocks h4 !! (ra, mask) = Some q) as Hq4 by by eapply lookup_weaken.
  destruct r as [[]|]; [|exists Exception, h4; unfold unlisted; by rewrite Htr, Hq4]. destruct (Hr eq_refl) as (d & Hd & Hvd & Hrange).
  destruct (add_to_page_ok EaHashBits Hbits tr X h4 q d Hh4 Hd Hrange) as (h5 & -> & Hh5 & Hbl & Hheap & Hs5). cbn [obind].
  exists (Value (Some q)), h5. rewrite Hs5. split_and!; [done|by apply Hmore|done| |exists d; by rewrite Hheap].
  apply (filed_ok tr X h5 ea mask ra); [done..|]. by rewrite Hbl.
Qed.
(** A lookup of a branch target changes no block's code. *)
Definition same_code (h h' : Tab) : Prop := ∀ q b, blocks_heap h !! q = Some b →
  ∃ b', blocks_heap h' !! q = Some b' ∧ valid b' = valid b ∧ base b' = base b.
Lemma get_bb_or_stub_spec tr X h ea mask : ok tr X h →
  ∃ r h', get_bb_or_stub InstrShift EaHashBits tr h ea mask = Ret (r, h') ∧ ok tr X h' ∧ _blocks h ⊆ _blocks h' ∧
  support h' = support h ∧ same_code h h' ∧ match r with Some p => filed tr h' ea mask p | None => tr ea = None end.
Proof.
  intros Hh. unfold get_bb_or_stub.
  destruct (get_bb_ea_spec InstrShift EaHashBits Hbits tr X h ea mask false Hh) as (r & h1 & E & Hh1 & Hsub & _ & Hs1 & Hr).
  pose proof (get_bb_ea_keep InstrShift EaHashBits tr X h ea mask r h1 Hh E) as Hkeep. rewrite E. cbn [obind fst snd].
  assert (same_code h h1) as Hsame by (intros q b Hq; exists b; split_and!; [by eapply lookup_weaken|done|done]).
  destruct (tr ea) as [ra|] eqn:Htr; [destruct Hr as (p & -> & Hp)|subst r; by exists None, h1].
  destruct (h_key _ _ _ _ Hh1 _ _ _ Hp) as (_ & b & Hb & _). unfold block_at. rewrite Hb. cbn [obind].
  destruct (valid b) eqn:Hv; cbn [obind]; [exists (Some p), h1; split_and!; try done; by eapply filed_ok|].
  destruct (change_block_ok EaHashBits tr X h1 p b (create_br_stub (support h1)) Hh1 Hb)
    as (h2 & -> & Hh2 & Hp2 & Hbl & _ & _ & Hs2 & Hq2); [by rewrite base_stub|by rewrite valid_stub, Hv|]. cbn [obind].
  exists (Some p), h2. rewrite Hbl, Hs2. split_and!; try done; [|apply (filed_ok tr X h2 ea mask ra); [done..|by rewrite Hbl]].
  intros q c Hq. destruct (Hsame q c Hq) as (c' & Hc' & Hv' & Hb'). destruct (decide (q = p)) as [->|Hne]; [|exists c'; by rewrite Hq2].
  rewrite Hb in Hc'. injection Hc' as <-. exists (create_br_stub (support h1) b). by rewrite valid_stub, base_stub.
Qed.

Inductive block_op : Type :=
| OpGet (ea mask hot_threshold : Z)
| OpStub (ea mask : Z)
| OpInvalidateRa (ra : Z)
| OpInvalidateEa (ea : Z)
| OpSwap (tr : Z → option Z)
| OpReset (quick : bool).
(** The core's translation and the table; a change of the translation flushes the
    small table. *)
Definition block_exec (x : (Z → option Z) * Tab) (o : block_op) : outcome ((Z → option Z) * Tab) :=
  let '(tr, h) := x in
  match o with
  | OpGet ea mask thr =>
      let! r := get_bb InstrShift EaHashBits tr translate_full (translate tr) h ea mask thr in Ret (tr, snd r)
  | OpStub ea mask => let! r := get_bb_or_stub InstrShift EaHashBits tr h ea mask in Ret (tr, snd r)
  | OpInvalidateRa ra => let! r := invalidate_ra h ra in Ret (tr, snd r)
  | OpInvalidateEa ea => let! r := invalidate_ea tr h ea in Ret (tr, snd r)
  | OpSwap tr' => Ret (tr', flush_ea_hash EaHashBits h)
  | OpReset quick => Ret (tr, reset EaHashBits h quick)
  end.
Fixpoint block_run (x : (Z → option Z) * Tab) (ops : list block_op) : outcome ((Z → option Z) * Tab) :=
  match ops with [] => Ret x | o :: ops => let! x := block_exec x o in block_run x ops end.
(** The blocks whose lookup ended in an exception: a translation that throws may
    leave its block with code, which is then under no page. *)
Definition failed (x : (Z → option Z) * Tab) (o : block_op) : gset nat :=
  match o with
  | OpGet ea mask thr =>
      match get_bb InstrShift EaHashBits (fst x) translate_full (translate (fst x)) (snd x) ea mask thr with
      | Ret (r, h) => unlisted r (fst x) h ea mask
      | _ => ∅
      end
  | _ => ∅
  end.
Fixpoint failures (x : (Z → option Z) * Tab) (ops : list block_op) : gset nat :=
  match ops with
  | [] => ∅
  | o :: ops => failed x o ∪ match block_exec x o with Ret x => failures x ops | _ => ∅ end
  end.
Definition block_op_ok (o : block_op) : Prop :=
  match o with OpInvalidateRa ra => uint 64 ra | OpSwap tr => real tr | _ => True end.

Lemma invalidate_keeps_ok tr X h ra : ok tr X h → uint 64 ra →
  ∃ n h', invalidate_ra h ra = Ret (n, h') ∧ ok tr X h' ∧ support h' = support h.
Proof.
  intros Hh Hra. destruct (invalidate_ra_spec EaHashBits tr X h ra Hh Hra) as (n & h' & E & Hh' & _ & _ & _ & Hs). by exists n, h'.
Qed.
Lemma reset_good quick h : good (support h) → good (support (reset EaHashBits h quick)).
Proof.
  intros Hg. unfold reset. apply (good_reset _ _ TL). destruct quick; [done|]. unfold reset_blocks.
  apply (map_fold_weak_ind (λ x _, good (fst x))); [done|]. intros p b m [s heap] _ IH. cbn in *.
  pose proof (good_reset_bb _ _ TL s b IH). by destruct (reset_bb s b).
Qed.
Lemma block_exec_ok tr X h o : real tr → ok tr X h → good (support h) → block_op_ok o →
  ∃ tr' h', block_exec (tr, h) o = Ret (tr', h') ∧ real tr' ∧ ok tr' (failed (tr, h) o ∪ X) h' ∧ good (support h').
Proof.
  intros Htr Hh Hg Ho. destruct o as [ea mask thr|ea mask|ra|ea|tr'|quick]; cbn [failed block_exec]; rewrite ?union_empty_l_L.
  - destruct (get_bb_spec tr X h ea mask thr Htr Hh Hg) as (r & h' & E & Hh' & Hg' & _). cbn [fst snd]. rewrite E. by exists tr, h'.
  - destruct (get_bb_or_stub_spec tr X h ea mask Hh) as (r & h' & -> & Hh' & _ & Hs & _). exists tr, h'. by rewrite Hs.
  - destruct (invalidate_keeps_ok tr X h ra Hh Ho) as (n & h' & -> & Hh' & Hs). exists tr, h'. by rewrite Hs.
  - unfold invalidate_ea. destruct (tr ea) as [ra|] eqn:E; [|by exists tr, h].
    destruct (invalidate_keeps_ok tr X h ra Hh) as (n & h' & -> & Hh' & Hs); [|exists tr, h'; by rewrite Hs].
    specialize (Htr ea ra E). unfold low, uint in *. lia.
  - eexists _, _. split; [done|]. split_and!; [done|by eapply flush_ok|done].
  - eexists _, _. split; [done|]. split_and!; [done|by apply hash_reset_ok|by apply reset_good].
Qed.
Lemma block_run_ok tr X h ops : real tr → ok tr X h → good (support h) → Forall block_op_ok ops →
  ∃ tr' h', block_run (tr, h) ops = Ret (tr', h') ∧ real tr' ∧ ok tr' (failures (tr, h) ops ∪ X) h' ∧ good (support h').
Proof.
  intros Htr Hh Hg Ho. revert tr X h Htr Hh Hg. induction Ho as [|o ops Ho _ IH]; intros tr X h Htr Hh Hg.
  { exists tr, h. cbn [failures]. by rewrite union_empty_l_L. }
  cbn [block_run failures]. destruct (block_exec_ok tr X h o Htr Hh Hg Ho) as (tr1 & h1 & -> & Htr1 & Hh1 & Hg1). cbn [obind].
  destruct (IH tr1 _ h1 Htr1 Hh1 Hg1) as (tr2 & h2 & E & Htr2 & Hh2 & Hg2). exists tr2, h2. split_and!; try done.
  eapply hash_ok_more; [|exact Hh2]. intros q. rewrite !elem_of_union. tauto.
Qed.
End Runs.

(** C17: the table of blocks answers every sequence of lookups, translations,
    invalidations, changes of the address translation and resets, after which
    looking an effective address up gives the block that is filed under its real
    address in the translation of now (and none exactly when there is no such
    address): the small table of effective addresses is never stale and no deleted
    block is used.  A block that [get_bb] gives is marked as having code.  Assumed:
    real addresses lie below the last page of the address space (for a block in
    that page the loop over its pages does not end); the translator changes the
    code of no block but the one that it is called for, and drops all code when
    its store has no room ([TranslatorLaws], which [translate_dc] meets); it may
    throw, with the block left in any state. *)
Theorem block_lookup {S BT : Type} {BO : BlockType BT} {SO : Support S BT} {BL : BlockLaws S BT}
    (InstrShift EaHashBits : Z) translate_full translate good room tr0 (h0 : BlockHash S BT) ops ea mask thr :
  0 ≤ EaHashBits → TranslatorLaws EaHashBits translate_full translate good room → good (support h0) → real tr0 → Forall block_op_ok ops →
  ∃ tr h, block_run InstrShift EaHashBits translate_full translate (tr0, reset EaHashBits h0 true) ops = Ret (tr, h) ∧
  (∃ r h', get_bb_or_stub InstrShift EaHashBits tr h ea mask = Ret (r, h') ∧
     match r with Some p => filed tr h' ea mask p | None => tr ea = None end) ∧
  (∃ r h', get_bb InstrShift EaHashBits tr translate_full (translate tr) h ea mask thr = Ret (r, h') ∧
     ∀ p, r = Value (Some p) → filed tr h' ea mask p ∧ ∃ b, blocks_heap h' !! p = Some b ∧ valid b = true).
Proof.
  intros Hb TL Hg Htr Hops.
  destruct (block_run_ok InstrShift EaHashBits Hb translate_full translate TL tr0 ∅ (reset EaHashBits h0 true) ops)
    as (tr & h & E & Hreal & Hh & Hg'); [done|by apply hash_reset_ok|by apply (good_reset _ _ _ _ _ TL)|done|]. exists tr, h. split; [done|]. split.
  - destruct (get_bb_or_stub_spec InstrShift EaHashBits Hb tr _ h ea mask Hh) as (r & h' & E' & _ & _ & _ & _ & Hr). by exists r, h'.
  - destruct (get_bb_spec InstrShift EaHashBits Hb translate_full translate TL tr _ h ea mask thr Hreal Hh Hg') as (r & h' & E' & _ & _ & Hr).
    exists r, h'. split; [done|]. by intros p ->.
Qed.

(** C18: invalidating a real address, after any sequence of operations, leaves no
    block with code whose range, from its start to its end address, contains the
    address, wherever the block starts and however many pages it covers; blocks
    that do not contain it keep theirs.  Excepted are the blocks of the lookups
    that ended in an exception ([failures]): a translation that throws can leave
    code in a block that is then listed under no page.  Assumed, as for C17: real
    addresses below the last page of the address space, and [TranslatorLaws]. *)
Theorem block_invalidate {S BT : Type} {BO : BlockType BT} {SO : Support S BT} {BL : BlockLaws S BT}
    (InstrShift EaHashBits : Z) translate_full translate good room tr0 (h0 : BlockHash S BT) ops ra :
  0 ≤ EaHashBits → TranslatorLaws EaHashBits translate_full translate good room → good (support h0) → real tr0 → Forall block_op_ok ops → uint 64 ra →
  let x0 := (tr0, reset EaHashBits h0 true) in
  ∃ tr h n h', block_run InstrShift EaHashBits translate_full translate x0 ops = Ret (tr, h) ∧
  invalidate_ra h ra = Ret (n, h') ∧ _blocks h' = _blocks h ∧
  (∀ p b, blocks_heap h' !! p = Some b → p ∉ failures InstrShift EaHashBits translate_full translate x0 ops → valid b = true →
     matching_addr (base b) ra = false) ∧
  (∀ p b, blocks_heap h !! p = Some b → matching_addr (base b) ra = false → blocks_heap h' !! p = Some b).
Proof.
  intros Hb TL Hg Htr Hops Hra x0.
  destruct (block_run_ok InstrShift EaHashBits Hb translate_full translate TL tr0 ∅ (reset EaHashBits h0 true) ops)
    as (tr & h & E & _ & Hh & _); [done|by apply hash_reset_ok|by apply (good_reset _ _ _ _ _ TL)|done|].
  destruct (invalidate_ra_spec EaHashBits tr _ h ra Hh Hra) as (n & h' & E' & _ & Hbl & H1 & H2 & _).
  exists tr, h, n, h'. split_and!; try done. intros p b Hp Hx. apply (H1 p b Hp). fold x0. rewrite elem_of_union. by intros [|[]%not_elem_of_empty].
Qed.

(** ** The translator of the decode cache *)

(** [translate_dc], as GenInstrs.C emits it for a core.  Parameters: the fetch,
    which gives a word and leaves its real address in [_last_instr_ra], or throws;
    [dc_translate_instr], which the decode tables of a core make, and which gives
    the address of the next instruction, and whether the block goes on; the
    breakpoints.  (The counter [_dc_compiles] and the register [_sb_trg] are left
    out.) *)
Section EmittedTranslator.
Local Abbreviation Tab := (BlockHash DcDecodeCache DcBasicBlock).
Context (EaHashBits max_bb_instr_count : Z) (debug_mode : bool).
Context (instr_read32_nocache : (Z → option Z) → Z → option (Z * Z)).
Context (dc_translate_instr : (Z → option Z) → Z → Z → nat → Z → Tab → outcome (thrown (bool * Z) * Tab)).
Context (check_for_breakpoint : Z → bool).

Definition set_support (h : Tab) (d : DcDecodeCache) : Tab :=
  Build_BlockHash (blocks_heap h) (next_block h) (_blocks h) (_blocks_by_page h) (_ea_hash h) d.
Definition end_block (h : Tab) (p : nat) (ra : Z) : outcome Tab :=
  change_block h p (λ b, with_base b (set_end_ra (base b) ra)).
Definition add_stub (h : Tab) (stub : DcDecodeCache → outcome (Z * DcDecodeCache)) : outcome Tab :=
  let! d := stub (support h) in Ret (set_support h (snd d)).
(** [catch (Exception current_exception) { if (count == 0) throw; }] *)
Definition dc_catch (count : Z) (h : Tab) : outcome (thrown unit * Tab) :=
  Ret (if count =? 0 then Exception else Value (), h).
Fixpoint dc_loop (fuel : nat) (tr : Z → option Z) (new_addr count : Z) (p : nat) (h : Tab) : outcome (thrown unit * Tab) :=
  match fuel with
  | O => Undefined
  | S fuel =>
      match instr_read32_nocache tr new_addr with
      | None => dc_catch count h
      | Some (word, last_instr_ra) =>
          let! h := end_block h p last_instr_ra in
          let! r := dc_translate_instr tr word new_addr p count h in
          let h := snd r in
          match fst r with
          | Exception => dc_catch count h
          | Value (false, _) => Ret (Value (), h)
          | Value (true, new_addr) =>
              let count := wrap 32 (count + 1) in
              if debug_mode && check_for_breakpoint new_addr then
                match tr new_addr with
                | None => dc_catch count h
                | Some ra => let! h := end_block h p ra in let! h := add_stub h add_brkpt_stub in Ret (Value (), h)
                end
              else if max_bb_instr_count <=? count then let! h := add_stub h add_br_stub in Ret (Value (), h)
              else dc_loop fuel tr new_addr count p h
          end
      end
  end.
Definition translate_dc (tr : Z → option Z) (addr : Z) (p : nat) (h : Tab) : outcome (thrown unit * Tab) :=
  let! h := change_block h p (λ b, start_bb (support h) b (debug_mode && check_for_breakpoint addr)) in
  dc_loop (S (Z.to_nat max_bb_instr_count)) tr addr 0 p h.

(** *** It meets the laws *)

(** The store has its length, and room for the largest block and its stub. *)
Definition store_good (d : DcDecodeCache) : Prop :=
  Z.of_nat (length (_items d)) = _size d ∧ 1 ≤ _end d ∧ max_bb_instr_count + 1 < _size d < 2 ^ 32.
Definition store_room (n : Z) (d : DcDecodeCache) : Prop := _end d + n < _size d.
(** A fetch gives the real address of what it read; an instruction is one item, and
    may look up the blocks of its targets, but leaves the code of the block it is
    in, whose end stays a real address. *)
Record InstrLaws : Prop := {
  fetch_law tr a w ra : real tr → instr_read32_nocache tr a = Some (w, ra) → low ra;
  instr_law tr X w a p b count h : real tr → hash_ok EaHashBits tr ({[p]} ∪ X) h → store_good (support h) → store_room 0 (support h) →
    blocks_heap h !! p = Some b → valid b = true → low (_start_ra (base b)) → low (_end_ra (base b)) →
    ∃ r h', dc_translate_instr tr w a p count h = Ret (r, h') ∧ _blocks h ⊆ _blocks h' ∧ hash_ok EaHashBits tr ({[p]} ∪ X) h' ∧
    store_good (support h') ∧ (∀ n, store_room (n + 1) (support h) → store_room n (support h')) ∧
    ∃ b', blocks_heap h' !! p = Some b' ∧ valid b' = true ∧ low (_start_ra (base b')) ∧ low (_end_ra (base b'))
}.
Context (Hbits : 0 ≤ EaHashBits) (Hmax : 1 ≤ max_bb_instr_count < 2 ^ 32) (IL : InstrLaws).

(** What the loop keeps: the block [p] has code, and a real address as its end
    where [started]. *)
Definition in_block (tr : Z → option Z) (X : gset nat) (p : nat) (started : Prop) (h : Tab) : Prop :=
  hash_ok EaHashBits tr ({[p]} ∪ X) h ∧ store_good (support h) ∧
  ∃ b, blocks_heap h !! p = Some b ∧ valid b = true ∧ low (_start_ra (base b)) ∧ (started → low (_end_ra (base b))).
Lemma change_own tr X p h b f : hash_ok EaHashBits tr ({[p]} ∪ X) h → store_good (support h) → blocks_heap h !! p = Some b →
  _start_ra (base (f b)) = _start_ra (base b) → low (_start_ra (base b)) → valid (f b) = true →
  ∃ h', change_block h p f = Ret h' ∧ in_block tr X p (low (_end_ra (base (f b)))) h' ∧ _blocks h' = _blocks h ∧ support h' = support h.
Proof using Type.
  intros Hh Hg Hb Hst Hlow Hv.
  destruct (change_block_ok EaHashBits tr ({[p]} ∪ X) h p b f Hh Hb Hst) as (h' & -> & Hh' & Hp & Hbl & _ & _ & Hsup & _).
  { intros _ []. by apply elem_of_union_l, elem_of_singleton. }
  exists h'. split_and!; try done. unfold in_block. rewrite Hsup. split_and!; [done|done|]. exists (f b). by rewrite Hst.
Qed.
Lemma in_block_weaken tr X p (P Q : Prop) h : (Q → P) → in_block tr X p P h → in_block tr X p Q h.
Proof using Type. intros HPQ (Hh & Hg & b & Hb & Hv & Hs & He). split_and!; [done|done|]. exists b. split_and!; auto. Qed.
Lemma end_block_ok tr X p P h ra : in_block tr X p P h → low ra →
  ∃ h', end_block h p ra = Ret h' ∧ in_block tr X p True h' ∧ _blocks h' = _blocks h ∧ support h' = support h.
Proof using Type.
  intros (Hh & Hg & b & Hb & Hv & Hs & _) Hra.
  destruct (change_own tr X p h b (λ b, with_base b (set_end_ra (base b) ra)) Hh Hg Hb) as (h' & E & Hin & Hh'); try done.
  destruct Hh'. exists h'. split_and!; try done. eapply in_block_weaken; [|exact Hin]. done.
Qed.
Lemma add_stub_ok tr X p P h stub : in_block tr X p P h → store_room 0 (support h) →
  (∀ d x, _items d !! Z.to_nat (_end d) = Some x → ∃ f, stub d = Ret (_end d, set_items d (<[Z.to_nat (_end d) := set_func x f]> (_items d)) (wrap 32 (_end d + 1)))) →
  ∃ h', add_stub h stub = Ret h' ∧ in_block tr X p P h' ∧ _blocks h' = _blocks h.
Proof using Hmax.
  intros (Hh & (Hl & He & Hsz) & Hb) Hroom Hst. unfold store_room in Hroom.
  destruct (lookup_lt_is_Some_2 (_items (support h)) (Z.to_nat (_end (support h)))) as [x Hx]; [lia|].
  destruct (Hst _ x Hx) as [f E]. unfold add_stub. rewrite E. cbn [obind snd]. eexists. split; [done|]. split; [|done].
  split_and!; [by destruct Hh; split| |done]. unfold store_good. cbn. rewrite length_insert, wrap_small by (unfold uint; lia). lia.
Qed.
Lemma dc_catch_ok tr X p count (h0 h : Tab) : in_block tr X p (count ≠ 0) h → _blocks h0 ⊆ _blocks h →
  ∃ r h', dc_catch count h = Ret (r, h') ∧ _blocks h0 ⊆ _blocks h' ∧ in_block tr X p (r = Value ()) h'.
Proof using Type.
  intros Hin Hsub. unfold dc_catch. eexists _, h. split_and!; [done|done|]. eapply in_block_weaken; [|exact Hin].
  by destruct (Z.eqb_spec count 0).
Qed.
Lemma dc_loop_ok fuel tr X a count p h : real tr → in_block tr X p (count ≠ 0) h → 0 ≤ count < max_bb_instr_count →
  store_room (max_bb_instr_count - count) (support h) → max_bb_instr_count - count < Z.of_nat fuel →
  ∃ r h', dc_loop fuel tr a count p h = Ret (r, h') ∧ _blocks h ⊆ _blocks h' ∧ in_block tr X p (r = Value ()) h'.
Proof using Hmax IL.
  intros Htr. revert a count h. induction fuel as [|fuel IH]; intros a count h Hin Hc Hroom Hf; [lia|]. cbn [dc_loop].
  destruct (instr_read32_nocache tr a) as [[w ra]|] eqn:Ef; [|by apply dc_catch_ok].
  destruct (end_block_ok tr X p _ h ra Hin (fetch_law IL tr a w ra Htr Ef)) as (h1 & -> & Hin1 & Hbl1 & Hs1). cbn [obind].
  destruct Hin1 as (Hh1 & Hg1 & b & Hb & Hv & Hst & He).
  destruct (instr_law IL tr X w a p b count h1 Htr Hh1 Hg1) as (r & h2 & -> & Hsub & Hh2 & Hg2 & Hroom2 & b2 & Hb2 & Hv2 & Hst2 & He2); auto.
  { rewrite Hs1. unfold store_room in *. lia. }
  assert (∀ P, in_block tr X p P h2) as Hin2 by (intros P; split_and!; [done|done|by exists b2]).
  assert (_blocks h ⊆ _blocks h2) as Hsub2 by (by rewrite <- Hbl1).
  assert (store_room (max_bb_instr_count - (count + 1)) (support h2)) as Hroom3
    by (apply Hroom2; rewrite Hs1; by replace (_ + 1) with (max_bb_instr_count - count) by lia).
  cbn [obind fst snd]. destruct r as [[[] a']|]; [|by eexists _, h2|by apply dc_catch_ok].
  rewrite wrap_small by (unfold uint; lia). destruct (debug_mode && check_for_breakpoint a').
  - destruct (tr a') as [ra'|] eqn:Ea; [|by apply dc_catch_ok].
    destruct (end_block_ok tr X p True h2 ra' (Hin2 _) (Htr a' ra' Ea)) as (h3 & -> & Hin3 & Hbl3 & Hs3). cbn [obind].
    destruct (add_stub_ok tr X p True h3 add_brkpt_stub Hin3) as (h4 & -> & Hin4 & Hbl4).
    { rewrite Hs3. unfold store_room in *. lia. }
    { intros d x Hx. eexists. unfold add_brkpt_stub, update_item. cbn. by rewrite Hx. }
    cbn [obind]. exists (Value ()), h4. split_and!; [done|by rewrite Hbl4, Hbl3|by eapply in_block_weaken, Hin4].
  - destruct (Z.leb_spec max_bb_instr_count (count + 1)).
    + destruct (add_stub_ok tr X p True h2 add_br_stub (Hin2 _)) as (h4 & -> & Hin4 & Hbl4).
      { unfold store_room in *. lia. }
      { intros d x Hx. eexists. unfold add_br_stub, update_item. cbn. by rewrite Hx. }
      cbn [obind]. exists (Value ()), h4. split_and!; [done|by rewrite Hbl4|by eapply in_block_weaken, Hin4].
    + destruct (IH a' (count + 1) h2 (Hin2 _)) as (r & h' & -> & Hsub' & Hin'); [lia|done|lia|].
      exists r, h'. split_and!; try done. by etrans.
Qed.
Lemma translate_dc_laws :
  TranslatorLaws EaHashBits (decode_cache_full EaHashBits max_bb_instr_count) translate_dc store_good (store_room max_bb_instr_count).
Proof using Hbits Hmax IL.
  split.
  - intros d (? & ? & ?). unfold store_good. cbn. lia.
  - done.
  - intros tr X h Hh (Hl & He & Hsz). unfold decode_cache_full. destruct (full _ _) eqn:Ef.
    + split_and!; [by apply hash_reset_ok|unfold store_good; cbn; lia|unfold store_room; cbn; lia|].
      intros p b Hp. cbn in Hp. by rewrite lookup_empty in Hp.
    + split; [done|]. unfold full in Ef. apply Z.leb_gt in Ef. rewrite wrap_small in Ef by (unfold uint; lia). unfold store_room. lia.
  - intros tr X a p b h Htr Hh Hg Hroom Hp Hv Ha. unfold translate_dc. pose proof (Htr _ _ Ha) as Hlow.
    set (f := λ b, start_bb (support h) b (debug_mode && check_for_breakpoint a)).
    assert (base (f b) = base b ∧ valid (f b) = true) as [Hfb Hfv] by (unfold f, start_bb; by destruct (debug_mode && _)).
    destruct (change_own tr X p h b f) as (h1 & -> & Hin & Hbl1 & Hs1); try done.
    { apply (hash_ok_more EaHashBits tr X); [apply union_subseteq_r|done]. }
    { by rewrite Hfb. }
    cbn [obind]. destruct (dc_loop_ok (S (Z.to_nat max_bb_instr_count)) tr X a 0 p h1 Htr) as (r & h2 & -> & Hsub & Hh2 & Hg2 & c & Hc & Hvc & Hsc & Hec).
    { by eapply in_block_weaken, Hin. }
    { lia. } { rewrite Hs1. by rewrite Z.sub_0_r. } { lia. }
    exists r, h2. split_and!; try done; [by rewrite <- Hbl1|]. intros ->. exists c. split_and!; try done. apply low_range; auto.
Qed.
End EmittedTranslator.

(** A core of two instructions: a branch (odd words), which looks up the block of
    its target, and one that goes on.  The addresses from [0x8000] to [0x8fff] are
    translated, but cannot be fetched. *)
Section Demo.
Local Abbreviation Tab := (BlockHash DcDecodeCache DcBasicBlock).
Definition demo_fetch (tr : Z → option Z) (a : Z) : option (Z * Z) :=
  match tr a with
  | Some ra => if (0x8000 <=? a) && (a <? 0x9000) then None else Some (if a mod 32 =? 12 then 1 else 2, ra)
  | None => None
  end.
Definition demo_instr (EaHashBits : Z) (tr : Z → option Z) (word a : Z) (p : nat) (count : Z) (h : Tab) : outcome (thrown (bool * Z) * Tab) :=
  if Z.odd word then
    let! r := get_bb_or_stub 2 EaHashBits tr h (a + 64) 0 in
    let '(i, d) := add_item (support (snd r)) in
    let bt := match fst r with Some q => Block q | None => Code JitNopCode end in
    let! d := update_item d i (λ x, set_br_trg (set_func x word) bt true) in
    Ret (Value (false, a), set_support (snd r) d)
  else
    let '(i, d) := add_item (support h) in
    let! d := update_item d i (λ x, set_func x word) in
    Ret (Value (true, a + 4), set_support h d).
Lemma demo_item max d i d' f : store_good max d → store_room 0 d → add_item d = (i, d') → ∃ d2, update_item d' i f = Ret d2 ∧
  store_good max d2 ∧ ∀ n, store_room (n + 1) d → store_room n d2.
Proof.
  intros (Hl & He & Hsz) Hr [= <- <-]. unfold store_room in *. destruct (lookup_lt_is_Some_2 (_items d) (Z.to_nat (_end d))) as [x Hx]; [lia|].
  unfold update_item. cbn [set_items _items]. rewrite Hx. eexists. split; [done|]. unfold store_good. cbn.
  rewrite length_insert, wrap_small by (unfold uint; lia). split; [lia|]. intros n. lia.
Qed.
Lemma demo_laws EaHashBits max : 0 ≤ EaHashBits → InstrLaws EaHashBits max demo_fetch (demo_instr EaHashBits).
Proof.
  intros Hb. split.
  - intros tr a w ra Htr. unfold demo_fetch. destruct (tr a) as [ra'|] eqn:E; [|done]. destruct (_ && _); [done|]. intros [= _ <-]. by apply (Htr a).
  - intros tr X w a p b count h Htr Hh Hg Hr Hp Hv Hs He. unfold demo_instr. destruct (Z.odd w).
    + destruct (get_bb_or_stub_spec 2 EaHashBits Hb tr _ h (a + 64) 0 Hh) as (r & h1 & -> & Hh1 & Hsub & Hsup & Hsame & _). cbn [obind fst snd].
      destruct (add_item (support h1)) as [i d] eqn:Ei. rewrite <- Hsup in Hg, Hr.
      edestruct (demo_item max (support h1) i d) as (d2 & -> & Hg2 & Hr2); [exact Hg|exact Hr|exact Ei|]. cbn [obind].
      destruct (Hsame p b Hp) as (b' & Hp' & Hv' & Hb'). eexists _, _. split; [done|]. rewrite <- Hsup. split_and!; try done; [by destruct Hh1; split|].
      exists b'. by rewrite Hv', Hb'.
    + destruct (add_item (support h)) as [i d] eqn:Ei.
      edestruct (demo_item max (support h) i d) as (d2 & -> & Hg2 & Hr2); [exact Hg|exact Hr|exact Ei|]. cbn [obind].
      eexists _, _. split; [done|]. split_and!; try done; [by destruct Hh; split|]. by exists b.
Qed.
End Demo.

Definition demo_map (shift ea : Z) : option Z := if (0 <=? ea) && (ea <? 0x10000) then Some (ea + shift) else None.
Lemma demo_map_real shift : 0 ≤ shift < 2 ^ 32 → real (demo_map shift).
Proof. intros Hs ea ra. unfold demo_map. destruct (Z.leb_spec 0 ea), (Z.ltb_spec ea 0x10000); cbn; try done. intros [= <-]. unfold low. lia. Qed.
Definition demo_table : BlockHash DcDecodeCache DcBasicBlock :=
  Build_BlockHash ∅ 0 ∅ [] [] (new_decode_cache 100 101 64 (replicate 64 {| _func := None; _args := [0]; _bt_t := None; _bt_f := None |})).
Definition demo_translate : (Z → option Z) → Z → nat → BlockHash DcDecodeCache DcBasicBlock → outcome (thrown unit * BlockHash DcDecodeCache DcBasicBlock) :=
  translate_dc 8 true demo_fetch (demo_instr 4) (λ a, a =? 0x1008).
(** A block that crosses into the page at [0x22000], one at [0x21000] that a
    breakpoint ends, one whose first fetch throws, then another process that maps
    the same addresses elsewhere. *)
Definition demo_ops : list block_op :=
  [OpGet 0x1ff0 0 0; OpGet 0x1000 0 0; OpGet 0x8000 0 0; OpStub 0x3000 0; OpInvalidateEa 0x1004; OpSwap (demo_map 0x40000); OpGet 0x1ff0 0 0].
Lemma demo_ops_real : Forall block_op_ok demo_ops.
Proof. repeat apply Forall_cons_2; try exact I; try apply Forall_nil_2. by apply demo_map_real. Qed.
Lemma demo_translator : TranslatorLaws 4 (decode_cache_full 4 8) demo_translate (store_good 8) (store_room 8).
Proof. apply translate_dc_laws; [lia..|]. by apply demo_laws. Qed.
Lemma demo_good : store_good 8 (support demo_table).
Proof. split; [reflexivity|]. split; vm_compute; [discriminate|done]. Qed.

Lemma block_lookup_witness : ∃ tr h r h',
  block_run 2 4 (decode_cache_full 4 8) demo_translate (demo_map 0x20000, reset 4 demo_table true) demo_ops = Ret (tr, h) ∧
  get_bb_or_stub 2 4 tr h 0x1ff0 0 = Ret (r, h') ∧ match r with Some p => filed tr h' 0x1ff0 0 p | None => tr 0x1ff0 = None end.
Proof.
  destruct (block_lookup 2 4 (decode_cache_full 4 8) demo_translate (store_good 8) (store_room 8) (demo_map 0x20000) demo_table demo_ops 0x1ff0 0 0)
    as (tr & h & E & (r & h' & E' & Hr) & _).
  - lia.
  - exact demo_translator.
  - exact demo_good.
  - by apply demo_map_real.
  - apply demo_ops_real.
  - exists tr, h, r, h'. split; [exact E|]. split; [exact E'|exact Hr].
Defined.
Lemma block_invalidate_witness : ∃ tr h n h',
  block_run 2 4 (decode_cache_full 4 8) demo_translate (demo_map 0x20000, reset 4 demo_table true) demo_ops = Ret (tr, h) ∧
  invalidate_ra h 0x22004 = Ret (n, h') ∧
  ∀ p b, blocks_heap h' !! p = Some b →
    p ∉ failures 2 4 (decode_cache_full 4 8) demo_translate (demo_map 0x20000, reset 4 demo_table true) demo_ops → valid b = true →
    matching_addr (base b) 0x22004 = false.
Proof.
  destruct (block_invalidate 2 4 (decode_cache_full 4 8) demo_translate (store_good 8) (store_room 8) (demo_map 0x20000) demo_table demo_ops 0x22004)
    as (tr & h & n & h' & E & E' & _ & H & _).
  - lia.
  - exact demo_translator.
  - exact demo_good.
  - by apply demo_map_real.
  - apply demo_ops_real.
  - vm_compute. split; [discriminate|reflexivity].
  - exists tr, h, n, h'. split; [exact E|]. split; [exact E'|exact H].
Defined.
(** In that run: seven blocks are filed; the one that starts at [0x21ff0] is found
    from the page at [0x22000], where its last bytes are; the block of [0x8000],
    whose translation threw, has code that invalidation does not find. *)
Example demo_invalidate_counts :
  (let! x := block_run 2 4 (decode_cache_full 4 8) demo_translate (demo_map 0x20000, reset 4 demo_table true) demo_ops in
   let! r := invalidate_ra (snd x) 0x22004 in Ret (fst r, hash_size (snd r))) = Ret (1, 7%nat).
Proof. vm_compute. reflexivity. Qed.
Example failed_translation_stays :
  elements (failures 2 4 (decode_cache_full 4 8) demo_translate (demo_map 0x20000, reset 4 demo_table true) demo_ops) = [3%nat] ∧
  (let! x := block_run 2 4 (decode_cache_full 4 8) demo_translate (demo_map 0x20000, reset 4 demo_table true) demo_ops in
   let! r := invalidate_ra (snd x) 0x28000 in let! b := block_at (snd r) 3 in
   Ret (fst r, _start_ra (base b), valid b)) = Ret (0, 0x28000, true).
Proof. split; vm_compute; reflexivity. Qed.
