(* ===== verification/BranchPredictor.v ===== *)
(** * Branch prediction

    [src/uadl/BranchPredictor.h]: the predictor that keeps a saturating counter and
    a target for the branches seen last, in a circular queue of fixed size.  The
    model is built on [CircularQueue]; an entry is found by its address alone,
    as [PredictData::operator==] compares.

    The enabling predicate and the instruction's outcome are arguments of the
    operations.  A counter is a 32-bit number between [1] and [_states]; up to
    [_thresh] it predicts taken. *)
From stdpp Require Import prelude strings list.
From Stdlib Require Import ZArith Lia.
From S2P Require Import Prelude.
From S2P Require Import CircularQueue.

Local Open Scope Z_scope.

Inductive Prediction : Type := Miss | Taken | NotTaken | NoPrediction.
#[export] Instance Prediction_eq_dec : EqDecision Prediction.
Proof. solve_decision. Defined.

Record PredictData : Type := {
  _addr : Z;
  _target : Z;
  _state : Z;
  _size : Z;
  _pred : Prediction
}.
Definition new_data (a : Z) : PredictData := {| _addr := a; _target := 0; _state := 0; _size := 0; _pred := NoPrediction |}.
#[export] Instance data_eq : OperatorEq PredictData := λ x y, _addr x =? _addr y.
Definition set_pred (d : PredictData) (p : Prediction) : PredictData :=
  {| _addr := _addr d; _target := _target d; _state := _state d; _size := _size d; _pred := p |}.
Definition set_target (d : PredictData) (t : Z) : PredictData :=
  {| _addr := _addr d; _target := t; _state := _state d; _size := _size d; _pred := _pred d |}.
Definition set_state (d : PredictData) (s : Z) : PredictData :=
  {| _addr := _addr d; _target := _target d; _state := s; _size := _size d; _pred := _pred d |}.
Definition set_size (d : PredictData) (s : Z) : PredictData :=
  {| _addr := _addr d; _target := _target d; _state := _state d; _size := s; _pred := _pred d |}.

Local Abbreviation preds_queue := (queue DCircularQueueSupport PredictData).

Record BranchPredictorCounter : Type := {
  bp_size : Z;
  _states : Z;
  _thresh : Z;
  _preds : preds_queue
}.
Definition BPQueueDebugCheck : bool := true.

Definition new_predictor (junk : PredictData) (sz counterWidth : Z) : outcome BranchPredictorCounter :=
  let! q := DCircularQueue junk sz in
  let states := shl 32 1 counterWidth in
  Ret {| bp_size := sz; _states := states; _thresh := Z.shiftr states 1; _preds := q |}.
Definition set_preds (b : BranchPredictorCounter) (q : preds_queue) : BranchPredictorCounter :=
  {| bp_size := bp_size b; _states := _states b; _thresh := _thresh b; _preds := q |}.
Definition reset (b : BranchPredictorCounter) : BranchPredictorCounter := set_preds b (clear (_preds b)).
Definition incrState (b : BranchPredictorCounter) (s : Z) : Z := if s <? _states b then wrap 32 (s + 1) else s.
Definition decrState (s : Z) : Z := if 1 <? s then wrap 32 (s - 1) else s.

(** A field of an element, changed through [operator[]] and through [back]. *)
Definition change_at (q : preds_queue) (i : Z) (f : PredictData → PredictData) : outcome preds_queue :=
  let! x := get BPQueueDebugCheck q i in set BPQueueDebugCheck q i (f x).
Definition change_back (q : preds_queue) (f : PredictData → PredictData) : outcome preds_queue :=
  let! x := back BPQueueDebugCheck q in store q (prev_tail (_s q) (_tail q) 1) (f x).

(** The prediction, and target and size where they are written. *)
Definition do_predict (b : BranchPredictorCounter) (enabled : bool) (addr target size : Z) :
    outcome (Prediction * Z * Z * BranchPredictorCounter) :=
  if enabled then
    let! it := find (_preds b) (new_data addr) in
    if 0 <=? it then
      let! pred := get BPQueueDebugCheck (_preds b) it in
      if _thresh b <? _state pred then
        let! q := change_at (_preds b) it (λ d, set_pred d NotTaken) in
        Ret (NotTaken, target, size, set_preds b q)
      else
        let! q := change_at (_preds b) it (λ d, set_pred d Taken) in
        Ret (Taken, _target pred, _size pred, set_preds b q)
    else Ret (Miss, target, size, b)
  else Ret (NoPrediction, target, size, b).
(** The overload on instructions starts with target 0. *)
Definition predict (b : BranchPredictorCounter) (enabled : bool) (addr : Z) : outcome (Prediction * Z * BranchPredictorCounter) :=
  let! r := do_predict b enabled addr 0 0 in
  let '(p, trg, _, b) := r in Ret (p, trg, b).
Definition get_last_prediction (b : BranchPredictorCounter) (addr : Z) : outcome Z := find (_preds b) (new_data addr).
Definition last_predict_taken (b : BranchPredictorCounter) (addr : Z) : outcome (option Z) :=
  let! it := get_last_prediction b addr in
  if 0 <=? it then
    let! x := get BPQueueDebugCheck (_preds b) it in
    if decide (_pred x = Taken) then Ret (Some (_target x)) else Ret None
  else Ret None.

Definition update (b : BranchPredictorCounter) (enabled : bool) (addr target : Z) (taken : bool) (size : Z) :
    outcome BranchPredictorCounter :=
  let x := new_data addr in
  if enabled then
    let! it := find (_preds b) x in
    let! q :=
      if it <? 0 then
        let! q := if full (_preds b) then pop_front BPQueueDebugCheck (_preds b) 1 else Ret (_preds b) in
        let! q := push_back BPQueueDebugCheck q x in
        let! q := change_back q (λ d, set_target d target) in
        let! q := change_back q (λ d, set_state d (if taken then _thresh b else wrap 32 (_thresh b + 1))) in
        change_back q (λ d, set_size d size)
      else if taken then
        let! q := change_at (_preds b) it (λ d, set_state d (decrState (_state d))) in
        change_at q it (λ d, set_target d target)
      else change_at (_preds b) it (λ d, set_state d (incrState b (_state d))) in
    Ret (set_preds b q)
  else Ret b.

Definition set_dyn_parm (b : BranchPredictorCounter) (parm : string) (value : Z) : bool * BranchPredictorCounter :=
  if String.eqb parm "bp-size" then
    (true, {| bp_size := value; _states := _states b; _thresh := _thresh b; _preds := _preds b |})
  else (false, b).
Definition get_dyn_parm (b : BranchPredictorCounter) (parm : string) : option Z :=
  if String.eqb parm "bp-size" then Some (bp_size b) else None.

(** ** The table as a list *)

(** The reference: entries in the order of their insertion, the oldest first. *)
Record table : Type := { t_max : nat; t_states : Z; t_entries : list PredictData }.
Definition t_half (t : table) : Z := t_states t / 2.
Definition lookup_entry (l : list PredictData) (addr : Z) : option (nat * PredictData) :=
  list_find (λ d, _addr d = addr) l.
Definition t_predict (t : table) (enabled : bool) (addr : Z) : Prediction * Z * table :=
  if enabled then
    match lookup_entry (t_entries t) addr with
    | Some (i, d) =>
        let p := if t_half t <? _state d then NotTaken else Taken in
        (p, if t_half t <? _state d then 0 else _target d,
         {| t_max := t_max t; t_states := t_states t; t_entries := <[i := set_pred d p]> (t_entries t) |})
    | None => (Miss, 0, t)
    end
  else (NoPrediction, 0, t).
(** The least counter: that of a new branch can only be below 1 if there is a single state. *)
Definition t_low (t : table) : Z := Z.min 1 (t_half t).
(** The counter moves one step down for a taken branch while it is above 1, and one step up
    towards [t_states] otherwise. *)
Definition step_entry (t : table) (d : PredictData) (target : Z) (taken : bool) : PredictData :=
  if taken then set_target (set_state d (if 1 <? _state d then _state d - 1 else _state d)) target
  else set_state d (Z.min (t_states t) (_state d + 1)).
Definition t_update (t : table) (enabled : bool) (addr target : Z) (taken : bool) (size : Z) : table :=
  if enabled then
    {| t_max := t_max t; t_states := t_states t;
       t_entries := match lookup_entry (t_entries t) addr with
         | Some (i, d) => <[i := step_entry t d target taken]> (t_entries t)
         | None =>
             (if decide (length (t_entries t) = t_max t) then drop 1 (t_entries t) else t_entries t) ++
             [{| _addr := addr; _target := target; _state := if taken then t_half t else t_half t + 1;
                 _size := size; _pred := NoPrediction |}]
         end |}
  else t.

(** The queue holds the entries; counters are in range; addresses are listed once. *)
Record bp_rep (b : BranchPredictorCounter) (t : table) : Prop := {
  bp_queue : rep (_preds b) (t_entries t);
  bp_max : max (_s (_preds b)) = Z.of_nat (t_max t) + 1;
  bp_pos : (0 < t_max t)%nat;
  bp_st : _states b = t_states t;
  bp_th : _thresh b = t_half t;
  bp_range : 1 ≤ t_states t < 2 ^ 32;
  bp_counters : Forall (λ d, t_low t ≤ _state d ≤ t_states t) (t_entries t);
  bp_unique : NoDup (_addr <$> t_entries t)
}.

Lemma find_entry (q : preds_queue) l addr : rep q l →
  find q (new_data addr) = Ret (match lookup_entry l addr with Some (i, _) => Z.of_nat i | None => -1 end).
Proof.
  intros Hr. rewrite (find_spec q l) by done. f_equal. unfold position, lookup_entry.
  rewrite (list_find_ext _ (λ d, _addr d = addr)); [done|]. intros d. unfold op_eq, data_eq. cbn.
  destruct (Z.eqb_spec (_addr d) addr); split; done.
Qed.
Lemma lookup_entry_Some l addr i d : lookup_entry l addr = Some (i, d) → l !! i = Some d ∧ _addr d = addr.
Proof. intros H. apply list_find_Some in H as (? & ? & _). done. Qed.

Lemma change_at_spec (q : preds_queue) l i d f : rep q l → l !! i = Some d →
  ∃ q', change_at q (Z.of_nat i) f = Ret q' ∧ rep q' (<[i := f d]> l) ∧ _s q' = _s q.
Proof.
  intros Hr Hi. pose proof (lookup_lt_Some _ _ _ Hi). unfold change_at.
  rewrite (proj1 (get_spec _ q l (Z.of_nat i) Hr ltac:(lia)) d) by by rewrite Nat2Z.id. cbn [obind].
  destruct (proj1 (set_spec BPQueueDebugCheck q l (Z.of_nat i) (f d) Hr ltac:(lia)) ltac:(lia)) as (q' & E & Hr' & Hs).
  rewrite Nat2Z.id in Hr'. by exists q'.
Qed.
(** The back is the last element. *)
Lemma change_back_spec (q : preds_queue) l d f : rep q (l ++ [d]) →
  ∃ q', change_back q f = Ret q' ∧ rep q' (l ++ [f d]) ∧ _s q' = _s q.
Proof.
  intros Hr. unfold change_back. rewrite (proj1 (back_spec _ q _ Hr) d l eq_refl). cbn [obind].
  destruct (proj1 (set_spec false q _ (Z.of_nat (length l)) (f d) Hr ltac:(lia))) as (q' & E & Hr' & Hs);
    [rewrite length_app; cbn; lia|].
  exists q'. unfold set in E. cbn [check] in E. pose proof (rep_valid _ _ Hr) as Hv. pose proof (rep_fits _ _ Hr) as Hf.
  rewrite length_app in Hf. cbn [length] in Hf. pose proof (rep_head _ _ Hr). pose proof (tail_bounds _ _ Hr). pose proof (valid_max _ Hv).
  rewrite next_head_mod in E by (done || lia).
  rewrite prev_tail_mod by (done || lia). rewrite (rep_tail _ _ Hr), Zminus_mod_idemp_l, length_app. cbn [length].
  replace (_head q + Z.of_nat (length l + 1) - 1) with (_head q + Z.of_nat (length l)) by lia. split; [done|].
  rewrite Nat2Z.id, insert_app_r_alt, Nat.sub_diag in Hr' by lia. done.
Qed.
(** Room for one more. *)
Lemma make_room (q : preds_queue) l n : rep q l → max (_s q) = Z.of_nat n + 1 → (0 < n)%nat →
  ∃ q', (if full q then pop_front BPQueueDebugCheck q 1 else Ret q) = Ret q' ∧
  rep q' (if decide (length l = n) then drop 1 l else l) ∧ _s q' = _s q.
Proof.
  intros Hr Hm Hn. rewrite (full_spec _ _ Hr), Hm. destruct (Z.eqb_spec (Z.of_nat (length l)) (Z.of_nat n + 1 - 1)).
  - rewrite decide_True by lia.
    destruct (proj1 (pop_front_spec BPQueueDebugCheck q l 1 Hr ltac:(lia)) ltac:(lia)) as (q' & E & Hr' & Hs). by exists q'.
  - rewrite decide_False by lia. by exists q.
Qed.

Lemma insert_entries_ok l i d d' : l !! i = Some d → _addr d' = _addr d →
  NoDup (_addr <$> l) → NoDup (_addr <$> <[i := d']> l).
Proof.
  intros Hi Ha. rewrite list_fmap_insert, Ha. rewrite list_insert_id; [done|]. by rewrite list_lookup_fmap, Hi.
Qed.

Lemma predict_spec b t enabled addr : bp_rep b t →
  ∃ b', predict b enabled addr = Ret (fst (t_predict t enabled addr), b') ∧ bp_rep b' (snd (t_predict t enabled addr)).
Proof.
  intros [Hq Hm Hp Hst Hth Hr Hc Hu]. unfold predict, do_predict, t_predict.
  destruct enabled; [|by exists b]. rewrite (find_entry _ (t_entries t)) by done. cbn [obind].
  destruct (lookup_entry (t_entries t) addr) as [[i d]|] eqn:El; [|by exists b].
  apply lookup_entry_Some in El as [Hi Ha]. rewrite (proj2 (Z.leb_le _ _)) by lia.
  rewrite (proj1 (get_spec _ _ (t_entries t) (Z.of_nat i) Hq ltac:(lia)) d) by by rewrite Nat2Z.id. cbn [obind].
  set (p := if t_half t <? _state d then NotTaken else Taken).
  destruct (change_at_spec _ (t_entries t) i d (λ d, set_pred d p) Hq Hi) as (q' & E & Hq' & Hs).
  exists (set_preds b q'). rewrite Hth. split.
  - unfold p in *. by destruct (t_half t <? _state d); rewrite E.
  - split; cbn; try done; [by rewrite Hs| |by eapply insert_entries_ok].
    apply Forall_insert; [done|]. by apply (Forall_lookup_1 _ _ _ _ Hc Hi).
Qed.
Lemma update_spec b t enabled addr target taken size : bp_rep b t →
  ∃ b', update b enabled addr target taken size = Ret b' ∧ bp_rep b' (t_update t enabled addr target taken size).
Proof.
  intros [Hq Hm Hp Hst Hth Hr Hc Hu]. unfold update, t_update. destruct enabled; [|by exists b].
  rewrite (find_entry _ (t_entries t)) by done. cbn [obind].
  assert (0 ≤ t_half t ∧ t_half t + 1 ≤ t_states t) as [Hh1 Hh2] by (unfold t_half; clear - Hr; zlia).
  assert (0 ≤ t_low t ≤ 1) as Hlow by (unfold t_low; lia).
  destruct (lookup_entry (t_entries t) addr) as [[i d]|] eqn:El.
  - apply lookup_entry_Some in El as [Hi Ha]. rewrite (proj2 (Z.ltb_ge _ _)) by lia.
    pose proof (Forall_lookup_1 _ _ _ _ Hc Hi) as Hd. cbn beta in Hd.
    assert (∃ q', (if taken then
        let! q := change_at (_preds b) (Z.of_nat i) (λ d, set_state d (decrState (_state d))) in
        change_at q (Z.of_nat i) (λ d, set_target d target)
      else change_at (_preds b) (Z.of_nat i) (λ d, set_state d (incrState b (_state d)))) = Ret q' ∧
      rep q' (<[i := step_entry t d target taken]> (t_entries t)) ∧ _s q' = _s (_preds b)) as (q' & E & Hq' & Hs).
    { destruct taken.
      - destruct (change_at_spec _ (t_entries t) i d (λ d, set_state d (decrState (_state d))) Hq Hi) as (q1 & -> & Hq1 & Hs1).
        cbn [obind]. destruct (change_at_spec _ _ i (set_state d (decrState (_state d))) (λ d, set_target d target) Hq1)
          as (q2 & E2 & Hq2 & Hs2); [apply list_lookup_insert_eq; by eapply lookup_lt_Some|].
        exists q2. rewrite list_insert_insert_eq in Hq2. split_and!; [done| |congruence].
        unfold step_entry. replace (if 1 <? _state d then _state d - 1 else _state d) with (decrState (_state d)); [done|].
        unfold decrState. destruct (Z.ltb_spec 1 (_state d)); [rewrite wrap_small by (unfold uint; lia)|]; lia.
      - destruct (change_at_spec _ (t_entries t) i d (λ d, set_state d (incrState b (_state d))) Hq Hi) as (q1 & -> & Hq1 & Hs1).
        exists q1. split_and!; [done| |done]. unfold step_entry.
        replace (Z.min (t_states t) (_state d + 1)) with (incrState b (_state d)); [done|].
        unfold incrState. rewrite Hst. destruct (Z.ltb_spec (_state d) (t_states t)); [rewrite wrap_small by (unfold uint; lia)|]; lia. }
    exists (set_preds b q'). split; [destruct taken; by rewrite E|].
    split; cbn; try done; [by rewrite Hs| |eapply insert_entries_ok; [done| |done]; by destruct taken].
    apply Forall_insert; [done|]. change (t_low _) with (t_low t). unfold step_entry.
      destruct taken; cbn [set_target set_state _state t_states]; [destruct (Z.ltb_spec 1 (_state d))|]; lia.
  - rewrite (proj2 (Z.ltb_lt _ _)) by lia.
    destruct (make_room (_preds b) (t_entries t) (t_max t) Hq Hm Hp) as (q0 & -> & Hq0 & Hs0). cbn [obind].
    set (l := if decide _ then _ else _) in *.
    assert (length l < t_max t)%nat as Hlen.
    { pose proof (rep_fits _ _ Hq) as Hf. rewrite Hm in Hf. unfold l. case_decide; [rewrite length_drop|]; lia. }
    destruct (push_back_spec BPQueueDebugCheck q0 l (new_data addr) Hq0) as (q1 & -> & Hq1 & Hs1); [rewrite Hs0, Hm; lia|].
    cbn [obind]. destruct (change_back_spec q1 l _ (λ d, set_target d target) Hq1) as (q2 & -> & Hq2 & Hs2). cbn [obind].
    destruct (change_back_spec q2 l _ (λ d, set_state d (if taken then _thresh b else wrap 32 (_thresh b + 1))) Hq2)
      as (q3 & -> & Hq3 & Hs3). cbn [obind].
    destruct (change_back_spec q3 l _ (λ d, set_size d size) Hq3) as (q4 & -> & Hq4 & Hs4). cbn [obind].
    exists (set_preds b q4). split; [done|].
    rewrite Hth, (wrap_small 32) in Hq4 by (unfold uint; lia). cbn in Hq4.
    split; cbn; try done; [by rewrite Hs4, Hs3, Hs2, Hs1, Hs0| |].
    + apply Forall_app. split; [unfold l; case_decide; [by apply Forall_drop|done]|].
      apply Forall_singleton. change (t_low _) with (t_low t). unfold t_low. cbn [_state]. destruct taken; lia.
    + rewrite fmap_app, NoDup_app. cbn. split_and!; [| |apply NoDup_singleton].
      * unfold l. case_decide; [|done]. rewrite fmap_drop. rewrite <- (take_drop 1 (_addr <$> t_entries t)), NoDup_app in Hu. apply Hu.
      * intros a Hin ->%list_elem_of_singleton. apply list_elem_of_fmap in Hin as (d & -> & Hd).
        assert (d ∈ t_entries t) as Hd' by (unfold l in Hd; case_decide; [by eapply elem_of_sublist; [exact Hd|apply sublist_drop]|done]).
        unfold lookup_entry in El. by eapply (list_find_None _ _), Forall_forall in El.
Qed.
Lemma last_predict_spec b t addr : bp_rep b t →
  last_predict_taken b addr = Ret (match lookup_entry (t_entries t) addr with
    | Some (_, d) => if decide (_pred d = Taken) then Some (_target d) else None
    | None => None
    end).
Proof.
  intros [Hq _ _ _ _ _ _ _]. unfold last_predict_taken, get_last_prediction.
  rewrite (find_entry _ (t_entries t)) by done. cbn [obind].
  destruct (lookup_entry (t_entries t) addr) as [[i d]|] eqn:El; [|done].
  apply lookup_entry_Some in El as [Hi _]. rewrite (proj2 (Z.leb_le _ _)) by lia.
  rewrite (proj1 (get_spec _ _ (t_entries t) (Z.of_nat i) Hq ltac:(lia)) d) by by rewrite Nat2Z.id.
  cbn [obind]. by destruct (decide _).
Qed.

(** ** Sequences of operations *)

Inductive bp_op : Type :=
| BPredict (enabled : bool) (addr : Z)
| BLast (addr : Z)
| BUpdate (enabled : bool) (addr target : Z) (taken : bool) (size : Z)
| BReset.
(** Predictions with their targets; a recalled target counts as [Taken]. *)
Definition recall (r : option Z) : list (Prediction * Z) := match r with Some t => [(Taken, t)] | None => [] end.
Definition bp_exec (b : BranchPredictorCounter) (o : bp_op) : outcome (list (Prediction * Z) * BranchPredictorCounter) :=
  match o with
  | BPredict en addr => let! r := predict b en addr in Ret ([fst r], snd r)
  | BLast addr => let! r := last_predict_taken b addr in Ret (recall r, b)
  | BUpdate en addr target taken size => let! b := update b en addr target taken size in Ret ([], b)
  | BReset => Ret ([], reset b)
  end.
Fixpoint bp_run (b : BranchPredictorCounter) (ops : list bp_op) : outcome (list (Prediction * Z) * BranchPredictorCounter) :=
  match ops with
  | [] => Ret ([], b)
  | o :: ops => let! r := bp_exec b o in let! r' := bp_run (snd r) ops in Ret (fst r ++ fst r', snd r')
  end.
Definition t_exec (t : table) (o : bp_op) : list (Prediction * Z) * table :=
  match o with
  | BPredict en addr => ([fst (t_predict t en addr)], snd (t_predict t en addr))
  | BLast addr =>
      (recall (match lookup_entry (t_entries t) addr with
               | Some (_, d) => if decide (_pred d = Taken) then Some (_target d) else None
               | None => None
               end), t)
  | BUpdate en addr target taken size => ([], t_update t en addr target taken size)
  | BReset => ([], {| t_max := t_max t; t_states := t_states t; t_entries := [] |})
  end.
Fixpoint t_run (t : table) (ops : list bp_op) : list (Prediction * Z) * table :=
  match ops with
  | [] => ([], t)
  | o :: ops => (fst (t_exec t o) ++ fst (t_run (snd (t_exec t o)) ops), snd (t_run (snd (t_exec t o)) ops))
  end.

Lemma bp_exec_spec b t o : bp_rep b t → ∃ b', bp_exec b o = Ret (fst (t_exec t o), b') ∧ bp_rep b' (snd (t_exec t o)).
Proof.
  intros Hb. destruct o as [en addr|addr|en addr target taken size|]; cbn.
  - destruct (predict_spec b t en addr Hb) as (b' & -> & Hb'). by exists b'.
  - rewrite (last_predict_spec b t) by done. by exists b.
  - destruct (update_spec b t en addr target taken size Hb) as (b' & -> & Hb'). by exists b'.
  - exists (reset b). split; [done|]. destruct Hb as [Hq Hm Hp Hst Hth Hr Hc Hu].
    split; cbn; try done; [by eapply clear_spec|apply NoDup_nil_2].
Qed.
Lemma bp_run_spec b t ops : bp_rep b t → ∃ b', bp_run b ops = Ret (fst (t_run t ops), b') ∧ bp_rep b' (snd (t_run t ops)).
Proof.
  revert b t. induction ops as [|o ops IH]; intros b t Hb; cbn; [by exists b|].
  destruct (bp_exec_spec b t o Hb) as (b1 & -> & Hb1). cbn [obind fst snd].
  destruct (IH b1 _ Hb1) as (b2 & -> & Hb2). by exists b2.
Qed.
Definition empty_table (sz w : Z) : table := {| t_max := Z.to_nat sz; t_states := 2 ^ w; t_entries := [] |}.
Lemma new_predictor_spec junk sz w : 0 < sz < 2 ^ 31 → 0 ≤ w < 32 →
  ∃ b, new_predictor junk sz w = Ret b ∧ bp_rep b (empty_table sz w).
Proof.
  intros Hsz Hw. unfold new_predictor, DCircularQueue. rewrite (proj2 (Z.ltb_lt _ _)) by lia. cbn [obind].
  eexists. split; [done|]. assert (1 ≤ 2 ^ w < 2 ^ 32) as H2.
  { pose proof (pow2_pos w ltac:(lia)). split; [lia|apply Z.pow_lt_mono_r; lia]. }
  assert (shl 32 1 w = 2 ^ w) as Hs by (rewrite shl_spec, Z.mul_1_l by lia; apply wrap_small; unfold uint; lia).
  split; cbn [_preds _states _thresh t_entries t_max t_states empty_table]; try done.
  - refine (new_rep {| _maxsize := wrap 32 (sz + 1) |} junk _). rewrite wrap_small by (unfold uint; lia). cbn. lia.
  - cbn. rewrite wrap_small by (unfold uint; lia). lia.
  - lia.
  - rewrite Hs. unfold t_half. cbn. by rewrite Z.shiftr_div_pow2 by lia.
  - by apply NoDup_nil_2.
Qed.

Lemma t_run_states t ops : t_states (snd (t_run t ops)) = t_states t.
Proof.
  revert t. induction ops as [|o ops IH]; intros t; cbn; [done|]. rewrite IH.
  destruct o as [en a|a|en a tg tk s|]; cbn; unfold t_predict, t_update; try done; destruct en; try done.
  by destruct (lookup_entry _ _) as [[i d]|].
Qed.

(** C33: a branch predictor with an address-keyed table of 1 to 2^31 - 1 entries and counters
    of 0 to 31 bits, through any sequence of predictions, recalls, updates and resets, enabled
    or not, answers like the list of its entries: the oldest entry makes room for a new
    branch, a counter moves one step per update, down for a taken branch while it is above 1
    and up to 2^width otherwise, a branch is predicted taken up to half of that, and a branch
    that is not listed is a miss.  Neither the checks of the queue nor the counters can fail.
    A width of 0 leaves one state: a new taken branch has the counter 0, which the first
    outcome that is not taken raises for good. *)
Theorem branch_predictor_refines junk sz w ops : 0 < sz < 2 ^ 31 → 0 ≤ w < 32 →
  ∃ b0 b, new_predictor junk sz w = Ret b0 ∧ bp_run b0 ops = Ret (fst (t_run (empty_table sz w) ops), b) ∧
  Forall (λ d, (if w =? 0 then 0 else 1) ≤ _state d ≤ 2 ^ w) (t_entries (snd (t_run (empty_table sz w) ops))).
Proof.
  intros Hsz Hw. destruct (new_predictor_spec junk sz w Hsz Hw) as (b0 & E0 & Hb0).
  destruct (bp_run_spec b0 _ ops Hb0) as (b & E & Hb). exists b0, b. split_and!; [done..|].
  assert (t_states (snd (t_run (empty_table sz w) ops)) = 2 ^ w) as E2 by (by rewrite t_run_states).
  pose proof (bp_counters _ _ Hb) as Hc. unfold t_low, t_half in Hc. rewrite E2 in Hc.
  replace (if w =? 0 then 0 else 1) with (Z.min 1 (2 ^ w / 2)); [done|]. destruct (Z.eqb_spec w 0) as [-> |]; [done|].
  replace w with (1 + (w - 1)) by lia. rewrite Z.pow_add_r, Z.mul_comm, Z.div_mul by lia. pose proof (pow2_pos (w - 1) ltac:(lia)). lia.
Qed.

Lemma branch_predictor_refines_witness : ∃ b0 b, new_predictor (new_data 0) 2 2 = Ret b0 ∧
  bp_run b0 [BUpdate true 0x100 0x400 true 4; BPredict true 0x100; BUpdate true 0x100 0 false 4; BPredict true 0x100;
             BUpdate true 0x104 0x500 true 4; BUpdate true 0x108 0x600 true 4; BPredict true 0x100; BLast 0x108;
             BPredict true 0x108; BLast 0x108] =
    Ret ([(Taken, 0x400); (NotTaken, 0); (Miss, 0); (Taken, 0x600); (Taken, 0x600)], b).
Proof.
  destruct (branch_predictor_refines (new_data 0) 2 2
    [BUpdate true 0x100 0x400 true 4; BPredict true 0x100; BUpdate true 0x100 0 false 4; BPredict true 0x100;
     BUpdate true 0x104 0x500 true 4; BUpdate true 0x108 0x600 true 4; BPredict true 0x100; BLast 0x108;
     BPredict true 0x108; BLast 0x108] ltac:(lia) ltac:(lia)) as (b0 & b & E0 & E & _).
  exists b0, b. split; [exact E0|]. rewrite E. vm_compute. reflexivity.
Defined.

(** ** Learning *)

Lemma lookup_entry_insert l addr i d d' : lookup_entry l addr = Some (i, d) → _addr d' = addr →
  lookup_entry (<[i := d']> l) addr = Some (i, d').
Proof.
  intros H Ha. apply list_find_Some in H as (Hi & Hd & Hj). apply list_find_Some.
  split_and!; [apply list_lookup_insert_eq; by eapply lookup_lt_Some|done|].
  intros j y Hy Hlt. rewrite list_lookup_insert_ne in Hy by lia. by apply (Hj j).
Qed.
Lemma lookup_entry_snoc l addr d : lookup_entry l addr = None → _addr d = addr → lookup_entry (l ++ [d]) addr = Some (length l, d).
Proof.
  intros H Ha. unfold lookup_entry. rewrite list_find_app_r by done. cbn. rewrite decide_True by done. done.
Qed.
Lemma lookup_entry_drop l addr n : lookup_entry l addr = None → lookup_entry (drop n l) addr = None.
Proof. intros H. apply list_find_None in H. apply list_find_None. by apply Forall_drop. Qed.

(** A predictor described without a counter width has counters of no bits: once its branch
    has not been taken it is never predicted taken again. *)
Lemma width_zero_stuck t addr tg taken size i d : t_states t = 1 → lookup_entry (t_entries t) addr = Some (i, d) → _state d = 1 →
  ∃ e, lookup_entry (t_entries (t_update t true addr tg taken size)) addr = Some (i, e) ∧ _state e = 1 ∧
  fst (t_predict (t_update t true addr tg taken size) true addr) = (NotTaken, 0).
Proof.
  intros Ht El Hd. exists (step_entry t d tg taken).
  assert (lookup_entry (t_entries (t_update t true addr tg taken size)) addr = Some (i, step_entry t d tg taken)) as E1.
  { unfold t_update. cbn [t_entries]. rewrite El. eapply lookup_entry_insert; [done|]. apply lookup_entry_Some in El as [_ Ha]. by destruct taken. }
  assert (_state (step_entry t d tg taken) = 1) as Hs by (unfold step_entry; rewrite Ht, Hd; by destruct taken).
  split_and!; [done..|]. unfold t_predict. rewrite E1, Hs. unfold t_half at 1 2. change (t_states (t_update _ _ _ _ _ _)) with (t_states t). by rewrite Ht.
Qed.

(** Updates with the same outcome, one after the other. *)
Definition t_updates (t : table) (addr : Z) (taken : bool) (targets : list Z) (size : Z) : table :=
  foldl (λ t tg, t_update t true addr tg taken size) t targets.
(** How far the counter is from its end after [k] more of them. *)
Lemma updates_entry t addr taken size targets i d : lookup_entry (t_entries t) addr = Some (i, d) →
  1 ≤ _state d ≤ t_states t → targets ≠ [] →
  ∃ j e, lookup_entry (t_entries (t_updates t addr taken targets size)) addr = Some (j, e) ∧
  t_states (t_updates t addr taken targets size) = t_states t ∧
  (if taken then _state e = Z.max 1 (_state d - Z.of_nat (length targets)) ∧ Some (_target e) = last targets
   else _state e = Z.min (t_states t) (_state d + Z.of_nat (length targets))).
Proof.
  revert t i d. induction targets as [|tg targets IH]; intros t i d El Hd Hne; [done|].
  destruct (lookup_entry_Some _ _ _ _ El) as [Hi Ha].
  set (t1 := t_update t true addr tg taken size).
  assert (lookup_entry (t_entries t1) addr = Some (i, step_entry t d tg taken)) as E1.
  { unfold t1, t_update. cbn. rewrite El. eapply lookup_entry_insert; [done|]. by destruct taken. }
  assert (1 ≤ _state (step_entry t d tg taken) ≤ t_states t1) as Hd1
    by (unfold step_entry; destruct taken; cbn; [destruct (Z.ltb_spec 1 (_state d))|]; lia).
  change (t_updates t addr taken (tg :: targets) size) with (t_updates t1 addr taken targets size).
  destruct targets as [|tg' targets].
  - exists i, (step_entry t d tg taken). split; [exact E1|]. split; [done|]. unfold step_entry. destruct taken; cbn; [|lia].
    split; [destruct (Z.ltb_spec 1 (_state d)); lia|done].
  - destruct (IH t1 i _ E1 Hd1 ltac:(done)) as (j & e & Ej & Hs & He). exists j, e. split; [done|]. split; [done|].
    change (t_states t1) with (t_states t) in He. unfold step_entry in He.
    destruct taken; cbn [set_target set_state _state] in He.
    + destruct He as [He Hl]. cbn [length] in *. split; [destruct (Z.ltb_spec 1 (_state d)); lia|done].
    + cbn [length] in *. lia.
Qed.
(** The entry after a first update. *)
Lemma update_entry t addr tg taken size : 2 ≤ t_states t → Forall (λ d, 1 ≤ _state d ≤ t_states t) (t_entries t) →
  ∃ i d, lookup_entry (t_entries (t_update t true addr tg taken size)) addr = Some (i, d) ∧ 1 ≤ _state d ≤ t_states t ∧
  (if taken then _state d ≤ Z.max (t_half t) (t_states t - 1) ∧ _target d = tg
   else t_half t + 1 ≤ _state d ∨ 2 ≤ _state d).
Proof.
  intros H2 Hc. unfold t_update, t_half. cbn [t_entries]. destruct (lookup_entry (t_entries t) addr) as [[i d]|] eqn:El.
  - destruct (lookup_entry_Some _ _ _ _ El) as [Hi Ha]. pose proof (Forall_lookup_1 _ _ _ _ Hc Hi) as Hd. cbn beta in Hd.
    exists i, (step_entry t d tg taken). split; [eapply lookup_entry_insert; [done|by destruct taken]|].
    unfold step_entry. destruct taken; cbn; [destruct (Z.ltb_spec 1 (_state d))|]; split; try lia.
  - eexists _, _. split; [apply lookup_entry_snoc; [case_decide; [by apply lookup_entry_drop|done]|done]|]. cbn.
    destruct taken; [split; [|split; [|done]]|split; [|left]]; zlia.
Qed.

Lemma t_run_app t us vs :
  t_run t (us ++ vs) = (fst (t_run t us) ++ fst (t_run (snd (t_run t us)) vs), snd (t_run (snd (t_run t us)) vs)).
Proof.
  revert t. induction us as [|u us IH]; intros t; cbn; [by destruct (t_run t vs)|]. rewrite IH. cbn. by rewrite app_assoc.
Qed.
Lemma t_run_updates t addr taken size targets :
  t_run t ((λ tg, BUpdate true addr tg taken size) <$> targets) = ([], t_updates t addr taken targets size).
Proof. revert t. induction targets as [|tg targets IH]; intros t; cbn; [done|]. by rewrite IH. Qed.
(** Enough equal outcomes decide the prediction. *)
Lemma updates_predict t addr taken targets size tl : 2 ≤ t_states t → t_states t mod 2 = 0 →
  Forall (λ d, 1 ≤ _state d ≤ t_states t) (t_entries t) → t_half t ≤ Z.of_nat (length targets) → last targets = Some tl →
  fst (t_predict (t_updates t addr taken targets size) true addr) = if taken then (Taken, tl) else (NotTaken, 0).
Proof.
  intros H2 Heven Hc Hk Hl. destruct targets as [|tg targets]; [done|].
  destruct (update_entry t addr tg taken size H2 Hc) as (i & d & Ei & Hd & Hd').
  set (t1 := t_update t true addr tg taken size) in *.
  change (t_updates t addr taken (tg :: targets) size) with (t_updates t1 addr taken targets size).
  assert (∃ j e, lookup_entry (t_entries (t_updates t1 addr taken targets size)) addr = Some (j, e) ∧
    t_states (t_updates t1 addr taken targets size) = t_states t ∧
    if taken then _state e ≤ t_half t ∧ _target e = tl else t_half t < _state e) as (j & e & Ej & Hs & He).
  { unfold t_half in *. destruct targets as [|tg' targets].
    - exists i, d. split; [done|]. split; [done|]. cbn in Hl, Hk. injection Hl as ->.
      destruct taken; [split; [|by apply Hd']|]; zlia.
    - destruct (updates_entry t1 addr taken size (tg' :: targets) i d Ei Hd ltac:(done)) as (j & e & Ej & Hs & He).
      exists j, e. split; [done|]. split; [done|]. change (t_states t1) with (t_states t) in He. cbn [length] in *.
      destruct taken; [destruct He as [He Ht]; split; [zlia|]|zlia].
      assert (Some (_target e) = Some tl) as [= ->] by (rewrite Ht, <- Hl; done). done. }
  unfold t_predict. rewrite Ej. unfold t_half at 1 2. rewrite Hs. fold (t_half t). cbn [fst snd].
  destruct taken; [destruct He as [He ->]; by rewrite (proj2 (Z.ltb_ge _ _)) by lia|by rewrite (proj2 (Z.ltb_lt _ _)) by lia].
Qed.

(** C10: A predictor with an address-keyed table of 1 to 2^31 - 1 entries and counters of 1 to
    31 bits learns a branch.  Whatever sequence of operations came before, half as many enabled updates in a
    row as a counter has states, all taken, make it predict the branch taken, to the target
    of the last one; as many that are not taken make it predict not taken.  (With two bits,
    two updates.) *)
Theorem branch_predictor_learns junk sz w ops addr taken targets size :
  0 < sz < 2 ^ 31 → 1 ≤ w < 32 → 2 ^ (w - 1) ≤ Z.of_nat (length targets) →
  ∃ b0 b out t, new_predictor junk sz w = Ret b0 ∧ last targets = Some t ∧
  bp_run b0 (ops ++ ((λ tg, BUpdate true addr tg taken size) <$> targets) ++ [BPredict true addr]) =
    Ret (out ++ [if taken then (Taken, t) else (NotTaken, 0)], b).
Proof.
  intros Hsz Hw Hk. destruct (new_predictor_spec junk sz w Hsz ltac:(lia)) as (b0 & E0 & Hb0).
  destruct (bp_run_spec b0 _ ops Hb0) as (b1 & _ & Hb1). set (t1 := snd (t_run _ ops)) in *.
  pose proof (pow2_pos (w - 1) ltac:(lia)) as Hp.
  assert (t_states t1 = 2 * 2 ^ (w - 1)) as Hst
    by (unfold t1; rewrite t_run_states; cbn; rewrite <- Z.pow_succ_r by lia; f_equal; lia).
  destruct (last targets) as [tl|] eqn:El; [|by apply last_None in El; subst targets; cbn in Hk; lia].
  destruct (bp_run_spec b0 _ (ops ++ ((λ tg, BUpdate true addr tg taken size) <$> targets) ++ [BPredict true addr]) Hb0)
    as (b & E & _).
  eexists b0, b, (fst (t_run (empty_table sz w) ops)), tl. split; [done|]. split; [done|]. rewrite E, !t_run_app.
  fold t1. rewrite t_run_updates. cbn [fst snd t_run t_exec app].
  rewrite (updates_predict t1 addr taken targets size tl); [done|lia|rewrite Hst, Z.mul_comm; apply Z_mod_mult| | |done].
  { pose proof (bp_counters _ _ Hb1) as Hc. unfold t_low, t_half in Hc. rewrite Hst, Z.mul_comm, Z.div_mul in Hc by lia.
    rewrite Z.min_l in Hc by lia. by rewrite Hst, (Z.mul_comm 2). }
  unfold t_half. rewrite Hst, Z.mul_comm, Z.div_mul by lia. done.
Qed.

Lemma branch_predictor_learns_witness : ∃ b0 b out t, new_predictor (new_data 0) 4 2 = Ret b0 ∧
  last [0x400; 0x404] = Some t ∧
  bp_run b0 ([BUpdate true 0x100 0 false 4; BUpdate true 0x100 0 false 4; BUpdate true 0x100 0 false 4] ++
    ((λ tg, BUpdate true 0x100 tg true 4) <$> [0x400; 0x404]) ++ [BPredict true 0x100]) = Ret (out ++ [(Taken, t)], b).
Proof.
  apply (branch_predictor_learns (new_data 0) 4 2
    [BUpdate true 0x100 0 false 4; BUpdate true 0x100 0 false 4; BUpdate true 0x100 0 false 4] 0x100 true [0x400; 0x404] 4).
  - lia.
  - lia.
  - vm_compute. discriminate.
Defined.

(** Setting the parameter "bp-size" is reported as done, but the entries stay as
    many as before. *)
Lemma bp_size_ignored b v : let '(done, b') := set_dyn_parm b "bp-size" v in
  done = true ∧ get_dyn_parm b' "bp-size" = Some v ∧ capacity (_preds b') = capacity (_preds b).
Proof. done. Qed.
