(* ===== verification/MemoryLocks.v ===== *)
(** * Locks on memory

    [src/iss/MemoryLocks.h]: the mutexes with which the cores of a multi-threaded
    simulation lock memory.  Each core has a table of its own in front of one
    table that all cores share; the shared one is locked while it is used, so its
    [get] is one step.  A core holds a lock from the construction of a [MemLock] to
    its destruction. *)
From stdpp Require Import prelude gmap list relations.
From Stdlib Require Import ZArith Lia.
From S2P Require Import Prelude.

Local Open Scope Z_scope.

Definition PageSize : Z := 4096.
Definition PageMask : Z := PageSize - 1.
(** The key of an address in both tables. *)
Definition get_page (a : Z) : Z := Z.land a PageMask.

(** [LockedMutexHash]; [new] gives the next mutex. *)
Record LockedMutexHash : Type := { mutexes : gmap Z nat; next_mutex : nat }.
Definition locked_get (g : LockedMutexHash) (addr : Z) : nat * LockedMutexHash :=
  match mutexes g !! get_page addr with
  | Some m => (m, g)
  | None => (next_mutex g, {| mutexes := <[get_page addr := next_mutex g]> (mutexes g); next_mutex := S (next_mutex g) |})
  end.
(** [PrivateMutexHash], with its pointer to the shared table. *)
Record PrivateMutexHash : Type := { cached : gmap Z nat; has_global : bool }.
Definition set_global_hash (p : PrivateMutexHash) : PrivateMutexHash := {| cached := cached p; has_global := true |}.
Definition private_get (p : PrivateMutexHash) (g : LockedMutexHash) (addr : Z) : nat * PrivateMutexHash * LockedMutexHash :=
  match cached p !! get_page addr with
  | Some m => (m, p, g)
  | None =>
      let '(m, g) := locked_get g addr in
      (m, {| cached := <[get_page addr := m]> (cached p); has_global := has_global p |}, g)
  end.
(** The mutex that a memory access is to hold, if any: without a shared table, or
    outside of an atomic instruction, there is none. *)
Definition get_mem_lock (p : PrivateMutexHash) (g : LockedMutexHash) (addr : Z) (flag : bool) :
    option nat * PrivateMutexHash * LockedMutexHash :=
  if has_global p && flag then let '(m, p, g) := private_get p g addr in (Some m, p, g) else (None, p, g).

(** ** Cores that lock and unlock *)

(** The tables of the cores, each with the access that it is in and its mutex. *)
Record locks : Type := { shared : LockedMutexHash; cores : list (PrivateMutexHash * option (Z * nat)) }.
Definition is_free (l : locks) (m : nat) : bool := forallb (λ c, match c.2 with Some (_, n) => negb (n =? m)%nat | None => true end) (cores l).
Inductive lock_step : locks → locks → Prop :=
| step_lock l i p addr m p' g' :
    cores l !! i = Some (p, None) → get_mem_lock p (shared l) addr true = (Some m, p', g') → is_free l m = true →
    lock_step l {| shared := g'; cores := <[i := (p', Some (addr, m))]> (cores l) |}
| step_unlock l i p a :
    cores l !! i = Some (p, Some a) →
    lock_step l {| shared := shared l; cores := <[i := (p, None)]> (cores l) |}.
Definition no_locks (n : nat) : locks :=
  {| shared := {| mutexes := ∅; next_mutex := 0 |}; cores := replicate n ({| cached := ∅; has_global := true |}, None) |}.

(** Mutexes of the shared table are distinct; private tables agree with it; a core
    holds the mutex of its address, alone. *)
Record locks_ok (l : locks) : Prop := {
  lk_fresh : ∀ k m, mutexes (shared l) !! k = Some m → (m < next_mutex (shared l))%nat;
  lk_inj : ∀ k k' m, mutexes (shared l) !! k = Some m → mutexes (shared l) !! k' = Some m → k = k';
  lk_private : ∀ i p h, cores l !! i = Some (p, h) → cached p ⊆ mutexes (shared l);
  lk_held : ∀ i p a m, cores l !! i = Some (p, Some (a, m)) → mutexes (shared l) !! get_page a = Some m;
  lk_alone : ∀ i j p q a b m, cores l !! i = Some (p, Some (a, m)) → cores l !! j = Some (q, Some (b, m)) → i = j
}.

Lemma locked_get_spec g addr m g' : (∀ k m, mutexes g !! k = Some m → (m < next_mutex g)%nat) →
  (∀ k k' m, mutexes g !! k = Some m → mutexes g !! k' = Some m → k = k') → locked_get g addr = (m, g') →
  mutexes g' !! get_page addr = Some m ∧ mutexes g ⊆ mutexes g' ∧ (∀ k m, mutexes g' !! k = Some m → (m < next_mutex g')%nat) ∧
  (∀ k k' m, mutexes g' !! k = Some m → mutexes g' !! k' = Some m → k = k').
Proof.
  intros Hf Hi E. unfold locked_get in E. destruct (mutexes g !! get_page addr) as [n|] eqn:Eg; simplify_eq; [done|]. cbn.
  split_and!; [by rewrite lookup_insert_eq|by apply insert_subseteq|..].
  - intros k m [(_ & <-)|[_ Hk]]%lookup_insert_Some; [lia|apply Hf in Hk; lia].
  - intros k k' m [(<- & <-)|[_ Hk]]%lookup_insert_Some [(<- & Hm)|[_ Hk']]%lookup_insert_Some; subst; try done.
    + apply Hf in Hk'. lia.
    + apply Hf in Hk. lia.
    + by eapply Hi.
Qed.
Lemma private_get_spec l i p h addr m p' g' : locks_ok l → cores l !! i = Some (p, h) →
  private_get p (shared l) addr = (m, p', g') →
  mutexes g' !! get_page addr = Some m ∧ mutexes (shared l) ⊆ mutexes g' ∧ cached p' ⊆ mutexes g' ∧
  (∀ k m, mutexes g' !! k = Some m → (m < next_mutex g')%nat) ∧
  (∀ k k' m, mutexes g' !! k = Some m → mutexes g' !! k' = Some m → k = k').
Proof.
  intros [Hf Hi Hp _ _] Hc E. unfold private_get in E. pose proof (Hp i p h Hc) as Hsub.
  destruct (cached p !! get_page addr) as [n|] eqn:Ec; simplify_eq.
  - split_and!; try done. by eapply lookup_weaken.
  - destruct (locked_get (shared l) addr) as [n g1] eqn:Eg. simplify_eq.
    destruct (locked_get_spec _ _ _ _ Hf Hi Eg) as (H1 & H2 & H3 & H4). split_and!; try done.
    cbn. apply insert_subseteq_l; [done|]. by etrans.
Qed.
Lemma lock_step_ok l l' : lock_step l l' → locks_ok l → locks_ok l'.
Proof.
  intros Hs Hl. destruct Hs as [l i p addr m p' g' Hi E Hfree|l i p a Hi].
  - unfold get_mem_lock in E. destruct (has_global p); [|done]. cbn in E.
    destruct (private_get p (shared l) addr) as [[n q] g] eqn:Ep. simplify_eq.
    destruct (private_get_spec _ _ _ _ _ _ _ _ Hl Hi Ep) as (H1 & H2 & H3 & H4 & H5).
    assert (∀ j q b, cores l !! j ≠ Some (q, Some (b, m))) as Hno.
    { intros j q b Hj. unfold is_free in Hfree. rewrite forallb_forall in Hfree.
      specialize (Hfree _ (proj1 (list_elem_of_In _ _) (list_elem_of_lookup_2 _ _ _ Hj))). cbn in Hfree. by rewrite Nat.eqb_refl in Hfree. }
    split; cbn; try done.
    + intros j q h Hj. apply list_lookup_insert_Some in Hj as [(<- & [= <- <-] & _)|[_ Hj]]; [done|].
      etrans; [by eapply lk_private|done].
    + intros j q b n Hj. apply list_lookup_insert_Some in Hj as [(<- & [= <- <- <-] & _)|[_ Hj]]; [done|].
      eapply lookup_weaken; [by eapply lk_held|done].
    + intros j k q1 q2 b1 b2 n Hj Hk.
      apply list_lookup_insert_Some in Hj as [(<- & [= <- <- <-] & _)|[_ Hj]];
        apply list_lookup_insert_Some in Hk as [(<- & Hk & _)|[_ Hk]]; simplify_eq; try done.
      * by destruct (Hno k q2 b2).
      * by destruct (Hno j q1 b1).
      * by eapply (lk_alone _ Hl).
  - destruct Hl as [H1 H2 H3 H4 H5]. split; cbn; try done.
    + intros j q h Hj. apply list_lookup_insert_Some in Hj as [(<- & [= <- <-] & _)|[_ Hj]]; by eapply H3.
    + intros j q b n Hj. apply list_lookup_insert_Some in Hj as [(_ & ? & _)|[_ Hj]]; [done|by eapply H4].
    + intros j k q1 q2 b1 b2 n Hj Hk.
      apply list_lookup_insert_Some in Hj as [(_ & ? & _)|[_ Hj]]; [done|].
      apply list_lookup_insert_Some in Hk as [(_ & ? & _)|[_ Hk]]; [done|]. by eapply H5.
Qed.
Lemma no_locks_ok n : locks_ok (no_locks n).
Proof. split; cbn; try done; intros *; rewrite lookup_replicate; intros [[= ] _]; by subst. Qed.

(** Mutual exclusion, and how far it goes: in every state that cores reach by
    locking and unlocking, two cores that are inside of locked accesses at the
    same time hold different mutexes and are at addresses that differ modulo 4096.
    The key of a lock is the offset in a page; the witness has two cores inside of
    one page. *)
Theorem memory_locks_exclude n l i j p q a b ma mb : rtc lock_step (no_locks n) l →
  cores l !! i = Some (p, Some (a, ma)) → cores l !! j = Some (q, Some (b, mb)) → i ≠ j →
  a mod 4096 ≠ b mod 4096 ∧ ma ≠ mb.
Proof.
  intros Hr Hi Hj Hne. assert (locks_ok l) as Hl.
  { eapply (rtc_ind_r locks_ok); [..|exact Hr]; [apply no_locks_ok|]. intros y z _ Hyz. by apply lock_step_ok. }
  assert (ma ≠ mb) as Hm by (intros ->; apply Hne; by eapply (lk_alone _ Hl)).
  split; [|done]. intros Hab. apply Hm.
  pose proof (lk_held _ Hl _ _ _ _ Hi) as H1. pose proof (lk_held _ Hl _ _ _ _ Hj) as H2.
  assert (get_page a = get_page b) as Hp.
  { unfold get_page, PageMask, PageSize. change (4096 - 1) with (Z.ones 12). by rewrite !Z.land_ones by lia. }
  congruence.
Qed.

Definition demo_locks : locks :=
  {| shared := {| mutexes := {[0x10 := 0%nat; 0x14 := 1%nat]}; next_mutex := 2 |};
     cores := [({| cached := {[0x10 := 0%nat]}; has_global := true |}, Some (0x1010, 0%nat));
               ({| cached := {[0x14 := 1%nat]}; has_global := true |}, Some (0x1014, 1%nat))] |}.
Lemma demo_locks_reached : rtc lock_step (no_locks 2) demo_locks.
Proof.
  eapply rtc_l; [apply (step_lock (no_locks 2) 0 {| cached := ∅; has_global := true |} 0x1010 0); vm_compute; reflexivity|].
  eapply rtc_l; [eapply (step_lock _ 1 {| cached := ∅; has_global := true |} 0x1014 1); vm_compute; reflexivity|].
  vm_compute. apply rtc_refl.
Qed.
(** Two cores inside of the same page at once, against the comment "lock on 4k
    pages". *)
Lemma memory_locks_exclude_witness :
  cores demo_locks !! 0%nat = Some ({| cached := {[0x10 := 0%nat]}; has_global := true |}, Some (0x1010, 0%nat)) ∧
  0x1010 / 4096 = 0x1014 / 4096 ∧ 0x1010 mod 4096 ≠ 0x1014 mod 4096 ∧ 0%nat ≠ 1%nat.
Proof.
  split; [reflexivity|]. split; [reflexivity|].
  apply (memory_locks_exclude 2 demo_locks 0 1 {| cached := {[0x10 := 0%nat]}; has_global := true |}
    {| cached := {[0x14 := 1%nat]}; has_global := true |} 0x1010 0x1014 0 1).
  - apply demo_locks_reached.
  - reflexivity.
  - reflexivity.
  - discriminate.
Defined.
