(* ===== verification/PacketPool.v ===== *)
(** * Pools of packets

    [src/iss/PacketPool.h]: [N] objects that are linked into a free list through
    their [_next] fields, with a variant that counts the objects in use.

    Objects are known by their positions in [_data]; a null pointer is absent.
    [AssertFail] is a failed [assert]; following a null pointer is [Undefined].
    Walks over the free list have fuel [N + 1]: a list without a cycle has [N]
    objects at most. *)
From stdpp Require Import prelude list.
From Stdlib Require Import ZArith Lia.
From S2P Require Import Prelude.

(** [_next] of all objects, and [_head]. *)
Record PacketPool : Type := { _next : list (option nat); _head : option nat }.

Definition next_of (p : PacketPool) (x : nat) : outcome (option nat) :=
  match _next p !! x with Some n => Ret n | None => Undefined end.
Definition set_next (p : PacketPool) (x : nat) (n : option nat) : outcome PacketPool :=
  if x <? length (_next p) then Ret {| _next := <[x := n]> (_next p); _head := _head p |} else Undefined.
Definition set_head (p : PacketPool) (h : option nat) : PacketPool := {| _next := _next p; _head := h |}.

(** Each object points to the following one, the last to none. *)
Definition reset (p : PacketPool) (N : nat) : outcome PacketPool :=
  let! p := for_up (N - 1) 0 (λ i r, let! p := r in set_next p i (Some (i + 1))) (Ret p) in
  let! p := set_next p (N - 1) None in
  Ret (set_head p (Some 0)).
Definition new_pool (N : nat) : outcome PacketPool := reset {| _next := replicate N None; _head := None |} N.

Fixpoint count_from (fuel : nat) (p : PacketPool) (h : option nat) (count : nat) : outcome nat :=
  match h with
  | None => Ret count
  | Some x =>
      match fuel with
      | O => Undefined
      | S fuel => let! h := next_of p x in count_from fuel p h (S count)
      end
  end.
Definition num_free (p : PacketPool) : outcome nat := count_from (S (length (_next p))) p (_head p) 0.
Definition none_allocated (p : PacketPool) (N : nat) : outcome bool :=
  let! n := num_free p in Ret (n =? N).

Definition alloc (p : PacketPool) : outcome (nat * PacketPool) :=
  match _head p with
  | None => AssertFail
  | Some x => let! n := next_of p x in Ret (x, set_head p n)
  end.
Definition free (p : PacketPool) (x : nat) : outcome PacketPool :=
  assert! negb (bool_decide (_head p = Some x)) in
  let! p := set_next p x (_head p) in
  Ret (set_head p (Some x)).
(** The list from [h] to [t], in front of the free list. *)
Definition free_all (p : PacketPool) (h t : nat) : outcome PacketPool :=
  let! p := set_next p t (_head p) in
  Ret (set_head p (Some h)).

(** [PacketPoolCounted] *)
Record PacketPoolCounted : Type := { pool : PacketPool; _count : Z }.
Definition counted_reset (c : PacketPoolCounted) (N : nat) : outcome PacketPoolCounted :=
  let! p := reset (pool c) N in Ret {| pool := p; _count := 0 |}.
Definition counted_alloc (c : PacketPoolCounted) : outcome (nat * PacketPoolCounted) :=
  let n := wrap 32 (_count c + 1) in
  let! r := alloc (pool c) in Ret (fst r, {| pool := snd r; _count := n |}).
Definition counted_free (c : PacketPoolCounted) (x : nat) : outcome PacketPoolCounted :=
  let n := wrap 32 (_count c - 1) in
  let! p := free (pool c) x in Ret {| pool := p; _count := n |}.

(** ** The free list as a list *)

(** [l] is linked from [h] to [e]. *)
Fixpoint linked (nx : list (option nat)) (h : option nat) (l : list nat) (e : option nat) : Prop :=
  match l with
  | [] => h = e
  | x :: l => h = Some x ∧ ∃ n, nx !! x = Some n ∧ linked nx n l e
  end.
(** The free objects, the first to be given out first. *)
Record pool_rep (N : nat) (p : PacketPool) (l : list nat) : Prop := {
  p_len : length (_next p) = N;
  p_list : linked (_next p) (_head p) l None;
  p_nodup : NoDup l
}.

Lemma linked_app nx h l1 l2 e : linked nx h (l1 ++ l2) e ↔ ∃ m, linked nx h l1 m ∧ linked nx m l2 e.
Proof.
  revert h. induction l1 as [|x l1 IH]; intros h; cbn.
  { split; [intros Hl; by exists h|by intros (m & -> & Hl)]. }
  split.
  - intros (-> & n & Hn & Hl). apply IH in Hl as (m & Hl1 & Hl2). eauto 6.
  - intros (m & (-> & n & Hn & Hl1) & Hl2). split; [done|]. exists n. split; [done|]. apply IH. eauto.
Qed.
Lemma linked_insert nx h l e x n : x ∉ l → linked nx h l e → linked (<[x := n]> nx) h l e.
Proof.
  revert h. induction l as [|y l IH]; intros h Hx; cbn; [done|]. apply not_elem_of_cons in Hx as [Hxy Hx].
  intros (-> & m & Hm & Hl). split; [done|]. exists m. rewrite list_lookup_insert_ne by done. auto.
Qed.
Lemma linked_lt nx h l e x : linked nx h l e → x ∈ l → x < length nx.
Proof.
  revert h. induction l as [|y l IH]; intros h Hl Hx; [by apply not_elem_of_nil in Hx|].
  cbn in Hl. destruct Hl as (-> & n & Hn & Hl). apply elem_of_cons in Hx as [->|Hx]; [by eapply lookup_lt_Some|by eapply IH].
Qed.
Lemma pool_length N p l : pool_rep N p l → length l ≤ N.
Proof.
  intros [HN Hl Hd]. rewrite <- (length_seq N 0). apply submseteq_length, NoDup_submseteq; [done|].
  intros x Hx. apply elem_of_seq. pose proof (linked_lt _ _ _ _ _ Hl Hx). lia.
Qed.

Lemma count_from_spec fuel p h l c : linked (_next p) h l None → length l ≤ fuel → count_from fuel p h c = Ret (c + length l).
Proof.
  revert h l c. induction fuel as [|fuel IH]; intros h l c Hl Hf.
  - destruct l; [|cbn in Hf; lia]. cbn in Hl. subst h. cbn. f_equal. lia.
  - destruct l as [|x l]; cbn in Hl; [subst h; cbn; f_equal; lia|]. destruct Hl as (-> & n & Hn & Hl).
    cbn. unfold next_of. rewrite Hn. cbn [obind]. rewrite (IH n l) by (done || cbn in Hf; lia). f_equal. lia.
Qed.
Lemma num_free_spec N p l : pool_rep N p l → num_free p = Ret (length l).
Proof.
  intros Hp. unfold num_free. pose proof (pool_length _ _ _ Hp). rewrite (count_from_spec _ _ _ l); [done|apply Hp|].
  rewrite (p_len _ _ _ Hp). lia.
Qed.
Lemma alloc_spec N p l : pool_rep N p l →
  match l with
  | [] => alloc p = AssertFail
  | x :: l' => ∃ p', alloc p = Ret (x, p') ∧ pool_rep N p' l'
  end.
Proof.
  intros [HN Hl Hd]. unfold alloc. destruct l as [|x l]; cbn in Hl; [by rewrite Hl|].
  destruct Hl as (-> & n & Hn & Hl). unfold next_of. rewrite Hn. cbn [obind]. eexists. split; [done|].
  split; [done|exact Hl|]. by apply NoDup_cons in Hd as [_ ?].
Qed.
Lemma free_spec N p l x : pool_rep N p l → x < N → x ∉ l → ∃ p', free p x = Ret p' ∧ pool_rep N p' (x :: l).
Proof.
  intros [HN Hl Hd] Hx Hnin. unfold free. assert (_head p ≠ Some x) as Hh.
  { intros E. rewrite E in Hl. destruct l as [|y l]; cbn in Hl; [done|]. destruct Hl as ([= <-] & _). apply Hnin. by left. }
  rewrite bool_decide_eq_false_2 by done. cbn [negb]. unfold set_next. rewrite HN, (proj2 (Nat.ltb_lt _ _)) by done. cbn [obind].
  eexists. split; [done|]. split; cbn; [by rewrite length_insert| |by apply NoDup_cons_2].
  split; [done|]. exists (_head p). rewrite list_lookup_insert_eq by lia. split; [done|]. by apply linked_insert.
Qed.
(** A list of objects that its owner linked goes back at once. *)
Lemma free_all_spec N p l h t ys : pool_rep N p l → linked (_next p) (Some h) (ys ++ [t]) None → NoDup (ys ++ [t]) →
  (∀ x, x ∈ ys ++ [t] → x ∉ l) → ∃ p', free_all p h t = Ret p' ∧ pool_rep N p' ((ys ++ [t]) ++ l).
Proof.
  intros [HN Hl Hd] Hy Hdy Hdisj. unfold free_all, set_next.
  assert (t < length (_next p)) as Ht by (eapply linked_lt; [exact Hy|]; apply elem_of_app; right; by apply list_elem_of_singleton).
  rewrite (proj2 (Nat.ltb_lt _ _)) by done. cbn [obind]. eexists. split; [done|]. split; cbn.
  - by rewrite length_insert.
  - apply NoDup_app in Hdy as (_ & Hty & _). apply linked_app in Hy as (m & Hy1 & Hy2). apply linked_app. exists (_head p). split.
    + apply linked_app. exists m. split; [apply linked_insert; [|done]; intros Hin; by apply (Hty t Hin), list_elem_of_singleton|].
      cbn in Hy2 |- *. destruct Hy2 as (-> & _). split; [done|]. exists (_head p). by rewrite list_lookup_insert_eq.
    + apply linked_insert; [|done]. apply Hdisj, elem_of_app. right. by apply list_elem_of_singleton.
  - apply NoDup_app. split_and!; done.
Qed.

Lemma linked_seq nx i n : (∀ k, i ≤ k → k < i + n → nx !! k = Some (Some (k + 1))) → nx !! (i + n) = Some None →
  linked nx (Some i) (seq i (S n)) None.
Proof.
  revert i. induction n as [|n IH]; intros i Hk He; cbn.
  - split; [done|]. exists None. rewrite Nat.add_0_r in He. done.
  - split; [done|]. exists (Some (i + 1)). split; [apply Hk; lia|]. rewrite Nat.add_1_r. apply (IH (S i)).
    + intros k H1 H2. apply Hk; lia.
    + by replace (S i + n) with (i + S n) by lia.
Qed.
Lemma pool_reset_spec p N : 0 < N → length (_next p) = N → ∃ p', reset p N = Ret p' ∧ pool_rep N p' (seq 0 N).
Proof.
  intros HN Hl. unfold reset.
  destruct (for_up_ind (λ i r, i ≤ N - 1 → ∃ q, r = Ret q ∧ length (_next q) = N ∧ ∀ k, k < i → _next q !! k = Some (Some (k + 1)))
    (N - 1) 0 (λ i r, let! p := r in set_next p i (Some (i + 1))) (Ret p)) as (q & -> & Hq & Hk).
  - intros _. exists p. split_and!; try done. intros; lia.
  - intros i r Hi H Hle. destruct H as (q & -> & Hq & Hk); [lia|]. cbn [obind]. unfold set_next.
    rewrite Hq, (proj2 (Nat.ltb_lt _ _)) by lia. eexists. split; [done|]. cbn. split; [by rewrite length_insert|].
    intros k Hlt. destruct (decide (k = i)) as [->|Hne]; [by rewrite list_lookup_insert_eq by lia|].
    rewrite list_lookup_insert_ne by done. apply Hk. lia.
  - lia.
  - cbn [obind]. unfold set_next. rewrite Hq, (proj2 (Nat.ltb_lt _ _)) by lia. cbn [obind]. eexists. split; [done|].
    split; cbn; [by rewrite length_insert| |apply NoDup_seq].
    assert (seq 0 N = seq 0 (S (N - 1))) as -> by (f_equal; lia). apply linked_seq; cbn.
    + intros k _ H. rewrite list_lookup_insert_ne by lia. apply Hk. lia.
    + by rewrite list_lookup_insert_eq by lia.
Qed.

(** ** Sequences of operations *)

Inductive pool_op : Type := OpAlloc | OpFree (x : nat) | OpReset.
(** The objects handed out, and the pool. *)
Definition pool_exec (N : nat) (x : list nat * PacketPoolCounted) (o : pool_op) : outcome (list nat * PacketPoolCounted) :=
  let '(out, c) := x in
  match o with
  | OpAlloc => let! r := counted_alloc c in Ret (fst r :: out, snd r)
  | OpFree y => let! c := counted_free c y in Ret (filter (.≠ y) out, c)
  | OpReset => let! c := counted_reset c N in Ret ([], c)
  end.
Fixpoint pool_run (N : nat) (x : list nat * PacketPoolCounted) (ops : list pool_op) : outcome (list nat * PacketPoolCounted) :=
  match ops with [] => Ret x | o :: ops => let! x := pool_exec N x o in pool_run N x ops end.
(** A client frees only what it holds and never holds more than [N]. *)
Fixpoint client_ok (N : nat) (x : list nat * PacketPoolCounted) (ops : list pool_op) : Prop :=
  match ops with
  | [] => True
  | o :: ops =>
      match o with OpAlloc => length x.1 < N | OpFree y => y ∈ x.1 | OpReset => True end ∧
      ∀ x', pool_exec N x o = Ret x' → client_ok N x' ops
  end.

(** Objects in use and free objects are all objects, each once. *)
Record counted_rep (N : nat) (x : list nat * PacketPoolCounted) (l : list nat) : Prop := {
  cr_pool : pool_rep N (pool x.2) l;
  cr_perm : x.1 ++ l ≡ₚ seq 0 N;
  cr_count : _count x.2 = Z.of_nat (length x.1)
}.
Lemma counted_length N x l : counted_rep N x l → length x.1 + length l = N.
Proof. intros [_ Hp _]. apply Permutation_length in Hp. by rewrite length_app, length_seq in Hp. Qed.
Lemma filter_remove (y : nat) (l : list nat) : NoDup l → y ∈ l → l ≡ₚ y :: filter (.≠ y) l.
Proof.
  intros Hd Hy. apply NoDup_Permutation; [done| |].
  - apply NoDup_cons_2; [by intros [? _]%list_elem_of_filter|by apply NoDup_filter].
  - intros z. rewrite elem_of_cons, list_elem_of_filter. destruct (decide (z = y)) as [->|Hne]; [split; [by left|done]|tauto].
Qed.
Lemma pool_exec_spec N x l o : (0 < N) → (Z.of_nat N < 2 ^ 32)%Z → counted_rep N x l →
  match o with OpAlloc => length x.1 < N | OpFree y => y ∈ x.1 | OpReset => True end →
  ∃ x' l', pool_exec N x o = Ret x' ∧ counted_rep N x' l'.
Proof.
  intros HN HN32 Hx Ho. pose proof (counted_length _ _ _ Hx) as Hlen. destruct x as [out c]. destruct Hx as [Hp Hperm Hc]. cbn in *.
  destruct o as [|y|].
  - pose proof (alloc_spec N (pool c) l Hp) as Ha. destruct l as [|z l]; [cbn in Hlen; lia|].
    destruct Ha as (p' & E & Hp'). unfold counted_alloc. rewrite E. cbn. eexists _, l. split; [done|].
    split; cbn; [done| |].
    + rewrite <- Hperm. by rewrite Permutation_middle.
    + rewrite Hc, wrap_small; unfold uint; cbn in Hlen; lia.
  - assert (NoDup (out ++ l)) as Hnd by (rewrite Hperm; apply NoDup_seq). apply NoDup_app in Hnd as (Hd1 & Hd12 & Hd2).
    assert (y ∈ seq 0 N) as Hy by (rewrite <- Hperm; apply elem_of_app; by left). apply elem_of_seq in Hy.
    pose proof (filter_remove y out Hd1 Ho) as Hf. pose proof (Permutation_length Hf) as Hfl. cbn in Hfl.
    destruct (free_spec N (pool c) l y Hp) as (p' & E & Hp'); [lia|by apply Hd12|].
    unfold counted_free. rewrite E. cbn. eexists _, (y :: l). split; [done|]. split; cbn; [done| |].
    + rewrite <- Permutation_middle, <- Hperm. by rewrite app_comm_cons, <- Hf.
    + rewrite Hc, wrap_small; unfold uint; lia.
  - destruct (pool_reset_spec (pool c) N HN (p_len _ _ _ Hp)) as (p' & E & Hp').
    unfold counted_reset. rewrite E. cbn. eexists _, (seq 0 N). split; [done|]. by split.
Qed.
Lemma pool_run_spec N x l ops : (0 < N) → (Z.of_nat N < 2 ^ 32)%Z → counted_rep N x l → client_ok N x ops →
  ∃ x' l', pool_run N x ops = Ret x' ∧ counted_rep N x' l'.
Proof.
  intros HN HN32. revert x l. induction ops as [|o ops IH]; intros x l Hx Hok; [by exists x, l|].
  destruct Hok as [Ho Hok]. destruct (pool_exec_spec N x l o HN HN32 Hx Ho) as (x1 & l1 & E & Hx1). cbn. rewrite E. cbn [obind].
  by apply (IH x1 l1), Hok.
Qed.

(** A pool of [N] objects hands out every object to one client at a time: for a
    client that frees only what it holds and holds [N] objects at most, every
    sequence of operations succeeds; the objects in use are distinct objects of
    the pool, their count is right, and the free list has all the others. *)
Theorem packet_pool_safe N ops p0 : (0 < N) → (Z.of_nat N < 2 ^ 32)%Z → new_pool N = Ret p0 →
  client_ok N ([], {| pool := p0; _count := 0 |}) ops →
  ∃ out c l, pool_run N ([], {| pool := p0; _count := 0 |}) ops = Ret (out, c) ∧
  NoDup out ∧ out ++ l ≡ₚ seq 0 N ∧ _count c = Z.of_nat (length out) ∧
  num_free (pool c) = Ret (N - length out) ∧ none_allocated (pool c) N = Ret (bool_decide (out = [])).
Proof.
  intros HN HN32 E Hok. destruct (pool_reset_spec {| _next := replicate N None; _head := None |} N HN) as (p & E' & Hp);
    [apply length_replicate|]. unfold new_pool in E. rewrite E' in E. injection E as <-.
  destruct (pool_run_spec N ([], {| pool := p; _count := 0 |}) (seq 0 N) ops HN HN32) as (x & l & Er & Hx); [by split|done|].
  pose proof (counted_length _ _ _ Hx) as Hlen. destruct x as [out c]. destruct Hx as [Hpc Hperm Hc]. cbn in *.
  exists out, c, l. pose proof (num_free_spec _ _ _ Hpc) as Hf. replace (length l) with (N - length out) in Hf by lia.
  split_and!; try done.
  - assert (NoDup (out ++ l)) as Hnd by (rewrite Hperm; apply NoDup_seq). by apply NoDup_app in Hnd as [? _].
  - unfold none_allocated. rewrite Hf. cbn [obind]. f_equal. destruct out as [|z out].
    + cbn [length]. by rewrite Nat.sub_0_r, Nat.eqb_refl.
    + rewrite bool_decide_eq_false_2 by done. apply Nat.eqb_neq. cbn [length] in *. lia.
Qed.

Definition demo_ops : list pool_op := [OpAlloc; OpAlloc; OpAlloc; OpFree 1; OpAlloc; OpFree 2; OpFree 0].
Definition demo_pool : PacketPool := {| _next := [Some 1; Some 2; None]; _head := Some 0 |}.
Lemma packet_pool_safe_witness : ∃ out c l,
  pool_run 3 ([], {| pool := demo_pool; _count := 0 |}) demo_ops = Ret (out, c) ∧ out = [1] ∧
  out ++ l ≡ₚ seq 0 3 ∧ num_free (pool c) = Ret 2.
Proof.
  destruct (packet_pool_safe 3 demo_ops demo_pool) as (out & c & l & E & _ & Hp & _ & Hf & _).
  - lia.
  - lia.
  - reflexivity.
  - cbn. repeat (split; [first [lia|repeat constructor]|]; intros ? [= <-]; cbn). exact I.
  - exists out, c, l. pose proof E as E1. vm_compute in E1. injection E1 as <- <-.
    split; [exact E|]. split; [reflexivity|]. split; [exact Hp|exact Hf].
Defined.

(** Only a free of the object at the head is refused.  Freeing another free object
    makes the free list a cycle; counting it does not end. *)
Example double_free : ∃ p, free demo_pool 2 = Ret p ∧ num_free p = Undefined.
Proof. eexists. split; [vm_compute; reflexivity|]. vm_compute. reflexivity. Qed.
