(* ===== verification/Encoding.v ===== *)
(** * Instruction encodings

    [src/fe/Data.h], [src/fe/Data.C], [src/fe/Types.C] and the first part of
    [src/fe/InstrTable.C]: bit ranges, instruction fields and instructions, as far
    as the encoding of an instruction goes, and the numbers that are computed from
    them: the mask of the opcode bits of an instruction and the value of its
    opcode.  The numbers are of the external class [RNumber]: [RNumber] is the
    interface that the code uses and [RNumberLaws] its documented behaviour (an
    unsigned number of a given width); [word_number] is an instance. *)
From stdpp Require Import prelude strings.
From Stdlib Require Import ZArith Lia Btauto.
From S2P Require Import Prelude.

Local Open Scope Z_scope.

(** ** Numbers of the [rnumber] library *)

Class RNumber (T : Type) : Type := {
  rn : Z → Z → T;               (* RNumber(value,width) *)
  rn_copy : T → Z → T;          (* RNumber(number,width), resize *)
  rsize : T → Z;
  rand : T → T → T;
  ror : T → T → T;
  rxor : T → T → T;
  rnot : T → T;
  rshl : T → Z → T;
  rshr : T → Z → T;
  req : T → T → bool;
  rlt : T → T → bool;
  iszero : T → bool;
  getBit : T → Z → bool;        (* from the left *)
  setField : T → Z → Z → T → T;
  ruint32 : T → Z;
  buffer : T → list Z;          (* the words, the most significant first *)
  set_buffer : T → list Z → T
}.

Class RNumberLaws (T : Type) `{RNumber T} : Type := {
  rval : T → Z;
  rval_uint x : uint (rsize x) (rval x);
  rsize_nonneg x : 0 ≤ rsize x;
  rn_spec v w : 0 ≤ w → rsize (rn v w) = w ∧ rval (rn v w) = wrap w v;
  rn_copy_spec x w : 0 ≤ w → rsize (rn_copy x w) = w ∧ rval (rn_copy x w) = wrap w (rval x);
  rand_spec x y : rsize x = rsize y → rsize (rand x y) = rsize x ∧ rval (rand x y) = Z.land (rval x) (rval y);
  ror_spec x y : rsize x = rsize y → rsize (ror x y) = rsize x ∧ rval (ror x y) = Z.lor (rval x) (rval y);
  rxor_spec x y : rsize x = rsize y → rsize (rxor x y) = rsize x ∧ rval (rxor x y) = Z.lxor (rval x) (rval y);
  rnot_spec x : rsize (rnot x) = rsize x ∧ rval (rnot x) = unot (rsize x) (rval x);
  rshl_spec x n : 0 ≤ n → rsize (rshl x n) = rsize x ∧ rval (rshl x n) = wrap (rsize x) (Z.shiftl (rval x) n);
  rshr_spec x n : 0 ≤ n → rsize (rshr x n) = rsize x ∧ rval (rshr x n) = Z.shiftr (rval x) n;
  req_spec x y : rsize x = rsize y → req x y = (rval x =? rval y);
  rlt_spec x y : rsize x = rsize y → rlt x y = (rval x <? rval y);
  iszero_spec x : iszero x = (rval x =? 0);
  getBit_spec x i : 0 ≤ i < rsize x → getBit x i = Z.testbit (rval x) (rsize x - 1 - i);
  setField_zero x s e y : 0 ≤ s ≤ e → e < rsize x → rval y = 0 →
    rsize (setField x s e y) = rsize x ∧
    rval (setField x s e y) = Z.ldiff (rval x) (Z.shiftl (Z.ones (e - s + 1)) (rsize x - 1 - e));
  ruint32_spec x : ruint32 x = wrap 32 (rval x);
  buffer_spec x : rsize x mod 32 = 0 → Z.of_nat (length (buffer x)) = rsize x / 32 ∧ digits 32 (buffer x) ∧ beval 32 (buffer x) = rval x;
  set_buffer_spec x l : rsize x mod 32 = 0 → Z.of_nat (length l) = rsize x / 32 → digits 32 l →
    rsize (set_buffer x l) = rsize x ∧ rval (set_buffer x l) = beval 32 l
}.

(** ** Bit ranges, fields and instructions *)

Record BitPair : Type := { _l : Z; _r : Z }.
Record InstrField : Type := { bits : list BitPair; allow_conflict : bool }.
Inductive ValType : Type := Ref | Value | Expr | RValue | Resrvd | AliasField.
#[export] Instance ValType_eq_dec : EqDecision ValType.
Proof. solve_decision. Defined.
Record Field : Type := { _type : ValType; _field : InstrField; _value : Z }.
Record InstrData : Type := {
  _id : Z; name : string; width : Z; is_little_endian : bool; instr_allow_conflict : bool; instr_is_prefix : bool;
  _opcs : list Field; _fields : list Field; _all : list Field
}.
(** A shorthand has its first alias (the target and the fields) and the number of
    further ones. *)
Inductive Instr : Type := MkInstr (d : InstrData) (a : InstrAlias)
with InstrAlias : Type := NoAlias | Alias (_target : Instr) (_fields : list Field) (more : nat).
Definition data (i : Instr) : InstrData := let (d, _) := i in d.
Definition get_alias (i : Instr) : InstrAlias := let (_, a) := i in a.
Definition shorthand (i : Instr) : bool := match get_alias i with Alias _ _ _ => true | NoAlias => false end.
(** Instructions are compared by address; the identifier is unique. *)
Definition same_instr (i j : Instr) : bool := _id (data i) =? _id (data j).

(** ** Opcodes *)

Section Computed.
Context {T : Type} `{RNumber T}.
(** [BitPair::endianness]: true if bits are numbered from the left. *)
Context (endianness : bool).

Definition lo (b : BitPair) (w : Z) : Z := if endianness then _l b else w - _l b - 1.
Definition hi (b : BitPair) (w : Z) : Z := if endianness then _r b else w - _r b - 1.

(** [InstrField::setValue]: the bits of the value, from the last range on. *)
Definition setValue_step (width : Z) (s : Z * T) (b : BitPair) : Z * T :=
  let '(val, result) := s in
  let ones := rnot (rn 0 width) in
  let e := hi b width in
  let swidth := e - lo b width + 1 in
  let mask := rnot (rshl ones swidth) in
  let v := rand (rn_copy (rn val 64) (rsize mask)) mask in
  (shr 64 val swidth, ror result (rshl v (wrap 32 (width - e - 1)))).
Definition setValue (f : InstrField) (val width : Z) : T :=
  snd (fold_left (setValue_step width) (reverse (bits f)) (val, rn 0 width)).

Definition add_to_mask_step (width : Z) (ret : T) (b : BitPair) : T :=
  let ones := rnot (rn 0 width) in
  let l := wrap 32 (lo b width) in
  let r := wrap 32 (width - hi b width - 1) in
  let ones := rshr (rshl ones l) l in
  let ones := rshl (rshr ones r) r in
  ror ret ones.
Definition add_to_mask (ret : T) (f : InstrField) (width : Z) : T :=
  fold_left (add_to_mask_step width) (bits f) ret.

Definition swap_words (x : T) : T :=
  let wc := Z.of_nat (length (buffer x)) in
  if 1 <? wc then
    let buf := reverse (buffer x) in
    if rsize x mod 32 =? 0 then set_buffer x buf
    else
      let adjust := 32 * wc - rsize x in
      let buf := alter (λ w, shl 32 w adjust) (Z.to_nat (wc - 1)) buf in
      rshr (set_buffer x buf) adjust
  else x.

Definition is_mixed_endian (i : Instr) : bool := negb (is_little_endian (data i)) && negb endianness.
Definition adjustForLittleEndian (i : Instr) (x : T) (w : Z) (swap_for_le : bool) : T :=
  let x := if is_mixed_endian i && negb (w =? 0) then rshl x (wrap 32 (w - width (data i))) else x in
  if is_little_endian (data i) && swap_for_le then swap_words x else x.

(** [Instr::getOpcode]; a shorthand adds the values of its alias to the opcode of
    its target. *)
Fixpoint getOpcode (i : Instr) (w : Z) (swap_for_le : bool) : T :=
  match get_alias i with
  | Alias target fields _ =>
      fold_left (λ opcode f,
        if decide (_type f = Value) then
          ror opcode (adjustForLittleEndian i (rn_copy (setValue (_field f) (_value f) w) w) w swap_for_le)
        else opcode) fields (getOpcode target w swap_for_le)
  | NoAlias =>
      adjustForLittleEndian i
        (fold_left (λ opcode f, ror opcode (setValue (_field f) (_value f) w)) (_opcs (data i)) (rn 0 w)) w swap_for_le
  end.

(** ** Masks of an instruction *)

Fixpoint get_instr_mask (i : Instr) (w : Z) (opc_only : bool) : T :=
  match get_alias i with
  | Alias target fields _ =>
      fold_left (λ ret f,
        if decide (_type f = Value) then
          let tmp := rn_copy (setValue (_field f) 0xffffffffffffffff w) w in
          let tmp := if is_mixed_endian i then rshl tmp (wrap 32 (w - width (data i))) else tmp in
          ror ret (adjustForLittleEndian i tmp w true)
        else ret) fields (get_instr_mask target w opc_only)
  | NoAlias =>
      adjustForLittleEndian i
        (fold_left (λ ret f, add_to_mask ret (_field f) w) (if opc_only then _opcs (data i) else _all (data i)) (rn 0 w)) w true
  end.
Definition get_undefined_mask (i : Instr) (w : Z) : T := rnot (get_instr_mask i w false).
Definition get_opc_mask (i : Instr) (w : Z) : T := get_instr_mask i w true.

(** The bits of the fields that may conflict; of a shorthand, those of its target. *)
Definition conflict_mask (i : Instr) (w : Z) : T :=
  let i := match get_alias i with Alias target _ _ => target | NoAlias => i end in
  adjustForLittleEndian i
    (fold_left (λ ret f, if allow_conflict (_field f) then add_to_mask ret (_field f) w else ret) (_fields (data i)) (rn 0 w)) w true.
Definition get_conflict_mask (instrs : list Instr) (enc_width : Z) : T :=
  let '(mask, sw) := fold_left (λ '(mask, sw) i, (ror mask (conflict_mask i enc_width), Z.min sw (width (data i))))
    instrs (rn 0 enc_width, 0xffffffff) in
  if sw <? rsize mask then setField mask sw (rsize mask - 1) (rn 0 enc_width) else mask.
Definition get_common_opc (instrs : list Instr) (enc_width : Z) : T :=
  fold_left (λ mask i, rand mask (get_opc_mask i enc_width)) instrs (rnot (rn 0 enc_width)).
End Computed.

(** ** Numbers of a fixed width as an instance *)

Record word_number : Type := WordNumber { wn_width : Z; wn_bits : Z }.
Definition wn (w v : Z) : word_number := WordNumber w (wrap w v).
Definition wn_size (x : word_number) : Z := Z.max 0 (wn_width x).
Definition wn_val (x : word_number) : Z := wrap (wn_size x) (wn_bits x).
#[export] Instance word_number_ops : RNumber word_number := {
  rn v w := wn w v;
  rn_copy x w := wn w (wn_val x);
  rsize := wn_size;
  rand x y := wn (wn_size x) (Z.land (wn_val x) (wn_val y));
  ror x y := wn (wn_size x) (Z.lor (wn_val x) (wn_val y));
  rxor x y := wn (wn_size x) (Z.lxor (wn_val x) (wn_val y));
  rnot x := wn (wn_size x) (Z.lnot (wn_val x));
  rshl x n := wn (wn_size x) (Z.shiftl (wn_val x) n);
  rshr x n := wn (wn_size x) (Z.shiftr (wn_val x) n);
  req x y := wn_val x =? wn_val y;
  rlt x y := wn_val x <? wn_val y;
  iszero x := wn_val x =? 0;
  getBit x i := Z.testbit (wn_val x) (wn_size x - 1 - i);
  setField x s e y :=
    wn (wn_size x) (Z.lor (Z.ldiff (wn_val x) (Z.shiftl (Z.ones (e - s + 1)) (wn_size x - 1 - e)))
      (Z.shiftl (wrap (e - s + 1) (wn_val y)) (wn_size x - 1 - e)));
  ruint32 x := wrap 32 (wn_val x);
  buffer x := reverse (rdigits 32 (Z.to_nat (wn_size x / 32)) (wn_val x));
  set_buffer x l := wn (wn_size x) (beval 32 l)
}.
Lemma wn_uint x : uint (wn_size x) (wn_val x).
Proof. apply uint_wrap. unfold wn_size. lia. Qed.
Lemma wn_spec w v : 0 ≤ w → wn_size (wn w v) = w ∧ wn_val (wn w v) = wrap w v.
Proof.
  intros Hw. assert (wn_size (wn w v) = w) as E by (unfold wn_size, wn; cbn; lia).
  split; [done|]. unfold wn_val. rewrite E. by apply wrap_wrap.
Qed.
Lemma wn_small x v : uint (wn_size x) v → wn_size (wn (wn_size x) v) = wn_size x ∧ wn_val (wn (wn_size x) v) = v.
Proof.
  intros Hv. destruct (wn_spec (wn_size x) v) as [E1 E2]; [unfold wn_size; lia|].
  by rewrite E1, E2, wrap_small.
Qed.
Ltac uint_bits :=
  apply uint_of_bits; [done || lia|]; intros ? ?; autorewrite with zbits;
  repeat match goal with Hu : uint ?w ?a |- context [Z.testbit ?a _] => rewrite (testbit_high w a) by (done || lia) end;
  try done; try btauto.
Lemma uint_land w a b : 0 ≤ w → uint w a → uint w (Z.land a b).
Proof. intros. uint_bits. Qed.
Lemma uint_lor w a b : 0 ≤ w → uint w a → uint w b → uint w (Z.lor a b).
Proof. intros. uint_bits. Qed.
Lemma uint_lxor w a b : 0 ≤ w → uint w a → uint w b → uint w (Z.lxor a b).
Proof. intros. uint_bits. Qed.
Lemma uint_ldiff w a b : 0 ≤ w → uint w a → uint w (Z.ldiff a b).
Proof. intros. uint_bits. Qed.
Lemma uint_shiftr w a n : 0 ≤ w → 0 ≤ n → uint w a → uint w (Z.shiftr a n).
Proof.
  intros. apply uint_of_bits; [done|]. intros i Hi. rewrite Z.shiftr_spec by lia. apply (testbit_high w); [done|done|lia].
Qed.
Lemma wn_nonneg x : 0 ≤ wn_size x.
Proof. unfold wn_size. lia. Qed.
#[export] Hint Resolve wn_nonneg wn_uint : core.
Lemma wn_setField x s e y : 0 ≤ s ≤ e → e < wn_size x → wn_val y = 0 →
  let v := Z.ldiff (wn_val x) (Z.shiftl (Z.ones (e - s + 1)) (wn_size x - 1 - e)) in
  let r := wn (wn_size x) (Z.lor v (Z.shiftl (wrap (e - s + 1) (wn_val y)) (wn_size x - 1 - e))) in wn_size r = wn_size x ∧ wn_val r = v.
Proof.
  intros Hs He E. cbv zeta. rewrite E. unfold wrap. rewrite Z.mod_0_l, Z.shiftl_0_l, Z.lor_0_r by (apply Z.pow_nonzero; lia).
  by apply wn_small, uint_ldiff.
Qed.
Lemma wn_buffer x : wn_size x mod 32 = 0 → let l := reverse (rdigits 32 (Z.to_nat (wn_size x / 32)) (wn_val x)) in
  Z.of_nat (length l) = wn_size x / 32 ∧ digits 32 l ∧ beval 32 l = wn_val x.
Proof.
  intros E. cbv zeta. rewrite length_reverse, length_rdigits. pose proof (wn_nonneg x).
  assert (32 * Z.of_nat (Z.to_nat (wn_size x / 32)) = wn_size x) as E' by (rewrite Z2Nat.id by zlia; zlia).
  split_and!; [rewrite Z2Nat.id; [done|zlia]|apply Forall_reverse, digits_rdigits; lia|].
  apply beval_reverse_rdigits; [lia|]. rewrite E'. apply wn_uint.
Qed.
Lemma wn_set_buffer x l : wn_size x mod 32 = 0 → Z.of_nat (length l) = wn_size x / 32 → digits 32 l →
  wn_size (wn (wn_size x) (beval 32 l)) = wn_size x ∧ wn_val (wn (wn_size x) (beval 32 l)) = beval 32 l.
Proof.
  intros E Hl Hd. apply wn_small. pose proof (beval_bound 32 ltac:(lia) l Hd) as Hb.
  unfold uint. replace (wn_size x) with (32 * Z.of_nat (length l)) by zlia. exact Hb.
Qed.
#[export] Instance word_number_laws : RNumberLaws word_number.
Proof.
  refine {| rval := wn_val; rval_uint := wn_uint; rsize_nonneg := wn_nonneg; rn_spec := λ v w, wn_spec w v;
            rn_copy_spec := λ x w, wn_spec w (wn_val x); setField_zero := wn_setField; buffer_spec := wn_buffer; set_buffer_spec := wn_set_buffer |}.
  - abstract (intros x y E; by apply wn_small, uint_land).
  - abstract (intros x y E; apply wn_small, uint_lor; [done|done|cbn in E; by rewrite E]).
  - abstract (intros x y E; apply wn_small, uint_lxor; [done|done|cbn in E; by rewrite E]).
  - abstract (intros x; by apply wn_spec).
  - abstract (intros x n Hx; by apply wn_spec).
  - abstract (intros x n Hx; by apply wn_small, uint_shiftr).
  - abstract done.
  - abstract done.
  - abstract done.
  - abstract done.
  - abstract done.
Defined.

(** ** Numbers and their values *)

(** [num w x v]: [x] is the number [v] with [w] bits. *)
Definition num {T} `{RNumberLaws T} (w : Z) (x : T) (v : Z) : Prop := rsize x = w ∧ rval x = v.
(** The bits of [a] are bits of [b]. *)
Definition within (a b : Z) : Prop := Z.land a b = a.

Lemma within_bits a b : within a b ↔ ∀ i, 0 ≤ i → Z.testbit a i = true → Z.testbit b i = true.
Proof.
  unfold within. split.
  - intros E i _ Ha. rewrite <- E, Z.land_spec in Ha. by apply andb_prop in Ha as [_ ?].
  - intros Hb. apply Z.bits_inj'. intros i Hi. rewrite Z.land_spec. specialize (Hb i Hi).
    destruct (Z.testbit a i); [by rewrite Hb|done].
Qed.
Lemma within_refl a : within a a.
Proof. apply Z.land_diag. Qed.
Lemma within_0 a : within 0 a.
Proof. apply Z.land_0_l. Qed.
Lemma within_trans a b c : within a b → within b c → within a c.
Proof. rewrite !within_bits. auto. Qed.
Lemma within_antisym a b : within a b → within b a → a = b.
Proof. unfold within. intros E1 E2. by rewrite <- E1, Z.land_comm. Qed.
Lemma within_lor a b c : within a c → within b c → within (Z.lor a b) c.
Proof. rewrite !within_bits. intros Ha Hb i Hi. rewrite Z.lor_spec. intros [?|?]%orb_prop; auto. Qed.
Lemma within_lor_l a b c : within a b → within a (Z.lor b c).
Proof. rewrite !within_bits. intros Ha i Hi Hb. rewrite Z.lor_spec, Ha by done. done. Qed.
Lemma within_lor_r a b c : within a c → within a (Z.lor b c).
Proof. rewrite Z.lor_comm. apply within_lor_l. Qed.
Lemma within_land a b c : within a b → within a c → within a (Z.land b c).
Proof. rewrite !within_bits. intros Hb Hc i Hi Ha. by rewrite Z.land_spec, Hb, Hc. Qed.
Lemma within_shl w a b n : 0 ≤ w → 0 ≤ n → within a b → within (wrap w (Z.shiftl a n)) (wrap w (Z.shiftl b n)).
Proof.
  rewrite !within_bits. intros Hw Hn Hab i Hi. rewrite !testbit_wrap by done. intros [Hlt Ha]%andb_prop. rewrite Hlt.
  rewrite Z.shiftl_spec in * by done. destruct (Z.leb_spec 0 (i - n)); [|by rewrite Z.testbit_neg_r in Ha by lia].
  apply Hab; [lia|done].
Qed.
Create HintDb within.
#[export] Hint Resolve within_refl within_0 within_lor within_lor_l within_lor_r : within.

Section Numbers.
Context {T : Type} `{RNumberLaws T}.
Lemma num_uint w (x : T) v : num w x v → uint w v.
Proof. intros [<- <-]. apply rval_uint. Qed.
Lemma num_nonneg w (x : T) v : num w x v → 0 ≤ w.
Proof. intros [<- _]. apply rsize_nonneg. Qed.
Lemma num_self (x : T) : num (rsize x) x (rval x).
Proof. done. Qed.
Lemma num_rn w v : 0 ≤ w → num w (rn v w) (wrap w v).
Proof. apply rn_spec. Qed.
Lemma num_zero w : 0 ≤ w → num w (rn 0 w) 0.
Proof. intros Hw. replace 0 with (wrap w 0) at 2; [by apply num_rn|]. apply wrap_0. Qed.
Lemma num_copy w (x : T) w' v : 0 ≤ w' → num w x v → num w' (rn_copy x w') (wrap w' v).
Proof. intros Hw [_ <-]. by apply rn_copy_spec. Qed.
Lemma num_and w (x y : T) a b : num w x a → num w y b → num w (rand x y) (Z.land a b).
Proof. intros [Ex <-] [Ey <-]. destruct (rand_spec x y) as [E1 E2]; [congruence|]. split; congruence. Qed.
Lemma num_or w (x y : T) a b : num w x a → num w y b → num w (ror x y) (Z.lor a b).
Proof. intros [Ex <-] [Ey <-]. destruct (ror_spec x y) as [E1 E2]; [congruence|]. split; congruence. Qed.
Lemma num_xor w (x y : T) a b : num w x a → num w y b → num w (rxor x y) (Z.lxor a b).
Proof. intros [Ex <-] [Ey <-]. destruct (rxor_spec x y) as [E1 E2]; [congruence|]. split; congruence. Qed.
Lemma num_not w (x : T) a : num w x a → num w (rnot x) (unot w a).
Proof. intros [<- <-]. apply rnot_spec. Qed.
Lemma num_shl w (x : T) a n : 0 ≤ n → num w x a → num w (rshl x n) (wrap w (Z.shiftl a n)).
Proof. intros Hn [<- <-]. by apply rshl_spec. Qed.
Lemma num_shr w (x : T) a n : 0 ≤ n → num w x a → num w (rshr x n) (Z.shiftr a n).
Proof. intros Hn [<- <-]. by apply rshr_spec. Qed.
Lemma num_eq w (x y : T) a b : num w x a → num w y b → req x y = (a =? b).
Proof. intros [Ex <-] [Ey <-]. apply req_spec. congruence. Qed.
Lemma num_iszero w (x : T) a : num w x a → iszero x = (a =? 0).
Proof. intros [_ <-]. apply iszero_spec. Qed.
Lemma num_ones w : 0 ≤ w → num w (rnot (rn 0 w)) (Z.ones w).
Proof.
  intros Hw. replace (Z.ones w) with (unot w 0); [by apply num_not, num_zero|].
  apply Z.bits_inj'. intros i Hi. unfold unot. autorewrite with zbits. cbn.
  destruct (Z.leb_spec 0 i), (Z.ltb_spec i w); (done || lia).
Qed.
End Numbers.
Create HintDb nums.
#[export] Hint Resolve num_zero num_and num_or num_xor num_not num_ones : nums.

(** ** Opcodes lie in their masks *)

Section Opcodes.
Context {T : Type} `{RNumberLaws T} (endianness : bool) (w : Z) (Hw : 0 ≤ w < 2 ^ 31).
Local Abbreviation lo := (lo endianness).
Local Abbreviation hi := (hi endianness).

(** Ranges that lie inside of an encoding of [w] bits. *)
Definition pair_ok (b : BitPair) : Prop := 0 ≤ lo b w ≤ hi b w ∧ hi b w < w.
Definition field_ok (f : InstrField) : Prop := Forall pair_ok (bits f).
Definition pair_bits (b : BitPair) : Z := Z.shiftl (Z.ones (hi b w - lo b w + 1)) (w - 1 - hi b w).
Definition field_bits (f : InstrField) : Z := fold_right (λ b, Z.lor (pair_bits b)) 0 (bits f).

Lemma add_to_mask_step_spec x a b : pair_ok b → num w x a →
  num w (add_to_mask_step endianness w x b) (Z.lor a (pair_bits b)).
Proof.
  intros [Hlo Hhi] Hx. unfold add_to_mask_step.
  rewrite !(wrap_small 32) by (unfold uint; lia).
  pose proof (num_ones (T := T) w ltac:(lia)) as Ho.
  apply (num_shl _ _ _ (lo b w)), (num_shr _ _ _ (lo b w)) in Ho; [|lia..].
  apply (num_shr _ _ _ (w - hi b w - 1)), (num_shl _ _ _ (w - hi b w - 1)) in Ho; [|lia..].
  eapply num_or in Ho; [|exact Hx]. eassert (pair_bits b = _) as ->; [|exact Ho].
  unfold pair_bits. bitblast.
Qed.
Lemma add_to_mask_spec f : field_ok f → ∀ x a, num w x a →
  num w (add_to_mask endianness x f w) (Z.lor a (field_bits f)).
Proof.
  unfold field_ok, add_to_mask, field_bits. induction 1 as [|b l Hb Hl IH]; intros x a Hx; cbn [fold_left fold_right].
  - by rewrite Z.lor_0_r.
  - rewrite Z.lor_assoc. by apply IH, add_to_mask_step_spec.
Qed.

Lemma setValue_step_spec val x a b : pair_ok b → num w x a → ∃ v,
  num w (snd (setValue_step endianness w (val, x) b)) (Z.lor a v) ∧ within v (pair_bits b).
Proof.
  intros [Hlo Hhi] Hx. unfold setValue_step. cbn [snd].
  rewrite (wrap_small 32) by (unfold uint; lia).
  pose proof (num_ones (T := T) w ltac:(lia)) as Ho.
  apply (num_shl _ _ _ (hi b w - lo b w + 1)), num_not in Ho; [|lia].
  pose proof (num_rn (T := T) 64 val ltac:(lia)) as Hv. apply (num_copy _ _ w) in Hv; [|lia].
  rewrite (proj1 Ho).
  eapply num_and in Ho; [|exact Hv]. apply (num_shl _ _ _ (w - hi b w - 1)) in Ho; [|lia].
  eapply num_or in Ho; [|exact Hx]. eexists. split; [exact Ho|].
  unfold within, pair_bits, unot. bitblast.
Qed.
Lemma setValue_spec f val : field_ok f → ∃ v, num w (setValue endianness f val w) v ∧ within v (field_bits f).
Proof.
  intros Hf. unfold setValue. set (F := field_bits f).
  assert (Forall (λ b, pair_ok b ∧ within (pair_bits b) F) (reverse (bits f))) as Hb.
  { apply Forall_reverse. unfold F, field_bits. clear F. induction Hf as [|b l Hb Hl IH]; constructor; cbn [fold_right].
    - auto with within.
    - eapply Forall_impl; [exact IH|]. intros c [? ?]. auto with within. }
  enough (∀ x a v0, num w x a → within a F →
    ∃ v, num w (snd (fold_left (setValue_step endianness w) (reverse (bits f)) (v0, x))) v ∧ within v F) as Hgo.
  { apply (Hgo _ 0); [apply num_zero; lia|auto with within]. }
  induction Hb as [|b l [Hb Hw'] Hl IH]; intros x a v0 Hx Ha; cbn [fold_left].
  - by exists a.
  - destruct (setValue_step_spec v0 x a b Hb Hx) as (v & Hv & Hin).
    destruct (setValue_step endianness w (v0, x) b) as [v1 x1]. apply (IH x1 (Z.lor a v) v1); [done|].
    apply within_lor; [done|]. by eapply within_trans.
Qed.

(** [swap_words] moves bits. *)
Definition swapped (v : Z) : Z := beval 32 (rdigits 32 (Z.to_nat (w / 32)) v).
Lemma number_swap_words x v : w mod 32 = 0 → num w x v → num w (swap_words x) (swapped v).
Proof.
  intros Hm [Es Ev]. unfold swap_words. rewrite Es. rewrite <- Es in Hm. destruct (buffer_spec x Hm) as (Hl & Hd & He).
  rewrite Es in *. rewrite Hm, Hl. cbn [Z.eqb]. rewrite Ev in He. unfold swapped.
  rewrite <- He, <- Hl, Nat2Z.id, <- reverse_digits by (lia || done).
  destruct (Z.ltb_spec 1 (Z.of_nat (length (buffer x)))) as [Hlt|Hge].
  - destruct (set_buffer_spec x (reverse (buffer x))) as [E1 E2]; [by rewrite Es|by rewrite Es, length_reverse|by apply Forall_reverse|].
    split; congruence.
  - split; [done|]. rewrite Ev, <- He. by destruct (buffer x) as [|d [|]]; [| |cbn in Hge; lia].
Qed.
Lemma swapped_within a b : w mod 32 = 0 → within a b → within (swapped a) (swapped b).
Proof.
  intros Hm. rewrite !within_bits. intros Hab i Hi. unfold swapped.
  rewrite !beval_testbit by (lia || apply digits_rdigits; lia). rewrite !length_rdigits.
  intros [Hlt Ha]%andb_prop. rewrite Hlt. cbn. apply Z.ltb_lt in Hlt.
  rewrite lookup_rdigits in * by zlia. rewrite testbit_wrap, testbit_div in * by zlia.
  repeat (apply andb_prop in Ha as [? Ha]). repeat (apply andb_true_intro; split; [done|]). apply Hab; [zlia|done].
Qed.
Lemma swapped_uint v : w mod 32 = 0 → uint w (swapped v).
Proof.
  intros Hm. pose proof (beval_bound 32 ltac:(lia) _ (digits_rdigits 32 (Z.to_nat (w / 32)) v ltac:(lia))) as Hb.
  rewrite length_rdigits in Hb. by replace (32 * Z.of_nat (Z.to_nat (w / 32))) with w in Hb by zlia.
Qed.
(** The adjustment as a function on values. *)
Definition adjusted (i : Instr) (v : Z) : Z :=
  let v := if is_mixed_endian endianness i && negb (w =? 0) then wrap w (Z.shiftl v (wrap 32 (w - width (data i)))) else v in
  if is_little_endian (data i) then swapped v else v.
Lemma adjust_spec i x v : w mod 32 = 0 → num w x v → num w (adjustForLittleEndian endianness i x w true) (adjusted i v).
Proof.
  intros Hm Hx. unfold adjustForLittleEndian, adjusted. rewrite andb_true_r.
  assert (0 ≤ wrap 32 (w - width (data i))) by (apply uint_wrap; lia).
  destruct (is_mixed_endian _ _ && _), (is_little_endian _); auto using number_swap_words, num_shl.
Qed.
Lemma adjusted_within i a b : w mod 32 = 0 → within a b → within (adjusted i a) (adjusted i b).
Proof.
  intros Hm Hab. unfold adjusted. assert (0 ≤ wrap 32 (w - width (data i))) by (apply uint_wrap; lia).
  destruct (is_mixed_endian _ _ && _), (is_little_endian _); auto using swapped_within, within_shl with lia.
Qed.

(** *** The mask and the opcode of an instruction *)

Definition opc_bits (i : Instr) : Z := adjusted i (fold_left (λ a f, Z.lor a (field_bits (_field f))) (_opcs (data i)) 0).
Definition instr_ok (i : Instr) : Prop := shorthand i = false ∧ Forall (λ f, field_ok (_field f)) (_opcs (data i)).
Lemma get_opc_mask_spec i : w mod 32 = 0 → instr_ok i → num w (get_opc_mask endianness i w) (opc_bits i).
Proof.
  intros Hm [Hs Hf]. destruct i as [d []]; [|done]. cbn [get_opc_mask get_instr_mask get_alias]. unfold get_opc_mask. cbn [get_instr_mask get_alias].
  apply adjust_spec; [done|]. cbn [data] in *.
  pose proof (num_zero (T := T) w ltac:(lia)) as Hx. revert Hx. generalize (rn 0 w : T) at 1 2. generalize 0 at 1 2.
  induction Hf as [|f l Hf Hl IH]; intros a x Hx; cbn [fold_left]; [done|]. by apply IH, add_to_mask_spec.
Qed.
Lemma getOpcode_spec i : w mod 32 = 0 → instr_ok i → ∃ o, num w (getOpcode endianness i w true) o ∧ within o (opc_bits i).
Proof.
  intros Hm [Hs Hf]. destruct i as [d []]; [|done]. cbn [getOpcode get_alias data] in *. unfold opc_bits. cbn [data].
  enough (∀ x a b, num w x a → within a b → ∃ o,
    num w (fold_left (λ opcode f, ror opcode (setValue endianness (_field f) (_value f) w)) (_opcs d) x) o ∧
    within o (fold_left (λ a f, Z.lor a (field_bits (_field f))) (_opcs d) b)) as Hgo.
  { destruct (Hgo (rn 0 w) 0 0) as (o & Ho & Hin); [apply num_zero; lia|apply within_0|].
    exists (adjusted (MkInstr d NoAlias) o). split; [by apply adjust_spec|by apply adjusted_within]. }
  induction Hf as [|f l Hf Hl IH]; intros x a b Hx Hab; cbn [fold_left]; [by exists a|].
  destruct (setValue_spec (_field f) (_value f) Hf) as (v & Hv & Hin).
  apply (IH _ (Z.lor a v) (Z.lor b (field_bits (_field f)))); [by apply num_or|]. auto with within.
Qed.
End Opcodes.
