(* ===== verification/InstrTable.v ===== *)
(** * The decode tree

    [src/fe/InstrTable.C] and [src/fe/InstrTable.h]: the tree that the instructions
    of a core are sorted into, by the bits of their opcodes, and (from
    [src/iss/GenInstrs.C]) the decoder that a simulator gets from it: a switch
    statement per node.  A node that the code updates through a pointer is a
    value that is put back into its parent; the maps and sets are lists in the
    order of their keys.  [build_tree] calls itself on other masks and shorter
    lists; the fuel counts its calls. *)
From stdpp Require Import prelude strings.
From Stdlib Require Import ZArith Lia.
From S2P Require Import Prelude.
From S2P Require Import Encoding.

Local Open Scope Z_scope.

(** ** Errors and warnings *)

(** [MsgLog] collects warnings; a [decode_error] is an exception. *)
Definition mlog (A : Type) : Type := list string → outcome (A * list string).
Definition mret {A} (a : A) : mlog A := λ ml, Ret (a, ml).
Definition mthrow {A} (e : string) : mlog A := λ _, Throw e.
Definition mlift {A} (o : outcome A) : mlog A := λ ml, let! a := o in Ret (a, ml).
Definition mbind {A B} (m : mlog A) (k : A → mlog B) : mlog B := λ ml, let! r := m ml in k (fst r) (snd r).
Notation "'let^' x := m 'in' k" := (mbind m (λ x, k))
  (at level 10, x pattern, m at level 100, k at level 200) : adl_scope.

Section InstrTables.
Context {T : Type} `{RNumber T}.
Context (endianness strictMode : bool).

(** ** Nodes *)

Local Unset Elimination Schemes.
Inductive InstrTable : Type := Table {
  _width : Z;
  _word : Z;
  _mask : T;
  _shift : Z;
  _table : list (T * InstrTable);
  _default_table : option InstrTable;
  _default_conflict : bool;
  _instr : option Instr;
  _shorthands : list Instr
}.
Local Set Elimination Schemes.
Definition new_table (w : Z) : InstrTable :=
  {| _width := w; _word := 0; _mask := rn 0 w; _shift := 0; _table := []; _default_table := None;
     _default_conflict := false; _instr := None; _shorthands := [] |}.
(** The table of a core is made without a width, and with a number of the default
    width as its mask; the width is set later. *)
Definition root_table (zero : T) (w : Z) : InstrTable :=
  {| _width := w; _word := 0; _mask := zero; _shift := 0; _table := []; _default_table := None;
     _default_conflict := false; _instr := None; _shorthands := [] |}.
Definition set_word (t : InstrTable) (x : Z) : InstrTable :=
  Table (_width t) x (_mask t) (_shift t) (_table t) (_default_table t) (_default_conflict t) (_instr t) (_shorthands t).
Definition set_table (t : InstrTable) (x : list (T * InstrTable)) : InstrTable :=
  Table (_width t) (_word t) (_mask t) (_shift t) x (_default_table t) (_default_conflict t) (_instr t) (_shorthands t).
Definition set_default (t : InstrTable) (d : InstrTable) (c : bool) : InstrTable :=
  Table (_width t) (_word t) (_mask t) (_shift t) (_table t) (Some d) c (_instr t) (_shorthands t).
Definition set_instr (t : InstrTable) (i : Instr) : InstrTable :=
  Table (_width t) (_word t) (_mask t) (_shift t) (_table t) (_default_table t) (_default_conflict t) (Some i) (_shorthands t).
Definition add_shorthand (t : InstrTable) (i : Instr) : InstrTable :=
  Table (_width t) (_word t) (_mask t) (_shift t) (_table t) (_default_table t) (_default_conflict t) (_instr t) (_shorthands t ++ [i]).

(** ** Maps and sets of numbers, in their order *)

Fixpoint map_insert {A} (k : T) (x : A) (l : list (T * A)) : list (T * A) :=
  match l with
  | [] => [(k, x)]
  | (k', x') :: r => if req k k' then l else if rlt k k' then (k, x) :: l else (k', x') :: map_insert k x r
  end.
Fixpoint map_find {A} (k : T) (l : list (T * A)) : option A :=
  match l with [] => None | (k', x) :: r => if req k k' then Some x else map_find k r end.
Fixpoint map_update {A} (k : T) (x : A) (l : list (T * A)) : list (T * A) :=
  match l with [] => [] | (k', x') :: r => if req k k' then (k', x) :: r else (k', x') :: map_update k x r end.
Fixpoint set_add (k : T) (l : list T) : list T :=
  match l with
  | [] => [k]
  | k' :: r => if req k k' then l else if rlt k k' then k :: l else k' :: set_add k r
  end.

(** ** Masks *)

(** The position of the lowest bit, and the number of bits. *)
Fixpoint shift_from (n : nat) (mask : T) (i : Z) : Z :=
  match n with O => 0 | S n => if getBit mask (rsize mask - i - 1) then i else shift_from n mask (i + 1) end.
Definition get_shift (mask : T) : Z := shift_from (Z.to_nat (rsize mask)) mask 0.
Definition get_norm (mask : T) : Z :=
  for_up (Z.to_nat (rsize mask)) 0 (λ i ret, if getBit mask (rsize mask - Z.of_nat i - 1) then ret + 1 else ret) 0.
Definition legal_mask (mask : T) : bool := iszero (rshr mask (32 * (get_shift mask / 32) + 32)).
(** The first word, from a given one on, that has bits of the mask. *)
Fixpoint split_from (n : nat) (mask : T) (word : Z) : T :=
  match n with
  | O => mask
  | S n =>
      let l := 32 * word in
      let r := rsize mask - 32 * (word + 1) in
      let sub_mask := rshl (rshr (rshr (rshl mask l) l) r) r in
      if iszero sub_mask then split_from n mask (word + 1) else sub_mask
  end.
Definition split_mask (mask : T) (word : Z) : T := split_from (Z.to_nat (rsize mask / 32 - word)) mask word.

Definition get_common_instrs (val mask : T) (instrs : list Instr) : list Instr :=
  List.filter (λ i, req (rand (getOpcode endianness i (rsize mask) true) mask) val && negb (shorthand i)) instrs.
Definition get_values (mask : T) (instrs : list Instr) : list T :=
  fold_left (λ ret i, set_add (rand mask (getOpcode endianness i (rsize mask) true)) ret) instrs [].

(** ** Conflicts *)

Local Abbreviation opc_mask := (get_opc_mask endianness).
Local Abbreviation opcode i w := (getOpcode endianness i w true).

(** Two instructions whose masks do not fit. *)
Definition conflicting (i j : Instr) : bool :=
  let w := Z.max (width (data i)) (width (data j)) in
  let mi := opc_mask i w in
  let mj := opc_mask j w in
  let m := rand mi mj in
  iszero m || (req (rand (opcode i w) m) (rand (opcode j w) m) && (negb (req m mi) || negb (req m mj))).
Fixpoint find_conflict (instrs : list Instr) : option (Instr * Instr) :=
  match instrs with
  | [] => None
  | i :: r =>
      match List.find (conflicting i) r with
      | Some j => Some (i, j)
      | None => find_conflict r
      end
  end.
Definition newline : string := String (Ascii.ascii_of_nat 10) EmptyString.
Definition conflict_text (instrs : list Instr) : string :=
  match find_conflict instrs with
  | Some (i, j) => ("'" +:+ name (data i) +:+ "','" +:+ name (data j) +:+ "'." +:+ newline)%string
  | None =>
      ("Could not build decision tree based on these instructions:" +:+
       foldr (λ i s, " '" +:+ name (data i) +:+ "'" +:+ s) ("." +:+ newline) instrs)%string
  end.
Definition report_conflict (instrs : list Instr) (warning : bool) : mlog unit := λ ml,
  if warning && (match find_conflict instrs with Some _ => false | None => true end) then Ret (tt, ml)
  else if warning then
    Ret (tt, if strictMode then ml ++ [("Possible conflict between instructions:  " +:+ conflict_text instrs)%string] else ml)
  else Throw ("Conflict between instructions:  " +:+ conflict_text instrs)%string.

(** ** Sorting by the size of the mask *)

Definition max_mask (instrs : list Instr) (w : Z) : option Instr :=
  snd (fold_left (λ '(mask, ret) i, let m := opc_mask i w in
    if get_norm mask <=? get_norm m then (m, Some i) else (mask, ret)) instrs (rn 0 w, None)).
Fixpoint sort_from (n : nat) (instrs : list Instr) (w : Z) : list Instr :=
  match n, instrs with
  | S n, _ :: _ :: _ =>
      match max_mask instrs w with
      | Some head => head :: sort_from n (List.filter (λ i, negb (same_instr i head)) instrs) w
      | None => instrs
      end
  | _, _ => instrs
  end.
Definition sort_by_mask (instrs : list Instr) (w : Z) : list Instr := sort_from (length instrs) instrs w.

(** The masks of neighbours are nested, or equal with different opcodes. *)
Fixpoint overlap_loop (all l : list Instr) (w : Z) (signal_error : bool) : mlog bool :=
  match l with
  | i :: ((j :: _) as r) =>
      if match last all with Some b => same_instr i b | None => false end then overlap_loop all r w signal_error
      else
        let mi := opc_mask i w in
        let mj := opc_mask j w in
        if negb (req (ror mi mj) mi) || req mi mj then
          let m := rand mi mj in
          if negb (req m mj) then
            let^ _ := if signal_error then report_conflict all false else mret tt in mret false
          else if req (rand m (opcode i w)) (rand m (opcode j w)) then
            let^ _ := if signal_error then report_conflict [i; j] false else mret tt in mret false
          else overlap_loop all r w signal_error
        else overlap_loop all r w signal_error
  | _ => mret true
  end.
Definition check_overlap (instrs : list Instr) (w : Z) (signal_error : bool) : mlog bool :=
  if (length instrs =? 1)%nat then mret true
  else
    let^ ok := overlap_loop instrs instrs w signal_error in
    if ok then let^ _ := report_conflict instrs true in mret true else mret false.

(** ** Building the tree *)

Definition set_mask (t : InstrTable) (mask : T) : outcome InstrTable :=
  if negb (iszero (_mask t)) then Throw "Trying to set mask to already set node"%string
  else if negb (legal_mask mask) then Throw "Trying to set big mask."%string
  else if iszero mask then Ret t
  else Ret (Table (_width t) (_word t) mask (get_shift mask) (_table t) (_default_table t) (_default_conflict t) (_instr t) (_shorthands t)).
Definition add_node (t : InstrTable) (value : T) : InstrTable :=
  set_table t (map_insert (rand (_mask t) value) (new_table (_width t)) (_table t)).

Section Build.
(** The recursive calls of [build_tree], on a node, a list and the masks used. *)
Context (build : InstrTable → list Instr → T → T → mlog (bool * InstrTable)).

(** [_table[value]->build_tree(...)]: the node is there, or its pointer is null. *)
Definition build_child (t : InstrTable) (value : T) (instrs : list Instr) (used_mask used_conflict_mask : T) :
    mlog (bool * InstrTable) :=
  match map_find value (_table t) with
  | None => λ _, Undefined
  | Some c =>
      let^ r := build c instrs used_mask used_conflict_mask in
      mret (fst r, set_table t (map_update value (snd r) (_table t)))
  end.

Fixpoint add_values (t : InstrTable) (values : list T) (instrs : list Instr) (used_mask used_conflict_mask : T) :
    mlog (bool * InstrTable) :=
  match values with
  | [] => mret (true, t)
  | v :: values =>
      let t := add_node t v in
      let tmp := get_common_instrs v (_mask t) instrs in
      let^ r := build_child t v tmp (ror (_mask t) used_mask) used_conflict_mask in
      if fst r then add_values (snd r) values instrs used_mask used_conflict_mask else mret (false, snd r)
  end.
Definition add_to_tree (t : InstrTable) (values : list T) (instrs : list Instr) (mask used_mask used_conflict_mask : T) :
    mlog (bool * InstrTable) :=
  let^ t := mlift (set_mask t mask) in
  add_values t values instrs used_mask used_conflict_mask.

Definition add_conflict_sets (t : InstrTable) (normal conflict : list Instr) (default_conflict : bool)
    (cmask used_mask used_conflict_mask : T) : mlog (bool * InstrTable) :=
  let nvalues := get_values cmask normal in
  let^ r := add_to_tree t nvalues normal cmask used_mask used_conflict_mask in
  if fst r then
    let t := snd r in
    let^ d := build (new_table (_width t)) conflict used_mask (ror used_conflict_mask cmask) in
    mret (fst d, set_default t (snd d) default_conflict)
  else mret (false, snd r).

Definition try_with_conflicts (t : InstrTable) (instrs : list Instr) (cmask used_mask used_conflict_mask : T) :
    mlog (bool * InstrTable) :=
  let covered i := req (rand cmask (opc_mask i (_width t))) cmask in
  add_conflict_sets t (List.filter covered instrs) (List.filter (λ i, negb (covered i)) instrs) true cmask used_mask used_conflict_mask.

(** Returns false to go on with the next word. *)
Definition construct_tree_from_instrs (t : InstrTable) (instrs : list Instr) (used_mask used_conflict_mask : T) (at_end : bool) :
    mlog (bool * InstrTable) :=
  let tmp := sort_by_mask instrs (_width t) in
  let^ ok := check_overlap tmp (_width t) at_end in
  if ok then
    match last tmp with
    | None => λ _, Undefined
    | Some b =>
        let mask := split_mask (rxor used_mask (opc_mask b (_width t))) 0 in
        if negb (iszero mask) then
          let val := rand mask (opcode b (_width t)) in
          let^ t := mlift (set_mask t mask) in
          let t := add_node t (rand mask val) in
          let^ r := build_child t (rand mask val) tmp (ror (_mask t) used_mask) used_conflict_mask in
          mret (true, snd r)
        else
          let^ r := build t (take (length tmp - 1) tmp) used_mask used_conflict_mask in
          mret (true, snd r)
    end
  else mret (false, set_word t (_word t + 1)).

(** The common mask of neighbours, the bits that make a conflict, and whether an
    instruction allows it. *)
Fixpoint partition_loop (all l : list Instr) (w : Z) (s : T * T * bool) : T * T * bool :=
  match l with
  | i :: ((j :: _) as r) =>
      if match last all with Some b => same_instr i b | None => false end then partition_loop all r w s
      else
        let '(common_mask, conflict, allowed) := s in
        let allowed := allowed || instr_allow_conflict (data i) in
        let mi := opc_mask i w in
        let mj := opc_mask j w in
        let common_mask := rand (rand common_mask mi) mj in
        let conflict :=
          if iszero conflict && negb (req (ror mi mj) mi) then
            if negb (iszero (rand mi (rnot common_mask))) then rand mi (rnot common_mask) else rand mj (rnot common_mask)
          else conflict in
        partition_loop all r w (common_mask, conflict, allowed)
  | _ => s
  end.
Fixpoint partition_words (n : nat) (w : Z) (key : T) (t : InstrTable) (grp1 grp2 : list Instr)
    (conflict used_mask used_conflict_mask : T) : mlog (bool * InstrTable) :=
  match n with
  | O => mret (false, t)
  | S n =>
      match map_find key (_table t) with
      | None => λ _, Undefined
      | Some new_node =>
          let^ r := add_conflict_sets (set_word new_node w) grp1 grp2 false (split_mask conflict w) used_mask used_conflict_mask in
          let t := set_table t (map_update key (snd r) (_table t)) in
          if fst r then mret (true, t) else partition_words n (w + 1) key t grp1 grp2 conflict used_mask used_conflict_mask
      end
  end.
Definition try_conflict_partitioning (t : InstrTable) (instrs : list Instr) (used_mask used_conflict_mask : T) :
    mlog (bool * InstrTable) :=
  if (length instrs <=? 1)%nat then λ _, AssertFail
  else
    let w := _width t in
    let '(common_mask, conflict, conflicts_allowed) := partition_loop instrs instrs w (rnot (rn 0 w), rn 0 w, false) in
    if negb conflicts_allowed || iszero conflict then let^ _ := report_conflict instrs false in mret (false, t)
    else if iszero common_mask then
      match instrs with
      | i :: j :: _ => mthrow ("No common opcodes between instruction " +:+ name (data i) +:+ " and instruction " +:+ name (data j) +:+ ".")%string
      | _ => λ _, Undefined
      end
    else
      let in_conflict i := negb (iszero (rand (opc_mask i w) conflict)) in
      let grp1 := List.filter in_conflict instrs in
      let grp2 := List.filter (λ i, negb (in_conflict i)) instrs in
      match last grp1, grp2 with
      | Some b, _ :: _ =>
          let conflict := rand conflict (rnot common_mask) in
          let val := rand common_mask (opcode b w) in
          let common_mask := split_mask common_mask (_word t) in
          let^ t := mlift (set_mask t common_mask) in
          let key := rand common_mask val in
          partition_words (Z.to_nat (rsize conflict / 32)) 0 key (add_node t key) grp1 grp2 conflict
            (ror used_mask common_mask) (ror used_conflict_mask common_mask)
      | _, _ => λ _, AssertFail
      end.

(** One attempt, from the word of the node on; none where the words are used up. *)
Fixpoint word_loop (omask : T) (instrs : list Instr) (used_mask used_conflict_mask : T) (allow_conflict : bool) (n : nat)
    (t : InstrTable) : mlog (option bool * InstrTable) :=
  match n with
  | O => mret (None, t)
  | S n =>
      let w := _width t in
      let last_word := rsize omask / 32 <=? _word t + 1 in
      let at_end := last_word && allow_conflict in
      let mask := split_mask omask (_word t) in
      match instrs with
      | [instr] =>
          if iszero mask then mret (Some true, t)
          else
            let opc := opcode instr w in
            let^ t := mlift (set_mask t mask) in
            let t := add_node t (rand mask opc) in
            let both_masks := ror (_mask t) used_mask in
            let common := get_common_opc endianness instrs w in
            let result := rxor both_masks common in
            if iszero result then mret (Some true, t)
            else if iszero (rand common result) then λ _, AssertFail
            else
              let^ r := build_child t (rand mask opc) instrs (ror (_mask t) used_mask) used_conflict_mask in
              mret (Some true, snd r)
      | _ =>
          let values := get_values mask instrs in
          if (length values =? 1)%nat then
            let^ r :=
              if allow_conflict then
                let cmask := rand (get_conflict_mask endianness instrs w) (rnot used_conflict_mask) in
                if negb (iszero cmask) then
                  let^ r := try_with_conflicts t instrs cmask used_mask used_conflict_mask in
                  mret (Some (fst r), snd r)
                else
                  let^ r := try_conflict_partitioning t instrs used_mask used_conflict_mask in
                  mret (if fst r then Some true else None, snd r)
              else mret (None, t) in
            match fst r with
            | Some b => mret (Some b, snd r)
            | None =>
                let^ r := construct_tree_from_instrs (snd r) instrs used_mask used_conflict_mask at_end in
                if fst r then mret (Some true, snd r)
                else word_loop omask instrs used_mask used_conflict_mask allow_conflict n (snd r)
            end
          else
            let^ r := add_to_tree t values instrs mask used_mask used_conflict_mask in
            mret (Some (fst r), snd r)
      end
  end.
End Build.

(** First without, then with conflicts allowed. *)
Fixpoint build_tree (fuel : nat) (t : InstrTable) (instrs : list Instr) (used_mask used_conflict_mask : T) :
    mlog (bool * InstrTable) :=
  match fuel with
  | O => λ _, Undefined
  | S fuel =>
      let omask := rxor used_mask (get_common_opc endianness instrs (_width t)) in
      let attempt := word_loop (build_tree fuel) omask instrs used_mask used_conflict_mask in
      let words := Z.to_nat (rsize omask / 32) in
      let^ r := attempt false words (set_word t 0) in
      match fst r with
      | Some b => mret (b, snd r)
      | None =>
          let^ r := attempt true words (set_word (snd r) 0) in
          match fst r with
          | Some b => mret (b, snd r)
          | None => mret (false, snd r)
          end
      end
  end.

(** ** Adding the instructions *)

(** A node without children takes an instruction, and then the shorthands. *)
Definition add_to_leaf (t : InstrTable) (instr : Instr) : outcome InstrTable :=
  match _instr t with
  | Some old =>
      match get_alias instr with
      | Alias _ _ more => if (more =? 0)%nat then Ret (add_shorthand t instr) else Ret t
      | NoAlias => Throw (name (data instr) +:+ "Encountered a leaf-node in table already occupied by an instruction: " +:+
          name (data old) +:+ " (existing item).")%string
      end
  | None => Ret (set_instr t instr)
  end.
Fixpoint add_instr_internal (t : InstrTable) (instr : Instr) (used_bits : T) : outcome InstrTable :=
  let w := _width t in
  let opc := opcode instr w in
  let mask := opc_mask instr w in
  if iszero mask then Throw ("Instruction '" +:+ name (data instr) +:+ "' has no opcode fields.")%string
  else
    match _table t with
    | [] => add_to_leaf t instr
    | _ =>
        match _instr t, get_alias instr with
        | Some i, Alias target _ _ => if same_instr target i then Ret (add_shorthand t instr) else Ret t
        | _, _ =>
            let in_default :=
              match _default_table t with
              | Some d => let! d := add_instr_internal d instr used_bits in Ret (set_default t d (_default_conflict t))
              | None => Undefined
              end in
            let has_default := match _default_table t with Some _ => true | None => false end in
            let conflicts := negb (iszero (rand (_mask t) (conflict_mask endianness instr w))) in
            if negb (iszero (rand (_mask t) mask)) then
              if has_default && conflicts then in_default
              else
                let key := rand (_mask t) opc in
                let add_here := (fix add_here (l : list (T * InstrTable)) : option (outcome (list (T * InstrTable))) :=
                  match l with
                  | [] => None
                  | (k, c) :: r =>
                      if req key k then
                        Some (let! c := add_instr_internal c instr (ror used_bits (_mask t)) in Ret ((k, c) :: r))
                      else
                        match add_here r with
                        | Some o => Some (let! r := o in Ret ((k, c) :: r))
                        | None => None
                        end
                  end) in
                match add_here (_table t) with
                | Some o => let! l := o in Ret (set_table t l)
                | None =>
                    let! c := add_to_leaf (new_table w) instr in
                    Ret (set_table t (map_insert key c (_table t)))
                end
            else if has_default && _default_conflict t && conflicts then in_default
            else if has_default && negb (_default_conflict t) &&
                    ((match _default_table t with Some d => negb (iszero (rand (_mask d) mask)) | None => false end) ||
                     iszero (rand mask (rnot used_bits))) then in_default
            else Ret (set_instr t instr)
        end
    end.
Fixpoint add_instrs_internal (t : InstrTable) (instrs : list Instr) : outcome InstrTable :=
  match instrs with
  | [] => Ret t
  | i :: r => let! t := add_instr_internal t i (rn 0 (_width t)) in add_instrs_internal t r
  end.
Definition add_instrs (fuel : nat) (t : InstrTable) (instrs : list Instr) : mlog InstrTable :=
  let instructions := List.filter (λ i, negb (shorthand i)) instrs in
  let shorthands := List.filter (λ i, match get_alias i with Alias _ _ more => (more =? 0)%nat | NoAlias => false end) instrs in
  let zero := rn 0 (_width t) in
  let^ r := build_tree fuel t instructions zero zero in
  if fst r then
    let^ t := mlift (add_instrs_internal (snd r) instructions) in
    mlift (add_instrs_internal t shorthands)
  else mret (snd r).

(** ** Merging nodes of one word *)

Definition redundant (t : InstrTable) : bool :=
  match _instr t, _default_table t, _table t with
  | None, None, (_, c) :: _ =>
      let m := _mask c in
      if iszero m || negb (legal_mask (ror (_mask t) m)) then false
      else forallb (λ '(_, it), req (_mask it) m &&
        match _instr it, _default_table it with None, None => true | _, _ => false end) (_table t)
  | _, _, _ => false
  end.
Definition merge (t : InstrTable) : InstrTable :=
  match _table t with
  | [] => t
  | (_, next) :: _ =>
      let mask := ror (_mask t) (_mask next) in
      let new_hash := fold_left (λ h '(k, c), fold_left (λ h '(k', c'), map_insert (ror k' k) c' h) (_table c) h) (_table t) [] in
      Table (_width t) (_word t) mask (get_shift mask) new_hash (_default_table t) (_default_conflict t) (_instr t) (_shorthands t)
  end.
Fixpoint merge_loop (fuel : nat) (t : InstrTable) : outcome InstrTable :=
  if redundant t then match fuel with O => Undefined | S fuel => merge_loop fuel (merge t) end else Ret t.
(** Every merge takes away a level of the tree, so its height is enough fuel. *)
Fixpoint height (t : InstrTable) : nat :=
  S ((fix go (l : list (T * InstrTable)) : nat := match l with [] => O | (_, c) :: r => Nat.max (height c) (go r) end) (_table t)).
Fixpoint finalize (fuel : nat) (t : InstrTable) : outcome InstrTable :=
  match fuel with
  | O => Undefined
  | S fuel =>
      if iszero (_mask t) then Ret t
      else
        let! t := merge_loop fuel t in
        if negb (legal_mask (_mask t)) then Throw "Mask is not confined to one word."%string
        else
          let! l := (fix go (l : list (T * InstrTable)) : outcome (list (T * InstrTable)) :=
            match l with
            | [] => Ret []
            | (k, c) :: r => let! c := finalize fuel c in let! r := go r in Ret ((k, c) :: r)
            end) (_table t) in
          Ret (set_table t l)
  end.

(** ** The table of a core *)

(** [Core::build_instrtables]: the encodings are as wide as the widest one, in
    words; [Core::finalize] then merges nodes. *)
Definition table_width (max_instr_width : Z) (instrs : list Instr) : Z :=
  let max := fold_left (λ m i, if m <? width (data i) then width (data i) else m) instrs 0 in
  let max := if max =? 0 then max_instr_width else max in
  wrap 32 (wrap 32 (wrap 32 (max - 1) / 32 + 1) * 32).
Definition build_instrtable (fuel : nat) (table : string) (zero : T) (max_instr_width : Z) (instrs : list Instr) :
    mlog InstrTable := λ ml,
  match add_instrs fuel (root_table zero (table_width max_instr_width instrs)) instrs ml with
  | Throw e => Throw ("Instruction table " +:+ table +:+ ":  " +:+ e)%string
  | o => o
  end.
Definition finalize_table (t : InstrTable) : outcome InstrTable := finalize (height t) t.

(** ** The generated decoder *)

(** The part of a mask that is not zero, as a word, and the index of the word. *)
Fixpoint submask_loop (n : nat) (mask : T) : Z :=
  match n with
  | O => 0
  | S n => if iszero mask then 0 else if 0 <? ruint32 mask then ruint32 mask else submask_loop n (rshr mask 32)
  end.
Definition get_submask (mask : T) : Z := submask_loop (Z.to_nat (rsize mask / 32 + 1)) mask.
Fixpoint index_loop (n : nat) (sz ret : Z) (mask : T) : Z :=
  match n with
  | O => ret
  | S n => if iszero mask then ret else if 0 <? ruint32 mask then sz - ret else index_loop n sz (ret + 1) (rshr mask 32)
  end.
Definition get_index (mask : T) : Z := index_loop (Z.to_nat (rsize mask / 32 + 1)) (rsize mask / 32 - 1) 0 mask.
(** The number of words that the test of a node needs. *)
Fixpoint fetch_loop (n : nat) (i : Z) (mask : T) : Z :=
  match n with
  | O => 0
  | S n => if negb (ruint32 (rshr mask (i * 32)) =? 0) then rsize mask / 32 - i else fetch_loop n (i + 1) mask
  end.
Definition required_fetch (mask : T) : Z := fetch_loop (Z.to_nat (rsize mask / 32)) 0 mask.

(** The switch statements, on the words of an encoding; no instruction where the
    decoder reports a miss. *)
Fixpoint decode (t : InstrTable) (fetch : list Z) : option Instr :=
  match _table t with
  | [] => _instr t
  | _ =>
      let ind := get_index (_mask t) in
      let x := Z.land (fetch !!! Z.to_nat ind) (get_submask (_mask t)) in
      (fix cases (l : list (T * InstrTable)) : option Instr :=
        match l with
        | [] => match _default_table t with Some d => decode d fetch | None => _instr t end
        | (k, c) :: r =>
            if x =? ruint32 (rshr k (_width c - 32 * (ind + 1))) then decode c fetch else cases r
        end) (_table t)
  end.
End InstrTables.
