(* ===== verification/InstrTableCorrect.v ===== *)
(** * Correctness of the decode tree

    What [build_tree], [add_instrs] and [finalize] of InstrTable.v make of
    instructions without conflict flags: a tree ([shape]) whose decoder gives the
    instruction of an encoding.  The tree is described by the bits tested on the
    way to a node; every instruction below it agrees on them. *)
From stdpp Require Import prelude strings.
From Stdlib Require Import ZArith Lia Btauto Sorting.Sorted.
From S2P Require Import Prelude.
From S2P Require Import Encoding.
From S2P Require Import InstrTable.

Local Open Scope Z_scope.

Lemma filter_lt {A} (f g : A → bool) l x : (∀ y, f y = true → g y = true) → In x l → g x = true → f x = false →
  (length (List.filter f l) < length (List.filter g l))%nat.
Proof.
  intros Hfg. assert (∀ l, length (List.filter f l) ≤ length (List.filter g l))%nat as Hle.
  { induction l0 as [|y l0 IH]; cbn; [done|]. destruct (f y) eqn:E; [rewrite (Hfg y E); cbn; lia|]. destruct (g y); cbn; lia. }
  induction l as [|y l IH]; [done|]. intros [->|Hx] Hg Hf; cbn.
  - rewrite Hf, Hg. cbn. specialize (Hle l). lia.
  - specialize (IH Hx Hg Hf). destruct (f y) eqn:E; [rewrite (Hfg y E); cbn; lia|]. destruct (g y); cbn; lia.
Qed.

(** ** Masks of one word *)

Definition one_word (m : Z) : Prop := ∃ q, 0 ≤ q ∧ ∀ i, 0 ≤ i → Z.testbit m i = true → 32 * q ≤ i < 32 * q + 32.
Lemma one_word_within a b : within a b → one_word b → one_word a.
Proof. intros Hab (q & Hq & Hb). exists q. split; [done|]. intros i Hi Ha. apply Hb; [done|]. by apply (within_bits a b). Qed.

Lemma nonzero_bit a : 0 ≤ a → a ≠ 0 → ∃ i, 0 ≤ i ∧ Z.testbit a i = true.
Proof. intros Ha H0. exists (Z.log2 a). split; [apply Z.log2_nonneg|]. apply Z.bit_log2. lia. Qed.

Section Masks.
Context {T : Type} `{RNumberLaws T} (W : Z) (HW : 0 < W < 2 ^ 31) (Hm : W mod 32 = 0).

(** *** [split_mask] *)

(** The part of a number in a word, counted from the left. *)
Definition word_part (a word : Z) : Z := Z.land a (Z.shiftl (Z.ones 32) (W - 32 * (word + 1))).
Fixpoint split_value (n : nat) (a word : Z) : Z :=
  match n with
  | 0%nat => a
  | S n => if word_part a word =? 0 then split_value n a (word + 1) else word_part a word
  end.
Lemma split_from_num x a n word : num W x a → 0 ≤ word → word + Z.of_nat n = W / 32 → num W (split_from n x word) (split_value n a word).
Proof.
  intros Hx. revert word. induction n as [|n IH]; intros word Hw Hn; cbn [split_from split_value]; [done|].
  assert (0 ≤ word < W / 32) as Hr by lia. rewrite (proj1 Hx).
  pose proof Hx as Hs. apply (num_shl _ _ _ (32 * word)), (num_shr _ _ _ (32 * word)) in Hs; [|lia..].
  apply (num_shr _ _ _ (W - 32 * (word + 1))), (num_shl _ _ _ (W - 32 * (word + 1))) in Hs; [|zlia..].
  match type of Hs with num _ _ ?v => assert (v = word_part a word) as Es; [|rewrite Es in Hs] end.
  { unfold word_part. pose proof (num_uint _ _ _ Hx). assert (32 * (word + 1) ≤ W) by zlia. bitblast. }
  rewrite (num_iszero _ _ _ Hs). destruct (word_part a word =? 0); [apply IH; lia|done].
Qed.
Lemma split_value_spec a n word : word + Z.of_nat n = W / 32 →
  let s := split_value n a word in
  s = a ∧ (∀ k, word ≤ k < W / 32 → word_part a k = 0) ∨ ∃ k, word ≤ k < W / 32 ∧ s = word_part a k ∧ s ≠ 0.
Proof.
  revert word. induction n as [|n IH]; intros word Hn; cbn [split_value].
  - left. split; [done|]. lia.
  - destruct (Z.eqb_spec (word_part a word) 0) as [E|E].
    + destruct (IH (word + 1)) as [[Es Hz]|(k & Hk & Es & Hk0)]; [lia|left|right].
      * split; [done|]. intros k Hk. destruct (Z.eq_dec k word) as [->|]; [done|]. apply Hz. lia.
      * exists k. split; [lia|done].
    + right. exists word. by split; [lia|].
Qed.
Lemma word_part_within a k : within (word_part a k) a.
Proof. apply within_bits. intros i Hi. unfold word_part. rewrite Z.land_spec. by intros [? _]%andb_prop. Qed.
Lemma word_part_one_word a k : 0 ≤ k < W / 32 → one_word (word_part a k).
Proof.
  intros Hk. exists (W / 32 - 1 - k). split; [lia|]. intros i Hi. unfold word_part.
  rewrite Z.land_spec, Z.shiftl_spec by done. intros [_ Hb]%andb_prop.
  rewrite testbit_ones in Hb by lia. apply andb_prop in Hb as [Hb1%Z.leb_le Hb2%Z.ltb_lt]. zlia.
Qed.
Lemma all_parts_zero a : uint W a → (∀ k, 0 ≤ k < W / 32 → word_part a k = 0) → a = 0.
Proof.
  intros Ha Hz. destruct (Z.eq_dec a 0) as [|Hn]; [done|]. destruct (nonzero_bit a) as (i & Hi & Hb); [unfold uint in Ha; lia|done|].
  assert (i < W) as Hlt. { apply Z.nle_gt. intros ?. by rewrite (testbit_high W) in Hb by (done || lia). }
  assert (0 ≤ W / 32 - 1 - i / 32 < W / 32) as Hk by zlia.
  specialize (Hz _ Hk). apply (f_equal (λ z, Z.testbit z i)) in Hz. unfold word_part in Hz.
  rewrite Z.land_spec, Z.shiftl_spec, Hb, Z.testbit_0_l, testbit_ones in Hz by (done || lia).
  apply andb_false_iff in Hz as [?|Hz]; [done|]. apply andb_false_iff in Hz as [Hz%Z.leb_gt|Hz%Z.ltb_ge]; zlia.
Qed.
(** The first part, from a word on, that is not zero; from the first word on it is
    one word. *)
Definition first_part (a word : Z) : Z := split_value (Z.to_nat (W / 32 - word)) a word.
Lemma split_mask_num x a word : num W x a → 0 ≤ word < W / 32 → num W (split_mask x word) (first_part a word).
Proof. intros Hx Hw. unfold split_mask. rewrite (proj1 Hx). apply split_from_num; [done|lia|lia]. Qed.
Lemma first_part_within a word : 0 ≤ word < W / 32 → within (first_part a word) a ∧ (first_part a word = 0 → a = 0).
Proof.
  intros Hw. unfold first_part. destruct (split_value_spec a (Z.to_nat (W / 32 - word)) word) as [[-> _]|(k & Hk & -> & Hk0)]; [lia| |];
    (split; [|done]); [apply within_refl|apply word_part_within].
Qed.
Lemma first_part_one_word a : uint W a → one_word (first_part a 0).
Proof.
  intros Ha. unfold first_part. destruct (split_value_spec a (Z.to_nat (W / 32 - 0)) 0) as [[-> Hz]|(k & Hk & -> & Hk0)]; [zlia| |].
  - apply all_parts_zero in Hz as ->; [|done]. exists 0. split; [lia|]. intros i _. by rewrite Z.testbit_0_l.
  - by apply word_part_one_word.
Qed.

Lemma first_part_32 a : W = 32 → uint W a → first_part a 0 = a.
Proof.
  intros E Ha. unfold first_part. rewrite E. change (Z.to_nat (32 / 32 - 0)) with 1%nat. cbn [split_value].
  assert (word_part a 0 = a) as ->; [|by destruct (a =? 0)]. unfold word_part. rewrite E in *. replace (32 - 32 * (0 + 1)) with 0 by done. rewrite Z.shiftl_0_r.
  apply Z.bits_inj'. intros i Hi. rewrite Z.land_spec, testbit_ones by lia.
  destruct (Z.ltb_spec i 32).
  - by rewrite (proj2 (Z.leb_le 0 i)), andb_true_r by lia.
  - by rewrite (testbit_high 32 a) by (lia || done).
Qed.

(** *** [legal_mask] *)

Lemma shift_from_spec x a n i : num W x a → 0 ≤ i → i + Z.of_nat n = W → (∀ k, 0 ≤ k < i → Z.testbit a k = false) →
  let s := shift_from n x i in
  (∀ k, 0 ≤ k < s → Z.testbit a k = false) ∧ 0 ≤ s ∧ (a ≠ 0 → Z.testbit a s = true).
Proof.
  intros Hx. revert i. induction n as [|n IH]; intros i Hi Hn Hl; cbn [shift_from].
  - split_and!; [lia|lia|]. intros Ha. pose proof (num_uint _ _ _ Hx) as Hu.
    destruct (nonzero_bit a) as (k & Hk & Hb); [unfold uint in Hu; lia|done|].
    destruct (Z_lt_le_dec k W); [by rewrite Hl in Hb by lia|]. by rewrite (testbit_high W) in Hb by (done || lia).
  - destruct Hx as [Es Ev]. rewrite getBit_spec, Es, Ev by lia. replace (W - 1 - (W - i - 1)) with i by lia.
    destruct (Z.testbit a i) eqn:E.
    + by split_and!.
    + apply IH; [lia..|]. intros k Hk. destruct (Z.eq_dec k i) as [->|]; [done|]. apply Hl. lia.
Qed.
Lemma legal_mask_spec x a : num W x a → legal_mask x = true ↔ one_word a.
Proof.
  intros Hx. unfold legal_mask, get_shift. rewrite (proj1 Hx).
  destruct (shift_from_spec x a (Z.to_nat W) 0 Hx) as (Hl & Hs & Ht); [lia..|].
  set (s := shift_from _ _ _) in *. rewrite (num_iszero _ _ _ (num_shr _ _ _ (32 * (s / 32) + 32) ltac:(zlia) Hx)).
  rewrite Z.eqb_eq. pose proof (num_uint _ _ _ Hx) as Hu. split.
  - intros E. exists (s / 32). split; [zlia|]. intros i Hi Hb. split.
    + destruct (Z_lt_le_dec i s); [by rewrite Hl in Hb by lia|zlia].
    + apply Z.nle_gt. intros Hle. apply (f_equal (λ z, Z.testbit z (i - (32 * (s / 32) + 32)))) in E.
      rewrite Z.shiftr_spec, Z.testbit_0_l in E by lia. by replace (i - _ + _) with i in E by lia; rewrite Hb in E.
  - intros (q & Hq & Hb). destruct (Z.eq_dec a 0) as [->|Ha]; [apply Z.shiftr_0_l|].
    specialize (Ht Ha). apply Hb in Ht; [|done]. apply Z.bits_inj'. intros i Hi. rewrite Z.shiftr_spec, Z.testbit_0_l by done.
    destruct (Z.testbit a _) eqn:E; [|done]. apply Hb in E; zlia.
Qed.
End Masks.

(** ** The test of a node *)

Section Test.
Context {T : Type} `{RNumberLaws T} (W : Z) (HW : 0 < W < 2 ^ 31) (Hm : W mod 32 = 0).

Definition in_word (q m : Z) : Prop := ∀ i, 0 ≤ i → Z.testbit m i = true → 32 * q ≤ i < 32 * q + 32.
Lemma in_word_shift q m : 0 ≤ q → in_word (q + 1) m → in_word q (Z.shiftr m 32).
Proof. intros Hq Hin i Hi. rewrite Z.shiftr_spec by done. intros Hb%Hin; lia. Qed.
Lemma in_word_low q m : 0 ≤ q → in_word q m → uint W m → wrap 32 m = if q =? 0 then m else 0.
Proof.
  intros Hq Hin Hu. apply Z.bits_inj'. intros i Hi. rewrite testbit_wrap by lia.
  destruct (Z.testbit m i) eqn:E.
  - specialize (Hin i Hi E). destruct (Z.eqb_spec q 0), (Z.ltb_spec i 32); rewrite ?Z.testbit_0_l, ?E; (done || lia).
  - rewrite andb_false_r. by destruct (q =? 0); rewrite ?Z.testbit_0_l.
Qed.
Lemma shiftr_nonzero q m : 0 ≤ q → in_word (q + 1) m → m ≠ 0 → 0 ≤ m → Z.shiftr m 32 ≠ 0.
Proof.
  intros Hq Hin Hn Hge E. destruct (nonzero_bit m Hge Hn) as (i & Hi & Hb). pose proof (Hin i Hi Hb).
  apply (f_equal (λ z, Z.testbit z (i - 32))) in E. rewrite Z.shiftr_spec, Z.testbit_0_l in E by lia.
  by replace (i - 32 + 32) with i in E by lia; rewrite Hb in E.
Qed.
Lemma test_loops n q x m sz ret : num W x m → 0 ≤ q → in_word q m → m ≠ 0 → q < Z.of_nat n →
  submask_loop n x = Z.shiftr m (32 * q) ∧ index_loop n sz ret x = sz - (ret + q).
Proof.
  revert q x m ret. induction n as [|n IH]; intros q x m ret Hx Hq Hin Hn Hlt; [lia|]. cbn [submask_loop index_loop].
  pose proof (num_uint _ _ _ Hx) as Hu. pose proof (proj2 Hx) as Ev.
  rewrite (num_iszero _ _ _ Hx), (proj2 (Z.eqb_neq m 0) Hn), ruint32_spec, Ev, (in_word_low q) by done.
  destruct (Z.eqb_spec q 0) as [->|Hq0].
  - rewrite (proj2 (Z.ltb_lt 0 m)) by (unfold uint in Hu; lia). by rewrite Z.mul_0_r, Z.shiftr_0_r, Z.add_0_r.
  - cbn [Z.ltb Z.compare]. replace q with (q - 1 + 1) in Hin by lia.
    destruct (IH (q - 1) (rshr x 32) (Z.shiftr m 32) (ret + 1)) as [E1 E2].
    + by apply num_shr; [lia|].
    + lia.
    + by apply in_word_shift; [lia|].
    + apply (shiftr_nonzero (q - 1)); [lia|done|done|unfold uint in Hu; lia].
    + lia.
    + rewrite E1, E2, Z.shiftr_shiftr by lia. split; [f_equal; lia|lia].
Qed.
Lemma in_word_bound q m : in_word q m → 0 ≤ q → m ≠ 0 → uint W m → q < W / 32.
Proof.
  intros Hin Hq Hn Hu. destruct (nonzero_bit m) as (i & Hi & Hb); [unfold uint in Hu; lia|done|].
  pose proof (Hin i Hi Hb). assert (i < W); [|zlia].
  apply Z.nle_gt. intros ?. by rewrite (testbit_high W) in Hb by (done || lia).
Qed.
(** The words that are fetched for a test are those up to the one it looks at. *)
Lemma fetch_covers x m : num W x m → m ≠ 0 → one_word m → required_fetch x = get_index x + 1.
Proof.
  intros Hx Hn (q & Hq & Hin). pose proof (num_uint _ _ _ Hx) as Hu. pose proof (in_word_bound q m Hin Hq Hn Hu) as Hlt.
  unfold get_index, required_fetch. rewrite !(proj1 Hx).
  destruct (test_loops (Z.to_nat (W / 32 + 1)) q x m (W / 32 - 1) 0) as [_ ->]; [done..|lia|].
  enough (∀ n i, 0 ≤ i ≤ q → i + Z.of_nat n = W / 32 → fetch_loop n i x = W / 32 - q) as E by (rewrite E; lia).
  induction n as [|n IH]; intros i Hi Hs; [lia|]. cbn [fetch_loop].
  destruct (num_shr _ _ _ (i * 32) ltac:(lia) Hx) as [Es Ev]. rewrite ruint32_spec, Ev, (proj1 Hx).
  assert (in_word (q - i) (Z.shiftr m (i * 32))) as Hin'.
  { intros k Hk. rewrite Z.shiftr_spec by done. intros Hb%Hin; lia. }
  rewrite (in_word_low (q - i)) by (lia || done || (apply uint_shiftr; (lia || done))).
  destruct (Z.eqb_spec (q - i) 0) as [Eq|Eq].
  - assert (i = q) as -> by lia. destruct (nonzero_bit m) as (k & Hk & Hb); [unfold uint in Hu; lia|done|].
    assert (Z.shiftr m (q * 32) ≠ 0) as Hne.
    { intros E. apply (f_equal (λ z, Z.testbit z (k - q * 32))) in E. specialize (Hin k Hk Hb).
      rewrite Z.shiftr_spec, Z.testbit_0_l in E by lia. by replace (k - q * 32 + q * 32) with k in E by lia; rewrite Hb in E. }
    by rewrite (proj2 (Z.eqb_neq _ 0) Hne).
  - cbn [Z.eqb negb]. apply IH; lia.
Qed.
(** A case of the switch statement is taken where the masked encodings are equal. *)
Lemma case_test x m k v fetch : num W x m → m ≠ 0 → one_word m → num W k v → within v m →
  Z.of_nat (length fetch) = W / 32 → digits 32 fetch →
  (Z.land (fetch !!! Z.to_nat (get_index x)) (get_submask x) =? ruint32 (rshr k (W - 32 * (get_index x + 1)))) =
  (Z.land (beval 32 fetch) m =? v).
Proof.
  intros Hx Hn (q & Hq & Hin) Hk Hv Hl Hd. pose proof (num_uint _ _ _ Hx) as Hu. pose proof (in_word_bound q m Hin Hq Hn Hu) as Hlt.
  unfold get_index, get_submask. rewrite !(proj1 Hx).
  destruct (test_loops (Z.to_nat (W / 32 + 1)) q x m (W / 32 - 1) 0) as [-> ->]; [done..|lia|].
  replace (W - 32 * (W / 32 - 1 - (0 + q) + 1)) with (32 * q) by zlia.
  destruct (num_shr _ _ _ (32 * q) ltac:(lia) Hk) as [Es Ev]. rewrite ruint32_spec, Ev.
  assert (∀ z, within z m → ∀ i, 0 ≤ i → Z.testbit z i = (32 * q <=? i) && (i <? 32 * q + 32) && Z.testbit z i) as Hz.
  { intros z Hzm i Hi. destruct (Z.testbit z i) eqn:E; [|by rewrite andb_false_r].
    pose proof (proj1 (within_bits _ _) Hzm i Hi E) as Hb. apply Hin in Hb as [Hb1%Z.leb_le Hb2%Z.ltb_lt]; [|done]. by rewrite Hb1, Hb2. }
  set (e := fetch !!! _). assert (∀ i, 0 ≤ i < 32 → Z.testbit e i = Z.testbit (beval 32 fetch) (32 * q + i)) as He.
  { intros i Hi. unfold e. rewrite <- (beval_testbit_digit 32) by (lia || done). f_equal. lia. }
  apply eq_true_iff_eq. rewrite !Z.eqb_eq. split; intros E.
  - apply Z.bits_inj'. intros i Hi. rewrite Z.land_spec, (Hz m), (Hz v) by (done || apply within_refl).
    destruct (Z.leb_spec (32 * q) i), (Z.ltb_spec i (32 * q + 32)); cbn; rewrite ?andb_false_r; try done.
    apply (f_equal (λ z, Z.testbit z (i - 32 * q))) in E.
    rewrite Z.land_spec, testbit_wrap, !Z.shiftr_spec, He in E by lia.
    replace (i - 32 * q + 32 * q) with i in E by lia. replace (32 * q + (i - 32 * q)) with i in E by lia.
    by rewrite (proj2 (Z.ltb_lt (i - 32 * q) 32)) in E by lia.
  - apply Z.bits_inj'. intros i Hi. rewrite Z.land_spec, testbit_wrap, !Z.shiftr_spec by lia.
    destruct (Z.ltb_spec i 32).
    + rewrite He, <- E, Z.land_spec by lia. by rewrite (Z.add_comm (32 * q)).
    + rewrite (Hz m) by (lia || apply within_refl). rewrite (proj2 (Z.ltb_ge (i + 32 * q) _)) by lia.
      by rewrite andb_false_r, andb_false_r.
Qed.
End Test.

(** ** Maps and sets *)

Section Maps.
Context {T : Type} `{RNumberLaws T} {A : Type} (W : Z).
Implicit Types (l : list (T * A)).

Definition sized l : Prop := Forall (λ p, rsize (fst p) = W) l.
Definition fresh (v : Z) l : Prop := Forall (λ p, rval (fst p) ≠ v) l.
Definition distinct l : Prop := NoDup ((λ p, rval (fst p)) <$> l).

Lemma map_insert_elem k v x l : num W k v → sized l → fresh v l → ∀ p, p ∈ map_insert k x l ↔ p = (k, x) ∨ p ∈ l.
Proof.
  intros Hk Hs Hf p. induction l as [|[k' x'] l IH]; cbn [map_insert].
  - rewrite list_elem_of_singleton, elem_of_nil. tauto.
  - inversion_clear Hs as [|?? Hk' Hs']. inversion_clear Hf as [|?? Hv Hf']. cbn in Hk', Hv.
    rewrite (num_eq W _ _ _ _ Hk (conj Hk' eq_refl)), (proj2 (Z.eqb_neq _ _)) by congruence.
    destruct (rlt k k'); rewrite ?elem_of_cons; [done|]. rewrite (IH Hs' Hf'). tauto.
Qed.
Lemma map_insert_ok k v x l : num W k v → sized l → distinct l → fresh v l → sized (map_insert k x l) ∧ distinct (map_insert k x l).
Proof.
  intros Hk Hs Hd Hf. split.
  - apply Forall_forall. intros p [->|Hp]%(map_insert_elem k v x l Hk Hs Hf); [apply Hk|].
    by apply (proj1 (Forall_forall _ _) Hs).
  - unfold distinct. induction l as [|[k' x'] l IH]; cbn [map_insert].
    + apply NoDup_singleton.
    + inversion_clear Hs as [|?? Hk' Hs']. inversion_clear Hf as [|?? Hv Hf']. cbn in Hk', Hv. inversion_clear Hd as [|?? Hn Hd'].
      rewrite (num_eq W _ _ _ _ Hk (conj Hk' eq_refl)), (proj2 (Z.eqb_neq _ _)) by congruence.
      assert (∀ q l', fresh v l' → rval q = v → rval q ∉ ((λ p : T * A, rval (fst p)) <$> l')) as Hnew.
      { intros q l' Hf'' E (p & Ep & Hp)%list_elem_of_fmap. rewrite E in Ep. by apply (proj1 (Forall_forall _ _) Hf'' p Hp). }
      destruct (rlt k k'); cbn [fmap list_fmap fst].
      * constructor; [|by constructor]. apply (Hnew k ((k', x') :: l)); [by constructor|apply Hk].
      * constructor; [|by apply IH]. intros (p & Ep & Hp)%list_elem_of_fmap.
        apply (map_insert_elem k v x l Hk Hs' Hf') in Hp as [->|Hp]; [cbn in Ep; rewrite (proj2 Hk) in Ep; congruence|].
        apply Hn, list_elem_of_fmap. by exists p.
Qed.
Lemma map_find_insert k k' v x l : num W k v → num W k' v → sized l → fresh v l → map_find k' (map_insert k x l) = Some x.
Proof.
  intros Hk Hk' Hs Hf. induction l as [|[k2 x2] l IH]; cbn [map_insert map_find].
  - by rewrite (num_eq W _ _ _ _ Hk' Hk), Z.eqb_refl.
  - inversion_clear Hs as [|?? Hk2 Hs']. inversion_clear Hf as [|?? Hv Hf']. cbn in Hk2, Hv.
    rewrite (num_eq W _ _ _ _ Hk (conj Hk2 eq_refl)), (proj2 (Z.eqb_neq _ _)) by congruence.
    destruct (rlt k k2); cbn [map_find].
    + by rewrite (num_eq W _ _ _ _ Hk' Hk), Z.eqb_refl.
    + rewrite (num_eq W _ _ _ _ Hk' (conj Hk2 eq_refl)), (proj2 (Z.eqb_neq _ _)) by congruence. auto.
Qed.
Lemma map_update_insert k k' v x y l : num W k v → num W k' v → sized l → fresh v l →
  map_update k' y (map_insert k x l) = map_insert k y l.
Proof.
  intros Hk Hk' Hs Hf. induction l as [|[k2 x2] l IH]; cbn [map_insert map_update].
  - by rewrite (num_eq W _ _ _ _ Hk' Hk), Z.eqb_refl.
  - inversion_clear Hs as [|?? Hk2 Hs']. inversion_clear Hf as [|?? Hv Hf']. cbn in Hk2, Hv.
    rewrite (num_eq W _ _ _ _ Hk (conj Hk2 eq_refl)), (proj2 (Z.eqb_neq _ _)) by congruence.
    destruct (rlt k k2); cbn [map_update].
    + by rewrite (num_eq W _ _ _ _ Hk' Hk), Z.eqb_refl.
    + rewrite (num_eq W _ _ _ _ Hk' (conj Hk2 eq_refl)), (proj2 (Z.eqb_neq _ _)) by congruence. f_equal. auto.
Qed.
(** A list of pairs with different keys, inserted one after the other. *)
Lemma map_insert_all l h : sized l → distinct (l ++ h) → sized h →
  let r := fold_left (λ h p, map_insert (fst p) (snd p) h) l h in
  sized r ∧ distinct r ∧ ∀ p, p ∈ r ↔ p ∈ l ∨ p ∈ h.
Proof.
  revert h. induction l as [|[k x] l IH]; intros h Hl Hd Hh; cbn [fold_left fst snd].
  - split_and!; [done|done|]. intros p. rewrite elem_of_nil. tauto.
  - inversion_clear Hl as [|?? Hk Hl']. unfold distinct in Hd. cbn [fmap list_fmap app fst] in Hd.
    rewrite fmap_app in Hd. inversion_clear Hd as [|?? Hn Hd'].
    assert (num W k (rval k)) as Hkn by by split.
    assert (fresh (rval k) h) as Hf.
    { apply Forall_forall. intros p Hp E. apply Hn, elem_of_app. right. apply list_elem_of_fmap. by exists p. }
    assert (distinct h) as Hdh by (rewrite NoDup_app in Hd'; apply Hd').
    destruct (map_insert_ok k (rval k) x h Hkn Hh Hdh Hf) as [Hs1 Hd1].
    pose proof (map_insert_elem k (rval k) x h Hkn Hh Hf) as He.
    destruct (IH (map_insert k x h) Hl') as (H1 & H2 & H3); [|done|].
    + unfold distinct. rewrite fmap_app. apply NoDup_app in Hd' as (Hdl & Hlh & _). apply NoDup_app. split_and!; [done| |done].
      intros z Hz (p & -> & [->|Hp]%He)%list_elem_of_fmap.
      * apply Hn, elem_of_app. by left.
      * apply (Hlh _ Hz), list_elem_of_fmap. by exists p.
    + split_and!; [done|done|]. intros p. rewrite H3, He, elem_of_cons. tauto.
Qed.
End Maps.

(** ** Total correctness of code that may throw *)

(** The code returns a result with a property; it throws only where it may. *)
Definition safe (fails : Prop) {A} (o : outcome A) (Q : A → Prop) : Prop :=
  match o with Ret a => Q a | Throw _ => fails | _ => False end.
Definition msafe (fails : Prop) {A} (m : mlog A) (Q : A → Prop) : Prop := ∀ ml, safe fails (m ml) (λ r, Q (fst r)).
Section Safe.
Context {fails : Prop}.
Lemma safe_bind {A B} (o : outcome A) (k : A → outcome B) P Q :
  safe fails o P → (∀ a, P a → safe fails (k a) Q) → safe fails (obind o k) Q.
Proof. destruct o; cbn; auto. Qed.
Lemma safe_weaken {A} (o : outcome A) (P Q : A → Prop) : safe fails o P → (∀ a, P a → Q a) → safe fails o Q.
Proof. destruct o; cbn; auto. Qed.
Lemma msafe_bind {A B} (m : mlog A) (k : A → mlog B) P Q :
  msafe fails m P → (∀ a, P a → msafe fails (k a) Q) → msafe fails (mbind m k) Q.
Proof. intros Hm Hk ml. apply (safe_bind _ _ _ _ (Hm ml)). intros [a ml'] Ha. by apply Hk. Qed.
Lemma msafe_ret {A} (a : A) (Q : A → Prop) : Q a → msafe fails (mret a) Q.
Proof. intros ? ml. done. Qed.
Lemma msafe_lift {A} (o : outcome A) Q : safe fails o Q → msafe fails (mlift o) Q.
Proof. intros Ho ml. unfold mlift. by destruct o. Qed.
Lemma msafe_weaken {A} (m : mlog A) (P Q : A → Prop) : msafe fails m P → (∀ a, P a → Q a) → msafe fails m Q.
Proof. intros Hm HPQ ml. eapply safe_weaken; [apply Hm|]. intros [] ?. by apply HPQ. Qed.
End Safe.

(** ** Instructions *)

Section Tree.
Context {T : Type} `{RL : RNumberLaws T} (endianness strictMode : bool) (W : Z) (HW : 0 < W < 2 ^ 31) (Hm : W mod 32 = 0).
Local Abbreviation opc_mask := (get_opc_mask (T := T) endianness).
Local Abbreviation opcode i w := (getOpcode (T := T) endianness i w true).
Local Abbreviation InstrTable := (InstrTable (T := T)).

Definition opc_val (i : Instr) : Z := rval (opcode i W).
Local Abbreviation M := (opc_bits endianness W).
Local Abbreviation O := opc_val.
Local Abbreviation ok := (instr_ok endianness W).

Lemma mask_num i : ok i → num W (opc_mask i W) (M i).
Proof. intros Hi. by apply get_opc_mask_spec; [lia| |]. Qed.
Lemma opcode_num i : ok i → num W (opcode i W) (O i) ∧ within (O i) (M i).
Proof.
  intros Hi. destruct (getOpcode_spec (T := T) endianness W ltac:(lia) i Hm Hi) as (o & Ho & Hin).
  unfold opc_val. rewrite (proj2 Ho). done.
Qed.
Lemma mask_uint i : ok i → uint W (M i).
Proof. intros Hi. eapply num_uint, mask_num, Hi. Qed.

(** Encodings that agree on the bits of a mask. *)
Lemma agree_within a b m m' : within m' m → Z.land a m = Z.land b m → Z.land a m' = Z.land b m'.
Proof.
  intros Hw E. rewrite <- Hw, (Z.land_comm m'), !Z.land_assoc. by rewrite E.
Qed.
Lemma agree_lor a b m m' : Z.land a m = Z.land b m → Z.land a m' = Z.land b m' → Z.land a (Z.lor m m') = Z.land b (Z.lor m m').
Proof. intros E E'. by rewrite !Z.land_lor_distr_r, E, E'. Qed.

(** *** The mask that instructions have in common *)

Lemma common_spec l : Forall ok l → ∃ c, num W (get_common_opc (T := T) endianness l W) c ∧
  (∀ i, i ∈ l → within c (M i)) ∧ (∀ x, uint W x → (∀ i, i ∈ l → within x (M i)) → within x c).
Proof.
  intros Hl. unfold get_common_opc.
  enough (∀ x a, num W x a → ∃ c, num W (fold_left (λ mask i, rand mask (opc_mask i W)) l x) c ∧
    within c a ∧ (∀ i, i ∈ l → within c (M i)) ∧ (∀ x, within x a → (∀ i, i ∈ l → within x (M i)) → within x c)) as Hgo.
  { destruct (Hgo _ _ (num_ones (T := T) W ltac:(lia))) as (c & Hc & _ & Hin & Hgr). exists c. split_and!; [done|done|].
    intros x Hx Hxi. apply Hgr; [|done]. apply within_bits. intros i Hi Hb. rewrite testbit_ones by lia.
    destruct (Z_lt_le_dec i W) as [Hlt|]; [|by rewrite (testbit_high W) in Hb by (done || lia)].
    by rewrite (proj2 (Z.leb_le 0 i)), (proj2 (Z.ltb_lt i W)) by lia. }
  induction Hl as [|i l Hi Hl IH]; intros x a Hx; cbn [fold_left].
  - exists a. split_and!; [done|apply within_refl|intros i Hi%elem_of_nil; done|done].
  - destruct (IH _ _ (num_and _ _ _ _ _ Hx (mask_num i Hi))) as (c & Hc & Hca & Hin & Hgr). exists c. split_and!; [done| | |].
    + eapply within_trans; [exact Hca|]. apply within_bits. intros k _. rewrite Z.land_spec. by intros [? _]%andb_prop.
    + intros j [->|Hj]%elem_of_cons; [|by apply Hin]. eapply within_trans; [exact Hca|].
      apply within_bits. intros k _. rewrite Z.land_spec. by intros [_ ?]%andb_prop.
    + intros y Hy Hyi. apply Hgr.
      * apply within_land; [done|]. apply Hyi, elem_of_cons. by left.
      * intros j Hj. apply Hyi, elem_of_cons. by right.
Qed.

(** *** The values of opcodes under a mask *)

Definition increasing (l : list T) : Prop := Forall (λ x, rsize x = W) l ∧ StronglySorted Z.lt (rval <$> l).
Lemma set_add_spec k v (l : list T) : num W k v → increasing l →
  increasing (set_add k l) ∧ (∀ z, z ∈ rval <$> set_add k l ↔ z = v ∨ z ∈ rval <$> l).
Proof.
  intros Hk [Hs Hd]. unfold increasing. induction Hs as [|k' l Hk' Hs IH]; cbn [set_add].
  - cbn. rewrite (proj2 Hk). split; [split; [constructor; [apply Hk|done]|by repeat constructor]|].
    intros z. rewrite elem_of_cons. tauto.
  - cbn [fmap list_fmap] in Hd. apply StronglySorted_inv in Hd as [Hd Hlt]. destruct (IH Hd) as [[IH1 IH2] IH3].
    rewrite (num_eq W _ _ _ _ Hk (conj Hk' eq_refl)), (rlt_spec k k'), (proj2 Hk) by (rewrite (proj1 Hk); done).
    destruct (Z.eqb_spec v (rval k')) as [E|E]; [|destruct (Z.ltb_spec v (rval k'))]; cbn [fmap list_fmap]; rewrite ?(proj2 Hk).
    + split; [split; [by constructor|by constructor]|]. intros z. rewrite elem_of_cons. subst v. tauto.
    + split; [split; [constructor; [apply Hk|by constructor]|]|].
      * constructor; [by constructor|]. constructor; [done|]. eapply Forall_impl; [exact Hlt|]. cbn. lia.
      * intros z. rewrite !elem_of_cons. tauto.
    + split; [split; [by constructor|]|].
      * constructor; [done|]. apply Forall_forall. intros z [->|Hz]%IH3; [lia|]. by apply (proj1 (Forall_forall _ _) Hlt).
      * intros z. rewrite !elem_of_cons, IH3. tauto.
Qed.
Lemma values_spec x m l : num W x m → Forall ok l → increasing (get_values endianness x l) ∧
  ∀ z, z ∈ rval <$> get_values endianness x l ↔ ∃ i, i ∈ l ∧ z = Z.land (O i) m.
Proof.
  intros Hx Hl. unfold get_values. rewrite (proj1 Hx).
  enough (∀ r, increasing r → increasing (fold_left (λ ret i, set_add (rand x (opcode i W)) ret) l r) ∧
    ∀ z, z ∈ rval <$> fold_left (λ ret i, set_add (rand x (opcode i W)) ret) l r ↔ (∃ i, i ∈ l ∧ z = Z.land (O i) m) ∨ z ∈ rval <$> r) as Hgo.
  { destruct (Hgo []) as [H1 H2]; [by split; constructor|]. split; [done|]. intros z. rewrite H2. cbn. rewrite elem_of_nil. tauto. }
  induction Hl as [|i l Hi Hl IH]; intros r Hr; cbn [fold_left].
  - split; [done|]. intros z. split; [by right|]. intros [(i & Hi%elem_of_nil & _)|]; done.
  - destruct (opcode_num i Hi) as [Ho _]. pose proof (num_and _ _ _ _ _ Hx Ho) as Hk.
    destruct (set_add_spec _ _ r Hk Hr) as [Hr' He]. destruct (IH _ Hr') as [H1 H2]. split; [done|]. intros z.
    rewrite H2, He, Z.land_comm. split.
    + intros [(j & Hj & ->)|[->|]]; [left; exists j|left; exists i|by right]; rewrite elem_of_cons; auto.
    + intros [(j & [->|Hj]%elem_of_cons & ->)|]; [by right; left|left; by exists j|by right; right].
Qed.
Lemma increasing_NoDup l : increasing l → NoDup (rval <$> l).
Proof.
  intros [_ Hs]. induction Hs as [|z zs Hs IH Hlt]; constructor; [|done]. intros Hz.
  pose proof (proj1 (Forall_forall _ _) Hlt z Hz). lia.
Qed.
Lemma common_instrs_elem v z x m l : num W v z → num W x m → Forall ok l →
  ∀ i, i ∈ get_common_instrs endianness v x l ↔ i ∈ l ∧ Z.land (O i) m = z.
Proof.
  intros Hv Hx Hl i. unfold get_common_instrs. rewrite (proj1 Hx), list_elem_of_In, filter_In, <- list_elem_of_In.
  split; intros [Hi E]; (split; [done|]); pose proof (proj1 (Forall_forall _ _) Hl i Hi) as Hok;
    pose proof (opcode_num i Hok) as [Ho _]; pose proof (num_and _ _ _ _ _ Ho Hx) as Ha;
    rewrite (num_eq W _ _ _ _ Ha Hv) in *.
  - by apply andb_prop in E as [E%Z.eqb_eq _].
  - rewrite E, Z.eqb_refl. by destruct Hok as [-> _].
Qed.

(** *** Sorting *)

Definition separate (l : list Instr) : Prop := NoDup l ∧ ∀ i j, i ∈ l → j ∈ l → same_instr i j = true → i = j.
Lemma same_instr_refl i : same_instr i i = true.
Proof. apply Z.eqb_refl. Qed.
Lemma norm_nonneg (x : T) : 0 ≤ get_norm x.
Proof.
  unfold get_norm. apply (for_up_ind (λ _ s, 0 ≤ s)); [lia|]. intros i s _ Hs. destruct (getBit _ _); lia.
Qed.
Lemma norm_zero x : num W x 0 → get_norm x = 0.
Proof.
  intros [Es Ev]. unfold get_norm. rewrite Es. apply (for_up_ind (λ _ s, s = 0)); [done|].
  intros i s Hi ->. by rewrite getBit_spec, Ev, Z.testbit_0_l by lia.
Qed.
Lemma max_mask_elem l : l ≠ [] → ∃ h, max_mask (T := T) endianness l W = Some h ∧ h ∈ l.
Proof.
  intros Hne. unfold max_mask. destruct l as [|i l]; [done|]. cbn [fold_left].
  rewrite (norm_zero (rn 0 W)), (proj2 (Z.leb_le 0 _)) by (apply norm_nonneg || apply num_zero; lia).
  assert (i ∈ i :: l) as Hi by (apply elem_of_cons; by left). revert Hi.
  generalize (opc_mask i W). generalize i at 1 3 as r.
  assert (∀ j, j ∈ l → j ∈ i :: l) as Hl by (intros; apply elem_of_cons; by right). revert Hl. generalize (i :: l) as l0.
  induction l as [|j l IH]; intros l0 Hl r m Hr; cbn [fold_left]; [by exists r|].
  destruct (get_norm m <=? get_norm (opc_mask j W)); apply IH; auto; [intros; apply Hl, elem_of_cons; by right| |intros; apply Hl, elem_of_cons; by right].
  apply Hl, elem_of_cons. by left.
Qed.
Lemma remove_head h l : separate l → h ∈ l → h :: List.filter (λ i, negb (same_instr i h)) l ≡ₚ l ∧
  separate (List.filter (λ i, negb (same_instr i h)) l).
Proof.
  intros [Hd Hs] Hh. assert (∀ i, i ∈ List.filter (λ i, negb (same_instr i h)) l ↔ i ∈ l ∧ i ≠ h) as He.
  { intros i. rewrite list_elem_of_In, filter_In, <- list_elem_of_In, negb_true_iff. split; intros [Hi E]; (split; [done|]).
    - intros ->. by rewrite same_instr_refl in E.
    - destruct (same_instr i h) eqn:Es; [|done]. by apply Hs in Es. }
  assert (NoDup (List.filter (λ i, negb (same_instr i h)) l)) as Hf.
  { apply NoDup_ListNoDup. apply List.NoDup_filter. by apply NoDup_ListNoDup. }
  split; [|split; [done|]].
  - apply NoDup_Permutation; [|done|].
    + constructor; [|done]. rewrite He. tauto.
    + intros i. rewrite elem_of_cons, He. destruct (decide (same_instr i h = true)) as [E|E].
      * split; [intros [->|[? _]]; done|]. intros Hi. left. by apply Hs.
      * split; [intros [->|[? _]]; done|]. intros Hi. right. split; [done|]. intros ->. by rewrite same_instr_refl in E.
  - intros i j [Hi _]%He [Hj _]%He. by apply Hs.
Qed.
Lemma sort_perm l : separate l → sort_by_mask (T := T) endianness l W ≡ₚ l.
Proof.
  unfold sort_by_mask. remember (length l) as n eqn:En. revert l En.
  induction n as [|n IH]; intros l En Hs; [done|]. cbn [sort_from].
  destruct l as [|i [|j r]]; [done|done|]. set (l := i :: j :: r) in *.
  destruct (max_mask_elem l) as (h & -> & Hh); [done|]. destruct (remove_head h l Hs Hh) as [Hp Hs'].
  rewrite (IH _); [done| |done]. apply Permutation_length in Hp. cbn [length] in Hp. lia.
Qed.

(** The order is by the number of bits. *)
Lemma norm_count x a : num W x a →
  get_norm x = Z.of_nat (length (List.filter (λ i, Z.testbit a (Z.of_nat i)) (seq 0 (Z.to_nat W)))).
Proof.
  intros [Es Ev]. unfold get_norm. rewrite Es.
  apply (for_up_ind (λ n s, s = Z.of_nat (length (List.filter (λ i, Z.testbit a (Z.of_nat i)) (seq 0 n))))); [done|].
  intros i s Hi ->. rewrite getBit_spec, Ev, Es by lia. replace (W - 1 - (W - Z.of_nat i - 1)) with (Z.of_nat i) by lia.
  rewrite Nat.add_1_r, seq_S, List.filter_app, length_app. cbn [List.filter Nat.add]. destruct (Z.testbit a (Z.of_nat i)); cbn [length]; lia.
Qed.
Lemma norm_within x y a b : num W x a → num W y b → within a b → get_norm y ≤ get_norm x → a = b.
Proof.
  intros Hx Hy Hab. rewrite (norm_count x a Hx), (norm_count y b Hy). intros Hle.
  pose proof (num_uint _ _ _ Hx) as Hau. pose proof (num_uint _ _ _ Hy) as Hbu.
  apply Z.bits_inj'. intros i Hi. destruct (Z.testbit a i) eqn:Ea, (Z.testbit b i) eqn:Eb; [done| | |done].
  - by rewrite (proj1 (within_bits _ _) Hab i Hi Ea) in Eb.
  - exfalso. assert (i < W) as Hlt. { apply Z.nle_gt. intros ?. by rewrite (testbit_high W b) in Eb by (done || lia). }
    pose proof (filter_lt (λ i, Z.testbit a (Z.of_nat i)) (λ i, Z.testbit b (Z.of_nat i)) (seq 0 (Z.to_nat W)) (Z.to_nat i)) as Hf.
    cbn beta in Hf. rewrite Z2Nat.id in Hf by done. assert (∀ z, Z.testbit a (Z.of_nat z) = true → Z.testbit b (Z.of_nat z) = true) as Hz by (intros z; apply (proj1 (within_bits _ _) Hab); lia).
    specialize (Hf Hz ltac:(apply in_seq; lia) Eb Ea). lia.
Qed.
Definition norm (i : Instr) : Z := get_norm (opc_mask i W).
Lemma max_mask_max l h : max_mask (T := T) endianness l W = Some h → ∀ i, i ∈ l → norm i ≤ norm h.
Proof.
  unfold max_mask.
  enough (∀ m r, (∀ j, r = Some j → m = opc_mask j W) → let s := fold_left (λ '(mask, ret) i, let m := opc_mask i W in
    if get_norm mask <=? get_norm m then (m, Some i) else (mask, ret)) l (m, r) in
    (∀ j, snd s = Some j → fst s = opc_mask j W) ∧ get_norm m ≤ get_norm (fst s) ∧ ∀ i, i ∈ l → norm i ≤ get_norm (fst s)) as Hgo.
  { intros E i Hi. destruct (Hgo (rn 0 W) None) as (H1 & _ & H3); [done|]. unfold norm. rewrite <- (H1 h E). by apply H3. }
  induction l as [|i l IH]; intros m r Hr; cbn [fold_left]; [split_and!; [done|done|by intros i Hi%elem_of_nil]|].
  destruct (Z.leb_spec (get_norm m) (get_norm (opc_mask i W))) as [Hle|Hgt].
  - destruct (IH (opc_mask i W) (Some i)) as (H1 & H2 & H3); [by intros j [= ->]|]. split_and!; [done|by eapply Z.le_trans|].
    intros j [->|Hj]%elem_of_cons; [done|by apply H3].
  - destruct (IH m r Hr) as (H1 & H2 & H3). split_and!; [done|done|].
    intros j [->|Hj]%elem_of_cons; [eapply Z.le_trans; [apply Z.lt_le_incl, Hgt|exact H2]|by apply H3].
Qed.
Lemma sort_sorted l : separate l → StronglySorted (λ i j, norm j ≤ norm i) (sort_by_mask (T := T) endianness l W).
Proof.
  unfold sort_by_mask. remember (length l) as n eqn:En. revert l En.
  induction n as [|n IH]; intros l En Hs; [by destruct l; [constructor|]|]. cbn [sort_from].
  destruct l as [|i [|j r]]; [constructor|by repeat constructor|]. set (l := i :: j :: r) in *.
  destruct (max_mask_elem l) as (h & E & Hh); [done|]. rewrite E. destruct (remove_head h l Hs Hh) as [Hp Hs'].
  assert (n = length (List.filter (λ i, negb (same_instr i h)) l)) as En' by (apply Permutation_length in Hp; cbn [length] in Hp; lia).
  constructor; [by apply IH|]. pose proof (sort_perm _ Hs') as Hp'. unfold sort_by_mask in Hp'. rewrite <- En' in Hp'.
  apply Forall_forall. intros k Hk. apply (max_mask_max l h E). rewrite <- Hp, elem_of_cons, <- Hp'. by right.
Qed.

(** *** The check for overlaps *)

Fixpoint overlap_ok (all l : list Instr) : bool :=
  match l with
  | i :: ((j :: _) as r) =>
      if match last all with Some b => same_instr i b | None => false end then overlap_ok all r
      else if negb (Z.lor (M i) (M j) =? M i) || (M i =? M j) then
        if negb (Z.land (M i) (M j) =? M j) then false
        else if Z.land (Z.land (M i) (M j)) (O i) =? Z.land (Z.land (M i) (M j)) (O j) then false
        else overlap_ok all r
      else overlap_ok all r
  | _ => true
  end.
Lemma overlap_loop_spec all l ml : Forall ok l →
  overlap_loop (T := T) endianness strictMode all l W false ml = Ret (overlap_ok all l, ml).
Proof.
  intros Hl. induction Hl as [|i l Hi Hl IH]; [done|]. destruct Hl as [|j r Hj Hr]; [done|].
  cbn [overlap_loop overlap_ok] in *.
  destruct (match last all with Some b => same_instr i b | None => false end); [exact IH|].
  pose proof (mask_num i Hi) as Hmi. pose proof (mask_num j Hj) as Hmj.
  destruct (opcode_num i Hi) as [Hoi _], (opcode_num j Hj) as [Hoj _].
  pose proof (num_and _ _ _ _ _ Hmi Hmj) as Ha.
  rewrite (num_eq W _ _ _ _ (num_or _ _ _ _ _ Hmi Hmj) Hmi), (num_eq W _ _ _ _ Hmi Hmj), (num_eq W _ _ _ _ Ha Hmj).
  rewrite (num_eq W _ _ _ _ (num_and _ _ _ _ _ Ha Hoi) (num_and _ _ _ _ _ Ha Hoj)).
  destruct (negb (Z.lor _ _ =? _) || _); [|exact IH]. destruct (negb (Z.land (M i) (M j) =? _)); [done|].
  by destruct (Z.land (Z.land (M i) (M j)) _ =? _); [|exact IH].
Qed.
Lemma check_overlap_spec l ml : Forall ok l → (2 ≤ length l)%nat → ∃ ml',
  check_overlap (T := T) endianness strictMode l W false ml = Ret (overlap_ok l l, ml').
Proof.
  intros Hl Hlen. unfold check_overlap. rewrite (proj2 (Nat.eqb_neq _ 1)) by lia. unfold mbind.
  rewrite overlap_loop_spec by done. cbn [obind fst snd]. destruct (overlap_ok l l); [|by exists ml].
  unfold report_conflict. cbn [andb]. destruct (find_conflict endianness l); cbn; eauto.
Qed.
(** The masks of a list that passes are nested around the last one; where all
    agree on that, the others are larger. *)
Lemma overlap_ok_chain l b : overlap_ok l l = true → separate l → last l = Some b →
  ∀ i, i ∈ l → within (M b) (M i) ∧
    ((∀ j, j ∈ l → Z.land (O j) (M b) = Z.land (O b) (M b)) → i ≠ b → M i ≠ M b).
Proof.
  intros Hok [Hd Hs] Hb.
  enough (∀ l', (∃ p, l = p ++ l') → overlap_ok l l' = true → ∀ i, i ∈ l' → within (M b) (M i) ∧
    ((∀ j, j ∈ l → Z.land (O j) (M b) = Z.land (O b) (M b)) → i ≠ b → M i ≠ M b)) as Hgo by (apply Hgo; [by exists []|done]).
  clear Hok. induction l' as [|i l' IH]; intros [p Ep] Hok k Hk; [by apply elem_of_nil in Hk|].
  destruct l' as [|j r].
  - apply list_elem_of_singleton in Hk as ->. subst l. rewrite last_app in Hb. cbn in Hb. injection Hb as <-.
    split; [apply within_refl|done].
  - assert (∃ p, l = p ++ j :: r) as Hp by (exists (p ++ [i]); by rewrite <- app_assoc).
    assert (b ∈ j :: r) as Hbr.
    { apply last_Some_elem_of. by rewrite <- Hb, Ep, last_app_cons, last_cons_cons. }
    assert (i ∈ l ∧ j ∈ l) as [Hil Hjl] by (subst l; split; rewrite elem_of_app, !elem_of_cons; auto).
    assert (i ≠ b) as Hib.
    { intros ->. subst l. apply NoDup_app in Hd as (_ & _ & Hd). by inversion_clear Hd. }
    cbn [overlap_ok] in Hok. rewrite Hb in Hok. destruct (same_instr i b) eqn:Esb.
    { apply Hs in Esb; [done|done|]. subst l. rewrite elem_of_app, elem_of_cons. auto. }
    assert (within (M j) (M i) ∧ (M i = M j → Z.land (O i) (M j) ≠ Z.land (O j) (M j)) ∧ overlap_ok l (j :: r) = true) as (Hji & Hne & Hok').
    { destruct (Z.eqb_spec (Z.lor (M i) (M j)) (M i)) as [E1|E1], (Z.eqb_spec (M i) (M j)) as [E2|E2]; cbn [negb orb] in Hok.
      - rewrite E2, Z.land_diag, Z.eqb_refl in Hok. cbn [negb] in Hok.
        destruct (Z.eqb_spec (Z.land (M j) (O i)) (Z.land (M j) (O j))) as [E3|E3]; [done|].
        rewrite E2. split_and!; [apply within_refl| |by cbn [overlap_ok]; rewrite Hb]. intros _. by rewrite !(Z.land_comm _ (M j)).
      - split_and!; [|done|by cbn [overlap_ok]; rewrite Hb]. apply within_bits. intros z _ Hz. by rewrite <- E1, Z.lor_spec, Hz, orb_true_r.
      - exfalso. apply E1. by rewrite E2, Z.lor_diag.
      - destruct (Z.eqb_spec (Z.land (M i) (M j)) (M j)) as [E3|E3]; [|done]. cbn [negb] in Hok. exfalso. apply E1.
        rewrite <- E3. apply Z.bits_inj'. intros z _. rewrite Z.lor_spec, Z.land_spec. btauto. }
    apply elem_of_cons in Hk as [->|Hk]; [|by apply IH].
    destruct (IH Hp Hok' j) as [Hbj Hbne]; [apply elem_of_cons; by left|]. split; [by eapply within_trans|].
    intros Hag _ E. assert (M j = M i) as Eji by (rewrite E in *; by apply within_antisym).
    apply (Hne (eq_sym Eji)). rewrite Eji, E. by rewrite (Hag i), (Hag j).
Qed.

(** Masks that are nested, with different opcodes where they are equal, pass. *)
Lemma nested_overlap l : separate l → Forall ok l → StronglySorted (λ i j, norm j ≤ norm i) l →
  (∀ i j, i ∈ l → j ∈ l → i ≠ j → (within (M i) (M j) ∨ within (M j) (M i)) ∧ (M i = M j → O i ≠ O j)) → overlap_ok l l = true.
Proof.
  intros [Hd Hs] Hok Hso Hne. generalize l at 1 as all. intros all. clear Hs. induction Hso as [|i l Hso IH Hn]; [done|].
  inversion_clear Hd as [|?? Hil Hd']. inversion_clear Hok as [|?? Hi Hok'].
  destruct l as [|j r]; [done|]. cbn [overlap_ok] in *.
  assert (overlap_ok all (j :: r) = true) as Hr. { apply IH; [done|done|]. intros a b Ha Hb. refine (Hne a b _ _); apply elem_of_cons; by right. }
  destruct (match last all with Some b => same_instr i b | None => false end); [exact Hr|].
  assert (i ≠ j) as Hij by (intros ->; apply Hil, elem_of_cons; by left).
  inversion_clear Hok' as [|?? Hj _]. destruct (Hne i j) as [Hw Ho]; [apply elem_of_cons; by left|by rewrite !elem_of_cons; auto|done|].
  assert (within (M j) (M i)) as Hji.
  { destruct Hw as [Hw|]; [|done]. assert (M i = M j) as ->; [|apply within_refl].
    apply (norm_within _ _ _ _ (mask_num i Hi) (mask_num j Hj) Hw). by inversion_clear Hn. }
  assert (Z.lor (M i) (M j) = M i) as E.
  { apply Z.bits_inj'. intros b Hb. rewrite Z.lor_spec. pose proof (proj1 (within_bits _ _) Hji b Hb) as Hw'.
    destruct (Z.testbit (M i) b), (Z.testbit (M j) b); try done. symmetry. auto. }
  rewrite E, Z.eqb_refl. cbn [negb orb]. destruct (Z.eqb_spec (M i) (M j)) as [Em|Em]; [|exact Hr].
  rewrite Em, Z.land_diag, Z.eqb_refl. cbn [negb]. destruct (opcode_num i Hi) as [_ Hoi], (opcode_num j Hj) as [_ Hoj].
  rewrite !(Z.land_comm (M j)). rewrite Em in Hoi. rewrite Hoi, Hoj, (proj2 (Z.eqb_neq _ _)); [exact Hr|]. by apply Ho.
Qed.

(** ** The shape of a tree *)

(** The instructions of a table: their encodings are well formed, and their
    identifiers different. *)
Context (I : list Instr) (HI : Forall ok I) (HS : separate I).
Lemma I_ok i : i ∈ I → ok i.
Proof. apply (proj1 (Forall_forall _ _) HI). Qed.
Lemma base_dec (base : option Instr) i : (∀ b, base = Some b → b ∈ I) → i ∈ I → base = Some i ∨ base ≠ Some i.
Proof.
  intros Hb Hi. destruct base as [b|]; [|by right]. destruct (same_instr b i) eqn:E.
  - left. f_equal. apply HS; auto.
  - right. intros [= ->]. by rewrite same_instr_refl in E.
Qed.

(** Tables of one word that can always be built: the instructions have a primary
    opcode in common, and the masks of those that agree on it are nested. *)
Definition nested (c0 : Z) : Prop :=
  (∀ i, i ∈ I → within c0 (M i) ∧ M i ≠ 0) ∧
  ∀ i j, i ∈ I → j ∈ I → i ≠ j → Z.land (O i) c0 = Z.land (O j) c0 →
    (within (M i) (M j) ∨ within (M j) (M i)) ∧ (M i = M j → O i ≠ O j).
Context (fails : Prop) (HE : fails ∨ W = 32 ∧ ∃ c0, nested c0).
Local Abbreviation safe := (safe fails).
Local Abbreviation msafe := (msafe fails).
Lemma opc_fails i : i ∈ I → fails ∨ M i ≠ 0.
Proof. intros Hi. destruct HE as [|(_ & c0 & Hn & _)]; [by left|]. right. by apply Hn. Qed.

(** [shape n A P u t]: the node [t], of height at most [n], is for the
    instructions of [P], which agree on the bits [u] that were tested above it;
    those of [A] have been added.  The instruction of a node has no opcode bits but
    [u]; the others go on to the children, by the bits of the mask. *)
Fixpoint shape (n : nat) (A P : Instr → Prop) (u : Z) (t : InstrTable) : Prop :=
  match n with
  | 0%nat => False
  | S n =>
      _width t = W ∧ _default_table t = None ∧ ∃ base : option Instr,
      (∀ i, _instr t = Some i ↔ base = Some i ∧ A i) ∧ (∀ b, base = Some b → P b ∧ M b = u) ∧
      ((∃ b, base = Some b ∧ (∀ i, P i → i = b) ∧ _table t = [] ∧ rval (_mask t) = 0) ∨
       (∃ m, num W (_mask t) m ∧ m ≠ 0 ∧ one_word m ∧ Z.land u m = 0 ∧ _table t ≠ [] ∧
         (∀ i, P i → base ≠ Some i → within (Z.lor u m) (M i)) ∧
         sized W (_table t) ∧ distinct (_table t) ∧
         (∀ k c, (k, c) ∈ _table t → shape n A (λ i, P i ∧ base ≠ Some i ∧ Z.land (O i) m = rval k) (Z.lor u m) c) ∧
         (∀ i, P i → base ≠ Some i → ∃ k c, (k, c) ∈ _table t ∧ rval k = Z.land (O i) m)))
  end.

Lemma shape_ext n A A' P P' u t : shape n A P u t → (∀ i, P i ↔ P' i) → (∀ i, P i → (A i ↔ A' i)) → shape n A' P' u t.
Proof.
  revert A A' P P' u t. induction n as [|n IH]; intros A A' P P' u t; [done|]. cbn [shape].
  intros (Hw & Hd & base & Hi & Hb & Hc) HP HA. split_and!; [done|done|]. exists base. split_and!.
  - intros i. rewrite Hi. split; intros [E Ha]; (split; [done|]); apply HA; auto; by apply Hb.
  - intros b E. destruct (Hb b E). split; [by apply HP|done].
  - destruct Hc as [(b & E & Hu & Ht & Hm0)|(m & Hmm & Hm0 & Ho & Hum & Ht & Hin & Hs & Hdi & Hch & Hall)].
    + left. exists b. split_and!; auto. intros i Hi'. apply Hu. by apply HP.
    + right. exists m. split_and!; auto.
      * intros i Hi'. apply Hin. by apply HP.
      * intros k c Hk. eapply IH; [by apply Hch| |].
        -- intros i. cbn. by rewrite HP.
        -- intros i (Hp & _). by apply HA.
      * intros i Hi'. apply Hall. by apply HP.
Qed.
Lemma shape_mono n A P u t : shape n A P u t → shape (S n) A P u t.
Proof.
  revert A P u t. induction n as [|n IH]; intros A P u t; [done|].
  intros (Hw & Hd & base & Hi & Hb & Hc). cbn [shape]. split_and!; [done|done|]. exists base. split_and!; [done|done|].
  destruct Hc as [Hl|(m & Hmm & Hm0 & Ho & Hum & Ht & Hin & Hs & Hdi & Hch & Hall)]; [by left|].
  right. exists m. split_and!; auto. intros k c Hk. by apply IH, Hch.
Qed.
Lemma shape_inhabited n A P u t : shape n A P u t → ∃ i, P i.
Proof.
  revert A P u t. induction n as [|n IH]; intros A P u t; [done|].
  intros (Hw & Hd & base & Hi & Hb & [(b & E & _)|(m & Hmm & Hm0 & Ho & Hum & Ht & Hin & Hs & Hdi & Hch & Hall)]).
  - exists b. by apply Hb.
  - destruct (_table t) as [|[k c] l]; [done|]. destruct (IH _ _ _ _ (Hch k c ltac:(apply elem_of_cons; by left))) as [i [Hp _]]. by exists i.
Qed.
Lemma shape_width n A P u t : shape n A P u t → _width t = W.
Proof. by destruct n; [|intros [? _]]. Qed.

(** *** Decoding *)

Section Decode.
Context (fetch : list Z) (Hl : Z.of_nat (length fetch) = W / 32) (Hd : digits 32 fetch).
Local Abbreviation e := (beval 32 fetch).
(** The encoding has the opcode of the instruction. *)
Definition matches (i : Instr) : Prop := Z.land e (M i) = O i.

(** What a node gives where no child has the bits of the encoding. *)
Definition no_child (t : InstrTable) : option Instr :=
  match _default_table t with Some d => decode d fetch | None => _instr t end.
Lemma decode_any t m : num W (_mask t) m → m ≠ 0 → one_word m → _table t ≠ [] →
  (∀ k c, (k, c) ∈ _table t → num W k (rval k) ∧ within (rval k) m ∧ _width c = W) →
  (∃ k c, (k, c) ∈ _table t ∧ rval k = Z.land e m ∧ decode t fetch = decode c fetch) ∨
  (∀ k c, (k, c) ∈ _table t → rval k ≠ Z.land e m) ∧ decode t fetch = no_child t.
Proof.
  intros Hmm Hm0 Ho Ht Hk. unfold no_child. destruct t as [w word mask sh tbl dft dc ins shs]. cbn [_table _mask _default_table _instr] in *.
  cbn [decode _table _mask _default_table _instr].
  match goal with |- context [match tbl with [] => ins | _ :: _ => ?X end] =>
    replace (match tbl with [] => ins | _ :: _ => X end) with X by by destruct tbl end.
  clear Ht. induction tbl as [|[k c] tbl IH]; [right; split; [intros ?? []%elem_of_nil|done]|].
  destruct (Hk k c) as (Hkn & Hkw & Hcw); [apply elem_of_cons; by left|].
  rewrite Hcw, (case_test W HW Hm mask m k (rval k) fetch) by done.
  destruct (Z.eqb_spec (Z.land e m) (rval k)) as [E|E].
  - left. exists k, c. split_and!; [apply elem_of_cons; by left|done|done].
  - destruct IH as [(k' & c' & H1 & H2 & H3)|[H1 H2]].
    + intros k' c' Hk'. apply Hk, elem_of_cons. by right.
    + left. exists k', c'. split_and!; [apply elem_of_cons; by right|done|done].
    + right. split; [|done]. intros k' c' [[= -> ->]|Hk']%elem_of_cons; [congruence|by eapply H1].
Qed.
Lemma decode_node t m : num W (_mask t) m → m ≠ 0 → one_word m → _default_table t = None → _table t ≠ [] →
  (∀ k c, (k, c) ∈ _table t → num W k (rval k) ∧ within (rval k) m ∧ _width c = W) →
  (∃ k c, (k, c) ∈ _table t ∧ rval k = Z.land e m ∧ decode t fetch = decode c fetch) ∨
  (∀ k c, (k, c) ∈ _table t → rval k ≠ Z.land e m) ∧ decode t fetch = _instr t.
Proof.
  intros Hmm Hm0 Ho Hdf Ht Hk. destruct (decode_any t m Hmm Hm0 Ho Ht Hk) as [?|[? E]]; [by left|right].
  unfold no_child in E. by rewrite Hdf in E.
Qed.
Lemma match_part i m : within m (M i) → matches i → Z.land (O i) m = Z.land e m.
Proof. intros Hmi E. unfold matches in E. rewrite <- E, <- Z.land_assoc, (Z.land_comm (M i)). by rewrite Hmi. Qed.
Lemma node_children n A P u t base m : (∀ k c, (k, c) ∈ _table t → shape n A (λ i, P i ∧ base ≠ Some i ∧ Z.land (O i) m = rval k) (Z.lor u m) c) →
  sized W (_table t) → ∀ k c, (k, c) ∈ _table t → num W k (rval k) ∧ within (rval k) m ∧ _width c = W.
Proof.
  intros Hch Hs k c Hk. specialize (Hch k c Hk). split_and!.
  - split; [|done]. by apply (proj1 (Forall_forall _ _) Hs (k, c)).
  - destruct (shape_inhabited _ _ _ _ _ Hch) as (i & _ & _ & <-). apply within_bits. intros z _. rewrite Z.land_spec. by intros [_ ?]%andb_prop.
  - by apply shape_width in Hch.
Qed.
Lemma decode_sound n A P u t j : (∀ i, P i → i ∈ I) → shape n A P u t → (∀ i, P i → Z.land (O i) u = Z.land e u) → decode t fetch = Some j →
  P j ∧ A j ∧ matches j ∧ ∀ i, P i → matches i → within (M j) (M i) → i = j.
Proof.
  intros HP. revert P u t HP. induction n as [|n IH]; intros P u t HP; [done|].
  intros (Hw & Hdf & base & Hi & Hb & Hc) Hag Hj.
  assert (∀ b, base = Some b → matches b) as Hbm.
  { intros b E. destruct (Hb b E) as [Hp Hu]. destruct (opcode_num b (I_ok b (HP b Hp))) as [_ Hin].
    unfold matches. rewrite Hu, <- (Hag b Hp), <- Hu. exact Hin. }
  destruct Hc as [(b & Eb & Hu & Ht & Hm0)|(m & Hmm & Hm0 & Ho & Hum & Ht & Hin & Hs & Hdi & Hch & Hall)].
  - destruct t as [w word mask sh tbl dft dc ins shs]. cbn [_table _instr] in *. subst tbl. cbn in Hj. subst ins.
    destruct (proj1 (Hi j) eq_refl) as [E Ha]. assert (j = b) as -> by congruence. split_and!; [by apply Hb|done|by apply Hbm|].
    intros i Hp _ _. by apply Hu.
  - destruct (decode_node t m) as [(k & c & Hk & Ek & Ed)|[Hno Ed]]; try done; [by eapply node_children| |]; rewrite Ed in Hj.
    + assert (∀ i, P i ∧ base ≠ Some i ∧ Z.land (O i) m = rval k → Z.land (O i) (Z.lor u m) = Z.land e (Z.lor u m)) as Hag'.
      { intros i (Hp & _ & E). apply agree_lor; [by apply Hag|]. by rewrite E. }
      assert (∀ i, P i ∧ base ≠ Some i ∧ Z.land (O i) m = rval k → i ∈ I) as HP' by (intros i [Hp _]; by apply HP).
      destruct (IH _ _ _ HP' (Hch k c Hk) Hag' Hj) as ((Hp & Hnb & _) & Ha & Hmj & Hbest).
      split_and!; [done|done|done|]. intros i Hp' Hmi Hji. apply Hbest; [|done|done]. split_and!; [done| |].
      * intros E. apply Hb in E as [_ Eu]. pose proof (Hin j Hp Hnb) as Huj. apply Hm0.
        assert (within m u) as Hmu.
        { eapply within_trans; [apply within_lor_r, within_refl|]. eapply within_trans; [exact Huj|]. by rewrite <- Eu. }
        by rewrite <- Hmu, Z.land_comm.
      * rewrite Ek. pose proof (Hin j Hp Hnb) as Huj. assert (within m (M i)) as Hmi'.
        { eapply within_trans; [apply within_lor_r, within_refl|]. by eapply within_trans. }
        by apply match_part.
    + destruct (proj1 (Hi j) Hj) as [E Ha]. destruct (Hb j E) as [Hp Eu]. split_and!; [done|done|by apply Hbm|].
      intros i Hp' Hmi Hji. destruct (base_dec base i) as [Ei|Ei]; [by intros b Hb'; apply HP, Hb|by apply HP|congruence|].
      destruct (Hall i Hp' Ei) as (k & c & Hk & Ek). exfalso. apply (Hno k c Hk). rewrite Ek.
      assert (within m (M i)) as Hmi' by (eapply within_trans; [apply within_lor_r, within_refl|by apply Hin]).
      by apply match_part.
Qed.
Lemma decode_exact n A P u t i : (∀ i, P i → i ∈ I) → shape n A P u t → (∀ i, P i → Z.land (O i) u = Z.land e u) →
  P i → A i → matches i → (∀ j, P j → within (M i) (M j) → Z.land (O j) (M i) = O i → j = i) → decode t fetch = Some i.
Proof.
  intros HP. revert P u t HP. induction n as [|n IH]; intros P u t HP; [done|].
  intros (Hw & Hdf & base & Hi & Hb & Hc) Hag Hp Ha Hmi Hsp.
  destruct Hc as [(b & Eb & Hu & Ht & Hm0)|(m & Hmm & Hm0 & Ho & Hum & Ht & Hin & Hs & Hdi & Hch & Hall)].
  - destruct t as [w word mask sh tbl dft dc ins shs]. cbn [_table _instr] in *. subst tbl. cbn. apply Hi. rewrite (Hu i Hp). split; [done|].
    by rewrite <- (Hu i Hp).
  - destruct (base_dec base i) as [Ei|Ei]; [by intros b ?; apply HP, Hb|by apply HP| |].
    + exfalso. destruct (Hb i Ei) as [_ Eu]. destruct (_table t) as [|[k c] l] eqn:Et; [done|].
      destruct (shape_inhabited _ _ _ _ _ (Hch k c ltac:(apply elem_of_cons; by left))) as (j & Hpj & Hnj & _).
      apply Hnj. rewrite Ei. f_equal. symmetry. apply Hsp; [done| |].
      * rewrite Eu. eapply within_trans; [apply within_lor_l, within_refl|by apply Hin].
      * rewrite Eu, (Hag j Hpj), <- Eu. exact Hmi.
    + assert (within m (M i)) as Hmm' by (eapply within_trans; [apply within_lor_r, within_refl|by apply Hin]).
      pose proof (match_part i m Hmm' Hmi) as Eo.
      destruct (decode_node t m) as [(k & c & Hk & Ek & Ed)|[Hno _]]; try done; [by eapply node_children| |].
      * rewrite Ed. eapply IH; [|by apply (Hch k c)| | |done|done|].
        -- intros j [Hpj _]. by apply HP.
        -- intros j (Hpj & _ & E). apply agree_lor; [by apply Hag|]. by rewrite E.
        -- cbn. split_and!; [done|done|congruence].
        -- intros j [Hpj _]. by apply Hsp.
      * exfalso. destruct (Hall i Hp Ei) as (k & c & Hk & Ek). apply (Hno k c Hk). congruence.
Qed.
End Decode.

(** *** Adding an instruction *)

Lemma add_leaf i t used : i ∈ I → _width t = W → _table t = [] → _instr t = None →
  safe (add_instr_internal endianness t i used) (λ t', t' = set_instr t i).
Proof.
  intros Hi Hw Ht Hn. destruct t as [w word mask sh tbl dft dc ins shs]. cbn [_table _instr _width] in *. subst.
  cbn [add_instr_internal _width _table]. rewrite (num_iszero _ _ _ (mask_num i (I_ok i Hi))).
  destruct (Z.eqb_spec (M i) 0); [by destruct (opc_fails i Hi)|done].
Qed.
Lemma add_base i m t used : i ∈ I → _width t = W → num W (_mask t) m → _table t ≠ [] → _default_table t = None → Z.land m (M i) = 0 →
  safe (add_instr_internal endianness t i used) (λ t', t' = set_instr t i).
Proof.
  intros Hi Hw Hmm Ht Hn E. destruct t as [w word mask sh tbl dft dc ins shs]. cbn [_table _default_table _width _mask] in *. subst.
  cbn [add_instr_internal _width _table _default_table _mask _instr]. pose proof (I_ok i Hi) as Hok. rewrite (num_iszero _ _ _ (mask_num i Hok)).
  destruct (Z.eqb_spec (M i) 0); [by destruct (opc_fails i Hi)|].
  destruct tbl as [|p tbl]; [done|]. rewrite (num_iszero _ _ _ (num_and _ _ _ _ _ Hmm (mask_num i Hok))), E.
  destruct Hok as [Hs _]. unfold shorthand in Hs. destruct (get_alias i); [|done]. by destruct ins.
Qed.
Lemma add_child i m t used pre k c post : ok i → _width t = W → num W (_mask t) m → _default_table t = None →
  m ≠ 0 → within m (M i) → sized W (_table t) → _table t = pre ++ (k, c) :: post → rval k = Z.land (O i) m → fresh (Z.land (O i) m) pre →
  add_instr_internal endianness t i used =
    (let! c' := add_instr_internal endianness c i (ror used (_mask t)) in Ret (set_table t (pre ++ (k, c') :: post))).
Proof.
  intros Hi Hw Hmm Hn Hm0 Hin Hs Ht Ek Hf. destruct t as [w word mask sh tbl dft dc ins shs]. cbn [_table _default_table _width _mask] in *. subst.
  assert (M i ≠ 0) as HM0 by (intros E; apply Hm0; rewrite E in Hin; by rewrite <- Hin, Z.land_0_r).
  cbn [add_instr_internal _width _table _default_table _mask _instr].
  rewrite (num_iszero _ _ _ (mask_num i Hi)), (proj2 (Z.eqb_neq _ 0)) by done.
  rewrite (num_iszero _ _ _ (num_and _ _ _ _ _ Hmm (mask_num i Hi))), (proj2 (Z.eqb_neq _ 0)) by (rewrite Hin; done).
  assert (get_alias i = NoAlias) as Ea by (destruct Hi as [Es _]; unfold shorthand in Es; by destruct (get_alias i)).
  assert (num W (rand mask (opcode i W)) (Z.land (O i) m)) as Hk.
  { rewrite Z.land_comm. apply num_and; [done|by apply opcode_num]. }
  rewrite Ea. cbn [negb andb].
  match goal with |- context [match ?f (pre ++ (k, c) :: post) with Some _ => _ | None => _ end] => set (add_here := f) end.
  assert (∀ pre, sized W (pre ++ (k, c) :: post) → fresh (Z.land (O i) m) pre → add_here (pre ++ (k, c) :: post) =
    Some (let! c' := add_instr_internal endianness c i (ror used mask) in Ret (pre ++ (k, c') :: post))) as Eh.
  { clear pre Hs Hf. induction pre as [|[k' c0] pre IH]; intros Hs Hf; cbn [app] in *; unfold add_here; fold add_here;
      inversion_clear Hs as [|?? Hk' Hs']; cbn in Hk'; rewrite (num_eq W _ _ _ _ Hk (conj Hk' eq_refl)).
    - by rewrite Ek, Z.eqb_refl.
    - inversion_clear Hf as [|?? Hv Hf']. cbn in Hv. rewrite (proj2 (Z.eqb_neq _ _)) by congruence. rewrite (IH Hs' Hf').
      by destruct (add_instr_internal _ c i _). }
  rewrite (Eh pre Hs Hf). destruct pre as [|p pre]; cbn [app]; destruct ins; destruct (add_instr_internal _ c i _); done.
Qed.

Lemma distinct_split (l : list (T * InstrTable)) k c : distinct l → (k, c) ∈ l → ∃ pre post, l = pre ++ (k, c) :: post ∧
  fresh (rval k) pre ∧ fresh (rval k) post.
Proof.
  intros Hd (pre & post & ->)%list_elem_of_split. exists pre, post. split; [done|].
  unfold distinct in Hd. rewrite fmap_app in Hd. cbn [fmap list_fmap fst] in Hd. apply NoDup_app in Hd as (_ & Hn & Hd).
  inversion_clear Hd as [|?? Hp _]. split; apply Forall_forall; intros q Hq E.
  - apply (Hn (rval (fst q))); [apply list_elem_of_fmap; by exists q|]. rewrite E. apply elem_of_cons. by left.
  - apply Hp, list_elem_of_fmap. by exists q.
Qed.
Lemma add_instr_shape n A P u t i used : (∀ i, P i → i ∈ I) → shape n A P u t → P i → ¬ A i →
  safe (add_instr_internal endianness t i used) (shape n (λ j, A j ∨ j = i) P u).
Proof.
  intros HP. revert P u t used HP. induction n as [|n IH]; intros P u t used HP; [done|].
  intros (Hw & Hdf & base & Hi & Hb & Hc) Hp Hna. pose proof (I_ok i (HP i Hp)) as Hok.
  assert (_instr t = Some i → False) as Hnone by (intros E; by apply Hi in E as [_ ?]).
  destruct Hc as [(b & Eb & Hu & Ht & Hm0)|(m & Hmm & Hm0 & Ho & Hum & Ht & Hin & Hs & Hdi & Hch & Hall)].
  - pose proof (Hu i Hp) as ->. assert (_instr t = None) as En.
    { destruct (_instr t) as [j|]; [|done]. destruct (proj1 (Hi j) eq_refl) as [E' ?]. congruence. }
    eapply safe_weaken; [by apply add_leaf; auto|]. intros t' ->. destruct t. cbn in *. split_and!; [done|done|]. exists base. split_and!; [|done|by left; exists b].
    intros j. rewrite Eb. split; [intros [= ->]; auto|]. by intros [[= ->] _].
  - destruct (base_dec base i) as [Ei|Ei]; [by intros b ?; apply HP, Hb|by apply HP| |].
    + destruct (Hb i Ei) as [_ Eu]. eapply safe_weaken; [eapply (add_base i m); try done; [by apply HP|by rewrite Eu, Z.land_comm]|].
      intros t' ->. destruct t. cbn in *. split_and!; [done|done|]. exists base. split_and!; [|done|].
      * intros j. rewrite Ei. split; [intros [= ->]; auto|]. by intros [[= ->] _].
      * right. exists m. split_and!; try done. intros k c Hk. eapply shape_ext; [by apply Hch|done|].
        intros j (_ & Hj & _). split; [by left|]. intros [| ->]; [done|]. by rewrite Ei in Hj.
    + destruct (Hall i Hp Ei) as (k & c & Hk & Ek). destruct (distinct_split _ k c Hdi Hk) as (pre & post & Et & Hf1 & Hf2).
      assert (within m (M i)) as Hmi by (eapply within_trans; [apply within_lor_r, within_refl|by apply Hin]).
      rewrite (add_child i m t used pre k c post) by (try done; by rewrite <- Ek).
      eapply safe_bind.
      { eapply (IH _ _ c (ror used (_mask t))); [|by apply (Hch k c)|by split_and!|done]. intros j [Hpj _]. by apply HP. }
      intros c' Hc'. destruct t as [w word mask sh tbl dft dc ins shs]. cbn in *. split_and!; [done|done|]. exists base. split_and!; [|done|].
      * intros j. rewrite Hi. split; [intros []; auto|]. intros [? [| ->]]; done.
      * right. exists m. rewrite Et in *. split_and!; try done.
        -- by destruct pre.
        -- unfold sized in *. rewrite !Forall_app, !Forall_cons in *. done.
        -- unfold distinct in *. rewrite !fmap_app in *. done.
        -- intros k2 c2. rewrite elem_of_app, elem_of_cons. intros Hk2.
           assert (rval k2 ≠ rval k → (k2, c2) ∈ pre ++ (k, c) :: post → shape n (λ j, A j ∨ j = i)
             (λ j, P j ∧ base ≠ Some j ∧ Z.land (O j) m = rval k2) (Z.lor u m) c2) as Hother.
           { intros Hne Hk2'. eapply shape_ext; [by apply Hch|done|]. intros j (_ & _ & Ej).
             split; [by left|]. intros [| ->]; [done|]. exfalso. apply Hne. congruence. }
           destruct Hk2 as [Hk2|[[= -> ->]|Hk2]]; [|done|]; apply Hother.
           ++ by apply (proj1 (Forall_forall _ _) Hf1 (k2, c2)).
           ++ rewrite elem_of_app. by left.
           ++ by apply (proj1 (Forall_forall _ _) Hf2 (k2, c2)).
           ++ rewrite elem_of_app, elem_of_cons. auto.
        -- intros j Hpj Hbj. destruct (Hall j Hpj Hbj) as (k2 & c2 & Hk2 & E2).
           apply elem_of_app in Hk2 as [Hk2|[[= -> ->]|Hk2]%elem_of_cons].
           ++ exists k2, c2. rewrite elem_of_app. auto.
           ++ exists k, c'. rewrite elem_of_app, elem_of_cons. auto.
           ++ exists k2, c2. rewrite elem_of_app, elem_of_cons. auto.
Qed.

(** Adding instructions one after the other. *)
Lemma add_instrs_shape n l A t : shape n A (λ i, i ∈ I) 0 t → NoDup l → (∀ i, i ∈ l → i ∈ I ∧ ¬ A i) →
  safe (add_instrs_internal endianness t l) (shape n (λ j, A j ∨ j ∈ l) (λ i, i ∈ I) 0).
Proof.
  revert A t. induction l as [|i l IH]; intros A t Ht Hd Hl; cbn [add_instrs_internal].
  - eapply shape_ext; [done|done|]. intros j _. rewrite elem_of_nil. tauto.
  - apply NoDup_cons in Hd as [Hi Hd]. eapply safe_bind.
    { apply (add_instr_shape n A (λ i, i ∈ I) 0 t i); [done|done|apply Hl, elem_of_cons; by left..]. }
    intros t' Ht'. eapply safe_weaken; [apply (IH _ _ Ht' Hd)|].
    + intros j Hj. destruct (Hl j ltac:(apply elem_of_cons; by right)) as [Hj1 Hj2]. split; [done|]. intros [?| ->]; done.
    + intros t2 H2. eapply shape_ext; [exact H2|done|]. intros j _. rewrite elem_of_cons. tauto.
Qed.

(** *** Nodes under construction *)

(** A node with a mask and no instruction yet; a new one has no mask either. *)
Definition node (m : Z) (t : InstrTable) : Prop :=
  _width t = W ∧ num W (_mask t) m ∧ _default_table t = None ∧ _instr t = None.
Definition blank (t : InstrTable) : Prop :=
  _width t = W ∧ rval (_mask t) = 0 ∧ _default_table t = None ∧ _instr t = None ∧ _table t = [].
Lemma blank_new : blank (new_table W).
Proof. split_and!; try done. apply num_zero. lia. Qed.
Lemma blank_set_word t k : blank t → blank (set_word t k).
Proof. by destruct t. Qed.
Lemma set_mask_spec t x m : blank t → num W x m → m ≠ 0 →
  safe (set_mask t x) (λ t', one_word m ∧ node m t' ∧ _table t' = [] ∧ _mask t' = x).
Proof.
  intros (Hw & Hm0 & Hd & Hi & Ht) Hx Hn. unfold set_mask. rewrite iszero_spec, Hm0. cbn [Z.eqb negb].
  pose proof (legal_mask_spec W HW x m Hx) as Hleg. pose proof (num_uint _ _ _ Hx) as Hu.
  destruct (legal_mask x) eqn:El; cbn [negb].
  2: { destruct HE as [|[E _]]; [done|]. assert (one_word m) as Ho; [|by apply Hleg in Ho]. exists 0. split; [lia|]. intros b Hb0 Hb. split; [lia|].
       apply Z.nle_gt. intros ?. by rewrite (testbit_high W) in Hb by (done || lia). }
  pose proof (proj1 Hleg eq_refl) as Ho.
  rewrite (num_iszero _ _ _ Hx), (proj2 (Z.eqb_neq m 0) Hn). cbn. split_and!; try done; apply Hx.
Qed.

Lemma num_key (x k : T) m z : num W x m → num W k z → within z m → num W (rand x k) z.
Proof. intros Hx Hk E. assert (z = Z.land m z) as -> by (by rewrite Z.land_comm). by apply num_and. Qed.

(** The children of a node: a tree for every value in the table. *)
Definition children (n : nat) (l : list Instr) (u m : Z) (t : InstrTable) : Prop :=
  sized W (_table t) ∧ distinct (_table t) ∧
  ∀ k c, (k, c) ∈ _table t → shape n (λ _, False) (λ i, i ∈ l ∧ Z.land (O i) m = rval k) (Z.lor u m) c.
Lemma children_none n l u m t : _table t = [] → children n l u m t.
Proof. unfold children, sized, distinct. intros ->. split_and!; [done|constructor|]. by intros k c Hk%elem_of_nil. Qed.
Lemma children_insert n l u m t k z c : children n l u m t → num W k z → fresh z (_table t) →
  shape n (λ _, False) (λ i, i ∈ l ∧ Z.land (O i) m = z) (Z.lor u m) c →
  children n l u m (set_table t (map_insert k c (_table t))).
Proof.
  intros (Hs & Hd & Hc) Hk Hf Hsh. destruct (map_insert_ok W k z c _ Hk Hs Hd Hf) as [Hs' Hd'].
  destruct t. cbn in *. split_and!; [done|done|]. intros k2 c2 [[= -> ->]|H2]%(map_insert_elem W k z c _ Hk Hs Hf); [|by apply Hc].
  by rewrite (proj2 Hk).
Qed.
Lemma node_shape n l u m t : node m t → m ≠ 0 → one_word m → Z.land u m = 0 → l ≠ [] → (∀ i, i ∈ l → within (Z.lor u m) (M i)) →
  children n l u m t → (∀ i, i ∈ l → ∃ k c, (k, c) ∈ _table t ∧ rval k = Z.land (O i) m) →
  shape (S n) (λ _, False) (λ i, i ∈ l) u t.
Proof.
  intros (Hw & Hmm & Hd & Hi) Hm0 Ho Hum Hl Hin (Hs & Hdi & Hch) Hall. cbn [shape]. split_and!; [done|done|].
  exists None. split_and!; [rewrite Hi; by intros i; split; [|intros []]|done|]. right. exists m. split_and!; auto.
  - intros E. destruct l as [|i l]; [done|]. destruct (Hall i) as (k & c & Hk & _); [apply elem_of_cons; by left|].
    rewrite E in Hk. by apply elem_of_nil in Hk.
  - intros k c Hk. eapply shape_ext; [by apply Hch| |done]. intros i. cbn. split; [by intros []|by intros (? & _ & ?)].
Qed.
Lemma leaf_shape n i u t : blank t → M i = u → shape (S n) (λ _, False) (λ j, j ∈ [i]) u t.
Proof.
  intros (Hw & Hmm & Hd & Hi & Ht) E. cbn [shape]. split_and!; [done|done|]. exists (Some i). split_and!.
  - rewrite Hi. by intros j; split; [|intros []].
  - intros b [= ->]. by split; [apply list_elem_of_singleton|].
  - left. exists i. split_and!; [done| |done|done]. by intros j ->%list_elem_of_singleton.
Qed.

(** *** The bits that have not been tested *)

Definition unused (u : Z) : nat := length (List.filter (λ i, negb (Z.testbit u (Z.of_nat i))) (seq 0 (Z.to_nat W))).
Lemma unused_lor u m : uint W m → m ≠ 0 → Z.land u m = 0 → (unused (Z.lor u m) < unused u)%nat.
Proof.
  intros Hu Hn Hum. destruct (nonzero_bit m) as (i & Hi & Hb); [unfold uint in Hu; lia|done|].
  assert (i < W) as Hlt. { apply Z.nle_gt. intros ?. by rewrite (testbit_high W) in Hb by (done || lia). }
  apply (filter_lt _ _ _ (Z.to_nat i)).
  - intros y. rewrite Z.lor_spec. by destruct (Z.testbit u _).
  - apply in_seq. lia.
  - rewrite Z2Nat.id by done. apply (f_equal (λ z, Z.testbit z i)) in Hum. rewrite Z.land_spec, Hb, Z.testbit_0_l, andb_true_r in Hum. by rewrite Hum.
  - by rewrite Z2Nat.id, Z.lor_spec, Hb, orb_true_r.
Qed.
Lemma unused_bound u : (unused u ≤ Z.to_nat W)%nat.
Proof. unfold unused. rewrite List.filter_length_le, length_seq. done. Qed.

(** *** Instructions without conflict flags *)

Definition plain (i : Instr) : Prop :=
  0 ≤ width (data i) ∧ instr_allow_conflict (data i) = false ∧ Forall (λ f, allow_conflict (_field f) = false) (_fields (data i)).
Lemma adjusted_0 i : adjusted endianness W i 0 = 0.
Proof.
  unfold adjusted. rewrite Z.shiftl_0_l. replace (wrap W 0) with 0 by done.
  assert (swapped W 0 = 0) as E.
  { unfold swapped, rdigits. induction (seq _ _) as [|k l IH]; [done|]. rewrite fmap_cons. cbn [beval]. by rewrite IH, Zdiv_0_l. }
  by destruct (_ && _), (is_little_endian _).
Qed.
Lemma conflict_mask_zero i : ok i → plain i → num W (conflict_mask (T := T) endianness i W) 0.
Proof.
  intros [Hs _] (_ & _ & Hf). destruct i as [d []]; [|done]. unfold conflict_mask. cbn [get_alias data] in *.
  match goal with |- num _ (adjustForLittleEndian _ ?i ?x _ _) _ => assert (num W x 0) as Hz; [|pose proof (adjust_spec endianness W i x 0 Hm Hz) as Ha; by rewrite adjusted_0 in Ha] end.
  pose proof (num_zero (T := T) W ltac:(lia)) as Hx. revert Hx. generalize (rn 0 W : T) .
  induction Hf as [|f l Hf Hl IH]; intros x Hx; cbn [fold_left]; [done|]. rewrite Hf. by apply IH.
Qed.
Lemma get_conflict_mask_zero l : Forall ok l → Forall plain l → num W (get_conflict_mask (T := T) endianness l W) 0.
Proof.
  intros Ho Hp. unfold get_conflict_mask.
  enough (∀ x sw, num W x 0 → 0 ≤ sw → let r := fold_left (λ '(mask, sw) i, (ror mask (conflict_mask endianness i W), Z.min sw (width (data i)))) l (x, sw) in
    num W (fst r) 0 ∧ 0 ≤ snd r) as Hgo.
  { destruct (Hgo (rn 0 W) 0xffffffff) as [H1 H2]; [apply num_zero; lia|lia|]. destruct (fold_left _ _ _) as [x sw]. cbn in H1, H2.
    rewrite (proj1 H1). destruct (Z.ltb_spec sw W); [|done].
    destruct (setField_zero x sw (W - 1) (rn 0 W)) as [E1 E2]; [lia|rewrite (proj1 H1); lia|apply num_zero; lia|].
    split; [by rewrite E1, (proj1 H1)|]. by rewrite E2, (proj2 H1), Z.ldiff_0_l. }
  induction Ho as [|i l Hi Ho IH]; intros x sw Hx Hsw; cbn [fold_left]; [done|]. inversion_clear Hp as [|?? Hpi Hpl].
  apply (IH Hpl); [|destruct Hpi; lia]. rewrite <- (Z.lor_0_r 0). apply num_or; [done|by apply conflict_mask_zero].
Qed.
(** Without flags there is nothing to partition, so a conflict is an error. *)
Lemma partition_none all l s : Forall plain l → snd s = false → snd (partition_loop (T := T) endianness all l W s) = false.
Proof.
  intros Hp. revert s. induction Hp as [|i l Hi Hp IH]; intros s Hs; [done|]. destruct Hp as [|j r Hj Hr]; [done|].
  cbn [partition_loop] in *. destruct (match last all with Some b => same_instr i b | None => false end); [by apply IH|].
  destruct s as [[cm cf] al]. cbn in Hs. subst al. apply IH. cbn. apply Hi.
Qed.
Lemma partitioning_throws build l used uc (t : InstrTable) : fails → _width t = W → (2 ≤ length l)%nat → Forall plain l →
  msafe (try_conflict_partitioning endianness strictMode build t l used uc) (λ _, False).
Proof.
  intros Hf Hw Hlen Hp ml. unfold try_conflict_partitioning. rewrite (proj2 (Nat.leb_gt _ 1)) by lia. rewrite Hw.
  pose proof (partition_none l l (rnot (rn 0 W), rn 0 W, false) Hp eq_refl) as E.
  destruct (partition_loop _ _ _ _ _) as [[cm cf] al]. cbn in E. subst al. done.
Qed.

(** *** One level of the tree *)

(** A list of instructions that agree on the bits used so far. *)
Definition input (l : list Instr) (u : Z) : Prop :=
  l ≠ [] ∧ NoDup l ∧ (∀ i, i ∈ l → i ∈ I ∧ within u (M i)) ∧ (∀ i j, i ∈ l → j ∈ l → Z.land (O i) u = Z.land (O j) u).
Definition built (n : nat) (l : list Instr) (u : Z) (r : bool * InstrTable) : Prop :=
  fst r = true ∧ shape n (λ _, False) (λ i, i ∈ l) u (snd r).
Lemma input_ok l u : input l u → Forall ok l.
Proof. intros (_ & _ & Hl & _). apply Forall_forall. intros i Hi. by apply I_ok, Hl. Qed.
Lemma input_separate l u : input l u → separate l.
Proof. intros (_ & Hd & Hl & _). split; [done|]. intros i j Hi Hj. apply HS; by apply Hl. Qed.
Lemma input_more l u m : input l u → (∀ i, i ∈ l → within (Z.lor u m) (M i)) → ∀ l' z, l' ≠ [] → NoDup l' →
  (∀ i, i ∈ l' → i ∈ l ∧ Z.land (O i) m = z) → input l' (Z.lor u m).
Proof.
  intros (_ & _ & Hl & Hag) Hin l' z Hne Hd Hl'. split_and!; [done|done| |].
  - intros i Hi. apply Hl' in Hi as [Hi _]. split; [by apply Hl|by apply Hin].
  - intros i j Hi Hj. apply Hl' in Hi as [Hi Ei], Hj as [Hj Ej]. apply agree_lor; [by apply Hag|congruence].
Qed.

(** The bits that instructions have in common and that have not been tested. *)
Lemma diff_part u c m : within u c → within m (Z.lxor u c) → Z.land u m = 0 ∧ within (Z.lor u m) c.
Proof.
  intros Huc Hmc. assert (∀ i, 0 ≤ i → Z.testbit m i = true → Z.testbit u i = false ∧ Z.testbit c i = true) as Hb.
  { intros i Hi Hmi. pose proof (proj1 (within_bits _ _) Hmc i Hi Hmi) as E. rewrite Z.lxor_spec in E.
    pose proof (proj1 (within_bits _ _) Huc i Hi). destruct (Z.testbit u i), (Z.testbit c i); naive_solver. }
  split.
  - apply Z.bits_inj'. intros i Hi. rewrite Z.land_spec, Z.testbit_0_l. destruct (Z.testbit m i) eqn:E; [|apply andb_false_r].
    by destruct (Hb i Hi E) as [-> _].
  - apply within_lor; [done|]. apply within_bits. intros i Hi E. by apply Hb.
Qed.
Lemma untested l u used : input l u → num W used u → ∃ c, num W (get_common_opc (T := T) endianness l W) c ∧
  num W (rxor used (get_common_opc (T := T) endianness l W)) (Z.lxor u c) ∧ within u c ∧ (∀ i, i ∈ l → within c (M i)) ∧
  (∀ b, b ∈ l → (∀ i, i ∈ l → within (M b) (M i)) → c = M b).
Proof.
  intros Hl Hu. pose proof (input_ok l u Hl) as Hok. destruct (common_spec l Hok) as (c & Hc & Hin & Hgr). exists c.
  split_and!; [done|by apply num_xor| |done|].
  - apply Hgr; [by eapply num_uint|]. intros i Hi. by apply Hl.
  - intros b Hb Hbl. apply within_antisym; [by apply Hin|]. apply Hgr; [|done]. apply mask_uint. by apply (proj1 (Forall_forall _ _) Hok).
Qed.

(** Where a conflict is found, the instructions are not nested. *)
Lemma overlap_fails l u c w : input l u → num W (get_common_opc (T := T) endianness l W) c → within u c → 0 ≤ w < W / 32 →
  (∀ i j, i ∈ l → j ∈ l → Z.land (O i) (first_part W (Z.lxor u c) w) = Z.land (O j) (first_part W (Z.lxor u c) w)) →
  (let tmp := sort_by_mask (T := T) endianness l W in overlap_ok tmp tmp = false) → fails.
Proof.
  intros Hl Hc Huc Hw Hag. cbv zeta. destruct HE as [|(E32 & c0 & Hn1 & Hn2)]; [done|]. intros Hov. exfalso.
  pose proof (input_separate l u Hl) as Hs. pose proof (sort_perm l Hs) as Hp. pose proof (sort_sorted l Hs) as Hso.
  set (tmp := sort_by_mask endianness l W) in *. assert (∀ i, i ∈ tmp ↔ i ∈ l) as He by (intros i; by rewrite Hp).
  rewrite nested_overlap in Hov; [done| |rewrite Hp; by eapply input_ok|done|].
  { destruct Hs as [H1 H2]. split; [by rewrite Hp|]. intros i j Hi%He Hj%He. by apply H2. }
  intros i j Hi%He Hj%He Hij. apply Hn2; [by apply Hl|by apply Hl|done|].
  destruct (common_spec l (input_ok l u Hl)) as (c' & Hc' & Hin & Hgr). assert (c' = c) as -> by (by rewrite <- (proj2 Hc), <- (proj2 Hc')).
  assert (within c0 c) as H0.
  { apply Hgr; [|intros k Hk; by apply Hn1, Hl]. destruct (Hn1 i ltac:(by apply Hl)) as [Hci _].
    rewrite <- Hci, Z.land_comm. apply uint_land; [lia|]. by apply mask_uint, I_ok, Hl. }
  assert (w = 0) as -> by (rewrite E32 in Hw; zlia). pose proof (num_uint _ _ _ Hc) as Hcu.
  assert (uint W u) as Huu by (rewrite <- Huc, Z.land_comm; by apply uint_land; [lia|]).
  rewrite first_part_32 in Hag by (done || apply uint_lxor; (lia || done)).
  apply (agree_within _ _ c); [done|]. assert (Z.lor u (Z.lxor u c) = c) as <-.
  { apply Z.bits_inj'. intros b Hb. rewrite Z.lor_spec, Z.lxor_spec. pose proof (proj1 (within_bits _ _) Huc b Hb).
    destruct (Z.testbit u b), (Z.testbit c b); auto. symmetry. auto. }
  apply agree_lor; [by apply Hl|by apply Hag].
Qed.
Lemma single_key i m j : j ∈ [i] ↔ j ∈ [i] ∧ Z.land (O j) m = Z.land (O i) m.
Proof. rewrite list_elem_of_singleton. split; [by intros ->|by intros []]. Qed.

Section Level.
Context (n : nat) (build : InstrTable → list Instr → T → T → mlog (bool * InstrTable)).
Context (Hbuild : ∀ t l used uc u v, blank t → input l u → num W used u → num W uc v → (unused u + length l < n)%nat →
  msafe (build t l used uc) (built n l u)).

(** A new node for a value, and the tree below it. *)
Lemma child_spec t m k k' z l l' u used uc v : node m t → children n l u m t → num W k z → num W k' z → within z m →
  fresh z (_table t) → (∀ i, i ∈ l' ↔ i ∈ l ∧ Z.land (O i) m = z) → input l' (Z.lor u m) → num W used u → num W uc v →
  (unused (Z.lor u m) + length l' < n)%nat →
  msafe (build_child build (add_node t k) k' l' (ror (_mask (add_node t k)) used) uc)
    (λ r, fst r = true ∧ node m (snd r) ∧ _mask (snd r) = _mask t ∧ children n l u m (snd r) ∧
      ∀ y, y ∈ (rval ∘ fst <$> _table (snd r)) ↔ y = z ∨ y ∈ (rval ∘ fst <$> _table t)).
Proof.
  intros Hn Hc Hk Hk' Hzm Hf Hl' Hin Hu Hv Hlt. pose proof Hn as (Hw & Hmm & Hd & Hi). pose proof Hc as (Hs & Hdi & _).
  assert (num W (rand (_mask t) k) z) as Hkey by by apply (num_key _ _ m).
  unfold build_child, add_node. destruct t as [w word mask sh tbl dft dc ins shs]. cbn in *.
  rewrite (map_find_insert W _ _ z) by done. subst w.
  eapply msafe_bind; [eapply (Hbuild _ l' _ _ (Z.lor u m) v); [apply blank_new|done| |done|done]|].
  { rewrite Z.lor_comm. by apply num_or. }
  intros [ok c] [E Hsh]. cbn in E, Hsh. subst ok. apply msafe_ret. cbn. rewrite (map_update_insert W _ _ z) by done.
  split_and!; try done.
  - apply (children_insert n l u m (Table W word mask sh tbl dft dc ins shs) _ z c); [done|done|done|].
    eapply shape_ext; [exact Hsh| |done]. intros i. by rewrite Hl'.
  - intros y. rewrite !list_elem_of_fmap. setoid_rewrite (map_insert_elem W _ z c tbl Hkey Hs Hf). split.
    + intros (p & -> & [->|Hp]); [left; apply Hkey|right; by exists p].
    + intros [->|(p & -> & Hp)]; [exists (rand mask k, c); split; [symmetry; apply Hkey|by left]|exists p; auto].
Qed.
Lemma add_values_spec l u m used uc v values t : m ≠ 0 → uint W m → Z.land u m = 0 → (∀ i, i ∈ l → within (Z.lor u m) (M i)) →
  input l u → num W used u → num W uc v → (unused u + length l ≤ n)%nat →
  node m t → children n l u m t → Forall (λ x, rsize x = W) values → NoDup (rval <$> values) →
  (∀ z, z ∈ rval <$> values → (∃ i, i ∈ l ∧ z = Z.land (O i) m) ∧ fresh z (_table t)) →
  msafe (add_values endianness build t values l used uc) (λ r, fst r = true ∧ node m (snd r) ∧ children n l u m (snd r) ∧
    ∀ z, z ∈ rval <$> values ∨ z ∈ (rval ∘ fst <$> _table t) → z ∈ (rval ∘ fst <$> _table (snd r))).
Proof.
  intros Hm0 Hmu Hum Hin Hl Hu Hv Hlt. revert t. induction values as [|x values IH]; intros t Hn Hc Hs Hd Hz; cbn [add_values].
  - apply msafe_ret. split_and!; try done. intros z [Hz'|]; [by apply elem_of_nil in Hz'|done].
  - inversion_clear Hs as [|?? Hx Hs']. cbn [fmap list_fmap] in Hd, Hz. inversion_clear Hd as [|?? Hnx Hd'].
    destruct (Hz (rval x)) as [(i & Hi & Ei) Hf]; [apply elem_of_cons; by left|].
    pose proof Hn as (Hw & Hmm & _). assert (num W x (rval x)) as Hxn by by split.
    assert (_mask (add_node t x) = _mask t) as Em by done. rewrite Em.
    pose proof (common_instrs_elem x _ _ m l Hxn Hmm (input_ok l u Hl)) as He.
    set (tmp := get_common_instrs endianness x (_mask t) l) in *.
    assert (NoDup tmp) as Hdt. { apply NoDup_ListNoDup. apply List.NoDup_filter. apply NoDup_ListNoDup. apply Hl. }
    assert (length tmp ≤ length l)%nat by apply List.filter_length_le. pose proof (unused_lor u m Hmu Hm0 Hum).
    eapply msafe_bind; [rewrite <- Em at 1; apply (child_spec t m x x (rval x) l tmp u used uc v); try done|].
    + rewrite Ei. apply within_bits. intros b _. rewrite Z.land_spec. by intros [_ ?]%andb_prop.
    + apply (input_more l u m Hl Hin tmp (rval x)); [|done|by intros j Hj; apply He].
      intros E. apply (elem_of_nil (A := Instr) i). rewrite <- E. by apply He.
    + lia.
    + intros [ok t'] (E & Hn' & _ & Hc' & Hk). cbn in E. subst ok. cbn [fst snd] in *.
      eapply msafe_weaken; [apply (IH t' Hn' Hc' Hs' Hd')|].
      * intros z Hz'. destruct (Hz z) as [? Hf']; [apply elem_of_cons; by right|]. split; [done|].
        apply Forall_forall. intros p Hp Ep. assert (z ∈ rval ∘ fst <$> _table t') as Hzt by (apply list_elem_of_fmap; by exists p).
        apply Hk in Hzt as [->|(q & -> & Hq)%list_elem_of_fmap]; [done|]. by apply (proj1 (Forall_forall _ _) Hf' q Hq).
      * intros r (E & Hn2 & Hc2 & Hk2). split_and!; [done|done|done|]. intros z Hz'. apply Hk2. rewrite Hk.
        rewrite fmap_cons, elem_of_cons in Hz'. tauto.
Qed.
Lemma add_to_tree_spec l u m x used uc v t : blank t → num W x m → m ≠ 0 → Z.land u m = 0 → (∀ i, i ∈ l → within (Z.lor u m) (M i)) →
  input l u → num W used u → num W uc v → (unused u + length l ≤ n)%nat →
  msafe (add_to_tree endianness build t (get_values endianness x l) l x used uc) (built (S n) l u).
Proof.
  intros Ht Hx Hm0 Hum Hin Hl Hu Hv Hlt. pose proof (num_uint _ _ _ Hx) as Hmu.
  unfold add_to_tree. eapply msafe_bind; [apply msafe_lift, (set_mask_spec t x m); done|].
  intros t' (Ho & Hn & Ht' & _). destruct (values_spec x m l Hx (input_ok l u Hl)) as [Hi He].
  eapply msafe_weaken; [apply (add_values_spec l u m used uc v _ t'); try done|].
  - by apply children_none.
  - apply Hi.
  - by apply increasing_NoDup.
  - intros z Hz. split; [by apply He|]. rewrite Ht'. constructor.
  - intros r (E & Hn' & Hc & Hk). split; [done|]. apply (node_shape n l u m); try done; [apply Hl|].
    intros i Hi'. destruct (proj1 (list_elem_of_fmap _ _ _) (Hk (Z.land (O i) m) ltac:(left; apply He; by exists i))) as ([k c] & Ek & Hp).
    exists k, c. by split.
Qed.

(** A single instruction: a node for its next bits, and a leaf where none are left. *)
Definition loop_post (allow : bool) (k : nat) (l : list Instr) (u : Z) (r : option bool * InstrTable) : Prop :=
  match fst r with
  | Some b => b = true ∧ shape (S n) (λ _, False) (λ i, i ∈ l) u (snd r)
  | None => blank (snd r) ∧ (k ≠ 0%nat → fails ∧ allow = false)
  end.
Lemma single_step i used uc allow k t u v : blank t → 0 ≤ _word t < W / 32 → input [i] u → num W used u → num W uc v →
  (unused u + 1 ≤ n)%nat →
  msafe (word_loop endianness strictMode build (rxor used (get_common_opc endianness [i] W)) [i] used uc allow (S k) t)
    (loop_post allow (S k) [i] u).
Proof.
  intros Ht Hwd Hl Hu Hv Hlt. destruct (untested [i] u used Hl Hu) as (c & Hc & Ho & Huc & Hin & Hcm).
  assert (i ∈ [i]) as Hi by by apply list_elem_of_singleton.
  assert (c = M i) as -> by (apply Hcm; [done|]; intros j ->%list_elem_of_singleton; apply within_refl).
  pose proof (split_mask_num W HW Hm _ _ (_word t) Ho Hwd) as Hx. destruct (first_part_within W (Z.lxor u (M i)) (_word t) Hwd) as [Hmw Hm0].
  set (m := first_part W _ _) in *. cbn [word_loop].
  set (x := split_mask _ (_word t)) in *. destruct (diff_part u (M i) m Huc Hmw) as [Hum Humc].
  pose proof Ht as [Hw _]. rewrite Hw, (num_iszero _ _ _ Hx). destruct (Z.eqb_spec m 0) as [E|E].
  { apply msafe_ret. split; [done|]. apply leaf_shape; [done|]. symmetry. by apply Z.lxor_eq, Hm0. }
  destruct (opcode_num i) as [Hopc _]; [by apply I_ok, Hl|].
  eapply msafe_bind; [apply msafe_lift, (set_mask_spec t x m); done|]. intros t' (How & Hn & Ht' & Hmask).
  pose proof Hn as (Hw' & Hmm & _). assert (_mask (add_node t' (rand x (opcode i W))) = _mask t') as Em by done.
  pose proof (num_and _ _ _ _ _ Hx Hopc) as Hkey.
  pose proof (num_xor _ _ _ _ _ (num_or _ _ _ _ _ Hmm Hu) Hc) as Hr. rewrite Em.
  rewrite (num_iszero _ _ _ Hr), (num_iszero _ _ _ (num_and _ _ _ _ _ Hc Hr)), (Z.lor_comm m u).
  assert (Z.land m (O i) = Z.land (O i) m) as Eo by apply Z.land_comm. rewrite Eo in Hkey.
  assert (within (Z.land (O i) m) m) as Hkm by (apply within_bits; intros b _; rewrite Z.land_spec; by intros [_ ?]%andb_prop).
  destruct (Z.eqb_spec (Z.lxor (Z.lor u m) (M i)) 0) as [Ez|Ez].
  - apply msafe_ret. split; [done|]. apply Z.lxor_eq in Ez.
    assert (num W (rand (_mask t') (rand x (opcode i W))) (Z.land (O i) m)) as Hk2.
    { by apply (num_key _ _ m). }
    cbn [snd]. apply (node_shape n [i] u m); try done.
    + intros j ->%list_elem_of_singleton. done.
    + unfold add_node. rewrite Hw'. apply (children_insert n [i] u m t' _ (Z.land (O i) m)); [by apply children_none|done|by rewrite Ht'; constructor|].
      destruct n as [|n']; [lia|]. eapply shape_ext; [apply (leaf_shape n' i); [apply blank_new|done]| |done].
      apply single_key.
    + intros j ->%list_elem_of_singleton. destruct t'. cbn in *. subst. cbn. do 2 eexists. split; [by apply list_elem_of_singleton|].
      apply Hk2.
  - destruct (Z.eqb_spec (Z.land (M i) (Z.lxor (Z.lor u m) (M i))) 0) as [Ea|Ea].
    + exfalso. apply Ez. apply Z.bits_inj'. intros b Hb. rewrite Z.testbit_0_l, Z.lxor_spec.
      apply (f_equal (λ z, Z.testbit z b)) in Ea. rewrite Z.land_spec, Z.lxor_spec, Z.testbit_0_l in Ea.
      pose proof (proj1 (within_bits _ _) Humc b Hb) as Hin'. destruct (Z.testbit (M i) b), (Z.testbit (Z.lor u m) b); try done. by discriminate Hin'.
    + pose proof (unused_lor u m (num_uint _ _ _ Hx) E Hum).
      eapply msafe_bind; [rewrite <- Em at 1; apply (child_spec t' m _ _ (Z.land (O i) m) [i] [i] u used uc v); try done|].
      * by apply children_none.
      * rewrite Ht'. constructor.
      * apply single_key.
      * apply (input_more [i] u m Hl) with (z := Z.land (O i) m); [by intros j ->%list_elem_of_singleton|done|apply NoDup_singleton|].
        apply single_key.
      * cbn. lia.
      * intros [okb t2] (_ & Hn2 & _ & Hc2 & Hk2). apply msafe_ret. split; [done|]. cbn [snd] in *.
        apply (node_shape n [i] u m); try done; [by intros j ->%list_elem_of_singleton|].
        intros j ->%list_elem_of_singleton. destruct (proj1 (list_elem_of_fmap _ _ _) (proj2 (Hk2 _) (or_introl eq_refl))) as ([k2 c2] & Ek & Hp).
        by exists k2, c2.
Qed.

(** Instructions that agree on the common bits of a word: those with larger masks
    go below the one with the smallest. *)
Lemma add_smallest (l rest : list Instr) u b t : shape n (λ _, False) (λ i, i ∈ rest) u t → (∀ i, i ∈ l ↔ i ∈ rest ∨ i = b) → M b = u →
  (∀ i, i ∈ rest → M i ≠ u ∧ i ≠ b) → shape (S n) (λ _, False) (λ i, i ∈ l) u t.
Proof.
  intros Hsh Hl Eb Hne. apply shape_mono in Hsh. destruct Hsh as (Hw & Hd & base & Hi & Hb & Hc).
  assert (base = None) as ->.
  { destruct base as [b'|]; [|done]. destruct (Hb b' eq_refl) as [H1 H2]. by apply Hne in H1 as [? _]. }
  destruct Hc as [(? & ? & _)|(m & Hmm & Hm0 & Ho & Hum & Ht & Hin & Hs & Hdi & Hch & Hall)]; [done|].
  cbn [shape]. split_and!; [done|done|]. exists (Some b). split_and!.
  - intros i. rewrite Hi. by split; intros [].
  - intros ? [= <-]. split; [apply Hl; by right|done].
  - assert (∀ i, i ∈ l → Some b ≠ Some i → i ∈ rest) as Hr by (intros i [?| ->]%Hl ?; done).
    right. exists m. split_and!; auto.
    intros k c Hk. eapply shape_ext; [by apply Hch| |done]. intros i. split.
    + intros (H1 & _ & H2). split_and!; [apply Hl; by left| |done]. intros [= ->]. by apply Hne in H1 as [_ ?].
    + intros (H1 & H2 & H3). split_and!; auto.
Qed.
Lemma smallest_spec l tmp b u used uc v t x m : (2 ≤ length l)%nat → blank t → input l u → num W used u → num W uc v →
  (unused u + length l ≤ n)%nat → tmp ≡ₚ l → last tmp = Some b →
  (∀ i, i ∈ l → within (M b) (M i) ∧ ((∀ j, j ∈ l → Z.land (O j) (M b) = Z.land (O b) (M b)) → i ≠ b → M i ≠ M b)) →
  num W x m → within m (Z.lxor u (M b)) → (m = 0 → Z.lxor u (M b) = 0) →
  (∀ i j, i ∈ l → j ∈ l → Z.land (O i) m = Z.land (O j) m) →
  msafe (if negb (iszero x) then
      let val := rand x (opcode b W) in
      let^ t := mlift (set_mask t x) in
      let t := add_node t (rand x val) in
      let^ r := build_child build t (rand x val) tmp (ror (_mask t) used) uc in
      mret (true, snd r)
    else
      let^ r := build t (take (length tmp - 1) tmp) used uc in mret (true, snd r))
    (λ r, fst r = true ∧ shape (S n) (λ _, False) (λ i, i ∈ l) u (snd r)).
Proof.
  intros Hlen Ht Hl Hu Hv Hlt Hp Eb Hch Hx Hmw Hm0 Hag. rewrite (num_iszero _ _ _ Hx).
  assert (∀ i, i ∈ tmp ↔ i ∈ l) as He by (intros i; by rewrite Hp).
  assert (length tmp = length l) as Elen by by rewrite Hp.
  assert (b ∈ l) as Hbl by (apply He; by apply last_Some_elem_of).
  assert (within u (M b)) as Hub by by apply Hl.
  assert (NoDup tmp) as Hdt by (rewrite Hp; apply Hl).
  destruct (Z.eqb_spec m 0) as [E|E]; cbn [negb].
  - apply Hm0, Z.lxor_eq in E. subst u. apply last_Some in Eb as [rest Et].
    assert (take (length tmp - 1) tmp = rest) as -> by (rewrite Et, length_app; cbn; by rewrite Nat.add_sub, take_app_length).
    assert (length l = S (length rest)) as Er by (rewrite <- Elen, Et, length_app; cbn; lia).
    assert (∀ i, i ∈ l ↔ i ∈ rest ∨ i = b) as Hlr by (intros i; by rewrite <- He, Et, elem_of_app, list_elem_of_singleton).
    rewrite Et in Hdt. apply NoDup_app in Hdt as (Hdr & Hnb & _).
    eapply msafe_bind; [apply (Hbuild t rest used uc (M b) v); try done|].
    + split_and!; [by intros ->; cbn in Er; lia|done| |].
      * intros i Hi. apply Hl, Hlr. by left.
      * intros i j Hi Hj. apply Hl; apply Hlr; by left.
    + lia.
    + intros r [_ Hsh]. apply msafe_ret. split; [done|]. apply (add_smallest l rest (M b) b); try done.
      intros i Hi. assert (i ≠ b) as Hib by (intros ->; apply (Hnb b Hi); by apply list_elem_of_singleton).
      split; [|done]. apply Hch; [apply Hlr; by left| |done]. intros j Hj. by apply Hl.
  - destruct (diff_part u (M b) m Hub Hmw) as [Hum Humc]. destruct (opcode_num b) as [Hopc _]; [by apply I_ok, Hl|].
    eapply msafe_bind; [apply msafe_lift, (set_mask_spec t x m); done|]. intros t' (How & Hn & Ht' & Hmask).
    assert (num W (rand x (rand x (opcode b W))) (Z.land (O b) m)) as Hkey.
    { apply (num_key _ _ m); [done|rewrite Z.land_comm; by apply num_and|]. apply within_bits. intros z _. rewrite Z.land_spec. by intros [_ ?]%andb_prop. }
    assert (∀ i, i ∈ l → within (Z.lor u m) (M i)) as Hin by (intros i Hi; eapply within_trans; [done|by apply Hch]).
    pose proof (unused_lor u m (num_uint _ _ _ Hx) E Hum).
    eapply msafe_bind; [apply (child_spec t' m _ _ (Z.land (O b) m) l tmp u used uc v); try done|].
    + by apply children_none.
    + apply within_bits. intros z _. rewrite Z.land_spec. by intros [_ ?]%andb_prop.
    + rewrite Ht'. constructor.
    + intros i. rewrite He. split; [|by intros []]. intros Hi. split; [done|]. by apply Hag.
    + apply (input_more l u m Hl Hin tmp (Z.land (O b) m)); [by intros ->; cbn in Elen; lia|done|].
      intros i Hi%He. split; [done|]. by apply Hag.
    + lia.
    + intros [okb t2] (_ & Hn2 & _ & Hc2 & Hk2). apply msafe_ret. split; [done|]. cbn [snd] in *.
      apply (node_shape n l u m); try done; [apply Hl|]. intros i Hi. rewrite (Hag i b Hi Hbl).
      destruct (proj1 (list_elem_of_fmap _ _ _) (proj2 (Hk2 _) (or_introl eq_refl))) as ([k2 c2] & Ek & Hpk). by exists k2, c2.
Qed.
Lemma construct_spec l u used uc v t : (2 ≤ length l)%nat → blank t → input l u → num W used u → num W uc v →
  (unused u + length l ≤ n)%nat → let tmp := sort_by_mask (T := T) endianness l W in
  overlap_ok tmp tmp = false ∨ (∃ c, num W (get_common_opc (T := T) endianness l W) c ∧
    ∀ i j, i ∈ l → j ∈ l → Z.land (O i) (first_part W (Z.lxor u c) 0) = Z.land (O j) (first_part W (Z.lxor u c) 0)) →
  msafe (construct_tree_from_instrs endianness strictMode build t l used uc false)
    (λ r, if fst r then shape (S n) (λ _, False) (λ i, i ∈ l) u (snd r)
          else snd r = set_word t (_word t + 1) ∧ overlap_ok tmp tmp = false).
Proof.
  intros Hlen Ht Hl Hu Hv Hlt tmp Hag. pose proof Ht as [Hw _]. unfold construct_tree_from_instrs. rewrite Hw. fold tmp.
  pose proof (sort_perm l (input_separate l u Hl)) as Hp. fold tmp in Hp.
  assert (∀ i, i ∈ tmp ↔ i ∈ l) as He by (intros i; by rewrite Hp).
  assert (length tmp = length l) as Elen by by rewrite Hp.
  assert (Forall ok tmp) as Hok by (rewrite Hp; by eapply input_ok).
  assert (separate tmp) as Hsep.
  { destruct (input_separate l u Hl) as [H1 H2]. split; [by rewrite Hp|]. intros i j Hi%He Hj%He. by apply H2. }
  intros ml. unfold mbind at 1. destruct (check_overlap_spec tmp ml Hok ltac:(lia)) as [ml' ->]. cbn [obind fst snd].
  destruct (overlap_ok tmp tmp) eqn:Eok; [|by split]. destruct Hag as [|(c & Hc & Hag)]; [done|].
  destruct (last tmp) as [b|] eqn:Eb; [|by apply last_None in Eb; rewrite Eb in Elen; cbn in Elen; lia].
  pose proof (overlap_ok_chain tmp b Eok Hsep Eb) as Hch.
  assert (b ∈ l) as Hbl by (apply He; by apply last_Some_elem_of).
  destruct (untested l u used Hl Hu) as (c' & Hc' & _ & _ & _ & Hcm).
  assert (c = M b) as ->.
  { rewrite <- (proj2 Hc), (proj2 Hc'). apply Hcm; [done|]. intros i Hi. by apply Hch, He. }
  pose proof (mask_num b ltac:(by apply I_ok, Hl)) as Hmb. assert (0 ≤ 0 < W / 32) as Hw0 by zlia.
  destruct (first_part_within W (Z.lxor u (M b)) 0 Hw0) as [H1 H2].
  eapply safe_weaken; [apply (smallest_spec l tmp b u used uc v t _ (first_part W (Z.lxor u (M b)) 0)); try done|].
  - intros i Hi. apply He in Hi as Hi'. destruct (Hch i Hi') as [H3 H4]. split; [done|]. intros Hj. apply H4. intros j Hj'. by apply Hj, He.
  - apply split_mask_num; [done|done|by apply num_xor|done].
  - intros [[okb t'] ?] [E Hsh]. cbn in E, Hsh |- *. by subst okb.
Qed.

(** The attempts, word by word. *)
Lemma loop_step l used uc k t u v allow : (2 ≤ length l)%nat → Forall plain l → input l u → num W used u → num W uc v →
  (unused u + length l ≤ n)%nat → (allow = true → fails) → blank t → 0 ≤ _word t → _word t + Z.of_nat k = W / 32 →
  (_word t = 0 ∨ let tmp := sort_by_mask (T := T) endianness l W in overlap_ok tmp tmp = false) →
  msafe (word_loop endianness strictMode build (rxor used (get_common_opc endianness l W)) l used uc allow k t) (loop_post allow k l u).
Proof.
  intros Hlen Hpl Hl Hu Hv Hlt Hal. revert t. induction k as [|k IH]; intros t Ht Hw0 Hwk Hov; [by apply msafe_ret|]. cbn [word_loop].
  assert (∀ (A : Type) (f : Instr → A) (x : A), match l with [i] => f i | _ => x end = x) as Em.
  { intros A f x. destruct l as [|i [|j l]]; cbn in Hlen; [lia|lia|done]. }
  rewrite Em. clear Em. destruct (untested l u used Hl Hu) as (c & Hc & Ho & Huc & Hin & _).
  assert (0 ≤ _word t < W / 32) as Hwd by lia. pose proof (split_mask_num W HW Hm _ _ (_word t) Ho Hwd) as Hx.
  destruct (first_part_within W (Z.lxor u c) (_word t) Hwd) as [Hmw _].
  set (x := split_mask _ (_word t)) in *. set (m := first_part W _ _) in *.
  destruct (values_spec x m l Hx (input_ok l u Hl)) as [Hinc Hval]. destruct (diff_part u c m Huc Hmw) as [Hum Humc].
  pose proof Ht as [Hwt _]. rewrite Hwt.
  destruct (Nat.eqb_spec (length (get_values endianness x l)) 1) as [E1|E1].
  - assert (∀ i j, i ∈ l → j ∈ l → Z.land (O i) m = Z.land (O j) m) as Hag.
    { destruct (get_values endianness x l) as [|y [|]]; try done. cbn in Hval. intros i j Hi Hj.
      assert (Z.land (O i) m ∈ [rval y]) as ->%list_elem_of_singleton by (apply Hval; by exists i).
      assert (Z.land (O j) m ∈ [rval y]) as ->%list_elem_of_singleton by (apply Hval; by exists j). done. }
    destruct allow.
    + eapply (msafe_bind _ _ (λ _, False)); [|done].
      pose proof (num_and _ _ _ _ _ (get_conflict_mask_zero l (input_ok l u Hl) Hpl) (num_not _ _ _ Hv)) as Hz. rewrite Z.land_0_l in Hz.
      rewrite (num_iszero _ _ _ Hz). cbn [Z.eqb negb]. eapply msafe_bind; [by apply partitioning_throws; auto|]. done.
    + eapply (msafe_bind _ _ (λ r, r = (None, t))); [by apply msafe_ret|]. intros ? ->. cbn [fst snd]. rewrite andb_false_r.
      eapply msafe_bind; [apply (construct_spec l u used uc v t); try done|].
      * destruct Hov as [E0|?]; [right|by left]. exists c. split; [done|]. unfold m in Hag. by rewrite E0 in Hag.
      * intros [okb t'] Hr. destruct okb; cbn [fst snd] in *.
        -- apply msafe_ret. by split.
        -- destruct Hr as [-> Hr]. eapply msafe_weaken; [apply IH|].
           ++ by apply blank_set_word.
           ++ destruct t. cbn in *. lia.
           ++ destruct t. cbn in *. lia.
           ++ by right.
           ++ intros r. unfold loop_post. destruct (fst r); [done|]. intros [Hb _]. split; [done|]. intros _. split; [|done].
              by apply (overlap_fails l u c (_word t)).
  - assert (m ≠ 0) as Hm0.
    { intros E. destruct Hl as (Hne & _). destruct l as [|i0 l0]; [done|]. apply E1.
      assert (∀ z, z ∈ rval <$> get_values endianness x (i0 :: l0) ↔ z = 0) as Hv0.
      { intros z. rewrite Hval, E. setoid_rewrite Z.land_0_r. split; [by intros (? & _ & ->)|]. intros ->. exists i0. split; [apply elem_of_cons; by left|done]. }
      pose proof (increasing_NoDup _ Hinc) as Hd. rewrite <- (length_fmap rval). destruct (rval <$> _) as [|y [|y' r]].
      - by pose proof (proj2 (Hv0 0) eq_refl) as ?%elem_of_nil.
      - done.
      - exfalso. assert (y = 0 ∧ y' = 0) as [-> ->] by (split; apply Hv0; rewrite !elem_of_cons; auto).
        inversion_clear Hd as [|?? Hd1 _]. apply Hd1, elem_of_cons. by left. }
    eapply msafe_bind; [apply (add_to_tree_spec l u m x used uc v t); try done|].
    + intros i Hi. eapply within_trans; [done|by apply Hin].
    + intros [okb t'] [E Hsh]. apply msafe_ret. by split.
Qed.
End Level.

(** The whole recursion: the fuel covers the bits and the instructions. *)
Context (HP : Forall plain I).
Lemma build_tree_spec fuel t l used uc u v : blank t → input l u → num W used u → num W uc v → (unused u + length l < fuel)%nat →
  msafe (build_tree endianness strictMode fuel t l used uc) (built fuel l u).
Proof.
  revert t l used uc u v. induction fuel as [|n IH]; intros t l used uc u v Ht Hl Hu Hv Hlt; [lia|]. cbn [build_tree].
  pose proof Ht as [Hw _]. rewrite Hw. destruct (untested l u used Hl Hu) as (c & _ & Ho & _). rewrite (proj1 Ho).
  assert (Forall plain l) as Hpl.
  { apply Forall_forall. intros i Hi. apply (proj1 (Forall_forall _ _) HP). by apply Hl. }
  assert (∀ allow t, (allow = true → fails) → blank t → msafe (word_loop endianness strictMode (build_tree endianness strictMode n) (rxor used (get_common_opc endianness l W))
    l used uc allow (Z.to_nat (W / 32)) (set_word t 0)) (loop_post n allow (Z.to_nat (W / 32)) l u)) as Hloop.
  { intros allow t' Hal Ht'. destruct l as [|i [|j r]]; [by destruct Hl| |].
    - assert (∃ k, Z.to_nat (W / 32) = S k) as [k ->] by (exists (Z.to_nat (W / 32 - 1)); zlia).
      apply (single_step n _ IH i used uc allow k _ u v); try done; [cbn; zlia|cbn in Hlt; lia].
    - apply (loop_step n _ IH (i :: j :: r) used uc _ _ u v); try done; [cbn; lia|lia|cbn; zlia|by left]. }
  eapply msafe_bind; [by apply Hloop|]. intros [[b|] t1]; unfold loop_post; cbn [fst snd].
  - intros [-> Hsh]. by apply msafe_ret.
  - assert (Z.to_nat (W / 32) ≠ 0%nat) as Hk by zlia.
    intros [Ht1 Hf]. destruct (Hf Hk) as [Hfails _]. eapply msafe_bind; [by apply Hloop|]. intros [[b|] t2]; unfold loop_post; cbn [fst snd].
    + intros [-> Hsh]. by apply msafe_ret.
    + intros [_ E]. by destruct (E Hk).
Qed.
End Tree.
