(* ===== verification/InstrTableFinal.v ===== *)
(** * Merging of the decode tree, and the decoder of a core

    [InstrTable::merge] and [finalize] keep the shape of the tree; with the
    construction of InstrTableCorrect.v this gives the table of a core
    ([Core::build_instrtables], [Core::finalize]) and what its decoder does. *)
From stdpp Require Import prelude strings.
From Stdlib Require Import ZArith Lia.
From S2P Require Import Prelude.
From S2P Require Import Encoding.
From S2P Require Import InstrTable.
From S2P Require Import InstrTableCorrect.

Local Open Scope Z_scope.

Section Final.
Context {T : Type} `{RL : RNumberLaws T} (endianness strictMode : bool) (W : Z) (HW : 0 < W < 2 ^ 31) (Hm : W mod 32 = 0).
Local Abbreviation InstrTable := (InstrTable (T := T)).
Local Abbreviation M := (opc_bits endianness W).
Local Abbreviation O := (opc_val (T := T) endianness W).
(** A tree that all instructions have been added to. *)
Local Abbreviation full n := (shape (T := T) endianness W n (λ _, True)).

Lemma shape_le n n' A P u (t : InstrTable) : (n ≤ n')%nat → shape endianness W n A P u t → shape endianness W n' A P u t.
Proof. intros Hn Ht. induction Hn; [done|by apply shape_mono]. Qed.
Lemma height_child (t : InstrTable) k c : (k, c) ∈ _table t → (height c < height t)%nat.
Proof.
  destruct t as [w word mask sh tbl dft dc ins shs]. cbn [_table height]. intros Hk. apply Nat.lt_succ_r.
  induction tbl as [|[k' c'] tbl IH]; [by apply elem_of_nil in Hk|]. apply elem_of_cons in Hk as [[= -> ->]|Hk]; [lia|]. specialize (IH Hk). lia.
Qed.
Lemma shape_height n A P u (t : InstrTable) : shape endianness W n A P u t → shape endianness W (height t) A P u t.
Proof.
  revert P u t. induction n as [|n IH]; intros P u t; [done|]. intros (Hw & Hd & base & Hi & Hb & Hc).
  assert (∃ h, height t = S h) as [h Eh] by (destruct t; eexists; reflexivity). rewrite Eh. cbn [shape]. split_and!; [done|done|].
  exists base. split_and!; [done|done|].
  destruct Hc as [Hl|(m & Hmm & Hm0 & Ho & Hum & Ht & Hin & Hs & Hdi & Hch & Hall)]; [by left|].
  right. exists m. split_and!; auto. intros k c Hk. apply (shape_le (height c)); [|by apply IH, Hch].
  pose proof (height_child t k c Hk). lia.
Qed.

(** ** Merging *)

(** The grandchildren, with the keys of both levels. *)
Definition flatten (l : list (T * InstrTable)) : list (T * InstrTable) :=
  flat_map (λ p, (λ q, (ror (fst q) (fst p), snd q)) <$> _table (snd p)) l.
Lemma merge_flatten (l h : list (T * InstrTable)) :
  fold_left (λ h '(k, c), fold_left (λ h '(k', c'), map_insert (ror k' k) c' h) (_table c) h) l h =
  fold_left (λ h p, map_insert (fst p) (snd p) h) (flatten l) h.
Proof.
  assert (∀ (k : T) (tbl h : list (T * InstrTable)), fold_left (λ h '(k', c'), map_insert (ror k' k) c' h) tbl h =
    fold_left (λ h p, map_insert (fst p) (snd p) h) ((λ q, (ror (fst q) k, snd q)) <$> tbl) h) as Hin.
  { intros k tbl. induction tbl as [|[k' c'] tbl IHt]; intros h'; [done|]. apply IHt. }
  revert h. induction l as [|[k c] l IH]; intros h; [done|]. cbn [fold_left flatten flat_map fst snd].
  by rewrite fold_left_app, IH, Hin.
Qed.
Lemma split_lor a b m m' : within a m' → within b m → Z.land m m' = 0 → Z.land (Z.lor a b) m' = a ∧ Z.land (Z.lor a b) m = b.
Proof.
  intros Ha Hb E. rewrite !Z.land_lor_distr_l. rewrite Ha, Hb.
  assert (Z.land b m' = 0) as ->. { rewrite <- Hb, <- Z.land_assoc, E. apply Z.land_0_r. }
  assert (Z.land a m = 0) as ->. { rewrite <- Ha, <- Z.land_assoc, (Z.land_comm m'), E. apply Z.land_0_r. }
  by rewrite Z.lor_0_r, Z.lor_0_l.
Qed.
Lemma elem_flatten l kk c' : (kk, c') ∈ flatten l ↔ ∃ k c k', (k, c) ∈ l ∧ (k', c') ∈ _table c ∧ kk = ror k' k.
Proof.
  unfold flatten. rewrite list_elem_of_In, in_flat_map. split.
  - intros ([k c] & Hk%list_elem_of_In & Hq%list_elem_of_In). cbn in Hq. apply list_elem_of_fmap in Hq as ([k' c2] & [= -> ->] & Hq). by exists k, c, k'.
  - intros (k & c & k' & Hk & Hk' & ->). exists (k, c). split; [by apply list_elem_of_In|]. apply list_elem_of_In, list_elem_of_fmap. by exists (k', c').
Qed.
Lemma flatten_distinct m m' l : Z.land m m' = 0 → distinct l → sized W l → (∀ k c, (k, c) ∈ l → within (rval k) m) →
  (∀ k c, (k, c) ∈ l → sized W (_table c) ∧ distinct (_table c) ∧ ∀ k' c', (k', c') ∈ _table c → within (rval k') m') →
  sized W (flatten l) ∧ distinct (flatten l).
Proof.
  intros E Hd Hs Hk Hc. assert (∀ k c k' c', (k, c) ∈ l → (k', c') ∈ _table c → num W (ror k' k) (Z.lor (rval k') (rval k))) as Hn.
  { intros k c k' c' H1 H2. destruct (Hc k c H1) as (Hs' & _). apply num_or; (split; [|done]).
    - by apply (proj1 (Forall_forall _ _) Hs' (k', c')).
    - by apply (proj1 (Forall_forall _ _) Hs (k, c)). }
  split; [apply Forall_forall; intros [kk c'] (k & c & k' & H1 & H2 & ->)%elem_flatten; by eapply Hn|].
  induction l as [|[k c] l IH]; [constructor|]. unfold distinct in *. cbn [flatten flat_map]. rewrite fmap_app. cbn in Hd. inversion_clear Hd as [|?? Hdk Hd'].
  inversion_clear Hs as [|?? Hsk Hs']. apply NoDup_app. split_and!.
  - destruct (Hc k c) as (Hs2 & Hd2 & Hw2); [apply elem_of_cons; by left|]. cbn [fst snd]. rewrite <- list_fmap_compose.
    assert (∀ k' c', (k', c') ∈ _table c → rval (ror k' k) = Z.lor (rval k') (rval k)) as Hq.
    { intros k' c' Hq. apply (Hn k c k' c'); [apply elem_of_cons; by left|done]. }
    clear Hc Hn IH Hs2. induction (_table c) as [|[k' c'] tbl IHt]; [constructor|]. cbn in Hd2 |- *. inversion_clear Hd2 as [|?? Hn1 Hn2]. constructor.
    + intros ([k2 c2] & E2 & H2)%list_elem_of_fmap. cbn in E2. rewrite (Hq k' c'), (Hq k2 c2) in E2 by (apply elem_of_cons; auto).
      apply Hn1, list_elem_of_fmap. exists (k2, c2). split; [|done]. cbn.
      destruct (split_lor (rval k') (rval k) m m') as [<- _]; [apply (Hw2 k' c'), elem_of_cons; by left|apply (Hk k c), elem_of_cons; by left|done|].
      rewrite E2. apply (split_lor (rval k2) (rval k) m m'); [apply (Hw2 k2 c2), elem_of_cons; by right|apply (Hk k c), elem_of_cons; by left|done].
    + apply IHt; [done| |]; intros; [eapply Hw2|eapply Hq]; apply elem_of_cons; by right.
  - intros z ([kk c1] & -> & H1)%list_elem_of_fmap ([kk2 c2] & E2 & H2)%list_elem_of_fmap. cbn in E2. apply Hdk.
    apply list_elem_of_fmap in H1 as ([k' c1'] & [= -> ->] & H1). cbn in H1. apply elem_flatten in H2 as (k2 & c3 & k2' & H2 & H3 & ->).
    apply list_elem_of_fmap. exists (k2, c3). split; [|done]. cbn.
    assert ((k, c) ∈ (k, c) :: l) as Hh by (apply elem_of_cons; by left). assert ((k2, c3) ∈ (k, c) :: l) as Hh2 by (apply elem_of_cons; by right).
    rewrite (proj2 (Hn k c k' _ Hh H1)), (proj2 (Hn k2 c3 k2' _ Hh2 H3)) in E2.
    destruct (split_lor (rval k') (rval k) m m') as [_ <-]; [by apply (proj2 (proj2 (Hc k c Hh))) in H1|by apply (Hk k c)|done|].
    rewrite E2. apply (split_lor (rval k2') (rval k2) m m'); [by apply (proj2 (proj2 (Hc k2 c3 Hh2))) in H3|by apply (Hk k2 c3)|done].
  - apply IH; [done|done| | |].
    + intros k2 c2 H2. apply (Hk k2 c2), elem_of_cons. by right.
    + intros k2 c2 H2. apply (Hc k2 c2), elem_of_cons. by right.
    + intros k2 c2 k' c' H2. apply (Hn k2 c2), elem_of_cons. by right.
Qed.

(** A node without an instruction, where all have been added. *)
Lemma full_node n P u (t : InstrTable) : full (S n) P u t → _instr t = None → _table t ≠ [] ∧ ∃ m, num W (_mask t) m ∧ m ≠ 0 ∧ one_word m ∧ Z.land u m = 0 ∧
  (∀ i, P i → within (Z.lor u m) (M i)) ∧ sized W (_table t) ∧ distinct (_table t) ∧
  (∀ k c, (k, c) ∈ _table t → within (rval k) m ∧ full n (λ i, P i ∧ Z.land (O i) m = rval k) (Z.lor u m) c) ∧
  (∀ i, P i → ∃ k c, (k, c) ∈ _table t ∧ rval k = Z.land (O i) m).
Proof.
  intros (Hw & Hd & base & Hi & Hb & Hc) Hn. assert (base = None) as ->.
  { destruct base as [b|]; [|done]. assert (_instr t = Some b) by (by apply Hi). congruence. }
  destruct Hc as [(? & ? & _)|(m & Hmm & Hm0 & Ho & Hum & Ht & Hin & Hs & Hdi & Hch & Hall)]; [done|]. split; [done|].
  exists m. split_and!; auto. intros k c Hk. split; [by eapply node_children|]. eapply shape_ext; [by apply Hch| |done].
  intros i. split; [by intros (? & _ & ?)|by intros []].
Qed.
Lemma full_node_intro n P u m (t : InstrTable) : _width t = W → _default_table t = None → _instr t = None → num W (_mask t) m → m ≠ 0 → one_word m →
  Z.land u m = 0 → _table t ≠ [] → (∀ i, P i → within (Z.lor u m) (M i)) → sized W (_table t) → distinct (_table t) →
  (∀ k c, (k, c) ∈ _table t → full n (λ i, P i ∧ Z.land (O i) m = rval k) (Z.lor u m) c) →
  (∀ i, P i → ∃ k c, (k, c) ∈ _table t ∧ rval k = Z.land (O i) m) → full (S n) P u t.
Proof.
  intros Hw Hd Hi Hmm Hm0 Ho Hum Ht Hin Hs Hdi Hch Hall. cbn [shape]. split_and!; [done|done|]. exists None.
  split_and!; [rewrite Hi; by intros i; split; [|intros []]|done|]. right. exists m. split_and!; auto.
  intros k c Hk. eapply shape_ext; [by apply Hch| |done]. intros i. split; [by intros []|by intros (? & _ & ?)].
Qed.
Lemma redundant_spec (t : InstrTable) : redundant t = true → ∃ k0 c0 rest, _table t = (k0, c0) :: rest ∧
  _instr t = None ∧ _default_table t = None ∧ iszero (_mask c0) = false ∧ legal_mask (ror (_mask t) (_mask c0)) = true ∧
  ∀ k c, (k, c) ∈ _table t → req (_mask c) (_mask c0) = true ∧ _instr c = None ∧ _default_table c = None.
Proof.
  unfold redundant. destruct (_instr t); [done|]. destruct (_default_table t); [done|]. destruct (_table t) as [|[k0 c0] rest]; [done|].
  destruct (iszero (_mask c0)) eqn:E1; [done|]. destruct (legal_mask _) eqn:E2; [|done]. cbn [orb negb]. intros E3.
  exists k0, c0, rest. split_and!; try done. intros k c Hk%list_elem_of_In. rewrite forallb_forall in E3. specialize (E3 _ Hk). cbn in E3.
  apply andb_prop in E3 as [E3 E4]. by destruct (_instr c), (_default_table c).
Qed.
Lemma merge_shape n P u (t : InstrTable) : full (S n) P u t → redundant t = true →
  full n P u (merge t) ∧ rval (_mask (merge t)) ≠ 0.
Proof.
  intros Ht (k0 & c0 & rest & Etb & Ei & Edf & Ez & Eleg & Hsame)%redundant_spec. pose proof Ht as (Hw & _).
  destruct (full_node _ _ _ _ Ht Ei) as (_ & m & Hmm & Hm0 & Ho & Hum & Hin & Hs & Hdi & Hch & Hall).
  assert ((k0, c0) ∈ _table t) as H0 by (rewrite Etb; apply elem_of_cons; by left).
  destruct n as [|n]; [by destruct (Hch k0 c0 H0)|].
  destruct (full_node _ _ _ _ (proj2 (Hch k0 c0 H0)) (proj1 (proj2 (Hsame k0 c0 H0)))) as (_ & m' & Hmm' & Hm0' & _).
  assert (∀ k c, (k, c) ∈ _table t → num W (_mask c) m') as Hcm.
  { intros k c Hk. destruct (Hsame k c Hk) as (Er & Ec & _). destruct (full_node _ _ _ _ (proj2 (Hch k c Hk)) Ec) as (_ & mc & Hmc & _).
    rewrite (num_eq W _ _ _ _ Hmc Hmm') in Er. apply Z.eqb_eq in Er. by subst mc. }
  assert (∀ k c, (k, c) ∈ _table t → _table c ≠ [] ∧ Z.land (Z.lor u m) m' = 0 ∧
    (∀ i, P i ∧ Z.land (O i) m = rval k → within (Z.lor (Z.lor u m) m') (M i)) ∧ sized W (_table c) ∧ distinct (_table c) ∧
    (∀ k' c', (k', c') ∈ _table c → within (rval k') m' ∧ full n (λ i, (P i ∧ Z.land (O i) m = rval k) ∧ Z.land (O i) m' = rval k') (Z.lor (Z.lor u m) m') c') ∧
    (∀ i, P i ∧ Z.land (O i) m = rval k → ∃ k' c', (k', c') ∈ _table c ∧ rval k' = Z.land (O i) m')) as Hg.
  { intros k c Hk. destruct (Hsame k c Hk) as (_ & Ec & _). destruct (full_node _ _ _ _ (proj2 (Hch k c Hk)) Ec) as (Hne & mc & Hmc & _ & _ & Hx).
    assert (mc = m') as ->; [|by destruct Hx as (? & ? & ?)]. rewrite <- (proj2 Hmc). apply (Hcm k c Hk). }
  destruct (Hg k0 c0 H0) as (_ & E0 & _). rewrite Z.land_lor_distr_l in E0. apply Z.lor_eq_0_iff in E0 as [Eu' Emm].
  destruct (flatten_distinct m m' (_table t) Emm Hdi Hs) as [Hfs Hfd].
  { intros k c Hk. by apply Hch in Hk as [? _]. }
  { intros k c Hk. destruct (Hg k c Hk) as (_ & _ & _ & H1 & H2 & H3 & _). split_and!; [done|done|]. intros k' c' Hk'. by apply H3 in Hk' as [? _]. }
  destruct (map_insert_all W (flatten (_table t)) []) as (Hs2 & Hd2 & He2); [done|by rewrite app_nil_r|constructor|].
  assert (∀ k c k' c', (k, c) ∈ _table t → (k', c') ∈ _table c → rval (ror k' k) = Z.lor (rval k') (rval k)) as Hkey.
  { intros k c k' c' Hk Hk'. destruct (Hg k c Hk) as (_ & _ & _ & H1 & _). apply (num_or W).
    - split; [by apply (proj1 (Forall_forall _ _) H1 (k', c'))|done].
    - split; [by apply (proj1 (Forall_forall _ _) Hs (k, c))|done]. }
  assert (num W (ror (_mask t) (_mask c0)) (Z.lor m m')) as Hor by by apply num_or.
  assert (Z.lor m m' ≠ 0) as Hor0 by (intros [? _]%Z.lor_eq_0_iff; done).
  assert (merge t = Table (_width t) (_word t) (ror (_mask t) (_mask c0)) (get_shift (ror (_mask t) (_mask c0)))
    (fold_left (λ h p, map_insert (fst p) (snd p) h) (flatten (_table t)) []) (_default_table t) (_default_conflict t) (_instr t) (_shorthands t)) as ->.
  { unfold merge. rewrite <- merge_flatten. by rewrite Etb. }
  split; [|by cbn; rewrite (proj2 Hor)].
  assert (∀ i, P i → ∃ k c, (k, c) ∈ flatten (_table t) ∧ rval k = Z.land (O i) (Z.lor m m')) as Hall'.
  { intros i Hi. destruct (Hall i Hi) as (k & c & Hk & Ek). destruct (Hg k c Hk) as (_ & _ & _ & _ & _ & _ & H7).
    destruct (H7 i) as (k' & c' & Hk' & Ek'); [by rewrite Ek|]. exists (ror k' k), c'. split; [apply elem_flatten; by exists k, c, k'|].
    by rewrite (Hkey k c k' c' Hk Hk'), Ek, Ek', Z.land_lor_distr_r, Z.lor_comm. }
  apply (full_node_intro n P u (Z.lor m m')); cbn [_width _default_table _instr _mask _table]; try done.
  - by apply (legal_mask_spec W HW _ _ Hor).
  - by rewrite Z.land_lor_distr_r, Hum, Eu'.
  - destruct (shape_inhabited _ _ _ _ _ _ _ Ht) as [i Hi]. destruct (Hall' i Hi) as (k & c & Hk & _). intros E.
    assert ((k, c) ∈ []) as Hn; [|by apply elem_of_nil in Hn]. rewrite <- E. apply He2. by left.
  - intros i Hi. destruct (Hall i Hi) as (k & c & Hk & Ek). destruct (Hg k c Hk) as (_ & _ & H3 & _). rewrite Z.lor_assoc. by apply H3.
  - intros kk c' [Hk|Hn]%He2; [|by apply elem_of_nil in Hn]. apply elem_flatten in Hk as (k & c & k' & Hk & Hk' & ->).
    destruct (Hg k c Hk) as (_ & _ & _ & _ & _ & H6 & _). destruct (H6 k' c' Hk') as [Hw' Hsh]. destruct (Hch k c Hk) as [Hwk _].
    rewrite Z.lor_assoc. eapply shape_ext; [exact Hsh| |done]. intros i. rewrite (Hkey k c k' c' Hk Hk'), Z.land_lor_distr_r. split.
    + intros [[Hi E1] E2]. split; [done|]. by rewrite E1, E2, Z.lor_comm.
    + intros [Hi E]. rewrite (Z.lor_comm (Z.land _ m)) in E.
      destruct (split_lor (Z.land (O i) m') (Z.land (O i) m) m m') as [E1 E2]; [| |done|].
      * apply within_bits. intros z _. rewrite Z.land_spec. by intros [_ ?]%andb_prop.
      * apply within_bits. intros z _. rewrite Z.land_spec. by intros [_ ?]%andb_prop.
      * destruct (split_lor (rval k') (rval k) m m') as [E3 E4]; [done..|]. rewrite E in E1, E2. split_and!; congruence.
  - intros i Hi. destruct (Hall' i Hi) as (k & c & Hk & Ek). exists k, c. split; [|done]. apply He2. by left.
Qed.

(** Every merge takes away a level, so the loop ends. *)
Lemma merge_loop_shape fuel n P u (t : InstrTable) : full (S n) P u t → rval (_mask t) ≠ 0 → (n ≤ fuel)%nat →
  ∃ t', merge_loop fuel t = Ret t' ∧ full (S n) P u t' ∧ rval (_mask t') ≠ 0.
Proof.
  revert n t. induction fuel as [|fuel IH]; intros n t Ht Hm0 Hn; cbn [merge_loop]; (destruct (redundant t) eqn:E; [|by exists t]);
    destruct (merge_shape n P u t Ht E) as (Ht' & Hm0').
  - by replace n with 0%nat in Ht' by lia.
  - destruct n as [|n]; [done|]. destruct (IH n _ Ht' Hm0') as (t' & E' & H1 & H2); [lia|]. exists t'. split_and!; [done|by apply shape_mono|done].
Qed.
Lemma finalize_shape fuel n P u (t : InstrTable) : full n P u t → (n ≤ fuel)%nat → ∃ t', finalize fuel t = Ret t' ∧ full n P u t'.
Proof.
  revert n P u t. induction fuel as [|fuel IH]; intros n P u t Ht Hn; [by replace n with 0%nat in Ht by lia|].
  destruct n as [|n]; [done|]. cbn [finalize]. rewrite iszero_spec. destruct (Z.eqb_spec (rval (_mask t)) 0) as [E|E]; [by exists t|].
  destruct (merge_loop_shape fuel n P u t Ht E) as (t1 & -> & H1 & E1); [lia|]. cbn [obind]. clear t Ht E.
  destruct H1 as (Hw & Hd & base & Hi & Hb & Hc).
  destruct Hc as [(b & _ & _ & _ & Ez)|(m & Hmm & Hm0 & Ho & Hum & Ht & Hin & Hs & Hdi & Hch & Hall)]; [done|].
  rewrite (proj2 (legal_mask_spec W HW _ _ Hmm) Ho). cbn [negb].
  match goal with |- context [obind (?f (_table t1))] => set (go := f) end.
  assert (∀ l, (∀ k c, (k, c) ∈ l → (k, c) ∈ _table t1) → ∃ l', go l = Ret l' ∧ fst <$> l' = fst <$> l ∧
    ∀ k c', (k, c') ∈ l' → ∃ c, (k, c) ∈ l ∧ full n (λ i, P i ∧ base ≠ Some i ∧ Z.land (O i) m = rval k) (Z.lor u m) c') as Hgo.
  { induction l as [|[k c] l IHl]; intros Hl; [exists []; split_and!; [done|done|by intros ?? ?%elem_of_nil]|].
    destruct (IH n _ _ c (Hch k c (Hl k c ltac:(apply elem_of_cons; by left)))) as (c' & Ec & Hc'); [lia|].
    destruct IHl as (l' & El & Ek & Hl'); [intros k2 c2 H2; apply Hl, elem_of_cons; by right|]. exists ((k, c') :: l'). split_and!.
    - unfold go. fold go. by rewrite Ec, El.
    - cbn. by rewrite Ek.
    - intros k2 c2 [[= -> ->]|H2]%elem_of_cons; [exists c; split; [apply elem_of_cons; by left|done]|].
      destruct (Hl' k2 c2 H2) as (c3 & H3 & H4). exists c3. split; [apply elem_of_cons; by right|done]. }
  destruct (Hgo (_table t1)) as (l' & -> & Ek & Hl'); [done|]. cbn [obind]. eexists. split; [done|].
  assert (∀ (l : list (T * InstrTable)), (λ p, rval (fst p)) <$> l = rval <$> (fst <$> l)) as Ef by (intros l; by rewrite <- list_fmap_compose).
  destruct t1 as [w word mask sh tbl dft dc ins shs]. cbn [shape _width _default_table _instr _mask _table set_table] in *.
  split_and!; [done|done|]. exists base. split_and!; [done|done|]. right. exists m. split_and!; auto.
  - intros ->. cbn in Ek. by destruct tbl.
  - apply (proj1 (Forall_fmap fst (λ x, rsize x = W) l')). rewrite Ek. by apply (Forall_fmap fst (λ x, rsize x = W)).
  - unfold distinct in *. by rewrite Ef, Ek, <- Ef.
  - intros k c Hk. by destruct (Hl' k c Hk) as (? & _ & ?).
  - intros i Hp Hbi. destruct (Hall i Hp Hbi) as (k & c & Hk & E). assert (k ∈ fst <$> l') as ([k' c'] & -> & Hk')%list_elem_of_fmap.
    { rewrite Ek. apply list_elem_of_fmap. by exists (k, c). }
    by exists k', c'.
Qed.

(** *** Merging does not change the decoder

    The trees for which this holds: numbers of the table's width; below a node
    that tests the bits of a mask inside of one word, one child for every key, a
    key within the mask, and only masks of other bits; a node without children
    that holds no instruction still has a mask of the table's width.  Any node
    may hold an instruction, and a default table of any form. *)
Fixpoint formed (n : nat) (u : Z) (t : InstrTable) : Prop :=
  match n with
  | 0%nat => False
  | S n =>
      _width t = W ∧
      (_table t = [] ∧ rval (_mask t) = 0 ∧ (_instr t ≠ None ∨ rsize (_mask t) = W) ∨
       ∃ m, num W (_mask t) m ∧ m ≠ 0 ∧ one_word m ∧ Z.land u m = 0 ∧ _table t ≠ [] ∧ sized W (_table t) ∧ distinct (_table t) ∧
         ∀ k c, (k, c) ∈ _table t → within (rval k) m ∧ formed n (Z.lor u m) c)
  end.
Lemma formed_mono n u (t : InstrTable) : formed n u t → formed (S n) u t.
Proof.
  revert u t. induction n as [|n IH]; intros u t; [done|]. intros (Hw & [Hl|(m & Hmm & Hm0 & Ho & Hum & Ht & Hs & Hdi & Hch)]); (split; [done|]); [by left|].
  right. exists m. split_and!; auto. intros k c Hk. destruct (Hch k c Hk). split; [done|by apply IH].
Qed.
Lemma formed_le n n' u (t : InstrTable) : (n ≤ n')%nat → formed n u t → formed n' u t.
Proof. intros Hn Ht. induction Hn; [done|by apply formed_mono]. Qed.
Lemma formed_height n u (t : InstrTable) : formed n u t → formed (height t) u t.
Proof.
  revert u t. induction n as [|n IH]; intros u t; [done|]. assert (∃ h, height t = S h) as [h Eh] by (destruct t; eexists; reflexivity).
  rewrite Eh. intros (Hw & [Hl|(m & Hmm & Hm0 & Ho & Hum & Ht & Hs & Hdi & Hch)]); (split; [done|]); [by left|].
  right. exists m. split_and!; auto. intros k c Hk. destruct (Hch k c Hk) as [? Hc]. split; [done|]. apply (formed_le (height c)); [|by apply IH in Hc].
  pose proof (height_child t k c Hk). lia.
Qed.
Lemma formed_width n u (t : InstrTable) : formed n u t → _width t = W.
Proof. by destruct n; [|intros [? _]]. Qed.
(** What [add_instrs] builds. *)
Lemma shape_formed n P u (t : InstrTable) : full n P u t → formed n u t.
Proof.
  revert P u t. induction n as [|n IH]; intros P u t; [done|]. intros (Hw & Hdf & base & Hi & Hb & Hc). split; [done|].
  destruct Hc as [(b & Eb & _ & Ht & Hz)|(m & Hmm & Hm0 & Ho & Hum & Ht & Hin & Hs & Hdi & Hch & Hall)].
  - left. split_and!; [done..|]. left. rewrite (proj2 (Hi b)); done.
  - right. exists m. split_and!; auto. intros k c Hk. split; [by eapply node_children|]. by eapply IH, Hch.
Qed.

(** The mask that the children of a redundant node have in common, and the keys
    of the merged table, which hold the bits of both masks. *)
Lemma redundant_formed n u (t : InstrTable) : formed (S n) u t → redundant t = true → ∃ m m',
  num W (_mask t) m ∧ one_word (Z.lor m m') ∧ Z.lor m m' ≠ 0 ∧ Z.land m m' = 0 ∧ Z.land u (Z.lor m m') = 0 ∧
  _table t ≠ [] ∧ sized W (_table t) ∧ distinct (_table t) ∧ num W (_mask (merge t)) (Z.lor m m') ∧
  ∀ k c, (k, c) ∈ _table t → within (rval k) m ∧ formed n (Z.lor u m) c ∧ (_instr c = None ∧ _default_table c = None) ∧ num W (_mask c) m' ∧ m' ≠ 0 ∧ one_word m' ∧
    _table c ≠ [] ∧ sized W (_table c) ∧ distinct (_table c) ∧
    ∀ k' c', (k', c') ∈ _table c → within (rval k') m' ∧ rval (ror k' k) = Z.lor (rval k') (rval k) ∧ formed (pred n) (Z.lor u (Z.lor m m')) c'.
Proof.
  intros Ht (k0 & c0 & rest & Etb & Ei & Edf & Ez & Eleg & Hsame)%redundant_spec.
  destruct Ht as (Hw & [(E & _)|(m & Hmm & Hm0 & Ho & Hum & Hne & Hs & Hdi & Hch)]); [by rewrite Etb in E|].
  assert ((k0, c0) ∈ _table t) as H0 by (rewrite Etb; apply elem_of_cons; by left). destruct (Hch k0 c0 H0) as [_ Hc0].
  rewrite iszero_spec in Ez. apply Z.eqb_neq in Ez. destruct n as [|n]; [done|].
  destruct Hc0 as (_ & [(_ & E & _)|(m' & Hmm' & Hm0' & Ho' & Hum' & _)]); [done|].
  rewrite Z.land_lor_distr_l in Hum'. apply Z.lor_eq_0_iff in Hum' as [Eu' Emm].
  assert (num W (ror (_mask t) (_mask c0)) (Z.lor m m')) as Hor by by apply num_or.
  exists m, m'. split_and!; try done.
  - by apply (legal_mask_spec W HW _ _ Hor).
  - by intros [? _]%Z.lor_eq_0_iff.
  - by rewrite Z.land_lor_distr_r, Hum, Eu'.
  - unfold merge. by rewrite Etb.
  - intros k c Hk. destruct (Hch k c Hk) as [Hkw Hc]. destruct (Hsame k c Hk) as (Er & Eci & Ecd). pose proof Hc as Hcf.
    destruct Hc as (_ & [(_ & Ecz & [?|Ecs])|(mc & Hmc & _ & _ & Hcu & Hcne & Hcs & Hcd & Hcc)]); [done| |].
    { rewrite (num_eq W _ _ _ _ (conj Ecs Ecz) Hmm') in Er. apply Z.eqb_eq in Er. congruence. }
    rewrite (num_eq W _ _ _ _ Hmc Hmm') in Er. apply Z.eqb_eq in Er. subst mc.
    split_and!; try done. intros k' c' Hk'. destruct (Hcc k' c' Hk') as [Hkw' Hc']. split_and!; [done| |].
    + apply (num_or W); (split; [|done]); [by apply (proj1 (Forall_forall _ _) Hcs (k', c'))|by apply (proj1 (Forall_forall _ _) Hs (k, c))].
    + by rewrite Z.lor_assoc.
Qed.
(** The merged table is that of the grandchildren. *)
Lemma merge_table n u (t : InstrTable) : formed (S n) u t → redundant t = true →
  sized W (_table (merge t)) ∧ distinct (_table (merge t)) ∧ ∀ p, p ∈ _table (merge t) ↔ p ∈ flatten (_table t).
Proof.
  intros Ht Hr. destruct (redundant_formed n u t Ht Hr) as (m & m' & _ & _ & _ & Emm & _ & Hne & Hs & Hdi & _ & Hch).
  destruct (flatten_distinct m m' (_table t) Emm Hdi Hs) as [Hfs Hfd].
  { intros k c Hk. by apply (Hch k c). }
  { intros k c Hk. destruct (Hch k c Hk) as (_ & _ & _ & _ & _ & _ & _ & ? & ? & Hg). split_and!; [done|done|]. intros k' c' Hk'. by apply (Hg k' c'). }
  destruct (map_insert_all W (flatten (_table t)) []) as (Hs2 & Hd2 & He2); [done|by rewrite app_nil_r|constructor|].
  assert (_table (merge t) = fold_left (λ h p, map_insert (fst p) (snd p) h) (flatten (_table t)) []) as ->.
  { unfold merge. rewrite <- merge_flatten. by destruct (_table t) as [|[k0 c0] rest]. }
  split_and!; [done|done|]. intros p. rewrite He2, elem_of_nil. tauto.
Qed.
Lemma merge_formed n u (t : InstrTable) : formed (S n) u t → redundant t = true → formed n u (merge t) ∧ rval (_mask (merge t)) ≠ 0.
Proof.
  intros Ht Hr. destruct (merge_table n u t Ht Hr) as (Hs' & Hd' & He).
  destruct (redundant_formed n u t Ht Hr) as (m & m' & Hmm & Ho & H0 & Emm & Eu & Hne & Hs & Hdi & Hmm2 & Hch). pose proof Ht as [Hw _].
  destruct (_table t) as [|[k0 c0] rest] eqn:Etb; [done|]. assert ((k0, c0) ∈ (k0, c0) :: rest) as Hk0 by (apply elem_of_cons; by left).
  destruct (Hch k0 c0 Hk0) as (_ & Hc0 & _ & _ & _ & _ & Hne0 & _).
  split; [|by rewrite (proj2 Hmm2)]. destruct n as [|n]; [done|]. split; [by unfold merge; rewrite Etb|]. right. exists (Z.lor m m'). split_and!; try done.
  - destruct (_table c0) as [|[k' c'] l] eqn:Ec; [done|]. intros E. apply (elem_of_nil (ror k' k0, c')). rewrite <- E. apply He, elem_flatten.
    exists k0, c0, k'. rewrite Ec. split_and!; [done|apply elem_of_cons; by left|done].
  - intros kk c' (k & c & k' & Hk & Hk' & ->)%He%elem_flatten. destruct (Hch k c Hk) as (Hkw & _ & _ & _ & _ & _ & _ & _ & _ & Hg).
    destruct (Hg k' c' Hk') as (Hkw' & Ekk & Hc'). split; [|done]. rewrite Ekk, Z.lor_comm. apply within_bits. intros z Hz.
    rewrite !Z.lor_spec. intros [?|?]%orb_prop; apply orb_true_iff; [left; by apply (within_bits (rval k) m)|right; by apply (within_bits (rval k') m')].
Qed.

Section Equivalence.
Context (fetch : list Z) (Hl : Z.of_nat (length fetch) = W / 32) (Hd : digits 32 fetch).
Local Abbreviation e := (beval 32 fetch).

(** The child for the bits of the encoding, or what the node gives without one. *)
Lemma formed_decode n u (t : InstrTable) m : formed n u t → _table t ≠ [] → num W (_mask t) m →
  (∃ k c, (k, c) ∈ _table t ∧ rval k = Z.land e m ∧ decode t fetch = decode c fetch) ∨
  (∀ k c, (k, c) ∈ _table t → rval k ≠ Z.land e m) ∧ decode t fetch = no_child fetch t.
Proof.
  intros Ht Hne Hmm. destruct n as [|n]; [done|]. destruct Ht as (_ & [(? & _)|(m1 & Hmm1 & Hm0 & Ho & Hum & _ & Hs & Hdi & Hch)]); [done|].
  assert (m1 = m) as -> by (rewrite <- (proj2 Hmm1); apply Hmm).
  apply (decode_any W HW Hm fetch Hl Hd t m); try done. intros k c Hk. destruct (Hch k c Hk) as [H1 H2]. split_and!; [|done|].
  - split; [by apply (proj1 (Forall_forall _ _) Hs (k, c))|done].
  - by apply formed_width in H2.
Qed.
Lemma distinct_key (l : list (T * InstrTable)) k c k' c' : distinct l → (k, c) ∈ l → (k', c') ∈ l → rval k = rval k' → c = c'.
Proof.
  intros Hd' H1 H2 E. destruct (distinct_split l k c Hd' H1) as (pre & post & -> & Hf1 & Hf2).
  apply elem_of_app in H2 as [H2|[[= _ ->]|H2]%elem_of_cons]; [|done|]; exfalso.
  - by apply (proj1 (Forall_forall _ _) Hf1 (k', c') H2).
  - by apply (proj1 (Forall_forall _ _) Hf2 (k', c') H2).
Qed.
Lemma merge_decode n u (t : InstrTable) : formed (S n) u t → redundant t = true → decode (merge t) fetch = decode t fetch.
Proof.
  intros Ht Hr. destruct (merge_table n u t Ht Hr) as (_ & Hdi' & Hel). pose proof (merge_formed n u t Ht Hr) as [Ht' Hm0].
  destruct (redundant_formed n u t Ht Hr) as (m & m' & Hm1 & _ & Hm0' & Emm & _ & Hne & _ & Hdi & Hm2 & Hch).
  destruct (redundant_spec t Hr) as (k0 & c0 & rest & Etb & Ei & Edf & _).
  assert (no_child fetch t = None) as Hno1 by (unfold no_child; by rewrite Edf).
  assert (no_child fetch (merge t) = None) as Hno2 by (unfold no_child, merge; rewrite Etb; cbn; by rewrite Edf).
  assert (_table (merge t) ≠ []) as Hne2.
  { destruct n as [|n]; [done|]. destruct Ht' as (_ & [(_ & E & _)|(? & _ & _ & _ & _ & ? & _)]); done. }
  destruct (formed_decode _ _ _ _ Ht' Hne2 Hm2) as [(kk & c' & Hk & E & ->)|[Hno ->]].
  - apply Hel, elem_flatten in Hk as (k & c & k' & Hk & Hk' & ->). destruct (Hch k c Hk) as (Hkw & Hcf & _ & Hcm & _ & _ & Hcne & _ & Hdic & Hck).
    destruct (Hck k' c' Hk') as (Hkw' & Ekk & _). rewrite Ekk in E.
    destruct (split_lor (rval k') (rval k) m m' Hkw' Hkw Emm) as [E1 E2]. rewrite E, <- Z.land_assoc in E1, E2.
    rewrite Z.land_lor_distr_l, Emm, Z.land_diag, Z.lor_0_l in E1. rewrite Z.land_lor_distr_l, (Z.land_comm m'), Emm, Z.land_diag, Z.lor_0_r in E2.
    destruct (formed_decode _ _ _ _ Ht Hne Hm1) as [(k2 & c2 & H2 & Ek2 & ->)|[Hno _]]; [|by destruct (Hno k c Hk)].
    rewrite (distinct_key _ k2 c2 k c Hdi H2 Hk) by congruence.
    destruct (formed_decode _ _ _ _ Hcf Hcne Hcm) as [(k3 & c3 & H3 & Ek3 & ->)|[Hno _]]; [|by destruct (Hno k' c' Hk')].
    by rewrite (distinct_key _ k3 c3 k' c' Hdic H3 Hk') by congruence.
  - rewrite Hno2. destruct (formed_decode _ _ _ _ Ht Hne Hm1) as [(k & c & Hk & Ek & ->)|[_ ->]]; [|done].
    destruct (Hch k c Hk) as (Hkw & Hcf & Hcno & Hcm & _ & _ & Hcne & _ & _ & Hck).
    destruct (formed_decode _ _ _ _ Hcf Hcne Hcm) as [(k' & c' & Hk' & Ek' & _)|[_ ->]];
      [|unfold no_child; by destruct Hcno as [-> ->]].
    exfalso. apply (Hno (ror k' k) c'); [apply Hel, elem_flatten; by exists k, c, k'|].
    destruct (Hck k' c' Hk') as (_ & -> & _). by rewrite Ek, Ek', Z.land_lor_distr_r, Z.lor_comm.
Qed.
(** Tables with the same keys and children that decode alike. *)
Lemma decode_children (t : InstrTable) l : Forall2 (λ p q : T * InstrTable, fst p = fst q ∧ _width (snd p) = _width (snd q) ∧
  decode (snd p) fetch = decode (snd q) fetch) (_table t) l → decode (set_table t l) fetch = decode t fetch.
Proof.
  destruct t as [w word mask sh tbl dft dc ins shs]. unfold set_table. cbn [_table _width _word _mask _shift _default_table _default_conflict _instr _shorthands].
  intros H2. cbn [decode _table _mask _default_table _instr].
  match goal with |- context [match tbl with [] => _ | _ :: _ => ?f tbl end] => set (cases := f) end.
  assert (cases l = cases tbl) as E; [|by destruct H2].
  induction H2 as [|[k c] [k' c'] l1 l2 (E1 & E2 & E3) H3 IH]; [done|]. cbn [fst snd] in *. subst k'.
  unfold cases. fold cases. rewrite E2, E3. by destruct (_ =? _).
Qed.
End Equivalence.

(** Trees that decode every encoding alike. *)
Definition same_decoder (t t' : InstrTable) : Prop :=
  ∀ fetch, Z.of_nat (length fetch) = W / 32 → digits 32 fetch → decode t' fetch = decode t fetch.
Lemma merge_loop_formed fuel n u (t : InstrTable) : formed (S n) u t → rval (_mask t) ≠ 0 → (n ≤ fuel)%nat →
  ∃ t', merge_loop fuel t = Ret t' ∧ formed (S n) u t' ∧ rval (_mask t') ≠ 0 ∧ same_decoder t t'.
Proof.
  revert n t. induction fuel as [|fuel IH]; intros n t Ht Hm0 Hn; cbn [merge_loop]; (destruct (redundant t) eqn:E; [|by exists t]);
    destruct (merge_formed n u t Ht E) as (Ht' & Hm0').
  - by replace n with 0%nat in Ht' by lia.
  - destruct n as [|n]; [done|]. destruct (IH n _ Ht' Hm0') as (t' & E' & H1 & H2 & H3); [lia|]. exists t'. split_and!; [done|by apply formed_mono|done|].
    intros fetch Hl Hd. rewrite (H3 fetch Hl Hd). by apply (merge_decode fetch Hl Hd (S n) u).
Qed.
Lemma finalize_formed fuel n u (t : InstrTable) : formed n u t → (n ≤ fuel)%nat →
  ∃ t', finalize fuel t = Ret t' ∧ _width t' = W ∧ same_decoder t t'.
Proof.
  revert n u t. induction fuel as [|fuel IH]; intros n u t Ht Hn; [by replace n with 0%nat in Ht by lia|].
  destruct n as [|n]; [done|]. cbn [finalize]. rewrite iszero_spec. destruct (Z.eqb_spec (rval (_mask t)) 0) as [E|E].
  { exists t. split_and!; [done|by apply formed_width in Ht|done]. }
  destruct (merge_loop_formed fuel n u t Ht E) as (t1 & -> & H1 & E1 & Hsd); [lia|]. cbn [obind].
  destruct H1 as (Hw & [(_ & ? & _)|(m & Hmm & Hm0 & Ho & Hum & Hne & Hs & Hdi & Hch)]); [done|].
  rewrite (proj2 (legal_mask_spec W HW _ _ Hmm) Ho). cbn [negb].
  match goal with |- context [obind (?f (_table t1))] => set (go := f) end.
  assert (∀ l, (∀ k c, (k, c) ∈ l → (k, c) ∈ _table t1) → ∃ l', go l = Ret l' ∧
    Forall2 (λ p q : T * InstrTable, fst p = fst q ∧ _width (snd p) = _width (snd q) ∧ same_decoder (snd p) (snd q)) l l') as Hgo.
  { induction l as [|[k c] l IHl]; intros Hin; [by exists []|].
    destruct (Hch k c (Hin k c ltac:(apply elem_of_cons; by left))) as [_ Hc].
    destruct (IH n _ c Hc) as (c' & Ec & Hcw & Hc'); [lia|].
    destruct IHl as (l' & El & Hl'); [intros k2 c2 H2; apply Hin, elem_of_cons; by right|]. exists ((k, c') :: l'). split.
    - unfold go. fold go. by rewrite Ec, El.
    - constructor; [|done]. cbn. split_and!; [done| |done]. apply formed_width in Hc. congruence. }
  destruct (Hgo (_table t1)) as (l' & -> & Hl'); [done|]. cbn [obind]. eexists. split_and!; [done|by destruct t1|].
  intros fetch Hl Hd. rewrite <- (Hsd fetch Hl Hd). apply decode_children. eapply Forall2_impl; [exact Hl'|].
  intros p q (? & ? & Hpq). split_and!; [done|done|]. symmetry. by apply Hpq.
Qed.

(** ** The table of a core *)

Section Table.
Context (I : list Instr) (HI : Forall (instr_ok endianness W) I) (HS : separate I) (HP : Forall plain I) (Hne : I ≠ []).
Context (fails : Prop) (HE : fails ∨ W = 32 ∧ ∃ c0, nested (T := T) endianness W I c0).
Context (zero : T) (Hz : rval zero = 0) (fuel : nat) (Hf : (Z.to_nat W + length I < fuel)%nat).

Lemma add_instrs_spec : msafe fails (add_instrs endianness strictMode fuel (root_table zero W) I) (full fuel (λ i, i ∈ I) 0).
Proof.
  unfold add_instrs. cbn [_width root_table].
  assert (List.filter (λ i, negb (shorthand i)) I = I) as ->.
  { clear -HI. induction HI as [|i l [Hs _] Hl IH]; [done|]. cbn. rewrite Hs. cbn. by rewrite IH. }
  assert (List.filter (λ i, match get_alias i with Alias _ _ more => (more =? 0)%nat | NoAlias => false end) I = []) as ->.
  { clear -HI. induction HI as [|i l [Hs _] Hl IH]; [done|]. destruct i as [d []]; [by apply IH|discriminate Hs]. }
  pose proof (num_zero (T := T) W ltac:(lia)) as Hz0. pose proof (unused_bound W 0).
  eapply msafe_bind; [eapply (build_tree_spec endianness strictMode W HW Hm I HI HS fails HE HP fuel _ I _ _ 0 0); try done; [|lia]|].
  - split_and!; [done|apply HS| |]; [intros i Hi; split; [done|apply within_0]|]. intros i j _ _. by rewrite !Z.land_0_r.
  - intros [okb t] [E Hsh]. cbn in E, Hsh. subst okb. cbn [fst snd].
    eapply msafe_bind; [apply msafe_lift, (add_instrs_shape endianness W HW Hm I HI HS fails HE fuel I (λ _, False) t); [done|apply HS|auto]|].
    intros t' Ht'. apply msafe_lift. cbn. eapply shape_ext; [exact Ht'|done|]. intros i Hi. split; [done|auto].
Qed.
(** The table as it is used: built, and then merged. *)
Lemma table_spec ml : match add_instrs endianness strictMode fuel (root_table zero W) I ml with
  | Ret (t, _) => full (height t) (λ i, i ∈ I) 0 t ∧ ∃ t', finalize_table t = Ret t' ∧ full (height t) (λ i, i ∈ I) 0 t'
  | Throw _ => fails
  | _ => False
  end.
Proof.
  pose proof (add_instrs_spec ml) as Hs. destruct (add_instrs _ _ _ _ _ _) as [[t ml']| | |]; try done. cbn in Hs.
  apply shape_height in Hs. split; [done|]. by apply finalize_shape.
Qed.
End Table.
End Final.

(** Encodings as [Core::build_instrtables] sees them, without shorthands and
    without conflict flags: bit ranges lie inside of the table's width, and no
    instruction is there twice. *)
Record encodings (endianness : bool) (max_instr_width : Z) (instrs : list Instr) : Prop := {
  enc_some : instrs ≠ [];
  enc_width : Forall (λ i, 0 < width (data i) ≤ 2 ^ 30) instrs;
  enc_ok : Forall (instr_ok endianness (table_width max_instr_width instrs)) instrs;
  enc_plain : Forall plain instrs;
  enc_separate : separate instrs
}.
Lemma table_width_spec mw instrs : instrs ≠ [] → Forall (λ i, 0 < width (data i) ≤ 2 ^ 30) instrs →
  let w := table_width mw instrs in 0 < w < 2 ^ 31 ∧ w mod 32 = 0 ∧ ∀ i, i ∈ instrs → width (data i) ≤ w.
Proof.
  intros Hne Hw. unfold table_width.
  enough (∀ m, 0 ≤ m ≤ 2 ^ 30 → let r := fold_left (λ m i, if m <? width (data i) then width (data i) else m) instrs m in
    m ≤ r ≤ 2 ^ 30 ∧ ∀ i, i ∈ instrs → width (data i) ≤ r) as Hgo.
  { destruct (Hgo 0) as [H1 H2]; [lia|]. destruct instrs as [|i l]; [done|].
    pose proof (H2 i ltac:(apply elem_of_cons; by left)). inversion_clear Hw as [|?? Hwi _].
    set (r := fold_left _ _ _) in *. clearbody r. rewrite (proj2 (Z.eqb_neq r 0)) by lia.
    rewrite (wrap_small 32 (r - 1)) by (unfold uint; lia). assert (0 ≤ (r - 1) / 32 ≤ (2 ^ 30 - 1) / 32) as Hd by zlia.
    rewrite (wrap_small 32 ((r - 1) / 32 + 1)) by (unfold uint; zlia).
    rewrite wrap_small by (unfold uint; zlia). split_and!; [zlia|zlia|zlia|]. intros j Hj. specialize (H2 j Hj). zlia. }
  clear Hne. induction Hw as [|i l Hi Hl IH]; intros m Hm; cbn [fold_left]; [split; [lia|by intros i ?%elem_of_nil]|].
  destruct (Z.ltb_spec m (width (data i))).
  - destruct (IH (width (data i))) as [H1 H2]; [lia|]. split; [lia|]. intros j [->|Hj]%elem_of_cons; [lia|by apply H2].
  - destruct (IH m Hm) as [H1 H2]. split; [lia|]. intros j [->|Hj]%elem_of_cons; [lia|by apply H2].
Qed.

Section Core.
Context {T : Type} `{RL : RNumberLaws T} (endianness strictMode : bool) (max_instr_width : Z) (instrs : list Instr).
Context (Henc : encodings endianness max_instr_width instrs).
Context (table : string) (zero : T) (Hz : rval zero = 0).
Local Abbreviation w := (table_width max_instr_width instrs).
Local Abbreviation M := (opc_bits endianness w).
Local Abbreviation O := (opc_val (T := T) endianness w).

Lemma built_table fails fuel ml : (fails ∨ w = 32 ∧ ∃ c0, nested (T := T) endianness w instrs c0) → (Z.to_nat w + length instrs < fuel)%nat →
  match build_instrtable endianness strictMode fuel table zero max_instr_width instrs ml with
  | Ret (t, _) => ∃ t' n, finalize_table t = Ret t' ∧ shape (T := T) endianness w n (λ _, True) (λ i, i ∈ instrs) 0 t' ∧
      shape (T := T) endianness w n (λ _, True) (λ i, i ∈ instrs) 0 t
  | Throw _ => fails
  | _ => False
  end.
Proof.
  intros HE Hf. destruct Henc as [Hne Hwd Hok Hpl Hsep]. destruct (table_width_spec max_instr_width instrs Hne Hwd) as (HW & Hm & _).
  pose proof (table_spec endianness strictMode w HW Hm instrs Hok Hsep Hpl Hne fails HE zero Hz fuel Hf ml) as Hs.
  unfold build_instrtable. destruct (add_instrs _ _ _ _ _ _) as [[t ml']| | |]; try done. destruct Hs as (H1 & t' & E & Hsh). by exists t', (height t).
Qed.

(** An instruction that fixes the bits of another one, and more. *)
Definition specialises (j i : Instr) : Prop := within (M i) (M j) ∧ Z.land (O j) (M i) = O i.

Lemma unspecialised_found n (t : InstrTable (T := T)) fetch i :
  shape (T := T) endianness w n (λ _, True) (λ i, i ∈ instrs) 0 t → Z.of_nat (length fetch) = w / 32 → digits 32 fetch →
  i ∈ instrs → matches (T := T) endianness w fetch i → (∀ j, j ∈ instrs → specialises j i → j = i) → decode t fetch = Some i.
Proof.
  intros Hsh Hl Hd Hi Hmi Hsp. destruct Henc as [Hne Hwd Hok Hpl Hsep]. destruct (table_width_spec max_instr_width instrs Hne Hwd) as (HW & Hm & _).
  eapply (decode_exact endianness w HW Hm instrs Hsep fetch Hl Hd); [|exact Hsh| |done|done|done|]; [done| |].
  - intros j _. by rewrite !Z.land_0_r.
  - intros j Hj H1 H2. by apply Hsp.
Qed.

(** C5: What the generated decoder returns is an instruction of the table whose
    opcode the encoding has, and no other instruction that the encoding has the
    opcode of fixes at least the same bits: specialised instructions take
    precedence over general ones.  The decoder is that of the table after
    [add_instrs] and [finalize]; the fuel covers the bits and the instructions.
    The encodings are as
    in [encodings]: at least one instruction, widths of 1 to 2^30 bits, fields
    inside of their instruction, no field and no instruction that allows
    conflicts, no shorthands, and no instruction twice. *)
Theorem decode_table_sound fuel ml ml' t t' fetch j : (Z.to_nat w + length instrs < fuel)%nat →
  build_instrtable endianness strictMode fuel table zero max_instr_width instrs ml = Ret (t, ml') → finalize_table t = Ret t' →
  Z.of_nat (length fetch) = w / 32 → digits 32 fetch → decode t' fetch = Some j →
  j ∈ instrs ∧ matches (T := T) endianness w fetch j ∧
  ∀ i, i ∈ instrs → matches (T := T) endianness w fetch i → within (M j) (M i) → i = j.
Proof.
  intros Hf Eb Et Hl Hd Hj. pose proof (built_table True fuel ml (or_introl Logic.I) Hf) as Hs. rewrite Eb in Hs. destruct Hs as (t2 & n & E & Hsh & _).
  rewrite Et in E. injection E as <-. destruct Henc as [Hne Hwd Hok Hpl Hsep]. destruct (table_width_spec max_instr_width instrs Hne Hwd) as (HW & Hm & _).
  assert (∀ i, i ∈ instrs → Z.land (O i) 0 = Z.land (beval 32 fetch) 0) as H0 by (intros; by rewrite !Z.land_0_r).
  by destruct (decode_sound endianness w HW Hm instrs Hok Hsep fetch Hl Hd n _ _ 0 t' j (λ i Hi, Hi) Hsh H0 Hj) as (H1 & _ & H2 & H3).
Qed.
(** C6: An instruction that no other one of the table specialises is found: the
    decoder returns it for every encoding that has its opcode.  The encodings are as
    in [encodings]: at least one instruction, widths of 1 to 2^30 bits, fields
    inside of their instruction, no field and no instruction that allows
    conflicts, no shorthands, and no instruction twice.  Where fields allow
    conflicts this does not hold, see [flagged_lost]. *)
Theorem decode_table_complete fuel ml ml' t t' fetch i : (Z.to_nat w + length instrs < fuel)%nat →
  build_instrtable endianness strictMode fuel table zero max_instr_width instrs ml = Ret (t, ml') → finalize_table t = Ret t' →
  Z.of_nat (length fetch) = w / 32 → digits 32 fetch → i ∈ instrs → matches (T := T) endianness w fetch i →
  (∀ j, j ∈ instrs → specialises j i → j = i) → decode t' fetch = Some i.
Proof.
  intros Hf Eb Et Hl Hd Hi Hmi Hsp. pose proof (built_table True fuel ml (or_introl Logic.I) Hf) as Hs. rewrite Eb in Hs. destruct Hs as (t2 & n & E & Hsh & _).
  rewrite Et in E. injection E as <-. by apply (unspecialised_found n).
Qed.
(** What is built from such encodings is a tree that [finalize] keeps. *)
Lemma built_formed fuel ml ml' t : (Z.to_nat w + length instrs < fuel)%nat →
  build_instrtable endianness strictMode fuel table zero max_instr_width instrs ml = Ret (t, ml') → ∃ n, formed (T := T) w n 0 t.
Proof.
  intros Hf Eb. pose proof (built_table True fuel ml (or_introl Logic.I) Hf) as Hs. rewrite Eb in Hs. destruct Hs as (_ & n & _ & _ & Hsh).
  destruct Henc as [Hne Hwd _ _ _]. destruct (table_width_spec max_instr_width instrs Hne Hwd) as (HW & Hm & _).
  exists n. by eapply shape_formed.
Qed.
(** C8: Building a table ends, with fuel for the bits and the instructions: it
    gives a table, which [finalize] can merge, or reports an error; no assertion
    of the code fails and no pointer to a missing node is followed.  The encodings are as
    in [encodings]: at least one instruction, widths of 1 to 2^30 bits, fields
    inside of their instruction, no field and no instruction that allows
    conflicts, no shorthands, and no instruction twice.  Nothing is said of
    the construction with flags that allow conflicts. *)
Theorem build_instrtable_total fuel ml : (Z.to_nat w + length instrs < fuel)%nat →
  (∃ e, build_instrtable endianness strictMode fuel table zero max_instr_width instrs ml = Throw e) ∨
  ∃ t ml' t', build_instrtable endianness strictMode fuel table zero max_instr_width instrs ml = Ret (t, ml') ∧ finalize_table t = Ret t'.
Proof.
  intros Hf. pose proof (built_table True fuel ml (or_introl Logic.I) Hf) as Hs.
  destruct (build_instrtable _ _ _ _ _ _ _ _) as [[t ml']|e| |]; [right|left; by exists e|done|done].
  destruct Hs as (t' & n & E & _). by exists t, ml', t'.
Qed.
(** C9: Instructions of one word with a primary opcode [c0] in common, and nested
    masks (with different opcodes where the masks are equal) among those that agree
    on it, always get a table, without an error.  The encodings are as
    in [encodings]: at least one instruction, widths of 1 to 2^30 bits, fields
    inside of their instruction, no field and no instruction that allows
    conflicts, no shorthands, and no instruction twice. *)
Theorem nested_table_built fuel ml c0 : (Z.to_nat w + length instrs < fuel)%nat → w = 32 → nested (T := T) endianness w instrs c0 →
  ∃ t ml' t', build_instrtable endianness strictMode fuel table zero max_instr_width instrs ml = Ret (t, ml') ∧ finalize_table t = Ret t' ∧
  ∀ word i, uint 32 word → i ∈ instrs → matches (T := T) endianness w [word] i → (∀ j, j ∈ instrs → specialises j i → j = i) → decode t' [word] = Some i.
Proof.
  intros Hf E32 Hn. pose proof (built_table False fuel ml (or_intror (conj E32 (ex_intro _ c0 Hn))) Hf) as Hs.
  destruct (build_instrtable _ _ _ _ _ _ _ _) as [[t ml']|e| |]; try done. destruct Hs as (t' & n & E & Hsh & _). exists t, ml', t'. split_and!; [done|done|].
  intros word i Hw Hi Hmi Hsp. apply (unspecialised_found n); try done; [by rewrite E32|by apply Forall_singleton].
Qed.
End Core.

(** C7: [finalize], which merges a node with its children where they test bits of
    the same word, ends and does not change what is decoded: the table before and
    the table after it give the same instruction, or a miss, for every encoding.
    This holds for every tree that is [formed]: of one width that is a multiple of
    32, where the children of a node have different keys within its mask, and the
    masks on a path lie in one word each and have no bit in common; whichever
    instructions its nodes hold, and whatever default tables.  The tables that
    are built without conflict flags are such trees ([built_formed]). *)
Theorem finalize_equivalent {T : Type} `{RNumberLaws T} (W : Z) n (t : InstrTable (T := T)) : 0 < W < 2 ^ 31 → W mod 32 = 0 → formed W n 0 t →
  ∃ t', finalize_table t = Ret t' ∧
  ∀ fetch, Z.of_nat (length fetch) = W / 32 → digits 32 fetch → decode t' fetch = decode t fetch.
Proof.
  intros HW Hm Ht%formed_height. destruct (finalize_formed W HW Hm (height t) (height t) 0 t Ht) as (t' & E & _ & Hd); [lia|by exists t'].
Qed.

(** ** A small instruction set *)

Definition opc_field (l r v : Z) : Field := {| _type := Value; _field := {| bits := [{| _l := l; _r := r |}]; allow_conflict := false |}; _value := v |}.
Definition opc_instr (id : Z) (nm : string) (w : Z) (opcs : list Field) : Instr :=
  MkInstr {| _id := id; name := nm; width := w; is_little_endian := false; instr_allow_conflict := false; instr_is_prefix := false;
             _opcs := opcs; _fields := []; _all := opcs |} NoAlias.
Definition addi_i : Instr := opc_instr 1 "addi" 32 [opc_field 0 5 14].
Definition add_i : Instr := opc_instr 2 "add" 32 [opc_field 0 5 31; opc_field 21 30 266].
Definition subf_i : Instr := opc_instr 3 "subf" 32 [opc_field 0 5 31; opc_field 21 30 40].
Definition li_i : Instr := opc_instr 4 "li" 32 [opc_field 0 5 14; opc_field 11 15 0].
Definition small_isa : list Instr := [addi_i; add_i; subf_i; li_i].
Lemma small_isa_encodings : encodings true 32 small_isa.
Proof.
  constructor; [done|repeat constructor; cbn; lia| | |].
  - repeat constructor; cbn; lia.
  - repeat constructor; cbn; lia.
  - split; [apply (NoDup_fmap_1 (λ i, _id (data i))); by compute_done|].
    intros i j. unfold small_isa. rewrite !elem_of_cons, !elem_of_nil. by intros [->|[->|[->|[->|[]]]]] [->|[->|[->|[->|[]]]]].
Qed.

Local Abbreviation number := word_number.
Definition small_zero : number := rn 0 32.
Lemma small_zero_val : rval small_zero = 0.
Proof. reflexivity. Qed.
Definition small_table : InstrTable :=
  match build_instrtable true false 40 "PowerPC" small_zero 32 small_isa [] with Ret (t, _) => t | _ => new_table 32 end.
Definition small_decoder : InstrTable := match finalize_table small_table with Ret t => t | _ => small_table end.
Lemma small_built : build_instrtable true false 40 "PowerPC" small_zero 32 small_isa [] = Ret (small_table, []) ∧
  finalize_table small_table = Ret small_decoder.
Proof. split; vm_compute; reflexivity. Qed.
Lemma small_isa_nested : nested (T := number) true (table_width 32 small_isa) small_isa 0xFC000000.
Proof.
  split.
  - intros i. unfold small_isa. rewrite !elem_of_cons, elem_of_nil.
    intros [->|[->|[->|[->|[]]]]]; (split; [vm_compute; reflexivity|vm_compute; discriminate]).
  - intros i j. unfold small_isa at 1 2. rewrite !elem_of_cons, !elem_of_nil.
    intros [->|[->|[->|[->|[]]]]] [->|[->|[->|[->|[]]]]] Hne E; try (exfalso; exact (Hne eq_refl)); vm_compute in E; try discriminate E;
      (split; [left; vm_compute; reflexivity|vm_compute; discriminate]) || (split; [right; vm_compute; reflexivity|vm_compute; discriminate]).
Qed.
Lemma small_unspecialised : ∀ j, j ∈ small_isa → specialises (T := number) true 32 small_isa j add_i → j = add_i.
Proof.
  intros j. unfold small_isa at 1. rewrite !elem_of_cons, elem_of_nil. intros [->|[->|[->|[->|[]]]]] [H1 H2]; vm_compute in H1, H2; (reflexivity || discriminate).
Qed.
(** li r3,5 *)
Lemma decode_table_sound_witness : decode small_decoder [0x38600005] = Some li_i ∧
  ∀ i, i ∈ small_isa → matches (T := number) true 32 [0x38600005] i → within (opc_bits true 32 li_i) (opc_bits true 32 i) → i = li_i.
Proof.
  destruct small_built as [Eb Et]. split; [by vm_compute|].
  apply (decode_table_sound (T := number) true false 32 small_isa small_isa_encodings "PowerPC" small_zero small_zero_val 40 [] [] small_table small_decoder [0x38600005] li_i);
    [vm_compute; lia|exact Eb|exact Et|by vm_compute|by apply Forall_singleton; unfold uint; lia|by vm_compute].
Defined.
(** add r3,r4,r5 *)
Lemma decode_table_complete_witness : decode small_decoder [0x7C642A14] = Some add_i.
Proof.
  destruct small_built as [Eb Et].
  apply (decode_table_complete (T := number) true false 32 small_isa small_isa_encodings "PowerPC" small_zero small_zero_val 40 [] [] small_table small_decoder [0x7C642A14] add_i);
    [vm_compute; lia|exact Eb|exact Et|by vm_compute|by apply Forall_singleton; unfold uint; lia|apply elem_of_cons; right; apply elem_of_cons; by left|by vm_compute|
     exact small_unspecialised].
Defined.
Lemma build_instrtable_total_witness : ∃ t ml' t', build_instrtable true false 40 "PowerPC" small_zero 32 small_isa [] = Ret (t, ml') ∧ finalize_table t = Ret t'.
Proof.
  destruct (build_instrtable_total (T := number) true false 32 small_isa small_isa_encodings "PowerPC" small_zero small_zero_val 40 [] ltac:(vm_compute; lia))
    as [[e E]|Ht]; [|exact Ht]. destruct small_built as [Eb _]. rewrite Eb in E. discriminate E.
Defined.
Lemma nested_table_built_witness : ∃ t ml' t', build_instrtable true false 40 "PowerPC" small_zero 32 small_isa [] = Ret (t, ml') ∧
  finalize_table t = Ret t' ∧ decode t' [0x7C642A14] = Some add_i.
Proof.
  destruct (nested_table_built (T := number) true false 32 small_isa small_isa_encodings "PowerPC" small_zero small_zero_val 40 [] 0xFC000000
    ltac:(vm_compute; lia) eq_refl small_isa_nested) as (t & ml' & t' & E1 & E2 & E3).
  exists t, ml', t'. split_and!; [exact E1|exact E2|]. apply E3; [unfold uint; lia|apply elem_of_cons; right; apply elem_of_cons; by left|by vm_compute|].
  exact small_unspecialised.
Defined.

(** ** Encodings that specialised instructions take away *)

(** The general instruction [gen_i] is meant for the rest of the cases; where the
    other bits of a specialised one differ, the decoder is below its node. *)
Definition gen_i : Instr := opc_instr 1 "gen" 32 [opc_field 0 5 1].
Definition spec1_i : Instr := opc_instr 2 "spec1" 32 [opc_field 0 5 1; opc_field 6 10 1; opc_field 11 15 7].
Definition spec2_i : Instr := opc_instr 3 "spec2" 32 [opc_field 0 5 1; opc_field 6 10 2].
Definition lossy_isa : list Instr := [gen_i; spec1_i; spec2_i].
(** A general instruction is not found for all of its encodings: with [gen] (bits
    0-5 are 1) and its specialisations [spec1] (bits 6-10 are 1 and 11-15 are 7) and
    [spec2] (bits 6-10 are 2), the encoding with 1, 1 and 0 in these fields has the
    opcode of [gen] only, and the decoder reports a miss; with 1, 3 and 0 it is [gen].
    The table is built without an error. *)
Example general_encodings_lost : ∃ t t', build_instrtable (T := number) true false 40 "t" (rn 0 32) 32 lossy_isa [] = Ret (t, []) ∧ finalize_table t = Ret t' ∧
  (∀ i, i ∈ lossy_isa → matches (T := number) true 32 [0x04200000] i ↔ i = gen_i) ∧ decode t' [0x04200000] = None ∧ decode t' [0x04600000] = Some gen_i.
Proof.
  eexists. eexists. split; [vm_compute; reflexivity|]. split; [vm_compute; reflexivity|]. split; [|split; vm_compute; reflexivity].
  intros i. unfold lossy_isa. rewrite !elem_of_cons, elem_of_nil. intros [->|[->|[->|[]]]]; unfold matches; split; intros E; (by vm_compute in E) || by vm_compute.
Qed.

(** ** Fields that allow conflicts

    [flag_a_i] and [flag_c_i] overlap, and bits 6-10 of [flag_c_i] are a field that
    allows it; the code makes a node for that field, with [flag_c_i] in its
    default table. *)
Definition flag_instr (id : Z) (nm : string) (opcs : list Field) (l r : Z) : Instr :=
  let flagged := {| _type := Value; _field := {| bits := [{| _l := l; _r := r |}]; allow_conflict := true |}; _value := 0 |} in
  MkInstr {| _id := id; name := nm; width := 32; is_little_endian := false; instr_allow_conflict := false; instr_is_prefix := false;
             _opcs := opcs; _fields := [flagged]; _all := opcs ++ [flagged] |} NoAlias.
Definition flag_a_i : Instr := opc_instr 1 "a" 32 [opc_field 0 5 1; opc_field 6 10 0; opc_field 11 15 3].
Definition flag_c_i : Instr := flag_instr 2 "c" [opc_field 0 5 1; opc_field 16 20 5] 6 10.
Definition flag_table : InstrTable := Eval vm_compute in
  match build_instrtable (T := number) true false 40 "t" (rn 0 32) 32 [flag_a_i; flag_c_i] [] with Ret (t, _) => t | _ => new_table 32 end.
Lemma one_word_32 m : 0 ≤ m < 2 ^ 32 → one_word m.
Proof.
  intros Hm. exists 0. split; [done|]. intros i Hi Ht. destruct (Z.ltb_spec i 32) as [|Hge]; [lia|].
  rewrite (Z.bits_above_log2 m i) in Ht; [done|lia|]. destruct (Z.eq_dec m 0) as [->|]; [cbn; lia|].
  apply (Z.lt_le_trans _ 32); [|done]. apply Z.log2_lt_pow2; lia.
Qed.
(** A node with one child. *)
Lemma formed_single n u (t : InstrTable (T := number)) k c m : _width t = 32 → _table t = [(k, c)] → num 32 (_mask t) m →
  0 < m < 2 ^ 32 → Z.land u m = 0 → rsize k = 32 → Z.land (rval k) m = rval k → formed 32 n (Z.lor u m) c → formed 32 (S n) u t.
Proof.
  intros Hw Ht Hm H0 Hu Hs Hk Hc. split; [done|]. right. exists m. rewrite Ht. split_and!; try done.
  - lia.
  - apply one_word_32. lia.
  - by apply Forall_singleton.
  - apply NoDup_singleton.
  - by intros k' c' [= -> ->]%list_elem_of_singleton.
Qed.
Lemma flag_table_formed : formed (T := number) 32 3 0 flag_table.
Proof.
  eapply (formed_single _ _ _ _ _ 0x03E00000); [reflexivity|reflexivity|by split|lia|reflexivity|reflexivity|reflexivity|].
  eapply (formed_single _ _ _ _ _ 0xFC1F0000); [reflexivity|reflexivity|by split|lia|reflexivity|reflexivity|reflexivity|].
  split; [reflexivity|]. left. split_and!; [reflexivity..|by left].
Qed.
(** The node with the default table is not merged with its child: the bits 6-10
    would be tested together with the others, and an encoding with 0 in them and
    without the opcode of [flag_a_i] would reach the default table. *)
Lemma finalize_equivalent_witness : ∃ t', finalize_table flag_table = Ret t' ∧
  decode t' [0x07E02800] = decode flag_table [0x07E02800] ∧ decode flag_table [0x07E02800] = Some flag_c_i ∧
  decode t' [0x04002800] = decode flag_table [0x04002800].
Proof.
  destruct (finalize_equivalent (T := number) 32 3 flag_table ltac:(lia) eq_refl flag_table_formed) as (t' & E & Hd).
  exists t'. split_and!; [exact E| |vm_compute; reflexivity|]; (apply Hd; [reflexivity|apply Forall_singleton; unfold uint; lia]).
Defined.
(** What the flags cost: in the first table, an encoding of [flag_c_i] with the bits
    6-10 of [flag_a_i] is a miss; in the second one, [flag_z_i] comes to be the
    instruction of the root, where the default table hides it. *)
Definition flag_x_i : Instr := opc_instr 1 "x" 32 [opc_field 0 5 1; opc_field 6 10 1].
Definition flag_z_i : Instr := opc_instr 2 "z" 32 [opc_field 0 5 1; opc_field 11 15 1].
Definition flag_y_i : Instr := flag_instr 3 "y" [opc_field 0 5 1] 6 8.
Example flagged_lost :
  (∃ t', finalize_table flag_table = Ret t' ∧ decode t' [0x04002800] = None ∧ matches (T := number) true 32 [0x04002800] flag_c_i ∧
     ~ matches (T := number) true 32 [0x04002800] flag_a_i) ∧
  (∃ t t', build_instrtable (T := number) true false 40 "t" (rn 0 32) 32 [flag_x_i; flag_z_i; flag_y_i] [] = Ret (t, []) ∧ finalize_table t = Ret t' ∧
     _instr t' = Some flag_z_i ∧ decode t' [0x07E10000] = None ∧
     ∀ i, i ∈ [flag_x_i; flag_z_i; flag_y_i] → matches (T := number) true 32 [0x07E10000] i ↔ i ≠ flag_x_i).
Proof.
  split.
  - eexists. split_and!; [by vm_compute..|]. by vm_compute.
  - do 2 eexists. split_and!; [by vm_compute..|]. intros i. rewrite !elem_of_cons, elem_of_nil.
    intros [->|[->|[->|[]]]]; split; intros E; try done; by vm_compute in E || by vm_compute.
Qed.
