(* ===== verification/UndefBits.v ===== *)
(** * Bit vectors with undefined bits: [bits<_Nb>]

    The class template of [src/helpers/bits.h] and [src/helpers/bits_impl.h], with
    propagation of undefined bits: a bit vector and a mask of the same width, in
    which a one marks an undefined bit.  Every operation is the one of [intbv] on
    the value; what it does to the mask is written out. *)
From stdpp Require Import prelude strings.
From Stdlib Require Import ZArith Lia.
From S2P Require Import Prelude.
From S2P Require Import BitTwiddles.
From S2P Require Import WordArith.
From S2P Require Import IntbvBase.
From S2P Require Import Intbv.

Local Open Scope Z_scope.

Module Bits.
Record bits (nb : Z) : Type := Bits { value : intbv nb; _mask : intbv nb }.
Arguments Bits {nb} _ _.
Arguments value {nb} _.
Arguments _mask {nb} _.

Section Operations.
Context (junk : Z).

(** ** Construction *)

(** From a vector, nothing is undefined. *)
Definition of_intbv {nb} (x : intbv nb) : bits nb := Bits x (Intbv.reset junk x).
Definition of_scalar nb (s : scalar) : outcome (bits nb) :=
  let! x := Intbv.of_scalar junk nb s in Ret (of_intbv x).
Definition copy {nb nb2} (x : bits nb2) : bits nb := Bits (Intbv.copy junk (value x)) (Intbv.copy junk (_mask x)).
Definition assign {nb nb2} (this : bits nb) (x : bits nb2) : bits nb :=
  Bits (Intbv.assign junk (value this) (value x)) (Intbv.assign junk (_mask this) (_mask x)).

(** ** Undefined bits *)

Definition any_undefined {nb} (x : bits nb) : bool := Intbv.any junk (_mask x).
Definition propagate_if {nb} (b : bool) (this : bits nb) : bits nb :=
  if b then Bits (value this) (Intbv.set_all junk (_mask this)) else this.
Definition propagate_undefined {nb nb2} (this : bits nb) (x : bits nb2) : bits nb :=
  propagate_if (any_undefined x || any_undefined this) this.
Definition propagate_undefined2 {nb nb1 nb2} (this : bits nb) (x : bits nb1) (y : bits nb2) : bits nb :=
  propagate_if (any_undefined x || any_undefined y) this.
Definition propagate_undefined3 {nb nb1 nb2 nb3} (this : bits nb) (x : bits nb1) (y : bits nb2) (z : bits nb3) : bits nb :=
  propagate_if (any_undefined x || any_undefined y || any_undefined z) this.
Definition union_undefined {nb} (this x : bits nb) : bits nb := Bits (value this) (Intbv.or_assign junk (_mask this) (_mask x)).
Definition union_undefined2 {nb1 nb2} (this : bits (Z.max nb1 nb2)) (x : bits nb1) (y : bits nb2) : bits (Z.max nb1 nb2) :=
  Bits (value this) (Intbv.or_diff junk (_mask x) (_mask y)).
Definition union_undefined_same {nb} (this x y : bits nb) : bits nb := Bits (value this) (Intbv.or_assign junk (_mask x) (_mask y)).

Definition setUndefined {nb} (this : bits nb) (pos : Z) : outcome (bits nb) :=
  let! m := Intbv.set_bit junk (_mask this) pos true in Ret (Bits (value this) m).
Definition setUndefined_range {nb} (this : bits nb) (start stop : Z) : outcome (bits nb) :=
  let! m := Intbv.mask junk (_mask this) start stop in Ret (Bits (value this) m).
Definition isUndefined {nb} (this : bits nb) : bool := Intbv.any junk (_mask this).
Definition isUndefined_range {nb} (this : bits nb) (start stop : Z) : outcome bool :=
  let! m := Intbv.get_range junk (_mask this) start stop in Ret (Intbv.any junk m).

(** ** Fields and single bits *)

(** A position that is a vector goes through an [int]. *)
Definition int_position {nb} (p : bits nb) : Z := wrap 64 (sint 32 (Intbv.uint32 junk (value p))).

Definition set_range {nb} (this : bits nb) (start stop : Z) (x : bits nb) : outcome (bits nb) :=
  let! v := Intbv.set_range junk (value this) start stop (value x) in
  let! m := Intbv.set_range junk (_mask this) start stop (_mask x) in
  Ret (Bits v m).
Definition set_range_diff {nb nb2} (this : bits nb) (start stop : Z) (x : bits nb2) : outcome (bits nb) :=
  let! v := Intbv.set_range_diff junk (value this) start stop (value x) in
  let! m := Intbv.set_range_diff junk (_mask this) start stop (_mask x) in
  Ret (Bits v m).
Definition set_range_bv {nb nb1 nb2 nb3} (this : bits nb) (start : bits nb1) (stop : bits nb2) (x : bits nb3) : outcome (bits nb) :=
  set_range_diff this (int_position start) (int_position stop) x.
(** Constants are stored without a change of the mask. *)
Definition with_value {nb} (this : bits nb) (o : outcome (intbv nb)) : outcome (bits nb) :=
  let! v := o in Ret (Bits v (_mask this)).
Definition mask {nb} (this : bits nb) (start stop : Z) : outcome (bits nb) :=
  with_value this (Intbv.mask junk (value this) start stop).
Definition mask_inv {nb} (this : bits nb) (start stop : Z) : outcome (bits nb) :=
  with_value this (Intbv.mask_inv junk (value this) start stop).
Definition mask_bv {nb nb1 nb2} (this : bits nb) (start : bits nb1) (stop : bits nb2) : outcome (bits nb) :=
  mask this (Intbv.uint32 junk (value start)) (Intbv.uint32 junk (value stop)).
Definition mask_inv_bv {nb nb1 nb2} (this : bits nb) (start : bits nb1) (stop : bits nb2) : outcome (bits nb) :=
  mask_inv this (Intbv.uint32 junk (value start)) (Intbv.uint32 junk (value stop)).
Definition set_all {nb} (this : bits nb) : bits nb := Bits (Intbv.set_all junk (value this)) (_mask this).
Definition set_bit {nb} (this : bits nb) (position : Z) (val : bool) : outcome (bits nb) :=
  with_value this (Intbv.set_bit junk (value this) position val).
Definition set_bit_bv {nb nb1} (this : bits nb) (position : bits nb1) (val : bool) : outcome (bits nb) :=
  set_bit this (Intbv.uint32 junk (value position)) val.
Definition reset {nb} (this : bits nb) : bits nb := Bits (Intbv.reset junk (value this)) (_mask this).
Definition invert {nb} (this : bits nb) : bits nb := Bits (Intbv.invert junk (value this)) (_mask this).
Definition negate {nb} (this : bits nb) : bits nb := Bits (Intbv.negate junk (value this)) (_mask this).

Definition get_range {nb} (this : bits nb) (start stop : Z) : outcome (bits nb) :=
  let! v := Intbv.get_range junk (value this) start stop in
  let! m := Intbv.get_range junk (_mask this) start stop in
  Ret (Bits v m).
Definition get_range_bv {nb nb1 nb2} (this : bits nb) (start : bits nb1) (stop : bits nb2) : outcome (bits nb) :=
  get_range this (int_position start) (int_position stop).
Definition get_range_as {nb} nb2 (this : bits nb) (start stop : Z) : outcome (bits nb2) :=
  let! v := Intbv.get_range_as junk nb2 (value this) start stop in
  let! m := Intbv.get_range_as junk nb2 (_mask this) start stop in
  Ret (Bits v m).
Definition signExtend_to {nb} nb2 (this : bits nb) : outcome (bits nb2) :=
  let! v := Intbv.signExtend_to junk nb2 (value this) in
  Ret (Bits v (Intbv.assign junk (Intbv.reset junk v) (_mask this))).

(** ** Comparisons: of the values *)

Definition eq {nb} (this rhs : bits nb) : bool := Intbv.eq junk (value this) (value rhs).
Definition ne {nb} (this rhs : bits nb) : bool := Intbv.ne junk (value this) (value rhs).
Definition le {nb} (this rhs : bits nb) : bool := Intbv.le junk (value this) (value rhs).
Definition ge {nb} (this rhs : bits nb) : bool := Intbv.ge junk (value this) (value rhs).
Definition lt {nb} (this rhs : bits nb) : bool := Intbv.lt junk (value this) (value rhs).
Definition gt {nb} (this rhs : bits nb) : bool := Intbv.gt junk (value this) (value rhs).
Definition eq_diff {nb nb2} (this : bits nb) (rhs : bits nb2) : bool := Intbv.eq_diff junk (value this) (value rhs).
Definition ne_diff {nb nb2} (this : bits nb) (rhs : bits nb2) : bool := Intbv.ne_diff junk (value this) (value rhs).
Definition le_diff {nb nb2} (this : bits nb) (rhs : bits nb2) : bool := Intbv.le_diff junk (value this) (value rhs).
Definition ge_diff {nb nb2} (this : bits nb) (rhs : bits nb2) : bool := Intbv.ge_diff junk (value this) (value rhs).
Definition lt_diff {nb nb2} (this : bits nb) (rhs : bits nb2) : bool := Intbv.lt_diff junk (value this) (value rhs).
Definition gt_diff {nb nb2} (this : bits nb) (rhs : bits nb2) : bool := Intbv.gt_diff junk (value this) (value rhs).
(** An integer becomes a vector of its own width, on either side. *)
Definition with_scalar {A : Type} (s : scalar) (f : bits (scalar_width s) → A) : outcome A :=
  let! y := of_scalar (scalar_width s) s in Ret (f y).
Definition eq_scalar {nb} (this : bits nb) (s : scalar) : outcome bool := with_scalar s (λ y, eq_diff this y).
Definition ne_scalar {nb} (this : bits nb) (s : scalar) : outcome bool := with_scalar s (λ y, ne_diff this y).
Definition le_scalar {nb} (this : bits nb) (s : scalar) : outcome bool := with_scalar s (λ y, le_diff this y).
Definition ge_scalar {nb} (this : bits nb) (s : scalar) : outcome bool := with_scalar s (λ y, ge_diff this y).
Definition lt_scalar {nb} (this : bits nb) (s : scalar) : outcome bool := with_scalar s (λ y, lt_diff this y).
Definition gt_scalar {nb} (this : bits nb) (s : scalar) : outcome bool := with_scalar s (λ y, gt_diff this y).
Definition signedLE {nb} (this rhs : bits nb) : bool := Intbv.signedLE junk (value this) (value rhs).
Definition signedLT {nb} (this rhs : bits nb) : bool := Intbv.signedLT junk (value this) (value rhs).
Definition signedGT {nb} (this rhs : bits nb) : bool := Intbv.signedGT junk (value this) (value rhs).
Definition signedGE {nb} (this rhs : bits nb) : bool := Intbv.signedGE junk (value this) (value rhs).
Definition signedLE_diff {nb nb2} (this : bits nb) (rhs : bits nb2) : outcome bool := Intbv.signedLE_diff junk (value this) (value rhs).
Definition signedLT_diff {nb nb2} (this : bits nb) (rhs : bits nb2) : outcome bool := Intbv.signedLT_diff junk (value this) (value rhs).
Definition signedGT_diff {nb nb2} (this : bits nb) (rhs : bits nb2) : outcome bool := Intbv.signedGT_diff junk (value this) (value rhs).
Definition signedGE_diff {nb nb2} (this : bits nb) (rhs : bits nb2) : outcome bool := Intbv.signedGE_diff junk (value this) (value rhs).

(** ** Compound assignments *)

(** With an integer, the mask stays as it is. *)
Definition minus_assign_scalar {nb} (this : bits nb) (s : scalar) : outcome (bits nb) :=
  with_value this (Intbv.minus_assign_scalar junk (value this) s).
Definition plus_assign_scalar {nb} (this : bits nb) (s : scalar) : outcome (bits nb) :=
  with_value this (Intbv.plus_assign_scalar junk (value this) s).
Definition divide_assign_scalar {nb} (this : bits nb) (s : scalar) : outcome (bits nb) :=
  with_value this (Intbv.divide_assign_scalar junk (value this) s).
Definition mod_assign_scalar {nb} (this : bits nb) (s : scalar) : outcome (bits nb) :=
  with_value this (Intbv.mod_assign_scalar junk (value this) s).

Definition minus_assign {nb} (this rhs : bits nb) : bits nb :=
  propagate_undefined (Bits (Intbv.minus_assign junk (value this) (value rhs)) (_mask this)) rhs.
Definition plus_assign {nb} (this rhs : bits nb) : bits nb :=
  propagate_undefined (Bits (Intbv.plus_assign junk (value this) (value rhs)) (_mask this)) rhs.
Definition times_assign {nb} (this rhs : bits nb) : bits nb :=
  propagate_undefined (Bits (Intbv.times_assign junk (value this) (value rhs)) (_mask this)) rhs.
Definition signedMultiplyEqual {nb} (this rhs : bits nb) : bits nb :=
  propagate_undefined (Bits (Intbv.signedMultiplyEqual junk (value this) (value rhs)) (_mask this)) rhs.
Definition divide_assign {nb} (this rhs : bits nb) : outcome (bits nb) :=
  let! v := Intbv.divide_assign junk (value this) (value rhs) in Ret (propagate_undefined (Bits v (_mask this)) rhs).
Definition divide_assign_diff {nb nb2} (this : bits nb) (rhs : bits nb2) : outcome (bits nb) :=
  let! v := Intbv.divide_assign_diff junk (value this) (value rhs) in Ret (propagate_undefined (Bits v (_mask this)) rhs).
Definition signedDivideEqual {nb} (this rhs : bits nb) : outcome (bits nb) :=
  let! v := Intbv.signedDivideEqual junk (value this) (value rhs) in Ret (propagate_undefined (Bits v (_mask this)) rhs).
Definition signedDivideEqual_diff {nb nb2} (this : bits nb) (rhs : bits nb2) : outcome (bits nb) :=
  let! v := Intbv.signedDivideEqual_diff junk (value this) (value rhs) in Ret (propagate_undefined (Bits v (_mask this)) rhs).
Definition mod_assign {nb} (this rhs : bits nb) : outcome (bits nb) :=
  let! v := Intbv.mod_assign junk (value this) (value rhs) in Ret (propagate_undefined (Bits v (_mask this)) rhs).
Definition mod_assign_diff {nb nb2} (this : bits nb) (rhs : bits nb2) : outcome (bits nb) :=
  let! v := Intbv.mod_assign_diff junk (value this) (value rhs) in Ret (propagate_undefined (Bits v (_mask this)) rhs).

Definition and_assign {nb} (this rhs : bits nb) : bits nb :=
  union_undefined (Bits (Intbv.and_assign junk (value this) (value rhs)) (_mask this)) rhs.
Definition or_assign {nb} (this rhs : bits nb) : bits nb :=
  union_undefined (Bits (Intbv.or_assign junk (value this) (value rhs)) (_mask this)) rhs.
Definition xor_assign {nb} (this rhs : bits nb) : bits nb :=
  union_undefined (Bits (Intbv.xor_assign junk (value this) (value rhs)) (_mask this)) rhs.

(** ** Shifts, rotations, swaps *)

Definition shift_left_assign {nb} (this : bits nb) (position : Z) : bits nb :=
  Bits (Intbv.shift_left_assign junk (value this) position) (Intbv.shift_left_assign junk (_mask this) position).
Definition shift_right_assign {nb} (this : bits nb) (position : Z) : bits nb :=
  Bits (Intbv.shift_right_assign junk (value this) position) (Intbv.shift_right_assign junk (_mask this) position).
Definition signedRightShiftEqual {nb} (this : bits nb) (position : Z) : outcome (bits nb) :=
  let! v := Intbv.signedRightShiftEqual junk (value this) position in
  let! m := Intbv.signedRightShiftEqual junk (_mask this) position in
  Ret (Bits v m).
Definition shift_left_bv {nb nb2} (this : bits nb) (position : bits nb2) : bits nb :=
  shift_left_assign this (Intbv.uint32 junk (value position)).
Definition shift_right_bv {nb nb2} (this : bits nb) (position : bits nb2) : bits nb :=
  shift_right_assign this (Intbv.uint32 junk (value position)).
(** [res._mask.left_rotate(position)] returns a rotated mask, which nothing uses;
    [res] comes from a vector. *)
Definition left_rotate {nb} (this : bits nb) (position : Z) : bits nb :=
  of_intbv (Intbv.left_rotate junk (value this) position).
Definition right_rotate {nb} (this : bits nb) (position : Z) : bits nb :=
  of_intbv (Intbv.right_rotate junk (value this) position).
Definition left_rotate_bv {nb nb2} (this : bits nb) (position : bits nb2) : bits nb :=
  left_rotate this (Intbv.uint32 junk (value position)).
Definition right_rotate_bv {nb nb2} (this : bits nb) (position : bits nb2) : bits nb :=
  right_rotate this (Intbv.uint32 junk (value position)).
Definition swap_bytes {nb} (this : bits nb) : bits nb := of_intbv (Intbv.swap_bytes junk (value this)).
Definition swap_words {nb} (this : bits nb) : bits nb := of_intbv (Intbv.swap_words junk (value this)).

(** ** Carries and concatenation *)

Definition Carry {nb nb2} (a : bits nb) (b : bits nb2) (cin : bits 1) : bits (Z.max nb nb2) :=
  propagate_undefined3 (of_intbv (Intbv.Carry junk (value a) (value b) (value cin))) a b cin.
Definition Carry_int {nb} (a : bits nb) (b : Z) (cin : bits 1) : bits (Z.max nb nb) :=
  Carry a (of_intbv (Intbv.of_uint32 junk nb b)) cin.
Definition concat2 {nb1 nb2} (x : bits nb1) (y : bits nb2) : outcome (bits (nb1 + nb2)) :=
  let! v := Intbv.concat2 junk (value x) (value y) in
  let! m := Intbv.concat2 junk (_mask x) (_mask y) in
  Ret (Bits v m).
(** The vector made from the integer is not used: the function calls itself. *)
Fixpoint concat_int (fuel : nat) {nb1} (x : bits nb1) (y : Z) : outcome (bits (nb1 + 32)) :=
  match fuel with
  | O => Undefined
  | S fuel => let tmp_y := of_intbv (Intbv.of_uint32 junk 32 y) in concat_int fuel x y
  end.
Definition concat3 {nb1 nb2 nb3} (x : bits nb1) (y : bits nb2) (z : bits nb3) : outcome (bits (nb1 + nb2 + nb3)) :=
  let! v := Intbv.concat3 junk (value x) (value y) (value z) in
  let! m := Intbv.concat3 junk (_mask x) (_mask y) (_mask z) in
  Ret (Bits v m).
Definition concat4 {nb1 nb2 nb3 nb4} (w : bits nb1) (x : bits nb2) (y : bits nb3) (z : bits nb4) :
    outcome (bits (nb1 + nb2 + nb3 + nb4)) :=
  let! v := Intbv.concat4 junk (value w) (value x) (value y) (value z) in
  let! m := Intbv.concat4 junk (_mask w) (_mask x) (_mask y) (_mask z) in
  Ret (Bits v m).
Definition concat5 {nb1 nb2 nb3 nb4 nb5} (v : bits nb1) (w : bits nb2) (x : bits nb3) (y : bits nb4) (z : bits nb5) :
    outcome (bits (nb1 + nb2 + nb3 + nb4 + nb5)) :=
  let! r := Intbv.concat5 junk (value v) (value w) (value x) (value y) (value z) in
  let! m := Intbv.concat5 junk (_mask v) (_mask w) (_mask x) (_mask y) (_mask z) in
  Ret (Bits r m).
Definition concat6 {nb1 nb2 nb3 nb4 nb5 nb6} (u : bits nb1) (v : bits nb2) (w : bits nb3) (x : bits nb4) (y : bits nb5)
    (z : bits nb6) : outcome (bits (nb1 + nb2 + nb3 + nb4 + nb5 + nb6)) :=
  let! r := Intbv.concat6 junk (value u) (value v) (value w) (value x) (value y) (value z) in
  let! m := Intbv.concat6 junk (_mask u) (_mask v) (_mask w) (_mask x) (_mask y) (_mask z) in
  Ret (Bits r m).

(** ** Binary operators *)

Definition minus {nb} (x y : bits nb) : bits nb :=
  propagate_undefined2 (of_intbv (Intbv.minus_assign junk (value x) (value y))) x y.
Definition plus {nb} (x y : bits nb) : bits nb :=
  propagate_undefined2 (of_intbv (Intbv.plus_assign junk (value x) (value y))) x y.
Definition times {nb} (x y : bits nb) : bits nb :=
  propagate_undefined2 (of_intbv (Intbv.times_assign junk (value x) (value y))) x y.
Definition divide {nb} (x y : bits nb) : outcome (bits nb) :=
  let! v := Intbv.divide_assign junk (value x) (value y) in Ret (propagate_undefined2 (of_intbv v) x y).
Definition mod_ {nb} (x y : bits nb) : outcome (bits nb) :=
  let! v := Intbv.mod_assign junk (value x) (value y) in Ret (propagate_undefined2 (of_intbv v) x y).
Definition minus_diff {nb nb2} (x : bits nb) (y : bits nb2) : bits (Z.max nb nb2) :=
  propagate_undefined2 (of_intbv (Intbv.minus_diff junk (value x) (value y))) x y.
Definition plus_diff {nb nb2} (x : bits nb) (y : bits nb2) : bits (Z.max nb nb2) :=
  propagate_undefined2 (of_intbv (Intbv.plus_diff junk (value x) (value y))) x y.
Definition times_diff {nb nb2} (x : bits nb) (y : bits nb2) : bits (Z.max nb nb2) :=
  propagate_undefined2 (of_intbv (Intbv.times_diff junk (value x) (value y))) x y.
Definition signedMultiply {nb nb2} (x : bits nb) (y : bits nb2) : outcome (bits (Z.max nb nb2)) :=
  let! v := Intbv.signedMultiply junk (value x) (value y) in Ret (propagate_undefined2 (of_intbv v) x y).
Definition signedMultiply_scalar {nb} (x : bits nb) (s : scalar) : outcome (bits (Z.max nb (scalar_width s))) :=
  let! v := Intbv.signedMultiply_scalar junk (value x) s in Ret (propagate_undefined (of_intbv v) x).
Definition divide_diff {nb nb2} (x : bits nb) (y : bits nb2) : outcome (bits (Z.max nb nb2)) :=
  let! v := Intbv.divide_diff junk (value x) (value y) in Ret (propagate_undefined2 (of_intbv v) x y).
Definition signedDivide {nb nb2} (x : bits nb) (y : bits nb2) : outcome (bits (Z.max nb nb2)) :=
  let! v := Intbv.signedDivide junk (value x) (value y) in Ret (propagate_undefined2 (of_intbv v) x y).
Definition signedDivide_scalar {nb} (x : bits nb) (s : scalar) : outcome (bits (Z.max nb (scalar_width s))) :=
  let! v := Intbv.signedDivide_scalar junk (value x) s in Ret (propagate_undefined (of_intbv v) x).
Definition mod_diff {nb nb2} (x : bits nb) (y : bits nb2) : outcome (bits (Z.max nb nb2)) :=
  let! v := Intbv.mod_diff junk (value x) (value y) in Ret (propagate_undefined2 (of_intbv v) x y).
Definition and_ {nb} (x y : bits nb) : bits nb :=
  union_undefined_same (of_intbv (Intbv.and_assign junk (value x) (value y))) x y.
Definition or_ {nb} (x y : bits nb) : bits nb :=
  union_undefined_same (of_intbv (Intbv.or_assign junk (value x) (value y))) x y.
Definition xor_ {nb} (x y : bits nb) : bits nb :=
  union_undefined_same (of_intbv (Intbv.xor_assign junk (value x) (value y))) x y.
Definition and_diff {nb nb2} (x : bits nb) (y : bits nb2) : bits (Z.max nb nb2) :=
  union_undefined2 (of_intbv (Intbv.and_diff junk (value x) (value y))) x y.
Definition or_diff {nb nb2} (x : bits nb) (y : bits nb2) : bits (Z.max nb nb2) :=
  union_undefined2 (of_intbv (Intbv.or_diff junk (value x) (value y))) x y.
Definition xor_diff {nb nb2} (x : bits nb) (y : bits nb2) : bits (Z.max nb nb2) :=
  union_undefined2 (of_intbv (Intbv.xor_diff junk (value x) (value y))) x y.

(** *** With an integer, on either side *)

Definition minus_scalar {nb} (x : bits nb) (s : scalar) : outcome (bits (Z.max nb (scalar_width s))) :=
  with_scalar s (λ y, minus_diff x y).
Definition scalar_minus {nb} (s : scalar) (y : bits nb) : outcome (bits (Z.max (scalar_width s) nb)) :=
  with_scalar s (λ x, minus_diff x y).
Definition plus_scalar {nb} (x : bits nb) (s : scalar) : outcome (bits (Z.max nb (scalar_width s))) :=
  with_scalar s (λ y, plus_diff x y).
Definition scalar_plus {nb} (s : scalar) (y : bits nb) : outcome (bits (Z.max (scalar_width s) nb)) :=
  with_scalar s (λ x, plus_diff x y).
Definition times_scalar {nb} (x : bits nb) (s : scalar) : outcome (bits (Z.max nb (scalar_width s))) :=
  with_scalar s (λ y, times_diff x y).
Definition scalar_times {nb} (s : scalar) (y : bits nb) : outcome (bits (Z.max (scalar_width s) nb)) :=
  with_scalar s (λ x, times_diff x y).
Definition and_scalar {nb} (x : bits nb) (s : scalar) : outcome (bits (Z.max nb (scalar_width s))) :=
  with_scalar s (λ y, and_diff x y).
Definition scalar_and {nb} (s : scalar) (y : bits nb) : outcome (bits (Z.max (scalar_width s) nb)) :=
  with_scalar s (λ x, and_diff x y).
Definition or_scalar {nb} (x : bits nb) (s : scalar) : outcome (bits (Z.max nb (scalar_width s))) :=
  with_scalar s (λ y, or_diff x y).
Definition scalar_or {nb} (s : scalar) (y : bits nb) : outcome (bits (Z.max (scalar_width s) nb)) :=
  with_scalar s (λ x, or_diff x y).
Definition xor_scalar {nb} (x : bits nb) (s : scalar) : outcome (bits (Z.max nb (scalar_width s))) :=
  with_scalar s (λ y, xor_diff x y).
Definition scalar_xor {nb} (s : scalar) (y : bits nb) : outcome (bits (Z.max (scalar_width s) nb)) :=
  with_scalar s (λ x, xor_diff x y).
Definition divide_scalar {nb} (x : bits nb) (s : scalar) : outcome (bits (Z.max nb (scalar_width s))) :=
  let! y := of_scalar (scalar_width s) s in divide_diff x y.
Definition scalar_divide {nb} (s : scalar) (y : bits nb) : outcome (bits (Z.max (scalar_width s) nb)) :=
  let! x := of_scalar (scalar_width s) s in divide_diff x y.
Definition mod_scalar {nb} (x : bits nb) (s : scalar) : outcome (bits (Z.max nb (scalar_width s))) :=
  let! y := of_scalar (scalar_width s) s in mod_diff x y.
Definition scalar_mod {nb} (s : scalar) (y : bits nb) : outcome (bits (Z.max (scalar_width s) nb)) :=
  let! x := of_scalar (scalar_width s) s in mod_diff x y.
End Operations.
End Bits.
