(* ===== verification/UndefBitsCorrect.v ===== *)
(** * Undefined bits are tracked, and where they are not

    Two vectors with the same mask whose values differ in undefined bits only are
    [alike]: nothing may tell them apart.  An operation tracks undefined bits if it
    takes vectors that are alike to vectors that are alike, that is, if no bit of
    its result that is marked as defined depends on an undefined bit.  This is
    [Proper] for [alike]; the operations that have it are instances, the others
    have counterexamples. *)
From stdpp Require Import prelude strings.
From Stdlib Require Import ZArith Lia.
From S2P Require Import Prelude.
From S2P Require Import BitTwiddles.
From S2P Require Import WordArith.
From S2P Require Import IntbvBase.
From S2P Require Import IntbvLaws.
From S2P Require Import Intbv.
From S2P Require Import IntbvSpec.
From S2P Require Import IntbvCorrect.
From S2P Require Import UndefBits.
Import Bits.

Local Open Scope Z_scope.

(** ** Numbers that differ in undefined bits only *)

Definition agree (m x x' : Z) : Prop := ∀ i, 0 ≤ i → Z.testbit m i = false → Z.testbit x i = Z.testbit x' i.
#[export] Instance agree_equivalence m : Equivalence (agree m).
Proof.
  split; [done|by intros x y H i Hi Hm; rewrite H|]. intros x y z H1 H2 i Hi Hm. by rewrite H1, H2.
Qed.
Lemma agree_0 x x' : agree 0 x x' → x = x'.
Proof. intros H. apply Z.bits_inj'. intros i Hi. apply H; [done|apply Z.testbit_0_l]. Qed.
Lemma agree_ones n x x' : 0 ≤ n → uint n x → uint n x' → agree (2 ^ n - 1) x x'.
Proof.
  intros Hn Hx Hx' i Hi. replace (2 ^ n - 1) with (Z.ones n) by (rewrite Z.ones_equiv; lia). rewrite testbit_ones by done.
  destruct (Z.leb_spec 0 i), (Z.ltb_spec i n); try (done || lia). intros _. by rewrite !(testbit_high n) by done.
Qed.
Lemma agree_land m m' x x' y y' : agree m x x' → agree m' y y' → agree (Z.lor m m') (Z.land x y) (Z.land x' y').
Proof.
  intros Hx Hy i Hi. rewrite Z.lor_spec. intros [E1 E2]%orb_false_elim. by rewrite !Z.land_spec, (Hx i Hi E1), (Hy i Hi E2).
Qed.
Lemma agree_union_lor m m' x x' y y' : agree m x x' → agree m' y y' → agree (Z.lor m m') (Z.lor x y) (Z.lor x' y').
Proof.
  intros Hx Hy i Hi. rewrite Z.lor_spec. intros [E1 E2]%orb_false_elim. by rewrite !Z.lor_spec, (Hx i Hi E1), (Hy i Hi E2).
Qed.
Lemma agree_lxor m m' x x' y y' : agree m x x' → agree m' y y' → agree (Z.lor m m') (Z.lxor x y) (Z.lxor x' y').
Proof.
  intros Hx Hy i Hi. rewrite Z.lor_spec. intros [E1 E2]%orb_false_elim. by rewrite !Z.lxor_spec, (Hx i Hi E1), (Hy i Hi E2).
Qed.
Lemma agree_wrap n m x x' : 0 ≤ n → agree m x x' → agree (wrap n m) (wrap n x) (wrap n x').
Proof.
  intros Hn H i Hi. rewrite !testbit_wrap by done. destruct (i <? n); [|done]. cbn. by apply H.
Qed.
Lemma agree_mul_pow2 p m x x' : 0 ≤ p → agree m x x' → agree (m * 2 ^ p) (x * 2 ^ p) (x' * 2 ^ p).
Proof.
  intros Hp H i Hi. rewrite !testbit_mul by done. destruct (0 <=? i); [|done]. cbn. destruct (Z.leb_spec p i); [apply H; lia|].
  by rewrite !(Z.testbit_neg_r _ (i - p)) by lia.
Qed.
Lemma agree_div_pow2 p m x x' : 0 ≤ p → agree m x x' → agree (m / 2 ^ p) (x / 2 ^ p) (x' / 2 ^ p).
Proof. intros Hp H i Hi. rewrite !testbit_div by done. destruct (0 <=? i); [|done]. cbn. apply H. lia. Qed.
Lemma agree_ldiff m x x' k : agree m x x' → agree (Z.ldiff m k) (Z.ldiff x k) (Z.ldiff x' k).
Proof. intros H i Hi. rewrite !Z.ldiff_spec. destruct (Z.testbit k i); rewrite ?andb_false_r, ?andb_true_r; [done|]. by apply H. Qed.
(** The sign goes with the mark of the sign bit. *)
Lemma agree_sint n m x x' : 0 < n → uint n m → uint n x → uint n x' → agree m x x' → agree (sint n m) (sint n x) (sint n x').
Proof.
  intros Hn Hm Hx Hx' H i Hi. rewrite !testbit_sint by done. destruct (i <? n); apply H; lia.
Qed.
Lemma agree_get_field nb start stop m x x' : 0 ≤ start ≤ stop → stop < nb → agree m x x' →
  agree (get_field nb start stop m) (get_field nb start stop x) (get_field nb start stop x').
Proof. intros H1 H2 H. apply agree_wrap; [lia|]. apply agree_div_pow2; [lia|done]. Qed.
Lemma agree_set_field nb start stop m m' x x' y y' : 0 ≤ start ≤ stop → stop < nb → agree m x x' → agree m' y y' →
  agree (set_field nb start stop m m') (set_field nb start stop x y) (set_field nb start stop x' y').
Proof.
  intros H1 H2 H H'. apply agree_union_lor; [by apply agree_ldiff|]. apply agree_mul_pow2; [lia|]. by apply agree_wrap; [lia|].
Qed.
Lemma agree_concat k m m' x x' y y' : 0 ≤ k → uint k m' → uint k y → uint k y' → agree m x x' → agree m' y y' →
  agree (m * 2 ^ k + m') (x * 2 ^ k + y) (x' * 2 ^ k + y').
Proof.
  intros Hk Hm Hy Hy' H H'. rewrite !(Z.add_comm (_ * 2 ^ k)), <- !lor_add by done. apply agree_union_lor; [done|]. by apply agree_mul_pow2.
Qed.

(** ** Vectors that are alike *)

Definition alike {nb} (a a' : bits nb) : Prop := ∃ x x' m,
  repr (value a) x ∧ repr (value a') x' ∧ repr (_mask a) m ∧ repr (_mask a') m ∧ agree m x x'.
(** Two computations that return vectors that are alike. *)
Definition both {A} (R : A → A → Prop) (o o' : outcome A) : Prop := ∃ a a', o = Ret a ∧ o' = Ret a' ∧ R a a'.

Section Track.
Context (junk : Z) {Hj : byte junk}.

Section Alike.
Context {nb : Z} {Hwf : wf nb}.
#[global] Instance alike_per : RelationClasses.PER (alike (nb := nb)).
Proof using Hj Hwf.
  split.
  - intros a a' (x & x' & m & H1 & H2 & H3 & H4 & H). exists x', x, m. by split_and!.
  - intros a b c (x & y & m & H1 & H2 & H3 & H4 & H) (y' & z & m' & G1 & G2 & G3 & G4 & G).
    rewrite (repr_fun junk _ _ _ H2 G1) in *. rewrite (repr_fun junk _ _ _ H4 G3) in *.
    exists x, z, m'. split_and!; try done. by transitivity y'.
Qed.
Lemma any_spec (a : bits nb) m : repr (_mask a) m → any_undefined junk a = negb (m =? 0).
Proof using Hj Hwf. intros Hm. by apply (count_spec junk). Qed.
Lemma alike_any (a a' : bits nb) : alike a a' → any_undefined junk a = any_undefined junk a'.
Proof using Hj Hwf. intros (x & x' & m & _ & _ & H3 & H4 & _). by rewrite (any_spec a m), (any_spec a' m). Qed.
(** Without undefined bits, only equal vectors are alike. *)
Lemma alike_defined (a a' : bits nb) : alike a a' → any_undefined junk a = false → ∃ x, repr (value a) x ∧ repr (value a') x ∧ repr (_mask a) 0.
Proof using Hj Hwf.
  intros (x & x' & m & H1 & H2 & H3 & H4 & H). rewrite (any_spec a m H3). destruct (Z.eqb_spec m 0) as [->|]; [|done].
  intros _. apply agree_0 in H as ->. by exists x'.
Qed.
Lemma of_intbv_mask (x : intbv nb) : repr (_mask (of_intbv junk x)) 0.
Proof using Hj Hwf. apply (repr_0 junk). Qed.
Lemma propagate_alike b (r r' : bits nb) x x' m : repr (value r) x → repr (value r') x' → repr (_mask r) m → repr (_mask r') m →
  (b = false → x = x') → alike (propagate_if junk b r) (propagate_if junk b r').
Proof using Hj Hwf.
  intros H1 H2 H3 H4 He. destruct b; cbn.
  - exists x, x', (2 ^ nb - 1). split_and!; [done|done|apply (set_all_spec junk)..|].
    apply agree_ones; [unfold wf in Hwf; lia|by eapply repr_uint..].
  - rewrite (He eq_refl) in *. by exists x', x', m.
Qed.
End Alike.

(** ** Schemes *)

(** The results of one function on the values and on the masks. *)
Lemma pair_alike {nb} (v v' m m' : outcome (intbv nb)) x x' k :
  returns v x → returns v' x' → returns m k → returns m' k → agree k x x' →
  both alike (let! r := v in let! u := m in Ret (Bits r u)) (let! r := v' in let! u := m' in Ret (Bits r u)).
Proof using Type.
  intros (r & -> & Hr) (r' & -> & Hr') (u & -> & Hu) (u' & -> & Hu') H. cbn [obind].
  do 2 eexists. split_and!; [done..|]. by exists x, x', k.
Qed.

Section Schemes.
Context {n1 n2 n : Z} {H1 : wf n1} {H2 : wf n2} {H : wf n}.

(** A relation on outcomes reduces to one on values for functions that return. *)
Lemma both_ret {A} (R : A → A → Prop) x x' : both R (Ret x) (Ret x') → R x x'.
Proof using Type. intros (y & y' & [= ->] & [= ->] & HR). exact HR. Qed.
Definition everywhere (D : Z → Z → Prop) (a a' : bits n1) (b b' : bits n2) : Prop :=
  ∀ x y, repr (value a) x ∨ repr (value a') x → repr (value b) y ∨ repr (value b') y → D x y.

(** Both computations return; where the operands are defined they return the same. *)
Lemma values_same (f : intbv n1 → intbv n2 → outcome (intbv n)) (F : Z → Z → Z) (D : Z → Z → Prop) a a' b b' :
  (∀ u v x y, repr u x → repr v y → D x y → returns (f u v) (F x y)) → everywhere D a a' b b' →
  alike a a' → alike b b' → ∃ v v' z z',
  f (value a) (value b) = Ret v ∧ f (value a') (value b') = Ret v' ∧ repr v z ∧ repr v' z' ∧
  (any_undefined junk a || any_undefined junk b = false → z = z').
Proof using Hj H1 H2 H.
  intros Hf HD Ha Hb. pose proof (alike_defined a a' Ha) as Da. pose proof (alike_defined b b' Hb) as Db.
  destruct Ha as (x & x' & m & A1 & A2 & A3 & A4 & A), Hb as (y & y' & k & B1 & B2 & B3 & B4 & B).
  destruct (Hf (value a) (value b) x y) as (v & Ev & Hv); [by auto..|].
  destruct (Hf (value a') (value b') x' y') as (v' & Ev' & Hv'); [by auto..|].
  exists v, v', (F x y), (F x' y'). split_and!; [done..|].
  intros [Ea Eb]%orb_false_elim. destruct (Da Ea) as (z & Z1 & Z2 & _), (Db Eb) as (t & T1 & T2 & _).
  by rewrite (repr_fun junk _ _ _ A1 Z1), (repr_fun junk _ _ _ A2 Z2), (repr_fun junk _ _ _ B1 T1), (repr_fun junk _ _ _ B2 T2).
Qed.

(** Results are undefined throughout if an operand has an undefined bit. *)
Lemma propagate2_alike (f : intbv n1 → intbv n2 → outcome (intbv n)) (F : Z → Z → Z) (D : Z → Z → Prop) a a' b b' :
  (∀ u v x y, repr u x → repr v y → D x y → returns (f u v) (F x y)) → everywhere D a a' b b' →
  alike a a' → alike b b' →
  both alike (let! v := f (value a) (value b) in Ret (propagate_undefined2 junk (of_intbv junk v) a b))
    (let! v := f (value a') (value b') in Ret (propagate_undefined2 junk (of_intbv junk v) a' b')).
Proof using Hj H1 H2 H.
  intros Hf HD Ha Hb. unfold propagate_undefined2. rewrite <- (alike_any a a'), <- (alike_any b b') by done.
  destruct (values_same f F D a a' b b') as (v & v' & z & z' & -> & -> & Hv & Hv' & He); [done..|]. cbn [obind].
  do 2 eexists. split_and!; [done|done|]. by eapply propagate_alike; [exact Hv|exact Hv'|apply of_intbv_mask..|].
Qed.
Lemma propagate2_proper (f : intbv n1 → intbv n2 → intbv n) (F : Z → Z → Z) :
  (∀ u v x y, repr u x → repr v y → repr (f u v) (F x y)) →
  Proper (alike ==> alike ==> alike) (λ a b, propagate_undefined2 junk (of_intbv junk (f (value a) (value b))) a b).
Proof using Hj H1 H2 H.
  intros Hf a a' Ha b b' Hb. apply both_ret.
  apply (propagate2_alike (λ u v, Ret (f u v)) F (λ _ _, True)); [|done..]. intros u v x y Hu Hv _. eexists. by eauto.
Qed.

(** A function of all bits of a field, without carries: on the mask it does what it does on the value. *)
Definition bitwise2 (F : Z → Z → Z) : Prop := ∀ m k x x' y y',
  uint n1 m → uint n2 k → uint n1 x → uint n1 x' → uint n2 y → uint n2 y' →
  agree m x x' → agree k y y' → agree (F m k) (F x y) (F x' y').
Lemma pair2_proper (f : intbv n1 → intbv n2 → outcome (intbv n)) (F : Z → Z → Z) :
  (∀ u v x y, repr u x → repr v y → returns (f u v) (F x y)) → bitwise2 F →
  Proper (alike ==> alike ==> both alike)
    (λ a b, let! v := f (value a) (value b) in let! m := f (_mask a) (_mask b) in Ret (Bits v m)).
Proof using Hj H1 H2 H.
  intros Hf HF a a' (x & x' & m & A1 & A2 & A3 & A4 & A) b b' (y & y' & k & B1 & B2 & B3 & B4 & B).
  eapply pair_alike; [by apply Hf..|]. apply HF; by eapply repr_uint || assumption.
Qed.
Lemma pair1_proper (f : intbv n1 → outcome (intbv n)) (F : Z → Z) :
  (∀ u x, repr u x → returns (f u) (F x)) →
  (∀ m x x', uint n1 m → uint n1 x → uint n1 x' → agree m x x' → agree (F m) (F x) (F x')) →
  Proper (alike ==> both alike) (λ a, let! v := f (value a) in let! m := f (_mask a) in Ret (Bits v m)).
Proof using Hj H1 H.
  intros Hf HF a a' (x & x' & m & A1 & A2 & A3 & A4 & A).
  eapply pair_alike; [by apply Hf..|]. apply HF; by eapply repr_uint || assumption.
Qed.
(** The bitwise operators: undefined where an operand is. *)
Lemma union_proper (f g : intbv n1 → intbv n2 → intbv n) (F : Z → Z → Z) :
  (∀ u v x y, repr u x → repr v y → repr (f u v) (F x y)) → (∀ u v x y, repr u x → repr v y → repr (g u v) (Z.lor x y)) →
  (∀ m k x x' y y', agree m x x' → agree k y y' → agree (Z.lor m k) (F x y) (F x' y')) →
  Proper (alike ==> alike ==> alike) (λ a b, Bits (f (value a) (value b)) (g (_mask a) (_mask b))).
Proof using Hj H1 H2 H.
  intros Hf Hg HF a a' (x & x' & m & A1 & A2 & A3 & A4 & A) b b' (y & y' & k & B1 & B2 & B3 & B4 & B).
  do 3 eexists. cbn [value _mask]. split_and!; [by apply Hf|by apply Hf|by apply Hg|by apply Hg|by apply HF].
Qed.
End Schemes.

(** A compound assignment keeps its mask if nothing is undefined. *)
Lemma propagate_assign_alike {nb nb2} `{wf nb} `{wf nb2} (f : intbv nb → intbv nb2 → outcome (intbv nb)) (F : Z → Z → Z) (D : Z → Z → Prop)
    a a' b b' :
  (∀ u v x y, repr u x → repr v y → D x y → returns (f u v) (F x y)) → everywhere D a a' b b' →
  alike a a' → alike b b' →
  both alike (let! v := f (value a) (value b) in Ret (propagate_undefined junk (Bits v (_mask a)) b))
    (let! v := f (value a') (value b') in Ret (propagate_undefined junk (Bits v (_mask a')) b')).
Proof using Hj.
  intros Hf HD Ha Hb. unfold propagate_undefined, any_undefined. cbn [_mask].
  destruct (values_same f F D a a' b b') as (v & v' & z & z' & -> & -> & Hv & Hv' & He); [done..|]. cbn [obind].
  pose proof (alike_any a a' Ha) as Ea. pose proof (alike_any b b' Hb) as Eb. unfold any_undefined in Ea, Eb. rewrite <- Ea, <- Eb.
  destruct Ha as (x & x' & m & A1 & A2 & A3 & A4 & A).
  do 2 eexists. split_and!; [done|done|]. eapply propagate_alike; [exact Hv|exact Hv'|exact A3|exact A4|].
  intros E. apply He. by rewrite orb_comm.
Qed.
Lemma propagate_assign_proper {nb nb2} `{wf nb} `{wf nb2} (f : intbv nb → intbv nb2 → intbv nb) (F : Z → Z → Z) :
  (∀ u v x y, repr u x → repr v y → repr (f u v) (F x y)) →
  Proper (alike ==> alike ==> alike) (λ a b, propagate_undefined junk (Bits (f (value a) (value b)) (_mask a)) b).
Proof using Hj.
  intros Hf a a' Ha b b' Hb. apply both_ret.
  apply (propagate_assign_alike (λ u v, Ret (f u v)) F (λ _ _, True)); [|done..]. intros u v x y Hu Hv _. eexists. by eauto.
Qed.

(** ** Arithmetic *)

Section Arithmetic.
Context {nb nb2 : Z} {Hwf : wf nb} {Hwf2 : wf nb2}.

#[export] Instance plus_proper : Proper (alike ==> alike ==> alike) (plus junk (nb := nb)).
Proof using Hj Hwf. apply (propagate2_proper _ (λ x y, wrap nb (x + y))), plus_assign_spec; done. Qed.
#[export] Instance minus_proper : Proper (alike ==> alike ==> alike) (minus junk (nb := nb)).
Proof using Hj Hwf. apply (propagate2_proper _ (λ x y, wrap nb (x - y))), minus_assign_spec; done. Qed.
#[export] Instance times_proper : Proper (alike ==> alike ==> alike) (times junk (nb := nb)).
Proof using Hj Hwf. apply (propagate2_proper _ (λ x y, wrap nb (x * y))), times_assign_spec; done. Qed.
#[export] Instance plus_assign_proper : Proper (alike ==> alike ==> alike) (plus_assign junk (nb := nb)).
Proof using Hj Hwf. apply (propagate_assign_proper _ (λ x y, wrap nb (x + y))), plus_assign_spec; done. Qed.
#[export] Instance minus_assign_proper : Proper (alike ==> alike ==> alike) (minus_assign junk (nb := nb)).
Proof using Hj Hwf. apply (propagate_assign_proper _ (λ x y, wrap nb (x - y))), minus_assign_spec; done. Qed.
#[export] Instance times_assign_proper : Proper (alike ==> alike ==> alike) (times_assign junk (nb := nb)).
Proof using Hj Hwf. apply (propagate_assign_proper _ (λ x y, wrap nb (x * y))), times_assign_spec; done. Qed.
#[export] Instance signedMultiplyEqual_proper : Proper (alike ==> alike ==> alike) (signedMultiplyEqual junk (nb := nb)).
Proof using Hj Hwf. apply (propagate_assign_proper _ (λ x y, wrap nb (x * y))), signedMultiplyEqual_spec; done. Qed.

#[export] Instance plus_diff_proper : Proper (alike ==> alike ==> alike) (plus_diff junk (nb := nb) (nb2 := nb2)).
Proof using Hj Hwf Hwf2. eapply propagate2_proper. intros. by eapply (arith_diff_spec junk). Qed.
#[export] Instance minus_diff_proper : Proper (alike ==> alike ==> alike) (minus_diff junk (nb := nb) (nb2 := nb2)).
Proof using Hj Hwf Hwf2. eapply propagate2_proper. intros. by eapply (arith_diff_spec junk). Qed.
#[export] Instance times_diff_proper : Proper (alike ==> alike ==> alike) (times_diff junk (nb := nb) (nb2 := nb2)).
Proof using Hj Hwf Hwf2. eapply propagate2_proper. intros. by eapply (arith_diff_spec junk). Qed.
#[export] Instance signedMultiply_proper : Proper (alike ==> alike ==> both alike) (signedMultiply junk (nb := nb) (nb2 := nb2)).
Proof using Hj Hwf Hwf2.
  intros a a' Ha b b' Hb. eapply (propagate2_alike _ _ (λ _ _, True)); [|done..]. intros. by apply signedMultiply_spec.
Qed.
#[export] Instance Carry_proper : Proper (alike ==> alike ==> alike ==> alike) (Carry junk (nb := nb) (nb2 := nb2)).
Proof using Hj Hwf Hwf2.
  intros a a' Ha b b' Hb c c' Hc. unfold Carry, propagate_undefined3.
  rewrite <- (alike_any a a'), <- (alike_any b b'), <- (alike_any c c') by done.
  pose proof (alike_defined a a' Ha) as Da. pose proof (alike_defined b b' Hb) as Db. pose proof (alike_defined c c' Hc) as Dc.
  destruct Ha as (x & x' & m & A1 & A2 & _), Hb as (y & y' & k & B1 & B2 & _), Hc as (z & z' & j & C1 & C2 & _).
  destruct (Carry_spec junk _ _ _ _ _ _ A1 B1 C1) as (r & Hr & _), (Carry_spec junk _ _ _ _ _ _ A2 B2 C2) as (r' & Hr' & _).
  eapply propagate_alike; [exact Hr|exact Hr'|apply of_intbv_mask..|].
  intros [[Ea Eb]%orb_false_elim Ec]%orb_false_elim.
  destruct (Da Ea) as (s & S1 & S2 & _), (Db Eb) as (t & T1 & T2 & _), (Dc Ec) as (u & U1 & U2 & _).
  rewrite (repr_inj junk _ _ _ S1 S2), (repr_inj junk _ _ _ T1 T2), (repr_inj junk _ _ _ U1 U2) in Hr.
  exact (repr_fun junk _ _ _ Hr Hr').
Qed.
End Arithmetic.

(** ** Bitwise operators *)

Section Bitwise.
Context {nb nb2 : Z} {Hwf : wf nb} {Hwf2 : wf nb2}.

Lemma same_bitwise_proper f F : (∀ u v x y, repr u x → repr v y → repr (nb := nb) (f u v) (F x y)) →
  (∀ m k x x' y y', agree m x x' → agree k y y' → agree (Z.lor m k) (F x y) (F x' y')) →
  Proper (alike ==> alike ==> alike) (λ a b, Bits (f (value a) (value b)) (Intbv.or_assign junk (_mask a) (_mask b))).
Proof using Hj Hwf. intros Hf HF. apply (union_proper f _ F Hf); [intros; by apply or_assign_spec|done]. Qed.
Lemma diff_bitwise_proper f F : (∀ (u : intbv nb) (v : intbv nb2) x y, repr u x → repr v y → repr (f u v) (F x y)) →
  (∀ m k x x' y y', agree m x x' → agree k y y' → agree (Z.lor m k) (F x y) (F x' y')) →
  Proper (alike ==> alike ==> alike) (λ a b, Bits (f (value a) (value b)) (Intbv.or_diff junk (_mask a) (_mask b))).
Proof using Hj Hwf Hwf2. intros Hf HF. apply (union_proper f _ F Hf); [intros; by apply bitwise_diff_spec|done]. Qed.

#[export] Instance and_assign_proper : Proper (alike ==> alike ==> alike) (and_assign junk (nb := nb)).
Proof using Hj Hwf. eapply same_bitwise_proper; [by apply and_assign_spec|apply agree_land]. Qed.
#[export] Instance or_assign_proper : Proper (alike ==> alike ==> alike) (or_assign junk (nb := nb)).
Proof using Hj Hwf. eapply same_bitwise_proper; [by apply or_assign_spec|apply agree_union_lor]. Qed.
#[export] Instance xor_assign_proper : Proper (alike ==> alike ==> alike) (xor_assign junk (nb := nb)).
Proof using Hj Hwf. eapply same_bitwise_proper; [by apply xor_assign_spec|apply agree_lxor]. Qed.
#[export] Instance and_proper : Proper (alike ==> alike ==> alike) (and_ junk (nb := nb)).
Proof using Hj Hwf. eapply same_bitwise_proper; [by apply and_assign_spec|apply agree_land]. Qed.
#[export] Instance or_proper : Proper (alike ==> alike ==> alike) (or_ junk (nb := nb)).
Proof using Hj Hwf. eapply same_bitwise_proper; [by apply or_assign_spec|apply agree_union_lor]. Qed.
#[export] Instance xor_proper : Proper (alike ==> alike ==> alike) (xor_ junk (nb := nb)).
Proof using Hj Hwf. eapply same_bitwise_proper; [by apply xor_assign_spec|apply agree_lxor]. Qed.
#[export] Instance and_diff_proper : Proper (alike ==> alike ==> alike) (and_diff junk (nb := nb) (nb2 := nb2)).
Proof using Hj Hwf Hwf2. eapply diff_bitwise_proper; [intros; by apply bitwise_diff_spec|apply agree_land]. Qed.
#[export] Instance or_diff_proper : Proper (alike ==> alike ==> alike) (or_diff junk (nb := nb) (nb2 := nb2)).
Proof using Hj Hwf Hwf2. eapply diff_bitwise_proper; [intros; by apply bitwise_diff_spec|apply agree_union_lor]. Qed.
#[export] Instance xor_diff_proper : Proper (alike ==> alike ==> alike) (xor_diff junk (nb := nb) (nb2 := nb2)).
Proof using Hj Hwf Hwf2. eapply diff_bitwise_proper; [intros; by apply bitwise_diff_spec|apply agree_lxor]. Qed.
End Bitwise.

(** ** Shifts, fields, concatenation: the mask moves with the value *)

Section Moves.
Context {nb : Z} {Hwf : wf nb}.

Lemma agree_unot n m x x' : 0 ≤ n → uint n x → uint n x' → agree m x x' → agree m (2 ^ n - 1 - x) (2 ^ n - 1 - x').
Proof using Type.
  intros Hn Hx Hx' Ha i Hi Hm. rewrite <- !unot_val by done. unfold unot. rewrite !testbit_wrap, !Z.lnot_spec by done.
  by rewrite (Ha i Hi Hm).
Qed.
#[export] Instance invert_proper : Proper (alike ==> alike) (invert junk (nb := nb)).
Proof using Hj Hwf.
  intros a a' (x & x' & m & A1 & A2 & A3 & A4 & A). do 3 eexists. cbn [value _mask].
  split_and!; [by apply invert_spec|by apply invert_spec|exact A3|exact A4|].
  apply agree_unot; [unfold wf in Hwf; lia|by eapply repr_uint..|done].
Qed.
Lemma shift_left_proper p : 0 ≤ p → Proper (alike ==> alike) (λ a, shift_left_assign junk (nb := nb) a p).
Proof using Hj Hwf.
  intros Hp a a' Ha. apply both_ret.
  apply (pair1_proper (λ u, Ret (Intbv.shift_left_assign junk u p)) (λ x, wrap nb (x * 2 ^ p))); [| |done].
  - intros u x Hu. eexists. split; [done|]. by apply shift_left_assign_spec.
  - intros m x x' _ _ _ H. apply agree_wrap; [unfold wf in Hwf; lia|]. by apply agree_mul_pow2.
Qed.
Lemma shift_right_proper p : 0 ≤ p → Proper (alike ==> alike) (λ a, shift_right_assign junk (nb := nb) a p).
Proof using Hj Hwf.
  intros Hp a a' Ha. apply both_ret.
  apply (pair1_proper (λ u, Ret (Intbv.shift_right_assign junk u p)) (λ x, x / 2 ^ p)); [| |done].
  - intros u x Hu. eexists. split; [done|]. by apply shift_right_assign_spec.
  - intros m x x' _ _ _ H. by apply agree_div_pow2.
Qed.
(** The copies of the sign bit are undefined if the sign bit is. *)
Lemma signedRightShift_proper p : 0 ≤ p → Proper (alike ==> both alike) (λ a, signedRightShiftEqual junk (nb := nb) a p).
Proof using Hj Hwf.
  intros Hp. assert (0 < nb) by (unfold wf in Hwf; lia). apply (pair1_proper (λ u, Intbv.signedRightShiftEqual junk u p) (λ x, wrap nb (sint nb x / 2 ^ p)));
    [intros u x Hu; by apply signedRightShiftEqual_spec|].
  intros m x x' Hm Hx Hx' Ha. apply agree_wrap; [lia|]. apply agree_div_pow2; [done|]. by apply agree_sint.
Qed.
Lemma set_range_proper start stop : 0 ≤ start ≤ stop → stop < nb →
  Proper (alike ==> alike ==> both alike) (λ a b, set_range junk (nb := nb) a start stop b).
Proof using Hj Hwf.
  intros H1 H2. apply (pair2_proper (λ u v, Intbv.set_range junk u start stop v) (set_field nb start stop));
    [intros u v x y Hu Hv; by apply set_range_in|].
  intros m k x x' y y' _ _ _ _ _ _ Ha Hb. by apply agree_set_field.
Qed.
Lemma get_range_proper start stop : 0 ≤ start ≤ stop → stop < nb →
  Proper (alike ==> both alike) (λ a, get_range junk (nb := nb) a start stop).
Proof using Hj Hwf.
  intros H1 H2. apply (pair1_proper (λ u, Intbv.get_range junk u start stop) (get_field nb start stop)).
  - intros u x Hu. pose proof (get_range_spec junk u x start stop Hu) as H. rewrite !Z.mod_small in H by lia.
    destruct (Z.leb_spec start stop); [done|lia].
  - intros m x x' _ _ _ Ha. by apply agree_get_field.
Qed.
Context {nb2 : Z} {Hwf2 : wf nb2}.
Lemma set_range_diff_proper start stop : 0 ≤ start ≤ stop → stop < nb →
  Proper (alike ==> alike ==> both alike) (λ a b, set_range_diff junk (nb := nb) (nb2 := nb2) a start stop b).
Proof using Hj Hwf Hwf2.
  intros H1 H2. apply (pair2_proper (λ u v, Intbv.set_range_diff junk u start stop v) (λ x y, set_field nb start stop x (wrap nb y)));
    [intros u v x y Hu Hv; by apply set_range_diff_in|].
  intros m k x x' y y' _ _ _ _ _ _ Ha Hb. apply agree_set_field; [done..|]. apply agree_wrap; [unfold wf in Hwf; lia|done].
Qed.
Lemma get_range_as_proper start stop : 0 ≤ start ≤ stop → stop < nb →
  Proper (alike ==> both alike) (λ a, get_range_as junk nb2 (nb := nb) a start stop).
Proof using Hj Hwf Hwf2.
  intros H1 H2. apply (pair1_proper (λ u, Intbv.get_range_as junk nb2 u start stop) (λ x, wrap nb2 (get_field nb start stop x)));
    [intros u x Hu; by apply get_range_as_spec|].
  intros m x x' _ _ _ Ha. apply agree_wrap; [unfold wf in Hwf2; lia|]. by apply agree_get_field.
Qed.
#[export] Instance copy_proper : Proper (alike ==> alike) (copy junk (nb := nb2) (nb2 := nb)).
Proof using Hj Hwf Hwf2.
  intros a a' (x & x' & m & A1 & A2 & A3 & A4 & A). do 3 eexists. cbn [value _mask].
  split_and!; [by apply copy_spec..|]. apply agree_wrap; [unfold wf in Hwf2; lia|done].
Qed.
End Moves.

Lemma uint_concat k j x y : 0 ≤ k → 0 ≤ j → uint k y → uint j x → uint (k + j) (x * 2 ^ k + y).
Proof using Type. unfold uint. intros Hk Hj0 Hy Hx. rewrite Z.pow_add_r by done. nia. Qed.
Ltac track_fields := repeat first
  [ assumption | lia | eapply repr_uint; eassumption | apply agree_concat | apply uint_concat ].

Section Concat.
Context {n1 n2 n3 n4 n5 n6 : Z} {W1 : wf n1} {W2 : wf n2} {W3 : wf n3} {W4 : wf n4} {W5 : wf n5} {W6 : wf n6}.

Lemma concat2_proper `{wf (n1 + n2)} : Proper (alike ==> alike ==> both alike) (concat2 junk (nb1 := n1) (nb2 := n2)).
Proof using Hj W1 W2.
  apply (pair2_proper (Intbv.concat2 junk) (λ x y, x * 2 ^ n2 + y)); [intros; by apply concat2_spec|].
  unfold wf in *. intros m k x x' y y' ????????. track_fields.
Qed.
Lemma concat3_proper `{wf (n1 + n2 + n3)} :
  Proper (alike ==> alike ==> alike ==> both alike) (concat3 junk (nb1 := n1) (nb2 := n2) (nb3 := n3)).
Proof using Hj W1 W2 W3.
  intros a a' (? & ? & ? & A1 & A2 & A3 & A4 & A) b b' (? & ? & ? & B1 & B2 & B3 & B4 & B) c c' (? & ? & ? & C1 & C2 & C3 & C4 & C).
  eapply pair_alike; [by apply concat3_spec..|]. unfold wf in W1, W2, W3. track_fields.
Qed.
Lemma concat4_proper `{wf (n1 + n2 + n3 + n4)} :
  Proper (alike ==> alike ==> alike ==> alike ==> both alike) (concat4 junk (nb1 := n1) (nb2 := n2) (nb3 := n3) (nb4 := n4)).
Proof using Hj W1 W2 W3 W4.
  intros a a' (? & ? & ? & A1 & A2 & A3 & A4 & A) b b' (? & ? & ? & B1 & B2 & B3 & B4 & B) c c' (? & ? & ? & C1 & C2 & C3 & C4 & C)
    d d' (? & ? & ? & D1 & D2 & D3 & D4 & D).
  eapply pair_alike; [by apply concat4_spec..|]. unfold wf in W1, W2, W3, W4. track_fields.
Qed.
Lemma concat5_proper `{wf (n1 + n2 + n3 + n4 + n5)} :
  Proper (alike ==> alike ==> alike ==> alike ==> alike ==> both alike)
    (concat5 junk (nb1 := n1) (nb2 := n2) (nb3 := n3) (nb4 := n4) (nb5 := n5)).
Proof using Hj W1 W2 W3 W4 W5.
  intros a a' (? & ? & ? & A1 & A2 & A3 & A4 & A) b b' (? & ? & ? & B1 & B2 & B3 & B4 & B) c c' (? & ? & ? & C1 & C2 & C3 & C4 & C)
    d d' (? & ? & ? & D1 & D2 & D3 & D4 & D) e e' (? & ? & ? & E1 & E2 & E3 & E4 & E).
  eapply pair_alike; [by apply concat5_spec..|]. unfold wf in W1, W2, W3, W4, W5. track_fields.
Qed.
Lemma concat6_proper `{wf (n1 + n2 + n3 + n4 + n5 + n6)} :
  Proper (alike ==> alike ==> alike ==> alike ==> alike ==> alike ==> both alike)
    (concat6 junk (nb1 := n1) (nb2 := n2) (nb3 := n3) (nb4 := n4) (nb5 := n5) (nb6 := n6)).
Proof using Hj W1 W2 W3 W4 W5 W6.
  intros a a' (? & ? & ? & A1 & A2 & A3 & A4 & A) b b' (? & ? & ? & B1 & B2 & B3 & B4 & B) c c' (? & ? & ? & C1 & C2 & C3 & C4 & C)
    d d' (? & ? & ? & D1 & D2 & D3 & D4 & D) e e' (? & ? & ? & E1 & E2 & E3 & E4 & E) f f' (? & ? & ? & F1 & F2 & F3 & F4 & F).
  eapply pair_alike; [by apply concat6_spec..|]. unfold wf in W1, W2, W3, W4, W5, W6. track_fields.
Qed.
End Concat.
End Track.
