(* ===== verification/UndefBitsTheorems.v ===== *)
(** * What [bits<_Nb>] promises

    The results of the operations on vectors with undefined bits, value and mask,
    and the operations whose results do not depend on undefined bits. *)
From stdpp Require Import prelude strings.
From Stdlib Require Import ZArith Lia.
From S2P Require Import Prelude.
From S2P Require Import BitTwiddles.
From S2P Require Import WordArith.
From S2P Require Import IntbvBase.
From S2P Require Import IntbvLaws.
From S2P Require Import Intbv.
From S2P Require Import IntbvSpec.
From S2P Require Import IntbvCorrect.
From S2P Require Import IntbvTheorems.
From S2P Require Import UndefBits.
From S2P Require Import UndefBitsCorrect.
Import Bits.

Local Open Scope Z_scope.

#[local] Instance wf_8 : wf 8. Proof. unfold wf; lia. Qed.
#[local] Instance wf_16 : wf 16. Proof. unfold wf; lia. Qed.
#[local] Instance wf_48 : wf 48. Proof. unfold wf; lia. Qed.
#[local] Instance byte_aa : byte 0xaa. Proof. split; lia. Qed.

(** The numbers of a value and its mask. *)
Definition shows {nb} (a : bits nb) (x m : Z) : Prop := repr (value a) x ∧ repr (_mask a) m.
Definition gives {nb} (o : outcome (bits nb)) (x m : Z) : Prop := ∃ a, o = Ret a ∧ shows a x m.
(** Everything is undefined, or nothing is. *)
Definition all_or_none (nb : Z) (m k : Z) : Z := if (m =? 0) && (k =? 0) then 0 else 2 ^ nb - 1.

(** Vectors of eight bits, for examples. *)
Definition byte_bits (x m : Z) : bits 8 := Bits (nb := 8) x m.
Lemma byte_bits_shows x m : uint 8 x → uint 8 m → shows (byte_bits x m) x m.
Proof. intros Hx Hm. repeat split; first [apply (uint_mono 8); [lia|done]|apply Hx|apply Hm]. Qed.

Section Results.
Context (junk : Z) {Hj : byte junk}.

Lemma propagate_if_shows {nb} `{wf nb} b (r : bits nb) x m :
  shows r x m → shows (propagate_if junk b r) x (if b then 2 ^ nb - 1 else m).
Proof using Hj. intros [H1 H2]. destruct b; [|done]. split; [done|apply (set_all_spec junk)]. Qed.
Lemma propagate2_shows {n1 n2 n} `{wf n1} `{wf n2} `{wf n} (a : bits n1) (b : bits n2) (v : intbv n) x y z m k :
  shows a x m → shows b y k → repr v z →
  shows (propagate_undefined2 junk (of_intbv junk v) a b) z (all_or_none n m k).
Proof using Hj.
  intros [_ Hm] [_ Hk] Hv. unfold propagate_undefined2. rewrite (any_spec junk a m Hm), (any_spec junk b k Hk).
  replace (all_or_none n m k) with (if negb (m =? 0) || negb (k =? 0) then 2 ^ n - 1 else 0)
    by (unfold all_or_none; by destruct (m =? 0), (k =? 0)).
  apply propagate_if_shows. split; [done|]. by apply of_intbv_mask.
Qed.
Lemma propagate_shows {nb n2} `{wf nb} `{wf n2} (a : bits nb) (b : bits n2) (v : intbv nb) x y z m k :
  shows a x m → shows b y k → repr v z →
  shows (propagate_undefined junk (Bits v (_mask a)) b) z (all_or_none nb m k).
Proof using Hj.
  intros [_ Hm] [_ Hk] Hv. unfold propagate_undefined. rewrite (any_spec junk b k Hk).
  rewrite (any_spec junk (Bits v (_mask a)) m Hm).
  replace (all_or_none nb m k) with (if negb (k =? 0) || negb (m =? 0) then 2 ^ nb - 1 else m).
  - apply propagate_if_shows. by split.
  - unfold all_or_none. destruct (Z.eqb_spec m 0), (k =? 0); done.
Qed.
Lemma gives_bind {n1 n2 n} `{wf n1} `{wf n2} `{wf n} (a : bits n1) (b : bits n2) (o : outcome (intbv n)) x y z m k :
  shows a x m → shows b y k → returns o z →
  gives (let! v := o in Ret (propagate_undefined2 junk (of_intbv junk v) a b)) z (all_or_none n m k).
Proof using Hj. intros Ha Hb (v & -> & Hv). eexists. split; [done|]. by eapply propagate2_shows. Qed.
Lemma gives_assign {nb n2} `{wf nb} `{wf n2} (a : bits nb) (b : bits n2) (o : outcome (intbv nb)) x y z m k :
  shows a x m → shows b y k → returns o z →
  gives (let! v := o in Ret (propagate_undefined junk (Bits v (_mask a)) b)) z (all_or_none nb m k).
Proof using Hj. intros Ha Hb (v & -> & Hv). eexists. split; [done|]. by eapply propagate_shows. Qed.
End Results.

(** Sums, differences and products of vectors with undefined bits: the value is
    the one of the values modulo [2^nb], with the operators of two widths in the
    wider one, and the result is undefined throughout if an operand has an
    undefined bit and defined throughout otherwise. *)
Theorem bits_arithmetic junk `{byte junk} nb nb2 `{wf nb} `{wf nb2} (a b : bits nb) (c : bits nb2) x y z m k j :
  shows a x m → shows b y k → shows c z j →
  let u := all_or_none nb m k in let n := Z.max nb nb2 in let d := all_or_none n m j in
  shows (plus junk a b) (wrap nb (x + y)) u ∧ shows (plus_assign junk a b) (wrap nb (x + y)) u ∧
  shows (minus junk a b) (wrap nb (x - y)) u ∧ shows (minus_assign junk a b) (wrap nb (x - y)) u ∧
  shows (times junk a b) (wrap nb (x * y)) u ∧ shows (times_assign junk a b) (wrap nb (x * y)) u ∧
  shows (signedMultiplyEqual junk a b) (wrap nb (x * y)) u ∧
  shows (plus_diff junk a c) (wrap n (x + z)) d ∧ shows (minus_diff junk a c) (wrap n (x - z)) d ∧
  shows (times_diff junk a c) (wrap n (x * z)) d ∧
  gives (signedMultiply junk a c) (wrap n (sint nb x * sint nb2 z)) d.
Proof.
  intros Ha Hb Hc. destruct (arith_diff_spec junk _ _ _ _ (proj1 Ha) (proj1 Hc)) as (E1 & E2 & E3).
  pose proof (proj1 Ha) as Va. pose proof (proj1 Hb) as Vb. pose proof (proj1 Hc) as Vc.
  cbn zeta. split_and!.
  - by apply (propagate2_shows junk _ _ _ _ _ _ _ _ Ha Hb), plus_assign_spec.
  - by apply (propagate_shows junk _ _ _ _ _ _ _ _ Ha Hb), plus_assign_spec.
  - by apply (propagate2_shows junk _ _ _ _ _ _ _ _ Ha Hb), minus_assign_spec.
  - by apply (propagate_shows junk _ _ _ _ _ _ _ _ Ha Hb), minus_assign_spec.
  - by apply (propagate2_shows junk _ _ _ _ _ _ _ _ Ha Hb), times_assign_spec.
  - by apply (propagate_shows junk _ _ _ _ _ _ _ _ Ha Hb), times_assign_spec.
  - by apply (propagate_shows junk _ _ _ _ _ _ _ _ Ha Hb), signedMultiplyEqual_spec.
  - by apply (propagate2_shows junk _ _ _ _ _ _ _ _ Ha Hc).
  - by apply (propagate2_shows junk _ _ _ _ _ _ _ _ Ha Hc).
  - by apply (propagate2_shows junk _ _ _ _ _ _ _ _ Ha Hc).
  - by apply (gives_bind junk _ _ _ _ _ _ _ _ Ha Hc), signedMultiply_spec.
Qed.

Lemma bits_arithmetic_witness :
  let a := byte_bits 200 0 in let b := byte_bits 100 1 in
  shows (plus 0xaa a b) 44 255 ∧ shows (plus_assign 0xaa a a) 144 0.
Proof.
  split.
  - apply (bits_arithmetic 0xaa 8 8 (byte_bits 200 0) (byte_bits 100 1) (byte_bits 0 0) 200 100 0 0 1 0); apply byte_bits_shows; split; lia.
  - apply (bits_arithmetic 0xaa 8 8 (byte_bits 200 0) (byte_bits 200 0) (byte_bits 0 0) 200 200 0 0 0 0); apply byte_bits_shows; split; lia.
Defined.

(** Quotients and remainders, where the divider of [intbv] gives them: the
    quotient of the values, and undefined throughout if an operand has an undefined
    bit; a division by zero throws, whether the zero is defined or not. *)
Theorem bits_division junk `{byte junk} nb nb2 `{wf nb} `{wf nb2} (a b : bits nb) (c : bits nb2) x y z m k j :
  shows a x m → shows b y k → shows c z j →
  let u := all_or_none nb m k in let n := Z.max nb nb2 in let d := all_or_none n m j in
  (y ≠ 0 → div_dom (INTBV_WORDS nb) x y →
   gives (divide junk a b) (x / y) u ∧ gives (divide_assign junk a b) (x / y) u ∧
   gives (mod_ junk a b) (x mod y) u ∧ gives (mod_assign junk a b) (x mod y) u) ∧
  (z ≠ 0 → div_dom (INTBV_WORDS n) x z →
   gives (divide_diff junk a c) (x / z) d ∧ gives (divide_assign_diff junk a c) (x / z) (all_or_none nb m j) ∧
   gives (mod_diff junk a c) (x mod z) d ∧ gives (mod_assign_diff junk a c) (x mod z) (all_or_none nb m j)) ∧
  (z ≠ 0 → div_dom (INTBV_WORDS n) (Z.abs (sint nb x)) (Z.abs (sint nb2 z)) →
   sint nb x ≠ - 2 ^ (WORD_ALIGNED n - 1) ∨ sint nb2 z ≠ -1 →
   gives (signedDivide junk a c) (wrap n (Z.quot (sint nb x) (sint nb2 z))) d) ∧
  (y = 0 → x ≠ 0 → ∃ e, divide junk a b = Throw e ∧ divide_assign junk a b = Throw e).
Proof.
  intros Ha Hb Hc. pose proof (proj1 Ha) as Va. pose proof (proj1 Hb) as Vb. pose proof (proj1 Hc) as Vc.
  cbn zeta. split; [|split; [|split]].
  - intros Hy Hd. split_and!.
    + by apply (gives_bind junk _ _ _ _ _ _ _ _ Ha Hb), divide_assign_spec.
    + by apply (gives_assign junk _ _ _ _ _ _ _ _ Ha Hb), divide_assign_spec.
    + by apply (gives_bind junk _ _ _ _ _ _ _ _ Ha Hb), mod_assign_spec.
    + by apply (gives_assign junk _ _ _ _ _ _ _ _ Ha Hb), mod_assign_spec.
  - intros Hz Hd. split_and!.
    + by apply (gives_bind junk _ _ _ _ _ _ _ _ Ha Hc), divide_diff_spec.
    + by apply (gives_assign junk _ _ _ _ _ _ _ _ Ha Hc), divide_assign_diff_spec.
    + by apply (gives_bind junk _ _ _ _ _ _ _ _ Ha Hc), divide_diff_spec.
    + by apply (gives_assign junk _ _ _ _ _ _ _ _ Ha Hc), divide_assign_diff_spec.
  - intros Hz Hd Ho. by apply (gives_bind junk _ _ _ _ _ _ _ _ Ha Hc), signedDivide_spec.
  - intros -> Hx. destruct (divide_assign_zero junk _ _ x Va Vb (or_introl Hx)) as (e & He & _). exists e.
    unfold divide, divide_assign. by rewrite He.
Qed.

Lemma bits_division_witness :
  gives (divide 0xaa (byte_bits 200 0) (byte_bits 7 1)) (200 / 7) 255 ∧
  ∃ e, divide 0xaa (byte_bits 200 0) (byte_bits 0 255) = Throw e.
Proof.
  split.
  - apply (bits_division 0xaa 8 8 (byte_bits 200 0) (byte_bits 7 1) (byte_bits 0 0) 200 7 0 0 1 0); try (apply byte_bits_shows; split; lia); [lia|].
    left. vm_compute. lia.
  - destruct (bits_division 0xaa 8 8 (byte_bits 200 0) (byte_bits 0 255) (byte_bits 0 0) 200 0 0 0 255 0) as (_ & _ & _ & He);
      try (apply byte_bits_shows; split; lia).
    destruct He as (e & He & _); [lia|lia|]. by exists e.
Defined.

(** ** Undefined bits do not reach defined ones *)

(** C34: sums, differences, products, signed products and carries of two vectors, of one
    width or of two, and the compound assignments of one width, track undefined bits:
    operands that are alike, with the same mask and values that differ in undefined bits
    only, give results that are alike, so no bit of a result that is marked as defined
    depends on an undefined bit of an operand.  Quotients and remainders of vectors of one
    width track them too, where all the values of the operands have a divisor that is not
    zero and a division that stays in the divider's buffers.  Negation and the operators with
    an integer are not among these. *)
Theorem bits_arithmetic_tracked junk `{byte junk} nb nb2 `{wf nb} `{wf nb2} (a a' b b' : bits nb) (c c' : bits nb2) (cin cin' : bits 1) :
  alike a a' → alike b b' → alike c c' → alike cin cin' →
  alike (plus junk a b) (plus junk a' b') ∧ alike (minus junk a b) (minus junk a' b') ∧
  alike (times junk a b) (times junk a' b') ∧ alike (plus_assign junk a b) (plus_assign junk a' b') ∧
  alike (minus_assign junk a b) (minus_assign junk a' b') ∧ alike (times_assign junk a b) (times_assign junk a' b') ∧
  alike (signedMultiplyEqual junk a b) (signedMultiplyEqual junk a' b') ∧
  alike (plus_diff junk a c) (plus_diff junk a' c') ∧ alike (minus_diff junk a c) (minus_diff junk a' c') ∧
  alike (times_diff junk a c) (times_diff junk a' c') ∧ both alike (signedMultiply junk a c) (signedMultiply junk a' c') ∧
  alike (Carry junk a c cin) (Carry junk a' c' cin') ∧
  (everywhere (λ x y, y ≠ 0 ∧ div_dom (INTBV_WORDS nb) x y) a a' b b' →
   both alike (divide junk a b) (divide junk a' b') ∧ both alike (mod_ junk a b) (mod_ junk a' b') ∧
   both alike (divide_assign junk a b) (divide_assign junk a' b') ∧ both alike (mod_assign junk a b) (mod_assign junk a' b')).
Proof.
  intros Ha Hb Hc Hi. split_and!; [by f_equiv..|intros HD; split_and!].
  - apply (propagate2_alike junk (Intbv.divide_assign junk) Z.div _ _ _ _ _) in HD; [done| |done..].
    intros u v x y Hu Hv [Hy Hd]. by apply divide_assign_spec.
  - apply (propagate2_alike junk (Intbv.mod_assign junk) Z.modulo _ _ _ _ _) in HD; [done| |done..].
    intros u v x y Hu Hv [Hy Hd]. by apply mod_assign_spec.
  - apply (propagate_assign_alike junk (Intbv.divide_assign junk) Z.div _ _ _ _ _) in HD; [done| |done..].
    intros u v x y Hu Hv [Hy Hd]. by apply divide_assign_spec.
  - apply (propagate_assign_alike junk (Intbv.mod_assign junk) Z.modulo _ _ _ _ _) in HD; [done| |done..].
    intros u v x y Hu Hv [Hy Hd]. by apply mod_assign_spec.
Qed.

Lemma alike_byte_bits x x' m : uint 8 x → uint 8 x' → uint 8 m → agree m x x' → alike (byte_bits x m) (byte_bits x' m).
Proof.
  intros Hx Hx' Hm H. destruct (byte_bits_shows x m Hx Hm) as [H1 H2], (byte_bits_shows x' m Hx' Hm) as [H3 H4].
  by exists x, x', m.
Qed.
(** An undefined lowest bit. *)
Lemma agree_low x x' : x / 2 = x' / 2 → agree 1 x x'.
Proof.
  intros H i Hi. destruct (Z.eq_dec i 0) as [-> |]; [done|]. intros _.
  replace i with (i - 1 + 1) by lia. change (x / 2) with (x / 2 ^ 1) in H. change (x' / 2) with (x' / 2 ^ 1) in H.
  rewrite <- !Z.div_pow2_bits by lia. by rewrite H.
Qed.
Lemma bits_arithmetic_tracked_witness :
  alike (plus 0xaa (byte_bits 6 1) (byte_bits 10 0)) (plus 0xaa (byte_bits 7 1) (byte_bits 10 0)).
Proof.
  apply (bits_arithmetic_tracked 0xaa 8 8 (byte_bits 6 1) (byte_bits 7 1) (byte_bits 10 0) (byte_bits 10 0) (byte_bits 0 0) (byte_bits 0 0)
    (Bits (nb := 1) 0 0) (Bits (nb := 1) 0 0)).
  - apply alike_byte_bits; [split; lia..|]. by apply agree_low.
  - apply alike_byte_bits; [split; lia..|]. done.
  - apply alike_byte_bits; [split; lia..|]. done.
  - exists 0, 0, 0. split_and!; first [repr_now|done].
Defined.

(** The bitwise operators mark a bit as undefined where an operand's bit is;
    complements, shifts by an integer (the arithmetic shift copies an undefined
    sign), fields that are read or stored, copies to another width and
    concatenations move the marks with the bits: all of them track undefined bits. *)
Theorem bits_moves_tracked junk `{byte junk} nb nb2 `{wf nb} `{wf nb2} `{wf (nb + nb2)} (a a' b b' : bits nb) (c c' : bits nb2) start stop p :
  alike a a' → alike b b' → alike c c' → 0 ≤ start ≤ stop → stop < nb → 0 ≤ p →
  alike (and_ junk a b) (and_ junk a' b') ∧ alike (or_ junk a b) (or_ junk a' b') ∧ alike (xor_ junk a b) (xor_ junk a' b') ∧
  alike (and_assign junk a b) (and_assign junk a' b') ∧ alike (or_assign junk a b) (or_assign junk a' b') ∧
  alike (xor_assign junk a b) (xor_assign junk a' b') ∧ alike (and_diff junk a c) (and_diff junk a' c') ∧
  alike (or_diff junk a c) (or_diff junk a' c') ∧ alike (xor_diff junk a c) (xor_diff junk a' c') ∧
  alike (invert junk a) (invert junk a') ∧ alike (shift_left_assign junk a p) (shift_left_assign junk a' p) ∧
  alike (shift_right_assign junk a p) (shift_right_assign junk a' p) ∧
  both alike (signedRightShiftEqual junk a p) (signedRightShiftEqual junk a' p) ∧
  both alike (set_range junk a start stop b) (set_range junk a' start stop b') ∧
  both alike (set_range_diff junk a start stop c) (set_range_diff junk a' start stop c') ∧
  both alike (get_range junk a start stop) (get_range junk a' start stop) ∧
  both alike (get_range_as junk nb2 a start stop) (get_range_as junk nb2 a' start stop) ∧
  alike (copy junk (nb := nb2) a) (copy junk (nb := nb2) a') ∧ both alike (concat2 junk a c) (concat2 junk a' c').
Proof.
  intros Ha Hb Hc H3 H4 Hp. split_and!; try by f_equiv.
  - by apply shift_left_proper.
  - by apply shift_right_proper.
  - by apply signedRightShift_proper.
  - by apply set_range_proper.
  - by apply set_range_diff_proper.
  - by apply get_range_proper.
  - by apply get_range_as_proper.
  - by apply concat2_proper.
Qed.
#[local] Instance wf_8_8 : wf (8 + 8). Proof. unfold wf; lia. Qed.
Lemma bits_moves_tracked_witness :
  both alike (concat2 0xaa (byte_bits 6 1) (byte_bits 10 0)) (concat2 0xaa (byte_bits 7 1) (byte_bits 10 0)).
Proof.
  apply (bits_moves_tracked 0xaa 8 8 (byte_bits 6 1) (byte_bits 7 1) (byte_bits 10 0) (byte_bits 10 0) (byte_bits 10 0) (byte_bits 10 0) 0 3 1).
  - apply alike_byte_bits; [split; lia..|]. by apply agree_low.
  - apply alike_byte_bits; [split; lia..|]. done.
  - apply alike_byte_bits; [split; lia..|]. done.
  - lia.
  - lia.
  - lia.
Defined.

(** The longer concatenations, in which each part keeps its marks. *)
Theorem bits_concat_tracked junk `{byte junk} n1 n2 n3 n4 n5 n6 `{wf n1} `{wf n2} `{wf n3} `{wf n4} `{wf n5} `{wf n6}
    `{wf (n1 + n2 + n3)} `{wf (n1 + n2 + n3 + n4)} `{wf (n1 + n2 + n3 + n4 + n5)} `{wf (n1 + n2 + n3 + n4 + n5 + n6)}
    (a a' : bits n1) (b b' : bits n2) (c c' : bits n3) (d d' : bits n4) (e e' : bits n5) (f f' : bits n6) :
  alike a a' → alike b b' → alike c c' → alike d d' → alike e e' → alike f f' →
  both alike (concat3 junk a b c) (concat3 junk a' b' c') ∧
  both alike (concat4 junk a b c d) (concat4 junk a' b' c' d') ∧
  both alike (concat5 junk a b c d e) (concat5 junk a' b' c' d' e') ∧
  both alike (concat6 junk a b c d e f) (concat6 junk a' b' c' d' e' f').
Proof.
  intros. split_and!; [by apply concat3_proper|by apply concat4_proper|by apply concat5_proper|by apply concat6_proper].
Qed.

(** ** Where undefined bits are lost *)

Lemma alike_bits {nb} (a a' : bits nb) x x' m : wf nb → shows a x m → repr (value a') x' → alike a a' → Z.ldiff (Z.lxor x x') m = 0.
Proof.
  intros Hw [Hx Hm] Hx' (y & y' & k & A1 & A2 & A3 & A4 & A).
  rewrite (repr_fun 0xaa _ _ _ Hx A1), (repr_fun 0xaa _ _ _ Hx' A2), (repr_fun 0xaa _ _ _ Hm A3).
  apply Z.bits_inj'. intros i Hi. rewrite Z.bits_0, Z.ldiff_spec, Z.lxor_spec.
  destruct (Z.testbit k i) eqn:E; [apply andb_false_r|]. rewrite (A i Hi E). by rewrite xorb_nilpotent.
Qed.
Lemma not_alike_byte_bits x m x' m' : uint 8 x → uint 8 m → uint 8 x' → uint 8 m' →
  Z.ldiff (Z.lxor x x') m ≠ 0 → ¬ alike (byte_bits x m) (byte_bits x' m').
Proof.
  intros H1 H2 H3 H4 Hne H. apply Hne. eapply alike_bits; [apply wf_8|by apply byte_bits_shows|by apply (byte_bits_shows x' m')|done].
Qed.
Lemma agree_top : agree 128 0 128.
Proof. intros i Hi. change 128 with (2 ^ 7). rewrite Z.pow2_bits_eqb by lia. intros ->. by rewrite Z.testbit_0_l. Qed.
Ltac lost := match goal with |- ¬ alike ?a ?b =>
  let a' := eval vm_compute in (value a) in let m := eval vm_compute in (_mask a) in
  let b' := eval vm_compute in (value b) in let k := eval vm_compute in (_mask b) in
  change (¬ alike (byte_bits a' m) (byte_bits b' k)) end;
  apply not_alike_byte_bits; first [split; lia|discriminate].

(** A result that is defined throughout tracks its operands only if it is the same. *)
Lemma alike_same {nb} `{wf nb} (r r' : bits nb) z z' : shows r z 0 → repr (value r') z' → alike r r' → z = z'.
Proof.
  intros [Hz Hm] Hz' (y & y' & k & A1 & A2 & A3 & _ & A). rewrite <- (repr_fun 0xaa _ _ _ Hm A3) in A.
  rewrite (repr_fun 0xaa _ _ _ Hz A1), (repr_fun 0xaa _ _ _ Hz' A2). by apply agree_0.
Qed.
Lemma rotl_inj nb p q x x' : 0 ≤ p < nb → uint nb x → uint nb x' → (p + q) mod nb = 0 → 0 ≤ q < nb → rotl nb x p = rotl nb x' p → x = x'.
Proof. intros Hp Hx Hx' Hpq Hq E. by rewrite <- (rotl_rotl nb x p q), E, rotl_rotl. Qed.
Lemma of_intbv_shows junk `{byte junk} nb `{wf nb} (v : intbv nb) z : repr v z → shows (of_intbv junk v) z 0.
Proof. intros Hv. split; [exact Hv|apply (of_intbv_mask junk)]. Qed.
(** The copies of a sign are marked as defined. *)
Lemma signExtend_to_shows junk `{byte junk} nb nb2 `{wf nb} `{wf nb2} (a : bits nb) x m : nb ≤ nb2 → shows a x m →
  gives (signExtend_to junk nb2 a) (wrap nb2 (sint nb x)) m.
Proof.
  intros Hle [Hx Hm]. destruct (signExtend_to_spec junk nb2 _ _ Hx) as (v & E & Hv). unfold signExtend_to. rewrite E. cbn [obind].
  eexists. split; [done|]. split; [exact Hv|]. pose proof (repr_uint _ _ Hm) as Hu. pose proof (nb_le_W (nb := nb2)) as HW.
  pose proof (assign_spec junk (Intbv.reset junk v) (_mask a) m Hm) as Ha.
  assert (0 < nb) as Hn by (unfold wf in *; lia). apply (repr_intro junk); [|apply (uint_mono nb); [lia|done]].
  rewrite wrap_small in Ha by (apply (uint_mono nb); [lia|done]). by destruct (nb <? nb2).
Qed.

(** C35: these operations do not track undefined bits.  A negation, and [+=] and [-=] with an
    integer, give the right value and leave the mask of the vector as it is, whatever bits
    the carry reaches.  A rotation, and a swap of whole bytes, gives the right value and a
    result that is defined throughout, so that two vectors that are alike and differ are
    not alike once rotated.  A shift by a vector moves value and mask by the vector's
    number, whatever is undefined in that.  A vector that is extended with its sign keeps its
    mask: the copies of an undefined sign are marked as defined. *)
Theorem bits_lose_undefined junk `{byte junk} nb nb2 nb3 `{wf nb} `{wf nb2} `{wf nb3} (a a' : bits nb) (b : bits nb2) x m y k s p :
  shows a x m → alike a a' → shows b y k → scalar_ok s → nb ≤ nb3 →
  shows (negate junk a) (wrap nb (- x)) m ∧
  gives (plus_assign_scalar junk a s) (wrap nb (x + scalar_num s)) m ∧ gives (minus_assign_scalar junk a s) (wrap nb (x - scalar_num s)) m ∧
  shows (left_rotate junk a p) (rotl nb x (p mod nb)) 0 ∧ shows (right_rotate junk a p) (rotl nb x ((nb - p mod nb) mod nb)) 0 ∧
  (value a ≠ value a' → ¬ alike (left_rotate junk a p) (left_rotate junk a' p) ∧ ¬ alike (right_rotate junk a p) (right_rotate junk a' p)) ∧
  (nb mod 8 = 0 → shows (swap_bytes junk a) (beval 8 (rdigits 8 (Z.to_nat (nb / 8)) x)) 0) ∧
  shows (shift_left_bv junk a b) (wrap nb (x * 2 ^ wrap 32 y)) (wrap nb (m * 2 ^ wrap 32 y)) ∧
  shows (shift_right_bv junk a b) (x / 2 ^ wrap 32 y) (m / 2 ^ wrap 32 y) ∧
  gives (signExtend_to junk nb3 a) (wrap nb3 (sint nb x)) m.
Proof.
  intros Ha Hal Hb Hs Hle. pose proof Ha as [Hx Hm]. destruct (assign_scalar_spec junk _ _ s Hx Hs) as ((r1 & E1 & R1) & (r2 & E2 & R2) & _).
  pose proof (field_index (nb := nb) p) as Hp. pose proof (uint_wrap 32 y ltac:(lia)) as Hy. unfold uint in Hy.
  assert (∀ (v : intbv nb) z, repr v z → shows (left_rotate junk (Bits v (_mask a)) p) (rotl nb z (p mod nb)) 0) as Hl
    by (intros v z Hv; by apply of_intbv_shows, left_rotate_spec).
  assert (∀ (v : intbv nb) z, repr v z → shows (right_rotate junk (Bits v (_mask a)) p) (rotl nb z ((nb - p mod nb) mod nb)) 0) as Hr
    by (intros v z Hv; by apply of_intbv_shows, right_rotate_spec).
  split_and!.
  - by split; [apply negate_spec|].
  - unfold gives, plus_assign_scalar, with_value. rewrite E1. eexists. by split.
  - unfold gives, minus_assign_scalar, with_value. rewrite E2. eexists. by split.
  - by apply (Hl (value a)).
  - by apply (Hr (value a)).
  - destruct Hal as (z & z' & j & _ & A2 & _). intros Hne.
    assert (x ≠ z') as Hn by (intros ->; apply Hne; by apply (repr_inj junk _ _ z')).
    pose proof (repr_uint _ _ Hx). pose proof (repr_uint _ _ A2).
    assert (0 ≤ (nb - p mod nb) mod nb < nb) by (apply Z.mod_pos_bound; lia).
    assert ((p mod nb + (nb - p mod nb) mod nb) mod nb = 0) as Hsum
      by (rewrite Zplus_mod_idemp_r; replace (p mod nb + (nb - p mod nb)) with nb by lia; apply Z.mod_same; lia).
    split; intros E; apply Hn.
    + apply (rotl_inj nb (p mod nb) ((nb - p mod nb) mod nb)); try done. by apply (alike_same _ _ _ _ (Hl (value a) x Hx) (proj1 (Hl (value a') z' A2))).
    + apply (rotl_inj nb ((nb - p mod nb) mod nb) (p mod nb)); try done; [by rewrite Z.add_comm|].
      by apply (alike_same _ _ _ _ (Hr (value a) x Hx) (proj1 (Hr (value a') z' A2))).
  - intros H8. apply of_intbv_shows; [done..|]. pose proof (swap_bytes_spec junk _ _ Hx) as Hw. by rewrite reverse_bytes_fit in Hw.
  - unfold shift_left_bv. rewrite (uint32_spec junk _ _ (proj1 Hb)). split; apply shift_left_assign_spec; done || lia.
  - unfold shift_right_bv. rewrite (uint32_spec junk _ _ (proj1 Hb)). split; apply shift_right_assign_spec; done || lia.
  - by apply signExtend_to_shows.
Qed.
Lemma bits_lose_undefined_witness :
  shows (negate 0xaa (byte_bits 6 1)) 250 1 ∧ ¬ alike (left_rotate 0xaa (byte_bits 6 1) 3) (left_rotate 0xaa (byte_bits 7 1) 3) ∧
  gives (signExtend_to 0xaa 16 (byte_bits 6 1)) 6 1.
Proof.
  destruct (bits_lose_undefined 0xaa 8 8 16 (byte_bits 6 1) (byte_bits 7 1) (byte_bits 3 0) 6 1 3 0 (U32 1) 3) as (H1 & _ & _ & _ & _ & H2 & _ & _ & _ & H3).
  - apply byte_bits_shows; split; lia.
  - apply alike_byte_bits; [split; lia..|]. by apply agree_low.
  - apply byte_bits_shows; split; lia.
  - split; lia.
  - lia.
  - split; [exact H1|]. split; [apply H2; discriminate|exact H3].
Defined.

(** The lowest bit of a byte is all that is undefined: these give results in which a bit
    that is marked as defined depends on it. *)
Example undefined_bit_lost :
  let a := byte_bits 0 1 in let a' := byte_bits 1 1 in let one := byte_bits 1 0 in
  alike a a' ∧
  ¬ alike (negate 0xaa a) (negate 0xaa a') ∧
  (∃ r r', minus_assign_scalar 0xaa a (U32 1) = Ret r ∧ minus_assign_scalar 0xaa a' (U32 1) = Ret r' ∧ ¬ alike r r') ∧
  (∃ r r', plus_assign_scalar 0xaa a (U32 1) = Ret r ∧ plus_assign_scalar 0xaa a' (U32 1) = Ret r' ∧ ¬ alike r r') ∧
  ¬ alike (left_rotate 0xaa a 1) (left_rotate 0xaa a' 1) ∧ isUndefined 0xaa (left_rotate 0xaa a 1) = false ∧
  ¬ alike (right_rotate 0xaa a 1) (right_rotate 0xaa a' 1) ∧ isUndefined 0xaa (right_rotate 0xaa a 1) = false ∧
  ¬ alike (swap_bytes 0xaa a) (swap_bytes 0xaa a') ∧ isUndefined 0xaa (swap_bytes 0xaa a) = false ∧
  ¬ alike (shift_left_bv 0xaa one a) (shift_left_bv 0xaa one a') ∧
  (∃ r e, divide 0xaa one a' = Ret r ∧ divide 0xaa one a = Throw e) ∧
  alike (byte_bits 0 128) (byte_bits 128 128) ∧
  (∃ r r', signExtend_to 0xaa 16 (byte_bits 0 128) = Ret r ∧ signExtend_to 0xaa 16 (byte_bits 128 128) = Ret r' ∧ ¬ alike r r').
Proof.
  cbv zeta. split; [apply alike_byte_bits; [split; lia..|by apply agree_low]|].
  split_and!; [lost| | |lost|reflexivity|lost|reflexivity|lost|reflexivity|lost| | |].
  - do 2 eexists. split_and!; [reflexivity..|]. lost.
  - do 2 eexists. split_and!; [reflexivity..|]. lost.
  - do 2 eexists. split; reflexivity.
  - apply alike_byte_bits; [split; lia..|]. by apply agree_top.
  - exists (Bits (nb := 16) 0 128), (Bits (nb := 16) 65408 128). split_and!; [reflexivity..|]. intros H.
    eapply (alike_bits (nb := 16) _ _ 0 65408 128) in H; [discriminate|apply wf_16|split; repr_now|repr_now].
Qed.

(** ** Marks *)

Lemma testbit_nonzero n m : uint n m → (m ≠ 0 ↔ ∃ i, 0 ≤ i < n ∧ Z.testbit m i = true).
Proof.
  intros Hm. split.
  - intros Hne. exists (Z.log2 m). unfold uint in Hm. split; [|apply Z.bit_log2; lia].
    split; [apply Z.log2_nonneg|]. apply Z.log2_lt_pow2; lia.
  - intros (i & Hi & Ht) ->. by rewrite Z.bits_0 in Ht.
Qed.

(** [setUndefined] marks exactly the bit it names, or the bits of the range, which
    may wrap around; it changes no value.  [isUndefined] holds exactly if a bit is
    marked, in the vector or in the range. *)
Theorem bits_positions junk `{byte junk} nb `{wf nb} (a : bits nb) x m pos start stop :
  shows a x m → 0 ≤ pos < nb → 0 ≤ start < nb → 0 ≤ stop < nb →
  (∃ r k, setUndefined junk a pos = Ret r ∧ shows r x k ∧
     ∀ i, 0 ≤ i < nb → Z.testbit k (nb - 1 - i) = (i =? pos) || Z.testbit m (nb - 1 - i)) ∧
  (∃ r k, setUndefined_range junk a start stop = Ret r ∧ shows r x k ∧
     ∀ i, 0 ≤ i < nb → Z.testbit k (nb - 1 - i) = in_mask start stop i || Z.testbit m (nb - 1 - i)) ∧
  (isUndefined junk a = true ↔ ∃ i, 0 ≤ i < nb ∧ Z.testbit m i = true) ∧
  (start ≤ stop → ∃ b, isUndefined_range junk a start stop = Ret b ∧
     (b = true ↔ ∃ i, start ≤ i ≤ stop ∧ Z.testbit m (nb - 1 - i) = true)).
Proof.
  intros [Hx Hm] Hp H1 H2. assert (0 < nb) as Hn by lia. pose proof (repr_uint _ _ Hm) as Hu. split_and!.
  - unfold setUndefined, Intbv.set_bit. destruct (Z.ltb_spec pos nb); [|lia]. do 2 eexists.
    split_and!; [done|split; [done|by apply (Unchecked_set_spec junk)]|]. cbn. intros i Hi. rewrite Z.setbit_eqb by lia.
    f_equal. destruct (Z.eqb_spec (nb - 1 - pos) (nb - 1 - i)), (Z.eqb_spec i pos); lia || done.
  - destruct (mask_with junk nb (_mask a) _ m (2 ^ nb - 1) start stop true Hm
        (set_all_spec junk (_reset (BaseOps := intbv_ops junk nb)))) as (r & z & Er & Hr & Hz); [|done..|].
    { intros i Hi. rewrite ones_pred, testbit_ones by lia. by split_cmps. }
    unfold setUndefined_range. unfold Intbv.mask. rewrite Er. cbn [obind]. do 2 eexists. split_and!; [done|by split|].
    intros i Hi. rewrite Hz by done. by destruct (in_mask start stop i).
  - unfold isUndefined. destruct (count_spec junk _ _ Hm) as (_ & _ & -> & _). rewrite <- (testbit_nonzero nb m Hu).
    by rewrite negb_true_iff, Z.eqb_neq.
  - intros Hle. pose proof (get_range_spec junk _ _ start stop Hm) as Hg. rewrite !Z.mod_small in Hg by lia.
    destruct (Z.leb_spec start stop); [|lia]. destruct Hg as (r & Er & Hr). unfold isUndefined_range. rewrite Er. cbn [obind].
    eexists. split; [done|]. destruct (count_spec junk _ _ Hr) as (_ & _ & -> & _).
    rewrite negb_true_iff, Z.eqb_neq, (testbit_nonzero (stop - start + 1)) by (apply uint_wrap; lia).
    unfold get_field. split.
    + intros (i & Hi & Ht). exists (stop - i). split; [lia|]. rewrite testbit_wrap, testbit_div in Ht by lia.
      replace (nb - 1 - (stop - i)) with (i + (nb - 1 - stop)) by lia.
      destruct (i <? _); [|done]. by destruct (0 <=? i).
    + intros (i & Hi & Ht). exists (stop - i). split; [lia|]. rewrite testbit_wrap, testbit_div by lia.
      destruct (Z.ltb_spec (stop - i) (stop - start + 1)), (Z.leb_spec 0 (stop - i)); try lia. cbn.
      replace (stop - i + (nb - 1 - stop)) with (nb - 1 - i) by lia. done.
Qed.
Lemma bits_positions_witness : ∃ b, isUndefined_range 0xaa (byte_bits 5 16) 2 4 = Ret b ∧
  (b = true ↔ ∃ i, 2 ≤ i ≤ 4 ∧ Z.testbit 16 (8 - 1 - i) = true).
Proof.
  apply (bits_positions 0xaa 8 (byte_bits 5 16) 5 16 0 2 4); [apply byte_bits_shows; split; lia|lia..].
Defined.

(** An integer operand is extended in two ways when the vector is wider: the
    compound operators, like those of [intbv], add the number, extended with its sign,
    and leave the mask as it is; the binary ones make a vector of the integer's own
    width of it first, which is then extended with zeros: a negative [int32_t] adds
    [2^32] more. *)
Theorem bits_integer_operands junk `{byte junk} nb `{wf nb} (a : bits nb) x m s :
  shows a x m → scalar_ok s →
  let v := scalar_num s in let n := Z.max nb (scalar_width s) in let u := all_or_none n m 0 in let w := wrap (scalar_width s) v in
  gives (plus_assign_scalar junk a s) (wrap nb (x + v)) m ∧ gives (minus_assign_scalar junk a s) (wrap nb (x - v)) m ∧
  returns (Intbv.plus_scalar junk (value a) s) (wrap n (x + v)) ∧
  gives (plus_scalar junk a s) (wrap n (x + w)) u ∧ gives (minus_scalar junk a s) (wrap n (x - w)) u ∧
  gives (times_scalar junk a s) (wrap n (x * w)) u.
Proof.
  intros Ha Hs. destruct (assign_scalar_spec junk _ _ s (proj1 Ha) Hs) as ((r1 & E1 & R1) & (r2 & E2 & R2) & _).
  destruct (scalar_arith_spec junk _ _ s (proj1 Ha) Hs) as (E3 & _).
  destruct (of_scalar_spec junk (scalar_width s) s Hs) as (y & E & Hy).
  assert (shows (of_intbv junk y) (wrap (scalar_width s) (scalar_num s)) 0) as Hb by (split; [exact Hy|apply (of_intbv_mask junk)]).
  destruct (arith_diff_spec junk _ _ _ _ (proj1 Ha) Hy) as (D1 & D2 & D3). cbn zeta.
  split_and!; [| |done|..];
    unfold gives, plus_assign_scalar, minus_assign_scalar, plus_scalar, minus_scalar, times_scalar, with_scalar, with_value, of_scalar;
    rewrite ?E1, ?E2, ?E; cbn [obind]; (eexists; split; [done|]).
  - by split; [|apply Ha].
  - by split; [|apply Ha].
  - by apply (propagate2_shows junk _ _ _ _ _ _ _ _ Ha Hb).
  - by apply (propagate2_shows junk _ _ _ _ _ _ _ _ Ha Hb).
  - by apply (propagate2_shows junk _ _ _ _ _ _ _ _ Ha Hb).
Qed.
Lemma bits_integer_operands_witness : let a := Bits (nb := 48) 5 0 in
  gives (plus_assign_scalar 0xaa a (I32 (-1))) 4 0 ∧ gives (plus_scalar 0xaa a (I32 (-1))) (2 ^ 32 + 4) 0.
Proof.
  assert (shows (nb := 48) (Bits (nb := 48) 5 0) 5 0) as Ha by (split; repr_now).
  destruct (bits_integer_operands 0xaa 48 (Bits (nb := 48) 5 0) 5 0 (I32 (-1)) Ha) as (H1 & _ & _ & H2 & _); [cbn; lia|].
  by split.
Defined.

(** ** A call that does not return *)

(** The concatenation with an integer calls itself with the same arguments. *)
Lemma concat_int_never_returns junk fuel nb (x : bits nb) y : concat_int junk fuel x y = Undefined.
Proof. by induction fuel. Qed.
