(* ===== verification/PipelineStage.v ===== *)
(** * Pipeline stages

    The stage template of [src/uadl/PipelineStage.h], a ring of [Capacity] pointers
    to instructions, with the loops of the generated model ([src/uadl/GenCode.C],
    [taken_flush_<stage>]) that flush instructions from it, and the loggers of a stage
    ([src/uadl/PipelineStage.C]).  A stage refines the list of its instructions,
    oldest first; removals from the middle leave holes, which [cleanup] and
    [update_tail] close.

    An [unsigned] is a [Z] below [2^32]; a null pointer is [None]; an access outside
    of an array is [Undefined]. *)
From stdpp Require Import prelude strings.
From Stdlib Require Import ZArith Lia.
From S2P Require Import Prelude.
From S2P Require Import UadlResources.

Local Open Scope Z_scope.

Section Stage.
Context {InstrType : Type} (thread_id : InstrType → Z) (Capacity : Z).

Record stage : Type := Stage {
  _instrs : list (option InstrType);
  _count : Z;
  _head : Z;
  _tail : Z
}.

(** ** The ring *)

Definition load (l : list (option InstrType)) (i : Z) : outcome (option InstrType) :=
  match l !! Z.to_nat i with Some x => Ret x | None => Undefined end.
Definition store (l : list (option InstrType)) (i : Z) (x : option InstrType) : outcome (list (option InstrType)) :=
  if (Z.to_nat i <? length l)%nat then Ret (<[Z.to_nat i := x]> l) else Undefined.

Definition reset : stage := Stage (replicate (Z.to_nat Capacity) None) 0 0 0.
Definition pos (s : stage) (i : Z) : Z := wrap 32 (_head s + i) mod Capacity.
(** [operator[]], from the head, and [get], from the start of the array. *)
Definition at_ (s : stage) (i : Z) : outcome (option InstrType) := load (_instrs s) (pos s i).
Definition get (s : stage) (i : Z) : outcome (option InstrType) := load (_instrs s) i.
Definition head (s : stage) : outcome (option InstrType) := load (_instrs s) (_head s).
Definition tail (s : stage) : outcome (option InstrType) := load (_instrs s) (wrap 32 (_tail s - 1)).
Definition can_move (Rigid uarch_can_move : bool) : bool := if Rigid then uarch_can_move else true.
Definition has_space (s : stage) : bool := _count s <? Capacity.
Definition has_space_checked (Rigid uarch_can_move : bool) (s : stage) : bool := can_move Rigid uarch_can_move && has_space s.
Definition has_space_n (s : stage) (n : Z) : bool := wrap 32 (_count s + n) <=? Capacity.
Definition empty (s : stage) : bool := _count s =? 0.
Definition size (s : stage) : Z := _count s.
Definition has_instr (s : stage) (index : Z) : outcome bool :=
  let! x := load (_instrs s) index in Ret (bool_decide (is_Some x)).

Definition add_instr (s : stage) (instr : InstrType) : outcome stage :=
  assert! _count s <? Capacity in
  let! l := store (_instrs s) (_tail s) (Some instr) in
  Ret (Stage l (wrap 32 (_count s + 1)) (_head s) (wrap 32 (_tail s + 1) mod Capacity)).
Definition remove_head (s : stage) : outcome stage :=
  let! l := store (_instrs s) (_head s) None in
  Ret (Stage l (wrap 32 (_count s - 1)) (wrap 32 (_head s + 1) mod Capacity) (_tail s)).
Definition remove_instr_internal (s : stage) (index : Z) : outcome (option InstrType * stage) :=
  let! t := load (_instrs s) index in
  let! l := store (_instrs s) index None in
  Ret (t, Stage l (wrap 32 (_count s - 1)) (_head s) (_tail s)).
Definition remove_instr (s : stage) (index : Z) : outcome (option InstrType * stage) :=
  let i := pos s index in
  let! x := load (_instrs s) i in
  match x with Some _ => remove_instr_internal s i | None => Ret (None, s) end.
Definition remove_instr_thread (s : stage) (index tid : Z) : outcome (option InstrType * stage) :=
  let i := pos s index in
  let! x := load (_instrs s) i in
  match x with
  | Some instr => if thread_id instr =? tid then remove_instr_internal s i else Ret (None, s)
  | None => Ret (None, s)
  end.
(** The loop of [remove_instr_indep]: the array and the new tail.  [n] bounds the
    number of its steps, [Capacity - 1 - tail]. *)
Fixpoint close_gap (n : nat) (l : list (option InstrType)) (tail : Z) : outcome (list (option InstrType) * Z) :=
  match n with
  | O => Ret (l, tail)
  | S n =>
    let! x := load l (tail + 1) in
    match x with
    | Some _ => let! l := store l tail x in close_gap n l (tail + 1)
    | None => Ret (l, tail)
    end
  end.
Definition remove_instr_indep (s : stage) (index : Z) : outcome (option InstrType * stage) :=
  let! t := load (_instrs s) index in
  let! r := close_gap (Z.to_nat (Capacity - 1 - index)) (_instrs s) index in
  let! l := store (fst r) (snd r) None in
  Ret (t, Stage l (wrap 32 (_count s - 1)) (_head s) (snd r)).
Definition update_tail (s : stage) : stage :=
  Stage (_instrs s) (_count s) (_head s) (wrap 32 (_head s + _count s) mod Capacity).

(** [cleanup]: the instructions among the first [n] positions go to [tmp], which has
    [Capacity] elements, and from there to the start of the array. *)
Fixpoint collect (n : nat) (s : stage) (i : Z) (tmp : list InstrType) : outcome (list InstrType) :=
  match n with
  | O => Ret tmp
  | S n =>
    let! x := at_ s i in
    match x with
    | Some instr => if Z.of_nat (length tmp) <? Capacity then collect n s (i + 1) (tmp ++ [instr]) else Undefined
    | None => collect n s (i + 1) tmp
    end
  end.
Fixpoint copy_back (tmp : list InstrType) (i : Z) (l : list (option InstrType)) : outcome (list (option InstrType)) :=
  match tmp with
  | [] => Ret l
  | instr :: tmp => let! l := store l i (Some instr) in copy_back tmp (i + 1) l
  end.
Definition cleanup (s : stage) (orig_size : Z) : outcome stage :=
  let! tmp := collect (Z.to_nat orig_size) s 0 [] in
  let tsize := Z.of_nat (length tmp) in
  let! l := copy_back tmp 0 (_instrs reset) in
  Ret (Stage l tsize 0 (tsize mod Capacity)).

(** ** Flushes of the generated model *)

(** [for (int i = position+1; i < Capacity; ++i) if (instr = remove_instr(i)) ...]:
    the instructions that are flushed, in order. *)
Fixpoint remove_loop (n : nat) (remove : stage → Z → outcome (option InstrType * stage)) (i : Z) (s : stage) :
    outcome (list InstrType * stage) :=
  match n with
  | O => Ret ([], s)
  | S n =>
    let! r := remove s i in
    let! q := remove_loop n remove (i + 1) (snd r) in
    Ret (match fst r with Some instr => instr :: fst q | None => fst q end, snd q)
  end.
(** A stage of one thread: what is behind a position goes, and the tail is set. *)
Definition flush_behind (s : stage) (position : Z) : outcome (list InstrType * stage) :=
  let! r := remove_loop (Z.to_nat (Capacity - (position + 1))) remove_instr (position + 1) s in
  Ret (fst r, update_tail (snd r)).
(** A stage of one thread that is behind: everything goes. *)
Fixpoint flush_loop (n : nat) (s : stage) (i : Z) : outcome (list InstrType) :=
  match n with
  | O => Ret []
  | S n =>
    let! x := at_ s i in
    let! q := flush_loop n s (i + 1) in
    Ret (match x with Some instr => instr :: q | None => q end)
  end.
Definition flush_all (s : stage) : outcome (list InstrType * stage) :=
  let! l := flush_loop (Z.to_nat Capacity) s 0 in Ret (l, reset).
(** A stage that threads share: only instructions of the thread go, and the holes are closed. *)
Definition flush_thread (s : stage) (position tid : Z) : outcome (list InstrType * stage) :=
  let orig_size := size s in
  let! r := remove_loop (Z.to_nat (Capacity - (position + 1))) (λ s i, remove_instr_thread s i tid) (position + 1) s in
  let! s := cleanup (snd r) orig_size in
  Ret (fst r, s).
End Stage.
Arguments stage : clear implicits.
Arguments Stage {InstrType} _ _ _ _.
Arguments _instrs {InstrType} s : rename.
Arguments _count {InstrType} s : rename.
Arguments _head {InstrType} s : rename.
Arguments _tail {InstrType} s : rename.

(** ** The ring as a list of cells *)

Section Cells.
Context {I : Type} (thread_id : I → Z) (Capacity : Z).
Context (Hcap : 0 < Capacity < 2 ^ 31).
Local Abbreviation cap := (Z.to_nat Capacity).

(** The cells of the ring from its head. *)
Definition cells (s : stage I) : list (option I) := rotate (Z.to_nat (_head s)) (_instrs s).
Definition ring (s : stage I) (cs : list (option I)) : Prop :=
  length (_instrs s) = cap ∧ 0 ≤ _head s < Capacity ∧ cells s = cs.

Lemma ring_length s cs : ring s cs → length cs = cap.
Proof using Type. intros (Hl & _ & <-). unfold cells. by rewrite length_rotate. Qed.
Lemma pos_spec s cs i : ring s cs → 0 ≤ i ≤ Capacity →
  pos Capacity s i = (_head s + i) mod Capacity ∧ 0 ≤ pos Capacity s i < Capacity ∧
  Z.to_nat (pos Capacity s i) = rotate_nat_add (Z.to_nat (_head s)) (Z.to_nat i) cap.
Proof using Hcap.
  intros (Hl & Hh & _) Hi. unfold pos, rotate_nat_add. rewrite !Z2Nat.id by lia.
  rewrite wrap_small by (unfold uint; lia). pose proof (Z.mod_pos_bound (_head s + i) Capacity). lia.
Qed.
Lemma load_cell s cs i x : ring s cs → 0 ≤ i < Capacity → cs !! Z.to_nat i = Some x → load (_instrs s) (pos Capacity s i) = Ret x.
Proof using Hcap.
  intros Hr Hi Hx. destruct (pos_spec s cs i Hr) as (_ & _ & Hp); [lia|]. destruct Hr as (Hl & Hh & <-).
  unfold load. rewrite Hp. unfold cells in Hx. rewrite lookup_rotate_r in Hx by lia. rewrite Hl in Hx. by rewrite Hx.
Qed.
Lemma store_cell s cs i x : ring s cs → 0 ≤ i < Capacity → ∃ l, store (_instrs s) (pos Capacity s i) x = Ret l ∧
  ∀ c t, ring (Stage l c (_head s) t) (<[Z.to_nat i := x]> cs).
Proof using Hcap.
  intros Hr Hi. destruct (pos_spec s cs i Hr) as (_ & Hb & Hp); [lia|]. destruct Hr as (Hl & Hh & <-).
  unfold store. destruct (Nat.ltb_spec (Z.to_nat (pos Capacity s i)) (length (_instrs s))); [|lia].
  eexists. split; [done|]. intros c t. split_and!; [cbn; by rewrite length_insert|cbn; lia..|].
  unfold cells. cbn. rewrite Hp, <- rotate_insert_l by lia. by rewrite Hl.
Qed.

(** Removals make holes. *)
Lemma remove_cell s cs i x : ring s cs → 0 ≤ i < Capacity → cs !! Z.to_nat i = Some (Some x) →
  ∃ s', remove_instr_internal s (pos Capacity s i) = Ret (Some x, s') ∧ ring s' (<[Z.to_nat i := None]> cs) ∧
    _count s' = wrap 32 (_count s - 1).
Proof using Hcap.
  intros Hr Hi Hx. unfold remove_instr_internal. rewrite (load_cell s cs i (Some x)) by done. cbn [obind].
  destruct (store_cell s cs i None Hr Hi) as (l & -> & Hl). cbn [obind]. eexists. split; [done|]. split; [apply Hl|done].
Qed.

(** The instructions of a list of cells, and a ring whose count is right. *)
Definition live (cs : list (option I)) : list I := omap id cs.
Definition counted (s : stage I) (cs : list (option I)) : Prop := ring s cs ∧ _count s = Z.of_nat (length (live cs)).

Lemma live_app cs cs' : live (cs ++ cs') = live cs ++ live cs'.
Proof using Type. apply omap_app. Qed.
Lemma live_Some l : live (Some <$> l) = l.
Proof using Type. induction l as [|x l IH]; [done|]. change (x :: live (Some <$> l) = x :: l). by rewrite IH. Qed.
Lemma live_None n : live (replicate n None) = [].
Proof using Type. by induction n. Qed.
Lemma length_live cs : (length (live cs) ≤ length cs)%nat.
Proof using Type. induction cs as [|[x|] cs IH]; [done|cbn [live omap list_omap length id]; fold (live cs)..]; lia. Qed.

(** A removal takes the instruction of a cell if a test holds. *)
Definition removes (p : I → bool) (rem : stage I → Z → outcome (option I * stage I)) : Prop := ∀ s pre x post,
  counted s (pre ++ x :: post) →
  ∃ s', rem s (Z.of_nat (length pre)) = Ret (y ← x; if p y then Some y else None, s') ∧
    counted s' (pre ++ (y ← x; if p y then None else Some y) :: post) ∧ _head s' = _head s.

Lemma remove_some s pre x post : counted s (pre ++ Some x :: post) →
  ∃ s', remove_instr_internal s (pos Capacity s (Z.of_nat (length pre))) = Ret (Some x, s') ∧
    counted s' (pre ++ None :: post) ∧ _head s' = _head s.
Proof using Hcap.
  intros [Hr Hc]. pose proof (ring_length s _ Hr) as Hl. rewrite length_app in Hl. cbn in Hl.
  unfold remove_instr_internal. rewrite (load_cell s _ _ (Some x) Hr) by (lia || by rewrite Nat2Z.id, list_lookup_middle). cbn [obind].
  destruct (store_cell s _ (Z.of_nat (length pre)) None Hr) as (l & -> & Hl'); [lia|]. cbn [obind]. eexists. split; [done|].
  specialize (Hl' (wrap 32 (_count s - 1)) (_tail s)). rewrite Nat2Z.id, insert_app_r_alt, Nat.sub_diag in Hl' by done.
  split; [|done]. split; [done|]. cbn. rewrite Hc, !live_app, !length_app. cbn. rewrite wrap_small; [lia|].
  pose proof (length_live pre). pose proof (length_live post). unfold uint. fold (live post). lia.
Qed.
Lemma load_here s pre x post : counted s (pre ++ x :: post) →
  load (_instrs s) (pos Capacity s (Z.of_nat (length pre))) = Ret x.
Proof using Hcap.
  intros [Hr _]. pose proof (ring_length s _ Hr) as Hl. rewrite length_app in Hl. cbn in Hl.
  apply (load_cell s _ _ x Hr); [lia|]. by rewrite Nat2Z.id, list_lookup_middle.
Qed.
Lemma remove_instr_removes : removes (λ _, true) (remove_instr Capacity).
Proof using Hcap.
  intros s pre x post Hs. unfold remove_instr. rewrite (load_here s pre x post Hs). cbn [obind].
  destruct x as [x|]; cbn; [by apply remove_some|by exists s].
Qed.
Lemma remove_thread_removes tid : removes (λ x, thread_id x =? tid) (λ s i, remove_instr_thread thread_id Capacity s i tid).
Proof using Hcap.
  intros s pre x post Hs. unfold remove_instr_thread. rewrite (load_here s pre x post Hs). cbn [obind].
  destruct x as [x|]; cbn; [|by exists s]. destruct (thread_id x =? tid); cbn; [by apply remove_some|by exists s].
Qed.

Lemma remove_loop_spec p rem post pre s : removes p rem → counted s (pre ++ post) →
  ∃ s', remove_loop (length post) rem (Z.of_nat (length pre)) s = Ret (filter p (live post), s') ∧
    counted s' (pre ++ ((λ x, y ← x; if p y then None else Some y) <$> post)) ∧ _head s' = _head s.
Proof using Hcap.
  intros Hp. revert pre s. induction post as [|x post IH]; intros pre s Hs; cbn [remove_loop length].
  - by exists s.
  - destruct (Hp s pre x post Hs) as (s1 & -> & Hs1 & Hh). cbn [obind fst snd].
    destruct (IH (pre ++ [y ← x; if p y then None else Some y]) s1) as (s2 & E & Hs2 & Hh2); [by rewrite <- app_assoc|].
    rewrite length_app in E. cbn in E. replace (Z.of_nat (length pre + 1)) with (Z.of_nat (length pre) + 1) in E by lia.
    rewrite E. cbn [obind fst snd]. exists s2. rewrite <- app_assoc in Hs2. split_and!; [|done|congruence].
    destruct x as [x|]; [|done]. change (live (Some x :: post)) with (x :: live post). rewrite filter_cons. cbn. by destruct (p x).
Qed.

(** ** A stage holds a list *)

Definition pad (l : list I) : list (option I) := (Some <$> l) ++ replicate (cap - length l) None.
Definition holds (s : stage I) (l : list I) : Prop :=
  ring s (pad l) ∧ _count s = Z.of_nat (length l) ∧ Z.of_nat (length l) ≤ Capacity ∧
  _tail s = (_head s + Z.of_nat (length l)) mod Capacity.

Lemma live_pad l : live (pad l) = l.
Proof using Type. unfold pad. rewrite live_app, live_Some, live_None. apply app_nil_r. Qed.
Lemma holds_counted s l : holds s l → counted s (pad l).
Proof using Type. intros (Hr & Hc & _). split; [done|]. by rewrite live_pad. Qed.
Lemma length_pad l : (length l ≤ cap)%nat → length (pad l) = cap.
Proof using Hcap. intros H. unfold pad. rewrite length_app, length_fmap, length_replicate. lia. Qed.
Lemma pad_snoc l x : (length l < cap)%nat → <[length l := Some x]> (pad l) = pad (l ++ [x]).
Proof using Hcap.
  intros H. unfold pad. rewrite length_app, fmap_app. cbn. replace (cap - length l)%nat with (S (cap - (length l + 1))) by lia.
  cbn. rewrite insert_app_r_alt, length_fmap, Nat.sub_diag by (by rewrite length_fmap). cbn. by rewrite <- app_assoc.
Qed.
Lemma holds_reset : holds (reset Capacity) [].
Proof using Hcap.
  split; [split_and!|].
  - apply length_replicate.
  - done.
  - cbn. lia.
  - unfold cells, pad, reset. cbn [_head _instrs length fmap list_fmap app]. by rewrite rotate_replicate, Nat.sub_0_r.
  - cbn. rewrite Z.mod_0_l by lia. split_and!; lia || done.
Qed.
Lemma holds_add s l x : holds s l →
  if Z.of_nat (length l) <? Capacity then ∃ s', add_instr Capacity s x = Ret s' ∧ holds s' (l ++ [x])
  else add_instr Capacity s x = AssertFail.
Proof using Hcap.
  intros (Hr & Hc & Hle & Ht). unfold add_instr. rewrite Hc. destruct (Z.ltb_spec (Z.of_nat (length l)) Capacity) as [Hlt|]; [|done].
  destruct (pos_spec s _ (Z.of_nat (length l)) Hr) as (Hp & Hb & _); [lia|]. rewrite Ht, <- Hp.
  destruct (store_cell s _ (Z.of_nat (length l)) (Some x) Hr) as (k & -> & Hk); [lia|]. cbn [obind]. eexists. split; [done|].
  rewrite Nat2Z.id, pad_snoc in Hk by lia. split_and!; [apply Hk|cbn..]; rewrite ?length_app; cbn.
  - rewrite wrap_small; [lia|unfold uint; lia].
  - lia.
  - rewrite wrap_small by (unfold uint; lia). rewrite Hp, Zplus_mod_idemp_l. f_equal. lia.
Qed.

Lemma rotate_next {A} (L : list A) h a k : 0 ≤ h < Z.of_nat (length L) → rotate (Z.to_nat h) L = a :: k →
  rotate (Z.to_nat ((h + 1) mod Z.of_nat (length L))) L = k ++ [a].
Proof using Type.
  intros Hh. assert (∃ m, Z.to_nat h = m ∧ h = Z.of_nat m) as (m & -> & ->) by (exists (Z.to_nat h); lia).
  unfold rotate. rewrite Nat.mod_small by lia. destruct (lookup_lt_is_Some_2 L m) as [b Hb]; [lia|].
  rewrite (drop_S _ _ _ Hb). intros [= -> <-]. destruct (decide (S m < length L)%nat).
  - rewrite Z.mod_small by lia. replace (Z.to_nat (Z.of_nat m + 1)) with (S m) by lia. rewrite Nat.mod_small by lia.
    by rewrite (take_S_r _ _ _ Hb), app_assoc.
  - replace (Z.of_nat m + 1) with (Z.of_nat (length L)) by lia. rewrite Z.mod_same by lia. cbn.
    rewrite Nat.Div0.mod_0_l. cbn. rewrite take_0, app_nil_r, (drop_ge _ (S m)) by lia. cbn.
    rewrite <- (take_S_r _ _ _ Hb). by rewrite take_ge by lia.
Qed.
Lemma holds_remove s x l : holds s (x :: l) → head s = Ret (Some x) ∧ ∃ s', remove_head Capacity s = Ret s' ∧ holds s' l.
Proof using Hcap.
  intros (Hr & Hc & Hle & Ht). cbn in Hc, Hle, Ht. destruct (pos_spec s _ 0 Hr) as (Hp & _); [lia|].
  rewrite Z.add_0_r, Z.mod_small in Hp by apply Hr. split.
  { unfold head. rewrite <- Hp. by apply (load_cell s _ 0 _ Hr); [lia|]. }
  unfold remove_head. destruct (store_cell s _ 0 None Hr) as (k & E & Hk); [lia|]. rewrite Hp in E. rewrite E. cbn [obind].
  eexists. split; [done|]. destruct (Hk 0 0) as (K1 & K2 & K3). unfold cells in K3. cbn in K1, K2, K3.
  rewrite (wrap_small 32 (_head s + 1)) by (unfold uint; lia). apply rotate_next in K3; [|lia]. replace (Z.of_nat (length k)) with Capacity in K3 by lia.
  split; [split; [done|split; [apply Z.mod_pos_bound; lia|]]|cbn; split; [|split; [lia|]]].
  - unfold cells. cbn [_head _instrs]. rewrite K3. unfold pad. cbn. rewrite <- app_assoc. f_equal.
    replace (cap - length l)%nat with (S (cap - S (length l))) by lia. rewrite <- replicate_cons_app. done.
  - rewrite Hc, wrap_small; [lia|unfold uint; lia].
  - rewrite Ht, Zplus_mod_idemp_l. f_equal. lia.
Qed.

Lemma collect_spec s post mid pre : counted s (pre ++ mid ++ post) →
  collect Capacity (length mid) s (Z.of_nat (length pre)) (live pre) = Ret (live (pre ++ mid)).
Proof using Hcap.
  revert pre. induction mid as [|x mid IH]; intros pre Hs; cbn [collect length]; [by rewrite app_nil_r|].
  unfold at_. rewrite (load_here s pre x (mid ++ post) Hs). cbn [obind].
  specialize (IH (pre ++ [x])). rewrite live_app, length_app, <- !app_assoc in IH. cbn in IH.
  replace (Z.of_nat (length pre + 1)) with (Z.of_nat (length pre) + 1) in IH by lia. specialize (IH Hs).
  destruct x as [x|]; cbn in IH.
  - pose proof (ring_length s _ (proj1 Hs)) as Hl. rewrite length_app in Hl. cbn in Hl. pose proof (length_live pre).
    destruct (Z.ltb_spec (Z.of_nat (length (live pre))) Capacity); [done|lia].
  - by rewrite app_nil_r in IH.
Qed.
Lemma copy_back_spec tmp pre k :
  copy_back tmp (Z.of_nat (length pre)) ((Some <$> pre) ++ replicate (length tmp + k) None) =
  Ret ((Some (A := I) <$> (pre ++ tmp)) ++ replicate k None).
Proof using Type.
  revert pre. induction tmp as [|x tmp IH]; intros pre; cbn [copy_back length]; [by rewrite app_nil_r|].
  unfold store. rewrite Nat2Z.id, length_app, length_fmap, length_replicate.
  destruct (Nat.ltb_spec (length pre) (length pre + (S (length tmp) + k))); [|lia]. cbn [obind Nat.add].
  rewrite insert_app_r_alt, length_fmap, Nat.sub_diag by (by rewrite length_fmap). cbn.
  specialize (IH (pre ++ [x])). rewrite length_app, fmap_app, <- !app_assoc in IH. cbn in IH.
  by replace (Z.of_nat (length pre + 1)) with (Z.of_nat (length pre) + 1) in IH by lia.
Qed.
(** The holes among the first positions are closed; what is behind them is dropped. *)
Lemma cleanup_holds s mid post : counted s (mid ++ post) →
  ∃ s', cleanup Capacity s (Z.of_nat (length mid)) = Ret s' ∧ holds s' (live mid) ∧ _head s' = 0.
Proof using Hcap.
  intros Hs. unfold cleanup. pose proof (collect_spec s post mid [] Hs) as Ec. change (collect Capacity (length mid) s 0 [] = Ret (live mid)) in Ec. rewrite Nat2Z.id, Ec. cbn [obind].
  pose proof (ring_length s _ (proj1 Hs)) as Hl. rewrite length_app in Hl. pose proof (length_live mid).
  pose proof (copy_back_spec (live mid) [] (cap - length (live mid))) as E. change (Z.of_nat (length [])) with 0 in E. cbn [app fmap list_fmap] in E.
  replace (length (live mid) + (cap - length (live mid)))%nat with cap in E by lia. cbn [_instrs reset]. rewrite E. cbn [obind].
  eexists. split; [done|]. split; [|done].
  split; [split; [apply length_pad; lia|split; [cbn; lia|]]|cbn; split_and!; lia || done].
  unfold cells, rotate. cbn [_head _instrs]. by rewrite Nat.Div0.mod_0_l, drop_0, take_0, app_nil_r.
Qed.

(** A stage that is full up to a position and what is behind it. *)
Lemma pad_split l k : (length l ≤ cap)%nat → (k ≤ cap)%nat → ∃ a b,
  pad l = ((Some <$> take k l) ++ replicate a None) ++ (Some <$> drop k l) ++ replicate b None ∧
  (length (take k l) + a = k)%nat ∧ (length (drop k l) + b = cap - k)%nat ∧ (a = 0%nat ∨ drop k l = []).
Proof using Hcap.
  intros Hl Hk. destruct (decide (k ≤ length l)%nat).
  - exists 0%nat, (cap - length l)%nat. rewrite length_take, length_drop. split_and!; [|lia|lia|by left].
    unfold pad. rewrite <- (take_drop k l) at 1. by rewrite fmap_app, app_nil_r, app_assoc.
  - exists (k - length l)%nat, (cap - k)%nat. rewrite take_ge, drop_ge by lia. split_and!; [|lia|cbn; lia|by right].
    unfold pad. cbn. rewrite <- app_assoc, <- replicate_add. by replace (k - length l + (cap - k))%nat with (cap - length l)%nat by lia.
Qed.
Lemma clear_Nones (p : I → bool) n : (λ x : option I, y ← x; if p y then None else Some y) <$> replicate n None = replicate n None.
Proof using Type. by rewrite fmap_replicate. Qed.
Lemma live_clear (p : I → bool) l :
  live ((λ x : option I, y ← x; if p y then None else Some y) <$> (Some <$> l)) = filter (λ y, negb (p y)) l.
Proof using Type.
  induction l as [|x l IH]; [done|]. rewrite filter_cons, <- IH. cbn. by destruct (p x).
Qed.

Lemma filter_true (l : list I) : filter (λ _, true) l = l.
Proof using Type. induction l as [|x l IH]; [done|]. rewrite filter_cons, IH. done. Qed.
Lemma clear_all (l : list I) : (λ x : option I, y ← x; if true then None else Some y) <$> (Some <$> l) = replicate (length l) None.
Proof using Type. induction l as [|x l IH]; [done|]. cbn. by f_equal. Qed.

Section Flush.
Context (s : stage I) (l : list I) (position : Z) (Hs : holds s l) (Hp : -1 ≤ position < Capacity).
Local Abbreviation k := (Z.to_nat (position + 1)).

Lemma remove_behind (p : I → bool) rem : removes p rem → ∃ s' a b,
  remove_loop (Z.to_nat (Capacity - (position + 1))) rem (position + 1) s = Ret (filter p (drop k l), s') ∧
  counted s' (((Some <$> take k l) ++ replicate a None) ++
    ((λ x : option I, y ← x; if p y then None else Some y) <$> (Some <$> drop k l)) ++ replicate b None) ∧
  _head s' = _head s ∧ (length (take k l) + a = k)%nat ∧ (length (drop k l) + b = cap - k)%nat ∧ (a = 0%nat ∨ drop k l = []).
Proof using Hcap Hs Hp.
  intros Hr. pose proof (holds_counted s l Hs) as Hc. destruct Hs as (_ & _ & Hle & _).
  destruct (pad_split l k) as (a & b & E & Ha & Hb & Hab); [lia|lia|]. rewrite E in Hc.
  destruct (remove_loop_spec p rem _ _ s Hr Hc) as (s' & El & Hs' & Hh). exists s', a, b.
  rewrite !length_app, !length_fmap, !length_replicate, Ha, Hb in El. replace (Z.of_nat k) with (position + 1) in El by lia.
  rewrite fmap_app, clear_Nones in Hs'. rewrite live_app, live_Some, live_None, app_nil_r in El.
  replace (cap - k)%nat with (Z.to_nat (Capacity - (position + 1))) in El by lia. by split_and!.
Qed.

Lemma flush_behind_holds : ∃ s', flush_behind Capacity s position = Ret (drop k l, s') ∧ holds s' (take k l).
Proof using Hcap Hs Hp.
  destruct (remove_behind (λ _, true) _ remove_instr_removes) as (s' & a & b & E & [Hr Hc] & Hh & Ha & Hb & Hab).
  unfold flush_behind. rewrite E, filter_true. cbn [obind fst snd]. rewrite clear_all in Hr, Hc.
  eexists. split; [done|]. destruct Hr as (R1 & R2 & R3). destruct Hs as (_ & _ & Hle & _).
  rewrite !live_app, live_Some, !live_None, !app_nil_r in Hc. pose proof (length_take l k) as Ht.
  split; [split; [done|split; [done|]]|cbn; split; [done|split; [lia|]]].
  - unfold cells in *. cbn [_head _instrs update_tail]. rewrite R3. unfold pad. rewrite <- app_assoc, <- !replicate_add. do 2 f_equal. lia.
  - rewrite Hc, wrap_small; [done|unfold uint; lia].
Qed.
(** Only the thread's instructions go, in order, and the others close up. *)
Lemma flush_thread_holds tid : ∃ s',
  flush_thread thread_id Capacity s position tid = Ret (filter (λ x, thread_id x =? tid) (drop k l), s') ∧
  holds s' (take k l ++ filter (λ x, negb (thread_id x =? tid)) (drop k l)).
Proof using Hcap Hs Hp.
  destruct (remove_behind _ _ (remove_thread_removes tid)) as (s' & a & b & E & Hc & Hh & Ha & Hb & Hab).
  unfold flush_thread, size. rewrite E. cbn [obind fst snd].
  set (mid := (Some <$> take k l) ++ ((λ x : option I, y ← x; if thread_id y =? tid then None else Some y) <$> (Some <$> drop k l))).
  assert (Z.of_nat (length mid) = _count s) as Hm.
  { subst mid. rewrite length_app, !length_fmap, length_take, length_drop. destruct Hs as (_ & -> & _). lia. }
  assert (∃ post, counted s' (mid ++ post)) as [post Hc'].
  { destruct Hab as [-> | Hd].
    - exists (replicate b None). subst mid. by rewrite app_nil_r, app_assoc in Hc.
    - exists (replicate a None ++ replicate b None). subst mid. rewrite Hd in *. cbn in Hc. by rewrite app_nil_r, app_assoc. }
  destruct (cleanup_holds s' mid post Hc') as (s2 & E2 & Hs2 & _). rewrite Hm in E2. rewrite E2. cbn [obind].
  exists s2. split; [done|]. subst mid. by rewrite live_app, live_Some, live_clear in Hs2.
Qed.
End Flush.

Lemma flush_loop_spec s post pre : counted s (pre ++ post) →
  flush_loop Capacity (length post) s (Z.of_nat (length pre)) = Ret (live post).
Proof using Hcap.
  revert pre. induction post as [|x post IH]; intros pre Hs; cbn [flush_loop length]; [done|].
  unfold at_. rewrite (load_here s pre x post Hs). cbn [obind]. specialize (IH (pre ++ [x])).
  rewrite <- app_assoc, length_app in IH. cbn in IH. replace (Z.of_nat (length pre + 1)) with (Z.of_nat (length pre) + 1) in IH by lia.
  rewrite (IH Hs). by destruct x.
Qed.
Lemma flush_all_holds s l : holds s l → flush_all Capacity s = Ret (l, reset Capacity).
Proof using Hcap.
  intros Hs. pose proof (flush_loop_spec s (pad l) [] (holds_counted s l Hs)) as E. rewrite live_pad, length_pad in E by (destruct Hs as (_ & _ & ? & _); lia).
  unfold flush_all. change (Z.of_nat (length [])) with 0 in E. by rewrite E.
Qed.

(** *** Removal from a stage whose instructions are scheduled independently *)

Lemma close_gap_spec b r A x : ∃ y,
  close_gap (length r + b) (A ++ x :: (Some <$> r) ++ replicate b None) (Z.of_nat (length A)) =
  Ret (A ++ (Some (A := I) <$> r) ++ y :: replicate b None, Z.of_nat (length A + length r)).
Proof using Type.
  revert A x. induction r as [|z r IH]; intros A x; cbn [length Nat.add].
  - exists x. rewrite Nat.add_0_r. destruct b as [|b]; cbn [close_gap]; [done|]. unfold load.
    replace (Z.to_nat (Z.of_nat (length A) + 1)) with (S (length A)) by lia.
    rewrite lookup_app_r, Nat.sub_succ_l, Nat.sub_diag by lia. done.
  - cbn [close_gap]. unfold load, store. replace (Z.to_nat (Z.of_nat (length A) + 1)) with (S (length A)) by lia.
    rewrite lookup_app_r, Nat.sub_succ_l, Nat.sub_diag by lia. cbn [lookup list_lookup fmap list_fmap app obind].
    rewrite Nat2Z.id, length_app. cbn [length]. destruct (Nat.ltb_spec (length A) (length A + S (S (length ((Some <$> r) ++ replicate b None))))); [|lia].
    cbn [obind]. rewrite insert_app_r_alt, Nat.sub_diag by done. cbn [insert list_insert].
    destruct (IH (A ++ [Some z]) (Some z)) as [y E]. exists y. rewrite <- !app_assoc, length_app in E. cbn [app length] in E.
    replace (Z.of_nat (length A) + 1) with (Z.of_nat (length A + 1)) by lia. rewrite E. do 2 f_equal. lia.
Qed.
Lemma holds_remove_indep s l index x : holds s l → _head s = 0 → l !! index = Some x →
  ∃ s', remove_instr_indep Capacity s (Z.of_nat index) = Ret (Some x, s') ∧ holds s' (delete index l) ∧ _head s' = 0.
Proof using Hcap.
  intros (Hr & Hc & Hle & Ht) H0 Hx. pose proof (lookup_lt_Some _ _ _ Hx) as Hi. destruct Hr as (R1 & R2 & R3).
  unfold cells in R3. rewrite H0 in R3. unfold rotate in R3. cbn in R3. rewrite Nat.Div0.mod_0_l, drop_0, take_0, app_nil_r in R3.
  assert (pad l = (Some <$> take index l) ++ Some x :: (Some <$> drop (S index) l) ++ replicate (cap - length l) None) as Ep.
  { unfold pad. rewrite <- (take_drop_middle l index x Hx) at 1. rewrite fmap_app. cbn. by rewrite <- app_assoc. }
  assert (length (Some <$> take index l) = index) as Hti by (rewrite length_fmap, length_take; lia).
  destruct (close_gap_spec (cap - length l) (drop (S index) l) (Some <$> take index l) (Some x)) as [y E].
  rewrite <- Ep, Hti, length_drop in E.
  assert (load (_instrs s) (Z.of_nat index) = Ret (Some x)) as El.
  { unfold load. rewrite R3, Nat2Z.id, Ep, lookup_app_r, Hti, Nat.sub_diag by lia. done. }
  unfold remove_instr_indep. rewrite El, R3. cbn [obind].
  replace (Z.to_nat (Capacity - 1 - Z.of_nat index)) with (length l - S index + (cap - length l))%nat by lia. rewrite E. cbn [obind fst snd].
  unfold store. rewrite Nat2Z.id, !length_app, Hti, length_fmap, length_drop. cbn [length].
  rewrite length_replicate. destruct (Nat.ltb_spec (index + (length l - S index)) (index + (length l - S index + S (cap - length l)))); [|lia].
  cbn [obind]. eexists. split; [done|]. rewrite insert_app_r_alt, Hti by (rewrite Hti; lia).
  rewrite insert_app_r_alt by (rewrite length_fmap, length_drop; lia). rewrite length_fmap, length_drop.
  replace (index + (length l - S index) - index - (length l - S index))%nat with 0%nat by lia. cbn [insert list_insert].
  assert (length (delete index l) = length l - 1)%nat as Hd by (by rewrite length_delete by eauto).
  assert (((Some <$> take index l) ++ (Some <$> drop (S index) l) ++ None :: replicate (cap - length l) None) = pad (delete index l)) as Ed.
  { unfold pad. rewrite Hd, delete_take_drop, fmap_app, <- app_assoc. do 2 f_equal.
    by replace (cap - (length l - 1))%nat with (S (cap - length l)) by lia. }
  rewrite Ed. split; [|done]. split; [split; [cbn; apply length_pad; lia|split; [cbn; lia|]]|cbn; rewrite Hd; split_and!].
  - unfold cells, rotate. cbn [_head _instrs]. by rewrite H0, Nat.Div0.mod_0_l, drop_0, take_0, app_nil_r.
  - rewrite Hc, wrap_small; [lia|unfold uint; lia].
  - lia.
  - rewrite H0, Z.mod_small by lia. lia.
Qed.
End Cells.

(** ** Runs *)

(** What a stage of instructions in order is asked to do; every operation gives the
    instructions it takes out. *)
Inductive op (I : Type) : Type :=
| Reset
| Add (instr : I)
| RemoveHead
| FlushBehind (position : Z)
| FlushThread (position tid : Z)
| FlushAll.
Arguments Reset {I}.
Arguments Add {I} instr.
Arguments RemoveHead {I}.
Arguments FlushBehind {I} position.
Arguments FlushThread {I} position tid.
Arguments FlushAll {I}.
(** The same for a stage with independent scheduling. *)
Inductive indep_op (I : Type) : Type := IReset | IAdd (instr : I) | IRemove (index : nat).
Arguments IReset {I}.
Arguments IAdd {I} instr.
Arguments IRemove {I} index.

Section Run.
Context {I : Type} (thread_id : I → Z) (Capacity : Z).

Definition step (o : op I) (s : stage I) : outcome (list I * stage I) :=
  match o with
  | Reset => Ret ([], reset Capacity)
  | Add x => let! s := add_instr Capacity s x in Ret ([], s)
  | RemoveHead =>
    let! x := head s in
    let! s := remove_head Capacity s in Ret (match x with Some x => [x] | None => [] end, s)
  | FlushBehind position => flush_behind Capacity s position
  | FlushThread position tid => flush_thread thread_id Capacity s position tid
  | FlushAll => flush_all Capacity s
  end.
Definition indep_step (o : indep_op I) (s : stage I) : outcome (list I * stage I) :=
  match o with
  | IReset => Ret ([], reset Capacity)
  | IAdd x => let! s := add_instr Capacity s x in Ret ([], s)
  | IRemove index =>
    let! r := remove_instr_indep Capacity s (Z.of_nat index) in
    Ret (match fst r with Some x => [x] | None => [] end, snd r)
  end.

(** On the list of the instructions, where the operation is allowed. *)
Definition list_step (o : op I) (l : list I) : option (list I * list I) :=
  match o with
  | Reset => Some ([], [])
  | Add x => if Z.of_nat (length l) <? Capacity then Some ([], l ++ [x]) else None
  | RemoveHead => match l with x :: l => Some ([x], l) | [] => None end
  | FlushBehind position =>
    let k := Z.to_nat (position + 1) in
    if (-1 <=? position) && (position <? Capacity) then Some (drop k l, take k l) else None
  | FlushThread position tid =>
    let k := Z.to_nat (position + 1) in
    if (-1 <=? position) && (position <? Capacity)
    then Some (filter (λ x, thread_id x =? tid) (drop k l), take k l ++ filter (λ x, negb (thread_id x =? tid)) (drop k l))
    else None
  | FlushAll => Some (l, [])
  end.
Definition indep_list_step (o : indep_op I) (l : list I) : option (list I * list I) :=
  match o with
  | IReset => Some ([], [])
  | IAdd x => if Z.of_nat (length l) <? Capacity then Some ([], l ++ [x]) else None
  | IRemove index => x ← l !! index; Some ([x], delete index l)
  end.
Fixpoint run {O S} (f : O → S → outcome (list I * S)) (os : list O) (s : S) : outcome (list I * S) :=
  match os with
  | [] => Ret ([], s)
  | o :: os => let! r := f o s in let! q := run f os (snd r) in Ret (fst r ++ fst q, snd q)
  end.
Fixpoint list_run {O} (f : O → list I → option (list I * list I)) (os : list O) (l : list I) : option (list I * list I) :=
  match os with
  | [] => Some ([], l)
  | o :: os => r ← f o l; q ← list_run f os (snd r); Some (fst r ++ fst q, snd q)
  end.
End Run.

Section Refinement.
Context {I : Type} (thread_id : I → Z) (Capacity : Z) (Hcap : 0 < Capacity < 2 ^ 31).

Lemma step_holds o s l out l' : holds Capacity s l → list_step thread_id Capacity o l = Some (out, l') →
  ∃ s', step thread_id Capacity o s = Ret (out, s') ∧ holds Capacity s' l'.
Proof using Hcap.
  intros Hs. destruct o as [|x| |position|position tid|]; cbn.
  - intros [= <- <-]. eexists. split; [done|]. by apply holds_reset.
  - pose proof (holds_add Capacity Hcap s l x Hs) as H. destruct (_ <? _); [|done]. intros [= <- <-].
    destruct H as (s' & -> & Hs'). by exists s'.
  - destruct l as [|x l]; [done|]. intros [= <- <-]. destruct (holds_remove Capacity Hcap s x l Hs) as (-> & s' & -> & Hs'). by exists s'.
  - destruct (Z.leb_spec (-1) position), (Z.ltb_spec position Capacity); try done. intros [= <- <-]. by apply flush_behind_holds.
  - destruct (Z.leb_spec (-1) position), (Z.ltb_spec position Capacity); try done. intros [= <- <-]. by apply flush_thread_holds.
  - intros [= <- <-]. eexists. split; [by apply flush_all_holds|]. by apply holds_reset.
Qed.
Lemma indep_step_holds o (s : stage I) l out l' : holds Capacity s l ∧ _head s = 0 → indep_list_step Capacity o l = Some (out, l') →
  ∃ s', indep_step Capacity o s = Ret (out, s') ∧ holds Capacity s' l' ∧ _head s' = 0.
Proof using Hcap.
  intros [Hs H0]. destruct o as [|x|index]; cbn.
  - intros [= <- <-]. eexists. split_and!; [done|by apply holds_reset|done].
  - pose proof (holds_add Capacity Hcap s l x Hs) as H. destruct (_ <? _); [|done]. intros [= <- <-].
    destruct H as (s' & E & Hs'). rewrite E. exists s'. split_and!; [done..|]. unfold add_instr in E.
    destruct (_ <? _); [|done]. destruct (store _ _ _); by simplify_eq/=.
  - destruct (l !! index) as [x|] eqn:Hx; [|done]. intros [= <- <-].
    destruct (holds_remove_indep Capacity Hcap s l index x Hs H0 Hx) as (s' & -> & Hs' & H0'). by exists s'.
Qed.
Lemma run_simulates {O} (R : stage I → list I → Prop) (f : O → stage I → outcome (list I * stage I))
    (g : O → list I → option (list I * list I)) :
  (∀ o s l out l', R s l → g o l = Some (out, l') → ∃ s', f o s = Ret (out, s') ∧ R s' l') →
  ∀ os s l out l', R s l → list_run g os l = Some (out, l') → ∃ s', run f os s = Ret (out, s') ∧ R s' l'.
Proof using Type.
  intros Hf os. induction os as [|o os IH]; intros s l out l' Hs; cbn.
  - intros [= <- <-]. by exists s.
  - destruct (g o l) as [[out1 l1]|] eqn:E1; [|done]. cbn. destruct (list_run g os l1) as [[out2 l2]|] eqn:E2; [|done].
    cbn. intros [= <- <-]. destruct (Hf o s l out1 l1 Hs E1) as (s1 & -> & Hs1). cbn [obind fst snd].
    destruct (IH s1 l1 out2 l2 Hs1 E2) as (s2 & -> & Hs2). by exists s2.
Qed.

(** What can be seen of a stage. *)
Definition shows_list (s : stage I) (l : list I) : Prop :=
  size s = Z.of_nat (length l) ∧ empty s = bool_decide (l = []) ∧ has_space Capacity s = (Z.of_nat (length l) <? Capacity) ∧
  (∀ i, 0 ≤ i < Capacity → at_ Capacity s i = Ret (l !! Z.to_nat i)) ∧ head s = Ret (hd_error l).
Lemma holds_shows s l : holds Capacity s l → shows_list s l.
Proof using Hcap.
  intros (Hr & Hc & Hle & Ht). unfold shows_list, size, empty, has_space. rewrite Hc.
  assert (∀ i, 0 ≤ i < Capacity → at_ Capacity s i = Ret (l !! Z.to_nat i)) as Hat.
  { intros i Hi. apply (load_cell Capacity Hcap s _ i _ Hr Hi). unfold pad. destruct (decide (Z.to_nat i < length l)%nat).
    - rewrite lookup_app_l, list_lookup_fmap by (rewrite length_fmap; lia). by destruct (lookup_lt_is_Some_2 l (Z.to_nat i)) as [x ->].
    - rewrite lookup_app_r, length_fmap by (rewrite length_fmap; lia). rewrite lookup_replicate_2, lookup_ge_None_2 by lia. done. }
  split_and!; [done| |done|done|].
  - by destruct l.
  - specialize (Hat 0 ltac:(lia)). unfold at_, pos in Hat. destruct Hr as (_ & Hh & _).
    rewrite Z.add_0_r, wrap_small, Z.mod_small in Hat by (unfold uint; lia). unfold head. rewrite Hat. by destruct l.
Qed.
End Refinement.

(** C24: a pipeline stage is the list of its instructions, oldest first.  Over any
    sequence of resets, additions while there is space, removals of the head, and
    flushes of what is behind a position, of a thread's instructions behind a
    position, or of everything, the ring of [Capacity] slots holds exactly that list,
    in order, and each operation takes out the instructions it should; size, space,
    emptiness and every position from the head say what the list says. *)
Theorem pipeline_stage_refines {I} (thread_id : I → Z) Capacity os out l :
  0 < Capacity < 2 ^ 31 → list_run (list_step thread_id Capacity) os [] = Some (out, l) →
  ∃ s, run (step thread_id Capacity) os (reset Capacity) = Ret (out, s) ∧ shows_list Capacity s l.
Proof.
  intros Hcap Hl. destruct (run_simulates (holds Capacity) (step thread_id Capacity) (list_step thread_id Capacity)
    (step_holds thread_id Capacity Hcap) os (reset Capacity) [] out l) as (s & E & Hs); [by apply holds_reset|done|].
  exists s. split; [done|]. by apply holds_shows.
Qed.
(** Instructions are pairs of a number and a thread. *)
Lemma pipeline_stage_refines_witness : ∃ s,
  run (step snd 4) [Add (1, 0); Add (2, 1); RemoveHead; Add (3, 0); Add (4, 1); Add (5, 0); FlushThread 0 1] (reset 4)
    = Ret ([(1, 0); (4, 1)], s) ∧ shows_list 4 s [(2, 1); (3, 0); (5, 0)].
Proof.
  apply (pipeline_stage_refines snd 4
    [Add (1, 0); Add (2, 1); RemoveHead; Add (3, 0); Add (4, 1); Add (5, 0); FlushThread 0 1] [(1, 0); (4, 1)] [(2, 1); (3, 0); (5, 0)]).
  - lia.
  - reflexivity.
Defined.

(** A stage whose instructions are scheduled independently loses an instruction
    from the middle by moving the ones behind it forward: its head stays at the start
    of the array and it holds the list without that instruction. *)
Theorem independent_stage_refines {I} Capacity (os : list (indep_op I)) out l :
  0 < Capacity < 2 ^ 31 → list_run (indep_list_step Capacity) os [] = Some (out, l) →
  ∃ s, run (indep_step Capacity) os (reset Capacity) = Ret (out, s) ∧ shows_list Capacity s l ∧ _head s = 0.
Proof.
  intros Hcap Hl. destruct (run_simulates (λ s l, holds Capacity s l ∧ _head s = 0) (indep_step Capacity) (indep_list_step Capacity)
    (indep_step_holds Capacity Hcap) os (reset Capacity) [] out l) as (s & E & Hs & H0); [by split; [apply holds_reset|]|done|].
  exists s. split_and!; [done| |done]. by apply holds_shows.
Qed.
Lemma independent_stage_refines_witness : ∃ s,
  run (indep_step 3) [IAdd 1; IAdd 2; IAdd 3; IRemove 1; IAdd 4] (reset 3) = Ret ([2], s) ∧ shows_list 3 s [1; 3; 4] ∧ _head s = 0.
Proof.
  apply (independent_stage_refines 3 [IAdd 1; IAdd 2; IAdd 3; IRemove 1; IAdd 4] [2] [1; 3; 4]).
  - lia.
  - reflexivity.
Defined.

(** [tail] reads in front of the array when the next free slot is the first one. *)
Lemma tail_undefined {I} Capacity (s : stage I) l : 0 < Capacity < 2 ^ 31 → holds Capacity s l → _tail s = 0 → tail s = Undefined.
Proof.
  intros Hcap ((Hl & _) & _) Ht. unfold tail, load. rewrite Ht. change (wrap 32 (0 - 1)) with (2 ^ 32 - 1).
  rewrite lookup_ge_None_2 by lia. done.
Qed.
