(* ===== verification/StageLogger.v ===== *)
(** * Loggers of a pipeline stage

    [StageInstrLogger], [StageLogger] and [IssueLogger] of
    [src/uadl/PipelineStage.h] and [PipelineStage.C], over the loggers of
    UadlResources.v.  The loggers of a stage form a linked list, threaded through
    [_next], of those with something to report in the cycle: a pointer to a logger is
    its index in [_loggers].  An output stream is the text that is written. *)
From stdpp Require Import prelude strings.
From Stdlib Require Import ZArith Lia.
From S2P Require Import Prelude.
From S2P Require Import UadlResources.

Local Open Scope Z_scope.
Local Open Scope string_scope.

Definition newline : string := String (Ascii.ascii_of_nat 10) "".
(** [string(n,' ')] *)
Fixpoint spaces (n : nat) : string := match n with O => "" | S n => String (Ascii.ascii_of_nat 32) (spaces n) end.
Definition is_empty (s : string) : bool := match s with "" => true | _ => false end.

Lemma text_app_assoc (a b c : string) : (a +:+ b) +:+ c = a +:+ b +:+ c.
Proof. induction a as [|x a IH]; [done|]. apply (f_equal (String x) IH). Qed.
Lemma text_app_nil (a : string) : a +:+ "" = a.
Proof. induction a as [|x a IH]; [done|]. apply (f_equal (String x) IH). Qed.

(** ** Reports of a logger *)

Definition getIndent (l : Logger) (pfx : string) : string :=
  spaces (String.length pfx + (if is_empty (Logger._name l) then 0 else String.length (Logger._name l) + 2)).
Fixpoint report_lines (indent : string) (msgs : list string) : string :=
  match msgs with
  | [] => ""
  | m :: msgs => indent +:+ m +:+ newline +:+ report_lines indent msgs
  end.
Definition logger_report (l : Logger) (pfx : string) : string * bool :=
  match Logger._log l with
  | [] => ("", false)
  | m :: msgs =>
    (pfx +:+ (if is_empty (Logger._name l) then "" else Logger._name l +:+ ": ") +:+ m +:+ newline +:+
     report_lines (getIndent l pfx) msgs, true)
  end.

(** ** One position of a stage *)

Record StageInstrLogger : Type := SIL { base : Logger; _instr : string; _next : option nat }.
Definition new_instr_logger (lc : option (list Logger.event)) (tflags : Z) : StageInstrLogger :=
  SIL (Logger.init "" lc tflags) "" None.
Definition clear_instr (l : StageInstrLogger) : StageInstrLogger := SIL (Logger.clear (base l)) "" None.
Definition hasStuff (l : StageInstrLogger) : bool := Logger.hasLog (base l) || negb (is_empty (_instr l)).
Definition report_instr (l : StageInstrLogger) (pfx : string) : string * bool :=
  if negb (is_empty (_instr l))
  then (_instr l +:+ newline +:+ fst (logger_report (base l) (pfx +:+ "  ")), true)
  else ("", false).

(** ** The stage *)

Record StageLogger : Type := SL { _loggers : list StageInstrLogger; _name : string; _head : option nat; _tail : option nat }.
Definition new_stage_logger (count : nat) (name : string) (lc : option (list Logger.event)) (tflags : Z) : StageLogger :=
  SL (replicate count (new_instr_logger lc tflags)) name None None.

Definition with_loggers (sl : StageLogger) (l : list StageInstrLogger) : StageLogger := SL l (_name sl) (_head sl) (_tail sl).
Definition set_next (sl : StageLogger) (i j : nat) : StageLogger :=
  with_loggers sl (alter (λ l, SIL (base l) (_instr l) (Some j)) i (_loggers sl)).
Definition add_logger_to_list (sl : StageLogger) (l : nat) : StageLogger :=
  let sl := match _tail sl with
            | Some t => set_next sl t l
            | None => SL (_loggers sl) (_name sl) (Some l) (_tail sl)
            end in
  SL (_loggers sl) (_name sl) (_head sl) (Some l).

(** [logger(index)] is [_loggers.at(index)]. *)
Definition logger (sl : StageLogger) (index : nat) : outcome StageInstrLogger :=
  match _loggers sl !! index with Some l => Ret l | None => Throw "out_of_range" end.
(** [StageInstrLogger::logInstruction] of a logger of the stage: [has_instr] is what the
    stage says of the position and [text] what [instructionReport] writes for it. *)
Definition logInstruction (sl : StageLogger) (index : nat) (has_instr : bool) (text : string) : outcome StageLogger :=
  let! l := logger sl index in
  if Logger.logAll (base l) && has_instr && is_empty (_instr l)
  then
    let sl := with_loggers sl (<[index := SIL (base l) (_instr l +:+ text) (_next l)]> (_loggers sl)) in
    Ret (add_logger_to_list sl index)
  else Ret sl.
Definition logMessage_at (sl : StageLogger) (index : nat) (msg : string) : outcome StageLogger :=
  let! l := logger sl index in
  Ret (with_loggers sl (<[index := SIL (Logger.logMessage (base l) msg) (_instr l) (_next l)]> (_loggers sl))).

(** The loop of [report] over the list; [fuel] bounds its length. *)
Fixpoint report_rest (fuel : nat) (sl : StageLogger) (indent : string) (iter : option nat) (reported : bool) : outcome (string * bool) :=
  match iter with
  | None => Ret ("", reported)
  | Some i =>
    match fuel with
    | O => Undefined
    | S fuel =>
      match _loggers sl !! i with
      | None => Undefined
      | Some l =>
        let sep := if reported && hasStuff l then indent +:+ " " else "" in
        let r := report_instr l indent in
        let! q := report_rest fuel sl indent (_next l) (reported || snd r) in
        Ret (sep +:+ fst r +:+ fst q, snd q)
      end
    end
  end.
Definition report (sl : StageLogger) (pfx : string) : outcome (string * bool) :=
  assert! negb (bool_decide (_loggers sl = [])) in
  let indent := spaces (String.length pfx + String.length (_name sl) + 2) in
  let! r := match _head sl with
            | None => Ret ("", false)
            | Some i =>
              match _loggers sl !! i with
              | None => Undefined
              | Some l =>
                let r := report_instr l indent in
                let! q := report_rest (length (_loggers sl)) sl indent (_next l) (snd r) in
                Ret (fst r +:+ fst q, snd q)
              end
            end in
  Ret (pfx +:+ _name sl +:+ ":  " +:+ fst r +:+ (if snd r then "" else newline), snd r).
Definition clear_stage (sl : StageLogger) : StageLogger := SL (clear_instr <$> _loggers sl) (_name sl) None None.
Definition report_and_clear (sl : StageLogger) (pfx : string) : outcome (string * bool * StageLogger) :=
  let! r := report sl pfx in Ret (r, clear_stage sl).

(** ** What a cycle logs *)

Inductive event : Type := LogInstr (index : nat) (has_instr : bool) (text : string) | LogMsg (index : nat) (msg : string).
Definition log_step (e : event) (sl : StageLogger) : outcome StageLogger :=
  match e with
  | LogInstr i b t => logInstruction sl i b t
  | LogMsg i m => logMessage_at sl i m
  end.
Fixpoint log_run (es : list event) (sl : StageLogger) : outcome StageLogger :=
  match es with [] => Ret sl | e :: es => let! sl := log_step e sl in log_run es sl end.

(** The positions with an instruction in the order in which they were first logged, the
    text of each, and its messages. *)
Record cycle_log : Type := { order : list nat; text : nat → string; msgs : nat → list string }.
Definition empty_log : cycle_log := {| order := []; text := λ _, ""; msgs := λ _, [] |}.
Definition abs_step (e : event) (c : cycle_log) : cycle_log :=
  match e with
  | LogInstr i b t =>
    if b && negb (bool_decide (i ∈ order c))
    then {| order := (order c ++ [i])%list; text := λ j, if decide (j = i) then t else text c j; msgs := msgs c |}
    else c
  | LogMsg i m => {| order := order c; text := text c; msgs := λ j, if decide (j = i) then (msgs c j ++ [m])%list else msgs c j |}
  end.
Definition abs_run (es : list event) (c : cycle_log) : cycle_log := foldl (λ c e, abs_step e c) c es.

(** The report of a cycle: the instructions in order, each with its messages. *)
Definition entry (c : cycle_log) (indent : string) (i : nat) : string :=
  text c i +:+ newline +:+ fst (logger_report {| Logger._name := ""; Logger._log := msgs c i; Logger._logclient := None; Logger._tflags := 0 |} (indent +:+ "  ")).
Fixpoint entries (c : cycle_log) (indent : string) (l : list nat) : string :=
  match l with [] => "" | i :: l => indent +:+ " " +:+ entry c indent i +:+ entries c indent l end.
Definition cycle_report (c : cycle_log) (name pfx : string) : string :=
  let indent := spaces (String.length pfx + String.length name + 2) in
  pfx +:+ name +:+ ":  " +:+
  match order c with [] => newline | i :: l => entry c indent i +:+ entries c indent l end.

(** ** The linked list *)

Record chain (sl : StageLogger) (c : cycle_log) : Prop := {
  chain_nodup : NoDup (order c);
  chain_loggers : ∀ i l, _loggers sl !! i = Some l →
    Logger._name (base l) = "" ∧ _instr l = text c i ∧ Logger._log (base l) = msgs c i;
  chain_text : ∀ i, i ∈ order c ↔ (i < length (_loggers sl))%nat ∧ text c i ≠ "";
  chain_off : ∀ i l, _loggers sl !! i = Some l → i ∉ order c → _next l = None;
  chain_head : _head sl = hd_error (order c);
  chain_tail : _tail sl = order c !! pred (length (order c));
  chain_next : ∀ n i, order c !! n = Some i → ∃ l, _loggers sl !! i = Some l ∧ _next l = order c !! S n
}.

Lemma is_empty_spec s : is_empty s = bool_decide (s = "").
Proof. by destruct s. Qed.
Lemma logAll_true l : Logger.logAll l = true.
Proof.
  unfold Logger.logAll, Logger.LogAll. apply negb_true_iff, Z.eqb_neq. intros H. apply (f_equal (λ z, Z.testbit z 0)) in H.
  rewrite Z.lor_spec, orb_true_r in H. done.
Qed.
Lemma chain_length sl c : chain sl c → (length (order c) ≤ length (_loggers sl))%nat.
Proof.
  intros H. rewrite <- (length_seq (length (_loggers sl)) 0). apply submseteq_length, NoDup_submseteq; [apply H|].
  intros i Hi%(chain_text _ _ H). apply elem_of_seq. lia.
Qed.
Lemma chain_new count name lc tflags : chain (new_stage_logger count name lc tflags) empty_log.
Proof.
  split; cbn; try done.
  - constructor.
  - by intros i l [-> _]%lookup_replicate.
  - intros i. split; [by intros ?%not_elem_of_nil|by intros [_ []]].
  - by intros i l [-> _]%lookup_replicate.
Qed.
Lemma chain_clear sl c : chain sl c → chain (clear_stage sl) empty_log.
Proof.
  intros H. split; cbn; try done.
  - constructor.
  - intros i l. rewrite list_lookup_fmap. destruct (_loggers sl !! i) as [l0|] eqn:E; [|done]. intros [= <-].
    destruct (chain_loggers _ _ H _ _ E) as (Hn & _). done.
  - intros i. split; [by intros ?%not_elem_of_nil|by intros [_ []]].
  - intros i l. rewrite list_lookup_fmap. destruct (_loggers sl !! i); [|done]. by intros [= <-].
Qed.

Definition valid (n : nat) (e : event) : Prop :=
  match e with LogInstr i _ t => (i < n)%nat ∧ t ≠ "" | LogMsg i _ => (i < n)%nat end.
Local Abbreviation keeps sl sl' := (length (_loggers sl') = length (_loggers sl) ∧ _name sl' = _name sl).

Lemma lookup_logger sl i : (i < length (_loggers sl))%nat → ∃ l, _loggers sl !! i = Some l ∧ logger sl i = Ret l.
Proof. intros Hi. destruct (lookup_lt_is_Some_2 _ _ Hi) as [l Hl]. exists l. split; [done|]. unfold logger. by rewrite Hl. Qed.
Lemma chain_message sl c i m : chain sl c → (i < length (_loggers sl))%nat →
  ∃ sl', logMessage_at sl i m = Ret sl' ∧ chain sl' (abs_step (LogMsg i m) c) ∧ keeps sl sl'.
Proof.
  intros H Hi. destruct (lookup_logger sl i Hi) as (l & Hl & E). unfold logMessage_at. rewrite E. cbn [obind]. eexists. split; [done|].
  cbn. rewrite length_insert. split; [|done]. destruct (chain_loggers _ _ H _ _ Hl) as (Hn & Ht & Hm).
  split; cbn; try apply H.
  - intros j l'. destruct (decide (j = i)) as [-> |Hne].
    + rewrite list_lookup_insert_eq by done. intros [= <-]. cbn. unfold Logger.logMessage. rewrite logAll_true. cbn. by rewrite Hm.
    + rewrite list_lookup_insert_ne by done. apply H.
  - intros j. rewrite length_insert. apply H.
  - intros j l'. destruct (decide (j = i)) as [-> |Hne].
    + rewrite list_lookup_insert_eq by done. intros [= <-]. intros. by apply (chain_off _ _ H i l).
    + rewrite list_lookup_insert_ne by done. apply H.
  - intros n j Hj. destruct (chain_next _ _ H n j Hj) as (l' & Hl' & Hn'). destruct (decide (j = i)) as [-> |Hne].
    + rewrite list_lookup_insert_eq by done. simplify_eq. by eexists.
    + rewrite list_lookup_insert_ne by done. by exists l'.
Qed.

(** The list after a logger was put at its end. *)
Section Append.
Context (sl : StageLogger) (c : cycle_log) (i : nat) (t : string) (l : StageInstrLogger).
Context (H : chain sl c) (Hi : _loggers sl !! i = Some l) (Hnot : i ∉ order c) (Ht : t ≠ "").
Local Abbreviation sl1 := (with_loggers sl (<[i := SIL (base l) t None]> (_loggers sl))).
Local Abbreviation sl2 := (add_logger_to_list sl1 i).

Lemma last_in t0 : order c !! pred (length (order c)) = Some t0 → t0 ∈ order c ∧ t0 ≠ i.
Proof using Hnot. intros E%list_elem_of_lookup_2. split; [done|]. by intros ->. Qed.
Lemma append_lookup j l' : _loggers sl2 !! j = Some l' → ∃ l0, _loggers sl !! j = Some l0 ∧ base l' = base l0 ∧
  _instr l' = (if decide (j = i) then t else _instr l0) ∧
  _next l' = (if decide (j = i) then None else if decide (order c !! pred (length (order c)) = Some j) then Some i else _next l0).
Proof using All.
  unfold add_logger_to_list, set_next. cbn. rewrite (chain_tail _ _ H).
  destruct (order c !! pred (length (order c))) as [t0|] eqn:E; cbn.
  - destruct (last_in t0 E) as [_ Hne]. destruct (decide (j = t0)) as [-> |Hj].
    + rewrite list_lookup_alter_eq, list_lookup_insert_ne by done. destruct (_loggers sl !! t0) as [l0|] eqn:E0; [|done].
      intros [= <-]. exists l0. cbn. rewrite !(decide_False (P := t0 = i)), decide_True by done. done.
    + rewrite list_lookup_alter_ne by done. destruct (decide (j = i)) as [-> |Hji].
      * rewrite list_lookup_insert_eq by (by eapply lookup_lt_Some). intros [= <-]. by exists l.
      * rewrite list_lookup_insert_ne by done. intros Hl'. exists l'. rewrite (decide_False (P := Some t0 = Some j)) by congruence. done.
  - destruct (decide (j = i)) as [-> |Hji].
    + rewrite list_lookup_insert_eq by (by eapply lookup_lt_Some). intros [= <-]. by exists l.
    + rewrite list_lookup_insert_ne by done. intros Hl'. by exists l'.
Qed.
Lemma append_length : length (_loggers sl2) = length (_loggers sl) ∧ _name sl2 = _name sl.
Proof using Type.
  unfold add_logger_to_list, set_next. cbn. destruct (_tail sl); cbn; by rewrite ?length_alter, length_insert.
Qed.
Definition appended : cycle_log :=
  {| order := (order c ++ [i])%list; text := λ j, if decide (j = i) then t else text c j; msgs := msgs c |}.
Lemma append_next n j l' : order appended !! n = Some j → _loggers sl2 !! j = Some l' → _next l' = order appended !! S n.
Proof using All.
  cbn. intros Hj (l0 & Hl0 & _ & _ & ->)%append_lookup. pose proof (lookup_lt_Some _ _ _ Hj) as Hn. rewrite length_app in Hn. cbn in Hn.
  destruct (decide (n = length (order c))) as [-> |].
  - rewrite lookup_app_r, Nat.sub_diag in Hj by lia. injection Hj as <-. rewrite decide_True by done.
    by rewrite lookup_ge_None_2 by (rewrite length_app; cbn; lia).
  - rewrite lookup_app_l in Hj by lia. rewrite decide_False by (intros ->; by apply list_elem_of_lookup_2 in Hj).
    destruct (decide (order c !! pred (length (order c)) = Some j)) as [E|Hne].
    + replace (S n) with (length (order c)) by (pose proof (NoDup_lookup _ _ _ _ (chain_nodup _ _ H) Hj E); lia).
      by rewrite lookup_app_r, Nat.sub_diag by lia.
    + destruct (chain_next _ _ H n j Hj) as (l1 & Hl1 & E1). simplify_eq.
      assert (S n < length (order c))%nat. { destruct (decide (S n = length (order c))) as [E|]; [|lia]. by rewrite <- E in Hne. }
      by rewrite lookup_app_l.
Qed.
Lemma chain_append : chain sl2 appended.
Proof using All.
  pose proof (lookup_lt_Some _ _ _ Hi) as Hlt. destruct append_length as [Hlen _]. split.
  - cbn. apply NoDup_app. split_and!; [apply H| |apply NoDup_singleton]. by intros x Hx ->%list_elem_of_singleton.
  - intros j l' (l0 & Hl0 & Hb & Hx & _)%append_lookup. destruct (chain_loggers _ _ H _ _ Hl0) as (H1 & H2 & H3).
    rewrite Hb, Hx. cbn. split_and!; [done| |done]. by destruct (decide (j = i)).
  - intros j. rewrite Hlen. cbn. rewrite elem_of_app, list_elem_of_singleton, (chain_text _ _ H).
    destruct (decide (j = i)) as [-> |]; tauto.
  - intros j l' (l0 & Hl0 & _ & _ & ->)%append_lookup. cbn. rewrite elem_of_app, list_elem_of_singleton. intros Hj.
    rewrite decide_False by tauto. destruct (decide (order c !! pred (length (order c)) = Some j)) as [E%list_elem_of_lookup_2|]; [tauto|].
    apply (chain_off _ _ H j l0 Hl0). tauto.
  - unfold add_logger_to_list. cbn. pose proof (chain_head _ _ H) as E1. rewrite (chain_tail _ _ H).
    destruct (order c) as [|k r] eqn:E; [done|]. cbn. destruct (lookup_lt_is_Some_2 (k :: r) (length r)) as [t0 ->]; [cbn; lia|]. done.
  - cbn. rewrite length_app. cbn. rewrite Nat.add_1_r. cbn. by rewrite lookup_app_r, Nat.sub_diag by lia.
  - intros n j Hj. assert (j < length (_loggers sl2))%nat as [l' Hl']%lookup_lt_is_Some_2.
    { rewrite Hlen. apply list_elem_of_lookup_2 in Hj. cbn in Hj. apply elem_of_app in Hj as [Hj| ->%list_elem_of_singleton]; [|done].
      by apply (chain_text _ _ H) in Hj as [? _]. }
    exists l'. split; [done|]. by eapply append_next.
Qed.
End Append.

Lemma chain_instr sl c i b t : chain sl c → (i < length (_loggers sl))%nat → t ≠ "" →
  ∃ sl', logInstruction sl i b t = Ret sl' ∧ chain sl' (abs_step (LogInstr i b t) c) ∧ keeps sl sl'.
Proof.
  intros H Hi Ht. destruct (lookup_logger sl i Hi) as (l & Hl & E). unfold logInstruction. rewrite E. cbn [obind].
  destruct (chain_loggers _ _ H _ _ Hl) as (_ & Hx & _). rewrite logAll_true, is_empty_spec, Hx. cbn [andb].
  destruct b; [|by exists sl]. cbn. destruct (decide (i ∈ order c)) as [Hin|Hnot].
  - rewrite (bool_decide_true (i ∈ order c)) by done. apply (chain_text _ _ H) in Hin as [_ Hne].
    rewrite bool_decide_false by done. by exists sl.
  - rewrite (bool_decide_false (i ∈ order c)) by done.
    assert (text c i = "") as He. { destruct (decide (text c i = "")); [done|]. destruct Hnot. by apply (chain_text _ _ H). }
    rewrite He. rewrite bool_decide_true by done. rewrite (chain_off _ _ H i l Hl Hnot). eexists. split; [done|].
    split; [by apply chain_append|apply append_length].
Qed.
Lemma chain_step sl c e : chain sl c → valid (length (_loggers sl)) e →
  ∃ sl', log_step e sl = Ret sl' ∧ chain sl' (abs_step e c) ∧ keeps sl sl'.
Proof. intros H. destruct e as [i b t|i m]; cbn; [intros [Hi Ht]; by apply chain_instr|intros Hi; by apply chain_message]. Qed.
Lemma chain_run es sl c : chain sl c → Forall (valid (length (_loggers sl))) es →
  ∃ sl', log_run es sl = Ret sl' ∧ chain sl' (abs_run es c) ∧ keeps sl sl'.
Proof.
  revert sl c. induction es as [|e es IH]; intros sl c H Hes; [by exists sl|]. apply Forall_cons in Hes as [He Hes]. cbn.
  destruct (chain_step sl c e H He) as (sl1 & -> & H1 & Hl & Hn). cbn [obind]. rewrite <- Hl in Hes.
  destruct (IH sl1 (abs_step e c) H1 Hes) as (sl2 & E & H2 & Hl2 & Hn2). exists sl2. rewrite <- Hl, <- Hn. done.
Qed.

(** ** Reports *)

Lemma logger_report_log l l' pfx : Logger._name l = "" → Logger._name l' = "" → Logger._log l = Logger._log l' →
  logger_report l pfx = logger_report l' pfx.
Proof. intros H1 H2 H3. unfold logger_report, getIndent. by rewrite H1, H2, H3. Qed.
Lemma report_entry sl c i l indent : chain sl c → i ∈ order c → _loggers sl !! i = Some l →
  report_instr l indent = (entry c indent i, true) ∧ hasStuff l = true.
Proof.
  intros H Hi Hl. destruct (chain_loggers _ _ H _ _ Hl) as (Hn & Hx & Hm). apply (chain_text _ _ H) in Hi as [_ Hne].
  unfold report_instr, hasStuff, entry. rewrite is_empty_spec, Hx, bool_decide_false by done. split; [|apply orb_true_r]. cbn.
  by rewrite (logger_report_log _ _ _ Hn (eq_refl : Logger._name {| Logger._name := ""; Logger._log := msgs c i; Logger._logclient := None; Logger._tflags := 0 |} = "") Hm).
Qed.
Lemma report_rest_spec sl c indent k fuel n : chain sl c → (length (order c) - n ≤ fuel)%nat → k = (length (order c) - n)%nat →
  report_rest fuel sl indent (order c !! n) true = Ret (entries c indent (drop n (order c)), true).
Proof.
  intros H. revert fuel n. induction k as [|k IH]; intros fuel n Hf Hk.
  - rewrite lookup_ge_None_2, drop_ge by lia. by destruct fuel.
  - destruct (lookup_lt_is_Some_2 (order c) n) as [i Hi]; [lia|]. destruct fuel as [|fuel]; [lia|]. rewrite Hi. cbn [report_rest].
    destruct (chain_next _ _ H n i Hi) as (l & Hl & Hn). rewrite Hl.
    destruct (report_entry sl c i l indent H (list_elem_of_lookup_2 _ _ _ Hi) Hl) as [-> ->]. cbn [andb orb fst snd].
    rewrite Hn, IH by lia. cbn [obind fst snd]. rewrite (drop_S _ _ _ Hi). cbn. by rewrite !text_app_assoc.
Qed.
Lemma report_spec sl c pfx : chain sl c → _loggers sl ≠ [] →
  report sl pfx = Ret (cycle_report c (_name sl) pfx, bool_decide (order c ≠ [])).
Proof.
  intros H Hne. unfold report. rewrite bool_decide_false by done. cbn [negb]. rewrite (chain_head _ _ H). unfold cycle_report.
  pose proof (report_rest_spec sl c (spaces (String.length pfx + String.length (_name sl) + 2))
    (length (order c) - 1) (length (_loggers sl)) 1 H) as Hr.
  pose proof (chain_length sl c H). pose proof (chain_next _ _ H 0) as Hnx. pose proof (λ i, report_entry sl c i) as He.
  destruct (order c) as [|i r] eqn:Eo; cbn [hd_error obind fst snd]; [done|].
  destruct (Hnx i eq_refl) as (l & Hl & Hn). rewrite Hl.
  destruct (He i l (spaces (String.length pfx + String.length (_name sl) + 2)) H ltac:(constructor) Hl) as [-> _]. cbn [fst snd].
  rewrite Hn, Hr by (done || lia). cbn [obind fst snd drop]. by rewrite text_app_nil.
Qed.

(** The report of a stage lists every position whose instruction was logged in the
    cycle exactly once, in the order in which they were first logged, with the text of
    that moment and all messages of the position: the list that is threaded through
    the loggers has no cycle, the loop over it ends within the number of loggers, and
    clearing leaves loggers that report an empty cycle. *)
Theorem stage_report count name lc tflags es pfx : (0 < count)%nat → Forall (valid count) es →
  ∃ sl, log_run es (new_stage_logger count name lc tflags) = Ret sl ∧
    report_and_clear sl pfx = Ret (cycle_report (abs_run es empty_log) name pfx, bool_decide (order (abs_run es empty_log) ≠ []), clear_stage sl) ∧
    NoDup (order (abs_run es empty_log)) ∧
    report (clear_stage sl) pfx = Ret (cycle_report empty_log name pfx, false).
Proof.
  intros Hc Hes. destruct (chain_run es (new_stage_logger count name lc tflags) empty_log) as (sl & E & H & Hl & Hn);
    [apply chain_new|cbn; by rewrite length_replicate|]. cbn in Hl, Hn. rewrite length_replicate in Hl.
  assert (_loggers sl ≠ []) as Hne by (intros E0; rewrite E0 in Hl; cbn in Hl; lia).
  exists sl. split_and!; [done| |apply H|].
  - unfold report_and_clear. rewrite (report_spec sl _ pfx H Hne), Hn. done.
  - rewrite (report_spec _ _ pfx (chain_clear sl _ H)), <- Hn; [done|]. cbn. by destruct (_loggers sl).
Qed.
Lemma stage_report_witness : ∃ sl,
  log_run [LogInstr 1 true "b"; LogMsg 0 "m"; LogInstr 0 true "a"; LogInstr 1 true "c"] (new_stage_logger 2 "EX" None 1) = Ret sl ∧
  ∃ sl', report_and_clear sl "" = Ret ("EX:  b" +:+ newline +:+ "     a" +:+ newline +:+ "      m" +:+ newline, true, sl').
Proof.
  destruct (stage_report 2 "EX" None 1 [LogInstr 1 true "b"; LogMsg 0 "m"; LogInstr 0 true "a"; LogInstr 1 true "c"] "") as (sl & E & Hr & _).
  - lia.
  - repeat (constructor; [cbn; first [lia|split; [lia|discriminate]]|]). constructor.
  - exists sl. split; [exact E|]. eexists. exact Hr.
Defined.

(** ** The issue stage *)

Record IssueStage (I : Type) : Type := Issue { instr : option I }.
Arguments Issue {I} _.
Arguments instr {I} _.
Definition issue_reset {I} : IssueStage I := Issue None.
Definition issue_add {I} (s : IssueStage I) (x : option I) : bool * IssueStage I := (bool_decide (is_Some x), Issue x).
Definition issue_remove {I} (s : IssueStage I) : IssueStage I := Issue None.
Definition issue_empty {I} (s : IssueStage I) : bool := negb (bool_decide (is_Some (instr s))).
(** [IssueLogger::logInstruction]: [text] is the report of the instruction and [target]
    the predicted target as it is printed. *)
Definition issue_log {I} (s : IssueStage I) (l : Logger) (text target : string) (predTaken : bool) : Logger :=
  if Logger.logAll l && negb (issue_empty s)
  then Logger.logMessage l ("issue " +:+ text +:+ (if predTaken then ", predicted taken, target 0x" +:+ target else ""))
  else l.
