(* ===== verification/CacheBuffers.v ===== *)
(** * Line-fill and eviction buffers of a cache

    [LinefillBuf] and [EvictBuf] of [src/uadl/Cache.h] and [Cache.C]: the buffers
    through which a cache of the performance model reads a line from the next level of
    memory, with the critical word first if it is asked to, and writes one back.

    The next level is a [UadlMemoryIf], whose members are virtual: the class
    [NextMemory] has the calls that the buffers make, and [NextMemoryLaws] what they
    rely on.  Bytes are [Z]s, [addr_t] has 64 bits, [unsigned] has 32; the queue of
    critical entries, a [DSCircularQueue], is a list (CircularQueue.v shows that the
    queue is one).  Calls of loggers are left out. *)
From stdpp Require Import prelude strings gmap.
From Stdlib Require Import ZArith Lia.
From S2P Require Import Prelude.
From S2P Require Import BitTwiddles.

Local Open Scope Z_scope.

(** ** The next level *)

Inductive access : Type := CacheRead | CacheIFetch | CacheWrite.
Class NextMemory (M : Type) : Type := {
  sendRequestInquire : M → access → bool;
  (** [sendReadRequest] or [sendFetchRequest] of [ea], [ra], [size]: a request id. *)
  sendReadRequest : M → access → Z → Z → Z → Z * M;
  readInquire : M → Z → bool;
  read : M → Z → list Z * M;
  sendWriteRequest : M → Z → Z → Z → option (list Z) → Z * M;
  writeInquire : M → Z → bool;
  write : M → Z → option (list Z) → M
}.

(** ** Line-fill buffers *)

Record LinefillConfig : Type := {
  _withData : bool;
  _criticalWordFirst : bool;
  _streaming : bool;
  _lazyWriteback : bool;
  _dynEntrySize : bool
}.
Record Geometry : Type := {
  _lineWidth : Z;
  _nEntries : Z;
  _entrySize : Z;
  _lineAddrMask : Z;
  _entryOffsetMask : Z;
  _entryShift : Z;
  _byteOffsetMask : Z
}.
Record LinefillRequest : Type := {
  _requestId : Z;
  _set : Z;
  _way : Z;
  _readData : bool;
  _requestTime : Z;
  _replaceLine : bool
}.
Record LinefillBufEntry : Type := LBE {
  ea : Z;
  addr : Z;
  data : list Z;
  hasData : bool;
  requestSent : bool;
  requestId : Z
}.
Definition new_entry : LinefillBufEntry := LBE 0 0 [] false false 0.
Definition entry_init (e : LinefillBufEntry) (_ea _ra : Z) : LinefillBufEntry := LBE _ea _ra (data e) false false (requestId e).

Record LinefillBuf : Type := LB {
  _cfg : LinefillConfig;
  _geo : Geometry;
  _req : LinefillRequest;
  _entries : list LinefillBufEntry;
  _criticalIds : list Z;
  _critical_entry : Z;
  _empty : bool;
  _dirty : bool;
  _locked : bool;
  _loaded : bool;
  _started : bool;
  _allsent : bool;
  _startTime : Z;
  _criticalWordReceived : bool;
  _requestsRemaining : Z;
  _hasExtra : bool;
  _extraEntry : LinefillBufEntry;
  _streamed : bool
}.
Definition set_geo (b : LinefillBuf) (g : Geometry) (es : list LinefillBufEntry) : LinefillBuf :=
  LB (_cfg b) g (_req b) es (_criticalIds b) (_critical_entry b) (_empty b) (_dirty b) (_locked b) (_loaded b) (_started
    b) (_allsent b) (_startTime b) (_criticalWordReceived b) (_requestsRemaining b) (_hasExtra b) (_extraEntry b) (_streamed
    b).
Definition set_entries (b : LinefillBuf) (es : list LinefillBufEntry) : LinefillBuf :=
  LB (_cfg b) (_geo b) (_req b) es (_criticalIds b) (_critical_entry b) (_empty b) (_dirty b) (_locked b) (_loaded b)
    (_started b) (_allsent b) (_startTime b) (_criticalWordReceived b) (_requestsRemaining b) (_hasExtra b) (_extraEntry b)
    (_streamed b).
Definition set_criticalIds (b : LinefillBuf) (ids : list Z) (ci : Z) : LinefillBuf :=
  LB (_cfg b) (_geo b) (_req b) (_entries b) ids ci (_empty b) (_dirty b) (_locked b) (_loaded b) (_started b) (_allsent
    b) (_startTime b) (_criticalWordReceived b) (_requestsRemaining b) (_hasExtra b) (_extraEntry b) (_streamed b).
Definition set_empty (b : LinefillBuf) (v : bool) : LinefillBuf :=
  LB (_cfg b) (_geo b) (_req b) (_entries b) (_criticalIds b) (_critical_entry b) v (_dirty b) (_locked b) (_loaded b)
    (_started b) (_allsent b) (_startTime b) (_criticalWordReceived b) (_requestsRemaining b) (_hasExtra b) (_extraEntry b)
    (_streamed b).
Definition set_dirty (b : LinefillBuf) (v : bool) : LinefillBuf :=
  LB (_cfg b) (_geo b) (_req b) (_entries b) (_criticalIds b) (_critical_entry b) (_empty b) v (_locked b) (_loaded b)
    (_started b) (_allsent b) (_startTime b) (_criticalWordReceived b) (_requestsRemaining b) (_hasExtra b) (_extraEntry b)
    (_streamed b).
Definition set_locked (b : LinefillBuf) (v : bool) : LinefillBuf :=
  LB (_cfg b) (_geo b) (_req b) (_entries b) (_criticalIds b) (_critical_entry b) (_empty b) (_dirty b) v (_loaded b)
    (_started b) (_allsent b) (_startTime b) (_criticalWordReceived b) (_requestsRemaining b) (_hasExtra b) (_extraEntry b)
    (_streamed b).
Definition set_loaded (b : LinefillBuf) (v : bool) : LinefillBuf :=
  LB (_cfg b) (_geo b) (_req b) (_entries b) (_criticalIds b) (_critical_entry b) (_empty b) (_dirty b) (_locked b) v
    (_started b) (_allsent b) (_startTime b) (_criticalWordReceived b) (_requestsRemaining b) (_hasExtra b) (_extraEntry b)
    (_streamed b).
Definition set_started (b : LinefillBuf) (v : bool) (t : Z) : LinefillBuf :=
  LB (_cfg b) (_geo b) (_req b) (_entries b) (_criticalIds b) (_critical_entry b) (_empty b) (_dirty b) (_locked b)
    (_loaded b) v (_allsent b) t (_criticalWordReceived b) (_requestsRemaining b) (_hasExtra b) (_extraEntry b) (_streamed
    b).
Definition set_allsent (b : LinefillBuf) (v : bool) : LinefillBuf :=
  LB (_cfg b) (_geo b) (_req b) (_entries b) (_criticalIds b) (_critical_entry b) (_empty b) (_dirty b) (_locked b)
    (_loaded b) (_started b) v (_startTime b) (_criticalWordReceived b) (_requestsRemaining b) (_hasExtra b) (_extraEntry b)
    (_streamed b).
Definition set_criticalWordReceived (b : LinefillBuf) (v : bool) : LinefillBuf :=
  LB (_cfg b) (_geo b) (_req b) (_entries b) (_criticalIds b) (_critical_entry b) (_empty b) (_dirty b) (_locked b)
    (_loaded b) (_started b) (_allsent b) (_startTime b) v (_requestsRemaining b) (_hasExtra b) (_extraEntry b) (_streamed
    b).
Definition set_requestsRemaining (b : LinefillBuf) (v : Z) : LinefillBuf :=
  LB (_cfg b) (_geo b) (_req b) (_entries b) (_criticalIds b) (_critical_entry b) (_empty b) (_dirty b) (_locked b)
    (_loaded b) (_started b) (_allsent b) (_startTime b) (_criticalWordReceived b) v (_hasExtra b) (_extraEntry b)
    (_streamed b).
Definition set_extra (b : LinefillBuf) (v : bool) (e : LinefillBufEntry) : LinefillBuf :=
  LB (_cfg b) (_geo b) (_req b) (_entries b) (_criticalIds b) (_critical_entry b) (_empty b) (_dirty b) (_locked b)
    (_loaded b) (_started b) (_allsent b) (_startTime b) (_criticalWordReceived b) (_requestsRemaining b) v e (_streamed b).
Definition set_streamed (b : LinefillBuf) (v : bool) : LinefillBuf :=
  LB (_cfg b) (_geo b) (_req b) (_entries b) (_criticalIds b) (_critical_entry b) (_empty b) (_dirty b) (_locked b)
    (_loaded b) (_started b) (_allsent b) (_startTime b) (_criticalWordReceived b) (_requestsRemaining b) (_hasExtra b)
    (_extraEntry b) v.

(** [setEntrySize]: a division by zero for an entry of no bytes. *)
Definition geometry (lineWidth p_entrySize : Z) : outcome Geometry :=
  if p_entrySize =? 0 then Undefined else
  let emask := wrap 32 (p_entrySize - 1) in
  let lineAddrMask := unot 64 (wrap 64 (lineWidth - 1)) in
  Ret {| _lineWidth := lineWidth; _entrySize := p_entrySize; _nEntries := lineWidth / p_entrySize;
         _lineAddrMask := lineAddrMask;
         _entryOffsetMask := Z.land (unot 64 lineAddrMask) (unot 64 emask);
         _entryShift := count_trailing_zeros_u32 p_entrySize;
         _byteOffsetMask := unot 64 lineAddrMask |}.
(** [_entries.resize(n)] *)
Definition resize (l : list LinefillBufEntry) (n : Z) : list LinefillBufEntry :=
  take (Z.to_nat n) l ++ replicate (Z.to_nat n - length l) new_entry.
(** The entries share out [new byte_t[n * size]], whose bytes are read after they are
    written only: they stand here as zeros. *)
Definition fresh_data (size : Z) (e : LinefillBufEntry) : LinefillBufEntry :=
  LBE (ea e) (addr e) (replicate (Z.to_nat size) 0) (hasData e) (requestSent e) (requestId e).
Definition setEntrySize (b : LinefillBuf) (lineWidth p_entrySize : Z) : outcome LinefillBuf :=
  let! g := geometry lineWidth p_entrySize in
  let es := resize (_entries b) (_nEntries g) in
  Ret (set_geo b g (if _withData (_cfg b) then fresh_data p_entrySize <$> es else es)).

(** The constructor; the members that it leaves uninitialized are set by [init]. *)
Definition new_LinefillBuf (lineWidth p_entrySize : Z) (criticalWordFirst streaming withData lazyWriteback dynEntrySize : bool) : outcome LinefillBuf :=
  setEntrySize
    (LB {| _withData := withData; _criticalWordFirst := criticalWordFirst; _streaming := criticalWordFirst && streaming;
           _lazyWriteback := lazyWriteback; _dynEntrySize := dynEntrySize |}
        {| _lineWidth := 0; _nEntries := 0; _entrySize := 0; _lineAddrMask := 0; _entryOffsetMask := 0; _entryShift := 0; _byteOffsetMask := 0 |}
        {| _requestId := 0; _set := 0; _way := 0; _readData := false; _requestTime := 0; _replaceLine := false |}
        [] [] 0 true false false false false false 0 false 0 false new_entry false)
    lineWidth p_entrySize.

(** *** Queries *)

Definition entrySize (b : LinefillBuf) : Z := _entrySize (_geo b).
Definition nEntries (b : LinefillBuf) : Z := _nEntries (_geo b).
Definition criticalWordFirst (b : LinefillBuf) : bool := _criticalWordFirst (_cfg b).
Definition get_entry (l : list LinefillBufEntry) (i : Z) : outcome LinefillBufEntry :=
  match l !! Z.to_nat i with Some e => Ret e | None => Undefined end.
Definition lineAddr (b : LinefillBuf) : outcome Z := let! e := get_entry (_entries b) 0 in Ret (addr e).
Definition addr2EntryId (b : LinefillBuf) (a : Z) : Z := shr 64 (Z.land a (_entryOffsetMask (_geo b))) (_entryShift (_geo b)).
Definition addr2Offset (b : LinefillBuf) (a : Z) : Z := Z.land a (_byteOffsetMask (_geo b)).
(** The first [n] entries have their data. *)
Definition all_data (n : Z) (l : list LinefillBufEntry) : bool := forallb hasData (take (Z.to_nat n) l).
Definition loaded (b : LinefillBuf) : bool :=
  negb (_empty b) && (_loaded b || all_data (nEntries b) (_entries b)).
(** [loaded()] is [const] but remembers a positive answer. *)
Definition loaded_cached (b : LinefillBuf) : bool * LinefillBuf :=
  if loaded b then (true, set_loaded b true) else (false, b).
Definition quiet (b : LinefillBuf) : bool := _empty b || _lazyWriteback (_cfg b) && loaded b.
Definition started (b : LinefillBuf) : bool := negb (_empty b) && _started b.
Definition hasEntry (b : LinefillBuf) (a : Z) : outcome bool :=
  if _empty b then Ret false else
  let! l := lineAddr b in Ret (Z.land a (_lineAddrMask (_geo b)) =? l).
Definition buf_hasData (b : LinefillBuf) (a : Z) : outcome bool :=
  let! h := hasEntry b a in
  if h then let! e := get_entry (_entries b) (addr2EntryId b a) in Ret (hasData e) else Ret false.
(** [_data], in which the entries lie one after the other. *)
Definition line_data (b : LinefillBuf) : list Z := mjoin (data <$> _entries b).
Definition data_at (b : LinefillBuf) (a : Z) : option (list Z) :=
  if _withData (_cfg b) then Some (drop (Z.to_nat (addr2Offset b a)) (line_data b)) else None.
Definition criticalWordsLoaded (b : LinefillBuf) : outcome bool :=
  if loaded b then Ret true
  else if criticalWordFirst b then let! e := get_entry (_entries b) (_critical_entry b) in Ret (hasData e)
  else Ret false.

(** The addresses of the entries that are still wanted, in order. *)
Definition criticalAddrs (b : LinefillBuf) : outcome (list Z) :=
  if _empty b || negb (criticalWordFirst b) then Ret [] else
  foldr (λ i r, let! e := get_entry (_entries b) i in let! l := r in Ret (addr e :: l)) (Ret []) (_criticalIds b).

Definition clear (b : LinefillBuf) : LinefillBuf := set_empty b true.
Definition setDirty (b : LinefillBuf) : LinefillBuf := set_dirty b true.
Definition setLocked (b : LinefillBuf) : LinefillBuf := set_locked b true.
Definition clearCriticalWordReceived (b : LinefillBuf) : LinefillBuf := set_criticalWordReceived b false.

(** *** Initialization *)

Definition critical_ids (n ci : Z) : list Z := ci :: seqZ (ci + 1) (n - (ci + 1)) ++ seqZ 0 ci.
Definition addCriticalAddr (b : LinefillBuf) (a : Z) : LinefillBuf :=
  let ci := addr2EntryId b a in
  set_criticalIds b (_criticalIds b ++ critical_ids (nEntries b) ci) ci.

(** The loop over the entries: a request that is already under way is taken over.  The
    state is the list of entries so far, [_hasExtra] and [_requestsRemaining]. *)
Fixpoint init_entries (es : list LinefillBufEntry) (size entry_ea entry_ra : Z) (extra : LinefillBufEntry) (hasExtra : bool) (rem : Z) :
    list LinefillBufEntry * Z :=
  match es with
  | [] => ([], rem)
  | e :: es =>
    let e := entry_init e entry_ea entry_ra in
    let take_over := hasExtra && (entry_ra =? addr extra) && requestSent extra in
    let e := if take_over then LBE (ea e) (addr e) (data e) (hasData e) true (requestId extra) else e in
    let r := init_entries es size (wrap 64 (entry_ea + size)) (wrap 64 (entry_ra + size)) extra
               (if take_over then false else hasExtra) (if take_over then wrap 32 (rem - 1) else rem) in
    (e :: fst r, snd r)
  end.
(** [linefillWidth] is a virtual member of the cache. *)
Definition init (linefillWidth : Z → Z → Z) (b : LinefillBuf) (p_requestId p_ea p_ra set way : Z) (readData : bool)
    (requestTime : Z) (replaceLine : bool) : outcome LinefillBuf :=
  let entry_ea := Z.land p_ea (_lineAddrMask (_geo b)) in
  let entry_ra := Z.land p_ra (_lineAddrMask (_geo b)) in
  let! b := if _dynEntrySize (_cfg b)
            then let cur := linefillWidth p_ea p_ra in
                 if cur =? entrySize b then Ret b else setEntrySize b (_lineWidth (_geo b)) cur
            else Ret b in
  let n := Z.to_nat (nEntries b) in
  if (length (_entries b) <? n)%nat then Undefined else
  let r := init_entries (take n (_entries b)) (entrySize b) entry_ea entry_ra (_extraEntry b) (_hasExtra b) (nEntries b) in
  let req := {| _requestId := p_requestId; _set := set; _way := way; _readData := readData;
                _requestTime := if _streaming (_cfg b) then requestTime else _requestTime (_req b);
                _replaceLine := if _streaming (_cfg b) then replaceLine else _replaceLine (_req b) |} in
  let b := LB (_cfg b) (_geo b) req (fst r ++ drop n (_entries b)) (_criticalIds b) (_critical_entry b)
              false false false false false false (_startTime b) false (snd r) false (_extraEntry b)
              (if _streaming (_cfg b) then false else _streamed b) in
  Ret (if criticalWordFirst b then addCriticalAddr (set_criticalIds b [] (_critical_entry b)) p_ra else b).
Definition DWMask : Z := 7.
Definition setupExtra (b : LinefillBuf) (p_ea p_ra : Z) : bool * LinefillBuf :=
  if _hasExtra b then (false, b) else
  let mask := if criticalWordFirst b then unot 64 DWMask else _lineAddrMask (_geo b) in
  (true, set_extra b true (entry_init (_extraEntry b) (Z.land p_ea mask) (Z.land p_ra mask))).

(** *** Transfers *)

Section Transfers.
Context {M : Type} `{NextMemory M}.

(** Whether to go on, whether data was read, the entry and the memory. *)
Definition loadEntryData (b : LinefillBuf) (e : LinefillBufEntry) (m : M) : bool * bool * LinefillBufEntry * M :=
  if hasData e then (true, false, e, m)
  else if negb (requestSent e) then (false, false, e, m)
  else if readInquire m (requestId e)
  then let r := read m (requestId e) in
       (true, true,
        LBE (ea e) (addr e) (if _withData (_cfg b) then fst r else data e) true (requestSent e) (requestId e), snd r)
  else (false, false, e, m).

(** The loops of [loadData] over entries in some order: whether to go on, whether data was
    read, whether the critical entry was passed, the entries, the memory. *)
Fixpoint load_loop (b : LinefillBuf) (ids : list Z) (es : list LinefillBufEntry) (dataRead received : bool) (m : M) :
    outcome (bool * bool * bool * list LinefillBufEntry * M) :=
  match ids with
  | [] => Ret (true, dataRead, received, es, m)
  | i :: ids =>
    let! e := get_entry es i in
    let '(cont, rd, e, m) := loadEntryData b e m in
    let es := <[Z.to_nat i := e]> es in
    if cont then load_loop b ids es (dataRead || rd) (received || (i =? _critical_entry b)) m
    else Ret (false, dataRead || rd, received, es, m)
  end.
(** Entries whose data has come leave the front of the queue. *)
Fixpoint pop_loaded (ids : list Z) (es : list LinefillBufEntry) : outcome (list Z) :=
  match ids with
  | [] => Ret []
  | i :: ids' => let! e := get_entry es i in if hasData e then pop_loaded ids' es else Ret ids
  end.
Definition all_ids (b : LinefillBuf) : list Z := seqZ 0 (nEntries b).
Definition loadData (b : LinefillBuf) (m : M) : outcome (bool * LinefillBuf * M) :=
  let b := set_criticalWordReceived b false in
  if _empty b then Ret (false, b, m) else
  let! r := if criticalWordFirst b then load_loop b (_criticalIds b) (_entries b) false false m
            else Ret (true, false, false, _entries b, m) in
  let '(cont, dataRead, received, es, m) := r in
  let! ids := if criticalWordFirst b then pop_loaded (_criticalIds b) es else Ret (_criticalIds b) in
  let! r := if cont then load_loop b (all_ids b) es dataRead received m else Ret (cont, dataRead, received, es, m) in
  let '(_, dataRead, _, es, m) := r in
  Ret (dataRead, set_criticalIds (set_entries (set_criticalWordReceived b received) es) ids (_critical_entry b), m).

Definition sendEntryRequest (b : LinefillBuf) (e : LinefillBufEntry) (currTime : Z) (m : M) : bool * LinefillBufEntry * LinefillBuf * M :=
  if hasData e || requestSent e then (true, e, b, m) else
  let kind := if _readData (_req b) then CacheRead else CacheIFetch in
  if sendRequestInquire m kind
  then
    let r := sendReadRequest m kind (ea e) (addr e) (entrySize b) in
    let b := set_requestsRemaining b (wrap 32 (_requestsRemaining b - 1)) in
    let b := if _started b then b else set_started b true currTime in
    (true, LBE (ea e) (addr e) (data e) (hasData e) true (fst r), b, snd r)
  else (false, e, b, m).
Fixpoint send_loop (ids : list Z) (b : LinefillBuf) (currTime : Z) (m : M) : outcome (bool * LinefillBuf * M) :=
  match ids with
  | [] => Ret (true, b, m)
  | i :: ids =>
    let! e := get_entry (_entries b) i in
    let '(cont, e, b, m) := sendEntryRequest b e currTime m in
    let b := set_allsent (set_entries b (<[Z.to_nat i := e]> (_entries b))) (_allsent b && requestSent e) in
    if cont then send_loop ids b currTime m else Ret (false, b, m)
  end.
Definition sendRequest (b : LinefillBuf) (currTime : Z) (m : M) : outcome (bool * LinefillBuf * M) :=
  let b := set_allsent b true in
  if _empty b then Ret (true, b, m) else
  let! r := if criticalWordFirst b then send_loop (_criticalIds b) b currTime m else Ret (true, b, m) in
  let '(cont, b, m) := r in
  if cont then send_loop (all_ids b) b currTime m else Ret (cont, b, m).
Definition sendExtraRequest (b : LinefillBuf) (currTime : Z) (m : M) : bool * LinefillBuf * M :=
  if _hasExtra b && negb (requestSent (_extraEntry b))
  then let '(cont, e, b, m) := sendEntryRequest b (_extraEntry b) currTime m in (cont, set_extra b (_hasExtra b) e, m)
  else (true, b, m).
(** Times are compared as [Timer::isOldOrSameTime] does. *)
Definition readStreamPredicate (b : LinefillBuf) (request_time : Z) : bool * LinefillBuf :=
  let s := _streaming (_cfg b) &&
    ((request_time =? wrap 64 (_requestTime (_req b) + 1)) ||
     negb (_streamed b) && negb (_replaceLine (_req b)) && _started b && (request_time <=? _startTime b)) in
  (s, set_streamed b s).
End Transfers.

(** ** Eviction buffers *)

Record EvictBufEntry : Type := EBE { e_ea : Z; e_addr : Z; e_requestSent : bool; e_dataSent : bool; e_requestId : Z }.
Record EvictBuf : Type := EB {
  ev_withData : bool;
  ev_dynEntrySize : bool;
  ev_lineWidth : Z;
  ev_nEntries : Z;
  ev_entrySize : Z;
  ev_entries : list EvictBufEntry;
  ev_data : list Z;
  ev_hasData : bool;
  ev_requestId : Z
}.
Definition set_evict_entries (b : EvictBuf) (es : list EvictBufEntry) : EvictBuf :=
  EB (ev_withData b) (ev_dynEntrySize b) (ev_lineWidth b) (ev_nEntries b) (ev_entrySize b) es (ev_data b) (ev_hasData b) (ev_requestId b).
Definition evict_clear (b : EvictBuf) : EvictBuf :=
  EB (ev_withData b) (ev_dynEntrySize b) (ev_lineWidth b) (ev_nEntries b) (ev_entrySize b) (ev_entries b) (ev_data b) false (ev_requestId b).
(** The members that [setEntrySize] changes; [new byte_t[n]] is not initialized, which is
    of no account, since [init] fills it. *)
Definition evict_setEntrySize (b : EvictBuf) (lineWidth entrySize : Z) : outcome EvictBuf :=
  if entrySize =? 0 then Undefined else
  let n := lineWidth / entrySize in
  Ret (EB (ev_withData b) (ev_dynEntrySize b) (ev_lineWidth b) n entrySize
         (take (Z.to_nat n) (ev_entries b) ++ replicate (Z.to_nat n - length (ev_entries b)) (EBE 0 0 false false 0))
         (replicate (Z.to_nat (n * entrySize)) 0) (ev_hasData b) (ev_requestId b)).
Definition new_EvictBuf (lineWidth entrySize : Z) (withData dynEntrySize : bool) : outcome EvictBuf :=
  evict_setEntrySize (EB withData dynEntrySize lineWidth 0 0 [] [] false 0) lineWidth entrySize.
(** The entries from the first address on. *)
Fixpoint reset_entries (es : list EvictBufEntry) (size p_ea p_ra : Z) : list EvictBufEntry :=
  match es with
  | [] => []
  | e :: es => EBE p_ea p_ra false false (e_requestId e) :: reset_entries es size (wrap 64 (p_ea + size)) (wrap 64 (p_ra + size))
  end.
Definition evict_init (linefillWidth : Z → Z → Z) (b : EvictBuf) (p_requestId p_ea p_ra : Z) (line : list Z) : outcome EvictBuf :=
  let! b := if ev_dynEntrySize b
            then let cur := linefillWidth p_ea p_ra in
                 if cur =? ev_entrySize b then Ret b else evict_setEntrySize b (ev_lineWidth b) cur
            else Ret b in
  let n := Z.to_nat (ev_nEntries b) in
  if (length (ev_entries b) <? n)%nat then Undefined else
  Ret (EB (ev_withData b) (ev_dynEntrySize b) (ev_lineWidth b) (ev_nEntries b) (ev_entrySize b)
         (reset_entries (take n (ev_entries b)) (ev_entrySize b) p_ea p_ra ++ drop n (ev_entries b))
         (if ev_withData b then take (Z.to_nat (ev_nEntries b * ev_entrySize b)) line else ev_data b) true p_requestId).
Definition evict_empty (b : EvictBuf) : bool := negb (ev_hasData b).
Definition evicted (b : EvictBuf) : bool :=
  negb (evict_empty b) && forallb e_dataSent (take (Z.to_nat (ev_nEntries b)) (ev_entries b)).

Section Evict.
Context {M : Type} `{NextMemory M}.

(** The bytes of an entry, if the buffer holds data. *)
Definition entry_data (b : EvictBuf) (i : nat) : option (list Z) :=
  if ev_withData b
  then Some (take (Z.to_nat (ev_entrySize b)) (drop (i * Z.to_nat (ev_entrySize b)) (ev_data b))) else None.
(** The loops over [n] entries from [i] on. *)
Fixpoint push_loop (n i : nat) (b : EvictBuf) (written : bool) (m : M) : outcome (bool * EvictBuf * M) :=
  match n with
  | O => Ret (written, b, m)
  | S n =>
    match ev_entries b !! i with
    | None => Undefined
    | Some e =>
      let cont := e_requestSent e && (e_dataSent e || writeInquire m (e_requestId e)) in
      if negb (e_dataSent e) && cont
      then push_loop n (S i) (set_evict_entries b (<[i := EBE (e_ea e) (e_addr e) (e_requestSent e) true (e_requestId e)]> (ev_entries b)))
             true (write m (e_requestId e) (entry_data b i))
      else if cont then push_loop n (S i) b written m else Ret (written, b, m)
    end
  end.
Definition pushData (b : EvictBuf) (m : M) : outcome (bool * EvictBuf * M) :=
  if evict_empty b then Ret (false, b, m) else push_loop (Z.to_nat (ev_nEntries b)) 0 b false m.
Fixpoint evict_send_loop (n i : nat) (b : EvictBuf) (m : M) : outcome (bool * EvictBuf * M) :=
  match n with
  | O => Ret (true, b, m)
  | S n =>
    match ev_entries b !! i with
    | None => Undefined
    | Some e =>
      if e_requestSent e then evict_send_loop n (S i) b m
      else if sendRequestInquire m CacheWrite
      then let r := sendWriteRequest m (e_ea e) (e_addr e) (ev_entrySize b) (entry_data b i) in
           evict_send_loop n (S i) (set_evict_entries b (<[i := EBE (e_ea e) (e_addr e) true (e_dataSent e) (fst r)]> (ev_entries b))) (snd r)
      else Ret (false, b, m)
    end
  end.
Definition evict_sendRequest (b : EvictBuf) (m : M) : outcome (bool * EvictBuf * M) :=
  if evict_empty b then Ret (true, b, m) else evict_send_loop (Z.to_nat (ev_nEntries b)) 0 b m.
End Evict.
