(* ===== verification/CacheBuffersCorrect.v ===== *)
(** * A line-fill buffer loads its line

    The laws of the next level of memory, the invariant of a line-fill buffer between
    the calls of a cycle, and what follows for the line that is loaded; the same for the
    eviction buffer. *)
From stdpp Require Import prelude strings gmap relations.
From Stdlib Require Import ZArith Lia.
From S2P Require Import Prelude.
From S2P Require Import BitTwiddles.
From S2P Require Import CacheBuffers.

Local Open Scope Z_scope.

Ltac elem := repeat rewrite ?elem_of_app, ?elem_of_cons in *; tauto.

(** ** What the buffers rely on *)

Inductive transaction : Type := ReadOf (a n : Z) | WriteOf (a n : Z).
(** The bytes of the memory and the transactions that it has accepted and not yet done. *)
Class NextMemoryLaws (M : Type) `{NextMemory M} : Type := {
  contents : M → Z → Z;
  pending : M → Z → option transaction;
  send_read_law : ∀ m k e a n, sendRequestInquire m k = true → let r := sendReadRequest m k e a n in
    pending m (fst r) = None ∧ (∀ j, pending (snd r) j = if decide (j = fst r) then Some (ReadOf a n) else pending m j) ∧
    ∀ x, contents (snd r) x = contents m x;
  read_law : ∀ m id a n, pending m id = Some (ReadOf a n) → readInquire m id = true → let r := read m id in
    fst r = (λ i, contents m (wrap 64 (a + i))) <$> seqZ 0 n ∧
    (∀ j, pending (snd r) j = if decide (j = id) then None else pending m j) ∧ ∀ x, contents (snd r) x = contents m x;
  send_write_law : ∀ m e a n d, sendRequestInquire m CacheWrite = true → let r := sendWriteRequest m e a n d in
    pending m (fst r) = None ∧ (∀ j, pending (snd r) j = if decide (j = fst r) then Some (WriteOf a n) else pending m j) ∧
    ∀ x, contents (snd r) x = contents m x;
  write_law : ∀ m id a n d, pending m id = Some (WriteOf a n) → writeInquire m id = true → Z.of_nat (length d) = n → n ≤ 2 ^ 64 →
    let m' := write m id (Some d) in
    (∀ j, pending m' j = if decide (j = id) then None else pending m j) ∧
    (∀ i, 0 ≤ i < n → Some (contents m' (wrap 64 (a + i))) = d !! Z.to_nat i) ∧
    ∀ x, (∀ i, 0 ≤ i < n → x ≠ wrap 64 (a + i)) → contents m' x = contents m x
}.

Section Bytes.
Context {M : Type} `{NextMemoryLaws M}.
Definition bytes (m : M) (a n : Z) : list Z := (λ i, contents m (wrap 64 (a + i))) <$> seqZ 0 n.
(** What the memory does on its own: it may take and finish transactions of others. *)
Definition evolves (m m' : M) : Prop :=
  (∀ x, contents m' x = contents m x) ∧ ∀ j, is_Some (pending m j) → pending m' j = pending m j.
Lemma bytes_eq m m' a n : (∀ x, contents m' x = contents m x) → bytes m' a n = bytes m a n.
Proof using Type. intros Hc. apply list_fmap_ext. intros _ i _. apply Hc. Qed.
End Bytes.

(** ** The entries of a line-fill buffer *)

Section Entries.
Context {M : Type} `{NextMemoryLaws M}.
(** The address of the line and the size of an entry. *)
Context (withData : bool) (L sz : Z).

Definition entry_addr (i : Z) : Z := wrap 64 (L + i * sz).
Definition is_loaded (m : M) (i : Z) (e : LinefillBufEntry) : Prop :=
  addr e = entry_addr i ∧ hasData e = true ∧ requestSent e = true ∧ (withData = true → data e = bytes m (entry_addr i) sz).
Definition is_pending (m : M) (i : Z) (e : LinefillBufEntry) : Prop :=
  addr e = entry_addr i ∧ hasData e = false ∧ requestSent e = true ∧ pending m (requestId e) = Some (ReadOf (entry_addr i) sz).
Definition is_unsent (i : Z) (e : LinefillBufEntry) : Prop :=
  addr e = entry_addr i ∧ hasData e = false ∧ requestSent e = false.
(** The entries in the order of their requests: those with data, those that wait for it,
    and those that have not been asked for. *)
Record progress (es : list LinefillBufEntry) (m : M) (l1 l2 l3 : list Z) : Prop := {
  pr_nodup : NoDup (l1 ++ l2 ++ l3);
  pr_nonneg : Forall (λ i, 0 ≤ i) (l1 ++ l2 ++ l3);
  pr_loaded : ∀ i, i ∈ l1 → ∃ e, es !! Z.to_nat i = Some e ∧ is_loaded m i e;
  pr_pending : ∀ i, i ∈ l2 → ∃ e, es !! Z.to_nat i = Some e ∧ is_pending m i e;
  pr_unsent : ∀ i, i ∈ l3 → ∃ e, es !! Z.to_nat i = Some e ∧ is_unsent i e;
  pr_ids : ∀ i j e f, i ∈ l2 → j ∈ l2 → es !! Z.to_nat i = Some e → es !! Z.to_nat j = Some f → requestId e = requestId f → i = j;
  pr_width : withData = true → Forall (λ e, length (data e) = Z.to_nat sz) es
}.

Lemma progress_evolves es m m' l1 l2 l3 : evolves m m' → progress es m l1 l2 l3 → progress es m' l1 l2 l3.
Proof using Type.
  intros [Hc Hp] [P1 P2 P3 P4 P5 P6 P7]. split; try done.
  - intros i Hi. destruct (P3 i Hi) as (e & He & A & B & S & C). exists e. split; [done|split; [done|split; [done|split; [done|]]]].
    intros W. rewrite (bytes_eq m) by done. auto.
  - intros i Hi. destruct (P4 i Hi) as (e & He & A & B & C & D). exists e. split; [done|split; [done|split; [done|split; [done|]]]]. by rewrite Hp.
Qed.
Lemma insert_other (es : list LinefillBufEntry) i j e l : Forall (λ i, 0 ≤ i) l → i ∈ l → j ∈ l → i ≠ j →
  <[Z.to_nat i := e]> es !! Z.to_nat j = es !! Z.to_nat j.
Proof using Type.
  intros Hn Hi Hj Hne. rewrite Forall_forall in Hn. apply list_lookup_insert_ne. intros E.
  apply Hne. apply Z2Nat.inj in E; auto.
Qed.

(** The first entry that waits gets its data. *)
Lemma progress_read es m l1 i l2 l3 e e' : progress es m l1 (i :: l2) l3 → es !! Z.to_nat i = Some e →
  is_loaded m i e' → (∀ x, contents (snd (read m (requestId e))) x = contents m x) →
  (∀ j, pending (snd (read m (requestId e))) j = if decide (j = requestId e) then None else pending m j) →
  progress (<[Z.to_nat i := e']> es) (snd (read m (requestId e))) (l1 ++ [i]) l2 l3.
Proof using Type.
  intros [P1 P2 P3 P4 P5 P6 P7] He Hl Hc Hp. pose proof (lookup_lt_Some _ _ _ He) as Hlt.
  assert (∀ j, j ∈ l1 ++ l2 ++ l3 → j ≠ i ∧ <[Z.to_nat i := e']> es !! Z.to_nat j = es !! Z.to_nat j) as Ho.
  { intros j Hj. assert (j ≠ i) as Hne.
    { intros ->. apply NoDup_app in P1 as (_ & Hd & [Hn _]%NoDup_cons). apply elem_of_app in Hj as [Hj|Hj]; [|done].
      apply (Hd i Hj). by left. }
    split; [done|]. apply (insert_other es i j e' _ P2); [elem..|done]. }
  assert (∀ a n, bytes (snd (read m (requestId e))) a n = bytes m a n) as Hb by (intros; by apply bytes_eq).
  split; try (rewrite <- app_assoc; done).
  - intros j [Hj| ->%list_elem_of_singleton]%elem_of_app.
    + destruct (P3 j Hj) as (f & Hf & A & B & S & C). destruct (Ho j) as [_ ->]; [elem|]. exists f.
      split; [done|split; [done|split; [done|split; [done|]]]]. by rewrite Hb.
    + rewrite list_lookup_insert_eq by done. exists e'. split; [done|]. unfold is_loaded. by rewrite Hb.
  - intros j Hj. destruct (P4 j) as (f & Hf & A & B & C & D); [by right|]. destruct (Ho j) as [Hne ->]; [elem|]. exists f.
    split; [done|split; [done|split; [done|split; [done|]]]]. rewrite Hp, decide_False; [done|].
    intros E. apply Hne. apply (P6 j i f e); [by right|by left|done..].
  - intros j Hj. destruct (P5 j Hj) as (f & Hf & Hu). destruct (Ho j) as [_ ->]; [elem|]. by exists f.
  - intros j k f g Hj Hk. destruct (Ho j) as [_ ->]; [elem|]. destruct (Ho k) as [_ ->]; [elem|]. apply P6; by right.
  - intros W. apply Forall_insert; [by apply P7|]. destruct Hl as (_ & _ & _ & Hl). rewrite Hl by done.
    unfold bytes. by rewrite length_fmap, length_seqZ.
Qed.
(** The first entry that has not been asked for is asked for. *)
Lemma progress_send es m m' l1 l2 i l3 e e' : progress es m l1 l2 (i :: l3) → es !! Z.to_nat i = Some e →
  pending m (requestId e') = None → data e' = data e → is_pending m' i e' → (∀ x, contents m' x = contents m x) →
  (∀ j, pending m' j = if decide (j = requestId e') then Some (ReadOf (entry_addr i) sz) else pending m j) →
  progress (<[Z.to_nat i := e']> es) m' l1 (l2 ++ [i]) l3.
Proof using Type.
  intros [P1 P2 P3 P4 P5 P6 P7] He Hn Hd' Hl Hc Hp. pose proof (lookup_lt_Some _ _ _ He) as Hlt.
  assert (∀ j, j ∈ l1 ++ l2 ++ l3 → j ≠ i ∧ <[Z.to_nat i := e']> es !! Z.to_nat j = es !! Z.to_nat j) as Ho.
  { intros j Hj. assert (j ≠ i) as Hne.
    { intros ->. rewrite app_assoc in P1, Hj. apply NoDup_app in P1 as (_ & Hd & [Hni _]%NoDup_cons). apply elem_of_app in Hj as [Hj|Hj]; [|done].
      apply (Hd i Hj). by left. }
    split; [done|]. apply (insert_other es i j e' _ P2); [elem..|done]. }
  assert (∀ a n, bytes m' a n = bytes m a n) as Hb by (intros; by apply bytes_eq).
  split; try (rewrite <- app_assoc; done).
  - intros j Hj. destruct (P3 j Hj) as (f & Hf & A & B & S & C). destruct (Ho j) as [_ ->]; [elem|]. exists f.
    split; [done|split; [done|split; [done|split; [done|]]]]. by rewrite Hb.
  - intros j [Hj| ->%list_elem_of_singleton]%elem_of_app.
    + destruct (P4 j Hj) as (f & Hf & A & B & C & D). destruct (Ho j) as [_ ->]; [elem|]. exists f.
      split; [done|split; [done|split; [done|split; [done|]]]]. rewrite Hp, decide_False; [done|]. congruence.
    + rewrite list_lookup_insert_eq by done. by exists e'.
  - intros j Hj. destruct (P5 j) as (f & Hf & Hu); [by right|]. destruct (Ho j) as [_ ->]; [elem|]. by exists f.
  - assert (∀ j f, j ∈ l2 → es !! Z.to_nat j = Some f → requestId f ≠ requestId e') as Hd.
    { intros j f Hj Hf E. destruct (P4 j Hj) as (f' & Hf' & _ & _ & _ & D). simplify_eq. congruence. }
    intros j k f g [Hj| ->%list_elem_of_singleton]%elem_of_app [Hk| ->%list_elem_of_singleton]%elem_of_app.
    + destruct (Ho j) as [_ ->]; [elem|]. destruct (Ho k) as [_ ->]; [elem|]. by apply P6.
    + destruct (Ho j) as [_ ->]; [elem|]. rewrite list_lookup_insert_eq by done. intros Hf [= <-] E. by destruct (Hd j f Hj Hf).
    + destruct (Ho k) as [_ ->]; [elem|]. rewrite list_lookup_insert_eq by done. intros [= <-] Hg E. by destruct (Hd k g Hk Hg).
    + done.
  - intros W. specialize (P7 W). apply Forall_insert; [done|]. rewrite Hd'. by eapply Forall_lookup_1 in P7.
Qed.
End Entries.

(** ** The loops *)

Section Loops.
Context {M : Type} `{NextMemoryLaws M} (L : Z).

Lemma elem_cons_test (c i : Z) q : (i =? c) || bool_decide (c ∈ q) = bool_decide (c ∈ i :: q).
Proof using Type.
  destruct (Z.eqb_spec i c) as [-> |]; cbn; [by rewrite bool_decide_true by left|].
  apply bool_decide_ext. rewrite elem_of_cons. split; [tauto|by intros [? | ?]].
Qed.
Lemma load_loop_loaded (b : LinefillBuf) q rest es rd rc (m : M) :
  (∀ i, i ∈ q → ∃ e, es !! Z.to_nat i = Some e ∧ hasData e = true) →
  load_loop b (q ++ rest) es rd rc m = load_loop b rest es rd (rc || bool_decide (_critical_entry b ∈ q)) m.
Proof using Type.
  revert rc. induction q as [|i q IH]; intros rc Hq; cbn [app load_loop].
  - by rewrite bool_decide_false, orb_false_r by apply not_elem_of_nil.
  - destruct (Hq i) as (e & He & Hd); [by left|]. unfold get_entry. rewrite He. cbn [obind]. unfold loadEntryData. rewrite Hd.
    rewrite (list_insert_id _ _ _ He), orb_false_r, IH by (intros; apply Hq; by right). by rewrite <- orb_assoc, elem_cons_test.
Qed.
(** A transaction that is none of those which the entries wait for. *)
Definition foreign (es : list LinefillBufEntry) (l2 : list Z) (j : Z) : Prop :=
  ∀ i e, i ∈ l2 → es !! Z.to_nat i = Some e → requestId e ≠ j.
(** A loop over the entries that wait for their data reads the first ones of them. *)
Lemma load_loop_waiting (b : LinefillBuf) l3 l2 l1 es rd rc (m : M) :
  progress (_withData (_cfg b)) L (entrySize b) es m l1 l2 l3 →
  ∃ l2a l2b cont es' m', l2 = l2a ++ l2b ∧
    load_loop b (l2 ++ l3) es rd rc m =
      Ret (cont, rd || negb (bool_decide (l2a = [])), rc || bool_decide (_critical_entry b ∈ l2a), es', m') ∧
    progress (_withData (_cfg b)) L (entrySize b) es' m' (l1 ++ l2a) l2b l3 ∧ length es' = length es ∧
    (∀ x, contents m' x = contents m x) ∧
    (∀ j, foreign es l2 j → pending m' j = pending m j ∧ foreign es' l2b j) ∧ (cont = true → l2b = [] ∧ l3 = []) ∧
    ((∀ m id, readInquire (M := M) m id = true) → l2b = [] ∧ (l3 = [] → cont = true)).
Proof using Type.
  revert l1 es rd rc m. induction l2 as [|i l2 IH]; intros l1 es rd rc m Hp.
  - exists [], []. rewrite (bool_decide_true ([] = [])), bool_decide_false, !orb_false_r by (done || apply not_elem_of_nil).
    destruct l3 as [|j l3]; cbn [app load_loop].
    { exists true, es, m. by rewrite app_nil_r. }
    destruct (pr_unsent _ _ _ _ _ _ _ _ Hp j) as (e & He & _ & Hd & Hs); [by left|].
    unfold get_entry, loadEntryData. rewrite He. cbn [obind]. rewrite Hd, Hs. cbn. rewrite (list_insert_id _ _ _ He), orb_false_r.
    exists false, es, m. by rewrite app_nil_r.
  - cbn [app load_loop]. destruct (pr_pending _ _ _ _ _ _ _ _ Hp i) as (e & He & Ha & Hd & Hs & Hpe); [by left|].
    unfold get_entry. rewrite He. cbn [obind]. unfold loadEntryData. rewrite Hd, Hs. cbn [negb].
    destruct (readInquire m (requestId e)) eqn:Hq.
    + destruct (read_law m _ _ _ Hpe Hq) as (Hr & Hr2 & Hr3).
      set (e' := LBE _ _ _ _ _ _).
      assert (is_loaded (_withData (_cfg b)) L (entrySize b) m i e') as Hl.
      { split; [done|split; [done|split; [done|]]]. intros W. subst e'. cbn. by rewrite W, Hr. }
      destruct (IH _ _ (rd || true) (rc || (i =? _critical_entry b)) _ (progress_read _ _ _ _ _ _ _ _ _ _ _ Hp He Hl Hr3 Hr2))
        as (l2a & l2b & cont & es' & m' & -> & E & Hp' & Hlen & Hc & Hf & Hcont & Hlive).
      exists (i :: l2a), l2b, cont, es', m'. split; [done|]. rewrite E. split_and!.
      * by rewrite <- (orb_assoc rc), elem_cons_test, orb_true_r, (bool_decide_false (i :: l2a = [])), orb_true_r.
      * by rewrite <- app_assoc in Hp'.
      * by rewrite Hlen, length_insert.
      * intros x. by rewrite Hc.
      * intros j Hj. destruct (Hf j) as [-> Hf']; [|split; [|done]].
        { intros k f Hk [(<- & <- & _)|(_ & Hl')]%list_lookup_insert_Some; [apply (Hj i e); [by left|done]|].
          apply (Hj k); [by right|done]. }
        rewrite Hr2, decide_False; [done|]. intros ->. apply (Hj i e); [by left|done|done].
      * done.
      * done.
    + exists [], (i :: l2), false, es, m.
      rewrite (list_insert_id _ _ _ He), (bool_decide_true ([] = [])), bool_decide_false, !orb_false_r, app_nil_r by (done || apply not_elem_of_nil).
      split_and!; [done|done|done|done|done|done|done|]. intros Hall. by rewrite Hall in Hq.
Qed.

(** What sending does not change. *)
Definition keeps (b b' : LinefillBuf) : Prop :=
  _cfg b' = _cfg b ∧ _geo b' = _geo b ∧ _req b' = _req b ∧ _criticalIds b' = _criticalIds b ∧
  _critical_entry b' = _critical_entry b ∧ _empty b' = _empty b ∧ _loaded b' = _loaded b ∧
  _criticalWordReceived b' = _criticalWordReceived b ∧ _hasExtra b' = _hasExtra b ∧ _extraEntry b' = _extraEntry b.
Lemma keeps_trans b b' b'' : keeps b b' → keeps b' b'' → keeps b b''.
Proof using Type. unfold keeps. intuition congruence. Qed.

Lemma send_loop_sent q rest b t (m : M) :
  (∀ i, i ∈ q → ∃ e, _entries b !! Z.to_nat i = Some e ∧ requestSent e = true) →
  send_loop (q ++ rest) b t m = send_loop rest b t m.
Proof using Type.
  induction q as [|i q IH]; intros Hq; [done|]. cbn [app send_loop]. destruct (Hq i) as (e & He & Hs); [by left|].
  unfold get_entry. rewrite He. cbn [obind]. unfold sendEntryRequest. rewrite Hs, orb_true_r, (list_insert_id _ _ _ He), Hs, andb_true_r.
  replace (set_allsent (set_entries b (_entries b)) (_allsent b)) with b by (by destruct b). apply IH. intros. apply Hq. by right.
Qed.
(** A loop over the entries that have not been asked for asks for the first ones of them. *)
Lemma send_loop_unsent l3 l2 l1 b t (m : M) :
  progress (_withData (_cfg b)) L (entrySize b) (_entries b) m l1 l2 l3 →
  ∃ l3a l3b cont b' m', l3 = l3a ++ l3b ∧ send_loop l3 b t m = Ret (cont, b', m') ∧
    progress (_withData (_cfg b)) L (entrySize b) (_entries b') m' l1 (l2 ++ l3a) l3b ∧
    length (_entries b') = length (_entries b) ∧ keeps b b' ∧
    _requestsRemaining b' = (if l3a is [] then _requestsRemaining b else wrap 32 (_requestsRemaining b - Z.of_nat (length l3a))) ∧
    _allsent b' = _allsent b && bool_decide (l3b = []) ∧ cont = bool_decide (l3b = []) ∧
    (∀ x, contents m' x = contents m x) ∧
    (∀ j, is_Some (pending m j) → foreign (_entries b) l2 j → pending m' j = pending m j ∧ foreign (_entries b') (l2 ++ l3a) j) ∧
    ((∀ m k, sendRequestInquire (M := M) m k = true) → l3b = []).
Proof using Type.
  revert l2 b m. induction l3 as [|i l3 IH]; intros l2 b m Hp; cbn [send_loop].
  - exists [], [], true, b, m. rewrite (bool_decide_true ([] = [])), andb_true_r, !app_nil_r by done. split_and!; done.
  - destruct (pr_unsent _ _ _ _ _ _ _ _ Hp i) as (e & He & Ha & Hd & Hs); [by left|].
    unfold get_entry. rewrite He. cbn [obind]. unfold sendEntryRequest. rewrite Hd, Hs. cbn [orb].
    set (kind := if _readData (_req b) then CacheRead else CacheIFetch).
    destruct (sendRequestInquire m kind) eqn:Hq.
    + rewrite Ha. destruct (send_read_law m kind (ea e) (entry_addr L (entrySize b) i) (entrySize b) Hq) as (Hn & Hpe & Hc).
      set (r := sendReadRequest m kind (ea e) (entry_addr L (entrySize b) i) (entrySize b)) in *.
      set (e' := LBE _ _ _ _ _ _).
      set (b1 := set_allsent _ _).
      assert (keeps b b1 ∧ _entries b1 = <[Z.to_nat i := e']> (_entries b) ∧ _allsent b1 = _allsent b ∧
        _requestsRemaining b1 = wrap 32 (_requestsRemaining b - 1)) as (Hk & He1 & Hall & Hrem).
      { subst b1. cbn. destruct (_started b); cbn; by rewrite andb_true_r. }
      destruct (IH (l2 ++ [i]) b1 (snd r)) as (l3a & l3b & cont & b' & m' & -> & E & Hp' & Hlen & Hk' & Hr' & Ha' & Hc' & Hm' & Hf' & Hl').
      { destruct Hk as (-> & Hg & _). unfold entrySize. rewrite Hg, He1. eapply progress_send; [exact Hp|exact He|exact Hn|done| |exact Hc|exact Hpe].
        split_and!; [done|done|done|]. cbn. rewrite Hpe. by rewrite decide_True. }
      exists (i :: l3a), l3b, cont, b', m'. split; [done|]. split; [exact E|].
      destruct Hk as (Hk1 & Hg & Hk3) eqn:Ek. unfold entrySize in Hp'. rewrite Hk1, Hg, <- app_assoc in Hp'. split_and!.
      * exact Hp'.
      * by rewrite Hlen, He1, length_insert.
      * by eapply keeps_trans.
      * rewrite Hr'. cbn [length]. rewrite Hrem. destruct l3a as [|z l3a]; [done|]. rewrite wrap_sub_l. f_equal. lia.
      * by rewrite Ha', Hall.
      * done.
      * intros x. by rewrite Hm', Hc.
      * intros j Hj Hfj. assert (j ≠ fst r) as Hne by (intros ->; rewrite Hn in Hj; by destruct Hj).
        destruct (Hf' j) as [-> Hf2].
        { by rewrite Hpe, decide_False. }
        { intros k f Hin. rewrite He1. intros [(<- & <- & _)|(Hk2 & Hl2)]%list_lookup_insert_Some; [exact (λ E1, Hne (eq_sym E1))|].
          apply elem_of_app in Hin as [Hin| ->%list_elem_of_singleton]; [by apply (Hfj k)|done]. }
        rewrite Hpe, decide_False by done. split; [done|]. by rewrite <- app_assoc in Hf2.
      * done.
    + exists [], (i :: l3), false. do 2 eexists. split; [done|]. split; [done|]. rewrite (list_insert_id _ _ _ He), app_nil_r. cbn. rewrite Hs.
      split_and!; try done. intros Hall. by rewrite Hall in Hq.
Qed.
End Loops.

(** ** A buffer that is being filled *)

Section Filling.
Context {M : Type} `{NextMemoryLaws M} (L : Z) (order : list Z).

(** The extra request is not one of the line's. *)
Definition extra_sent (b : LinefillBuf) : bool := _hasExtra b && requestSent (_extraEntry b).
Definition extra_pending (b : LinefillBuf) (m : M) (l2 : list Z) : Prop :=
  (_hasExtra b = true → hasData (_extraEntry b) = false) ∧
  (extra_sent b = true →
    pending m (requestId (_extraEntry b)) = Some (ReadOf (addr (_extraEntry b)) (entrySize b)) ∧
    foreign (_entries b) l2 (requestId (_extraEntry b))).

Record filling (b : LinefillBuf) (m : M) (l1 l2 l3 : list Z) : Prop := {
  f_order : order = l1 ++ l2 ++ l3;
  f_perm : order ≡ₚ seqZ 0 (nEntries b);
  f_len : Z.of_nat (length (_entries b)) = nEntries b;
  f_small : nEntries b < 2 ^ 32;
  f_progress : progress (_withData (_cfg b)) L (entrySize b) (_entries b) m l1 l2 l3;
  f_nonempty : _empty b = false;
  f_rem : _requestsRemaining b = wrap 32 (Z.of_nat (length l3) - (if extra_sent b then 1 else 0));
  f_ids : if criticalWordFirst b then _criticalIds b = l2 ++ l3 else order = seqZ 0 (nEntries b);
  f_loaded : _loaded b = true → l2 = [] ∧ l3 = [];
  f_extra : extra_pending b m l2
}.

(** What an operation on the line leaves as it is. *)
Definition same_line (b b' : LinefillBuf) : Prop :=
  _cfg b' = _cfg b ∧ _geo b' = _geo b ∧ _critical_entry b' = _critical_entry b.
Lemma pop_loaded_spec es q rest : (∀ i, i ∈ q → ∃ e, es !! Z.to_nat i = Some e ∧ hasData e = true) →
  (match rest with i :: _ => ∃ e, es !! Z.to_nat i = Some e ∧ hasData e = false | [] => True end) →
  pop_loaded (q ++ rest) es = Ret rest.
Proof using Type.
  intros Hq Hr. induction q as [|i q IH]; cbn [app pop_loaded].
  - destruct rest as [|i rest]; [done|]. cbn [pop_loaded]. destruct Hr as (e & He & Hd). unfold get_entry. rewrite He. cbn [obind]. by rewrite Hd.
  - destruct (Hq i) as (e & He & Hd); [by left|]. unfold get_entry. rewrite He. cbn [obind]. rewrite Hd. apply IH. intros. apply Hq. by right.
Qed.
Lemma progress_hasData wd sz es (m : M) l1 l2 l3 i : progress wd L sz es m l1 l2 l3 → i ∈ l1 → ∃ e, es !! Z.to_nat i = Some e ∧ hasData e = true.
Proof using Type. intros Hp Hi. destruct (pr_loaded _ _ _ _ _ _ _ _ Hp i Hi) as (e & He & _ & Hd & _). by exists e. Qed.
Lemma progress_noData wd sz es (m : M) l1 l2 l3 : progress wd L sz es m l1 l2 l3 →
  match l2 ++ l3 with i :: _ => ∃ e, es !! Z.to_nat i = Some e ∧ hasData e = false | [] => True end.
Proof using Type.
  intros Hp. destruct l2 as [|i l2]; cbn.
  - destruct l3 as [|i l3]; [done|]. destruct (pr_unsent _ _ _ _ _ _ _ _ Hp i) as (e & He & _ & Hd & _); [by left|]. by exists e.
  - destruct (pr_pending _ _ _ _ _ _ _ _ Hp i) as (e & He & _ & Hd & _); [by left|]. by exists e.
Qed.
Lemma progress_sent wd sz es (m : M) l1 l2 l3 i : progress wd L sz es m l1 l2 l3 → i ∈ l1 ++ l2 → ∃ e, es !! Z.to_nat i = Some e ∧ requestSent e = true.
Proof using Type.
  intros Hp [Hi|Hi]%elem_of_app.
  - destruct (pr_loaded _ _ _ _ _ _ _ _ Hp i Hi) as (e & He & _ & _ & Hs & _). by exists e.
  - destruct (pr_pending _ _ _ _ _ _ _ _ Hp i Hi) as (e & He & _ & _ & Hs & _). by exists e.
Qed.

(** The state after entries were read. *)
Lemma filling_read b m m' es r l1 l2a l2b l3 : filling b m l1 (l2a ++ l2b) l3 →
  progress (_withData (_cfg b)) L (entrySize b) es m' (l1 ++ l2a) l2b l3 → length es = length (_entries b) →
  (∀ j, foreign (_entries b) (l2a ++ l2b) j → pending m' j = pending m j ∧ foreign es l2b j) →
  filling (set_criticalIds (set_entries (set_criticalWordReceived b r) es)
             (if criticalWordFirst b then l2b ++ l3 else _criticalIds b) (_critical_entry b)) m' (l1 ++ l2a) l2b l3.
Proof using Type.
  intros [F1 F2 F3 F4 F5 F6 F7 F8 F9 [F10 F11]] Hp Hl Hf. split; try done.
  - by rewrite F1, <- !app_assoc.
  - cbn. by rewrite Hl.
  - unfold criticalWordFirst in *. cbn. by destruct (_criticalWordFirst (_cfg b)).
  - intros Hld. apply F9 in Hld as [[_ ->]%app_eq_nil ->]. done.
  - split; [done|]. intros Hx. destruct (F11 Hx) as [Hx1 Hx2]. destruct (Hf _ Hx2) as [Hx3 Hx4]. cbn. by rewrite Hx3.
Qed.
Lemma loadData_filling b m l1 l2 l3 : filling b m l1 l2 l3 →
  ∃ l2a l2b rd b' m', l2 = l2a ++ l2b ∧ loadData b m = Ret (rd, b', m') ∧ filling b' m' (l1 ++ l2a) l2b l3 ∧
    rd = negb (bool_decide (l2a = [])) ∧
    _criticalWordReceived b' = criticalWordFirst b && bool_decide (_critical_entry b ∈ l2a) ∧
    same_line b b' ∧ _allsent b' = _allsent b ∧ (∀ x, contents m' x = contents m x) ∧
    ((∀ m id, readInquire (M := M) m id = true) → l2b = []).
Proof using Type.
  intros F. pose proof F as [F1 F2 F3 F4 F5 F6 F7 F8 F9 F10]. unfold loadData. set (b0 := set_criticalWordReceived b false).
  change (_empty b0) with (_empty b). rewrite F6. change (criticalWordFirst b0) with (criticalWordFirst b).
  change (_criticalIds b0) with (_criticalIds b). change (_entries b0) with (_entries b).
  destruct (load_loop_waiting L b0 l3 l2 l1 (_entries b) false (if criticalWordFirst b then false else bool_decide (_critical_entry b ∈ l1)) m F5)
    as (l2a & l2b & cont & es & m' & -> & E & Hp & Hl & Hc & Hf & Hcont & Hlive).
  pose proof (λ r, filling_read b m m' es r _ _ _ _ F Hp Hl Hf) as Hfill.
  exists l2a, l2b. destruct (criticalWordFirst b) eqn:Ecw.
  - rewrite F8, E. cbn [obind]. rewrite <- app_assoc, (pop_loaded_spec es l2a (l2b ++ l3)); cycle 1.
    { intros i Hi. apply (progress_hasData _ _ _ _ _ _ _ _ Hp). elem. }
    { by eapply progress_noData. }
    cbn [obind]. destruct cont; [|by do 3 eexists; split; [done|]; split; [done|]; split; [apply Hfill|]; split_and!; try done; tauto].
    destruct (Hcont eq_refl) as [-> ->]. rewrite <- (app_nil_r (all_ids b0)), load_loop_loaded.
    + do 3 eexists. split; [done|]. split; [done|]. split; [apply Hfill|]. by split_and!.
    + intros i Hi. apply (progress_hasData _ _ _ _ _ _ _ _ Hp). unfold all_ids in Hi. change (nEntries b0) with (nEntries b) in Hi.
      rewrite <- F2, F1, !app_nil_r in Hi. done.
  - cbn [obind]. change (all_ids b0) with (seqZ 0 (nEntries b)). rewrite <- F8, F1.
    rewrite (load_loop_loaded b0 l1) by (intros i Hi; by apply (progress_hasData _ _ _ _ _ _ _ _ F5)).
    cbn [orb]. change (_critical_entry b0) with (_critical_entry b). rewrite E. cbn [obind].
    do 3 eexists. split; [done|]. split; [done|]. split; [apply Hfill|]. split_and!; try done; tauto.
Qed.

(** The state after entries were asked for. *)
Lemma filling_sent b b' m m' l1 l2 l3a l3b : filling b m l1 l2 (l3a ++ l3b) →
  progress (_withData (_cfg b)) L (entrySize b) (_entries b') m' l1 (l2 ++ l3a) l3b →
  length (_entries b') = length (_entries b) → keeps b b' →
  _requestsRemaining b' = (if l3a is [] then _requestsRemaining b else wrap 32 (_requestsRemaining b - Z.of_nat (length l3a))) →
  (∀ j, is_Some (pending m j) → foreign (_entries b) l2 j → pending m' j = pending m j ∧ foreign (_entries b') (l2 ++ l3a) j) →
  filling b' m' l1 (l2 ++ l3a) l3b.
Proof using Type.
  intros [F1 F2 F3 F4 F5 F6 F7 F8 F9 [F10 F11]] Hp Hl (K1 & K2 & K3 & K4 & K5 & K6 & K7 & K8 & K9 & K10) Hr Hf.
  split; unfold nEntries, entrySize, criticalWordFirst in *; rewrite ?K1, ?K2; try done.
  - by rewrite F1, <- !app_assoc.
  - by rewrite Hl.
  - by rewrite K6.
  - unfold extra_sent in *. rewrite Hr, K9, K10, F7, length_app. destruct l3a; [done|]. rewrite wrap_sub_l. f_equal. cbn [length]. lia.
  - rewrite K4. destruct (_criticalWordFirst _); [by rewrite F8, <- app_assoc|done].
  - rewrite K7. intros Hld. apply F9 in Hld as [-> [-> ->]%app_eq_nil]. done.
  - unfold extra_pending, extra_sent, entrySize in *. rewrite K9, K10, K2. split; [done|]. intros Hx. destruct (F11 Hx) as [Hx1 Hx2].
    destruct (Hf _ ltac:(by eexists) Hx2) as [Hx3 Hx4]. by rewrite Hx3.
Qed.
Lemma sendRequest_filling b t m l1 l2 l3 : filling b m l1 l2 l3 →
  ∃ l3a l3b b' m', l3 = l3a ++ l3b ∧ sendRequest b t m = Ret (bool_decide (l3b = []), b', m') ∧ filling b' m' l1 (l2 ++ l3a) l3b ∧
    same_line b b' ∧ _allsent b' = bool_decide (l3b = []) ∧ (∀ x, contents m' x = contents m x) ∧
    ((∀ m k, sendRequestInquire (M := M) m k = true) → l3b = []).
Proof using Type.
  intros F. pose proof F as [F1 F2 F3 F4 F5 F6 F7 F8 F9 F10]. unfold sendRequest. set (b0 := set_allsent b true).
  change (_empty b0) with (_empty b). rewrite F6. change (criticalWordFirst b0) with (criticalWordFirst b).
  change (_criticalIds b0) with (_criticalIds b).
  destruct (send_loop_unsent L l3 l2 l1 b0 t m F5) as (l3a & l3b & cont & b' & m' & -> & E & Hp & Hl & Hk & Hr & Ha & -> & Hc & Hf & Hlive).
  pose proof (filling_sent b b' m m' _ _ _ _ F Hp Hl Hk Hr Hf) as F'.
  assert (same_line b b') as Hs by (destruct Hk as (K1 & K2 & _ & _ & K5 & _); done).
  exists l3a, l3b, b', m'. split; [done|]. split; [|by split_and!]. destruct (criticalWordFirst b).
  - rewrite F8, send_loop_sent by (intros i Hi; apply (progress_sent _ _ _ _ _ _ _ _ F5); elem).
    rewrite E. cbn [obind]. destruct (bool_decide_reflect (l3b = [])) as [-> |]; [|done].
    rewrite <- (app_nil_r (all_ids b')), send_loop_sent; [done|].
    intros i Hi. apply (progress_sent _ _ _ _ _ _ _ _ Hp). unfold all_ids in Hi. destruct F' as [G1 G2]. rewrite <- G2, G1, app_nil_r in Hi. done.
  - cbn [obind]. change (all_ids b0) with (seqZ 0 (nEntries b)). rewrite <- F8, F1, app_assoc.
    rewrite send_loop_sent by (intros i Hi; by apply (progress_sent _ _ _ _ _ _ _ _ F5)). done.
Qed.

(** *** The other operations *)

Lemma evolves_filling b m m' l1 l2 l3 : evolves m m' → filling b m l1 l2 l3 → filling b m' l1 l2 l3.
Proof using Type.
  intros He [F1 F2 F3 F4 F5 F6 F7 F8 F9 [F10 F11]]. split; try done; [by eapply progress_evolves|].
  split; [done|]. intros Hx. destruct (F11 Hx) as [Hp Hf]. split; [|done]. destruct He as [_ He]. rewrite He; [done|by eexists].
Qed.
Lemma loaded_filling b m l1 l2 l3 : filling b m l1 l2 l3 → loaded b = bool_decide (l2 ++ l3 = []).
Proof using Type.
  intros [F1 F2 F3 F4 F5 F6 F7 F8 F9 F10]. unfold loaded. rewrite F6. cbn [negb andb].
  destruct (_loaded b); [by destruct (F9 eq_refl) as [-> ->]|]. cbn [orb]. unfold all_data. rewrite take_ge by lia.
  case_bool_decide as Hl.
  - apply app_eq_nil in Hl as [-> ->]. apply forallb_forall. intros e He. apply list_elem_of_In, list_elem_of_lookup in He as [k Hk].
    assert (Z.of_nat k ∈ l1) as Hin.
    { rewrite <- (app_nil_r l1). change [] with ([] ++ [] : list Z). rewrite <- F1, F2. apply elem_of_seqZ.
      apply lookup_lt_Some in Hk. lia. }
    destruct (progress_hasData _ _ _ _ _ _ _ _ F5 Hin) as (e' & He' & Hd). rewrite Nat2Z.id in He'. by simplify_eq.
  - apply not_true_is_false. intros Hall. rewrite forallb_forall in Hall.
    pose proof (progress_noData _ _ _ _ _ _ _ F5) as Hn. destruct (l2 ++ l3) as [|i l]; [done|]. destruct Hn as (e & He & Hd).
    rewrite Hall in Hd; [done|]. by eapply list_elem_of_In, list_elem_of_lookup_2.
Qed.
Lemma loaded_cached_filling b m l1 l2 l3 : filling b m l1 l2 l3 → filling (snd (loaded_cached b)) m l1 l2 l3.
Proof using Type.
  intros F. unfold loaded_cached. pose proof (loaded_filling _ _ _ _ _ F) as E. destruct (loaded b); [|done].
  destruct F as [F1 F2 F3 F4 F5 F6 F7 F8 F9 F10]. split; try done. intros _. symmetry in E. by apply bool_decide_eq_true, app_eq_nil in E.
Qed.
Lemma setupExtra_filling b p_ea p_ra m l1 l2 l3 : filling b m l1 l2 l3 → filling (snd (setupExtra b p_ea p_ra)) m l1 l2 l3.
Proof using Type.
  intros F. unfold setupExtra. destruct (_hasExtra b) eqn:Ex; [done|].
  destruct F as [F1 F2 F3 F4 F5 F6 F7 F8 F9 F10]. split; try done. unfold extra_sent in *. cbn. rewrite Ex in F7. done.
Qed.
Lemma sendExtraRequest_filling b t m l1 l2 l3 : filling b m l1 l2 l3 →
  let r := sendExtraRequest b t m in
  filling (snd (fst r)) (snd r) l1 l2 l3 ∧ same_line b (snd (fst r)) ∧ (∀ x, contents (snd r) x = contents m x).
Proof using Type.
  intros F. unfold sendExtraRequest. destruct (_hasExtra b) eqn:Ex; cbn [andb]; [|done].
  destruct (requestSent (_extraEntry b)) eqn:Es; cbn [negb]; [done|].
  pose proof F as [F1 F2 F3 F4 F5 F6 F7 F8 F9 [F10 F11]]. unfold sendEntryRequest. rewrite (F10 Ex), Es. cbn [orb].
  set (kind := if _readData (_req b) then CacheRead else CacheIFetch). set (x := _extraEntry b) in *.
  destruct (sendRequestInquire m kind) eqn:Hq.
  - destruct (send_read_law m kind (ea x) (addr x) (entrySize b) Hq) as (Hn & Hpe & Hc).
    set (r := sendReadRequest m kind (ea x) (addr x) (entrySize b)) in *. cbn [fst snd].
    assert (evolves m (snd r)) as Hev.
    { split; [done|]. intros j Hj. rewrite Hpe, decide_False; [done|]. intros ->. rewrite Hn in Hj. by destruct Hj. }
    set (b1 := set_requestsRemaining b (wrap 32 (_requestsRemaining b - 1))).
    set (b2 := if _started b1 then b1 else set_started b1 true t).
    set (e' := LBE _ _ _ _ _ _).
    assert (keeps b b2 ∧ _entries b2 = _entries b ∧ _requestsRemaining b2 = wrap 32 (_requestsRemaining b - 1)) as (K & Ken & Kr).
    { subst b2. by destruct (_started b1). }
    clearbody b2. destruct K as (K1 & K2 & K3 & K4 & K5 & K6 & K7 & K8 & K9 & K10).
    split; [|split; [split_and!; cbn; congruence|done]]. split; unfold nEntries, entrySize, criticalWordFirst in *; cbn; rewrite ?K1, ?K2, ?K4, ?K6, ?K7, ?Ken; try done.
    + by eapply progress_evolves.
    + rewrite Kr, F7, wrap_sub_l. unfold extra_sent. cbn. rewrite K9, Ex. fold x. rewrite Es. cbn. f_equal. lia.
    + split; [done|]. intros _. cbn. unfold entrySize. cbn. rewrite Hpe, K2, Ken, decide_True by done. split; [done|].
      intros i e Hi He E. destruct (pr_pending _ _ _ _ _ _ _ _ F5 i Hi) as (e2 & He2 & _ & _ & _ & Hp2). simplify_eq. congruence.
  - cbn [fst snd]. replace (set_extra b (_hasExtra b) x) with b by (by destruct b). done.
Qed.
End Filling.

(** ** A memory that is always ready

    It shows that the laws can hold: requests are numbered, and served at once. *)

Record ReadyMemory : Type := RM { rm_bytes : Z → Z; rm_log : list (option transaction) }.
Definition rm_pending (m : ReadyMemory) (j : Z) : option transaction :=
  if 0 <=? j then mjoin (rm_log m !! Z.to_nat j) else None.
Definition rm_send (m : ReadyMemory) (t : transaction) : Z * ReadyMemory :=
  (Z.of_nat (length (rm_log m)), RM (rm_bytes m) (rm_log m ++ [Some t])).
Definition rm_finish (m : ReadyMemory) (id : Z) : list (option transaction) := <[Z.to_nat id := None]> (rm_log m).
Definition rm_store (f : Z → Z) (a : Z) (d : list Z) (x : Z) : Z :=
  if wrap 64 x =? x then default (f x) (d !! Z.to_nat (wrap 64 (x - a))) else f x.
#[export] Instance ready_memory : NextMemory ReadyMemory := {|
  sendRequestInquire _ _ := true;
  sendReadRequest m _ _ a n := rm_send m (ReadOf a n);
  readInquire _ _ := true;
  read m id := match rm_pending m id with
               | Some (ReadOf a n) => ((λ i, rm_bytes m (wrap 64 (a + i))) <$> seqZ 0 n, RM (rm_bytes m) (rm_finish m id))
               | _ => ([], m) end;
  sendWriteRequest m _ a n _ := rm_send m (WriteOf a n);
  writeInquire _ _ := true;
  write m id d := match rm_pending m id, d with
                  | Some (WriteOf a n), Some d => RM (rm_store (rm_bytes m) a d) (rm_finish m id)
                  | _, _ => m end
|}.
Lemma rm_send_law m t : rm_pending m (fst (rm_send m t)) = None ∧
  ∀ j, rm_pending (snd (rm_send m t)) j = if decide (j = fst (rm_send m t)) then Some t else rm_pending m j.
Proof.
  unfold rm_pending. cbn [rm_send fst snd rm_log]. split.
  - destruct (0 <=? _); [|done]. by rewrite lookup_ge_None_2 by lia.
  - intros j. destruct (Z.leb_spec 0 j) as [Hj|Hj]; [|by rewrite decide_False by lia]. destruct (decide (j = _)) as [-> |Hne].
    + by rewrite Nat2Z.id, list_lookup_middle.
    + destruct (Nat.lt_ge_cases (Z.to_nat j) (length (rm_log m))) as [Hlt|Hge]; [by rewrite lookup_app_l|].
      rewrite !lookup_ge_None_2; [done|lia|]. rewrite length_app. cbn. lia.
Qed.
Lemma rm_finish_law m id t f : rm_pending m id = Some t →
  ∀ j, rm_pending (RM f (rm_finish m id)) j = if decide (j = id) then None else rm_pending m j.
Proof.
  unfold rm_pending, rm_finish. cbn [rm_log]. destruct (Z.leb_spec 0 id) as [Hid|]; [|done]. intros Hp j.
  destruct (Z.leb_spec 0 j) as [Hj|Hj]; [|by destruct (decide (j = id))]. destruct (decide (j = id)) as [-> |Hne].
  - destruct (rm_log m !! Z.to_nat id) eqn:E; [|done]. by rewrite list_lookup_insert_eq by (by eapply lookup_lt_Some).
  - by rewrite list_lookup_insert_ne by lia.
Qed.
#[export, refine] Instance ready_memory_laws : NextMemoryLaws ReadyMemory := {| contents := rm_bytes; pending := rm_pending |}.
Proof.
  - intros m k e a n _. cbn. destruct (rm_send_law m (ReadOf a n)). done.
  - intros m id a n Hp _. cbn. rewrite Hp. cbn. split; [done|]. split; [|done]. by eapply rm_finish_law.
  - intros m e a n d _. cbn. destruct (rm_send_law m (WriteOf a n)). done.
  - intros m id a n d Hp _ Hl Hn. cbn. rewrite Hp. cbn. split; [by eapply rm_finish_law|]. unfold rm_store. split.
    + intros i Hi. rewrite wrap_wrap, Z.eqb_refl, wrap_sub_l. replace (a + i - a) with i by lia. rewrite (wrap_small 64 i) by (unfold uint; lia).
      by destruct (lookup_lt_is_Some_2 d (Z.to_nat i)) as [v ->]; [lia|].
    + intros x Hx. destruct (Z.eqb_spec (wrap 64 x) x) as [E|]; [|done]. pose proof (uint_wrap 64 (x - a) ltac:(lia)) as Hu.
      rewrite lookup_ge_None_2; [done|]. destruct (Nat.lt_ge_cases (Z.to_nat (wrap 64 (x - a))) (length d)) as [Hlt|]; [|done].
      destruct (Hx (wrap 64 (x - a))); [unfold uint in Hu; lia|]. rewrite wrap_add_r. replace (a + (x - a)) with x by lia. done.
Defined.
