(* ===== verification/CacheBuffersTheorems.v ===== *)
(** * Line fills and evictions: the theorems

    A line fill from its start to the line: [init] puts the buffer in the invariant of
    CacheBuffersCorrect.v, and every sequence of the buffer's operations and of the next
    level's own steps keeps it. *)
From stdpp Require Import prelude strings gmap relations.
From Stdlib Require Import ZArith Lia.
From S2P Require Import Prelude.
From S2P Require Import BitTwiddles.
From S2P Require Import CacheBuffers.
From S2P Require Import CacheBuffersCorrect.

Local Open Scope Z_scope.

(** ** Geometry *)

(** Lines of [2 ^ a] bytes in entries of [2 ^ s]. *)
Definition wide (es : list LinefillBufEntry) (n : Z) : Prop := Forall (λ l : list Z, length l = Z.to_nat n) (data <$> es).
Definition sized (b : LinefillBuf) (a s : Z) : Prop :=
  0 ≤ s ≤ a ∧ a ≤ 31 ∧ geometry (2 ^ a) (2 ^ s) = Ret (_geo b) ∧ Z.of_nat (length (_entries b)) = 2 ^ (a - s) ∧
  (_withData (_cfg b) = true → wide (_entries b) (2 ^ s)).

Lemma pow2_div a s : 0 ≤ s ≤ a → 2 ^ a / 2 ^ s = 2 ^ (a - s).
Proof. intros Hs. symmetry. apply Z.pow_sub_r; lia. Qed.
Lemma pow2_le_31 a : a ≤ 31 → 2 ^ a ≤ 2 ^ 31.
Proof. intros Ha. apply Z.pow_le_mono_r; lia. Qed.
Lemma ones_mask a : 0 ≤ a → 2 ^ a - 1 = Z.ones a.
Proof. intros Ha. rewrite Z.ones_equiv. lia. Qed.
Lemma uint_ones a : 0 ≤ a ≤ 31 → uint 64 (Z.ones a).
Proof. intros Ha. pose proof (pow2_pos a). pose proof (pow2_le_31 a). rewrite Z.ones_equiv. unfold uint. lia. Qed.
Lemma land_high a x : 0 ≤ a ≤ 31 → uint 64 x → Z.land x (unot 64 (Z.ones a)) = x / 2 ^ a * 2 ^ a.
Proof. intros Ha Hx. unfold unot. bitblast. Qed.
Lemma land_offset a s x : 0 ≤ s ≤ a → a ≤ 31 → uint 64 x →
  shr 64 (Z.land x (Z.land (unot 64 (unot 64 (Z.ones a))) (unot 64 (Z.ones s)))) s = x mod 2 ^ a / 2 ^ s.
Proof. intros Ha Hs Hx. change (x mod 2 ^ a) with (wrap a x). rewrite shr_spec by lia. unfold unot. bitblast. Qed.
(** The address of the line of [x]. *)
Definition line_of (a x : Z) : Z := x / 2 ^ a * 2 ^ a.
Lemma geometry_pow2 a s : 0 ≤ s ≤ a → a ≤ 31 → geometry (2 ^ a) (2 ^ s) = Ret
  {| _lineWidth := 2 ^ a; _entrySize := 2 ^ s; _nEntries := 2 ^ (a - s); _lineAddrMask := unot 64 (Z.ones a);
     _entryOffsetMask := Z.land (unot 64 (unot 64 (Z.ones a))) (unot 64 (Z.ones s)); _entryShift := s;
     _byteOffsetMask := unot 64 (unot 64 (Z.ones a)) |}.
Proof.
  intros Hs Ha. pose proof (pow2_pos s). pose proof (pow2_pos a). pose proof (pow2_le_31 a). pose proof (pow2_le_31 s). unfold geometry.
  destruct (Z.eqb_spec (2 ^ s) 0) as [E|_]; [lia|]. rewrite pow2_div, ctz_pow2 by lia.
  rewrite (wrap_small 32 (2 ^ s - 1)), (wrap_small 64 (2 ^ a - 1)), !ones_mask by (unfold uint; lia). done.
Qed.
Lemma sized_geometry b a s : sized b a s →
  nEntries b = 2 ^ (a - s) ∧ entrySize b = 2 ^ s ∧ _lineWidth (_geo b) = 2 ^ a ∧
  ∀ x, uint 64 x → Z.land x (_lineAddrMask (_geo b)) = line_of a x ∧ addr2EntryId b x = x mod 2 ^ a / 2 ^ s ∧
    addr2Offset b x = x mod 2 ^ a.
Proof.
  intros (Hs & Ha & Hg & _). rewrite geometry_pow2 in Hg by done. injection Hg as Hg.
  unfold nEntries, entrySize, addr2EntryId, addr2Offset. rewrite <- Hg. cbn. split_and!; [done..|]. intros x Hx.
  split_and!; [apply land_high; [lia|done]|apply land_offset; [lia|lia|done]|]. change (x mod 2 ^ a) with (wrap a x). unfold unot. bitblast.
Qed.
Lemma length_resize l n : length (resize l n) = Z.to_nat n.
Proof. unfold resize. rewrite length_app, length_take, length_replicate. lia. Qed.
Lemma setEntrySize_sized b a s : 0 ≤ s ≤ a → a ≤ 31 →
  ∃ b', setEntrySize b (2 ^ a) (2 ^ s) = Ret b' ∧ sized b' a s ∧ _cfg b' = _cfg b ∧ _hasExtra b' = _hasExtra b ∧ _extraEntry b' = _extraEntry b.
Proof.
  intros Hs Ha. unfold setEntrySize. rewrite geometry_pow2 by done. cbn [obind]. eexists. split; [done|]. split_and!; try done.
  unfold sized. split_and!; [lia..|by apply geometry_pow2| |].
  - pose proof (pow2_pos (a - s)). cbn. destruct (_withData (_cfg b)); rewrite ?length_fmap, length_resize; lia.
  - cbn. intros ->. unfold wide. rewrite <- list_fmap_compose. apply Forall_fmap, Forall_true. intros e. cbn. apply length_replicate.
Qed.

(** ** Initialization *)

Definition take_over (x e : LinefillBufEntry) : LinefillBufEntry := LBE (ea e) (addr e) (data e) (hasData e) true (requestId x).

Lemma next_addr ra size i : wrap 64 (wrap 64 (ra + size) + Z.of_nat i * size) = wrap 64 (ra + Z.of_nat (S i) * size).
Proof. rewrite wrap_add_l. f_equal. lia. Qed.
Lemma init_entries_miss es size e r x hx rem :
  (∀ i, (i < length es)%nat → hx && (wrap 64 (r + Z.of_nat i * size) =? addr x) && requestSent x = false) → uint 64 r →
  init_entries es size e r x hx rem = (fst (init_entries es size e r x false rem), rem).
Proof.
  revert e r. induction es as [|y es IH]; intros e r Hno Hr; [done|]. cbn [init_entries fst snd].
  pose proof (Hno 0%nat ltac:(cbn; lia)) as H0. rewrite Z.mul_0_l, Z.add_0_r, (wrap_small 64 r) in H0 by done. rewrite H0.
  cbn [andb]. rewrite IH; [done| |by apply uint_wrap]. intros i Hi. rewrite next_addr. apply Hno. cbn. lia.
Qed.
Lemma init_entries_rem es size e r x rem rem' :
  fst (init_entries es size e r x false rem) = fst (init_entries es size e r x false rem').
Proof. revert e r. induction es as [|y es IH]; intros e r; [done|]. cbn [init_entries fst andb]. by rewrite (IH _ _). Qed.
Lemma init_entries_hit es size e r x rem k : (k < length es)%nat → uint 64 r → requestSent x = true →
  (∀ j, (j < k)%nat → wrap 64 (r + Z.of_nat j * size) ≠ addr x) → wrap 64 (r + Z.of_nat k * size) = addr x →
  init_entries es size e r x true rem = (alter (take_over x) k (fst (init_entries es size e r x false rem)), wrap 32 (rem - 1)).
Proof.
  revert e r k. induction es as [|y es IH]; intros e r k Hk Hr Hx Hno Hhit; [cbn in Hk; lia|]. cbn [init_entries fst snd andb]. rewrite Hx.
  destruct k as [|k].
  - rewrite Z.mul_0_l, Z.add_0_r, wrap_small in Hhit by done. rewrite Hhit, Z.eqb_refl. cbn [andb].
    rewrite init_entries_miss by (try apply uint_wrap; done). cbn. f_equal. f_equal. apply init_entries_rem.
  - pose proof (Hno 0%nat ltac:(lia)) as H0. rewrite Z.mul_0_l, Z.add_0_r, wrap_small in H0 by done.
    rewrite (proj2 (Z.eqb_neq _ _) H0). cbn [andb]. rewrite (IH _ _ k); [done|cbn in Hk; lia|by apply uint_wrap|done| |by rewrite next_addr].
    intros j Hj. rewrite next_addr. apply Hno. lia.
Qed.
Lemma init_entries_plain es size e r x rem : uint 64 r →
  let l := fst (init_entries es size e r x false rem) in
  length l = length es ∧ ∀ i y, es !! i = Some y → ∃ e', l !! i = Some (entry_init y e' (wrap 64 (r + Z.of_nat i * size))).
Proof.
  cbn. revert e r rem. induction es as [|z es IH]; intros e r rem Hr; [done|]. cbn [init_entries fst snd length andb].
  destruct (IH (wrap 64 (e + size)) (wrap 64 (r + size)) rem ltac:(by apply uint_wrap)) as [Hl Hi]. split; [by rewrite Hl|].
  intros [|i] y Hy.
  - cbn in Hy. injection Hy as ->. rewrite Z.mul_0_l, Z.add_0_r, (wrap_small 64 r) by done. by exists e.
  - destruct (Hi i y Hy) as [e' He']. rewrite next_addr in He'. by exists e'.
Qed.
Lemma init_entries_data es size e r x hx rem : data <$> fst (init_entries es size e r x hx rem) = data <$> es.
Proof.
  revert e r hx rem. induction es as [|y es IH]; intros e r hx rem; [done|]. cbn [init_entries fst snd]. rewrite !fmap_cons, IH.
  by destruct (hx && (r =? addr x) && requestSent x).
Qed.

(** The order in which the entries are asked for. *)
Definition fill_order (b : LinefillBuf) (p_ra : Z) : list Z :=
  if criticalWordFirst b then critical_ids (nEntries b) (addr2EntryId b p_ra) else seqZ 0 (nEntries b).
Lemma critical_ids_perm n ci : 0 ≤ ci < n → critical_ids n ci ≡ₚ seqZ 0 n.
Proof.
  intros Hc. replace n with (ci + (n - ci)) at 2 by lia. rewrite seqZ_app, (seqZ_cons (0 + ci)) by lia. unfold critical_ids.
  replace (Z.succ (0 + ci)) with (ci + 1) by lia. replace (Z.pred (n - ci)) with (n - (ci + 1)) by lia.
  rewrite Z.add_0_l. rewrite (Permutation_app_comm (seqZ 0 ci)). done.
Qed.
Lemma mod_div_bound a s x : 0 ≤ s ≤ a → 0 ≤ x mod 2 ^ a / 2 ^ s < 2 ^ (a - s).
Proof.
  intros Hs. pose proof (pow2_pos s). pose proof (pow2_pos a). pose proof (Z.mod_pos_bound x (2 ^ a)).
  split; [apply Z.div_pos; lia|]. apply Z.div_lt_upper_bound; [lia|]. rewrite <- Z.pow_add_r by lia. replace (s + (a - s)) with a by lia. lia.
Qed.
Lemma entry_addr_line a s x i : 0 ≤ s ≤ a → a ≤ 31 → uint 64 x → 0 ≤ i < 2 ^ (a - s) →
  entry_addr (line_of a x) (2 ^ s) i = line_of a x + i * 2 ^ s.
Proof.
  intros Hs Ha Hx Hi. apply wrap_small. unfold line_of. pose proof (pow2_pos s). pose proof (pow2_pos a).
  assert (0 ≤ x / 2 ^ a ≤ 2 ^ (64 - a) - 1) as Hq.
  { split; [apply Z.div_pos; unfold uint in Hx; lia|]. apply Z.lt_le_pred, Z.div_lt_upper_bound; [lia|]. rewrite <- Z.pow_add_r by lia.
    replace (a + (64 - a)) with 64 by lia. unfold uint in Hx. lia. }
  assert (2 ^ 64 = 2 ^ (64 - a) * 2 ^ a) as E64 by (rewrite <- Z.pow_add_r by lia; f_equal; lia).
  assert (2 ^ a = 2 ^ (a - s) * 2 ^ s) as E by (rewrite <- Z.pow_add_r by lia; f_equal; lia).
  assert (0 ≤ i * 2 ^ s) by nia. assert (i * 2 ^ s < 2 ^ a) by nia. unfold uint. rewrite E64. nia.
Qed.

Section Start.
Context {M : Type} `{NextMemoryLaws M}.

Lemma progress_start wd L sz es (m : M) order n : order ≡ₚ seqZ 0 n → (wd = true → wide es sz) →
  (∀ i, 0 ≤ i < n → ∃ e, es !! Z.to_nat i = Some e ∧ is_unsent L sz i e) → progress wd L sz es m [] [] order.
Proof using Type.
  intros Hp Hw Hu. split; cbn [app]; try (by intros ? ?%not_elem_of_nil).
  - rewrite Hp. apply NoDup_seqZ.
  - rewrite Hp. apply Forall_forall. intros i Hi%elem_of_seqZ. lia.
  - intros i Hi. rewrite Hp in Hi. apply elem_of_seqZ in Hi. apply Hu. lia.
  - intros i j e f Hi%not_elem_of_nil. done.
  - intros W. apply Hw in W. by apply Forall_fmap in W.
Qed.
Lemma progress_take_over wd L sz es x (m : M) i rest : progress wd L sz es m [] [] (i :: rest) →
  pending m (requestId x) = Some (ReadOf (entry_addr L sz i) sz) → progress wd L sz (alter (take_over x) (Z.to_nat i) es) m [] [i] rest.
Proof using Type.
  intros [P1 P2 P3 P4 P5 P6 P7] Hx. split; cbn [app] in *; try done; try (by intros ? ?%not_elem_of_nil).
  - intros j ->%list_elem_of_singleton. destruct (P5 i) as (e & He & A & B & C); [by left|]. exists (take_over x e).
    rewrite list_lookup_alter_eq, He. done.
  - intros j Hj. destruct (P5 j) as (e & He & Hu); [by right|]. exists e. split; [|done]. rewrite list_lookup_alter_ne; [done|].
    intros E. apply NoDup_cons in P1 as [Hn _]. rewrite Forall_forall in P2. apply Z2Nat.inj in E; [by subst j|apply P2; by left|apply P2; by right].
  - by intros j k e f ->%list_elem_of_singleton ->%list_elem_of_singleton.
  - intros W. by apply Forall_alter; [apply P7|].
Qed.

(** The entry that a fill asks for first. *)
Definition first_entry (b : LinefillBuf) (a s p_ra : Z) : Z := if criticalWordFirst b then p_ra mod 2 ^ a / 2 ^ s else 0.
(** A buffer whose next line is that of [p_ra], in entries of [2 ^ s] bytes.  If an
    extra request was sent for an entry of that line, it was for the entry that the
    fill asks for first, and it is pending with the width of the entries. *)
Record fillable (linefillWidth : Z → Z → Z) (b : LinefillBuf) (a s p_ea p_ra : Z) (m : M) : Prop := {
  i_sized : ∃ s0, sized b a s0;
  i_width : (if _dynEntrySize (_cfg b) then linefillWidth p_ea p_ra else entrySize b) = 2 ^ s;
  i_size : 0 ≤ s ≤ a;
  i_addr : uint 64 p_ra;
  i_extra : extra_sent b = true → ∀ i, 0 ≤ i < 2 ^ (a - s) → addr (_extraEntry b) = line_of a p_ra + i * 2 ^ s →
    i = first_entry b a s p_ra ∧ pending m (requestId (_extraEntry b)) = Some (ReadOf (addr (_extraEntry b)) (2 ^ s))
}.
Lemma resized linefillWidth b a s p_ea p_ra m : fillable linefillWidth b a s p_ea p_ra m →
  ∃ b1, (if _dynEntrySize (_cfg b)
         then let cur := linefillWidth p_ea p_ra in
              if cur =? entrySize b then Ret b else setEntrySize b (_lineWidth (_geo b)) cur
         else Ret b) = Ret b1 ∧
    sized b1 a s ∧ _cfg b1 = _cfg b ∧ _hasExtra b1 = _hasExtra b ∧ _extraEntry b1 = _extraEntry b.
Proof using Type.
  intros [[s0 I1] I2 I3 I4 I5]. pose proof I1 as (Hs0 & Ha & _). destruct (sized_geometry _ _ _ I1) as (_ & G2 & G3 & _).
  assert (2 ^ s = 2 ^ s0 → s = s0) as Hinj by (intros E; apply Z.pow_inj_r in E; lia).
  rewrite G3. cbv zeta. destruct (_dynEntrySize (_cfg b)).
  - rewrite I2. destruct (Z.eqb_spec (2 ^ s) (entrySize b)) as [E|E]; [|by apply setEntrySize_sized].
    exists b. rewrite G2 in E. by rewrite (Hinj E).
  - exists b. rewrite G2 in I2. by rewrite (Hinj (eq_sym I2)).
Qed.
(** The extra request that [setupExtra] makes for the address of the next fill is for
    its first entry, if entries have at least 8 bytes where the critical word comes
    first. *)
Lemma extra_first b a s p_ra i : sized b a s → uint 64 p_ra → (criticalWordFirst b = true → 3 ≤ s) → 0 ≤ i < 2 ^ (a - s) →
  Z.land p_ra (if criticalWordFirst b then unot 64 DWMask else _lineAddrMask (_geo b)) = line_of a p_ra + i * 2 ^ s → i = first_entry b a s p_ra.
Proof using Type.
  intros Hsz Hp H3 Hi Hx. pose proof Hsz as (Hs & Ha & _). destruct (sized_geometry _ _ _ Hsz) as (_ & _ & _ & G4).
  destruct (G4 p_ra Hp) as (G5 & _). unfold first_entry. pose proof (pow2_pos s). pose proof (pow2_pos a).
  pose proof (Z.div_mod p_ra (2 ^ a) ltac:(lia)) as Hdm. pose proof (Z.mod_pos_bound p_ra (2 ^ a) ltac:(lia)).
  destruct (criticalWordFirst b).
  - change DWMask with (Z.ones 3) in Hx. rewrite land_high in Hx by (lia || done).
    apply (Z.div_unique _ _ _ (p_ra mod 2 ^ a - i * 2 ^ s)); [|lia]. left. unfold line_of in Hx.
    pose proof (Z.div_mod p_ra (2 ^ 3) ltac:(lia)). pose proof (Z.mod_pos_bound p_ra (2 ^ 3) ltac:(lia)).
    assert (2 ^ 3 ≤ 2 ^ s) by (apply Z.pow_le_mono_r; auto with lia). lia.
  - rewrite G5 in Hx. nia.
Qed.
Lemma fill_order_first b a s p_ra : sized b a s → uint 64 p_ra → fill_order b p_ra !! 0%nat = Some (first_entry b a s p_ra).
Proof using Type.
  intros Hsz Hp. destruct (sized_geometry _ _ _ Hsz) as (G1 & _ & _ & G4). destruct (G4 p_ra Hp) as (_ & G5 & _). destruct Hsz as (Hs & _).
  pose proof (pow2_pos (a - s)). unfold fill_order, first_entry. destruct (criticalWordFirst b); [cbn; by rewrite G5|].
  by rewrite G1, seqZ_cons by lia.
Qed.
Lemma fill_order_perm b a s p_ra : sized b a s → uint 64 p_ra → fill_order b p_ra ≡ₚ seqZ 0 (nEntries b).
Proof using Type.
  intros Hsz Hp. destruct (sized_geometry _ _ _ Hsz) as (G1 & _ & _ & G4). destruct (G4 p_ra Hp) as (_ & G5 & _). destruct Hsz as (Hs & _).
  unfold fill_order. destruct (criticalWordFirst b); [|done]. apply critical_ids_perm. rewrite G5, G1. by apply mod_div_bound.
Qed.
(** The entries after the loop of [init]. *)
Lemma init_entries_progress b a s p_ea p_ra x hx (m : M) : sized b a s → uint 64 p_ra →
  (hx && requestSent x = true → ∀ i, 0 ≤ i < 2 ^ (a - s) → addr x = line_of a p_ra + i * 2 ^ s →
    i = first_entry b a s p_ra ∧ pending m (requestId x) = Some (ReadOf (addr x) (2 ^ s))) →
  let r := init_entries (_entries b) (2 ^ s) p_ea (line_of a p_ra) x hx (2 ^ (a - s)) in
  ∃ l2 l3, fill_order b p_ra = l2 ++ l3 ∧ length (fst r) = length (_entries b) ∧ snd r = wrap 32 (Z.of_nat (length l3)) ∧
    progress (_withData (_cfg b)) (line_of a p_ra) (2 ^ s) (fst r) m [] l2 l3.
Proof using Type.
  intros Hsz Hp Hx. cbv zeta. pose proof Hsz as (Hs & Ha & _ & Hlen & Hw). pose proof (sized_geometry _ _ _ Hsz) as (G1 & _).
  pose proof (pow2_pos (a - s)). pose proof (pow2_le_31 (a - s)).
  assert (uint 64 (line_of a p_ra)) as HL.
  { rewrite <- (Z.add_0_r (line_of a p_ra)). change 0 with (0 * 2 ^ s). rewrite <- entry_addr_line by lia || done. by apply uint_wrap. }
  destruct (init_entries_plain (_entries b) (2 ^ s) p_ea (line_of a p_ra) x (2 ^ (a - s)) HL) as [Hl Hi].
  assert (progress (_withData (_cfg b)) (line_of a p_ra) (2 ^ s) (fst (init_entries (_entries b) (2 ^ s) p_ea (line_of a p_ra) x false (2 ^ (a - s)))) m
    [] [] (fill_order b p_ra)) as Hplain.
  { apply (progress_start _ _ _ _ _ _ (nEntries b)); [by eapply fill_order_perm|unfold wide; by rewrite init_entries_data|]. intros i Hin. rewrite G1 in Hin.
    destruct (lookup_lt_is_Some_2 (_entries b) (Z.to_nat i)) as [y Hy]; [lia|]. destruct (Hi _ _ Hy) as [e' He'].
    eexists. split; [exact He'|]. split_and!; [|done|done]. cbn. unfold entry_addr. by rewrite Z2Nat.id by lia. }
  pose proof (Permutation_length (fill_order_perm _ _ _ _ Hsz Hp)) as Hn. rewrite length_seqZ, G1 in Hn.
  set (hit := λ i, hx && (wrap 64 (line_of a p_ra + Z.of_nat i * 2 ^ s) =? addr x) && requestSent x).
  destruct (decide (Exists (λ k, hit k = true) (seq 0 (length (_entries b))))) as [(k & Hk%elem_of_seq & Hh)%Exists_exists|Hno].
  - subst hit. cbn in Hh. apply andb_true_iff in Hh as [[-> Ek%Z.eqb_eq]%andb_true_iff Hsent]. rewrite Hsent in Hx.
    assert (∀ j, (j < length (_entries b))%nat → wrap 64 (line_of a p_ra + Z.of_nat j * 2 ^ s) = addr x →
      fill_order b p_ra !! 0%nat = Some (Z.of_nat j) ∧ pending m (requestId x) = Some (ReadOf (addr x) (2 ^ s))) as Hf.
    { intros j Hj E. destruct (Hx eq_refl (Z.of_nat j)) as [Ej Hpend]; [lia| |].
      - rewrite <- E. apply entry_addr_line; lia || done.
      - split; [|done]. rewrite Ej. by apply fill_order_first. }
    rewrite (init_entries_hit _ _ _ _ _ _ k); [|lia|done|done| |done].
    2: { intros j Hj E. destruct (Hf j ltac:(lia) E) as [Hj1 _]. destruct (Hf k ltac:(lia) Ek) as [Hk1 _]. simplify_eq. lia. }
    destruct (Hf k ltac:(lia) Ek) as [Hfk Hx3]. destruct (fill_order b p_ra) as [|i l3] eqn:Eo; [done|]. injection Hfk as ->.
    exists [Z.of_nat k], l3. cbn [fst snd]. split_and!; [done|by rewrite length_alter|cbn in Hn; f_equal; lia|].
    rewrite <- (Nat2Z.id k) at 1. apply progress_take_over; [done|]. rewrite Hx3. f_equal. f_equal. by symmetry.
  - exists [], (fill_order b p_ra). rewrite init_entries_miss; cbn [fst snd]; [|intros i Hi2|done].
    + split_and!; [done|done| |done]. symmetry. rewrite wrap_small by (unfold uint; lia). lia.
    + destruct (hx && (wrap 64 (line_of a p_ra + Z.of_nat i * 2 ^ s) =? addr x) && requestSent x) eqn:E; [|done]. destruct Hno. apply Exists_exists. exists i. split; [apply elem_of_seq; lia|done].
Qed.
Lemma init_filling linefillWidth b a s p_requestId p_ea p_ra set way rd t rl m : fillable linefillWidth b a s p_ea p_ra m →
  ∃ b' l2 l3, init linefillWidth b p_requestId p_ea p_ra set way rd t rl = Ret b' ∧ sized b' a s ∧ _cfg b' = _cfg b ∧
    (criticalWordFirst b' = true → _critical_entry b' = addr2EntryId b' p_ra) ∧
    filling (line_of a p_ra) (fill_order b' p_ra) b' m [] l2 l3.
Proof using Type.
  intros I. pose proof I as [[s0 I1] I2 I3 I4 I5]. destruct (resized _ _ _ _ _ _ _ I) as (b1 & E1 & Hsz & Hcfg & Hh & Hx).
  pose proof I1 as (_ & Ha & Hgeo & _). pose proof Hsz as (_ & _ & Hgeo1 & Hlen & Hw). destruct (sized_geometry _ _ _ I1) as (_ & _ & _ & Hm).
  destruct (sized_geometry _ _ _ Hsz) as (G1 & G2 & _). destruct (Hm p_ra I4) as [HL _].
  assert (criticalWordFirst b1 = criticalWordFirst b) as Ecw by (unfold criticalWordFirst; by rewrite Hcfg).
  destruct (init_entries_progress b1 a s (Z.land p_ea (_lineAddrMask (_geo b))) p_ra (_extraEntry b) (_hasExtra b) m Hsz I4)
    as (l2 & l3 & Eo & Hl & Hr & Hp); [intros Hsent; unfold first_entry; rewrite Ecw; by apply I5|].
  pose proof (fill_order_perm _ _ _ _ Hsz I4) as Hperm. pose proof (pow2_pos (a - s)). pose proof (pow2_le_31 (a - s)).
  unfold init. cbv zeta in E1 |- *. rewrite HL, E1. cbn [obind]. rewrite G1, G2, Hx, Hh.
  assert (length (_entries b1) = Z.to_nat (2 ^ (a - s))) as Hlen' by lia.
  rewrite (proj2 (Nat.ltb_ge _ _)) by lia. rewrite <- Hlen', firstn_all, drop_all, app_nil_r.
  set (r := init_entries _ _ _ _ _ _ _) in *. set (bf := LB _ _ _ _ _ _ _ _ _ _ _ _ _ _ _ _ _ _).
  exists (if criticalWordFirst bf then addCriticalAddr (set_criticalIds bf [] (_critical_entry bf)) p_ra else bf), l2, l3. split; [done|].
  assert (fill_order bf p_ra = l2 ++ l3) as Eo' by done.
  assert (sized bf a s) as Hszf by (unfold sized; split_and!; [lia..|done|cbn; by rewrite Hl|cbn; unfold wide, r; by rewrite init_entries_data]).
  destruct (criticalWordFirst bf) eqn:Ebf; (split; [done|]; split; [exact Hcfg|]; split; [congruence || done|]; split; try done).
  - unfold nEntries. cbn. by rewrite Hl, Hlen, <- G1.
  - change (nEntries b1 < 2 ^ 32). lia.
  - change (progress (_withData (_cfg b1)) (line_of a p_ra) (entrySize b1) (fst r) m [] l2 l3). by rewrite G2.
  - change (snd r = wrap 32 (Z.of_nat (length l3) - 0)). by rewrite Z.sub_0_r.
  - change (if criticalWordFirst bf then [] ++ critical_ids (nEntries bf) (addr2EntryId bf p_ra) = l2 ++ l3 else
      fill_order (addCriticalAddr (set_criticalIds bf [] (_critical_entry bf)) p_ra) p_ra = seqZ 0 (nEntries bf)).
    rewrite Ebf. cbn [app]. rewrite <- Eo'. unfold fill_order. by rewrite Ebf.
  - unfold nEntries. cbn. by rewrite Hl, Hlen, <- G1.
  - change (nEntries b1 < 2 ^ 32). lia.
  - change (progress (_withData (_cfg b1)) (line_of a p_ra) (entrySize b1) (fst r) m [] l2 l3). by rewrite G2.
  - change (snd r = wrap 32 (Z.of_nat (length l3) - 0)). by rewrite Z.sub_0_r.
  - rewrite Ebf. unfold fill_order. by rewrite Ebf.
Qed.
End Start.

(** ** A line fill *)

Section Fill.
Context {M : Type} `{NextMemoryLaws M}.

(** What happens to a buffer that is being filled, and to the memory below it. *)
Inductive fill_step : LinefillBuf * M → LinefillBuf * M → Prop :=
| step_load b m r b' m' : loadData b m = Ret (r, b', m') → fill_step (b, m) (b', m')
| step_send t b m r b' m' : sendRequest b t m = Ret (r, b', m') → fill_step (b, m) (b', m')
| step_setup_extra p_ea p_ra b m : fill_step (b, m) (snd (setupExtra b p_ea p_ra), m)
| step_send_extra t b m : fill_step (b, m) (snd (fst (sendExtraRequest b t m)), snd (sendExtraRequest b t m))
| step_loaded b m : fill_step (b, m) (snd (loaded_cached b), m)
| step_memory b m m' : evolves m m' → fill_step (b, m) (b, m').

Lemma fill_step_inv L order b m b' m' l1 l2 l3 : filling L order b m l1 l2 l3 → fill_step (b, m) (b', m') →
  (∃ l1 l2 l3, filling L order b' m' l1 l2 l3) ∧ same_line b b' ∧ ∀ x, contents m' x = contents m x.
Proof using Type.
  intros F. inversion 1 as [? ? r ? ? E|t ? ? r ? ? E|p_ea p_ra|t|?|? ? ? E]; subst.
  - destruct (loadData_filling _ _ _ _ _ _ _ F) as (l2a & l2b & rd & b1 & m1 & _ & E1 & F' & _ & _ & Hs & _ & Hc & _). rewrite E in E1. injection E1 as -> <- <-. split; [by do 3 eexists|done].
  - destruct (sendRequest_filling _ _ _ t _ _ _ _ F) as (l3a & l3b & b1 & m1 & _ & E1 & F' & Hs & _ & Hc & _). rewrite E in E1. injection E1 as -> <- <-. split; [by do 3 eexists|done].
  - apply (setupExtra_filling _ _ _ p_ea p_ra) in F. split; [eauto|]. split; [|done]. unfold setupExtra. by destruct (_hasExtra b).
  - destruct (sendExtraRequest_filling _ _ _ t _ _ _ _ F) as (F' & Hs & Hc). split; [by do 3 eexists|done].
  - apply loaded_cached_filling in F. split; [eauto|]. split; [|done]. unfold loaded_cached. by destruct (loaded b).
  - split; [eauto using evolves_filling|]. split; [done|apply E].
Qed.
Lemma fill_steps_inv L order p q : rtc fill_step p q → ∀ l1 l2 l3, filling L order (fst p) (snd p) l1 l2 l3 →
  (∃ l1 l2 l3, filling L order (fst q) (snd q) l1 l2 l3) ∧ same_line (fst p) (fst q) ∧ ∀ x, contents (snd q) x = contents (snd p) x.
Proof using Type.
  induction 1 as [[b m]|[b m] [b1 m1] [b2 m2] Hs _ IH]; intros l1 l2 l3 F; [split; [by do 3 eexists|done]|]. cbn [fst snd] in *.
  destruct (fill_step_inv _ _ _ _ _ _ _ _ _ F Hs) as ((k1 & k2 & k3 & F1) & (K1 & K2 & K3) & Hc). destruct (IH _ _ _ F1) as (HF & (J1 & J2 & J3) & Hc').
  split; [done|]. split; [split_and!; congruence|]. intros x. by rewrite Hc'.
Qed.

(** A fill of the line of [p_ra], some steps after [init]. *)
Record fill_reaches (linefillWidth : Z → Z → Z) (b0 : LinefillBuf) (a s p_ra : Z) (m0 : M) (b : LinefillBuf) (m : M) : Prop := {
  r_start : ∃ p_ea p_requestId set way rd t rl b1, fillable linefillWidth b0 a s p_ea p_ra m0 ∧
    init linefillWidth b0 p_requestId p_ea p_ra set way rd t rl = Ret b1 ∧ rtc fill_step (b1, m0) (b, m)
}.
(** The critical entry, then those after it, then those before it. *)
Definition entry_order (b0 : LinefillBuf) (a s p_ra : Z) : list Z :=
  let n := 2 ^ (a - s) in let ci := p_ra mod 2 ^ a / 2 ^ s in
  if criticalWordFirst b0 then ci :: seqZ (ci + 1) (n - (ci + 1)) ++ seqZ 0 ci else seqZ 0 n.

Lemma fill_reaches_filling linefillWidth b0 a s p_ra m0 b m : fill_reaches linefillWidth b0 a s p_ra m0 b m →
  (∃ l1 l2 l3, filling (line_of a p_ra) (entry_order b0 a s p_ra) b m l1 l2 l3) ∧
  (∃ b1, sized b1 a s ∧ same_line b1 b) ∧ _cfg b = _cfg b0 ∧ (0 ≤ s ≤ a ∧ a ≤ 31 ∧ uint 64 p_ra) ∧
  (criticalWordFirst b = true → _critical_entry b = p_ra mod 2 ^ a / 2 ^ s) ∧ ∀ x, contents m x = contents m0 x.
Proof using Type.
  intros [(p_ea & id & st & way & rd & t & rl & b1 & I & E & Hr)].
  destruct (init_filling _ _ _ _ id _ _ st way rd t rl _ I) as (b2 & l2 & l3 & E2 & Hsz & Hcfg & Hce & F). rewrite E in E2. injection E2 as <-.
  destruct (fill_steps_inv _ _ _ _ Hr _ _ _ F) as (HF & Hs & Hc). cbn [fst snd] in *. pose proof Hs as (K1 & K2 & K3).
  destruct (sized_geometry _ _ _ Hsz) as (G1 & _ & _ & G4). destruct (G4 p_ra) as (_ & G5 & _); [apply I|].
  split; [|split; [by exists b1|]; split; [congruence|]; split; [|split; [|done]]].
  - replace (entry_order b0 a s p_ra) with (fill_order b1 p_ra); [done|]. unfold fill_order, entry_order, criticalWordFirst. by rewrite Hcfg, G1, G5.
  - destruct Hsz as (? & ? & _). split; [lia|]. split; [lia|apply I].
  - unfold criticalWordFirst in *. rewrite K1, K3. intros W. by rewrite Hce, G5.
Qed.

Lemma filling_positions L order b m l1 l2 l3 p i : filling L order b m l1 l2 l3 → order !! p = Some i →
  ∃ e, _entries b !! Z.to_nat i = Some e ∧ addr e = entry_addr L (entrySize b) i ∧
    hasData e = bool_decide (p < length l1)%nat ∧ requestSent e = bool_decide (p < length l1 + length l2)%nat.
Proof using Type.
  intros F Hp. destruct F as [-> F2 F3 F4 F5 _ _ _ _ _].
  apply lookup_app_Some in Hp as [Hp|[Hge [Hp|[Hge' Hp]]%lookup_app_Some]].
  - destruct (pr_loaded _ _ _ _ _ _ _ _ F5 i) as (e & He & Ha & Hd & Hs & _); [by eapply list_elem_of_lookup_2|]. apply lookup_lt_Some in Hp.
    exists e. rewrite !bool_decide_true by lia. done.
  - destruct (pr_pending _ _ _ _ _ _ _ _ F5 i) as (e & He & Ha & Hd & Hs & _); [by eapply list_elem_of_lookup_2|]. apply lookup_lt_Some in Hp.
    exists e. rewrite bool_decide_false, bool_decide_true by lia. done.
  - destruct (pr_unsent _ _ _ _ _ _ _ _ F5 i) as (e & He & Ha & Hd & Hs); [by eapply list_elem_of_lookup_2|].
    exists e. rewrite !bool_decide_false by lia. done.
Qed.
(** A byte of an entry that has its data. *)
Lemma filling_byte L order b m l1 l2 l3 i e o : filling L order b m l1 l2 l3 → _withData (_cfg b) = true → 0 ≤ i →
  _entries b !! Z.to_nat i = Some e → hasData e = true → 0 ≤ o < entrySize b →
  line_data b !! Z.to_nat (i * entrySize b + o) = Some (contents m (wrap 64 (L + i * entrySize b + o))).
Proof using Type.
  intros F W Hi He Hd Ho. pose proof F as [F1 F2 F3 _ F5 _ _ _ _ _].
  assert (i ∈ order) as [p Hp]%list_elem_of_lookup.
  { rewrite F2. apply elem_of_seqZ. apply lookup_lt_Some in He. lia. }
  assert (i ∈ l1) as Hin.
  { destruct (filling_positions _ _ _ _ _ _ _ _ _ F Hp) as (e' & He' & _ & Hd' & _). rewrite He in He'. injection He' as <-. rewrite Hd in Hd'. symmetry in Hd'.
    apply bool_decide_eq_true in Hd'. rewrite F1, lookup_app_l in Hp by done. by eapply list_elem_of_lookup_2. }
  destruct (pr_loaded _ _ _ _ _ _ _ _ F5 i Hin) as (e' & He' & _ & _ & _ & Hdata). rewrite He in He'. injection He' as <-. unfold line_data.
  apply (join_lookup_Some_same_length (Z.to_nat (entrySize b))).
  { apply Forall_fmap. by apply (pr_width _ _ _ _ _ _ _ _ F5). }
  exists (Z.to_nat i), (data e), (Z.to_nat o). rewrite list_lookup_fmap, He. split_and!; [done| |].
  - rewrite (Hdata W). unfold bytes. rewrite list_lookup_fmap, lookup_seqZ_lt by lia. cbn. f_equal. f_equal. unfold entry_addr.
    rewrite wrap_add_l. f_equal. lia.
  - rewrite <- Z2Nat.inj_mul, <- Z2Nat.inj_add by nia. done.
Qed.

(** C25: the entries of a line are asked for in the order of the critical word, each once, and
    their data comes in this order: after any number of steps of the buffer and of the
    memory, the entries that have been asked for are the first ones of the order, those
    with data the first ones of these; [requestsRemaining] counts the others, less the
    extra request, and [loaded] is true when all entries have their data.  Assumed of the start ([fillable]): line and entry
    widths are powers of two; an extra request that was sent before (consecutive
    line fills) and lies in this line was for the entry that is asked for first,
    with this fill's entry width, as [setupExtra] makes it for the address of this
    fill where entries have at least 8 bytes ([extra_first]; not with smaller
    ones, see [extra_breaks_order]) and the width does not change.  The
    memory answers requests with its contents, which nothing writes during the
    fill. *)
Theorem linefill_critical_first linefillWidth b0 a s p_ra (m0 : M) b m : fill_reaches linefillWidth b0 a s p_ra m0 b m →
  let n := 2 ^ (a - s) in
  ∃ k1 k2, 0 ≤ k1 ≤ k2 ∧ k2 ≤ n ∧
    (∀ p i, entry_order b0 a s p_ra !! p = Some i → ∃ e, _entries b !! Z.to_nat i = Some e ∧
      addr e = line_of a p_ra + i * 2 ^ s ∧ hasData e = (Z.of_nat p <? k1) ∧ requestSent e = (Z.of_nat p <? k2)) ∧
    _requestsRemaining b = wrap 32 (n - k2 - (if _hasExtra b && requestSent (_extraEntry b) then 1 else 0)) ∧
    loaded b = (k1 =? n).
Proof using Type.
  intros R. destruct (fill_reaches_filling _ _ _ _ _ _ _ _ R) as ((l1 & l2 & l3 & F) & (b1 & Hsz & Hg) & Hcfg & (Hs & Ha & Hp) & _ & _).
  destruct (sized_geometry _ _ _ Hsz) as (G1 & G2 & _). destruct Hg as (_ & Hg & _). unfold nEntries, entrySize in G1, G2. rewrite <- Hg in G1, G2.
  cbv zeta. exists (Z.of_nat (length l1)), (Z.of_nat (length l1 + length l2)). pose proof F as [F1 F2 _ _ _ _ F7 _ _ _].
  assert (Z.of_nat (length l1 + length l2 + length l3) = 2 ^ (a - s)) as Hlen.
  { apply Permutation_length in F2. rewrite length_seqZ, F1, !length_app in F2. unfold nEntries in F2. rewrite G1 in F2. pose proof (pow2_pos (a - s)). lia. }
  split; [lia|]. split; [lia|]. split; [|split].
  - intros p i Hi. destruct (filling_positions _ _ _ _ _ _ _ _ _ F Hi) as (e & He & Hae & Hd & Hq). exists e. split; [done|].
    split; [|split]; [|rewrite Hd|rewrite Hq; rewrite Nat2Z.inj_add].
    + rewrite Hae. unfold entrySize. rewrite G2. apply entry_addr_line; [done..|].
      assert (i ∈ entry_order b0 a s p_ra) as Hin by (by eapply list_elem_of_lookup_2). rewrite F2 in Hin. apply elem_of_seqZ in Hin.
      unfold nEntries in Hin. lia.
    + destruct (Z.ltb_spec (Z.of_nat p) (Z.of_nat (length l1))); [apply bool_decide_true|apply bool_decide_false]; lia.
    + destruct (Z.ltb_spec (Z.of_nat p) (Z.of_nat (length l1) + Z.of_nat (length l2))); [apply bool_decide_true|apply bool_decide_false]; lia.
  - rewrite F7. unfold extra_sent. f_equal. lia.
  - rewrite (loaded_filling _ _ _ _ _ _ _ F). destruct (Z.eqb_spec (Z.of_nat (length l1)) (2 ^ (a - s))) as [E|E].
    + apply bool_decide_true. destruct l2, l3; cbn in Hlen; try done; lia.
    + apply bool_decide_false. intros [-> ->]%app_eq_nil. cbn in Hlen. lia.
Qed.

Lemma line_offset a s x : 0 ≤ s ≤ a → 0 ≤ x →
  line_of a x + x mod 2 ^ a / 2 ^ s * 2 ^ s + x mod 2 ^ s = x ∧ x mod 2 ^ a / 2 ^ s * 2 ^ s + x mod 2 ^ s = x mod 2 ^ a.
Proof using Type.
  intros Hs Hx. pose proof (pow2_pos s). pose proof (pow2_pos a). unfold line_of.
  assert (x mod 2 ^ s = x mod 2 ^ a mod 2 ^ s) as -> by (symmetry; apply (wrap_wrap_le s a); lia).
  pose proof (Z.div_mod (x mod 2 ^ a) (2 ^ s) ltac:(lia)). pose proof (Z.div_mod x (2 ^ a) ltac:(lia)). lia.
Qed.
Lemma same_block s x j : 0 ≤ s ≤ 31 → uint 64 x → 0 ≤ j → x mod 2 ^ s + j < 2 ^ s → uint 64 (x + j).
Proof using Type.
  intros Hs [Hx0 Hx] Hj Hb. pose proof (pow2_pos s). split; [lia|]. pose proof (Z.div_mod x (2 ^ s) ltac:(lia)).
  assert (2 ^ 64 = 2 ^ s * 2 ^ (64 - s)) as E by (rewrite <- Z.pow_add_r by lia; f_equal; lia).
  assert (x / 2 ^ s < 2 ^ (64 - s)) by (apply Z.div_lt_upper_bound; lia). rewrite E. nia.
Qed.
(** [hasData(x)] looks at the entry of [x]. *)
Lemma filling_hasData a s p_ra order b1 b m l1 l2 l3 x : filling (line_of a p_ra) order b m l1 l2 l3 → sized b1 a s → same_line b1 b →
  uint 64 p_ra → uint 64 x → buf_hasData b x =
    if line_of a x =? line_of a p_ra then let! e := get_entry (_entries b) (x mod 2 ^ a / 2 ^ s) in Ret (hasData e) else Ret false.
Proof using Type.
  intros F Hsz (_ & Hg & _) Hp Hx. destruct (sized_geometry _ _ _ Hsz) as (G1 & G2 & _ & G4). destruct (G4 x Hx) as (G5 & G6 & _).
  unfold nEntries, entrySize, addr2EntryId in *. rewrite <- Hg in *. destruct Hsz as (Hs & Ha & _).
  assert (0 ∈ order) as [p Hp0]%list_elem_of_lookup.
  { rewrite (f_perm _ _ _ _ _ _ _ F). apply elem_of_seqZ. unfold nEntries. pose proof (pow2_pos (a - s)). lia. }
  destruct (filling_positions _ _ _ _ _ _ _ _ _ F Hp0) as (e & He & Hae & _). unfold entrySize in Hae. rewrite G2, entry_addr_line in Hae
    by (done || pose proof (pow2_pos (a - s)); lia).
  unfold buf_hasData, hasEntry, lineAddr, get_entry at 1. rewrite (f_nonempty _ _ _ _ _ _ _ F). change (Z.to_nat 0) with 0%nat in He |- *. rewrite He. cbn [obind].
  unfold addr2EntryId. rewrite G5, G6, Hae, Z.mul_0_l, Z.add_0_r. by destruct (line_of a x =? line_of a p_ra).
Qed.

(** C26: a read of the buffer gives what the memory holds: [hasData(x)] always has an answer,
    it is true of an address of the line only, and of all of them when the line is
    loaded; and where it is true, the bytes of the entry from [x] on are those of the
    memory, even if other entries of the line have not come yet.  Assumed of the start ([fillable]): line and entry
    widths are powers of two; an extra request that was sent before (consecutive
    line fills) and lies in this line was for the entry that is asked for first,
    with this fill's entry width, as [setupExtra] makes it for the address of this
    fill where entries have at least 8 bytes ([extra_first]; not with smaller
    ones, see [extra_breaks_order]) and the width does not change.  The
    memory below answers with its contents, which nothing writes during the fill
    ([evolves]). *)
Theorem linefill_data linefillWidth b0 a s p_ra (m0 : M) b m x : fill_reaches linefillWidth b0 a s p_ra m0 b m → uint 64 x →
  ∃ h, buf_hasData b x = Ret h ∧
    (h = true → line_of a x = line_of a p_ra) ∧
    (loaded b = true → line_of a x = line_of a p_ra → h = true) ∧
    (h = true → _withData (_cfg b0) = true → ∃ d, data_at b x = Some d ∧
      ∀ j, 0 ≤ j → x mod 2 ^ s + j < 2 ^ s → d !! Z.to_nat j = Some (contents m0 (x + j))).
Proof using Type.
  intros R Hx. destruct (fill_reaches_filling _ _ _ _ _ _ _ _ R) as ((l1 & l2 & l3 & F) & (b1 & Hsz & Hg) & Hcfg & (Hs & Ha & Hp) & _ & Hc).
  rewrite (filling_hasData _ _ _ _ _ _ _ _ _ _ _ F Hsz Hg Hp Hx). destruct (sized_geometry _ _ _ Hsz) as (G1 & G2 & _ & G4). destruct (G4 x Hx) as (_ & _ & G7).
  destruct Hg as (_ & Hg & _). unfold nEntries, entrySize, addr2Offset in *. rewrite <- Hg in *.
  destruct (Z.eqb_spec (line_of a x) (line_of a p_ra)) as [El|El]; [|by exists false].
  pose proof (mod_div_bound a s x Hs) as Hci. set (ci := x mod 2 ^ a / 2 ^ s) in *.
  assert (ci ∈ entry_order b0 a s p_ra) as [p Hpi]%list_elem_of_lookup.
  { rewrite (f_perm _ _ _ _ _ _ _ F). apply elem_of_seqZ. unfold nEntries. lia. }
  destruct (filling_positions _ _ _ _ _ _ _ _ _ F Hpi) as (e & He & _ & Hd & _). unfold get_entry. rewrite He. cbn [obind]. exists (hasData e).
  split; [done|]. split; [done|]. split.
  - intros Hld _. rewrite (loaded_filling _ _ _ _ _ _ _ F) in Hld. apply bool_decide_eq_true, app_eq_nil in Hld as [-> ->].
    rewrite Hd. apply bool_decide_true. apply lookup_lt_Some in Hpi. rewrite (f_order _ _ _ _ _ _ _ F), !app_nil_r in Hpi. done.
  - intros Hhd W. rewrite <- Hcfg in W. unfold data_at. rewrite W. eexists. split; [done|]. intros j Hj Hjs.
    destruct (line_offset a s x Hs) as [Ex Eo]; [unfold uint in Hx; lia|]. fold ci in Ex, Eo. pose proof (Z.mod_pos_bound x (2 ^ s) ltac:(apply pow2_pos; lia)).
    rewrite lookup_drop. unfold addr2Offset. rewrite G7, <- Eo.
    replace (Z.to_nat (ci * 2 ^ s + x mod 2 ^ s) + Z.to_nat j)%nat with (Z.to_nat (ci * entrySize b + (x mod 2 ^ s + j))).
    2: { unfold entrySize. rewrite G2, <- Z2Nat.inj_add by (pose proof (pow2_pos s); nia). f_equal. lia. }
    rewrite (filling_byte _ _ _ _ _ _ _ _ _ _ F W (proj1 Hci) He Hhd) by (unfold entrySize; rewrite G2; lia).
    rewrite Hc. f_equal. f_equal. unfold entrySize. rewrite G2, <- El.
    replace (line_of a x + ci * 2 ^ s + (x mod 2 ^ s + j)) with (x + j) by lia. apply wrap_small.
    apply (same_block s); lia || done.
Qed.

Lemma length_join_same (ls : list (list Z)) n : Forall (λ l, length l = n) ls → length (mjoin ls) = (length ls * n)%nat.
Proof using Type. induction 1 as [|l ls Hl _ IH]; [done|]. change (mjoin (l :: ls)) with (l ++ mjoin ls). rewrite length_app, IH, Hl. cbn. lia. Qed.
Lemma filling_line L order a s b m l1 : filling L order b m l1 [] [] → _withData (_cfg b) = true → 0 ≤ s ≤ a →
  nEntries b = 2 ^ (a - s) → entrySize b = 2 ^ s → line_data b = bytes m L (2 ^ a).
Proof using Type.
  intros F W Hs En Es. pose proof F as [F1 F2 F3 _ F5 _ _ _ _ _]. pose proof (pow2_pos s). pose proof (pow2_pos a).
  assert (2 ^ a = 2 ^ (a - s) * 2 ^ s) as Ea by (rewrite <- Z.pow_add_r by lia; f_equal; lia).
  apply (list_eq_same_length _ _ (Z.to_nat (2 ^ a))).
  - unfold bytes. by rewrite length_fmap, length_seqZ.
  - unfold line_data. rewrite (length_join_same _ (Z.to_nat (entrySize b))), length_fmap.
    2: { apply Forall_fmap. by apply (pr_width _ _ _ _ _ _ _ _ F5). }
    rewrite Es, <- (Nat2Z.id (length _)), F3, En, <- Z2Nat.inj_mul by lia. f_equal. lia.
  - intros k u v Hk Hu Hv. unfold bytes in Hv. rewrite list_lookup_fmap, lookup_seqZ_lt in Hv by lia. cbn in Hv. injection Hv as <-.
    set (i := Z.of_nat k / 2 ^ s). pose proof (Z.div_mod (Z.of_nat k) (2 ^ s) ltac:(lia)) as Hdm. fold i in Hdm.
    pose proof (Z.mod_pos_bound (Z.of_nat k) (2 ^ s) ltac:(lia)) as Hm.
    assert (0 ≤ i < 2 ^ (a - s)) as Hi. { split; [apply Z.div_pos; lia|apply Z.div_lt_upper_bound; lia]. }
    assert (i ∈ l1) as (e & He & Hd)%(progress_hasData _ _ _ _ _ _ _ _ _ F5).
    { rewrite <- (app_nil_r l1). change [] with ([] ++ [] : list Z). rewrite <- F1, F2. apply elem_of_seqZ. lia. }
    pose proof (filling_byte _ _ _ _ _ _ _ i e (Z.of_nat k mod 2 ^ s) F W ltac:(lia) He Hd ltac:(lia)) as Hb. rewrite Es in Hb.
    replace (i * 2 ^ s + Z.of_nat k mod 2 ^ s) with (Z.of_nat k) in Hb by lia. rewrite Nat2Z.id, Hu in Hb. injection Hb as ->.
    f_equal. f_equal. lia.
Qed.

(** C27: a fill never gets stuck: in every state that it reaches, the two calls of a cycle
    return; and if the memory takes requests and has its answers ready, one
    [sendRequest] and one [loadData] complete the line, which is then the memory's.
    Assumed of the start ([fillable]): line and entry
    widths are powers of two; an extra request that was sent before (consecutive
    line fills) and lies in this line was for the entry that is asked for first,
    with this fill's entry width, as [setupExtra] makes it for the address of this
    fill where entries have at least 8 bytes ([extra_first]; not with smaller
    ones, see [extra_breaks_order]) and the width does not change.  The
    memory below answers with its contents, which nothing writes during the fill
    ([evolves]). *)
Theorem linefill_completes linefillWidth b0 a s p_ra (m0 : M) b m t : fill_reaches linefillWidth b0 a s p_ra m0 b m →
  ∃ sent b1 m1 rd b2 m2, sendRequest b t m = Ret (sent, b1, m1) ∧ loadData b1 m1 = Ret (rd, b2, m2) ∧
    _allsent b1 = sent ∧
    ((∀ m k, sendRequestInquire (M := M) m k = true) → (∀ m id, readInquire (M := M) m id = true) →
      sent = true ∧ loaded b2 = true ∧ (_withData (_cfg b0) = true → line_data b2 = bytes m0 (line_of a p_ra) (2 ^ a))).
Proof using Type.
  intros R. destruct (fill_reaches_filling _ _ _ _ _ _ _ _ R) as ((l1 & l2 & l3 & F) & (b' & Hsz & Hg) & Hcfg & (Hs & Ha & Hp) & _ & Hc).
  destruct (sendRequest_filling _ _ _ t _ _ _ _ F) as (l3a & l3b & b1 & m1 & -> & E1 & F1 & (K1 & K2 & _) & Hall & Hc1 & Hready1).
  destruct (loadData_filling _ _ _ _ _ _ _ F1) as (l2a & l2b & rd & b2 & m2 & El & E2 & F2 & _ & _ & (J1 & J2 & _) & _ & Hc2 & Hready2).
  do 6 eexists. split; [exact E1|]. split; [exact E2|]. split; [done|]. intros R1 R2. specialize (Hready1 R1). specialize (Hready2 R2). subst.
  split; [by apply bool_decide_true|]. rewrite (loaded_filling _ _ _ _ _ _ _ F2). split; [by apply bool_decide_true|]. intros W.
  destruct (sized_geometry _ _ _ Hsz) as (G1 & G2 & _). destruct Hg as (_ & Hg & _). unfold nEntries, entrySize in *.
  rewrite (filling_line _ _ a s _ _ _ F2); unfold nEntries, entrySize; try congruence. apply bytes_eq. intros x. by rewrite Hc2, Hc1, Hc.
Qed.
(** The entries whose data came in a call. *)
Definition came (b b' : LinefillBuf) (i : nat) : bool :=
  match _entries b !! i, _entries b' !! i with Some e, Some e' => negb (hasData e) && hasData e' | _, _ => false end.
Lemma came_spec L order b m b' m' l1 l2a l2b l3 i : filling L order b m l1 (l2a ++ l2b) l3 → filling L order b' m' (l1 ++ l2a) l2b l3 →
  i ∈ order → came b b' (Z.to_nat i) = bool_decide (i ∈ l2a).
Proof using Type.
  intros [F1 _ _ _ F5 _ _ _ _ _] [_ _ _ _ F5' _ _ _ _ _] Hi. unfold came. case_bool_decide as Hin.
  - destruct (pr_pending _ _ _ _ _ _ _ _ F5 i) as (e & -> & _ & -> & _); [elem|].
    by destruct (progress_hasData _ _ _ _ _ _ _ _ _ F5' ltac:(apply elem_of_app; right; exact Hin)) as (e' & -> & ->).
  - rewrite F1, !elem_of_app in Hi. destruct Hi as [Hi|[[Hi|Hi]|Hi]]; [|done| |].
    + destruct (progress_hasData _ _ _ _ _ _ _ _ _ F5 Hi) as (e & -> & ->). by destruct (_entries b' !! Z.to_nat i).
    + destruct (pr_pending _ _ _ _ _ _ _ _ F5' i Hi) as (e & -> & _ & -> & _). destruct (_entries b !! Z.to_nat i); [|done]. apply andb_false_r.
    + destruct (pr_unsent _ _ _ _ _ _ _ _ F5' i Hi) as (e & -> & _ & -> & _). destruct (_entries b !! Z.to_nat i); [|done]. apply andb_false_r.
Qed.
(** [loadData] returns whether it read anything, and [criticalWordReceived] is true for
    the one call in which the data of the entry that was asked for comes. *)
Theorem linefill_critical_received linefillWidth b0 a s p_ra (m0 : M) b m : fill_reaches linefillWidth b0 a s p_ra m0 b m →
  ∃ b' m', loadData b m = Ret (existsb (came b b') (seq 0 (length (_entries b))), b', m') ∧
    _criticalWordReceived b' = criticalWordFirst b0 && came b b' (Z.to_nat (p_ra mod 2 ^ a / 2 ^ s)).
Proof using Type.
  intros R. destruct (fill_reaches_filling _ _ _ _ _ _ _ _ R) as ((l1 & l2 & l3 & F) & (b1 & Hsz & Hg) & Hcfg & (Hs & Ha & Hp) & Hce & _).
  destruct (loadData_filling _ _ _ _ _ _ _ F) as (l2a & l2b & rd & b' & m' & -> & E & F' & -> & Hcr & _).
  exists b', m'. pose proof F as [F1 F2 F3 _ _ _ _ _ _ _]. split.
  - rewrite E. f_equal. f_equal. f_equal. symmetry. destruct (bool_decide_reflect (l2a = [])) as [Hl|Hl]; cbn [negb].
    + apply not_true_is_false. intros (i & Hi%list_elem_of_In%elem_of_seq & Hcame)%existsb_exists.
      rewrite <- (Nat2Z.id i) in Hcame. rewrite (came_spec _ _ _ _ _ _ _ _ _ _ _ F F') in Hcame.
      * subst l2a. by apply bool_decide_eq_true, not_elem_of_nil in Hcame.
      * rewrite F2. apply elem_of_seqZ. lia.
    + destruct l2a as [|i l2a]; [done|]. assert (i ∈ entry_order b0 a s p_ra) as Hi by (rewrite F1; elem).
      apply existsb_exists. exists (Z.to_nat i). rewrite (came_spec _ _ _ _ _ _ _ _ _ _ _ F F') by done. rewrite bool_decide_true by left.
      split; [|done]. rewrite F2 in Hi. apply elem_of_seqZ in Hi. apply list_elem_of_In, elem_of_seq. lia.
  - rewrite Hcr. unfold criticalWordFirst in *. rewrite <- Hcfg. destruct (_criticalWordFirst (_cfg b)) eqn:Ec; [|done]. cbn [andb]. rewrite Hce by done.
    symmetry. apply (came_spec _ _ _ _ _ _ _ _ _ _ _ F F'). rewrite F2. apply elem_of_seqZ. pose proof (mod_div_bound a s p_ra Hs).
    destruct (sized_geometry _ _ _ Hsz) as (G1 & _). destruct Hg as (_ & Hg & _). unfold nEntries in *. rewrite Hg, G1. lia.
Qed.
End Fill.

(** ** Witnesses: a line of 32 bytes in entries of 8, the critical word first *)

Module LinefillExample.
Definition width (_ _ : Z) : Z := 8.
Definition mem : ReadyMemory := RM (λ x, x mod 251) [].
Definition start (b : LinefillBuf) : outcome LinefillBuf := init width b 1 0x1012 0x1012 0 0 true 5 false.
Definition sent : outcome (LinefillBuf * ReadyMemory) :=
  let! b := new_LinefillBuf 32 8 true false true false false in let! b := start b in
  let! r := sendRequest b 7 mem in let '(_, b, m) := r in Ret (b, m).
Definition filled : outcome (LinefillBuf * ReadyMemory) :=
  let! s := sent in let! r := loadData (fst s) (snd s) in let '(_, b, m) := r in Ret (b, m).

Lemma sent_reaches : ∃ b0 b m, new_LinefillBuf 32 8 true false true false false = Ret b0 ∧ sent = Ret (b, m) ∧ fill_reaches width b0 5 3 0x1012 mem b m.
Proof.
  destruct (setEntrySize_sized (LB {| _withData := true; _criticalWordFirst := true; _streaming := false; _lazyWriteback := false; _dynEntrySize := false |}
    {| _lineWidth := 0; _nEntries := 0; _entrySize := 0; _lineAddrMask := 0; _entryOffsetMask := 0; _entryShift := 0; _byteOffsetMask := 0 |}
    {| _requestId := 0; _set := 0; _way := 0; _readData := false; _requestTime := 0; _replaceLine := false |}
    [] [] 0 true false false false false false 0 false 0 false new_entry false) 5 3) as (b0 & E0 & Hsz & _); [lia|lia|].
  vm_compute in E0. injection E0 as E0. subst b0. do 3 eexists. split; [vm_compute; done|]. split; [vm_compute; done|]. split.
  exists 0x1012, 1, 0, 0, true, 5, false. eexists. split; [split|].
  - by exists 3.
  - done.
  - lia.
  - unfold uint. lia.
  - done.
  - split; [vm_compute; done|]. apply rtc_once. eapply (step_send 7). vm_compute. done.
Qed.
Lemma filled_reaches : ∃ b0 b m, filled = Ret (b, m) ∧ _withData (_cfg b0) = true ∧ loaded b = true ∧ fill_reaches width b0 5 3 0x1012 mem b m.
Proof.
  destruct sent_reaches as (b0 & b & m & E0 & E & [(e & id & st & w & rd & t & rl & b1 & I & E1 & Hr)]). vm_compute in E0, E.
  injection E0 as E0. injection E as Eb Em. subst b m. eexists b0, _, _. split; [vm_compute; done|]. split; [by subst b0|]. split; [vm_compute; done|].
  split. exists e, id, st, w, rd, t, rl, b1. split; [done|]. split; [done|]. eapply rtc_r; [exact Hr|]. eapply step_load. vm_compute. done.
Qed.
(** The order of the requests, and the bytes at the critical word. *)
Example fill_requests : exists b m, sent = Ret (b, m) ∧
  rm_log m = [Some (ReadOf 0x1010 8); Some (ReadOf 0x1018 8); Some (ReadOf 0x1000 8); Some (ReadOf 0x1008 8)].
Proof. do 2 eexists. split; vm_compute; done. Qed.
Example fill_bytes : exists b m, filled = Ret (b, m) ∧ (take 4 <$> data_at b 0x1012) = Some ((λ x, x mod 251) <$> [0x1012; 0x1013; 0x1014; 0x1015]).
Proof. do 2 eexists. split; vm_compute; done. Qed.
(** With entries of 4 bytes, [setupExtra] asks for the double word of the address of
    the next fill, [0x1014]; that fill then has asked for entry 4 and not for its
    critical entry 5. *)
Definition with_extra (cur_width next_width : Z) : outcome (LinefillBuf * ReadyMemory) :=
  let! b := new_LinefillBuf 32 cur_width true false true false (negb (cur_width =? next_width)) in
  let '(_, b, m) := sendExtraRequest (snd (setupExtra b 0x1014 0x1014)) 3 mem in
  let! b := init (λ _ _, next_width) b 1 0x1014 0x1014 0 0 true 5 false in Ret (b, m).
Example extra_breaks_order : ∃ b m, with_extra 4 4 = Ret (b, m) ∧ _critical_entry b = 5 ∧ requestSent <$> _entries b = [false; false; false; false; true; false; false; false].
Proof. do 2 eexists. split; [vm_compute; reflexivity|]. split; vm_compute; reflexivity. Qed.
(** Where the width of the next fill is another one, it takes over a request of the
    old width: 16 bytes come for an entry of 8. *)
Example extra_old_width : ∃ b m b' m', with_extra 16 8 = Ret (b, m) ∧ rm_log m = [Some (ReadOf 0x1010 16)] ∧ entrySize b = 8 ∧
  loadData b m = Ret (true, b', m') ∧ (λ e, length (data e)) <$> _entries b' = [8; 8; 16; 8]%nat.
Proof. do 4 eexists. split; [vm_compute; reflexivity|]. split; [vm_compute; reflexivity|]. split; [vm_compute; reflexivity|]. split; vm_compute; reflexivity. Qed.
End LinefillExample.
Import LinefillExample.

Lemma linefill_critical_first_witness : ∃ b0 b m, fill_reaches width b0 5 3 0x1012 mem b m ∧
  ∃ k1 k2, 0 ≤ k1 ≤ k2 ∧ k2 ≤ 4 ∧ loaded b = (k1 =? 4).
Proof.
  destruct sent_reaches as (b0 & b & m & _ & _ & R). exists b0, b, m. split; [exact R|].
  destruct (linefill_critical_first width b0 5 3 0x1012 mem b m R) as (k1 & k2 & H1 & H2 & _ & _ & H3). by exists k1, k2.
Defined.
Lemma linefill_data_witness : ∃ b0 b m, fill_reaches width b0 5 3 0x1012 mem b m ∧
  ∃ d, data_at b 0x1012 = Some d ∧ d !! 1%nat = Some (0x1013 mod 251).
Proof.
  destruct filled_reaches as (b0 & b & m & _ & W & Hl & R). exists b0, b, m. split; [exact R|].
  destruct (linefill_data width b0 5 3 0x1012 mem b m 0x1012 R ltac:(unfold uint; lia)) as (h & _ & _ & H2 & H3).
  destruct (H3 (H2 Hl eq_refl) W) as (d & Hd & Hj). exists d. split; [exact Hd|]. apply (Hj 1); [lia|reflexivity].
Defined.
Lemma linefill_completes_witness : ∃ b0 b m, fill_reaches width b0 5 3 0x1012 mem b m ∧
  ∃ b1 m1 rd b2 m2, sendRequest b 9 m = Ret (true, b1, m1) ∧ loadData b1 m1 = Ret (rd, b2, m2) ∧ loaded b2 = true.
Proof.
  destruct sent_reaches as (b0 & b & m & _ & _ & R). exists b0, b, m. split; [exact R|].
  destruct (linefill_completes width b0 5 3 0x1012 mem b m 9 R) as (st & b1 & m1 & rd & b2 & m2 & E1 & E2 & _ & Hc).
  destruct (Hc (λ _ _, eq_refl) (λ _ _, eq_refl)) as (-> & Hl & _). by exists b1, m1, rd, b2, m2.
Defined.
Lemma linefill_critical_received_witness : ∃ b0 b m, fill_reaches width b0 5 3 0x1012 mem b m ∧
  ∃ b' m', loadData b m = Ret (true, b', m') ∧ _criticalWordReceived b' = true.
Proof.
  destruct sent_reaches as (b0 & b & m & E0 & E & R). exists b0, b, m. split; [exact R|].
  destruct (linefill_critical_received width b0 5 3 0x1012 mem b m R) as (b' & m' & E1 & Hc). exists b', m'.
  vm_compute in E0, E. injection E0 as E0. injection E as Eb Em. subst b0 b m. rewrite Hc, E1. vm_compute in E1. injection E1 as Eb' Em'. subst b' m'.
  split; vm_compute; reflexivity.
Defined.
