(* ===== verification/EvictBuffer.v ===== *)
(** * An eviction buffer writes its line

    The invariant of [EvictBuf] between the calls of a cycle, and that a line that has been
    evicted is in the next level of memory, which is otherwise as it was. *)
From stdpp Require Import prelude strings gmap relations.
From Stdlib Require Import ZArith Lia.
From S2P Require Import Prelude.
From S2P Require Import BitTwiddles.
From S2P Require Import CacheBuffers.
From S2P Require Import CacheBuffersCorrect.

Local Open Scope Z_scope.

Section Evict.
Context {M : Type} `{NextMemoryLaws M}.
(** The address of the line, the size and the number of its entries, its bytes, and the
    memory before the eviction. *)
Context (L sz : Z) (n : nat) (line : list Z) (m0 : M).
Context (Hsz : 0 < sz) (Hline : Z.of_nat (length line) = Z.of_nat n * sz) (Hsmall : Z.of_nat n * sz ≤ 2 ^ 64).

Definition evict_addr (o : Z) : Z := wrap 64 (L + o).
Lemma evict_addr_inj o o' : 0 ≤ o < 2 ^ 64 → 0 ≤ o' < 2 ^ 64 → evict_addr o = evict_addr o' → o = o'.
Proof using Type. clear Hsz Hline Hsmall. intros Ho Ho' E. apply wrap_eq_iff in E as [k E]; [|lia]. lia. Qed.

(** What the entries say when the first [k1] have been written and the first [k2] asked for. *)
Definition entry_state (m : M) (k1 k2 i : nat) (e : EvictBufEntry) : Prop :=
  e_addr e = evict_addr (Z.of_nat i * sz) ∧ e_dataSent e = bool_decide (i < k1)%nat ∧ e_requestSent e = bool_decide (i < k2)%nat ∧
  ((k1 ≤ i < k2)%nat → pending m (e_requestId e) = Some (WriteOf (evict_addr (Z.of_nat i * sz)) sz)).
Definition written (m : M) (k : nat) : Prop :=
  (∀ o, 0 ≤ o < Z.of_nat k * sz → Some (contents m (evict_addr o)) = line !! Z.to_nat o) ∧
  ∀ x, (∀ o, 0 ≤ o < Z.of_nat k * sz → x ≠ evict_addr o) → contents m x = contents m0 x.
Record evicting (b : EvictBuf) (m : M) (k1 k2 : nat) : Prop := {
  v_buf : ev_withData b = true ∧ ev_entrySize b = sz ∧ ev_nEntries b = Z.of_nat n ∧ ev_data b = line ∧ ev_hasData b = true;
  v_len : length (ev_entries b) = n;
  v_ord : (k1 ≤ k2 ≤ n)%nat;
  v_entries : ∀ i e, ev_entries b !! i = Some e → entry_state m k1 k2 i e;
  v_ids : ∀ i j e f, (k1 ≤ i < k2)%nat → (k1 ≤ j < k2)%nat → ev_entries b !! i = Some e → ev_entries b !! j = Some f →
    e_requestId e = e_requestId f → i = j;
  v_written : written m k1
}.

Lemma evolves_evicting b m m' k1 k2 : evolves m m' → evicting b m k1 k2 → evicting b m' k1 k2.
Proof using Type.
  intros [Hc Hp] [V1 V2 V3 V4 V5 V6]. split; try done.
  - intros i e He. destruct (V4 i e He) as (A & B & C & D). split_and!; try done. intros Hi. rewrite Hp; [by apply D|]. rewrite D by done. by eexists.
  - destruct V6 as [W1 W2]. split; intros; rewrite Hc; auto.
Qed.
(** The bytes of an entry of the line. *)
Definition entry_bytes (i : nat) : list Z := take (Z.to_nat sz) (drop (i * Z.to_nat sz) line).
Lemma length_entry_bytes i : (i < n)%nat → Z.of_nat (length (entry_bytes i)) = sz.
Proof using Hsz Hline. clear Hsmall. intros Hi. unfold entry_bytes. rewrite length_take, length_drop. nia. Qed.
Lemma lookup_entry_bytes i o : 0 ≤ o < sz → entry_bytes i !! Z.to_nat o = line !! Z.to_nat (Z.of_nat i * sz + o).
Proof using Hsz. clear Hline Hsmall. intros Ho. unfold entry_bytes. rewrite lookup_take_lt, lookup_drop by lia. f_equal. nia. Qed.

(** The next entry is written. *)
Lemma evicting_write b m k1 k2 e : evicting b m k1 k2 → (k1 < k2)%nat → ev_entries b !! k1 = Some e → writeInquire m (e_requestId e) = true →
  evicting (set_evict_entries b (<[k1 := EBE (e_ea e) (e_addr e) (e_requestSent e) true (e_requestId e)]> (ev_entries b)))
    (write m (e_requestId e) (Some (entry_bytes k1))) (S k1) k2.
Proof using Hsz Hline Hsmall.
  intros [V1 V2 V3 V4 V5 [W1 W2]] Hk He Hq. destruct (V4 k1 e He) as (A & B & C & D).
  destruct (write_law m _ _ _ (entry_bytes k1) (D ltac:(lia)) Hq) as (Hp & Hw & Ho); [apply length_entry_bytes; lia|nia|].
  set (m' := write m _ _) in *. assert (∀ i, wrap 64 (evict_addr (Z.of_nat k1 * sz) + i) = evict_addr (Z.of_nat k1 * sz + i)) as Ew.
  { intros i. unfold evict_addr. rewrite wrap_add_l. f_equal. lia. }
  split; cbn; try done.
  - by rewrite length_insert.
  - lia.
  - intros i f [(<- & <- & Hi)|(Hne & Hf)]%list_lookup_insert_Some.
    + split_and!; cbn; [done|by rewrite bool_decide_true by lia|done|lia].
    + destruct (V4 i f Hf) as (A' & B' & C' & D'). split_and!; try done.
      * rewrite B'. apply bool_decide_ext. lia.
      * intros Hi. rewrite Hp, decide_False; [apply D'; lia|]. intros E. apply Hne. symmetry. eapply (V5 i k1); [lia|lia|done..].
  - intros i j f g Hi Hj. rewrite !list_lookup_insert_ne by lia. apply V5; lia.
  - split.
    + intros o Hio. destruct (Z.lt_ge_cases o (Z.of_nat k1 * sz)) as [Hlt|Hge].
      * rewrite Ho; [apply W1; lia|]. intros i Hi E. rewrite Ew in E. apply evict_addr_inj in E; nia.
      * specialize (Hw (o - Z.of_nat k1 * sz) ltac:(nia)). rewrite Ew in Hw. replace (Z.of_nat k1 * sz + (o - Z.of_nat k1 * sz)) with o in Hw by lia.
        rewrite Hw, lookup_entry_bytes by nia. f_equal. lia.
    + intros x Hx. rewrite Ho; [apply W2; intros o Hio; apply Hx; nia|]. intros i Hi. rewrite Ew. apply Hx. nia.
Qed.
(** The next entry is asked for. *)
Lemma evicting_send b m k1 k2 e : evicting b m k1 k2 → ev_entries b !! k2 = Some e → sendRequestInquire m CacheWrite = true →
  let r := sendWriteRequest m (e_ea e) (e_addr e) (ev_entrySize b) (Some (entry_bytes k2)) in
  evicting (set_evict_entries b (<[k2 := EBE (e_ea e) (e_addr e) true (e_dataSent e) (fst r)]> (ev_entries b))) (snd r) k1 (S k2).
Proof using Type.
  clear Hsz Hline Hsmall. intros [V1 V2 V3 V4 V5 [W1 W2]] He Hq. pose proof (lookup_lt_Some _ _ _ He) as Hk. destruct (V4 k2 e He) as (A & B & C & D). cbv zeta.
  destruct (send_write_law m (e_ea e) (e_addr e) (ev_entrySize b) (Some (entry_bytes k2)) Hq) as (Hn & Hp & Hc).
  set (r := sendWriteRequest _ _ _ _ _) in *. assert (ev_entrySize b = sz) as Es by apply V1. rewrite A, Es in Hp.
  split; cbn; try done.
  - by rewrite length_insert.
  - lia.
  - intros i f [(<- & <- & Hi)|(Hne & Hf)]%list_lookup_insert_Some.
    + split_and!; cbn; [done|done|by rewrite bool_decide_true by lia|]. intros _. by rewrite Hp, decide_True.
    + destruct (V4 i f Hf) as (A' & B' & C' & D'). split_and!; try done.
      * rewrite C'. apply bool_decide_ext. lia.
      * intros Hi. rewrite Hp, decide_False; [apply D'; lia|]. intros E. rewrite <- E, D' in Hn; [done|lia].
  - assert (∀ j g, (k1 ≤ j < k2)%nat → ev_entries b !! j = Some g → e_requestId g ≠ fst r) as Hd.
    { intros j g Hj Hg E. destruct (V4 j g Hg) as (_ & _ & _ & D'). rewrite <- E, D' in Hn; [done|lia]. }
    intros i j f g Hi Hj [(<- & <- & _)|(Hne & Hf)]%list_lookup_insert_Some [(<- & <- & _)|(Hne' & Hg)]%list_lookup_insert_Some; cbn; [done|..].
    + intros E. destruct (Hd j g); [lia|done..].
    + intros E. destruct (Hd i f); [lia|done..].
    + apply V5; [lia|lia|done..].
  - split; intros; rewrite Hc; auto.
Qed.

(** ** The loops *)

Lemma evicting_data b m k1 k2 i : evicting b m k1 k2 → entry_data b i = Some (entry_bytes i).
Proof using Type. clear Hsz Hline Hsmall. intros [(W & Es & _ & Ed & _) _ _ _ _ _]. unfold entry_data, entry_bytes. by rewrite W, Es, Ed. Qed.
Lemma evicting_entry b m k1 k2 i : evicting b m k1 k2 → (i < n)%nat → ∃ e, ev_entries b !! i = Some e ∧ entry_state m k1 k2 i e.
Proof using Type.
  clear Hsz Hline Hsmall. intros [_ V2 _ V4 _ _] Hi. destruct (lookup_lt_is_Some_2 (ev_entries b) i) as [e He]; [lia|]. eauto.
Qed.
(** Which entries are written, and that all are if the memory takes them. *)
Lemma push_loop_spec c i b w m k1 k2 : evicting b m k1 k2 → (i + c = n)%nat → (i ≤ k1)%nat →
  ∃ k1' b' m', push_loop c i b w m = Ret (w || bool_decide (k1 < k1')%nat, b', m') ∧ evicting b' m' k1' k2 ∧ (k1 ≤ k1')%nat ∧
    ((∀ m id, writeInquire (M := M) m id = true) → k1' = k2).
Proof using Hsz Hline Hsmall.
  revert i b w m k1. induction c as [|c IH]; intros i b w m k1 V Hc Hi; cbn [push_loop].
  - exists k1, b, m. rewrite bool_decide_false, orb_false_r by lia. split_and!; try done. intros _. pose proof (v_ord _ _ _ _ V). lia.
  - destruct (evicting_entry _ _ _ _ i V ltac:(lia)) as (e & He & _ & Hd & Hs & _). rewrite He, Hd, Hs.
    destruct (decide (i < k1)%nat) as [Hlt|Hge].
    + rewrite !bool_decide_true by (pose proof (v_ord _ _ _ _ V); lia). cbn [andb negb orb]. apply (IH (S i)); [done|lia|lia].
    + replace i with k1 in * by lia. rewrite (bool_decide_false (k1 < k1)%nat) by lia. cbn [negb andb orb].
      case_bool_decide as Hk; cbn [andb]; [destruct (writeInquire m (e_requestId e)) eqn:Hq|].
      * rewrite (evicting_data _ _ _ _ k1 V).
        destruct (IH (S k1) _ true _ _ (evicting_write _ _ _ _ _ V Hk He Hq)) as (k1' & b' & m' & E & V' & Hle & Hall); [lia|lia|].
        exists k1', b', m'. rewrite Hs in E. rewrite E, (bool_decide_true (k1 < k1')%nat), orb_true_r by lia. split_and!; try done. lia.
      * exists k1, b, m. rewrite bool_decide_false, orb_false_r by lia. split_and!; try done. intros Hall. by rewrite Hall in Hq.
      * exists k1, b, m. rewrite bool_decide_false, orb_false_r by lia. split_and!; try done. intros _. pose proof (v_ord _ _ _ _ V). lia.
Qed.
Lemma evict_send_loop_spec c i b m k1 k2 : evicting b m k1 k2 → (i + c = n)%nat → (i ≤ k2)%nat →
  ∃ k2' b' m', evict_send_loop c i b m = Ret (bool_decide (k2' = n), b', m') ∧ evicting b' m' k1 k2' ∧ (k2 ≤ k2')%nat ∧
    ((∀ m k, sendRequestInquire (M := M) m k = true) → k2' = n).
Proof using Type.
  clear Hsz Hline Hsmall. revert i b m k2. induction c as [|c IH]; intros i b m k2 V Hc Hi; cbn [evict_send_loop].
  - exists k2, b, m. pose proof (v_ord _ _ _ _ V). rewrite bool_decide_true by lia. split_and!; try done. lia.
  - destruct (evicting_entry _ _ _ _ i V ltac:(lia)) as (e & He & _ & Hd & Hs & _). rewrite He, Hs.
    case_bool_decide as Hlt; [apply (IH (S i)); [done|lia|lia]|]. replace i with k2 in * by lia.
    destruct (sendRequestInquire m CacheWrite) eqn:Hq.
    + rewrite (evicting_data _ _ _ _ k2 V).
      destruct (IH (S k2) _ _ _ (evicting_send _ _ _ _ _ V He Hq)) as (k2' & b' & m' & E & V' & Hle & Hall); [lia|lia|].
      exists k2', b', m'. rewrite E. split_and!; try done. lia.
    + exists k2, b, m. rewrite bool_decide_false by lia. split_and!; try done. intros Hall. by rewrite Hall in Hq.
Qed.
Lemma evicted_spec b m k1 k2 : evicting b m k1 k2 → evicted b = bool_decide (k1 = n).
Proof using Type.
  clear Hsz Hline Hsmall. intros V. destruct V as [(_ & _ & V1 & _ & Hd) V2 V3 V4 _ _]. unfold evicted, evict_empty. rewrite Hd. cbn [negb andb].
  rewrite take_ge by lia. case_bool_decide as Hk.
  - apply forallb_forall. intros e [i He]%list_elem_of_In%list_elem_of_lookup. destruct (V4 i e He) as (_ & -> & _). apply lookup_lt_Some in He.
    apply bool_decide_true. lia.
  - apply not_true_is_false. intros Hall. rewrite forallb_forall in Hall. destruct (lookup_lt_is_Some_2 (ev_entries b) k1) as [e He]; [lia|].
    destruct (V4 k1 e He) as (_ & Hs & _). rewrite Hall, bool_decide_false in Hs by (lia || by eapply list_elem_of_In, list_elem_of_lookup_2). done.
Qed.
End Evict.

(** ** An eviction *)

Section Line.
Context {M : Type} `{NextMemoryLaws M}.

Inductive evict_step : EvictBuf * M → EvictBuf * M → Prop :=
| step_push b m r b' m' : pushData b m = Ret (r, b', m') → evict_step (b, m) (b', m')
| step_request b m r b' m' : evict_sendRequest b m = Ret (r, b', m') → evict_step (b, m) (b', m')
| step_below b m m' : evolves m m' → evict_step (b, m) (b, m').

(** A buffer as its constructor and [setEntrySize] leave it. *)
Definition evict_sized (b : EvictBuf) : Prop :=
  uint 32 (ev_lineWidth b) ∧ 0 < ev_entrySize b ∧ ev_nEntries b = ev_lineWidth b / ev_entrySize b ∧
  Z.of_nat (length (ev_entries b)) = ev_nEntries b.
Lemma evict_setEntrySize_sized b size : uint 32 (ev_lineWidth b) → 0 < size →
  ∃ b', evict_setEntrySize b (ev_lineWidth b) size = Ret b' ∧ evict_sized b' ∧ ev_entrySize b' = size ∧ ev_lineWidth b' = ev_lineWidth b ∧
    ev_withData b' = ev_withData b.
Proof using Type.
  intros Hl Hs. unfold evict_setEntrySize. rewrite (proj2 (Z.eqb_neq size 0)) by lia. eexists. split; [done|]. split_and!; try done.
  unfold evict_sized. cbn. split_and!; [done..|]. rewrite length_app, length_take, length_replicate.
  pose proof (Z.div_pos (ev_lineWidth b) size ltac:(unfold uint in Hl; lia) Hs). lia.
Qed.
Lemma reset_entries_spec es size p_ea p_ra : uint 64 p_ra → length (reset_entries es size p_ea p_ra) = length es ∧
  ∀ i e, reset_entries es size p_ea p_ra !! i = Some e →
    e_addr e = wrap 64 (p_ra + Z.of_nat i * size) ∧ e_requestSent e = false ∧ e_dataSent e = false.
Proof using Type.
  revert p_ea p_ra. induction es as [|y es IH]; intros p_ea p_ra Hp; [done|]. cbn [reset_entries length].
  destruct (IH (wrap 64 (p_ea + size)) (wrap 64 (p_ra + size))) as [Hl Hi]; [by apply uint_wrap|]. split; [by rewrite Hl|].
  intros [|i] e He.
  - cbn in He. injection He as <-. cbn. by rewrite Z.add_0_r, wrap_small.
  - destruct (Hi i e He) as (-> & Hr). split; [|done]. rewrite wrap_add_l. f_equal. lia.
Qed.
(** The size of the entries of the next line. *)
Definition evict_width (linefillWidth : Z → Z → Z) (b : EvictBuf) (p_ea p_ra : Z) : Z :=
  if ev_dynEntrySize b then linefillWidth p_ea p_ra else ev_entrySize b.
Lemma evict_init_spec linefillWidth b p_requestId p_ea p_ra line (m : M) :
  let sz := evict_width linefillWidth b p_ea p_ra in let N := ev_lineWidth b / sz * sz in
  evict_sized b → ev_withData b = true → 0 < sz → uint 64 p_ra → N ≤ Z.of_nat (length line) →
  ∃ b', evict_init linefillWidth b p_requestId p_ea p_ra line = Ret b' ∧
    evicting p_ra sz (Z.to_nat (ev_lineWidth b / sz)) (take (Z.to_nat N) line) m b' m 0 0.
Proof using Type.
  cbv zeta. set (sz := evict_width linefillWidth b p_ea p_ra). intros Hb W Hsz Hp Hl.
  assert (∃ b1, (if ev_dynEntrySize b then let cur := linefillWidth p_ea p_ra in
                 if cur =? ev_entrySize b then Ret b else evict_setEntrySize b (ev_lineWidth b) cur else Ret b) = Ret b1 ∧
    evict_sized b1 ∧ ev_entrySize b1 = sz ∧ ev_lineWidth b1 = ev_lineWidth b ∧ ev_withData b1 = true) as (b1 & E1 & (_ & _ & Hn & Hlen) & Hs1 & Hw1 & W1).
  { subst sz. unfold evict_width in *. destruct (ev_dynEntrySize b); [|by exists b]. cbv zeta.
    destruct (Z.eqb_spec (linefillWidth p_ea p_ra) (ev_entrySize b)) as [E|E]; [by exists b|].
    destruct (evict_setEntrySize_sized b (linefillWidth p_ea p_ra)) as (b1 & E1 & Hb1 & R1 & R2 & R3); [apply Hb|done|].
    exists b1. by rewrite W in R3. }
  rewrite Hs1, Hw1 in Hn. pose proof (Z.div_pos (ev_lineWidth b) sz ltac:(destruct Hb as [[? ?] _]; lia) Hsz) as Hpos.
  unfold evict_init. cbv zeta in E1 |- *. rewrite E1. cbn [obind]. rewrite (proj2 (Nat.ltb_ge _ _)) by lia. eexists. split; [done|].
  rewrite Hn, Hs1, W1. assert (length (ev_entries b1) = Z.to_nat (ev_lineWidth b / sz)) as Hlen' by lia.
  rewrite (take_ge (ev_entries b1)), drop_ge, app_nil_r by lia. destruct (reset_entries_spec (ev_entries b1) sz p_ea p_ra Hp) as [Hr1 Hr2].
  split; cbn; try done.
  - split_and!; try done. lia.
  - lia.
  - lia.
  - intros i e He. destruct (Hr2 i e He) as (A & B & C). split_and!; try done; lia.
  - lia.
  - split; [lia|done].
Qed.

Lemma evict_steps_inv L sz n line (m0 : M) p q : 0 < sz → Z.of_nat (length line) = Z.of_nat n * sz → Z.of_nat n * sz ≤ 2 ^ 64 →
  rtc evict_step p q → (∃ k1 k2, evicting L sz n line m0 (fst p) (snd p) k1 k2) → ∃ k1 k2, evicting L sz n line m0 (fst q) (snd q) k1 k2.
Proof using Type.
  intros H1 H2 H3. induction 1 as [|p q' q Hs _ IH]; [done|]. intros (k1 & k2 & V). apply IH.
  pose proof (v_buf _ _ _ _ _ _ _ _ _ V) as (_ & _ & En & _ & Hd).
  destruct Hs as [b m r b' m' E|b m r b' m' E|b m m' E]; cbn [fst snd] in *.
  - unfold pushData, evict_empty in E. rewrite Hd, En, Nat2Z.id in E. cbn [negb] in E.
    destruct (push_loop_spec _ _ _ _ _ H1 H2 H3 n 0 b false m k1 k2 V) as (k1' & b1 & m1 & E1 & V1 & _); [lia|lia|].
    rewrite E in E1. injection E1 as _ -> ->. by exists k1', k2.
  - unfold evict_sendRequest, evict_empty in E. rewrite Hd, En, Nat2Z.id in E. cbn [negb] in E.
    destruct (evict_send_loop_spec _ _ _ _ _ n 0 b m k1 k2 V) as (k2' & b1 & m1 & E1 & V1 & _); [lia|lia|].
    rewrite E in E1. injection E1 as _ -> ->. by exists k1, k2'.
  - exists k1, k2. by eapply evolves_evicting.
Qed.

(** An eviction of [line] to [p_ra], some steps after [init]. *)
Record evict_reaches (linefillWidth : Z → Z → Z) (b0 : EvictBuf) (p_ea p_ra : Z) (line : list Z) (m0 : M) (b : EvictBuf) (m : M) : Prop := {
  e_sized : evict_sized b0;
  e_data : ev_withData b0 = true;
  e_width : 0 < evict_width linefillWidth b0 p_ea p_ra;
  e_addr64 : uint 64 p_ra;
  e_line : ev_lineWidth b0 ≤ Z.of_nat (length line);
  e_steps : ∃ p_requestId b1, evict_init linefillWidth b0 p_requestId p_ea p_ra line = Ret b1 ∧ rtc evict_step (b1, m0) (b, m)
}.
(** What of the line lies in whole entries. *)
Definition evict_bytes (linefillWidth : Z → Z → Z) (b0 : EvictBuf) (p_ea p_ra : Z) : Z :=
  let sz := evict_width linefillWidth b0 p_ea p_ra in ev_lineWidth b0 / sz * sz.

Lemma evict_reaches_evicting linefillWidth b0 p_ea p_ra line m0 b m : evict_reaches linefillWidth b0 p_ea p_ra line m0 b m →
  let sz := evict_width linefillWidth b0 p_ea p_ra in let N := evict_bytes linefillWidth b0 p_ea p_ra in
  let n := Z.to_nat (ev_lineWidth b0 / sz) in
  0 < sz ∧ Z.of_nat n * sz = N ∧ Z.of_nat (length (take (Z.to_nat N) line)) = N ∧ N ≤ 2 ^ 64 ∧
  ∃ k1 k2, evicting p_ra sz n (take (Z.to_nat N) line) m0 b m k1 k2.
Proof using Type.
  intros [Hb W Hsz Hp Hl (id & b1 & E & Hr)]. unfold evict_bytes. cbv zeta. set (sz := evict_width linefillWidth b0 p_ea p_ra) in *.
  pose proof Hb as ([Hw0 Hw1] & _). pose proof (Z.div_pos (ev_lineWidth b0) sz Hw0 Hsz). pose proof (Z.mul_div_le (ev_lineWidth b0) sz Hsz).
  assert (Z.of_nat (Z.to_nat (ev_lineWidth b0 / sz)) * sz = ev_lineWidth b0 / sz * sz) as EN by lia.
  assert (Z.of_nat (length (take (Z.to_nat (ev_lineWidth b0 / sz * sz)) line)) = ev_lineWidth b0 / sz * sz) as El by (rewrite length_take; nia).
  assert (ev_lineWidth b0 / sz * sz ≤ 2 ^ 64) as Hsmall by lia. split_and!; try done.
  destruct (evict_init_spec linefillWidth b0 id p_ea p_ra line m0 Hb W Hsz Hp) as (b2 & E2 & V); [fold sz; lia|]. rewrite E in E2. injection E2 as <-.
  fold sz in V. change b with (fst (b, m)). change m with (snd (b, m)) at 2. eapply evict_steps_inv; [done| | |exact Hr|by exists 0%nat, 0%nat].
  - by rewrite El.
  - by rewrite EN.
Qed.

(** C28: an evicted line is in the memory below: whatever the order of the calls, only bytes of
    the line change there, [evicted] is true when all of them are the line's, and the
    two calls of a cycle always return. *)
Theorem evict_writes_line linefillWidth b0 p_ea p_ra line (m0 : M) b m : evict_reaches linefillWidth b0 p_ea p_ra line m0 b m →
  let N := evict_bytes linefillWidth b0 p_ea p_ra in
  (∀ x, (∀ o, 0 ≤ o < N → x ≠ wrap 64 (p_ra + o)) → contents m x = contents m0 x) ∧
  (evicted b = true → bytes m p_ra N = take (Z.to_nat N) line) ∧
  ∃ sent b1 m1 rd b2 m2, evict_sendRequest b m = Ret (sent, b1, m1) ∧ pushData b1 m1 = Ret (rd, b2, m2) ∧
    ((∀ m k, sendRequestInquire (M := M) m k = true) → (∀ m id, writeInquire (M := M) m id = true) → sent = true ∧ evicted b2 = true).
Proof using Type.
  intros R. destruct (evict_reaches_evicting _ _ _ _ _ _ _ _ R) as (Hsz & En & El & Hs & k1 & k2 & V). cbv zeta.
  set (N := evict_bytes linefillWidth b0 p_ea p_ra) in *. set (sz := evict_width linefillWidth b0 p_ea p_ra) in *.
  set (n := Z.to_nat (ev_lineWidth b0 / sz)) in *. pose proof (v_ord _ _ _ _ _ _ _ _ _ V) as Hk. pose proof (v_written _ _ _ _ _ _ _ _ _ V) as [W1 W2].
  split; [|split].
  - intros x Hx. apply W2. intros o Ho. apply Hx. nia.
  - intros He. rewrite (evicted_spec _ _ _ _ _ _ _ _ _ V) in He. apply bool_decide_eq_true in He as ->. rewrite En in W1.
    apply (list_eq_same_length _ _ (Z.to_nat N)); [lia|unfold bytes; by rewrite length_fmap, length_seqZ|].
    intros i x y Hi Hx Hy. unfold bytes in Hx. rewrite list_lookup_fmap, lookup_seqZ_lt in Hx by lia. cbn in Hx. injection Hx as <-.
    specialize (W1 (Z.of_nat i) ltac:(lia)). rewrite Nat2Z.id, Hy in W1. by injection W1 as W1.
  - pose proof (v_buf _ _ _ _ _ _ _ _ _ V) as (_ & _ & Ene & _ & Hd). unfold evict_sendRequest, evict_empty. rewrite Hd, Ene, Nat2Z.id. cbn [negb].
    destruct (evict_send_loop_spec _ _ _ _ _ n 0 b m k1 k2 V) as (k2' & b1 & m1 & E1 & V1 & _ & R1); [lia|lia|].
    pose proof (v_buf _ _ _ _ _ _ _ _ _ V1) as (_ & _ & Ene1 & _ & Hd1).
    destruct (push_loop_spec p_ra sz n _ m0 Hsz ltac:(by rewrite El) ltac:(by rewrite En) n 0 b1 false m1 k1 k2' V1) as (k1' & b2 & m2 & E2 & V2 & _ & R2); [lia|lia|].
    do 6 eexists. split; [exact E1|]. unfold pushData, evict_empty. rewrite Hd1, Ene1, Nat2Z.id. split; [exact E2|].
    intros Hr1 Hr2. rewrite (evicted_spec _ _ _ _ _ _ _ _ _ V2). specialize (R1 Hr1). specialize (R2 Hr2). by rewrite R2, R1, !bool_decide_true.
Qed.
End Line.

(** ** Witness: a line of 16 bytes in entries of 8 *)

Module EvictExample.
Definition width (_ _ : Z) : Z := 8.
Definition mem : ReadyMemory := RM (λ _, 0) [].
Definition line : list Z := seqZ 1 16.
(** The buffer as it is made, and its start. *)
Lemma start_reaches : ∃ b0 b, new_EvictBuf 16 8 true false = Ret b0 ∧ ev_lineWidth b0 = 16 ∧ evict_width width b0 0x2000 0x2000 = 8 ∧
  evict_reaches width b0 0x2000 0x2000 line mem b mem.
Proof.
  do 2 eexists. split; [vm_compute; reflexivity|]. split; [reflexivity|]. split; [reflexivity|]. split.
  - unfold evict_sized, uint. split_and!; vm_compute; done.
  - reflexivity.
  - reflexivity.
  - unfold uint. lia.
  - vm_compute. discriminate.
  - exists 1. eexists. split; [vm_compute; reflexivity|]. reflexivity.
Qed.
End EvictExample.

Lemma evict_writes_line_witness : ∃ b0 b m, evict_reaches EvictExample.width b0 0x2000 0x2000 EvictExample.line EvictExample.mem b m ∧
  evicted b = true ∧ bytes m 0x2000 16 = seqZ 1 16.
Proof.
  destruct EvictExample.start_reaches as (b0 & b & E0 & El & Ew & R). exists b0.
  destruct (evict_writes_line _ b0 0x2000 0x2000 _ _ b EvictExample.mem R) as (_ & _ & sent & b1 & m1 & rd & b2 & m2 & E1 & E2 & Hc).
  destruct (Hc (λ _ _, eq_refl) (λ _ _, eq_refl)) as [_ He]. exists b2, m2.
  assert (evict_reaches EvictExample.width b0 0x2000 0x2000 EvictExample.line EvictExample.mem b2 m2) as R2.
  { destruct R as [R1 R2 R3 R4 R5 (id & b' & Ei & Hr)]. split; try assumption. exists id, b'. split; [exact Ei|].
    eapply rtc_r; [eapply rtc_r; [exact Hr|exact (step_request _ _ _ _ _ E1)]|exact (step_push _ _ _ _ _ E2)]. }
  split; [exact R2|]. split; [exact He|].
  destruct (evict_writes_line _ b0 0x2000 0x2000 _ _ b2 m2 R2) as (_ & Hb & _).
  unfold evict_bytes in Hb. rewrite El, Ew in Hb. exact (Hb He).
Defined.
