(* ===== verification/MemoryLog.v ===== *)
(** * The log of initialized memory

    [MemInits] and [MemoryLog] of [src/iss/MemoryLog.h] and [MemoryLog.C]: which words of
    which memory have been written by the readers, for the writers that list them.

    A [std::map] from block addresses is an association list in ascending order; the
    cached pointer [_last] to the array of a block is the key of the block, which a
    [std::map] does not move.  Nodes are their addresses ([Z]) with what
    [getMemInfo] and [children], which are virtual, say of them. *)
From stdpp Require Import prelude strings gmap sorting.
From Stdlib Require Import ZArith Lia.
From S2P Require Import Prelude.

Local Open Scope Z_scope.

(** ** The words of one memory *)

Definition WordShift : Z := 2.
Definition WordMax : Z := 4.
Definition AddrShift : Z := 12.
Definition AddrMask : Z := 4095.
Definition AddrMax : Z := 4096.
Definition BlockSize : nat := 1024.

Definition MemInitsBase : Type := list (Z * list bool).
Fixpoint find (k : Z) (m : MemInitsBase) : option (list bool) :=
  match m with
  | [] => None
  | (k', v) :: m => if k =? k' then Some v else find k m
  end.
(** [insert] of a key that is not there. *)
Fixpoint insert_block (k : Z) (v : list bool) (m : MemInitsBase) : MemInitsBase :=
  match m with
  | [] => [(k, v)]
  | (k', v') :: r => if k <? k' then (k, v) :: m else (k', v') :: insert_block k v r
  end.
(** A store to the array of a block. *)
Fixpoint store_block (k : Z) (v : list bool) (m : MemInitsBase) : MemInitsBase :=
  match m with
  | [] => []
  | (k', v') :: r => if k =? k' then (k', v) :: r else (k', v') :: store_block k v r
  end.
Record MemInits : Type := MI { blocks : MemInitsBase; _last_addr : Z; _last : option Z }.

Definition new_inits : MemInits := MI [] 0 None.
(** The copy constructor and the assignment. *)
Definition copy_inits (x : MemInits) : MemInits := MI (blocks x) 0 None.
Definition inits_clear (x : MemInits) : MemInits := MI [] 0 None.
Definition inits_add (x : MemInits) (blk_addr : Z) : MemInits :=
  let b := match find blk_addr (blocks x) with
           | Some _ => blocks x
           | None => insert_block blk_addr (replicate BlockSize false) (blocks x) end in
  MI b blk_addr (Some blk_addr).
Definition inits_set (x : MemInits) (a : Z) : outcome (bool * MemInits) :=
  let blk_addr := Z.shiftr a AddrShift in
  let blk_offset := Z.to_nat (Z.shiftr (Z.land a AddrMask) WordShift) in
  let x := match _last x with
           | Some _ => if blk_addr =? _last_addr x then x else inits_add x blk_addr
           | None => inits_add x blk_addr end in
  match _last x with
  | None => Undefined
  | Some k =>
    match find k (blocks x) with
    | None => Undefined
    | Some v =>
      match v !! blk_offset with
      | None => Undefined
      | Some old => Ret (negb old, MI (store_block k (<[blk_offset := true]> v) (blocks x)) (_last_addr x) (_last x))
      end
    end
  end.

(** *** Iterators *)

(** [_di] is a position in the map. *)
Record const_iterator : Type := It { _di : nat; _index : Z }.
Definition it_begin : const_iterator := It 0 0.
Definition it_end (x : MemInits) : const_iterator := It (length (blocks x)) 0.
Definition it_next (i : const_iterator) : const_iterator :=
  let index := wrap 32 (_index i + WordMax) in
  if AddrMax <=? index then It (S (_di i)) 0 else It (_di i) index.
Definition it_eqb (i j : const_iterator) : bool := (Nat.eqb (_di i) (_di j)) && (_index i =? _index j).
Definition it_addr (x : MemInits) (i : const_iterator) : outcome Z :=
  match blocks x !! _di i with
  | Some (k, _) => Ret (Z.lor (wrap 64 (Z.shiftl k AddrShift)) (_index i))
  | None => Undefined
  end.
Definition is_init (x : MemInits) (i : const_iterator) : outcome bool :=
  match blocks x !! _di i with
  | Some (_, v) => match v !! Z.to_nat (Z.shiftr (_index i) WordShift) with Some b => Ret b | None => Undefined end
  | None => Undefined
  end.
(** The loop of the writers over the words that have been set.  Fuel that runs out would
    be an endless loop. *)
Fixpoint written_loop (fuel : nat) (x : MemInits) (i : const_iterator) : option (outcome (list Z)) :=
  match fuel with
  | O => None
  | S fuel =>
    if it_eqb i (it_end x) then Some (Ret []) else
    match is_init x i, it_addr x i with
    | Ret b, Ret a =>
      match written_loop fuel x (it_next i) with
      | Some (Ret l) => Some (Ret (if b then a :: l else l))
      | r => r end
    | _, _ => Some Undefined
    end
  end.
Definition written_words (x : MemInits) : option (outcome (list Z)) :=
  written_loop (S (length (blocks x) * BlockSize)) x it_begin.

(** ** The memories of all nodes *)

Inductive IssNode : Type := Node (self : Z) (getMemInfo : list (string * Z)) (children : list IssNode).
Record MemData : Type := MD { _addrs : list MemInits; _mem_ids : gmap string Z }.
Definition new_data : MemData := MD [] ∅.
Record MemoryLog : Type := ML { _local_inits : gmap Z MemData; _global_inits : MemInits }.
Definition new_log : MemoryLog := ML ∅ new_inits.

(** [std::map::insert] and [operator[]]. *)
Definition insert_new (ids : gmap string Z) (p : string * Z) : gmap string Z :=
  match ids !! fst p with Some _ => ids | None => <[fst p := snd p]> ids end.
Definition data_of (log : MemoryLog) (n : Z) : MemData := default new_data (_local_inits log !! n).

Definition resize_inits (l : list MemInits) (n : nat) : list MemInits := take n l ++ replicate (n - length l) new_inits.
Definition add_node (log : MemoryLog) (self : Z) (minfo : list (string * Z)) : MemoryLog :=
  let md := data_of log self in
  let md := MD (resize_inits (_addrs md) (length minfo)) (foldl insert_new (_mem_ids md) minfo) in
  ML (<[self := md]> (_local_inits log)) (_global_inits log).
Fixpoint add_nodes (log : MemoryLog) (node : IssNode) : MemoryLog :=
  match node with
  | Node self minfo children =>
    (fix go log l := match l with [] => log | c :: l => go (add_nodes log c) l end) (add_node log self minfo) children
  end.
(** Unknown names get the number 0, and unknown nodes an entry. *)
Definition get_mem_id (log : MemoryLog) (n : Z) (name : string) : Z * MemoryLog :=
  let md := data_of log n in
  let id := default 0 (_mem_ids md !! name) in
  (id, ML (<[n := MD (_addrs md) (<[name := id]> (_mem_ids md))]> (_local_inits log)) (_global_inits log)).
Definition log_set_id (log : MemoryLog) (n id addr : Z) : outcome (bool * MemoryLog) :=
  if id =? 0
  then let! r := inits_set (_global_inits log) addr in Ret (fst r, ML (_local_inits log) (snd r))
  else
    let md := data_of log n in
    if id <? 1 then Undefined else
    match _addrs md !! Z.to_nat (id - 1) with
    | None => Undefined
    | Some x =>
      let! r := inits_set x addr in
      Ret (fst r, ML (<[n := MD (<[Z.to_nat (id - 1) := snd r]> (_addrs md)) (_mem_ids md)]> (_local_inits log)) (_global_inits log))
    end.
Definition log_set (log : MemoryLog) (n : Z) (mname : string) (addr : Z) : outcome (bool * MemoryLog) :=
  let r := get_mem_id log n mname in log_set_id (snd r) n (fst r) addr.
Definition data_clear (md : MemData) : MemData := MD [] (_mem_ids md).
Definition log_clear (log : MemoryLog) : MemoryLog := ML (data_clear <$> _local_inits log) (inits_clear (_global_inits log)).
(** [local_inits(n)] and [get_addrs(id)]. *)
Definition local_inits (log : MemoryLog) (n : Z) : outcome MemData :=
  match _local_inits log !! n with Some md => Ret md | None => Throw "MemoryLog::_local_inits:  unknown node." end.
Definition get_addrs (md : MemData) (id : Z) : outcome MemInits :=
  if id <? 1 then Undefined else match _addrs md !! Z.to_nat (id - 1) with Some x => Ret x | None => Undefined end.
(** The copy that a writer takes. *)
Definition copy_data (md : MemData) : MemData := MD (copy_inits <$> _addrs md) (_mem_ids md).
Definition copy_log (log : MemoryLog) : MemoryLog := ML (copy_data <$> _local_inits log) (copy_inits (_global_inits log)).
