(* ===== verification/MemoryLogCorrect.v ===== *)
(** * The memory log is a set of words for each memory *)
From stdpp Require Import prelude strings gmap sorting.
From Stdlib Require Import ZArith Lia.
From S2P Require Import Prelude.
From S2P Require Import MemoryLog.

Local Open Scope Z_scope.

(** ** Blocks *)

Definition keys (m : MemInitsBase) : list Z := fst <$> m.
Lemma find_None k m : find k m = None ↔ k ∉ keys m.
Proof.
  induction m as [|[k' v] m IH]; cbn [find keys fmap list_fmap fst]; [split; [intros _; apply not_elem_of_nil|done]|].
  rewrite not_elem_of_cons. destruct (Z.eqb_spec k k'); [split; [done|tauto]|]. rewrite IH. tauto.
Qed.
Lemma find_elem k v m : find k m = Some v → (k, v) ∈ m.
Proof.
  induction m as [|[k' v'] m IH]; cbn [find]; [done|]. destruct (Z.eqb_spec k k') as [-> |]; [intros [= ->]; by left|]. intros Hf. right. auto.
Qed.
Lemma elem_find k v m : StronglySorted Z.lt (keys m) → (k, v) ∈ m → find k m = Some v.
Proof.
  induction m as [|[k' v'] m IH]; cbn [find]; [by intros _ ?%not_elem_of_nil|]. intros [Hs Hl]%StronglySorted_inv [[= -> ->]|Hin]%elem_of_cons.
  - by rewrite Z.eqb_refl.
  - rewrite Forall_forall in Hl. destruct (Z.eqb_spec k k') as [-> |]; [|auto].
    specialize (Hl k'). cbn in Hl. destruct (Z.lt_irrefl k'). apply Hl. apply (list_elem_of_fmap_2 fst _ _ Hin).
Qed.
Lemma find_insert k k0 v m : find k0 m = None → find k (insert_block k0 v m) = if k =? k0 then Some v else find k m.
Proof.
  induction m as [|[k' v'] m IH]; cbn [find insert_block]; [done|]. destruct (Z.eqb_spec k0 k') as [|Hne]; [done|]. intros Hn.
  destruct (k0 <? k'); cbn [find]; [done|]. rewrite IH by done. destruct (Z.eqb_spec k k'), (Z.eqb_spec k k0); congruence.
Qed.
Lemma elem_insert p k0 v m : p ∈ insert_block k0 v m ↔ p = (k0, v) ∨ p ∈ m.
Proof.
  induction m as [|[k' v'] m IH]; cbn [insert_block].
  { rewrite list_elem_of_singleton, elem_of_nil. tauto. }
  destruct (k0 <? k'); rewrite !elem_of_cons; [done|]. rewrite IH. tauto.
Qed.
Lemma keys_insert k k0 v m : k ∈ keys (insert_block k0 v m) ↔ k = k0 ∨ k ∈ keys m.
Proof.
  unfold keys. rewrite !list_elem_of_fmap. setoid_rewrite elem_insert. split.
  - intros (p & -> & [-> |Hp]); [by left|right; by exists p].
  - intros [-> |(p & -> & Hp)]; [by exists (k0, v); auto|exists p; auto].
Qed.
Lemma sorted_insert k0 v m : find k0 m = None → StronglySorted Z.lt (keys m) → StronglySorted Z.lt (keys (insert_block k0 v m)).
Proof.
  intros Hf%find_None. induction m as [|[k' v'] m IH]; cbn [insert_block]; [intros _; repeat constructor|]. intros Hs.
  pose proof Hs as [Hs' Hl]%StronglySorted_inv. apply not_elem_of_cons in Hf as [Hne Hf].
  destruct (Z.ltb_spec k0 k') as [Hlt|Hge].
  - constructor; [done|]. constructor; [done|]. eapply Forall_impl; [exact Hl|]. cbn. lia.
  - constructor; [by apply IH|]. apply Forall_forall. intros k [-> |Hk]%keys_insert; [cbn in *; lia|]. rewrite Forall_forall in Hl. by apply Hl.
Qed.
Lemma keys_store k0 v m : keys (store_block k0 v m) = keys m.
Proof. induction m as [|[k' v'] m IH]; cbn; [done|]. destruct (k0 =? k'); cbn; [done|]. f_equal. exact IH. Qed.
Lemma find_store k k0 v m : find k (store_block k0 v m) = if k =? k0 then (if find k0 m is Some _ then Some v else None) else find k m.
Proof.
  induction m as [|[k' v'] m IH]; cbn [find store_block]; [by destruct (k =? k0)|].
  destruct (Z.eqb_spec k0 k') as [-> |Hne]; cbn [find].
  - by destruct (k =? k').
  - rewrite IH. destruct (Z.eqb_spec k k') as [-> |]; [|done]. destruct (Z.eqb_spec k' k0); congruence.
Qed.
Lemma elem_store p k0 v m : p ∈ store_block k0 v m → p = (k0, v) ∨ p ∈ m.
Proof.
  induction m as [|[k' v'] m IH]; cbn [store_block]; [by intros ?%not_elem_of_nil|].
  destruct (Z.eqb_spec k0 k') as [-> |]; rewrite !elem_of_cons; [tauto|].
  intros [-> |Hp]; [tauto|]. apply IH in Hp. tauto.
Qed.

(** ** One memory *)

Definition word (a : Z) : Z := a / 4 * 4.
Definition cell (a : Z) : nat := Z.to_nat (a mod 4096 / 4).
#[local] Opaque BlockSize.
Record wf (x : MemInits) : Prop := {
  wf_sorted : StronglySorted Z.lt (keys (blocks x));
  wf_blocks : ∀ k v, (k, v) ∈ blocks x → 0 ≤ k < 2 ^ 52 ∧ length v = BlockSize;
  wf_last : ∀ k, _last x = Some k → k = _last_addr x ∧ find k (blocks x) ≠ None
}.
Definition flag (x : MemInits) (a : Z) : bool :=
  match find (a / 4096) (blocks x) with Some v => default false (v !! cell a) | None => false end.
(** The log holds the set [S] of words. *)
Record rep (x : MemInits) (S : gset Z) : Prop := {
  rep_wf : wf x;
  rep_flag : ∀ a, uint 64 a → flag x a = bool_decide (word a ∈ S);
  rep_words : ∀ w, w ∈ S → uint 64 w ∧ word w = w
}.
Lemma cell_bound a : (cell a < BlockSize)%nat.
Proof. change BlockSize with 1024%nat. unfold cell. pose proof (Z.mod_pos_bound a 4096). pose proof (Z.div_lt_upper_bound (a mod 4096) 4 1024). lia. Qed.
Lemma word_cell a b : word a = word b ↔ a / 4096 = b / 4096 ∧ cell a = cell b.
Proof. unfold word, cell. zlia. Qed.
Lemma word_word a : word (word a) = word a.
Proof. unfold word. zlia. Qed.
Lemma set_index a : Z.to_nat (Z.shiftr (Z.land a AddrMask) WordShift) = cell a.
Proof. unfold AddrMask, WordShift, cell. change 4095 with (Z.ones 12). rewrite Z.land_ones, Z.shiftr_div_pow2 by lia. done. Qed.

Lemma rep_new : rep new_inits ∅.
Proof. split; [split|done|done]; cbn; [constructor|by intros k v ?%not_elem_of_nil|done]. Qed.
Lemma rep_copy x S : rep x S → rep (copy_inits x) S.
Proof. intros [[W1 W2 W3] R1 R2]. by split; [split|..]. Qed.

(** The block of an address is there after [add]. *)
Definition with_block (x : MemInits) (a : Z) : MemInits :=
  match _last x with
  | Some _ => if Z.shiftr a AddrShift =? _last_addr x then x else inits_add x (Z.shiftr a AddrShift)
  | None => inits_add x (Z.shiftr a AddrShift) end.
Lemma block_bound a : uint 64 a → Z.shiftr a AddrShift = a / 4096 ∧ 0 ≤ a / 4096 < 2 ^ 52.
Proof. intros [H1 H2]. unfold AddrShift. rewrite Z.shiftr_div_pow2 by lia. change (2 ^ 12) with 4096. split; [done|]. zlia. Qed.
Lemma flag_add x k a : flag (inits_add x k) a = flag x a.
Proof.
  unfold flag, inits_add. cbn [blocks]. destruct (find k (blocks x)) eqn:E; [done|]. rewrite find_insert by done.
  destruct (Z.eqb_spec (a / 4096) k) as [-> |]; [|done]. rewrite E, lookup_replicate_2 by apply cell_bound. done.
Qed.
Lemma wf_add x k : wf x → 0 ≤ k < 2 ^ 52 → wf (inits_add x k).
Proof.
  intros [W1 W2 W3] Hk. unfold inits_add. destruct (find k (blocks x)) eqn:E; split; cbn [blocks _last _last_addr]; try done.
  - intros k' [= <-]. by rewrite E.
  - by apply sorted_insert.
  - intros k' v [Ep|Hin]%elem_insert; [|auto]. injection Ep as -> Ev. split; [done|]. by rewrite Ev, length_replicate.
  - intros k' [= <-]. by rewrite find_insert, Z.eqb_refl.
Qed.
Lemma with_block_spec x a : wf x → uint 64 a → let y := with_block x a in
  wf y ∧ _last y = Some (a / 4096) ∧ (∀ b, flag y b = flag x b).
Proof.
  intros W Ha. destruct (block_bound a Ha) as [E Hb]. unfold with_block. rewrite E.
  assert (wf (inits_add x (a / 4096)) ∧ _last (inits_add x (a / 4096)) = Some (a / 4096) ∧ (∀ b, flag (inits_add x (a / 4096)) b = flag x b)) as Hadd.
  { split; [by apply wf_add|]. split; [done|]. intros b. apply flag_add. }
  destruct (_last x) as [k|] eqn:El; [|done]. destruct (Z.eqb_spec (a / 4096) (_last_addr x)) as [Ea|]; [|done].
  split; [done|]. split; [|done]. destruct (wf_last _ W k El) as [-> _]. by rewrite Ea.
Qed.
Lemma inits_set_spec x S a : rep x S → uint 64 a →
  ∃ x', inits_set x a = Ret (bool_decide (word a ∉ S), x') ∧ rep x' ({[word a]} ∪ S).
Proof.
  intros [W R1 R2] Ha. unfold inits_set. rewrite set_index. fold (with_block x a).
  destruct (with_block_spec x a W Ha) as (Wy & Ly & Fy). set (y := with_block x a) in *. rewrite Ly.
  destruct (wf_last _ Wy _ Ly) as [_ Hf]. destruct (find (a / 4096) (blocks y)) as [v|] eqn:Ef; [|done]. clear Hf.
  destruct (wf_blocks _ Wy _ _ (find_elem _ _ _ Ef)) as [_ Hlen].
  destruct (lookup_lt_is_Some_2 v (cell a)) as [old Hold]; [rewrite Hlen; apply cell_bound|]. rewrite Hold.
  assert (old = bool_decide (word a ∈ S)) as Eold.
  { rewrite <- R1 by done. rewrite <- Fy. unfold flag. by rewrite Ef, Hold. }
  rewrite Eold, <- bool_decide_not. eexists. split; [done|]. split.
  - destruct Wy as [Y1 Y2 Y3]. split; cbn.
    + by rewrite keys_store.
    + intros k' v' [[= -> ->]|Hin]%elem_store; [|auto]. rewrite length_insert. split; [by apply block_bound|done].
    + intros k Hk. rewrite <- Ly in Hk. destruct (Y3 k Hk) as [Hl Hf]. split; [done|]. rewrite find_store. destruct (Z.eqb_spec k (a / 4096)); [by rewrite Ef|done].
  - intros b Hb. unfold flag. cbn [blocks]. rewrite find_store, Ef. pose proof (R1 b Hb) as Rb. rewrite <- Fy in Rb. unfold flag in Rb.
    destruct (Z.eqb_spec (b / 4096) (a / 4096)) as [E|E].
    + rewrite E, Ef in Rb. destruct (decide (cell b = cell a)) as [Ec|Ec].
      * rewrite Ec, list_lookup_insert_eq by (by eapply lookup_lt_Some). symmetry. apply bool_decide_true.
        rewrite (proj2 (word_cell b a)) by done. by apply elem_of_union_l, elem_of_singleton.
      * rewrite list_lookup_insert_ne by done. rewrite Rb. apply bool_decide_ext. rewrite elem_of_union, elem_of_singleton, word_cell. tauto.
    + rewrite Rb. apply bool_decide_ext. rewrite elem_of_union, elem_of_singleton, word_cell. tauto.
  - intros w [->%elem_of_singleton|Hw]%elem_of_union; [|auto]. split; [unfold word, uint in *; zlia|apply word_word].
Qed.

(** *** The iterators *)

Fixpoint words_from (a : Z) (v : list bool) : list Z :=
  match v with [] => [] | b :: v => if b then a :: words_from (a + 4) v else words_from (a + 4) v end.
Definition all_words (m : MemInitsBase) : list Z := mjoin ((λ p, words_from (fst p * 4096) (snd p)) <$> m).

Lemma words_from_elem a v w : w ∈ words_from a v ↔ ∃ i, v !! i = Some true ∧ w = a + 4 * Z.of_nat i.
Proof.
  revert a. induction v as [|b v IH]; intros a; cbn [words_from].
  - rewrite elem_of_nil. split; [done|by intros (i & Hi & _)].
  - assert (w ∈ words_from (a + 4) v ↔ ∃ i, (b :: v) !! S i = Some true ∧ w = a + 4 * Z.of_nat (S i)) as Hr.
    { rewrite IH. cbn [lookup]. apply exist_proper. intros i. cbn. split; intros [H1 H2]; (split; [done|lia]). }
    destruct b; [rewrite elem_of_cons|]; rewrite Hr; split.
    + intros [-> |(i & H1 & H2)]; [exists 0%nat; split; [done|lia]|by exists (S i)].
    + intros ([|i] & H1 & H2); [left; lia|right; by exists i].
    + intros (i & H1 & H2). by exists (S i).
    + intros ([|i] & H1 & H2); [done|by exists i].
Qed.
Lemma words_from_sorted a v : StronglySorted Z.lt (words_from a v).
Proof.
  revert a. induction v as [|b v IH]; intros a; cbn [words_from]; [constructor|]. destruct b; [|done]. constructor; [done|].
  apply Forall_forall. intros w (i & _ & ->)%words_from_elem. lia.
Qed.
Lemma all_words_elem m w : w ∈ all_words m ↔ ∃ k v i, (k, v) ∈ m ∧ v !! i = Some true ∧ w = k * 4096 + 4 * Z.of_nat i.
Proof.
  unfold all_words. rewrite list_elem_of_join. setoid_rewrite list_elem_of_fmap. split.
  - intros (l & Hw & ([k v] & -> & Hin)). apply words_from_elem in Hw as (i & Hi & ->). by exists k, v, i.
  - intros (k & v & i & Hin & Hi & ->). eexists. split; [|by exists (k, v)]. apply words_from_elem. by exists i.
Qed.
Lemma all_words_sorted m : StronglySorted Z.lt (keys m) → (∀ k v, (k, v) ∈ m → length v = BlockSize) → StronglySorted Z.lt (all_words m).
Proof.
  induction m as [|[k v] m IH]; [intros; constructor|]. intros [Hs Hl]%StronglySorted_inv Hb.
  change (all_words ((k, v) :: m)) with (words_from (k * 4096) v ++ all_words m). apply StronglySorted_app_2.
  - intros w w' (i & Hi & ->)%words_from_elem (k' & v' & j & Hin & Hj & ->)%all_words_elem.
    apply lookup_lt_Some in Hi. rewrite (Hb k v) in Hi by left. change BlockSize with 1024%nat in Hi. rewrite Forall_forall in Hl.
    assert (k < k') by (apply Hl, (list_elem_of_fmap_2 fst _ _ Hin)). lia.
  - apply words_from_sorted.
  - apply IH; [done|]. intros. eapply Hb. by right.
Qed.

(** The rest of a block. *)
Definition then_words (l : list Z) (r : option (outcome (list Z))) : option (outcome (list Z)) :=
  match r with Some (Ret l') => Some (Ret (l ++ l')) | r => r end.
Lemma then_words_cons (b : bool) a l r :
  match then_words l r with Some (Ret l') => Some (Ret (if b then a :: l' else l')) | r => r end =
  then_words (if b then a :: l else l) r.
Proof. destruct r as [[| | |]|]; cbn; try done. by destruct b. Qed.
Lemma loop_block x d k v fuel n i : wf x → blocks x !! d = Some (k, v) → (i + S n = BlockSize)%nat →
  written_loop (S n + fuel) x (It d (4 * Z.of_nat i)) =
  then_words (words_from (k * 4096 + 4 * Z.of_nat i) (drop i v)) (written_loop fuel x (It (S d) 0)).
Proof.
  intros W Hd. destruct (wf_blocks _ W k v) as [Hk Hlen]; [by eapply list_elem_of_lookup_2|]. change BlockSize with 1024%nat in *.
  revert i. induction n as [|n IH]; intros i Hi; (change (S ?n + fuel)%nat with (S (n + fuel)); cbn [written_loop]).
  all: assert (it_eqb (It d (4 * Z.of_nat i)) (it_end x) = false) as ->
    by (unfold it_eqb, it_end; cbn; apply lookup_lt_Some in Hd; by rewrite (proj2 (Nat.eqb_neq _ _)) by lia).
  all: unfold is_init, it_addr, WordShift, AddrShift; cbn [_di _index]; rewrite Hd; rewrite Z.shiftr_div_pow2 by lia; change (2 ^ 2) with 4.
  all: rewrite (Z.mul_comm 4), Z.div_mul, Nat2Z.id by lia.
  all: destruct (lookup_lt_is_Some_2 v i) as [b Hb]; [lia|]; rewrite Hb, (drop_S _ _ _ Hb).
  all: rewrite (wrap_small 64 (Z.shiftl k 12)) by (unfold uint; rewrite Z.shiftl_mul_pow2 by lia; lia).
  all: rewrite Z.lor_comm, Z.shiftl_mul_pow2, lor_add by (unfold uint; lia); change (2 ^ 12) with 4096; cbn [words_from].
  all: unfold it_next, WordMax, AddrMax; cbn [_di _index]; rewrite wrap_small by (unfold uint; lia).
  - rewrite (proj2 (Z.leb_le _ _)) by lia. rewrite (drop_ge v) by lia. cbn [words_from Nat.add].
    replace (Z.of_nat i * 4 + k * 4096) with (k * 4096 + Z.of_nat i * 4) by lia.
    rewrite <- (then_words_cons b). by destruct (written_loop fuel x (It (S d) 0)) as [[| | |]|].
  - rewrite (proj2 (Z.leb_gt _ _)) by lia. replace (Z.of_nat i * 4 + 4) with (4 * Z.of_nat (S i)) by lia.
    rewrite (IH (S i)) by lia. rewrite then_words_cons.
    replace (Z.of_nat i * 4 + k * 4096) with (k * 4096 + Z.of_nat i * 4) by lia.
    by replace (k * 4096 + 4 * Z.of_nat (S i)) with (k * 4096 + Z.of_nat i * 4 + 4) by lia.
Qed.
Lemma loop_blocks x l d : wf x → drop d (blocks x) = l → (d + length l = length (blocks x))%nat →
  written_loop (S (length l * BlockSize)) x (It d 0) = Some (Ret (all_words l)).
Proof.
  intros W. revert d. induction l as [|[k v] l IH]; intros d Hd Hlen.
  - cbn [length Nat.mul written_loop]. unfold it_eqb, it_end. cbn [_di _index].
    by rewrite (proj2 (Nat.eqb_eq d (length (blocks x)))) by (cbn in Hlen; lia).
  - assert (blocks x !! d = Some (k, v)) as Hl.
    { pose proof (lookup_drop (blocks x) d 0) as E. rewrite Hd, Nat.add_0_r in E. exact (eq_sym E). }
    assert (length ((k, v) :: l) * BlockSize = 1023 + S (length l * BlockSize))%nat as -> by (cbn [length]; change BlockSize with 1024%nat; lia).
    change (S (1023 + S (length l * BlockSize))) with (S 1023 + S (length l * BlockSize))%nat.
    pose proof (loop_block x d k v (S (length l * BlockSize)) 1023 0 W Hl eq_refl) as E. rewrite Z.mul_0_r, Z.add_0_r, drop_0 in E. rewrite E.
    rewrite (IH (S d)); [done| |cbn in Hlen; lia]. rewrite (drop_S _ _ _ Hl) in Hd. by injection Hd.
Qed.
(** The writers' loop lists the words of the set in ascending order. *)
Lemma written_words_spec x S : rep x S →
  ∃ l, written_words x = Some (Ret l) ∧ StronglySorted Z.lt l ∧ ∀ w, w ∈ l ↔ w ∈ S.
Proof.
  intros [W R1 R2]. exists (all_words (blocks x)). split; [by apply loop_blocks|]. split.
  { apply all_words_sorted; [apply W|]. intros k v Hin. by destruct (wf_blocks _ W _ _ Hin). }
  assert (∀ k v i, (k, v) ∈ blocks x → v !! i = Some true → let w := k * 4096 + 4 * Z.of_nat i in uint 64 w ∧ word w = w ∧ flag x w = true) as Hcell.
  { intros k v i Hin Hi. destruct (wf_blocks _ W _ _ Hin) as [Hk Hlen]. pose proof (lookup_lt_Some _ _ _ Hi) as Hlt. rewrite Hlen in Hlt.
    change BlockSize with 1024%nat in Hlt. cbv zeta. split; [unfold uint; lia|]. split; [unfold word; zlia|].
    unfold flag. replace ((k * 4096 + 4 * Z.of_nat i) / 4096) with k by zlia. rewrite (elem_find k v) by (done || apply W).
    replace (cell (k * 4096 + 4 * Z.of_nat i)) with i by (unfold cell; zlia). by rewrite Hi. }
  intros w. rewrite all_words_elem. split.
  - intros (k & v & i & Hin & Hi & ->). destruct (Hcell k v i Hin Hi) as (H1 & H2 & H3). rewrite R1 in H3 by done. apply bool_decide_eq_true in H3. by rewrite H2 in H3.
  - intros Hw. destruct (R2 w Hw) as [Hu Hww]. pose proof (R1 w Hu) as Hf. rewrite Hww, bool_decide_true in Hf by done.
    unfold flag in Hf. destruct (find (w / 4096) (blocks x)) as [v|] eqn:Ef; [|done]. exists (w / 4096), v, (cell w).
    split; [by apply find_elem|]. destruct (v !! cell w) as [b|] eqn:Ev; [|done]. cbn in Hf. subst b. split; [done|].
    rewrite <- Hww at 1. unfold word, cell. zlia.
Qed.

(** ** The memories of all nodes *)

(** A memory: the global one, or one of a node, by its number. *)
Definition memory : Type := option (Z * Z).
Definition memory_of (n id : Z) : memory := if id =? 0 then None else Some (n, id).
Definition marks : Type := memory → gset Z.
Definition mark (A : marks) (k : memory) (w : Z) : marks := λ k', if decide (k' = k) then {[w]} ∪ A k else A k'.

Definition named (log : MemoryLog) (n : Z) (name : string) : Z := default 0 (_mem_ids (data_of log n) !! name).
Definition count (log : MemoryLog) (n : Z) : Z := Z.of_nat (length (_addrs (data_of log n))).
Record log_rep (log : MemoryLog) (A : marks) : Prop := {
  lr_global : rep (_global_inits log) (A None);
  lr_local : ∀ n i x, _addrs (data_of log n) !! i = Some x → rep x (A (Some (n, Z.of_nat i + 1)))
}.
Definition same_names (log log' : MemoryLog) : Prop := (∀ n name, named log' n name = named log n name) ∧ ∀ n, count log' n = count log n.

Lemma data_of_insert log n md g n' : data_of (ML (<[n := md]> (_local_inits log)) g) n' = if decide (n' = n) then md else data_of log n'.
Proof. unfold data_of. cbn. destruct (decide (n' = n)) as [-> |]; [by rewrite lookup_insert_eq|by rewrite lookup_insert_ne]. Qed.
Lemma get_mem_id_spec log n name A : log_rep log A → let r := get_mem_id log n name in
  fst r = named log n name ∧ log_rep (snd r) A ∧ same_names log (snd r) ∧ (∀ n', _addrs (data_of (snd r) n') = _addrs (data_of log n')).
Proof.
  intros [R1 R2]. cbv zeta. unfold get_mem_id. cbn [fst snd].
  assert (∀ n', _addrs (data_of (ML (<[n := MD (_addrs (data_of log n)) (<[name := default 0 (_mem_ids (data_of log n) !! name)]> (_mem_ids (data_of log n)))]>
    (_local_inits log)) (_global_inits log)) n') = _addrs (data_of log n')) as Ha.
  { intros n'. rewrite data_of_insert. by destruct (decide (n' = n)) as [-> |]. }
  split; [done|]. split; [split; [done|]|split; [split|done]].
  - intros n' i x. rewrite Ha. apply R2.
  - intros n' nm. unfold named. rewrite data_of_insert. destruct (decide (n' = n)) as [-> |]; [|done]. cbn [_mem_ids].
    destruct (decide (nm = name)) as [-> |]; [by rewrite lookup_insert_eq|by rewrite lookup_insert_ne].
  - intros n'. unfold count. by rewrite Ha.
Qed.
Lemma log_set_id_spec log n id a A : log_rep log A → uint 64 a → 0 ≤ id ≤ count log n →
  ∃ log', log_set_id log n id a = Ret (bool_decide (word a ∉ A (memory_of n id)), log') ∧
    log_rep log' (mark A (memory_of n id) (word a)) ∧ same_names log log'.
Proof.
  intros [R1 R2] Ha Hid. unfold log_set_id, memory_of. destruct (Z.eqb_spec id 0) as [-> |Hne].
  - destruct (inits_set_spec _ _ a R1 Ha) as (x' & -> & Hr). cbn [obind fst snd]. eexists. split; [done|]. split; [|done]. split; cbn.
    + unfold mark. by rewrite decide_True.
    + intros n' i x Hx. unfold mark. rewrite decide_False by done. by apply R2.
  - rewrite (proj2 (Z.ltb_ge _ _)) by lia. destruct (lookup_lt_is_Some_2 (_addrs (data_of log n)) (Z.to_nat (id - 1))) as [x Hx]; [unfold count in Hid; lia|].
    rewrite Hx. pose proof (R2 n _ x Hx) as Rx. replace (Z.of_nat (Z.to_nat (id - 1)) + 1) with id in Rx by lia.
    destruct (inits_set_spec _ _ a Rx Ha) as (x' & -> & Hr). cbn [obind fst snd]. eexists. split; [done|]. split; [split|split].
    + cbn. unfold mark. by rewrite decide_False.
    + intros n' i y. rewrite data_of_insert. unfold mark. destruct (decide (n' = n)) as [-> |Hn].
      * cbn [_addrs]. intros [(<- & <- & _)|(Hi & Hy)]%list_lookup_insert_Some.
        -- rewrite decide_True by (do 2 f_equal; lia). done.
        -- rewrite decide_False; [by apply R2|]. intros [= E]. lia.
      * intros Hy. rewrite decide_False by congruence. by apply R2.
    + intros n' nm. unfold named. rewrite data_of_insert. by destruct (decide (n' = n)) as [-> |].
    + intros n'. unfold count. rewrite data_of_insert. destruct (decide (n' = n)) as [-> |]; [|done]. cbn [_addrs]. by rewrite length_insert.
Qed.
Lemma same_names_trans l1 l2 l3 : same_names l1 l2 → same_names l2 l3 → same_names l1 l3.
Proof. intros [A B] [C D]. split; intros; congruence. Qed.
Lemma log_set_spec log n name a A : log_rep log A → uint 64 a → 0 ≤ named log n name ≤ count log n →
  ∃ log', log_set log n name a = Ret (bool_decide (word a ∉ A (memory_of n (named log n name))), log') ∧
    log_rep log' (mark A (memory_of n (named log n name)) (word a)) ∧ same_names log log'.
Proof.
  intros R Ha Hid. unfold log_set. destruct (get_mem_id_spec log n name A R) as (E & R' & S & Hd). rewrite E.
  destruct (log_set_id_spec _ n (named log n name) a A R' Ha) as (log' & E' & R2 & S2); [unfold count; rewrite Hd; done|].
  exists log'. split; [done|]. split; [done|]. by eapply same_names_trans.
Qed.

(** *** The nodes of a model *)

Fixpoint nodes (t : IssNode) : list (Z * list (string * Z)) :=
  match t with Node self minfo children => (self, minfo) :: mjoin (nodes <$> children) end.
Fixpoint assoc {K V : Type} `{EqDecision K} (k : K) (l : list (K * V)) : option V :=
  match l with [] => None | (k', v) :: l => if decide (k = k') then Some v else assoc k l end.
(** The number of a memory: 0, the global one, for a name that the node does not have. *)
Definition mem_number (t : IssNode) (n : Z) (name : string) : Z := default 0 (assoc n (nodes t) ≫= assoc name).
(** Nodes are distinct objects, and number their memories from 1. *)
Definition numbered (t : IssNode) : Prop :=
  NoDup (fst <$> nodes t) ∧ Forall (λ p, Forall (λ q, 0 ≤ snd q ≤ Z.of_nat (length (snd p))) (snd p)) (nodes t).

Definition add_pair (log : MemoryLog) (p : Z * list (string * Z)) : MemoryLog := add_node log (fst p) (snd p).
Lemma add_nodes_fold : ∀ t log, add_nodes log t = foldl add_pair log (nodes t).
Proof.
  fix IH 1. intros [self minfo children] log. cbn [add_nodes nodes foldl]. change (add_pair log (self, minfo)) with (add_node log self minfo).
  generalize (add_node log self minfo). clear log. induction children as [|c l IHl]; intros log; [done|].
  change (mjoin (nodes <$> c :: l)) with (nodes c ++ mjoin (nodes <$> l)). rewrite foldl_app, <- IH. apply IHl.
Qed.
Lemma insert_new_fold l ids name : foldl insert_new ids l !! name = match ids !! name with Some i => Some i | None => assoc name l end.
Proof.
  revert ids. induction l as [|[k v] l IH]; intros ids; cbn [foldl assoc]; [by destruct (ids !! name)|]. rewrite IH. unfold insert_new. cbn [fst snd].
  destruct (ids !! k) as [i|] eqn:Ek.
  - destruct (decide (name = k)) as [-> |]; [by rewrite Ek|done].
  - destruct (decide (name = k)) as [-> |]; [by rewrite lookup_insert_eq, Ek|by rewrite lookup_insert_ne].
Qed.
Lemma assoc_elem {K V : Type} `{EqDecision K} (k : K) (v : V) l : assoc k l = Some v → (k, v) ∈ l.
Proof. induction l as [|[k' v'] l IH]; [done|]. cbn [assoc]. destruct (decide (k = k')) as [-> |]; [intros [= ->]; by left|]. intros E. right. auto. Qed.
Lemma add_pairs l log n : NoDup (fst <$> l) → (∀ p, p ∈ l → _local_inits log !! fst p = None) →
  let log' := foldl add_pair log l in _global_inits log' = _global_inits log ∧
  data_of log' n = match assoc n l with
                   | Some minfo => MD (replicate (length minfo) new_inits) (foldl insert_new ∅ minfo)
                   | None => data_of log n end.
Proof.
  cbv zeta. revert log. induction l as [|[self minfo] l IH]; intros log Hl Hnew; cbn [foldl assoc]; [done|]. apply NoDup_cons in Hl as [Hn Hd].
  destruct (IH (add_pair log (self, minfo)) Hd) as [-> ->].
  { intros p Hp. cbn. rewrite lookup_insert_ne; [apply Hnew; by right|]. intros E. apply Hn. cbn [fst] in *. rewrite E. exact (list_elem_of_fmap_2 fst _ _ Hp). }
  split; [done|]. unfold add_pair, add_node. rewrite data_of_insert. cbn [fst snd].
  assert (data_of log self = new_data) as ->.
  { unfold data_of. pose proof (Hnew (self, minfo) ltac:(by left)) as En. cbn in En. by rewrite En. }
  destruct (decide (n = self)) as [-> |]; [|done]. destruct (assoc self l) as [mi|] eqn:E.
  - destruct Hn. exact (list_elem_of_fmap_2 fst _ _ (assoc_elem _ _ _ E)).
  - unfold resize_inits. cbn [new_data _addrs _mem_ids length]. by rewrite take_nil, Nat.sub_0_r.
Qed.
(** The log of a model with nothing marked. *)
Lemma add_nodes_rep t : numbered t → let log := add_nodes new_log t in log_rep log (λ _, ∅) ∧
  (∀ n name, named log n name = mem_number t n name) ∧ ∀ n name, 0 ≤ mem_number t n name ≤ count log n.
Proof.
  intros [Hd Hn]. cbv zeta. rewrite add_nodes_fold. set (log := foldl add_pair new_log (nodes t)).
  assert (∀ n, _global_inits log = new_inits ∧ data_of log n = match assoc n (nodes t) with
    | Some minfo => MD (replicate (length minfo) new_inits) (foldl insert_new ∅ minfo) | None => new_data end) as Hp.
  { intros n. by apply (add_pairs (nodes t) new_log n). }
  split; [split|split].
  - destruct (Hp 0) as [-> _]. apply rep_new.
  - intros n i x. destruct (Hp n) as [_ ->]. destruct (assoc n (nodes t)); [|done]. cbn [_addrs]. intros [-> _]%lookup_replicate. apply rep_new.
  - intros n name. unfold named, mem_number. destruct (Hp n) as [_ ->]. destruct (assoc n (nodes t)); [|done]. cbn. by rewrite insert_new_fold, lookup_empty.
  - intros n name. unfold count, mem_number. destruct (Hp n) as [_ ->]. destruct (assoc n (nodes t)) as [minfo|] eqn:E; [|cbn; lia].
    cbn [mbind option_bind _addrs]. rewrite length_replicate. destruct (assoc name minfo) as [id|] eqn:Ei; cbn [default]; [|lia].
    rewrite Forall_forall in Hn. specialize (Hn _ (assoc_elem _ _ _ E)). rewrite Forall_forall in Hn. exact (Hn _ (assoc_elem _ _ _ Ei)).
Qed.

(** ** The theorems *)

(** Calls of [set] with a node, the name of a memory and an address. *)
Definition set_call : Type := Z * string * Z.
Fixpoint run_sets (log : MemoryLog) (l : list set_call) : outcome (list bool * MemoryLog) :=
  match l with
  | [] => Ret ([], log)
  | (n, name, a) :: l =>
    let! r := log_set log n name a in let! r2 := run_sets (snd r) l in Ret (fst r :: fst r2, snd r2)
  end.
(** The specification: a set of words for each memory. *)
Fixpoint spec_sets (t : IssNode) (A : marks) (l : list set_call) : list bool * marks :=
  match l with
  | [] => ([], A)
  | (n, name, a) :: l =>
    let k := memory_of n (mem_number t n name) in
    let r := spec_sets t (mark A k (word a)) l in (bool_decide (word a ∉ A k) :: fst r, snd r)
  end.

Lemma run_sets_spec t l log A : log_rep log A → (∀ n name, named log n name = mem_number t n name) →
  (∀ n name, 0 ≤ mem_number t n name ≤ count log n) → Forall (λ c : set_call, uint 64 (snd c)) l →
  ∃ log', run_sets log l = Ret (fst (spec_sets t A l), log') ∧ log_rep log' (snd (spec_sets t A l)) ∧ same_names log log'.
Proof.
  intros R Hn Hc Hl. revert log A R Hn Hc. induction Hl as [|[[n name] a] l Ha _ IH]; intros log A R Hn Hc; cbn [run_sets spec_sets].
  - by exists log.
  - destruct (log_set_spec log n name a A R Ha) as (log1 & E & R1 & S1); [rewrite Hn; apply Hc|]. rewrite Hn in E, R1. rewrite E. cbn [obind fst snd].
    destruct S1 as [S1 S2]. destruct (IH log1 _ R1) as (log2 & E2 & R2 & S3); [intros; by rewrite S1|intros; by rewrite S2|].
    exists log2. rewrite E2. cbn [obind fst snd]. split; [done|]. split; [done|]. eapply same_names_trans; [|exact S3]. done.
Qed.
(** C29: the log of a model is a set of words for each of its memories: through any sequence of
    [set]s by node, name and 64-bit address, each answers whether the word was new, and the
    loop of the writers then ends and lists the words of a memory in ascending order, each
    once.  Assumed ([numbered]): nodes are distinct objects, and the numbers of a node's
    memories do not exceed how many it lists; a core with a local memory that is numbered
    after its global one breaks this, and a set of that memory is then out of bounds
    ([skipped_number]). *)
Theorem memory_log_refines t l : numbered t → Forall (λ c : set_call, uint 64 (snd c)) l →
  ∃ log, run_sets (add_nodes new_log t) l = Ret (fst (spec_sets t (λ _, ∅) l), log) ∧
    ∀ k x, (k = None ∧ x = _global_inits log ∨ ∃ n id, k = Some (n, id) ∧ get_addrs (data_of log n) id = Ret x) →
      ∃ words, written_words (copy_inits x) = Some (Ret words) ∧ StronglySorted Z.lt words ∧
        ∀ w, w ∈ words ↔ w ∈ snd (spec_sets t (λ _, ∅) l) k.
Proof.
  intros Ht Hl. destruct (add_nodes_rep t Ht) as (R & Hn & Hc). destruct (run_sets_spec t l _ _ R Hn Hc Hl) as (log & E & [R1 R2] & _).
  exists log. split; [done|]. intros k x Hx. apply written_words_spec, rep_copy.
  destruct Hx as [[-> ->]|(n & id & -> & Hx)]; [done|]. unfold get_addrs in Hx. destruct (Z.ltb_spec id 1); [done|].
  destruct (_addrs (data_of log n) !! Z.to_nat (id - 1)) as [y|] eqn:Ey; [|done]. injection Hx as ->.
  specialize (R2 n _ _ Ey). by replace (Z.of_nat (Z.to_nat (id - 1)) + 1) with id in R2 by lia.
Qed.
(** [clear] removes the arrays of the local memories for good: after it the global memory
    has no words, but the next [set] of a local memory is out of bounds. *)
Theorem memory_log_clear t l log r n name a : numbered t → Forall (λ c : set_call, uint 64 (snd c)) l →
  run_sets (add_nodes new_log t) l = Ret (r, log) → written_words (_global_inits (log_clear log)) = Some (Ret []) ∧
    (mem_number t n name ≠ 0 → log_set (log_clear log) n name a = Undefined).
Proof.
  intros Ht Hl E. destruct (add_nodes_rep t Ht) as (R & Hn & Hc). destruct (run_sets_spec t l _ _ R Hn Hc Hl) as (log' & E' & _ & [S1 S2]).
  rewrite E in E'. injection E' as _ <-. split; [done|]. intros Hm. specialize (S1 n name). rewrite Hn in S1.
  assert (data_of (log_clear log) n = MD [] (_mem_ids (data_of log n))) as Ed.
  { unfold data_of, log_clear. cbn. rewrite lookup_fmap. by destruct (_local_inits log !! n). }
  unfold log_set, get_mem_id. cbn [fst snd]. rewrite Ed. cbn [_mem_ids _addrs]. fold (named log n name). rewrite S1.
  unfold log_set_id. rewrite (proj2 (Z.eqb_neq _ _)) by done. rewrite data_of_insert, decide_True by done. cbn [_addrs]. by destruct (_ <? 1).
Qed.

(** *** Witnesses *)

Module LogExample.
Definition system : IssNode := Node 1 [] [Node 2 [("sram", 1); ("rom", 2)] []; Node 3 [("sram", 1)] []].
Definition calls : list set_call := [(2, "rom", 0x1003); (3, "sram", 0x1000); (2, "rom", 0x1000); (1, "mem", 0x20); (2, "rom", 0x10)].
Lemma numbered_system : numbered system.
Proof. split; [by apply (bool_decide_unpack _); vm_compute|]. repeat constructor; cbn; lia. Qed.
Lemma uint_calls : Forall (λ c : set_call, uint 64 (snd c)) calls.
Proof. repeat constructor; cbn; lia. Qed.
End LogExample.
Import LogExample.
(** The front end numbers the global memory of a core too, but it is not listed. *)
Example skipped_number : let t := Node 2 [("sram", 2)] [] in ~ numbered t ∧ log_set (add_nodes new_log t) 2 "sram" 0x1000 = Undefined.
Proof. split; [|vm_compute; reflexivity]. intros [_ Hn]. inversion_clear Hn as [|?? H1 _]. inversion_clear H1 as [|?? H2 _]. cbn in H2. lia. Qed.
Lemma memory_log_refines_witness : numbered system ∧ fst (spec_sets system (λ _, ∅) calls) = [true; true; false; true; true] ∧
  ∃ log, run_sets (add_nodes new_log system) calls = Ret (fst (spec_sets system (λ _, ∅) calls), log).
Proof.
  split; [exact numbered_system|]. split; [vm_compute; reflexivity|].
  destruct (memory_log_refines system calls numbered_system uint_calls) as (log & E & _). by exists log.
Defined.
Lemma memory_log_clear_witness : ∃ log, log_set (log_clear log) 2 "rom" 0x1000 = Undefined ∧ ∃ r, run_sets (add_nodes new_log system) calls = Ret (r, log).
Proof.
  destruct (run_sets (add_nodes new_log system) calls) as [[r log]| | |] eqn:E; try (vm_compute in E; discriminate E).
  exists log. split; [|by exists r].
  destruct (memory_log_clear system calls log r 2 "rom" 0x1000 numbered_system uint_calls E) as [_ Hc]. apply Hc. vm_compute. discriminate.
Defined.
