(* ===== verification/IHexReader.v ===== *)
(** * The reader of Intel-hex files

    [src/iss/IHexReader.C], with [init_mem_internal] and [initialize_mem] of
    [src/iss/Reader.C], over the memory log of MemoryLog.v.

    The file is a list of characters ([Z]s below 256); pointers are indices, and reading at
    or after the end is undefined.  The model that is initialized is an [IssNode], whose
    members are virtual: the class [ModelNode] has the two that the reader calls.
    Exceptions keep what was done before them. *)
From stdpp Require Import prelude strings gmap.
From Stdlib Require Import ZArith Lia.
From S2P Require Import Prelude.
From S2P Require Import MemoryLog.

Local Open Scope Z_scope.

Class ModelNode (N : Type) : Type := {
  (** [setMem(name, addr, data, size)], with a size in bits. *)
  setMem : N → string → Z → Z → Z → N;
  setProgramCounter : N → Z → N
}.
Definition GlobalMemName : string := "Mem".

(** ** Hexadecimal numbers *)

Definition char_range (lo hi c : Z) : bool := (lo <=? c) && (c <=? hi).
(** The table that [populateHex2IntArray] fills. *)
Definition Hex2IntArray (i : Z) : Z :=
  if char_range 48 57 i then i - 48
  else if char_range 97 102 i then 10 + (i - 97)
  else if char_range 65 70 i then 10 + (i - 65)
  else 0.
Definition hex2int (c : Z) : Z := Hex2IntArray (Z.land c 0xff).

Section Reader.
Context {N : Type} `{ModelNode N}.

Section File.
Context (file : list Z).
Definition deref (p : nat) : outcome Z := match file !! p with Some c => Ret c | None => Undefined end.
(** [hexnum(s, s + 2 * n, crc)]: the number, starting from [r], and the checksum. *)
Fixpoint hexnum_from (n : nat) (s : nat) (crc r : Z) : outcome (Z * Z) :=
  match n with
  | O => Ret (r, crc)
  | S n =>
    let! c := deref s in let! d := deref (S s) in
    let b := wrap 8 (Z.shiftl (hex2int c) 4) in
    let b := wrap 8 (Z.lor b (hex2int d)) in
    hexnum_from n (S (S s)) (wrap 8 (crc + b)) (Z.lor (wrap 32 (Z.shiftl r 8)) b)
  end.
Definition hexnum (n : nat) (s : nat) (crc : Z) : outcome (Z * Z) := hexnum_from n s crc 0.
End File.

(** ** Memory *)

(** The state of a reader: the model, the log, and the addresses that were warned about. *)
Record state : Type := St { node : N; log : MemoryLog; warned : list Z }.
Record Reader : Type := { _root : Z; _init_memory : bool; _use_entry_point : bool; WarnMemOverwrite : bool }.

Definition initialize_mem (r : Reader) (s : state) (name : string) (addr data size : Z) (log_only : bool) : outcome state :=
  let n := if log_only then node s else setMem (node s) name addr data size in
  let! l := log_set (log s) (_root r) name addr in
  Ret (St n (snd l) (if negb (fst l) && WarnMemOverwrite r then warned s ++ [addr] else warned s)).
Definition init_mem_internal (r : Reader) (s : state) (name : string) (addr data size : Z) : outcome state :=
  initialize_mem r s name addr data size (negb (_init_memory r)).

Section Records.
Context (r : Reader) (file : list Z).
Let l : nat := length file.

(** The loops of [read_memory]: the position, the bytes left, the address and the state. *)
Fixpoint word_loop (fuel : nat) (f : nat) (len addr : Z) (s : state) : outcome (nat * Z * Z * state) :=
  match fuel with
  | O => Ret (f, len, addr, s)
  | S fuel =>
    if (f <? l)%nat && (4 <=? len)
    then let! d := hexnum file 4 f 0 in
         let! s := init_mem_internal r s GlobalMemName addr (fst d) 32 in
         word_loop fuel (f + 8) (len - 4) (wrap 64 (addr + 4)) s
    else Ret (f, len, addr, s)
  end.
Fixpoint byte_loop (fuel : nat) (f : nat) (len addr : Z) (s : state) : outcome (nat * state) :=
  match fuel with
  | O => Ret (f, s)
  | S fuel =>
    if (f <? l)%nat && negb (len =? 0)
    then let! d := hexnum file 1 f 0 in
         let! s := init_mem_internal r s GlobalMemName addr (fst d) 8 in
         byte_loop fuel (f + 2) (len - 1) (wrap 64 (addr + 1)) s
    else Ret (f, s)
  end.
Definition read_memory (f : nat) (len addr : Z) (s : state) : outcome (nat * state) :=
  let! w := word_loop (Z.to_nat len) f len addr s in
  let '(f, len, addr, s) := w in byte_loop (Z.to_nat len) f len addr s.

(** ** Records *)

(** The search for the next colon: the position after it, or the end, and the line. *)
Fixpoint search (n : nat) (f : nat) (linecount : Z) : outcome (nat * Z) :=
  match n with
  | O => Ret (f, linecount)
  | S n =>
    if (f <? l)%nat
    then let! c := deref file f in
         let linecount := if c =? 10 then linecount + 1 else linecount in
         if c =? 58 then Ret (S f, linecount) else search n (S f) linecount
    else Ret (f, linecount)
  end.
(** The checksum of the data, up to the end of the file. *)
Fixpoint crc_loop (n : nat) (t : nat) (crc : Z) : outcome (nat * Z) :=
  match n with
  | O => Ret (t, crc)
  | S n =>
    if (t <? l)%nat
    then let! d := hexnum file 1 t crc in crc_loop n (t + 2) (snd d)
    else Ret (t, crc)
  end.

Inductive ihex_error : Type :=
| NoValidRecord (line : Z)
| BadCRC (line got expected : Z)
| BadSegmentAddress (line type : Z)
| BadLinearAddress (line type : Z)
| BadStartAddress (line type : Z)
| UnknownRecord (line type : Z).
(** The variables of [parse] that live across records. *)
Record vars : Type := Vars { f_ : nat; linecount_ : Z; offset_ : Z; got_pc : bool; pc_ : Z }.
Inductive progress : Type :=
| Failed (e : ihex_error) (s : state)
| Done (v : vars) (s : state)
| Next (v : vars) (s : state).

(** The [switch] over the type of a record whose data starts at [f]. *)
Definition dispatch (v : vars) (s : state) (line : Z) (f : nat) (len addr type crc : Z) : outcome progress :=
  let next f offset got pc s := Ret (Next (Vars (f + 2) line offset got pc) s) in
  match type with
  | 0 =>
    let! m := read_memory f len (wrap 64 (offset_ v + addr)) s in
    next (fst m) (offset_ v) (got_pc v) (pc_ v) (snd m)
  | 1 => Ret (Done (Vars f line (offset_ v) (got_pc v) (pc_ v)) s)
  | 2 =>
    if negb (addr =? 0) || negb (len =? 2) then Ret (Failed (BadSegmentAddress line type) s) else
    let! h := hexnum file 2 f crc in next f (wrap 32 (Z.shiftl (fst h) 4)) (got_pc v) (pc_ v) s
  | 4 =>
    if negb (addr =? 0) || negb (len =? 2) then Ret (Failed (BadLinearAddress line type) s) else
    let! h := hexnum file 2 f crc in next f (wrap 32 (Z.shiftl (fst h) 16)) (got_pc v) (pc_ v) s
  | 3 | 5 =>
    if negb (addr =? 0) || negb (len =? 4) then Ret (Failed (BadStartAddress line type) s) else
    let! h := hexnum file 4 f crc in next f (offset_ v) true (fst h) s
  | _ => Ret (Failed (UnknownRecord line type) s)
  end.
(** The body of the loop of [parse]. *)
Definition record_step (v : vars) (s : state) : outcome progress :=
  let! p := search (l - f_ v) (f_ v) (linecount_ v) in
  let '(f, line) := p in
  if (l <? f + 10)%nat then Ret (Failed (NoValidRecord line) s) else
  let! h := hexnum file 1 f 0 in let '(len, crc) := h in
  let f := (f + 2)%nat in
  let! h := hexnum file 2 f crc in let '(addr, crc) := h in
  let f := (f + 4)%nat in
  let! h := hexnum file 1 f crc in let '(type, crc) := h in
  let f := (f + 2)%nat in
  let! h := crc_loop (Z.to_nat len) f crc in let '(t, crc) := h in
  let! h := hexnum file 1 t crc in let '(crcbyte, crc) := h in
  if negb (crc =? 0) then Ret (Failed (BadCRC line crcbyte (crcbyte - crc)) s) else
  dispatch v s line f len addr type crc.
(** The loop; [None] is an endless one. *)
Fixpoint parse_loop (fuel : nat) (v : vars) (s : state) : option (outcome (option ihex_error * state)) :=
  match fuel with
  | O => None
  | S fuel =>
    match record_step v s with
    | Ret (Failed e s) => Some (Ret (Some e, s))
    | Ret (Done v s) =>
      Some (Ret (None, if got_pc v && _use_entry_point r then St (setProgramCounter (node s) (pc_ v)) (log s) (warned s) else s))
    | Ret (Next v s) => parse_loop fuel v s
    | Throw m => Some (Throw m)
    | AssertFail => Some AssertFail
    | Undefined => Some Undefined
    end
  end.
Definition parse (s : state) : option (outcome (option ihex_error * state)) :=
  parse_loop (S l) (Vars 0 1 0 false 0) s.
End Records.
End Reader.
