(* ===== verification/IHexReaderCorrect.v ===== *)
(** * The reader reads what the format says

    An encoder of Intel-hex files with the meaning of their records, and that the reader
    has the effect of that meaning on the model; the reader ends on every file. *)
From stdpp Require Import prelude strings gmap.
From Stdlib Require Import ZArith Lia.
From S2P Require Import Prelude.
From S2P Require Import MemoryLog.
From S2P Require Import MemoryLogCorrect.
From S2P Require Import IHexReader.

Local Open Scope Z_scope.

(** ** Numbers *)

Definition is_byte (b : Z) : Prop := 0 ≤ b < 256.
Definition be (bs : list Z) : Z := foldl (λ r b, r * 256 + b) 0 bs.
Definition sum (bs : list Z) : Z := foldr Z.add 0 bs.
Definition shift_in (r b : Z) : Z := Z.lor (wrap 32 (Z.shiftl r 8)) b.

Lemma sum_app l1 l2 : sum (l1 ++ l2) = sum l1 + sum l2.
Proof. induction l1 as [|b l1 IH]; cbn; [done|]. unfold sum in *. lia. Qed.
Lemma shift_in_small r b : 0 ≤ r < 2 ^ 24 → is_byte b → shift_in r b = r * 256 + b.
Proof.
  intros Hr Hb. unfold shift_in, is_byte in *. rewrite Z.shiftl_mul_pow2 by lia. rewrite wrap_small by (unfold uint; lia).
  rewrite Z.lor_comm, lor_add by (unfold uint; lia). lia.
Qed.
Lemma foldl_shift_in bs r k : Forall is_byte bs → 0 ≤ k → k + Z.of_nat (length bs) ≤ 4 → 0 ≤ r < 256 ^ k →
  foldl shift_in r bs = foldl (λ r b, r * 256 + b) r bs.
Proof.
  intros Hb. revert r k. induction Hb as [|b bs Hb _ IH]; intros r k Hk Hl Hr; cbn [foldl length] in *; [done|].
  assert (256 ^ k ≤ 2 ^ 24). { change (2 ^ 24) with (256 ^ 3). apply Z.pow_le_mono_r; lia. }
  rewrite shift_in_small by (done || lia). apply (IH _ (k + 1)); [lia|lia|]. rewrite Z.pow_add_r by lia. unfold is_byte in Hb. lia.
Qed.

Section Digits.
(** The characters of the digits: small or capital letters. *)
Context (dig : Z → Z).
Context (Hdig : ∀ d, 0 ≤ d < 16 → hex2int (dig d) = d).

Definition encode_byte (b : Z) : list Z := [dig (b / 16); dig (b mod 16)].
Definition encode_bytes (bs : list Z) : list Z := mjoin (encode_byte <$> bs).

Lemma encode_cons b bs : encode_bytes (b :: bs) = dig (b / 16) :: dig (b mod 16) :: encode_bytes bs.
Proof using Type. done. Qed.
Lemma encode_app l1 l2 : encode_bytes (l1 ++ l2) = encode_bytes l1 ++ encode_bytes l2.
Proof using Type. induction l1 as [|b l1 IH]; [done|]. cbn [app]. by rewrite !encode_cons, IH. Qed.
Lemma length_encode bs : length (encode_bytes bs) = (2 * length bs)%nat.
Proof using Type. induction bs as [|b bs IH]; [done|]. rewrite encode_cons. cbn [length]. lia. Qed.
Lemma digits_byte b : is_byte b → wrap 8 (Z.lor (wrap 8 (Z.shiftl (hex2int (dig (b / 16))) 4)) (hex2int (dig (b mod 16)))) = b.
Proof using Hdig.
  intros Hb. unfold is_byte in Hb. rewrite !Hdig by zlia. rewrite Z.shiftl_mul_pow2 by lia. change (2 ^ 4) with 16.
  assert (0 ≤ b / 16 < 16) by zlia. pose proof (Z.mod_pos_bound b 16 ltac:(lia)).
  rewrite (wrap_small 8 (b / 16 * 16)) by (unfold uint; lia). rewrite Z.lor_comm. change 16 with (2 ^ 4) at 3. rewrite lor_add by (unfold uint; lia).
  change (2 ^ 4) with 16. rewrite wrap_small by (unfold uint; zlia). pose proof (Z.div_mod b 16). lia.
Qed.

(** ** Reading at a position of a file *)

Context (file : list Z).
Definition at_ (s : nat) (cs : list Z) : Prop := cs `prefix_of` drop s file.

Lemma at_lookup s c cs : at_ s (c :: cs) → file !! s = Some c ∧ at_ (S s) cs ∧ (s < length file)%nat.
Proof using Type.
  intros [post E]. assert (file !! s = Some c) as Hs.
  { pose proof (lookup_drop file s 0) as El. rewrite E, Nat.add_0_r in El. exact (eq_sym El). }
  split; [done|]. split; [|by eapply lookup_lt_Some]. exists post. rewrite (drop_S _ _ _ Hs) in E. by injection E.
Qed.
Lemma at_app s l1 l2 : at_ s (l1 ++ l2) → at_ s l1 ∧ at_ (s + length l1) l2.
Proof using Type.
  intros [post E]. split; [exists (l2 ++ post); by rewrite E, app_assoc|]. exists post. rewrite <- drop_drop, E, <- app_assoc, drop_app_length. done.
Qed.
Lemma at_encode s bs rest : at_ s (encode_bytes bs ++ rest) → at_ (s + 2 * length bs) rest.
Proof using Type. intros [_ H]%at_app. by rewrite length_encode in H. Qed.

Lemma hexnum_from_at s bs crc r : Forall is_byte bs → at_ s (encode_bytes bs) →
  hexnum_from file (length bs) s (wrap 8 crc) r = Ret (foldl shift_in r bs, wrap 8 (crc + sum bs)).
Proof using Hdig.
  intros Hb. revert s crc r. induction Hb as [|b bs Hb _ IH]; intros s crc r Hat; cbn [length hexnum_from foldl sum foldr].
  - by rewrite Z.add_0_r.
  - rewrite encode_cons in Hat. apply at_lookup in Hat as (H1 & Hat & _). apply at_lookup in Hat as (H2 & Hat & _).
    unfold deref. rewrite H1, H2. cbn [obind]. rewrite digits_byte by done. rewrite wrap_add_l, IH by done.
    change (foldr Z.add 0 bs) with (sum bs). do 3 f_equal. lia.
Qed.
Lemma hexnum_at s bs crc : Forall is_byte bs → (length bs ≤ 4)%nat → at_ s (encode_bytes bs) →
  hexnum file (length bs) s (wrap 8 crc) = Ret (be bs, wrap 8 (crc + sum bs)).
Proof using Hdig.
  intros Hb Hl Hat. unfold hexnum. rewrite hexnum_from_at by done. rewrite (foldl_shift_in bs 0 0) by (done || lia). done.
Qed.
Lemma crc_loop_at s bs crc : Forall is_byte bs → at_ s (encode_bytes bs) →
  crc_loop file (length bs) s (wrap 8 crc) = Ret ((s + 2 * length bs)%nat, wrap 8 (crc + sum bs)).
Proof using Hdig.
  intros Hb. revert s crc. induction Hb as [|b bs Hb _ IH]; intros s crc Hat; cbn [length crc_loop].
  - by rewrite Nat.add_0_r, Z.add_0_r.
  - pose proof Hat as Hat2. rewrite encode_cons in Hat. pose proof (at_lookup _ _ _ Hat) as (_ & _ & Hlt).
    rewrite (proj2 (Nat.ltb_lt _ _) Hlt). change (b :: bs) with ([b] ++ bs) in Hat2. rewrite encode_app in Hat2. apply at_app in Hat2 as [H1 H2].
    pose proof (hexnum_at s [b] crc ltac:(by apply Forall_singleton) ltac:(cbn; lia) H1) as E. cbn [length] in E. rewrite E. cbn [obind snd]. rewrite length_encode in H2. cbn [length] in H2.
    rewrite IH by done. do 2 f_equal; [lia|]. f_equal. cbn. unfold sum. lia.
Qed.

(** A search skips text without colons, and counts its lines. *)
Lemma search_at sep n s line : at_ s (sep ++ [58]) → Forall (λ c, c ≠ 58) sep → (length sep < n)%nat →
  ∃ line', search file n s line = Ret ((s + length sep + 1)%nat, line').
Proof using Type.
  clear Hdig. revert n s line. induction sep as [|c sep IH]; intros n s line Hat Hs Hn; (destruct n as [|n]; [cbn in Hn; lia|]); cbn [app search length] in *.
  - apply at_lookup in Hat as (Hc & _ & Hlt). unfold deref. rewrite (proj2 (Nat.ltb_lt _ _) Hlt), Hc. cbn. eexists. repeat f_equal. lia.
  - apply at_lookup in Hat as (Hc & Hat & Hlt). unfold deref. rewrite (proj2 (Nat.ltb_lt _ _) Hlt), Hc. cbn [obind].
    inversion Hs as [|? ? Hc58 Hs']; subst. rewrite (proj2 (Z.eqb_neq c 58)) by done.
    destruct (IH n (S s) (if c =? 10 then line + 1 else line) Hat Hs' ltac:(lia)) as [line' E]. rewrite E. exists line'. do 2 f_equal. lia.
Qed.
End Digits.

(** ** Memory *)

(** How a core stores data: the byte order of a word, and the location of an address in its
    memory, which may have fewer than 64 bits. *)
Record layout : Type := Layout { little_endian : bool; locate : Z → Z }.
(** Bytes are stored from an address on. *)
Definition write_byte (L : layout) (m : Z → Z) (a b : Z) : Z → Z := λ x, if x =? locate L a then b else m x.
Fixpoint write_bytes (L : layout) (m : Z → Z) (a : Z) (bs : list Z) : Z → Z :=
  match bs with [] => m | b :: bs => write_bytes L (write_byte L m a b) (wrap 64 (a + 1)) bs end.
(** The bytes of a data record as a core stores them: each four as one word, in the byte order
    of the core's data, and the rest one by one. *)
Fixpoint lay (le : bool) (bs : list Z) : list Z :=
  match bs with
  | b0 :: b1 :: b2 :: b3 :: rest => (if le then [b3; b2; b1; b0] else [b0; b1; b2; b3]) ++ lay le rest
  | _ => bs
  end.
Definition store (L : layout) (m : Z → Z) (a : Z) (bs : list Z) : Z → Z := write_bytes L m a (lay (little_endian L) bs).
(** What the reader relies on: [setMem] stores a word or a byte at an address, a word with its
    highest byte first or last, as the data of the core is ordered. *)
Class ModelNodeLaws (N : Type) `{ModelNode N} : Type := {
  core_layout : layout;
  mem : N → Z → Z;
  pc : N → Z;
  setMem_mem : ∀ n a bs x, Forall is_byte bs → length bs = 1%nat ∨ length bs = 4%nat → uint 64 a →
    mem (setMem n GlobalMemName a (be bs) (8 * Z.of_nat (length bs))) x = store core_layout (mem n) a bs x;
  setMem_pc : ∀ n name a d size, pc (setMem n name a d size) = pc n;
  setProgramCounter_mem : ∀ n a x, mem (setProgramCounter n a) x = mem n x;
  setProgramCounter_pc : ∀ n a, pc (setProgramCounter n a) = a
}.
Lemma write_bytes_app L m a l1 l2 : uint 64 a → write_bytes L m a (l1 ++ l2) = write_bytes L (write_bytes L m a l1) (wrap 64 (a + Z.of_nat (length l1))) l2.
Proof.
  revert m a. induction l1 as [|b l1 IH]; intros m a Ha; cbn [app write_bytes length].
  - by rewrite Z.add_0_r, wrap_small.
  - rewrite IH by (by apply uint_wrap). rewrite wrap_add_l. do 2 f_equal. lia.
Qed.
Lemma write_bytes_ext L m m' a bs : (∀ x, m x = m' x) → ∀ x, write_bytes L m a bs x = write_bytes L m' a bs x.
Proof.
  revert m m' a. induction bs as [|b bs IH]; intros m m' a Hm; cbn [write_bytes]; [done|]. apply IH. intros x. unfold write_byte. by rewrite Hm.
Qed.
(** The parts in which the bytes of a record are stored: words while there are four bytes. *)
Fixpoint chunks (a : Z) (bs : list Z) : list (Z * list Z) :=
  match bs with
  | b0 :: b1 :: b2 :: b3 :: rest => (a, [b0; b1; b2; b3]) :: chunks (wrap 64 (a + 4)) rest
  | b :: rest => (a, [b]) :: chunks (wrap 64 (a + 1)) rest
  | [] => []
  end.

Section Effect.
Context {N : Type} `{ModelNodeLaws N} (r : Reader).
Abbreviation L := (core_layout (N := N)).
(** The state of a reader in terms of memory, program counter and marked words; the global
    memory has the number 0. *)
Record holds (s : state (N := N)) (m : Z → Z) (p : Z) (A : marks) : Prop := {
  h_mem : ∀ x, mem (node s) x = m x;
  h_pc : pc (node s) = p;
  h_log : log_rep (log s) A;
  h_name : named (log s) (_root r) GlobalMemName = 0
}.
Definition store_chunk (m : Z → Z) (c : Z * list Z) : Z → Z := if _init_memory r then store L m (fst c) (snd c) else m.
Definition mark_chunk (A : marks) (c : Z * list Z) : marks := mark A None (word (fst c)).

Lemma init_mem_holds s m p A a bs : holds s m p A → Forall is_byte bs → length bs = 1%nat ∨ length bs = 4%nat → uint 64 a →
  ∃ s', init_mem_internal r s GlobalMemName a (be bs) (8 * Z.of_nat (length bs)) = Ret s' ∧
    holds s' (store_chunk m (a, bs)) p (mark_chunk A (a, bs)).
Proof using Type.
  intros [H1 H2 H3 H4] Hb Hl Ha. unfold init_mem_internal, initialize_mem.
  destruct (log_set_spec (log s) (_root r) GlobalMemName a A H3 Ha) as (log' & E & R & [S1 _]); [rewrite H4; unfold count; lia|].
  rewrite E. cbn [obind fst snd]. eexists. split; [done|]. rewrite H4 in R. split; cbn [node log].
  - intros x. unfold store_chunk. cbn [fst snd]. destruct (_init_memory r); cbn [negb]; [|done]. rewrite setMem_mem by done. by apply write_bytes_ext.
  - destruct (_init_memory r); cbn [negb]; [|done]. by rewrite setMem_pc.
  - exact R.
  - by rewrite S1.
Qed.

Context (dig : Z → Z).
Context (Hdig : ∀ d, 0 ≤ d < 16 → hex2int (dig d) = d).
Context (file : list Z).

Lemma byte_loop_at f a bs c s m p A fuel : (length bs < 4)%nat → (length bs ≤ fuel)%nat → Forall is_byte bs → uint 64 a → holds s m p A →
  at_ file f (encode_bytes dig bs ++ [c]) →
  ∃ s', byte_loop r file fuel f (Z.of_nat (length bs)) a s = Ret ((f + 2 * length bs)%nat, s') ∧
    holds s' (foldl store_chunk m (chunks a bs)) p (foldl mark_chunk A (chunks a bs)).
Proof using Hdig.
  intros Hl Hf Hb. revert f a s m A fuel Hl Hf. induction Hb as [|b bs Hb _ IH]; intros f a s m A fuel Hl Hf Ha Hs Hat.
  - exists s. split; [|done]. destruct fuel; cbn [byte_loop length]; [by rewrite Nat.add_0_r|]. rewrite andb_false_r. by rewrite Nat.add_0_r.
  - destruct fuel as [|fuel]; [cbn in Hf; lia|]. cbn [byte_loop]. rewrite (encode_cons dig b bs) in Hat. cbn [app] in Hat.
    pose proof (at_lookup _ _ _ _ Hat) as (Hc0 & Hat1 & Hlt). pose proof (at_lookup _ _ _ _ Hat1) as (Hc1 & Hat2 & _).
    rewrite (proj2 (Nat.ltb_lt _ _) Hlt). rewrite (proj2 (Z.eqb_neq _ 0)) by (cbn [length]; lia). cbn [andb negb].
    assert (at_ file f (encode_bytes dig [b])) as Hat3.
    { change (encode_bytes dig [b]) with [dig (b / 16); dig (b mod 16)]. eapply prefix_app_l. instantiate (1 := encode_bytes dig bs ++ [c]). exact Hat. }
    pose proof (hexnum_at dig Hdig file f [b] 0 ltac:(by apply Forall_singleton) ltac:(cbn; lia) Hat3) as E. rewrite wrap_0 in E. cbn [length] in E. rewrite E.
    cbn [obind fst]. destruct (init_mem_holds s m p A a [b] Hs ltac:(by apply Forall_singleton) ltac:(by left) Ha) as (s1 & E1 & Hs1).
    change (8 * Z.of_nat (length [b])) with 8 in E1. rewrite E1. cbn [obind].
    destruct (IH (f + 2)%nat (wrap 64 (a + 1)) s1 _ _ fuel ltac:(cbn in Hl; lia) ltac:(cbn in Hf; lia) ltac:(by apply uint_wrap) Hs1) as (s2 & E2 & Hs2).
    { by replace (f + 2)%nat with (S (S f)) by lia. }
    exists s2. replace (Z.of_nat (length (b :: bs)) - 1) with (Z.of_nat (length bs)) by (cbn [length]; lia). rewrite E2.
    split; [do 2 f_equal; cbn [length]; lia|]. destruct bs as [|b1 [|b2 [|b3 bs]]]; [exact Hs2..|cbn in Hl; lia].
Qed.
(** Data is read in words, then in bytes. *)
Lemma loops_at c p n : ∀ bs f a s m A fuel, (length bs ≤ n)%nat → (length bs ≤ fuel)%nat → Forall is_byte bs → uint 64 a → holds s m p A →
  at_ file f (encode_bytes dig bs ++ [c]) →
  ∃ s', (let! w := word_loop r file fuel f (Z.of_nat (length bs)) a s in
         let '(f, len, addr, s) := w in byte_loop r file (Z.to_nat len) f len addr s) = Ret ((f + 2 * length bs)%nat, s') ∧
    holds s' (foldl store_chunk m (chunks a bs)) p (foldl mark_chunk A (chunks a bs)).
Proof using Hdig.
  induction n as [|n IH]; intros bs f a s m A fuel Hn Hf Hb Ha Hs Hat.
  { destruct bs; [|cbn in Hn; lia]. exists s. split; [|done]. rewrite Nat.add_0_r. destruct fuel; cbn [word_loop length]; [done|]. by rewrite andb_false_r. }
  destruct bs as [|b0 [|b1 [|b2 [|b3 rest]]]].
  1-4: assert (∀ k, (k < 4)%nat → ∀ fuel, word_loop r file fuel f (Z.of_nat k) a s = Ret (f, Z.of_nat k, a, s)) as Hw
      by (intros k Hk [|fl]; cbn [word_loop]; [done|]; by rewrite (proj2 (Z.leb_gt 4 _)), andb_false_r by lia);
    rewrite Hw by (cbn; lia); cbn [obind]; rewrite Nat2Z.id; apply byte_loop_at with (c := c); try done; cbn; lia.
  destruct fuel as [|fuel]; [cbn in Hf; lia|]. cbn [word_loop]. change (b0 :: b1 :: b2 :: b3 :: rest) with ([b0; b1; b2; b3] ++ rest) in Hat.
  rewrite encode_app, <- app_assoc in Hat. pose proof (at_app _ _ _ _ Hat) as [Hat4 Hatr].
  assert ((f < length file)%nat) as Hlt. { rewrite encode_cons in Hat4. by apply at_lookup in Hat4 as (_ & _ & ?). }
  rewrite (proj2 (Nat.ltb_lt _ _) Hlt), (proj2 (Z.leb_le 4 _)) by (cbn [length]; lia). cbn [andb].
  assert (Forall is_byte [b0; b1; b2; b3] ∧ Forall is_byte rest) as [Hb4 Hbr] by (by apply (Forall_app is_byte [b0; b1; b2; b3] rest)).
  pose proof (hexnum_at dig Hdig file f [b0; b1; b2; b3] 0 Hb4 ltac:(cbn; lia) Hat4) as E. rewrite wrap_0 in E. cbn [length] in E. rewrite E.
  cbn [obind fst]. destruct (init_mem_holds s m p A a [b0; b1; b2; b3] Hs Hb4 ltac:(by right) Ha) as (s1 & E1 & Hs1).
  change (8 * Z.of_nat (length [b0; b1; b2; b3])) with 32 in E1. rewrite E1. cbn [obind]. rewrite length_encode in Hatr.
  destruct (IH rest (f + 8)%nat (wrap 64 (a + 4)) s1 _ _ fuel ltac:(cbn in Hn; lia) ltac:(cbn in Hf; lia) Hbr ltac:(by apply uint_wrap) Hs1 Hatr) as (s2 & E2 & Hs2).
  exists s2. replace (Z.of_nat (length (b0 :: b1 :: b2 :: b3 :: rest)) - 4) with (Z.of_nat (length rest)) by (cbn [length]; lia). rewrite E2.
  split; [do 2 f_equal; cbn [length]; lia|done].
Qed.
Lemma read_memory_at f a bs c s m p A : Forall is_byte bs → uint 64 a → holds s m p A → at_ file f (encode_bytes dig bs ++ [c]) →
  ∃ s', read_memory r file f (Z.of_nat (length bs)) a s = Ret ((f + 2 * length bs)%nat, s') ∧
    holds s' (foldl store_chunk m (chunks a bs)) p (foldl mark_chunk A (chunks a bs)).
Proof using Hdig. intros Hb Ha Hs Hat. unfold read_memory. apply (loops_at c p (length bs)); try done. lia. Qed.
End Effect.

(** ** Records *)

Inductive record : Type :=
| Data (addr : Z) (bytes : list Z)
| ExtendedSegment (v : Z)
| ExtendedLinear (v : Z)
| StartSegment (v : Z)
| StartLinear (v : Z).
Definition big16 (v : Z) : list Z := [v / 256; v mod 256].
Definition big32 (v : Z) : list Z := [v / 2 ^ 24; v / 2 ^ 16 mod 256; v / 256 mod 256; v mod 256].
(** The address, the type and the data of a record. *)
Definition fields (x : record) : Z * Z * list Z :=
  match x with
  | Data addr bytes => (addr, 0, bytes)
  | ExtendedSegment v => (0, 2, big16 v)
  | StartSegment v => (0, 3, big32 v)
  | ExtendedLinear v => (0, 4, big16 v)
  | StartLinear v => (0, 5, big32 v)
  end.
Definition valid_record (x : record) : Prop :=
  match x with
  | Data addr bytes => 0 ≤ addr < 2 ^ 16 ∧ (length bytes < 256)%nat ∧ Forall is_byte bytes
  | ExtendedSegment v | ExtendedLinear v => 0 ≤ v < 2 ^ 16
  | StartSegment v | StartLinear v => 0 ≤ v < 2 ^ 32
  end.
(** The bytes of a line, with the checksum that makes their sum 0. *)
Definition checksum (bs : list Z) : Z := wrap 8 (- sum bs).
Definition line_bytes (addr type : Z) (data : list Z) : list Z := [Z.of_nat (length data)] ++ big16 addr ++ [type] ++ data.
Definition encode_raw (dig : Z → Z) (addr type : Z) (data : list Z) (ck : Z) : list Z :=
  58 :: encode_bytes dig (line_bytes addr type data ++ [ck]).
Definition encode_line (dig : Z → Z) (addr type : Z) (data : list Z) : list Z :=
  encode_raw dig addr type data (checksum (line_bytes addr type data)).
Definition encode_record (dig : Z → Z) (x : record) : list Z :=
  let '(addr, type, data) := fields x in encode_line dig addr type data.
Definition eof_record (dig : Z → Z) : list Z := encode_line dig 0 1 [].
(** Records after any text without colons, and then something. *)
Fixpoint encode_records (dig : Z → Z) (l : list (list Z * record)) (tail : list Z) : list Z :=
  match l with
  | [] => tail
  | (s, x) :: l => s ++ encode_record dig x ++ encode_records dig l tail
  end.
Definition encode_file (dig : Z → Z) (l : list (list Z * record)) (sep rest : list Z) : list Z :=
  encode_records dig l (sep ++ eof_record dig ++ rest).

(** The meaning of the records for a core: memory, marked words, the offset
    and the start address. *)
Record meaning : Type := Meaning { m_mem : Z → Z; m_marks : marks; m_offset : Z; m_pc : option Z }.
Definition mean (L : layout) (r : Reader) (e : meaning) (x : record) : meaning :=
  match x with
  | Data addr bytes =>
    let a := m_offset e + addr in
    Meaning (if _init_memory r then store L (m_mem e) a bytes else m_mem e)
      (foldl (λ A c, mark A None (word (fst c))) (m_marks e) (chunks a bytes)) (m_offset e) (m_pc e)
  | ExtendedSegment v => Meaning (m_mem e) (m_marks e) (v * 16) (m_pc e)
  | ExtendedLinear v => Meaning (m_mem e) (m_marks e) (v * 2 ^ 16) (m_pc e)
  | StartSegment v | StartLinear v => Meaning (m_mem e) (m_marks e) (m_offset e) (Some v)
  end.

Lemma be_single x : be [x] = x.
Proof. done. Qed.
Lemma be_big16 v : 0 ≤ v < 2 ^ 16 → be (big16 v) = v.
Proof. intros Hv. unfold be, big16. cbn. pose proof (Z.div_mod v 256). lia. Qed.
Lemma be_big32 v : 0 ≤ v < 2 ^ 32 → be (big32 v) = v.
Proof. intros Hv. unfold be, big32. cbn [foldl]. change (2 ^ 24) with 16777216. change (2 ^ 16) with 65536. zlia. Qed.
Lemma big32_be b0 b1 b2 b3 : Forall is_byte [b0; b1; b2; b3] → big32 (be [b0; b1; b2; b3]) = [b0; b1; b2; b3].
Proof.
  intros Hb. unfold be, big32. cbn [foldl]. decompose_Forall_hyps. unfold is_byte in *. change (2 ^ 24) with 16777216. change (2 ^ 16) with 65536.
  repeat (f_equal; [zlia|]). f_equal. zlia.
Qed.
Lemma big16_bytes v : 0 ≤ v < 2 ^ 16 → Forall is_byte (big16 v).
Proof. intros Hv. unfold big16, is_byte. repeat constructor; zlia. Qed.
Lemma big32_bytes v : 0 ≤ v < 2 ^ 32 → Forall is_byte (big32 v).
Proof. intros Hv. unfold big32, is_byte. repeat constructor; zlia. Qed.

Lemma lay_words le b0 b1 b2 b3 rest : lay le (b0 :: b1 :: b2 :: b3 :: rest) = lay le [b0; b1; b2; b3] ++ lay le rest.
Proof. by destruct le. Qed.
Lemma lay_big bs : lay false bs = bs.
Proof.
  assert (∀ n l, (length l ≤ n)%nat → lay false l = l) as Hall; [|by apply (Hall (length bs))]. intros n. induction n as [|n IH]; intros l Hn.
  { by destruct l; [|cbn in Hn; lia]. }
  destruct l as [|b0 [|b1 [|b2 [|b3 l]]]]; [done..|]. cbn [lay app]. rewrite IH; [done|]. cbn in Hn. lia.
Qed.
Lemma foldl_chunks L n : ∀ bs m a, (length bs ≤ n)%nat → uint 64 a →
  foldl (λ m c, store L m (fst c) (snd c)) m (chunks a bs) = store L m a bs.
Proof.
  unfold store. set (le := little_endian L).
  induction n as [|n IH]; intros bs m a Hn Ha; [destruct bs; [done|cbn in Hn; lia]|].
  assert (∀ k, uint 64 (wrap 64 (a + k))) as Hw by (intros; by apply uint_wrap).
  destruct bs as [|b0 [|b1 [|b2 [|b3 rest]]]]; [done..|]. rewrite lay_words, write_bytes_app by done.
  replace (length (lay le [b0; b1; b2; b3])) with 4%nat by (by destruct le).
  cbn [chunks foldl fst snd]. apply IH; [cbn in Hn; lia|done].
Qed.
Lemma store_chunks {N} `{ModelNodeLaws N} r bs m a : uint 64 a →
  foldl (store_chunk (N := N) r) m (chunks a bs) = if _init_memory r then store (core_layout (N := N)) m a bs else m.
Proof.
  intros Ha. destruct (_init_memory r) eqn:E.
  - rewrite <- (foldl_chunks _ (length bs)) by done. generalize (chunks a bs). intros l. revert m. induction l as [|c l IH]; intros m; [done|].
    cbn [foldl]. unfold store_chunk at 2. rewrite E. apply IH.
  - generalize (chunks a bs). intros l. induction l as [|c l IH]; [done|]. cbn [foldl]. unfold store_chunk at 2. by rewrite E.
Qed.

Section Step.
Context {N : Type} `{ModelNodeLaws N} (r : Reader) (dig : Z → Z).
Context (Hdig : ∀ d, 0 ≤ d < 16 → hex2int (dig d) = d).
Context (file : list Z).

Lemma sum_checksum bs : wrap 8 (sum bs + checksum bs) = 0.
Proof using Type. unfold checksum. rewrite wrap_add_r, Z.add_opp_diag_r. apply wrap_0. Qed.
Lemma at_length f cs : at_ file f cs → cs ≠ [] → (f + length cs ≤ length file)%nat.
Proof using Type.
  intros Hp Hne. pose proof (prefix_length _ _ Hp) as Hl. rewrite length_drop in Hl. destruct cs as [|c cs]; [done|]. cbn [length] in *. lia.
Qed.
(** The header, the checksum and the length of a record. *)
Lemma raw_step v (s : state (N := N)) sep addr type data ck rest : at_ file (f_ v) (sep ++ encode_raw dig addr type data ck ++ rest) →
  Forall (λ c, c ≠ 58) sep → 0 ≤ addr < 2 ^ 16 → is_byte type → (length data < 256)%nat → Forall is_byte data → is_byte ck →
  let f := (f_ v + length sep + 9)%nat in let crc := wrap 8 (sum (line_bytes addr type data) + ck) in
  ∃ line, record_step r file v s = (if crc =? 0 then dispatch r file v s line f (Z.of_nat (length data)) addr type crc
                                    else Ret (Failed (BadCRC line ck (ck - crc)) s)) ∧
    at_ file f (encode_bytes dig (data ++ [ck]) ++ rest).
Proof using Hdig.
  intros Hat Hsep Haddr Htype Hlen Hdata Hck. cbv zeta. set (bs := line_bytes addr type data). set (f := (f_ v + length sep + 1)%nat).
  assert (at_ file (f_ v) (sep ++ [58]) ∧ at_ file f (encode_bytes dig ([Z.of_nat (length data)] ++ big16 addr ++ [type] ++ data ++ [ck]) ++ rest)) as [Hs Hl].
  { unfold encode_raw in Hat. fold bs in Hat. replace (sep ++ (58 :: encode_bytes dig (bs ++ [ck])) ++ rest)
      with ((sep ++ [58]) ++ encode_bytes dig (bs ++ [ck]) ++ rest) in Hat by (rewrite <- !app_assoc; done).
    apply at_app in Hat as [H1 H2]. split; [done|]. rewrite length_app in H2. cbn [length] in H2. subst f bs. unfold line_bytes in *.
    rewrite <- !app_assoc in H2. by rewrite Nat.add_assoc in H2. }
  assert ((length sep < length file - f_ v)%nat) as Hn.
  { pose proof (at_length _ _ Hs) as Hx. rewrite length_app in Hx. cbn [length] in Hx. specialize (Hx ltac:(by destruct sep)). lia. }
  destruct (search_at file sep _ (f_ v) (linecount_ v) Hs Hsep Hn) as [line E]. fold f in E.
  rewrite encode_app, <- app_assoc in Hl. apply at_app in Hl as [A1 Hl]. rewrite length_encode in Hl. change (f + 2 * length [Z.of_nat (length data)])%nat with (f + 2)%nat in Hl.
  rewrite encode_app, <- app_assoc in Hl. apply at_app in Hl as [A2 Hl]. rewrite length_encode in Hl. change (f + 2 + 2 * length (big16 addr))%nat with (f + 2 + 4)%nat in Hl.
  rewrite encode_app, <- app_assoc in Hl. apply at_app in Hl as [A3 Hl]. rewrite length_encode in Hl. change (f + 2 + 4 + 2 * length [type])%nat with (f + 2 + 4 + 2)%nat in Hl.
  pose proof Hl as Hl2. rewrite encode_app, <- app_assoc in Hl. apply at_app in Hl as [A4 Hl]. rewrite length_encode in Hl.
  apply at_app in Hl as [A5 Hl]. rewrite length_encode in Hl. change (2 * length [ck])%nat with 2%nat in Hl.
  assert (f + 2 + 4 + 2 = f_ v + length sep + 9)%nat as Ef by (subst f; lia).
  assert (f + 10 ≤ length file)%nat as Hmin.
  { pose proof (at_length _ _ A5 ltac:(done)) as Hx. rewrite length_encode in Hx. cbn [length] in Hx. lia. }
  assert (0 ≤ Z.of_nat (length data) < 256) as Hl256 by lia.
  exists line. split; [|by rewrite <- Ef].
  unfold record_step. rewrite E. cbn [obind]. rewrite (proj2 (Nat.ltb_ge _ _) Hmin).
  pose proof (hexnum_at dig Hdig file f [Z.of_nat (length data)] 0 ltac:(by apply Forall_singleton) ltac:(cbn; lia) A1) as E1.
  pose proof (hexnum_at dig Hdig file (f + 2) (big16 addr) (sum [Z.of_nat (length data)]) (big16_bytes _ Haddr) ltac:(cbn; lia) A2) as E2.
  pose proof (hexnum_at dig Hdig file (f + 2 + 4) [type] (sum [Z.of_nat (length data)] + sum (big16 addr)) ltac:(by apply Forall_singleton) ltac:(cbn; lia) A3) as E3.
  pose proof (crc_loop_at dig Hdig file (f + 2 + 4 + 2) data (sum [Z.of_nat (length data)] + sum (big16 addr) + sum [type]) Hdata A4) as E4.
  pose proof (hexnum_at dig Hdig file (f + 2 + 4 + 2 + 2 * length data) [ck] (sum [Z.of_nat (length data)] + sum (big16 addr) + sum [type] + sum data)
    ltac:(by apply Forall_singleton) ltac:(cbn; lia) A5) as E5.
  rewrite wrap_0, Z.add_0_l in E1. rewrite be_big16 in E2 by done. rewrite be_single in E1, E3, E5. cbn [length] in E1, E3, E5. change (length (big16 addr)) with 2%nat in E2.
  rewrite E1. cbn [obind]. rewrite E2. cbn [obind]. rewrite E3. cbn [obind]. rewrite Nat2Z.id, E4. cbn [obind]. rewrite E5. cbn [obind].
  assert (sum [Z.of_nat (length data)] + sum (big16 addr) + sum [type] + sum data + sum [ck] = sum bs + ck) as ->.
  { subst bs. unfold line_bytes. rewrite !sum_app. cbn. lia. }
  rewrite Ef. by destruct (wrap 8 (sum bs + ck) =? 0).
Qed.
Lemma line_step v (s : state (N := N)) sep addr type data rest : at_ file (f_ v) (sep ++ encode_line dig addr type data ++ rest) →
  Forall (λ c, c ≠ 58) sep → 0 ≤ addr < 2 ^ 16 → is_byte type → (length data < 256)%nat → Forall is_byte data →
  let f := (f_ v + length sep + 9)%nat in
  ∃ line ck, record_step r file v s = dispatch r file v s line f (Z.of_nat (length data)) addr type 0 ∧ at_ file f (encode_bytes dig (data ++ [ck]) ++ rest).
Proof using Hdig.
  intros Hat H1 H2 H3 H4 H5. destruct (raw_step v s sep addr type data _ rest Hat H1 H2 H3 H4 H5) as (line & E & Hd).
  { unfold checksum. pose proof (uint_wrap 8 (- sum (line_bytes addr type data))). unfold is_byte, uint in *. lia. }
  rewrite sum_checksum in E. cbn [Z.eqb] in E. eauto.
Qed.


Context (Hcolon : ∀ d, dig d ≠ 58).
Lemma encode_no_colon bs : Forall (λ c, c ≠ 58) (encode_bytes dig bs).
Proof using Hcolon. clear Hdig. induction bs as [|b bs IH]; [constructor|]. rewrite encode_cons. by repeat constructor. Qed.

Record tracks (v : vars) (e : meaning) : Prop := {
  t_offset : offset_ v = m_offset e;
  t_small : 0 ≤ m_offset e < 2 ^ 32;
  t_pc : m_pc e = if got_pc v then Some (pc_ v) else None
}.
Lemma fields_valid x : valid_record x → let '(addr, type, data) := fields x in
  0 ≤ addr < 2 ^ 16 ∧ is_byte type ∧ (length data < 256)%nat ∧ Forall is_byte data.
Proof using Type.
  clear Hdig Hcolon. unfold is_byte. destruct x; cbn [valid_record fields]; intros Hv; split_and!; try lia; try apply Hv; cbn [length big16 big32]; try lia.
  all: by apply big16_bytes || apply big32_bytes.
Qed.
(** The reader goes on two characters after the start of the data. *)
Lemma short_record v (s : state (N := N)) e e' p f rest mid line off got pc0 : holds r s (m_mem e) p (m_marks e) →
  at_ file (f + 2) (mid ++ rest) → Forall (λ c, c ≠ 58) mid → (f_ v < f + 2)%nat → tracks (Vars (f + 2) line off got pc0) e' →
  ∃ v' s' mid', Ret (Next (Vars (f + 2) line off got pc0) s) = Ret (Next v' s') ∧ holds r s' (m_mem e) p (m_marks e) ∧ tracks v' e' ∧
    at_ file (f_ v') (mid' ++ rest) ∧ Forall (λ c, c ≠ 58) mid' ∧ (f_ v < f_ v')%nat.
Proof using Type. intros. do 2 eexists. exists mid. by split_and!. Qed.
(** One record. *)
Lemma record_at v (s : state (N := N)) e p sep x rest : at_ file (f_ v) (sep ++ encode_record dig x ++ rest) → Forall (λ c, c ≠ 58) sep → valid_record x →
  holds r s (m_mem e) p (m_marks e) → tracks v e →
  ∃ v' s' mid, record_step r file v s = Ret (Next v' s') ∧ holds r s' (m_mem (mean (core_layout (N := N)) r e x)) p (m_marks (mean (core_layout (N := N)) r e x)) ∧ tracks v' (mean (core_layout (N := N)) r e x) ∧
    at_ file (f_ v') (mid ++ rest) ∧ Forall (λ c, c ≠ 58) mid ∧ (f_ v < f_ v')%nat.
Proof using Hdig Hcolon.
  intros Hat Hsep Hx Hs [T1 T2 T3]. pose proof (fields_valid x Hx) as Hf. unfold encode_record in Hat.
  destruct (fields x) as [[addr type] data] eqn:Ex. destruct Hf as (F1 & F2 & F3 & F4).
  destruct (line_step v s sep addr type data rest Hat Hsep F1 F2 F3 F4) as (line & ck & E & Hd). set (f := (f_ v + length sep + 9)%nat) in *. rewrite E.
  assert (at_ file f (encode_bytes dig data)) as Hdata. { rewrite encode_app, <- app_assoc in Hd. by apply at_app in Hd as [? _]. }
  (* the text from the second byte of the data on *)
  assert (∀ d ds, data = d :: ds → ∃ mid, at_ file (f + 2) (mid ++ rest) ∧ Forall (λ c, c ≠ 58) mid) as Hmid.
  { intros d ds ->. exists (encode_bytes dig (ds ++ [ck])). split; [|apply encode_no_colon]. cbn [app] in Hd. rewrite encode_cons in Hd. cbn [app] in Hd.
    apply at_lookup in Hd as (_ & Hd & _). apply at_lookup in Hd as (_ & Hd & _). by replace (f + 2)%nat with (S (S f)) by lia. }
  destruct x as [a bs|w|w|w|w]; cbn [fields] in Ex; injection Ex as <- <- <-; unfold dispatch; cbn [mean m_mem m_marks].
  2-5: destruct (Hmid _ _ eq_refl) as (mid & M1 & M2); cbn [valid_record] in Hx;
    cbn [Z.eqb negb orb length big16 big32 Z.of_nat Pos.of_succ_nat Pos.succ Pos.eqb].
  - rewrite T1, (wrap_small 64) by (unfold uint; lia).
    destruct (read_memory_at r dig Hdig file f (m_offset e + a) bs (dig (ck / 16)) s _ p _ F4 ltac:(unfold uint; lia) Hs) as (s' & E' & Hs').
    { rewrite encode_app, <- app_assoc in Hd. change (encode_bytes dig [ck]) with ([dig (ck / 16)] ++ [dig (ck mod 16)]) in Hd.
      rewrite <- app_assoc, app_assoc in Hd. by apply at_app in Hd as [? _]. }
    rewrite E'. cbn [obind fst snd]. do 2 eexists. exists []. split; [done|]. rewrite store_chunks in Hs' by (unfold uint; lia).
    split; [exact Hs'|]. split; [by split|]. split; [|split; [constructor|cbn; subst f; lia]]. cbn [f_ app].
    apply at_encode in Hd. rewrite length_app in Hd. cbn [length] in Hd. by replace (f + 2 * length bs + 2)%nat with (f + 2 * (length bs + 1))%nat by lia.
  - pose proof (hexnum_at dig Hdig file f (big16 w) 0 F4 ltac:(cbn; lia) Hdata) as Eh. rewrite wrap_0, be_big16 in Eh by done. cbn [length big16] in Eh.
    rewrite Eh. cbn [obind fst]. eapply short_record; [exact Hs|exact M1|exact M2|subst f; lia|].
    rewrite Z.shiftl_mul_pow2, wrap_small by (unfold uint; lia). split; cbn; [done|lia|done].
  - pose proof (hexnum_at dig Hdig file f (big16 w) 0 F4 ltac:(cbn; lia) Hdata) as Eh. rewrite wrap_0, be_big16 in Eh by done. cbn [length big16] in Eh.
    rewrite Eh. cbn [obind fst]. eapply short_record; [exact Hs|exact M1|exact M2|subst f; lia|].
    rewrite Z.shiftl_mul_pow2, wrap_small by (unfold uint; lia). split; cbn; [done|lia|done].
  - pose proof (hexnum_at dig Hdig file f (big32 w) 0 F4 ltac:(cbn; lia) Hdata) as Eh. rewrite wrap_0, be_big32 in Eh by done. cbn [length big32] in Eh.
    rewrite Eh. cbn [obind fst]. eapply short_record; [exact Hs|exact M1|exact M2|subst f; lia|]. by split.
  - pose proof (hexnum_at dig Hdig file f (big32 w) 0 F4 ltac:(cbn; lia) Hdata) as Eh. rewrite wrap_0, be_big32 in Eh by done. cbn [length big32] in Eh.
    rewrite Eh. cbn [obind fst]. eapply short_record; [exact Hs|exact M1|exact M2|subst f; lia|]. by split.
Qed.

(** The records of a file. *)
Lemma records_at l tail : Forall (λ q, Forall (λ c, c ≠ 58) (fst q) ∧ valid_record (snd q)) l →
  ∀ v (s : state (N := N)) e p pre fuel, at_ file (f_ v) (pre ++ encode_records dig l tail) → Forall (λ c, c ≠ 58) pre →
  holds r s (m_mem e) p (m_marks e) → tracks v e → (length file - f_ v < fuel)%nat →
  let e' := foldl (mean (core_layout (N := N)) r) e (snd <$> l) in
  ∃ v' s' mid fuel', parse_loop r file fuel v s = parse_loop r file (S fuel') v' s' ∧ holds r s' (m_mem e') p (m_marks e') ∧ tracks v' e' ∧
    at_ file (f_ v') (mid ++ tail) ∧ Forall (λ c, c ≠ 58) mid.
Proof using Hdig Hcolon.
  intros Hl. cbv zeta. induction Hl as [|[sp x] l [Hsp Hx] _ IH]; intros v s e p pre fuel Hat Hpre Hs Ht Hfuel; cbn [encode_records fmap list_fmap foldl fst snd] in *;
    (destruct fuel as [|fuel]; [lia|]).
  - exists v, s, pre, fuel. by split_and!.
  - rewrite app_assoc in Hat.
    destruct (record_at v s e p (pre ++ sp) x _ Hat) as (v' & s' & mid & E & Hs' & Ht' & Hat' & Hmid & Hlt); [by apply Forall_app|done|done|done|].
    destruct (IH v' s' (mean (core_layout (N := N)) r e x) p mid fuel Hat' Hmid Hs' Ht') as (v2 & s2 & mid2 & fuel2 & E2 & HR).
    { assert (f_ v < length file)%nat; [|lia]. pose proof (at_length _ _ Hat) as Hx2. rewrite <- app_assoc, length_app in Hx2.
      unfold encode_record, encode_line, encode_raw in Hx2. destruct (fields x) as [[? ?] ?].
      rewrite !length_app in Hx2. cbn [length] in Hx2. specialize (Hx2 ltac:(by destruct pre, sp)). lia. }
    exists v2, s2, mid2, fuel2. split; [|done]. cbn [parse_loop]. by rewrite E.
Qed.
(** The state in which a file is opened. *)
Lemma start_tracks m A : tracks (Vars 0 1 0 false 0) (Meaning m A 0 None).
Proof using Type. clear Hdig Hcolon. split; cbn; [done|lia|done]. Qed.
End Step.

Definition text_ok (l : list (list Z * record)) : Prop := Forall (λ q, Forall (λ c, c ≠ 58) (fst q) ∧ valid_record (snd q)) l.
(** Where the program starts. *)
Definition final_pc (r : Reader) (p : Z) (e : meaning) : Z := if _use_entry_point r then default p (m_pc e) else p.

Section Theorems.
Context {N : Type} `{ModelNodeLaws N} (r : Reader) (dig : Z → Z).

(** C30: the reader, on a file of valid records (hexadecimal digits, no colon in the text
    between them), puts the data of each record past the last extended address: each four
    bytes as one word in the byte order of the core's data, the rest byte for byte, so that
    on a big-endian core the memory holds the bytes of the file and on a little-endian one
    each group of four is reversed.  The program counter is the value of the last start
    record, segment or linear, taken as a 32-bit address, if the reader is to set it; the
    words in which words and single bytes were stored are marked in the memory log, where the
    global memory is number 0.  The text between records does not matter, nor what follows
    the end record.  The core's memory and program counter are parameters with the laws of
    [ModelNodeLaws], and so is the place in memory that an address of 64 bits means. *)
Theorem ihex_reads_file l sep rest (s : state (N := N)) A : (∀ d, 0 ≤ d < 16 → hex2int (dig d) = d) → (∀ d, dig d ≠ 58) →
  text_ok l → Forall (λ c, c ≠ 58) sep → log_rep (log s) A → named (log s) (_root r) GlobalMemName = 0 →
  let e := foldl (mean (core_layout (N := N)) r) (Meaning (mem (node s)) A 0 None) (snd <$> l) in
  ∃ s', parse r (encode_file dig l sep rest) s = Some (Ret (None, s')) ∧ (∀ x, mem (node s') x = m_mem e x) ∧
    pc (node s') = final_pc r (pc (node s)) e ∧ log_rep (log s') (m_marks e).
Proof using Type.
  intros Hdig Hcolon Hl Hsep HA Hn. cbv zeta. set (file := encode_file dig l sep rest). set (e0 := Meaning (mem (node s)) A 0 None).
  assert (holds r s (m_mem e0) (pc (node s)) (m_marks e0)) as Hs by (by split).
  destruct (records_at r dig Hdig file Hcolon l (sep ++ eof_record dig ++ rest) Hl (Vars 0 1 0 false 0) s e0 (pc (node s)) [] (S (length file)))
    as (v & s1 & mid & fuel & E & Hs1 & [_ _ T3] & Hat & Hmid); [by exists []; rewrite app_nil_r|constructor|done|apply start_tracks|cbn; lia|].
  unfold parse. rewrite E. cbn [parse_loop]. rewrite app_assoc in Hat.
  destruct (line_step r dig Hdig file v s1 (mid ++ sep) 0 1 [] rest Hat) as (line & ck & -> & _); [by apply Forall_app|lia|unfold is_byte; lia|cbn; lia|constructor|].
  cbn [dispatch got_pc pc_]. eexists. split; [done|]. destruct Hs1 as [H1 H2 H3 _]. unfold final_pc. rewrite T3.
  destruct (got_pc v), (_use_entry_point r); cbn [andb default node log]; split_and!; try done.
  - intros y. by rewrite setProgramCounter_mem.
  - apply setProgramCounter_pc.
Qed.
(** A record whose checksum is not the one of its bytes stops the reader with an error
    that names both, after the records before it and with nothing of its own. *)
Theorem ihex_bad_checksum l sep addr type data ck rest (s : state (N := N)) A : (∀ d, 0 ≤ d < 16 → hex2int (dig d) = d) → (∀ d, dig d ≠ 58) →
  text_ok l → Forall (λ c, c ≠ 58) sep → log_rep (log s) A → named (log s) (_root r) GlobalMemName = 0 →
  0 ≤ addr < 2 ^ 16 → is_byte type → (length data < 256)%nat → Forall is_byte data → is_byte ck → ck ≠ checksum (line_bytes addr type data) →
  let e := foldl (mean (core_layout (N := N)) r) (Meaning (mem (node s)) A 0 None) (snd <$> l) in
  ∃ s' line expected, parse r (encode_records dig l (sep ++ encode_raw dig addr type data ck ++ rest)) s = Some (Ret (Some (BadCRC line ck expected), s')) ∧
    wrap 8 expected = checksum (line_bytes addr type data) ∧
    (∀ x, mem (node s') x = m_mem e x) ∧ pc (node s') = pc (node s) ∧ log_rep (log s') (m_marks e).
Proof using Type.
  intros Hdig Hcolon Hl Hsep HA Hn H1 H2 H3 H4 H5 Hne. cbv zeta. set (file := encode_records _ _ _). set (e0 := Meaning (mem (node s)) A 0 None).
  assert (holds r s (m_mem e0) (pc (node s)) (m_marks e0)) as Hs by (by split).
  destruct (records_at r dig Hdig file Hcolon l (sep ++ encode_raw dig addr type data ck ++ rest) Hl (Vars 0 1 0 false 0) s e0 (pc (node s)) [] (S (length file)))
    as (v & s1 & mid & fuel & E & [M1 M2 M3 _] & _ & Hat & Hmid); [by exists []; rewrite app_nil_r|constructor|done|apply start_tracks|cbn; lia|].
  unfold parse. rewrite E. cbn [parse_loop]. rewrite app_assoc in Hat.
  destruct (raw_step r dig Hdig file v s1 (mid ++ sep) addr type data ck rest Hat) as (line & -> & _); [by apply Forall_app|done..|].
  unfold checksum in *. set (bs := line_bytes addr type data) in *.
  assert (wrap 8 (sum bs + ck) ≠ 0) as Hnz.
  { intros E0. apply Hne. unfold wrap, is_byte in *. change (2 ^ 8) with 256 in *. zlia. }
  rewrite (proj2 (Z.eqb_neq _ _) Hnz). exists s1, line, (ck - wrap 8 (sum bs + ck)). split; [done|].
  split; [rewrite wrap_sub_r; f_equal; lia|]. done.
Qed.
End Theorems.

(** ** The loop ends *)

Section Ends.
Context {N : Type} `{ModelNode N} (r : Reader) (file : list Z).

Lemma obind_Ret {A B} (x : outcome A) (k : A → outcome B) b : obind x k = Ret b → ∃ a, x = Ret a ∧ k a = Ret b.
Proof using Type. destruct x; try done. eauto. Qed.
Lemma search_mono n f line f' line' : search file n f line = Ret (f', line') → (f ≤ f')%nat.
Proof using Type.
  revert f line. induction n as [|n IH]; intros f line; cbn [search]; [by intros [= -> _]|]. destruct (f <? length file)%nat; [|by intros [= -> _]].
  intros (c & _ & E)%obind_Ret. destruct (c =? 58); [injection E; lia|]. apply IH in E. lia.
Qed.
Lemma word_loop_mono fuel f len a (s : state (N := N)) f' len' a' s' : word_loop r file fuel f len a s = Ret (f', len', a', s') → (f ≤ f')%nat.
Proof using Type.
  revert f len a s. induction fuel as [|fuel IH]; intros f len a s; cbn [word_loop]; [by intros [= -> _ _ _]|]. destruct (_ && _); [|by intros [= -> _ _ _]].
  intros (d & _ & (s1 & _ & E)%obind_Ret)%obind_Ret. apply IH in E. lia.
Qed.
Lemma byte_loop_mono fuel f len a (s : state (N := N)) f' s' : byte_loop r file fuel f len a s = Ret (f', s') → (f ≤ f')%nat.
Proof using Type.
  revert f len a s. induction fuel as [|fuel IH]; intros f len a s; cbn [byte_loop]; [by intros [= -> _]|]. destruct (_ && _); [|by intros [= -> _]].
  intros (d & _ & (s1 & _ & E)%obind_Ret)%obind_Ret. apply IH in E. lia.
Qed.
Lemma read_memory_mono f len a (s : state (N := N)) f' s' : read_memory r file f len a s = Ret (f', s') → (f ≤ f')%nat.
Proof using Type. unfold read_memory. intros ([[[f1 len1] a1] s1] & E1%word_loop_mono & E2%byte_loop_mono)%obind_Ret. lia. Qed.
Lemma dispatch_mono v (s : state (N := N)) line f len a t crc v' s' : dispatch r file v s line f len a t crc = Ret (Next v' s') → (f < f_ v')%nat.
Proof using Type.
  unfold dispatch. intros E. destruct t as [|p|p]; [|repeat (destruct p as [p|p|]; try done)|done].
  all: try (destruct (_ || _); [done|]; apply obind_Ret in E as (h & _ & E); injection E as <- _; cbn; lia).
  apply obind_Ret in E as ([f1 s1] & Em%read_memory_mono & E). injection E as <- _. cbn. lia.
Qed.
Lemma record_step_mono v (s : state (N := N)) v' s' : record_step r file v s = Ret (Next v' s') → (f_ v < f_ v')%nat ∧ (f_ v < length file)%nat.
Proof using Type.
  unfold record_step. intros ([f line] & Es%search_mono & E)%obind_Ret. destruct (Nat.ltb_spec (length file) (f + 10)); [done|].
  apply obind_Ret in E as ([len c1] & _ & E). apply obind_Ret in E as ([addr c2] & _ & E). apply obind_Ret in E as ([t c3] & _ & E).
  apply obind_Ret in E as ([t' c4] & _ & E). apply obind_Ret in E as ([cb c5] & _ & E). destruct (negb _); [done|]. apply dispatch_mono in E. lia.
Qed.
(** The reader ends on every file: every record that is passed over takes the reader
    further into the file, and without one it stops. *)
Theorem ihex_terminates (s : state (N := N)) : parse r file s ≠ None.
Proof using Type.
  unfold parse. assert (∀ fuel v (s : state (N := N)), (length file - f_ v < fuel)%nat → parse_loop r file fuel v s ≠ None) as Hall; [|apply Hall; cbn; lia].
  clear s. intros fuel. induction fuel as [|fuel IH]; intros v s Hf; [lia|]. cbn [parse_loop].
  destruct (record_step r file v s) as [[e s'|v' s'|v' s']| | |] eqn:E; try done. apply record_step_mono in E. apply IH. lia.
Qed.
End Ends.

(** ** The file is not read past its end *)

(** The number of data bytes that a record announces whose colon is at [p]. *)
Definition announced (file : list Z) (p : nat) : Z :=
  match file !! S p, file !! S (S p) with Some c, Some d => 16 * hex2int c + hex2int d | _, _ => 0 end.
(** No record that is long enough to be looked at is cut off. *)
Definition complete (file : list Z) : Prop :=
  ∀ p, file !! p = Some 58 → (p + 11 ≤ length file)%nat → Z.of_nat p + 11 + 2 * announced file p ≤ Z.of_nat (length file).

Section Bounds.
Context {N : Type} `{ModelNode N} (r : Reader) (file : list Z).
(** The log of the state takes marks of the global memory. *)
Definition logged (s : state (N := N)) : Prop := ∃ A, log_rep (log s) A ∧ named (log s) (_root r) GlobalMemName = 0.

Lemma hex2int_bound c : 0 ≤ hex2int c < 16.
Proof using Type.
  unfold hex2int, Hex2IntArray, char_range. set (i := Z.land c 255).
  repeat match goal with |- context [ (?x <=? ?y) ] => destruct (Z.leb_spec x y); cbn [andb] end; lia.
Qed.
Lemma hexnum_ok n s crc v : (s + 2 * n ≤ length file)%nat → ∃ x c, hexnum_from file n s crc v = Ret (x, c).
Proof using Type.
  revert s crc v. induction n as [|n IH]; intros s crc v Hl; cbn [hexnum_from]; [eauto|].
  destruct (lookup_lt_is_Some_2 file s) as [c Hc]; [lia|]. destruct (lookup_lt_is_Some_2 file (S s)) as [d Hd]; [lia|].
  unfold deref. rewrite Hc, Hd. cbn [obind]. apply IH. lia.
Qed.
Lemma hexnum_byte p crc : (S (S p) < length file)%nat → ∃ c, hexnum file 1 (S p) crc = Ret (announced file p, c).
Proof using Type.
  intros Hl. unfold hexnum, announced. cbn [hexnum_from]. destruct (lookup_lt_is_Some_2 file (S p)) as [c Hc]; [lia|].
  destruct (lookup_lt_is_Some_2 file (S (S p))) as [d Hd]; [lia|]. unfold deref. rewrite Hc, Hd. cbn [obind].
  pose proof (hex2int_bound c). pose proof (hex2int_bound d). rewrite (Z.shiftl_mul_pow2 (hex2int c)) by lia. change (2 ^ 4) with 16.
  rewrite (wrap_small 8 (hex2int c * 16)) by (unfold uint; lia). rewrite (Z.lor_comm (hex2int c * 16)). change 16 with (2 ^ 4). rewrite lor_add by (unfold uint; lia).
  change (2 ^ 4) with 16. rewrite (wrap_small 8) by (unfold uint; lia). change (wrap 32 (Z.shiftl 0 8)) with 0. rewrite Z.lor_0_l. eexists. do 2 f_equal. lia.
Qed.
Lemma init_mem_logged s a d size : logged s → uint 64 a → ∃ s', init_mem_internal r s GlobalMemName a d size = Ret s' ∧ logged s'.
Proof using Type.
  intros (A & R & Hn) Ha. unfold init_mem_internal, initialize_mem.
  destruct (log_set_spec (log s) (_root r) GlobalMemName a A R Ha) as (log' & E & R' & [S1 _]); [rewrite Hn; unfold count; lia|].
  rewrite E. cbn [obind fst snd]. eexists. split; [done|]. exists (mark A (memory_of (_root r) (named (log s) (_root r) GlobalMemName)) (word a)). cbn [log]. by rewrite S1.
Qed.
Lemma search_colon n f line f' line' : search file n f line = Ret (f', line') → (length file - f ≤ n)%nat →
  (length file ≤ f')%nat ∨ ∃ p, f' = S p ∧ file !! p = Some 58.
Proof using Type.
  revert f line. induction n as [|n IH]; intros f line; cbn [search]; [intros [= -> _] Hn; left; lia|].
  destruct (Nat.ltb_spec f (length file)); [|by intros [= -> _]; left]. intros (c & Hc & E)%obind_Ret Hn. unfold deref in Hc. destruct (file !! f) as [c'|] eqn:Ef; [|done].
  injection Hc as ->. destruct (Z.eqb_spec c 58) as [-> |]; [injection E as <- _; right; by exists f|]. apply (IH _ _ E). lia.
Qed.
Lemma search_ok n f line : ∃ f' line', search file n f line = Ret (f', line').
Proof using Type.
  revert f line. induction n as [|n IH]; intros f line; cbn [search]; [eauto|]. destruct (Nat.ltb_spec f (length file)) as [Hl|]; [|eauto].
  destruct (lookup_lt_is_Some_2 file f Hl) as [c Hc]. unfold deref. rewrite Hc. cbn [obind]. destruct (c =? 58); [eauto|apply IH].
Qed.
Lemma crc_loop_ok n t crc : (t + 2 * n ≤ length file)%nat → ∃ c, crc_loop file n t crc = Ret ((t + 2 * n)%nat, c).
Proof using Type.
  revert t crc. induction n as [|n IH]; intros t crc Hl; cbn [crc_loop]; [rewrite Nat.add_0_r; eauto|].
  rewrite (proj2 (Nat.ltb_lt _ _)) by lia. destruct (hexnum_ok 1 t crc 0) as (x & c & E); [lia|]. unfold hexnum. rewrite E. cbn [obind snd].
  destruct (IH (t + 2)%nat c) as [c' E']; [lia|]. exists c'. rewrite E'. do 2 f_equal. lia.
Qed.
Lemma byte_loop_ok fuel f len a s : logged s → uint 64 a → 0 ≤ len → Z.of_nat f + 2 * len ≤ Z.of_nat (length file) →
  ∃ f' s', byte_loop r file fuel f len a s = Ret (f', s') ∧ logged s'.
Proof using Type.
  revert f len a s. induction fuel as [|fuel IH]; intros f len a s Hs Ha Hl Hf; cbn [byte_loop]; [eauto|].
  destruct ((f <? length file)%nat && negb (len =? 0)) eqn:Eg; [|eauto].
  apply andb_true_iff in Eg as [_ Eg%negb_true_iff%Z.eqb_neq]. destruct (hexnum_ok 1 f 0 0) as (x & c & E); [lia|]. unfold hexnum. rewrite E. cbn [obind fst].
  destruct (init_mem_logged s a x 8 Hs Ha) as (s' & -> & Hs'). cbn [obind]. apply IH; [done|by apply uint_wrap|lia|lia].
Qed.
Lemma read_memory_ok f len a s : logged s → uint 64 a → 0 ≤ len → Z.of_nat f + 2 * len ≤ Z.of_nat (length file) →
  ∃ f' s', read_memory r file f len a s = Ret (f', s') ∧ logged s'.
Proof using Type.
  unfold read_memory. generalize (Z.to_nat len) as fuel. intros fuel. revert f len a s. induction fuel as [|fuel IH]; intros f len a s Hs Ha Hl Hf; cbn [word_loop obind].
  { by apply byte_loop_ok. }
  destruct ((f <? length file)%nat && (4 <=? len)) eqn:Eg; [|by apply byte_loop_ok].
  apply andb_true_iff in Eg as [_ Eg%Z.leb_le]. destruct (hexnum_ok 4 f 0 0) as (x & c & E); [lia|]. unfold hexnum. rewrite E. cbn [obind fst].
  destruct (init_mem_logged s a x 32 Hs Ha) as (s' & -> & Hs'). cbn [obind]. apply IH; [done|by apply uint_wrap|lia|lia].
Qed.
Lemma dispatch_ok v s line f len addr t crc : logged s → 0 ≤ len → Z.of_nat f + 2 * len ≤ Z.of_nat (length file) →
  ∃ x, dispatch r file v s line f len addr t crc = Ret x ∧ match x with Failed _ s' | Done _ s' | Next _ s' => logged s' end.
Proof using Type.
  intros Hs Hl Hf. unfold dispatch.
  assert (∀ n e (k : Z * Z → outcome progress), len = Z.of_nat n → (∀ h, ∃ x, k h = Ret x ∧ match x with Failed _ s' | Done _ s' | Next _ s' => logged s' end) →
    ∃ x, (if negb (addr =? 0) || negb (len =? Z.of_nat n) then Ret (Failed e s) else let! h := hexnum file n f crc in k h) = Ret x ∧
      match x with Failed _ s' | Done _ s' | Next _ s' => logged s' end) as Hshort.
  { intros n e k -> Hk. destruct (_ || _); [eauto|]. destruct (hexnum_ok n f crc 0) as (x & c & E); [lia|]. unfold hexnum. rewrite E. apply Hk. }
  assert (∀ n e (k : Z * Z → outcome progress), (∀ h, ∃ x, k h = Ret x ∧ match x with Failed _ s' | Done _ s' | Next _ s' => logged s' end) →
    ∃ x, (if negb (addr =? 0) || negb (len =? Z.of_nat n) then Ret (Failed e s) else let! h := hexnum file n f crc in k h) = Ret x ∧
      match x with Failed _ s' | Done _ s' | Next _ s' => logged s' end) as Hext.
  { intros n e k Hk. destruct (Z.eqb_spec len (Z.of_nat n)) as [El|]; [|rewrite orb_true_r; eauto]. rewrite <- (proj2 (Z.eqb_eq _ _) El). by apply Hshort. }
  destruct t as [|p|p]; [|repeat (destruct p as [p|p|]; try (by eexists))|eauto].
  - destruct (read_memory_ok f len (wrap 64 (offset_ v + addr)) s Hs ltac:(by apply uint_wrap) Hl Hf) as (f' & s' & -> & Hs'). cbn [obind fst snd]. eauto.
  - apply (Hext 4%nat). eauto.
  - apply (Hext 4%nat). eauto.
  - apply (Hext 2%nat). eauto.
  - apply (Hext 2%nat). eauto.
Qed.
Lemma record_step_ok v s : complete file → logged s →
  ∃ x, record_step r file v s = Ret x ∧ match x with Failed _ s' | Done _ s' | Next _ s' => logged s' end.
Proof using Type.
  intros Hc Hs. unfold record_step. destruct (search_ok (length file - f_ v) (f_ v) (linecount_ v)) as (f & line & E). rewrite E. cbn [obind].
  destruct (Nat.ltb_spec (length file) (f + 10)) as [|Hl]; [eauto|].
  apply search_colon in E as [|(p & -> & Hp)]; [lia| |lia]. specialize (Hc p Hp ltac:(lia)).
  destruct (hexnum_byte p 0) as [c1 ->]; [lia|]. cbn [obind]. set (len := announced file p) in *.
  assert (0 ≤ len) as Hlen.
  { subst len. unfold announced. destruct (file !! S p) as [c|], (file !! S (S p)) as [d|]; try done. pose proof (hex2int_bound c). pose proof (hex2int_bound d). lia. }
  destruct (hexnum_ok 2 (S p + 2) c1 0) as (addr & c2 & E2); [lia|]. unfold hexnum at 1. rewrite E2. cbn [obind].
  destruct (hexnum_ok 1 (S p + 2 + 4) c2 0) as (t & c3 & E3); [lia|]. unfold hexnum at 1. rewrite E3. cbn [obind].
  destruct (crc_loop_ok (Z.to_nat len) (S p + 2 + 4 + 2) c3) as (c4 & E4); [lia|]. rewrite E4. cbn [obind].
  destruct (hexnum_ok 1 (S p + 2 + 4 + 2 + 2 * Z.to_nat len) c4 0) as (cb & c5 & E5); [lia|]. unfold hexnum at 1. rewrite E5. cbn [obind].
  destruct (negb (c5 =? 0)); [eauto|]. apply dispatch_ok; [done|done|lia].
Qed.
(** C31: a file in which no record is cut off is not read past its end, whatever else is wrong
    with it: the reader ends with the end record or with an error. *)
Theorem ihex_in_bounds s : complete file → logged s → ∃ e s', parse r file s = Some (Ret (e, s')).
Proof using Type.
  intros Hc Hs. unfold parse.
  assert (∀ fuel v s, (length file - f_ v < fuel)%nat → logged s → ∃ e s', parse_loop r file fuel v s = Some (Ret (e, s'))) as Hall; [|apply Hall; [cbn; lia|done]].
  clear s Hs. intros fuel. induction fuel as [|fuel IH]; intros v s Hf Hs; [lia|]. cbn [parse_loop].
  destruct (record_step_ok v s Hc Hs) as ([e s'|v' s'|v' s'] & E & Hs'); rewrite E; [eauto|eauto|].
  apply record_step_mono in E. apply IH; [lia|done].
Qed.
End Bounds.

(** ** Words that were stored and not marked *)

(** An aligned record marks exactly the words of its bytes. *)
Definition byte_words (a : Z) (bs : list Z) : list Z := (λ i, word (wrap 64 (a + i))) <$> seqZ 0 (Z.of_nat (length bs)).
Lemma byte_words_elem a bs w : w ∈ byte_words a bs ↔ ∃ i, w = word (wrap 64 (a + i)) ∧ 0 ≤ i < Z.of_nat (length bs).
Proof.
  unfold byte_words. rewrite list_elem_of_fmap. apply exist_proper. intros i. rewrite elem_of_seqZ. split; intros [H1 H2]; (split; [done|lia]).
Qed.
Lemma aligned_words n : ∀ bs a w, (length bs ≤ n)%nat → uint 64 a → a mod 4 = 0 ∨ (length bs < 4)%nat →
  (w ∈ (λ c, word (fst c)) <$> chunks a bs ↔ w ∈ byte_words a bs).
Proof.
  induction n as [|n IH]; intros bs a w Hn Ha Hal; [destruct bs; [done|cbn in Hn; lia]|].
  assert (∀ b rest, chunks a (b :: rest) = (a, [b]) :: chunks (wrap 64 (a + 1)) rest → (length (b :: rest) < 4)%nat → (length (b :: rest) ≤ S n)%nat →
    (w ∈ (λ c, word (fst c)) <$> chunks a (b :: rest) ↔ w ∈ byte_words a (b :: rest))) as Hone.
  { intros b rest E Hl Hn'. rewrite E. cbn [fmap list_fmap fst]. rewrite elem_of_cons. cbn [length] in *.
    rewrite (IH rest) by (try apply uint_wrap; lia). rewrite !byte_words_elem. cbn [length]. split.
    - intros [-> |(i & -> & Hi)]; [exists 0|exists (i + 1)]; [rewrite Z.add_0_r, wrap_small by done; split; [done|lia]|]. rewrite wrap_add_l. split; [do 2 f_equal; lia|lia].
    - intros (i & -> & Hi). destruct (Z.eq_dec i 0) as [-> |]; [left; by rewrite Z.add_0_r, wrap_small|right]. exists (i - 1). rewrite wrap_add_l. split; [do 2 f_equal; lia|lia]. }
  destruct bs as [|b0 [|b1 [|b2 [|b3 rest]]]]; [done|apply Hone; [done|cbn; lia|done]..|]. destruct Hal as [Hal|Hal]; [|cbn in Hal; lia].
  cbn [chunks fmap list_fmap fst]. rewrite elem_of_cons, (IH rest).
  - rewrite !byte_words_elem. cbn [length].
    assert (∀ j, 0 ≤ j < 4 → word (wrap 64 (a + j)) = word a) as Hw.
    { intros j Hj. unfold word. rewrite wrap_small by (unfold uint in *; zlia). zlia. }
    split.
    + intros [-> |(i & -> & Hi)]; [exists 0; rewrite Hw by lia; split; [done|lia]|]. exists (i + 4). rewrite wrap_add_l. split; [do 2 f_equal; lia|lia].
    + intros (i & -> & Hi). destruct (Z.lt_ge_cases i 4); [left; apply Hw; lia|right]. exists (i - 4). rewrite wrap_add_l. split; [do 2 f_equal; lia|lia].
  - cbn in Hn. lia.
  - by apply uint_wrap.
  - left. unfold wrap. zlia.
Qed.

(** ** Examples *)

Module HexExample.
(** A core of either byte order with addresses of 32 bits: memory and program counter. *)
Definition layout_of (le : bool) : layout := Layout le (wrap 32).
Record core (le : bool) : Type := Core { c_mem : Z → Z; c_pc : Z }.
#[export] Instance core_node le : ModelNode (core le) := {|
  setMem n _ a d size := Core le (store (layout_of le) (c_mem le n) a (if size =? 32 then big32 d else [d])) (c_pc le n);
  setProgramCounter n a := Core le (c_mem le n) a
|}.
#[export, refine] Instance core_laws le : ModelNodeLaws (core le) := {| core_layout := layout_of le; mem n := c_mem le n; pc n := c_pc le n |}.
Proof.
  - intros n a bs x Hb [Hl|Hl] Ha; (destruct bs as [|b0 [|b1 [|b2 [|b3 [|b4 bs]]]]]; try done).
    unfold setMem, core_node. cbn [c_mem]. change (8 * Z.of_nat (length [b0; b1; b2; b3]) =? 32) with true. cbv iota. by rewrite big32_be.
  - done.
  - done.
  - done.
Defined.
Definition capital (d : Z) : Z := if d <? 10 then 48 + d else 55 + d.
Lemma hex_capital d : 0 ≤ d < 16 → hex2int (capital d) = d.
Proof. intros Hd. assert (d ∈ seqZ 0 16) as Hin by (apply elem_of_seqZ; lia). repeat (apply elem_of_cons in Hin as [-> |Hin]; [done|]). by apply not_elem_of_nil in Hin. Qed.
Lemma capital_colon d : capital d ≠ 58.
Proof. unfold capital. destruct (Z.ltb_spec d 10); lia. Qed.
Definition reader : Reader := {| _root := 1; _init_memory := true; _use_entry_point := true; WarnMemOverwrite := true |}.
Definition start le : state (N := core le) := St (Core le (λ _, 0) 0) (add_nodes new_log (Node 1 [] [])) [].
(** Six bytes at 0x10100, where the program starts. *)
Definition records : list (list Z * record) := [([], ExtendedLinear 1); ([10], Data 0x100 [1; 2; 3; 4; 5; 6]); ([10], StartLinear 0x10100)].
Lemma records_ok : text_ok records.
Proof. unfold text_ok, records. repeat (constructor; cbn); unfold is_byte; lia. Qed.
Lemma newline_ok : Forall (λ c, c ≠ 58) [10].
Proof. by repeat constructor. Qed.
Lemma start_log le : log_rep (log (start le)) (λ _, ∅) ∧ named (log (start le)) (_root reader) GlobalMemName = 0.
Proof.
  destruct (add_nodes_rep (Node 1 [] [])) as (R & Hn & _); [|split; [exact R|by rewrite Hn]].
  split; [by apply (bool_decide_unpack _); vm_compute|]. repeat constructor.
Qed.
(** ":020000040001F9", ":06010000010203040506E4" and so on. *)
Definition file : list Z := encode_file capital records [10] [10].
Example file_text : take 15 file = [58; 48; 50; 48; 48; 48; 48; 48; 52; 48; 48; 48; 49; 70; 57].
Proof. vm_compute. reflexivity. Qed.
Lemma file_complete : complete file.
Proof.
  intros p Hp _. assert (p ∈ [0; 16; 40; 60]%nat) as Hin.
  { assert (Forall (λ q, file !! q = Some 58 → q ∈ [0; 16; 40; 60]%nat) (seq 0 (length file))) as Hall.
    { apply (bool_decide_unpack _). vm_compute. exact I. }
    rewrite Forall_forall in Hall. apply Hall; [|exact Hp]. apply elem_of_seq. apply lookup_lt_Some in Hp. lia. }
  repeat (apply elem_of_cons in Hin as [-> |Hin]; [vm_compute; discriminate|]). by apply not_elem_of_nil in Hin.
Qed.
(** A record at an address that is not a multiple of 4 stores into a word that is not
    marked. *)
Example unaligned_unmarked : let e := mean (layout_of false) reader (Meaning (λ _, 0) (λ _, ∅) 0 None) (Data 2 [1; 2; 3; 4]) in
  m_mem e 5 = 4 ∧ word 5 ∉ m_marks e None.
Proof.
  cbn -[elem_of]. split; [reflexivity|]. unfold mark. rewrite decide_True by done. apply (bool_decide_unpack _). vm_compute. exact I.
Qed.
End HexExample.
Import HexExample.

Lemma ihex_reads_file_witness : ∃ big little,
  parse reader file (start false) = Some (Ret (None, big)) ∧ parse reader file (start true) = Some (Ret (None, little)) ∧
  mem (node big) <$> [0x10100; 0x10101; 0x10102; 0x10103; 0x10104; 0x10105] = [1; 2; 3; 4; 5; 6] ∧
  mem (node little) <$> [0x10100; 0x10101; 0x10102; 0x10103; 0x10104; 0x10105] = [4; 3; 2; 1; 5; 6] ∧
  pc (node big) = 0x10100.
Proof.
  destruct (ihex_reads_file reader capital records [10] [10] (start false) _ hex_capital capital_colon records_ok newline_ok (proj1 (start_log false)) (proj2 (start_log false)))
    as (s' & E & Hm & Hp & _).
  destruct (ihex_reads_file reader capital records [10] [10] (start true) _ hex_capital capital_colon records_ok newline_ok (proj1 (start_log true)) (proj2 (start_log true)))
    as (t' & Et & Hmt & _). exists s', t'. split; [exact E|]. split; [exact Et|].
  cbn [fmap list_fmap]. rewrite !Hm, !Hmt, Hp. vm_compute. auto.
Defined.
Lemma ihex_bad_checksum_witness : ∃ s' line expected,
  parse reader (encode_records capital records ([10] ++ encode_raw capital 0 0 [7] 0 ++ [])) (start false) = Some (Ret (Some (BadCRC line 0 expected), s')) ∧
  mem (node s') 0 = 0.
Proof.
  destruct (ihex_bad_checksum reader capital records [10] 0 0 [7] 0 [] (start false) _ hex_capital capital_colon records_ok newline_ok (proj1 (start_log false)) (proj2 (start_log false))
    ltac:(lia) ltac:(unfold is_byte; lia) ltac:(cbn; lia) ltac:(by apply Forall_singleton) ltac:(unfold is_byte; lia) ltac:(vm_compute; discriminate))
    as (s' & line & expected & E & _ & Hm & _). exists s', line, expected. split; [exact E|]. rewrite Hm. vm_compute. reflexivity.
Defined.
Lemma ihex_in_bounds_witness : complete file ∧ ∃ e s', parse reader file (start false) = Some (Ret (e, s')).
Proof.
  split; [exact file_complete|]. apply (ihex_in_bounds reader file (start false) file_complete).
  exists (λ _, ∅). exact (start_log false).
Defined.
