(* ===== verification/CommitQueue.v ===== *)
(** * Delayed writes and rollback

    The commit queues and the restore stack of [src/iss/ModelSupport.h]: lists of
    [CommitWrite] objects that are linked through their [_nextp] fields, in which a
    simulator keeps register and memory writes that take effect at the end of a
    later cycle, or the old values that an exception restores.

    Objects are known by numbers; [links] holds their [_nextp] fields.  What the
    virtual members [commit] and [free] of an object do to the rest of the
    simulator is the class [Objects]; they do not touch the queues.  Following a
    null pointer is [Undefined].  The loops get one unit of fuel for each object. *)
From stdpp Require Import prelude gmap list.
From Stdlib Require Import ZArith Lia.
From S2P Require Import Prelude.

(** What committing and freeing an object does to the state [W] of the simulator. *)
Class Objects (W : Type) := {
  obj_commit : nat → W → W;
  obj_free : nat → W → W
}.

Record store (W : Type) : Type := Store { links : gmap nat (option nat); world : W }.
Arguments Store {W} links world.
Arguments links {W} s.
Arguments world {W} s.

Record RestoreStack : Type := { _head : option nat }.
Record CommitQueue : Type := { _base : RestoreStack; _tail : option nat }.
Record CommitQueues : Type := { _q : list CommitQueue; _cur : Z }.

Section Model.
Context {W : Type} `{Objects W}.

Definition get_nextp (s : store W) (x : nat) : outcome (option nat) :=
  match links s !! x with Some n => Ret n | None => Undefined end.
Definition set_nextp (s : store W) (x : nat) (n : option nat) : outcome (store W) :=
  match links s !! x with
  | Some _ => Ret (Store (<[x := n]> (links s)) (world s))
  | None => Undefined
  end.
Definition set_world (s : store W) (w : W) : store W := Store (links s) w.

(** ** [RestoreStack] *)

Definition new_stack : RestoreStack := {| _head := None |}.
Definition stack_add (q : RestoreStack) (x : nat) (s : store W) : outcome (RestoreStack * store W) :=
  match _head q with
  | None => let! s := set_nextp s x None in Ret ({| _head := Some x |}, s)
  | Some h => let! s := set_nextp s x (Some h) in Ret ({| _head := Some x |}, s)
  end.
Fixpoint commit_loop (fuel : nat) (last h : option nat) (s : store W) : outcome (RestoreStack * store W) :=
  if bool_decide (h = last) then Ret ({| _head := h |}, s) else
  match fuel, h with
  | S fuel, Some tmp =>
      let! h := get_nextp s tmp in
      let s := set_world s (obj_commit tmp (world s)) in
      let s := set_world s (obj_free tmp (world s)) in
      commit_loop fuel last h s
  | _, _ => Undefined
  end.
Definition stack_commit (q : RestoreStack) (last : option nat) (s : store W) : outcome (RestoreStack * store W) :=
  commit_loop (size (links s)) last (_head q) s.
Fixpoint reset_loop (fuel : nat) (h : option nat) (s : store W) : outcome (RestoreStack * store W) :=
  match h with
  | None => Ret ({| _head := None |}, s)
  | Some tmp =>
      match fuel with
      | S fuel =>
          let! h := get_nextp s tmp in
          reset_loop fuel h (set_world s (obj_free tmp (world s)))
      | O => Undefined
      end
  end.
Definition stack_reset (q : RestoreStack) (s : store W) : outcome (RestoreStack * store W) :=
  reset_loop (size (links s)) (_head q) s.
(** The new values of the stack and of the one that its elements are taken from. *)
Definition stack_set (q x : RestoreStack) : outcome (RestoreStack * RestoreStack) :=
  assert! bool_decide (_head q = None) in
  Ret ({| _head := _head x |}, {| _head := None |}).

(** ** [CommitQueue] *)

Definition new_queue : CommitQueue := {| _base := new_stack; _tail := None |}.
Definition queue_add (q : CommitQueue) (x : nat) (s : store W) : outcome (CommitQueue * store W) :=
  let! r :=
    match _head (_base q) with
    | None => Ret ({| _base := {| _head := Some x |}; _tail := Some x |}, s)
    | Some _ =>
        match _tail q with
        | None => Undefined
        | Some t => let! s := set_nextp s t (Some x) in
                    Ret ({| _base := _base q; _tail := Some x |}, s)
        end
    end in
  let! s := set_nextp (snd r) x None in
  Ret (fst r, s).
Definition queue_commit (q : CommitQueue) (s : store W) : outcome (CommitQueue * store W) :=
  let! r := stack_commit (_base q) None s in
  Ret ({| _base := fst r; _tail := None |}, snd r).
(** Also [reset] calls the inherited [commit]. *)
Definition queue_reset (q : CommitQueue) (s : store W) : outcome (CommitQueue * store W) :=
  let! r := stack_commit (_base q) None s in
  Ret ({| _base := fst r; _tail := None |}, snd r).
Definition queue_set (q x : CommitQueue) : outcome (CommitQueue * CommitQueue) :=
  let! r := stack_set (_base q) (_base x) in
  Ret ({| _base := fst r; _tail := _tail x |}, {| _base := snd r; _tail := None |}).

(** ** [CommitQueues<D>]: one queue for each delay *)

Definition new_queues (D : nat) : CommitQueues := {| _q := replicate D new_queue; _cur := 0 |}.
Definition slot (c : CommitQueues) (delay : Z) : nat :=
  Z.to_nat (wrap 32 (_cur c + delay) mod Z.of_nat (length (_q c))).
Definition queues_add (c : CommitQueues) (x : nat) (delay : Z) (s : store W) : outcome (CommitQueues * store W) :=
  let i := slot c delay in
  match _q c !! i with
  | None => Undefined
  | Some q => let! r := queue_add q x s in
              Ret ({| _q := <[i := fst r]> (_q c); _cur := _cur c |}, snd r)
  end.
Definition queues_commit (c : CommitQueues) (s : store W) : outcome (CommitQueues * store W) :=
  let i := Z.to_nat (_cur c) in
  match _q c !! i with
  | None => Undefined
  | Some q => let! r := queue_commit q s in
              Ret ({| _q := <[i := fst r]> (_q c); _cur := _cur c |}, snd r)
  end.
Definition queues_next (c : CommitQueues) : CommitQueues :=
  {| _q := _q c; _cur := wrap 32 (_cur c + 1) mod Z.of_nat (length (_q c)) |}.
End Model.
