(* ===== verification/CommitQueueCorrect.v ===== *)
(** * Delayed writes take effect on schedule

    The linked lists of [CommitQueue] as lists, over one shared store of objects: the
    restore stack is last-in first-out, a commit queue first-in first-out, and a write
    that is queued with a delay is carried out at the end of exactly that cycle. *)
From stdpp Require Import prelude gmap list.
From Stdlib Require Import ZArith Lia.
From S2P Require Import Prelude.
From S2P Require Import CommitQueue.

(** ** Linked lists *)

(** The list [l] is linked from [h] to [e]. *)
Fixpoint lseg (m : gmap nat (option nat)) (h : option nat) (l : list nat) (e : option nat) : Prop :=
  match l with
  | [] => h = e
  | x :: l => h = Some x ∧ ∃ n, m !! x = Some n ∧ lseg m n l e
  end.

Lemma lseg_app m h l1 l2 e : lseg m h (l1 ++ l2) e ↔ ∃ k, lseg m h l1 k ∧ lseg m k l2 e.
Proof.
  revert h. induction l1 as [|x l1 IH]; intros h; cbn.
  { split; [intros Hl; by exists h|by intros (k & -> & Hl)]. }
  split.
  - intros (-> & n & Hn & (k & H1 & H2)%IH). exists k. eauto.
  - intros (k & (-> & n & Hn & H1) & H2). split; [done|]. exists n. split; [done|]. apply IH. eauto.
Qed.

(** A list depends on the fields of its own objects only. *)
Lemma lseg_frame m m' h l e : (∀ y, y ∈ l → m' !! y = m !! y) → lseg m h l e → lseg m' h l e.
Proof.
  revert h. induction l as [|x l IH]; intros h Hm; cbn; [done|].
  intros (-> & n & Hn & Hl). split; [done|]. exists n. rewrite Hm by (by left). split; [done|].
  apply IH; [|done]. intros y Hy. apply Hm. by right.
Qed.

Lemma lseg_dom m h l e : lseg m h l e → list_to_set l ⊆ dom m.
Proof.
  revert h. induction l as [|x l IH]; intros h; cbn; [set_solver|].
  intros (_ & n & Hn & Hl). apply IH in Hl. apply elem_of_dom_2 in Hn. set_solver.
Qed.

Lemma lseg_size m h l e : lseg m h l e → NoDup l → length l ≤ size m.
Proof.
  intros Hl%lseg_dom Hd. rewrite <- (size_list_to_set (C := gset nat)) by done.
  rewrite <- size_dom. by apply subseteq_size.
Qed.

(** The elements determine where a list starts. *)
Lemma lseg_head m m' h h' l : lseg m h l None → lseg m' h' l None → h = h'.
Proof. destruct l; cbn; [congruence|]. by intros (-> & _) (-> & _). Qed.

(** ** One stack, one queue *)

Section Correct.
Context {W : Type} `{Objects W}.
Implicit Types s : store W.

Definition exec (w : W) (x : nat) : W := obj_free x (obj_commit x w).
Definition exec_all (l : list nat) (w : W) : W := foldl exec w l.

Lemma commit_loop_spec fuel last h l s : lseg (links s) h l last → Forall (λ x, Some x ≠ last) l →
  length l ≤ fuel →
  commit_loop fuel last h s = Ret ({| _head := last |}, Store (links s) (exec_all l (world s))).
Proof.
  revert h s fuel. induction l as [|x l IH]; intros h s fuel Hl Hne Hf.
  - cbn in Hl. subst h. destruct fuel; cbn; rewrite bool_decide_true by done; by destruct s.
  - destruct Hl as (-> & n & Hn & Hl). apply Forall_cons_1 in Hne as [Hx Hne].
    destruct fuel as [|fuel]; cbn in Hf; [lia|]. cbn [commit_loop]. rewrite bool_decide_false by done.
    unfold get_nextp. rewrite Hn. cbn [obind]. rewrite IH; [done|done|done|lia].
Qed.

Lemma reset_loop_spec fuel h l s : lseg (links s) h l None → length l ≤ fuel →
  reset_loop fuel h s = Ret ({| _head := None |}, Store (links s) (foldl (λ w x, obj_free x w) (world s) l)).
Proof.
  revert h s fuel. induction l as [|x l IH]; intros h s fuel Hl Hf.
  - cbn in Hl. subst h. destruct fuel; cbn; by destruct s.
  - destruct Hl as (-> & n & Hn & Hl). destruct fuel as [|fuel]; cbn in Hf; [lia|]. cbn [reset_loop].
    unfold get_nextp. rewrite Hn. cbn [obind]. rewrite IH; [done|done|lia].
Qed.

Lemma stack_commit_spec q last l s : lseg (links s) (_head q) l last → NoDup l → Forall (λ x, Some x ≠ last) l →
  stack_commit q last s = Ret ({| _head := last |}, Store (links s) (exec_all l (world s))).
Proof. intros Hl Hd Hne. apply commit_loop_spec; [done..|]. by eapply lseg_size. Qed.

Lemma stack_add_spec q x l s : lseg (links s) (_head q) l None → is_Some (links s !! x) → x ∉ l →
  stack_add q x s = Ret ({| _head := Some x |}, Store (<[x := _head q]> (links s)) (world s)) ∧
  lseg (<[x := _head q]> (links s)) (Some x) (x :: l) None.
Proof.
  intros Hl [n Hn] Hx. unfold stack_add, set_nextp. rewrite Hn. split; [by destruct (_head q)|].
  split; [done|]. exists (_head q). rewrite lookup_insert_eq. split; [done|].
  eapply lseg_frame; [|exact Hl]. intros y Hy. apply lookup_insert_ne. set_solver.
Qed.

(** The queue [q] has the objects [l]. *)
Record queue_rep (m : gmap nat (option nat)) (q : CommitQueue) (l : list nat) : Prop := {
  q_list : lseg m (_head (_base q)) l None;
  q_tail : l ≠ [] → _tail q = last l;
  q_nodup : NoDup l
}.

Lemma queue_rep_new m : queue_rep m new_queue [].
Proof. by split; [|done|constructor]. Qed.

Lemma queue_rep_frame m m' q l : (∀ y, y ∈ l → m' !! y = m !! y) → queue_rep m q l → queue_rep m' q l.
Proof. intros Hm [Hl Ht Hd]. split; [by eapply lseg_frame|done|done]. Qed.

Lemma queue_add_spec q x l s : queue_rep (links s) q l → is_Some (links s !! x) → x ∉ l →
  ∃ q' m, queue_add q x s = Ret (q', Store m (world s)) ∧ queue_rep m q' (l ++ [x]) ∧
    (∀ y, y ∉ l → y ≠ x → m !! y = links s !! y) ∧ dom m = dom (links s).
Proof.
  intros [Hl Ht Hd] [n Hn] Hx. unfold queue_add. destruct l as [|y l' _] using rev_ind.
  - cbn in Hl. rewrite Hl. cbn [obind fst snd]. unfold set_nextp. rewrite Hn. cbn [obind].
    eexists _, _. split; [done|]. split_and!.
    + split; [|done|by apply NoDup_singleton]. split; [done|]. exists None. by rewrite lookup_insert_eq.
    + intros y _ Hy. by apply lookup_insert_ne.
    + rewrite dom_insert_L. apply elem_of_dom_2 in Hn. set_solver.
  - rewrite Ht, last_snoc by (by destruct l'). apply lseg_app in Hl as (k & Hl1 & -> & t & Hy & Ht2).
    assert (x ≠ y ∧ x ∉ l') as [Hxy Hxl] by set_solver.
    apply NoDup_app in Hd as (Hd1 & Hdis & _).
    assert (y ∉ l') as Hyl by (intros Hin; apply (Hdis y Hin); set_solver).
    assert (∃ h, _head (_base q) = Some h) as [h Hh].
    { destruct l' as [|z l']; [by exists y|]. destruct Hl1 as [-> _]. eauto. }
    rewrite Hh. unfold set_nextp. rewrite Hy. cbn [obind fst snd links world].
    rewrite lookup_insert_ne, Hn by done. cbn [obind]. eexists _, _. split; [done|]. split_and!.
    + split.
      * cbn [_base]. apply lseg_app. exists (Some x). split; [apply lseg_app; exists (Some y); split|].
        -- eapply lseg_frame; [|exact Hl1]. intros z Hz. rewrite !lookup_insert_ne; [done|set_solver..].
        -- split; [done|]. exists (Some x). rewrite lookup_insert_ne, lookup_insert_eq by done. done.
        -- split; [done|]. exists None. by rewrite lookup_insert_eq.
      * intros _. by rewrite last_snoc.
      * apply NoDup_app. split; [|split; [set_solver|by apply NoDup_singleton]].
        apply NoDup_app. split; [done|]. split; [set_solver|by apply NoDup_singleton].
    + intros z Hz Hzx. rewrite !lookup_insert_ne; [done|set_solver..].
    + rewrite !dom_insert_L. apply elem_of_dom_2 in Hn. apply elem_of_dom_2 in Hy. set_solver.
Qed.

Lemma queue_commit_spec q l s : queue_rep (links s) q l →
  queue_commit q s = Ret (new_queue, Store (links s) (exec_all l (world s))).
Proof.
  intros [Hl Ht Hd]. unfold queue_commit. erewrite stack_commit_spec; [done|exact Hl|done|].
  by apply Forall_true.
Qed.

(** ** The queues of all delays *)

(** [pend d] are the objects that are to be committed at the end of the [d]-th cycle
    from now on, in order. *)
Record queues_rep (D : nat) (m : gmap nat (option nat)) (c : CommitQueues) (pend : nat → list nat) : Prop := {
  c_len : length (_q c) = D;
  c_cur : (0 ≤ _cur c < Z.of_nat D)%Z;
  c_queue d : d < D → ∃ q, _q c !! ((Z.to_nat (_cur c) + d) mod D) = Some q ∧ queue_rep m q (pend d);
  c_apart i j : i < D → j < D → i ≠ j → pend i ## pend j
}.

Lemma mod_inj a i j D : i < D → j < D → (a + i) mod D = (a + j) mod D → i = j.
Proof.
  intros Hi Hj E. pose proof (Nat.div_mod_eq (a + i) D). pose proof (Nat.div_mod_eq (a + j) D).
  assert ((a + i) / D = (a + j) / D) as Eq; [|rewrite Eq in *; lia].
  destruct (Nat.lt_trichotomy ((a + i) / D) ((a + j) / D)) as [Hlt|[?|Hlt]]; [|done|]; exfalso; nia.
Qed.

Lemma new_queues_rep D m : 0 < D → queues_rep D m (new_queues D) (λ _, []).
Proof.
  intros HD. split; cbn.
  - by rewrite length_replicate.
  - lia.
  - intros d Hd. exists new_queue. split; [|apply queue_rep_new]. apply lookup_replicate_2.
    by apply Nat.mod_upper_bound; lia.
  - set_solver.
Qed.

Section Queues.
Context (D : nat) (HD : (0 < Z.of_nat D < 2 ^ 31)%Z).

Lemma slot_spec m c pend d : queues_rep D m c pend → d < D →
  slot c (Z.of_nat d) = (Z.to_nat (_cur c) + d) mod D.
Proof using HD.
  intros [Hl Hc _ _] Hd. unfold slot. rewrite Hl, wrap_small by (unfold uint; lia).
  rewrite <- (Z2Nat.id (_cur c)) at 1 by lia. by rewrite <- Nat2Z.inj_add, <- Nat2Z.inj_mod, Nat2Z.id.
Qed.

Definition append (pend : nat → list nat) (d x : nat) : nat → list nat :=
  λ i, if decide (i = d) then pend d ++ [x] else pend i.

Lemma queues_add_spec c x d s pend : queues_rep D (links s) c pend → d < D → is_Some (links s !! x) →
  (∀ i, i < D → x ∉ pend i) →
  ∃ c' m, queues_add c x (Z.of_nat d) s = Ret (c', Store m (world s)) ∧ queues_rep D m c' (append pend d x) ∧
    dom m = dom (links s).
Proof using HD.
  intros Hr Hd Hx Hfresh. pose proof (slot_spec _ _ _ d Hr Hd) as Hs. destruct Hr as [Hl Hc Hq Ha].
  unfold queues_add. rewrite Hs. destruct (Hq d Hd) as (q & -> & Hqr).
  destruct (queue_add_spec q x (pend d) s Hqr Hx (Hfresh d Hd)) as (q' & m & -> & Hq' & Hm & Hdom).
  cbn [obind fst snd]. eexists _, m. split; [done|]. split; [|done]. split; cbn.
  - by rewrite length_insert.
  - done.
  - intros i Hi. unfold append. destruct (decide (i = d)) as [->|Hne].
    + exists q'. split; [|done]. apply list_lookup_insert_eq. rewrite Hl. apply Nat.mod_upper_bound. lia.
    + destruct (Hq i Hi) as (qi & Hqi & Hri). exists qi. split.
      * rewrite list_lookup_insert_ne; [done|]. intros E%mod_inj; by try lia.
      * eapply queue_rep_frame; [|exact Hri]. intros y Hy. apply Hm.
        -- intros Hyd. by apply (Ha i d Hi Hd Hne y).
        -- intros ->. by apply (Hfresh i Hi).
  - intros i j Hi Hj Hne. unfold append. pose proof (Hfresh i Hi). pose proof (Hfresh j Hj).
    pose proof (Ha i j Hi Hj Hne). repeat case_decide; subst; set_solver.
Qed.

Definition clear_now (pend : nat → list nat) : nat → list nat := λ i, if decide (i = 0) then [] else pend i.

Lemma queues_commit_spec c s pend : queues_rep D (links s) c pend →
  ∃ c', queues_commit c s = Ret (c', Store (links s) (exec_all (pend 0) (world s))) ∧
    queues_rep D (links s) c' (clear_now pend).
Proof using HD.
  intros [Hl Hc Hq Ha]. unfold queues_commit. destruct (Hq 0) as (q & Hq0 & Hr); [lia|].
  assert ((Z.to_nat (_cur c) + 0) mod D = Z.to_nat (_cur c)) as E.
  { rewrite Nat.add_0_r. apply Nat.mod_small. lia. }
  rewrite E in Hq0. rewrite Hq0. rewrite (queue_commit_spec q (pend 0)) by done. cbn [obind fst snd].
  eexists. split; [done|]. split; cbn.
  - by rewrite length_insert.
  - done.
  - intros i Hi. unfold clear_now. destruct (decide (i = 0)) as [->|Hne].
    + exists new_queue. split; [|apply queue_rep_new]. rewrite E. apply list_lookup_insert_eq. lia.
    + destruct (Hq i Hi) as (qi & Hqi & Hri). exists qi. split; [|done].
      rewrite list_lookup_insert_ne; [done|]. rewrite <- E at 1. intros E'%mod_inj; by try lia.
  - intros i j Hi Hj Hne. unfold clear_now. pose proof (Ha i j Hi Hj Hne). repeat case_decide; set_solver.
Qed.

Definition shift (pend : nat → list nat) : nat → list nat := λ i, pend ((i + 1) mod D).

Lemma queues_next_spec m c pend : queues_rep D m c pend → queues_rep D m (queues_next c) (shift pend).
Proof using HD.
  intros [Hl Hc Hq Ha]. unfold queues_next. rewrite Hl, wrap_small by (unfold uint; lia).
  assert (Z.to_nat ((_cur c + 1) mod Z.of_nat D) = (Z.to_nat (_cur c) + 1) mod D) as E.
  { rewrite <- (Z2Nat.id (_cur c)) at 1 by lia. change 1%Z with (Z.of_nat 1).
    by rewrite <- Nat2Z.inj_add, <- Nat2Z.inj_mod, Nat2Z.id. }
  split; cbn [_q _cur].
  - done.
  - apply Z.mod_pos_bound. lia.
  - intros d Hd. rewrite E. destruct (Hq ((d + 1) mod D)) as (q & Hqd & Hr); [apply Nat.mod_upper_bound; lia|].
    exists q. split; [|done]. rewrite <- Hqd. f_equal.
    rewrite Nat.Div0.add_mod_idemp_l, Nat.Div0.add_mod_idemp_r. f_equal. lia.
  - intros i j Hi Hj Hne. apply Ha; [apply Nat.mod_upper_bound; lia..|].
    rewrite !(Nat.add_comm _ 1). intros E'%mod_inj; lia.
Qed.

(** ** Cycles *)

(** The writes of a cycle, each with its delay; the end of the cycle. *)
Fixpoint add_writes (ws : list (nat * nat)) (c : CommitQueues) (s : store W) : outcome (CommitQueues * store W) :=
  match ws with
  | [] => Ret (c, s)
  | (x, d) :: ws => let! r := queues_add c x (Z.of_nat d) s in add_writes ws (fst r) (snd r)
  end.
Definition cycle (ws : list (nat * nat)) (c : CommitQueues) (s : store W) : outcome (CommitQueues * store W) :=
  let! r := add_writes ws c s in
  let! r := queues_commit (fst r) (snd r) in
  Ret (queues_next (fst r), snd r).
Fixpoint cycles (cs : list (list (nat * nat))) (c : CommitQueues) (s : store W) :
    outcome (CommitQueues * store W) :=
  match cs with
  | [] => Ret (c, s)
  | ws :: cs => let! r := cycle ws c s in cycles cs (fst r) (snd r)
  end.

(** The writes of one cycle with delay [d]; those of all cycles that are due in cycle
    [t], in program order. *)
Definition with_delay (ws : list (nat * nat)) (d : nat) : list nat :=
  fst <$> filter (λ w : nat * nat, w.2 = d) ws.
Fixpoint due (cs : list (list (nat * nat))) (t : nat) : list nat :=
  match cs with
  | [] => []
  | ws :: cs => with_delay ws t ++ match t with O => [] | S t => due cs t end
  end.
(** The first [n] cycles of a schedule, one after the other. *)
Fixpoint exec_until (f : nat → list nat) (n : nat) (w : W) : W :=
  match n with O => w | S n => exec_all (f n) (exec_until f n w) end.

(** An object is queued again only when it was carried out; delays fit the queues. *)
Fixpoint writes_ok (objs : gset nat) (ws : list (nat * nat)) (pend : nat → list nat) : Prop :=
  match ws with
  | [] => True
  | (x, d) :: ws => x ∈ objs ∧ d < D ∧ (∀ i, i < D → x ∉ pend i) ∧ writes_ok objs ws (append pend d x)
  end.
Definition end_cycle (pend : nat → list nat) : nat → list nat := shift (clear_now pend).
Definition queued (ws : list (nat * nat)) (pend : nat → list nat) : nat → list nat :=
  λ d, pend d ++ with_delay ws d.
Fixpoint cycles_ok (objs : gset nat) (cs : list (list (nat * nat))) (pend : nat → list nat) : Prop :=
  match cs with
  | [] => True
  | ws :: cs => writes_ok objs ws pend ∧ cycles_ok objs cs (end_cycle (queued ws pend))
  end.

Lemma exec_until_first f n w : exec_until f (S n) w = exec_until (λ t, f (S t)) n (exec_all (f 0) w).
Proof. induction n as [|n IH]; [done|]. cbn [exec_until]. by rewrite <- IH. Qed.

Lemma exec_until_ext f g n w : (∀ t, t < n → f t = g t) → exec_until f n w = exec_until g n w.
Proof using Type.
  clear HD. induction n as [|n IH]; intros Hfg; cbn; [done|]. rewrite (Hfg n), IH; [done| |lia]. intros t Ht. apply Hfg. lia.
Qed.

Lemma queues_rep_ext m c p p' : (∀ i, i < D → p i = p' i) → queues_rep D m c p → queues_rep D m c p'.
Proof.
  intros Hp [Hl Hc Hq Ha]. split; [done..| |].
  - intros d Hd. rewrite <- Hp by done. by apply Hq.
  - intros i j Hi Hj. rewrite <- !Hp by done. by apply Ha.
Qed.

Lemma queued_cons x d ws pend i : queued ws (append pend d x) i = queued ((x, d) :: ws) pend i.
Proof.
  unfold queued, append, with_delay. rewrite filter_cons. cbn [snd]. destruct (decide (i = d)) as [->|Hne].
  - rewrite decide_True by done. rewrite fmap_cons. by rewrite <- app_assoc.
  - by rewrite decide_False.
Qed.

Lemma add_writes_spec ws c s pend : queues_rep D (links s) c pend → writes_ok (dom (links s)) ws pend →
  ∃ c' m, add_writes ws c s = Ret (c', Store m (world s)) ∧ queues_rep D m c' (queued ws pend) ∧
    dom m = dom (links s).
Proof using HD.
  revert c s pend. induction ws as [|[x d] ws IH]; intros c s pend Hr Hok.
  - exists c, (links s). split; [by destruct s|]. split; [|done]. eapply queues_rep_ext; [|exact Hr].
    intros i _. unfold queued. by rewrite app_nil_r.
  - destruct Hok as (Hx & Hd & Hf & Hok). apply elem_of_dom in Hx.
    destruct (queues_add_spec c x d s pend Hr Hd Hx Hf) as (c1 & m1 & E1 & Hr1 & Hm1).
    cbn [add_writes]. rewrite E1. cbn [obind fst snd].
    destruct (IH c1 (Store m1 (world s)) (append pend d x)) as (c2 & m2 & E2 & Hr2 & Hm2); [done|cbn [links]; by rewrite Hm1|].
    exists c2, m2. split; [done|]. split; [|by rewrite <- Hm1]. eapply queues_rep_ext; [|exact Hr2].
    intros i _. apply queued_cons.
Qed.

Lemma cycle_spec ws c s pend : queues_rep D (links s) c pend → writes_ok (dom (links s)) ws pend →
  ∃ c' m, cycle ws c s = Ret (c', Store m (exec_all (queued ws pend 0) (world s))) ∧
    queues_rep D m c' (end_cycle (queued ws pend)) ∧ dom m = dom (links s).
Proof using HD.
  intros Hr Hok. destruct (add_writes_spec ws c s pend Hr Hok) as (c1 & m1 & E1 & Hr1 & Hm1).
  destruct (queues_commit_spec c1 (Store m1 (world s)) _ Hr1) as (c2 & E2 & Hr2).
  unfold cycle. rewrite E1. cbn [obind fst snd]. rewrite E2. cbn [obind fst snd]. eexists _, _. split; [done|].
  split; [|done]. by apply queues_next_spec.
Qed.

(** What was queued before, and what the cycles add. *)
Definition pending_and_due (pend : nat → list nat) (cs : list (list (nat * nat))) (t : nat) : list nat :=
  (if decide (t < D) then pend t else []) ++ due cs t.

Lemma writes_ok_delay objs ws pend d : writes_ok objs ws pend → D ≤ d → with_delay ws d = [].
Proof.
  revert pend. induction ws as [|[x e] ws IH]; intros pend; [done|]. intros (_ & He & _ & Hok) Hd.
  unfold with_delay. rewrite filter_cons, decide_False by (cbn; lia). by eapply IH.
Qed.

Lemma pending_and_due_step objs pend ws cs t : writes_ok objs ws pend →
  pending_and_due pend (ws :: cs) (S t) = pending_and_due (end_cycle (queued ws pend)) cs t.
Proof.
  intros Hok. unfold pending_and_due. cbn [due]. rewrite app_assoc. f_equal.
  unfold end_cycle, shift, clear_now. destruct (decide (S t < D)) as [Ht|Ht].
  - rewrite (decide_True (P := t < D)) by lia. rewrite Nat.mod_small by lia. rewrite decide_False by lia.
    by rewrite Nat.add_1_r.
  - rewrite (writes_ok_delay objs ws pend) by (done || lia). destruct (decide (t < D)); [|done].
    replace (t + 1) with D by lia. by rewrite Nat.Div0.mod_same.
Qed.

Lemma cycles_spec cs c s pend : queues_rep D (links s) c pend → cycles_ok (dom (links s)) cs pend →
  ∃ c' m, cycles cs c s = Ret (c', Store m (exec_until (pending_and_due pend cs) (length cs) (world s))) ∧
    dom m = dom (links s).
Proof using HD.
  revert c s pend. induction cs as [|ws cs IH]; intros c s pend Hr Hok.
  - exists c, (links s). by destruct s.
  - destruct Hok as [Hw Hok]. destruct (cycle_spec ws c s pend Hr Hw) as (c1 & m1 & E1 & Hr1 & Hm1).
    cbn [cycles]. rewrite E1. cbn [obind fst snd].
    edestruct (IH c1 (Store m1 (exec_all (queued ws pend 0) (world s)))) as (c2 & m2 & -> & Hm2); [done|cbn [links]; by rewrite Hm1|].
    exists c2, m2. split; [|by rewrite <- Hm1]. do 3 f_equal. cbn [length]. rewrite exec_until_first.
    replace (pending_and_due pend (ws :: cs) 0) with (queued ws pend 0).
    + apply exec_until_ext. intros t _. by erewrite pending_and_due_step.
    + unfold pending_and_due, queued. rewrite decide_True by lia. cbn [due]. by rewrite app_nil_r.
Qed.

(** There are [D] slots, and a delay counts modulo their number. *)
Definition in_slots (ws : list (nat * nat)) : list (nat * nat) := (λ w : nat * nat, (w.1, w.2 mod D)) <$> ws.
Definition small_delays (cs : list (list (nat * nat))) : Prop := Forall (Forall (λ w : nat * nat, (Z.of_nat w.2 < 2 ^ 31)%Z)) cs.
Definition ring (c : CommitQueues) : Prop := length (_q c) = D ∧ (0 ≤ _cur c < Z.of_nat D)%Z.

Lemma slot_mod c d : ring c → (Z.of_nat d < 2 ^ 31)%Z → slot c (Z.of_nat (d mod D)) = slot c (Z.of_nat d).
Proof using HD.
  intros [Hl Hc] Hd. unfold slot. rewrite Hl, Nat2Z.inj_mod. pose proof (Z.mod_pos_bound (Z.of_nat d) (Z.of_nat D)).
  rewrite !wrap_small by (unfold uint; lia). by rewrite Zplus_mod_idemp_r.
Qed.
Lemma queues_add_ring c x d (s : store W) c' s' : ring c → queues_add c x d s = Ret (c', s') → ring c'.
Proof using Type.
  intros [Hl Hc]. unfold queues_add. destruct (_q c !! slot c d) as [q|]; [|done]. destruct (queue_add q x s); [|done..].
  intros [= <- _]. split; [by cbn; rewrite length_insert|done].
Qed.
Lemma queues_commit_ring c (s : store W) c' s' : ring c → queues_commit c s = Ret (c', s') → ring c'.
Proof using Type.
  intros [Hl Hc]. unfold queues_commit. destruct (_q c !! Z.to_nat (_cur c)) as [q|]; [|done]. destruct (queue_commit q s); [|done..].
  intros [= <- _]. split; [by cbn; rewrite length_insert|done].
Qed.
Lemma add_writes_slots ws c s : ring c → Forall (λ w : nat * nat, (Z.of_nat w.2 < 2 ^ 31)%Z) ws →
  add_writes (in_slots ws) c s = add_writes ws c s ∧ ∀ c' s', add_writes ws c s = Ret (c', s') → ring c'.
Proof using HD.
  intros Hc Hws. revert c s Hc. induction Hws as [|[x d] ws Hd _ IH]; intros c s Hc; [split; [done|by intros ? ? [= <- _]]|].
  cbn [add_writes in_slots fmap list_fmap fst snd]. fold (in_slots ws). unfold queues_add at 1. rewrite slot_mod by done. fold (queues_add c x (Z.of_nat d) s).
  destruct (queues_add c x (Z.of_nat d) s) as [[c1 s1]| | |] eqn:E; [|done..]. cbn [obind fst snd]. by apply IH, (queues_add_ring _ _ _ _ _ _ Hc E).
Qed.
Lemma cycles_slots cs c s : ring c → small_delays cs → cycles (in_slots <$> cs) c s = cycles cs c s.
Proof using HD.
  intros Hc Hcs. revert c s Hc. induction Hcs as [|ws cs Hws _ IH]; intros c s Hc; [done|]. cbn [fmap list_fmap cycles]. unfold cycle.
  destruct (add_writes_slots ws c s Hc Hws) as [-> Hr]. destruct (add_writes ws c s) as [[c1 s1]| | |]; [|done..]. cbn [obind fst snd].
  specialize (Hr _ _ eq_refl). destruct (queues_commit c1 s1) as [[c2 s2]| | |] eqn:E; [|done..]. cbn [obind fst snd]. apply IH.
  destruct (queues_commit_ring _ _ _ _ Hr E) as [Hl Hb]. split; cbn [queues_next _q _cur]; [done|]. rewrite Hl. apply Z.mod_pos_bound. lia.
Qed.
End Queues.
End Correct.

(** ** The promises of the classes *)

(** C37: with [D] slots, 0 < D < 2^31, a write that is queued in cycle [t] with delay [d] is
    carried out at the end of cycle [t + d mod D] and at no other time, after the writes
    that were queued before it for that cycle: the state after any number of cycles is the
    one of the schedule [due].  This holds for delays below 2^31 and where an object is
    queued only while it is in no slot.  A delay below [D] is waited for in full; one of
    [D], which the program has where the delay is only known when it runs, is none. *)
Theorem commit_schedule {W} `{Objects W} (D : nat) (cs : list (list (nat * nat))) (s : store W) :
  (0 < Z.of_nat D < 2 ^ 31)%Z → small_delays cs → cycles_ok D (dom (links s)) (in_slots D <$> cs) (λ _, []) →
  ∃ c m, cycles cs (new_queues D) s = Ret (c, Store m (exec_until (due (in_slots D <$> cs)) (length cs) (world s))).
Proof.
  intros HD Hsm Hok. destruct (cycles_spec D HD (in_slots D <$> cs) (new_queues D) s (λ _, [])) as (c & m & E & _); [|done|].
  - apply new_queues_rep. lia.
  - rewrite length_fmap in E. rewrite <- (cycles_slots D HD), E; [|split; cbn; [by rewrite length_replicate|lia]|done].
    exists c, m. rewrite (exec_until_ext _ (due (in_slots D <$> cs))); [done|]. intros t _. unfold pending_and_due. by case_decide.
Qed.

(** Objects that write their number to a log. *)
Definition log_objects : Objects (list nat) := {| obj_commit x w := w ++ [x]; obj_free _ w := w |}.

Ltac solve_writes_ok :=
  split_and!; try done; try lia; try (by apply (bool_decide_unpack _); vm_compute);
  intros [|[|[|i]]] Hi; try (exfalso; lia); by apply (bool_decide_unpack _); vm_compute.

(** The last write has a delay of all the slots: it is carried out in its own cycle. *)
Lemma commit_schedule_witness :
  let s := Store {[ 1 := None; 2 := None; 3 := None; 4 := None ]} [] in
  (∃ c m, cycles (H := log_objects) [[(1, 2); (2, 0)]; [(2, 1); (3, 0); (4, 3)]; []] (new_queues 3) s =
          Ret (c, Store m [2; 3; 4; 1; 2])).
Proof.
  apply (commit_schedule (H := log_objects) 3 [[(1, 2); (2, 0)]; [(2, 1); (3, 0); (4, 3)]; []]
           (Store {[ 1 := None; 2 := None; 3 := None; 4 := None ]} [])); [lia|repeat constructor; cbn; lia|].
  cbn [cycles_ok writes_ok in_slots fmap list_fmap fst snd]. change (0 mod 3) with 0. change (1 mod 3) with 1. change (2 mod 3) with 2. change (3 mod 3) with 0.
  solve_writes_ok.
Defined.

Section Rollback.
Context {W : Type} `{Objects W}.

(** An instruction puts an object that undoes it on the stack and then changes the
    state. *)
Fixpoint record_all (steps : list (nat * (W → W))) (q : RestoreStack) (s : store W) : outcome (RestoreStack * store W) :=
  match steps with
  | [] => Ret (q, s)
  | (x, f) :: steps =>
      let! r := stack_add q x s in
      record_all steps (fst r) (set_world (snd r) (f (world s)))
  end.
Fixpoint undo_ok (steps : list (nat * (W → W))) (w : W) : Prop :=
  match steps with
  | [] => True
  | (x, f) :: steps => exec (f w) x = w ∧ undo_ok steps (f w)
  end.

Lemma record_all_spec steps q l s : lseg (links s) (_head q) l None → list_to_set (fst <$> steps) ⊆ dom (links s) →
  NoDup (fst <$> steps) → (fst <$> steps) ## l → undo_ok steps (world s) →
  ∃ q' m w, record_all steps q s = Ret (q', Store m w) ∧
    lseg m (_head q') (reverse (fst <$> steps)) (_head q) ∧ lseg m (_head q) l None ∧
    exec_all (reverse (fst <$> steps)) w = world s.
Proof.
  revert q l s. induction steps as [|[x f] steps IH]; intros q l s Hl Hdom Hd Hdis Hu.
  - exists q, (links s), (world s). by destruct s.
  - rewrite fmap_cons in *. cbn [fst] in *. apply NoDup_cons in Hd as [Hx Hd]. destruct Hu as [Hux Hu].
    destruct (stack_add_spec q x l s Hl) as [E Hl1].
    { apply elem_of_dom. set_solver. }
    { set_solver. }
    cbn [record_all]. rewrite E. cbn [obind fst snd].
    destruct (IH {| _head := Some x |} (x :: l) (set_world (Store (<[x := _head q]> (links s)) (world s)) (f (world s))))
      as (q' & m & w & -> & Hq' & (_ & n & Hn & Hm) & Hw); [done|set_solver|done|set_solver|done|].
    exists q', m, w. rewrite reverse_cons. assert (n = _head q) as -> by (by eapply lseg_head).
    split; [done|]. split; [|split; [done|]].
    + apply lseg_app. exists (Some x). split; [done|]. split; [done|]. by exists (_head q).
    + unfold exec_all in *. by rewrite foldl_app, Hw.
Qed.

(** Taking back everything that was recorded since a mark restores the state that the
    simulator had there, and leaves the stack as it was: restoring runs in reverse
    program order. *)
Theorem restore_rollback (steps : list (nat * (W → W))) (q : RestoreStack) (l : list nat) (s : store W) :
  lseg (links s) (_head q) l None → list_to_set (fst <$> steps) ⊆ dom (links s) →
  NoDup (fst <$> steps) → (fst <$> steps) ## l → undo_ok steps (world s) →
  ∃ m, (let! r := record_all steps q s in stack_commit (fst r) (_head q) (snd r)) = Ret (q, Store m (world s)) ∧
    lseg m (_head q) l None.
Proof.
  intros Hl Hdom Hd Hdis Hu.
  destruct (record_all_spec steps q l s Hl Hdom Hd Hdis Hu) as (q' & m & w & -> & Hq' & Hl' & Hw).
  exists m. split; [|done]. cbn [obind fst snd].
  rewrite (stack_commit_spec q' (_head q) (reverse (fst <$> steps))); [cbn [links world]; rewrite Hw; by destruct q|done| |].
  - by rewrite reverse_Permutation.
  - apply Forall_forall. intros x Hx%elem_of_reverse E. destruct l as [|y l]; cbn in Hl; [congruence|].
    destruct Hl as [E' _]. assert (x = y) as -> by congruence. set_solver.
Qed.

End Rollback.

(** A register that is counted up, its old value on the stack. *)
Definition undo_objects : Objects nat := {| obj_commit x _ := x; obj_free _ w := w |}.

Lemma restore_rollback_witness :
  ∃ m, (let! r := record_all [(5, S); (6, λ _, 9); (9, S)] {| _head := Some 1 |}
                    (Store {[ 1 := None; 5 := None; 6 := None; 9 := None ]} 5) in
        stack_commit (H := undo_objects) (fst r) (Some 1) (snd r)) = Ret ({| _head := Some 1 |}, Store m 5) ∧
       lseg m (Some 1) [1] None.
Proof.
  apply (restore_rollback (H := undo_objects) [(5, S); (6, λ _, 9); (9, S)] {| _head := Some 1 |} [1]
           (Store {[ 1 := None; 5 := None; 6 := None; 9 := None ]} 5)).
  - split; [done|]. by exists None.
  - cbn. set_solver.
  - apply (bool_decide_unpack _). by vm_compute.
  - cbn. set_solver.
  - done.
Defined.

Section Clearing.
Context {W : Type} `{Objects W}.

(** A stack is cleared without carrying anything out. *)
Lemma stack_reset_frees q l s : lseg (links s) (_head q) l None → NoDup l →
  stack_reset q s = Ret (new_stack, Store (links s) (foldl (λ w x, obj_free x w) (world s) l)).
Proof. intros Hl Hd. apply reset_loop_spec; [done|]. by eapply lseg_size. Qed.

(** Clearing a queue carries out all that was queued. *)
Lemma queue_reset_commits q l s : queue_rep (links s) q l →
  queue_reset q s = Ret (new_queue, Store (links s) (exec_all l (world s))).
Proof. apply queue_commit_spec. Qed.

(** The elements of a queue can be taken over. *)
Lemma queue_set_moves m q x l : queue_rep m q [] → queue_rep m x l →
  ∃ q' x', queue_set q x = Ret (q', x') ∧ queue_rep m q' l ∧ queue_rep m x' [].
Proof.
  intros [E _ _] [Hl Ht Hd]. cbn in E. unfold queue_set, stack_set. rewrite bool_decide_true by done. cbn.
  eexists _, _. split; [done|]. split; [by split|]. split; [done|done|constructor].
Qed.
End Clearing.
