(* ===== verification/TimeTags.v ===== *)
(** * Time-tagged simulators

    The clocks, register tags and resource counters of [src/iss/ModelSupport.h], and the
    functions [time_tag_start_<group>] and [time_tag_finish_<group>] that
    [src/iss/GenInstrs.C] writes for a core: a simulator that executes instructions one
    after the other and computes the times at which a pipeline would have executed them.

    Times are [ttime_t], 64-bit numbers; latencies are [unsigned].  The stages of all
    groups of instructions are variables of the core, by name, which start at zero. *)
From stdpp Require Import prelude functions gmap list strings.
From Stdlib Require Import ZArith Lia.
From S2P Require Import Prelude.
Open Scope Z_scope.

(** ** The clocks of a core *)

(** The members of [InstrCountBase], [TemporalDecouplingBase] and [TimeTaggedBase]. *)
Record TimeTaggedBase : Type := {
  _instr_count : Z;
  _td_counter : Z;
  _td_threshold : Z;
  _td_increment : Z;
  _accum_time : Z;
  _final_time : Z;
  _latency : Z;
  _cache_latency : Z
}.

Definition instr_count_reset (t : TimeTaggedBase) : TimeTaggedBase :=
  {| _instr_count := 0; _td_counter := _td_counter t; _td_threshold := _td_threshold t;
     _td_increment := _td_increment t; _accum_time := _accum_time t; _final_time := _final_time t;
     _latency := _latency t; _cache_latency := _cache_latency t |}.
Definition td_reset (t : TimeTaggedBase) : TimeTaggedBase :=
  instr_count_reset
    {| _instr_count := _instr_count t; _td_counter := 0; _td_threshold := wrap 64 (-1);
       _td_increment := 1; _accum_time := _accum_time t; _final_time := _final_time t;
       _latency := _latency t; _cache_latency := _cache_latency t |}.
(** [_accum_time] keeps its value. *)
Definition tt_reset (t : TimeTaggedBase) : TimeTaggedBase :=
  td_reset
    {| _instr_count := _instr_count t; _td_counter := _td_counter t; _td_threshold := _td_threshold t;
       _td_increment := _td_increment t; _accum_time := _accum_time t; _final_time := 0;
       _latency := 0; _cache_latency := 0 |}.
(** The constructor; [accum] is what the memory held. *)
Definition new_base (accum : Z) : TimeTaggedBase :=
  tt_reset {| _instr_count := 0; _td_counter := 0; _td_threshold := wrap 64 (-1); _td_increment := 1;
              _accum_time := accum; _final_time := 0; _latency := 0; _cache_latency := 0 |}.

Definition current_time (t : TimeTaggedBase) : Z := _accum_time t.
(** Assignments to the members that change while a program runs. *)
Definition set_times (t : TimeTaggedBase) (td accum final : Z) : TimeTaggedBase :=
  {| _instr_count := _instr_count t; _td_counter := td; _td_threshold := _td_threshold t;
     _td_increment := _td_increment t; _accum_time := accum; _final_time := final;
     _latency := _latency t; _cache_latency := _cache_latency t |}.
Definition set_latencies (t : TimeTaggedBase) (l cl : Z) : TimeTaggedBase :=
  {| _instr_count := _instr_count t; _td_counter := _td_counter t; _td_threshold := _td_threshold t;
     _td_increment := _td_increment t; _accum_time := _accum_time t; _final_time := _final_time t;
     _latency := l; _cache_latency := cl |}.

Definition clear_cache_latency (t : TimeTaggedBase) : TimeTaggedBase := set_latencies t (_latency t) 0.
Definition add_cache_latency (t : TimeTaggedBase) (l : Z) : TimeTaggedBase :=
  set_latencies t (_latency t) (wrap 32 (_cache_latency t + l)).
Definition accum_cache_latency (t : TimeTaggedBase) : TimeTaggedBase :=
  let t := set_times t (wrap 64 (_td_counter t + _cache_latency t)) (_accum_time t) (_final_time t) in
  let t := set_times t (_td_counter t) (wrap 64 (_accum_time t + _cache_latency t)) (_final_time t) in
  set_latencies t (_latency t) 0.
Definition start_instr (t : TimeTaggedBase) (latency : Z) : TimeTaggedBase :=
  let t := set_latencies t latency (_cache_latency t) in
  let t := set_times t (_td_counter t) (_td_counter t) (_final_time t) in
  set_latencies t (_latency t) 0.
Definition accumulate_time (t : TimeTaggedBase) (x : Z) : TimeTaggedBase :=
  set_times t (_td_counter t) (Z.max x (_accum_time t)) (_final_time t).
Definition update_completion_time (t : TimeTaggedBase) : TimeTaggedBase :=
  set_times t (_td_counter t) (_accum_time t)
    (Z.max (wrap 64 (current_time t + _cache_latency t)) (_final_time t)).
Definition advance_current_time (t : TimeTaggedBase) (x : Z) : TimeTaggedBase :=
  set_times t (Z.max (_td_counter t) (Z.max (_accum_time t) x)) (_accum_time t) (_final_time t).

(** ** The tags of registers *)

Record TagNode : Type := { _tag : Z; _newtag : Z; _update : Z }.

Definition reset_tag : TagNode := {| _tag := 0; _newtag := 0; _update := 0 |}.
Definition instr_id (t : TimeTaggedBase) : Z := wrap 64 (_instr_count t - 1).
Definition add_source (n : TagNode) (t : TimeTaggedBase) : TagNode * TimeTaggedBase :=
  let n := if _update n <? instr_id t
           then {| _tag := _newtag n; _newtag := _newtag n; _update := instr_id t |}
           else n in
  (n, accumulate_time t (_tag n)).
Definition add_target (n : TagNode) (t : TimeTaggedBase) : TagNode :=
  {| _tag := _tag n; _newtag := wrap 64 (current_time t + _latency t + _cache_latency t);
     _update := instr_id t |}.
Definition set_cache_latency (n : TagNode) (t : TimeTaggedBase) : TagNode * TimeTaggedBase :=
  let n := {| _tag := wrap 64 (Z.max (current_time t) (_tag n) + _cache_latency t);
              _newtag := _newtag n; _update := _update n |} in
  (n, accumulate_time t (_tag n)).

(** A register with its tag.  A reference is read or written by the caller. *)
Record Tag (T : Type) : Type := MkTag { node : TagNode; _data : T }.
Arguments MkTag {T} node _data.
Arguments node {T} t.
Arguments _data {T} t.

Definition get_value {T} (x : Tag T) : T := _data x.
Definition set_value {T} (x : Tag T) (v : T) : Tag T := MkTag reset_tag v.
Definition get_data {T} (x : Tag T) (t : TimeTaggedBase) : T * Tag T * TimeTaggedBase :=
  let '(n, t) := add_source (node x) t in (_data x, MkTag n (_data x), t).
(** [set_data(t) = v]. *)
Definition set_data {T} (x : Tag T) (t : TimeTaggedBase) (v : T) : Tag T * TimeTaggedBase :=
  let '(n, t) := add_source (node x) t in (MkTag (add_target n t) v, t).

(** ** Register files *)

Section RegFile.
Context {T : Type} (N : nat) (M : Z).

Definition CheckBounds (x : Z) : Z := Z.land x (M - 1).
Definition rf_get (regs : list (Tag T)) (x : Z) : outcome (Tag T) :=
  match regs !! Z.to_nat (CheckBounds x) with Some r => Ret r | None => Undefined end.
Definition rf_set (regs : list (Tag T)) (x : Z) (r : Tag T) : outcome (list (Tag T)) :=
  if bool_decide (CheckBounds x < Z.of_nat (length regs))
  then Ret (<[Z.to_nat (CheckBounds x) := r]> regs) else Undefined.
Fixpoint rf_reset (i : nat) (regs : list (Tag T)) (rv : T) : list (Tag T) :=
  match i with
  | O => regs
  | S k => rf_reset k (alter (λ r, set_value r rv) (N - i)%nat regs) rv
  end.
Fixpoint rf_reset_tags (i : nat) (regs : list (Tag T)) : list (Tag T) :=
  match i with
  | O => regs
  | S k => rf_reset_tags k (alter (λ r, MkTag reset_tag (_data r)) (N - i)%nat regs)
  end.
End RegFile.

(** ** Resource counters *)

(** [ResCounter<N,Delay>]; [ResCounter<1,Delay>] has the one counter [_avail]. *)
Record ResCounter : Type := { _avail : list Z; _cur : nat }.

Section ResCounter.
Context (Delay : Z).

Fixpoint next_available (l : list Z) (i x : nat) (s : Z) : nat :=
  match l with
  | [] => x
  | a :: l => if a <? s then next_available l (S i) i a else next_available l (S i) x s
  end.
Definition update_time (r : ResCounter) (t : TimeTaggedBase) : outcome (ResCounter * TimeTaggedBase) :=
  match _avail r with
  | [] => Undefined
  | s :: l =>
      let x := next_available l 1 0 s in
      match _avail r !! x with
      | None => Undefined
      | Some a => Ret ({| _avail := _avail r; _cur := x |}, accumulate_time t a)
      end
  end.
Definition update_avail (r : ResCounter) (t : TimeTaggedBase) : ResCounter :=
  {| _avail := <[_cur r := wrap 64 (current_time t + Delay)]> (_avail r); _cur := _cur r |}.
Definition res_reset (N : nat) : ResCounter := {| _avail := replicate N 0; _cur := 0%nat |}.

Definition update_time1 (avail : Z) (t : TimeTaggedBase) : TimeTaggedBase := accumulate_time t avail.
Definition update_avail1 (t : TimeTaggedBase) : Z := wrap 64 (current_time t + Delay).
End ResCounter.

(** ** The time-tag functions of a core *)

(** A group of instructions: its latency, its pipeline stages, each with its tag, and the
    function of the description that allows an issue. *)
Record Group : Type := {
  group_latency : Z;
  group_stages : list (string * string);
  group_allow : option (Z → bool)
}.

(** The configuration of the core: the issue width, and whether there are caches. *)
Record Config : Type := { issue_width : Z; has_caches : bool }.
Definition multi_issue (g : Config) : bool := 1 <? issue_width g.

(** The members that the generator adds to the core. *)
Record Core : Type := {
  base : TimeTaggedBase;
  stages : gmap string Z;
  _compl_time : Z;
  _issue_count : Z;
  _max_latency : Z;
  _prior_issue_time : Z
}.
Definition new_core (accum : Z) : Core :=
  {| base := new_base accum; stages := ∅; _compl_time := 0; _issue_count := 0; _max_latency := 0;
     _prior_issue_time := 0 |}.
Definition stage (m : gmap string Z) (n : string) : Z := default 0 (m !! n).

(** The assignments to the stages, in order.  [memlat] tells whether the execution
    stage was passed. *)
Fixpoint stage_assigns (l : list (string * string)) (count : Z) (memlat : bool) (issue_time total compl : Z)
    (m : gmap string Z) : gmap string Z :=
  match l with
  | [] => m
  | (n, tag) :: l =>
      let next := match l with [] => compl | (n', _) :: _ => stage m n' end in
      let v := Z.max (wrap 64 (issue_time + count)) next in
      let v := if memlat then wrap 64 (v + total) else v in
      stage_assigns l (count + 1) (memlat || bool_decide (tag = "exec"%string)) issue_time total compl (<[n := v]> m)
  end.
Definition has_exec (l : list (string * string)) : bool :=
  bool_decide (Exists (λ s : string * string, s.2 = "exec"%string) l).
(** The stages after the last one with the tag [exec]; none without such a stage. *)
Fixpoint after_exec (l : list (string * string)) : list (string * string) :=
  match l with
  | [] => []
  | (n, tag) :: l =>
      if has_exec l then after_exec l else if bool_decide (tag = "exec"%string) then l else []
  end.
Fixpoint stage_delays (l : list (string * string)) (d : Z) (m : gmap string Z) : gmap string Z :=
  match l with
  | [] => m
  | (n, _) :: l => stage_delays l d (<[n := wrap 64 (stage m n + d)]> m)
  end.

Definition time_tag_start (g : Group) (c : Core) : Core :=
  {| base := start_instr (base c) (group_latency g); stages := stages c; _compl_time := _compl_time c;
     _issue_count := _issue_count c; _max_latency := _max_latency c; _prior_issue_time := _prior_issue_time c |}.

Section Finish.
Context (cfg : Config) (g : Group).

Definition front_stage (c : Core) : Z :=
  match group_stages g with [] => 0 | (n, _) :: _ => stage (stages c) n end.
Definition finish_caches (t : TimeTaggedBase) : TimeTaggedBase :=
  if has_caches cfg then clear_cache_latency t else t.

Definition time_tag_finish_single (c : Core) : Core :=
  let t := finish_caches (advance_current_time (base c) (wrap 64 (front_stage c + 1))) in
  let issue_time := Z.max (_td_counter t) (current_time t) in
  let total := wrap 32 (_cache_latency t + _latency t - 1) in
  let m := stage_assigns (group_stages g) 0 false issue_time total (_compl_time c) (stages c) in
  let v := Z.max (wrap 64 (_compl_time c + 1)) (wrap 64 (issue_time + Z.of_nat (length (group_stages g)))) in
  let v := if has_exec (group_stages g) then wrap 64 (v + total) else v in
  {| base := finish_caches (update_completion_time t); stages := m; _compl_time := v;
     _issue_count := _issue_count c; _max_latency := _max_latency c; _prior_issue_time := _prior_issue_time c |}.

Definition new_issue (c : Core) : bool :=
  (_issue_count c =? 0) || negb (current_time (base c) =? _prior_issue_time c) ||
  match group_allow g with None => false | Some f => negb (f (_issue_count c)) end.
Definition time_tag_finish_multi (c : Core) : Core :=
  let t := if new_issue c then advance_current_time (base c) (wrap 64 (front_stage c + 1)) else base c in
  let count := if new_issue c then 0 else _issue_count c in
  let issue_time := Z.max (_td_counter t) (current_time t) in
  let total := wrap 32 (_cache_latency t + _latency t - 1) in
  let '(m, max_latency) :=
    if count =? 0
    then (stage_assigns (group_stages g) 0 false issue_time total (_compl_time c) (stages c), total)
    else if _max_latency c <? total
         then (stage_delays (after_exec (group_stages g)) (wrap 32 (total - _max_latency c)) (stages c), total)
         else (stages c, _max_latency c) in
  let compl := match last (group_stages g) with None => 0 | Some s => wrap 64 (stage m s.1 + 1) end in
  let count := wrap 32 (count + 1) in
  {| base := finish_caches (update_completion_time t); stages := m; _compl_time := compl;
     _issue_count := if issue_width cfg <=? count then 0 else count;
     _max_latency := max_latency; _prior_issue_time := wrap 32 issue_time |}.

Definition time_tag_finish (c : Core) : Core :=
  if multi_issue cfg then time_tag_finish_multi c else time_tag_finish_single c.
End Finish.

(** ** Instructions

    What the generated code of an instruction calls: the fetch code counts it and adds
    the latency of the instruction cache, then come [time_tag_start], the accesses of its
    action, and [time_tag_finish]. *)

Section Machine.
Context {T : Type}.

Inductive access : Type :=
| Read (r : nat)
| Write (r : nat) (v : T)
| Miss (latency : Z).

Record Instr : Type := { i_group : Group; i_accesses : list access }.
Record Machine : Type := { core : Core; regs : nat → Tag T }.

Definition set_base (c : Core) (t : TimeTaggedBase) : Core :=
  {| base := t; stages := stages c; _compl_time := _compl_time c; _issue_count := _issue_count c;
     _max_latency := _max_latency c; _prior_issue_time := _prior_issue_time c |}.
Definition count_instr (t : TimeTaggedBase) : TimeTaggedBase :=
  {| _instr_count := wrap 64 (_instr_count t + 1); _td_counter := _td_counter t;
     _td_threshold := _td_threshold t; _td_increment := _td_increment t; _accum_time := _accum_time t;
     _final_time := _final_time t; _latency := _latency t; _cache_latency := _cache_latency t |}.
Definition fetch (cfg : Config) (t : TimeTaggedBase) : TimeTaggedBase :=
  let t := count_instr t in
  if has_caches cfg then accum_cache_latency t else t.
Definition run_access (s : (nat → Tag T) * TimeTaggedBase) (a : access) : (nat → Tag T) * TimeTaggedBase :=
  let '(regs, t) := s in
  match a with
  | Read r => let '(_, x, t) := get_data (regs r) t in (<[r := x]> regs, t)
  | Write r v => let '(x, t) := set_data (regs r) t v in (<[r := x]> regs, t)
  | Miss l => (regs, add_cache_latency t l)
  end.
Definition run_instr (cfg : Config) (i : Instr) (s : Machine) : Machine :=
  let c := set_base (core s) (fetch cfg (base (core s))) in
  let c := time_tag_start (i_group i) c in
  let '(regs, t) := foldl run_access (regs s, base c) (i_accesses i) in
  {| core := time_tag_finish cfg (i_group i) (set_base c t); regs := regs |}.
Definition run (cfg : Config) (prog : list Instr) (s : Machine) : Machine :=
  foldl (λ s i, run_instr cfg i s) s prog.
End Machine.
Arguments access T : clear implicits.
Arguments Instr T : clear implicits.
Arguments Machine T : clear implicits.
