(* ===== verification/ResCounterCorrect.v ===== *)
(** * Resources are never oversubscribed

    Resource counters, register files, and where the generated time-tag functions do not
    keep to what they are for. *)
From stdpp Require Import prelude functions gmap list strings.
From Stdlib Require Import ZArith Lia.
From S2P Require Import Prelude.
From S2P Require Import TimeTags.
Open Scope Z_scope.

(** ** Resource counters *)

Section Resources.
Context (N : nat) (Delay : Z).

(** An instruction asks for a unit ([update_time]), waits for other things until [ready],
    and occupies the unit from then on ([update_avail]). *)
Definition use (r : ResCounter) (t : TimeTaggedBase) (ready : Z) : outcome (ResCounter * Z) :=
  let! u := update_time r t in
  let t := accumulate_time (snd u) ready in
  Ret (update_avail Delay (fst u) t, current_time t).
(** The times from which the units are occupied, for instructions that start with the
    clock [t] and are ready at [ready]. *)
Fixpoint uses (r : ResCounter) (l : list (TimeTaggedBase * Z)) : outcome (list Z) :=
  match l with
  | [] => Ret []
  | (t, ready) :: l =>
      let! u := use r t ready in
      let! cs := uses (fst u) l in
      Ret (snd u :: cs)
  end.

(** The unit that is found is the one that is free first. *)
Lemma next_available_spec l : ∀ pre x s, (pre ++ l) !! x = Some s → Forall (Z.le s) pre →
  ∃ a, (pre ++ l) !! next_available l (length pre) x s = Some a ∧ Forall (Z.le a) (pre ++ l).
Proof.
  induction l as [|y l IH]; intros pre x s Hx Hp; cbn [next_available].
  { exists s. by rewrite app_nil_r in *. }
  rewrite cons_middle, (assoc_L (++)) in *.
  assert (length (pre ++ [y]) = S (length pre)) as E by (rewrite length_app; cbn; lia). rewrite <- E. destruct (Z.ltb_spec y s) as [Hys|Hys].
  - apply IH.
    + rewrite <- (assoc_L (++)). by apply (list_lookup_middle pre l y).
    + apply Forall_app_2; [|by apply Forall_singleton]. eapply Forall_impl; [exact Hp|]. cbn. lia.
  - apply IH; [done|]. apply Forall_app_2; [done|]. by apply Forall_singleton.
Qed.

Lemma update_time_spec r t : _avail r ≠ [] →
  ∃ x a, update_time r t = Ret ({| _avail := _avail r; _cur := x |}, accumulate_time t a) ∧
    _avail r !! x = Some a ∧ Forall (Z.le a) (_avail r).
Proof.
  destruct r as [avail cur]. cbn [_avail]. destruct avail as [|s l]; [done|]. intros _.
  destruct (next_available_spec l [s] 0 s) as (a & Ha & Hmin); [done|by apply Forall_singleton|].
  unfold update_time. cbn [_avail]. cbv zeta. change ([s] ++ l) with (s :: l) in *. cbn [length] in Ha. rewrite Ha. eauto.
Qed.

(** The units that are occupied at the time [now], of a history of uses. *)
Definition busy (now c : Z) : Prop := c ≤ now < c + Delay.
#[global] Instance busy_dec now c : Decision (busy now c).
Proof. unfold busy. apply _. Defined.
Definition active (now : Z) (h : list (nat * Z)) : list (nat * Z) := filter (λ u, busy now u.2) h.

Record history (h : list (nat * Z)) (avail : list Z) (B : Z) : Prop := {
  h_len : length avail = N;
  h_free u c : (u, c) ∈ h → ∃ a, avail !! u = Some a ∧ c + Delay ≤ a;
  h_apart now : NoDup (active now h).*1;
  h_bound : Forall (λ a, 0 ≤ a ≤ B) avail
}.

Lemma history_count h avail B now : history h avail B → (length (active now h) ≤ N)%nat.
Proof.
  intros [Hl Hf Hd _]. rewrite <- (length_fmap fst), <- (length_seq N 0). apply submseteq_length, NoDup_submseteq; [done|].
  intros u ([u' c] & -> & [_ Hin]%list_elem_of_filter)%list_elem_of_fmap. destruct (Hf u' c Hin) as (a & Ha & _).
  apply lookup_lt_Some in Ha. apply elem_of_seq. cbn. lia.
Qed.

Lemma history_use h avail B u a c : history h avail B → 0 ≤ Delay → avail !! u = Some a → a ≤ c → 0 ≤ c ≤ B →
  history ((u, c) :: h) (<[u := c + Delay]> avail) (B + Delay).
Proof.
  intros [Hl Hf Hd Hb] HD Ha Hac Hc. pose proof (lookup_lt_Some _ _ _ Ha) as Hu. split.
  - by rewrite length_insert.
  - intros u' c' [[= -> ->]|Hin]%elem_of_cons.
    + exists (c + Delay). split; [by apply list_lookup_insert_eq|lia].
    + destruct (Hf u' c' Hin) as (a' & Ha' & Hle). destruct (decide (u' = u)) as [->|Hne].
      * exists (c + Delay). split; [by apply list_lookup_insert_eq|]. assert (a' = a) by congruence. lia.
      * exists a'. by rewrite list_lookup_insert_ne.
  - intros now. unfold active. rewrite filter_cons. case_decide as Hb1; [|apply Hd]. rewrite fmap_cons. cbn [fst snd] in *.
    constructor; [|apply Hd]. intros ([u' c'] & E & [Hb2 Hin]%list_elem_of_filter)%list_elem_of_fmap.
    cbn in E. subst u'. destruct (Hf u c' Hin) as (a' & Ha' & Hle). unfold busy in *. cbn in *.
    assert (a' = a) by congruence. lia.
  - apply Forall_insert; [|lia]. eapply Forall_impl; [exact Hb|]. cbn. lia.
Qed.

Lemma uses_spec l h r B : (0 < N)%nat → history h (_avail r) B → 0 ≤ Delay →
  Forall (λ u, 0 ≤ _accum_time u.1 ≤ B ∧ u.2 ≤ B) l → B + Delay * Z.of_nat (length l) < 2 ^ 64 →
  ∃ cs, uses r l = Ret cs ∧
    ∀ now, (length (filter (busy now) cs) + length (active now h) ≤ N)%nat.
Proof.
  intros HN. revert h r B. induction l as [|[t ready] l IH]; intros h r B Hh HD Hl HB.
  { exists []. split; [done|]. intros now. by eapply history_count. }
  apply Forall_cons in Hl as [[Ht Hready] Hl]. cbn [fst snd length] in *.
  destruct (update_time_spec r t) as (x & a & E & Ha & Hmin).
  { intros Hnil. pose proof (h_len _ _ _ Hh) as Hlen. rewrite Hnil in Hlen. cbn in Hlen. lia. }
  rewrite Nat2Z.inj_succ, Z.mul_succ_r in HB. assert (0 ≤ Delay * Z.of_nat (length l)) as Hrest by nia.
  set (c := Z.max ready (Z.max a (_accum_time t))).
  pose proof (proj1 (Forall_lookup _ _) (h_bound _ _ _ Hh) x a Ha) as Hab. cbn in Hab.
  assert (0 ≤ c ≤ B ∧ a ≤ c) as [Hc Hac] by (unfold c; lia).
  assert (wrap 64 (c + Delay) = c + Delay) as Ew by (apply wrap_small; unfold uint; lia).
  cbn [uses]. unfold use. rewrite E. cbn [obind fst snd].
  destruct (IH ((x, c) :: h) (update_avail Delay {| _avail := _avail r; _cur := x |} (accumulate_time (accumulate_time t a) ready))
              (B + Delay)) as (cs & -> & Hcs).
  - unfold update_avail. cbn [_avail _cur]. change (current_time _) with c. rewrite Ew.
    apply (history_use _ _ _ _ a); [done|done|done|lia|lia].
  - done.
  - eapply Forall_impl; [exact Hl|]. cbn. lia.
  - lia.
  - exists (c :: cs). split; [done|]. intros now. specialize (Hcs now). unfold active in *.
    rewrite filter_cons in Hcs. rewrite filter_cons. cbn [snd] in Hcs.
    destruct (decide (busy now c)); cbn [length] in *; lia.
Qed.
End Resources.

(** C40: However many instructions use a resource of [N] units, whatever times they start at
    and are ready at, no more than [N] of them occupy a unit at any time.  The bounds keep
    the 64-bit times from wrapping: with start and ready times up to [B] and a delay of
    [Delay], [B] and the delays of all uses add up to less than 2^64. *)
Theorem resource_capacity (N : nat) (Delay B : Z) (l : list (TimeTaggedBase * Z)) :
  (0 < N)%nat → 0 ≤ Delay → 0 ≤ B → Forall (λ u, 0 ≤ _accum_time u.1 ≤ B ∧ u.2 ≤ B) l →
  B + Delay * Z.of_nat (length l) < 2 ^ 64 →
  ∃ cs, uses Delay (res_reset N) l = Ret cs ∧
    ∀ now, (length (filter (busy Delay now) cs) ≤ N)%nat.
Proof.
  intros HN HD HB Hl Hn. destruct (uses_spec N Delay l [] (res_reset N) B HN) as (cs & E & Hcs); [|done|done|done|].
  - split; cbn.
    + by rewrite length_replicate.
    + set_solver.
    + constructor.
    + apply Forall_replicate. lia.
  - exists cs. split; [done|]. intros now. specialize (Hcs now). cbn in Hcs. lia.
Qed.

Lemma resource_capacity_witness :
  ∃ cs, uses 5 (res_reset 2) [(new_base 0, 1); (new_base 0, 0); (new_base 2, 2); (new_base 2, 3)] = Ret cs ∧
    ∀ now, (length (filter (busy 5 now) cs) ≤ 2)%nat.
Proof.
  apply (resource_capacity 2 5 10); [lia|lia|lia| |done].
  repeat (constructor; [cbn; lia|]). constructor.
Defined.

(** The version for one unit is the general one. *)
Lemma res1_is_res Delay avail t :
  update_time {| _avail := [avail]; _cur := 0 |} t = Ret ({| _avail := [avail]; _cur := 0 |}, update_time1 avail t) ∧
  update_avail Delay {| _avail := [avail]; _cur := 0 |} t = {| _avail := [update_avail1 Delay t]; _cur := 0 |}.
Proof. done. Qed.

(** ** Register files *)

(** An index below the size finds its register; between the size and the next power of
    two the mask lets an index pass that the array does not have. *)
Lemma regfile_bounds {T} (w : Z) (regs : list (Tag T)) (x : Z) : 0 ≤ w → Z.of_nat (length regs) ≤ 2 ^ w → 0 ≤ x →
  (x < Z.of_nat (length regs) → ∃ r, regs !! Z.to_nat x = Some r ∧ rf_get (2 ^ w) regs x = Ret r) ∧
  (Z.of_nat (length regs) ≤ x < 2 ^ w → rf_get (2 ^ w) regs x = Undefined).
Proof.
  intros Hw Hl Hx. unfold rf_get, CheckBounds. rewrite Z.sub_1_r, <- Z.ones_equiv, Z.land_ones by done.
  split; intros Hlt; rewrite Z.mod_small by lia.
  - destruct (lookup_lt_is_Some_2 regs (Z.to_nat x)) as [r Hr]; [lia|]. exists r. by rewrite Hr.
  - by rewrite lookup_ge_None_2 by lia.
Qed.

(** ** The generated functions *)

(** A latency of zero gives 4294967295 cycles of delay. *)
Lemma zero_latency_underflow t : _latency t = 0 → _cache_latency t = 0 →
  wrap 32 (_cache_latency t + _latency t - 1) = 4294967295.
Proof. by intros -> ->. Qed.

(** With caches, the latency of a memory access does not delay the stages of a
    single-issue core: it is cleared before the delay is computed. *)
Lemma single_issue_cache_latency cfg g c cl : has_caches cfg = true →
  let slow := set_base c (set_latencies (base c) (_latency (base c)) cl) in
  stages (time_tag_finish_single cfg g slow) = stages (time_tag_finish_single cfg g c) ∧
  _compl_time (time_tag_finish_single cfg g slow) = _compl_time (time_tag_finish_single cfg g c).
Proof. intros Hc. unfold time_tag_finish_single, finish_caches. rewrite Hc. done. Qed.

(** [_prior_issue_time] has 32 bits: from the time [2^32] on, no instruction is issued
    together with the one before it. *)
Lemma multi_issue_lost cfg g g' c c' : 2 ^ 32 ≤ current_time (base c') →
  _prior_issue_time c' = _prior_issue_time (time_tag_finish_multi cfg g c) → new_issue g' c' = true.
Proof.
  intros Ht Hp. unfold new_issue. destruct (Z.eqb_spec (current_time (base c')) (_prior_issue_time c')) as [E|]; [exfalso|].
  - revert Ht. rewrite E, Hp. unfold time_tag_finish_multi. destruct (if (if new_issue g c then 0 else _) =? 0 then _ else _).
    cbn [_prior_issue_time]. match goal with |- context [wrap 32 ?x] => pose proof (uint_wrap 32 x ltac:(lia)) as Hu end.
    unfold uint in Hu. lia.
  - by rewrite orb_true_r.
Qed.
