(* ===== verification/AlignedAccess.v ===== *)
(** * Accesses to aligned memory

    The routines of [src/iss/AlignedAccess.h], which a multi-threaded model uses in place
    of those of [src/iss/Memory.h] so that each access is one instruction of the host.
    The first half is shown to agree with the byte routines of [MemBytes]; the second
    half, for data-invariant storage, subtracts its mask from a pointer to words instead
    of from a pointer to bytes, and does not. *)
From stdpp Require Import prelude list.
From Stdlib Require Import ZArith Lia.
From S2P Require Import Prelude.
From S2P Require Import MemBytes.
Local Open Scope Z_scope.

(** ** The routines *)

Definition aligned_byte_read64 (p : list Z) (offset : Z) : outcome Z :=
  let! x := host_load 8 p offset in Ret (be64 x).
Definition aligned_byte_write64 (p : list Z) (offset orig_value : Z) : outcome (list Z) :=
  host_store 8 p offset (be64 orig_value).
Definition aligned_byte_read32 (p : list Z) (offset : Z) : outcome Z :=
  let! x := host_load 4 p offset in Ret (be32 x).
Definition aligned_byte_write32 (p : list Z) (offset orig_value : Z) : outcome (list Z) :=
  host_store 4 p offset (be32 orig_value).
Definition aligned_byte_read16 (p : list Z) (offset : Z) : outcome Z :=
  let! x := host_load 2 p offset in Ret (be16 x).
Definition aligned_byte_write16 (p : list Z) (offset orig_value : Z) : outcome (list Z) :=
  host_store 2 p offset (be16 orig_value).
Definition aligned_byte_read8 (p : list Z) (offset : Z) : outcome Z :=
  let! l := load p offset 1 in Ret (l !!! 0%nat).
Definition aligned_byte_write8 (p : list Z) (offset orig_value : Z) : outcome (list Z) :=
  memcpy p offset [orig_value].

(** [(T* )(p + (offset ^ DWMask)) - mask], for a [T] of [size] bytes. *)
Definition tlm2_ptr (size : nat) (offset mask : Z) : Z := Z.lxor offset DWMask - Z.of_nat size * mask.
Definition tlm2_aligned_byte_read64 (p : list Z) (offset : Z) : outcome Z :=
  host_load 8 p (tlm2_ptr 8 offset DWMask).
Definition tlm2_aligned_byte_write64 (p : list Z) (offset orig_value : Z) : outcome (list Z) :=
  host_store 8 p (tlm2_ptr 8 offset DWMask) orig_value.
Definition tlm2_aligned_byte_read32 (p : list Z) (offset : Z) : outcome Z :=
  host_load 4 p (tlm2_ptr 4 offset WordMask).
Definition tlm2_aligned_byte_write32 (p : list Z) (offset orig_value : Z) : outcome (list Z) :=
  host_store 4 p (tlm2_ptr 4 offset WordMask) orig_value.
Definition tlm2_aligned_byte_read16 (p : list Z) (offset : Z) : outcome Z :=
  host_load 2 p (tlm2_ptr 2 offset HWMask).
Definition tlm2_aligned_byte_write16 (p : list Z) (offset orig_value : Z) : outcome (list Z) :=
  host_store 2 p (tlm2_ptr 2 offset HWMask) orig_value.
Definition tlm2_aligned_byte_read8 (p : list Z) (offset : Z) : outcome Z :=
  let! l := load p (Z.lxor offset DWMask) 1 in Ret (l !!! 0%nat).
Definition tlm2_aligned_byte_write8 (p : list Z) (offset orig_value : Z) : outcome (list Z) :=
  memcpy p (Z.lxor offset DWMask) [orig_value].

(** ** What they do *)

(** On address-invariant storage an aligned access is the access of [src/iss/Memory.h] to
    all bytes of the value. *)
Theorem aligned_is_plain (p : list Z) (offset v : Z) :
  aligned_byte_read64 p offset = AddrInvariant.byte_read64 p offset ∧
  aligned_byte_read32 p offset = AddrInvariant.byte_read32 p offset ∧
  aligned_byte_read16 p offset = AddrInvariant.byte_read16 p offset ∧
  aligned_byte_read8 p offset = AddrInvariant.byte_read8 p offset ∧
  aligned_byte_write64 p offset v = AddrInvariant.byte_write64 p offset v 8 ∧
  aligned_byte_write32 p offset v = AddrInvariant.byte_write32 p offset v 4 ∧
  aligned_byte_write16 p offset v = AddrInvariant.byte_write16 p offset v 2 ∧
  aligned_byte_write8 p offset v = AddrInvariant.byte_write8 p offset v.
Proof. done. Qed.

Lemma lxor_aligned k : Z.lxor (8 * k) DWMask = 8 * k + 7.
Proof.
  unfold DWMask. apply Z.bits_inj'. intros i Hi.
  replace (8 * k + 7) with (Z.lor 7 (k * 2 ^ 3)) by (rewrite lor_add; unfold uint; lia).
  replace (8 * k) with (k * 2 ^ 3) by lia. rewrite Z.lxor_spec, Z.lor_spec.
  change 7 with (Z.ones 3). rewrite Z.testbit_ones_nonneg by lia. destruct (Z.ltb_spec i 3).
  - rewrite Z.mul_pow2_bits_low by lia. done.
  - by rewrite xorb_false_r.
Qed.

(** On data-invariant storage the accesses of more than one byte are below the place of
    the value: by 49, 9 and 1 bytes.  At the start of a page, where an offset is a
    multiple of 8 below 49, a 64-bit access leaves the page. *)
Theorem tlm2_displaced (p : list Z) (offset v k : Z) :
  tlm2_ptr 8 offset DWMask = DataInvariant.swizzle offset DWMask - 49 ∧
  tlm2_ptr 4 offset WordMask = DataInvariant.swizzle offset WordMask - 9 ∧
  tlm2_ptr 2 offset HWMask = DataInvariant.swizzle offset HWMask - 1 ∧
  (k ≤ 6 → tlm2_aligned_byte_read64 p (8 * k) = Undefined ∧ tlm2_aligned_byte_write64 p (8 * k) v = Undefined).
Proof.
  unfold tlm2_ptr, DataInvariant.swizzle, DWMask, WordMask, HWMask. split; [lia|]. split; [lia|]. split; [lia|].
  intros Hk. unfold tlm2_aligned_byte_read64, tlm2_aligned_byte_write64, tlm2_ptr. rewrite lxor_aligned.
  unfold host_load, host_store, load, memcpy, DWMask.
  destruct (Z.leb_spec 0 (8 * k + 7 - Z.of_nat 8 * 7)); [lia|]. done.
Qed.

(** What the byte routine stored, the aligned routine does not find. *)
Example tlm2_loses_value :
  (let! p := DataInvariant.byte_write64 (replicate 128 0) 64 0x1122334455667788 8 in
   tlm2_aligned_byte_read64 p 64) = Ret 0.
Proof. by vm_compute. Qed.
