(* ===== verification/DepTracking.v ===== *)
(** * Dependency tracking

    The class [DepTracking] of [src/iss/ModelSupport.h]: patterns for the sources and the
    targets of data dependencies, which are matched against the accesses of a simulated
    program.  A pattern may have no index (negative), and skips as many matches as its
    sequence number says. *)
From stdpp Require Import prelude list.
From Stdlib Require Import ZArith Lia.
From S2P Require Import Prelude.
Local Open Scope Z_scope.

Inductive Type_ : Set := dpReg | dpMem.
#[global] Instance type_eq_dec : EqDecision Type_.
Proof. solve_decision. Defined.

Record DepItem : Type := { _type : Type_; _id : Z; _snum : Z }.
Record DtPattern : Type := { item : DepItem; _index : Z; _cur_snum : Z }.

(** An index is given as [unsigned] and kept as [int]. *)
Definition new_pattern (t : Type_) (id index snum : Z) : DtPattern :=
  {| item := {| _type := t; _id := id; _snum := snum |}; _index := sint 32 index; _cur_snum := 0 |}.
Definition match_ (p : DtPattern) (t : Type_) (id index : Z) : DtPattern * bool :=
  if bool_decide (t = _type (item p)) && (id =? _id (item p)) then
    if (0 <=? _index p) && negb (sint 32 index =? _index p) then (p, false)
    else if _cur_snum p <? _snum (item p)
    then ({| item := item p; _index := _index p; _cur_snum := wrap 32 (_cur_snum p + 1) |}, false)
    else (p, true)
  else (p, false).

Record DepTrackingItems : Type := { found : list DepItem; _trgp : DtPattern; _srcs : list DtPattern }.

Definition new_items (t : Type_) (id index snum : Z) : DepTrackingItems :=
  {| found := []; _trgp := new_pattern t id index snum; _srcs := [] |}.
Fixpoint check_src_loop (srcs : list DtPattern) (t : Type_) (id index snum : Z) (l : list DepItem) :
    list DtPattern * list DepItem :=
  match srcs with
  | [] => ([], l)
  | p :: srcs =>
      let '(p, hit) := match_ p t id index in
      let l := if hit then l ++ [{| _type := t; _id := id; _snum := snum |}] else l in
      let '(srcs, l) := check_src_loop srcs t id index snum l in
      (p :: srcs, l)
  end.
Definition items_check_src (x : DepTrackingItems) (t : Type_) (id index snum : Z) : DepTrackingItems :=
  let '(srcs, l) := check_src_loop (_srcs x) t id index snum (found x) in
  {| found := l; _trgp := _trgp x; _srcs := srcs |}.
Definition items_check_trg (x : DepTrackingItems) (t : Type_) (id index : Z) : DepTrackingItems * bool :=
  let '(p, hit) := match_ (_trgp x) t id index in
  ({| found := found x; _trgp := p; _srcs := _srcs x |}, hit).

Record DepTracking : Type := { _items : list DepTrackingItems; _last_hit : list DepItem }.

Definition new_tracking : DepTracking := {| _items := []; _last_hit := [] |}.
Definition clear (d : DepTracking) : DepTracking := {| _items := []; _last_hit := [] |}.
Definition add_trg (d : DepTracking) (t : Type_) (id index snum : Z) : DepTracking :=
  {| _items := _items d ++ [new_items t id index snum]; _last_hit := _last_hit d |}.
(** The sources of the target that was added last. *)
Definition add_src (d : DepTracking) (t : Type_) (id index snum : Z) : outcome DepTracking :=
  match last (_items d) with
  | None => Undefined
  | Some x =>
      let x := {| found := found x; _trgp := _trgp x; _srcs := _srcs x ++ [new_pattern t id index snum] |} in
      Ret {| _items := <[(length (_items d) - 1)%nat := x]> (_items d); _last_hit := _last_hit d |}
  end.
Definition check_src (d : DepTracking) (t : Type_) (id index snum : Z) : DepTracking :=
  {| _items := (λ x, items_check_src x t id index snum) <$> _items d; _last_hit := _last_hit d |}.
(** A hit exchanges [_last_hit] and the sources that the target found. *)
Fixpoint check_trg_loop (l : list DepTrackingItems) (t : Type_) (id index : Z) (last_hit : list DepItem) :
    list DepTrackingItems * list DepItem :=
  match l with
  | [] => ([], last_hit)
  | x :: l =>
      let '(x, hit) := items_check_trg x t id index in
      let '(x, last_hit) :=
        if hit then ({| found := last_hit; _trgp := _trgp x; _srcs := _srcs x |}, found x) else (x, last_hit) in
      let '(l, last_hit) := check_trg_loop l t id index last_hit in
      (x :: l, last_hit)
  end.
Definition check_trg (d : DepTracking) (t : Type_) (id index : Z) : DepTracking :=
  let '(l, hit) := check_trg_loop (_items d) t id index [] in
  {| _items := l; _last_hit := hit |}.

(** ** What is found *)

(** An access to a register or a memory. *)
Record Access : Type := { a_type : Type_; a_id : Z; a_index : Z; a_snum : Z }.
Definition item_of (a : Access) : DepItem := {| _type := a_type a; _id := a_id a; _snum := a_snum a |}.

(** The access is one of those that the pattern describes. *)
Definition hits (p : DtPattern) (a : Access) : bool :=
  bool_decide (a_type a = _type (item p)) && (a_id a =? _id (item p)) &&
  negb ((0 <=? _index p) && negb (sint 32 (a_index a) =? _index p)).
(** After the accesses [pre], the pattern has skipped as many as it should. *)
Definition fires (p : DtPattern) (pre : list Access) (a : Access) : bool :=
  hits p a && (_snum (item p) <=? Z.of_nat (length (filter (λ b, hits p b = true) pre))).
(** The sources that a list of patterns finds in a sequence of accesses. *)
Fixpoint sources (ps : list DtPattern) (pre accs : list Access) : list DepItem :=
  match accs with
  | [] => []
  | a :: accs =>
      replicate (length (filter (λ p, fires p pre a = true) ps)) (item_of a) ++ sources ps (pre ++ [a]) accs
  end.

(** The pattern [p], as it is after the accesses [pre]. *)
Definition advanced (pre : list Access) (p : DtPattern) : DtPattern :=
  {| item := item p; _index := _index p;
     _cur_snum := Z.min (_snum (item p)) (Z.of_nat (length (filter (λ b, hits p b = true) pre))) |}.

Lemma match_advanced pre p a : uint 32 (_snum (item p)) →
  match_ (advanced pre p) (a_type a) (a_id a) (a_index a) = (advanced (pre ++ [a]) p, fires p pre a).
Proof.
  intros Hs. unfold match_, fires, advanced. rewrite filter_app, length_app. cbn [item _index _cur_snum].
  assert (length (filter (λ b, hits p b = true) [a]) = (if hits p a then 1 else 0)%nat) as ->.
  { rewrite filter_cons. by destruct (hits p a). }
  destruct (hits p a) eqn:Eh; unfold hits in Eh; destruct (bool_decide _ && (_ =? _)); cbn [andb] in *; try done;
    [| |by rewrite Nat.add_0_r]; destruct ((0 <=? _index p) && negb (sint 32 (a_index a) =? _index p)); try done;
    [|by rewrite Nat.add_0_r].
  set (n := length _). unfold uint in Hs.
  destruct (Z.ltb_spec (Z.min (_snum (item p)) (Z.of_nat n)) (_snum (item p))),
    (Z.leb_spec (_snum (item p)) (Z.of_nat n)); try lia.
  - f_equal. f_equal. rewrite wrap_small by (unfold uint; lia). lia.
  - f_equal. f_equal. lia.
Qed.

Lemma check_src_loop_spec ps pre a l : Forall (λ p, uint 32 (_snum (item p))) ps →
  check_src_loop (advanced pre <$> ps) (a_type a) (a_id a) (a_index a) (a_snum a) l =
  (advanced (pre ++ [a]) <$> ps, l ++ replicate (length (filter (λ p, fires p pre a = true) ps)) (item_of a)).
Proof.
  intros Hs. revert l. induction Hs as [|p ps Hp Hs IH]; intros l; [by rewrite app_nil_r|].
  rewrite !fmap_cons. cbn [check_src_loop]. rewrite match_advanced by done. rewrite IH, filter_cons.
  destruct (fires p pre a); [|done]. f_equal. cbn [length replicate]. by rewrite <- app_assoc.
Qed.

Definition check_sources (x : DepTrackingItems) (accs : list Access) : DepTrackingItems :=
  foldl (λ x a, items_check_src x (a_type a) (a_id a) (a_index a) (a_snum a)) x accs.

Lemma check_sources_spec ps pre accs trg l : Forall (λ p, uint 32 (_snum (item p))) ps →
  check_sources {| found := l; _trgp := trg; _srcs := advanced pre <$> ps |} accs =
  {| found := l ++ sources ps pre accs; _trgp := trg; _srcs := advanced (pre ++ accs) <$> ps |}.
Proof.
  intros Hs. revert pre l. induction accs as [|a accs IH]; intros pre l.
  - cbn. by rewrite !app_nil_r.
  - unfold check_sources. cbn [foldl]. unfold items_check_src. cbn [found _trgp _srcs].
    rewrite check_src_loop_spec by done. fold (check_sources). cbn [sources].
    change (foldl _ ?x accs) with (check_sources x accs). rewrite IH. by rewrite <- !app_assoc.
Qed.

(** A pattern that was not matched yet. *)
Definition fresh (p : DtPattern) : Prop := uint 32 (_snum (item p)) ∧ _cur_snum p = 0.

Lemma fresh_advanced ps : Forall fresh ps → advanced [] <$> ps = ps.
Proof.
  induction 1 as [|p ps [Hu Hc] _ IH]; [done|]. rewrite fmap_cons, IH. f_equal. destruct p as [it ix c]. cbn in *.
  unfold advanced. cbn. unfold uint in Hu. by rewrite Z.min_r, Hc by lia.
Qed.

(** A target that no other one shares its accesses with gets exactly the sources that its
    patterns found since it was last hit, in the order of the accesses, and starts again
    from nothing; the other targets keep theirs. *)
Theorem dependency_found (l1 l2 : list DepTrackingItems) (ps : list DtPattern) (trg : DtPattern)
    (accs : list Access) (a : Access) (h : list DepItem) :
  let hit x := (items_check_trg x (a_type a) (a_id a) (a_index a)).2 in
  let after x := (items_check_trg x (a_type a) (a_id a) (a_index a)).1 in
  let x := check_sources {| found := []; _trgp := trg; _srcs := ps |} accs in
  Forall fresh ps → Forall (λ y, hit y = false) l1 → Forall (λ y, hit y = false) l2 → hit x = true →
  check_trg {| _items := l1 ++ x :: l2; _last_hit := h |} (a_type a) (a_id a) (a_index a) =
  {| _items := (after <$> l1) ++ {| found := []; _trgp := _trgp (after x); _srcs := advanced accs <$> ps |} ::
               (after <$> l2);
     _last_hit := sources ps [] accs |}.
Proof.
  intros hit after x Hps H1 H2 Hx.
  assert (∀ l lh, Forall (λ y, hit y = false) l →
            check_trg_loop l (a_type a) (a_id a) (a_index a) lh = (after <$> l, lh)) as Hnone.
  { induction l as [|y l IH]; intros lh Hl; [done|]. apply Forall_cons in Hl as [Hy Hl]. unfold hit, after in *.
    cbn [check_trg_loop]. rewrite fmap_cons. destruct (items_check_trg y _ _ _) as [y' b]. cbn in Hy. subst b.
    by rewrite IH. }
  assert (x = {| found := sources ps [] accs; _trgp := trg; _srcs := advanced accs <$> ps |}) as Ex.
  { unfold x. rewrite <- (fresh_advanced ps Hps) at 1. rewrite check_sources_spec; [done|].
    eapply Forall_impl; [exact Hps|]. by intros p []. }
  assert (check_trg_loop (x :: l2) (a_type a) (a_id a) (a_index a) [] =
          ({| found := []; _trgp := _trgp (after x); _srcs := advanced accs <$> ps |} :: (after <$> l2),
           sources ps [] accs)) as Hx2.
  { cbn [check_trg_loop]. unfold hit, after in *. rewrite Ex in *. unfold items_check_trg in *. cbn [found _trgp _srcs] in *.
    destruct (match_ trg _ _ _) as [p b]. cbn in Hx. subst b. cbn. by rewrite Hnone. }
  unfold check_trg. cbn [_items]. clear Ex. induction H1 as [|y l1 Hy H1 IH].
  - cbn [app fmap list_fmap]. by rewrite Hx2.
  - cbn [app check_trg_loop]. rewrite fmap_cons. unfold hit, after in *. destruct (items_check_trg y _ _ _) as [y' b].
    cbn in Hy. subst b. destruct (check_trg_loop (l1 ++ x :: l2) _ _ _ []) as [l' lh].
    injection IH as E1 E2. cbn. by rewrite E1, E2.
Qed.

(** When two targets are hit, the second one is left with the sources of the first, and
    reports them when it is hit again. *)
Theorem two_targets_mixed (x1 x2 : DepTrackingItems) (h : list DepItem) (a : Access) :
  let check := λ d, check_trg d (a_type a) (a_id a) (a_index a) in
  match_ (_trgp x1) (a_type a) (a_id a) (a_index a) = (_trgp x1, true) →
  match_ (_trgp x2) (a_type a) (a_id a) (a_index a) = (_trgp x2, true) →
  _last_hit (check {| _items := [x1; x2]; _last_hit := h |}) = found x2 ∧
  _last_hit (check (check {| _items := [x1; x2]; _last_hit := h |})) = found x1.
Proof.
  destruct x1 as [f1 t1 s1], x2 as [f2 t2 s2]. intros check H1 H2. cbn [_trgp] in *.
  assert (∀ t f s, match_ t (a_type a) (a_id a) (a_index a) = (t, true) →
    items_check_trg {| found := f; _trgp := t; _srcs := s |} (a_type a) (a_id a) (a_index a) =
      ({| found := f; _trgp := t; _srcs := s |}, true)) as E.
  { intros t f s Ht. unfold items_check_trg. cbn [_trgp]. by rewrite Ht. }
  unfold check, check_trg. split; repeat (cbn -[items_check_trg]; rewrite ?(E t1), ?(E t2) by done); done.
Qed.
