(* ===== verification/InstrBuf.v ===== *)
(** * Instruction buffers

    [copy_to_instr_buf] of [src/iss/ModelSupport.C] and [fill_in_instr_buf] of
    [src/iss/ModelSupport.h]: an instruction that comes from outside, as words or as a
    field, is put into the buffer of words that the decoder reads, right-aligned in
    little-endian and left-aligned in big-endian models. *)
From stdpp Require Import prelude list strings.
From Stdlib Require Import ZArith Lia.
From S2P Require Import Prelude.
From S2P Require Import BitTwiddles.
From S2P Require Import WordArith.
From S2P Require Import WordDivide.
From S2P Require Import IntbvBase.
From S2P Require Import IntbvLaws.
From S2P Require Import Intbv.
From S2P Require Import IntbvSpec.
From S2P Require Import IntbvCorrect.
Local Open Scope Z_scope.

(** [buf[i]], read and written. *)
Definition get_word (buf : list Z) (i : nat) : outcome Z :=
  match buf !! i with Some x => Ret x | None => Undefined end.
Definition put_word (buf : list Z) (i : nat) (x : Z) : outcome (list Z) :=
  if bool_decide (i < length buf)%nat then Ret (<[i := x]> buf) else Undefined.

(** ** Copying words *)

Fixpoint copy_words (swap : bool) (n i : nat) (trg src : list Z) : outcome (list Z) :=
  match n with
  | O => Ret trg
  | S n =>
      let! x := get_word src i in
      let! trg := put_word trg i (if swap then swap_uint32 x else x) in
      copy_words swap n (S i) trg src
  end.
Fixpoint clear_words (n i : nat) (trg : list Z) : outcome (list Z) :=
  match n with
  | O => Ret trg
  | S n => let! trg := put_word trg i 0 in clear_words n (S i) trg
  end.
Definition copy_to_instr_buf (trg src : list Z) (t_n s_n : nat) (byte_swap : bool) : outcome (list Z) :=
  let s := Nat.min t_n s_n in
  let! trg := copy_words byte_swap s 0 trg src in
  clear_words (t_n - s) s trg.

(** ** A field of an instruction *)

Section Fill.
Context (junk : Z).

Fixpoint fill_little {nb} (field : intbv nb) (n i : nat) (buf : list Z) : outcome (list Z) :=
  match n with
  | O => Ret buf
  | S n =>
      let! buf := put_word buf i (uint32 junk (shift_right_assign junk field (wrap 32 (Z.of_nat i * 32)))) in
      fill_little field n (S i) buf
  end.
Fixpoint fill_big {nb} (field : intbv nb) (remainder : Z) (num n i : nat) (buf : list Z) : outcome (list Z) :=
  match n with
  | O => Ret buf
  | S n =>
      let! buf := put_word buf (num - 1 - i)
        (uint32 junk (shift_right_assign junk field (wrap 32 (wrap 32 ((Z.of_nat i - 1) * 32) + remainder)))) in
      fill_big field remainder num n (S i) buf
  end.
Fixpoint spread (n i : nat) (buf : list Z) : outcome (list Z) :=
  match n with
  | O => Ret buf
  | S n => let! x := get_word buf 0 in let! buf := put_word buf i x in spread n (S i) buf
  end.
Definition fill_in_instr_buf {nb} (instr_field : intbv nb) (instr_buf : list Z) (num max_num : nat)
    (is_little_endian : bool) : outcome (list Z) :=
  let remainder := nb mod 32 in
  let remainder := if remainder =? 0 then 32 else remainder in
  let shift := 32 - remainder in
  let patch buf := if bool_decide (num = 1%nat) && bool_decide (num < max_num)%nat
                   then spread (max_num - 1) 1 buf else Ret buf in
  if is_little_endian then
    let! buf := put_word instr_buf 0 (uint32 junk instr_field) in
    let! buf := fill_little instr_field (num - 1) 1 buf in
    patch buf
  else if bool_decide (num = 0%nat) then Undefined (* the index 4294967295 *) else
    let! buf := put_word instr_buf (num - 1) (wrap 32 (uint32 junk instr_field * 2 ^ shift)) in
    let! buf := fill_big instr_field remainder num (num - 1) 1 buf in
    patch buf.
End Fill.

(** ** What is in the buffer *)

Lemma put_word_app l1 y l2 x : put_word (l1 ++ y :: l2) (length l1) x = Ret (l1 ++ x :: l2).
Proof.
  unfold put_word. rewrite bool_decide_true by (rewrite length_app; cbn; lia).
  by rewrite insert_app_r_alt, Nat.sub_diag by lia.
Qed.

Lemma copy_words_spec swap src1 : ∀ src2 pre l1 l2 src0, length l1 = length src1 → length pre = length src0 →
  copy_words swap (length src1) (length pre) (pre ++ l1 ++ l2) (src0 ++ src1 ++ src2) =
  Ret (pre ++ ((λ x, if swap then swap_uint32 x else x) <$> src1) ++ l2).
Proof.
  induction src1 as [|x src1 IH]; intros src2 pre l1 l2 src0 Hl Hp; destruct l1 as [|y l1]; try done.
  cbn [length copy_words]. unfold get_word. rewrite Hp at 1. cbn [app]. rewrite list_lookup_middle by done. cbn [obind].
  rewrite put_word_app. cbn [obind]. rewrite fmap_cons. set (z := if swap then _ else _).
  specialize (IH src2 (pre ++ [z]) l1 l2 (src0 ++ [x])). rewrite !length_app, <- !app_assoc in IH. cbn [length app] in IH.
  rewrite <- (Nat.add_1_r (length pre)). rewrite IH; [done|by injection Hl|lia].
Qed.

Lemma clear_words_spec n : ∀ pre l, (n ≤ length l)%nat →
  clear_words n (length pre) (pre ++ l) = Ret (pre ++ replicate n 0 ++ drop n l).
Proof.
  induction n as [|n IH]; intros pre l Hl; [done|]. destruct l as [|y l]; cbn [length] in Hl; [lia|].
  cbn [clear_words]. rewrite put_word_app. cbn [obind replicate drop].
  specialize (IH (pre ++ [0]) l ltac:(lia)). rewrite length_app, Nat.add_1_r, <- !app_assoc in IH. exact IH.
Qed.

(** The buffer gets the words that are there, swapped or not, then zeros; what is behind
    it stays. *)
Theorem copy_to_instr_buf_words (trg src : list Z) (t_n s_n : nat) (swap : bool) :
  (t_n ≤ length trg)%nat → (s_n ≤ length src)%nat →
  copy_to_instr_buf trg src t_n s_n swap =
  Ret (((λ x, if swap then swap_uint32 x else x) <$> take (Nat.min t_n s_n) src) ++
       replicate (t_n - s_n) 0 ++ drop t_n trg).
Proof.
  intros Ht Hs. unfold copy_to_instr_buf. remember (Nat.min t_n s_n) as s eqn:Es.
  pose proof (copy_words_spec swap (take s src) (drop s src) [] (take s trg) (drop s trg) []) as Hc.
  rewrite !length_take, !Nat.min_l in Hc by lia. cbn [app length] in Hc. rewrite !take_drop in Hc. rewrite Hc by done.
  cbn [obind]. set (l := _ <$> take s src).
  assert (length l = s) as El by (unfold l; rewrite length_fmap, length_take; lia).
  pose proof (clear_words_spec (t_n - s) l (drop s trg)) as Hz. rewrite El, length_drop in Hz. rewrite Hz by lia.
  rewrite drop_drop. replace (s + (t_n - s))%nat with t_n by lia. by replace (t_n - s)%nat with (t_n - s_n)%nat by lia.
Qed.

Section FillCorrect.
Context (junk : Z) {Hj : byte junk} {nb : Z} {Hwf : wf nb}.
Context (field : intbv nb) (x : Z) (Hx : repr field x).

Lemma rdigits_S k n y : rdigits k (S n) y = rdigits k n y ++ [wrap k (y / 2 ^ (k * Z.of_nat n))].
Proof using Type. unfold rdigits. by rewrite seq_S, fmap_app. Qed.

Lemma word_at p : 0 ≤ p → uint32 junk (shift_right_assign junk field p) = wrap 32 (x / 2 ^ p).
Proof using All. intros Hp. apply uint32_spec, shift_right_assign_spec; done. Qed.

Lemma fill_little_spec n i l : (n ≤ length l)%nat → Z.of_nat (i + n) * 32 < 2 ^ 32 →
  fill_little junk field n i (rdigits 32 i x ++ l) = Ret (rdigits 32 (i + n) x ++ drop n l).
Proof using All.
  revert i l. induction n as [|n IH]; intros i l Hl Hi; [by rewrite Nat.add_0_r|].
  destruct l as [|y l]; cbn [length] in Hl; [lia|]. cbn [fill_little].
  rewrite word_at by (apply uint_wrap; lia). rewrite (wrap_small 32 (Z.of_nat i * 32)) by (unfold uint; lia).
  pose proof (put_word_app (rdigits 32 i x) y l (wrap 32 (x / 2 ^ (Z.of_nat i * 32)))) as Hp.
  rewrite length_rdigits in Hp. rewrite Hp. cbn [obind].
  specialize (IH (S i) l ltac:(lia) ltac:(lia)). rewrite rdigits_S, <- app_assoc in IH. cbn [app] in IH.
  rewrite (Z.mul_comm 32 (Z.of_nat i)) in IH. by replace (S i + n)%nat with (i + S n)%nat in IH by lia.
Qed.

(** Left-aligned in whole words. *)
Definition remainder : Z := if nb mod 32 =? 0 then 32 else nb mod 32.
Definition aligned : Z := x * 2 ^ (32 - remainder).

Lemma remainder_range : 0 < remainder ≤ 32.
Proof using Type. unfold remainder. pose proof (Z.mod_pos_bound nb 32). destruct (Z.eqb_spec (nb mod 32) 0); lia. Qed.

Lemma aligned_word i : (0 < i)%nat → aligned / 2 ^ (32 * Z.of_nat i) = x / 2 ^ ((Z.of_nat i - 1) * 32 + remainder).
Proof using Type.
  intros Hi. pose proof remainder_range. unfold aligned.
  replace (32 * Z.of_nat i) with ((32 - remainder) + ((Z.of_nat i - 1) * 32 + remainder)) by lia.
  rewrite Z.pow_add_r, <- Z.div_div by lia. by rewrite Z.div_mul by lia.
Qed.

Lemma fill_big_spec num n i l : length l = n → num = (i + n)%nat → (0 < i)%nat → Z.of_nat num * 32 < 2 ^ 32 → ∀ l2,
  fill_big junk field remainder num n i (l ++ reverse (rdigits 32 i aligned) ++ l2) =
  Ret (reverse (rdigits 32 num aligned) ++ l2).
Proof using All.
  revert i l. induction n as [|n IH]; intros i l Hl Hn Hi Hb l2.
  { destruct l; [|done]. cbn. by rewrite Hn, Nat.add_0_r. }
  destruct l as [|y l _] using rev_ind; [done|]. rewrite length_app, Nat.add_1_r in Hl. injection Hl as Hl.
  pose proof remainder_range. cbn [fill_big]. rewrite (wrap_small 32 ((Z.of_nat i - 1) * 32)) by (unfold uint; lia).
  rewrite wrap_small by (unfold uint; lia). rewrite word_at, <- aligned_word by lia.
  replace (num - 1 - i)%nat with (length l) by lia. rewrite <- app_assoc. cbn [app]. rewrite put_word_app. cbn [obind].
  specialize (IH (S i) l Hl ltac:(lia) ltac:(lia) Hb l2). rewrite rdigits_S, reverse_app in IH. exact IH.
Qed.

Lemma spread_spec n w pre l : (n ≤ length l)%nat → (0 < pre)%nat →
  spread n pre (replicate pre w ++ l) = Ret (replicate (pre + n) w ++ drop n l).
Proof using Type.
  revert pre l. induction n as [|n IH]; intros pre l Hl Hp; [by rewrite Nat.add_0_r|].
  destruct l as [|y l]; cbn [length] in Hl; [lia|]. cbn [spread]. unfold get_word.
  rewrite lookup_app_l by (rewrite length_replicate; lia). rewrite lookup_replicate_2 by lia. cbn [obind].
  pose proof (put_word_app (replicate pre w) y l w) as E. rewrite length_replicate in E. rewrite E. cbn [obind].
  specialize (IH (S pre) l ltac:(lia) ltac:(lia)). rewrite replicate_S_end, <- app_assoc in IH. cbn [app] in IH.
  by rewrite IH, Nat.add_succ_comm.
Qed.

(** The words of the field, first the least significant one (little-endian) or the most
    significant one. *)
Definition field_words (little : bool) (num : nat) : list Z :=
  if little then rdigits 32 num x else reverse (rdigits 32 num aligned).

Lemma field_words_1 little : field_words little 1 = replicate 1 (field_words little 1 !!! 0%nat).
Proof using Type. by destruct little. Qed.

Lemma fill_words buf num (little : bool) : (0 < num ≤ length buf)%nat → Z.of_nat num * 32 < 2 ^ 32 →
  (if little then
     let! buf := put_word buf 0 (uint32 junk field) in fill_little junk field (num - 1) 1 buf
   else
     let! buf := put_word buf (num - 1) (wrap 32 (uint32 junk field * 2 ^ (32 - remainder))) in
     fill_big junk field remainder num (num - 1) 1 buf) =
  Ret (field_words little num ++ drop num buf).
Proof using All.
  intros Hn Hb. erewrite uint32_spec by done. destruct little; cbn [field_words].
  - destruct buf as [|y buf]; cbn [length] in Hn; [lia|].
    pose proof (put_word_app [] y buf (wrap 32 x)) as E. cbn [app length] in E. rewrite E. cbn [obind].
    pose proof (fill_little_spec (num - 1) 1 buf ltac:(lia) ltac:(lia)) as Hf.
    replace (1 + (num - 1))%nat with num in Hf by lia. cbn [rdigits fmap list_fmap seq app] in Hf.
    rewrite Z.mul_0_r, Z.div_1_r in Hf. rewrite Hf. by destruct num; [lia|]; cbn; rewrite Nat.sub_0_r.
  - pose proof remainder_range. rewrite <- (take_drop num buf) at 1.
    destruct (take num buf) as [|y l _] eqn:El using rev_ind.
    { apply (f_equal length) in El. rewrite length_take in El. cbn in El. lia. }
    assert (length l = (num - 1)%nat) as Hl.
    { apply (f_equal length) in El. rewrite length_take, length_app in El. cbn in El. lia. }
    rewrite <- app_assoc. cbn [app]. rewrite <- Hl at 1. rewrite put_word_app. cbn [obind].
    pose proof (fill_big_spec num (num - 1) 1 l Hl ltac:(lia) ltac:(lia) Hb (drop num buf)) as Hf.
    cbn [rdigits fmap list_fmap seq app reverse rev_append] in Hf. rewrite <- Hf. do 3 f_equal.
    rewrite Z.mul_0_r, Z.div_1_r. unfold aligned, wrap. by rewrite Z.mul_mod_idemp_l by lia.
Qed.
End FillCorrect.

(** A field is put into the buffer right-aligned when the model is little-endian, with
    the least significant word first, and left-aligned otherwise, with the most
    significant word first.  A single word is repeated up to the size of the buffer. *)
Theorem fill_in_instr_buf_words (junk : Z) `{byte junk} (nb : Z) `{wf nb} (field : intbv nb) (x : Z)
    (buf : list Z) (num max_num : nat) (little : bool) :
  repr field x → (0 < num ≤ max_num)%nat → (max_num ≤ length buf)%nat → Z.of_nat num * 32 < 2 ^ 32 →
  fill_in_instr_buf junk field buf num max_num little =
  Ret (if bool_decide (num = 1%nat)
       then replicate max_num (field_words (nb := nb) x little 1 !!! 0%nat) ++ drop max_num buf
       else field_words (nb := nb) x little num ++ drop num buf).
Proof.
  intros Hx Hn Hm Hb. pose proof (fill_words junk field x Hx buf num little ltac:(lia) Hb) as Hf.
  assert ((let! b := Ret (field_words (nb := nb) x little num ++ drop num buf) in
           if bool_decide (num = 1%nat) && bool_decide (num < max_num)%nat then spread (max_num - 1) 1 b else Ret b) =
          Ret (if bool_decide (num = 1%nat)
               then replicate max_num (field_words (nb := nb) x little 1 !!! 0%nat) ++ drop max_num buf
               else field_words (nb := nb) x little num ++ drop num buf)) as Hp.
  { cbn [obind]. destruct (bool_decide_reflect (num = 1%nat)) as [->|]; [|done]. cbn [andb].
    pose proof (field_words_1 (nb := nb) x little) as Ew. set (w := field_words x little 1 !!! 0%nat) in *.
    rewrite Ew. destruct (bool_decide_reflect (1 < max_num)%nat).
    - rewrite spread_spec by (rewrite ?length_drop; lia). rewrite drop_drop. by replace (1 + (max_num - 1))%nat with max_num by lia.
    - by replace max_num with 1%nat by lia. }
  rewrite <- Hp, <- Hf. unfold fill_in_instr_buf. destruct little.
  - by destruct (put_word buf 0 _).
  - rewrite bool_decide_false by lia. fold (remainder (nb := nb)). by destruct (put_word buf (num - 1) _).
Qed.

(** The value that the decoder sees: the field, with the unused bits of its last word
    below it in a big-endian model. *)
Lemma fill_value {nb} `{wf nb} x num : uint nb x → nb ≤ 32 * Z.of_nat num →
  beval 32 (reverse (field_words (nb := nb) x true num)) = x ∧
  beval 32 (field_words (nb := nb) x false num) = x * 2 ^ (32 - remainder (nb := nb)).
Proof.
  intros Hx Hn. unfold field_words. split.
  - apply beval_reverse_rdigits; [lia|]. unfold uint in *. pose proof (Z.pow_le_mono_r 2 nb (32 * Z.of_nat num)). lia.
  - rewrite beval_reverse_rdigits; [done|lia|]. unfold aligned, uint in *. pose proof (remainder_range (nb := nb)).
    assert (nb + (32 - remainder (nb := nb)) ≤ 32 * Z.of_nat num) as Hle.
    { unfold remainder in *. pose proof (Z.div_mod nb 32). destruct (Z.eqb_spec (nb mod 32) 0); lia. }
    pose proof (Z.pow_le_mono_r 2 _ _ ltac:(lia) Hle) as Hp. unfold wf in *. rewrite Z.pow_add_r in Hp by lia. nia.
Qed.
