(* ===== verification/ModelParms.v ===== *)
(** * Parameters of caches and TLBs

    The routines of [src/iss/ModelSupport.C] with which the user of a generated model
    changes the geometry of a cache or of a TLB by name.  An error is an exception that
    leaves the model as it was. *)
From stdpp Require Import prelude list strings.
From Stdlib Require Import ZArith Lia.
From S2P Require Import Prelude.
From S2P Require Import BitTwiddles.
Local Open Scope Z_scope.

Record Cache : Type := { linesize : Z; linemask : Z; lineshift : Z; sets : Z; ways : Z }.

Definition set_model_cache_parm (c : Cache) (pfx parm : string) (value : Z) : outcome (bool * Cache) :=
  if bool_decide (parm = pfx +:+ "cache-line-size") then
    if value =? 0 then Throw "Cache line size must be non-zero." else
    if negb (is_power_2 value) then Throw "Cache line size must be a power of 2." else
    if negb (value mod 4 =? 0) then Throw "Cache linesize must be an even number of 32-bit words." else
    Ret (true, {| linesize := value; linemask := wrap 32 (value - 1); lineshift := count_trailing_zeros_u32 value;
                  sets := sets c; ways := ways c |})
  else if bool_decide (parm = pfx +:+ "cache-size") then
    if value =? 0 then Throw "Cache suize must be non-zero." else
    if negb (is_power_2 value) then Throw "Cache size must be a power of 2." else
    let d := wrap 32 (ways c * linesize c) in
    if d =? 0 then Undefined else
    Ret (true, {| linesize := linesize c; linemask := linemask c; lineshift := lineshift c;
                  sets := value / d; ways := ways c |})
  else if bool_decide (parm = pfx +:+ "cache-num-sets") then
    if value =? 0 then Throw "Cache set size must be non-zero." else
    if negb (is_power_2 value) then Throw "Cache set size must be a power of 2." else
    Ret (true, {| linesize := linesize c; linemask := linemask c; lineshift := lineshift c;
                  sets := value; ways := ways c |})
  else if bool_decide (parm = pfx +:+ "cache-num-ways") then
    if value =? 0 then Throw "Cache way size must be non-zero." else
    Ret (true, {| linesize := linesize c; linemask := linemask c; lineshift := lineshift c;
                  sets := sets c; ways := value |})
  else Ret (false, c).

(** The value, when there is such a parameter. *)
Definition get_model_cache_parm (c : Cache) (pfx parm : string) : option Z :=
  if bool_decide (parm = pfx +:+ "cache-line-size") then Some (linesize c)
  else if bool_decide (parm = pfx +:+ "cache-size") then Some (wrap 32 (wrap 32 (sets c * ways c) * linesize c))
  else if bool_decide (parm = pfx +:+ "cache-num-sets") then Some (sets c)
  else if bool_decide (parm = pfx +:+ "cache-num-ways") then Some (ways c)
  else None.

(** A TLB; one that is fully associative has no pointer to sets. *)
Record Tlb : Type := { t_sets : option (Z * Z * Z); t_ways : Z }.

Definition set_model_lookup_parm (t : Tlb) (pfx parm : string) (value : Z) : outcome (bool * Tlb) :=
  if bool_decide (is_Some (t_sets t)) && bool_decide (parm = pfx +:+ "tlb-num-sets") then
    if value =? 0 then Throw "TLB set size size must be non-zero." else
    if negb (is_power_2 value) then Throw "TLB set size size must be a power of 2." else
    Ret (true, {| t_sets := Some (value, wrap 32 (value - 1), count_trailing_zeros_u32 value); t_ways := t_ways t |})
  else if bool_decide (parm = pfx +:+ "tlb-num-ways") then
    if value =? 0 then Throw "TLB way size must be non-zero." else
    Ret (true, {| t_sets := t_sets t; t_ways := value |})
  else Ret (false, t).
(** [sets] is the number of sets, zero for a fully associative table. *)
Definition get_model_lookup_parm (sets ways : Z) (pfx parm : string) : option Z :=
  if negb (sets =? 0) && bool_decide (parm = pfx +:+ "tlb-num-sets") then Some sets
  else if bool_decide (parm = pfx +:+ "tlb-num-ways") then Some ways
  else None.

(** ** The geometry stays consistent *)

Definition line_ok (c : Cache) : Prop :=
  2 ≤ lineshift c < 32 ∧ linesize c = 2 ^ lineshift c ∧ linemask c = linesize c - 1 ∧ uint 32 (ways c) ∧ ways c ≠ 0.
Definition tlb_ok (t : Tlb) : Prop :=
  t_ways t ≠ 0 ∧ match t_sets t with
                | None => True
                | Some (s, m, k) => 0 ≤ k < 32 ∧ s = 2 ^ k ∧ m = s - 1
                end.

(** Setting a parameter; an error is reported and changes nothing. *)
Definition try_set {A} (x : A) (o : outcome (bool * A)) : A :=
  match o with Ret (_, y) => y | _ => x end.
Definition set_cache_all (pfx : string) (l : list (string * Z)) (c : Cache) : Cache :=
  foldl (λ c pv, try_set c (set_model_cache_parm c pfx pv.1 pv.2)) c l.
Definition set_tlb_all (pfx : string) (l : list (string * Z)) (t : Tlb) : Tlb :=
  foldl (λ t pv, try_set t (set_model_lookup_parm t pfx pv.1 pv.2)) t l.

(** A value that passes the checks. *)
Lemma power_of_2_value v : uint 32 v → negb (is_power_2 v) = false →
  ∃ k, 0 ≤ k < 32 ∧ v = 2 ^ k ∧ wrap 32 (v - 1) = v - 1 ∧ count_trailing_zeros_u32 v = k.
Proof.
  intros Hv Hp. apply negb_false_iff in Hp. apply is_power_2_spec in Hp as (k & Hk & Ev); [|done]. exists k.
  split; [done|]. split; [done|]. pose proof (Z.pow_pos_nonneg 2 k). split; [|rewrite Ev; apply ctz_pow2; lia].
  apply wrap_small. unfold uint in *. lia.
Qed.

Lemma set_cache_line_ok c pfx parm v : uint 32 v → line_ok c → line_ok (try_set c (set_model_cache_parm c pfx parm v)).
Proof.
  intros Hv Hc. unfold set_model_cache_parm.
  repeat case_bool_decide; repeat (case_match; try done); destruct Hc as (Hs & Hl & Hm & Hw & Hz).
  - destruct (power_of_2_value v Hv) as (k & Hk & Ev & Em & Ek); [done|].
    rewrite Ek, Em. split_and!; cbn; try done; [|lia]. 
    match goal with H : negb (v mod 4 =? 0) = false |- _ => apply negb_false_iff, Z.eqb_eq in H as H4 end.
    destruct (decide (2 ≤ k)); [done|]. assert (k = 0 ∨ k = 1) as [-> | ->] by lia; rewrite Ev in H4; cbv in H4; done.
  - split; [done|]. split; [done|]. split; [done|]. split; [done|]. by apply Z.eqb_neq.
  - done.
Qed.

(** Whatever is set, in any order: the mask and the shift of a cache go with its line
    size, which is a power of two of at least a word; the mask and the shift of a TLB go
    with its number of sets; there is always a way. *)
Theorem parms_consistent (pfx : string) (l : list (string * Z)) (c : Cache) (t : Tlb) :
  Forall (λ pv : string * Z, uint 32 pv.2) l → line_ok c → tlb_ok t →
  line_ok (set_cache_all pfx l c) ∧ tlb_ok (set_tlb_all pfx l t).
Proof.
  intros Hl. unfold set_cache_all, set_tlb_all. revert c t.
  induction Hl as [|[parm v] l Hv Hl IH]; intros c t Hc Ht; [done|]. cbn [foldl fst snd] in *. apply IH.
  - by apply set_cache_line_ok.
  - unfold set_model_lookup_parm. repeat (case_match; try done); destruct Ht as [Hw Hs].
    + destruct (power_of_2_value v Hv) as (k & Hk & Ev & Em & Ek); [done|]. rewrite Em, Ek. done.
    + split; [|done]. by apply Z.eqb_neq.
Qed.

(** What is set is what is read back. *)
Theorem parms_read_back (c c' : Cache) (pfx parm : string) (v : Z) :
  parm ≠ pfx +:+ "cache-size" → set_model_cache_parm c pfx parm v = Ret (true, c') →
  get_model_cache_parm c' pfx parm = Some v.
Proof.
  intros Hp. unfold set_model_cache_parm, get_model_cache_parm.
  repeat (case_match; try done); intros [= <-]; repeat case_bool_decide; try done.
Qed.

(** The size of a cache is read back when the ways are a power of two too and the size
    holds at least one set. *)
Theorem cache_size_read_back (c : Cache) (pfx : string) (k w : Z) :
  line_ok c → 0 ≤ w → ways c = 2 ^ w → lineshift c + w ≤ k < 32 →
  ∃ c', set_model_cache_parm c pfx (pfx +:+ "cache-size") (2 ^ k) = Ret (true, c') ∧
    sets c' = 2 ^ (k - (lineshift c + w)) ∧ get_model_cache_parm c' pfx (pfx +:+ "cache-size") = Some (2 ^ k).
Proof.
  intros (Hs & Hl & Hm & Hw & Hz) Hw0 Ew Hk. unfold set_model_cache_parm, get_model_cache_parm.
  assert (pfx +:+ "cache-size" ≠ pfx +:+ "cache-line-size") as Hne by (intros E%(inj _); done).
  rewrite !(bool_decide_false (pfx +:+ "cache-size" = pfx +:+ "cache-line-size")) by done.
  rewrite !(bool_decide_true (pfx +:+ "cache-size" = _)) by done.
  assert (∀ e, 0 ≤ e → e < 32 → uint 32 (2 ^ e)) as Hu.
  { intros e He He2. split; [apply Z.pow_nonneg; lia|]. by apply Z.pow_lt_mono_r. }
  pose proof (Z.pow_pos_nonneg 2 k ltac:(lia) ltac:(lia)) as Hpk.
  destruct (Z.eqb_spec (2 ^ k) 0); [lia|].
  assert (is_power_2 (2 ^ k) = true) as -> by (apply is_power_2_spec; [apply Hu; lia|exists k; lia]). cbn [negb].
  rewrite Ew, Hl, <- Z.pow_add_r by lia. rewrite (wrap_small 32 (2 ^ (w + _))) by (apply Hu; lia).
  pose proof (Z.pow_pos_nonneg 2 (w + lineshift c) ltac:(lia) ltac:(lia)).
  destruct (Z.eqb_spec (2 ^ (w + lineshift c)) 0); [lia|]. eexists. split; [done|]. cbn [sets ways linesize].
  rewrite <- Z.pow_sub_r by lia. split; [f_equal; lia|].
  rewrite <- !Z.pow_add_r by lia. rewrite (wrap_small 32 (2 ^ (_ + w))) by (apply Hu; lia).
  rewrite <- Z.pow_add_r by lia. rewrite wrap_small by (apply Hu; lia). do 2 f_equal. lia.
Qed.

(** A size below one set is accepted: the cache then has no sets. *)
Example cache_without_sets :
  let c := {| linesize := 32; linemask := 31; lineshift := 5; sets := 128; ways := 8 |} in
  line_ok c ∧
  set_model_cache_parm c "l1-" "l1-cache-size" 128 =
    Ret (true, {| linesize := 32; linemask := 31; lineshift := 5; sets := 0; ways := 8 |}).
Proof. split; [unfold line_ok, uint; cbn; lia|by vm_compute]. Qed.

(** With three ways the number of sets is no power of two, which the parameter for it
    would refuse. *)
Example cache_with_odd_sets :
  set_model_cache_parm {| linesize := 32; linemask := 31; lineshift := 5; sets := 128; ways := 3 |}
    "l1-" "l1-cache-size" 1024 =
  Ret (true, {| linesize := 32; linemask := 31; lineshift := 5; sets := 10; ways := 3 |}).
Proof. by vm_compute. Qed.
